(* ===== verification/_CoqProject ===== *)
-Q . S2P
Prelude.v
Bitops.v
IntegerPack.v
Bitset.v
Float64.v
FloatArith.v
FlexType.v
FlexRef.v
FlexOps.v
FlexOpsSpec.v
TypeEncoding.v
TypeEncodingSpec.v
StringEscape.v
CsvTokenizer.v
CsvWriter.v
CsvRoundTrip.v
QueryPlan.v
QueryPlanSpec.v
QueryGraph.v
QueryGraphSpec.v
QueryGraphInv.v
QueryRewrite.v
QueryView.v
QueryRewriteSpec.v
QueryUnionSpec.v
QueryFilterSpec.v
QueryEngine.v
QueryEngineSpec.v
QuerySegment.v
QuerySegmentSpec.v
QueryExecute.v
QueryExecuteSpec.v
QueryCorrectness.v
SFrame.v
GroupAggregate.v
GroupBy.v
GroupBySpec.v
GroupBySegment.v
GroupKeySpec.v
GroupAggregateSpec.v
SFrameSpec.v
DataframeSpec.v
SFrameCorrectness.v
Join.v
JoinTableSpec.v
JoinMergeSpec.v
JoinLoopSpec.v
JoinAlgebraSpec.v
JoinGraceSpec.v
JoinColumnSpec.v
JoinSpec.v
GroupFrame.v
GroupCorrectness.v
JoinCorrectness.v
SArrayWriter.v
BlockManager.v
SArrayReader.v
SArrayWriterSpec.v
BlockManagerSpec.v
SArrayReaderSpec.v
SArrayOpenSpec.v
SArrayStoreSpec.v
SArrayCorrectness.v
SortMerge.v
Sort.v
SortOrderSpec.v
SortScatterSpec.v
SortMergeSpec.v
SortSpec.v
SortCorrectness.v
Rolling.v
RollingSpec.v
RollingCorrectness.v
Hash.v
SpaceSaving.v
SpaceSavingSpec.v
Sketches.v
SketchesSpec.v
SketchCorrectness.v
Correctness.v
