(* ===== verification/Prelude.v ===== *)
(** * SFrame: values, blocks, delimited text, frames, joins, groups and query plans

    A verification development of the core of SFrame, the disk-backed tables and arrays of
    src/oss_src. This file is the root: its comment documents the whole development, and its
    code is the prelude (notation, tactics and lemmas on words, bytes, readers and writers that
    the components share).

    ** The program

    A column (SArray) is a sequence of [flexible_type] values, cut into blocks; a block is
    encoded by type into bytes (sarray_v2_type_encoding), whose integers are packed by frame of
    reference (integer_pack) with a bit set (dense_bitset) for the missing values. Values are
    tagged unions with reference-counted payloads; they are compared, converted and combined by
    visitors (flexible_type_detail.hpp). Tables come from delimited text (csv_line_tokenizer)
    and go back to it (csv_writer), with escapes (string_escape). Operations on tables are lazy:
    they build a graph of planner nodes (sframe_query_engine), which the optimizer rewrites, the
    planner cuts into parallel segments, and the operators run block by block. Frames are
    grouped (groupby_aggregate) and joined (join_impl) by algorithms that partition them by
    the hash of their keys. The blocks of an array go to files, one for each segment, from which readers
    with a cache take the rows they are asked for.

    ** Files and what they model

    A name is that of a file and of its module, or of a second module of the file before it.

    - Bitops: graphlab/util/bitops.hpp, functions on words of a width [w].
    - IntegerPack: sframe/integer_pack.hpp and integer_pack_impl.hpp. The Duff devices of the
      packers are lists of statements entered at a label.
    - Bitset: util/dense_bitset.hpp; the state is [dense_bitset] (words and length).
    - Float64, FloatArith: doubles as 64-bit patterns; comparison and conversions, then
      arithmetic through the Standard Library's SpecFloat.
    - FlexType: flexible_type.hpp, flexible_type_base_types.hpp, image_type; the values, the
      bit fields of date-times, getters, [save] and [load].
    - FlexRef: the reference counts of flexible_type.hpp over an explicit [store] of objects
      and cells; one definition per member function that touches a count.
    - FlexOps: flexible_type_detail.hpp and flexible_type.cpp, the visitors; an exception is
      [Throw] and a machine trap is [Trap]. FlexOpsSpec: what they do.
    - StringEscape: flexible_type/string_escape.cpp and sframe/comma_escape_string.hpp.
    - TypeEncoding: sframe/sarray_v2_type_encoding.cpp and .hpp; TypeEncodingSpec: the
      encoders and decoders are inverse.
    - CsvTokenizer: sframe/csv_line_tokenizer.cpp, a state machine [machine] with one [step]
      per character, and its three front ends. CsvWriter: sframe/csv_writer.cpp. CsvRoundTrip:
      the machine ends, and reads what the writer wrote.
    - QueryPlan: operators/*.hpp and operators/operator_properties.cpp; planner nodes in a
      [heap], inferred types and lengths, and the table that a node stands for ([denote]), the
      specification of what follows. QueryPlanSpec: the inferences hold.
    - QueryGraph: planning/optimization_engine.cpp and optimization_node_info.hpp; the graph
      with edges both ways ([lookups]) over the heap. QueryGraphSpec: values of nodes when the
      heap grows or an input is redirected. QueryGraphInv: the graph stays [consistent].
    - QueryRewrite: planning/optimizations; each transform gives the plan that replaces a node.
      QueryView, QueryRewriteSpec, QueryUnionSpec, QueryFilterSpec: what a transform sees of a
      node, and that the plan it gives has the table of the node ([preserves]).
    - QueryEngine: optimization_transforms.cpp and the loops of optimization_engine.cpp, as
      functions and as a step relation. QueryEngineSpec: the invariant [running] of its states.
    - QuerySegment: the parallel slicing of operator_properties.cpp,
      operator_transformations.cpp, planner.cpp. QuerySegmentSpec: segments and rates.
    - QueryExecute: the [execute] loops of the operators over streams of blocks.
      QueryExecuteSpec: they refine [denote].
    - SFrame: sframe/sframe.cpp, sframe.hpp, sframe_reader.cpp and dataframe.cpp; a frame has
      columns of values in segments, and names; a frame opened for writing is a [frame_writer].
      SFrameSpec: what a writer [holds], and the invariant [frame_ok]. DataframeSpec:
      conversions. SFrameReach: the frames that can be [made].
    - Join: sframe/join.cpp and join_impl.cpp. JoinTableSpec: the hash table. JoinMergeSpec: one
      row merged with its matches. JoinLoopSpec: a partition gives the [relational_join] of its
      rows. JoinAlgebraSpec: that join does not see the order of rows, splits by key, and
      commutes with the exchange of the frames. JoinPartitionSpec, JoinGraceSpec: the partitions
      and the loop over them. JoinColumnSpec, JoinNameSpec: columns and names put back in order.
      JoinSpec: the whole join.
    - GroupAggregate: sframe/groupby_aggregate_operators.hpp and group_aggregate_value.hpp; a
      [group_aggregate_value] is an object with its members, each method a function.
    - GroupBy: sframe/groupby_aggregate_impl.cpp; segments with their elements in memory and
      the sorted chunks they are flushed to, and the merge of the chunks. GroupBySpec: the merge
      gives each key once. GroupBySegment: the invariant of a segment, and the whole group-by
      against the interface [GroupLaws] of the aggregators and [KeyOrder] of the keys.
      GroupKeySpec, GroupAggregateSpec, GroupLawsSpec: keys and aggregators that keep them.
    - GroupFrame: sframe/groupby_aggregate.cpp, the group-by of a frame. GroupTypesSpec: the
      aggregators emit values of the types they announce. GroupFrameSpec: the frame that is
      written for a [groupby_request].
    - SArrayWriter: sframe/sarray_v2_block_writer.cpp and the writer of sarray_file_format_v2.hpp;
      an [array_writer] has the files of the segments and the buffers of the columns.
      BlockManager: sframe/sarray_v2_block_manager.cpp, the open segments and their counts.
      SArrayReader: the reader of sarray_file_format_v2.hpp and sarray_v2_encoded_block.cpp, with
      its cache of blocks. SArrayWriterSpec: a block in a file [stores] values. SArraySegmentSpec:
      the invariant [writer_ok]. BlockManagerSpec: footers, names, and [manager_ok].
      SArrayReaderSpec: the invariant [reader_ok] of the cache. SArrayOpenSpec: opening and closing.
      SArrayStoreSpec: a closed writer leaves its columns in files. SArrayLibrarySpec: several
      readers over one manager, against lists of values.
    - SortMerge: sframe_query_engine/algorithm/sort_comparator.hpp and sort_and_merge.cpp; the
      threads that sort partitions are a step function on a [merge_state]. Sort: sort.cpp, over
      the heap of planner nodes. SortOrderSpec: the comparators are weak orders. SortScatterSpec:
      the partitions. SortColumnSpec: the keys first, and back. SortMergeSpec: the invariants of
      the threads and a measure of their steps. SortSpec: the whole sort.
    - Rolling: sframe/rolling_aggregate.cpp; RollingSpec: the buffer of a segment is the window
      around each row.
    - Hash: the hashes of integers in util/cityhash_gl.hpp; they are compositions of bijections. SpaceSaving: sketches/space_saving.hpp, a [space_saving] with its vector of entries and
      pointers into it. SpaceSavingSpec: the invariant [sketch_ok] after a stream, and the queries.
      Sketches: sketches/countmin.hpp, countsketch.hpp, hyperloglog.hpp. SketchesSpec: their cells as
      functions of the stream, and their estimates.
    - Correctness, QueryCorrectness, GroupCorrectness, SFrameCorrectness, JoinCorrectness,
      SArrayCorrectness, SortCorrectness, SketchCorrectness,
      RollingCorrectness: the properties, each with a concrete input where it has hypotheses.

    ** What the properties show

    Round trips: values, blocks, packed integers, bit sets, escapes, rows of text. Refinement:
    the shared, reference-counted values behave as independent values; the in-place unescaping
    is the unescaping of an immutable text. Tables against code: conversion, arithmetic and
    comparison do what the tables of flexible_type_base_types.hpp announce, on all pairs of
    types, with the exceptions stated. Functional behaviour: bits of bit sets, their
    enumeration, the carry of times, division, logarithms. Termination: tokenizers, time steps,
    transfers of bit sets, with the cases that never end. Query plans: the optimizer keeps the
    table of a plan, whatever the order of its steps, and can always take one; its graph stays
    consistent; inferred types and lengths are those of the table; segments concatenate to the
    whole; the block loops of the operators give the table. Group-by: each key once with the
    result of all its rows, whatever the buffers and segments; a frame is grouped into a valid
    frame of the columns announced, whatever the threads; the partial results of the aggregators
    combine, but for those that are shown not to. Frames: the operations keep them
    valid, written rows are read back. Joins: the rows are those of the
    relational join, whatever the partitions, the hash functions and the sizes. Sort: the rows
    of a plan in the order of their keys, in memory or by partitions, whatever the pivots and the
    order of the threads, which keep to their memory and end. Files: what is
    written is read back, whatever the sizes of buffers and caches and the blocks thrown out; the
    open segments are counted. Sketches: what their estimates are worth on any stream, and when
    sketches can be combined. Some properties record defects:
    their comments say so.

    ** Bounds, fuel and abstractions

    - Integers are [Z] with the wrap-around of their width written out ([uw], [sw]). Signed
      overflow, undefined in C++, wraps.
    - Fuel: [load] takes the nesting depth of the value; the tokenizer takes the length of the
      text and a turn per column; other loops take the length of what they consume. The
      theorems show that it is enough. The recursions over a plan take the number of nodes,
      which no path without cycle exceeds; the loops of the optimizer take any fuel: what is
      shown holds of every state they reach, but not that they end.
    - [None] is undefined behaviour or an exception where a file does not say otherwise; an
      exception discards what the code had written before it.
    - NaN payloads are canonical. The result of converting an out-of-range double to an integer
      is a parameter ([oob]). [atof], the text of doubles, boost's ISO dates, the hash
      functions of strings and the Boost Spirit parsers are parameters.
    - Files are a map from names to bytes. The bytes of a block's metadata that the code leaves
      unset are a parameter, LZ4 is a class [Compressor] with the law that it can be undone, and
      the random numbers of the cache are a list. Columns are assumed to have less than [2^64]
      values and vector elements, and files less than [2^64] bytes ([storable], [fits]).
    - Atomic operations are single steps. Threads are modelled where a file says so: in the
      sort their steps between critical sections interleave freely; elsewhere the order of
      what they do is arbitrary at most.

    ** Not modelled

    Of the query engine: the transforms that merge equal filters and equal sources and the one
    that tags sources; the end of the stages of the optimizer; the memo fields of planner nodes;
    partial materialization; the coroutines and queues between operators, with the skipping of
    blocks; write callbacks; the rows of a range, whose bounds the constructor never sets.

    Of group-by: the quantile sketch, the bytes of the intermediate elements, which are read
    back as they were written, and the locks of concurrent threads. The averages and variances
    are modelled, but rounding makes their results depend on how the rows are split; so do sums
    of doubles, vectors of different sizes and dicts with missing keys.

    Of frames and joins: metadata and files; the interleaving of the threads that probe a hash
    table, whose segments are written one after the other here (only the order in which rows get
    into a partition is arbitrary); joins whose keys are vectors, lists, dicts, images, dates,
    NaN or the negative zero, on which equality and hash disagree or are not those of the value.

    Of the sort: the sketch of a random sample that gives the pivots (any keys are allowed), the
    files of the array of partitions, and columns with NaN or named twice, on which it is not
    right.

    Of the sketches: those of quantiles, and the changes of type in space_saving_flextype.

    Of array files: the index files, version 1 of the format, arrays of other types than
    [flexible_type], the pools of buffers and file handles.

    Threads, processes, networks, the Python and Lua bindings, the
    grammar of the value parser (Boost Spirit), image codecs, vendored libraries and tests. *)

From Stdlib Require Export ZArith Lia Bool.
From stdpp Require Export base tactics list numbers option gmap.

#[global] Open Scope Z_scope.

(** * Notation *)

Declare Scope sframe_scope.
Delimit Scope sframe_scope with sframe.
#[global] Open Scope sframe_scope.

Infix ".&" := Z.land (at level 40, left associativity) : sframe_scope.
Infix ".^" := Z.lxor (at level 42, left associativity) : sframe_scope.
Infix ".|" := Z.lor (at level 44, left associativity) : sframe_scope.

(** [dlia]: [lia] on goals with divisions and remainders by literals. *)
Ltac dlia := intros; Z.to_euclidean_division_equations; lia.

(** * Machine integers

    An unsigned [w]-bit integer is a [Z] in [[0, 2^w)]; arithmetic that can leave the
    range is followed by the truncation [uw w].  Signed 64-bit integers are a [Z] in
    [[-2^63, 2^63)], reached from a bit pattern by [s64]. *)

Definition uw (w x : Z) : Z := x mod 2 ^ w.
Abbreviation u8 := (uw 8).
Abbreviation u16 := (uw 16).
Abbreviation u32 := (uw 32).
Abbreviation u64 := (uw 64).

Definition sw (w x : Z) : Z :=
  let u := uw w x in if u <? 2 ^ (w - 1) then u else u - 2 ^ w.
Abbreviation s8 := (sw 8).
Abbreviation s64 := (sw 64).

Definition is_u (w x : Z) : Prop := 0 ≤ x < 2 ^ w.
Abbreviation is_byte := (is_u 8).
Abbreviation is_u64 := (is_u 64).
Definition is_s64 (x : Z) : Prop := - 2 ^ 63 ≤ x < 2 ^ 63.

#[global] Instance is_u_dec w x : Decision (is_u w x).
Proof. unfold is_u. apply _. Defined.
#[global] Instance is_s64_dec x : Decision (is_s64 x).
Proof. unfold is_s64. apply _. Defined.

Create HintDb sframe.

Lemma uw_range w x : 0 ≤ w → is_u w (uw w x).
Proof. intros. apply Z.mod_pos_bound. lia. Qed.

Lemma uw_small w x : is_u w x → uw w x = x.
Proof. intros. by apply Z.mod_small. Qed.

Lemma uw_uw w x : uw w (uw w x) = uw w x.
Proof. unfold uw. by rewrite Zmod_mod. Qed.

Lemma is_u_mono v w x : 0 ≤ v ≤ w → is_u v x → is_u w x.
Proof.
  unfold is_u. intros ? [? ?]. split; [done|].
  pose proof (Z.pow_le_mono_r 2 v w). lia.
Qed.

#[export] Hint Resolve uw_range uw_small : sframe.

(** [push_mod] removes the truncations under an outer [mod] so that two modular
    expressions can be compared with [ring]-like normalisation. *)
Lemma uw_add_l w a b : uw w (uw w a + b) = uw w (a + b).
Proof. unfold uw. by rewrite Zplus_mod_idemp_l. Qed.
Lemma uw_add_r w a b : uw w (a + uw w b) = uw w (a + b).
Proof. unfold uw. by rewrite Zplus_mod_idemp_r. Qed.
Lemma uw_sub_l w a b : uw w (uw w a - b) = uw w (a - b).
Proof. unfold uw. by rewrite Zminus_mod_idemp_l. Qed.
Lemma uw_sub_r w a b : uw w (a - uw w b) = uw w (a - b).
Proof. unfold uw. by rewrite Zminus_mod_idemp_r. Qed.

Ltac push_mod := rewrite ?uw_add_l, ?uw_add_r, ?uw_sub_l, ?uw_sub_r, ?uw_uw.

Lemma sw_range x : is_s64 (s64 x).
Proof.
  unfold is_s64, sw. pose proof (uw_range 64 x). unfold is_u in *.
  case_match; lia.
Qed.

Lemma sw_small x : is_s64 x → s64 x = x.
Proof.
  unfold is_s64, sw, uw. intros.
  assert (x < 0 ∨ 0 ≤ x) as [?|?] by lia.
  - replace (x mod 2 ^ 64) with (x + 2 ^ 64); [case_match; lia|].
    apply Zmod_unique with (-1); lia.
  - rewrite Z.mod_small by lia. case_match; lia.
Qed.

Lemma uw_sw x : u64 (s64 x) = u64 x.
Proof.
  unfold sw. case_match; [apply uw_uw|].
  unfold uw. replace (x mod 2 ^ 64 - 2 ^ 64) with (x mod 2 ^ 64 + (-1) * 2 ^ 64) by lia.
  by rewrite Z_mod_plus_full, Zmod_mod.
Qed.

Lemma sw_uw x : s64 (u64 x) = s64 x.
Proof. unfold sw. by rewrite uw_uw. Qed.

(** The same at any width. *)
Definition is_s (w x : Z) : Prop := - 2 ^ (w - 1) ≤ x < 2 ^ (w - 1).

#[global] Instance is_s_dec w x : Decision (is_s w x).
Proof. unfold is_s. apply _. Defined.

Lemma pow2_half w : 0 < w → 2 ^ w = 2 * 2 ^ (w - 1) ∧ 0 < 2 ^ (w - 1).
Proof.
  intros. split; [|apply Z.pow_pos_nonneg; lia].
  rewrite <- Z.pow_succ_r by lia. f_equal. lia.
Qed.

Lemma sw_range_at w x : 0 < w → is_s w (sw w x).
Proof.
  intros Hw. unfold is_s, sw. pose proof (uw_range w x). unfold is_u in *.
  destruct (pow2_half w Hw). case_match; lia.
Qed.

Lemma sw_small_at w x : 0 < w → is_s w x → sw w x = x.
Proof.
  intros Hw. unfold is_s, sw, uw. destruct (pow2_half w Hw) as [Hd ?]. intros.
  assert (x < 0 ∨ 0 ≤ x) as [?|?] by lia.
  - replace (x mod 2 ^ w) with (x + 2 ^ w); [case_match; lia|].
    apply Zmod_unique with (-1); lia.
  - rewrite Z.mod_small by lia. case_match; lia.
Qed.

Lemma sw_uw_at w x : sw w (uw w x) = sw w x.
Proof. unfold sw. by rewrite uw_uw. Qed.

(** The conversion changes a number by a multiple of [2^w], and is determined by that. *)
Lemma sw_shift w x k : 0 < w → sw w (x + k * 2 ^ w) = sw w x.
Proof.
  intros Hw. rewrite <- sw_uw_at, <- (sw_uw_at w x). f_equal. unfold uw.
  destruct (pow2_half w Hw). by rewrite Z.mod_add by lia.
Qed.

Lemma sw_multiple w x : 0 < w → ∃ k, sw w x = x + k * 2 ^ w.
Proof.
  intros Hw. unfold sw, uw. destruct (pow2_half w Hw).
  pose proof (Z.div_mod x (2 ^ w) ltac:(lia)). case_match.
  - exists (- (x / 2 ^ w)). lia.
  - exists (- (x / 2 ^ w) - 1). lia.
Qed.

Lemma sw_unique w x y k : 0 < w → is_s w y → x = y + k * 2 ^ w → sw w x = y.
Proof. intros Hw Hy ->. rewrite sw_shift by done. by apply sw_small_at. Qed.

Lemma sw_sw v w x : 0 < w ≤ v → sw w (sw v x) = sw w x.
Proof.
  intros [Hw Hv]. destruct (sw_multiple v x) as [k ->]; [lia|].
  replace (2 ^ v) with (2 ^ (v - w) * 2 ^ w).
  - by rewrite Z.mul_assoc, sw_shift.
  - rewrite <- Z.pow_add_r by lia. f_equal. lia.
Qed.

#[export] Hint Resolve sw_range sw_small : sframe.


(** * Bit operations *)

Lemma land_shiftl_low a b k : 0 ≤ k → 0 ≤ a < 2 ^ k → a .& (b ≪ k) = 0.
Proof.
  intros ? Ha. apply Z.bits_inj'; intros i ?. rewrite Z.land_spec, Z.bits_0.
  destruct (decide (i < k)) as [|].
  - rewrite Z.shiftl_spec_low by done. apply andb_false_r.
  - rewrite <- (Z.mod_small a (2 ^ k)) by done.
    by rewrite Z.mod_pow2_bits_high by lia.
Qed.

Lemma lor_shiftl_add a b k :
  0 ≤ k → 0 ≤ a < 2 ^ k → a .| (b ≪ k) = a + b * 2 ^ k.
Proof.
  intros. rewrite <- Z.add_nocarry_lor by (by apply land_shiftl_low).
  by rewrite Z.shiftl_mul_pow2.
Qed.

Lemma shiftl_lor_add a b k :
  0 ≤ k → 0 ≤ a < 2 ^ k → (b ≪ k) .| a = b * 2 ^ k + a.
Proof. intros. rewrite Z.lor_comm, lor_shiftl_add by done. lia. Qed.

Lemma pow2_above_bits w x :
  0 ≤ w → 0 ≤ x → (∀ i, w ≤ i → Z.testbit x i = false) → x < 2 ^ w.
Proof.
  intros Hw Hx Hb. destruct (decide (x = 0)) as [->|]; [lia|].
  apply Z.log2_lt_pow2; [lia|]. apply Z.nle_gt. intros ?.
  specialize (Hb (Z.log2 x) ltac:(done)). rewrite Z.bit_log2 in Hb by lia. done.
Qed.

Lemma testbit_above w x i : 0 ≤ w ≤ i → is_u w x → Z.testbit x i = false.
Proof.
  intros ? ?. rewrite <- (Z.mod_small x (2 ^ w)) by done.
  apply Z.mod_pow2_bits_high; lia.
Qed.

Lemma lor_range w a b : 0 ≤ w → is_u w a → is_u w b → is_u w (a .| b).
Proof.
  intros Hw Ha Hb. assert (0 ≤ a .| b) by (apply Z.lor_nonneg; unfold is_u in *; lia).
  split; [done|]. apply pow2_above_bits; [done..|]. intros i ?.
  by rewrite Z.lor_spec, (testbit_above w a), (testbit_above w b).
Qed.

Lemma lor_ge_l a b : 0 ≤ a → 0 ≤ b → a ≤ a .| b.
Proof.
  intros. replace (a .| b) with (a .| Z.ldiff b a).
  - rewrite <- Z.add_nocarry_lor.
    + assert (0 ≤ Z.ldiff b a) by (apply Z.ldiff_nonneg; auto). lia.
    + apply Z.bits_inj'; intros i ?. rewrite Z.land_spec, Z.ldiff_spec, Z.bits_0.
      by destruct (Z.testbit a i), (Z.testbit b i).
  - apply Z.bits_inj'; intros i ?. rewrite !Z.lor_spec, Z.ldiff_spec.
    by destruct (Z.testbit a i), (Z.testbit b i).
Qed.

Lemma lor_ge_r a b : 0 ≤ a → 0 ≤ b → b ≤ a .| b.
Proof. rewrite Z.lor_comm. intros. by apply lor_ge_l. Qed.

(** Masking with [2^n - 1] is reduction modulo [2^n]; the literal masks of the code are
    rewritten by [mask_mod]. *)
Lemma land_mask x n : 0 ≤ n → x .& (2 ^ n - 1) = x mod 2 ^ n.
Proof.
  intros. rewrite <- Z.land_ones by done. f_equal. rewrite Z.ones_equiv. lia.
Qed.

Lemma mod_mod_pow2 x i j : 0 ≤ j ≤ i → (x mod 2 ^ i) mod 2 ^ j = x mod 2 ^ j.
Proof.
  intros. replace (2 ^ i) with (2 ^ j * 2 ^ (i - j)) by (rewrite <- Z.pow_add_r by lia; f_equal; lia).
  rewrite Z.rem_mul_r by (try apply Z.pow_nonzero; try apply Z.pow_pos_nonneg; lia).
  rewrite Z.mul_comm, Z_mod_plus_full. apply Zmod_mod.
Qed.

Ltac mask_mod :=
  repeat match goal with
  | |- context [?x .& 1] => change (x .& 1) with (x .& (2 ^ 1 - 1)); rewrite (land_mask x 1) by lia
  | |- context [?x .& 3] => change (x .& 3) with (x .& (2 ^ 2 - 1)); rewrite (land_mask x 2) by lia
  | |- context [?x .& 7] => change (x .& 7) with (x .& (2 ^ 3 - 1)); rewrite (land_mask x 3) by lia
  | |- context [?x .& 15] => change (x .& 15) with (x .& (2 ^ 4 - 1)); rewrite (land_mask x 4) by lia
  | |- context [?x .& 31] => change (x .& 31) with (x .& (2 ^ 5 - 1)); rewrite (land_mask x 5) by lia
  | |- context [?x .& 63] => change (x .& 63) with (x .& (2 ^ 6 - 1)); rewrite (land_mask x 6) by lia
  | |- context [?x .& 127] => change (x .& 127) with (x .& (2 ^ 7 - 1)); rewrite (land_mask x 7) by lia
  end.

(** [eval_pow] evaluates the closed powers of two, so that [lia] sees literals. *)
Ltac is_Z_literal v := match v with Z0 => idtac | Zpos _ => idtac | Zneg _ => idtac end.
Ltac eval_pow :=
  repeat match goal with
  | |- context [2 ^ ?k] => let v := eval vm_compute in (2 ^ k) in is_Z_literal v;
      change (2 ^ k) with v
  | H : context [2 ^ ?k] |- _ => let v := eval vm_compute in (2 ^ k) in is_Z_literal v;
      change (2 ^ k) with v in H
  end.

(** [eval_eqb] decides the closed [Z] comparisons of the goal. *)
Ltac eval_eqb :=
  repeat match goal with
  | |- context [?a =? ?b] =>
      let v := eval vm_compute in (a =? b) in
      first [constr_eq v true | constr_eq v false]; change (a =? b) with v
  end.

(** * Little-endian byte strings *)

Fixpoint le_bytes (n : nat) (x : Z) : list Z :=
  match n with
  | O => []
  | S n' => u8 x :: le_bytes n' (x ≫ 8)
  end.

Fixpoint le_num (l : list Z) : Z :=
  match l with
  | [] => 0
  | b :: l' => b + 2 ^ 8 * le_num l'
  end.

Lemma length_le_bytes n x : length (le_bytes n x) = n.
Proof. revert x. induction n; intros; simpl; auto. Qed.

Lemma le_bytes_byte n x : Forall is_byte (le_bytes n x).
Proof. revert x. induction n; intros; simpl; constructor; auto with sframe lia. Qed.

Lemma le_num_range l : Forall is_byte l → is_u (8 * Z.of_nat (length l)) (le_num l).
Proof.
  induction 1 as [|b l Hb _ IH]; [done|].
  rewrite length_cons. replace (8 * Z.of_nat (S (length l)))
    with (8 + 8 * Z.of_nat (length l)) by lia.
  unfold is_u in *. rewrite Z.pow_add_r by lia. simpl le_num. nia.
Qed.

Lemma le_num_le_bytes n x : le_num (le_bytes n x) = uw (8 * Z.of_nat n) x.
Proof.
  revert x. induction n as [|n IH]; intros x; [simpl; unfold uw; by rewrite Z.mod_1_r|].
  simpl le_bytes. simpl le_num. rewrite IH. unfold uw.
  replace (8 * Z.of_nat (S n)) with (8 + 8 * Z.of_nat n) by lia.
  rewrite Z.pow_add_r by lia. rewrite Z.shiftr_div_pow2 by lia.
  rewrite Z.rem_mul_r; [done|lia|]. apply Z.pow_pos_nonneg; lia.
Qed.

Lemma le_bytes_le_num l : Forall is_byte l → le_bytes (length l) (le_num l) = l.
Proof.
  induction 1 as [|b l Hb _ IH]; [done|].
  simpl. f_equal.
  - unfold uw. rewrite Z.mul_comm, Z_mod_plus_full. by apply Z.mod_small.
  - rewrite Z.shiftr_div_pow2, Z.mul_comm, Z_div_plus_full, Z.div_small, Z.add_0_l by
      (done || lia). done.
Qed.

Lemma le_num_app l k : le_num (l ++ k) = le_num l + 2 ^ (8 * Z.of_nat (length l)) * le_num k.
Proof.
  induction l as [|b l IH]; simpl le_num; [change (2 ^ _) with 1; simpl app; lia|].
  rewrite length_cons, IH.
  replace (8 * Z.of_nat (S (length l))) with (8 + 8 * Z.of_nat (length l)) by lia.
  rewrite Z.pow_add_r by lia. ring.
Qed.

(** * Readers

    A reader consumes a prefix of the remaining input bytes.  [None] is a read past the end
    of the input (undefined behaviour in the code's buffer mode) or a failed assertion. *)

Definition reader (A : Type) : Type := list Z → option (A * list Z).

#[global] Instance reader_ret : MRet reader := λ A a s, Some (a, s).
#[global] Instance reader_bind : MBind reader := λ A B f m s,
  match m s with Some (a, s') => f a s' | None => None end.
#[global] Instance reader_fmap : FMap reader := λ A B f m s,
  match m s with Some (a, s') => Some (f a, s') | None => None end.

Definition rfail {A} : reader A := λ _, None.

(** [read n]: [iarc.read(c, n)]. *)
Definition read (n : nat) : reader (list Z) := λ s,
  if decide (n ≤ length s)%nat then Some (take n s, drop n s) else None.

Lemma read_app n l s : length l = n → read n (l ++ s) = Some (l, s).
Proof.
  intros <-. unfold read. rewrite decide_True by (rewrite length_app; lia).
  by rewrite take_app_length, drop_app_length.
Qed.

Lemma reader_bind_Some {A B} (m : reader A) (f : A → reader B) s a s' :
  m s = Some (a, s') → (m ≫= f) s = f a s'.
Proof. intros H. unfold mbind, reader_bind. by rewrite H. Qed.

Definition rlift {A} (o : option A) : reader A := λ s, a ← o; Some (a, s).

(** * Writers

    What an encoder appends to the output archive; [None] is a failed assertion or an access
    outside a buffer. *)

Definition writer : Type := option (list Z).

Definition wseq (a b : writer) : writer := x ← a; y ← b; Some (x ++ y).
Infix "+++" := wseq (at level 60, right associativity) : sframe_scope.

Fixpoint wconcat {A} (f : A → writer) (l : list A) : writer :=
  match l with
  | [] => Some []
  | a :: l' => f a +++ wconcat f l'
  end.

(** What an encoder promises to its clients: it produces output, and decoding that output,
    followed by anything, gives the value back and leaves exactly what followed. *)
Definition encodes {A} (w : writer) (dec : reader A) (a : A) : Prop :=
  ∃ bs, w = Some bs ∧ ∀ rest, dec (bs ++ rest) = Some (a, rest).

Class RoundTrip {A : Type} (P : A → Prop) (enc : A → writer) (dec : A → reader A) : Prop :=
  round_trip : ∀ a, P a → encodes (enc a) (dec a) a.

(** [read_bind] runs the next read of a reader on an input that starts with the bytes. *)
Lemma read_bind {B} n l (f : list Z → reader B) s :
  length l = n → (read n ≫= f) (l ++ s) = f l s.
Proof. intros H. by apply reader_bind_Some, read_app. Qed.

Lemma encodes_ret {A} (a : A) : encodes (Some []) (mret a) a.
Proof. by exists []. Qed.

Lemma encodes_bind {A B} (w1 w2 : writer) (d1 : reader A) (d2 : A → reader B) a b :
  encodes w1 d1 a → encodes w2 (d2 a) b → encodes (w1 +++ w2) (d1 ≫= d2) b.
Proof.
  intros (b1 & -> & H1) (b2 & -> & H2). exists (b1 ++ b2). split; [done|].
  intros rest. rewrite <- app_assoc. rewrite (reader_bind_Some _ _ _ _ _ (H1 _)). apply H2.
Qed.

(** The last step of a decoder applies a pure function to what was read. *)
Lemma encodes_map {A B} (w : writer) (d : reader A) (f : A → B) a :
  encodes w d a → encodes w (v ← d; mret (f v)) (f a).
Proof.
  intros (bs & -> & H). exists bs. split; [done|]. intros rest.
  by rewrite (reader_bind_Some _ _ _ _ _ (H _)).
Qed.

(** The same when that function can fail, and does not on this value. *)
Lemma encodes_lift {A B} (w : writer) (d : reader A) (f : A → option B) a b :
  encodes w d a → f a = Some b → encodes w (v ← d; rlift (f v)) b.
Proof.
  intros (bs & -> & H) Hf. exists bs. split; [done|]. intros rest.
  rewrite (reader_bind_Some _ _ _ _ _ (H _)). unfold rlift. by rewrite Hf.
Qed.

(** Unsigned little-endian fields of [n] bytes: [oarc << x], [iarc >> x] on a POD. *)
Definition write_le (n : nat) (x : Z) : writer := Some (le_bytes n x).
Definition read_le (n : nat) : reader Z := b ← read n; mret (le_num b).

Lemma encodes_le n x : is_u (8 * Z.of_nat n) x → encodes (write_le n x) (read_le n) x.
Proof.
  intros Hx. exists (le_bytes n x). split; [done|]. intros rest. unfold read_le.
  rewrite read_bind by apply length_le_bytes. by rewrite le_num_le_bytes, uw_small.
Qed.

(** The loops that read [n] values one after the other. *)
Fixpoint read_many {A} (n : nat) (r : reader A) : reader (list A) :=
  match n with
  | O => mret []
  | S n' => a ← r; l ← read_many n' r; mret (a :: l)
  end.

Lemma encodes_many {A} (enc : A → writer) (dec : reader A) (l : list A) :
  Forall (λ a, encodes (enc a) dec a) l →
  encodes (wconcat enc l) (read_many (length l) dec) l.
Proof.
  induction 1 as [|a l Ha _ IH]; [apply encodes_ret|].
  cbn [wconcat length read_many]. apply encodes_bind with (a := a); [done|].
  by apply encodes_map with (f := cons a).
Qed.

Lemma encodes_read bs : encodes (Some bs) (read (length bs)) bs.
Proof. exists bs. split; [done|]. intros. by apply read_app. Qed.

(** * Lists *)

Lemma map_const_seq {A} (x : A) n : ∀ k, map (λ _, x) (seq k n) = replicate n x.
Proof. induction n as [|n IH]; intros k; [done|]. cbn. by rewrite IH. Qed.

(** The [for] loops of the code that append to an output are [mapM]/[foldl]; [iter_n] is a
    counted loop on a state. *)
Definition iter_n {S} (n : nat) (f : S → S) (s : S) : S := Nat.iter n f s.

Lemma fold_lor_ge (l : list Z) acc :
  0 ≤ acc → Forall (λ x, 0 ≤ x) l →
  acc ≤ foldl Z.lor acc l ∧ Forall (λ x, x ≤ foldl Z.lor acc l) l.
Proof.
  intros Hacc Hl. revert acc Hacc. induction Hl as [|x l Hx _ IH]; intros acc ?; simpl.
  { split; [lia|constructor]. }
  destruct (IH (acc .| x)) as [H1 H2]; [apply Z.lor_nonneg; lia|].
  pose proof (lor_ge_l acc x). pose proof (lor_ge_r acc x).
  split; [lia|]. constructor; [lia|done].
Qed.

Lemma fold_lor_range w (l : list Z) acc :
  0 ≤ w → is_u w acc → Forall (is_u w) l → is_u w (foldl Z.lor acc l).
Proof.
  intros ? Hacc Hl. revert acc Hacc. induction Hl; intros; simpl; [done|].
  auto using lor_range.
Qed.

(** [forallb_seq n p] evaluates [p] on [0..n-1]; with [vm_compute] it decides properties of
    bytes and of bit counts. *)
Definition forall_below (n : nat) (p : Z → bool) : bool :=
  forallb (λ k, p (Z.of_nat k)) (seq 0 n).

Lemma forall_below_spec n p :
  forall_below n p = true → ∀ x, 0 ≤ x < Z.of_nat n → p x = true.
Proof.
  unfold forall_below. rewrite forallb_forall. intros H x ?.
  rewrite <- (Z2Nat.id x) by lia. apply H. apply in_seq. lia.
Qed.
