(* ===== verification/Bitops.v ===== *)
(** Bit manipulation helpers of [graphlab/util/bitops.hpp].

    Every function of the header is a template over an unsigned type [T]; the width of [T] is
    the parameter [w] here.  The compiler builtins the header calls are [ctz], [log2]-based
    [clz] and [popcount], defined on the value as the compiler documents them. *)

From S2P Require Import Prelude.

Module Bitops.

(** ** Compiler builtins *)

Fixpoint pos_ctz (p : positive) : Z :=
  match p with
  | xO p' => 1 + pos_ctz p'
  | _ => 0
  end.

Fixpoint pos_popcount (p : positive) : Z :=
  match p with
  | xH => 1
  | xO p' => pos_popcount p'
  | xI p' => 1 + pos_popcount p'
  end.

(** [__builtin_ctz], [__builtin_clz] (of a [w]-bit operand) and [__builtin_popcount]; the
    first two are undefined on 0 and only called on non-zero operands. *)
Definition builtin_ctz (v : Z) : Z := match v with Zpos p => pos_ctz p | _ => 0 end.
Definition builtin_clz (w v : Z) : Z := w - 1 - Z.log2 v.
Definition builtin_popcount (v : Z) : Z := match v with Zpos p => pos_popcount p | _ => 0 end.

(** ** The header's functions *)

Section ops.
Context (w : Z).

Definition is_power_of_2 (x : Z) : bool := (x .& uw w (x - 1)) =? 0.

Definition bit_on (x bit : Z) : bool := negb ((x .& uw w (1 ≪ bit)) =? 0).

Definition bit_off (x bit : Z) : bool := (x .& uw w (1 ≪ bit)) =? 0.

Definition set_bit_off (x bit : Z) : Z := x .& uw w (Z.lnot (1 ≪ bit)).

Definition set_bit_on (x bit : Z) : Z := x .| uw w (1 ≪ bit).

Definition flip_bit (x bit : Z) : Z := x .^ uw w (1 ≪ bit).

Definition bit_mask (n_bits : Z) : Z := uw w (uw w (1 ≪ n_bits) - 1).

Definition bit_mask_range (index_begin index_end : Z) : Z :=
  bit_mask index_begin .^ bit_mask index_end.

Definition num_bits_on (v : Z) : Z := builtin_popcount v.

Definition n_trailing_zeros (v : Z) : Z := if v =? 0 then w else builtin_ctz v.

Definition n_trailing_ones (v : Z) : Z := n_trailing_zeros (uw w (Z.lnot v)).

Definition index_first_on_bit (v : Z) : Z := n_trailing_zeros v.

Definition n_leading_zeros (v : Z) : Z := if v =? 0 then w else builtin_clz w v.

Definition n_leading_ones (v : Z) : Z := n_leading_zeros (uw w (Z.lnot v)).

(** [((!v) - 1)] is an [int] that is 0 for [v = 0] and all ones otherwise. *)
Definition not_v_minus_1 (v : Z) : Z := (if v =? 0 then 1 else 0) - 1.

Definition index_last_on_bit (v : Z) : Z :=
  w - (not_v_minus_1 v .& (1 + n_leading_zeros v)).

Definition bitwise_log2_ceil (v : Z) : Z :=
  not_v_minus_1 v .& (index_last_on_bit v + (if is_power_of_2 v then 0 else 1)).

Definition bitwise_log2_floor (v : Z) : Z := not_v_minus_1 v .& index_last_on_bit v.

Definition bitwise_pow2_mod (v pow2_idx : Z) : Z :=
  ((if pow2_idx =? 0 then 0 else 1) * bit_mask pow2_idx) .& v.

Definition first_n_bits_on (v top_bit : Z) : bool :=
  (v .& bit_mask top_bit) =? bit_mask top_bit.
End ops.

(** Reference: the number of set bits among the low [w]. *)
Definition bit_count (w : nat) (v : Z) : Z :=
  Z.of_nat (length (List.filter (λ i, Z.testbit v (Z.of_nat i)) (seq 0 w))).

(** ** Builtins: what they compute *)

Lemma pos_ctz_spec p :
  0 ≤ pos_ctz p ∧ Z.testbit (Zpos p) (pos_ctz p) = true
  ∧ ∀ i, 0 ≤ i < pos_ctz p → Z.testbit (Zpos p) i = false.
Proof.
  induction p as [p _|p (H0 & H1 & H2)|]; simpl pos_ctz; [by repeat split; try lia|..].
  - split; [lia|]. rewrite (Pos2Z.inj_xO p). split.
    + rewrite Z.add_1_l. by rewrite Z.double_bits_succ.
    + intros i Hi. destruct (decide (i = 0)) as [->|]; [done|].
      replace i with (Z.succ (i - 1)) by lia. rewrite Z.double_bits_succ. apply H2. lia.
  - by repeat split; try lia.
Qed.

(** The trailing-zero count of a non-zero value is the index of its lowest set bit. *)
Lemma builtin_ctz_spec v :
  0 < v → 0 ≤ builtin_ctz v ∧ Z.testbit v (builtin_ctz v) = true
  ∧ ∀ i, 0 ≤ i < builtin_ctz v → Z.testbit v i = false.
Proof. destruct v; [lia| |lia]. intros _. apply pos_ctz_spec. Qed.

Lemma builtin_ctz_lt w v : 0 ≤ w → is_u w v → v ≠ 0 → 0 ≤ builtin_ctz v < w.
Proof.
  intros Hw Hv ?. destruct (builtin_ctz_spec v) as (? & Hb & _); [unfold is_u in *; lia|].
  split; [done|]. apply Z.nle_gt. intros ?. rewrite (testbit_above w) in Hb; done.
Qed.

Lemma bit_count_S w v : bit_count (S w) v = Z.b2z (Z.odd v) + bit_count w (Z.div2 v).
Proof.
  unfold bit_count. rewrite Z.div2_div. cbn [seq List.filter].
  assert (∀ k, length (List.filter (λ i, Z.testbit v (Z.of_nat i)) (seq (S k) w))
    = length (List.filter (λ i, Z.testbit (v / 2) (Z.of_nat i)) (seq k w))) as Hs.
  { induction w as [|w IH]; intros k; [done|]. cbn [seq List.filter].
    rewrite Z.div2_bits by lia. replace (Z.of_nat (S k)) with (Z.succ (Z.of_nat k)) by lia.
    destruct (Z.testbit v _); cbn [length]; by rewrite IH. }
  replace (Z.testbit v (Z.of_nat 0)) with (Z.odd v) by (by rewrite <- Z.bit0_odd).
  destruct (Z.odd v); cbn [length]; rewrite Hs; simpl Z.b2z; lia.
Qed.

Lemma bit_count_0 w : bit_count w 0 = 0.
Proof. induction w; [done|]. by rewrite bit_count_S. Qed.

(** [popcount] counts the set bits, whatever the width of the operand. *)
Lemma builtin_popcount_spec w v :
  is_u (Z.of_nat w) v → builtin_popcount v = bit_count w v.
Proof.
  revert v. induction w as [|w IH]; intros v Hv.
  { unfold is_u in Hv. simpl in Hv. by assert (v = 0) as -> by lia. }
  assert (is_u (Z.of_nat w) (Z.div2 v)) as Hh.
  { rewrite Z.div2_div. unfold is_u in *. rewrite Nat2Z.inj_succ, Z.pow_succ_r in Hv by lia.
    split; [apply Z.div_pos; lia|apply Z.div_lt_upper_bound; lia]. }
  rewrite bit_count_S, <- IH by done. destruct v as [|p|p]; [done| |unfold is_u in Hv; lia].
  by destruct p.
Qed.

(** ** The header's functions: what they compute *)

Section theorems.
Context (w : Z) (Hw : 0 < w).

Lemma one_shift bit : 0 ≤ bit < w → uw w (1 ≪ bit) = 2 ^ bit.
Proof.
  intros. rewrite Z.shiftl_1_l. apply uw_small. unfold is_u.
  pose proof (Z.pow_lt_mono_r 2 bit w). lia.
Qed.

Lemma bit_on_spec x bit : 0 ≤ bit < w → bit_on w x bit = Z.testbit x bit.
Proof.
  intros. unfold bit_on. rewrite one_shift by done.
  destruct (Z.testbit x bit) eqn:E.
  - apply negb_true_iff, Z.eqb_neq. intros Hz.
    assert (Z.testbit (x .& 2 ^ bit) bit = true) as Hb.
    { by rewrite Z.land_spec, E, Z.pow2_bits_true by lia. }
    by rewrite Hz, Z.bits_0 in Hb.
  - apply negb_false_iff, Z.eqb_eq, Z.bits_inj'. intros i ?.
    rewrite Z.land_spec, Z.bits_0, Z.pow2_bits_eqb by lia.
    destruct (Z.eqb_spec bit i) as [<-|]; [by rewrite E|apply andb_false_r].
Qed.

Lemma bit_off_spec x bit : 0 ≤ bit < w → bit_off w x bit = negb (Z.testbit x bit).
Proof.
  intros. rewrite <- bit_on_spec by done. unfold bit_on, bit_off. by rewrite negb_involutive.
Qed.

Lemma set_bit_on_spec x bit i :
  0 ≤ bit < w → 0 ≤ i → Z.testbit (set_bit_on w x bit) i = (bit =? i) || Z.testbit x i.
Proof.
  intros. unfold set_bit_on.
  rewrite one_shift, Z.lor_spec, Z.pow2_bits_eqb by lia. apply orb_comm.
Qed.

Lemma flip_bit_spec x bit i :
  0 ≤ bit < w → 0 ≤ i → Z.testbit (flip_bit w x bit) i = xorb (bit =? i) (Z.testbit x i).
Proof.
  intros. unfold flip_bit.
  rewrite one_shift, Z.lxor_spec, Z.pow2_bits_eqb by lia. apply xorb_comm.
Qed.

Lemma not_pow2_bits bit i :
  0 ≤ bit < w → 0 ≤ i < w → Z.testbit (uw w (Z.lnot (1 ≪ bit))) i = negb (bit =? i).
Proof.
  intros. unfold uw. rewrite Z.mod_pow2_bits_low by lia.
  rewrite Z.lnot_spec by lia. by rewrite Z.shiftl_1_l, Z.pow2_bits_eqb by lia.
Qed.

Lemma set_bit_off_spec x bit i :
  0 ≤ bit < w → 0 ≤ i → is_u w x →
  Z.testbit (set_bit_off w x bit) i = negb (bit =? i) && Z.testbit x i.
Proof.
  intros. unfold set_bit_off. rewrite Z.land_spec. destruct (decide (i < w)).
  - rewrite not_pow2_bits by lia. apply andb_comm.
  - rewrite (testbit_above w x) by (done || lia). by rewrite andb_false_r.
Qed.

Lemma bit_mask_eq n : 0 ≤ n < w → bit_mask w n = Z.ones n.
Proof.
  intros. unfold bit_mask. rewrite one_shift by done. rewrite Z.ones_equiv.
  apply uw_small. unfold is_u.
  pose proof (Z.pow_lt_mono_r 2 n w). pose proof (Z.pow_pos_nonneg 2 n). lia.
Qed.

(** [bit_mask(b, e)] selects exactly the bits of [[b, e)]. *)
Lemma bit_mask_range_spec b e i :
  0 ≤ b ≤ e → e < w → 0 ≤ i →
  Z.testbit (bit_mask_range w b e) i = (b <=? i) && (i <? e).
Proof.
  intros. unfold bit_mask_range. rewrite Z.lxor_spec, !bit_mask_eq by lia.
  rewrite !Z.testbit_ones_nonneg by lia.
  destruct (Z.ltb_spec i b), (Z.ltb_spec i e), (Z.leb_spec b i); try done; lia.
Qed.

Lemma bitwise_pow2_mod_spec v n :
  0 ≤ n < w → bitwise_pow2_mod w v n = v mod 2 ^ n.
Proof.
  intros. unfold bitwise_pow2_mod. rewrite bit_mask_eq by done.
  destruct (Z.eqb_spec n 0) as [->|]; [by rewrite Z.mod_1_r|].
  rewrite Z.mul_1_l, Z.land_comm. apply Z.land_ones. lia.
Qed.

Lemma n_leading_zeros_range v : is_u w v → 0 ≤ n_leading_zeros w v ≤ w.
Proof.
  intros [? ?]. unfold n_leading_zeros, builtin_clz. case_match; [lia|].
  rewrite Z.eqb_neq in *. pose proof (Z.log2_nonneg v).
  pose proof (proj1 (Z.log2_lt_pow2 v w ltac:(lia)) ltac:(lia)). lia.
Qed.

(** [w - n_leading_zeros v] is the number of bits needed for [v]. *)
Lemma n_leading_zeros_spec v : is_u w v → v < 2 ^ (w - n_leading_zeros w v).
Proof.
  intros [? ?]. unfold n_leading_zeros, builtin_clz. case_match.
  { rewrite Z.eqb_eq in *. subst. replace (w - w) with 0 by lia. lia. }
  rewrite Z.eqb_neq in *. replace (w - (w - 1 - Z.log2 v)) with (Z.succ (Z.log2 v)) by lia.
  apply Z.log2_spec. lia.
Qed.

Lemma n_leading_zeros_tight v :
  is_u w v → 0 < v → 2 ^ (w - n_leading_zeros w v - 1) ≤ v.
Proof.
  intros [? ?] ?. unfold n_leading_zeros, builtin_clz. case_match.
  { rewrite Z.eqb_eq in *. lia. }
  replace (w - (w - 1 - Z.log2 v) - 1) with (Z.log2 v) by lia. apply Z.log2_spec. lia.
Qed.

Lemma index_last_on_bit_eq v :
  is_u w v → index_last_on_bit w v = if v =? 0 then w else Z.log2 v.
Proof.
  intros Hv. unfold index_last_on_bit, not_v_minus_1.
  destruct (Z.eqb_spec v 0) as [->|]; [change (1 - 1) with 0; rewrite Z.land_0_l; lia|].
  change (0 - 1) with (-1). rewrite Z.land_m1_l.
  unfold n_leading_zeros, builtin_clz. case_match; [rewrite Z.eqb_eq in *|]; lia.
Qed.

(** For a positive value the [x & (x - 1)] test recognises exactly the powers of two. *)
Lemma is_power_of_2_spec x :
  is_u w x → 0 < x → is_power_of_2 w x = (x =? 2 ^ Z.log2 x).
Proof.
  intros [? ?] ?. unfold is_power_of_2. rewrite uw_small by (split; lia).
  pose proof (Z.log2_spec x ltac:(lia)) as [Hlo Hhi]. rewrite Z.pow_succ_r in Hhi by apply Z.log2_nonneg.
  pose proof (Z.log2_nonneg x).
  destruct (Z.eqb_spec x (2 ^ Z.log2 x)) as [E|E].
  - apply Z.eqb_eq. remember (Z.log2 x) as k eqn:Ek. clear Ek. subst x.
    apply Z.bits_inj'. intros i ?.
    replace (2 ^ k - 1) with (Z.ones k) by (rewrite Z.ones_equiv; lia).
    rewrite Z.land_spec, Z.bits_0, Z.pow2_bits_eqb, Z.testbit_ones_nonneg by lia.
    destruct (Z.eqb_spec k i), (Z.ltb_spec i k); try done; lia.
  - apply Z.eqb_neq. intros Hz.
    assert (Z.testbit (x .& (x - 1)) (Z.log2 x) = true) as Hb.
    { pose proof (Z.pow_pos_nonneg 2 (Z.log2 x)).
      assert (Z.log2 (x - 1) = Z.log2 x) as El.
      { apply Z.log2_unique; rewrite ?Z.pow_succ_r by lia; lia. }
      rewrite Z.land_spec, Z.bit_log2 by lia. rewrite <- El. apply Z.bit_log2. lia. }
    by rewrite Hz, Z.bits_0 in Hb.
Qed.

(** [bitwise_log2_ceil v] is the exponent of the least power of two that is at least [v]
    (0 for [v = 0]); [bitwise_log2_floor v] of the greatest one that is at most [v]. *)
Lemma bitwise_log2_ceil_spec v :
  is_u w v → 0 < v →
  v ≤ 2 ^ bitwise_log2_ceil w v
  ∧ (1 < v → 2 ^ (bitwise_log2_ceil w v - 1) < v) ∧ bitwise_log2_ceil w v = Z.log2_up v.
Proof.
  intros Hv ?.
  assert (bitwise_log2_ceil w v = Z.log2_up v) as ->.
  { unfold bitwise_log2_ceil, not_v_minus_1. destruct (Z.eqb_spec v 0); [lia|].
    change (0 - 1) with (-1).
    rewrite Z.land_m1_l, index_last_on_bit_eq, is_power_of_2_spec by done.
    destruct (Z.eqb_spec v 0); [lia|]. pose proof (Z.log2_nonneg v).
    pose proof (Z.le_log2_log2_up v). pose proof (Z.le_log2_up_succ_log2 v).
    destruct (Z.eqb_spec v (2 ^ Z.log2 v)) as [E|E].
    - pose proof (Z.log2_up_pow2 (Z.log2 v)) as Hp. rewrite <- E in Hp. lia.
    - enough (Z.log2_up v ≠ Z.log2 v) by lia. intros E2. apply E.
      destruct (decide (v = 1)) as [->|]; [done|].
      pose proof (Z.log2_up_spec v ltac:(lia)) as Hup. rewrite E2 in Hup.
      pose proof (Z.log2_spec v ltac:(lia)). lia. }
  split_and!; [|intros|done].
  - destruct (decide (v = 1)) as [->|]; [done|]. by apply Z.log2_up_spec; lia.
  - rewrite Z.sub_1_r. by apply Z.log2_up_spec.
Qed.

Lemma bitwise_log2_floor_spec v :
  is_u w v → 0 < v →
  2 ^ bitwise_log2_floor w v ≤ v < 2 ^ (bitwise_log2_floor w v + 1).
Proof.
  intros Hv ?. unfold bitwise_log2_floor, not_v_minus_1.
  destruct (Z.eqb_spec v 0); [lia|]. change (0 - 1) with (-1).
  rewrite Z.land_m1_l, index_last_on_bit_eq by done.
  destruct (Z.eqb_spec v 0); [lia|]. by apply Z.log2_spec.
Qed.
End theorems.

End Bitops.
