(* ===== verification/IntegerPack.v ===== *)
(** Integer packing of [sframe/integer_pack.hpp] and [sframe/integer_pack_impl.hpp]: the
    variable-length code, the zig-zag map, the 1/2/4/8/16/32-bit packers with their
    switch-into-loop control flow, and the frame-of-reference group code.

    A [uint64_t*] array with its length is a [list Z] of values in [[0, 2^64)].  An encoder
    returns the bytes it appends to the archive; a decoder is a [reader]. *)

From S2P Require Import Prelude Bitops.

Module IntegerPack.
Import Bitops.

(** ** Packing: [integer_pack_impl.hpp]

    The packers jump with a [switch] into the middle of a [do { ... } while (--n > 0)] loop.
    A statement of the loop body is a partial function on the state; [duff] runs the body once
    from the statement the [switch] selects and then [n - 1] times from the top.  For [n = 0]
    the loop counter of the code wraps around, and the result is [None]. *)

Definition run_stmts {St} (l : list (St → option St)) (s : St) : option St :=
  foldl (λ o f, o ≫= f) (Some s) l.

Fixpoint do_while {St} (n : nat) (body : St → option St) (s : St) : option St :=
  match n with
  | O => Some s
  | S n' => s' ← body s; do_while n' body s'
  end.

Definition duff {St} (stmts : list (St → option St)) (entry n : nat) (s : St) : option St :=
  match n with
  | O => None
  | S n' => s' ← run_stmts (drop entry stmts) s; do_while n' (run_stmts stmts) s'
  end.

(** The packer's locals: the rest of [src], the byte [c], and the bytes written to [out]. *)
Record pack_state := PackState { p_src : list Z; p_c : Z; p_out : list Z }.

(** [c |= *src++ << sh] *)
Definition or_src (sh : Z) (s : pack_state) : option pack_state :=
  match p_src s with
  | [] => None
  | v :: src => Some (PackState src (u8 (p_c s .| u64 (v ≪ sh))) (p_out s))
  end.

(** [*out++ = c; c = 0] *)
Definition flush (s : pack_state) : option pack_state :=
  Some (PackState (p_src s) 0 (p_out s ++ [p_c s])).

Definition pack_1_stmts : list (pack_state → option pack_state) :=
  [or_src 0; or_src 1; or_src 2; or_src 3; or_src 4; or_src 5; or_src 6; or_src 7; flush].

Definition pack_2_stmts : list (pack_state → option pack_state) :=
  [or_src 0; or_src 2; or_src 4; or_src 6; flush;
   or_src 0; or_src 2; or_src 4; or_src 6; flush].

Definition pack_4_stmts : list (pack_state → option pack_state) :=
  [or_src 0; or_src 4; flush; or_src 0; or_src 4; flush;
   or_src 0; or_src 4; flush; or_src 0; or_src 4; flush].

(** The statement the label [case r] of the [switch] stands before. *)
Definition pack_1_entry (r : nat) : nat :=
  match r with 7 => 1 | 6 => 2 | 5 => 3 | 4 => 4 | 3 => 5 | 2 => 6 | 1 => 7 | _ => 0 end%nat.
Definition pack_2_entry (r : nat) : nat :=
  match r with 7 => 1 | 6 => 2 | 5 => 3 | 4 => 5 | 3 => 6 | 2 => 7 | 1 => 8 | _ => 0 end%nat.
Definition pack_4_entry (r : nat) : nat :=
  match r with 7 => 1 | 6 => 3 | 5 => 4 | 4 => 6 | 3 => 7 | 2 => 9 | 1 => 10 | _ => 0 end%nat.

Definition run_pack (stmts : list (pack_state → option pack_state)) (entry : nat → nat)
    (src : list Z) : writer :=
  let srclen := length src in
  s ← duff stmts (entry (srclen mod 8)%nat) ((srclen + 7) / 8)%nat (PackState src 0 []);
  Some (p_out s).

Definition pack_1 (src : list Z) : writer := run_pack pack_1_stmts pack_1_entry src.
Definition pack_2 (src : list Z) : writer := run_pack pack_2_stmts pack_2_entry src.
Definition pack_4 (src : list Z) : writer := run_pack pack_4_stmts pack_4_entry src.

(** The wider packers store each value truncated to 1, 2 or 4 little-endian bytes. *)
Definition pack_8 (src : list Z) : writer := Some (map u8 src).
Definition pack_16 (src : list Z) : writer := Some (concat (map (le_bytes 2) src)).
Definition pack_32 (src : list Z) : writer := Some (concat (map (le_bytes 4) src)).

(** The unpacker's locals: the rest of [src], the byte [c], and the values written. *)
Record unpack_state := UnpackState { u_src : list Z; u_c : Z; u_out : list Z }.

(** [c = *src++] *)
Definition load (s : unpack_state) : option unpack_state :=
  match u_src s with
  | [] => None
  | b :: src => Some (UnpackState src b (u_out s))
  end.

(** [*out++ = c & mask; c >>= sh] *)
Definition emit (mask sh : Z) (s : unpack_state) : option unpack_state :=
  Some (UnpackState (u_src s) (u_c s ≫ sh) (u_out s ++ [u_c s .& mask])).

Definition unpack_1_stmts : list (unpack_state → option unpack_state) :=
  [load; emit 1 1; emit 1 1; emit 1 1; emit 1 1; emit 1 1; emit 1 1; emit 1 1; emit 1 1].

Definition unpack_2_stmts : list (unpack_state → option unpack_state) :=
  [load; emit 3 2; emit 3 2; emit 3 2; emit 3 2; load; emit 3 2; emit 3 2; emit 3 2; emit 3 2].

Definition unpack_4_stmts : list (unpack_state → option unpack_state) :=
  [load; emit 15 4; emit 15 4; load; emit 15 4; emit 15 4;
   load; emit 15 4; emit 15 4; load; emit 15 4; emit 15 4].

(** The labels stand after the first [load]. *)
Definition unpack_1_entry (r : nat) : nat :=
  match r with 7 => 2 | 6 => 3 | 5 => 4 | 4 => 5 | 3 => 6 | 2 => 7 | 1 => 8 | _ => 1 end%nat.
Definition unpack_2_entry (r : nat) : nat :=
  match r with 7 => 2 | 6 => 3 | 5 => 4 | 4 => 6 | 3 => 7 | 2 => 8 | 1 => 9 | _ => 1 end%nat.
Definition unpack_4_entry (r : nat) : nat :=
  match r with 7 => 2 | 6 => 4 | 5 => 5 | 4 => 7 | 3 => 8 | 2 => 10 | 1 => 11 | _ => 1 end%nat.

Definition run_unpack (stmts : list (unpack_state → option unpack_state)) (entry : nat → nat)
    (align : Z) (src : list Z) (nout_values : nat) : option (list Z) :=
  s0 ← load (UnpackState src 0 []);
  s ← duff stmts (entry (nout_values mod 8)%nat) ((nout_values + 7) / 8)%nat
        (UnpackState (u_src s0) (u_c s0 ≫ align) []);
  Some (u_out s).

Definition unpack_1 (src : list Z) (nout_values : nat) : option (list Z) :=
  run_unpack unpack_1_stmts unpack_1_entry
    ((8 - Z.of_nat nout_values mod 8) mod 8) src nout_values.
Definition unpack_2 (src : list Z) (nout_values : nat) : option (list Z) :=
  run_unpack unpack_2_stmts unpack_2_entry
    ((8 - 2 * (Z.of_nat nout_values mod 4)) mod 8) src nout_values.
Definition unpack_4 (src : list Z) (nout_values : nat) : option (list Z) :=
  run_unpack unpack_4_stmts unpack_4_entry
    ((8 - 4 * (Z.of_nat nout_values mod 2)) mod 8) src nout_values.

(** [nout_values] little-endian fields of [b] bytes each. *)
Fixpoint unpack_bytes (b : nat) (src : list Z) (nout_values : nat) : option (list Z) :=
  match nout_values with
  | O => Some []
  | S n => if decide (b ≤ length src)%nat
           then l ← unpack_bytes b (drop b src) n; Some (le_num (take b src) :: l)
           else None
  end.

Definition unpack_8 (src : list Z) (nout_values : nat) : option (list Z) :=
  unpack_bytes 1 src nout_values.
Definition unpack_16 (src : list Z) (nout_values : nat) : option (list Z) :=
  unpack_bytes 2 src nout_values.
Definition unpack_32 (src : list Z) (nout_values : nat) : option (list Z) :=
  unpack_bytes 4 src nout_values.

(** ** Variable-length code *)

Definition variable_encode (s : Z) : writer :=
  if s ≫ (8 - 1) =? 0 then
    let trunc_s := u8 (s ≪ 1) in Some (le_bytes 1 trunc_s)
  else if s ≫ (16 - 2) =? 0 then
    let trunc_s := u16 s in
    let trunc_s := u16 ((trunc_s ≪ 2) .| 1) in Some (le_bytes 2 trunc_s)
  else if s ≫ (24 - 3) =? 0 then
    let trunc_s := u32 s in
    let trunc_s := u32 ((trunc_s ≪ 3) .| 3) in Some (take 3 (le_bytes 4 trunc_s))
  else if s ≫ (32 - 4) =? 0 then
    let trunc_s := u32 s in
    let trunc_s := u32 ((trunc_s ≪ 4) .| 7) in Some (le_bytes 4 trunc_s)
  else if s ≫ (40 - 5) =? 0 then
    let trunc_s := u64 s in
    let trunc_s := u64 ((trunc_s ≪ 5) .| 15) in Some (take 5 (le_bytes 8 trunc_s))
  else if s ≫ (48 - 6) =? 0 then
    let trunc_s := u64 s in
    let trunc_s := u64 ((trunc_s ≪ 6) .| 31) in Some (take 6 (le_bytes 8 trunc_s))
  else if s ≫ (56 - 7) =? 0 then
    let trunc_s := u64 s in
    let trunc_s := u64 ((trunc_s ≪ 7) .| 63) in Some (take 7 (le_bytes 8 trunc_s))
  else Some (le_bytes 1 127 ++ le_bytes 8 s).

(** [c.intval] after [chars[0..k)] have been read is the little-endian value of those bytes,
    the other bytes of the union being 0. *)
Definition variable_decode : reader Z :=
  c0 ← read 1;
  let c := le_num c0 in
  if c .& 1 =? 0 then mret (c ≫ 1)
  else if c .& 3 =? 1 then c1 ← read 1; mret (le_num (c0 ++ c1) ≫ 2)
  else if c .& 7 =? 3 then c1 ← read 2; mret (le_num (c0 ++ c1) ≫ 3)
  else if c .& 15 =? 7 then c1 ← read 3; mret (le_num (c0 ++ c1) ≫ 4)
  else if c .& 31 =? 15 then c1 ← read 4; mret (le_num (c0 ++ c1) ≫ 5)
  else if c .& 63 =? 31 then c1 ← read 5; mret (le_num (c0 ++ c1) ≫ 6)
  else if c .& 127 =? 63 then c1 ← read 6; mret (le_num (c0 ++ c1) ≫ 7)
  else c1 ← read 8; mret (le_num c1).

(** ** Zig-zag map

    [int64_t] operands are signed values; an operation that overflows [int64_t] (undefined in
    the language) is taken with two's complement wrap-around. *)

Definition shifted_integer_encode (val : Z) : Z :=
  let sign := val ≫ 63 in
  let absval := u64 (s64 (val + sign) .^ sign) in
  u64 (u64 (absval ≪ 1) + sign).

Definition shifted_integer_decode (val : Z) : Z :=
  let sign := - (val .& 1) in
  let absval := u64 ((val ≫ 1) - sign) in
  s64 (u64 (absval + sign) .^ u64 sign).

(** ** Frame-of-reference group code *)

Definition FRAME_OF_REFERENCE : Z := 0.
Definition FRAME_OF_REFERENCE_DELTA : Z := 1.
Definition FRAME_OF_REFERENCE_DELTA_NEGATIVE : Z := 2.
Definition FRAME_OF_REFERENCE_HEADER_NUM_BITS : Z := 2.
Definition FRAME_OF_REFERENCE_HEADER_MASK : Z := 3.

(** The first loop: the minimum so far and whether the values are non-decreasing; it stops at
    the first decrease. *)
Fixpoint scan_input (prev : option Z) (minvalue : Z) (input : list Z) : Z * bool :=
  match input with
  | [] => (minvalue, true)
  | x :: rest =>
      let minvalue := Z.min minvalue x in
      match prev with
      | Some p => if x <? p then (minvalue, false) else scan_input (Some x) minvalue rest
      | None => scan_input (Some x) minvalue rest
      end
  end.

(** [delta[i] = input[i] - input[i-1]] for [i >= 1], after [prev]. *)
Fixpoint deltas (prev : Z) (input : list Z) : list Z :=
  match input with
  | [] => []
  | x :: rest => u64 (x - prev) :: deltas x rest
  end.

Fixpoint deltas_negative (prev : Z) (input : list Z) : list Z :=
  match input with
  | [] => []
  | x :: rest =>
      shifted_integer_encode (s64 (s64 x - s64 prev)) :: deltas_negative x rest
  end.

(** Round the bit count up to 0 or a power of two, in [unsigned char] arithmetic. *)
Definition round_nbits (nbits : Z) : Z :=
  let nbits := u8 (nbits - 1) in
  let nbits := nbits .| (nbits ≫ 1) in
  let nbits := nbits .| (nbits ≫ 2) in
  let nbits := nbits .| (nbits ≫ 4) in
  u8 (nbits + 1).

Definition pack_values (nbits : Z) (input : list Z) : writer :=
  if nbits =? 1 then pack_1 input
  else if nbits =? 2 then pack_2 input
  else if nbits =? 4 then pack_4 input
  else if nbits =? 8 then pack_8 input
  else if nbits =? 16 then pack_16 input
  else if nbits =? 32 then pack_32 input
  else if nbits =? 64 then Some (concat (map (le_bytes 8) input))
  else None.

(** The choice of code: technique, bit count and the array coded. *)
Definition choose_code (x0 : Z) (xs : list Z) : Z * Z * Z * list Z :=
  let input := x0 :: xs in
  let '(minvalue, is_incremental) := scan_input None x0 input in
  let frame := map (λ x, u64 (x - minvalue)) input in
  let nbits_frame := 64 - n_leading_zeros 64 (foldl Z.lor 0 frame) in
  let delta := x0 :: deltas x0 xs in
  let delta_negative := x0 :: deltas_negative x0 xs in
  let nbits_delta :=
    if is_incremental then 64 - n_leading_zeros 64 (foldl Z.lor 0 (tail delta)) else 255 in
  let nbits_delta_negative :=
    if is_incremental then 255 else 64 - n_leading_zeros 64 (foldl Z.lor 0 (tail delta_negative)) in
  if (nbits_frame <=? nbits_delta) && (nbits_frame <=? nbits_delta_negative) then
    (FRAME_OF_REFERENCE, nbits_frame, minvalue, frame)
  else if (nbits_delta <=? nbits_frame) && (nbits_delta <=? nbits_delta_negative) then
    (FRAME_OF_REFERENCE_DELTA, nbits_delta, minvalue, delta)
  else
    (FRAME_OF_REFERENCE_DELTA_NEGATIVE, nbits_delta_negative, minvalue, delta_negative).

Definition frame_header (coding_technique nbits : Z) : Z :=
  if 0 <? nbits then
    let shiftpos := 64 - n_leading_zeros 64 nbits in u8 (coding_technique + (shiftpos ≪ 2))
  else coding_technique.

(** The local arrays hold 128 values; more are outside the contract ([DASSERT_LE]). *)
Definition frame_of_reference_encode_128 (input : list Z) : writer :=
  match input with
  | [] => Some []
  | x0 :: xs =>
      if (128 <? length input)%nat then None else
      let '(coding_technique, nbits, minvalue, coded) := choose_code x0 xs in
      let nbits := round_nbits nbits in
      Some [frame_header coding_technique nbits] +++
      (if coding_technique =? FRAME_OF_REFERENCE then variable_encode minvalue
       else variable_encode (hd 0 coded)) +++
      (let coded := if coding_technique =? FRAME_OF_REFERENCE then coded else tail coded in
       if nbits =? 0 then Some [] else pack_values nbits coded)
  end.

Definition unpack_values (nbits : Z) (pack : list Z) (len : nat) : option (list Z) :=
  if nbits =? 1 then unpack_1 pack len
  else if nbits =? 2 then unpack_2 pack len
  else if nbits =? 4 then unpack_4 pack len
  else if nbits =? 8 then unpack_8 pack len
  else if nbits =? 16 then unpack_16 pack len
  else if nbits =? 32 then unpack_32 pack len
  else if nbits =? 64 then unpack_bytes 8 pack len
  else None.

(** [output[i] += output[i-1]] from the left; [prev] is the value before the first. *)
Fixpoint undelta (prev : Z) (output : list Z) : list Z :=
  match output with
  | [] => []
  | d :: rest => let x := u64 (d + prev) in x :: undelta x rest
  end.

Fixpoint undelta_negative (prev : Z) (output : list Z) : list Z :=
  match output with
  | [] => []
  | d :: rest =>
      let x := u64 (u64 (shifted_integer_decode d) + prev) in x :: undelta_negative x rest
  end.

Definition frame_of_reference_decode_128 (len : nat) : reader (list Z) :=
  match len with
  | O => mret []
  | S len_1 =>
      if (128 <? len)%nat then rfail else
      header ← read_le 1;
      let shiftpos := header ≫ FRAME_OF_REFERENCE_HEADER_NUM_BITS in
      let coding_technique := header .& FRAME_OF_REFERENCE_HEADER_MASK in
      let nbits := if 0 <? shiftpos then u8 (1 ≪ (shiftpos - 1)) else 0 in
      if nbits =? 0 then
        minvalue ← variable_decode;
        mret (replicate len minvalue)
      else if coding_technique =? FRAME_OF_REFERENCE then
        minvalue ← variable_decode;
        pack ← read (Z.to_nat ((nbits * Z.of_nat len + 7) / 8));
        output ← rlift (unpack_values nbits pack len);
        mret (map (λ x, u64 (x + minvalue)) output)
      else if coding_technique =? FRAME_OF_REFERENCE_DELTA then
        first ← variable_decode;
        pack ← read (Z.to_nat ((nbits * Z.of_nat len_1 + 7) / 8));
        output ← rlift (unpack_values nbits pack len_1);
        mret (first :: undelta first output)
      else if coding_technique =? FRAME_OF_REFERENCE_DELTA_NEGATIVE then
        first ← variable_decode;
        pack ← read (Z.to_nat ((nbits * Z.of_nat len_1 + 7) / 8));
        output ← rlift (unpack_values nbits pack len_1);
        mret (first :: undelta_negative first output)
      else
        pack ← read (Z.to_nat ((nbits * Z.of_nat len + 7) / 8));
        output ← rlift (unpack_values nbits pack len);
        mret output
  end.

(** ** Reference form of the bit packers

    [horner k vs] is the number whose base-[2^k] digits, lowest first, are [vs]; a packed byte
    holds [8 / k] digits.  When the number of values is not a multiple of [8 / k], the first
    byte holds the remainder, in its most significant bits. *)

Fixpoint horner (k : Z) (vs : list Z) : Z :=
  match vs with
  | [] => 0
  | v :: vs' => v + 2 ^ k * horner k vs'
  end.

Fixpoint chunks (p n : nat) (vs : list Z) : list (list Z) :=
  match n with
  | O => []
  | S n' => take p vs :: chunks p n' (drop p vs)
  end.

Definition packed (k : Z) (p : nat) (vs : list Z) : list Z :=
  let m := (length vs mod p)%nat in
  let q := (length vs / p)%nat in
  (if m is O then [] else [2 ^ (8 - k * Z.of_nat m) * horner k (take m vs)])
    ++ map (horner k) (chunks p q (drop m vs)).

(** The statements of one packed byte, from bit [s0] upwards, and of one unpacked byte. *)
Fixpoint or_stmts (k s0 : Z) (m : nat) : list (pack_state → option pack_state) :=
  match m with
  | O => []
  | S m' => or_src s0 :: or_stmts k (s0 + k) m'
  end.

Definition pack_group (k : Z) (m : nat) : list (pack_state → option pack_state) :=
  or_stmts k (8 - k * Z.of_nat m) m ++ [flush].

Definition emit_group (k : Z) (m : nat) : list (unpack_state → option unpack_state) :=
  replicate m (emit (2 ^ k - 1) k).

(** ** Control flow: a run of the loop is a run of a flat statement list *)

Lemma run_stmts_app {St} (l1 l2 : list (St → option St)) s :
  run_stmts (l1 ++ l2) s = run_stmts l1 s ≫= run_stmts l2.
Proof.
  unfold run_stmts. rewrite foldl_app. destruct (foldl _ (Some s) l1) as [s'|]; [done|].
  simpl. induction l2; [done|]. by simpl.
Qed.

Lemma run_stmts_cons {St} f (l : list (St → option St)) s s' :
  f s = Some s' → run_stmts (f :: l) s = run_stmts l s'.
Proof. intros H. unfold run_stmts. simpl. by rewrite H. Qed.

Lemma do_while_flat {St} n (stmts : list (St → option St)) s :
  do_while n (run_stmts stmts) s = run_stmts (concat (replicate n stmts)) s.
Proof.
  revert s. induction n as [|n IH]; intros s; [done|]. simpl.
  rewrite run_stmts_app. destruct (run_stmts stmts s); [apply IH|done].
Qed.

Lemma duff_flat {St} n (stmts : list (St → option St)) entry s :
  duff stmts entry (S n) s = run_stmts (drop entry stmts ++ concat (replicate n stmts)) s.
Proof.
  simpl. rewrite run_stmts_app. destruct (run_stmts (drop entry stmts) s); [|done].
  apply do_while_flat.
Qed.

Lemma concat_replicate_mul {A} (l : list A) a b :
  concat (replicate b (concat (replicate a l))) = concat (replicate (b * a) l).
Proof.
  induction b as [|b IH]; [done|]. cbn [replicate concat]. rewrite IH, <- concat_app.
  by rewrite <- replicate_add.
Qed.

Arguments duff : simpl never.

(** ** One byte *)

Lemma horner_range k vs :
  0 ≤ k → Forall (is_u k) vs → is_u (k * Z.of_nat (length vs)) (horner k vs).
Proof.
  intros Hk. induction 1 as [|v vs Hv _ IH]; [unfold is_u; simpl; lia|].
  unfold is_u in *. rewrite length_cons.
  replace (k * Z.of_nat (S (length vs))) with (k + k * Z.of_nat (length vs)) by lia.
  rewrite Z.pow_add_r by lia. simpl horner. nia.
Qed.

Lemma or_stmts_run k vs rest s0 c out :
  0 ≤ k → 0 ≤ s0 → s0 + k * Z.of_nat (length vs) ≤ 8 →
  Forall (is_u k) vs → is_u s0 c →
  run_stmts (or_stmts k s0 (length vs)) (PackState (vs ++ rest) c out)
  = Some (PackState rest (c + 2 ^ s0 * horner k vs) out).
Proof.
  intros Hk Hs Hle Hvs. revert s0 c Hs Hle.
  induction Hvs as [|v vs Hv Hvs IH]; intros s0 c Hs Hle Hc.
  { simpl. by rewrite Z.mul_0_r, Z.add_0_r. }
  rewrite length_cons in *. simpl or_stmts.
  assert (is_u (s0 + k) (c + v * 2 ^ s0)) as Hc'.
  { unfold is_u in *. rewrite Z.pow_add_r by lia. nia. }
  assert (is_u 8 (c + v * 2 ^ s0)) by (eapply is_u_mono; [|done]; lia).
  erewrite run_stmts_cons with (s' := PackState (vs ++ rest) (c + v * 2 ^ s0) out).
  - rewrite IH by (done || lia). rewrite Z.pow_add_r by lia. simpl horner. do 2 f_equal. ring.
  - unfold or_src. simpl. do 2 f_equal. rewrite uw_small.
    2:{ rewrite uw_small; [by rewrite lor_shiftl_add|].
        eapply (is_u_mono 8); [lia|]. rewrite Z.shiftl_mul_pow2 by done.
        unfold is_u in *. nia. }
    rewrite uw_small; [by apply lor_shiftl_add|].
    eapply (is_u_mono 8); [lia|]. rewrite Z.shiftl_mul_pow2 by done. unfold is_u in *. nia.
Qed.

Lemma pack_group_run k m vs rest out :
  length vs = m → 0 ≤ k → k * Z.of_nat m ≤ 8 → Forall (is_u k) vs →
  run_stmts (pack_group k m) (PackState (vs ++ rest) 0 out)
  = Some (PackState rest 0 (out ++ [2 ^ (8 - k * Z.of_nat m) * horner k vs])).
Proof.
  intros <- **. unfold pack_group. rewrite run_stmts_app, or_stmts_run; try (done || lia).
  unfold is_u. split; [done|]. apply Z.pow_pos_nonneg; lia.
Qed.

Lemma emit_group_run k m vs src out :
  length vs = m → 0 ≤ k → Forall (is_u k) vs →
  run_stmts (emit_group k m) (UnpackState src (horner k vs) out)
  = Some (UnpackState src 0 (out ++ vs)).
Proof.
  intros <- Hk Hvs. revert out. induction Hvs as [|v vs Hv Hvs IH]; intros out.
  { by rewrite app_nil_r. }
  unfold emit_group in *. simpl length. simpl replicate.
  erewrite run_stmts_cons; [|done]. simpl u_src. simpl u_c. simpl u_out.
  rewrite land_mask, Z.shiftr_div_pow2 by done.
  assert (2 ^ k ≠ 0) by (apply Z.pow_nonzero; lia).
  replace ((v + 2 ^ k * horner k vs) mod 2 ^ k) with v.
  2:{ rewrite Z.mul_comm, Z_mod_plus_full. by rewrite Z.mod_small. }
  replace ((v + 2 ^ k * horner k vs) / 2 ^ k) with (horner k vs).
  2:{ rewrite Z.mul_comm, Z_div_plus_full by done. by rewrite Z.div_small. }
  by rewrite IH, <- app_assoc.
Qed.

(** ** Groups of bytes *)

Lemma pack_groups_run k p n vs rest out :
  0 ≤ k → k * Z.of_nat p = 8 → Forall (is_u k) vs → length vs = (n * p)%nat →
  run_stmts (concat (replicate n (pack_group k p))) (PackState (vs ++ rest) 0 out)
  = Some (PackState rest 0 (out ++ map (horner k) (chunks p n vs))).
Proof.
  intros Hk Hp. revert vs out. induction n as [|n IH]; intros vs out Hvs Hlen.
  { destruct vs; [|done]. by rewrite app_nil_r. }
  assert (Forall (is_u k) (take p vs) ∧ Forall (is_u k) (drop p vs)) as [Ht Hd].
  { rewrite <- (take_drop p vs) in Hvs. by apply Forall_app in Hvs. }
  assert (length (take p vs) = p) as Htl by (rewrite length_take; lia).
  cbn [replicate concat]. rewrite run_stmts_app.
  replace (vs ++ rest) with (take p vs ++ drop p vs ++ rest) by (by rewrite app_assoc, take_drop).
  rewrite pack_group_run by (done || lia). rewrite Hp. simpl mbind.
  rewrite IH by (done || (rewrite length_drop; lia)).
  rewrite Z.sub_diag, Z.pow_0_r, Z.mul_1_l. simpl chunks. simpl map.
  by rewrite <- app_assoc.
Qed.

Lemma emit_groups_run k p n vs src out :
  0 ≤ k → Forall (is_u k) vs → length vs = (n * p)%nat →
  run_stmts (concat (replicate n (load :: emit_group k p)))
    (UnpackState (map (horner k) (chunks p n vs) ++ src) 0 out)
  = Some (UnpackState src 0 (out ++ vs)).
Proof.
  intros Hk. revert vs out. induction n as [|n IH]; intros vs out Hvs Hlen.
  { destruct vs; [|done]. by rewrite app_nil_r. }
  assert (Forall (is_u k) (take p vs) ∧ Forall (is_u k) (drop p vs)) as [Ht Hd].
  { rewrite <- (take_drop p vs) in Hvs. by apply Forall_app in Hvs. }
  assert (length (take p vs) = p) as Htl by (rewrite length_take; lia).
  cbn [replicate concat chunks map app].
  erewrite run_stmts_cons; [|done]. rewrite run_stmts_app.
  simpl u_src. simpl u_out.
  rewrite emit_group_run by done. simpl mbind.
  rewrite IH by (done || (rewrite length_drop; lia)).
  by rewrite <- app_assoc, take_drop.
Qed.

(** ** A packer whose statements are [8 / p] byte groups implements [packed] *)

Section packer.
Context (k : Z) (p : nat) (g : nat).
Context (Hk : 0 < k) (Hp : k * Z.of_nat p = 8) (Hg : (g * p = 8)%nat).
Context (stmts : list (pack_state → option pack_state)) (entry : nat → nat).
Context (ustmts : list (unpack_state → option unpack_state)) (uentry : nat → nat).
Context (align : nat → Z).
Hypothesis Hstmts : stmts = concat (replicate g (pack_group k p)).
Hypothesis Hustmts : ustmts = concat (replicate g (load :: emit_group k p)).
(** Entering at label [r] runs the partial byte, if any, and the [(r / p)] bytes after it. *)
Hypothesis Hentry : ∀ r, (r < 8)%nat →
  drop (entry r) stmts
  = (if (r mod p)%nat is O then [] else pack_group k (r mod p))
    ++ concat (replicate (if r is O then g else (r / p)%nat) (pack_group k p)).
Hypothesis Huentry : ∀ r, (r < 8)%nat →
  load :: drop (uentry r) ustmts
  = (if (r mod p)%nat is O then [] else load :: emit_group k (r mod p))
    ++ concat (replicate (if r is O then g else (r / p)%nat) (load :: emit_group k p)).
Hypothesis Halign : ∀ n, align n = (8 - k * Z.of_nat (n mod p)) mod 8.

Lemma loop_count (n : nat) : (0 < n)%nat →
  ∃ d, ((n + 7) / 8 = S d)%nat ∧ (n mod 8 mod p = n mod p)%nat
    ∧ ((if (n mod 8)%nat is O then g else (n mod 8) / p) + d * g = n / p)%nat.
Proof.
  intros Hn. assert (p ≠ 0)%nat by lia. exists ((n - 1) / 8)%nat.
  pose proof (Nat.div_mod_eq n 8) as En.
  pose proof (Nat.mod_upper_bound n 8 ltac:(lia)).
  set (q := (n / 8)%nat) in *. set (r := (n mod 8)%nat) in *.
  assert (n = r + g * q * p)%nat as Enp by nia.
  assert ((n - 1) / 8 = if r is O then q - 1 else q)%nat as ->.
  { symmetry. apply Nat.div_unique with (if r is O then 7 else r - 1)%nat; destruct r; lia. }
  split; [|split].
  - symmetry. destruct r as [|r'] eqn:Er.
    + apply Nat.div_unique with 7%nat; lia.
    + apply Nat.div_unique with r'; lia.
  - rewrite Enp. by rewrite Nat.Div0.mod_add.
  - rewrite Enp. rewrite Nat.div_add by lia.
    destruct r; [rewrite Nat.Div0.div_0_l; nia|lia].
Qed.

Lemma packed_partial_length (vs : list Z) :
  length (drop (length vs mod p) vs) = (length vs / p * p)%nat.
Proof.
  rewrite length_drop. pose proof (Nat.div_mod_eq (length vs) p). lia.
Qed.

Theorem run_pack_packed vs :
  Forall (is_u k) vs → (0 < length vs)%nat →
  run_pack stmts entry vs = Some (packed k p vs).
Proof.
  intros Hvs Hlen. unfold run_pack.
  destruct (loop_count (length vs) Hlen) as (d & -> & Hm & Hq).
  rewrite duff_flat, Hentry by (apply Nat.mod_upper_bound; lia).
  rewrite Hm, Hstmts, concat_replicate_mul, <- app_assoc, <- concat_app, <- replicate_add, Hq.
  pose proof (packed_partial_length vs) as Hd.
  assert (length vs mod p < p)%nat as Hmp by (apply Nat.mod_upper_bound; lia).
  unfold packed. destruct (length vs mod p)%nat as [|m] eqn:Em.
  - rewrite drop_0 in *. rewrite app_nil_l.
    replace (PackState vs 0 []) with (PackState (vs ++ []) 0 []) by (by rewrite app_nil_r).
    rewrite pack_groups_run by (done || lia). done.
  - rewrite run_stmts_app.
    assert (Forall (is_u k) (take (S m) vs) ∧ Forall (is_u k) (drop (S m) vs)) as [Ht Hd'].
    { rewrite <- (take_drop (S m) vs) in Hvs. by apply Forall_app in Hvs. }
    assert (length (take (S m) vs) = S m) as Htl.
    { rewrite length_take. pose proof (Nat.Div0.mod_le (length vs) p). lia. }
    replace (PackState vs 0 []) with (PackState (take (S m) vs ++ drop (S m) vs ++ []) 0 [])
      by (by rewrite app_nil_r, take_drop).
    rewrite pack_group_run by (done || nia). simpl mbind. rewrite pack_groups_run by (done || lia). done.
Qed.

Theorem run_unpack_packed vs rest :
  Forall (is_u k) vs → (0 < length vs)%nat →
  run_unpack ustmts uentry (align (length vs)) (packed k p vs ++ rest) (length vs) = Some vs.
Proof.
  intros Hvs Hlen. unfold run_unpack, packed.
  destruct (loop_count (length vs) Hlen) as (d & -> & Hm & Hq).
  pose proof (packed_partial_length vs) as Hd.
  assert (length vs mod p < p)%nat as Hmp by (apply Nat.mod_upper_bound; lia).
  pose proof (Huentry (length vs mod 8) ltac:(apply Nat.mod_upper_bound; lia)) as Hent.
  rewrite Hm in Hent. rewrite Halign. set (q := (length vs / p)%nat) in *.
  destruct (length vs mod p)%nat as [|m] eqn:Em.
  - rewrite drop_0 in *. rewrite Nat2Z.inj_0, Z.mul_0_r. change ((8 - 0) mod 8) with 0.
    destruct q as [|q']; [lia|]. cbn [chunks map app mbind option_bind load u_src u_c].
    rewrite duff_flat, Z.shiftr_0_r.
    rewrite <- (run_stmts_cons load _
      (UnpackState (map (horner k) (chunks p (S q') vs) ++ rest) 0 [])) by done.
    rewrite (app_comm_cons (drop _ ustmts)), Hent, Hustmts, concat_replicate_mul, app_nil_l, <- concat_app,
      <- replicate_add, Hq.
    by rewrite emit_groups_run by (done || lia).
  - cbn [app mbind option_bind load u_src u_c]. rewrite duff_flat.
    assert (Forall (is_u k) (take (S m) vs) ∧ Forall (is_u k) (drop (S m) vs)) as [Ht Hd'].
    { rewrite <- (take_drop (S m) vs) in Hvs. by apply Forall_app in Hvs. }
    assert (length (take (S m) vs) = S m) as Htl.
    { rewrite length_take. pose proof (Nat.Div0.mod_le (length vs) p). lia. }
    apply (f_equal tail) in Hent. cbn [tail app] in Hent. rewrite Hent.
    rewrite (Z.mod_small (8 - _)) by nia.
    rewrite Z.shiftr_div_pow2, Z.mul_comm, Z.div_mul by (try apply Z.pow_nonzero; nia).
    rewrite <- app_assoc, run_stmts_app, emit_group_run by (done || lia). cbn [mbind option_bind].
    rewrite Hustmts, concat_replicate_mul, <- concat_app, <- replicate_add, Hq.
    rewrite emit_groups_run by (done || lia). simpl. by rewrite take_drop.
Qed.
End packer.

Ltac eight_cases := let r := fresh "r" in
  intros r; do 8 (destruct r as [|r]; [intros; reflexivity|]); intros; lia.

Ltac align_eq := intros; unfold Z.of_nat; lia.

Lemma align_1 (n : nat) : (8 - Z.of_nat n mod 8) mod 8 = (8 - 1 * Z.of_nat (n mod 8)) mod 8.
Proof. by rewrite Nat2Z.inj_mod, Z.mul_1_l. Qed.
Lemma align_2 (n : nat) :
  (8 - 2 * (Z.of_nat n mod 4)) mod 8 = (8 - 2 * Z.of_nat (n mod 4)) mod 8.
Proof. by rewrite Nat2Z.inj_mod. Qed.
Lemma align_4 (n : nat) :
  (8 - 4 * (Z.of_nat n mod 2)) mod 8 = (8 - 4 * Z.of_nat (n mod 2)) mod 8.
Proof. by rewrite Nat2Z.inj_mod. Qed.

(** [n_bytes k n] is the [(nbits * len + 7) / 8] of the decoder. *)
Lemma packed_length k p vs :
  0 < k → k * Z.of_nat p = 8 →
  Z.of_nat (length (packed k p vs)) = (k * Z.of_nat (length vs) + 7) / 8.
Proof.
  intros Hk Hp. assert (p ≠ 0)%nat by lia. unfold packed.
  assert (∀ n l, length (chunks p n l) = n) as Hc.
  { induction n; intros; simpl; auto. }
  rewrite length_app, length_map, Hc.
  pose proof (Nat.div_mod_eq (length vs) p) as E.
  pose proof (Nat.mod_upper_bound (length vs) p).
  set (q := (length vs / p)%nat) in *. set (m := (length vs mod p)%nat) in *. rewrite E.
  replace (k * Z.of_nat (p * q + m)) with (8 * Z.of_nat q + k * Z.of_nat m) by nia.
  destruct m as [|m']; simpl length.
  - rewrite Nat2Z.inj_0, Z.mul_0_r. apply Z.div_unique with 7; lia.
  - apply Z.div_unique with (k * Z.of_nat (S m') - 1); nia.
Qed.

(** Unpacking what a packer wrote gives the values back, for every number of values. *)
Definition unpacks (k : Z) (pk : list Z → writer) (un : list Z → nat → option (list Z)) : Prop :=
  ∀ vs, Forall (is_u k) vs → (0 < length vs)%nat →
    ∃ bs, pk vs = Some bs ∧ un bs (length vs) = Some vs
      ∧ Z.of_nat (length bs) = (k * Z.of_nat (length vs) + 7) / 8.

Lemma unpack_pack_1 : unpacks 1 pack_1 unpack_1.
Proof.
  intros vs ? ?. exists (packed 1 8 vs). split_and!; [..|by apply packed_length].
  - unfold pack_1. apply (run_pack_packed 1 8 1); try done. eight_cases.
  - rewrite <- (app_nil_r (packed _ _ _)).
    apply (run_unpack_packed 1 8 1) with (align := λ n, (8 - Z.of_nat n mod 8) mod 8);
      try done; [eight_cases|apply align_1].
Qed.

Lemma unpack_pack_2 : unpacks 2 pack_2 unpack_2.
Proof.
  intros vs ? ?. exists (packed 2 4 vs). split_and!; [..|by apply packed_length].
  - unfold pack_2. apply (run_pack_packed 2 4 2); try done. eight_cases.
  - rewrite <- (app_nil_r (packed _ _ _)).
    apply (run_unpack_packed 2 4 2) with (align := λ n, (8 - 2 * (Z.of_nat n mod 4)) mod 8);
      try done; [eight_cases|apply align_2].
Qed.

Lemma unpack_pack_4 : unpacks 4 pack_4 unpack_4.
Proof.
  intros vs ? ?. exists (packed 4 2 vs). split_and!; [..|by apply packed_length].
  - unfold pack_4. apply (run_pack_packed 4 2 4); try done. eight_cases.
  - rewrite <- (app_nil_r (packed _ _ _)).
    apply (run_unpack_packed 4 2 4) with (align := λ n, (8 - 4 * (Z.of_nat n mod 2)) mod 8);
      try done; [eight_cases|apply align_4].
Qed.

Lemma unpack_bytes_concat b vs :
  Forall (is_u (8 * Z.of_nat b)) vs →
  unpack_bytes b (concat (map (le_bytes b) vs)) (length vs) = Some vs.
Proof.
  induction 1 as [|v vs Hv _ IH]; [done|]. cbn [map concat length unpack_bytes].
  rewrite decide_True by (rewrite length_app, length_le_bytes; lia).
  rewrite drop_app_length', take_app_length' by (by rewrite length_le_bytes).
  rewrite IH. simpl. by rewrite le_num_le_bytes, uw_small.
Qed.

Lemma length_concat_le_bytes b vs :
  length (concat (map (le_bytes b) vs)) = (b * length vs)%nat.
Proof.
  induction vs as [|v vs IH]; [simpl; lia|].
  cbn [map concat length]. rewrite length_app, IH, length_le_bytes. lia.
Qed.

Lemma unpacks_bytes b (pk : list Z → writer) un :
  (∀ vs, pk vs = Some (concat (map (le_bytes b) vs))) →
  (∀ src n, un src n = unpack_bytes b src n) →
  unpacks (8 * Z.of_nat b) pk un.
Proof.
  intros Hpk Hun vs Hvs ?. eexists. rewrite Hpk, Hun. split_and!; [done|..].
  - by apply unpack_bytes_concat.
  - rewrite length_concat_le_bytes. apply Z.div_unique with 7; lia.
Qed.

Lemma unpack_pack_8 : unpacks 8 pack_8 unpack_8.
Proof.
  apply (unpacks_bytes 1); [|done]. intros vs. unfold pack_8. f_equal.
  induction vs as [|v vs IH]; [done|]. simpl. by rewrite IH.
Qed.

Lemma unpack_pack_values nbits :
  nbits ∈ [1; 2; 4; 8; 16; 32; 64] → unpacks nbits (pack_values nbits) (unpack_values nbits).
Proof.
  intros Hn. repeat (apply elem_of_cons in Hn as [->|Hn]).
  - apply unpack_pack_1.
  - apply unpack_pack_2.
  - apply unpack_pack_4.
  - apply unpack_pack_8.
  - by apply (unpacks_bytes 2).
  - by apply (unpacks_bytes 4).
  - by apply (unpacks_bytes 8).
  - by apply not_elem_of_nil in Hn.
Qed.

(** ** Variable-length code *)

Lemma take_le_bytes n m x : (n ≤ m)%nat → take n (le_bytes m x) = le_bytes n x.
Proof.
  revert m x. induction n as [|n IH]; intros m x ?; [by rewrite take_0|].
  destruct m as [|m]; [lia|]. simpl. f_equal. apply IH. lia.
Qed.

Lemma le_bytes_S n x : le_bytes (S n) x = [u8 x] ++ le_bytes n (x ≫ 8).
Proof. done. Qed.

(** The stored number of a [k]-bit-tagged code: [k - 1] ones, a zero, and the value. *)
Lemma tagged_value w k s :
  1 ≤ k → k ≤ w → s ≫ (w - k) = 0 → 0 ≤ s →
  uw w ((uw w s ≪ k) .| (2 ^ (k - 1) - 1)) = s * 2 ^ k + (2 ^ (k - 1) - 1)
  ∧ is_u w (s * 2 ^ k + (2 ^ (k - 1) - 1)).
Proof.
  intros Hk Hw Hs ?. rewrite Z.shiftr_div_pow2 in Hs by lia.
  assert (s < 2 ^ (w - k)) as Hlt.
  { apply Z.div_small_iff in Hs; [lia|]. apply Z.pow_nonzero; lia. }
  assert (2 ^ w = 2 ^ (w - k) * 2 ^ k) as Ew by (rewrite <- Z.pow_add_r by lia; f_equal; lia).
  assert (2 ^ k = 2 * 2 ^ (k - 1)) as Ek by (rewrite <- Z.pow_succ_r by lia; f_equal; lia).
  assert (0 < 2 ^ (k - 1)) by (apply Z.pow_pos_nonneg; lia).
  assert (is_u w s) by (unfold is_u; nia).
  assert (is_u w (s * 2 ^ k + (2 ^ (k - 1) - 1))) by (unfold is_u; nia).
  split; [|done]. rewrite (uw_small w s) by done.
  rewrite shiftl_lor_add by lia. by apply uw_small.
Qed.

(** Decoding decides on the low bits of the first byte, which are the low bits of the code. *)
Lemma variable_decode_tagged n k x rest :
  is_u (8 * Z.of_nat (S n)) x → (Z.of_nat n + 1 = k) → 2 ≤ k ≤ 7 →
  x mod 2 ^ k = 2 ^ (k - 1) - 1 →
  variable_decode (le_bytes (S n) x ++ rest) = Some (x ≫ k, rest).
Proof.
  intros Hx Hn Hk Hmod. rewrite le_bytes_S, <- app_assoc. unfold variable_decode.
  rewrite (read_bind 1) by done. cbn [le_num]. rewrite Z.mul_0_r, Z.add_0_r.
  assert (∀ b, read n (le_bytes n (x ≫ 8) ++ b) = Some (le_bytes n (x ≫ 8), b)) as Hread.
  { intros. apply read_app, length_le_bytes. }
  assert (le_num ([u8 x] ++ le_bytes n (x ≫ 8)) = x) as Hnum.
  { rewrite <- le_bytes_S, le_num_le_bytes. by apply uw_small. }
  mask_mod. unfold uw in *.
  assert (n = 1 ∨ n = 2 ∨ n = 3 ∨ n = 4 ∨ n = 5 ∨ n = 6)%nat as Hc by lia.
  repeat (destruct Hc as [->|Hc] || subst n); vm_compute in Hn; subst k.
  all: match type of Hmod with _ mod 2 ^ ?k = ?c =>
      assert (∀ j, 0 ≤ j ≤ k → (x mod 2 ^ 8) mod 2 ^ j = c mod 2 ^ j) as Hlow
        by (intros; rewrite <- Hmod, !mod_mod_pow2 by lia; done) end.
  all: rewrite !Hlow by lia; eval_eqb; cbv iota.
  all: erewrite reader_bind_Some by apply Hread; by rewrite Hnum.
Qed.

Lemma tagged_case (n : nat) (k : Z) (n' m : nat) s :
  n' = n → (S n ≤ m)%nat → Z.of_nat n + 1 = k → 2 ≤ k ≤ 7 → 0 ≤ s →
  s ≫ (8 * Z.of_nat (S n) - k) = 0 →
  encodes
    (Some (take (S n) (le_bytes m (uw (8 * Z.of_nat m)
       ((uw (8 * Z.of_nat m) s ≪ k) .| (2 ^ (k - 1) - 1))))))
    variable_decode s.
Proof.
  intros -> Hm Hn Hk Hs E.
  assert (s ≫ (8 * Z.of_nat m - k) = 0) as E'.
  { rewrite Z.shiftr_div_pow2 in * by lia. apply Z.div_small_iff in E; [|apply Z.pow_nonzero; lia].
    apply Z.div_small. pose proof (Z.pow_le_mono_r 2 (8 * Z.of_nat (S n) - k) (8 * Z.of_nat m - k)).
    lia. }
  destruct (tagged_value (8 * Z.of_nat m) k s) as [-> _]; try lia.
  destruct (tagged_value (8 * Z.of_nat (S n)) k s) as [_ Hr]; try lia.
  rewrite take_le_bytes by done. eexists. split; [done|]. intros rest.
  assert (0 < 2 ^ (k - 1)) by (apply Z.pow_pos_nonneg; lia).
  assert (2 ^ k = 2 * 2 ^ (k - 1)) as Ek by (rewrite <- Z.pow_succ_r by lia; f_equal; lia).
  rewrite (variable_decode_tagged n k); try done.
  - rewrite Z.shiftr_div_pow2 by lia. do 2 f_equal.
    rewrite Z.div_add_l by lia. rewrite Z.div_small by lia. lia.
  - rewrite Z.add_comm, Z_mod_plus_full. apply Z.mod_small. lia.
Qed.

Lemma variable_decode_encode s : is_u64 s → encodes (variable_encode s) variable_decode s.
Proof.
  intros Hs. assert (0 ≤ s) by (unfold is_u in Hs; lia).
  unfold variable_encode.
  repeat match goal with
  | |- encodes (if ?c =? 0 then _ else _) _ _ =>
      let E := fresh "E" in destruct (Z.eqb_spec c 0) as [E|E]
  end.
  - exists (le_bytes 1 (u8 (s ≪ 1))). split; [done|]. intros rest.
    rewrite Z.shiftr_div_pow2 in E by lia.
    assert (0 ≤ s < 128) by (apply Z.div_small_iff in E; eval_pow; lia).
    unfold variable_decode. rewrite (read_bind 1) by done. cbn [le_bytes le_num].
    rewrite uw_uw, Z.shiftl_mul_pow2, (uw_small 8) by (unfold is_u; lia).
    rewrite Z.mul_0_r, Z.add_0_r. mask_mod. rewrite Z_mod_mult.
    rewrite Z.shiftr_div_pow2, Z.div_mul by lia. done.
  - apply (tagged_case 1 2 1 2); first [lia|assumption|reflexivity].
  - apply (tagged_case 2 3 2 4); first [lia|assumption|reflexivity].
  - apply (tagged_case 3 4 3 4); first [lia|assumption|reflexivity].
  - apply (tagged_case 4 5 4 8); first [lia|assumption|reflexivity].
  - apply (tagged_case 5 6 5 8); first [lia|assumption|reflexivity].
  - apply (tagged_case 6 7 6 8); first [lia|assumption|reflexivity].
  - exists (le_bytes 1 127 ++ le_bytes 8 s). split; [done|]. intros rest.
    rewrite <- app_assoc. unfold variable_decode. rewrite (read_bind 1) by done.
    change (le_num (le_bytes 1 127)) with 127. eval_eqb. cbv iota.
    rewrite (read_bind 8) by done. rewrite le_num_le_bytes. by rewrite uw_small.
Qed.

(** Every 64-bit value takes 1 to 9 bytes. *)
Lemma variable_encode_length s bs :
  variable_encode s = Some bs → (1 ≤ length bs ≤ 9)%nat.
Proof. unfold variable_encode. intros. repeat case_match; simplify_eq; simpl; lia. Qed.

(** ** Zig-zag map *)

Lemma lxor_ones64 x : is_u64 x → x .^ (2 ^ 64 - 1) = 2 ^ 64 - 1 - x.
Proof.
  intros Hx. replace (2 ^ 64 - 1) with (Z.ones 64) by done.
  rewrite Z.sub_nocarry_ldiff.
  - apply Z.bits_inj'. intros i ?. rewrite Z.lxor_spec, Z.ldiff_spec.
    destruct (decide (i < 64)).
    + rewrite Z.ones_spec_low by lia. by destruct (Z.testbit x i).
    + rewrite Z.ones_spec_high, (testbit_above 64) by (done || lia). done.
  - apply Z.bits_inj'. intros i ?. rewrite Z.ldiff_spec, Z.bits_0.
    destruct (decide (i < 64)).
    + rewrite Z.ones_spec_low by lia. apply andb_false_r.
    + by rewrite (testbit_above 64) by (done || lia).
Qed.

Lemma shiftr63_sign v : is_s64 v → v ≫ 63 = if v <? 0 then -1 else 0.
Proof.
  intros [? ?]. rewrite Z.shiftr_div_pow2 by lia.
  destruct (Z.ltb_spec v 0); symmetry; [apply Z.div_unique with (v + 2 ^ 63)|
    apply Z.div_unique with v]; lia.
Qed.

Lemma shifted_integer_encode_spec v :
  is_s64 v → shifted_integer_encode v = if v <? 0 then -2 * v - 1 else 2 * v.
Proof.
  intros Hv. unfold shifted_integer_encode. rewrite shiftr63_sign by done.
  rewrite Z.shiftl_mul_pow2 by lia. destruct Hv as [Hlo Hhi].
  destruct (Z.ltb_spec v 0).
  - rewrite Z.lxor_m1_r. unfold Z.lnot.
    destruct (decide (v = - 2 ^ 63)) as [->|]; [done|].
    rewrite (sw_small (v + -1)) by (unfold is_s64; lia).
    rewrite (uw_small 64 (Z.pred _)) by (unfold is_u; lia).
    rewrite !uw_small by (unfold is_u; try rewrite uw_small; unfold is_u; lia). lia.
  - rewrite Z.lxor_0_r, !Z.add_0_r, sw_small by (unfold is_s64; lia).
    rewrite (uw_small 64 v) by (unfold is_u; lia). rewrite uw_uw.
    rewrite uw_small by (unfold is_u; lia). lia.
Qed.

Lemma shifted_integer_decode_spec e :
  is_u64 e → shifted_integer_decode e = if e mod 2 =? 0 then e / 2 else - (e / 2) - 1.
Proof.
  intros [Hlo Hhi]. unfold shifted_integer_decode. mask_mod. change (2 ^ 1) with 2.
  rewrite Z.shiftr_div_pow2 by lia. change (2 ^ 1) with 2.
  assert (e mod 2 = 0 ∨ e mod 2 = 1) as [Hm|Hm] by dlia; rewrite Hm.
  - change (- 0) with 0. change (u64 0) with 0. change (0 =? 0) with true. cbv iota.
    rewrite Z.lxor_0_r, Z.sub_0_r, Z.add_0_r, uw_uw, uw_small by (unfold is_u; dlia).
    apply sw_small. unfold is_s64. dlia.
  - change (1 =? 0) with false. cbv iota. change (u64 (- (1))) with (2 ^ 64 - 1).
    push_mod. replace (e / 2 - - (1) + - (1)) with (e / 2) by lia.
    rewrite uw_small by (unfold is_u; dlia). rewrite lxor_ones64 by (unfold is_u; dlia).
    rewrite <- sw_uw. replace (u64 (2 ^ 64 - 1 - e / 2)) with (u64 (- (e / 2) - 1)).
    + rewrite sw_uw. apply sw_small. unfold is_s64. dlia.
    + unfold uw. replace (2 ^ 64 - 1 - e / 2) with (- (e / 2) - 1 + 1 * 2 ^ 64) by lia.
      by rewrite Z_mod_plus_full.
Qed.

Lemma shifted_integer_encode_range v : is_s64 v → is_u64 (shifted_integer_encode v).
Proof.
  intros Hv. rewrite shifted_integer_encode_spec by done.
  unfold is_s64, is_u in *. case_match; rewrite ?Z.ltb_lt, ?Z.ltb_ge in *; lia.
Qed.

Lemma shifted_integer_decode_encode v :
  is_s64 v → shifted_integer_decode (shifted_integer_encode v) = v.
Proof.
  intros Hv. rewrite shifted_integer_decode_spec by (by apply shifted_integer_encode_range).
  rewrite shifted_integer_encode_spec by done.
  destruct (Z.ltb_spec v 0); case_match; rewrite ?Z.eqb_eq, ?Z.eqb_neq in *; dlia.
Qed.

(** ** The three derived arrays decode to the input *)

Lemma uw_sw_add_l a b : u64 (s64 a + b) = u64 (a + b).
Proof. by rewrite <- uw_add_l, uw_sw, uw_add_l. Qed.
Lemma uw_sw_sub_r a b : u64 (a - s64 b) = u64 (a - b).
Proof. by rewrite <- uw_sub_r, uw_sw, uw_sub_r. Qed.

Lemma undelta_deltas p xs : Forall is_u64 xs → undelta p (deltas p xs) = xs.
Proof.
  intros Hxs. revert p. induction Hxs as [|x xs Hx _ IH]; intros p; [done|]. simpl.
  push_mod. replace (x - p + p) with x by lia. rewrite (uw_small 64 x) by done. by rewrite IH.
Qed.

Lemma undelta_negative_deltas p xs :
  Forall is_u64 xs → undelta_negative p (deltas_negative p xs) = xs.
Proof.
  intros Hxs. revert p. induction Hxs as [|x xs Hx _ IH]; intros p; [done|]. simpl.
  rewrite shifted_integer_decode_encode by apply sw_range.
  rewrite uw_sw, uw_add_l, Z.add_comm, Z.add_sub_assoc, uw_sw_sub_r.
  replace (p + s64 x - p) with (s64 x + 0) by lia. rewrite uw_sw_add_l, Z.add_0_r.
  rewrite (uw_small 64 x) by done. by rewrite IH.
Qed.

Lemma unframe_frame m xs :
  Forall is_u64 xs → map (λ x, u64 (x + m)) (map (λ x, u64 (x - m)) xs) = xs.
Proof.
  induction 1 as [|x xs Hx _ IH]; [done|]. simpl. push_mod.
  replace (x - m + m) with x by lia. rewrite (uw_small 64 x) by done. by rewrite IH.
Qed.

Lemma length_deltas p xs : length (deltas p xs) = length xs.
Proof. revert p. induction xs; intros; simpl; auto. Qed.
Lemma length_deltas_negative p xs : length (deltas_negative p xs) = length xs.
Proof. revert p. induction xs; intros; simpl; auto. Qed.

Lemma deltas_range p xs : Forall is_u64 (deltas p xs).
Proof. revert p. induction xs; intros; simpl; constructor; auto with sframe lia. Qed.
Lemma deltas_negative_range p xs : Forall is_u64 (deltas_negative p xs).
Proof.
  revert p. induction xs; intros; simpl; constructor; auto.
  apply shifted_integer_encode_range, sw_range.
Qed.
Lemma frame_range m xs : Forall is_u64 (map (λ x, u64 (x - m)) xs).
Proof. induction xs; simpl; constructor; auto with sframe lia. Qed.

Lemma undelta_zeros p n : is_u64 p → undelta p (replicate n 0) = replicate n p.
Proof.
  intros Hp. induction n as [|n IH]; [done|].
  cbn [replicate undelta]. rewrite Z.add_0_l, uw_small by done. by rewrite IH.
Qed.
Lemma undelta_negative_zeros p n : is_u64 p → undelta_negative p (replicate n 0) = replicate n p.
Proof.
  intros Hp. induction n as [|n IH]; [done|]. cbn [replicate undelta_negative].
  change (u64 (shifted_integer_decode 0)) with 0. rewrite Z.add_0_l, uw_small by done. by rewrite IH.
Qed.

Lemma scan_input_range prev m xs :
  is_u64 m → Forall is_u64 xs → is_u64 (fst (scan_input prev m xs)).
Proof.
  intros Hm Hxs. revert prev m Hm. induction Hxs as [|x xs Hx _ IH]; intros prev m Hm; [done|].
  assert (is_u64 (Z.min m x)) by (unfold is_u in *; lia).
  simpl. repeat case_match; simpl; auto.
Qed.

(** ** The group code *)

(** The bit count found by [n_leading_zeros] of the disjunction covers every value. *)
Definition nbits_of (l : list Z) : Z := 64 - n_leading_zeros 64 (foldl Z.lor 0 l).

Lemma nbits_of_range l : Forall is_u64 l → 0 ≤ nbits_of l ≤ 64 ∧ Forall (is_u (nbits_of l)) l.
Proof.
  intros Hl. unfold nbits_of.
  assert (is_u64 (foldl Z.lor 0 l)) as Hor by (by apply fold_lor_range).
  pose proof (n_leading_zeros_range 64 ltac:(lia) _ Hor).
  pose proof (n_leading_zeros_spec 64 _ Hor) as Hspec.
  split; [lia|].
  assert (Forall (λ x, 0 ≤ x) l) as Hpos.
  { eapply Forall_impl; [exact Hl|]. unfold is_u. intros; simpl in *; lia. }
  destruct (fold_lor_ge l 0 ltac:(lia) Hpos) as [_ Hle].
  apply Forall_forall. intros x Hx. rewrite Forall_forall in Hpos, Hle.
  specialize (Hpos x Hx). specialize (Hle x Hx).
  split; [done|]. by eapply Z.le_lt_trans.
Qed.

Definition widths : list Z := [1; 2; 4; 8; 16; 32; 64].

(** [round_nbits] rounds up to a packable width, and to 0 only from 0. *)
Lemma round_nbits_spec n :
  0 ≤ n ≤ 64 →
  (n = 0 ∧ round_nbits n = 0) ∨ (0 < n ≤ round_nbits n ∧ round_nbits n ∈ widths).
Proof.
  intros ?.
  assert (forall_below 65 (λ n, if n =? 0 then round_nbits n =? 0 else
    (n <=? round_nbits n) && existsb (Z.eqb (round_nbits n)) widths) = true) as H0 by done.
  pose proof (forall_below_spec _ _ H0 n ltac:(lia)) as Hn. cbv beta in Hn. clear H0.
  destruct (Z.eqb_spec n 0) as [->|]; [left; by apply Z.eqb_eq in Hn|right].
  apply andb_true_iff in Hn as [Hle Hin]. apply Z.leb_le in Hle.
  apply existsb_exists in Hin as (w & Hw & E). apply Z.eqb_eq in E. rewrite E.
  split; [lia|]. by apply list_elem_of_In.
Qed.

(** The header byte carries the width and the technique. *)
Lemma frame_header_spec t nbits :
  t ∈ [0; 1; 2] → nbits ∈ 0 :: widths →
  let h := frame_header t nbits in
  is_byte h ∧ h .& FRAME_OF_REFERENCE_HEADER_MASK = t
  ∧ (if 0 <? h ≫ FRAME_OF_REFERENCE_HEADER_NUM_BITS
     then u8 (1 ≪ ((h ≫ FRAME_OF_REFERENCE_HEADER_NUM_BITS) - 1)) else 0) = nbits.
Proof.
  intros Ht Hn.
  repeat (apply elem_of_cons in Ht as [->|Ht]); [..|by apply not_elem_of_nil in Ht];
    repeat (apply elem_of_cons in Hn as [->|Hn]);
    try (by apply not_elem_of_nil in Hn); by split_and!.
Qed.

(** Reading back a packed array of [len] values. *)
Lemma read_packed {A} nbits vs (f : list Z → reader A) :
  nbits ∈ widths → Forall (is_u nbits) vs → (0 < length vs)%nat →
  ∃ pb, pack_values nbits vs = Some pb ∧ ∀ rest,
    (pack ← read (Z.to_nat ((nbits * Z.of_nat (length vs) + 7) / 8));
     output ← rlift (unpack_values nbits pack (length vs)); f output) (pb ++ rest)
    = f vs rest.
Proof.
  intros Hn Hvs Hlen. destruct (unpack_pack_values nbits Hn vs Hvs Hlen) as (pb & Hp & Hu & Hl).
  exists pb. split; [done|]. intros rest. rewrite read_bind by lia.
  by rewrite Hu.
Qed.

Lemma choose_code_spec x0 xs :
  is_u64 x0 → Forall is_u64 xs →
  ∃ t n m coded, choose_code x0 xs = (t, n, m, coded) ∧ is_u64 m ∧ 0 ≤ n ≤ 64 ∧
    ( (t = 0 ∧ coded = map (λ x, u64 (x - m)) (x0 :: xs) ∧ n = nbits_of coded)
    ∨ (t = 1 ∧ coded = x0 :: deltas x0 xs ∧ n = nbits_of (tail coded))
    ∨ (t = 2 ∧ coded = x0 :: deltas_negative x0 xs ∧ n = nbits_of (tail coded))).
Proof.
  intros Hx Hxs. unfold choose_code.
  pose proof (scan_input_range None x0 (x0 :: xs) Hx ltac:(by constructor)) as Hm.
  destruct (scan_input None x0 (x0 :: xs)) as [m inc]. simpl in Hm.
  pose proof (proj1 (nbits_of_range _ (frame_range m (x0 :: xs)))) as Hf.
  pose proof (proj1 (nbits_of_range _ (deltas_range x0 xs))) as Hd.
  pose proof (proj1 (nbits_of_range _ (deltas_negative_range x0 xs))) as Hdn.
  cbn [tail]. unfold nbits_of in Hf, Hd, Hdn |- *.
  destruct inc; case_match;
    [| case_match | |case_match];
    do 4 eexists; (split; [reflexivity|]); (split; [done|]).
  all: rewrite ?andb_true_iff, ?andb_false_iff, ?Z.leb_le, ?Z.leb_gt in *.
  all: split; [lia|]; first [by left|right; left; by split_and!|right; right; by split_and!|lia].
Qed.

(** The values a decoder rebuilds from the base value and the array that was packed. *)
Definition rebuild (t base : Z) (body : list Z) : list Z :=
  if t =? 0 then map (λ x, u64 (x + base)) body
  else if t =? 1 then base :: undelta base body
  else base :: undelta_negative base body.

Lemma zero_width_zeros l : Forall (is_u 0) l → l = replicate (length l) 0.
Proof.
  induction 1 as [|x l Hx _ IH]; [done|]. simpl. rewrite <- IH. f_equal.
  unfold is_u in Hx. lia.
Qed.

Lemma rebuild_zeros t base body :
  t ∈ [0; 1; 2] → is_u64 base → Forall (is_u 0) body →
  rebuild t base body = replicate (length body + (if t =? 0 then 0 else 1)) base.
Proof.
  intros Ht Hb Hz. rewrite (zero_width_zeros body), length_replicate by done.
  generalize (length body) as n. intros n.
  repeat (apply elem_of_cons in Ht as [->|Ht]); [..|by apply not_elem_of_nil in Ht];
    unfold rebuild; simpl Z.eqb; cbv iota.
  - rewrite Nat.add_0_r. induction n as [|n IH]; [done|]. cbn [replicate map].
    by rewrite IH, Z.add_0_l, uw_small.
  - rewrite undelta_zeros by done. by rewrite Nat.add_1_r.
  - rewrite undelta_negative_zeros by done. by rewrite Nat.add_1_r.
Qed.

(** Decoding a header of width 0: the base value is repeated. *)
Lemma decode_zero_width t base n :
  t ∈ [0; 1; 2] → is_u64 base → (S n ≤ 128)%nat →
  encodes (Some [frame_header t 0] +++ variable_encode base)
    (frame_of_reference_decode_128 (S n)) (replicate (S n) base).
Proof.
  intros Ht Hb Hn. destruct (frame_header_spec t 0 Ht ltac:(by left)) as (Hh & Hmask & Hw).
  destruct (variable_decode_encode base Hb) as (vb & -> & Hv).
  eexists. split; [done|]. intros rest. unfold frame_of_reference_decode_128.
  rewrite (proj2 (Nat.ltb_ge _ _)) by done.
  erewrite reader_bind_Some.
  2:{ rewrite <- app_assoc. unfold read_le. rewrite (read_bind 1) by done.
      cbn [le_num]. by rewrite Z.mul_0_r, Z.add_0_r. }
  rewrite Hw. eval_eqb. cbv iota. by erewrite reader_bind_Some by apply Hv.
Qed.

(** Decoding a header of a packable width. *)
Lemma decode_packed t base nb body pb n :
  t ∈ [0; 1; 2] → is_u64 base → nb ∈ widths → (S n ≤ 128)%nat →
  length body = (if t =? 0 then S n else n) → (0 < length body)%nat →
  Forall (is_u nb) body → pack_values nb body = Some pb →
  encodes (Some [frame_header t nb] +++ variable_encode base +++ Some pb)
    (frame_of_reference_decode_128 (S n)) (rebuild t base body).
Proof.
  intros Ht Hb Hnb Hn Hlen Hpos Hbody Hpb.
  destruct (frame_header_spec t nb Ht ltac:(by right)) as (Hh & Hmask & Hw).
  destruct (variable_decode_encode base Hb) as (vb & -> & Hv).
  eexists. split; [done|]. intros rest. unfold frame_of_reference_decode_128.
  rewrite (proj2 (Nat.ltb_ge _ _)) by done.
  erewrite reader_bind_Some.
  2:{ rewrite <- app_assoc. unfold read_le. rewrite (read_bind 1) by done.
      cbn [le_num]. by rewrite Z.mul_0_r, Z.add_0_r. }
  rewrite Hw, Hmask. assert ((nb =? 0) = false) as ->.
  { unfold widths in Hnb. apply Z.eqb_neq. intros ->.
    by apply list_elem_of_In in Hnb; simpl in Hnb; intuition. }
  destruct (read_packed nb body (λ o, mret (rebuild t base o)) Hnb Hbody Hpos)
    as (pb' & Hpb' & Hr). simplify_eq.
  repeat (apply elem_of_cons in Ht as [->|Ht]); [..|by apply not_elem_of_nil in Ht];
    cbn [Z.eqb Pos.eqb] in Hlen; eval_eqb; cbv iota in *; rewrite <- ?Hlen, <- app_assoc;
    erewrite reader_bind_Some by apply Hv; apply Hr.
Qed.

(** Whatever the technique, rebuilding from the chosen array gives the input. *)
Lemma choose_code_rebuild x0 xs :
  is_u64 x0 → Forall is_u64 xs →
  ∃ t n m coded, choose_code x0 xs = (t, n, m, coded) ∧ 0 ≤ n ≤ 64 ∧ t ∈ [0; 1; 2] ∧
    let base := if t =? 0 then m else hd 0 coded in
    let body := if t =? 0 then coded else tail coded in
    is_u64 base ∧ Forall (is_u n) body ∧ rebuild t base body = x0 :: xs
    ∧ length body = (if t =? 0 then S (length xs) else length xs)
    ∧ (0 < n → (0 < length body)%nat).
Proof.
  intros Hx Hxs. destruct (choose_code_spec x0 xs Hx Hxs) as (t & n & m & coded & -> & Hm & Hn & Hc).
  do 4 eexists. split; [reflexivity|]. split; [done|].
  assert (∀ l, n = nbits_of l → Forall is_u64 l →
    Forall (is_u n) l ∧ (0 < n → (0 < length l)%nat)) as Hbits.
  { intros l -> Hl. split; [by apply nbits_of_range|]. destruct l; [done|simpl; lia]. }
  destruct Hc as [(-> & -> & En)|[(-> & -> & En)|(-> & -> & En)]];
    (split; [apply list_elem_of_In; simpl; tauto|]); cbv zeta; eval_eqb; cbv iota; cbn [hd tail] in *.
  - destruct (Hbits _ En (frame_range _ _)). split_and!; try done.
    + unfold rebuild. eval_eqb. cbv iota. apply unframe_frame. by constructor.
    + by rewrite length_map.
  - destruct (Hbits _ En (deltas_range _ _)). split_and!; try done.
    + unfold rebuild. eval_eqb. cbv iota. by rewrite undelta_deltas.
    + apply length_deltas.
  - destruct (Hbits _ En (deltas_negative_range _ _)). split_and!; try done.
    + unfold rebuild. eval_eqb. cbv iota. by rewrite undelta_negative_deltas.
    + apply length_deltas_negative.
Qed.

(** The group code: for 0 to 128 64-bit values, the encoder succeeds and the decoder, given
    the number of values, reads back exactly the values and consumes exactly the code. *)
Lemma frame_of_reference_round_trip vs :
  Forall is_u64 vs → (length vs ≤ 128)%nat →
  encodes (frame_of_reference_encode_128 vs) (frame_of_reference_decode_128 (length vs)) vs.
Proof.
  intros Hvs Hlen. destruct Hvs as [|x0 xs Hx Hxs]; [by apply encodes_ret|].
  destruct (choose_code_rebuild x0 xs Hx Hxs)
    as (t & n & m & coded & Hcc & Hn & Ht & Hb & Hbody & Hre & Hl & Hpos).
  unfold frame_of_reference_encode_128.
  rewrite (proj2 (Nat.ltb_ge _ _)), Hcc by done. cbv zeta.
  replace (if t =? FRAME_OF_REFERENCE then variable_encode m else variable_encode (hd 0 coded))
    with (variable_encode (if t =? 0 then m else hd 0 coded)) by (unfold FRAME_OF_REFERENCE; by destruct (t =? 0)).
  unfold FRAME_OF_REFERENCE. cbv zeta in *.
  set (base := if t =? 0 then m else hd 0 coded) in *.
  set (body := if t =? 0 then coded else tail coded) in *.
  destruct (round_nbits_spec n Hn) as [[-> ->]|[Hle Hw]].
  - eval_eqb. cbv iota. rewrite <- Hre, rebuild_zeros by done.
    replace (length body + _)%nat with (S (length xs)) by (rewrite Hl; case_match; lia).
    rewrite length_replicate.
    destruct (decode_zero_width t base (length xs) Ht Hb Hlen) as (bs & E & Hd).
    exists bs. split; [|done]. rewrite <- E.
    destruct (variable_encode base); simpl; by rewrite ?app_nil_r.
  - assert ((round_nbits n =? 0) = false) as -> by (apply Z.eqb_neq; lia).
    assert (Forall (is_u (round_nbits n)) body) as Hbody'.
    { eapply Forall_impl; [exact Hbody|]. intros x ?. eapply is_u_mono; [|done]. lia. }
    destruct (read_packed (A := list Z) _ body mret Hw Hbody' (Hpos ltac:(lia))) as (pb & Hpb & _).
    rewrite Hpb. rewrite <- Hre at 2. apply decode_packed; auto. apply Hpos. lia.
Qed.

End IntegerPack.
