(* ===== verification/Bitset.v ===== *)
(** Dense bitsets of [util/dense_bitset.hpp].

    A [dense_bitset] is its array of 64-bit words and its length in bits; [arrlen] is the
    number of words.  A [bool] or a position returned through a reference parameter is the
    result; [None] is an access outside the array. *)

From S2P Require Import Prelude Bitops.

Module Bitset.
Import Bitops.

Record dense_bitset := MkBitset { array : list Z; len : nat }.

Definition arrlen (d : dense_bitset) : nat := length (array d).

(** ** Positions and words *)

Definition bit_to_pos (b : nat) : nat * Z := ((b / 64)%nat, Z.of_nat b .& 63).

(** 0 on failure. *)
Definition next_bit_in_block (b block : Z) : Z :=
  let belowselectedbit := u64 (u64 (-1) - (u64 (u64 (1 ≪ b) - 1) .| u64 (1 ≪ b))) in
  let x := block .& belowselectedbit in
  if x =? 0 then 0 else n_trailing_zeros 64 x.

Definition first_bit_in_block (block : Z) : Z :=
  if block =? 0 then 0 else n_trailing_zeros 64 block.

(** The mask is applied to the last word, when the length is not a multiple of 64. *)
Definition fix_trailing_bits (d : dense_bitset) : dense_bitset :=
  let lastbits := Z.of_nat (len d mod 64) in
  if lastbits =? 0 then d
  else MkBitset
         (alter (λ w, w .& u64 (u64 (1 ≪ lastbits) - 1)) (arrlen d - 1)%nat (array d)) (len d).

(** ** Whole-set operations *)

Definition words_for (n : nat) : nat := (n / 64 + (if (0 <? n mod 64)%nat then 1 else 0))%nat.

(** [realloc] keeps the common prefix of the array; the words it adds hold [fresh]. *)
Definition resize (fresh : nat → Z) (n : nat) (d : dense_bitset) : dense_bitset :=
  let prev_arrlen := arrlen d in
  let arrlen := words_for n in
  let array := take arrlen (array d) ++ map fresh (seq prev_arrlen (arrlen - prev_arrlen)) in
  let d := fix_trailing_bits (MkBitset array n) in
  MkBitset (take prev_arrlen (Bitset.array d) ++ replicate (arrlen - prev_arrlen) 0) n.

Definition empty_bitset : dense_bitset := MkBitset [] 0.
Definition of_size (fresh : nat → Z) (n : nat) : dense_bitset := resize fresh n empty_bitset.

Definition clear (d : dense_bitset) : dense_bitset := MkBitset (replicate (arrlen d) 0) (len d).

Definition empty (d : dense_bitset) : bool := forallb (λ w, w =? 0) (array d).

Definition fill (d : dense_bitset) : dense_bitset :=
  fix_trailing_bits (MkBitset (replicate (arrlen d) (u64 (-1))) (len d)).

Definition invert (d : dense_bitset) : dense_bitset :=
  fix_trailing_bits (MkBitset (map (λ w, u64 (Z.lnot w)) (array d)) (len d)).

Definition size (d : dense_bitset) : nat := len d.

Definition popcount (d : dense_bitset) : Z :=
  foldl (λ ret w, ret + num_bits_on w) 0 (array d).

(** The binary operators assert equal sizes. *)
Definition band (a b : dense_bitset) : option dense_bitset :=
  if decide (size a = size b) then Some (MkBitset (zip_with Z.land (array a) (array b)) (len a))
  else None.
Definition bor (a b : dense_bitset) : option dense_bitset :=
  if decide (size a = size b) then Some (MkBitset (zip_with Z.lor (array a) (array b)) (len a))
  else None.
Definition bsub (a b : dense_bitset) : option dense_bitset :=
  if decide (size a = size b)
  then Some (MkBitset (zip_with (λ x y, u64 (x - (x .& y))) (array a) (array b)) (len a))
  else None.

(** ** Single bits *)

Definition mask_of (bitpos : Z) : Z := u64 (1 ≪ bitpos).

Definition get (d : dense_bitset) (b : nat) : option bool :=
  let '(arrpos, bitpos) := bit_to_pos b in
  w ← array d !! arrpos; Some (negb ((w .& mask_of bitpos) =? 0)).

(** An update of the word that holds bit [b], returning the old value of the bit. *)
Definition update_bit (f : Z → Z → Z) (b : nat) (d : dense_bitset) : option (bool * dense_bitset) :=
  let '(arrpos, bitpos) := bit_to_pos b in
  w ← array d !! arrpos;
  Some (negb ((w .& mask_of bitpos) =? 0),
        MkBitset (<[arrpos := f w (mask_of bitpos)]> (array d)) (len d)).

Definition set_bit := update_bit (λ w mask, w .| mask).
Definition xor_bit := update_bit (λ w mask, w .^ mask).
Definition set_bit_unsync := update_bit (λ w mask, w .| mask).
Definition clear_bit := update_bit (λ w test_mask, w .& u64 (Z.lnot test_mask)).
Definition clear_bit_unsync := update_bit (λ w test_mask, w .& u64 (Z.lnot test_mask)).

Definition set (b : nat) (value : bool) (d : dense_bitset) :=
  if value then set_bit b d else clear_bit b d.
Definition set_unsync (b : nat) (value : bool) (d : dense_bitset) :=
  if value then set_bit_unsync b d else clear_bit_unsync b d.

Definition containing_word (d : dense_bitset) (b : nat) : option Z :=
  array d !! (bit_to_pos b).1.

Definition clear_word_unsync (b : nat) (d : dense_bitset) : option dense_bitset :=
  _ ← array d !! (bit_to_pos b).1;
  Some (MkBitset (<[(bit_to_pos b).1 := 0]> (array d)) (len d)).

Definition get_containing_word_and_zero (b : nat) (d : dense_bitset)
    : option (Z * dense_bitset) :=
  w ← containing_word d b; d' ← clear_word_unsync b d; Some (w, d').

(** ** Searching

    [scan neg i words] is the loop over the words from index [i]: the position of the first
    set bit of the first non-zero word ([neg]: of the complemented words). *)

Definition block_view (neg : bool) (w : Z) : Z := if neg then u64 (Z.lnot w) else w.

Fixpoint scan (neg : bool) (i : nat) (words : list Z) : option nat :=
  match words with
  | [] => None
  | w :: words' =>
      if block_view neg w =? 0 then scan neg (S i) words'
      else Some (i * 64 + Z.to_nat (first_bit_in_block (block_view neg w)))%nat
  end.

Definition below_len (d : dense_bitset) (o : option nat) : option nat :=
  match o with
  | Some b => if (b <? len d)%nat then Some b else None
  | None => None
  end.

Definition first_bit (d : dense_bitset) : option nat := below_len d (scan false 0 (array d)).

Definition first_zero_bit (d : dense_bitset) : option nat := below_len d (scan true 0 (array d)).

Definition next_in (neg : bool) (d : dense_bitset) (b : nat) : option nat :=
  let '(arrpos, bitpos) := bit_to_pos b in
  match array d !! arrpos with
  | None => None
  | Some w =>
      let bitpos := next_bit_in_block bitpos (block_view neg w) in
      if negb (bitpos =? 0) then below_len d (Some (arrpos * 64 + Z.to_nat bitpos)%nat)
      else below_len d (scan neg (S arrpos) (drop (S arrpos) (array d)))
  end.

Definition next_bit (d : dense_bitset) (b : nat) : option nat := next_in false d b.
Definition next_zero_bit (d : dense_bitset) (b : nat) : option nat := next_in true d b.

(** [for (auto t : d)]: from [begin()], [++] until [end()]; [fuel] bounds the number of bits. *)
Fixpoint iterate (fuel : nat) (d : dense_bitset) (pos : option nat) : list nat :=
  match fuel, pos with
  | S fuel', Some p => p :: iterate fuel' d (next_bit d p)
  | _, _ => []
  end.

Definition elements (d : dense_bitset) : list nat := iterate (S (len d)) d (first_bit d).

(** ** Transfer of about [b] bits between two sets, and serialization *)

(** One iteration of the loop moves a whole word; [None]: out of fuel. *)
Fixpoint transfer_loop (fuel : nat) (b : Z) (initial_arrpos arrpos : nat) (transferred : Z)
    (this other : list Z) : option (nat * Z * list Z * list Z) :=
  match fuel with
  | O => None
  | S fuel' =>
      if b <=? transferred then Some (arrpos, transferred, this, other)
      else
        match this !! arrpos, other !! arrpos with
        | Some tw, Some ow =>
            let '(transferred, this, other) :=
              if 0 <? ow
              then (transferred + num_bits_on ow, <[arrpos := tw .| ow]> this,
                    <[arrpos := 0]> other)
              else (transferred, this, other) in
            let arrpos := S arrpos in
            if (length other <=? arrpos)%nat
            then transfer_loop fuel' b initial_arrpos 0 transferred this other
            else if (arrpos =? initial_arrpos)%nat
                 then Some (arrpos, transferred, this, other)
                 else transfer_loop fuel' b initial_arrpos arrpos transferred this other
        | _, _ => None
        end
  end.

(** Returns the new [start], the new [b], and the two bitsets. *)
Definition transfer_approximate_unsafe (fuel : nat) (this other : dense_bitset)
    (start : nat) (b : Z) : option (nat * Z * dense_bitset * dense_bitset) :=
  if decide (len other = len this ∧ arrlen other = arrlen this) then
    let arrpos := (bit_to_pos start).1 in
    let initial_arrpos := arrpos in
    let arrpos := if (arrlen this <=? arrpos)%nat then 0%nat else arrpos in
    '(arrpos, transferred, tw, ow) ←
      transfer_loop fuel b initial_arrpos arrpos 0 (array this) (array other);
    Some (64 * arrpos, transferred, MkBitset tw (len this), MkBitset ow (len other))%nat
  else None.

Definition save (d : dense_bitset) : writer :=
  write_le 8 (Z.of_nat (len d)) +++ write_le 8 (Z.of_nat (arrlen d)) +++ wconcat (write_le 8) (array d).

Definition load : reader dense_bitset :=
  len ← read_le 8; arrlen ← read_le 8;
  words ← read_many (Z.to_nat arrlen) (read_le 8);
  mret (MkBitset words (Z.to_nat len)).

(** ** [fixed_dense_bitset<n>]

    The same words and the same operations, with the length a template parameter and the
    words inside the object; the constructor calls [clear()]. *)

Definition fixed_dense_bitset (n : nat) : dense_bitset := MkBitset (replicate (words_for n) 0) n.
Definition fixed_set_bit_unsync (b : nat) (d : dense_bitset) : option (bool * dense_bitset) :=
  set_bit_unsync b d.
Definition fixed_get (d : dense_bitset) (b : nat) : option bool := get d b.
Definition fixed_popcount (d : dense_bitset) : Z :=
  foldl (λ ret w, ret + builtin_popcount w) 0 (array d).
Definition fixed_elements (d : dense_bitset) : list nat := elements d.

(** ** Specification: a set of positions *)

Definition bit (d : dense_bitset) (i : nat) : bool :=
  match array d !! (i / 64)%nat with
  | Some w => Z.testbit w (Z.of_nat (i mod 64))
  | None => false
  end.

Record wf (d : dense_bitset) : Prop := {
  wf_words : arrlen d = words_for (len d);
  wf_u64 : Forall is_u64 (array d);
  wf_trailing : ∀ i, (len d ≤ i)%nat → bit d i = false;
}.

(** [o] is the least position from [lo] upwards where [P] holds. *)
Definition least_from (P : nat → bool) (lo : nat) (o : option nat) : Prop :=
  match o with
  | Some p => (lo ≤ p)%nat ∧ P p = true ∧ ∀ j, (lo ≤ j < p)%nat → P j = false
  | None => ∀ j, (lo ≤ j)%nat → P j = false
  end.

(** The bits a search looks at: those of the words, or of their complements. *)
Definition view (neg : bool) (words : list Z) (i : nat) : bool :=
  match words !! (i / 64)%nat with
  | Some w => Z.testbit (block_view neg w) (Z.of_nat (i mod 64))
  | None => false
  end.

(** ** Positions and masks *)

Lemma bit_to_pos_eq b : bit_to_pos b = ((b / 64)%nat, Z.of_nat (b mod 64)).
Proof. unfold bit_to_pos. mask_mod. by rewrite Nat2Z.inj_mod. Qed.

Lemma bitpos_range b : 0 ≤ Z.of_nat (b mod 64) < 64.
Proof. pose proof (Nat.mod_upper_bound b 64). lia. Qed.

Lemma pos_eq i j : i = j ↔ (i / 64 = j / 64)%nat ∧ Z.of_nat (i mod 64) = Z.of_nat (j mod 64).
Proof.
  split; [by intros ->|]. intros [H1 H2]. apply Nat2Z.inj in H2.
  rewrite (Nat.div_mod_eq i 64), (Nat.div_mod_eq j 64). lia.
Qed.

Lemma pos_split k c : (c < 64)%nat → ((k * 64 + c) / 64 = k)%nat ∧ ((k * 64 + c) mod 64 = c)%nat.
Proof.
  intros. split.
  - rewrite Nat.div_add_l by lia. rewrite Nat.div_small by lia. lia.
  - rewrite Nat.add_comm, Nat.Div0.mod_add. by apply Nat.mod_small.
Qed.

Lemma mask_test w p : 0 ≤ p < 64 → negb ((w .& mask_of p) =? 0) = Z.testbit w p.
Proof. intros. apply (bit_on_spec 64); lia. Qed.

Lemma words_for_lt i n : (i < n)%nat → (i / 64 < words_for n)%nat.
Proof.
  intros. unfold words_for. pose proof (Nat.div_mod_eq n 64). pose proof (Nat.div_mod_eq i 64).
  pose proof (Nat.mod_upper_bound i 64). pose proof (Nat.mod_upper_bound n 64).
  destruct (Nat.ltb_spec 0 (n mod 64)); nia.
Qed.

Lemma words_for_bound n : (n ≤ 64 * words_for n < n + 64)%nat.
Proof.
  unfold words_for. pose proof (Nat.div_mod_eq n 64). pose proof (Nat.mod_upper_bound n 64).
  destruct (Nat.ltb_spec 0 (n mod 64)); lia.
Qed.

Lemma wf_lookup d i : wf d → (i < len d)%nat → is_Some (array d !! (i / 64)%nat).
Proof.
  intros Hwf Hi. apply lookup_lt_is_Some. change (length (array d)) with (arrlen d).
  rewrite (wf_words d Hwf). by apply words_for_lt.
Qed.

(** [get] in bounds returns the bit. *)
Lemma get_spec d b : wf d → (b < len d)%nat → get d b = Some (bit d b).
Proof.
  intros Hwf Hb. destruct (wf_lookup d b Hwf Hb) as [w Hw].
  unfold get, bit. rewrite bit_to_pos_eq, Hw. simpl.
  by rewrite mask_test by apply bitpos_range.
Qed.

(** ** Single-bit updates *)

(** An update that acts on the selected bit of a word by [g] and on no other. *)
Definition acts_on_bit (f : Z → Z → Z) (g : bool → bool) : Prop :=
  ∀ w p, 0 ≤ p < 64 → is_u64 w → is_u64 (f w (mask_of p)) ∧
    ∀ i, 0 ≤ i < 64 →
      Z.testbit (f w (mask_of p)) i = if p =? i then g (Z.testbit w i) else Z.testbit w i.

Lemma u64_by_bits x : 0 ≤ x → (∀ i, 64 ≤ i → Z.testbit x i = false) → is_u64 x.
Proof. intros ? Hb. split; [done|]. by apply pow2_above_bits. Qed.

Lemma mask_of_eq p : 0 ≤ p < 64 → mask_of p = 2 ^ p.
Proof. intros. apply (one_shift 64); lia. Qed.

Lemma acts_or : acts_on_bit (λ w mask, w .| mask) (λ _, true).
Proof.
  intros w p Hp Hw. rewrite mask_of_eq by done. split.
  - apply lor_range; [done..|]. unfold is_u. pose proof (Z.pow_lt_mono_r 2 p 64). lia.
  - intros i Hi. rewrite Z.lor_spec, Z.pow2_bits_eqb by lia.
    destruct (p =? i); [apply orb_true_r|apply orb_false_r].
Qed.

Lemma acts_xor : acts_on_bit (λ w mask, w .^ mask) negb.
Proof.
  intros w p Hp Hw. rewrite mask_of_eq by done. split.
  - apply u64_by_bits; [apply Z.lxor_nonneg; unfold is_u in *; lia|].
    intros i Hi. rewrite Z.lxor_spec, Z.pow2_bits_eqb, (testbit_above 64 w) by (done || lia).
    destruct (Z.eqb_spec p i); [lia|done].
  - intros i Hi. rewrite Z.lxor_spec, Z.pow2_bits_eqb by lia.
    destruct (p =? i); [apply xorb_true_r|apply xorb_false_r].
Qed.

Lemma acts_clear : acts_on_bit (λ w m, w .& u64 (Z.lnot m)) (λ _, false).
Proof.
  intros w p Hp Hw. split.
  - apply u64_by_bits; [apply Z.land_nonneg; unfold is_u in *; lia|].
    intros i Hi. rewrite Z.land_spec, (testbit_above 64 w) by (done || lia). done.
  - intros i Hi. rewrite Z.land_spec. rewrite mask_of_eq by done. unfold uw.
    rewrite Z.mod_pow2_bits_low, Z.lnot_spec, Z.pow2_bits_eqb by lia.
    destruct (p =? i); simpl; [apply andb_false_r|apply andb_true_r].
Qed.

(** Every single-bit operation, in bounds: returns the old value, changes the selected bit as
    announced and no other, and keeps the representation invariant. *)
Lemma update_bit_spec f g d b :
  acts_on_bit f g → wf d → (b < len d)%nat →
  ∃ d', update_bit f b d = Some (bit d b, d') ∧ wf d' ∧ len d' = len d ∧
    ∀ i, bit d' i = if (i =? b)%nat then g (bit d b) else bit d i.
Proof.
  intros Hf Hwf Hb. destruct (wf_lookup d b Hwf Hb) as [w Hw].
  pose proof (bitpos_range b) as Hp.
  assert (is_u64 w) as Hu by (eapply Forall_lookup_1; [apply (wf_u64 d Hwf)|done]).
  destruct (Hf w _ Hp Hu) as [Hfu Hfb].
  assert (∀ i, bit (MkBitset (<[(b / 64)%nat:=f w (mask_of (Z.of_nat (b mod 64)))]> (array d)) (len d)) i
    = if (i =? b)%nat then g (bit d b) else bit d i) as Hbit.
  { intros i. unfold bit. cbn [array]. rewrite Hw.
    destruct (decide ((b / 64)%nat = (i / 64)%nat)) as [Heq|Hne].
    - rewrite Heq, list_lookup_insert_eq by (by rewrite <- Heq; eapply lookup_lt_Some).
      rewrite Hfb by apply bitpos_range. rewrite <- Heq, Hw.
      destruct (Nat.eqb_spec i b) as [->|Hib]; [by rewrite Z.eqb_refl|].
      rewrite (proj2 (Z.eqb_neq _ _)); [done|]. intros ?. apply Hib, pos_eq. by split.
    - rewrite list_lookup_insert_ne by done. rewrite (proj2 (Nat.eqb_neq _ _)); [done|].
      by intros ->. }
  eexists. unfold update_bit. rewrite bit_to_pos_eq, Hw. simpl. rewrite mask_test by done.
  split; [unfold bit; by rewrite Hw|]. split; [|by split].
  split; cbn [array len].
  - unfold arrlen. cbn [array]. rewrite length_insert. apply (wf_words d Hwf).
  - apply Forall_insert; [apply (wf_u64 d Hwf)|done].
  - intros i Hi. rewrite Hbit. rewrite (proj2 (Nat.eqb_neq _ _)) by lia.
    by apply (wf_trailing d Hwf).
Qed.

(** ** Searching *)

(** Bits strictly above [b] of a block; 0 if there are none. *)
Lemma next_bit_in_block_spec b block :
  0 ≤ b < 64 → is_u64 block →
  let r := next_bit_in_block b block in
  (r = 0 ∧ ∀ i, b < i → Z.testbit block i = false)
  ∨ (b < r < 64 ∧ Z.testbit block r = true ∧ ∀ i, b < i < r → Z.testbit block i = false).
Proof.
  intros Hb Hbl. unfold next_bit_in_block.
  assert (u64 (u64 (-1) - (u64 (u64 (1 ≪ b) - 1) .| u64 (1 ≪ b))) = Z.ones (63 - b) ≪ (b + 1)) as ->.
  { change (u64 (1 ≪ b)) with (mask_of b). rewrite mask_of_eq by done.
    pose proof (Z.pow_pos_nonneg 2 b). pose proof (Z.pow_lt_mono_r 2 b 64).
    rewrite (uw_small 64 (2 ^ b - 1)) by (unfold is_u; lia).
    replace (2 ^ b) with (1 ≪ b) at 2 by (by rewrite Z.shiftl_1_l).
    rewrite lor_shiftl_add by lia. change (u64 (-1)) with (2 ^ 64 - 1).
    rewrite Z.shiftl_mul_pow2, Z.ones_equiv by lia. unfold Z.pred.
    assert (2 ^ 64 = 2 ^ (63 - b) * 2 ^ (b + 1)) as E.
    { rewrite <- Z.pow_add_r by lia. f_equal. lia. }
    rewrite Z.pow_add_r in * by lia. change (2 ^ 1) with 2 in *.
    rewrite uw_small by (unfold is_u; lia). lia. }
  set (x := block .& _).
  assert (∀ i, 0 ≤ i → Z.testbit x i = (b <? i) && Z.testbit block i) as Hx.
  { intros i Hi. unfold x. rewrite Z.land_spec, Z.shiftl_spec by lia.
    destruct (Z.ltb_spec b i).
    - destruct (decide (i < 64)).
      + rewrite Z.ones_spec_low by lia. by rewrite andb_true_r.
      + by rewrite (testbit_above 64 block) by (done || lia).
    - rewrite (Z.testbit_neg_r _ (i - (b + 1))) by lia. apply andb_false_r. }
  assert (is_u64 x) as Hxu.
  { apply u64_by_bits; [apply Z.land_nonneg; unfold is_u in *; lia|]. intros i Hi.
    rewrite Hx, (testbit_above 64 block) by (done || lia). apply andb_false_r. }
  assert (∀ i, 0 ≤ i → b < i → Z.testbit block i = Z.testbit x i) as Hab.
  { intros i ? ?. rewrite Hx by done. by rewrite (proj2 (Z.ltb_lt b i)). }
  cbv zeta. destruct (Z.eqb_spec x 0) as [E|E].
  - left. split; [done|]. intros i ?. rewrite Hab, E by lia. apply Z.bits_0.
  - right. unfold n_trailing_zeros. rewrite (proj2 (Z.eqb_neq x 0)) by done.
    pose proof (builtin_ctz_lt 64 x ltac:(lia) Hxu E) as Hr.
    destruct (builtin_ctz_spec x) as (_ & Hset & Hlow); [unfold is_u in Hxu; lia|].
    rewrite Hx in Hset by lia. apply andb_true_iff in Hset as [Hlt Hset].
    apply Z.ltb_lt in Hlt. split; [lia|]. split; [done|].
    intros i Hi. rewrite Hab by lia. apply Hlow. lia.
Qed.

Lemma block_view_u64 neg w : is_u64 w → is_u64 (block_view neg w).
Proof. intros. destruct neg; [apply uw_range; lia|done]. Qed.

Lemma view_false d i : view false (array d) i = bit d i.
Proof. done. Qed.

Lemma view_true d i :
  wf d → (i < len d)%nat → view true (array d) i = negb (bit d i).
Proof.
  intros Hwf Hi. destruct (wf_lookup d i Hwf Hi) as [w Hw]. unfold view, bit. rewrite Hw.
  pose proof (bitpos_range i). cbn [block_view]. unfold uw.
  rewrite Z.mod_pow2_bits_low by lia. apply Z.lnot_spec. lia.
Qed.

Lemma first_bit_in_block_spec w :
  is_u64 w → w ≠ 0 →
  let r := first_bit_in_block w in
  0 ≤ r < 64 ∧ Z.testbit w r = true ∧ ∀ i, 0 ≤ i < r → Z.testbit w i = false.
Proof.
  intros Hw ?. unfold first_bit_in_block, n_trailing_zeros.
  rewrite (proj2 (Z.eqb_neq w 0)) by done. cbv zeta.
  split; [by apply builtin_ctz_lt|]. destruct (builtin_ctz_spec w) as (? & ? & ?); [|done].
  unfold is_u in *. lia.
Qed.

(** The loop over the words finds the least set bit from word [i] upwards. *)
Lemma scan_spec neg (words : list Z) i rest :
  Forall is_u64 words → drop i words = rest →
  least_from (view neg words) (64 * i) (scan neg i rest).
Proof.
  intros Hu. revert i. induction rest as [|w rest IH]; intros i Hd; simpl.
  - intros j Hj. unfold view. rewrite lookup_ge_None_2; [done|].
    apply (f_equal length) in Hd. rewrite length_drop in Hd. simpl in Hd.
    pose proof (Nat.Div0.div_le_mono (64 * i) j 64 Hj) as Hq.
    rewrite Nat.mul_comm, Nat.div_mul in Hq by lia. lia.
  - assert (words !! i = Some w) as Hw.
    { rewrite <- (Nat.add_0_r i), <- lookup_drop, Hd. done. }
    assert (is_u64 (block_view neg w)) as Hwu.
    { apply block_view_u64. by eapply Forall_lookup_1. }
    assert (∀ c, (c < 64)%nat → view neg words (i * 64 + c) = Z.testbit (block_view neg w) (Z.of_nat c)) as Hv.
    { intros c Hc. unfold view. destruct (pos_split i c Hc) as [-> ->]. by rewrite Hw. }
    assert (∀ j, (i * 64 ≤ j < i * 64 + 64)%nat → ∃ c, (c < 64)%nat ∧ j = (i * 64 + c)%nat) as Hj.
    { intros j ?. exists (j - i * 64)%nat. lia. }
    destruct (Z.eqb_spec (block_view neg w) 0) as [E|E].
    + assert (∀ j, (i * 64 ≤ j < i * 64 + 64)%nat → view neg words j = false) as Hz.
      { intros j Hjr. destruct (Hj j Hjr) as (c & Hc & ->). by rewrite Hv, E, Z.bits_0. }
      specialize (IH (S i)). rewrite <- (Nat.add_1_r i), <- drop_drop, Hd in IH.
      specialize (IH eq_refl). rewrite Nat.add_1_r in IH.
      destruct (scan neg (S i) rest) as [p|]; cbn [least_from] in *.
      * destruct IH as (? & ? & Hlow). split; [lia|]. split; [done|]. intros j ?.
        destruct (decide (j < i * 64 + 64)%nat); [apply Hz|apply Hlow]; lia.
      * intros j ?. destruct (decide (j < i * 64 + 64)%nat); [apply Hz|apply IH]; lia.
    + destruct (first_bit_in_block_spec _ Hwu E) as (Hr & Hset & Hlow). cbv zeta in *.
      set (r := first_bit_in_block _) in *.
      assert (Z.of_nat (Z.to_nat r) = r) as Hrr by lia.
      simpl. split; [lia|]. split; [by rewrite Hv, Hrr by lia|]. intros j ?.
      destruct (Hj j) as (c & Hc & ->); [lia|]. rewrite Hv by done. apply Hlow. lia.
Qed.

(** Capping a search at the length leaves the least position below it. *)
Lemma below_len_spec P d lo o :
  least_from P lo o →
  match below_len d o with
  | Some p => (lo ≤ p < len d)%nat ∧ P p = true ∧ ∀ j, (lo ≤ j < p)%nat → P j = false
  | None => ∀ j, (lo ≤ j < len d)%nat → P j = false
  end.
Proof.
  destruct o as [p|]; simpl.
  - intros (? & ? & Hlow). destruct (Nat.ltb_spec p (len d)); [by split_and!|].
    intros j ?. apply Hlow. lia.
  - intros Hn j ?. apply Hn. lia.
Qed.

Lemma next_in_spec neg d b :
  wf d → (b < len d)%nat →
  ∃ o, next_in neg d b = below_len d o ∧ least_from (view neg (array d)) (S b) o.
Proof.
  intros Hwf Hb. destruct (wf_lookup d b Hwf Hb) as [w Hw]. pose proof (bitpos_range b) as Hp.
  assert (is_u64 (block_view neg w)) as Hwu.
  { apply block_view_u64. eapply Forall_lookup_1; [apply (wf_u64 d Hwf)|done]. }
  unfold next_in. rewrite bit_to_pos_eq, Hw. pose proof (Nat.div_mod_eq b 64) as Eb.
  assert (∀ c, (c < 64)%nat →
    view neg (array d) (b / 64 * 64 + c) = Z.testbit (block_view neg w) (Z.of_nat c)) as Hv.
  { intros c Hc. unfold view. destruct (pos_split (b / 64) c Hc) as [-> ->]. by rewrite Hw. }
  assert (∀ j, (b / 64 * 64 ≤ j < b / 64 * 64 + 64)%nat →
    ∃ c, (c < 64)%nat ∧ j = (b / 64 * 64 + c)%nat) as Hj.
  { intros j ?. exists (j - b / 64 * 64)%nat. lia. }
  pose proof (next_bit_in_block_spec _ _ Hp Hwu) as Hn. cbv zeta in *.
  set (r := next_bit_in_block _ _) in *. destruct Hn as [[-> Hn]|(Hr & Hset & Hlow)].
  - eexists. split; [done|].
    pose proof (scan_spec neg (array d) (S (b / 64)) _ (wf_u64 d Hwf) eq_refl) as Hs.
    assert (∀ j, (S b ≤ j < 64 * S (b / 64))%nat → view neg (array d) j = false) as Hz.
    { intros j ?. destruct (Hj j) as (c & Hc & ->); [lia|]. rewrite Hv by done. apply Hn.
      clear -Eb H Hc. lia. }
    destruct (scan _ _ _) as [p|]; cbn [least_from] in *.
    + destruct Hs as (? & ? & Hs). split; [lia|]. split; [done|]. intros j ?.
      destruct (decide (j < 64 * S (b / 64))%nat); [apply Hz|apply Hs]; lia.
    + intros j ?. destruct (decide (j < 64 * S (b / 64))%nat); [apply Hz|apply Hs]; lia.
  - rewrite (proj2 (Z.eqb_neq r 0)) by lia. eexists. split; [done|]. cbn [least_from].
    assert (Z.of_nat (Z.to_nat r) = r) as Hrr by lia.
    split; [lia|]. split; [by rewrite Hv, Hrr by lia|]. intros j ?.
    destruct (Hj j) as (c & Hc & ->); [lia|]. rewrite Hv by done. apply Hlow. lia.
Qed.

(** [first_bit] / [first_zero_bit]: the least position below the length with the bit set
    (cleared), and failure only when there is none. *)
Lemma first_in_spec neg d :
  wf d →
  match below_len d (scan neg 0 (array d)) with
  | Some p => (p < len d)%nat ∧ bit d p = negb neg ∧ ∀ j, (j < p)%nat → bit d j = neg
  | None => ∀ j, (j < len d)%nat → bit d j = neg
  end.
Proof.
  intros Hwf.
  assert (∀ i, (i < len d)%nat → view neg (array d) i = xorb neg (bit d i)) as Hv.
  { intros i Hi. destruct neg; [by apply view_true|by rewrite view_false]. }
  pose proof (below_len_spec _ d _ _ (scan_spec neg (array d) 0 _ (wf_u64 d Hwf) (drop_0 _))) as Hs.
  destruct (below_len d _) as [p|].
  - destruct Hs as (? & Hp & Hlow). rewrite Hv in Hp by lia. split; [lia|]. split.
    + by destruct neg, (bit d p).
    + intros j ?. specialize (Hlow j ltac:(lia)). rewrite Hv in Hlow by lia.
      by destruct neg, (bit d j).
  - intros j ?. specialize (Hs j ltac:(lia)). rewrite Hv in Hs by lia.
    by destruct neg, (bit d j).
Qed.

(** [next_bit b] / [next_zero_bit b]: the same, strictly above [b]. *)
Lemma next_bit_spec neg d b :
  wf d → (b < len d)%nat →
  match next_in neg d b with
  | Some p => (b < p < len d)%nat ∧ bit d p = negb neg ∧ ∀ j, (b < j < p)%nat → bit d j = neg
  | None => ∀ j, (b < j < len d)%nat → bit d j = neg
  end.
Proof.
  intros Hwf Hb. destruct (next_in_spec neg d b Hwf Hb) as (o & -> & Ho).
  assert (∀ i, (i < len d)%nat → view neg (array d) i = xorb neg (bit d i)) as Hv.
  { intros i Hi. destruct neg; [by apply view_true|by rewrite view_false]. }
  pose proof (below_len_spec _ d _ _ Ho) as Hs. destruct (below_len d _) as [p|].
  - destruct Hs as (? & Hp & Hlow). rewrite Hv in Hp by lia. split; [lia|]. split.
    + by destruct neg, (bit d p).
    + intros j ?. specialize (Hlow j ltac:(lia)). rewrite Hv in Hlow by lia.
      by destruct neg, (bit d j).
  - intros j ?. specialize (Hs j ltac:(lia)). rewrite Hv in Hs by lia.
    by destruct neg, (bit d j).
Qed.

(** ** Iteration and counting *)

Definition set_positions (d : dense_bitset) (lo n : nat) : list nat :=
  List.filter (bit d) (seq lo n).

Lemma filter_none (P : nat → bool) lo n :
  (∀ j, (lo ≤ j < lo + n)%nat → P j = false) → List.filter P (seq lo n) = [].
Proof.
  revert lo. induction n as [|n IH]; intros lo H; [done|]. simpl.
  rewrite H by lia. apply IH. intros. apply H. lia.
Qed.

Lemma filter_least (P : nat → bool) lo n p :
  (lo ≤ p < lo + n)%nat → P p = true → (∀ j, (lo ≤ j < p)%nat → P j = false) →
  List.filter P (seq lo n) = p :: List.filter P (seq (S p) (lo + n - S p)).
Proof.
  intros Hp HP Hlow. replace n with ((p - lo) + S (lo + n - S p))%nat at 1 by lia.
  rewrite seq_app, List.filter_app, filter_none by (intros; apply Hlow; lia).
  replace (lo + (p - lo))%nat with p by lia. simpl. by rewrite HP.
Qed.

(** Iterating a set visits its set bits in increasing order and stops. *)
Lemma iterate_spec d fuel lo o :
  wf d → (len d - lo < fuel)%nat →
  match o with
  | Some p => (lo ≤ p < len d)%nat ∧ bit d p = true ∧ ∀ j, (lo ≤ j < p)%nat → bit d j = false
  | None => ∀ j, (lo ≤ j < len d)%nat → bit d j = false
  end →
  iterate fuel d o = set_positions d lo (len d - lo).
Proof.
  intros Hwf. revert lo o. induction fuel as [|fuel IH]; intros lo o Hf Ho; [lia|].
  unfold set_positions. destruct o as [p|]; simpl.
  - destruct Ho as (Hp & HP & Hlow).
    rewrite (filter_least _ lo (len d - lo) p) by (done || lia).
    replace (lo + (len d - lo) - S p)%nat with (len d - S p)%nat by lia.
    rewrite (IH (S p)); [done|lia|].
    pose proof (next_bit_spec false d p Hwf ltac:(lia)) as Hn. unfold next_bit.
    destruct (next_in false d p) as [q|].
    + destruct Hn as (? & ? & Hn). split; [lia|]. split; [done|]. intros j ?. apply Hn. lia.
    + intros j ?. apply Hn. lia.
  - symmetry. apply filter_none. intros j ?. apply Ho. lia.
Qed.

Lemma elements_spec d : wf d → elements d = set_positions d 0 (len d).
Proof.
  intros Hwf. unfold elements. rewrite (iterate_spec d _ 0); [by rewrite Nat.sub_0_r|done|lia|].
  pose proof (first_in_spec false d Hwf) as Hs. unfold first_bit.
  destruct (below_len d _) as [p|].
  - destruct Hs as (? & ? & Hlow). split; [lia|]. split; [done|]. intros j ?. apply Hlow. lia.
  - intros j ?. apply Hs. lia.
Qed.

Lemma foldl_add_acc (f : Z → Z) l acc :
  foldl (λ ret w, ret + f w) acc l = acc + foldl (λ ret w, ret + f w) 0 l.
Proof.
  revert acc. induction l as [|w l IH]; intros acc; cbn [foldl]; [lia|].
  rewrite IH, (IH (0 + f w)). lia.
Qed.

Lemma filter_seq_shift (P : nat → bool) k lo n :
  length (List.filter P (seq (k + lo) n)) = length (List.filter (λ i, P (k + i)%nat) (seq lo n)).
Proof.
  revert lo. induction n as [|n IH]; intros lo; [done|]. simpl.
  rewrite <- (Nat.add_succ_r k lo). destruct (P (k + lo)%nat); simpl; by rewrite IH.
Qed.

(** Counting the bits of consecutive words. *)
Lemma popcount_words (words : list Z) :
  Forall is_u64 words →
  foldl (λ ret w, ret + num_bits_on w) 0 words
  = Z.of_nat (length (List.filter (view false words) (seq 0 (64 * length words)))).
Proof.
  induction words as [|w words IH] using rev_ind; [done|]. intros Hu.
  apply Forall_app in Hu as [Hws Hw]. rewrite Forall_singleton in Hw.
  rewrite foldl_app, IH by done. clear IH. cbn [foldl].
  rewrite length_app, Nat.mul_add_distr_l, seq_app, List.filter_app, length_app, Nat2Z.inj_add.
  f_equal.
  - do 2 f_equal. apply List.filter_ext_in. intros i Hi%in_seq. unfold view.
    rewrite lookup_app_l; [done|]. apply Nat.Div0.div_lt_upper_bound. lia.
  - unfold num_bits_on. rewrite (builtin_popcount_spec 64 w Hw). unfold bit_count. f_equal.
    change (64 * length [w])%nat with 64%nat. rewrite Nat.add_comm, filter_seq_shift. f_equal.
    apply List.filter_ext_in. intros i Hi%in_seq. unfold view.
    destruct (pos_split (length words) i) as [E1 E2]; [lia|].
    rewrite (Nat.mul_comm 64), E1, E2.
    by rewrite lookup_app_r, Nat.sub_diag by lia.
Qed.

(** [popcount] is the number of set bits of the set. *)
Lemma popcount_spec d : wf d → popcount d = Z.of_nat (length (set_positions d 0 (len d))).
Proof.
  intros Hwf. unfold popcount. rewrite popcount_words by apply (wf_u64 d Hwf).
  change (length (array d)) with (arrlen d). rewrite (wf_words d Hwf).
  unfold set_positions. pose proof (words_for_bound (len d)) as Hb.
  replace (64 * words_for (len d))%nat with (len d + (64 * words_for (len d) - len d))%nat by lia.
  rewrite seq_app, List.filter_app, (filter_none (view false (array d)) (0 + len d)).
  - by rewrite app_nil_r.
  - intros j ?. apply (wf_trailing d Hwf). lia.
Qed.

(** [empty] holds exactly when no bit is set. *)
Lemma empty_spec d : wf d → empty d = true ↔ ∀ i, bit d i = false.
Proof.
  intros Hwf. unfold empty. rewrite forallb_forall. split.
  - intros Hz i. unfold bit. destruct (array d !! _) as [w|] eqn:E; [|done].
    apply list_elem_of_lookup_2, list_elem_of_In, Hz, Z.eqb_eq in E. subst. apply Z.bits_0.
  - intros Hz w Hin. apply list_elem_of_In, list_elem_of_lookup in Hin as [k Hk].
    apply Z.eqb_eq, Z.bits_inj'. intros n Hn. rewrite Z.bits_0.
    destruct (decide (n < 64)) as [Hn'|].
    + specialize (Hz (k * 64 + Z.to_nat n)%nat). unfold bit in Hz.
      destruct (pos_split k (Z.to_nat n)) as [E1 E2]; [lia|]. rewrite E1, E2, Hk in Hz.
      by rewrite Z2Nat.id in Hz.
    + apply (testbit_above 64); [lia|]. eapply Forall_lookup_1; [apply (wf_u64 d Hwf)|done].
Qed.

(** ** Whole-set operations *)

Lemma binary_op_wf (f : Z → Z → Z) (g : bool → bool → bool) a b :
  (∀ x y, is_u64 x → is_u64 y → is_u64 (f x y) ∧
     ∀ i, 0 ≤ i → Z.testbit (f x y) i = g (Z.testbit x i) (Z.testbit y i)) →
  g false false = false → wf a → wf b → len a = len b →
  let r := MkBitset (zip_with f (array a) (array b)) (len a) in
  wf r ∧ ∀ i, bit r i = g (bit a i) (bit b i).
Proof.
  intros Hf Hg Ha Hb Hl. cbv zeta.
  assert (length (array a) = length (array b)) as Hlen.
  { change (arrlen a = arrlen b). by rewrite (wf_words a Ha), (wf_words b Hb), Hl. }
  assert (∀ i, bit (MkBitset (zip_with f (array a) (array b)) (len a)) i = g (bit a i) (bit b i)) as Hbit.
  { intros i. unfold bit. cbn [array]. rewrite lookup_zip_with.
    destruct (array a !! (i / 64)%nat) as [x|] eqn:Ea; cbn [mbind option_bind].
    - destruct (lookup_lt_is_Some_2 (array b) (i / 64)) as [y Ey].
      { rewrite <- Hlen. by eapply lookup_lt_Some. }
      rewrite Ey. cbn [mbind option_bind]. apply Hf; [..|apply bitpos_range].
      + eapply Forall_lookup_1; [apply (wf_u64 a Ha)|done].
      + eapply Forall_lookup_1; [apply (wf_u64 b Hb)|done].
    - rewrite (lookup_ge_None_2 (array b)); [done|].
      rewrite <- Hlen. by apply lookup_ge_None. }
  split; [|done]. split.
  - unfold arrlen. cbn [array len]. rewrite length_zip_with, <- Hlen, Nat.min_id.
    apply (wf_words a Ha).
  - cbn [array]. apply Forall_lookup_2. intros i x. rewrite lookup_zip_with.
    intros Hx. apply bind_Some in Hx as (u & Eu & Hx). apply bind_Some in Hx as (v & Ev & Hx).
    simplify_eq. apply Hf.
    + eapply Forall_lookup_1; [apply (wf_u64 a Ha)|done].
    + eapply Forall_lookup_1; [apply (wf_u64 b Hb)|done].
  - intros i Hi. cbn [len] in Hi. rewrite Hbit, (wf_trailing a Ha), (wf_trailing b Hb); [done|lia|lia].
Qed.

Lemma band_spec a b :
  wf a → wf b → len a = len b →
  ∃ r, band a b = Some r ∧ wf r ∧ ∀ i, bit r i = bit a i && bit b i.
Proof.
  intros Ha Hb Hl. unfold band, size. rewrite decide_True by done. eexists. split; [done|].
  apply (binary_op_wf Z.land andb); try done. intros x y Hx Hy. split.
  - apply u64_by_bits; [apply Z.land_nonneg; unfold is_u in *; lia|].
    intros i ?. by rewrite Z.land_spec, (testbit_above 64 x) by (done || lia).
  - intros. apply Z.land_spec.
Qed.

Lemma bor_spec a b :
  wf a → wf b → len a = len b →
  ∃ r, bor a b = Some r ∧ wf r ∧ ∀ i, bit r i = bit a i || bit b i.
Proof.
  intros Ha Hb Hl. unfold bor, size. rewrite decide_True by done. eexists. split; [done|].
  apply (binary_op_wf Z.lor orb); try done. intros x y Hx Hy. split.
  - by apply lor_range.
  - intros. apply Z.lor_spec.
Qed.

(** Set difference: [array[i] - (array[i] & other.array[i])] never borrows. *)
Lemma bsub_spec a b :
  wf a → wf b → len a = len b →
  ∃ r, bsub a b = Some r ∧ wf r ∧ ∀ i, bit r i = bit a i && negb (bit b i).
Proof.
  intros Ha Hb Hl. unfold bsub, size. rewrite decide_True by done. eexists. split; [done|].
  apply (binary_op_wf (λ x y, u64 (x - (x .& y))) (λ p q, p && negb q)); try done.
  intros x y Hx Hy.
  assert (x - (x .& y) = Z.ldiff x y) as ->.
  { rewrite Z.sub_nocarry_ldiff; apply Z.bits_inj'; intros i ?;
      rewrite ?Z.ldiff_spec, ?Z.land_spec, ?Z.bits_0;
      by destruct (Z.testbit x i), (Z.testbit y i). }
  assert (is_u64 (Z.ldiff x y)) as Hu.
  { apply u64_by_bits; [apply Z.ldiff_nonneg; unfold is_u in *; lia|].
    intros i ?. by rewrite Z.ldiff_spec, (testbit_above 64 x) by (done || lia). }
  rewrite uw_small by done. split; [done|]. intros. apply Z.ldiff_spec.
Qed.

(** [fix_trailing_bits] restores the invariant and changes no bit below the length. *)
Lemma fix_trailing_spec d :
  arrlen d = words_for (len d) → Forall is_u64 (array d) →
  wf (fix_trailing_bits d) ∧ ∀ i, bit (fix_trailing_bits d) i = (i <? len d)%nat && bit d i.
Proof.
  intros Hw Hu. unfold fix_trailing_bits.
  pose proof (bitpos_range (len d)) as Hm. pose proof (Nat.div_mod_eq (len d) 64) as Ed.
  unfold words_for in Hw. destruct (Z.eqb_spec (Z.of_nat (len d mod 64)) 0) as [E|E].
  - assert (∀ i, (len d ≤ i)%nat → bit d i = false) as Hout.
    { intros i Hi. unfold bit. rewrite lookup_ge_None_2; [done|].
      change (length (array d)) with (arrlen d). rewrite Hw.
      rewrite (proj2 (Nat.ltb_ge _ _)) by lia.
      pose proof (Nat.Div0.div_le_mono (len d) i 64 Hi). lia. }
    split; [by split|]. intros i. destruct (Nat.ltb_spec i (len d)); [done|by apply Hout].
  - rewrite (proj2 (Nat.ltb_lt _ _)) in Hw by lia.
    set (k := (arrlen d - 1)%nat). assert (k = (len d / 64)%nat) as Hk by (unfold k; lia).
    set (r := Z.of_nat (len d mod 64)) in *.
    assert (u64 (u64 (1 ≪ r) - 1) = Z.ones r) as ->.
    { change (u64 (1 ≪ r)) with (mask_of r). rewrite mask_of_eq by done. rewrite Z.ones_equiv.
      apply uw_small. unfold is_u. pose proof (Z.pow_lt_mono_r 2 r 64).
      pose proof (Z.pow_pos_nonneg 2 r). lia. }
    assert (∀ w, is_u64 w → is_u64 (w .& Z.ones r)) as Hmu.
    { intros w Hwu. apply u64_by_bits; [apply Z.land_nonneg; unfold is_u in *; lia|].
      intros j ?. by rewrite Z.land_spec, (testbit_above 64 w) by (done || lia). }
    set (d' := MkBitset _ _).
    assert (∀ i, bit d' i = (i <? len d)%nat && bit d i) as Hbit.
    { intros i. unfold bit, d'. cbn [array]. rewrite list_lookup_alter.
      pose proof (bitpos_range i) as Hi. pose proof (Nat.div_mod_eq i 64) as Ei.
      destruct (decide ((i / 64)%nat = k)) as [Eik|Eik].
      - rewrite Eik. rewrite decide_True by done. destruct (array d !! k) as [w|]; cbn [fmap option_fmap option_map].
        + rewrite Z.land_spec, Z.testbit_ones_nonneg by lia.
          rewrite andb_comm. f_equal.
          destruct (Z.ltb_spec (Z.of_nat (i mod 64)) r), (Nat.ltb_spec i (len d)); lia.
        + by rewrite andb_false_r.
      - rewrite decide_False by congruence.
        destruct (Nat.ltb_spec i (len d)); [done|].
        assert (len d / 64 ≤ i / 64)%nat by (by apply Nat.Div0.div_le_mono).
        rewrite lookup_ge_None_2; [done|]. change (length (array d)) with (arrlen d). lia. }
    split; [|done]. split.
    + unfold arrlen, d'. cbn [array len]. rewrite length_alter. fold (arrlen d).
      unfold words_for. rewrite (proj2 (Nat.ltb_lt _ _)); lia.
    + unfold d'. cbn [array]. apply Forall_alter; [done|]. intros w _ Hwu. by apply Hmu.
    + intros i Hi. rewrite Hbit. change (len d') with (len d) in Hi.
      by rewrite (proj2 (Nat.ltb_ge _ _)).
Qed.

Lemma bit_take_app d k (zs : list Z) n i :
  (∀ z, z ∈ zs → z = 0) →
  bit (MkBitset (take k (array d) ++ zs) n) i
  = if (i / 64 <? k)%nat then bit d i else false.
Proof.
  intros Hz. unfold bit. cbn [array]. destruct (Nat.ltb_spec (i / 64) k).
  - destruct (decide (i / 64 < length (array d))%nat).
    + rewrite lookup_app_l by (rewrite length_take; lia). by rewrite lookup_take_lt.
    + rewrite lookup_app_r by (rewrite length_take; lia).
      rewrite (lookup_ge_None_2 (array d)) by lia.
      destruct (zs !! _) as [z|] eqn:E; [|done].
      apply list_elem_of_lookup_2, Hz in E as ->. apply Z.bits_0.
  - rewrite lookup_app_r by (rewrite length_take; lia).
    destruct (zs !! _) as [z|] eqn:E; [|done].
    apply list_elem_of_lookup_2, Hz in E as ->. apply Z.bits_0.
Qed.

(** Resizing keeps the bits below the new length and clears every other, whatever [realloc]
    leaves in the new words. *)
Lemma resize_spec fresh n d :
  (∀ i, is_u64 (fresh i)) → wf d →
  wf (resize fresh n d) ∧ len (resize fresh n d) = n ∧
  ∀ i, bit (resize fresh n d) i = (i <? n)%nat && bit d i.
Proof.
  intros Hf Hwf. unfold resize. cbv zeta.
  set (a := arrlen d). set (m := words_for n).
  set (arr := take m (array d) ++ map fresh (seq a (m - a))).
  assert (length arr = m) as Hlen.
  { unfold arr. rewrite length_app, length_take, length_map, length_seq.
    change (length (array d)) with a. lia. }
  assert (Forall is_u64 arr) as Hu.
  { apply Forall_app. split; [apply Forall_take, (wf_u64 d Hwf)|].
    apply Forall_forall. intros x Hx. apply list_elem_of_In, in_map_iff in Hx as (j & <- & _).
    apply Hf. }
  destruct (fix_trailing_spec (MkBitset arr n) Hlen Hu) as [Hwf' Hbit'].
  assert (arrlen (fix_trailing_bits (MkBitset arr n)) = m) as Hfl.
  { rewrite (wf_words _ Hwf'). unfold fix_trailing_bits. by case_match. }
  assert (∀ z, z ∈ replicate (m - a) 0 → z = 0) as Hrep by (intros z [-> _]%elem_of_replicate; done).
  assert (∀ i, bit (MkBitset (take a (array (fix_trailing_bits (MkBitset arr n)))
      ++ replicate (m - a) 0) n) i = (i <? n)%nat && bit d i) as Hbit.
  { intros i. rewrite bit_take_app by done. destruct (Nat.ltb_spec (i / 64) a) as [Hi|Hi].
    - rewrite Hbit'. cbn [len]. destruct (Nat.ltb_spec i n); [|done]. simpl.
      unfold bit, arr. cbn [array]. rewrite lookup_app_l, lookup_take_lt; [done|..].
      + by apply words_for_lt.
      + rewrite length_take. change (length (array d)) with a.
        pose proof (words_for_lt i n ltac:(done)). assert (words_for n = m) by done. lia.
    - unfold bit. rewrite lookup_ge_None_2 by done. by rewrite andb_false_r. }
  split; [|split; [done|done]]. split.
  - unfold arrlen. cbn [array len]. rewrite length_app, length_take, length_replicate.
    fold (arrlen (fix_trailing_bits (MkBitset arr n))). rewrite Hfl. assert (words_for n = m) by done. lia.
  - cbn [array]. apply Forall_app. split; [apply Forall_take, (wf_u64 _ Hwf')|].
    apply Forall_replicate. by split.
  - intros i Hi. rewrite Hbit. cbn [len] in Hi. by rewrite (proj2 (Nat.ltb_ge _ _)).
Qed.

Lemma wf_empty : wf empty_bitset.
Proof. split; [done|constructor|done]. Qed.

Lemma of_size_spec fresh n :
  (∀ i, is_u64 (fresh i)) →
  wf (of_size fresh n) ∧ len (of_size fresh n) = n ∧ ∀ i, bit (of_size fresh n) i = false.
Proof.
  intros Hf. destruct (resize_spec fresh n empty_bitset Hf wf_empty) as (? & ? & Hb).
  split; [done|]. split; [done|]. intros i. unfold of_size. rewrite Hb. apply andb_false_r.
Qed.

Lemma clear_spec d : wf d → wf (clear d) ∧ ∀ i, bit (clear d) i = false.
Proof.
  intros Hwf. assert (∀ i, bit (clear d) i = false) as Hb.
  { intros i. unfold bit, clear. cbn [array]. destruct (replicate _ _ !! _) as [w|] eqn:E; [|done].
    apply lookup_replicate in E as [-> _]. apply Z.bits_0. }
  split; [|done]. split; [|by apply Forall_replicate|done].
  unfold arrlen, clear. cbn [array len]. rewrite length_replicate. apply (wf_words d Hwf).
Qed.

Lemma fill_spec d : wf d → wf (fill d) ∧ ∀ i, bit (fill d) i = (i <? len d)%nat.
Proof.
  intros Hwf. unfold fill. set (d1 := MkBitset _ _).
  destruct (fix_trailing_spec d1) as [Hw Hb].
  { unfold arrlen, d1. cbn [array len]. rewrite length_replicate. apply (wf_words d Hwf). }
  { apply Forall_replicate. by split. }
  split; [done|]. intros i. rewrite Hb. change (len d1) with (len d).
  destruct (Nat.ltb_spec i (len d)); [|done]. unfold bit, d1. cbn [array].
  rewrite lookup_replicate_2.
  - simpl andb. change (u64 (-1)) with (Z.ones 64). apply Z.ones_spec_low, bitpos_range.
  - rewrite (wf_words d Hwf). by apply words_for_lt.
Qed.

Lemma invert_spec d :
  wf d → wf (invert d) ∧ ∀ i, bit (invert d) i = (i <? len d)%nat && negb (bit d i).
Proof.
  intros Hwf. unfold invert. set (d1 := MkBitset _ _).
  destruct (fix_trailing_spec d1) as [Hw Hb].
  { unfold arrlen, d1. cbn [array len]. rewrite length_map. apply (wf_words d Hwf). }
  { unfold d1. cbn [array]. apply Forall_forall. intros x Hx.
    apply list_elem_of_In, in_map_iff in Hx as (j & <- & _). apply uw_range. lia. }
  split; [done|]. intros i. rewrite Hb. change (len d1) with (len d).
  destruct (Nat.ltb_spec i (len d)) as [Hi|]; [|done]. f_equal.
  unfold bit, d1. cbn [array]. change (map ?f ?l) with (f <$> l). rewrite list_lookup_fmap.
  destruct (wf_lookup d i Hwf Hi) as [w ->]. cbn [fmap option_fmap option_map].
  pose proof (bitpos_range i). unfold uw. rewrite Z.mod_pow2_bits_low by lia.
  apply Z.lnot_spec. lia.
Qed.

Lemma empty_elements d : wf d → empty d = true ↔ set_positions d 0 (len d) = [].
Proof.
  intros Hwf. rewrite empty_spec by done. unfold set_positions. split.
  - intros H. apply filter_none. auto.
  - intros H i. destruct (decide (i < len d)%nat); [|apply (wf_trailing d Hwf); lia].
    destruct (bit d i) eqn:E; [|done]. assert (In i []) as []. rewrite <- H.
    apply List.filter_In. split; [apply in_seq; lia|done].
Qed.

(** ** Transfer *)

Definition bits_on (words : list Z) : Z := foldl (λ ret w, ret + num_bits_on w) 0 words.

Lemma bits_on_cons w words : bits_on (w :: words) = num_bits_on w + bits_on words.
Proof. unfold bits_on. simpl. rewrite foldl_add_acc. lia. Qed.

Lemma num_bits_on_nonneg w : 0 ≤ w → 0 ≤ num_bits_on w.
Proof.
  intros. unfold num_bits_on. rewrite (builtin_popcount_spec (Z.to_nat (w + 1)) w).
  - unfold bit_count. lia.
  - unfold is_u. split; [lia|]. rewrite Z2Nat.id by lia.
    pose proof (Z.pow_gt_lin_r 2 (w + 1)). lia.
Qed.

Lemma bits_on_nonneg words : Forall (λ w, 0 ≤ w) words → 0 ≤ bits_on words.
Proof.
  induction 1 as [|w words Hw _ IH]; [done|]. rewrite bits_on_cons.
  pose proof (num_bits_on_nonneg w Hw). lia.
Qed.

Lemma bits_on_insert_zero words k w :
  words !! k = Some w → bits_on (<[k := 0]> words) = bits_on words - num_bits_on w.
Proof.
  revert k. induction words as [|x words IH]; intros [|k] Hk; try done; simpl in Hk.
  - injection Hk as ->. simpl. rewrite !bits_on_cons. change (num_bits_on 0) with 0. lia.
  - simpl. rewrite !bits_on_cons, (IH k Hk). lia.
Qed.

Lemma bits_on_zero words : Forall (λ w, w = 0) words → bits_on words = 0.
Proof. induction 1 as [|w words -> _ IH]; [done|]. by rewrite bits_on_cons, IH. Qed.

(** What any number of iterations does: it moves bits from [other] to [this], none is lost or
    made up, and [transferred] counts the bits taken from [other]. *)
Record moved (this other : list Z) (t : Z) (this' other' : list Z) (t' : Z) : Prop := {
  mv_this_len : length this' = length this;
  mv_other_len : length other' = length other;
  mv_count : t' + bits_on other' = t + bits_on other;
  mv_nonneg : Forall (λ w, 0 ≤ w) other → Forall (λ w, 0 ≤ w) other';
  mv_union : ∀ k x y, this !! k = Some x → other !! k = Some y →
    ∃ x' y', this' !! k = Some x' ∧ other' !! k = Some y' ∧ x' .| y' = x .| y ∧
             (x' = x ∧ y' = y ∨ x' = x .| y ∧ y' = 0);
}.

Lemma moved_refl this other t : moved this other t this other t.
Proof. split; try done. intros k x y ? ?. exists x, y. split_and!; auto. Qed.

Lemma moved_trans a1 b1 t1 a2 b2 t2 a3 b3 t3 :
  moved a1 b1 t1 a2 b2 t2 → moved a2 b2 t2 a3 b3 t3 → moved a1 b1 t1 a3 b3 t3.
Proof.
  intros [L1 M1 C1 N1 U1] [L2 M2 C2 N2 U2]. split; [congruence|congruence|lia|auto|].
  intros k x y Hx Hy. destruct (U1 k x y Hx Hy) as (x' & y' & Hx' & Hy' & E & D).
  destruct (U2 k x' y' Hx' Hy') as (x'' & y'' & Hx'' & Hy'' & E' & D').
  exists x'', y''. split_and!; [done|done|congruence|].
  destruct D as [[-> ->]|[-> ->]], D' as [[-> ->]|[-> ->]]; rewrite ?Z.lor_0_r; auto.
Qed.

(** The word step of the loop. *)
Definition move_word (k : nat) (tw ow : Z) (t : Z) (this other : list Z) : Z * list Z * list Z :=
  if 0 <? ow then (t + num_bits_on ow, <[k := tw .| ow]> this, <[k := 0]> other)
  else (t, this, other).

Lemma move_word_moved k tw ow t this other t' this' other' :
  this !! k = Some tw → other !! k = Some ow → 0 ≤ ow →
  move_word k tw ow t this other = (t', this', other') →
  moved this other t this' other' t' ∧ other' !! k = Some 0.
Proof.
  intros Ht Ho H0. unfold move_word. destruct (Z.ltb_spec 0 ow).
  - intros [= <- <- <-]. assert (k < length other)%nat by (by eapply lookup_lt_Some).
    assert (k < length this)%nat by (by eapply lookup_lt_Some).
    split; [|by rewrite list_lookup_insert_eq by done].
    split; [apply length_insert..| | |].
    + rewrite (bits_on_insert_zero _ _ _ Ho). lia.
    + intros Hf. by apply Forall_insert.
    + intros j x y Hx Hy. destruct (decide (k = j)) as [<-|].
      * simplify_eq. exists (tw .| ow), 0. rewrite !list_lookup_insert_eq by done.
        rewrite Z.lor_0_r. split_and!; auto.
      * exists x, y. rewrite !list_lookup_insert_ne by done. split_and!; auto.
  - intros [= <- <- <-]. split; [apply moved_refl|]. by rewrite Ho; f_equal; lia.
Qed.

(** Both bitsets have the same number of words, none negative. *)
Definition aligned (this other : list Z) : Prop :=
  length this = length other ∧ Forall (λ w, 0 ≤ w) other.

Lemma moved_aligned a b t a' b' t' : moved a b t a' b' t' → aligned a b → aligned a' b'.
Proof. intros [L M _ N _] [HL HF]. split; [congruence|auto]. Qed.

Lemma aligned_lookup a b k :
  aligned a b → (k < length b)%nat → ∃ x y, a !! k = Some x ∧ b !! k = Some y ∧ 0 ≤ y.
Proof.
  intros [HL HF] Hk. destruct (lookup_lt_is_Some_2 b k Hk) as [y Hy].
  destruct (lookup_lt_is_Some_2 a k) as [x Hx]; [lia|]. exists x, y.
  split_and!; [done|done|]. by eapply Forall_lookup_1 in HF.
Qed.

Lemma transfer_loop_unfold fuel b init k t this other tw ow :
  this !! k = Some tw → other !! k = Some ow → t < b →
  transfer_loop (S fuel) b init k t this other =
    let '(t', this', other') := move_word k tw ow t this other in
    if (length other' <=? S k)%nat then transfer_loop fuel b init 0 t' this' other'
    else if (S k =? init)%nat then Some (S k, t', this', other')
    else transfer_loop fuel b init (S k) t' this' other'.
Proof.
  intros Ht Ho Hb. cbn [transfer_loop]. rewrite Ht, Ho.
  destruct (Z.leb_spec b t); [lia|]. unfold move_word. by destruct (0 <? ow).
Qed.

(** The [arrpos == initial_arrpos] exit is only tested when the position did not wrap to 0:
    from word 0 (or from a start past the end) the loop never stops by itself. *)
Lemma transfer_loop_stuck fuel b init k t this other :
  (init = 0 ∨ length other ≤ init)%nat → aligned this other → (k < length other)%nat →
  t + bits_on other < b → transfer_loop fuel b init k t this other = None.
Proof.
  intros Hinit. revert k t this other Hinit.
  induction fuel as [|fuel IH]; intros k t this other Hinit Hal Hk Hlt; [done|].
  destruct (aligned_lookup _ _ _ Hal Hk) as (x & y & Hx & Hy & H0).
  assert (0 ≤ bits_on other) by apply bits_on_nonneg, Hal.
  rewrite (transfer_loop_unfold _ _ _ _ _ _ _ x y) by (done || lia).
  destruct (move_word k x y t this other) as [[t' this'] other'] eqn:E.
  destruct (move_word_moved _ _ _ _ _ _ _ _ _ Hx Hy H0 E) as [Hm _].
  pose proof (moved_aligned _ _ _ _ _ _ Hm Hal) as Hal'. destruct Hm as [L M C N U].
  destruct (Nat.leb_spec (length other') (S k)).
  { apply IH; try done; [destruct Hinit; lia|lia|lia]. }
  destruct (Nat.eqb_spec (S k) init); [destruct Hinit; lia|].
  apply IH; try done; [destruct Hinit; lia|lia].
Qed.

(** Words that are zero from now on: those already passed. *)
Definition zero_in (lo hi : nat) (other : list Z) : Prop :=
  ∀ j, (lo ≤ j < hi)%nat → other !! j = Some 0.

Lemma moved_zero lo hi a b t a' b' t' :
  moved a b t a' b' t' → length a = length b → zero_in lo hi b → zero_in lo hi b'.
Proof.
  intros [_ _ _ _ U] HL Hz j Hj. pose proof (Hz j Hj) as Hb.
  destruct (lookup_lt_is_Some_2 a j) as [x Hx].
  { rewrite HL. by eapply lookup_lt_Some. }
  destruct (U j x 0 Hx Hb) as (x' & y' & _ & Hy' & _ & [[_ ->]|[_ ->]]); done.
Qed.

(** The run from word [k] below the initial word, and the one from [k] above it. *)
Lemma transfer_loop_below b init k t this other fuel :
  aligned this other → (k < init < length other)%nat → (init - k < fuel)%nat →
  zero_in 0 k other → zero_in init (length other) other →
  ∃ k' t' this' other', transfer_loop fuel b init k t this other = Some (k', t', this', other') ∧
    moved this other t this' other' t' ∧ (k' < length other)%nat ∧ (b ≤ t' ∨ zero_in 0 (length other) other').
Proof.
  revert k t this other. induction fuel as [|fuel IH]; intros k t this other Hal Hk Hf Hz1 Hz2; [lia|].
  destruct (Z.leb_spec b t).
  { exists k, t, this, other. cbn [transfer_loop]. destruct (Z.leb_spec b t); [|lia].
    split_and!; [done|apply moved_refl|lia|by left]. }
  destruct (aligned_lookup _ _ k Hal) as (x & y & Hx & Hy & H0); [lia|].
  rewrite (transfer_loop_unfold _ _ _ _ _ _ _ x y) by done.
  destruct (move_word k x y t this other) as [[t1 this1] other1] eqn:E.
  destruct (move_word_moved _ _ _ _ _ _ _ _ _ Hx Hy H0 E) as [Hm Hz].
  pose proof (moved_aligned _ _ _ _ _ _ Hm Hal) as Hal1. pose proof (mv_other_len _ _ _ _ _ _ Hm) as HL.
  pose proof (moved_zero _ _ _ _ _ _ _ _ Hm (proj1 Hal) Hz1) as Hz1'.
  pose proof (moved_zero _ _ _ _ _ _ _ _ Hm (proj1 Hal) Hz2) as Hz2'.
  assert (zero_in 0 (S k) other1) as Hz1''.
  { intros j Hj. destruct (decide (j = k)) as [->|]; [done|]. apply Hz1'. lia. }
  destruct (Nat.leb_spec (length other1) (S k)); [lia|].
  destruct (Nat.eqb_spec (S k) init) as [Heq|].
  - exists (S k), t1, this1, other1. split_and!; [done|done|lia|right].
    intros j Hj. destruct (decide (j < init)%nat); [apply Hz1''|apply Hz2']; lia.
  - destruct (IH (S k) t1 this1 other1) as (k' & t' & this' & other' & Hr & Hm' & Hk' & Hd);
      [done|lia|lia|done|by rewrite HL|].
    exists k', t', this', other'. rewrite HL in Hk', Hd.
    split_and!; [done|by eapply moved_trans|done|done].
Qed.

Lemma transfer_loop_above b init k t this other fuel :
  aligned this other → (0 < init ≤ k)%nat → (k < length other)%nat →
  (length other - k + init < fuel)%nat → zero_in init k other →
  ∃ k' t' this' other', transfer_loop fuel b init k t this other = Some (k', t', this', other') ∧
    moved this other t this' other' t' ∧ (k' < length other)%nat ∧ (b ≤ t' ∨ zero_in 0 (length other) other').
Proof.
  revert k t this other. induction fuel as [|fuel IH]; intros k t this other Hal Hi Hk Hf Hzi; [lia|].
  destruct (Z.leb_spec b t).
  { exists k, t, this, other. cbn [transfer_loop]. destruct (Z.leb_spec b t); [|lia].
    split_and!; [done|apply moved_refl|lia|by left]. }
  destruct (aligned_lookup _ _ k Hal) as (x & y & Hx & Hy & H0); [lia|].
  rewrite (transfer_loop_unfold _ _ _ _ _ _ _ x y) by done.
  destruct (move_word k x y t this other) as [[t1 this1] other1] eqn:E.
  destruct (move_word_moved _ _ _ _ _ _ _ _ _ Hx Hy H0 E) as [Hm Hz].
  pose proof (moved_aligned _ _ _ _ _ _ Hm Hal) as Hal1. pose proof (mv_other_len _ _ _ _ _ _ Hm) as HL.
  pose proof (moved_zero _ _ _ _ _ _ _ _ Hm (proj1 Hal) Hzi) as Hzi'.
  assert (zero_in init (S k) other1) as Hzi''.
  { intros j Hj. destruct (decide (j = k)) as [->|]; [done|]. apply Hzi'. lia. }
  destruct (Nat.leb_spec (length other1) (S k)).
  - destruct (transfer_loop_below b init 0 t1 this1 other1 fuel)
      as (k' & t' & this' & other' & Hr & Hm' & Hk' & Hd); [done|lia|lia|intros j ?; lia| |].
    { intros j Hj. apply Hzi''. lia. }
    exists k', t', this', other'. rewrite HL in Hk', Hd.
    split_and!; [done|by eapply moved_trans|done|done].
  - destruct (Nat.eqb_spec (S k) init); [lia|].
    destruct (IH (S k) t1 this1 other1) as (k' & t' & this' & other' & Hr & Hm' & Hk' & Hd);
      [done|lia|lia|lia|done|].
    exists k', t', this', other'. rewrite HL in Hk', Hd.
    split_and!; [done|by eapply moved_trans|done|done].
Qed.

(** Whatever the initial word, the loop stops by itself once [b] bits are there to move. *)
Lemma transfer_loop_enough b init k t this other fuel :
  (init = 0 ∨ length other ≤ init)%nat →
  aligned this other → (k < length other)%nat → (length other - k + 1 < fuel)%nat →
  zero_in 0 k other → b ≤ t + bits_on other →
  ∃ k' t' this' other', transfer_loop fuel b init k t this other = Some (k', t', this', other') ∧
    moved this other t this' other' t' ∧ (k' < length other)%nat ∧ b ≤ t'.
Proof.
  intros Hinit. revert k t this other Hinit.
  induction fuel as [|fuel IH]; intros k t this other Hinit Hal Hk Hf Hz Hb; [lia|].
  destruct (Z.leb_spec b t).
  { exists k, t, this, other. cbn [transfer_loop]. destruct (Z.leb_spec b t); [|lia].
    split_and!; [done|apply moved_refl|lia|done]. }
  destruct (aligned_lookup _ _ k Hal) as (x & y & Hx & Hy & H0); [lia|].
  rewrite (transfer_loop_unfold _ _ _ _ _ _ _ x y) by done.
  destruct (move_word k x y t this other) as [[t1 this1] other1] eqn:E.
  destruct (move_word_moved _ _ _ _ _ _ _ _ _ Hx Hy H0 E) as [Hm Hzk].
  pose proof (moved_aligned _ _ _ _ _ _ Hm Hal) as Hal1. pose proof (mv_other_len _ _ _ _ _ _ Hm) as HL.
  pose proof (moved_zero _ _ _ _ _ _ _ _ Hm (proj1 Hal) Hz) as Hz'.
  pose proof (mv_count _ _ _ _ _ _ Hm) as HC.
  assert (zero_in 0 (S k) other1) as Hz''.
  { intros j Hj. destruct (decide (j = k)) as [->|]; [done|]. apply Hz'. lia. }
  destruct (Nat.leb_spec (length other1) (S k)).
  - assert (bits_on other1 = 0) by
      (apply bits_on_zero, Forall_lookup; intros j w Hj; specialize (Hz'' j);
       apply lookup_lt_Some in Hj as ?; rewrite Hz'' in Hj by lia; by injection Hj).
    exists 0%nat, t1, this1, other1. destruct fuel; [lia|]. cbn [transfer_loop].
    destruct (Z.leb_spec b t1); [|lia]. split_and!; [done|done|lia|lia].
  - destruct (Nat.eqb_spec (S k) init); [destruct Hinit; lia|].
    destruct (IH (S k) t1 this1 other1) as (k' & t' & this' & other' & Hr & Hm' & Hk' & Hd);
      [destruct Hinit; lia|done|lia|lia|done|lia|].
    exists k', t', this', other'. rewrite HL in Hk'.
    split_and!; [done|by eapply moved_trans|done|done].
Qed.

Lemma bit_pos_fst start : (bit_to_pos start).1 = (start / 64)%nat.
Proof. by rewrite bit_to_pos_eq. Qed.

Lemma wf_aligned this other :
  wf this → wf other → len other = len this → aligned (array this) (array other).
Proof.
  intros H1 H2 HL. split.
  - change (arrlen this = arrlen other). by rewrite (wf_words _ H1), (wf_words _ H2), HL.
  - eapply Forall_impl; [apply (wf_u64 _ H2)|]. by intros ? [].
Qed.

(** The bit [i] of two sets of words related by [moved]. *)
Lemma moved_bits this other t this' other' t' l i :
  moved this other t this' other' t' → length this = length other →
  let d w := MkBitset w l in
  bit (d this') i || bit (d other') i = bit (d this) i || bit (d other) i ∧
  (bit (d other') i = true → bit (d other) i = true) ∧
  (bit (d this) i = true → bit (d this') i = true).
Proof.
  intros [L M _ _ U] HL d. unfold bit, d. cbn [array].
  destruct (this !! (i / 64)%nat) as [x|] eqn:Hx.
  - destruct (lookup_lt_is_Some_2 other (i / 64)%nat) as [y Hy].
    { rewrite <- HL. by eapply lookup_lt_Some. }
    destruct (U _ _ _ Hx Hy) as (x' & y' & -> & -> & E & D). rewrite Hy.
    rewrite <- !Z.lor_spec, E. split; [done|].
    destruct D as [[-> ->]|[-> ->]]; [done|]. rewrite Z.lor_spec, Z.bits_0. split; [done|].
    by intros ->.
  - apply lookup_ge_None in Hx.
    rewrite (proj2 (lookup_ge_None this' _)), (proj2 (lookup_ge_None other' _)),
      (proj2 (lookup_ge_None other _)) by lia. done.
Qed.

(** The transfer of whole sets. It ends when it starts at one of the words but the first, and
    otherwise exactly when [other] has [b] bits to give. *)
Definition transfer_ends (other : dense_bitset) (start : nat) (b : Z) : Prop :=
  (0 < start / 64 < arrlen other)%nat ∨ b ≤ popcount other.

Lemma transfer_spec fuel this other start b :
  wf this → wf other → len other = len this → (0 < len this)%nat →
  (2 * arrlen other + 1 < fuel)%nat → transfer_ends other start b →
  ∃ start' t this' other',
    transfer_approximate_unsafe fuel this other start b = Some (start', t, this', other') ∧
    len this' = len this ∧ len other' = len this ∧
    (∀ i, bit this' i || bit other' i = bit this i || bit other i) ∧
    (∀ i, bit this i = true → bit this' i = true) ∧
    popcount other' = popcount other - t ∧
    (b ≤ t ∨ empty other' = true) ∧ (start' < 64 * arrlen other)%nat.
Proof.
  intros Ht Ho HL Hpos Hfuel Hends. pose proof (wf_aligned _ _ Ht Ho HL) as Hal.
  assert (arrlen other = arrlen this) as HA by (symmetry; apply Hal).
  assert (0 < arrlen other)%nat as Hn.
  { rewrite (wf_words _ Ho), HL. pose proof (words_for_bound (len this)). lia. }
  unfold transfer_approximate_unsafe. rewrite decide_True by done. cbv zeta.
  rewrite bit_pos_fst, <- HA. change (arrlen other) with (length (array other)) in *.
  assert (∃ k' t' this' other', transfer_loop fuel b (start / 64)
      (if length (array other) <=? start / 64 then 0 else start / 64)%nat 0 (array this) (array other)
      = Some (k', t', this', other') ∧
    moved (array this) (array other) 0 this' other' t' ∧ (k' < length (array other))%nat ∧
    (b ≤ t' ∨ zero_in 0 (length (array other)) other')) as (k' & t' & tw & ow & -> & Hm & Hk & Hd).
  { destruct (decide (0 < start / 64 < length (array other))%nat) as [Hs|Hs].
    - destruct (Nat.leb_spec (length (array other)) (start / 64)%nat); [lia|].
      apply transfer_loop_above; [done|lia|lia|lia|intros j ?; lia].
    - destruct Hends as [?|Hb]; [done|].
      destruct (transfer_loop_enough b (start / 64)
        (if length (array other) <=? start / 64 then 0 else start / 64)%nat 0 (array this)
        (array other) fuel) as (k' & t' & tw & ow & Hr & Hm & Hk & Hbt).
      + lia.
      + done.
      + destruct (Nat.leb_spec (length (array other)) (start / 64)%nat); lia.
      + destruct (Nat.leb_spec (length (array other)) (start / 64)%nat); lia.
      + destruct (Nat.leb_spec (length (array other)) (start / 64)%nat); intros j ?; lia.
      + done.
      + exists k', t', tw, ow. split_and!; auto. }
  cbn [mbind option_bind]. eexists _, _, _, _. split; [done|]. destruct this as [tw0 l], other as [ow0 l'].
  cbn [array len] in *. subst l'.
  pose proof (λ i, moved_bits _ _ _ _ _ _ l i Hm (proj1 Hal)) as Hbits. cbv zeta in Hbits.
  split_and!; [done|done| | | | |].
  - intros i. apply Hbits.
  - intros i. apply Hbits.
  - pose proof (mv_count _ _ _ _ _ _ Hm). unfold popcount. cbn [array].
    change (bits_on ow = bits_on ow0 - t'). lia.
  - destruct Hd as [Hd|Hz]; [by left|right]. unfold empty. apply forallb_forall. cbn [array].
    intros x (j & Hj)%list_elem_of_In%list_elem_of_lookup. pose proof (Hz j) as Hzj.
    apply lookup_lt_Some in Hj as Hlt. rewrite (mv_other_len _ _ _ _ _ _ Hm) in Hlt.
    rewrite Hzj in Hj by lia. by injection Hj as <-.
  - lia.
Qed.

Lemma transfer_stuck fuel this other start b :
  wf this → wf other → len other = len this → (0 < len this)%nat → ¬ transfer_ends other start b →
  transfer_approximate_unsafe fuel this other start b = None.
Proof.
  intros Ht Ho HL Hpos Hn. pose proof (wf_aligned _ _ Ht Ho HL) as Hal.
  assert (0 < arrlen other)%nat as Hpos'.
  { rewrite (wf_words _ Ho), HL. pose proof (words_for_bound (len this)). lia. }
  unfold transfer_approximate_unsafe, transfer_ends in *. case_decide as HA; [|done]. cbv zeta.
  rewrite bit_pos_fst, <- (proj2 HA). unfold arrlen in *.
  rewrite transfer_loop_stuck; [done|lia|done| |].
  - destruct (Nat.leb_spec (length (array other)) (start / 64)%nat); lia.
  - unfold popcount in Hn. fold (bits_on (array other)) in Hn. lia.
Qed.

(** ** Serialization *)

#[global] Instance bitset_round_trip :
  RoundTrip (λ d, wf d ∧ is_u64 (Z.of_nat (len d))) save (λ _, load).
Proof.
  intros d [Hwf Hlen]. unfold save, load.
  apply encodes_bind with (a := Z.of_nat (len d)); [by apply encodes_le|].
  apply encodes_bind with (a := Z.of_nat (arrlen d)).
  { apply encodes_le. rewrite (wf_words _ Hwf). unfold is_u in *.
    change (8 * Z.of_nat 8) with 64. change (2 ^ 64) with 18446744073709551616 in *.
    pose proof (words_for_bound (len d)). lia. }
  rewrite !Nat2Z.id. destruct d as [words n]. cbn [array len] in *.
  apply (encodes_map _ _ (λ ws, MkBitset ws n)). apply encodes_many.
  eapply Forall_impl; [apply (wf_u64 _ Hwf)|]. intros w Hw. by apply encodes_le.
Qed.

End Bitset.
