(* ===== verification/Float64.v ===== *)
(** The [double] of the code, as its 64-bit pattern ([Z] in [0, 2^64)): classification,
    comparison, negation and the conversions between [flex_int] and [flex_float] that
    src/oss_src/sframe/sarray_v2_type_encoding.cpp and
    src/oss_src/flexible_type/flexible_type_detail.hpp rely on. *)
From S2P Require Import Prelude.
Local Open Scope Z_scope.
Local Open Scope sframe_scope.

Module Float64.

(** ** Representation: sign, 11 bits of exponent, 52 bits of mantissa *)

Definition sign (b : Z) : bool := Z.testbit b 63.
Definition magnitude (b : Z) : Z := b mod 2 ^ 63.
Definition exponent (b : Z) : Z := magnitude b ≫ 52.
Definition mantissa (b : Z) : Z := b mod 2 ^ 52.

Definition inf_magnitude : Z := 0x7ff0000000000000.
Definition isnan (b : Z) : bool := inf_magnitude <? magnitude b.

Definition pos_zero : Z := 0.
Definition neg_zero : Z := 2 ^ 63.
Definition fneg (b : Z) : Z := b .^ 2 ^ 63.

(** The order of the doubles that are not NaN is the order of their keys; the two zeros
    have the same key. *)
Definition key (b : Z) : Z := if sign b then - magnitude b else magnitude b.
Definition feq (a b : Z) : bool := negb (isnan a) && negb (isnan b) && (key a =? key b).
Definition flt (a b : Z) : bool := negb (isnan a) && negb (isnan b) && (key a <? key b).
Definition fgt (a b : Z) : bool := flt b a.

(** ** Conversions *)

(** Shift right by [sh], rounding to nearest, ties to even. *)
Definition round_shift (a sh : Z) : Z :=
  let q := a ≫ sh in
  let r := a mod 2 ^ sh in
  let half := 2 ^ (sh - 1) in
  if (half <? r) || ((half =? r) && Z.odd q) then q + 1 else q.

(** [(flex_float)n]. A mantissa rounded up to 2^53 carries into the exponent. *)
Definition i2f (n : Z) : Z :=
  if n =? 0 then 0
  else
    let a := Z.abs n in
    let e := Z.log2 a in
    let q := if e <=? 52 then a ≪ (52 - e) else round_shift a (e - 52) in
    (if n <? 0 then 2 ^ 63 else 0) + (e + 1023) * 2 ^ 52 + (q - 2 ^ 52).

(** [(flex_int)x]: truncation towards zero. A value that does not fit is undefined behaviour
    in C++; [oob] is what the implementation produces then. *)
Definition f2i (oob : Z → Z) (b : Z) : Z :=
  let e := exponent b - 1023 in
  let m := 2 ^ 52 + mantissa b in
  if e <? 0 then 0
  else
    let mag := if e <=? 52 then m ≫ (52 - e) else m ≪ (e - 52) in
    let v := if sign b then - mag else mag in
    if (exponent b <? 2047) && (- 2 ^ 63 <=? v) && (v <? 2 ^ 63) then v else oob b.

(** ** Classification and comparison *)

Lemma magnitude_range b : 0 ≤ magnitude b < 2 ^ 63.
Proof. apply Z.mod_pos_bound. lia. Qed.

Lemma bits_split b : is_u64 b → b = (if sign b then 2 ^ 63 else 0) + magnitude b.
Proof.
  intros Hb. unfold sign, magnitude, is_u in *. rewrite Z.testbit_odd, Z.shiftr_div_pow2 by lia.
  assert (0 ≤ b / 2 ^ 63 < 2).
  { split; [apply Z.div_pos; lia|apply Z.div_lt_upper_bound; lia]. }
  generalize (Z.div_mod b (2 ^ 63)).
  assert (b / 2 ^ 63 = 0 ∨ b / 2 ^ 63 = 1) as [-> | ->] by lia; simpl Z.odd; lia.
Qed.

Lemma key_inj a b : is_u64 a → is_u64 b → key a = key b →
  a = b ∨ (magnitude a = 0 ∧ magnitude b = 0).
Proof.
  intros Ha Hb. pose proof (magnitude_range a). pose proof (magnitude_range b).
  generalize (bits_split a Ha), (bits_split b Hb). unfold key.
  destruct (sign a), (sign b); lia.
Qed.

(** IEEE equality: identical bits that are no NaN, or two zeros. *)
Lemma feq_spec a b : is_u64 a → is_u64 b →
  feq a b = true ↔ isnan a = false ∧ isnan b = false ∧
    (a = b ∨ (magnitude a = 0 ∧ magnitude b = 0)).
Proof.
  intros Ha Hb. unfold feq. rewrite !andb_true_iff, !negb_true_iff, Z.eqb_eq.
  split; [intros [[? ?] ?]|intros (? & ? & [->|[Ma Mb]])]; [|done|].
  - split_and!; [done..|]. by apply key_inj.
  - split_and!; [done..|]. unfold key. rewrite Ma, Mb. by destruct (sign a), (sign b).
Qed.

Lemma zero_magnitude b : is_u64 b → magnitude b = 0 → b = pos_zero ∨ b = neg_zero.
Proof. intros Hb Hm. rewrite (bits_split b Hb), Hm. destruct (sign b); [by right|by left]. Qed.

(** [<] is a strict weak order on the doubles without NaN, and NaN is incomparable. *)
Lemma flt_irrefl a : flt a a = false.
Proof. unfold flt. rewrite Z.ltb_irrefl. apply andb_false_r. Qed.

Lemma flt_trans a b c : flt a b = true → flt b c = true → flt a c = true.
Proof.
  unfold flt. rewrite !andb_true_iff, !Z.ltb_lt. intros [[? ?] ?] [[? ?] ?]. split_and!; try done. lia.
Qed.

Lemma flt_trichotomy a b : isnan a = false → isnan b = false →
  (flt a b = true ∧ feq a b = false ∧ fgt a b = false) ∨
  (flt a b = false ∧ feq a b = true ∧ fgt a b = false) ∨
  (flt a b = false ∧ feq a b = false ∧ fgt a b = true).
Proof.
  intros Ha Hb. unfold fgt, flt, feq. rewrite Ha, Hb. simpl.
  destruct (Z.ltb_spec (key a) (key b)), (Z.eqb_spec (key a) (key b)),
    (Z.ltb_spec (key b) (key a)); auto; lia.
Qed.

Lemma flt_nan a b : isnan a = true ∨ isnan b = true →
  flt a b = false ∧ feq a b = false ∧ fgt a b = false.
Proof. unfold fgt, flt, feq. by intros [-> | ->]; destruct (isnan _). Qed.

(** ** Conversions *)

Lemma round_shift_range a sh : 1 ≤ sh → 0 ≤ a → a ≫ sh ≤ round_shift a sh ≤ (a ≫ sh) + 1.
Proof. intros. unfold round_shift. destruct (_ || _); lia. Qed.

(** The significand the conversion stores, before the implicit bit is dropped. *)
Lemma i2f_significand a : 0 < a →
  let e := Z.log2 a in
  2 ^ 52 ≤ (if e <=? 52 then a ≪ (52 - e) else round_shift a (e - 52)) ≤ 2 ^ 53.
Proof.
  intros Ha e. destruct (Z.log2_spec a Ha) as [H1 H2]. fold e in H1, H2.
  assert (0 ≤ e) by apply Z.log2_nonneg. destruct (Z.leb_spec e 52).
  - rewrite Z.shiftl_mul_pow2 by lia.
    replace (2 ^ 52) with (2 ^ e * 2 ^ (52 - e)) by (rewrite <- Z.pow_add_r by lia; f_equal; lia).
    replace (2 ^ 53) with (2 ^ Z.succ e * 2 ^ (52 - e))
      by (rewrite <- Z.pow_add_r by lia; f_equal; lia).
    pose proof (Z.pow_pos_nonneg 2 (52 - e)). nia.
  - pose proof (round_shift_range a (e - 52)) as Hr.
    assert (2 ^ 52 ≤ a ≫ (e - 52) < 2 ^ 53); [|lia].
    rewrite Z.shiftr_div_pow2 by lia. pose proof (Z.pow_pos_nonneg 2 (e - 52)).
    split; [apply Z.div_le_lower_bound|apply Z.div_lt_upper_bound]; try lia.
    + replace (2 ^ (e - 52) * 2 ^ 52) with (2 ^ e) by (rewrite <- Z.pow_add_r by lia; f_equal; lia).
      lia.
    + replace (2 ^ (e - 52) * 2 ^ 53) with (2 ^ Z.succ e)
        by (rewrite <- Z.pow_add_r by lia; f_equal; lia). lia.
Qed.

Lemma i2f_range n : is_s64 n → is_u64 (i2f n).
Proof.
  intros Hn. unfold i2f. destruct (Z.eqb_spec n 0) as [->|]; [done|].
  pose proof (i2f_significand (Z.abs n)) as Hq. cbv zeta in Hq |- *.
  assert (0 ≤ Z.log2 (Z.abs n) ≤ 63).
  { split; [apply Z.log2_nonneg|]. rewrite <- (Z.log2_pow2 63) by lia.
    apply Z.log2_le_mono. unfold is_s64 in Hn. lia. }
  set (q := if _ <=? _ then _ else _) in *. clearbody q. unfold is_u. eval_pow.
  destruct (n <? 0); lia.
Qed.

Lemma f2i_range oob b : (∀ x, is_s64 (oob x)) → is_s64 (f2i oob b).
Proof.
  intros Hoob. unfold f2i. destruct (_ <? 0); [done|]. cbv zeta.
  set (v := if sign b then _ else _). clearbody v.
  destruct (_ <? 2047), (Z.leb_spec (- 2 ^ 63) v), (Z.ltb_spec v (2 ^ 63)); try apply Hoob.
  by split.
Qed.

(** The fields of a pattern put together from a sign, an exponent and a significand. *)
Lemma fields_of (s : bool) (e q : Z) : 0 ≤ e < 2047 → 2 ^ 52 ≤ q < 2 ^ 53 →
  let b := (if s then 2 ^ 63 else 0) + e * 2 ^ 52 + (q - 2 ^ 52) in
  sign b = s ∧ exponent b = e ∧ mantissa b = q - 2 ^ 52.
Proof.
  intros He Hq b. assert (0 ≤ e * 2 ^ 52 + (q - 2 ^ 52) < 2 ^ 63) as Hr by lia.
  assert (magnitude b = e * 2 ^ 52 + (q - 2 ^ 52)) as Hm.
  { unfold magnitude, b. destruct s.
    - rewrite <- Z.add_assoc, Z.add_comm. rewrite <- (Z.mul_1_l (2 ^ 63)) at 1.
      rewrite Z_mod_plus_full. by apply Z.mod_small.
    - by apply Z.mod_small. }
  split_and!.
  - unfold sign. rewrite Z.testbit_odd, Z.shiftr_div_pow2 by lia.
    replace (b / 2 ^ 63) with (Z.b2z s); [by destruct s|].
    apply Z.div_unique with (r := e * 2 ^ 52 + (q - 2 ^ 52)); [lia|]. unfold b. destruct s; simpl Z.b2z; lia.
  - unfold exponent. rewrite Hm, Z.shiftr_div_pow2 by lia. symmetry.
    apply Z.div_unique with (r := q - 2 ^ 52); lia.
  - unfold mantissa. symmetry.
    apply Z.mod_unique with (q := (if s then 2 ^ 11 else 0) + e); [lia|].
    unfold b. destruct s; lia.
Qed.

(** Integers of at most 53 bits survive the conversion to [double] and back. *)
Lemma f2i_i2f oob n : Z.abs n < 2 ^ 53 → f2i oob (i2f n) = n.
Proof.
  intros Hn. destruct (Z.eqb_spec n 0) as [->|Hnz]; [done|].
  assert (0 < Z.abs n) as Ha by lia. pose proof (i2f_significand _ Ha) as Hq.
  destruct (Z.log2_spec _ Ha) as [H1 H2]. pose proof (Z.log2_nonneg (Z.abs n)).
  assert (Z.log2 (Z.abs n) ≤ 52) as He.
  { assert (Z.log2 (Z.abs n) < 53); [|lia]. apply Z.log2_lt_pow2; lia. }
  unfold i2f. destruct (Z.eqb_spec n 0); [done|]. cbv zeta in Hq |- *.
  set (e := Z.log2 (Z.abs n)) in *. destruct (Z.leb_spec e 52); [|lia].
  assert (Z.abs n ≪ (52 - e) < 2 ^ 53).
  { rewrite Z.shiftl_mul_pow2 by lia.
    replace (2 ^ 53) with (2 ^ Z.succ e * 2 ^ (52 - e))
      by (rewrite <- Z.pow_add_r by lia; f_equal; lia).
    pose proof (Z.pow_pos_nonneg 2 (52 - e)). nia. }
  destruct (fields_of (n <? 0) (e + 1023) (Z.abs n ≪ (52 - e))) as (Es & Ee & Em); [lia|lia|].
  unfold f2i. rewrite Es, Ee, Em. replace (e + 1023 - 1023) with e by lia.
  destruct (Z.ltb_spec e 0); [lia|]. cbv zeta.
  replace (2 ^ 52 + (Z.abs n ≪ (52 - e) - 2 ^ 52)) with (Z.abs n ≪ (52 - e)) by lia.
  destruct (Z.leb_spec e 52); [|lia].
  rewrite Z.shiftr_shiftl_l, Z.sub_diag, Z.shiftl_0_r by lia.
  replace (if n <? 0 then - Z.abs n else Z.abs n) with n by (destruct (Z.ltb_spec n 0); lia).
  destruct (Z.ltb_spec (e + 1023) 2047), (Z.leb_spec (- 2 ^ 63) n), (Z.ltb_spec n (2 ^ 63)); lia || done.
Qed.

(** The test of the encoder: when converting to an integer and back compares equal, only the
    sign of a zero can be lost. *)
Lemma integer_code_safe oob b : (∀ x, is_s64 (oob x)) → is_u64 b →
  feq (i2f (f2i oob b)) b = true → i2f (f2i oob b) = b ∨ b = neg_zero.
Proof.
  intros Hoob Hb Heq. pose proof (i2f_range _ (f2i_range oob b Hoob)) as Hi.
  apply feq_spec in Heq as (_ & _ & [?|[Hm1 Hm2]]); [by left| |done..].
  destruct (zero_magnitude b Hb Hm2) as [-> | ->]; [left; done|by right].
Qed.

End Float64.
