(* ===== verification/FloatArith.v ===== *)
(** The arithmetic of [double] on bit patterns (Float64), through the Standard Library's
    specification of binary floating-point numbers, for the operators of
    src/oss_src/flexible_type/flexible_type_detail.hpp. Rounding is to nearest, ties to even.
    A NaN that an operation produces is the default one: payloads are not modelled. *)
From Stdlib Require Import SpecFloat.
From S2P Require Import Prelude Float64.
Import Float64.
Local Open Scope Z_scope.
Local Open Scope sframe_scope.

Module FloatArith.

Abbreviation prec := 53.
Abbreviation emax := 1024.

(** [NAN]. *)
Definition NAN : Z := 0x7ff8000000000000.

(** ** Bit patterns and numbers *)

Definition sf_of_bits (b : Z) : spec_float :=
  let s := sign b in
  let e := exponent b in
  let m := mantissa b in
  if e =? 2047 then (if m =? 0 then S754_infinity s else S754_nan)
  else
    let sig := if e =? 0 then m else m + 2 ^ 52 in
    match sig with
    | Zpos p => S754_finite s p (Z.max e 1 - 1075)
    | _ => S754_zero s
    end.

Definition sign_bit (s : bool) : Z := if s then 2 ^ 63 else 0.

Definition bits_of_sf (x : spec_float) : Z :=
  match x with
  | S754_zero s => sign_bit s
  | S754_infinity s => sign_bit s + inf_magnitude
  | S754_nan => NAN
  | S754_finite s p e =>
      sign_bit s + (if Zpos p <? 2 ^ 52 then Zpos p else (e + 1075) * 2 ^ 52 + (Zpos p - 2 ^ 52))
  end.

(** ** Operations *)

Definition lift2 (f : spec_float → spec_float → spec_float) (a b : Z) : Z :=
  bits_of_sf (f (sf_of_bits a) (sf_of_bits b)).

Definition fadd : Z → Z → Z := lift2 (SFadd prec emax).
Definition fsub : Z → Z → Z := lift2 (SFsub prec emax).
Definition fmul : Z → Z → Z := lift2 (SFmul prec emax).
Definition fdiv : Z → Z → Z := lift2 (SFdiv prec emax).

(** The value of a finite number is [m * 2^e]. *)
Definition signed (s : bool) (m : Z) : Z := if s then - m else m.

(** [fmod]: the exact remainder of the truncated quotient, with the sign of the dividend. *)
Definition SFmod (x y : spec_float) : spec_float :=
  match x, y with
  | S754_nan, _ | _, S754_nan => S754_nan
  | S754_infinity _, _ => S754_nan
  | _, S754_zero _ => S754_nan
  | _, S754_infinity _ => x
  | S754_zero _, S754_finite _ _ _ => x
  | S754_finite sx mx ex, S754_finite _ my ey =>
      let e := Z.min ex ey in
      let r := (Zpos mx ≪ (ex - e)) mod (Zpos my ≪ (ey - e)) in
      binary_normalize prec emax (signed sx r) e sx
  end.
Definition fmod : Z → Z → Z := lift2 SFmod.

(** [std::floor]. *)
Definition SFfloor (x : spec_float) : spec_float :=
  match x with
  | S754_finite s m e =>
      if 0 <=? e then x else binary_normalize prec emax (signed s (Zpos m) ≫ (- e)) 0 s
  | _ => x
  end.
Definition ffloor (b : Z) : Z := bits_of_sf (SFfloor (sf_of_bits b)).

(** [std::fabs]. *)
Definition fabs (b : Z) : Z := magnitude b.

(** ** Tests against the hardware's results *)

Example fadd_example : fadd 0x3fb999999999999a 0x3fc999999999999a = 0x3fd3333333333334.
Proof. vm_compute. reflexivity. Qed.
Example fdiv_example : fdiv (i2f 1) (i2f 3) = 0x3fd5555555555555.
Proof. vm_compute. reflexivity. Qed.
Example fmul_example : fmul 0x3fb999999999999a 0x3fb999999999999a = 0x3f847ae147ae147c.
Proof. vm_compute. reflexivity. Qed.
Example fmod_example : fmod (i2f (-7)) (i2f 3) = i2f (-1).
Proof. vm_compute. reflexivity. Qed.
Example ffloor_example : ffloor (fdiv (i2f (-7)) (i2f 2)) = i2f (-4).
Proof. vm_compute. reflexivity. Qed.

(** ** The two representations agree *)

Lemma exponent_mantissa b : is_u64 b →
  b = sign_bit (sign b) + exponent b * 2 ^ 52 + mantissa b ∧ 0 ≤ exponent b ≤ 2047 ∧
  0 ≤ mantissa b < 2 ^ 52.
Proof.
  intros Hb. pose proof (bits_split b Hb) as Hs. unfold sign_bit, exponent, mantissa.
  rewrite Z.shiftr_div_pow2 by lia.
  assert (b mod 2 ^ 52 = magnitude b mod 2 ^ 52) as ->.
  { unfold magnitude. symmetry. apply mod_mod_pow2. lia. }
  pose proof (magnitude_range b). eval_pow.
  pose proof (Z.div_mod (magnitude b) 4503599627370496 ltac:(lia)).
  pose proof (Z.mod_pos_bound (magnitude b) 4503599627370496 ltac:(lia)).
  split_and!; [lia|dlia|dlia|dlia|dlia].
Qed.

Lemma isnan_spec b : is_u64 b → isnan b = (exponent b =? 2047) && negb (mantissa b =? 0).
Proof.
  intros Hb. destruct (exponent_mantissa b Hb) as (Hsplit & He & Hm).
  pose proof (bits_split b Hb) as Hs. unfold isnan, inf_magnitude, sign_bit in *.
  assert (magnitude b = exponent b * 2 ^ 52 + mantissa b) as -> by (destruct (sign b); lia).
  eval_pow. destruct (Z.ltb_spec 9218868437227405312 (exponent b * 4503599627370496 + mantissa b)),
    (Z.eqb_spec (exponent b) 2047), (Z.eqb_spec (mantissa b) 0); cbn; try done; lia.
Qed.

(** A double that is not NaN is the pattern of its number. *)
Lemma bits_of_sf_of_bits b : is_u64 b → isnan b = false → bits_of_sf (sf_of_bits b) = b.
Proof.
  intros Hb Hn. rewrite isnan_spec in Hn by done.
  destruct (exponent_mantissa b Hb) as (Hsplit & He & Hm). unfold sf_of_bits.
  set (s := sign b) in *. set (e := exponent b) in *. set (m := mantissa b) in *.
  clearbody s e m. subst b. eval_pow.
  destruct (Z.eqb_spec e 2047) as [->|He2].
  { destruct (Z.eqb_spec m 0) as [->|]; [|done]. unfold bits_of_sf, inf_magnitude. lia. }
  destruct (Z.eqb_spec e 0) as [->|He0].
  - destruct m as [|p|p]; [cbn; lia| |lia]. unfold bits_of_sf. eval_pow.
    destruct (Z.ltb_spec (Zpos p) 4503599627370496); lia.
  - destruct (m + 4503599627370496) as [|p|p] eqn:Hp; try lia. unfold bits_of_sf. eval_pow.
    destruct (Z.ltb_spec (Zpos p) 4503599627370496); lia.
Qed.

(** ** Laws that hold for every pattern *)

Lemma SFadd_comm x y : SFadd prec emax x y = SFadd prec emax y x.
Proof.
  destruct x as [[]|[]| |sx mx ex], y as [[]|[]| |sy my ey]; try done.
  unfold SFadd. rewrite (Z.min_comm ey ex), Z.add_comm. done.
Qed.

Lemma SFmul_comm x y : SFmul prec emax x y = SFmul prec emax y x.
Proof.
  destruct x as [sx|sx| |sx mx ex], y as [sy|sy| |sy my ey]; try done; unfold SFmul;
    rewrite (xorb_comm sx); [done..|]. by rewrite (Pos.mul_comm mx), (Z.add_comm ex).
Qed.

Lemma fadd_comm a b : fadd a b = fadd b a.
Proof. unfold fadd, lift2. by rewrite SFadd_comm. Qed.
Lemma fmul_comm a b : fmul a b = fmul b a.
Proof. unfold fmul, lift2. by rewrite SFmul_comm. Qed.

Lemma binary_round_aux_sign s m e l :
  SFabs (binary_round_aux prec emax s m e l) = binary_round_aux prec emax false m e l.
Proof.
  unfold binary_round_aux. destruct (shr_fexp _ _ _ _ _) as [mrs e'].
  destruct (shr_fexp _ _ _ _ _) as [mrs' e'']. destruct (shr_m mrs'); try done.
  by destruct (e'' <=? _).
Qed.

Lemma binary_normalize_opp m e s t :
  SFabs (binary_normalize prec emax (- m) e s) = SFabs (binary_normalize prec emax m e t).
Proof.
  destruct m as [|p|p]; [done|rewrite Pos2Z.opp_pos|rewrite Pos2Z.opp_neg];
    unfold binary_normalize;
    unfold binary_round; destruct (shl_align _ _ _) as [mz ez]; by rewrite !binary_round_aux_sign.
Qed.

(** The distance of two numbers is symmetric. *)
Lemma SFsub_abs x y : SFabs (SFsub prec emax x y) = SFabs (SFsub prec emax y x).
Proof.
  destruct x as [[]|[]| |sx mx ex], y as [[]|[]| |sy my ey]; try done.
  unfold SFsub. rewrite (Z.min_comm ey ex).
  rewrite <- (binary_normalize_opp _ _ false false). f_equal. f_equal. lia.
Qed.

Lemma fabs_of_sf x y : SFabs x = SFabs y → fabs (bits_of_sf x) = fabs (bits_of_sf y).
Proof.
  unfold fabs, magnitude.
  assert (∀ s r, (sign_bit s + r) mod 2 ^ 63 = r mod 2 ^ 63) as Hs.
  { intros [] r; unfold sign_bit; [|done]. rewrite Z.add_comm. by rewrite <- Z.add_mod_idemp_r, Z.mod_same, Z.add_0_r by done. }
  intros H. destruct x as [s|s| |s m e], y as [s'|s'| |s' m' e']; try discriminate H; try done.
  - by destruct s, s'.
  - by destruct s, s'.
  - injection H as -> ->. unfold bits_of_sf. by rewrite !Hs.
Qed.

Lemma fabs_fsub_sym a b : fabs (fsub a b) = fabs (fsub b a).
Proof. apply fabs_of_sf, SFsub_abs. Qed.

(** A NaN operand makes a NaN. *)
Lemma sf_of_nan b : is_u64 b → isnan b = true → sf_of_bits b = S754_nan.
Proof.
  intros Hb Hn. rewrite isnan_spec in Hn by done. unfold sf_of_bits.
  apply andb_true_iff in Hn as [-> ->%negb_true_iff]. done.
Qed.

Lemma nan_propagates op a b :
  op ∈ [fadd; fsub; fmul; fdiv; fmod] → is_u64 a → is_u64 b → isnan a || isnan b = true →
  op a b = NAN.
Proof.
  intros Hop Ha Hb Hn.
  assert (sf_of_bits a = S754_nan ∨ sf_of_bits b = S754_nan) as Hnan.
  { apply orb_true_iff in Hn as [|]; [left|right]; by apply sf_of_nan. }
  assert (∀ x y, x = S754_nan ∨ y = S754_nan →
    SFadd prec emax x y = S754_nan ∧ SFsub prec emax x y = S754_nan ∧
    SFmul prec emax x y = S754_nan ∧ SFdiv prec emax x y = S754_nan ∧ SFmod x y = S754_nan) as Hall.
  { intros x y [->| ->]; [by destruct y as [[]|[]| |]|by destruct x as [[]|[]| |]]. }
  destruct (Hall _ _ Hnan) as (H1 & H2 & H3 & H4 & H5).
  rewrite !elem_of_cons, elem_of_nil in Hop. unfold fadd, fsub, fmul, fdiv, fmod in Hop.
  destruct Hop as [->|[->|[->|[->|[->|[]]]]]]; unfold lift2; by rewrite ?H1, ?H2, ?H3, ?H4, ?H5.
Qed.

End FloatArith.
