(* ===== verification/FlexType.v ===== *)
(** The values of the columns: [flexible_type], its accessors and its binary format.

    Sources: src/oss_src/flexible_type/flexible_type_base_types.hpp (the type enumeration,
    [flex_date_time], the conversion and operator tables), flexible_type.hpp (accessors,
    [reset], [save], [load]), flexible_type.cpp ([is_zero], [is_na]), flexible_type_detail.hpp
    ([serializer], [deserializer]), src/oss_src/image/image_type.cpp and
    src/oss_src/serialization/basic_types.hpp, vector.hpp (strings, pairs, vectors). *)
From S2P Require Import Prelude Float64.
Local Open Scope Z_scope.
Local Open Scope sframe_scope.

Module FlexType.

(** ** Type enumeration *)

Inductive flex_type_enum :=
  | INTEGER | FLOAT | STRING | VECTOR | LIST | DICT | DATETIME | UNDEFINED | IMAGE.

#[global] Instance flex_type_enum_eq_dec : EqDecision flex_type_enum.
Proof. solve_decision. Defined.

Definition enum_code (t : flex_type_enum) : Z :=
  match t with
  | INTEGER => 0 | FLOAT => 1 | STRING => 2 | VECTOR => 3 | LIST => 4 | DICT => 5
  | DATETIME => 6 | UNDEFINED => 7 | IMAGE => 8
  end.

(** [(flex_type_enum)c]; the code does not check the range. *)
Definition enum_of_code (c : Z) : option flex_type_enum :=
  match c with
  | 0 => Some INTEGER | 1 => Some FLOAT | 2 => Some STRING | 3 => Some VECTOR | 4 => Some LIST
  | 5 => Some DICT | 6 => Some DATETIME | 7 => Some UNDEFINED | 8 => Some IMAGE
  | _ => None
  end.

(** ** Date-times: 56 bits of timestamp, 8 bits of time zone, 32 bits of microseconds *)

Record flex_date_time := MkDateTime {
  m_posix_timestamp_low : Z;
  m_posix_timestamp_high : Z;
  m_tz_15min_offset : Z;
  m_microsecond : Z;
}.

Definition MICROSECONDS_PER_SECOND : Z := 1000000.
Definition TIMEZONE_LOW : Z := -12 * 4.
Definition TIMEZONE_HIGH : Z := 12 * 4.
Definition EMPTY_TIMEZONE : Z := 64.
Definition TIMEZONE_RESOLUTION_IN_SECONDS : Z := 15 * 60.
Definition LEGACY_TIMEZONE_SHIFT : Z := 25.

(** The default constructor. *)
Definition empty_date_time : flex_date_time :=
  MkDateTime 0 0 (EMPTY_TIMEZONE + LEGACY_TIMEZONE_SHIFT) 0.

Definition posix_timestamp (d : flex_date_time) : Z :=
  let unsigned_ts := u64 (u64 (m_posix_timestamp_high d ≪ 32) + m_posix_timestamp_low d) in
  let signed_ts := s64 unsigned_ts in
  s64 (signed_ts ≪ 8) ≫ 8.

Definition set_posix_timestamp (ts : Z) (d : flex_date_time) : flex_date_time :=
  let uposix_timestamp := u64 ts in
  MkDateTime (u32 uposix_timestamp) (uw 24 (uposix_timestamp ≫ 32))
    (m_tz_15min_offset d) (m_microsecond d).

Definition microsecond (d : flex_date_time) : Z := m_microsecond d.

(** [None]: the exception "Invalid microsecond value". *)
Definition set_microsecond (us : Z) (d : flex_date_time) : option flex_date_time :=
  if (us <? 0) || (MICROSECONDS_PER_SECOND <=? us) then None
  else Some (MkDateTime (m_posix_timestamp_low d) (m_posix_timestamp_high d)
    (m_tz_15min_offset d) us).

Definition time_zone_offset (d : flex_date_time) : Z :=
  if m_tz_15min_offset d <? 0 then m_tz_15min_offset d + LEGACY_TIMEZONE_SHIFT
  else m_tz_15min_offset d - LEGACY_TIMEZONE_SHIFT.

(** [None]: the exception "Invalid timezone value". *)
Definition set_time_zone_offset (tz : Z) (d : flex_date_time) : option flex_date_time :=
  if ((tz <? TIMEZONE_LOW) || (TIMEZONE_HIGH <? tz)) && negb (tz =? EMPTY_TIMEZONE) then None
  else Some (MkDateTime (m_posix_timestamp_low d) (m_posix_timestamp_high d)
    (sw 8 (if tz <? 0 then tz - LEGACY_TIMEZONE_SHIFT else tz + LEGACY_TIMEZONE_SHIFT))
    (m_microsecond d)).

(** The constructor from a timestamp, a time zone and microseconds. *)
Definition make_date_time (ts tz us : Z) : option flex_date_time :=
  d ← set_time_zone_offset tz (set_posix_timestamp ts empty_date_time);
  set_microsecond us d.

Definition shifted_posix_timestamp (d : flex_date_time) : Z :=
  if time_zone_offset d =? EMPTY_TIMEZONE then posix_timestamp d
  else s64 (posix_timestamp d + time_zone_offset d * TIMEZONE_RESOLUTION_IN_SECONDS).

Definition dt_lt (a b : flex_date_time) : bool :=
  (posix_timestamp a <? posix_timestamp b)
  || ((posix_timestamp a =? posix_timestamp b) && (microsecond a <? microsecond b)).
Definition dt_gt (a b : flex_date_time) : bool :=
  (posix_timestamp b <? posix_timestamp a)
  || ((posix_timestamp a =? posix_timestamp b) && (microsecond b <? microsecond a)).
Definition dt_eq (a b : flex_date_time) : bool :=
  (posix_timestamp a =? posix_timestamp b) && (microsecond a =? microsecond b).
Definition dt_identical (a b : flex_date_time) : bool :=
  (posix_timestamp a =? posix_timestamp b) && (time_zone_offset a =? time_zone_offset b)
  && (microsecond a =? microsecond b).

(** The object is written as it lies in memory: 4 + 3 + 1 + 4 bytes. *)
Definition save_date_time (d : flex_date_time) : writer :=
  write_le 4 (m_posix_timestamp_low d) +++ write_le 3 (m_posix_timestamp_high d)
  +++ write_le 1 (u8 (m_tz_15min_offset d)) +++ write_le 4 (u32 (m_microsecond d)).

Definition load_date_time : reader flex_date_time :=
  low ← read_le 4; high ← read_le 3; tz ← read_le 1;
  let tz := sw 8 tz in
  if (- LEGACY_TIMEZONE_SHIFT <? tz) && (tz <? LEGACY_TIMEZONE_SHIFT)
  then rlift (set_time_zone_offset (tz * 2) (MkDateTime low high tz 0))
  else us ← read_le 4; mret (MkDateTime low high tz (sw 32 us)).

(** ** Images *)

Record flex_image := MkImage {
  m_version : Z;
  m_height : Z;
  m_width : Z;
  m_channels : Z;
  m_format : Z;
  m_image_data : list Z;
}.

Definition IMAGE_TYPE_CURRENT_VERSION : Z := 0.
Definition FORMAT_RAW_ARRAY : Z := 2.
Definition FORMAT_UNDEFINED : Z := 3.

Definition empty_image : flex_image :=
  MkImage IMAGE_TYPE_CURRENT_VERSION 0 0 0 FORMAT_UNDEFINED [].

Definition save_image (i : flex_image) : writer :=
  write_le 1 (m_version i) +++ write_le 8 (m_height i) +++ write_le 8 (m_width i)
  +++ write_le 8 (m_channels i) +++ write_le 8 (m_format i)
  +++ write_le 8 (Z.of_nat (length (m_image_data i))) +++ Some (m_image_data i).

Definition load_image : reader flex_image :=
  version ← read_le 1; height ← read_le 8; width ← read_le 8; channels ← read_le 8;
  format ← read_le 8; size ← read_le 8; data ← read (Z.to_nat size);
  mret (MkImage version height width channels format data).

(** ** Values *)

(** A [flex_int] is a signed 64-bit integer, a [flex_float] its bit pattern; the shared
    payloads (string, vector, list, dict, image) are values here, their sharing is the
    subject of FlexRef. *)
#[warnings="-register-all"]
Inductive flexible_type :=
  | FInt (i : Z)
  | FFloat (bits : Z)
  | FString (s : list Z)
  | FVec (v : list Z)
  | FList (l : list flexible_type)
  | FDict (d : list (flexible_type * flexible_type))
  | FDateTime (d : flex_date_time)
  | FUndefined
  | FImage (i : flex_image).

#[global] Instance flex_date_time_eq_dec : EqDecision flex_date_time.
Proof. solve_decision. Defined.

#[global] Instance flex_image_eq_dec : EqDecision flex_image.
Proof. solve_decision. Defined.

(** Structural equality of values; the comparisons of the program are in FlexOps. *)
#[global] Instance flexible_type_eq_dec : EqDecision flexible_type.
Proof.
  refine (fix go v w : Decision (v = w) :=
    match v, w with
    | FInt a, FInt b => cast_if (decide (a = b))
    | FFloat a, FFloat b => cast_if (decide (a = b))
    | FString a, FString b => cast_if (decide (a = b))
    | FVec a, FVec b => cast_if (decide (a = b))
    | FList a, FList b => cast_if (@list_eq_dec _ go a b)
    | FDict a, FDict b => cast_if (@list_eq_dec _ (@prod_eq_dec _ go _ go) a b)
    | FDateTime a, FDateTime b => cast_if (decide (a = b))
    | FUndefined, FUndefined => left eq_refl
    | FImage a, FImage b => cast_if (decide (a = b))
    | _, _ => right _
    end); congruence.
Defined.

Definition get_type (v : flexible_type) : flex_type_enum :=
  match v with
  | FInt _ => INTEGER | FFloat _ => FLOAT | FString _ => STRING | FVec _ => VECTOR
  | FList _ => LIST | FDict _ => DICT | FDateTime _ => DATETIME | FUndefined => UNDEFINED
  | FImage _ => IMAGE
  end.

Definition is_undefined (v : flexible_type) : bool := bool_decide (get_type v = UNDEFINED).

(** [reset(target_type)]; [new flex_date_time(0, 0)] does not fail. *)
Definition reset (target_type : flex_type_enum) : flexible_type :=
  match target_type with
  | INTEGER => FInt 0
  | FLOAT => FFloat 0
  | STRING => FString []
  | VECTOR => FVec []
  | LIST => FList []
  | DICT => FDict []
  | DATETIME => FDateTime (default empty_date_time (make_date_time 0 0 0))
  | UNDEFINED => FUndefined
  | IMAGE => FImage empty_image
  end.

(** [flexible_type()]. *)
Definition default_value : flexible_type := FInt 0.

(** The getters. [get<flex_int>] and [get<flex_float>] read the same 8 bytes of the union,
    which INTEGER and FLOAT may both use; any other use is a failed (debug) assertion. *)
Definition get_flex_int (v : flexible_type) : option Z :=
  match v with FInt i => Some i | FFloat b => Some (s64 b) | _ => None end.
Definition get_flex_float (v : flexible_type) : option Z :=
  match v with FInt i => Some (u64 i) | FFloat b => Some b | _ => None end.
Definition get_flex_string (v : flexible_type) : option (list Z) :=
  match v with FString s => Some s | _ => None end.
Definition get_flex_vec (v : flexible_type) : option (list Z) :=
  match v with FVec l => Some l | _ => None end.

(** [mutable_get<flex_int>() = x]. *)
Definition set_flex_int (x : Z) (v : flexible_type) : option flexible_type :=
  match v with FInt _ => Some (FInt (s64 x)) | FFloat _ => Some (FFloat (u64 x)) | _ => None end.

(** [None]: the exception "Unexpected type!". *)
Definition is_zero (v : flexible_type) : option bool :=
  match v with
  | FInt i => Some (i =? 0)
  | FFloat b => Some (Float64.feq b Float64.pos_zero)
  | FString s => Some (bool_decide (s = []))
  | FVec l => Some (bool_decide (l = []))
  | FList l => Some (match l with [] => true | _ => false end)
  | FDict d => Some (match d with [] => true | _ => false end)
  | FImage i => Some (m_format i =? FORMAT_UNDEFINED)
  | FUndefined => Some true
  | FDateTime _ => None
  end.

Definition is_na (v : flexible_type) : bool :=
  match v with FUndefined => true | FFloat b => Float64.isnan b | _ => false end.

Definition size (v : flexible_type) : nat :=
  match v with FVec l => length l | FList l => length l | FDict d => length d | _ => 1 end.

(** [vector::resize]. *)
Definition vector_resize {A} (n : nat) (x : A) (l : list A) : list A :=
  take n l ++ replicate (n - length l) x.

Definition resize (n : nat) (v : flexible_type) : option flexible_type :=
  match v with
  | FVec l => Some (FVec (vector_resize n 0 l))
  | FList l => Some (FList (vector_resize n default_value l))
  | _ => None
  end.

Definition clear (v : flexible_type) : option flexible_type :=
  match v with
  | FVec _ | FList _ | FDict _ => Some (reset (get_type v))
  | _ => None
  end.

(** [operator[]]: an index out of range is undefined behaviour. *)
Definition index_float (i : nat) (v : flexible_type) : option Z :=
  match v with
  | FVec l => l !! i
  | FFloat b => if (i =? 0)%nat then Some b else None
  | _ => None
  end.

Definition array_at (i : nat) (v : flexible_type) : option flexible_type :=
  match v with FList l => l !! i | _ => None end.

(** ** Binary format *)

Definition save_string (s : list Z) : writer := write_le 8 (Z.of_nat (length s)) +++ Some s.
Definition load_string : reader (list Z) := n ← read_le 8; read (Z.to_nat n).

(** A vector of doubles is written as one block. *)
Definition save_doubles (v : list Z) : writer :=
  write_le 8 (Z.of_nat (length v)) +++ wconcat (write_le 8) v.
Definition load_doubles : reader (list Z) := n ← read_le 8; read_many (Z.to_nat n) (read_le 8).

(** [apply_visitor(serializer)]. *)
Fixpoint serialize (v : flexible_type) : writer :=
  let save v := write_le 1 (128 + enum_code (get_type v)) +++ serialize v in
  match v with
  | FInt i => write_le 8 (u64 i)
  | FFloat b => write_le 8 b
  | FString s => save_string s
  | FVec l => save_doubles l
  | FList l => write_le 8 (Z.of_nat (length l)) +++ wconcat save l
  | FDict d => write_le 8 (Z.of_nat (length d)) +++ wconcat (λ kv, save kv.1 +++ save kv.2) d
  | FDateTime dt => save_date_time dt
  | FUndefined => Some []
  | FImage i => save_image i
  end.

(** [flexible_type::save]. *)
Definition save (v : flexible_type) : writer :=
  write_le 1 (128 + enum_code (get_type v)) +++ serialize v.

(** [apply_mutating_visitor(deserializer)] after [reset(t)]; [load] reads a nested value. *)
Definition deserialize (load : reader flexible_type) (t : flex_type_enum) : reader flexible_type :=
  match t with
  | INTEGER => i ← read_le 8; mret (FInt (s64 i))
  | FLOAT => b ← read_le 8; mret (FFloat b)
  | STRING => s ← load_string; mret (FString s)
  | VECTOR => v ← load_doubles; mret (FVec v)
  | LIST => n ← read_le 8; l ← read_many (Z.to_nat n) load; mret (FList l)
  | DICT =>
      n ← read_le 8;
      d ← read_many (Z.to_nat n) (k ← load; v ← load; mret (k, v));
      mret (FDict d)
  | DATETIME => d ← load_date_time; mret (FDateTime d)
  | UNDEFINED => mret FUndefined
  | IMAGE => i ← load_image; mret (FImage i)
  end.

(** [flexible_type::load]. A tag below 128 was written by the old format, which followed it
    with a 4-byte value that is read and dropped. [fuel] bounds the nesting of lists and
    dicts. A tag that is no type is undefined behaviour. *)
Fixpoint load (fuel : nat) : reader flexible_type :=
  match fuel with
  | O => rfail
  | S fuel' =>
      c ← read_le 1;
      t ← (if c <? 128 then _ ← read_le 4; mret (enum_of_code c)
           else mret (enum_of_code (c - 128)));
      match t with
      | Some t => deserialize (load fuel') t
      | None => rfail
      end
  end.

(** ** Well-formed values *)

(** The time zones of the new format, which the setters produce. *)
Definition valid_date_time (d : flex_date_time) : bool :=
  bool_decide (is_u 32 (m_posix_timestamp_low d)) && bool_decide (is_u 24 (m_posix_timestamp_high d))
  && bool_decide (is_s 8 (m_tz_15min_offset d))
  && negb ((- LEGACY_TIMEZONE_SHIFT <? m_tz_15min_offset d)
           && (m_tz_15min_offset d <? LEGACY_TIMEZONE_SHIFT))
  && bool_decide (is_s 32 (m_microsecond d)).

Definition valid_size {A} (l : list A) : bool := bool_decide (is_u64 (Z.of_nat (length l))).
Definition valid_string (s : list Z) : bool := bool_decide (Forall is_byte s) && valid_size s.
Definition valid_vec (v : list Z) : bool := bool_decide (Forall is_u64 v) && valid_size v.

Definition valid_image (i : flex_image) : bool :=
  bool_decide (is_byte (m_version i)) && bool_decide (is_u64 (m_height i))
  && bool_decide (is_u64 (m_width i)) && bool_decide (is_u64 (m_channels i))
  && bool_decide (is_u64 (m_format i)) && valid_string (m_image_data i).

Fixpoint valid (v : flexible_type) : bool :=
  match v with
  | FInt i => bool_decide (is_s64 i)
  | FFloat b => bool_decide (is_u64 b)
  | FString s => valid_string s
  | FVec l => valid_vec l
  | FList l => forallb valid l && valid_size l
  | FDict d => forallb (λ kv, valid kv.1 && valid kv.2) d && valid_size d
  | FDateTime d => valid_date_time d
  | FUndefined => true
  | FImage i => valid_image i
  end.

(** The nesting of a value. *)
Fixpoint depth (v : flexible_type) : nat :=
  match v with
  | FList l => S (foldr Nat.max O (map depth l))
  | FDict d => S (foldr Nat.max O (map (λ kv, Nat.max (depth kv.1) (depth kv.2)) d))
  | _ => 1%nat
  end.

(** ** Induction on nested values *)

Section flexible_type_induction.
Variable P : flexible_type → Prop.
Hypothesis Hint : ∀ i, P (FInt i).
Hypothesis Hfloat : ∀ b, P (FFloat b).
Hypothesis Hstring : ∀ s, P (FString s).
Hypothesis Hvec : ∀ l, P (FVec l).
Hypothesis Hlist : ∀ l, Forall P l → P (FList l).
Hypothesis Hdict : ∀ d, Forall (λ kv, P kv.1 ∧ P kv.2) d → P (FDict d).
Hypothesis Hdate : ∀ d, P (FDateTime d).
Hypothesis Hundef : P FUndefined.
Hypothesis Himage : ∀ i, P (FImage i).

Fixpoint flexible_type_nested_ind (v : flexible_type) : P v :=
  match v with
  | FInt i => Hint i
  | FFloat b => Hfloat b
  | FString s => Hstring s
  | FVec l => Hvec l
  | FList l =>
      Hlist l ((fix go l : Forall P l :=
        match l with
        | [] => Forall_nil_2 P
        | v :: l => Forall_cons_2 P v l (flexible_type_nested_ind v) (go l)
        end) l)
  | FDict d =>
      Hdict d ((fix go d : Forall (λ kv, P kv.1 ∧ P kv.2) d :=
        match d with
        | [] => Forall_nil_2 _
        | (k, v) :: d => Forall_cons_2 (λ kv, P kv.1 ∧ P kv.2) (k, v) d
            (conj (flexible_type_nested_ind k) (flexible_type_nested_ind v)) (go d)
        end) d)
  | FDateTime d => Hdate d
  | FUndefined => Hundef
  | FImage i => Himage i
  end.
End flexible_type_induction.

(** ** Type codes *)

Lemma enum_of_code_code t : enum_of_code (enum_code t) = Some t.
Proof. by destruct t. Qed.

Lemma enum_code_range t : 0 ≤ enum_code t ≤ 8.
Proof. destruct t; simpl; lia. Qed.

Lemma enum_code_of_code c t : enum_of_code c = Some t → enum_code t = c.
Proof.
  unfold enum_of_code. intros H. by repeat case_match; simplify_eq.
Qed.

Lemma get_type_reset t : get_type (reset t) = t.
Proof. by destruct t. Qed.

(** ** Date-times *)

Lemma u56_split u : is_u64 u →
  u64 (u64 (uw 24 (u ≫ 32) ≪ 32) + u32 u) = uw 56 u.
Proof.
  intros Hu. rewrite Z.shiftr_div_pow2, Z.shiftl_mul_pow2 by lia. unfold uw, is_u in *.
  eval_pow. dlia.
Qed.

(** The timestamp kept is the low 56 bits, sign extended. *)
Lemma posix_timestamp_set ts d : posix_timestamp (set_posix_timestamp ts d) = sw 56 ts.
Proof.
  unfold posix_timestamp, set_posix_timestamp.
  cbn [m_posix_timestamp_high m_posix_timestamp_low].
  rewrite u56_split by auto with sframe lia.
  replace (uw 56 (u64 ts)) with (uw 56 ts).
  2:{ unfold uw. rewrite mod_mod_pow2 by lia. done. }
  rewrite Z.shiftl_mul_pow2, Z.shiftr_div_pow2 by lia.
  pose proof (uw_range 56 ts ltac:(lia)) as Hr. unfold sw.
  set (v := uw 56 ts) in *. clearbody v. unfold is_u, uw in *. eval_pow.
  repeat case_match; dlia.
Qed.

Lemma set_time_zone_eq tz d d' :
  set_time_zone_offset tz d = Some d' →
  (-48 ≤ tz ≤ 48 ∨ tz = 64) ∧
  d' = MkDateTime (m_posix_timestamp_low d) (m_posix_timestamp_high d)
    (if tz <? 0 then tz - 25 else tz + 25) (m_microsecond d).
Proof.
  unfold set_time_zone_offset, TIMEZONE_LOW, TIMEZONE_HIGH, EMPTY_TIMEZONE, LEGACY_TIMEZONE_SHIFT.
  destruct (_ && _) eqn:E; [done|]. intros [= <-].
  assert (-48 ≤ tz ≤ 48 ∨ tz = 64) as Hr.
  { destruct (Z.ltb_spec tz (-12 * 4)), (Z.ltb_spec (12 * 4) tz), (Z.eqb_spec tz 64);
      try discriminate; lia. }
  split; [done|]. f_equal. apply sw_small_at; [lia|]. unfold is_s. eval_pow.
  destruct (Z.ltb_spec tz 0); lia.
Qed.

Lemma time_zone_set tz d d' :
  set_time_zone_offset tz d = Some d' →
  time_zone_offset d' = tz ∧ posix_timestamp d' = posix_timestamp d ∧ microsecond d' = microsecond d.
Proof.
  intros [Hr ->]%set_time_zone_eq. split; [|done].
  unfold time_zone_offset, LEGACY_TIMEZONE_SHIFT. cbn [m_tz_15min_offset].
  destruct (Z.ltb_spec tz 0).
  - destruct (Z.ltb_spec (tz - 25) 0); lia.
  - destruct (Z.ltb_spec (tz + 25) 0); lia.
Qed.

Lemma set_time_zone_valid tz d d' :
  set_time_zone_offset tz d = Some d' →
  is_s 8 (m_tz_15min_offset d') ∧ ¬ (-25 < m_tz_15min_offset d' < 25).
Proof.
  intros [Hr ->]%set_time_zone_eq. cbn [m_tz_15min_offset]. unfold is_s. eval_pow.
  destruct (Z.ltb_spec tz 0); lia.
Qed.

(** The three components of a constructed date-time are the ones given. *)
Lemma make_date_time_spec ts tz us d :
  make_date_time ts tz us = Some d →
  posix_timestamp d = sw 56 ts ∧ time_zone_offset d = tz ∧ microsecond d = us ∧
  valid_date_time d = true.
Proof.
  unfold make_date_time. intros (d1 & H1 & H2)%bind_Some.
  destruct (time_zone_set _ _ _ H1) as (Htz & Hts & _).
  pose proof (set_time_zone_valid _ _ _ H1) as [Hs8 Hnew].
  assert (m_posix_timestamp_low d1 = m_posix_timestamp_low (set_posix_timestamp ts empty_date_time) ∧
    m_posix_timestamp_high d1 = m_posix_timestamp_high (set_posix_timestamp ts empty_date_time))
    as [Hl Hh].
  { revert H1. unfold set_time_zone_offset. case_match; [done|]. by intros [= <-]. }
  unfold set_microsecond, MICROSECONDS_PER_SECOND in H2.
  destruct (Z.ltb_spec us 0), (Z.leb_spec 1000000 us); try discriminate H2. injection H2 as <-.
  split_and!; [|done|done|].
  - change (posix_timestamp (MkDateTime _ _ _ _)) with (posix_timestamp d1).
    by rewrite Hts, posix_timestamp_set.
  - unfold valid_date_time, LEGACY_TIMEZONE_SHIFT.
    cbn [m_posix_timestamp_low m_posix_timestamp_high m_tz_15min_offset m_microsecond].
    rewrite Hl, Hh. cbn [set_posix_timestamp m_posix_timestamp_low m_posix_timestamp_high].
    rewrite !bool_decide_true; [|unfold is_s; eval_pow; lia|done|apply uw_range; lia|apply uw_range; lia].
    destruct (Z.ltb_spec (-25) (m_tz_15min_offset d1)), (Z.ltb_spec (m_tz_15min_offset d1) 25); done || lia.
Qed.

(** Outside the time zone and microsecond ranges the constructor throws, inside it does not. *)
Lemma make_date_time_defined ts tz us :
  is_Some (make_date_time ts tz us) ↔
  (TIMEZONE_LOW ≤ tz ≤ TIMEZONE_HIGH ∨ tz = EMPTY_TIMEZONE) ∧ 0 ≤ us < MICROSECONDS_PER_SECOND.
Proof.
  unfold make_date_time, set_time_zone_offset, set_microsecond, TIMEZONE_LOW, TIMEZONE_HIGH,
    EMPTY_TIMEZONE, MICROSECONDS_PER_SECOND.
  destruct (Z.ltb_spec tz (-12 * 4)), (Z.ltb_spec (12 * 4) tz), (Z.eqb_spec tz 64); cbn [orb andb negb mbind option_bind];
    try (split; [by intros [? ?]|lia]);
    (destruct (Z.ltb_spec us 0), (Z.leb_spec 1000000 us); cbn [orb];
      [split; [by intros [? ?]|lia].. |split; [lia|by eauto]]).
Qed.

(** ** Round trips *)

Lemma encodes_s8 x : is_s 8 x → encodes (write_le 1 (u8 x)) (tz ← read_le 1; mret (sw 8 tz)) x.
Proof.
  intros Hx. rewrite <- (sw_small_at 8 x) at 2 by (lia || done). rewrite <- sw_uw_at.
  apply encodes_map. apply encodes_le. by apply uw_range.
Qed.

#[global] Instance date_time_round_trip :
  RoundTrip (λ d, valid_date_time d = true) save_date_time (λ _, load_date_time).
Proof.
  intros [low high tz us]. unfold valid_date_time, save_date_time, load_date_time.
  cbn [m_posix_timestamp_low m_posix_timestamp_high m_tz_15min_offset m_microsecond].
  rewrite !andb_true_iff, !bool_decide_eq_true, negb_true_iff.
  intros [[[[Hl Hh] Htz] Hnew] Hus].
  apply encodes_bind with (a := low); [by apply encodes_le|].
  apply encodes_bind with (a := high); [by apply encodes_le|].
  apply encodes_bind with (a := u8 tz); [apply encodes_le, uw_range; lia|].
  rewrite sw_uw_at, (sw_small_at 8 tz) by (lia || done). rewrite Hnew.
  rewrite <- (sw_small_at 32 us) at 2 by (lia || done). rewrite <- sw_uw_at.
  apply (encodes_map _ _ (λ us, MkDateTime low high tz (sw 32 us))).
  apply encodes_le. by apply uw_range.
Qed.

#[global] Instance image_round_trip :
  RoundTrip (λ i, valid_image i = true) save_image (λ _, load_image).
Proof.
  intros [v h w c f data]. unfold valid_image, save_image, load_image, valid_string, valid_size.
  cbn [m_version m_height m_width m_channels m_format m_image_data].
  rewrite !andb_true_iff, !bool_decide_eq_true.
  intros [[[[[Hv Hh] Hw] Hc] Hf] [Hd Hs]].
  apply encodes_bind with (a := v); [by apply encodes_le|].
  apply encodes_bind with (a := h); [by apply encodes_le|].
  apply encodes_bind with (a := w); [by apply encodes_le|].
  apply encodes_bind with (a := c); [by apply encodes_le|].
  apply encodes_bind with (a := f); [by apply encodes_le|].
  apply encodes_bind with (a := Z.of_nat (length data)); [by apply encodes_le|].
  rewrite Nat2Z.id. apply encodes_map. apply encodes_read.
Qed.

#[global] Instance string_round_trip :
  RoundTrip (λ s, valid_string s = true) save_string (λ _, load_string).
Proof.
  intros s. unfold valid_string, valid_size. rewrite !andb_true_iff, !bool_decide_eq_true.
  intros [_ Hs]. apply encodes_bind with (a := Z.of_nat (length s)); [by apply encodes_le|].
  rewrite Nat2Z.id. apply encodes_read.
Qed.

(** A length followed by that many elements. *)
Lemma encodes_counted {A} (enc : A → writer) (dec : reader A) (l : list A) :
  valid_size l = true → Forall (λ a, encodes (enc a) dec a) l →
  encodes (write_le 8 (Z.of_nat (length l)) +++ wconcat enc l)
    (n ← read_le 8; read_many (Z.to_nat n) dec) l.
Proof.
  unfold valid_size. rewrite bool_decide_eq_true. intros Hs Hl.
  apply encodes_bind with (a := Z.of_nat (length l)); [by apply encodes_le|].
  rewrite Nat2Z.id. by apply encodes_many.
Qed.

#[global] Instance doubles_round_trip :
  RoundTrip (λ v, valid_vec v = true) save_doubles (λ _, load_doubles).
Proof.
  intros v. unfold valid_vec. rewrite andb_true_iff, bool_decide_eq_true. intros [Hv Hs].
  apply encodes_counted; [done|]. eapply Forall_impl; [done|]. intros. by apply encodes_le.
Qed.

Lemma save_unfold v : save v = write_le 1 (128 + enum_code (get_type v)) +++ serialize v.
Proof. done. Qed.

Lemma encodes_tag w ty v rec :
  encodes w (deserialize rec ty) v →
  encodes (write_le 1 (128 + enum_code ty) +++ w)
    (c ← read_le 1;
      t ← (if c <? 128 then _ ← read_le 4; mret (enum_of_code c)
           else mret (enum_of_code (c - 128)));
      match t with Some t => deserialize rec t | None => rfail end) v.
Proof.
  intros Hw. pose proof (enum_code_range ty).
  apply encodes_bind with (a := 128 + enum_code ty).
  { apply encodes_le. unfold is_u. eval_pow. change (8 * Z.of_nat 1) with 8. eval_pow. lia. }
  destruct (Z.ltb_spec (128 + enum_code ty) 128); [lia|].
  replace (128 + enum_code ty - 128) with (enum_code ty) by lia. rewrite enum_of_code_code.
  exact Hw.
Qed.

Lemma foldr_max_le {A} (f : A → nat) (l : list A) n :
  (foldr Nat.max O (map f l) ≤ n)%nat → Forall (λ a, f a ≤ n)%nat l.
Proof. induction l as [|a l IH]; simpl; intros; constructor; [|apply IH]; lia. Qed.

Lemma depth_pos v : (1 ≤ depth v)%nat.
Proof. destruct v; simpl; lia. Qed.

(** The contents of a value are read back, when the fuel covers the nesting below it. *)
Lemma deserialize_serialize v fuel :
  valid v = true → (depth v ≤ S fuel)%nat →
  encodes (serialize v) (deserialize (load fuel) (get_type v)) v.
Proof.
  revert fuel. induction v as [i|b|s|l|l IH|d IH|dt| |i] using flexible_type_nested_ind;
    intros fuel Hv Hd; cbn [get_type deserialize serialize]; cbn [valid] in Hv.
  - apply bool_decide_eq_true in Hv. rewrite <- (sw_small i) at 2 by done. rewrite <- sw_uw.
    apply (encodes_map _ _ (λ i, FInt (s64 i))). apply encodes_le. by apply uw_range.
  - apply bool_decide_eq_true in Hv. apply encodes_map. by apply encodes_le.
  - apply encodes_map. by apply string_round_trip.
  - apply encodes_map. by apply doubles_round_trip.
  - apply andb_true_iff in Hv as [Hv Hs]. simpl in Hd. apply le_S_n, foldr_max_le in Hd.
    apply (encodes_bind _ _ _ _ (Z.of_nat (length l))).
    { apply encodes_le. by apply bool_decide_eq_true in Hs. }
    apply encodes_map. rewrite Nat2Z.id. apply encodes_many.
    rewrite forallb_forall in Hv. rewrite Forall_forall in IH, Hd |- *.
    intros v Hin. specialize (Hd v Hin). destruct fuel as [|fuel]; [pose proof (depth_pos v); lia|].
    apply encodes_tag. apply IH; [done| |done]. by apply Hv, list_elem_of_In.
  - apply andb_true_iff in Hv as [Hv Hs]. simpl in Hd. apply le_S_n, foldr_max_le in Hd.
    apply (encodes_bind _ _ _ _ (Z.of_nat (length d))).
    { apply encodes_le. by apply bool_decide_eq_true in Hs. }
    apply encodes_map. rewrite Nat2Z.id. apply encodes_many.
    rewrite forallb_forall in Hv. rewrite Forall_forall in IH, Hd |- *.
    intros [k v] Hin. specialize (Hd _ Hin). destruct (IH _ Hin) as [IHk IHv].
    assert (valid k && valid v = true) as [Hk Hv']%andb_true_iff by (by apply (Hv (k, v)), list_elem_of_In).
    cbn [fst snd] in *. destruct fuel as [|fuel]; [pose proof (depth_pos k); lia|].
    apply encodes_bind with (a := k).
    { apply encodes_tag. apply IHk; [done|lia]. }
    apply encodes_map. apply encodes_tag. apply IHv; [done|lia].
  - apply encodes_map. by apply date_time_round_trip.
  - apply encodes_ret.
  - apply encodes_map. by apply image_round_trip.
Qed.

(** What is saved is loaded back, when the fuel covers the nesting of the value. *)
Lemma load_save v fuel :
  valid v = true → (depth v ≤ fuel)%nat → encodes (save v) (load fuel) v.
Proof.
  intros Hv Hd. destruct fuel as [|fuel]; [pose proof (depth_pos v); lia|].
  apply encodes_tag. by apply deserialize_serialize.
Qed.

(** The tag of the old format reads as the tag of the new one. *)
Lemma load_legacy ty fuel tag rest :
  length tag = 4%nat →
  load (S fuel) (enum_code ty :: tag ++ rest) = load (S fuel) (128 + enum_code ty :: rest).
Proof.
  intros Ht. pose proof (enum_code_range ty). cbn [load].
  assert (∀ c s, read_le 1 (c :: s) = Some (c, s)) as Hr.
  { intros c s. unfold read_le. change (c :: s) with ([c] ++ s). rewrite read_bind by done.
    cbn. by rewrite Z.add_0_r. }
  rewrite !(reader_bind_Some _ _ _ _ _ (Hr _ _)).
  destruct (Z.ltb_spec (enum_code ty) 128); [|lia].
  destruct (Z.ltb_spec (128 + enum_code ty) 128); [lia|].
  replace (128 + enum_code ty - 128) with (enum_code ty) by lia. rewrite enum_of_code_code.
  rewrite (reader_bind_Some _ _ (tag ++ rest) (Some ty) rest); [done|].
  unfold read_le. rewrite (reader_bind_Some _ _ _ (le_num tag) rest); [done|].
  by rewrite read_bind by done.
Qed.

(** The 8 bytes of an old date-time, in half hours, are read as the same instant. *)
Lemma load_legacy_date_time low high tz rest :
  is_u 32 low → is_u 24 high → -24 ≤ tz ≤ 24 →
  ∃ d, load_date_time (le_bytes 4 low ++ le_bytes 3 high ++ le_bytes 1 (u8 tz) ++ rest) = Some (d, rest) ∧
    posix_timestamp d = posix_timestamp (MkDateTime low high tz 0) ∧
    time_zone_offset d = 2 * tz ∧ microsecond d = 0.
Proof.
  intros Hl Hh Htz. unfold load_date_time.
  destruct (encodes_le 4 low Hl) as (? & [= <-] & E1). destruct (encodes_le 3 high Hh) as (? & [= <-] & E2).
  destruct (encodes_le 1 (u8 tz)) as (? & [= <-] & E3); [by apply uw_range|].
  rewrite (reader_bind_Some _ _ _ _ _ (E1 _)), (reader_bind_Some _ _ _ _ _ (E2 _)),
    (reader_bind_Some _ _ _ _ _ (E3 _)).
  rewrite sw_uw_at, sw_small_at by (lia || (unfold is_s; eval_pow; lia)). unfold LEGACY_TIMEZONE_SHIFT.
  destruct (Z.ltb_spec (- (25)) tz), (Z.ltb_spec tz 25); try lia. cbn [andb].
  unfold rlift. set (d0 := MkDateTime low high tz 0).
  destruct (set_time_zone_offset (tz * 2) d0) as [d|] eqn:E.
  - exists d. destruct (time_zone_set _ _ _ E) as (-> & -> & ->). split_and!; [done|done|lia|done].
  - exfalso. revert E. unfold set_time_zone_offset, TIMEZONE_LOW, TIMEZONE_HIGH.
    destruct (Z.ltb_spec (tz * 2) (-12 * 4)), (Z.ltb_spec (12 * 4) (tz * 2)); try lia. done.
Qed.

(** ** Order of date-times *)

Lemma dt_trichotomy a b :
  (dt_lt a b = true ∧ dt_eq a b = false ∧ dt_gt a b = false) ∨
  (dt_lt a b = false ∧ dt_eq a b = true ∧ dt_gt a b = false) ∨
  (dt_lt a b = false ∧ dt_eq a b = false ∧ dt_gt a b = true).
Proof.
  unfold dt_lt, dt_gt, dt_eq. generalize (posix_timestamp a) (posix_timestamp b)
    (microsecond a) (microsecond b). intros p q x y.
  destruct (Z.ltb_spec p q), (Z.ltb_spec q p), (Z.eqb_spec p q),
    (Z.ltb_spec x y), (Z.ltb_spec y x), (Z.eqb_spec x y); cbn; auto; lia.
Qed.

Lemma dt_lt_trans a b c : dt_lt a b = true → dt_lt b c = true → dt_lt a c = true.
Proof.
  unfold dt_lt. rewrite !orb_true_iff, !andb_true_iff, !Z.ltb_lt, !Z.eqb_eq. lia.
Qed.

End FlexType.
