(* ===== verification/FlexRef.v ===== *)
(** The sharing of the payloads of [flexible_type]: reference counts and copy on write
    (src/oss_src/flexible_type/flexible_type.hpp, [ensure_unique], [incref], [decref], the
    assignment operators, [reset] and the mutable getters).

    A [flexible_type] object is a handle; strings, vectors, lists, dicts and images are cells
    of a store with a reference count. The contents of a cell are a value of FlexType: the
    handles inside a list or a dict are not tracked. *)
From S2P Require Import Prelude Float64 FlexType.
Import FlexType.
Local Open Scope Z_scope.

Module FlexRef.

Abbreviation loc := nat.
Abbreviation var := nat.

(** The union and its [stored_type]: an immediate value, or a pointer. *)
Inductive handle :=
  | Imm (v : flexible_type)
  | Ref (stored_type : flex_type_enum) (l : loc).

Definition handle_type (h : handle) : flex_type_enum :=
  match h with Imm v => get_type v | Ref t _ => t end.

(** The objects that exist, and the cells they share. *)
Record store := MkStore {
  objects : gmap var handle;
  cells : gmap loc (nat * flexible_type);
}.

(** The types whose payload is a cell. *)
Definition shared_type (t : flex_type_enum) : bool :=
  match t with STRING | VECTOR | LIST | DICT | IMAGE => true | _ => false end.

(** ** Reference counts *)

(** A decrement to zero deletes the cell. [None]: a dangling pointer. *)
Definition decref (h : handle) (cs : gmap loc (nat * flexible_type))
    : option (gmap loc (nat * flexible_type)) :=
  match h with
  | Imm _ => Some cs
  | Ref _ l =>
      '(n, p) ← cs !! l;
      let n := (n - 1)%nat in
      Some (if (n =? 0)%nat then delete l cs else <[l := (n, p)]> cs)
  end.

Definition incref (h : handle) (cs : gmap loc (nat * flexible_type))
    : option (gmap loc (nat * flexible_type)) :=
  match h with
  | Imm _ => Some cs
  | Ref _ l => '(n, p) ← cs !! l; Some (<[l := (S n, p)]> cs)
  end.

(** [new std::pair<atomic<size_t>, T>] with count 1. *)
Definition new_cell (p : flexible_type) (cs : gmap loc (nat * flexible_type))
    : loc * gmap loc (nat * flexible_type) :=
  let l := fresh (dom cs) in (l, <[l := (1%nat, p)]> cs).

(** ** Operations on objects *)

(** [operator=(const flexible_type&)]. *)
Definition assign (x y : var) (s : store) : option store :=
  if decide (x = y) then Some s
  else
    old ← objects s !! x;
    h ← objects s !! y;
    cs ← decref old (cells s);
    cs ← incref h cs;
    Some (MkStore (<[x := h]> (objects s)) cs).

(** What a moved-from union reads as an INTEGER: the bits are left in place. *)
Section moved.
Variable leftover : handle → Z.

(** [operator=(flexible_type&&)]. *)
Definition assign_move (x y : var) (s : store) : option store :=
  if decide (x = y) then Some s
  else
    old ← objects s !! x;
    h ← objects s !! y;
    cs ← decref old (cells s);
    Some (MkStore (<[y := Imm (FInt (leftover h))]> (<[x := h]> (objects s))) cs).
End moved.

(** [reset(target_type)]. *)
Definition reset_to (t : flex_type_enum) (x : var) (s : store) : option store :=
  old ← objects s !! x;
  cs ← decref old (cells s);
  if shared_type t then
    let '(l, cs) := new_cell (reset t) cs in
    Some (MkStore (<[x := Ref t l]> (objects s)) cs)
  else Some (MkStore (<[x := Imm (reset t)]> (objects s)) cs).

(** [flexible_type()]: a new object. *)
Definition construct (x : var) (s : store) : option store :=
  match objects s !! x with
  | Some _ => None
  | None => Some (MkStore (<[x := Imm default_value]> (objects s)) (cells s))
  end.

(** [~flexible_type()]. *)
Definition destroy (x : var) (s : store) : option store :=
  old ← objects s !! x;
  cs ← decref old (cells s);
  Some (MkStore (delete x (objects s)) cs).

(** A cell referenced once is left alone, otherwise the object gets a copy of its own. *)
Definition ensure_unique (x : var) (s : store) : option store :=
  h ← objects s !! x;
  match h with
  | Imm _ => Some s
  | Ref t l =>
      '(n, p) ← cells s !! l;
      if (n =? 1)%nat then Some s
      else
        let '(l', cs) := new_cell p (cells s) in
        cs ← decref h cs;
        Some (MkStore (<[x := Ref t l']> (objects s)) cs)
  end.

(** A change of the contents through [mutable_get]. *)
Definition mutate (f : flexible_type → flexible_type) (x : var) (s : store) : option store :=
  s ← ensure_unique x s;
  h ← objects s !! x;
  match h with
  | Imm v => Some (MkStore (<[x := Imm (f v)]> (objects s)) (cells s))
  | Ref _ l => '(n, p) ← cells s !! l; Some (MkStore (objects s) (<[l := (n, f p)]> (cells s)))
  end.

(** [get]: the value of an object. *)
Definition handle_value (cs : gmap loc (nat * flexible_type)) (h : handle) : option flexible_type :=
  match h with
  | Imm v => Some v
  | Ref _ l => '(_, p) ← cs !! l; Some p
  end.

Definition value (s : store) (x : var) : option flexible_type :=
  objects s !! x ≫= handle_value (cells s).

(** ** Invariant: the counts are the numbers of handles *)

Definition loc_of (h : handle) : option loc := match h with Imm _ => None | Ref _ l => Some l end.
Definition at_loc (l : loc) (h : handle) : nat := if decide (loc_of h = Some l) then 1 else 0.
Definition refs (objs : gmap var handle) (l : loc) : nat :=
  map_fold (λ _ h n, (at_loc l h + n)%nat) 0%nat objs.
Definition count (cs : gmap loc (nat * flexible_type)) (l : loc) : nat :=
  match cs !! l with Some (n, _) => n | None => 0 end.

(** A handle points at a cell of its type. *)
Definition points (cs : gmap loc (nat * flexible_type)) (h : handle) : Prop :=
  match h with
  | Imm v => shared_type (get_type v) = false
  | Ref t l => ∃ n p, cs !! l = Some (n, p) ∧ get_type p = t
  end.

Record inv (s : store) : Prop := {
  inv_count : ∀ l, count (cells s) l = refs (objects s) l;
  inv_live : ∀ l n p, cells s !! l = Some (n, p) → (0 < n)%nat;
  inv_points : ∀ x h, objects s !! x = Some h → points (cells s) h;
}.

(** ** Counting *)

Lemma refs_insert objs x h l :
  objs !! x = None → refs (<[x := h]> objs) l = (at_loc l h + refs objs l)%nat.
Proof.
  intros Hx. unfold refs. rewrite map_fold_insert_L; [done|intros; lia|done].
Qed.

Lemma refs_lookup objs x h l :
  objs !! x = Some h → refs objs l = (at_loc l h + refs (delete x objs) l)%nat.
Proof.
  intros Hx. rewrite <- refs_insert with (x := x) by apply lookup_delete_eq.
  by rewrite insert_delete_id.
Qed.

Lemma refs_update objs x h0 h l :
  objs !! x = Some h0 →
  (refs (<[x := h]> objs) l + at_loc l h0 = refs objs l + at_loc l h)%nat.
Proof.
  intros Hx. rewrite (refs_lookup objs x h0 l Hx), <- insert_delete_eq.
  rewrite refs_insert by apply lookup_delete_eq. lia.
Qed.

Lemma at_loc_ref t l l' : at_loc l' (Ref t l) = if decide (l = l') then 1%nat else 0%nat.
Proof. unfold at_loc. cbn. by destruct (decide (l = l')), (decide (Some l = Some l')); simplify_eq. Qed.

Lemma at_loc_imm v l : at_loc l (Imm v) = 0%nat.
Proof. unfold at_loc. by rewrite decide_False. Qed.

Lemma refs_positive objs x t l : objs !! x = Some (Ref t l) → (0 < refs objs l)%nat.
Proof.
  intros Hx. rewrite (refs_lookup _ _ _ _ Hx), at_loc_ref. rewrite decide_True by done. lia.
Qed.

Lemma refs_exists objs l : (0 < refs objs l)%nat → ∃ x t, objs !! x = Some (Ref t l).
Proof.
  induction objs as [|x h objs Hx IH] using map_ind.
  - unfold refs. rewrite map_fold_empty. lia.
  - rewrite refs_insert by done. unfold at_loc. case_decide as Hl.
    + intros _. destruct h as [v|t l']; [done|]. injection Hl as ->. exists x, t. by rewrite lookup_insert_eq.
    + cbn. intros Hn. destruct (IH Hn) as (y & t & Hy). exists y, t.
      rewrite lookup_insert_ne; [done|]. intros <-. by rewrite Hx in Hy.
Qed.

(** ** What the count operations do *)

Lemma decref_spec h cs :
  points cs h → (∀ l n p, cs !! l = Some (n, p) → (0 < n)%nat) →
  ∃ cs', decref h cs = Some cs' ∧
    (∀ l, (count cs' l + at_loc l h = count cs l)%nat) ∧
    (∀ l n p, cs' !! l = Some (n, p) → (0 < n)%nat ∧ ∃ m, cs !! l = Some (m, p)) ∧
    (∀ l n p, cs !! l = Some (n, p) → (at_loc l h < n)%nat → ∃ m, cs' !! l = Some (m, p)).
Proof.
  intros Hp Hlive. destruct h as [v|t l0].
  { exists cs. split_and!; [done| | |eauto].
    - intros l. unfold at_loc. cbn. rewrite Nat.add_0_r. done.
    - intros l n p Hl. split; [by eapply Hlive|eauto]. }
  destruct Hp as (n0 & p0 & Hl0 & _). pose proof (Hlive _ _ _ Hl0). unfold decref. rewrite Hl0.
  cbn [mbind option_bind]. 
  set (cs' := if (n0 - 1 =? 0)%nat then delete l0 cs else <[l0 := ((n0 - 1)%nat, p0)]> cs).
  exists cs'. split; [done|].
  assert (∀ l, cs' !! l = if decide (l0 = l) then
    if decide (n0 = 1%nat) then None else Some ((n0 - 1)%nat, p0) else cs !! l) as Hlk.
  { intros l. unfold cs'. destruct (Nat.eqb_spec (n0 - 1) 0), (decide (n0 = 1%nat)); try lia;
      (destruct (decide (l0 = l)) as [<-|];
        [by rewrite ?lookup_delete_eq, ?lookup_insert_eq
        |by rewrite ?lookup_delete_ne, ?lookup_insert_ne by done]). }
  clearbody cs'. split_and!; intros l.
  - unfold count. rewrite Hlk, at_loc_ref. destruct (decide (l0 = l)) as [<-|]; [|lia].
    rewrite Hl0. destruct (decide (n0 = 1%nat)); lia.
  - intros n p. rewrite Hlk. destruct (decide (l0 = l)) as [<-|].
    + destruct (decide (n0 = 1%nat)); intros; simplify_eq. split; [lia|eauto].
    + intros Hn. split; [by eapply Hlive|eauto].
  - intros n p Hn. rewrite Hlk, at_loc_ref. destruct (decide (l0 = l)) as [<-|]; [|eauto].
    rewrite Hl0 in Hn. injection Hn as <- <-. intros. destruct (decide (n0 = 1%nat)); [lia|eauto].
Qed.

Lemma incref_spec h cs :
  points cs h →
  ∃ cs', incref h cs = Some cs' ∧
    (∀ l, count cs' l = (count cs l + at_loc l h)%nat) ∧
    (∀ l n p, cs' !! l = Some (n, p) → ∃ m, cs !! l = Some (m, p) ∧ (m ≤ n)%nat) ∧
    (∀ l n p, cs !! l = Some (n, p) → ∃ m, cs' !! l = Some (m, p) ∧ (n ≤ m)%nat).
Proof.
  intros Hp. destruct h as [v|t l0].
  { exists cs. split_and!; [done| |eauto|eauto]. intros l. unfold at_loc. cbn. rewrite Nat.add_0_r. done. }
  destruct Hp as (n0 & p0 & Hl0 & _). unfold incref. rewrite Hl0. cbn [mbind option_bind].
  set (cs' := <[l0 := (S n0, p0)]> cs).
  exists cs'. split; [done|].
  assert (∀ l, cs' !! l = if decide (l0 = l) then Some (S n0, p0) else cs !! l) as Hlk.
  { intros l. unfold cs'. destruct (decide (l0 = l)) as [<-|];
      [by rewrite lookup_insert_eq|by rewrite lookup_insert_ne by done]. }
  clearbody cs'. split_and!; intros l.
  - unfold count. rewrite Hlk, at_loc_ref. destruct (decide (l0 = l)) as [<-|]; [|lia]. rewrite Hl0. lia.
  - intros n p. rewrite Hlk. destruct (decide (l0 = l)) as [<-|]; [|eauto].
    intros; simplify_eq. exists n0. split; [done|lia].
  - intros n p Hn. rewrite Hlk. destruct (decide (l0 = l)) as [<-|]; [|eauto].
    rewrite Hl0 in Hn. injection Hn as <- <-. exists (S n0). split; [done|lia].
Qed.

Lemma decref_other h cs cs' l :
  decref h cs = Some cs' → loc_of h ≠ Some l → cs' !! l = cs !! l.
Proof.
  destruct h as [v|t l0]; [by intros [= ->]|]. unfold decref. intros Hd Hne.
  assert (l0 ≠ l) by (intros ->; by apply Hne).
  destruct (cs !! l0) as [[n p]|]; [|done]. cbn [mbind option_bind] in Hd. injection Hd as <-.
  destruct (n - 1 =? 0)%nat; [by rewrite lookup_delete_ne|by rewrite lookup_insert_ne].
Qed.

(** ** Handles that keep their value *)

(** [h] has the same value, of its type, in [cs'] as in [cs]. *)
Definition kept (cs cs' : gmap loc (nat * flexible_type)) (h : handle) : Prop :=
  points cs' h ∧ handle_value cs' h = handle_value cs h.

Lemma kept_trans cs1 cs2 cs3 h : kept cs1 cs2 h → kept cs2 cs3 h → kept cs1 cs3 h.
Proof. intros [_ E1] [H E2]. split; [done|congruence]. Qed.

Lemma kept_lookup cs cs' h :
  points cs h →
  (∀ l n p, loc_of h = Some l → cs !! l = Some (n, p) → ∃ m, cs' !! l = Some (m, p)) →
  kept cs cs' h.
Proof.
  intros Hp Hk. destruct h as [v|t l]; [done|]. destruct Hp as (n & p & Hl & Ht).
  destruct (Hk l n p eq_refl Hl) as [m Hm]. split; [by exists m, p|].
  unfold handle_value. by rewrite Hl, Hm.
Qed.

Lemma refs_two objs x z h0 h l : x ≠ z → objs !! x = Some h0 → objs !! z = Some h →
  (at_loc l h0 + at_loc l h ≤ refs objs l)%nat.
Proof.
  intros Hne Hx Hz. rewrite (refs_lookup _ _ _ l Hx), (refs_lookup (delete x objs) z h l).
  - lia.
  - by rewrite lookup_delete_ne.
Qed.

(** Dropping the handle of one object keeps every other. *)
Lemma decref_keeps objs cs x h0 :
  objs !! x = Some h0 → points cs h0 → (∀ l n p, cs !! l = Some (n, p) → (0 < n)%nat) →
  (∀ l, (refs objs l ≤ count cs l)%nat) →
  ∃ cs', decref h0 cs = Some cs' ∧
    (∀ l, (count cs' l + at_loc l h0 = count cs l)%nat) ∧
    (∀ l n p, cs' !! l = Some (n, p) → (0 < n)%nat) ∧
    ∀ z h, z ≠ x → objs !! z = Some h → points cs h → kept cs cs' h.
Proof.
  intros Hx Hp Hlive Hc. destruct (decref_spec h0 cs Hp Hlive) as (cs' & Hd & Hcount & Hsub & Hkeep).
  exists cs'. split_and!; [done|done|by intros ? ? ? [? _]%Hsub|].
  intros z h Hne Hz Hpz. apply kept_lookup; [done|]. intros l n p Hl Hcl. apply (Hkeep l n p Hcl).
  pose proof (refs_two objs x z h0 h l ltac:(done) Hx Hz) as H2. specialize (Hc l).
  unfold count in Hc. rewrite Hcl in Hc.
  assert (at_loc l h = 1%nat) as H1 by (unfold at_loc; by rewrite decide_True). lia.
Qed.

Lemma incref_keeps cs h : points cs h →
  ∃ cs', incref h cs = Some cs' ∧ (∀ l, count cs' l = (count cs l + at_loc l h)%nat) ∧
    ((∀ l n p, cs !! l = Some (n, p) → (0 < n)%nat) →
     ∀ l n p, cs' !! l = Some (n, p) → (0 < n)%nat) ∧
    ∀ h', points cs h' → kept cs cs' h'.
Proof.
  intros Hp. destruct (incref_spec h cs Hp) as (cs' & Hi & Hc & Hsub & Hkeep).
  exists cs'. split_and!; [done|done| |].
  - intros Hlive l n p (m & Hm & Hle)%Hsub. specialize (Hlive _ _ _ Hm). lia.
  - intros h' Hp'. apply kept_lookup; [done|]. intros l n p _ (m & Hm & _)%Hkeep. eauto.
Qed.

Lemma new_cell_keeps p cs l cs' : new_cell p cs = (l, cs') →
  cs' !! l = Some (1%nat, p) ∧ (∀ k, count cs' k = (count cs k + if decide (l = k) then 1 else 0)%nat) ∧
  ((∀ l n p, cs !! l = Some (n, p) → (0 < n)%nat) →
   ∀ l n p, cs' !! l = Some (n, p) → (0 < n)%nat) ∧
  (∀ h', points cs h' → kept cs cs' h' ∧ loc_of h' ≠ Some l).
Proof.
  unfold new_cell. intros [= <- <-]. set (l := fresh (dom cs)).
  assert (cs !! l = None) as Hl by (apply not_elem_of_dom, is_fresh).
  split_and!.
  - apply lookup_insert_eq.
  - intros k. unfold count. destruct (decide (l = k)) as [<-|].
    + by rewrite lookup_insert_eq, Hl.
    + rewrite lookup_insert_ne by done. lia.
  - intros Hlive k n q. destruct (decide (l = k)) as [<-|].
    + rewrite lookup_insert_eq. intros; simplify_eq. lia.
    + rewrite lookup_insert_ne by done. apply Hlive.
  - intros h' Hp. assert (loc_of h' ≠ Some l) as Hne.
    { destruct h' as [v|t k]; [done|]. destruct Hp as (n & q & Hk & _). cbn. congruence. }
    split; [|done]. apply kept_lookup; [done|]. intros k n q Hk Hc. exists n.
    rewrite lookup_insert_ne; [done|]. congruence.
Qed.

(** ** The operations *)

(** The objects other than [x] have the same value. *)
Definition others_kept (x : var) (s s' : store) : Prop :=
  ∀ z, z ≠ x → value s' z = value s z.

Lemma inv_decref s x h0 : inv s → objects s !! x = Some h0 →
  ∃ cs', decref h0 (cells s) = Some cs' ∧
    (∀ l, (count cs' l + at_loc l h0 = refs (objects s) l)%nat) ∧
    (∀ l n p, cs' !! l = Some (n, p) → (0 < n)%nat) ∧
    ∀ z h, z ≠ x → objects s !! z = Some h → kept (cells s) cs' h.
Proof.
  intros [Hc Hl Hp] Hx. destruct (decref_keeps (objects s) (cells s) x h0 Hx (Hp _ _ Hx) Hl)
    as (cs' & Hd & Hcount & Hlive & Hk); [intros l; by rewrite Hc|].
  exists cs'. split_and!; [done| |done|].
  - intros l. by rewrite Hcount, Hc.
  - intros z h Hne Hz. by apply (Hk z); [..|eapply Hp].
Qed.

(** A store with the handle of [x] replaced by [h], whose cells keep the other handles. *)
Lemma inv_replace s x h0 h cs' :
  inv s → objects s !! x = Some h0 → points cs' h →
  (∀ l, (count cs' l + at_loc l h0 = refs (objects s) l + at_loc l h)%nat) →
  (∀ l n p, cs' !! l = Some (n, p) → (0 < n)%nat) →
  (∀ z hz, z ≠ x → objects s !! z = Some hz → kept (cells s) cs' hz) →
  inv (MkStore (<[x := h]> (objects s)) cs') ∧
  others_kept x s (MkStore (<[x := h]> (objects s)) cs') ∧
  value (MkStore (<[x := h]> (objects s)) cs') x = handle_value cs' h.
Proof.
  intros Hinv Hx Hp Hc Hlive Hk. split_and!.
  - split; cbn [objects cells]; [|done|].
    + intros l. pose proof (refs_update (objects s) x h0 h l Hx). specialize (Hc l). lia.
    + intros z hz. destruct (decide (x = z)) as [<-|Hne].
      * rewrite lookup_insert_eq. by intros [= <-].
      * rewrite lookup_insert_ne by done. intros Hz. by apply (Hk z).
  - intros z Hne. unfold value. cbn [objects cells]. rewrite lookup_insert_ne by done.
    destruct (objects s !! z) as [hz|] eqn:Hz; [|done]. cbn. by apply (Hk z).
  - unfold value. cbn [objects cells]. by rewrite lookup_insert_eq.
Qed.

(** Copying a value: the target has it, nothing else changes. *)
Lemma assign_spec x y s :
  inv s → is_Some (objects s !! x) → is_Some (objects s !! y) →
  ∃ s', assign x y s = Some s' ∧ inv s' ∧ value s' x = value s y ∧ others_kept x s s'.
Proof.
  intros Hinv [h0 Hx] [h Hy]. unfold assign. destruct (decide (x = y)) as [<-|Hne].
  { exists s. split_and!; [done|done|done|]. by intros z _. }
  rewrite Hx, Hy. cbn [mbind option_bind].
  destruct (inv_decref s x h0 Hinv Hx) as (cs1 & -> & Hc1 & Hl1 & Hk1). cbn [mbind option_bind].
  destruct (Hk1 y h ltac:(done) Hy) as [Hp1 Hv1].
  destruct (incref_keeps cs1 h Hp1) as (cs2 & -> & Hc2 & Hl2 & Hk2). cbn [mbind option_bind].
  destruct (inv_replace s x h0 h cs2) as (Hi & Ho & Hval); try done.
  - by apply (Hk2 h).
  - intros l. rewrite Hc2. specialize (Hc1 l). lia.
  - by apply Hl2.
  - intros z hz Hz Hzl. destruct (Hk1 z hz Hz Hzl) as [Hp Hv]. eapply kept_trans; [by apply (Hk1 z)|by apply Hk2].
  - eexists. split_and!; [done|done| |done]. rewrite Hval. unfold value. rewrite Hy. cbn.
    rewrite <- Hv1. by apply Hk2.
Qed.

(** [reset] gives a fresh value of the type. *)
Lemma reset_spec t x s :
  inv s → is_Some (objects s !! x) →
  ∃ s', reset_to t x s = Some s' ∧ inv s' ∧ value s' x = Some (reset t) ∧ others_kept x s s'.
Proof.
  intros Hinv [h0 Hx]. unfold reset_to. rewrite Hx. cbn [mbind option_bind].
  destruct (inv_decref s x h0 Hinv Hx) as (cs1 & -> & Hc1 & Hl1 & Hk1). cbn [mbind option_bind].
  destruct (shared_type t) eqn:Ht.
  - destruct (new_cell (reset t) cs1) as [l cs2] eqn:Hn.
    apply new_cell_keeps in Hn as (Hl & Hc2 & Hl2 & Hk2).
    destruct (inv_replace s x h0 (Ref t l) cs2) as (Hi & Ho & Hval); try done.
    + exists 1%nat, (reset t). split; [done|apply get_type_reset].
    + intros k. rewrite Hc2, at_loc_ref. specialize (Hc1 k). lia.
    + by apply Hl2.
    + intros z hz Hz Hzl. eapply kept_trans; [by apply (Hk1 z)|]. apply Hk2. by apply (Hk1 z).
    + eexists. split_and!; [done|done| |done]. rewrite Hval. cbn. by rewrite Hl.
  - destruct (inv_replace s x h0 (Imm (reset t)) cs1) as (Hi & Ho & Hval); try done.
    + cbn. by rewrite get_type_reset.
    + intros l. specialize (Hc1 l). rewrite at_loc_imm. lia.
    + by eexists.
Qed.

(** Destroying an object drops its reference and keeps the others. *)
Lemma destroy_spec x s :
  inv s → is_Some (objects s !! x) →
  ∃ s', destroy x s = Some s' ∧ inv s' ∧ value s' x = None ∧ others_kept x s s'.
Proof.
  intros Hinv [h0 Hx]. unfold destroy. rewrite Hx. cbn [mbind option_bind].
  destruct (inv_decref s x h0 Hinv Hx) as (cs1 & -> & Hc1 & Hl1 & Hk1). cbn [mbind option_bind].
  eexists. split; [done|]. split_and!.
  - split; cbn [objects cells]; [|done|].
    + intros l. specialize (Hc1 l). rewrite (refs_lookup _ _ _ l Hx) in Hc1. lia.
    + intros z hz. destruct (decide (x = z)) as [<-|Hne]; [by rewrite lookup_delete_eq|].
      rewrite lookup_delete_ne by done. intros Hz. by apply (Hk1 z).
  - unfold value. cbn [objects cells]. by rewrite lookup_delete_eq.
  - intros z Hne. unfold value. cbn [objects cells]. rewrite lookup_delete_ne by done.
    destruct (objects s !! z) as [hz|] eqn:Hz; [|done]. cbn. by apply (Hk1 z).
Qed.

Lemma construct_spec x s :
  inv s → objects s !! x = None →
  ∃ s', construct x s = Some s' ∧ inv s' ∧ value s' x = Some default_value ∧ others_kept x s s'.
Proof.
  intros [Hc Hl Hp] Hx. unfold construct. rewrite Hx. eexists. split; [done|]. split_and!.
  - split; cbn [objects cells]; [|done|].
    + intros l. rewrite refs_insert by done. rewrite Hc. done.
    + intros z hz. destruct (decide (x = z)) as [<-|].
      * rewrite lookup_insert_eq. by intros [= <-].
      * rewrite lookup_insert_ne by done. apply Hp.
  - unfold value. cbn [objects cells]. by rewrite lookup_insert_eq.
  - intros z Hne. unfold value. cbn [objects cells]. by rewrite lookup_insert_ne.
Qed.

(** [ensure_unique] changes no value and leaves the object alone with its cell. *)
Lemma ensure_unique_spec x s :
  inv s → is_Some (objects s !! x) →
  ∃ s', ensure_unique x s = Some s' ∧ inv s' ∧ (∀ z, value s' z = value s z) ∧
    (∃ h, objects s' !! x = Some h ∧ ∀ l, loc_of h = Some l → refs (objects s') l = 1%nat).
Proof.
  intros Hinv [h Hx]. unfold ensure_unique. rewrite Hx. cbn [mbind option_bind].
  destruct h as [v|t l]; [by exists s; split_and!; [..|exists (Imm v)]|].
  destruct (inv_points s Hinv x _ Hx) as (n & p & Hl & Hty). rewrite Hl. cbn [mbind option_bind].
  pose proof (inv_count s Hinv l) as Hcl. unfold count in Hcl. rewrite Hl in Hcl.
  destruct (Nat.eqb_spec n 1) as [->|Hn1].
  { exists s. split_and!; [done|done|done|]. exists (Ref t l). split; [done|]. by intros ? [= <-]. }
  destruct (new_cell p (cells s)) as [l' cs1] eqn:Hnew.
  apply new_cell_keeps in Hnew as (Hl' & Hc1 & Hl1 & Hk1). specialize (Hl1 (inv_live s Hinv)).
  pose proof (inv_points s Hinv x _ Hx) as Hpx.
  destruct (Hk1 _ Hpx) as [[Hp1 _] Hne].
  destruct (decref_keeps (objects s) cs1 x (Ref t l) Hx Hp1 Hl1) as (cs2 & Hd & Hc2 & Hl2 & Hk2).
  { intros k. rewrite Hc1, (inv_count s Hinv). lia. }
  rewrite Hd. cbn [mbind option_bind].
  assert (l ≠ l') as Hll by (intros ->; by apply Hne).
  assert (cs2 !! l' = Some (1%nat, p)) as Hcs2.
  { rewrite (decref_other _ _ _ l' Hd); [done|]. cbn. congruence. }
  destruct (inv_replace s x (Ref t l) (Ref t l') cs2) as (Hi & Ho & Hval); try done.
  - by exists 1%nat, p.
  - intros k. rewrite Hc2, Hc1, (inv_count s Hinv), (at_loc_ref t l'). lia.
  - intros z hz Hz Hzl. pose proof (inv_points s Hinv z _ Hzl) as Hpz.
    destruct (Hk1 _ Hpz) as [Hk1z _]. eapply kept_trans; [exact Hk1z|]. apply (Hk2 z); [done|done|apply Hk1z].
  - eexists. split_and!; [done|done| |].
    + intros z. destruct (decide (z = x)) as [->|]; [|by apply Ho].
      rewrite Hval. unfold value. rewrite Hx. cbn. by rewrite Hl, Hcs2.
    + exists (Ref t l'). cbn [objects cells]. split; [apply lookup_insert_eq|].
      intros k [= <-]. pose proof (inv_count _ Hi l') as Hcount. cbn [objects cells] in Hcount.
      rewrite <- Hcount. unfold count. by rewrite Hcs2.
Qed.

(** A change through [mutable_get] reaches no other object. *)
Lemma mutate_spec f x s v :
  inv s → value s x = Some v → get_type (f v) = get_type v →
  ∃ s', mutate f x s = Some s' ∧ inv s' ∧ value s' x = Some (f v) ∧ others_kept x s s'.
Proof.
  intros Hinv Hv Hty. assert (is_Some (objects s !! x)) as Hx.
  { unfold value in Hv. destruct (objects s !! x); [by eexists|done]. }
  destruct (ensure_unique_spec x s Hinv Hx) as (s1 & Hs1 & Hi1 & Hv1 & h & Hh & Hu).
  unfold mutate. rewrite Hs1. cbn [mbind option_bind]. rewrite Hh. cbn [mbind option_bind].
  rewrite <- Hv1 in Hv. unfold value in Hv. rewrite Hh in Hv. cbn [mbind option_bind] in Hv.
  pose proof (inv_points s1 Hi1 x h Hh) as Hp. destruct h as [w|t l].
  - cbn [handle_value] in Hv. injection Hv as ->. cbn [points] in Hp.
    destruct (inv_replace s1 x (Imm v) (Imm (f v)) (cells s1)) as (Hi & Ho & Hval); try done.
    + cbn. by rewrite Hty.
    + intros l. by rewrite !at_loc_imm, (inv_count s1 Hi1).
    + apply (inv_live s1 Hi1).
    + intros z hz _ Hz. split; [by apply (inv_points s1 Hi1 z)|done].
    + eexists. split_and!; [done|done|done|]. intros z Hz. rewrite <- Hv1. by apply Ho.
  - destruct Hp as (n & p & Hl & Hpt). unfold handle_value in Hv. rewrite Hl in Hv |- *. injection Hv as ->.
    cbn [mbind option_bind]. specialize (Hu l eq_refl).
    assert (∀ z hz, z ≠ x → objects s1 !! z = Some hz → loc_of hz ≠ Some l) as Hfree.
    { intros z hz Hne Hz Hloc. pose proof (refs_two (objects s1) x z _ _ l ltac:(done) Hh Hz) as H2.
      rewrite at_loc_ref, decide_True in H2 by done.
      assert (at_loc l hz = 1%nat) as H1 by (unfold at_loc; by rewrite decide_True). lia. }
    eexists. split; [done|].
    rewrite <- (insert_id (objects s1) x (Ref t l) Hh) at 1.
    destruct (inv_replace s1 x (Ref t l) (Ref t l) (<[l := (n, f v)]> (cells s1)))
      as (Hi & Ho & Hval); try done.
    + exists n, (f v). rewrite lookup_insert_eq. split; [done|congruence].
    + intros k. rewrite <- (inv_count s1 Hi1). unfold count.
      destruct (decide (l = k)) as [<-|]; [by rewrite lookup_insert_eq, Hl|by rewrite lookup_insert_ne].
    + intros k m q. destruct (decide (l = k)) as [<-|].
      * rewrite lookup_insert_eq. intros [= <- <-]. by apply (inv_live s1 Hi1 l n v).
      * rewrite lookup_insert_ne by done. apply (inv_live s1 Hi1).
    + intros z hz Hne Hz. apply kept_lookup; [by apply (inv_points s1 Hi1 z)|].
      intros k m q Hk Hcell. exists m. rewrite lookup_insert_ne; [done|].
      intros <-. by apply (Hfree z hz Hne Hz).
    + rewrite (insert_id (objects s1) x (Ref t l) Hh) in Hi, Ho, Hval |- *.
      split_and!; [done| |].
      * rewrite Hval. cbn. by rewrite lookup_insert_eq.
      * intros z Hz. rewrite <- Hv1. by apply Ho.
Qed.

(** After a mutation the object is alone with its payload. *)
Lemma mutate_alone f x s s' h l :
  inv s → mutate f x s = Some s' → objects s' !! x = Some h → loc_of h = Some l →
  refs (objects s') l = 1%nat.
Proof.
  intros Hi Hm Hh Hl. unfold mutate in Hm.
  destruct (objects s !! x) as [h0|] eqn:Hx; [|unfold ensure_unique in Hm; by rewrite Hx in Hm].
  destruct (ensure_unique_spec x s Hi) as (s1 & He & _ & _ & h1 & Hh1 & Hu); [by eexists|].
  rewrite He in Hm. cbn [mbind option_bind] in Hm. rewrite Hh1 in Hm. cbn [mbind option_bind] in Hm.
  destruct h1 as [v|t k].
  - injection Hm as <-. cbn [objects] in Hh. rewrite lookup_insert_eq in Hh. by injection Hh as <-.
  - destruct (cells s1 !! k) as [[n p]|]; [|done]. injection Hm as <-. cbn [objects] in *.
    rewrite Hh1 in Hh. injection Hh as <-. by apply Hu.
Qed.

(** Moving hands the reference over: no count changes but the one of the overwritten value. *)
Lemma assign_move_spec leftover x y s :
  inv s → x ≠ y → is_Some (objects s !! x) → is_Some (objects s !! y) →
  ∃ s', assign_move leftover x y s = Some s' ∧ inv s' ∧ value s' x = value s y ∧
    (∃ n, value s' y = Some (FInt n)) ∧ ∀ z, z ≠ x → z ≠ y → value s' z = value s z.
Proof.
  intros Hinv Hne [h0 Hx] [h Hy]. unfold assign_move. rewrite decide_False by done.
  rewrite Hx, Hy. cbn [mbind option_bind].
  destruct (inv_decref s x h0 Hinv Hx) as (cs1 & -> & Hc1 & Hl1 & Hk1). cbn [mbind option_bind].
  destruct (Hk1 y h ltac:(done) Hy) as [Hp1 Hv1].
  eexists. split; [done|]. split_and!.
  - split; cbn [objects cells]; [|done|].
    + intros l. specialize (Hc1 l).
      pose proof (refs_update (objects s) x h0 h l Hx).
      pose proof (refs_update (<[x:=h]> (objects s)) y h (Imm (FInt (leftover h))) l
        ltac:(by rewrite lookup_insert_ne)) as H2.
      rewrite at_loc_imm in H2. lia.
    + intros z hz. destruct (decide (y = z)) as [<-|]; [rewrite lookup_insert_eq; by intros [= <-]|].
      rewrite lookup_insert_ne by done.
      destruct (decide (x = z)) as [<-|]; [rewrite lookup_insert_eq; by intros [= <-]|].
      rewrite lookup_insert_ne by done. intros Hz. by apply (Hk1 z).
  - unfold value. cbn [objects cells]. rewrite lookup_insert_ne, lookup_insert_eq by done.
    rewrite Hy. cbn. done.
  - exists (leftover h). unfold value. cbn [objects cells]. by rewrite lookup_insert_eq.
  - intros z Hzx Hzy. unfold value. cbn [objects cells]. rewrite !lookup_insert_ne by done.
    destruct (objects s !! z) as [hz|] eqn:Hz; [|done]. cbn. by apply (Hk1 z).
Qed.

(** ** Refinement: objects behave as independent values *)

(** The operations a program applies to its objects. *)
Inductive command :=
  | Construct (x : var)
  | Assign (x y : var)
  | AssignMove (x y : var)
  | ResetTo (t : flex_type_enum) (x : var)
  | Mutate (f : flexible_type → flexible_type) (x : var)
  | Destroy (x : var).

Section refinement.
Variable leftover : handle → Z.

Definition exec (c : command) (s : store) : option store :=
  match c with
  | Construct x => construct x s
  | Assign x y => assign x y s
  | AssignMove x y => assign_move leftover x y s
  | ResetTo t x => reset_to t x s
  | Mutate f x => mutate f x s
  | Destroy x => destroy x s
  end.

Fixpoint run (cs : list command) (s : store) : option store :=
  match cs with [] => Some s | c :: cs => exec c s ≫= run cs end.
End refinement.

(** The specification has no sharing: every object is a value of its own. [z] is the integer a
    moved-from object reads, [None] a command that the code may not be given. *)
Definition spec_exec (z : Z) (c : command) (m : gmap var flexible_type)
    : option (gmap var flexible_type) :=
  match c with
  | Construct x => match m !! x with Some _ => None | None => Some (<[x := default_value]> m) end
  | Assign x y => _ ← m !! x; v ← m !! y; Some (<[x := v]> m)
  | AssignMove x y =>
      _ ← m !! x; v ← m !! y;
      Some (if decide (x = y) then m else <[y := FInt z]> (<[x := v]> m))
  | ResetTo t x => _ ← m !! x; Some (<[x := reset t]> m)
  | Mutate f x =>
      v ← m !! x; if decide (get_type (f v) = get_type v) then Some (<[x := f v]> m) else None
  | Destroy x => _ ← m !! x; Some (delete x m)
  end.

Fixpoint spec_run (zs : list Z) (cs : list command) (m : gmap var flexible_type)
    : option (gmap var flexible_type) :=
  match zs, cs with
  | z :: zs, c :: cs => spec_exec z c m ≫= spec_run zs cs
  | _, _ => Some m
  end.

(** The commands are allowed whatever the moved-from objects read. *)
Definition allowed (cs : list command) (m : gmap var flexible_type) : Prop :=
  ∀ zs, length zs = length cs → is_Some (spec_run zs cs m).

Definition represents (s : store) (m : gmap var flexible_type) : Prop :=
  inv s ∧ ∀ x, value s x = m !! x.

Definition empty_store : store := MkStore ∅ ∅.

Lemma represents_empty : represents empty_store ∅.
Proof.
  split; [|done]. split; cbn; [|intros l n p H; by rewrite lookup_empty in H
    |intros x h H; by rewrite lookup_empty in H].
  intros l. unfold count, refs. by rewrite lookup_empty, map_fold_empty.
Qed.

Lemma represents_object s m x v : represents s m → m !! x = Some v → is_Some (objects s !! x).
Proof.
  intros [_ Hv] Hx. rewrite <- Hv in Hx. unfold value in Hx. destruct (objects s !! x); [by eexists|done].
Qed.

Lemma represents_no_object s m x : represents s m → m !! x = None → objects s !! x = None.
Proof.
  intros [Hi Hv] Hx. rewrite <- Hv in Hx. unfold value in Hx.
  destruct (objects s !! x) as [h|] eqn:Hh; [|done].
  pose proof (inv_points s Hi x h Hh) as Hp. destruct h as [v|t l]; [done|].
  destruct Hp as (n & p & Hl & _). cbn in Hx. by rewrite Hl in Hx.
Qed.

Lemma represents_insert s m s' x v :
  represents s m → inv s' → value s' x = Some v → others_kept x s s' → represents s' (<[x := v]> m).
Proof.
  intros [_ Hv] Hi Hx Ho. split; [done|]. intros z. destruct (decide (x = z)) as [<-|Hne].
  - by rewrite lookup_insert_eq.
  - rewrite lookup_insert_ne by done. rewrite <- Hv. by apply Ho.
Qed.

(** Each command of the code is the command of the specification. *)
Lemma exec_refines leftover c s m :
  represents s m → (∀ z, is_Some (spec_exec z c m)) →
  ∃ s' z m', exec leftover c s = Some s' ∧ spec_exec z c m = Some m' ∧ represents s' m'.
Proof.
  intros Hr Hok. pose proof Hr as [Hi Hv]. specialize (Hok 0) as [m0 Hm0].
  destruct c as [x|x y|x y|t x|f x|x]; cbn [exec spec_exec] in *.
  - destruct (m !! x) as [v|] eqn:Hx; [done|].
    destruct (construct_spec x s Hi) as (s' & He & Hi' & Hx' & Ho); [by eapply represents_no_object|].
    exists s', 0, (<[x := default_value]> m). by eauto using represents_insert.
  - destruct (m !! x) as [w|] eqn:Hx; [|done]. destruct (m !! y) as [v|] eqn:Hy; [|done].
    destruct (assign_spec x y s Hi) as (s' & He & Hi' & Hx' & Ho); [by eapply represents_object..|].
    rewrite Hv, Hy in Hx'. exists s', 0, (<[x := v]> m). by eauto using represents_insert.
  - destruct (m !! x) as [w|] eqn:Hx; [|done]. destruct (m !! y) as [v|] eqn:Hy; [|done].
    cbn [mbind option_bind]. destruct (decide (x = y)) as [<-|Hne].
    { exists s, 0, m. unfold assign_move. rewrite decide_True by done. done. }
    destruct (assign_move_spec leftover x y s Hi Hne) as (s' & He & Hi' & Hx' & (n & Hn) & Ho);
      [by eapply represents_object..|].
    exists s', n. eexists. split_and!; [done|done|]. split; [done|]. intros z.
    destruct (decide (y = z)) as [<-|Hy']; [by rewrite lookup_insert_eq|].
    rewrite lookup_insert_ne by done. destruct (decide (x = z)) as [<-|Hx''].
    + rewrite lookup_insert_eq. by rewrite Hx', Hv.
    + rewrite lookup_insert_ne by done. rewrite <- Hv. by apply Ho.
  - destruct (m !! x) as [w|] eqn:Hx; [|done].
    destruct (reset_spec t x s Hi) as (s' & He & Hi' & Hx' & Ho); [by eapply represents_object|].
    exists s', 0, (<[x := reset t]> m). by eauto using represents_insert.
  - destruct (m !! x) as [v|] eqn:Hx; [|done]. cbn [mbind option_bind] in *. 
    case_decide as Hty; [|done].
    destruct (mutate_spec f x s v Hi) as (s' & He & Hi' & Hx' & Ho); [by rewrite Hv|done|].
    exists s', 0, (<[x := f v]> m). by eauto using represents_insert.
  - destruct (m !! x) as [w|] eqn:Hx; [|done].
    destruct (destroy_spec x s Hi) as (s' & He & Hi' & Hx' & Ho); [by eapply represents_object|].
    exists s', 0, (delete x m). split_and!; [done|done|]. split; [done|]. intros z.
    destruct (decide (x = z)) as [<-|Hne]; [by rewrite lookup_delete_eq|].
    rewrite lookup_delete_ne by done. rewrite <- Hv. by apply Ho.
Qed.

Lemma allowed_cons c cs m : allowed (c :: cs) m →
  (∀ z, is_Some (spec_exec z c m)) ∧ ∀ z m', spec_exec z c m = Some m' → allowed cs m'.
Proof.
  intros H. split.
  - intros z. destruct (H (replicate (S (length cs)) z)) as [m' Hm']; [apply length_replicate|].
    cbn in Hm'. destruct (spec_exec z c m); [by eexists|done].
  - intros z m' Hz zs Hl. destruct (H (z :: zs)) as [m'' Hm'']; [cbn; by rewrite Hl|].
    cbn in Hm''. rewrite Hz in Hm''. by eexists.
Qed.

Lemma run_refines leftover cs s m :
  represents s m → allowed cs m →
  ∃ s' zs m', run leftover cs s = Some s' ∧ length zs = length cs ∧
    spec_run zs cs m = Some m' ∧ represents s' m'.
Proof.
  revert s m. induction cs as [|c cs IH]; intros s m Hr Ha; [by exists s, [], m|].
  apply allowed_cons in Ha as [Hc Hcs].
  destruct (exec_refines leftover c s m Hr Hc) as (s1 & z & m1 & He & Hs & Hr1).
  destruct (IH s1 m1 Hr1 (Hcs z m1 Hs)) as (s' & zs & m' & Hrun & Hl & Hspec & Hr').
  exists s', (z :: zs), m'. cbn [run spec_run length]. rewrite He, Hs, Hl. done.
Qed.

(** A cell exists exactly as long as an object refers to it. *)
Lemma inv_no_leak s l : inv s → is_Some (cells s !! l) ↔ ∃ x t, objects s !! x = Some (Ref t l).
Proof.
  intros Hi. split.
  - intros [[n p] Hl]. pose proof (inv_live s Hi l n p Hl) as Hn. pose proof (inv_count s Hi l) as Hc.
    unfold count in Hc. rewrite Hl in Hc. destruct (refs_exists (objects s) l) as (x & t & Hx); [lia|eauto].
  - intros (x & t & Hx). destruct (inv_points s Hi x _ Hx) as (n & p & Hl & _). by eexists.
Qed.

End FlexRef.
