(* ===== verification/FlexOps.v ===== *)
(** The operators of [flexible_type]: comparison, equality, arithmetic, conversion and
    assignment between types (src/oss_src/flexible_type/flexible_type_detail.hpp and
    flexible_type.cpp), and the tables that announce which of them are supported
    (flexible_type_base_types.hpp). *)
From S2P Require Import Prelude Float64 FloatArith FlexType.
Import Float64 FloatArith FlexType.
Local Open Scope Z_scope.
Local Open Scope sframe_scope.

Module FlexOps.

(** ** Outcomes *)

(** [Throw]: the exception of [FLEX_TYPE_ASSERT] or of a setter. [Trap]: an integer division
    that the machine traps. *)
Inductive outcome (A : Type) : Type := Ok (a : A) | Throw | Trap.
Arguments Ok {A} a.
Arguments Throw {A}.
Arguments Trap {A}.

#[global] Instance outcome_ret : MRet outcome := @Ok.
#[global] Instance outcome_bind : MBind outcome := λ A B f m,
  match m with Ok a => f a | Throw => Throw | Trap => Trap end.
#[global] Instance outcome_fmap : FMap outcome := λ A B f m,
  match m with Ok a => Ok (f a) | Throw => Throw | Trap => Trap end.

Definition or_throw {A} (o : option A) : outcome A := match o with Some a => Ok a | None => Throw end.
Definition outcome_option {A} (o : outcome A) : option A :=
  match o with Ok a => Some a | _ => None end.

Fixpoint outcome_map {A B} (f : A → outcome B) (l : list A) : outcome (list B) :=
  match l with
  | [] => Ok []
  | x :: l => y ← f x; ys ← outcome_map f l; Ok (y :: ys)
  end.

(** ** Time stamps with microseconds *)

Section float_conversion.
(** What the implementation makes of a [double] that does not fit the integer type. *)
Context (oob oob32 : Z → Z).

Definition f2i32 (b : Z) : Z :=
  let v := f2i oob b in if bool_decide (is_s 32 v) then v else oob32 b.

Definition microsecond_res_timestamp (d : flex_date_time) : Z :=
  fadd (i2f (posix_timestamp d)) (fdiv (i2f (microsecond d)) (i2f MICROSECONDS_PER_SECOND)).

Definition set_microsecond_res_timestamp (d : Z) (dt : flex_date_time) : option flex_date_time :=
  let integral_part := f2i oob (ffloor d) in
  let us := f2i32 (fmul (fsub d (i2f integral_part)) (i2f MICROSECONDS_PER_SECOND)) in
  let us := Z.min us (MICROSECONDS_PER_SECOND - 1) in
  set_microsecond us (set_posix_timestamp integral_part dt).

(** [flex_date_time(ts)]. *)
Definition date_time_of (ts : Z) : option flex_date_time := make_date_time ts EMPTY_TIMEZONE 0.
End float_conversion.

Definition MICROSECOND_EPSILON : Z := fdiv (i2f 1) (i2f (2 * MICROSECONDS_PER_SECOND)).

(** ** Order *)

(** [std::string]'s [<]: bytes compared as unsigned characters. *)
Fixpoint string_lt (t u : list Z) : bool :=
  match t, u with
  | _, [] => false
  | [], _ :: _ => true
  | a :: t, b :: u => (a <? b) || ((a =? b) && string_lt t u)
  end.

(** The loops over two vectors of [lt_operator] and [gt_operator]. *)
Fixpoint vec_lt (t u : list Z) : bool :=
  match t, u with
  | [], _ => negb (bool_decide (u = []))
  | _, [] => false
  | a :: t, b :: u => if fgt a b then false else if flt a b then true else vec_lt t u
  end.

Fixpoint vec_gt (t u : list Z) : bool :=
  match t, u with
  | [], _ => false
  | _, [] => true
  | a :: t, b :: u => if fgt a b then true else if flt a b then false else vec_gt t u
  end.

(** [operator<] and [operator>]: the elements of lists are compared with both. *)
Fixpoint lt_operator (t u : flexible_type) : outcome bool :=
  match t, u with
  | FFloat t, FFloat u => Ok (flt t u)
  | FInt t, FInt u => Ok (t <? u)
  | FDateTime t, FInt u => Ok (posix_timestamp t <? u)
  | FInt t, FDateTime u => Ok (t <? posix_timestamp u)
  | FDateTime t, FFloat u => Ok (flt (microsecond_res_timestamp t) u)
  | FFloat t, FDateTime u => Ok (flt t (microsecond_res_timestamp u))
  | FDateTime t, FDateTime u => Ok (dt_lt t u)
  | FInt t, FFloat u => Ok (flt (i2f t) u)
  | FFloat t, FInt u => Ok (flt t (i2f u))
  | FString t, FString u => Ok (string_lt t u)
  | FVec t, FVec u => Ok (vec_lt t u)
  | FList t, FList u =>
      (fix loop (t u : list flexible_type) : outcome bool :=
        match t, u with
        | [], u => Ok (match u with [] => false | _ => true end)
        | _ :: _, [] => Ok false
        | a :: t, b :: u =>
            g ← gt_operator a b;
            if (g : bool) then Ok false
            else l ← lt_operator a b; if (l : bool) then Ok true else loop t u
        end) t u
  | _, _ => Throw
  end

with gt_operator (t u : flexible_type) : outcome bool :=
  match t, u with
  | FFloat t, FFloat u => Ok (fgt t u)
  | FDateTime t, FInt u => Ok (u <? posix_timestamp t)
  | FInt t, FDateTime u => Ok (posix_timestamp u <? t)
  | FDateTime t, FFloat u => Ok (fgt (microsecond_res_timestamp t) u)
  | FFloat t, FDateTime u => Ok (fgt t (microsecond_res_timestamp u))
  | FDateTime t, FDateTime u => Ok (dt_gt t u)
  | FInt t, FInt u => Ok (u <? t)
  | FInt t, FFloat u => Ok (fgt (i2f t) u)
  | FFloat t, FInt u => Ok (fgt t (i2f u))
  | FString t, FString u => Ok (string_lt u t)
  | FVec t, FVec u => Ok (vec_gt t u)
  | FList t, FList u =>
      (fix loop (t u : list flexible_type) : outcome bool :=
        match t, u with
        | [], _ => Ok false
        | _ :: _, [] => Ok true
        | a :: t, b :: u =>
            g ← gt_operator a b;
            if (g : bool) then Ok true
            else l ← lt_operator a b; if (l : bool) then Ok false else loop t u
        end) t u
  | _, _ => Throw
  end.

(** ** Equality *)

Definition string_eq (t u : list Z) : bool := bool_decide (t = u).

(** The vector loop: sizes, then [!=] on each pair. *)
Fixpoint vec_eq (t u : list Z) : bool :=
  match t, u with
  | [], [] => true
  | a :: t, b :: u => feq a b && vec_eq t u
  | _, _ => false
  end.

Definition date_time_eq_int (d : flex_date_time) (n : Z) : bool :=
  (posix_timestamp d =? n) && (microsecond d =? 0).

Section equality.
(** [std::hash<flexible_type>], which the hash tables of the dict comparison use. *)
Context (hash : flexible_type → Z).

(** [approx_equal], also [operator==]. Two dicts are compared as [std::unordered_multimap]s:
    for every key of the first, the entries with that key in both are permutations of each
    other, as [std::is_permutation] counts them. *)
Fixpoint approx_equality_operator (t u : flexible_type) : bool :=
  match t, u with
  | FUndefined, FUndefined => true
  | FDateTime t, FDateTime u => dt_eq t u
  | FDateTime t, FInt u => date_time_eq_int t u
  | FInt t, FDateTime u => date_time_eq_int u t
  | FDateTime t, FFloat u =>
      flt (fabs (fsub (microsecond_res_timestamp t) u)) MICROSECOND_EPSILON
  | FFloat t, FDateTime u =>
      flt (fabs (fsub t (microsecond_res_timestamp u))) MICROSECOND_EPSILON
  | FInt t, FInt u => t =? u
  | FFloat t, FFloat u => (isnan t && isnan u) || feq t u
  | FInt t, FFloat u => feq (i2f t) u
  | FFloat t, FInt u => feq t (i2f u)
  | FString t, FString u => string_eq t u
  | FVec t, FVec u => vec_eq t u
  | FDict t, FDict u =>
      (length t =? length u)%nat &&
      forallb (λ x,
        let same_key y := (hash x.1 =? hash y.1) && approx_equality_operator x.1 y.1 in
        let same y := same_key y && approx_equality_operator x.2 y.2 in
        (length (List.filter same_key t) =? length (List.filter same_key u))%nat &&
        (length (List.filter same t) =? length (List.filter same u))%nat) t
  | FList t, FList u =>
      (fix loop (t u : list flexible_type) : bool :=
        match t, u with
        | [], [] => true
        | a :: t, b :: u => approx_equality_operator a b && loop t u
        | _, _ => false
        end) t u
  | _, _ => false
  end.

(** [identical]; lists and dicts are compared with [==] of their elements, in order. *)
Definition equality_operator (t u : flexible_type) : bool :=
  match t, u with
  | FDateTime t, FDateTime u => dt_eq t u
  | FDateTime t, FInt u => date_time_eq_int t u
  | FInt t, FDateTime u => date_time_eq_int u t
  | FDateTime t, FFloat u =>
      flt (fabs (fsub (microsecond_res_timestamp t) u)) MICROSECOND_EPSILON
  | FFloat t, FDateTime u =>
      flt (fabs (fsub t (microsecond_res_timestamp u))) MICROSECOND_EPSILON
  | FInt t, FInt u => t =? u
  | FFloat t, FFloat u => feq t u
  | FString t, FString u => string_eq t u
  | FVec t, FVec u => vec_eq t u
  | FDict t, FDict u =>
      (length t =? length u)%nat &&
      forallb (λ xy, approx_equality_operator xy.1.1 xy.2.1 && approx_equality_operator xy.1.2 xy.2.2)
        (combine t u)
  | FList t, FList u =>
      (length t =? length u)%nat && forallb (λ xy, approx_equality_operator xy.1 xy.2) (combine t u)
  | FUndefined, FUndefined => true
  | _, _ => false
  end.

(** [operator<=] and [operator>=]. *)
Definition le_operator (t u : flexible_type) : outcome bool :=
  l ← lt_operator t u; Ok (l || approx_equality_operator t u).
Definition ge_operator (t u : flexible_type) : outcome bool :=
  g ← gt_operator t u; Ok (g || approx_equality_operator t u).

(** [erase(index)]: the first entry of a dict with that key. *)
Fixpoint erase_first (index : flexible_type) (d : list (flexible_type * flexible_type)) :=
  match d with
  | [] => []
  | x :: d => if approx_equality_operator x.1 index then d else x :: erase_first index d
  end.
Definition erase (index v : flexible_type) : outcome flexible_type :=
  match v with FDict d => Ok (FDict (erase_first index d)) | _ => Throw end.

(** [dict_at(s)]: the value of the first entry with that key. *)
Fixpoint find_first (s : flexible_type) (d : list (flexible_type * flexible_type))
    : outcome flexible_type :=
  match d with
  | [] => Throw
  | x :: d => if approx_equality_operator x.1 s then Ok x.2 else find_first s d
  end.
Definition dict_at (s v : flexible_type) : outcome flexible_type :=
  match v with FDict d => find_first s d | _ => Throw end.
End equality.

(** ** Arithmetic *)

(** Integer arithmetic wraps around at 64 bits. *)
Definition int_div (a b : Z) : outcome Z :=
  if (b =? 0) || ((a =? - 2 ^ 63) && (b =? -1)) then Trap else Ok (Z.quot a b).
Definition int_mod (a b : Z) : outcome Z :=
  if (b =? 0) || ((a =? - 2 ^ 63) && (b =? -1)) then Trap else Ok (Z.rem a b).

Definition negation_operator (t : flexible_type) : outcome flexible_type :=
  match t with
  | FInt t => Ok (FInt (s64 (- t)))
  | FFloat t => Ok (FFloat (fneg t))
  | FVec t => Ok (FVec (map fneg t))
  | _ => Throw
  end.

Definition increment_operator (t : flexible_type) : outcome flexible_type :=
  match t with
  | FInt t => Ok (FInt (s64 (t + 1)))
  | FFloat t => Ok (FFloat (fadd t (i2f 1)))
  | _ => Throw
  end.

Definition decrement_operator (t : flexible_type) : outcome flexible_type :=
  match t with
  | FInt t => Ok (FInt (s64 (t - 1)))
  | FFloat t => Ok (FFloat (fsub t (i2f 1)))
  | _ => Throw
  end.

(** The three vector cases shared by the compound assignments. *)
Definition vec_op (op : Z → Z → Z) (t : list Z) (u : flexible_type) : outcome flexible_type :=
  match u with
  | FVec u => if (length t =? length u)%nat then Ok (FVec (zip_with op t u)) else Throw
  | FInt u => Ok (FVec (map (λ x, op x (i2f u)) t))
  | FFloat u => Ok (FVec (map (λ x, op x u) t))
  | _ => Throw
  end.

Section arithmetic.
Context (oob oob32 : Z → Z).

(** The seconds and the microseconds of a [double] offset. *)
Definition split_seconds (u : Z) : Z * Z :=
  let integral_part := f2i oob (ffloor u) in
  (integral_part, f2i oob (fmul (fsub u (i2f integral_part)) (i2f MICROSECONDS_PER_SECOND))).

(** The argument of [set_microsecond] is converted to [int32_t]. *)
Definition date_time_plus (t : flex_date_time) (u : Z) : option flex_date_time :=
  let '(integral_part, us_part) := split_seconds u in
  let t := set_posix_timestamp (s64 (posix_timestamp t + integral_part)) t in
  let us := s64 (microsecond t + us_part) in
  let '(us, t) :=
    if MICROSECONDS_PER_SECOND <=? us
    then (us - MICROSECONDS_PER_SECOND, set_posix_timestamp (s64 (posix_timestamp t + 1)) t)
    else (us, t) in
  set_microsecond (sw 32 us) t.

Definition date_time_minus (t : flex_date_time) (u : Z) : option flex_date_time :=
  let '(integral_part, us_part) := split_seconds u in
  let t := set_posix_timestamp (s64 (posix_timestamp t - integral_part)) t in
  let us := s64 (microsecond t - us_part) in
  let '(us, t) :=
    if us <? 0
    then (us + MICROSECONDS_PER_SECOND, set_posix_timestamp (s64 (posix_timestamp t - 1)) t)
    else (us, t) in
  set_microsecond (sw 32 us) t.

Definition plus_equal_operator (t u : flexible_type) : outcome flexible_type :=
  match t, u with
  | FInt t, FInt u => Ok (FInt (s64 (t + u)))
  | FDateTime t, FInt u =>
      Ok (FDateTime (set_posix_timestamp (s64 (posix_timestamp t + u)) t))
  | FDateTime t, FFloat u => FDateTime <$> or_throw (date_time_plus t u)
  | FInt t, FFloat u => Ok (FInt (f2i oob (fadd (i2f t) u)))
  | FFloat t, FInt u => Ok (FFloat (fadd t (i2f u)))
  | FFloat t, FFloat u => Ok (FFloat (fadd t u))
  | FString t, FString u => Ok (FString (t ++ u))
  | FVec t, u => vec_op fadd t u
  | _, _ => Throw
  end.

Definition minus_equal_operator (t u : flexible_type) : outcome flexible_type :=
  match t, u with
  | FDateTime t, FInt u =>
      Ok (FDateTime (set_posix_timestamp (s64 (posix_timestamp t - u)) t))
  | FDateTime t, FFloat u => FDateTime <$> or_throw (date_time_minus t u)
  | FInt t, FInt u => Ok (FInt (s64 (t - u)))
  | FInt t, FFloat u => Ok (FInt (f2i oob (fsub (i2f t) u)))
  | FFloat t, FInt u => Ok (FFloat (fsub t (i2f u)))
  | FFloat t, FFloat u => Ok (FFloat (fsub t u))
  | FVec t, u => vec_op fsub t u
  | _, _ => Throw
  end.

Definition divide_equal_operator (t u : flexible_type) : outcome flexible_type :=
  match t, u with
  | FInt t, FInt u => FInt <$> int_div t u
  | FInt t, FFloat u => Ok (FInt (f2i oob (fdiv (i2f t) u)))
  | FFloat t, FInt u => Ok (FFloat (fdiv t (i2f u)))
  | FFloat t, FFloat u => Ok (FFloat (fdiv t u))
  | FVec t, u => vec_op fdiv t u
  | _, _ => Throw
  end.

Definition mod_equal_operator (t u : flexible_type) : outcome flexible_type :=
  match t, u with
  | FInt t, FInt u => FInt <$> int_mod t u
  | FInt t, FFloat u => FInt <$> int_mod t (f2i oob u)
  | FFloat t, FInt u => Ok (FFloat (fmod t (i2f u)))
  | FFloat t, FFloat u => Ok (FFloat (fmod t u))
  | FVec t, u => vec_op fmod t u
  | _, _ => Throw
  end.

Definition multiply_equal_operator (t u : flexible_type) : outcome flexible_type :=
  match t, u with
  | FInt t, FInt u => Ok (FInt (s64 (t * u)))
  | FInt t, FFloat u => Ok (FInt (f2i oob (fmul (i2f t) u)))
  | FFloat t, FInt u => Ok (FFloat (fmul t (i2f u)))
  | FFloat t, FFloat u => Ok (FFloat (fmul t u))
  | FVec t, u => vec_op fmul t u
  | _, _ => Throw
  end.
End arithmetic.

(** ** The tables of supported operations *)

Inductive binary_op := Plus | Minus | Times | Divide | Mod | Less | Greater | Equals.

#[global] Instance binary_op_eq_dec : EqDecision binary_op.
Proof. solve_decision. Defined.

(** The entry of a [static constexpr bool] array; a row that is too short is completed with
    zeros. *)
Definition entry (table : list (list Z)) (left right : flex_type_enum) : bool :=
  match table !! Z.to_nat (enum_code left) ≫= λ row, row !! Z.to_nat (enum_code right) with
  | Some x => negb (x =? 0)
  | None => false
  end.

Definition castable : list (list Z) :=
  [[1; 1; 1; 0; 0; 0; 1; 0; 0];
   [1; 1; 1; 0; 0; 0; 1; 0; 0];
   [0; 0; 1; 0; 0; 0; 0; 0; 0];
   [0; 0; 1; 1; 1; 0; 0; 0; 0];
   [0; 0; 1; 0; 1; 0; 0; 0; 0];
   [0; 0; 1; 0; 0; 1; 0; 0; 0];
   [1; 1; 1; 0; 0; 0; 1; 0; 0];
   [0; 0; 1; 0; 0; 0; 0; 1; 0];
   [0; 0; 1; 1; 0; 0; 0; 0; 1]].
Definition flex_type_is_convertible : flex_type_enum → flex_type_enum → bool := entry castable.

Definition plus_operator : list (list Z) :=
  [[1; 1; 0; 0; 0; 0; 0; 0; 0];
   [1; 1; 0; 0; 0; 0; 0; 0; 0];
   [0; 0; 1; 0; 0; 0; 0; 0; 0];
   [1; 1; 0; 1; 0; 0; 0; 0; 0];
   [0; 0; 0; 0; 0; 0; 0; 0; 0];
   [0; 0; 0; 0; 0; 0; 0; 0; 0];
   [1; 1; 0; 0; 0; 0; 0; 0; 0];
   [0; 0; 0; 0; 0; 0; 0; 0; 0];
   [0; 0; 0; 0; 0; 0; 0; 0; 0]].
Definition minus_operator : list (list Z) :=
  [[1; 1; 0; 0; 0; 0; 0; 0; 0];
   [1; 1; 0; 0; 0; 0; 0; 0; 0];
   [0; 0; 0; 0; 0; 0; 0; 0; 0];
   [1; 1; 0; 1; 0; 0; 0; 0; 0];
   [0; 0; 0; 0; 0; 0; 0; 0; 0];
   [0; 0; 0; 0; 0; 0; 0; 0; 0];
   [1; 1; 0; 0; 0; 0; 0; 0; 0];
   [0; 0; 0; 0; 0; 0; 0; 0; 0];
   [0; 0; 0; 0; 0; 0; 0; 0; 0]].
Definition other_numeric_operators : list (list Z) :=
  [[1; 1; 0; 0; 0; 0; 0; 0; 0];
   [1; 1; 0; 0; 0; 0; 0; 0; 0];
   [0; 0; 0; 0; 0; 0; 0; 0; 0];
   [1; 1; 0; 1; 0; 0; 0; 0; 0];
   [0; 0; 0; 0; 0; 0; 0; 0; 0];
   [0; 0; 0; 0; 0; 0; 0; 0; 0];
   [0; 0; 0; 0; 0; 0; 0; 0; 0];
   [0; 0; 0; 0; 0; 0; 0; 0; 0];
   [0; 0; 0; 0; 0; 0; 0; 0; 0]].
Definition comparison_operators : list (list Z) :=
  [[1; 1; 0; 0; 0; 0; 1; 0];
   [1; 1; 0; 0; 0; 0; 1; 0];
   [0; 0; 1; 0; 0; 0; 0; 0];
   [0; 0; 0; 0; 0; 0; 0; 0];
   [0; 0; 0; 0; 0; 0; 0; 0];
   [0; 0; 0; 0; 0; 0; 0; 0];
   [1; 1; 0; 0; 0; 0; 1; 0];
   [0; 0; 0; 0; 0; 0; 0; 0];
   [0; 0; 0; 0; 0; 0; 0; 0]].
Definition equality_operators : list (list Z) :=
  [[1; 1; 0; 0; 0; 0; 1; 1; 0];
   [1; 1; 0; 0; 0; 0; 1; 1; 0];
   [0; 0; 1; 0; 0; 0; 0; 1; 0];
   [0; 0; 0; 1; 0; 0; 0; 1; 0];
   [0; 0; 0; 0; 0; 0; 0; 1; 0];
   [0; 0; 0; 0; 0; 0; 0; 1; 0];
   [1; 1; 0; 0; 0; 0; 1; 1; 0];
   [1; 1; 1; 1; 1; 1; 1; 1; 1];
   [0; 0; 0; 0; 0; 0; 0; 1; 0]].

(** Any other operator character is not supported. *)
Definition flex_type_has_binary_op (left right : flex_type_enum) (op : binary_op) : bool :=
  match op with
  | Plus => entry plus_operator left right
  | Minus => entry minus_operator left right
  | Times | Divide | Mod => entry other_numeric_operators left right
  | Less | Greater => entry comparison_operators left right
  | Equals => entry equality_operators left right
  end.

(** ** Conversions *)

(** Decimal digits. *)
Fixpoint digits (fuel : nat) (n : Z) (acc : list Z) : list Z :=
  match fuel with
  | O => acc
  | S fuel =>
      let acc := (48 + n mod 10) :: acc in
      if n <? 10 then acc else digits fuel (n / 10) acc
  end.

(** [tostr] of an integer. *)
Definition int_to_string (n : Z) : list Z :=
  let a := Z.abs n in
  (if n <? 0 then [45] else []) ++ digits (S (Z.to_nat (Z.log2 a))) a [].

Definition is_space (c : Z) : bool := (c =? 32) || ((9 <=? c) && (c <=? 13)).
Fixpoint skip_spaces (s : list Z) : list Z :=
  match s with c :: r => if is_space c then skip_spaces r else s | [] => [] end.
Fixpoint parse_digits (acc : Z) (s : list Z) : Z :=
  match s with
  | c :: s => if (48 <=? c) && (c <=? 57) then parse_digits (10 * acc + (c - 48)) s else acc
  | [] => acc
  end.

(** [std::atoll]; [overflow] is the result for a number that does not fit. *)
Definition atoll (overflow : Z → Z) (s : list Z) : Z :=
  let v :=
    match skip_spaces s with
    | 45 :: s => - parse_digits 0 s
    | 43 :: s => parse_digits 0 s
    | s => parse_digits 0 s
    end in
  if bool_decide (is_s64 v) then v else overflow v.

(** The code of a character constant. *)
Definition ch_quote : Z := 34.
Definition join (sep : list Z) : list (list Z) → list Z :=
  fix go l := match l with [] => [] | [s] => s | s :: l => s ++ sep ++ go l end.

(** [ptime_from_time_t]: the offset is added in steps that fit boost's 32-bit seconds; the
    result is the list of the seconds added. *)
Definition max_int32 : Z := 2 ^ 31 - 1.
Definition min_int32 : Z := - 2 ^ 31 + 1.
Fixpoint time_t_steps (fuel : nat) (offset : Z) : option (list Z) :=
  match fuel with
  | O => None
  | S fuel =>
      if (offset <? 0) && (offset <? min_int32) then cons min_int32 <$> time_t_steps fuel (offset - min_int32)
      else if negb (offset <? 0) && (max_int32 <? offset)
           then cons max_int32 <$> time_t_steps fuel (offset - max_int32)
           else Some [offset]
  end.

Section conversions.
Context (oob oob32 overflow : Z → Z).
(** The C library's [atof], the stream output of a [double], and boost's
    [to_iso_string] of a number of seconds and microseconds since the epoch. *)
Context (atof : list Z → Z) (double_to_string : Z → list Z).
Context (to_iso_string : Z → Z → list Z).

Definition get_datetime_visitor (v : flexible_type) : outcome flex_date_time :=
  match v with
  | FUndefined => Ok empty_date_time
  | FInt i => or_throw (date_time_of i)
  | FDateTime dt => Ok dt
  | FFloat i => or_throw (set_microsecond_res_timestamp oob oob32 i empty_date_time)
  | _ => Throw
  end.

Definition get_int_visitor (v : flexible_type) : outcome Z :=
  match v with
  | FUndefined => Ok 0
  | FInt i => Ok i
  | FDateTime dt => Ok (posix_timestamp dt)
  | FFloat i => Ok (f2i oob i)
  | FString t => Ok (atoll overflow t)
  | _ => Throw
  end.

Definition get_float_visitor (v : flexible_type) : outcome Z :=
  match v with
  | FUndefined => Ok 0
  | FDateTime dt => Ok (microsecond_res_timestamp dt)
  | FInt i => Ok (i2f i)
  | FFloat i => Ok i
  | FString t => Ok (atof t)
  | _ => Throw
  end.

Definition date_time_to_string (d : flex_date_time) : list Z :=
  to_iso_string (shifted_posix_timestamp d) (microsecond d).

(** ["Height: "] and [" Width: "]. *)
Definition height_label : list Z := [72; 101; 105; 103; 104; 116; 58; 32].
Definition width_label : list Z := [32; 87; 105; 100; 116; 104; 58; 32].

Fixpoint get_string_visitor (v : flexible_type) : list Z :=
  let quoted (w : flexible_type) (s : list Z) :=
    match w with FString _ => [ch_quote] ++ s ++ [ch_quote] | _ => s end in
  match v with
  | FUndefined => []
  | FFloat i => double_to_string i
  | FInt i => int_to_string i
  | FDateTime d => date_time_to_string d
  | FString s => s
  | FVec l => [91] ++ join [32] (map double_to_string l) ++ [93]
  | FList l => [91] ++ join [44] (map (λ w, quoted w (get_string_visitor w)) l) ++ [93]
  | FDict d =>
      [123] ++ join [44; 32]
        (map (λ kv, quoted kv.1 (get_string_visitor kv.1) ++ [58]
                    ++ quoted kv.2 (get_string_visitor kv.2)) d) ++ [125]
  | FImage i =>
      height_label ++ int_to_string (m_height i) ++ width_label ++ int_to_string (m_width i)
  end.

Definition image_to_vec (img : flex_image) : outcome (list Z) :=
  if m_format img =? FORMAT_RAW_ARRAY then Ok (map (λ c, i2f (u8 c)) (m_image_data img)) else Throw.

Definition get_vec_visitor (v : flexible_type) : outcome (list Z) :=
  match v with
  | FUndefined => Ok []
  | FInt i => Ok [i2f i]
  | FFloat i => Ok [i]
  | FVec l => Ok l
  | FDateTime d => Ok [microsecond_res_timestamp d]
  | FImage img => image_to_vec img
  | _ => Throw
  end.

Definition get_recursive_visitor (v : flexible_type) : outcome (list flexible_type) :=
  match v with
  | FUndefined => Ok []
  | FDateTime d => Ok [FFloat (microsecond_res_timestamp d)]
  | FInt _ | FFloat _ | FString _ => Ok [v]
  | FVec l => Ok (map FFloat l)
  | FList l => Ok l
  | _ => Throw
  end.

Definition get_dict_visitor (v : flexible_type) : outcome (list (flexible_type * flexible_type)) :=
  match v with FUndefined => Ok [] | FDict d => Ok d | _ => Throw end.

Definition get_img_visitor (v : flexible_type) : outcome flex_image :=
  match v with FUndefined => Ok empty_image | FImage i => Ok i | _ => Throw end.

(** [push_back(flex_float)] and [push_back(const flexible_type&)]. *)
Definition push_back_float (i : Z) (v : flexible_type) : outcome flexible_type :=
  match v with
  | FVec l => Ok (FVec (l ++ [i]))
  | FList l => Ok (FList (l ++ [FFloat i]))
  | _ => Throw
  end.
Definition push_back (i v : flexible_type) : outcome flexible_type :=
  match v with
  | FVec l => x ← get_float_visitor i; Ok (FVec (l ++ [x]))
  | FList l => Ok (FList (l ++ [i]))
  | _ => Throw
  end.

(** [soft_assign] of [u] to an object that holds a FLOAT. *)
Definition soft_assign_float (u : flexible_type) : outcome Z :=
  match u with
  | FFloat u => Ok u
  | FInt u => Ok (i2f u)
  | FDateTime u => Ok (microsecond_res_timestamp u)
  | FUndefined => Ok NAN
  | _ => Throw
  end.

(** [t.soft_assign(u)]: the new value of [t]. *)
Definition soft_assignment_visitor (t u : flexible_type) : outcome flexible_type :=
  match t, u with
  | FDateTime _, FInt u => FDateTime <$> or_throw (date_time_of u)
  | FInt _, FDateTime _ => FInt <$> get_int_visitor u
  | FFloat _, _ => FFloat <$> soft_assign_float u
  | FDateTime _, FFloat u =>
      FDateTime <$> or_throw (set_microsecond_res_timestamp oob oob32 u empty_date_time)
  | FDateTime _, FDateTime u => Ok (FDateTime u)
  | FInt _, FInt u => Ok (FInt u)
  | FInt _, FFloat u => Ok (FInt (f2i oob u))
  | FString _, u => Ok (FString (get_string_visitor u))
  | FVec _, FVec u => Ok (FVec u)
  | FVec _, FImage u => FVec <$> image_to_vec u
  | FVec _, FList u => FVec <$> outcome_map soft_assign_float u
  | FList _, FList u => Ok (FList u)
  | FList _, FVec u => Ok (FList (map FFloat u))
  | FDict _, FDict u => Ok (FDict u)
  | FUndefined, FUndefined => Ok FUndefined
  | _, _ => Throw
  end.
End conversions.

(** ** Hashing *)

Section hashing.
(** [hash64] of an integer and of bytes, and [hash64_combine] (util/cityhash_gl.hpp). *)
Context (hash64 : Z → Z) (hash64_bytes : list Z → Z) (hash64_combine : Z → Z → Z).

Fixpoint city_hash_visitor (v : flexible_type) : Z :=
  match v with
  | FInt t => hash64 (u64 t)
  | FDateTime t =>
      hash64_combine
        (hash64_combine (hash64 (u64 (posix_timestamp t))) (hash64 (u64 (time_zone_offset t))))
        (hash64 (u64 (microsecond t)))
  | FFloat t => hash64 (if isnan t then NAN else t)
  | FString t => hash64_bytes t
  | FVec t => hash64_bytes (concat (map (le_bytes 8) t))
  | FList t => hash64 (foldl (λ h w, hash64_combine h (city_hash_visitor w)) 0 t)
  | FDict t =>
      let key_hash := foldl (λ h kv, h .| city_hash_visitor kv.1) 0 t in
      let value_hash := foldl (λ h kv, h .| city_hash_visitor kv.1) 0 t in
      hash64_combine key_hash value_hash
  | FUndefined | FImage _ => 0
  end.
End hashing.

End FlexOps.
