(* ===== verification/FlexOpsSpec.v ===== *)
(** What the operators of FlexOps guarantee: the two orders are each other's converse, the
    tables of supported operations agree with the operators (with the exceptions the code
    has), arithmetic laws, conversions that lose nothing, and the steps of the time
    conversion. *)
From S2P Require Import Prelude Float64 FloatArith FlexType FlexOps.
Import Float64 FloatArith FlexType FlexOps.
Local Open Scope Z_scope.
Local Open Scope sframe_scope.

Module FlexOpsSpec.

#[local] Opaque microsecond_res_timestamp i2f fadd fsub fmul fdiv fmod ffloor fabs flt.

(** ** Order *)

Lemma flt_asym a b : flt a b = true → flt b a = false.
Proof.
  intros H. destruct (flt b a) eqn:E; [|done].
  pose proof (flt_trans _ _ _ H E) as Haa. rewrite flt_irrefl in Haa; done.
Qed.

Lemma vec_gt_lt t u : vec_gt t u = vec_lt u t.
Proof.
  revert u. induction t as [|a t IH]; intros [|b u]; cbn [vec_gt vec_lt]; try done.
  unfold fgt. destruct (flt b a) eqn:E1; [by rewrite (flt_asym _ _ E1)|].
  destruct (flt a b); [done|apply IH].
Qed.

Lemma vec_lt_asym t u : vec_lt t u && vec_gt t u = false.
Proof.
  revert u. induction t as [|a t IH]; intros [|b u]; cbn [vec_gt vec_lt]; try done.
  - unfold fgt. destruct (flt b a) eqn:E1; [done|]. destruct (flt a b); [done|apply IH].
Qed.

Lemma string_lt_irrefl t : string_lt t t = false.
Proof. induction t as [|a t IH]; [done|]. cbn. by rewrite Z.ltb_irrefl, IH, andb_false_r. Qed.

Lemma string_lt_trans t u v : string_lt t u = true → string_lt u v = true → string_lt t v = true.
Proof.
  revert u v. induction t as [|a t IH]; intros [|b u] [|c v]; cbn; try done.
  rewrite !orb_true_iff, !andb_true_iff, !Z.ltb_lt, !Z.eqb_eq.
  intros [H1|[-> H1]] [H2|[-> H2]]; [left; lia|left; lia|left; lia|right]. split; [done|by eapply IH].
Qed.

Lemma string_lt_trichotomy t u : string_lt t u = true ∨ t = u ∨ string_lt u t = true.
Proof.
  revert u. induction t as [|a t IH]; intros [|b u]; cbn; auto.
  rewrite !orb_true_iff, !andb_true_iff, !Z.ltb_lt, !Z.eqb_eq.
  destruct (Z.lt_total a b) as [|[->|]]; [by auto| |by auto].
  destruct (IH u) as [|[->|]]; auto.
Qed.

Lemma string_lt_asym t u : string_lt t u && string_lt u t = false.
Proof.
  destruct (string_lt t u) eqn:E1, (string_lt u t) eqn:E2; try done.
  pose proof (string_lt_trans _ _ _ E1 E2) as H. by rewrite string_lt_irrefl in H.
Qed.

Lemma dt_gt_lt a b : dt_gt a b = dt_lt b a.
Proof. unfold dt_gt, dt_lt. by rewrite (Z.eqb_sym (posix_timestamp a)). Qed.

Lemma dt_lt_asym a b : dt_lt a b && dt_lt b a = false.
Proof.
  destruct (dt_lt a b) eqn:E1, (dt_lt b a) eqn:E2; try done.
  pose proof (dt_lt_trans _ _ _ E1 E2) as H. unfold dt_lt in H.
  by rewrite !Z.ltb_irrefl, andb_false_r in H.
Qed.

(** The outcomes of the two orders on the same operands. *)
Definition exclusive (l g : outcome bool) : Prop :=
  match l, g with
  | Ok x, Ok y => x && y = false
  | Throw, Throw => True
  | _, _ => False
  end.

Lemma exclusive_flt a b : exclusive (Ok (flt a b)) (Ok (flt b a)).
Proof. cbn. destruct (flt a b) eqn:E; [by rewrite (flt_asym _ _ E)|done]. Qed.

Lemma exclusive_ltb a b : exclusive (Ok (a <? b)) (Ok (b <? a)).
Proof. cbn. destruct (Z.ltb_spec a b), (Z.ltb_spec b a); try done; lia. Qed.

(** [<] and [>] throw together, and are not both true. *)
Lemma lt_gt_exclusive t u : exclusive (lt_operator t u) (gt_operator t u).
Proof.
  revert u. induction t as [i|b|s|l|l IH|d _|d| |i] using flexible_type_nested_ind;
    intros u; destruct u as [i'|b'|s'|l'|l'|d'|d'| |i']; cbn [lt_operator gt_operator];
    unfold fgt; try exact I; try apply exclusive_flt; try apply exclusive_ltb.
  - apply string_lt_asym.
  - apply vec_lt_asym.
  - revert l'. induction IH as [|a l Ha IHl IH]; intros [|b l']; try done.
    specialize (Ha b). destruct (lt_operator a b) as [x| |], (gt_operator a b) as [y| |]; try done.
    cbn [mbind outcome_bind]. destruct y; [done|]. destruct x; [done|]. apply IH.
  - cbn. rewrite dt_gt_lt. apply dt_lt_asym.
Qed.

(** [t > u] is [u < t], exceptions included. *)
Lemma gt_is_lt t u : gt_operator t u = lt_operator u t ∧ lt_operator t u = gt_operator u t.
Proof.
  revert u. induction t as [i|b|s|l|l IH|d _|d| |i] using flexible_type_nested_ind;
    intros u; destruct u as [i'|b'|s'|l'|l'|d'|d'| |i']; cbn [lt_operator gt_operator]; try done;
    unfold fgt.
  - by rewrite vec_gt_lt, vec_gt_lt.
  - revert l'. induction IH as [|a l Ha IHl IH]; intros [|b l']; try done.
    destruct (Ha b) as [H1 H2]. pose proof (lt_gt_exclusive a b) as He. rewrite <- H1, <- H2.
    destruct (IH l') as [IH1 IH2].
    destruct (lt_operator a b) as [x| |], (gt_operator a b) as [y| |]; try done.
    cbn [mbind outcome_bind]. destruct x, y; try done.
  - by rewrite dt_gt_lt, dt_gt_lt.
Qed.

Lemma lt_irrefl t : lt_operator t t ≠ Ok true.
Proof.
  intros H. pose proof (lt_gt_exclusive t t) as He.
  destruct (gt_is_lt t t) as [Hg _]. rewrite Hg, H in He. done.
Qed.

(** ** Equality is symmetric *)

(** Values without dicts. *)
Fixpoint no_dict (v : flexible_type) : bool :=
  match v with FDict _ => false | FList l => forallb no_dict l | _ => true end.

Lemma feq_sym a b : feq a b = feq b a.
Proof. unfold feq. rewrite (Z.eqb_sym (key a)). by destruct (isnan a), (isnan b). Qed.

Lemma vec_eq_sym t u : vec_eq t u = vec_eq u t.
Proof. revert u. induction t as [|a t IH]; intros [|b u]; cbn; try done. by rewrite feq_sym, IH. Qed.

Lemma approx_equality_sym hash t u : no_dict t = true →
  approx_equality_operator hash t u = approx_equality_operator hash u t.
Proof.
  revert u. induction t as [i|b|s|l|l IH|d _|d| |i] using flexible_type_nested_ind;
    intros u Hnd; destruct u as [i'|b'|s'|l'|l'|d'|d'| |i']; try done; cbn [approx_equality_operator].
  - apply Z.eqb_sym.
  - apply feq_sym.
  - apply feq_sym.
  - by rewrite feq_sym, andb_comm.
  - by rewrite fabs_fsub_sym.
  - apply bool_decide_ext. naive_solver.
  - apply vec_eq_sym.
  - cbn [no_dict] in Hnd. revert l' Hnd. induction IH as [|a l Ha IHl IH]; intros [|b l'] Hnd; try done.
    cbn [forallb] in Hnd. apply andb_true_iff in Hnd as [Hna Hnl]. rewrite (Ha b Hna). f_equal. by apply IH.
  - by rewrite fabs_fsub_sym.
  - unfold dt_eq. by rewrite (Z.eqb_sym (posix_timestamp d)), (Z.eqb_sym (microsecond d)).
Qed.

(** ** The announced operations are the implemented ones *)

Section tables.
Context (oob : Z → Z).

Definition arithmetic_op (op : binary_op) (t u : flexible_type) : outcome flexible_type :=
  match op with
  | Plus => plus_equal_operator oob t u
  | Minus => minus_equal_operator oob t u
  | Times => multiply_equal_operator oob t u
  | Divide => divide_equal_operator oob t u
  | Mod => mod_equal_operator oob t u
  | _ => Throw
  end.

Definition is_arithmetic (op : binary_op) : bool :=
  match op with Plus | Minus | Times | Divide | Mod => true | _ => false end.

(** The checks on the values that an operator makes once the types are supported: vectors of
    the same size, and a [double] added to a time leaves the microseconds in range. *)
Definition operands_fit (op : binary_op) (t u : flexible_type) : bool :=
  match t, u with
  | FVec t, FVec u => (length t =? length u)%nat
  | FDateTime t, FFloat u =>
      match op with
      | Plus => bool_decide (is_Some (date_time_plus oob t u))
      | Minus => bool_decide (is_Some (date_time_minus oob t u))
      | _ => true
      end
  | _, _ => true
  end.

Lemma unsupported_throws op t u : is_arithmetic op = true →
  flex_type_has_binary_op (get_type t) (get_type u) op = false → arithmetic_op op t u = Throw.
Proof. destruct op; try done; intros _; destruct t, u; intros H; done. Qed.

Lemma supported_succeeds op t u : is_arithmetic op = true →
  flex_type_has_binary_op (get_type t) (get_type u) op = true → operands_fit op t u = true →
  arithmetic_op op t u = Trap ∨ ∃ v, arithmetic_op op t u = Ok v ∧ get_type v = get_type t.
Proof.
  intros Hop Hsup Hfit.
  destruct op; try discriminate Hop; destruct t, u; try discriminate Hsup;
    try (right; eexists; split; reflexivity); cbn [arithmetic_op operands_fit] in Hfit |- *.
  all: try (right; cbn; rewrite Hfit; eexists; split; reflexivity).
  - apply bool_decide_eq_true in Hfit as [d' Hd]. right. unfold plus_equal_operator. rewrite Hd.
    eexists; split; reflexivity.
  - apply bool_decide_eq_true in Hfit as [d' Hd]. right. unfold minus_equal_operator. rewrite Hd.
    eexists; split; reflexivity.
  - unfold divide_equal_operator, int_div. destruct (_ || _); [by left|right; eexists; split; reflexivity].
  - unfold mod_equal_operator, int_mod. destruct (_ || _); [by left|right; eexists; split; reflexivity].
  - unfold mod_equal_operator, int_mod. destruct (_ || _); [by left|right; eexists; split; reflexivity].
Qed.

Lemma misfit_throws op t u : is_arithmetic op = true →
  flex_type_has_binary_op (get_type t) (get_type u) op = true → operands_fit op t u = false →
  arithmetic_op op t u = Throw.
Proof.
  intros Hop Hsup Hfit.
  destruct op; try discriminate Hop; destruct t, u; try discriminate Hsup; try discriminate Hfit;
    cbn [arithmetic_op operands_fit] in Hfit |- *; try (cbn; by rewrite Hfit).
  - apply bool_decide_eq_false in Hfit. unfold plus_equal_operator.
    destruct (date_time_plus _ _ _); [by destruct Hfit|done].
  - apply bool_decide_eq_false in Hfit. unfold minus_equal_operator.
    destruct (date_time_minus _ _ _); [by destruct Hfit|done].
Qed.

(** Only an integer division traps. *)
Lemma traps_only_int op t u : arithmetic_op op t u = Trap →
  (op = Divide ∨ op = Mod) ∧ get_type t = INTEGER ∧ (get_type u = INTEGER ∨ get_type u = FLOAT).
Proof.
  destruct op; try done; destruct t, u; try done; cbn [arithmetic_op get_type]; auto 10;
    unfold plus_equal_operator, minus_equal_operator, multiply_equal_operator,
      divide_equal_operator, mod_equal_operator, vec_op;
    try (by destruct (date_time_plus _ _ _)); try (by destruct (date_time_minus _ _ _));
    by case_match.
Qed.
End tables.

(** The comparisons of two vectors and of two lists are implemented and not announced. *)
Definition unannounced (t u : flex_type_enum) : bool :=
  match t, u with VECTOR, VECTOR | LIST, LIST => true | _, _ => false end.

Lemma comparison_announced t u :
  flex_type_has_binary_op (get_type t) (get_type u) Less = true → ∃ b, lt_operator t u = Ok b.
Proof. destruct t, u; try discriminate; intros _; eexists; reflexivity. Qed.

Lemma comparison_not_announced t u :
  flex_type_has_binary_op (get_type t) (get_type u) Less = false →
  unannounced (get_type t) (get_type u) = false → lt_operator t u = Throw.
Proof. destruct t, u; try discriminate; reflexivity. Qed.

Lemma vectors_compare t u : ∃ b, lt_operator (FVec t) (FVec u) = Ok b.
Proof. by eexists. Qed.

(** Values of types for which [=] is not announced are never equal, lists and dicts apart. *)
Lemma equality_not_announced hash t u :
  flex_type_has_binary_op (get_type t) (get_type u) Equals = false →
  get_type t ≠ get_type u ∨ get_type t = IMAGE →
  approx_equality_operator hash t u = false.
Proof. destruct t, u; try discriminate; intros _ [Hne|Hi]; try done. Qed.

(** ** Assignment between types *)

Lemma fmap_Ok {A B} (f : A → B) (m : outcome A) b : f <$> m = Ok b → ∃ a, m = Ok a ∧ b = f a.
Proof. destruct m as [a| |]; try discriminate. intros H. injection H as <-. by exists a. Qed.

Section assignment.
Context (oob oob32 overflow : Z → Z) (double_to_string : Z → list Z) (iso : Z → Z → list Z).
#[local] Abbreviation assign := (soft_assignment_visitor oob oob32 overflow double_to_string iso).

(** The conversions that look at the value. *)
Definition value_checked (from to : flex_type_enum) : bool :=
  match from, to with
  | IMAGE, VECTOR | FLOAT, DATETIME => true
  | _, _ => false
  end.

Lemma soft_assign_type t u v : assign t u = Ok v → get_type v = get_type t.
Proof.
  unfold soft_assignment_visitor. intros H.
  destruct t, u; try discriminate H;
    first [apply fmap_Ok in H as (? & _ & ->); reflexivity | injection H as <-; reflexivity].
Qed.

Lemma soft_assign_convertible t u :
  flex_type_is_convertible (get_type u) (get_type t) = true →
  value_checked (get_type u) (get_type t) = false → get_type t ≠ IMAGE →
  ∃ v, assign t u = Ok v ∧ get_type v = get_type t.
Proof.
  intros Hc Hv Hi. assert (∃ v, assign t u = Ok v) as [v Hv'].
  { destruct t, u; try discriminate Hc; try discriminate Hv; try (eexists; reflexivity);
      by destruct Hi. }
  exists v. split; [done|by eapply soft_assign_type].
Qed.

(** The table announces the assignment of an image to an image; it throws. *)
Lemma soft_assign_image i j :
  flex_type_is_convertible IMAGE IMAGE = true ∧ assign (FImage i) (FImage j) = Throw.
Proof. done. Qed.

Lemma soft_assign_not_convertible t u :
  flex_type_is_convertible (get_type u) (get_type t) = false →
  (get_type u, get_type t) ∉ [(UNDEFINED, FLOAT); (LIST, VECTOR)] →
  assign t u = Throw.
Proof.
  intros Hc Hne. destruct t, u; try discriminate Hc; try reflexivity; exfalso; apply Hne;
    rewrite !elem_of_cons; auto.
Qed.
End assignment.

(** ** Integer arithmetic *)

(** Adding and subtracting wrap, and undo each other. *)
Lemma plus_minus_int oob a b : is_s64 a → ∃ s,
  plus_equal_operator oob (FInt a) (FInt b) = Ok s ∧
  minus_equal_operator oob s (FInt b) = Ok (FInt a).
Proof.
  intros Ha. eexists. split; [reflexivity|]. unfold minus_equal_operator. do 2 f_equal.
  destruct (sw_multiple 64 (a + b)) as [k ->]; [done|]. apply (sw_unique 64 _ a k); [done|exact Ha|lia].
Qed.

(** A division that does not trap: truncated quotient, remainder with the dividend's sign. *)
Lemma int_div_mod a b q : is_s64 a → is_s64 b → int_div a b = Ok q →
  ∃ r, int_mod a b = Ok r ∧ a = b * q + r ∧ Z.abs r < Z.abs b ∧ 0 ≤ r * a ∧ is_s64 q.
Proof.
  unfold int_div, int_mod. intros Ha Hb. destruct (_ || _) eqn:Hc; [done|].
  intros H. injection H as <-. eexists. split; [done|].
  apply orb_false_iff in Hc as [Hb0%Z.eqb_neq Hov].
  assert (a = - 2 ^ 63 → b ≠ -1) as Hov'.
  { intros -> ->. by rewrite !Z.eqb_refl in Hov. }
  pose proof (Z.quot_rem a b Hb0) as Hqr. pose proof (Z.rem_bound_abs a b Hb0).
  pose proof (Z.rem_sign_mul a b Hb0). split_and!; [done|done|done|].
  unfold is_s64 in *. eval_pow. clear Hov. revert Hov'. dlia.
Qed.

(** ** Times *)

Lemma posix_range d : is_s 56 (posix_timestamp d).
Proof.
  unfold posix_timestamp. pose proof (sw_range (s64 (u64 (u64 (m_posix_timestamp_high d ≪ 32)
    + m_posix_timestamp_low d)) ≪ 8)) as H.
  rewrite Z.shiftr_div_pow2 by lia. unfold is_s64, is_s in *. revert H.
  generalize (s64 (s64 (u64 (u64 (m_posix_timestamp_high d ≪ 32) + m_posix_timestamp_low d)) ≪ 8)).
  intros z Hz. change (56 - 1) with 55. eval_pow. revert Hz. dlia.
Qed.

Lemma tz_set_posix ts d : time_zone_offset (set_posix_timestamp ts d) = time_zone_offset d.
Proof. done. Qed.

(** Adding whole seconds moves the time stamp, modulo its 56 bits, and nothing else. *)
Lemma date_time_plus_int oob d n : ∃ d',
  plus_equal_operator oob (FDateTime d) (FInt n) = Ok (FDateTime d') ∧
  posix_timestamp d' = sw 56 (posix_timestamp d + n) ∧
  time_zone_offset d' = time_zone_offset d ∧ microsecond d' = microsecond d ∧
  ∃ d'', minus_equal_operator oob (FDateTime d') (FInt n) = Ok (FDateTime d'') ∧ dt_identical d'' d = true.
Proof.
  assert (∀ x, sw 56 (s64 x) = sw 56 x) as Hs by (intros x; by apply sw_sw).
  eexists. split; [reflexivity|]. rewrite posix_timestamp_set, Hs. split_and!; [done|done|done|].
  eexists. split; [reflexivity|]. unfold dt_identical. rewrite !posix_timestamp_set, !tz_set_posix, !Hs.
  pose proof (posix_range d) as Hp.
  assert (sw 56 (sw 56 (posix_timestamp d + n) - n) = posix_timestamp d) as ->.
  { destruct (sw_multiple 56 (posix_timestamp d + n)) as [k ->]; [done|].
    apply (sw_unique 56 _ _ k); [done|done|lia]. }
  by rewrite !Z.eqb_refl.
Qed.

(** The time of [d] in microseconds. *)
Definition total_microseconds (d : flex_date_time) : Z :=
  posix_timestamp d * MICROSECONDS_PER_SECOND + microsecond d.

Lemma set_microsecond_spec us d : 0 ≤ us < MICROSECONDS_PER_SECOND → ∃ d',
  set_microsecond us d = Some d' ∧ posix_timestamp d' = posix_timestamp d ∧ microsecond d' = us ∧
  time_zone_offset d' = time_zone_offset d.
Proof.
  intros Hus. unfold set_microsecond, MICROSECONDS_PER_SECOND in *.
  destruct (Z.ltb_spec us 0), (Z.leb_spec 1000000 us); try lia. eexists. by split_and!.
Qed.

Lemma sw_posix ts : is_s 56 ts → sw 56 (s64 ts) = ts.
Proof. intros H. rewrite sw_sw by done. by apply sw_small_at. Qed.

(** Adding a fractional number of seconds carries into the seconds; the microseconds stay in
    range whenever the fraction is at most a whole second, rounding included. *)
Lemma date_time_plus_spec oob d u ip us : split_seconds oob u = (ip, us) →
  0 ≤ us ≤ MICROSECONDS_PER_SECOND → 0 ≤ microsecond d < MICROSECONDS_PER_SECOND →
  is_s 55 (posix_timestamp d) → is_s 55 (ip + 1) → is_s 55 ip → ∃ d',
  date_time_plus oob d u = Some d' ∧ 0 ≤ microsecond d' < MICROSECONDS_PER_SECOND ∧
  total_microseconds d' = total_microseconds d + ip * MICROSECONDS_PER_SECOND + us ∧
  time_zone_offset d' = time_zone_offset d.
Proof.
  intros Hs Hus Hd Hp Hip1 Hip. unfold date_time_plus. rewrite Hs. cbn beta iota.
  unfold is_s in *. change (55 - 1) with 54 in *.
  set (d1 := set_posix_timestamp _ d). change (microsecond d1) with (microsecond d).
  rewrite (sw_small (microsecond d + us))
    by (unfold is_s64; unfold MICROSECONDS_PER_SECOND in *; eval_pow; lia).
  assert (posix_timestamp d1 = posix_timestamp d + ip) as Hp1.
  { unfold d1. rewrite posix_timestamp_set. apply sw_posix. unfold is_s. change (56 - 1) with 55. eval_pow. lia. }
  assert (∀ x, 0 ≤ x < MICROSECONDS_PER_SECOND → sw 32 x = x) as H32.
  { intros x Hx. apply sw_small_at; [done|]. unfold is_s, MICROSECONDS_PER_SECOND in *.
    change (32 - 1) with 31. eval_pow. lia. }
  destruct (Z.leb_spec MICROSECONDS_PER_SECOND (microsecond d + us)).
  - rewrite H32 by (unfold MICROSECONDS_PER_SECOND in *; lia).
    destruct (set_microsecond_spec (microsecond d + us - MICROSECONDS_PER_SECOND)
      (set_posix_timestamp (s64 (posix_timestamp d1 + 1)) d1)) as (d' & -> & Hp' & Hm & Ht);
      [unfold MICROSECONDS_PER_SECOND in *; lia|].
    exists d'. split_and!; [done|lia|lia| |done]. unfold total_microseconds.
    rewrite Hm, Hp', posix_timestamp_set, sw_posix.
    + rewrite Hp1. unfold MICROSECONDS_PER_SECOND. lia.
    + rewrite Hp1. unfold is_s. change (56 - 1) with 55. eval_pow. lia.
  - rewrite H32 by lia.
    destruct (set_microsecond_spec (microsecond d + us) d1) as (d' & -> & Hp' & Hm & Ht); [lia|].
    exists d'. split_and!; [done|lia|lia| |done]. unfold total_microseconds.
    rewrite Hm, Hp', Hp1. unfold MICROSECONDS_PER_SECOND. lia.
Qed.

Lemma date_time_minus_spec oob d u ip us : split_seconds oob u = (ip, us) →
  0 ≤ us ≤ MICROSECONDS_PER_SECOND → 0 ≤ microsecond d < MICROSECONDS_PER_SECOND →
  is_s 55 (posix_timestamp d) → is_s 55 (ip + 1) → is_s 55 ip → ∃ d',
  date_time_minus oob d u = Some d' ∧ 0 ≤ microsecond d' < MICROSECONDS_PER_SECOND ∧
  total_microseconds d' = total_microseconds d - ip * MICROSECONDS_PER_SECOND - us ∧
  time_zone_offset d' = time_zone_offset d.
Proof.
  intros Hs Hus Hd Hp Hip1 Hip. unfold date_time_minus. rewrite Hs. cbn beta iota.
  unfold is_s in *. change (55 - 1) with 54 in *.
  set (d1 := set_posix_timestamp _ d). change (microsecond d1) with (microsecond d).
  rewrite (sw_small (microsecond d - us))
    by (unfold is_s64; unfold MICROSECONDS_PER_SECOND in *; eval_pow; lia).
  assert (posix_timestamp d1 = posix_timestamp d - ip) as Hp1.
  { unfold d1. rewrite posix_timestamp_set. apply sw_posix. unfold is_s. change (56 - 1) with 55. eval_pow. lia. }
  assert (∀ x, 0 ≤ x < MICROSECONDS_PER_SECOND → sw 32 x = x) as H32.
  { intros x Hx. apply sw_small_at; [done|]. unfold is_s, MICROSECONDS_PER_SECOND in *.
    change (32 - 1) with 31. eval_pow. lia. }
  destruct (Z.ltb_spec (microsecond d - us) 0).
  - rewrite H32 by (unfold MICROSECONDS_PER_SECOND in *; lia).
    destruct (set_microsecond_spec (microsecond d - us + MICROSECONDS_PER_SECOND)
      (set_posix_timestamp (s64 (posix_timestamp d1 - 1)) d1)) as (d' & -> & Hp' & Hm & Ht);
      [unfold MICROSECONDS_PER_SECOND in *; lia|].
    exists d'. split_and!; [done|lia|lia| |done]. unfold total_microseconds.
    rewrite Hm, Hp', posix_timestamp_set, sw_posix.
    + rewrite Hp1. unfold MICROSECONDS_PER_SECOND. lia.
    + rewrite Hp1. unfold is_s. change (56 - 1) with 55. eval_pow. lia.
  - rewrite H32 by lia.
    destruct (set_microsecond_spec (microsecond d - us) d1) as (d' & -> & Hp' & Hm & Ht); [lia|].
    exists d'. split_and!; [done|lia|lia| |done]. unfold total_microseconds.
    rewrite Hm, Hp', Hp1. unfold MICROSECONDS_PER_SECOND. lia.
Qed.

(** ** Numbers in decimal *)

Lemma digits_acc fuel n acc : digits fuel n acc = digits fuel n [] ++ acc.
Proof.
  revert n acc. induction fuel as [|fuel IH]; intros n acc; [done|]. cbn [digits].
  destruct (n <? 10); [done|]. rewrite IH, (IH _ [_]), <- app_assoc. done.
Qed.

Lemma digits_are_digits fuel n acc : 0 ≤ n →
  Forall (λ c, 48 ≤ c ≤ 57) acc → Forall (λ c, 48 ≤ c ≤ 57) (digits fuel n acc).
Proof.
  revert n acc. induction fuel as [|fuel IH]; intros n acc Hn Hacc; [done|]. cbn [digits].
  assert (Forall (λ c, 48 ≤ c ≤ 57) ((48 + n mod 10) :: acc)) by (constructor; [dlia|done]).
  destruct (n <? 10); [done|]. apply IH; [dlia|done].
Qed.

Lemma parse_digits_digits fuel n s : 0 ≤ n < 2 ^ Z.of_nat fuel →
  parse_digits 0 (digits fuel n [] ++ s) = parse_digits n s.
Proof.
  revert n s. induction fuel as [|fuel IH]; intros n s Hn; [by assert (n = 0) as -> by (cbn in Hn; lia)|].
  assert (∀ a, parse_digits a ((48 + n mod 10) :: s) = parse_digits (10 * a + n mod 10) s) as Hd.
  { intros a. cbn [parse_digits]. assert (0 ≤ n mod 10 < 10) by dlia.
    destruct (Z.leb_spec 48 (48 + n mod 10)), (Z.leb_spec (48 + n mod 10) 57); try lia.
    cbn [andb]. f_equal. lia. }
  cbn [digits]. destruct (Z.ltb_spec n 10).
  - cbn [app]. rewrite Hd. f_equal. dlia.
  - rewrite digits_acc, <- app_assoc. cbn [app]. rewrite IH, Hd; [f_equal; dlia|].
    rewrite Nat2Z.inj_succ, Z.pow_succ_r in Hn by lia. dlia.
Qed.

Lemma atoll_digits overflow (neg : bool) fuel n : 0 ≤ n < 2 ^ Z.of_nat (S fuel) →
  is_s64 (if neg then - n else n) →
  atoll overflow ((if neg then [45] else []) ++ digits (S fuel) n []) = if neg then - n else n.
Proof.
  intros Hn Hr. pose proof (parse_digits_digits (S fuel) n [] Hn) as Hp. rewrite app_nil_r in Hp.
  cbn [parse_digits] in Hp. unfold atoll. destruct neg.
  - cbn [app skip_spaces]. change (is_space 45) with false. cbv iota. rewrite Hp.
    by rewrite bool_decide_eq_true_2.
  - cbn [app]. pose proof (digits_are_digits (S fuel) n [] ltac:(lia) ltac:(constructor)) as Hd.
    destruct (digits (S fuel) n []) as [|c r] eqn:E.
    + cbn in Hp |- *. subst n. by rewrite bool_decide_eq_true_2.
    + apply Forall_cons in Hd as [Hc _].
      assert (c = 48 ∨ c = 49 ∨ c = 50 ∨ c = 51 ∨ c = 52 ∨ c = 53 ∨ c = 54 ∨ c = 55 ∨ c = 56 ∨ c = 57)
        as Hcs by lia.
      assert (skip_spaces (c :: r) = c :: r) as -> by (destruct_or! Hcs; by subst c).
      destruct_or! Hcs; subst c; rewrite Hp; by rewrite bool_decide_eq_true_2.
Qed.

Lemma int_to_string_digits n : 0 ≤ n → Forall (λ c, 48 ≤ c ≤ 57) (int_to_string n).
Proof.
  intros Hn. unfold int_to_string. destruct (Z.ltb_spec n 0); [lia|]. apply digits_are_digits; [lia|constructor].
Qed.

Lemma parse_int_to_string n : 0 ≤ n → parse_digits 0 (int_to_string n) = n.
Proof.
  intros Hn. unfold int_to_string. destruct (Z.ltb_spec n 0); [lia|]. cbn [app].
  rewrite Z.abs_eq by done. rewrite <- (app_nil_r (digits _ _ _)). rewrite parse_digits_digits; [done|].
  rewrite Nat2Z.inj_succ, Z2Nat.id by apply Z.log2_nonneg. split; [lia|].
  destruct (Z.eq_dec n 0) as [->|]; [done|]. apply Z.log2_spec. lia.
Qed.

Lemma int_to_string_some n : int_to_string n ≠ [].
Proof.
  unfold int_to_string. destruct (n <? 0); [done|]. cbn [app digits]. destruct (_ <? 10); [done|].
  rewrite digits_acc. by intros [_ [=]]%app_eq_nil.
Qed.

(** An integer is read back from its decimal form. *)
Lemma atoll_int_to_string overflow n : is_s64 n → atoll overflow (int_to_string n) = n.
Proof.
  intros Hn. unfold int_to_string.
  assert (0 ≤ Z.abs n < 2 ^ Z.of_nat (S (Z.to_nat (Z.log2 (Z.abs n))))) as Ha.
  { rewrite Nat2Z.inj_succ, Z2Nat.id by apply Z.log2_nonneg. split; [lia|].
    destruct (Z.eq_dec n 0) as [->|]; [done|]. apply Z.log2_spec. lia. }
  pose proof (atoll_digits overflow (n <? 0) _ _ Ha) as H.
  assert ((if n <? 0 then - Z.abs n else Z.abs n) = n) as E by (destruct (Z.ltb_spec n 0); lia).
  rewrite E in H. by apply H.
Qed.

(** ** The steps of the time conversion *)

Lemma time_t_steps_unfold fuel offset : time_t_steps (S fuel) offset =
  if offset <? -2147483647 then cons (-2147483647) <$> time_t_steps fuel (offset + 2147483647)
  else if 2147483647 <? offset then cons 2147483647 <$> time_t_steps fuel (offset - 2147483647)
  else Some [offset].
Proof.
  cbn [time_t_steps]. change min_int32 with (-2147483647). change max_int32 with 2147483647.
  replace (offset - -2147483647) with (offset + 2147483647) by lia. destruct (Z.ltb_spec offset 0), (Z.ltb_spec offset (-2147483647)),
    (Z.ltb_spec 2147483647 offset); try done; lia.
Qed.

Lemma time_t_steps_spec offset : ∃ l,
  time_t_steps (S (Z.to_nat (Z.abs offset / max_int32))) offset = Some l ∧
  foldr Z.add 0 l = offset ∧ Forall (is_s 32) l.
Proof.
  change max_int32 with 2147483647. remember (Z.to_nat (Z.abs offset / 2147483647)) as n eqn:Hn.
  assert (∀ x, -2147483647 ≤ x ≤ 2147483647 → is_s 32 x) as H32.
  { intros x. unfold is_s. change (32 - 1) with 31. eval_pow. lia. }
  revert offset Hn. induction n as [|n IH]; intros offset Hn; rewrite time_t_steps_unfold.
  - assert (- 2147483647 < offset < 2147483647) by (revert Hn; dlia).
    destruct (Z.ltb_spec offset (-2147483647)), (Z.ltb_spec 2147483647 offset); try lia.
    eexists. split_and!; [done|cbn; lia|]. constructor; [apply H32; lia|done].
  - destruct (Z.ltb_spec offset (-2147483647)); [|destruct (Z.ltb_spec 2147483647 offset)].
    + destruct (IH (offset + 2147483647)) as (l & -> & Hsum & Hall); [revert Hn; dlia|].
      eexists. split_and!; [done|cbn; lia|]. constructor; [apply H32; lia|done].
    + destruct (IH (offset - 2147483647)) as (l & -> & Hsum & Hall); [revert Hn; dlia|].
      eexists. split_and!; [done|cbn; lia|]. constructor; [apply H32; lia|done].
    + eexists. split_and!; [done|cbn; lia|]. constructor; [apply H32; lia|done].
Qed.

(** ** Hashes *)

Section hashes.
Context (hash64 : Z → Z) (hash64_bytes : list Z → Z) (hash64_combine : Z → Z → Z).
#[local] Abbreviation hash := (city_hash_visitor hash64 hash64_bytes hash64_combine).

(** The hash of a dict depends on its keys only. *)
Lemma dict_hash_keys d d' : map fst d = map fst d' → hash (FDict d) = hash (FDict d').
Proof.
  intros H. cbn [city_hash_visitor].
  assert (∀ h, foldl (λ h kv, h .| hash kv.1) h d = foldl (λ h kv, h .| hash kv.1) h d') as E.
  { revert d' H. induction d as [|kv d IH]; intros [|kv' d'] H h; try done.
    injection H as E1 E2. cbn [foldl]. rewrite E1. by apply IH. }
  by rewrite !E.
Qed.
End hashes.

(** ** Erasing an entry of a dict *)

Lemma erase_first_spec hash index d :
  (erase_first hash index d = d ∧ Forall (λ x, approx_equality_operator hash x.1 index = false) d) ∨
  ∃ l x r, d = l ++ x :: r ∧ erase_first hash index d = l ++ r ∧
    approx_equality_operator hash x.1 index = true ∧
    Forall (λ x, approx_equality_operator hash x.1 index = false) l.
Proof.
  induction d as [|x d IH]; [by left|]. cbn [erase_first].
  destruct (approx_equality_operator hash x.1 index) eqn:E; [right; by exists [], x, d|].
  destruct IH as [[-> H]|(l & y & r & -> & -> & Hy & Hl)]; [left; by repeat constructor|].
  right. exists (x :: l), y, r. split_and!; [done|done|done|by constructor].
Qed.

Lemma dict_at_missing hash index d :
  Forall (λ x, approx_equality_operator hash x.1 index = false) d →
  dict_at hash index (FDict d) = Throw.
Proof. intros H. cbn [dict_at]. induction H as [|x d Hx _ IH]; [done|]. cbn [find_first]. by rewrite Hx. Qed.

(** Looking a key up after erasing it finds the entry that followed it. *)
Lemma dict_at_erase hash index d l x r :
  d = l ++ x :: r → approx_equality_operator hash x.1 index = true →
  Forall (λ x, approx_equality_operator hash x.1 index = false) l →
  dict_at hash index (FDict d) = Ok x.2 ∧
  erase hash index (FDict d) = Ok (FDict (l ++ r)) ∧
  dict_at hash index (FDict (l ++ r)) = dict_at hash index (FDict r).
Proof.
  intros -> Hx Hl. cbn [dict_at erase].
  induction Hl as [|y l Hy Hl IH]; cbn [app find_first erase_first]; [by rewrite Hx|].
  rewrite Hy. destruct IH as (-> & He & ->). injection He as ->. done.
Qed.

End FlexOpsSpec.
