(* ===== verification/TypeEncoding.v ===== *)
(** The encoding of a block of [flexible_type] values
    (src/oss_src/sframe/sarray_v2_type_encoding.cpp and sarray_v2_type_encoding.hpp, with the
    block metadata of sarray_v2_block_types.hpp): numbers, doubles, strings and vectors, the
    typed block header, the decoder into a vector and the decoder that calls back per value. *)
From S2P Require Import Prelude Bitops Bitset IntegerPack Float64 FlexType.
Import FlexType.
Local Open Scope Z_scope.
Local Open Scope sframe_scope.

Module TypeEncoding.

(** ** Block metadata *)

Definition LZ4_COMPRESSION : Z := 1.
Definition IS_FLEXIBLE_TYPE : Z := 2.
Definition MULTIPLE_TYPE_BLOCK : Z := 4.
Definition BLOCK_ENCODING_EXTENSION : Z := 8.
Definition LEGACY_ENCODING : Z := 0.
Definition INTEGER_ENCODING : Z := 1.
Definition NEW_ENCODING : Z := 0.
Definition MAX_INTEGERS_PER_BLOCK : nat := 128.

Record block_info := MkBlockInfo {
  offset : Z;
  length_on_disk : Z;
  block_size : Z;
  num_elem : Z;
  flags : Z;
  content_type : Z;
}.

Definition default_block_info : block_info := MkBlockInfo (u64 (-1)) 0 0 0 0 0.

Definition has_flag (info : block_info) (flag : Z) : bool := negb ((flags info .& flag) =? 0).

Definition set_flag (flag : Z) (i : block_info) : block_info :=
  MkBlockInfo (offset i) (length_on_disk i) (block_size i) (num_elem i) (flags i .| flag)
    (content_type i).
Definition set_num_elem (n : Z) (i : block_info) : block_info :=
  MkBlockInfo (offset i) (length_on_disk i) (block_size i) n (flags i) (content_type i).
Definition set_block_size (n : Z) (i : block_info) : block_info :=
  MkBlockInfo (offset i) (length_on_disk i) n (num_elem i) (flags i) (content_type i).

(** ** Numbers *)

(** The inner loop: up to [n] values of [data] that are not UNDEFINED, and what is left. *)
Fixpoint collect (data : list flexible_type) (n : nat)
    : option (list Z * list flexible_type) :=
  match data, n with
  | [], _ => Some ([], [])
  | _, O => Some ([], data)
  | v :: data', S n' =>
      if is_undefined v then collect data' n
      else
        x ← get_flex_int v;
        '(buf, rest) ← collect data' n';
        Some (u64 x :: buf, rest)
  end.

(** The outer loop; [post] is applied to the buffer before it is packed. Every iteration
    consumes a value, so [length data] is enough [fuel]. *)
Fixpoint encode_blocks (post : Z → Z) (fuel : nat) (data : list flexible_type) : writer :=
  match data, fuel with
  | [], _ => Some []
  | _, O => None
  | _, S fuel' =>
      '(encode_buf, rest) ← collect data MAX_INTEGERS_PER_BLOCK;
      if (length encode_buf =? 0)%nat then Some []
      else IntegerPack.frame_of_reference_encode_128 (map post encode_buf)
           +++ encode_blocks post fuel' rest
  end.

Definition encode_number (data : list flexible_type) : writer :=
  encode_blocks (λ x, x) (length data) data.

(** The loop over [ret]; [buf], [bufstart], [buflen] and [num_values_to_read] are the locals. *)
Fixpoint decode_loop (post : Z → Z) (ret : list flexible_type) (buf : list Z)
    (bufstart buflen : nat) (num_values_to_read : Z) : reader (list flexible_type) :=
  match ret with
  | [] => mret []
  | v :: ret' =>
      if is_undefined v then
        l ← decode_loop post ret' buf bufstart buflen num_values_to_read; mret (v :: l)
      else if (bufstart <? buflen)%nat then
        x ← rlift (buf !! bufstart);
        v ← rlift (set_flex_int x v);
        l ← decode_loop post ret' buf (S bufstart) buflen (u64 (num_values_to_read - 1));
        mret (v :: l)
      else
        let buflen := Z.to_nat (Z.min num_values_to_read (Z.of_nat MAX_INTEGERS_PER_BLOCK)) in
        buf ← IntegerPack.frame_of_reference_decode_128 buflen;
        let buf := map post buf in
        x ← rlift (buf !! 0%nat);
        v ← rlift (set_flex_int x v);
        l ← decode_loop post ret' buf 1 buflen (u64 (num_values_to_read - 1));
        mret (v :: l)
  end.

Definition decode_number (ret : list flexible_type) (num_undefined : Z)
    : reader (list flexible_type) :=
  decode_loop (λ x, x) ret [] 0 0 (u64 (Z.of_nat (length ret) - num_undefined)).

(** ** Doubles *)

Definition rotate_left (x : Z) : Z := u64 (x ≪ 1) .| (x ≫ 63).
Definition rotate_right (x : Z) : Z := (x ≫ 1) .| u64 (x ≪ 63).

Definition encode_double_legacy (data : list flexible_type) : writer :=
  encode_blocks rotate_left (length data) data.

Definition decode_double_legacy (ret : list flexible_type) (num_undefined : Z)
    : reader (list flexible_type) :=
  decode_loop rotate_right ret [] 0 0 (u64 (Z.of_nat (length ret) - num_undefined)).

Section doubles.
(** What a cast of a [double] that is out of range of [flex_int] gives. *)
Variable oob : Z → Z.

Definition integer_safe (v : flexible_type) : bool :=
  match v with
  | FFloat val => Float64.feq (Float64.i2f (Float64.f2i oob val)) val
  | _ => true
  end.

Definition to_integer (v : flexible_type) : flexible_type :=
  match v with FFloat val => FInt (Float64.f2i oob val) | _ => v end.

Definition encode_double (data : list flexible_type) : writer :=
  if forallb integer_safe data
  then write_le 1 INTEGER_ENCODING +++ encode_number (map to_integer data)
  else write_le 1 LEGACY_ENCODING +++ encode_double_legacy data.
End doubles.

Definition float_to_integer_type (v : flexible_type) : flexible_type :=
  match v with FFloat _ => reset INTEGER | _ => v end.
Definition integer_to_float (v : flexible_type) : flexible_type :=
  match v with FInt i => FFloat (Float64.i2f i) | _ => v end.

(** A [reserved] byte that is neither encoding leaves [ret] as it is. *)
Definition decode_double (ret : list flexible_type) (num_undefined : Z)
    : reader (list flexible_type) :=
  c ← read_le 1;
  let reserved := s8 c in
  if negb (reserved <? 3) then rfail
  else if reserved =? LEGACY_ENCODING then decode_double_legacy ret num_undefined
  else if reserved =? INTEGER_ENCODING then
    l ← decode_number (map float_to_integer_type ret) num_undefined;
    mret (map integer_to_float l)
  else mret ret.

(** ** Streams

    A stream decoder calls back once per value; here it returns the list of the calls. *)

Fixpoint read_blocks (fuel num_elements : nat) : reader (list Z) :=
  match num_elements, fuel with
  | O, _ => mret []
  | _, O => rfail
  | _, S fuel' =>
      let buflen := Nat.min num_elements MAX_INTEGERS_PER_BLOCK in
      buf ← IntegerPack.frame_of_reference_decode_128 buflen;
      rest ← read_blocks fuel' (num_elements - buflen);
      mret (buf ++ rest)
  end.

Definition decode_number_stream (num_elements : nat) : reader (list flexible_type) :=
  buf ← read_blocks num_elements num_elements; mret (map (λ x, FInt (s64 x)) buf).

Definition decode_double_stream_legacy (num_elements : nat) : reader (list flexible_type) :=
  buf ← read_blocks num_elements num_elements; mret (map (λ x, FFloat (rotate_right x)) buf).

Definition decode_double_stream (num_elements : nat) : reader (list flexible_type) :=
  c ← read_le 1;
  let reserved := s8 c in
  if negb (reserved <? 3) then rfail
  else if reserved =? LEGACY_ENCODING then decode_double_stream_legacy num_elements
  else if reserved =? INTEGER_ENCODING then
    l ← decode_number_stream num_elements; mret (map integer_to_float l)
  else mret [].

(** ** Strings *)

(** The first loop of [encode_string]: the distinct strings in order of appearance and, per
    value, the index of its string; [None] when there are more than 64. *)
Fixpoint build_dictionary (data : list flexible_type) (unique_values : gmap (list Z) nat)
    (str_values : list (list Z)) (idx_values : list nat)
    : option (option (list (list Z) * list nat)) :=
  match data with
  | [] => Some (Some (str_values, idx_values))
  | v :: data' =>
      if is_undefined v then build_dictionary data' unique_values str_values idx_values
      else
        s ← get_flex_string v;
        match unique_values !! s with
        | Some i => build_dictionary data' unique_values str_values (idx_values ++ [i])
        | None =>
            if (64 <=? base.size unique_values)%nat then Some None
            else
              let newidx := base.size unique_values in
              build_dictionary data' (<[s := newidx]> unique_values) (str_values ++ [s])
                (idx_values ++ [newidx])
        end
  end.

Definition defined (data : list flexible_type) : list flexible_type :=
  List.filter (λ v, negb (is_undefined v)) data.

Definition of_size_t (n : nat) : flexible_type := FInt (s64 (Z.of_nat n)).

Definition write_counted (s : list Z) : writer :=
  IntegerPack.variable_encode (Z.of_nat (length s)) +++ Some s.

Definition encode_string (data : list flexible_type) : writer :=
  dictionary ← build_dictionary data ∅ [] [];
  match dictionary with
  | Some (str_values, idx_values) =>
      write_le 1 1 +++ IntegerPack.variable_encode (Z.of_nat (length str_values))
      +++ wconcat write_counted str_values
      +++ encode_number (map of_size_t idx_values)
  | None =>
      strs ← mapM get_flex_string (defined data);
      write_le 1 0 +++ encode_number (map (λ s, of_size_t (length s)) strs) +++ Some (concat strs)
  end.

Definition read_counted : reader (list Z) :=
  str_len ← IntegerPack.variable_decode; read (Z.to_nat str_len).

(** An index or length read from the input and used as a [size_t]. *)
Definition as_index (v : flexible_type) : option nat :=
  x ← get_flex_int v; Some (Z.to_nat (u64 x)).

Fixpoint read_strings (lengths : list flexible_type) : reader (list flexible_type) :=
  match lengths with
  | [] => mret []
  | n :: lengths' =>
      str_len ← rlift (as_index n);
      s ← read str_len;
      l ← read_strings lengths';
      mret (FString s :: l)
  end.

Definition decode_string_stream (num_elements : nat) : reader (list flexible_type) :=
  let idx_values := replicate num_elements (reset INTEGER) in
  use_dictionary_encoding ← read_le 1;
  if negb (use_dictionary_encoding =? 0) then
    num_values ← IntegerPack.variable_decode;
    str_values ← read_many (Z.to_nat num_values) read_counted;
    idx_values ← decode_number idx_values 0;
    rlift (mapM (λ v, i ← as_index v; s ← str_values !! i; Some (FString s)) idx_values)
  else
    idx_values ← decode_number idx_values 0;
    read_strings idx_values.

(** The callback of [decode_string] and [decode_vector]: store into the next entry of [ret]
    that is not UNDEFINED. Past the end of [ret] the store is undefined behaviour. *)
Fixpoint skip_undefined (rest : list flexible_type) (last_id : nat) : nat :=
  match rest with
  | v :: rest' => if is_undefined v then skip_undefined rest' (S last_id) else last_id
  | [] => last_id
  end.

Fixpoint store_all (ret : list flexible_type) (last_id : nat) (vals : list flexible_type)
    : option (list flexible_type) :=
  match vals with
  | [] => Some ret
  | val :: vals' =>
      let last_id := skip_undefined (drop last_id ret) last_id in
      if (last_id <? length ret)%nat
      then store_all (<[last_id := val]> ret) (S last_id) vals'
      else None
  end.

Definition num_values (ret : list flexible_type) (num_undefined : Z) : nat :=
  Z.to_nat (u64 (Z.of_nat (length ret) - num_undefined)).

Definition decode_string (ret : list flexible_type) (num_undefined : Z)
    : reader (list flexible_type) :=
  vals ← decode_string_stream (num_values ret num_undefined);
  rlift (store_all ret 0 vals).

(** ** Vectors *)

Section vectors.
Variable oob : Z → Z.

Definition encode_vector (data : list flexible_type) : writer :=
  vecs ← mapM get_flex_vec (defined data);
  write_le 1 NEW_ENCODING +++ encode_number (map (λ v, of_size_t (length v)) vecs)
  +++ encode_double oob (map FFloat (concat vecs)).
End vectors.

Fixpoint split_vectors (lengths : list nat) (values : list Z) : option (list flexible_type) :=
  match lengths with
  | [] => Some []
  | n :: lengths' =>
      if (length values <? n)%nat then None
      else l ← split_vectors lengths' (drop n values); Some (FVec (take n values) :: l)
  end.

Definition decode_vector_stream (num_elements : nat) (new_format : bool)
    : reader (list flexible_type) :=
  _ ← (if new_format then read_le 1 else mret 0);
  lengths ← decode_number (replicate num_elements default_value) 0;
  lengths ← rlift (mapM as_index lengths);
  let total_num_values := Z.to_nat (u64 (Z.of_nat (sum_list lengths))) in
  let values := replicate total_num_values default_value in
  values ← (if new_format then decode_double values 0 else decode_double_legacy values 0);
  values ← rlift (mapM get_flex_float values);
  rlift (split_vectors lengths values).

Definition decode_vector (ret : list flexible_type) (num_undefined : Z) (new_format : bool)
    : reader (list flexible_type) :=
  vals ← decode_vector_stream (num_values ret num_undefined) new_format;
  rlift (store_all ret 0 vals).

(** ** Typed blocks *)

(** The set of the types that appear. *)
Fixpoint types_appeared (data : list flexible_type) (d : Bitset.dense_bitset)
    : option Bitset.dense_bitset :=
  match data with
  | [] => Some d
  | v :: data' =>
      '(_, d) ← Bitset.fixed_set_bit_unsync (Z.to_nat (enum_code (get_type v))) d;
      types_appeared data' d
  end.

(** The bit field of the positions that are UNDEFINED. *)
Fixpoint mark_undefined (data : list flexible_type) (i : nat) (d : Bitset.dense_bitset)
    : option Bitset.dense_bitset :=
  match data with
  | [] => Some d
  | v :: data' =>
      d ← (if is_undefined v then '(_, d) ← Bitset.set_bit_unsync i d; Some d else Some d);
      mark_undefined data' (S i) d
  end.

(** [dense_bitset d(n); d.clear()]. *)
Definition new_bitmap (n : nat) : Bitset.dense_bitset := Bitset.clear (Bitset.of_size (λ _, 0) n).

Definition save_values (data : list flexible_type) : writer :=
  write_le 8 (Z.of_nat (length data)) +++ wconcat save data.
Definition load_values (fuel : nat) : reader (list flexible_type) :=
  n ← read_le 8; read_many (Z.to_nat n) (load fuel).

Section typed_encode.
Variable oob : Z → Z.
(** [oarc.off] when the block is started. *)
Variable off : Z.

Definition finish (info : block_info) (w : writer) : option (block_info * list Z) :=
  bs ← w; Some (set_block_size (off + Z.of_nat (length bs)) info, bs).

(** The type specific encoding. *)
Definition encode_body (appeared : flex_type_enum → bool) (info : block_info) (w : writer)
    (data : list flexible_type) : option (block_info * list Z) :=
  if appeared INTEGER then finish info (w +++ encode_number data)
  else if appeared FLOAT then
    finish (set_flag BLOCK_ENCODING_EXTENSION info) (w +++ encode_double oob data)
  else if appeared STRING then finish info (w +++ encode_string data)
  else if appeared VECTOR then
    finish (set_flag BLOCK_ENCODING_EXTENSION info) (w +++ encode_vector oob data)
  else finish info (w +++ wconcat serialize (defined data)).

Definition typed_encode (data : list flexible_type) (info : block_info)
    : option (block_info * list Z) :=
  let info := set_num_elem (Z.of_nat (length data)) (set_flag IS_FLEXIBLE_TYPE info) in
  types ← types_appeared data (Bitset.fixed_dense_bitset 16);
  let appeared t := default false (Bitset.fixed_get types (Z.to_nat (enum_code t))) in
  let num_types := Bitset.fixed_popcount types in
  let w := write_le 1 num_types in
  if num_types =? 0 then finish info w
  else if num_types =? 1 then
    v ← head data;
    let w := w +++ write_le 1 (enum_code (get_type v)) in
    if is_undefined v then finish info w else encode_body appeared info w data
  else if (num_types =? 2) && appeared UNDEFINED then
    t ← List.find (λ t, negb (Z.of_nat t =? enum_code UNDEFINED)) (Bitset.fixed_elements types);
    d ← mark_undefined data 0 (new_bitmap (length data));
    encode_body appeared info
      (w +++ write_le 1 (Z.of_nat t) +++ wconcat (write_le 8) (Bitset.array d)) data
  else finish (set_flag MULTIPLE_TYPE_BLOCK info) (w +++ save_values data).
End typed_encode.

Definition read_bitmap (n : nat) : reader Bitset.dense_bitset :=
  let d := new_bitmap n in
  words ← read_many (Bitset.arrlen d) (read_le 8);
  mret (Bitset.MkBitset words (Bitset.len d)).

Definition undefine (ret : list flexible_type) (t : nat) : option (list flexible_type) :=
  if (t <? length ret)%nat then Some (<[t := reset UNDEFINED]> ret) else None.

Fixpoint undefine_all (ts : list nat) (ret : list flexible_type) : option (list flexible_type) :=
  match ts with
  | [] => Some ret
  | t :: ts' => ret ← undefine ret t; undefine_all ts' ret
  end.

(** [deserializer] applied to the entries that are not UNDEFINED. *)
Fixpoint deserialize_all (ld : reader flexible_type) (ret : list flexible_type)
    : reader (list flexible_type) :=
  match ret with
  | [] => mret []
  | v :: ret' =>
      v ← (if is_undefined v then mret v else deserialize ld (get_type v));
      l ← deserialize_all ld ret';
      mret (v :: l)
  end.

Definition decode_body (fuel : nat) (info : block_info) (column_type : flex_type_enum)
    (ret : list flexible_type) (num_undefined : Z) : reader (list flexible_type) :=
  match column_type with
  | INTEGER => decode_number ret num_undefined
  | FLOAT =>
      if has_flag info BLOCK_ENCODING_EXTENSION then decode_double ret num_undefined
      else decode_double_legacy ret num_undefined
  | STRING => decode_string ret num_undefined
  | VECTOR => decode_vector ret num_undefined (has_flag info BLOCK_ENCODING_EXTENSION)
  | _ => deserialize_all (load fuel) ret
  end.

(** [ret0] is the vector of the caller. Without MULTIPLE_TYPE_BLOCK a number of types above 2
    leaves [column_type] uninitialised, and a type byte that is no type is undefined behaviour
    too. [fuel] bounds the nesting of the values. *)
Definition typed_decode (fuel : nat) (info : block_info) (ret0 : list flexible_type)
    : reader (bool * list flexible_type) :=
  if negb (has_flag info IS_FLEXIBLE_TYPE) then mret (false, ret0)
  else
    let dsize := Z.to_nat (num_elem info) in
    let ret := vector_resize dsize default_value ret0 in
    num_types ← read_le 1;
    ret ← (if has_flag info MULTIPLE_TYPE_BLOCK then load_values fuel
           else if num_types =? 0 then mret ret
           else if num_types =? 1 then
             c ← read_le 1;
             column_type ← rlift (enum_of_code c);
             let ret := replicate dsize (reset column_type) in
             if decide (column_type = UNDEFINED) then mret ret
             else decode_body fuel info column_type ret 0
           else if num_types =? 2 then
             c ← read_le 1;
             column_type ← rlift (enum_of_code c);
             d ← read_bitmap dsize;
             ret ← rlift (undefine_all (Bitset.elements d) (replicate dsize (reset column_type)));
             decode_body fuel info column_type ret (Bitset.popcount d)
           else rfail);
    mret (Z.of_nat (length ret) =? num_elem info, ret).

(** ** The decoder with a callback *)

(** The run of UNDEFINED calls at [last_id]: [while (last_id < dsize && bitmap.get(last_id))]. *)
Fixpoint undefined_run (bitmap : Bitset.dense_bitset) (n last_id : nat) : nat :=
  match n with
  | O => 0
  | S n' =>
      if default false (Bitset.get bitmap last_id)
      then S (undefined_run bitmap n' (S last_id)) else 0
  end.

Definition emit_undefined (bitmap : Bitset.dense_bitset) (dsize : nat) (num_undefined : Z)
    (last_id : nat) : list flexible_type :=
  if num_undefined =? 0 then []
  else replicate (undefined_run bitmap (dsize - last_id) last_id) FUndefined.

(** The calls made for the decoded values, and the final value of [last_id]. *)
Fixpoint stream_callbacks (bitmap : Bitset.dense_bitset) (dsize : nat) (num_undefined : Z)
    (last_id : nat) (vals : list flexible_type) : list flexible_type * nat :=
  match vals with
  | [] => ([], last_id)
  | val :: vals' =>
      let pre := emit_undefined bitmap dsize num_undefined last_id in
      let '(calls, last_id) :=
        stream_callbacks bitmap dsize num_undefined (S (last_id + length pre)) vals' in
      (pre ++ val :: calls, last_id)
  end.

(** The loop over the other types calls back directly and does not touch [last_id]. *)
Fixpoint deserialize_stream (ld : reader flexible_type) (bitmap : Bitset.dense_bitset)
    (num_undefined : Z) (column_type : flex_type_enum) (n i : nat)
    : reader (list flexible_type) :=
  match n with
  | O => mret []
  | S n' =>
      v ← (if negb (num_undefined =? 0) && default false (Bitset.get bitmap i)
           then mret FUndefined else deserialize ld column_type);
      l ← deserialize_stream ld bitmap num_undefined column_type n' (S i);
      mret (v :: l)
  end.

Definition stream_body (fuel : nat) (info : block_info) (column_type : flex_type_enum)
    (bitmap : Bitset.dense_bitset) (num_undefined : Z) : reader (list flexible_type) :=
  let dsize := Z.to_nat (num_elem info) in
  let elements_to_decode := Z.to_nat (u64 (num_elem info - num_undefined)) in
  '(calls, last_id) ←
    match column_type with
    | INTEGER =>
        l ← decode_number_stream elements_to_decode;
        mret (stream_callbacks bitmap dsize num_undefined 0 l)
    | FLOAT =>
        l ← (if has_flag info BLOCK_ENCODING_EXTENSION
             then decode_double_stream elements_to_decode
             else decode_double_stream_legacy elements_to_decode);
        mret (stream_callbacks bitmap dsize num_undefined 0 l)
    | STRING =>
        l ← decode_string_stream elements_to_decode;
        mret (stream_callbacks bitmap dsize num_undefined 0 l)
    | VECTOR =>
        l ← decode_vector_stream elements_to_decode (has_flag info BLOCK_ENCODING_EXTENSION);
        mret (stream_callbacks bitmap dsize num_undefined 0 l)
    | _ =>
        l ← deserialize_stream (load fuel) bitmap num_undefined column_type dsize 0;
        mret (l, 0%nat)
    end;
  mret (calls ++ emit_undefined bitmap dsize num_undefined last_id).

(** The result and the calls made. *)
Definition typed_decode_stream_callback (fuel : nat) (info : block_info)
    : reader (bool * list flexible_type) :=
  if negb (has_flag info IS_FLEXIBLE_TYPE) then mret (false, [])
  else
    let dsize := Z.to_nat (num_elem info) in
    num_types ← read_le 1;
    calls ← (if has_flag info MULTIPLE_TYPE_BLOCK then load_values fuel
             else if num_types =? 0 then mret []
             else if num_types =? 1 then
               c ← read_le 1;
               column_type ← rlift (enum_of_code c);
               if decide (column_type = UNDEFINED) then mret (replicate dsize FUndefined)
               else stream_body fuel info column_type Bitset.empty_bitset 0
             else if num_types =? 2 then
               c ← read_le 1;
               column_type ← rlift (enum_of_code c);
               bitmap ← read_bitmap dsize;
               stream_body fuel info column_type bitmap (Bitset.popcount bitmap)
             else rfail);
    mret (true, calls).

End TypeEncoding.
