(* ===== verification/TypeEncodingSpec.v ===== *)
(** The round trips of the block encodings of TypeEncoding: numbers, doubles, strings,
    vectors, and the equality of what the vector decoder and the callback decoder return. *)
From S2P Require Import Prelude Bitops Bitset IntegerPack Float64 FlexType TypeEncoding.
Import FlexType TypeEncoding.
Local Open Scope Z_scope.
Local Open Scope sframe_scope.

Module TypeEncodingSpec.

(** ** Filling the places that are not UNDEFINED *)

Fixpoint fill (ret vals : list flexible_type) : list flexible_type :=
  match ret with
  | [] => []
  | v :: ret' =>
      if is_undefined v then v :: fill ret' vals
      else match vals with
           | x :: vals' => x :: fill ret' vals'
           | [] => v :: fill ret' []
           end
  end.

(** What a decoder starts from: the positions of UNDEFINED, and a default elsewhere. *)
Definition blank (ct : flex_type_enum) (v : flexible_type) : flexible_type :=
  if is_undefined v then reset UNDEFINED else reset ct.

Lemma is_undefined_true v : is_undefined v = true ↔ v = FUndefined.
Proof. unfold is_undefined. rewrite bool_decide_eq_true. by destruct v. Qed.

Lemma is_undefined_reset ct : ct ≠ UNDEFINED → is_undefined (reset ct) = false.
Proof. unfold is_undefined. by destruct ct. Qed.

Lemma is_undefined_blank ct v : ct ≠ UNDEFINED → is_undefined (blank ct v) = is_undefined v.
Proof. intros. unfold blank. destruct (is_undefined v) eqn:E; [done|by apply is_undefined_reset]. Qed.

Lemma defined_cons v data :
  defined (v :: data) = if is_undefined v then defined data else v :: defined data.
Proof. unfold defined. simpl. by destruct (is_undefined v). Qed.

Lemma defined_blank ct data : ct ≠ UNDEFINED →
  length (defined (map (blank ct) data)) = length (defined data).
Proof.
  intros Hct. induction data as [|v data IH]; [done|]. cbn [map].
  rewrite !defined_cons, is_undefined_blank by done. destruct (is_undefined v); simpl; by rewrite IH.
Qed.

Lemma fill_blank_with (f : flexible_type → flexible_type) ct data : ct ≠ UNDEFINED →
  f FUndefined = FUndefined →
  fill (map (blank ct) data) (map f (defined data)) = map f data.
Proof.
  intros Hct Hf. induction data as [|v data IH]; [done|]. cbn [map fill].
  rewrite defined_cons, is_undefined_blank by done. destruct (is_undefined v) eqn:E.
  - apply is_undefined_true in E as ->. by rewrite IH, Hf.
  - cbn [map]. by rewrite IH.
Qed.

Lemma fill_blank ct data : ct ≠ UNDEFINED → fill (map (blank ct) data) (defined data) = data.
Proof.
  intros Hct. pose proof (fill_blank_with (λ v, v) ct data Hct eq_refl) as H.
  by rewrite !map_id in H.
Qed.

(** ** Blocks of 128 numbers *)

(** [bs] is the encoding of [vals], 128 at a time. *)
Inductive coded : list Z → list Z → Prop :=
  | coded_nil : coded [] []
  | coded_cons vals b1 b2 :
      vals ≠ [] → Forall is_u64 vals →
      IntegerPack.frame_of_reference_encode_128 (take 128 vals) = Some b1 →
      coded (drop 128 vals) b2 → coded vals (b1 ++ b2).

Lemma frame_decode vals b1 rest :
  Forall is_u64 vals → (length vals ≤ 128)%nat →
  IntegerPack.frame_of_reference_encode_128 vals = Some b1 →
  IntegerPack.frame_of_reference_decode_128 (length vals) (b1 ++ rest) = Some (vals, rest).
Proof.
  intros Hv Hl Hb. destruct (IntegerPack.frame_of_reference_round_trip vals Hv Hl) as (b & E & Hd).
  rewrite Hb in E. injection E as <-. apply Hd.
Qed.

Lemma frame_encodes vals :
  Forall is_u64 vals → (length vals ≤ 128)%nat →
  is_Some (IntegerPack.frame_of_reference_encode_128 vals).
Proof.
  intros Hv Hl. destruct (IntegerPack.frame_of_reference_round_trip vals Hv Hl) as (b & E & _). eauto.
Qed.

(** The numbers of a column: its values that are not UNDEFINED all read as integers. *)
Definition numbers (data : list flexible_type) (xs : list Z) : Prop :=
  mapM get_flex_int (defined data) = Some xs.

Lemma collect_spec data n xs :
  numbers data xs →
  ∃ rest, collect data n = Some (map u64 (take n xs), rest) ∧
    numbers rest (drop n xs) ∧ (length rest ≤ length data)%nat ∧
    (data ≠ [] → (0 < n)%nat → (length rest < length data)%nat).
Proof.
  unfold numbers. revert n xs. induction data as [|v data IH]; intros n xs Hx.
  { injection Hx as <-. exists []. rewrite take_nil, drop_nil. by destruct n. }
  rewrite defined_cons in Hx. destruct n as [|n].
  { exists (v :: data). rewrite take_0, drop_0. split_and!; [done| |done|lia]. by rewrite defined_cons. }
  cbn [collect]. destruct (is_undefined v) eqn:E.
  - destruct (IH (S n) xs Hx) as (rest & -> & Hr & Hl & Hlt). exists rest.
    split_and!; [done|done|simpl; lia|simpl; lia].
  - cbn [mapM] in Hx. apply bind_Some in Hx as (x & Hx & (xs' & Hxs & [= <-])%bind_Some).
    destruct (IH n xs' Hxs) as (rest & Hc & Hr & Hl & _). exists rest.
    rewrite Hx. cbn [mbind option_bind]. rewrite Hc.
    split_and!; [done|done|simpl; lia|simpl; lia].
Qed.

Lemma encode_blocks_coded post fuel data xs :
  numbers data xs → (length data ≤ fuel)%nat → (∀ x, is_u64 x → is_u64 (post x)) →
  ∃ bs, encode_blocks post fuel data = Some bs ∧ coded (map post (map u64 xs)) bs.
Proof.
  intros Hx Hf Hp. revert data xs Hx Hf.
  induction fuel as [|fuel IH]; intros [|v data] xs Hx Hf;
    try (injection Hx as <-; exists []; split; [done|constructor]); [simpl in Hf; lia|].
  cbn [encode_blocks]. change MAX_INTEGERS_PER_BLOCK with 128%nat.
  destruct (collect_spec (v :: data) 128 xs Hx) as (rest & -> & Hr & _ & Hlt).
  cbn [mbind option_bind]. specialize (Hlt ltac:(done) ltac:(lia)).
  destruct xs as [|x xs].
  { exists []. split; [done|constructor]. }
  destruct (Nat.eqb_spec (length (map u64 (take 128 (x :: xs)))) 0) as [Hz|_]; [done|].
  destruct (IH rest (drop 128 (x :: xs)) Hr) as (b2 & -> & Hc2); [simpl in *; lia|].
  assert (Forall is_u64 (map post (map u64 (x :: xs)))) as Hu.
  { apply Forall_map, Forall_map, Forall_forall. intros y _. apply Hp, uw_range. lia. }
  destruct (frame_encodes (map post (map u64 (take 128 (x :: xs))))) as [b1 Hb1].
  { rewrite <- !firstn_map. by apply Forall_take. }
  { rewrite !length_map, length_take. lia. }
  rewrite Hb1. exists (b1 ++ b2). split; [done|]. constructor; [done|done| |].
  - by rewrite !firstn_map.
  - by rewrite !skipn_map.
Qed.

Lemma read_blocks_coded vals bs fuel rest :
  coded vals bs → (length vals ≤ fuel)%nat →
  read_blocks fuel (length vals) (bs ++ rest) = Some (vals, rest).
Proof.
  intros Hc. revert fuel rest. induction Hc as [|vals b1 b2 Hne Hu Hb1 Hc IH]; intros fuel rest Hf.
  { by destruct fuel. }
  destruct fuel as [|fuel]; [destruct vals; simpl in *; done || lia|].
  assert (0 < length vals)%nat by (destruct vals; simpl; done || lia).
  cbn [read_blocks]. destruct (length vals) as [|k] eqn:Hk; [lia|]. rewrite <- Hk.
  change MAX_INTEGERS_PER_BLOCK with 128%nat. rewrite <- app_assoc.
  replace (Nat.min (length vals) 128) with (length (take 128 vals)) by (rewrite length_take; lia).
  erewrite reader_bind_Some.
  2:{ apply frame_decode; [by apply Forall_take|rewrite length_take; lia|done]. }
  replace (length vals - length (take 128 vals))%nat with (length (drop 128 vals))
    by (rewrite length_take, length_drop; lia).
  erewrite reader_bind_Some by (apply IH; rewrite length_drop; lia).
  unfold mret, reader_ret. by rewrite take_drop.
Qed.

(** A place of [ret] that is not UNDEFINED takes the number [x] as [mk x]. *)
Definition takes (mk : Z → flexible_type) (v : flexible_type) : Prop :=
  is_undefined v = true ∨ ∀ x, set_flex_int x v = Some (mk x).

Lemma takes_blank ct data : ct = INTEGER ∨ ct = FLOAT →
  Forall (takes (if decide (ct = INTEGER) then λ x, FInt (s64 x) else λ x, FFloat (u64 x)))
    (map (blank ct) data).
Proof.
  intros Hct. apply Forall_map, Forall_forall. intros v _. unfold blank, takes.
  destruct (is_undefined v); [by left|right]. intros x. by destruct Hct as [-> | ->].
Qed.

Lemma decode_loop_coded post mk ret p vals bs buf bufstart buflen rest :
  coded vals bs → Forall (takes mk) ret → drop bufstart buf = map post p →
  length buf = buflen → (bufstart ≤ buflen)%nat →
  length (defined ret) = length (p ++ vals) → is_u64 (Z.of_nat (length (p ++ vals))) →
  decode_loop post ret buf bufstart buflen (Z.of_nat (length (p ++ vals))) (bs ++ rest)
  = Some (fill ret (map mk (map post (p ++ vals))), rest).
Proof.
  intros Hc Hr. revert p vals bs buf bufstart buflen Hc.
  induction Hr as [|v ret Hv Hr IH]; intros p vals bs buf bufstart buflen Hc Hdrop Hbuf Hle Hlen Hu.
  { simpl in Hlen. destruct p; [|done]. destruct vals; [|done].
    inversion Hc; subst; [done|]. done. }
  rewrite defined_cons in Hlen. cbn [decode_loop fill]. destruct Hv as [Hv|Hv].
  { rewrite Hv in Hlen |- *. by erewrite reader_bind_Some by (by apply IH). }
  assert (is_undefined v = false) as Hnv.
  { destruct (is_undefined v) eqn:E; [|done]. apply is_undefined_true in E as ->. by specialize (Hv 0). }
  rewrite Hnv in Hlen |- *. cbn [length] in Hlen.
  assert (∀ n, is_u64 (Z.of_nat (S n)) → u64 (Z.of_nat (S n) - 1) = Z.of_nat n) as Hpred.
  { intros n Hn. rewrite uw_small; unfold is_u in *; lia. }
  assert (∀ n, is_u64 (Z.of_nat (S n)) → is_u64 (Z.of_nat n)) as Hup by (unfold is_u; lia).
  destruct p as [|x p].
  - (* the buffer is empty: the next block is read *)
    assert (¬ (bufstart < buflen)%nat) as Hns.
    { apply (f_equal length) in Hdrop. rewrite length_drop, length_map in Hdrop. simpl in Hdrop. lia. }
    destruct (Nat.ltb_spec bufstart buflen); [done|].
    destruct vals as [|x vals]; [done|]. inversion Hc as [|? b1 b2 _ Hu64 Hb1 Hc2]; subst.
    change MAX_INTEGERS_PER_BLOCK with 128%nat. rewrite app_nil_l, <- app_assoc in *.
    replace (Z.to_nat (Z.min (Z.of_nat (length (x :: vals))) (Z.of_nat 128)))
      with (length (take 128 (x :: vals))) by (rewrite length_take; lia).
    erewrite reader_bind_Some.
    2:{ apply frame_decode; [by apply Forall_take|rewrite length_take; lia|done]. }
    cbv zeta. rewrite (reader_bind_Some _ _ _ (post x) (b2 ++ rest)) by done.
    rewrite (reader_bind_Some _ _ _ (mk (post x)) (b2 ++ rest))
      by (unfold rlift; by rewrite Hv).
    cbn [length] in *. rewrite Hpred by done.
    assert (vals = take 127 vals ++ drop 127 vals) as Hsplit by (by rewrite take_drop).
    replace (Z.of_nat (length vals)) with (Z.of_nat (length (take 127 vals ++ drop 127 vals)))
      by (by rewrite <- Hsplit).
    erewrite reader_bind_Some.
    2:{ apply (IH (take 127 vals) (drop 127 vals) b2); rewrite <- ?Hsplit; try done.
        - by rewrite length_map.
        - simpl. lia.
        - lia.
        - by apply Hup. }
    rewrite <- Hsplit. done.
  - (* the next number is in the buffer *)
    assert (bufstart < buflen)%nat as Hs.
    { apply (f_equal length) in Hdrop. rewrite length_drop, length_map in Hdrop. simpl in Hdrop. lia. }
    destruct (Nat.ltb_spec bufstart buflen); [|lia]. cbn [map] in Hdrop.
    assert (buf !! bufstart = Some (post x)) as Hx.
    { rewrite <- (Nat.add_0_r bufstart), <- lookup_drop, Hdrop. done. }
    rewrite (reader_bind_Some _ _ _ (post x) (bs ++ rest)) by (unfold rlift; by rewrite Hx).
    rewrite (reader_bind_Some _ _ _ (mk (post x)) (bs ++ rest)) by (unfold rlift; by rewrite Hv).
    cbn [app length] in *. rewrite Hpred by done.
    erewrite reader_bind_Some.
    2:{ apply IH; [done| |done|lia|lia|by apply Hup].
        replace (S bufstart) with (bufstart + 1)%nat by lia. by rewrite <- drop_drop, Hdrop. }
    done.
Qed.

(** ** Integers *)

(** The number of values a decoder expects. *)
Definition undefined_count (data : list flexible_type) : Z :=
  Z.of_nat (length data) - Z.of_nat (length (defined data)).

Lemma length_defined data : (length (defined data) ≤ length data)%nat.
Proof. unfold defined. induction data as [|v data IH]; simpl; [done|]. destruct (is_undefined v); simpl; lia. Qed.

Lemma defined_no_undefined data :
  Forall (λ v, is_undefined v = false) data → defined data = data.
Proof. induction 1 as [|v data Hv _ IH]; [done|]. by rewrite defined_cons, Hv, IH. Qed.

Lemma defined_defined data : Forall (λ v, is_undefined v = false) (defined data).
Proof.
  apply Forall_forall. intros v. unfold defined. rewrite list_elem_of_In, filter_In, negb_true_iff.
  tauto.
Qed.

Lemma fill_all ret vals :
  Forall (λ v, is_undefined v = false) ret → length vals = length ret → fill ret vals = vals.
Proof.
  intros Hr. revert vals. induction Hr as [|v ret Hv _ IH]; intros [|x vals] Hl; try done.
  cbn [fill]. rewrite Hv. by rewrite IH by (simpl in Hl; lia).
Qed.

Lemma map_fill (g : flexible_type → flexible_type) ret vals :
  (∀ v, is_undefined (g v) = is_undefined v) →
  map g (fill ret vals) = fill (map g ret) (map g vals).
Proof.
  intros Hg. revert vals. induction ret as [|v ret IH]; intros vals; [done|].
  cbn [fill map]. rewrite Hg. destruct (is_undefined v); [cbn [map]; by rewrite IH|].
  destruct vals as [|x vals]; cbn [map]; [by rewrite (IH [])|by rewrite IH].
Qed.

Lemma num_to_read ret n :
  length (defined ret) = n → is_u64 (Z.of_nat (length ret)) →
  u64 (Z.of_nat (length ret) - undefined_count ret) = Z.of_nat n.
Proof.
  intros <- Hu. pose proof (length_defined ret). unfold undefined_count.
  rewrite uw_small; unfold is_u in *; lia.
Qed.

(** Decoding into [ret] from the start of the blocks. *)
Lemma decode_blocks_coded post mk ret vals bs rest :
  coded vals bs → Forall (takes mk) ret → length (defined ret) = length vals →
  is_u64 (Z.of_nat (length ret)) →
  decode_loop post ret [] 0 0 (u64 (Z.of_nat (length ret) - undefined_count ret)) (bs ++ rest)
  = Some (fill ret (map mk (map post vals)), rest).
Proof.
  intros Hc Hr Hl Hu. rewrite (num_to_read ret (length vals)) by done.
  pose proof (length_defined ret).
  apply (decode_loop_coded post mk ret [] vals); try done.
  simpl. unfold is_u in *. lia.
Qed.

(** What it means that [w] holds the column [data] for both decoders. *)
Definition holds_column (w : writer) (batch stream : reader (list flexible_type))
    (data : list flexible_type) : Prop :=
  ∃ bs, w = Some bs ∧ (∀ rest, batch (bs ++ rest) = Some (data, rest)) ∧
    ∀ rest, stream (bs ++ rest) = Some (defined data, rest).

Lemma numbers_ints data xs : defined data = map FInt xs → numbers data xs.
Proof.
  unfold numbers. intros ->. induction xs as [|x xs IH]; [done|]. cbn. by rewrite IH.
Qed.

Lemma undefined_count_blank ct data : ct ≠ UNDEFINED →
  undefined_count (map (blank ct) data) = undefined_count data.
Proof. intros. unfold undefined_count. by rewrite length_map, defined_blank. Qed.

Lemma map_s64_u64 xs : Forall is_s64 xs → map (λ x, s64 (u64 x)) xs = xs.
Proof.
  induction 1 as [|x xs Hx _ IH]; [done|]. cbn [map]. by rewrite IH, sw_uw, sw_small.
Qed.

Lemma number_column data xs :
  defined data = map FInt xs → Forall is_s64 xs → is_u64 (Z.of_nat (length data)) →
  holds_column (encode_number data)
    (decode_number (map (blank INTEGER) data) (undefined_count data))
    (decode_number_stream (length xs)) data.
Proof.
  intros Hd Hs Hu. pose proof (f_equal length Hd) as Hl. rewrite length_map in Hl.
  destruct (encode_blocks_coded (λ x, x) (length data) data xs (numbers_ints _ _ Hd))
    as (bs & He & Hc); [done|done|]. rewrite map_id in Hc.
  exists bs. split_and!; [done| |]; intros rest.
  - unfold decode_number. rewrite <- (undefined_count_blank INTEGER data) by done.
    rewrite (decode_blocks_coded _ (λ x, FInt (s64 x)) _ (map u64 xs)); [..|by rewrite length_map];
      [|done|by apply (takes_blank INTEGER); left|by rewrite defined_blank, length_map by done].
    rewrite map_id, map_map, <- (map_map (λ x, s64 (u64 x)) FInt), map_s64_u64, <- Hd by done.
    by rewrite fill_blank.
  - unfold decode_number_stream.
    erewrite reader_bind_Some.
    2:{ rewrite <- (length_map u64 xs). by apply read_blocks_coded. }
    unfold mret, reader_ret.
    by rewrite map_map, <- (map_map (λ x, s64 (u64 x)) FInt), map_s64_u64, <- Hd by done.
Qed.

(** A list of numbers without UNDEFINED, decoded over default values. *)
Lemma number_list xs : Forall is_s64 xs → is_u64 (Z.of_nat (length xs)) →
  encodes (encode_number (map FInt xs)) (decode_number (replicate (length xs) (reset INTEGER)) 0)
    (map FInt xs).
Proof.
  intros Hs Hu.
  assert (Forall (λ v, is_undefined v = false) (map FInt xs)) as Hn by (by apply Forall_map, Forall_forall).
  destruct (number_column (map FInt xs) xs) as (bs & He & Hb & _);
    [by apply defined_no_undefined|done|by rewrite length_map|].
  exists bs. split; [done|]. intros rest. rewrite <- Hb.
  unfold undefined_count. rewrite (defined_no_undefined _ Hn), Z.sub_diag.
  replace (replicate (length xs) (reset INTEGER)) with (map (blank INTEGER) (map FInt xs)); [done|].
  clear. induction xs as [|x xs IH]; [done|]. cbn [map length replicate]. by rewrite IH.
Qed.

(** ** Doubles *)

Lemma rotate_right_left x : is_u64 x → rotate_right (rotate_left x) = x.
Proof.
  intros Hx. unfold is_u in Hx. unfold rotate_right, rotate_left.
  assert (0 ≤ x / 2 ^ 63 ≤ 1) as Hh.
  { split; [apply Z.div_pos; lia|]. apply Z.lt_succ_r, Z.div_lt_upper_bound; lia. }
  rewrite (Z.shiftl_mul_pow2 x), (Z.shiftr_div_pow2 x 63) by lia.
  set (h := x / 2 ^ 63) in *. set (l := x mod 2 ^ 63).
  pose proof (Z.div_mod x (2 ^ 63)) as Hdm. fold h l in Hdm.
  assert (0 ≤ l < 2 ^ 63) as Hl by (apply Z.mod_pos_bound; lia).
  assert (u64 (x * 2 ^ 1) = l ≪ 1) as ->.
  { rewrite Z.shiftl_mul_pow2 by lia. unfold uw. symmetry.
    apply Z.mod_unique with (q := h); lia. }
  rewrite (shiftl_lor_add h l 1) by lia.
  replace ((l * 2 ^ 1 + h) ≫ 1) with l.
  2:{ rewrite Z.shiftr_div_pow2 by lia. apply Z.div_unique with (r := h); lia. }
  replace (u64 ((l * 2 ^ 1 + h) ≪ 63)) with (h ≪ 63).
  2:{ rewrite !Z.shiftl_mul_pow2 by lia. unfold uw. apply Z.mod_unique with (q := l); lia. }
  rewrite Z.lor_comm, (shiftl_lor_add l h 63) by lia. lia.
Qed.

Lemma rotate_left_range x : is_u64 x → is_u64 (rotate_left x).
Proof.
  intros Hx. apply lor_range; [lia|by apply uw_range|].
  unfold is_u in *. rewrite Z.shiftr_div_pow2 by lia.
  split; [apply Z.div_pos; lia|]. apply Z.div_lt_upper_bound; lia.
Qed.

Lemma fill_blank_any ct ct' data vals : ct ≠ UNDEFINED → ct' ≠ UNDEFINED →
  length vals = length (defined data) →
  fill (map (blank ct) data) vals = fill (map (blank ct') data) vals.
Proof.
  intros H1 H2. revert vals. induction data as [|v data IH]; intros vals Hl; [done|].
  rewrite defined_cons in Hl. cbn [map fill]. rewrite !is_undefined_blank by done.
  destruct (is_undefined v) eqn:E; [unfold blank at 1 3; rewrite E; by rewrite IH|].
  destruct vals as [|x vals]; [done|]. by rewrite IH by (simpl in Hl; lia).
Qed.

Lemma numbers_floats data bits : defined data = map FFloat bits → numbers data (map s64 bits).
Proof.
  unfold numbers. intros ->. induction bits as [|x bits IH]; [done|]. cbn. by rewrite IH.
Qed.

Lemma map_u64_s64 bits : Forall is_u64 bits → map u64 (map s64 bits) = bits.
Proof.
  induction 1 as [|x xs Hx _ IH]; [done|]. cbn [map]. by rewrite IH, uw_sw, uw_small.
Qed.

Lemma map_rotate bits : Forall is_u64 bits → map rotate_right (map rotate_left bits) = bits.
Proof.
  induction 1 as [|x xs Hx _ IH]; [done|]. cbn [map]. by rewrite IH, rotate_right_left.
Qed.

(** Values that read as the given doubles, over the places that are not UNDEFINED. *)
Definition reads_as (ct : flex_type_enum) (bits : list Z) (vals : list flexible_type) : Prop :=
  mapM get_flex_float vals = Some bits ∧ length vals = length bits ∧
  (ct = FLOAT → vals = map FFloat bits).

Lemma reads_as_floats ct bits : reads_as ct bits (map FFloat bits).
Proof.
  split_and!; [|by rewrite length_map|done].
  induction bits as [|b bits IH]; [done|]. cbn. by rewrite IH.
Qed.

Lemma reads_as_blocks ct bits : ct = INTEGER ∨ ct = FLOAT → Forall is_u64 bits →
  reads_as ct bits (map (if decide (ct = INTEGER) then λ x, FInt (s64 x) else λ x, FFloat (u64 x)) bits).
Proof.
  intros Hct Hb. split_and!; [|by rewrite length_map|intros ->].
  - induction Hb as [|b bits Hb _ IH]; [done|]. cbn [map mapM]. rewrite IH.
    destruct Hct as [-> | ->]; cbn [decide get_flex_float mbind option_bind mret option_ret];
      [rewrite decide_True by done|rewrite decide_False by done];
      cbn [get_flex_float mbind option_bind]; by rewrite ?uw_sw, uw_small.
  - rewrite decide_False by done. induction Hb as [|b bits Hb _ IH]; [done|]. cbn [map].
    by rewrite IH, uw_small.
Qed.

Lemma double_legacy_blocks ct data bits :
  ct = INTEGER ∨ ct = FLOAT → defined data = map FFloat bits → Forall is_u64 bits →
  is_u64 (Z.of_nat (length data)) →
  ∃ bs vals, encode_double_legacy data = Some bs ∧ reads_as ct bits vals ∧
    (∀ rest, decode_double_legacy (map (blank ct) data) (undefined_count data) (bs ++ rest)
      = Some (fill (map (blank ct) data) vals, rest)) ∧
    ∀ rest, decode_double_stream_legacy (length bits) (bs ++ rest) = Some (map FFloat bits, rest).
Proof.
  intros Hct Hd Hb Hu. pose proof (f_equal length Hd) as Hl. rewrite length_map in Hl.
  assert (ct ≠ UNDEFINED) as Hcu by (by destruct Hct as [-> | ->]).
  destruct (encode_blocks_coded rotate_left (length data) data _ (numbers_floats _ _ Hd))
    as (bs & He & Hc); [done|apply rotate_left_range|]. rewrite map_u64_s64 in Hc by done.
  exists bs, (map (if decide (ct = INTEGER) then λ x, FInt (s64 x) else λ x, FFloat (u64 x)) bits).
  split_and!; [done|by apply reads_as_blocks| |]; intros rest.
  - unfold decode_double_legacy. rewrite <- (undefined_count_blank ct data) by done.
    rewrite (decode_blocks_coded _ _ _ _ _ _ Hc (takes_blank ct data Hct));
      [|by rewrite defined_blank, length_map by done|by rewrite length_map].
    by rewrite map_rotate.
  - unfold decode_double_stream_legacy. erewrite reader_bind_Some.
    2:{ rewrite <- (length_map rotate_left bits). by apply read_blocks_coded. }
    unfold mret, reader_ret. by rewrite <- (map_map rotate_right FFloat), map_rotate.
Qed.

(** Whether a value can be UNDEFINED is all that a change of type keeps. *)
Lemma integer_to_float_undefined v : is_undefined (integer_to_float v) = is_undefined v.
Proof. by destruct v. Qed.

Section doubles.
Context (oob : Z → Z) (oob_range : ∀ x, is_s64 (oob x)).

Abbreviation recode := (λ b, Float64.i2f (Float64.f2i oob b)).

(** What the decoders give back for the doubles [bits]. *)
Definition stored (bits : list Z) : list Z :=
  if forallb (λ b, Float64.feq (recode b) b) bits then map recode bits else bits.

(** Equal, or a negative zero that became positive. *)
Definition zero_sign_lost (b b' : Z) : Prop :=
  b' = b ∨ (b = Float64.neg_zero ∧ b' = Float64.pos_zero).

Lemma stored_same bits : Forall is_u64 bits → Forall2 zero_sign_lost bits (stored bits).
Proof.
  intros Hb. unfold stored. destruct (forallb _ bits) eqn:E.
  - rewrite forallb_forall in E. rewrite Forall_forall in Hb. apply Forall2_fmap_r with (f := recode).
    apply Forall_Forall2_diag, Forall_forall. intros b Hin. unfold zero_sign_lost.
    destruct (Float64.integer_code_safe oob b oob_range (Hb b Hin)) as [| ->]; [|by left|by right].
    by apply E, list_elem_of_In.
  - apply Forall_Forall2_diag, Forall_forall. by left.
Qed.

Lemma length_stored bits : length (stored bits) = length bits.
Proof. unfold stored. destruct (forallb _ _); [apply length_map|done]. Qed.

Lemma integer_safe_defined data bits :
  defined data = map FFloat bits →
  forallb (integer_safe oob) data = forallb (λ b, Float64.feq (recode b) b) bits.
Proof.
  revert bits. induction data as [|v data IH]; intros bits Hd.
  { by destruct bits. }
  rewrite defined_cons in Hd. destruct (is_undefined v) eqn:E.
  - apply is_undefined_true in E as ->. cbn [forallb integer_safe]. by rewrite (IH bits).
  - destruct bits as [|b bits]; [done|]. injection Hd as -> Hd. cbn [forallb integer_safe].
    by rewrite (IH bits).
Qed.

Lemma to_integer_defined data bits :
  defined data = map FFloat bits →
  defined (map (to_integer oob) data) = map FInt (map (Float64.f2i oob) bits).
Proof.
  revert bits. induction data as [|v data IH]; intros bits Hd.
  { by destruct bits. }
  rewrite defined_cons in Hd. destruct (is_undefined v) eqn:E.
  - apply is_undefined_true in E as ->. cbn [map to_integer]. by rewrite defined_cons, (IH bits).
  - destruct bits as [|b bits]; [done|]. injection Hd as -> Hd. cbn [map to_integer].
    rewrite defined_cons. cbn. by rewrite (IH bits).
Qed.

Lemma blank_to_integer ct data : ct = INTEGER ∨ ct = FLOAT →
  map float_to_integer_type (map (blank ct) data) = map (blank INTEGER) (map (to_integer oob) data).
Proof.
  intros Hct. rewrite !map_map. apply map_ext. intros v. unfold blank.
  replace (is_undefined (to_integer oob v)) with (is_undefined v) by (by destruct v).
  by destruct (is_undefined v), Hct as [-> | ->].
Qed.

Lemma double_blocks ct data bits :
  ct = INTEGER ∨ ct = FLOAT → defined data = map FFloat bits → Forall is_u64 bits →
  is_u64 (Z.of_nat (length data)) →
  ∃ bs vals, encode_double oob data = Some bs ∧ reads_as ct (stored bits) vals ∧
    (∀ rest, decode_double (map (blank ct) data) (undefined_count data) (bs ++ rest)
      = Some (fill (map (blank ct) data) vals, rest)) ∧
    ∀ rest, decode_double_stream (length bits) (bs ++ rest)
      = Some (map FFloat (stored bits), rest).
Proof.
  intros Hct Hd Hb Hu. unfold encode_double, stored. rewrite (integer_safe_defined _ _ Hd).
  assert (∀ c l, read_le 1 (c :: l) = Some (c, l)) as Hread.
  { intros c l. unfold read_le. change (c :: l) with ([c] ++ l). rewrite read_bind by done.
    cbn. by rewrite Z.add_0_r. }
  destruct (forallb _ bits).
  - set (ints := map (Float64.f2i oob) bits).
    assert (Forall is_s64 ints) as Hi.
    { apply Forall_map, Forall_forall. intros b _. by apply Float64.f2i_range. }
    destruct (number_column (map (to_integer oob) data) ints) as (bs & He & Hdec & Hstr);
      [by apply to_integer_defined|done|by rewrite length_map|].
    rewrite He. exists (INTEGER_ENCODING :: bs), (map FFloat (map recode bits)).
    split_and!; [done|apply reads_as_floats| |]; intros rest; cbn [app].
    + unfold decode_double. rewrite (reader_bind_Some _ _ _ _ _ (Hread _ _)). cbv zeta.
      change (s8 INTEGER_ENCODING) with 1. cbn [Z.ltb Z.eqb negb]. cbn.
      rewrite (blank_to_integer ct data) by done.
      replace (undefined_count data) with (undefined_count (map (to_integer oob) data)).
      2:{ unfold undefined_count. rewrite length_map, (to_integer_defined _ _ Hd), Hd.
          by rewrite !length_map. }
      rewrite (reader_bind_Some _ _ _ _ _ (Hdec _)). unfold mret, reader_ret. do 2 f_equal.
      rewrite <- (fill_blank INTEGER (map (to_integer oob) data)) by done.
      rewrite (map_fill integer_to_float) by apply integer_to_float_undefined.
      rewrite (to_integer_defined _ _ Hd).
      transitivity (fill (map (blank FLOAT) data) (map FFloat (map recode bits))).
      * f_equal.
        -- rewrite !map_map. apply map_ext. intros v. unfold blank.
           replace (is_undefined (to_integer oob v)) with (is_undefined v) by (by destruct v).
           by destruct (is_undefined v).
        -- unfold ints. by rewrite !map_map.
      * apply fill_blank_any; [done|by destruct Hct as [-> | ->]|].
        by rewrite Hd, !length_map.
    + unfold decode_double_stream. rewrite (reader_bind_Some _ _ _ _ _ (Hread _ _)). cbv zeta.
      change (s8 INTEGER_ENCODING) with 1. cbn.
      replace (length bits) with (length ints) by apply length_map.
      rewrite (reader_bind_Some _ _ _ _ _ (Hstr _)). unfold mret, reader_ret.
      rewrite (to_integer_defined _ _ Hd). unfold ints. by rewrite !map_map.
  - destruct (double_legacy_blocks ct data bits Hct Hd Hb Hu) as (bs & vals & He & Hv & Hdec & Hstr).
    rewrite He. exists (LEGACY_ENCODING :: bs), vals.
    split_and!; [done|done| |]; intros rest; cbn [app].
    + unfold decode_double. rewrite (reader_bind_Some _ _ _ _ _ (Hread _ _)). apply Hdec.
    + unfold decode_double_stream. rewrite (reader_bind_Some _ _ _ _ _ (Hread _ _)). apply Hstr.
Qed.
End doubles.

(** ** Storing decoded values *)

Lemma fill_nil ret : fill ret [] = ret.
Proof. induction ret as [|v ret IH]; [done|]. cbn. destruct (is_undefined v); by rewrite IH. Qed.

Lemma store_all_skip pre v ret x vals : is_undefined v = true →
  store_all (pre ++ v :: ret) (length pre) (x :: vals)
  = store_all ((pre ++ [v]) ++ ret) (length (pre ++ [v])) (x :: vals).
Proof.
  intros E. cbn [store_all].
  assert (skip_undefined (drop (length pre) (pre ++ v :: ret)) (length pre)
    = skip_undefined (drop (length (pre ++ [v])) ((pre ++ [v]) ++ ret)) (length (pre ++ [v]))) as ->.
  { rewrite !drop_app_length. cbn [skip_undefined]. rewrite E. f_equal.
    rewrite length_app. simpl. lia. }
  by rewrite <- app_assoc.
Qed.

Lemma store_all_fill pre ret vals :
  length vals = length (defined ret) →
  store_all (pre ++ ret) (length pre) vals = Some (pre ++ fill ret vals).
Proof.
  revert pre vals. induction ret as [|v ret IH]; intros pre vals Hl.
  { by destruct vals. }
  rewrite defined_cons in Hl. cbn [fill]. destruct (is_undefined v) eqn:E.
  - destruct vals as [|x vals]; [by rewrite fill_nil|].
    rewrite store_all_skip, IH by done. by rewrite <- app_assoc.
  - destruct vals as [|x vals]; [done|]. cbn [store_all].
    rewrite drop_app_length. cbn [skip_undefined]. rewrite E.
    rewrite length_app. cbn [length]. destruct (Nat.ltb_spec (length pre) (length pre + S (length ret))); [|lia].
    rewrite insert_app_r_alt, Nat.sub_diag by lia. cbn [insert list_insert].
    replace (pre ++ x :: ret) with ((pre ++ [x]) ++ ret) by (by rewrite <- app_assoc).
    replace (S (length pre)) with (length (pre ++ [x])) by (rewrite length_app; simpl; lia).
    rewrite IH by (simpl in Hl; lia). by rewrite <- app_assoc.
Qed.

Lemma store_all_blank ct data vals : ct ≠ UNDEFINED → length vals = length (defined data) →
  store_all (map (blank ct) data) 0 vals = Some (fill (map (blank ct) data) vals).
Proof.
  intros Hct Hl. pose proof (store_all_fill [] (map (blank ct) data) vals) as H.
  rewrite defined_blank in H by done. exact (H Hl).
Qed.

Lemma num_values_blank ct data : ct ≠ UNDEFINED → is_u64 (Z.of_nat (length data)) →
  num_values (map (blank ct) data) (undefined_count data) = length (defined data).
Proof.
  intros Hct Hu. unfold num_values. rewrite <- (undefined_count_blank ct data) by done.
  rewrite (num_to_read _ (length (defined data))); [lia|by rewrite defined_blank|by rewrite length_map].
Qed.

(** A column held for the stream decoder is held for the decoder that stores what it yields. *)
Lemma stored_column ct w (stream : nat → reader (list flexible_type)) data vals :
  ct ≠ UNDEFINED → is_u64 (Z.of_nat (length data)) → length vals = length (defined data) →
  encodes w (stream (length (defined data))) vals →
  ∃ bs, w = Some bs ∧ (∀ rest, stream (length (defined data)) (bs ++ rest) = Some (vals, rest)) ∧
    ∀ rest, (vals ← stream (num_values (map (blank ct) data) (undefined_count data));
      rlift (store_all (map (blank ct) data) 0 vals)) (bs ++ rest)
      = Some (fill (map (blank ct) data) vals, rest).
Proof.
  intros Hct Hu Hl (bs & Hw & Hs). exists bs. split_and!; [done|done|]. intros rest.
  rewrite num_values_blank by done. rewrite (reader_bind_Some _ _ _ _ _ (Hs _)).
  unfold rlift. by rewrite store_all_blank.
Qed.

(** ** Strings *)

Lemma as_index_of_size n : is_u64 (Z.of_nat n) → as_index (of_size_t n) = Some n.
Proof.
  intros. unfold as_index, of_size_t. cbn. by rewrite uw_sw, uw_small, Nat2Z.id.
Qed.

Lemma size_list (ns : list nat) :
  is_u64 (Z.of_nat (length ns)) →
  encodes (encode_number (map of_size_t ns))
    (decode_number (replicate (length ns) (reset INTEGER)) 0) (map of_size_t ns).
Proof.
  intros Hu. unfold of_size_t.
  rewrite <- (map_map (λ n, s64 (Z.of_nat n)) FInt), <- (length_map (λ n, s64 (Z.of_nat n)) ns).
  apply number_list; [|by rewrite length_map].
  apply Forall_map, Forall_forall. intros n _. apply sw_range.
Qed.

(** The table of the strings seen and the list of them agree. *)
Record dictionary (m : gmap (list Z) nat) (strs : list (list Z)) : Prop := {
  dict_lookup : ∀ s i, m !! s = Some i ↔ strs !! i = Some s;
  dict_size : base.size m = length strs;
  dict_small : (length strs ≤ 64)%nat;
}.

Lemma dictionary_empty : dictionary ∅ [].
Proof. split; [|by rewrite map_size_empty|simpl; lia]. intros s i. by rewrite lookup_empty, lookup_nil. Qed.

Lemma dictionary_insert m strs s :
  dictionary m strs → m !! s = None → (base.size m < 64)%nat →
  dictionary (<[s := base.size m]> m) (strs ++ [s]).
Proof.
  intros [Hl Hs Hsm] Hn Hlt. split.
  - intros s' i. rewrite lookup_insert_Some, Hl, lookup_snoc_Some, Hs. split.
    + intros [[<- <-]|[Hne Hi]]; [by right|left]. split; [by eapply lookup_lt_Some|done].
    + intros [[Hi Hs']|[-> <-]]; [right|by left]. split; [|done].
      intros <-. apply Hl in Hs'. by rewrite Hn in Hs'.
  - rewrite map_size_insert_None, length_app by done. simpl. lia.
  - rewrite length_app. simpl. lia.
Qed.

Lemma lookups_extend strs s idxs (prev : list (list Z)) :
  mapM (λ i, strs !! i) idxs = Some prev → mapM (λ i, (strs ++ [s]) !! i) idxs = Some prev.
Proof.
  rewrite !mapM_Some. intros H. eapply Forall2_impl; [done|]. intros i x Hi. by apply lookup_app_l_Some.
Qed.

Lemma lookups_snoc (strs : list (list Z)) idxs prev i s :
  mapM (λ i, strs !! i) idxs = Some prev → strs !! i = Some s →
  mapM (λ i, strs !! i) (idxs ++ [i]) = Some (prev ++ [s]).
Proof. rewrite !mapM_Some. intros H Hi. apply Forall2_app; [done|]. by constructor. Qed.

Lemma build_dictionary_spec data ss m strs idxs prev :
  defined data = map FString ss → dictionary m strs → mapM (λ i, strs !! i) idxs = Some prev →
  build_dictionary data m strs idxs = Some None ∨
  ∃ strs' idxs', build_dictionary data m strs idxs = Some (Some (strs', idxs')) ∧
    mapM (λ i, strs' !! i) idxs' = Some (prev ++ ss) ∧ (length strs' ≤ 64)%nat ∧
    Forall (λ s, s ∈ strs ++ ss) strs'.
Proof.
  revert ss m strs idxs prev. induction data as [|v data IH]; intros ss m strs idxs prev Hd Hdict Hp.
  { right. exists strs, idxs. destruct ss; [|done]. rewrite !app_nil_r.
    split_and!; [done|done|apply (dict_small _ _ Hdict)|by apply Forall_forall]. }
  rewrite defined_cons in Hd. cbn [build_dictionary]. destruct (is_undefined v) eqn:E; [by apply (IH _ _ _ _ prev)|].
  destruct ss as [|s ss]; [done|]. injection Hd as -> Hd. cbn [get_flex_string mbind option_bind].
  destruct (m !! s) as [i|] eqn:Hm.
  - destruct (IH ss m strs (idxs ++ [i]) (prev ++ [s]) Hd Hdict) as [?|(strs' & idxs' & Hb & Hl & Hs & Hin)].
    { apply lookups_snoc; [done|]. by apply (dict_lookup _ _ Hdict). }
    { by left. }
    right. exists strs', idxs'. rewrite <- app_assoc in Hl. split_and!; [done|done|done|].
    eapply Forall_impl; [done|]. intros x. rewrite !elem_of_app, elem_of_cons. tauto.
  - destruct (Nat.leb_spec 64 (base.size m)); [by left|].
    pose proof (dictionary_insert _ _ _ Hdict Hm ltac:(lia)) as Hdict'.
    destruct (IH ss _ _ (idxs ++ [base.size m]) (prev ++ [s]) Hd Hdict')
      as [?|(strs' & idxs' & Hb & Hl & Hs & Hin)].
    { apply lookups_snoc; [by apply lookups_extend|]. apply (dict_lookup _ _ Hdict').
      by rewrite lookup_insert_eq. }
    { by left. }
    right. exists strs', idxs'. rewrite <- app_assoc in Hl. split_and!; [done|done|done|].
    eapply Forall_impl; [done|]. intros x. by rewrite <- app_assoc.
Qed.

Lemma get_flex_strings ss : mapM get_flex_string (map FString ss) = Some ss.
Proof. induction ss as [|s ss IH]; [done|]. cbn. by rewrite IH. Qed.

Lemma counted_round_trip s : is_u64 (Z.of_nat (length s)) → encodes (write_counted s) read_counted s.
Proof.
  intros Hs. apply encodes_bind with (a := Z.of_nat (length s)).
  { by apply IntegerPack.variable_decode_encode. }
  rewrite Nat2Z.id. apply encodes_read.
Qed.

Lemma strings_round_trip ss :
  Forall (λ s, is_u64 (Z.of_nat (length s))) ss →
  encodes (Some (concat ss)) (read_strings (map (λ s, of_size_t (length s)) ss)) (map FString ss).
Proof.
  induction 1 as [|s ss Hs _ IH]; [apply encodes_ret|]. cbn [map read_strings concat].
  rewrite as_index_of_size by done.
  change (Some (s ++ concat ss)) with (Some [] +++ (Some s +++ Some (concat ss))).
  apply encodes_bind with (a := length s).
  { exists []. by split. }
  apply encodes_bind with (a := s); [apply encodes_read|].
  by apply encodes_map with (f := cons (FString s)).
Qed.

Lemma dictionary_decode strs idxs ss :
  (length strs ≤ 64)%nat → mapM (λ i, strs !! i) idxs = Some ss →
  mapM (λ v, i ← as_index v; s ← strs !! i; Some (FString s)) (map of_size_t idxs)
  = Some (map FString ss).
Proof.
  intros Hs. rewrite !mapM_Some. induction 1 as [|i s idxs ss Hi _ IH]; [constructor|].
  cbn [map]. constructor; [|done]. pose proof (lookup_lt_Some _ _ _ Hi).
  rewrite as_index_of_size by (unfold is_u; lia). cbn. by rewrite Hi.
Qed.

Lemma string_stream data ss :
  defined data = map FString ss → Forall (λ s, is_u64 (Z.of_nat (length s))) ss →
  is_u64 (Z.of_nat (length ss)) →
  encodes (encode_string data) (decode_string_stream (length ss)) (map FString ss).
Proof.
  intros Hd Hs Hu. unfold encode_string, decode_string_stream.
  destruct (build_dictionary_spec data ss ∅ [] [] [] Hd dictionary_empty eq_refl)
    as [Hb|(strs & idxs & Hb & Hl & Hsm & Hin)]; rewrite Hb; cbn [mbind option_bind].
  - rewrite Hd, get_flex_strings. cbn [option_bind].
    apply encodes_bind with (a := 0); [by apply encodes_le|]. cbn [Z.eqb negb].
    replace (length ss) with (length (map length ss)) by apply length_map.
    rewrite <- (map_map length of_size_t).
    apply encodes_bind with (a := map of_size_t (map length ss)).
    { apply size_list. by rewrite length_map. }
    rewrite map_map. by apply strings_round_trip.
  - apply encodes_bind with (a := 1); [by apply encodes_le|]. cbn [Z.eqb negb].
    apply encodes_bind with (a := Z.of_nat (length strs)).
    { apply IntegerPack.variable_decode_encode. unfold is_u. lia. }
    rewrite Nat2Z.id. apply encodes_bind with (a := strs).
    { apply encodes_many. rewrite Forall_forall in Hin, Hs |- *. intros s Hin'.
      apply counted_round_trip, Hs. apply (Hin s Hin'). }
    assert (length idxs = length ss) as Hli.
    { apply mapM_Some, Forall2_length in Hl. done. }
    rewrite <- Hli. apply encodes_lift with (a := map of_size_t idxs).
    + apply size_list. by rewrite Hli.
    + by apply dictionary_decode.
Qed.

(** ** Vectors *)

Lemma get_flex_vecs vs : mapM get_flex_vec (map FVec vs) = Some vs.
Proof. induction vs as [|v vs IH]; [done|]. cbn. by rewrite IH. Qed.

Lemma split_concat (R : Z → Z → Prop) vs bits :
  Forall2 R (concat vs) bits →
  ∃ vs', split_vectors (map length vs) bits = Some (map FVec vs') ∧ Forall2 (Forall2 R) vs vs'.
Proof.
  revert bits. induction vs as [|v vs IH]; intros bits H; [by exists []|]. cbn [map concat] in *.
  apply Forall2_app_inv_l in H as (b1 & b2 & H1 & H2 & ->).
  pose proof (Forall2_length _ _ _ H1) as Hl. destruct (IH b2 H2) as (vs' & Hs & Hr).
  exists (b1 :: vs'). cbn [split_vectors]. rewrite Hl, take_app_length, drop_app_length, Hs, length_app.
  destruct (Nat.ltb_spec (length b1 + length b2) (length b1)); [lia|]. split; [done|]. by constructor.
Qed.

Lemma sum_lengths (vs : list (list Z)) : sum_list (map length vs) = length (concat vs).
Proof. induction vs as [|v vs IH]; [done|]. cbn. by rewrite IH, length_app. Qed.

Lemma as_indices ns : Forall (λ n, is_u64 (Z.of_nat n)) ns → mapM as_index (map of_size_t ns) = Some ns.
Proof. induction 1 as [|n ns Hn _ IH]; [done|]. cbn [map mapM]. by rewrite as_index_of_size, IH by done. Qed.

Lemma read_byte c rest : read_le 1 (c :: rest) = Some (c, rest).
Proof.
  unfold read_le. change (c :: rest) with ([c] ++ rest). rewrite read_bind by done.
  cbn. by rewrite Z.add_0_r.
Qed.

Lemma write_byte c : is_byte c → write_le 1 c = Some [c].
Proof. intros Hc. unfold write_le. cbn [le_bytes]. by rewrite uw_small. Qed.

Lemma enum_code_byte t : is_byte (enum_code t).
Proof. pose proof (enum_code_range t). unfold is_u. eval_pow. lia. Qed.

Section vectors.
Context (oob : Z → Z) (oob_range : ∀ x, is_s64 (oob x)).

(** A list of doubles without UNDEFINED, decoded over default values. *)
Lemma double_list bits : Forall is_u64 bits → is_u64 (Z.of_nat (length bits)) →
  ∃ bs vals, encode_double oob (map FFloat bits) = Some bs ∧
    mapM get_flex_float vals = Some (stored oob bits) ∧
    ∀ rest, decode_double (replicate (length bits) default_value) 0 (bs ++ rest) = Some (vals, rest).
Proof.
  intros Hb Hu.
  assert (Forall (λ v, is_undefined v = false) (map FFloat bits)) as Hn by (by apply Forall_map, Forall_forall).
  pose proof (defined_no_undefined _ Hn) as Hd.
  destruct (double_blocks oob oob_range INTEGER (map FFloat bits) bits) as (bs & vals & He & (Hv & Hl & _) & Hdec & _);
    [by left|done|done|by rewrite length_map|].
  exists bs, vals. split_and!; [done|done|]. intros rest. specialize (Hdec rest).
  unfold undefined_count in Hdec. rewrite Hd, Z.sub_diag in Hdec.
  assert (map (blank INTEGER) (map FFloat bits) = replicate (length bits) default_value) as Hr.
  { clear. induction bits as [|b bits IH]; [done|]. cbn [map length replicate]. by rewrite IH. }
  rewrite Hr, fill_all in Hdec; [done| |].
  - by apply Forall_replicate.
  - by rewrite length_replicate, Hl, length_stored.
Qed.

Lemma vector_stream data vs :
  defined data = map FVec vs → Forall (Forall is_u64) vs → is_u64 (Z.of_nat (length vs)) →
  is_u64 (Z.of_nat (length (concat vs))) →
  ∃ vs', encodes (encode_vector oob data) (decode_vector_stream (length vs) true) (map FVec vs') ∧
    Forall2 (Forall2 zero_sign_lost) vs vs'.
Proof.
  intros Hd Hv Hu Hc.
  assert (Forall is_u64 (concat vs)) as Hcv by (by apply Forall_concat).
  destruct (double_list (concat vs) Hcv Hc) as (bs & vals & He & Hvals & Hdec).
  destruct (split_concat zero_sign_lost vs (stored oob (concat vs))) as (vs' & Hsplit & Hrel);
    [by apply stored_same|].
  exists vs'. split; [|done]. unfold encode_vector, decode_vector_stream.
  rewrite Hd, get_flex_vecs. cbn [mbind option_bind].
  apply encodes_bind with (a := 0); [by apply encodes_le|].
  apply encodes_bind with (a := map of_size_t (map length vs)).
  { pose proof (size_list (map length vs)) as H. rewrite map_map, length_map in H.
    rewrite map_map. by apply H. }
  rewrite as_indices.
  2:{ apply Forall_map, Forall_forall. intros v Hin. unfold is_u in *. split; [lia|].
      assert (length v ≤ length (concat vs))%nat; [|lia]. clear -Hin.
      induction Hin as [v vs|v w vs Hin IH]; cbn [concat]; rewrite length_app; lia. }
  exists bs. split; [done|]. intros rest.
  rewrite (reader_bind_Some _ _ _ (map length vs) (bs ++ rest)) by done.
  rewrite sum_lengths, uw_small, Nat2Z.id by done.
  rewrite (reader_bind_Some _ _ _ _ _ (Hdec _)).
  rewrite (reader_bind_Some _ _ _ (stored oob (concat vs)) rest)
    by (unfold rlift; by rewrite Hvals).
  unfold rlift. by rewrite Hsplit.
Qed.
End vectors.

(** ** The bit field of the undefined positions *)

Lemma new_bitmap_spec n :
  Bitset.wf (new_bitmap n) ∧ Bitset.len (new_bitmap n) = n ∧ ∀ i, Bitset.bit (new_bitmap n) i = false.
Proof.
  unfold new_bitmap. destruct (Bitset.of_size_spec (λ _, 0) n) as (Hwf & Hl & _); [done|].
  destruct (Bitset.clear_spec _ Hwf) as [Hwf' Hb]. split_and!; [done|exact Hl|done].
Qed.

Lemma mark_undefined_spec data i d :
  Bitset.wf d → (i + length data ≤ Bitset.len d)%nat →
  ∃ d', mark_undefined data i d = Some d' ∧ Bitset.wf d' ∧ Bitset.len d' = Bitset.len d ∧
    ∀ j, Bitset.bit d' j = Bitset.bit d j ||
      match data !! (j - i)%nat with Some v => (i <=? j)%nat && is_undefined v | None => false end.
Proof.
  revert i d. induction data as [|v data IH]; intros i d Hwf Hl.
  { exists d. split_and!; [done..|]. intros j. by rewrite lookup_nil, orb_false_r. }
  cbn [length] in Hl. cbn [mark_undefined].
  assert (∃ d1, (if is_undefined v then '(_, d) ← Bitset.set_bit_unsync i d; Some d else Some d) = Some d1 ∧
    Bitset.wf d1 ∧ Bitset.len d1 = Bitset.len d ∧
    ∀ j, Bitset.bit d1 j = Bitset.bit d j || ((j =? i)%nat && is_undefined v)) as (d1 & -> & Hwf1 & Hl1 & Hb1).
  { destruct (is_undefined v).
    - destruct (Bitset.update_bit_spec _ _ d i Bitset.acts_or Hwf) as (d1 & Hs & Hwf1 & Hl1 & Hb1); [lia|].
      exists d1. unfold Bitset.set_bit_unsync. rewrite Hs. split_and!; [done..|]. intros j. rewrite Hb1.
      destruct (Nat.eqb_spec j i); [by rewrite orb_true_r|by rewrite orb_false_r].
    - exists d. split_and!; [done..|]. intros j. by rewrite andb_false_r, orb_false_r. }
  cbn [mbind option_bind].
  destruct (IH (S i) d1 Hwf1) as (d' & Hm & Hwf' & Hl' & Hb'); [rewrite Hl1; lia|].
  exists d'. split_and!; [done|done|congruence|]. intros j. rewrite Hb', Hb1, <- orb_assoc. f_equal.
  destruct (Nat.eqb_spec j i) as [->|Hne].
  - rewrite Nat.sub_diag. cbn [lookup list_lookup]. rewrite Nat.leb_refl.
    replace (i - S i)%nat with 0%nat by lia. destruct (Nat.leb_spec (S i) i); [lia|].
    destruct (data !! 0%nat); cbn; by rewrite orb_false_r.
  - cbn [andb orb]. destruct (Nat.leb_spec (S i) j) as [Hle|Hle].
    + replace (j - i)%nat with (S (j - S i)) by lia. cbn [lookup list_lookup].
      destruct (Nat.leb_spec i j); [done|lia].
    + destruct (Nat.leb_spec i j); [lia|]. by destruct (data !! _), ((v :: data) !! _).
Qed.

(** The bit field of a block: exactly the positions of the UNDEFINED values. *)
Definition bitmap_of (data : list flexible_type) (d : Bitset.dense_bitset) : Prop :=
  Bitset.wf d ∧ Bitset.len d = length data ∧
  ∀ i, Bitset.bit d i = match data !! i with Some v => is_undefined v | None => false end.

Lemma mark_bitmap data : ∃ d, mark_undefined data 0 (new_bitmap (length data)) = Some d ∧ bitmap_of data d.
Proof.
  destruct (new_bitmap_spec (length data)) as (Hwf & Hl & Hb).
  destruct (mark_undefined_spec data 0 (new_bitmap (length data))) as (d & Hm & Hwf' & Hl' & Hb');
    [done|lia|].
  exists d. split; [done|]. split_and!; [done|congruence|]. intros i. rewrite Hb', Hb, Nat.sub_0_r.
  by destruct (data !! i).
Qed.

Lemma read_bitmap_round_trip data d :
  bitmap_of data d → encodes (wconcat (write_le 8) (Bitset.array d)) (read_bitmap (length data)) d.
Proof.
  intros (Hwf & Hl & _). unfold read_bitmap. destruct (new_bitmap_spec (length data)) as (Hwf0 & Hl0 & _).
  rewrite (Bitset.wf_words _ Hwf0), Hl0, <- Hl, <- (Bitset.wf_words _ Hwf).
  destruct d as [words n]. cbn [Bitset.array Bitset.len Bitset.arrlen] in *. subst n.
  apply (encodes_map _ _ (λ ws, Bitset.MkBitset ws (length data))). apply encodes_many.
  eapply Forall_impl; [apply (Bitset.wf_u64 _ Hwf)|]. intros w Hw. by apply encodes_le.
Qed.

(** The positions of the UNDEFINED values from [lo] upwards. *)
Lemma filter_positions (data : list flexible_type) (P : nat → bool) lo :
  (∀ i v, data !! i = Some v → P (lo + i)%nat = is_undefined v) →
  length (List.filter P (seq lo (length data))) = (length data - length (defined data))%nat.
Proof.
  revert lo. induction data as [|v data IH]; intros lo HP; [done|].
  cbn [length seq List.filter]. pose proof (HP 0%nat v eq_refl) as H0. rewrite Nat.add_0_r in H0.
  rewrite H0, defined_cons. pose proof (length_defined data).
  assert (length (List.filter P (seq (S lo) (length data))) = (length data - length (defined data))%nat) as IH'.
  { apply IH. intros i w Hi. rewrite <- (HP (S i) w Hi). f_equal. lia. }
  destruct (is_undefined v); cbn [length]; rewrite IH'; lia.
Qed.

Lemma bitmap_popcount data d : bitmap_of data d → Bitset.popcount d = undefined_count data.
Proof.
  intros (Hwf & Hl & Hb). rewrite Bitset.popcount_spec, Hl by done. unfold Bitset.set_positions.
  rewrite filter_positions.
  - unfold undefined_count. pose proof (length_defined data). lia.
  - intros i v Hi. cbn. by rewrite Hb, Hi.
Qed.

Lemma undefine_all_lookup ts ret :
  Forall (λ t, (t < length ret)%nat) ts →
  ∃ ret', undefine_all ts ret = Some ret' ∧ length ret' = length ret ∧
    ∀ i, (i < length ret)%nat → ret' !! i = if bool_decide (i ∈ ts) then Some FUndefined else ret !! i.
Proof.
  intros Hts. revert ret Hts. induction ts as [|t ts IH]; intros ret Hts.
  { exists ret. split_and!; [done|done|]. intros i _. by rewrite bool_decide_false by apply not_elem_of_nil. }
  apply Forall_cons in Hts as [Ht Hts]. cbn [undefine_all undefine].
  unfold undefine. destruct (Nat.ltb_spec t (length ret)); [|lia]. cbn [mbind option_bind].
  destruct (IH (<[t := FUndefined]> ret)) as (ret' & Hr & Hl & Hlk); [by rewrite length_insert|].
  rewrite length_insert in Hl. exists ret'. split_and!; [done|done|]. intros i Hi.
  rewrite Hlk by (by rewrite length_insert). destruct (decide (i = t)) as [->|Hne].
  - rewrite list_lookup_insert_eq by done. rewrite (bool_decide_true (t ∈ t :: ts)) by left. by case_match.
  - rewrite list_lookup_insert_ne by done.
    rewrite (bool_decide_ext (i ∈ t :: ts) (i ∈ ts)); [done|]. rewrite elem_of_cons.
    split; [by intros [?|?]|by right].
Qed.

Lemma bitmap_undefine data d ct :
  bitmap_of data d →
  undefine_all (Bitset.elements d) (replicate (length data) (reset ct)) = Some (map (blank ct) data).
Proof.
  intros (Hwf & Hl & Hb). rewrite Bitset.elements_spec, Hl by done. unfold Bitset.set_positions.
  destruct (undefine_all_lookup (List.filter (Bitset.bit d) (seq 0 (length data)))
    (replicate (length data) (reset ct))) as (ret' & -> & Hlr & Hlk).
  { apply Forall_forall. intros t. rewrite list_elem_of_In, filter_In, in_seq, length_replicate. lia. }
  rewrite length_replicate in Hlr, Hlk. f_equal. apply list_eq. intros i.
  destruct (decide (i < length data)%nat) as [Hi|Hi].
  - rewrite Hlk by done. destruct (lookup_lt_is_Some_2 data i Hi) as [v Hv].
    rewrite list_lookup_fmap, Hv. cbn [fmap option_fmap option_map]. unfold blank.
    rewrite lookup_replicate_2 by done.
    replace (bool_decide (i ∈ List.filter (Bitset.bit d) (seq 0 (length data)))) with (is_undefined v).
    { by destruct (is_undefined v). }
    symmetry.
    destruct (is_undefined v) eqn:E.
    + apply bool_decide_true. rewrite list_elem_of_In, filter_In, in_seq, Hb, Hv. split; [lia|done].
    + apply bool_decide_false. rewrite list_elem_of_In, filter_In, Hb, Hv, E. by intros [_ ?].
  - rewrite (proj2 (lookup_ge_None ret' i)), (proj2 (lookup_ge_None _ i)); [done| |]; rewrite ?length_map; lia.
Qed.

(** ** Columns *)

(** All values that are not UNDEFINED have type [ct]. *)
Definition column (ct : flex_type_enum) (data : list flexible_type) : Prop :=
  Forall (λ v, is_undefined v = true ∨ get_type v = ct) data.

Lemma column_defined ct data :
  column ct data → Forall (λ v, get_type v = ct) (defined data).
Proof.
  induction 1 as [|v data Hv _ IH]; [constructor|]. rewrite defined_cons.
  destruct (is_undefined v) eqn:E; [done|]. constructor; [|done]. by destruct Hv.
Qed.

Lemma valid_defined data :
  Forall (λ v, valid v = true) data → Forall (λ v, valid v = true) (defined data).
Proof.
  induction 1 as [|v data Hv _ IH]; [constructor|]. rewrite defined_cons.
  destruct (is_undefined v); [done|by constructor].
Qed.

(** The values of a typed list come from their contents. *)
Lemma typed_values {A} (mk : A → flexible_type) (P : A → Prop) (l : list flexible_type) :
  Forall (λ v, ∃ x, v = mk x ∧ P x) l → ∃ xs, l = map mk xs ∧ Forall P xs.
Proof.
  induction 1 as [|v l (x & -> & Hx) _ (xs & -> & Hxs)]; [by exists []|].
  exists (x :: xs). split; [done|by constructor].
Qed.

Lemma column_values {A} (mk : A → flexible_type) (P : A → Prop) ct data :
  column ct data → Forall (λ v, valid v = true) data →
  (∀ v, get_type v = ct → valid v = true → ∃ x, v = mk x ∧ P x) →
  ∃ xs, defined data = map mk xs ∧ Forall P xs.
Proof.
  intros Hc Hv Hmk. apply typed_values. apply column_defined in Hc. apply valid_defined in Hv.
  rewrite Forall_forall in Hc, Hv |- *. auto.
Qed.

(** The same value, up to the sign of a zero. *)
Definition same_value (v v' : flexible_type) : Prop :=
  match v, v' with
  | FFloat b, FFloat b' => zero_sign_lost b b'
  | FVec l, FVec l' => Forall2 zero_sign_lost l l'
  | _, _ => v' = v
  end.

Lemma same_value_refl v : same_value v v.
Proof.
  assert (∀ b, zero_sign_lost b b) as Hr by (by left).
  destruct v; cbn; try done. apply Forall_Forall2_diag, Forall_forall. auto.
Qed.

Lemma same_values_refl data : Forall2 same_value data data.
Proof. apply Forall_Forall2_diag, Forall_forall. intros v _. apply same_value_refl. Qed.

Lemma same_value_undefined v v' : same_value v v' → is_undefined v' = is_undefined v.
Proof. by destruct v, v'; cbn; intros; simplify_eq. Qed.

Lemma fill_same ct data vals : ct ≠ UNDEFINED →
  Forall2 same_value (defined data) vals →
  Forall2 same_value data (fill (map (blank ct) data) vals) ∧
  defined (fill (map (blank ct) data) vals) = vals.
Proof.
  intros Hct. revert vals. induction data as [|v data IH]; intros vals Hv.
  { split; [constructor|]. by inversion Hv. }
  rewrite defined_cons in Hv. cbn [map fill]. rewrite is_undefined_blank by done.
  destruct (is_undefined v) eqn:E.
  - destruct (IH vals Hv) as [H1 H2]. rewrite defined_cons, is_undefined_blank, E by done.
    apply is_undefined_true in E as ->. split; [by constructor|done].
  - inversion Hv as [|? x ? vals' Hx Hvs]; subst. destruct (IH vals' Hvs) as [H1 H2].
    rewrite defined_cons, (same_value_undefined _ _ Hx), E. split; [by constructor|by rewrite H2].
Qed.

(** ** The body of a block *)

Section body.
Context (oob : Z → Z) (oob_range : ∀ x, is_s64 (oob x)).

Definition body_writer (ct : flex_type_enum) (data : list flexible_type) : writer :=
  match ct with
  | INTEGER => encode_number data
  | FLOAT => encode_double oob data
  | STRING => encode_string data
  | VECTOR => encode_vector oob data
  | _ => wconcat serialize (defined data)
  end.

Definition body_info (ct : flex_type_enum) (info : block_info) : block_info :=
  match ct with
  | FLOAT | VECTOR => set_flag BLOCK_ENCODING_EXTENSION info
  | _ => info
  end.

Lemma encode_body_eq off appeared info w data ct :
  ct ≠ UNDEFINED → (∀ t, t ≠ UNDEFINED → appeared t = bool_decide (t = ct)) →
  encode_body oob off appeared info w data
  = finish off (body_info ct info) (w +++ body_writer ct data).
Proof.
  intros Hct Ha. unfold encode_body. rewrite !Ha by done. by destruct ct.
Qed.

(** The sizes of a block: what the code keeps in a [size_t]. *)
Definition sizes_fit (data : list flexible_type) : Prop :=
  is_u64 (Z.of_nat (length data)) ∧
  ∀ vs, defined data = map FVec vs → is_u64 (Z.of_nat (length (concat vs))).

(** The stream of the types that have their own encoding. *)
Definition body_stream (ct : flex_type_enum) (extension : bool) (n : nat)
    : reader (list flexible_type) :=
  match ct with
  | INTEGER => decode_number_stream n
  | FLOAT => if extension then decode_double_stream n else decode_double_stream_legacy n
  | STRING => decode_string_stream n
  | VECTOR => decode_vector_stream n extension
  | _ => rfail
  end.

Definition own_encoding (ct : flex_type_enum) : bool :=
  match ct with INTEGER | FLOAT | STRING | VECTOR => true | _ => false end.

Lemma own_body fuel data ct info :
  own_encoding ct = true → column ct data → Forall (λ v, valid v = true) data → sizes_fit data →
  (ct = FLOAT ∨ ct = VECTOR → has_flag info BLOCK_ENCODING_EXTENSION = true) →
  ∃ bs data', body_writer ct data = Some bs ∧ Forall2 same_value data data' ∧
    (∀ rest, decode_body fuel info ct (map (blank ct) data) (undefined_count data) (bs ++ rest)
      = Some (data', rest)) ∧
    ∀ rest, body_stream ct (has_flag info BLOCK_ENCODING_EXTENSION) (length (defined data)) (bs ++ rest) = Some (defined data', rest).
Proof.
  intros Ht Hc Hv [Hu Huv] Hext. unfold decode_body.
  pose proof (length_defined data) as Hdl.
  assert (is_u64 (Z.of_nat (length (defined data)))) as Hud by (unfold is_u in *; lia).
  destruct ct; try done; cbn [body_writer body_stream]; try rewrite Hext by auto.
  - destruct (column_values FInt is_s64 INTEGER data Hc Hv) as (xs & Hd & Hs).
    { intros [i| | | | | | | |] ? Hi; try done. exists i. by apply bool_decide_eq_true in Hi. }
    destruct (number_column data xs Hd Hs Hu) as (bs & He & Hb & Hst).
    exists bs, data. rewrite Hd, length_map. rewrite Hd in Hst.
    split_and!; [done|apply same_values_refl|done|done].
  - destruct (column_values FFloat is_u64 FLOAT data Hc Hv) as (bits & Hd & Hs).
    { intros [|b| | | | | | |] ? Hi; try done. exists b. by apply bool_decide_eq_true in Hi. }
    destruct (double_blocks oob oob_range FLOAT data bits) as (bs & vals & He & (_ & _ & Hvals) & Hb & Hst);
      [by right|done|done|done|]. rewrite (Hvals eq_refl) in Hb.
    destruct (fill_same FLOAT data (map FFloat (stored oob bits))) as [Hsame Hdef]; [done| |].
    { rewrite Hd. apply Forall2_fmap. eapply Forall2_impl; [by apply stored_same|done]. }
    exists bs, (fill (map (blank FLOAT) data) (map FFloat (stored oob bits))).
    rewrite Hd, length_map, Hdef. done.
  - destruct (column_values FString (λ s, is_u64 (Z.of_nat (length s))) STRING data Hc Hv) as (ss & Hd & Hs).
    { intros [| |s| | | | | |] ? Hi; try done. exists s. split; [done|].
      cbn in Hi. unfold valid_string, valid_size in Hi. rewrite andb_true_iff, !bool_decide_eq_true in Hi. tauto. }
    pose proof (f_equal length Hd) as Hl. rewrite length_map in Hl. rewrite Hl in Hud.
    destruct (stored_column STRING (encode_string data) decode_string_stream data (map FString ss))
      as (bs & He & Hst & Hb); [done|done|by rewrite length_map| |].
    { rewrite Hl. by apply string_stream. }
    exists bs, data. rewrite <- Hd in Hb, Hst. rewrite fill_blank in Hb by done.
    split_and!; [done|apply same_values_refl|done|done].
  - destruct (column_values FVec (Forall is_u64) VECTOR data Hc Hv) as (vs & Hd & Hs).
    { intros [| | |l| | | | |] ? Hi; try done. exists l. split; [done|].
      cbn in Hi. unfold valid_vec in Hi. rewrite andb_true_iff, !bool_decide_eq_true in Hi. tauto. }
    pose proof (f_equal length Hd) as Hl. rewrite length_map in Hl. rewrite Hl in Hud.
    destruct (vector_stream oob oob_range data vs Hd Hs Hud (Huv vs Hd)) as (vs' & Henc & Hrel).
    pose proof (Forall2_length _ _ _ Hrel) as Hlv.
    destruct (stored_column VECTOR (encode_vector oob data) (λ n, decode_vector_stream n true) data (map FVec vs'))
      as (bs & He & Hst & Hb); [done|done|by rewrite length_map, Hl, Hlv|by rewrite Hl|].
    destruct (fill_same VECTOR data (map FVec vs')) as [Hsame Hdef]; [done| |].
    { rewrite Hd. apply Forall2_fmap. eapply Forall2_impl; [done|]. done. }
    exists bs, (fill (map (blank VECTOR) data) (map FVec vs')).
    rewrite Hdef. split_and!; [done|done| |done]. exact Hb.
Qed.

(** The other types are written one by one. *)
Lemma plain_body fuel data ct :
  column ct data → Forall (λ v, valid v = true) data → Forall (λ v, depth v ≤ S fuel)%nat data →
  ct ≠ UNDEFINED →
  encodes (wconcat serialize (defined data)) (deserialize_all (load fuel) (map (blank ct) data)) data.
Proof.
  intros Hc Hv Hd Hct. induction Hc as [|v data Hty _ IH]; [apply encodes_ret|].
  apply Forall_cons in Hv as [Hv1 Hv]. apply Forall_cons in Hd as [Hd1 Hd].
  cbn [map deserialize_all]. rewrite defined_cons, is_undefined_blank by done.
  destruct (is_undefined v) eqn:E.
  - apply is_undefined_true in E as ->. unfold blank. cbn [is_undefined].
    destruct (IH Hv Hd) as (bs & -> & H). exists bs. split; [done|]. intros rest.
    rewrite (reader_bind_Some _ _ _ FUndefined (bs ++ rest)) by done.
    by rewrite (reader_bind_Some _ _ _ _ _ (H _)).
  - destruct Hty as [Hty|Hty]; [by rewrite Hty in E|]. 
    replace (get_type (blank ct v)) with ct by (unfold blank; by rewrite E, get_type_reset).
    cbn [wconcat]. apply encodes_bind with (a := v).
    + rewrite <- Hty. by apply deserialize_serialize.
    + apply (encodes_map _ _ (cons v)). by apply IH.
Qed.
End body.

(** ** Flags *)

Lemma has_flag_testbit info k : 0 ≤ k → has_flag info (2 ^ k) = Z.testbit (flags info) k.
Proof.
  intros Hk. unfold has_flag. destruct (Z.eqb_spec (flags info .& 2 ^ k) 0) as [E|E].
  - symmetry. replace (Z.testbit (flags info) k) with (Z.testbit (flags info .& 2 ^ k) k).
    + by rewrite E, Z.bits_0.
    + by rewrite Z.land_spec, Z.pow2_bits_true, andb_true_r by done.
  - destruct (Z.testbit (flags info) k) eqn:Hb; [done|]. exfalso. apply E.
    apply Z.bits_inj'. intros i Hi. rewrite Z.land_spec, Z.bits_0, Z.pow2_bits_eqb by done.
    destruct (Z.eqb_spec k i) as [<-|]; [by rewrite Hb|by rewrite andb_false_r].
Qed.

Lemma has_set_flag info j k : 0 ≤ j → 0 ≤ k →
  has_flag (set_flag (2 ^ j) info) (2 ^ k) = has_flag info (2 ^ k) || (j =? k).
Proof.
  intros Hj Hk. rewrite !has_flag_testbit by done. cbn [flags set_flag].
  by rewrite Z.lor_spec, Z.pow2_bits_eqb by done.
Qed.

Lemma has_flag_num_elem n info f : has_flag (set_num_elem n info) f = has_flag info f.
Proof. done. Qed.
Lemma has_flag_block_size n info f : has_flag (set_block_size n info) f = has_flag info f.
Proof. done. Qed.

(** ** The types that appear *)

Definition code_of (t : flex_type_enum) : nat := Z.to_nat (enum_code t).

Lemma code_of_inj t t' : code_of t = code_of t' → t = t'.
Proof. by destruct t, t'. Qed.

Lemma code_of_lt t : (code_of t < 16)%nat.
Proof. apply Nat.ltb_lt. by destruct t. Qed.

Definition appears (data : list flexible_type) (i : nat) : bool :=
  existsb (λ v, (code_of (get_type v) =? i)%nat) data.

Lemma appears_type data t : appears data (code_of t) = true ↔ ∃ v, v ∈ data ∧ get_type v = t.
Proof.
  unfold appears. rewrite existsb_exists. split; intros (v & Hin & Hv); exists v.
  - apply Nat.eqb_eq in Hv. split; [by apply list_elem_of_In|by apply code_of_inj].
  - subst t. split; [by apply list_elem_of_In|apply Nat.eqb_refl].
Qed.

Lemma types_appeared_bits data d :
  Bitset.wf d → Bitset.len d = 16%nat →
  ∃ d', types_appeared data d = Some d' ∧ Bitset.wf d' ∧ Bitset.len d' = 16%nat ∧
    ∀ i, Bitset.bit d' i = Bitset.bit d i || appears data i.
Proof.
  revert d. induction data as [|v data IH]; intros d Hwf Hl.
  { exists d. split_and!; [done..|]. intros i. by rewrite orb_false_r. }
  cbn [types_appeared]. fold (code_of (get_type v)).
  destruct (Bitset.update_bit_spec _ _ d (code_of (get_type v)) Bitset.acts_or Hwf)
    as (d1 & Hs & Hwf1 & Hl1 & Hb1); [rewrite Hl; apply code_of_lt|].
  unfold Bitset.fixed_set_bit_unsync, Bitset.set_bit_unsync. rewrite Hs. cbn [mbind option_bind].
  destruct (IH d1 Hwf1) as (d' & Ht & Hwf' & Hl' & Hb'); [congruence|].
  exists d'. split_and!; [done..|]. intros i. rewrite Hb', Hb1. unfold appears. cbn [existsb].
  rewrite (Nat.eqb_sym i). destruct (_ =? i)%nat; cbn; [by rewrite orb_true_r|done].
Qed.

Definition type_codes (data : list flexible_type) : list nat :=
  List.filter (appears data) (seq 0 16).

Lemma elem_type_codes data i : i ∈ type_codes data ↔ ∃ v, v ∈ data ∧ code_of (get_type v) = i.
Proof.
  unfold type_codes. rewrite list_elem_of_In, filter_In, in_seq. split.
  - intros [_ H]. unfold appears in H. apply existsb_exists in H as (v & Hin & Hv).
    apply Nat.eqb_eq in Hv. exists v. split; [by apply list_elem_of_In|done].
  - intros (v & Hin & <-). pose proof (code_of_lt (get_type v)). split; [lia|].
    apply appears_type. eauto.
Qed.

Lemma types_spec data :
  ∃ d, types_appeared data (Bitset.fixed_dense_bitset 16) = Some d ∧
    Bitset.fixed_popcount d = Z.of_nat (length (type_codes data)) ∧
    Bitset.fixed_elements d = type_codes data ∧
    ∀ t, default false (Bitset.fixed_get d (Z.to_nat (enum_code t))) = appears data (code_of t).
Proof.
  assert (Bitset.fixed_dense_bitset 16 = new_bitmap 16) as -> by done.
  destruct (new_bitmap_spec 16) as (Hwf & Hl & Hb).
  destruct (types_appeared_bits data _ Hwf Hl) as (d & Ht & Hwf' & Hl' & Hb').
  assert (∀ i, Bitset.bit d i = appears data i) as Hba by (intros i; by rewrite Hb', Hb).
  assert (Bitset.set_positions d 0 (Bitset.len d) = type_codes data) as Hp.
  { unfold Bitset.set_positions, type_codes. rewrite Hl'. by apply List.filter_ext. }
  exists d. split_and!; [done| | |].
  - change (Bitset.fixed_popcount d) with (Bitset.popcount d). by rewrite Bitset.popcount_spec, Hp.
  - unfold Bitset.fixed_elements. by rewrite Bitset.elements_spec, Hp.
  - intros t. fold (code_of t). unfold Bitset.fixed_get.
    rewrite Bitset.get_spec by (done || (rewrite Hl'; apply code_of_lt)). apply Hba.
Qed.

Lemma no_types data : length (type_codes data) = 0%nat → data = [].
Proof.
  destruct data as [|v data]; [done|]. intros H. exfalso. apply nil_length_inv in H.
  assert (code_of (get_type v) ∈ type_codes (v :: data)) as Hin.
  { apply elem_type_codes. exists v. split; [by left|done]. }
  rewrite H in Hin. by apply not_elem_of_nil in Hin.
Qed.

Lemma one_type data : length (type_codes data) = 1%nat →
  ∃ v, head data = Some v ∧ Forall (λ w, get_type w = get_type v) data.
Proof.
  intros H. destruct (type_codes data) as [|c [|]] eqn:E; try done.
  assert (∀ w, w ∈ data → code_of (get_type w) = c) as Hc.
  { intros w Hw. assert (code_of (get_type w) ∈ [c]) as Hin; [|by apply list_elem_of_singleton in Hin].
    rewrite <- E. apply elem_type_codes. eauto. }
  destruct data as [|v data]; [by vm_compute in E|]. exists v. split; [done|].
  apply Forall_forall. intros w Hw. apply code_of_inj. rewrite (Hc w Hw). symmetry. apply Hc. by left.
Qed.

Lemma two_types data : length (type_codes data) = 2%nat → appears data (code_of UNDEFINED) = true →
  ∃ ct, ct ≠ UNDEFINED ∧ column ct data ∧ appears data (code_of ct) = true ∧
    List.find (λ t, negb (Z.of_nat t =? enum_code UNDEFINED)) (type_codes data) = Some (code_of ct).
Proof.
  intros H Hu. destruct (type_codes data) as [|a [|b []]] eqn:E; try done.
  assert (NoDup (type_codes data)) as Hnd.
  { apply NoDup_ListNoDup, List.NoDup_filter, seq_NoDup. }
  rewrite E in Hnd. apply NoDup_cons in Hnd as [Hab _]. rewrite list_elem_of_singleton in Hab.
  assert (∀ i, i ∈ type_codes data ↔ i = a ∨ i = b) as Hin.
  { intros i. rewrite E. rewrite elem_of_cons, list_elem_of_singleton. done. }
  assert (code_of UNDEFINED = a ∨ code_of UNDEFINED = b) as Hu'.
  { apply Hin, elem_type_codes. apply appears_type in Hu as (v & ? & Hv). exists v. by rewrite Hv. }
  assert (∃ c, c ≠ 7%nat ∧ (∀ i, i ∈ type_codes data ↔ i = c ∨ i = 7%nat) ∧
    List.find (λ t, negb (Z.of_nat t =? enum_code UNDEFINED)) [a; b] = Some c) as (c & Hc7 & Hc & Hf).
  { change (code_of UNDEFINED) with 7%nat in Hu'. change (enum_code UNDEFINED) with 7. cbn [List.find].
    destruct Hu' as [<-|<-]; [exists b|exists a].
    - split_and!; [done|intros i; rewrite Hin; tauto|]. cbn.
      destruct (Z.eqb_spec (Z.of_nat b) 7); [lia|done].
    - split_and!; [done|intros i; rewrite Hin; tauto|].
      destruct (Z.eqb_spec (Z.of_nat a) 7); [lia|done]. }
  assert (c ∈ type_codes data) as (v & Hv & Hvc)%elem_type_codes by (apply Hc; by left).
  exists (get_type v). rewrite Hvc. split_and!; [|apply Forall_forall| |done].
  - intros He. rewrite He in Hvc. by subst c.
  - intros w Hw. assert (code_of (get_type w) ∈ type_codes data) as [Hwc|Hwc]%Hc.
    { apply elem_type_codes. eauto. }
    + right. apply code_of_inj. by rewrite Hwc.
    + left. unfold is_undefined. apply bool_decide_true. by apply code_of_inj.
  - subst c. apply appears_type. eauto.
Qed.

(** In a column the type specific branch is that of its type. *)
Lemma column_appears ct data : column ct data → appears data (code_of ct) = true →
  ∀ t, t ≠ UNDEFINED → appears data (code_of t) = bool_decide (t = ct).
Proof.
  intros Hc Ha t Ht. destruct (decide (t = ct)) as [->|Hne].
  - by rewrite bool_decide_true.
  - rewrite bool_decide_false by done. destruct (appears data (code_of t)) eqn:E; [|done].
    apply appears_type in E as (v & Hin & Hv). unfold column in Hc. rewrite Forall_forall in Hc.
    destruct (Hc v Hin) as [Hu|Hu].
    + unfold is_undefined in Hu. apply bool_decide_eq_true in Hu. congruence.
    + congruence.
Qed.

(** ** The callbacks *)

(** How many UNDEFINED values start a list. *)
Fixpoint leading_undefined (data : list flexible_type) : nat :=
  match data with
  | v :: data' => if is_undefined v then S (leading_undefined data') else 0
  | [] => 0
  end.

(** [bm] reads the bit field of the values that start at position [k]. *)
Definition bits_match (bitmap : Bitset.dense_bitset) (k : nat) (s : list flexible_type) : Prop :=
  ∀ i v, s !! i = Some v → default false (Bitset.get bitmap (k + i)) = is_undefined v.

Lemma bits_match_cons bitmap k v s :
  bits_match bitmap k (v :: s) →
  default false (Bitset.get bitmap k) = is_undefined v ∧ bits_match bitmap (S k) s.
Proof.
  intros H. split; [rewrite <- (Nat.add_0_r k); by apply (H 0%nat)|].
  intros i w Hi. replace (S k + i)%nat with (k + S i)%nat by lia. by apply (H (S i)).
Qed.

Lemma undefined_run_spec bitmap k s :
  bits_match bitmap k s → undefined_run bitmap (length s) k = leading_undefined s.
Proof.
  revert k. induction s as [|v s IH]; intros k H; [done|].
  apply bits_match_cons in H as [H1 H2]. cbn [length undefined_run leading_undefined].
  rewrite H1. destruct (is_undefined v); [by rewrite IH|done].
Qed.

Lemma leading_split s :
  s = replicate (leading_undefined s) FUndefined ++ drop (leading_undefined s) s ∧
  defined s = defined (drop (leading_undefined s) s) ∧
  (∀ v s', drop (leading_undefined s) s = v :: s' → is_undefined v = false).
Proof.
  induction s as [|v s (IH1 & IH2 & IH3)]; [done|]. rewrite defined_cons.
  cbn [leading_undefined]. destruct (is_undefined v) eqn:E.
  - cbn [replicate drop app]. apply is_undefined_true in E as ->. by rewrite <- IH1.
  - cbn [replicate drop app]. rewrite defined_cons, E. split_and!; [done|done|]. by intros ? ? [= <- <-].
Qed.

Lemma bits_match_drop bitmap k s n :
  bits_match bitmap k s → bits_match bitmap (k + n) (drop n s).
Proof. intros H i v Hi. rewrite lookup_drop in Hi. rewrite <- Nat.add_assoc. by apply H. Qed.

Lemma no_defined s : defined s = [] → leading_undefined s = length s ∧ s = replicate (length s) FUndefined.
Proof.
  induction s as [|v s IH]; [done|]. rewrite defined_cons. destruct (is_undefined v) eqn:E; [|done].
  intros Hs. destruct (IH Hs) as [H1 H2]. cbn [leading_undefined length replicate].
  rewrite E, H1. apply is_undefined_true in E as ->. split; [done|by f_equal].
Qed.

(** The calls made for the decoded values, with the final run, are the values of the block. *)
Lemma stream_callbacks_spec bitmap nu s k :
  nu ≠ 0 → bits_match bitmap k s →
  let '(calls, last_id) := stream_callbacks bitmap (k + length s) nu k (defined s) in
  calls ++ emit_undefined bitmap (k + length s) nu last_id = s.
Proof.
  intros Hnu. remember (defined s) as vals eqn:Hv. revert s k Hv.
  induction vals as [|val vals IH]; intros s k Hv Hm; cbn [stream_callbacks];
    unfold emit_undefined; destruct (Z.eqb_spec nu 0); try done.
  - replace (k + length s - k)%nat with (length s) by lia. rewrite undefined_run_spec by done.
    destruct (no_defined s (eq_sym Hv)) as [-> Hs]. symmetry. exact Hs.
  - replace (k + length s - k)%nat with (length s) by lia. rewrite undefined_run_spec by done.
    destruct (leading_split s) as (H1 & H2 & H3). set (m := leading_undefined s) in *.
    rewrite H2 in Hv. destruct (drop m s) as [|v s'] eqn:E; [done|].
    rewrite defined_cons, (H3 v s' eq_refl) in Hv. injection Hv as -> Hv.
    rewrite length_replicate. specialize (IH s' (S (k + m)) Hv).
    assert (length s = m + S (length s'))%nat as Hl.
    { rewrite H1 at 1. rewrite length_app, length_replicate. done. }
    replace (k + length s)%nat with (S (k + m) + length s')%nat by lia.
    pose proof (bits_match_drop _ _ _ m Hm) as Hm'. rewrite E in Hm'.
    apply bits_match_cons in Hm' as [_ Hm']. specialize (IH Hm').
    destruct (stream_callbacks _ _ _ _ vals) as [calls last_id].
    rewrite <- app_assoc. unfold emit_undefined in IH. destruct (Z.eqb_spec nu 0); [done|].
    cbn [app]. rewrite IH. by symmetry.
Qed.

(** Without UNDEFINED values the calls are the decoded values. *)
Lemma stream_callbacks_plain bitmap n k vals :
  stream_callbacks bitmap n 0 k vals = (vals, (k + length vals)%nat).
Proof.
  revert k. induction vals as [|v vals IH]; intros k; [cbn; by rewrite Nat.add_0_r|].
  cbn [stream_callbacks emit_undefined Z.eqb length app]. rewrite IH, Nat.add_0_r.
  f_equal. cbn. lia.
Qed.

Lemma deserialize_stream_spec fuel bitmap nu ct data k :
  ct ≠ UNDEFINED → column ct data → Forall (λ v, valid v = true) data →
  Forall (λ v, depth v ≤ S fuel)%nat data →
  (if nu =? 0 then Forall (λ v, is_undefined v = false) data else bits_match bitmap k data) →
  encodes (wconcat serialize (defined data))
    (deserialize_stream (load fuel) bitmap nu ct (length data) k) data.
Proof.
  intros Hct Hc Hv Hd Hm. revert k Hv Hd Hm.
  induction Hc as [|v data Hty _ IH]; intros k Hv Hd Hm; [apply encodes_ret|].
  apply Forall_cons in Hv as [Hv1 Hv]. apply Forall_cons in Hd as [Hd1 Hd].
  assert (negb (nu =? 0) && default false (Bitset.get bitmap k) = is_undefined v ∧
    if nu =? 0 then Forall (λ v, is_undefined v = false) data else bits_match bitmap (S k) data) as [Hb Hm'].
  { destruct (nu =? 0); [by apply Forall_cons in Hm as [-> ?]|by apply bits_match_cons in Hm]. }
  cbn [length deserialize_stream]. rewrite Hb, defined_cons. specialize (IH (S k) Hv Hd Hm').
  destruct (is_undefined v) eqn:E.
  - apply is_undefined_true in E as ->. destruct IH as (bs & -> & H). exists bs. split; [done|].
    intros rest. rewrite (reader_bind_Some _ _ _ FUndefined (bs ++ rest)) by done.
    by rewrite (reader_bind_Some _ _ _ _ _ (H _)).
  - destruct Hty as [Hty|Hty]; [by rewrite Hty in E|]. cbn [wconcat].
    apply encodes_bind with (a := v).
    + rewrite <- Hty. by apply deserialize_serialize.
    + by apply (encodes_map _ _ (cons v)).
Qed.

(** ** Typed blocks *)

(** A column of one of the types without their own encoding. *)
Definition plain_column (data : list flexible_type) : bool :=
  match defined data with
  | v :: _ =>
      negb (own_encoding (get_type v))
      && forallb (λ w, is_undefined w || bool_decide (get_type w = get_type v)) data
  | [] => false
  end.

(** The calls the stream decoder makes beyond the values of the block: for a plain column, the
    UNDEFINED values that start it, again. *)
Definition repeated_calls (data : list flexible_type) : list flexible_type :=
  if plain_column data then replicate (leading_undefined data) FUndefined else [].

Lemma undefined_count_zero data :
  undefined_count data = 0 → Forall (λ v, is_undefined v = false) data.
Proof.
  unfold undefined_count. induction data as [|v data IH]; [constructor|]. rewrite defined_cons.
  pose proof (length_defined data). destruct (is_undefined v) eqn:E; cbn [length]; intros H0; [lia|].
  constructor; [done|]. apply IH. lia.
Qed.

Lemma no_undefined_count data : Forall (λ v, is_undefined v = false) data → undefined_count data = 0.
Proof. intros H. unfold undefined_count. rewrite (defined_no_undefined _ H). lia. Qed.

Lemma same_values_match bitmap k data data' :
  Forall2 same_value data data' → bits_match bitmap k data → bits_match bitmap k data'.
Proof.
  intros Hs Hm i v' Hi. destruct (Forall2_lookup_r _ _ _ _ _ Hs Hi) as (v & Hv & Hvv).
  rewrite (same_value_undefined _ _ Hvv). by apply Hm.
Qed.

Lemma column_type_unique ct v data : ct ≠ UNDEFINED → column ct data → v ∈ defined data → get_type v = ct.
Proof.
  intros Hct Hc Hin. apply column_defined in Hc. rewrite Forall_forall in Hc. by apply Hc.
Qed.

Lemma plain_column_eq ct data : ct ≠ UNDEFINED → column ct data → defined data ≠ [] →
  plain_column data = negb (own_encoding ct).
Proof.
  intros Hct Hc Hne. unfold plain_column. destruct (defined data) as [|v l] eqn:E; [done|].
  assert (get_type v = ct) as ->.
  { apply (column_type_unique ct v data Hct Hc). rewrite E. by left. }
  replace (forallb _ data) with true; [by rewrite andb_true_r|]. symmetry.
  apply forallb_forall. intros w Hw. apply list_elem_of_In in Hw.
  unfold column in Hc. rewrite Forall_forall in Hc. destruct (Hc w Hw) as [-> | ->]; [done|].
  rewrite bool_decide_true by done. apply orb_true_r.
Qed.

Lemma type_codes_bound data (l : list nat) :
  (∀ v, v ∈ data → code_of (get_type v) ∈ l) → (length (type_codes data) ≤ length l)%nat.
Proof.
  intros H. apply NoDup_incl_length.
  - apply List.NoDup_filter, seq_NoDup.
  - intros i Hi. apply list_elem_of_In, elem_type_codes in Hi as (v & Hv & <-).
    by apply list_elem_of_In, H.
Qed.

Lemma plain_column_types data : plain_column data = true →
  (length (type_codes data) ≤ 2)%nat ∧
  (appears data (code_of UNDEFINED) = false → (length (type_codes data) ≤ 1)%nat).
Proof.
  unfold plain_column. destruct (defined data) as [|v l]; [done|].
  rewrite andb_true_iff, forallb_forall. intros [_ Hall].
  assert (∀ w, w ∈ data → get_type w = UNDEFINED ∨ get_type w = get_type v) as Hw.
  { intros w Hin. apply list_elem_of_In in Hin. specialize (Hall w Hin).
    apply orb_true_iff in Hall as [Hu|Hu]; [left|right]; by apply bool_decide_eq_true in Hu. }
  split.
  - apply (type_codes_bound data [code_of UNDEFINED; code_of (get_type v)]). intros w Hin.
    destruct (Hw w Hin) as [-> | ->]; [by left|right; by left].
  - intros Ha. apply (type_codes_bound data [code_of (get_type v)]). intros w Hin.
    destruct (Hw w Hin) as [Hu| ->]; [|by left]. exfalso.
    assert (appears data (code_of UNDEFINED) = true) by (apply appears_type; eauto). congruence.
Qed.

Section block.
Context (oob : Z → Z) (oob_range : ∀ x, is_s64 (oob x)).

Lemma stream_body_own fuel info ct bitmap data data' bs rest :
  own_encoding ct = true → num_elem info = Z.of_nat (length data) →
  is_u64 (Z.of_nat (length data)) →
  Forall2 same_value data data' →
  (undefined_count data ≠ 0 → bits_match bitmap 0 data) →
  body_stream ct (has_flag info BLOCK_ENCODING_EXTENSION) (length (defined data)) (bs ++ rest)
    = Some (defined data', rest) →
  stream_body fuel info ct bitmap (undefined_count data) (bs ++ rest) = Some (data', rest).
Proof.
  intros Hown Hn Hu Hs Hm Hst. pose proof (Forall2_length _ _ _ Hs) as Hl.
  unfold stream_body. rewrite Hn, (num_to_read data (length (defined data)) eq_refl Hu), !Nat2Z.id.
  pose proof (stream_callbacks_spec bitmap (undefined_count data) data' 0) as Hspec.
  rewrite <- Hl in Hspec. cbn [Nat.add] in Hspec.
  assert (let '(calls, last_id) := stream_callbacks bitmap (length data) (undefined_count data) 0 (defined data') in
    calls ++ emit_undefined bitmap (length data) (undefined_count data) last_id = data') as Hcalls.
  { destruct (decide (undefined_count data = 0)) as [E|E].
    - rewrite E, stream_callbacks_plain. cbn [emit_undefined Z.eqb]. rewrite app_nil_r.
      apply defined_no_undefined. apply undefined_count_zero in E.
      rewrite Forall_forall in E |- *. intros v' (i & Hi)%list_elem_of_lookup.
      destruct (Forall2_lookup_r _ _ _ _ _ Hs Hi) as (v & Hv & Hvv).
      rewrite (same_value_undefined _ _ Hvv). apply E. by eapply list_elem_of_lookup_2.
    - apply Hspec; [done|]. by apply (same_values_match _ _ data), Hm. }
  destruct (stream_callbacks _ _ _ _ _) as [calls last_id] eqn:Ecalls.
  rewrite (reader_bind_Some _ _ _ (calls, last_id) rest); [unfold mret, reader_ret; by rewrite Hcalls|].
  destruct ct; try done; cbn [body_stream] in Hst; rewrite (reader_bind_Some _ _ _ _ _ Hst);
    unfold mret, reader_ret; by rewrite Ecalls.
Qed.

Lemma stream_body_plain fuel info ct bitmap data bs rest :
  own_encoding ct = false → ct ≠ UNDEFINED → num_elem info = Z.of_nat (length data) →
  (undefined_count data ≠ 0 → bits_match bitmap 0 data) →
  deserialize_stream (load fuel) bitmap (undefined_count data) ct (length data) 0 (bs ++ rest)
    = Some (data, rest) →
  stream_body fuel info ct bitmap (undefined_count data) (bs ++ rest)
    = Some (data ++ replicate (leading_undefined data) FUndefined, rest).
Proof.
  intros Hown Hct Hn Hm Hst. unfold stream_body. rewrite Hn, Nat2Z.id.
  rewrite (reader_bind_Some _ _ _ (data, 0%nat) rest).
  - unfold mret, reader_ret, emit_undefined. do 3 f_equal.
    destruct (Z.eqb_spec (undefined_count data) 0) as [E|E].
    + apply undefined_count_zero in E. destruct E as [|v data' Hv _]; [done|].
      cbn [leading_undefined]. by rewrite Hv.
    + rewrite Nat.sub_0_r, undefined_run_spec by auto. done.
  - destruct ct; try done; rewrite (reader_bind_Some _ _ _ _ _ Hst); done.
Qed.

Lemma body_case fuel info ct data :
  ct ≠ UNDEFINED → column ct data → defined data ≠ [] →
  Forall (λ v, valid v = true) data → sizes_fit data →
  Forall (λ v, depth v ≤ S fuel)%nat data → num_elem info = Z.of_nat (length data) →
  (ct = FLOAT ∨ ct = VECTOR → has_flag info BLOCK_ENCODING_EXTENSION = true) →
  ∃ bs data', body_writer oob ct data = Some bs ∧ Forall2 same_value data data' ∧
    (∀ rest, decode_body fuel info ct (map (blank ct) data) (undefined_count data) (bs ++ rest)
      = Some (data', rest)) ∧
    ∀ bitmap rest, (undefined_count data ≠ 0 → bits_match bitmap 0 data) →
      stream_body fuel info ct bitmap (undefined_count data) (bs ++ rest)
      = Some (data' ++ repeated_calls data, rest).
Proof.
  intros Hct Hc Hne Hv Hsz Hd Hn Hext. unfold repeated_calls.
  rewrite (plain_column_eq ct data Hct Hc Hne). destruct (own_encoding ct) eqn:Hown.
  - destruct (own_body oob oob_range fuel data ct info Hown Hc Hv Hsz Hext)
      as (bs & data' & Hw & Hs & Hdec & Hst).
    exists bs, data'. split_and!; [done..|]. intros bitmap rest Hm. cbn [negb]. rewrite app_nil_r.
    by apply (stream_body_own fuel info ct bitmap data); [..|apply Hst]; try done; apply Hsz.
  - destruct (plain_body fuel data ct Hc Hv Hd Hct) as (bs & Hw & Hdec).
    exists bs, data. split_and!; [by destruct ct|apply same_values_refl|by destruct ct|].
    intros bitmap rest Hm. cbn [negb]. apply stream_body_plain; try done.
    destruct (deserialize_stream_spec fuel bitmap (undefined_count data) ct data 0) as (bs' & Hw' & Hs);
      try done.
    { destruct (Z.eqb_spec (undefined_count data) 0); [by apply undefined_count_zero|auto]. }
    rewrite Hw in Hw'. injection Hw' as <-. apply Hs.
Qed.
End block.

(** ** Whole blocks *)

Section typed_block.
Context (oob : Z → Z) (oob_range : ∀ x, is_s64 (oob x)).

(** [bs] with the metadata [info] holds [data]: both decoders read it. *)
Definition holds_block (fuel : nat) (info : block_info) (bs : list Z) (data : list flexible_type) : Prop :=
  ∃ data', Forall2 same_value data data' ∧
    (∀ ret0 rest, typed_decode fuel info ret0 (bs ++ rest) = Some ((true, data'), rest)) ∧
    ∀ rest, typed_decode_stream_callback fuel info (bs ++ rest)
      = Some ((true, data' ++ repeated_calls data), rest).

Lemma finish_bytes off info w bs :
  w = Some bs → finish off info w = Some (set_block_size (off + Z.of_nat (length bs)) info, bs).
Proof. by intros ->. Qed.

(** The metadata with which the header functions of this section are called. *)
Definition block_flags (ct : flex_type_enum) (n : nat) (info : block_info) : Prop :=
  has_flag info IS_FLEXIBLE_TYPE = true ∧ has_flag info MULTIPLE_TYPE_BLOCK = false ∧
  num_elem info = Z.of_nat n ∧
  (ct = FLOAT ∨ ct = VECTOR → has_flag info BLOCK_ENCODING_EXTENSION = true).

Lemma block_flags_body ct n info :
  has_flag info MULTIPLE_TYPE_BLOCK = false → ∀ m,
  block_flags ct n (set_block_size m (body_info ct (set_num_elem (Z.of_nat n) (set_flag IS_FLEXIBLE_TYPE info)))).
Proof.
  intros Hm m.
  assert (∀ i, has_flag (set_block_size m (body_info ct (set_num_elem (Z.of_nat n) i))) IS_FLEXIBLE_TYPE
    = has_flag i IS_FLEXIBLE_TYPE ∧
    has_flag (set_block_size m (body_info ct (set_num_elem (Z.of_nat n) i))) MULTIPLE_TYPE_BLOCK
    = has_flag i MULTIPLE_TYPE_BLOCK) as Hf.
  { intros i. rewrite !has_flag_block_size. change BLOCK_ENCODING_EXTENSION with (2 ^ 3).
    destruct ct; cbn [body_info]; rewrite ?has_flag_num_elem; try done;
      change BLOCK_ENCODING_EXTENSION with (2 ^ 3); change IS_FLEXIBLE_TYPE with (2 ^ 1);
      change MULTIPLE_TYPE_BLOCK with (2 ^ 2); rewrite !has_set_flag, !has_flag_num_elem by done;
      cbn [Z.eqb Pos.eqb]; by rewrite !orb_false_r. }
  destruct (Hf (set_flag IS_FLEXIBLE_TYPE info)) as [H1 H2]. unfold block_flags. rewrite H1, H2.
  change IS_FLEXIBLE_TYPE with (2 ^ 1). change MULTIPLE_TYPE_BLOCK with (2 ^ 2) in *.
  rewrite !has_set_flag, Hm by done. split_and!.
  - by rewrite orb_true_r.
  - done.
  - by destruct ct.
  - change BLOCK_ENCODING_EXTENSION with (2 ^ 3). rewrite has_flag_block_size.
    intros [-> | ->]; cbn [body_info]; change BLOCK_ENCODING_EXTENSION with (2 ^ 3);
      rewrite has_set_flag by done; by rewrite orb_true_r.
Qed.

Lemma vector_resize_default n : vector_resize n default_value [] = replicate n default_value.
Proof. unfold vector_resize. rewrite take_nil. by rewrite Nat.sub_0_r. Qed.

(** One type, no UNDEFINED value. *)
Lemma block_one_type fuel info bs data data' ct :
  block_flags ct (length data) info → ct ≠ UNDEFINED → Forall2 same_value data data' →
  Forall (λ v, is_undefined v = false) data →
  (∀ rest, decode_body fuel info ct (map (blank ct) data) (undefined_count data) (bs ++ rest)
    = Some (data', rest)) →
  (∀ bitmap rest, (undefined_count data ≠ 0 → bits_match bitmap 0 data) →
    stream_body fuel info ct bitmap (undefined_count data) (bs ++ rest)
    = Some (data' ++ repeated_calls data, rest)) →
  holds_block fuel info (1 :: enum_code ct :: bs) data.
Proof.
  intros (Hf1 & Hf2 & Hn & _) Hct Hs Hnu Hdec Hst. rewrite (no_undefined_count _ Hnu) in Hdec, Hst.
  exists data'. split_and!; [done| |]; intros; unfold typed_decode, typed_decode_stream_callback;
    rewrite Hf1; cbn [negb]; cbn [app]; rewrite (reader_bind_Some _ _ _ _ _ (read_byte _ _)), Hf2;
    cbn [Z.eqb Pos.eqb].
  - rewrite (reader_bind_Some _ _ _ data' rest).
    + unfold mret, reader_ret. rewrite Hn, <- (Forall2_length _ _ _ Hs). by rewrite Z.eqb_refl.
    + rewrite (reader_bind_Some _ _ _ _ _ (read_byte _ _)).
      rewrite (reader_bind_Some _ _ _ ct (bs ++ rest)) by (unfold rlift; by rewrite enum_of_code_code).
      rewrite decide_False by done. rewrite Hn, Nat2Z.id.
      replace (replicate (length data) (reset ct)) with (map (blank ct) data); [apply Hdec|].
      clear -Hnu. induction Hnu as [|v data Hv _ IH]; [done|]. cbn [map length replicate].
      unfold blank at 1. by rewrite Hv, IH.
  - rewrite (reader_bind_Some _ _ _ (data' ++ repeated_calls data) rest); [done|].
    rewrite (reader_bind_Some _ _ _ _ _ (read_byte _ _)).
    rewrite (reader_bind_Some _ _ _ ct (bs ++ rest)) by (unfold rlift; by rewrite enum_of_code_code).
    rewrite decide_False by done. by apply Hst.
Qed.

(** One type and UNDEFINED values. *)
Lemma block_two_types fuel info bs data data' ct d :
  block_flags ct (length data) info → ct ≠ UNDEFINED → Forall2 same_value data data' →
  bitmap_of data d →
  (∀ rest, decode_body fuel info ct (map (blank ct) data) (undefined_count data) (bs ++ rest)
    = Some (data', rest)) →
  (∀ bitmap rest, (undefined_count data ≠ 0 → bits_match bitmap 0 data) →
    stream_body fuel info ct bitmap (undefined_count data) (bs ++ rest)
    = Some (data' ++ repeated_calls data, rest)) →
  ∃ words, wconcat (write_le 8) (Bitset.array d) = Some words ∧
    holds_block fuel info (2 :: enum_code ct :: words ++ bs) data.
Proof.
  intros (Hf1 & Hf2 & Hn & _) Hct Hs Hd Hdec Hst.
  destruct (read_bitmap_round_trip data d Hd) as (words & Hw & Hr). exists words. split; [done|].
  exists data'. split_and!; [done| |]; intros; unfold typed_decode, typed_decode_stream_callback;
    rewrite Hf1; cbn [negb]; cbn [app]; rewrite <- app_assoc;
    rewrite (reader_bind_Some _ _ _ _ _ (read_byte _ _)), Hf2;
    cbn [Z.eqb Pos.eqb].
  - rewrite (reader_bind_Some _ _ _ data' rest).
    + unfold mret, reader_ret. rewrite Hn, <- (Forall2_length _ _ _ Hs). by rewrite Z.eqb_refl.
    + rewrite (reader_bind_Some _ _ _ _ _ (read_byte _ _)).
      rewrite (reader_bind_Some _ _ _ ct (words ++ bs ++ rest)) by (unfold rlift; by rewrite enum_of_code_code).
      rewrite Hn, Nat2Z.id, (reader_bind_Some _ _ _ _ _ (Hr _)).
      rewrite (reader_bind_Some _ _ _ (map (blank ct) data) (bs ++ rest))
        by (unfold rlift; by rewrite (bitmap_undefine data d ct Hd)).
      rewrite (bitmap_popcount data d Hd). apply Hdec.
  - rewrite (reader_bind_Some _ _ _ (data' ++ repeated_calls data) rest); [done|].
    rewrite (reader_bind_Some _ _ _ _ _ (read_byte _ _)).
    rewrite (reader_bind_Some _ _ _ ct (words ++ bs ++ rest)) by (unfold rlift; by rewrite enum_of_code_code).
    rewrite Hn, Nat2Z.id, (reader_bind_Some _ _ _ _ _ (Hr _)), (bitmap_popcount data d Hd).
    apply Hst. intros _ i v Hi. destruct Hd as (Hwf & Hl & Hb). rewrite Nat.add_0_l.
    rewrite Bitset.get_spec; [by cbn; rewrite Hb, Hi|done|]. rewrite Hl. by eapply lookup_lt_Some.
Qed.

Lemma save_values_round_trip fuel data :
  Forall (λ v, valid v = true) data → Forall (λ v, depth v ≤ fuel)%nat data →
  is_u64 (Z.of_nat (length data)) → encodes (save_values data) (load_values fuel) data.
Proof.
  intros Hv Hd Hu. apply encodes_counted; [by apply bool_decide_true|].
  rewrite Forall_forall in Hv, Hd |- *. intros v Hin. apply load_save; auto.
Qed.

(** What the encoder writes for a column of type [ct] after its header [w]. *)
Lemma encode_column fuel off info (appeared : flex_type_enum → bool) w hdr data ct :
  Forall (λ v, valid v = true) data → sizes_fit data →
  Forall (λ v, depth v ≤ S fuel)%nat data → has_flag info MULTIPLE_TYPE_BLOCK = false →
  ct ≠ UNDEFINED → column ct data → defined data ≠ [] →
  (∀ t, t ≠ UNDEFINED → appeared t = bool_decide (t = ct)) → w = Some hdr →
  ∃ info' bs data', encode_body oob off appeared
      (set_num_elem (Z.of_nat (length data)) (set_flag IS_FLEXIBLE_TYPE info)) w data
    = Some (info', hdr ++ bs) ∧
    block_flags ct (length data) info' ∧ block_size info' = off + Z.of_nat (length (hdr ++ bs)) ∧
    Forall2 same_value data data' ∧
    (∀ rest, decode_body fuel info' ct (map (blank ct) data) (undefined_count data) (bs ++ rest)
      = Some (data', rest)) ∧
    ∀ bitmap rest, (undefined_count data ≠ 0 → bits_match bitmap 0 data) →
      stream_body fuel info' ct bitmap (undefined_count data) (bs ++ rest)
      = Some (data' ++ repeated_calls data, rest).
Proof.
  intros Hv Hsz Hd Hm Hct Hc Hne Ha Hw.
  set (info1 := body_info ct (set_num_elem (Z.of_nat (length data)) (set_flag IS_FLEXIBLE_TYPE info))).
  assert (∃ bs data', body_writer oob ct data = Some bs ∧ Forall2 same_value data data' ∧
    (∀ m rest, decode_body fuel (set_block_size m info1) ct (map (blank ct) data) (undefined_count data) (bs ++ rest)
      = Some (data', rest)) ∧
    ∀ m bitmap rest, (undefined_count data ≠ 0 → bits_match bitmap 0 data) →
      stream_body fuel (set_block_size m info1) ct bitmap (undefined_count data) (bs ++ rest)
      = Some (data' ++ repeated_calls data, rest)) as (bs & data' & Hb & Hs & Hdec & Hst).
  { destruct (block_flags_body ct (length data) info Hm 0) as (_ & _ & Hn & He).
    destruct (body_case oob oob_range fuel (set_block_size 0 info1) ct data Hct Hc Hne Hv Hsz Hd Hn He)
      as (bs & data' & ? & ? & Hdec & Hst). by exists bs, data'. }
  exists (set_block_size (off + Z.of_nat (length (hdr ++ bs))) info1), bs, data'.
  rewrite (encode_body_eq oob off appeared _ w data ct Hct Ha), Hw, Hb.
  split_and!; [done|by apply block_flags_body|done|done| |]; intros; [apply Hdec|by apply Hst].
Qed.

Lemma encode_multiple fuel off info data :
  Forall (λ v, valid v = true) data → sizes_fit data → Forall (λ v, depth v ≤ fuel)%nat data →
  repeated_calls data = [] →
  ∃ info' bs, finish off (set_flag MULTIPLE_TYPE_BLOCK
      (set_num_elem (Z.of_nat (length data)) (set_flag IS_FLEXIBLE_TYPE info)))
      (write_le 1 (Z.of_nat (length (type_codes data))) +++ save_values data) = Some (info', bs) ∧
    num_elem info' = Z.of_nat (length data) ∧ block_size info' = off + Z.of_nat (length bs) ∧
    holds_block fuel info' bs data.
Proof.
  intros Hv Hsz Hd Hrep.
  destruct (save_values_round_trip fuel data Hv Hd (proj1 Hsz)) as (bs & Hsave & Hload).
  set (n := Z.of_nat (length (type_codes data))).
  assert (write_le 1 n = Some [u8 n]) as Hn by done. rewrite Hn, Hsave.
  eexists _, ([u8 n] ++ bs). split; [done|]. split_and!; [done|done|].
  set (info' := set_flag MULTIPLE_TYPE_BLOCK _). exists data.
  assert (has_flag info' IS_FLEXIBLE_TYPE = true ∧ has_flag info' MULTIPLE_TYPE_BLOCK = true) as [Hf1 Hf2].
  { unfold info'. change MULTIPLE_TYPE_BLOCK with (2 ^ 2). change IS_FLEXIBLE_TYPE with (2 ^ 1).
    rewrite !has_set_flag, !has_flag_num_elem, !has_set_flag by done. by rewrite !orb_true_r. }
  split_and!; [apply same_values_refl| |]; intros; unfold typed_decode, typed_decode_stream_callback;
    rewrite !has_flag_block_size, Hf1; cbn [negb];
    cbn [app]; rewrite (reader_bind_Some _ _ _ _ _ (read_byte _ _)), ?has_flag_block_size, Hf2;
    rewrite (reader_bind_Some _ _ _ _ _ (Hload _)).
  - unfold mret, reader_ret. cbn [num_elem set_block_size]. unfold info'. cbn [num_elem set_flag set_num_elem].
    by rewrite Z.eqb_refl.
  - by rewrite Hrep, app_nil_r.
Qed.

(** Every block that fits in memory is encoded, and what is encoded is read back. *)
Lemma typed_encode_holds fuel off info data :
  Forall (λ v, valid v = true) data → sizes_fit data → Forall (λ v, depth v ≤ fuel)%nat data →
  has_flag info MULTIPLE_TYPE_BLOCK = false →
  ∃ info' bs, typed_encode oob off data info = Some (info', bs) ∧
    num_elem info' = Z.of_nat (length data) ∧ block_size info' = off + Z.of_nat (length bs) ∧
    holds_block fuel info' bs data.
Proof.
  intros Hv Hsz Hd Hm. destruct (types_spec data) as (types & Ht & Hpop & Hel & Hget).
  unfold typed_encode. rewrite Ht. cbn [mbind option_bind]. rewrite Hpop, Hel, !Hget.
  assert (Forall (λ v, depth v ≤ S fuel)%nat data) as Hd'.
  { eapply Forall_impl; [done|]. cbn. lia. }
  set (info0 := set_num_elem (Z.of_nat (length data)) (set_flag IS_FLEXIBLE_TYPE info)).
  assert (∀ m, block_flags INTEGER (length data) (set_block_size m info0)) as Hfl.
  { intros m. apply (block_flags_body INTEGER (length data) info Hm m). }
  destruct (Z.eqb_spec (Z.of_nat (length (type_codes data))) 0) as [E0|E0].
  { (* no value *)
    assert (data = []) as -> by (apply no_types; lia).
    exists (set_block_size (off + 1) info0), [0]. split_and!; [done|done|done|].
    exists []. destruct (Hfl (off + 1)) as (Hf1 & Hf2 & _).
    split_and!; [done| |]; intros; unfold typed_decode, typed_decode_stream_callback;
      rewrite Hf1; cbn [negb]; cbn [app]; rewrite (reader_bind_Some _ _ _ _ _ (read_byte _ _)), Hf2;
      cbn [Z.eqb]; [|done]. by destruct ret0. }
  destruct (Z.eqb_spec (Z.of_nat (length (type_codes data))) 1) as [E1|E1].
  { (* one type *)
    destruct (one_type data ltac:(lia)) as (v & Hhead & Hall). rewrite Hhead. cbn [mbind option_bind].
    destruct (is_undefined v) eqn:Eu.
    - apply is_undefined_true in Eu as ->.
      assert (data = replicate (length data) FUndefined) as Hrep.
      { clear -Hall. induction Hall as [|w data Hw _ IH]; [done|]. cbn [length replicate].
        rewrite <- IH. by destruct w. }
      rewrite E1. exists (set_block_size (off + 2) info0), [1; 7]. split_and!; [done|done|done|].
      exists data. destruct (Hfl (off + 2)) as (Hf1 & Hf2 & Hn & _).
      assert (defined data = []) as Hdef.
      { rewrite Hrep. clear. by induction (length data). }
      split_and!; [apply same_values_refl| |]; intros; unfold typed_decode, typed_decode_stream_callback;
        rewrite Hf1; cbn [negb]; cbn [app]; rewrite !(reader_bind_Some _ _ _ _ _ (read_byte _ _)), Hf2;
        rewrite Hn, Nat2Z.id; unfold repeated_calls, plain_column; rewrite ?Hdef.
      + rewrite (reader_bind_Some _ _ _ data rest); [unfold mret, reader_ret; by rewrite Z.eqb_refl|].
        cbn [Z.eqb Pos.eqb]. rewrite (reader_bind_Some _ _ _ _ _ (read_byte _ _)).
        rewrite (reader_bind_Some _ _ _ UNDEFINED rest) by done.
        rewrite decide_True by done. cbn [reset]. by rewrite <- Hrep.
      + rewrite app_nil_r. cbn. by rewrite <- Hrep.
    - set (ct := get_type v) in *.
      assert (ct ≠ UNDEFINED) as Hct by (intros E; unfold is_undefined in Eu; fold ct in Eu; by rewrite E in Eu).
      assert (column ct data) as Hc by (eapply Forall_impl; [done|]; cbn; auto).
      assert (Forall (λ v, is_undefined v = false) data) as Hnu.
      { rewrite Forall_forall in Hall |- *. intros w Hin. unfold is_undefined.
        rewrite (Hall w Hin). by apply bool_decide_false. }
      destruct data as [|v' data]; [done|]. injection Hhead as ->.
      destruct (encode_column fuel off info (λ t, default false (Bitset.fixed_get types (Z.to_nat (enum_code t))))
        (write_le 1 (Z.of_nat (length (type_codes (v :: data)))) +++ write_le 1 (enum_code ct))
        [1; enum_code ct] (v :: data) ct) as (info' & bs & data' & He & Hf & Hbs & Hs & Hdec & Hst); try done.
      { by rewrite defined_no_undefined. }
      { intros t Htu. rewrite Hget. apply column_appears; try done. apply appears_type. exists v. split; [by left|done]. }
      { by rewrite E1, !write_byte by (apply enum_code_byte || (unfold is_u; eval_pow; lia)). }
      exists info', ([1; enum_code ct] ++ bs). split_and!; [exact He|apply Hf|done|].
      by apply (block_one_type fuel info' bs (v :: data) data' ct). }
  destruct (Z.eqb_spec (Z.of_nat (length (type_codes data))) 2) as [E2|E2];
    [destruct (appears data (code_of UNDEFINED)) eqn:Eu; cbn [andb]|].
  { (* one type and UNDEFINED *)
    destruct (two_types data ltac:(lia) Eu) as (ct & Hct & Hc & Hap & Hfind). rewrite Hfind.
    cbn [mbind option_bind]. destruct (mark_bitmap data) as (d & Hmark & Hbm). rewrite Hmark.
    cbn [mbind option_bind].
    destruct (read_bitmap_round_trip data d Hbm) as (words & Hw & _).
    assert (defined data ≠ []) as Hne.
    { apply appears_type in Hap as (v & Hin & Hvt). intros Hdef.
      assert (v ∈ defined data) as Hin'; [|by rewrite Hdef in Hin'; apply not_elem_of_nil in Hin'].
      unfold defined. rewrite list_elem_of_In, filter_In. split; [by apply list_elem_of_In|].
      unfold is_undefined. rewrite Hvt. by rewrite bool_decide_false. }
    destruct (encode_column fuel off info (λ t, default false (Bitset.fixed_get types (Z.to_nat (enum_code t))))
      (write_le 1 (Z.of_nat (length (type_codes data))) +++ write_le 1 (Z.of_nat (code_of ct))
        +++ wconcat (write_le 8) (Bitset.array d))
      (2 :: enum_code ct :: words) data ct) as (info' & bs & data' & He & Hf & Hbs & Hs & Hdec & Hst); try done.
    { intros t Htu. rewrite Hget. by apply column_appears. }
    { unfold code_of. pose proof (enum_code_range ct).
      by rewrite E2, Hw, Z2Nat.id, !write_byte by (apply enum_code_byte || lia || (unfold is_u; eval_pow; lia)). }
    exists info', ((2 :: enum_code ct :: words) ++ bs). split_and!; [exact He|apply Hf|done|].
    destruct (block_two_types fuel info' bs data data' ct d) as (words' & Hw' & Hh); try done.
    rewrite Hw in Hw'. injection Hw' as <-. exact Hh. }
  (* several types *)
  all: apply encode_multiple; try done; unfold repeated_calls;
    destruct (plain_column data) eqn:Ep; [|done];
    apply plain_column_types in Ep as [Hp1 Hp2]; try specialize (Hp2 Eu); lia.
Qed.
End typed_block.

End TypeEncodingSpec.
