(* ===== verification/StringEscape.v ===== *)
(** Escaping and unescaping of strings: src/oss_src/flexible_type/string_escape.cpp (the CSV
    writer and tokenizer use it) and src/oss_src/sframe/comma_escape_string.hpp.

    A string is a list of bytes; [unescape_string] works in place on an array. *)
From S2P Require Import Prelude.
Local Open Scope Z_scope.
Local Open Scope sframe_scope.

Module StringEscape.

(** ** Characters *)

Definition NUL : Z := 0.
Definition BS : Z := 8.
Definition TAB : Z := 9.
Definition NL : Z := 10.
Definition CR : Z := 13.
Definition DQUOTE : Z := 34.
Definition SQUOTE : Z := 39.
Definition COMMA : Z := 44.
Definition SLASH : Z := 47.
Definition BACKSLASH : Z := 92.
Definition ch_b : Z := 98.
Definition ch_n : Z := 110.
Definition ch_r : Z := 114.
Definition ch_t : Z := 116.
Definition ch_u : Z := 117.
Definition ch_x : Z := 120.

(** The character after the current one. *)
Definition next_is (c : Z) (rest : list Z) : bool :=
  match rest with d :: _ => d =? c | [] => false end.

(** ** escape_string *)

Section escape.
Variables (escape_char : Z) (use_escape_char : bool) (quote_char : Z)
  (use_quote_char double_quote : bool).

(** The case of a quote [q] when escapes may be generated. *)
Definition escape_quote (q : Z) : list Z :=
  if double_quote && (quote_char =? q) then [q; q]
  else if use_quote_char && (quote_char =? q) then [escape_char; q]
  else [q].

(** One iteration of the first loop, on [c] followed by [rest]. *)
Definition escape_one (c : Z) (rest : list Z) : list Z :=
  if c =? SQUOTE then escape_quote SQUOTE
  else if c =? DQUOTE then escape_quote DQUOTE
  else if c =? BACKSLASH then
    if next_is ch_u rest || next_is ch_x rest then [c] else [escape_char; BACKSLASH]
  else if c =? TAB then [escape_char; ch_t]
  else if c =? BS then [escape_char; ch_b]
  else if c =? CR then [escape_char; ch_r]
  else if c =? NL then [escape_char; ch_n]
  else if c =? NUL then [escape_char; NUL]
  else [c].

(** One iteration of the second loop, which only doubles quotes. *)
Definition double_one (c : Z) : list Z :=
  if c =? SQUOTE then
    if double_quote && (quote_char =? SQUOTE) then [SQUOTE; SQUOTE] else [SQUOTE]
  else if c =? DQUOTE then
    if double_quote then [DQUOTE; DQUOTE] else [DQUOTE]
  else [c].

Fixpoint escape_loop (val : list Z) : list Z :=
  match val with
  | [] => []
  | c :: rest => escape_one c rest ++ escape_loop rest
  end.

Fixpoint double_loop (val : list Z) : list Z :=
  match val with
  | [] => []
  | c :: rest => double_one c ++ double_loop rest
  end.

Definition quotes : list Z := if use_quote_char then [quote_char] else [].

(** What is written to [output]; [output_len] is its length. *)
Definition escape_string (val : list Z) : list Z :=
  quotes ++ (if use_escape_char then escape_loop val else double_loop val) ++ quotes.
End escape.

(** The room the code makes in [output]. *)
Definition escape_capacity (val : list Z) : nat := 2 + 2 * length val.

(** ** Hexadecimal and UTF-8 *)

Definition hex_to_val (c : Z) : option Z :=
  if (48 <=? c) && (c <=? 57) then Some (c - 48)
  else if (97 <=? c) && (c <=? 102) then Some (10 + c - 97)
  else if (65 <=? c) && (c <=? 70) then Some (10 + c - 65)
  else None.

Fixpoint parse_hex (n : nat) (ret : Z) (c : list Z) : option Z :=
  match n with
  | O => Some ret
  | S n' =>
      match c with
      | d :: c' => val ← hex_to_val d; parse_hex n' (ret * 16 + val) c'
      | [] => None
      end
  end.

Definition parse_hex_block (c : list Z) : option Z := parse_hex 4 0 c.

(** The bytes written; none for an invalid code point. *)
Definition write_utf8 (code_point : Z) : list Z :=
  if code_point <? 0x80 then [u8 code_point]
  else if code_point <=? 0x7FF then
    [u8 ((code_point ≫ 6) + 0xC0); u8 ((code_point .& 0x3F) + 0x80)]
  else if code_point <=? 0xFFFF then
    [u8 ((code_point ≫ 12) + 0xE0); u8 (((code_point ≫ 6) .& 0x3F) + 0x80);
     u8 ((code_point .& 0x3F) + 0x80)]
  else if code_point <=? 0x10FFFF then
    [u8 ((code_point ≫ 18) + 0xF0); u8 (((code_point ≫ 12) .& 0x3F) + 0x80);
     u8 (((code_point ≫ 6) .& 0x3F) + 0x80); u8 ((code_point .& 0x3F) + 0x80)]
  else [].

(** ** unescape_string *)

Section unescape.
Variables (escape_char quote_char : Z) (double_quote : bool).

(** The value and the length of a \u block at the head of [s], if it is good. *)
Definition unicode_block (s : list Z) : option (Z * nat) :=
  unicode_val ← parse_hex_block (drop 2 s);
  if (0xD800 <=? unicode_val) && (unicode_val <=? 0xD8FF) then
    if (12 <=? length s)%nat && next_is escape_char (drop 6 s) && next_is ch_u (drop 7 s) then
      low ← parse_hex_block (drop 8 s);
      if (0xDC00 <=? low) && (low <=? 0xDFFF)
      then Some (((unicode_val - 0xD800) ≪ 10) + (low - 0xDC00) + 0x10000, 12%nat)
      else None
    else None
  else Some (unicode_val, 6%nat).

(** One iteration at the head of the remaining input [s] that starts with [c]: the bytes
    written and the number of characters consumed. *)
Definition unescape_one (c : Z) (rest : list Z) : list Z * nat :=
  match rest with
  | echar :: _ =>
      if c =? escape_char then
        if echar =? SQUOTE then ([SQUOTE], 2%nat)
        else if echar =? DQUOTE then ([DQUOTE], 2%nat)
        else if echar =? BACKSLASH then ([BACKSLASH], 2%nat)
        else if echar =? SLASH then ([SLASH], 2%nat)
        else if echar =? ch_t then ([TAB], 2%nat)
        else if echar =? ch_b then ([BS], 2%nat)
        else if echar =? ch_r then ([CR], 2%nat)
        else if echar =? ch_n then ([NL], 2%nat)
        else if echar =? ch_u then
          if (6 <=? length (c :: rest))%nat then
            match unicode_block (c :: rest) with
            | Some (unicode_val, unicode_block_length) =>
                let bytes := write_utf8 unicode_val in
                if (length bytes =? 0)%nat
                then (default [] (x ← rest !! (unicode_block_length - 2)%nat; Some [x]),
                      unicode_block_length)
                else (bytes, unicode_block_length)
            | None => ([c], 1%nat)
            end
          else ([c], 1%nat)
        else ([c], 1%nat)
      else if double_quote && (c =? quote_char) && (echar =? quote_char)
      then ([quote_char], 2%nat)
      else ([c], 1%nat)
  | [] => ([c], 1%nat)
  end.

(** Writing [bytes] at [out] in the array. *)
Fixpoint store (cal : list Z) (out : nat) (bytes : list Z) : list Z :=
  match bytes with
  | [] => cal
  | b :: bytes' => store (<[out := b]> cal) (S out) bytes'
  end.

(** The loop on the array; [in] and [out] are the indices. *)
Fixpoint unescape_loop (fuel : nat) (cal : list Z) (inp out : nat) : option (list Z * nat) :=
  match fuel with
  | O => None
  | S fuel' =>
      match drop inp cal with
      | [] => Some (cal, out)
      | c :: rest =>
          let '(bytes, n) := unescape_one c rest in
          unescape_loop fuel' (store cal out bytes) (inp + n) (out + length bytes)
      end
  end.

(** [cal.resize(new_length)]. *)
Definition unescape_string (cal : list Z) : option (list Z) :=
  '(cal, new_length) ← unescape_loop (S (length cal)) cal 0 0;
  Some (take new_length cal).

(** Specification: the same on immutable strings. *)
Fixpoint unescape_spec (fuel : nat) (s : list Z) : list Z :=
  match fuel, s with
  | S fuel', c :: rest =>
      let '(bytes, n) := unescape_one c rest in
      bytes ++ unescape_spec fuel' (drop n s)
  | _, _ => []
  end.

Definition unescape (s : list Z) : list Z := unescape_spec (length s) s.
End unescape.

(** ** comma_escape_string *)

Definition replace_char : Z := 0x1F.

Definition comma_escape_one (c : Z) (rest : list Z) : list Z :=
  if c =? BACKSLASH then
    if next_is ch_u rest || next_is ch_x rest then [c] else [BACKSLASH; c]
  else if c =? COMMA then [BACKSLASH; replace_char]
  else if c =? SQUOTE then [BACKSLASH; SQUOTE]
  else if c =? DQUOTE then [BACKSLASH; DQUOTE]
  else if c =? TAB then [BACKSLASH; ch_t]
  else if c =? CR then [BACKSLASH; ch_r]
  else if c =? BS then [BACKSLASH; ch_b]
  else if c =? NL then [BACKSLASH; ch_n]
  else [c].

Fixpoint comma_escape_string (val : list Z) : list Z :=
  match val with
  | [] => []
  | c :: rest => comma_escape_one c rest ++ comma_escape_string rest
  end.

(** The character a backslash and [d] stand for. *)
Definition comma_unescape_pair (d : Z) : option Z :=
  if d =? BACKSLASH then Some BACKSLASH
  else if d =? replace_char then Some COMMA
  else if d =? SQUOTE then Some SQUOTE
  else if d =? DQUOTE then Some DQUOTE
  else if d =? ch_n then Some NL
  else if d =? ch_b then Some BS
  else if d =? ch_t then Some TAB
  else if d =? ch_r then Some CR
  else None.

Fixpoint comma_unescape_string (val : list Z) : list Z :=
  match val with
  | [] => []
  | c :: rest =>
      match rest with
      | d :: rest' =>
          if c =? BACKSLASH then
            match comma_unescape_pair d with
            | Some x => x :: comma_unescape_string rest'
            | None => c :: comma_unescape_string rest
            end
          else c :: comma_unescape_string rest
      | [] => [c]
      end
  end.

(** ** Capacity *)

Lemma length_escape_one ec qc uq dq c rest : (length (escape_one ec qc uq dq c rest) ≤ 2)%nat.
Proof. unfold escape_one, escape_quote. repeat case_match; simpl; lia. Qed.

Lemma length_double_one qc dq c : (length (double_one qc dq c) ≤ 2)%nat.
Proof. unfold double_one. repeat case_match; simpl; lia. Qed.

(** The output never exceeds the room that was made for it. *)
Lemma escape_string_capacity ec ue qc uq dq val :
  (length (escape_string ec ue qc uq dq val) ≤ escape_capacity val)%nat.
Proof.
  unfold escape_string, escape_capacity. rewrite !length_app.
  assert (length (quotes qc uq) ≤ 1)%nat by (unfold quotes; case_match; simpl; lia).
  assert (length (escape_loop ec qc uq dq val) ≤ 2 * length val)%nat.
  { induction val as [|c rest IH]; [done|]. cbn [escape_loop]. rewrite length_app.
    pose proof (length_escape_one ec qc uq dq c rest). cbn [length] in *. lia. }
  assert (length (double_loop qc dq val) ≤ 2 * length val)%nat.
  { clear. induction val as [|c rest IH]; [done|]. cbn [double_loop]. rewrite length_app.
    pose proof (length_double_one qc dq c). cbn [length] in *. lia. }
  case_match; lia.
Qed.

Lemma comma_escape_capacity val : (length (comma_escape_string val) ≤ 2 * length val)%nat.
Proof.
  induction val as [|c rest IH]; [done|]. cbn [comma_escape_string]. rewrite length_app.
  assert (length (comma_escape_one c rest) ≤ 2)%nat
    by (unfold comma_escape_one; repeat case_match; simpl; lia).
  cbn [length] in *. lia.
Qed.

(** ** The in-place loop *)

Lemma length_write_utf8 cp : (length (write_utf8 cp) ≤ 4)%nat.
Proof. unfold write_utf8. repeat case_match; simpl; lia. Qed.

Lemma unicode_block_length ec s v n : unicode_block ec s = Some (v, n) →
  (6 ≤ length s)%nat → (6 ≤ n ≤ length s)%nat.
Proof.
  unfold unicode_block. intros (u & _ & H)%bind_Some Hs. destruct (_ && _).
  - destruct (Nat.leb_spec 12 (length s)); cbn [andb] in H; [|done].
    destruct (next_is _ _); cbn [andb] in H; [|done]. destruct (next_is _ _); [|done].
    apply bind_Some in H as (low & _ & H). destruct (_ && _); [|done]. injection H as <- <-. lia.
  - injection H as <- <-. lia.
Qed.

(** An iteration consumes a character, stays inside the input and writes no more than it
    consumes. *)
Lemma unescape_one_bounds ec qc dq c rest bytes n :
  unescape_one ec qc dq c rest = (bytes, n) →
  (1 ≤ n ≤ length (c :: rest))%nat ∧ (length bytes ≤ n)%nat.
Proof.
  unfold unescape_one. intros H.
  destruct rest as [|e rest]; [injection H as <- <-; simpl; lia|].
  destruct (c =? ec).
  2:{ destruct (_ && _ && _); injection H as <- <-; simpl; lia. }
  repeat match type of H with
  | (if ?b then (?l, 2%nat) else _) = _ => destruct b; [injection H as <- <-; simpl; lia|]
  end.
  destruct (e =? ch_u); [|injection H as <- <-; simpl; lia].
  destruct (Nat.leb_spec 6 (length (c :: e :: rest))); [|injection H as <- <-; simpl; lia].
  destruct (unicode_block _ _) as [[v m]|] eqn:E; [|injection H as <- <-; simpl; lia].
  apply unicode_block_length in E; [|done]. pose proof (length_write_utf8 v).
  destruct (length (write_utf8 v) =? 0)%nat; injection H as <- <-; [|lia].
  split; [lia|]. destruct (_ !! _); simpl; lia.
Qed.

Lemma length_store cal out bytes : length (store cal out bytes) = length cal.
Proof.
  revert cal out. induction bytes as [|b bytes IH]; intros cal out; [done|].
  cbn [store]. by rewrite IH, length_insert.
Qed.

Lemma drop_store cal out bytes k : (out + length bytes ≤ k)%nat → drop k (store cal out bytes) = drop k cal.
Proof.
  revert cal out. induction bytes as [|b bytes IH]; intros cal out Hk; [done|].
  cbn [store length] in *. rewrite IH by lia. by rewrite drop_insert_lt by lia.
Qed.

Lemma take_store cal out bytes : (out + length bytes ≤ length cal)%nat →
  take (out + length bytes) (store cal out bytes) = take out cal ++ bytes.
Proof.
  revert cal out. induction bytes as [|b bytes IH]; intros cal out Hk; cbn [store length] in *.
  { by rewrite Nat.add_0_r, app_nil_r. }
  replace (out + S (length bytes))%nat with (S out + length bytes)%nat by lia.
  rewrite IH by (rewrite length_insert; lia).
  erewrite take_S_r by (apply list_lookup_insert_eq; lia).
  rewrite take_insert_ge by lia. by rewrite <- app_assoc.
Qed.

Section in_place.
Context (escape_char quote_char : Z) (double_quote : bool).
Abbreviation spec := (unescape_spec escape_char quote_char double_quote).

(** Any fuel that covers the input gives the same result. *)
Lemma unescape_spec_fuel k s f :
  (length s ≤ f)%nat → (length s ≤ k)%nat → spec f s = spec k s.
Proof.
  revert s f. induction k as [|k IH]; intros [|c rest] [|f] Hf Hk; try (simpl in *; lia); try done.
  cbn [unescape_spec]. destruct (unescape_one _ _ _ c rest) as [bytes n] eqn:E.
  apply unescape_one_bounds in E as [Hn _]. simpl in Hf, Hk, Hn.
  f_equal. apply IH; rewrite length_drop; simpl; lia.
Qed.

Lemma unescape_loop_spec fuel cal inp out :
  (out ≤ inp ≤ length cal)%nat → (length cal - inp < fuel)%nat →
  ∃ cal', unescape_loop escape_char quote_char double_quote fuel cal inp out
      = Some (cal', (out + length (spec (length cal - inp) (drop inp cal)))%nat) ∧
    take (out + length (spec (length cal - inp) (drop inp cal))) cal'
      = take out cal ++ spec (length cal - inp) (drop inp cal).
Proof.
  revert cal inp out.
  induction fuel as [|fuel IH]; intros cal inp out Hio Hf; [lia|]. cbn [unescape_loop].
  destruct (drop inp cal) as [|c rest] eqn:Ed.
  { exists cal. assert (spec (length cal - inp) [] = []) as -> by (by destruct (length cal - inp)%nat).
    by rewrite Nat.add_0_r, app_nil_r. }
  assert (length cal - inp = S (length rest))%nat as Hl.
  { rewrite <- length_drop, Ed. done. }
  rewrite Hl. cbn [unescape_spec]. destruct (unescape_one _ _ _ c rest) as [bytes n] eqn:E.
  apply unescape_one_bounds in E as [Hn Hb]. simpl in Hn.
  assert (drop (inp + n) (store cal out bytes) = drop n (c :: rest)) as Hd.
  { rewrite drop_store by lia. by rewrite <- drop_drop, Ed. }
  destruct (IH (store cal out bytes) (inp + n)%nat (out + length bytes)%nat) as (cal' & Hr & Ht);
    [rewrite length_store; lia..|].
  rewrite Hd, length_store in Hr, Ht.
  rewrite (unescape_spec_fuel (length rest) (drop n (c :: rest)) (length cal - (inp + n))%nat) in Hr, Ht
    by (rewrite length_drop; simpl; lia).
  exists cal'. rewrite length_app, Nat.add_assoc. split; [exact Hr|].
  rewrite Ht, take_store by lia. by rewrite <- app_assoc.
Qed.

(** The in-place code terminates and computes the specification. *)
Lemma unescape_string_spec s :
  unescape_string escape_char quote_char double_quote s
  = Some (unescape escape_char quote_char double_quote s).
Proof.
  unfold unescape_string, unescape.
  destruct (unescape_loop_spec (S (length s)) s 0 0) as (cal' & -> & Ht); [lia|lia|].
  cbn [mbind option_bind]. rewrite Nat.sub_0_r in Ht. by rewrite Nat.sub_0_r, Ht.
Qed.

Lemma unescape_cons c rest :
  unescape escape_char quote_char double_quote (c :: rest) =
    let '(bytes, n) := unescape_one escape_char quote_char double_quote c rest in
    bytes ++ unescape escape_char quote_char double_quote (drop n (c :: rest)).
Proof.
  unfold unescape. cbn [length unescape_spec].
  destruct (unescape_one _ _ _ c rest) as [bytes n] eqn:E. f_equal.
  apply unescape_one_bounds in E as [Hn _]. simpl in Hn.
  apply unescape_spec_fuel; rewrite ?length_drop; simpl; lia.
Qed.

Lemma length_unescape s : (length (unescape escape_char quote_char double_quote s) ≤ length s)%nat.
Proof.
  remember (length s) as k eqn:Hk. revert s Hk. induction (lt_wf k) as [k _ IH]. intros [|c rest] Hk; [simpl; lia|].
  rewrite unescape_cons. destruct (unescape_one _ _ _ c rest) as [bytes n] eqn:E.
  apply unescape_one_bounds in E as [Hn Hb].
  assert (length (drop n (c :: rest)) < k)%nat as Hlt by (rewrite length_drop; lia).
  specialize (IH _ Hlt _ eq_refl). rewrite length_drop in IH. rewrite length_app. lia.
Qed.
End in_place.

(** ** Round trips *)

(** No NUL, and no backslash before a [u]: what [escape_string] means to protect. *)
Fixpoint plain_text (val : list Z) : bool :=
  match val with
  | [] => true
  | c :: rest => negb (c =? NUL) && negb ((c =? BACKSLASH) && next_is ch_u rest) && plain_text rest
  end.

(** Doubled quotes are only read back for the quotes that the escaper doubles. *)
Definition quoting_ok (quote_char : Z) (double_quote : bool) : bool :=
  negb double_quote || (quote_char =? SQUOTE) || (quote_char =? DQUOTE).

(** [pair_reads ec qc dq p x]: the two characters [p] at the head read as [x]. *)
Lemma unescape_pair ec qc dq a b x s :
  unescape_one ec qc dq a (b :: s) = ([x], 2%nat) →
  unescape ec qc dq (a :: b :: s) = x :: unescape ec qc dq s.
Proof. intros H. by rewrite unescape_cons, H. Qed.

Lemma unescape_single ec qc dq a s :
  unescape_one ec qc dq a s = ([a], 1%nat) → unescape ec qc dq (a :: s) = a :: unescape ec qc dq s.
Proof. intros H. by rewrite unescape_cons, H. Qed.

(** A character that is neither the escape nor a doubled quote stands for itself. *)
Lemma unescape_one_plain qc dq c s :
  c ≠ BACKSLASH → (dq = true → c ≠ qc) → unescape_one BACKSLASH qc dq c s = ([c], 1%nat).
Proof.
  intros Hc Hq. unfold unescape_one. destruct s as [|e s]; [done|].
  destruct (Z.eqb_spec c BACKSLASH); [done|]. destruct dq; [|done].
  destruct (Z.eqb_spec c qc); [by specialize (Hq eq_refl)|done].
Qed.

Lemma unescape_quote qc uq dq q s :
  (q = SQUOTE ∨ q = DQUOTE) →
  unescape BACKSLASH qc dq (escape_quote BACKSLASH qc uq dq q ++ s) = q :: unescape BACKSLASH qc dq s.
Proof.
  intros Hq. unfold escape_quote. destruct dq, (Z.eqb_spec qc q) as [->|Hne]; cbn [andb].
  - apply unescape_pair. unfold unescape_one. rewrite Z.eqb_refl.
    by destruct Hq as [-> | ->].
  - rewrite andb_false_r. apply unescape_single, unescape_one_plain; [by destruct Hq as [-> | ->]|auto].
  - destruct uq; cbn [andb].
    + apply unescape_pair. unfold unescape_one. rewrite Z.eqb_refl. by destruct Hq as [-> | ->].
    + apply unescape_single, unescape_one_plain; [by destruct Hq as [-> | ->]|done].
  - rewrite andb_false_r. apply unescape_single, unescape_one_plain; [by destruct Hq as [-> | ->]|done].
Qed.

Lemma unescape_escape qc uq dq val :
  plain_text val = true → quoting_ok qc dq = true →
  unescape BACKSLASH qc dq (escape_loop BACKSLASH qc uq dq val) = val.
Proof.
  intros Hp Hq. induction val as [|c rest IH]; [done|]. cbn [plain_text] in Hp.
  rewrite !andb_true_iff, !negb_true_iff in Hp. destruct Hp as [[Hnul Hu] Hp]. specialize (IH Hp).
  cbn [escape_loop]. unfold escape_one.
  destruct (Z.eqb_spec c SQUOTE) as [->|Hsq]; [rewrite unescape_quote by auto; by rewrite IH|].
  destruct (Z.eqb_spec c DQUOTE) as [->|Hdq]; [rewrite unescape_quote by auto; by rewrite IH|].
  destruct (Z.eqb_spec c BACKSLASH) as [->|Hbs].
  { cbn [andb] in Hu. rewrite Hu. cbn [orb]. destruct (next_is ch_x rest) eqn:Hx.
    - destruct rest as [|d rest]; [done|]. cbn [next_is] in Hx. apply Z.eqb_eq in Hx as ->.
      cbn [app]. rewrite unescape_single; [by rewrite IH|]. done.
    - cbn [app]. rewrite (unescape_pair _ _ _ _ _ BACKSLASH) by done. by rewrite IH. }
  destruct (Z.eqb_spec c TAB) as [->|]; [cbn [app]; rewrite (unescape_pair _ _ _ _ _ TAB) by done; by rewrite IH|].
  destruct (Z.eqb_spec c BS) as [->|]; [cbn [app]; rewrite (unescape_pair _ _ _ _ _ BS) by done; by rewrite IH|].
  destruct (Z.eqb_spec c CR) as [->|]; [cbn [app]; rewrite (unescape_pair _ _ _ _ _ CR) by done; by rewrite IH|].
  destruct (Z.eqb_spec c NL) as [->|]; [cbn [app]; rewrite (unescape_pair _ _ _ _ _ NL) by done; by rewrite IH|].
  rewrite Hnul. cbn [app]. rewrite unescape_single; [by rewrite IH|].
  apply unescape_one_plain; [done|]. intros -> ->. unfold quoting_ok in Hq.
  destruct (Z.eqb_spec qc SQUOTE), (Z.eqb_spec qc DQUOTE); done.
Qed.

Lemma comma_unescape_one c s : c ≠ BACKSLASH →
  comma_unescape_string (c :: s) = c :: comma_unescape_string s.
Proof.
  intros Hc. cbn [comma_unescape_string]. destruct s as [|d s]; [done|].
  destruct (Z.eqb_spec c BACKSLASH); done.
Qed.

Lemma comma_unescape_two d x s : comma_unescape_pair d = Some x →
  comma_unescape_string (BACKSLASH :: d :: s) = x :: comma_unescape_string s.
Proof. intros Hd. cbn [comma_unescape_string]. rewrite Z.eqb_refl. by rewrite Hd. Qed.

Lemma comma_unescape_none d s : comma_unescape_pair d = None →
  comma_unescape_string (BACKSLASH :: d :: s) = BACKSLASH :: comma_unescape_string (d :: s).
Proof.
  intros Hd. change (comma_unescape_string (BACKSLASH :: d :: s)) with
    (if BACKSLASH =? BACKSLASH then
       match comma_unescape_pair d with
       | Some x => x :: comma_unescape_string s
       | None => BACKSLASH :: comma_unescape_string (d :: s)
       end
     else BACKSLASH :: comma_unescape_string (d :: s)).
  by rewrite Z.eqb_refl, Hd.
Qed.

(** The comma escaping is inverted on every string. *)
Lemma comma_unescape_escape val : comma_unescape_string (comma_escape_string val) = val.
Proof.
  induction val as [|c rest IH]; [done|]. cbn [comma_escape_string]. unfold comma_escape_one.
  destruct (Z.eqb_spec c BACKSLASH) as [->|Hbs].
  { destruct (next_is ch_u rest || next_is ch_x rest) eqn:Hn.
    - destruct rest as [|d rest]; [done|]. cbn [next_is] in Hn.
      assert (d = ch_u ∨ d = ch_x) as Hd by (rewrite orb_true_iff, !Z.eqb_eq in Hn; done).
      cbn [app]. destruct Hd as [-> | ->].
      + change (comma_escape_string (ch_u :: rest)) with (ch_u :: comma_escape_string rest) in *.
        by rewrite comma_unescape_none, IH by done.
      + change (comma_escape_string (ch_x :: rest)) with (ch_x :: comma_escape_string rest) in *.
        by rewrite comma_unescape_none, IH by done.
    - cbn [app]. rewrite (comma_unescape_two _ BACKSLASH) by done. by rewrite IH. }
  destruct (Z.eqb_spec c COMMA) as [->|]; [cbn [app]; rewrite (comma_unescape_two _ COMMA) by done; by rewrite IH|].
  destruct (Z.eqb_spec c SQUOTE) as [->|]; [cbn [app]; rewrite (comma_unescape_two _ SQUOTE) by done; by rewrite IH|].
  destruct (Z.eqb_spec c DQUOTE) as [->|]; [cbn [app]; rewrite (comma_unescape_two _ DQUOTE) by done; by rewrite IH|].
  destruct (Z.eqb_spec c TAB) as [->|]; [cbn [app]; rewrite (comma_unescape_two _ TAB) by done; by rewrite IH|].
  destruct (Z.eqb_spec c CR) as [->|]; [cbn [app]; rewrite (comma_unescape_two _ CR) by done; by rewrite IH|].
  destruct (Z.eqb_spec c BS) as [->|]; [cbn [app]; rewrite (comma_unescape_two _ BS) by done; by rewrite IH|].
  destruct (Z.eqb_spec c NL) as [->|]; [cbn [app]; rewrite (comma_unescape_two _ NL) by done; by rewrite IH|].
  cbn [app]. rewrite comma_unescape_one by done. by rewrite IH.
Qed.

(** ** UTF-8 *)

(** A reference decoder of one code point. *)
Definition decode_utf8 (s : list Z) : option (Z * list Z) :=
  match s with
  | a :: s1 =>
      if a <? 0x80 then Some (a, s1)
      else match s1 with
      | b :: s2 =>
          if a <? 0xE0 then Some ((a - 0xC0) * 64 + (b - 0x80), s2)
          else match s2 with
          | c :: s3 =>
              if a <? 0xF0 then Some ((a - 0xE0) * 4096 + (b - 0x80) * 64 + (c - 0x80), s3)
              else match s3 with
              | d :: s4 =>
                  Some ((a - 0xF0) * 262144 + (b - 0x80) * 4096 + (c - 0x80) * 64 + (d - 0x80), s4)
              | [] => None
              end
          | [] => None
          end
      | [] => None
      end
  | [] => None
  end.

(** Every code point is written as bytes that decode to it. *)
Lemma decode_write_utf8 cp rest : 0 ≤ cp ≤ 0x10FFFF →
  decode_utf8 (write_utf8 cp ++ rest) = Some (cp, rest) ∧ Forall is_byte (write_utf8 cp).
Proof.
  intros Hcp. unfold write_utf8. mask_mod. rewrite !Z.shiftr_div_pow2 by lia.
  destruct (Z.ltb_spec cp 0x80).
  { rewrite uw_small by (unfold is_u; eval_pow; lia). cbn [app decode_utf8].
    destruct (Z.ltb_spec cp 0x80); [|lia]. split; [done|]. repeat constructor; eval_pow; lia. }
  destruct (Z.leb_spec cp 0x7FF); [|destruct (Z.leb_spec cp 0xFFFF); [|destruct (Z.leb_spec cp 0x10FFFF); [|lia]]];
    rewrite !uw_small by (unfold is_u; eval_pow; dlia); cbn [app decode_utf8];
    repeat (match goal with |- context [?a <? ?b] => destruct (Z.ltb_spec a b); [eval_pow; try (exfalso; dlia)|eval_pow; try (exfalso; dlia)] end);
    (split; [do 2 f_equal; eval_pow; dlia|repeat constructor; unfold is_u; eval_pow; dlia]).
Qed.

(** ** Unicode escapes *)

Definition hex_digit (d : Z) : Z := if d <? 10 then 48 + d else 87 + d.
Definition hex4 (v : Z) : list Z :=
  [hex_digit (v / 4096); hex_digit (v / 256 mod 16); hex_digit (v / 16 mod 16); hex_digit (v mod 16)].

Lemma hex_to_val_digit d : 0 ≤ d < 16 → hex_to_val (hex_digit d) = Some d.
Proof.
  intros Hd. pose proof (forall_below_spec 16
    (λ d, bool_decide (hex_to_val (hex_digit d) = Some d)) ltac:(vm_compute; done) d Hd) as H.
  by apply bool_decide_eq_true in H.
Qed.

Lemma parse_hex4 v rest : is_u 16 v → parse_hex_block (hex4 v ++ rest) = Some v.
Proof.
  intros Hv. unfold is_u in Hv. eval_pow. unfold parse_hex_block, hex4. cbn [app parse_hex].
  rewrite !hex_to_val_digit by dlia. cbn [mbind option_bind]. f_equal. dlia.
Qed.

Lemma write_utf8_nonempty cp : 0 ≤ cp ≤ 0x10FFFF → (length (write_utf8 cp) =? 0)%nat = false.
Proof.
  intros Hcp. unfold write_utf8. destruct (cp <? 0x80); [done|]. destruct (cp <=? 0x7FF); [done|].
  destruct (cp <=? 0xFFFF); [done|]. destruct (Z.leb_spec cp 0x10FFFF); [done|lia].
Qed.

(** What the escape \uHHHH stands for: its code point, when it is no surrogate. *)
Lemma unescape_unicode ec qc dq v rest :
  is_u 16 v → ¬ (0xD800 ≤ v ≤ 0xDFFF) →
  unescape ec qc dq ([ec; ch_u] ++ hex4 v ++ rest) = write_utf8 v ++ unescape ec qc dq rest.
Proof.
  intros Hv Hs. cbn [app]. rewrite unescape_cons. unfold unescape_one. rewrite Z.eqb_refl.
  eval_eqb. cbv iota.
  replace (6 <=? length (ec :: ch_u :: hex4 v ++ rest))%nat with true by done.
  unfold unicode_block.
  change (drop 2 (ec :: ch_u :: hex4 v ++ rest)) with (hex4 v ++ rest). rewrite parse_hex4 by done. cbn [mbind option_bind].
  destruct (Z.leb_spec 0xD800 v), (Z.leb_spec v 0xD8FF); try lia; cbn [andb];
    by rewrite write_utf8_nonempty by (unfold is_u in Hv; eval_pow; lia).
Qed.

(** A surrogate pair stands for its code point, for the first 256 high surrogates. *)
Lemma unescape_surrogates ec qc dq hi lo rest :
  0xD800 ≤ hi ≤ 0xD8FF → 0xDC00 ≤ lo ≤ 0xDFFF →
  unescape ec qc dq ([ec; ch_u] ++ hex4 hi ++ [ec; ch_u] ++ hex4 lo ++ rest)
  = write_utf8 (0x10000 + (hi - 0xD800) * 1024 + (lo - 0xDC00)) ++ unescape ec qc dq rest.
Proof.
  intros Hhi Hlo. assert (is_u 16 hi ∧ is_u 16 lo) as [Hu1 Hu2] by (unfold is_u; eval_pow; lia).
  cbn [app]. rewrite unescape_cons. unfold unescape_one. rewrite Z.eqb_refl. eval_eqb. cbv iota.
  replace (6 <=? length _)%nat with true by done.
  unfold unicode_block. set (tail := ec :: ch_u :: hex4 lo ++ rest).
  change (drop 2 (ec :: ch_u :: hex4 hi ++ tail)) with (hex4 hi ++ tail).
  rewrite (parse_hex4 hi) by done. cbn [mbind option_bind].
  destruct (Z.leb_spec 0xD800 hi), (Z.leb_spec hi 0xD8FF); try lia. cbn [andb].
  replace (12 <=? length _)%nat with true by done.
  change (next_is ec (drop 6 (ec :: ch_u :: hex4 hi ++ tail))) with (ec =? ec).
  change (next_is ch_u (drop 7 (ec :: ch_u :: hex4 hi ++ tail))) with true.
  change (drop 8 (ec :: ch_u :: hex4 hi ++ tail)) with (hex4 lo ++ rest).
  rewrite Z.eqb_refl. cbn [andb]. rewrite (parse_hex4 lo) by done.
  cbn [mbind option_bind].
  destruct (Z.leb_spec 0xDC00 lo), (Z.leb_spec lo 0xDFFF); try lia. cbn [andb].
  rewrite Z.shiftl_mul_pow2 by lia.
  replace ((hi - 0xD800) * 2 ^ 10 + (lo - 0xDC00) + 0x10000)
    with (0x10000 + (hi - 0xD800) * 1024 + (lo - 0xDC00)) by lia.
  by rewrite write_utf8_nonempty by lia.
Qed.

End StringEscape.
