(* ===== verification/CsvTokenizer.v ===== *)
(** The tokenizer of one line of CSV: src/oss_src/sframe/csv_line_tokenizer.cpp and .hpp.

    The state machine is a function on machine states; the callbacks of the code are functions
    on a user state. The grammars of single values (boost::spirit, in
    flexible_type_spirit_parser.cpp) are parameters. *)
From S2P Require Import Prelude FlexType StringEscape.
Import FlexType StringEscape.
Local Open Scope Z_scope.

Module CsvTokenizer.

(** ** Options *)

Record csv_line_tokenizer := MkTokenizer {
  preserve_quoting : bool;
  escape_char : Z;
  skip_initial_space : bool;
  delimiter : list Z;
  line_terminator : list Z;
  comment_char : Z;
  has_comment_char : bool;
  double_quote : bool;
  quote_char : Z;
  na_values : list (list Z);
}.

(** [std::isspace] in the C locale. *)
Definition isspace (c : Z) : bool := (c =? 32) || ((9 <=? c) && (c <=? 13)).
Definition is_space_but_not_tab (c : Z) : bool := negb (c =? TAB) && isspace c.

Definition list_eqb (a b : list Z) : bool := bool_decide (a = b).

(** What [init] precomputes. *)
Section init.
Context (t : csv_line_tokenizer).

Definition is_regular_line_terminator : bool := list_eqb (line_terminator t) [NL].
Definition delimiter_is_new_line : bool :=
  if is_regular_line_terminator
  then list_eqb (delimiter t) [NL] || list_eqb (delimiter t) [CR] || list_eqb (delimiter t) [CR; NL]
  else list_eqb (delimiter t) (line_terminator t).
Definition delimiter_is_not_empty : bool := negb (list_eqb (delimiter t) []).
Definition delimiter_is_space_but_not_tab : bool :=
  delimiter_is_not_empty && forallb is_space_but_not_tab (delimiter t).
Definition delimiter_first_character : Z := default NUL (head (delimiter t)).
Definition delimiter_is_singlechar : bool := (length (delimiter t) =? 1)%nat.
Definition empty_string_in_na_values : bool := existsb (λ na, (length na =? 0)%nat) (na_values t).
End init.

(** Whether the remaining text starts with the delimiter. *)
Fixpoint test_is_delimiter (c delim : list Z) : bool :=
  match delim, c with
  | [], _ => true
  | d :: delim, x :: c => (x =? d) && test_is_delimiter c delim
  | _ :: _, [] => false
  end.

Definition DELIMITER_TEST (t : csv_line_tokenizer) (buf : list Z) : bool :=
  delimiter_is_not_empty t && next_is (delimiter_first_character t) buf
  && (delimiter_is_singlechar t || test_is_delimiter buf (delimiter t)).

(** ** The state machine *)

Inductive tokenizer_state := START_FIELD | IN_FIELD | IN_QUOTED_FIELD.

#[global] Instance tokenizer_state_eq_dec : EqDecision tokenizer_state.
Proof. solve_decision. Defined.

(** [buf] is the text that remains, [user] the state of the callbacks. *)
Record machine (S : Type) := MkMachine {
  state : tokenizer_state;
  field_buffer : list Z;
  start_field_with_delimiter_encountered : bool;
  escape_sequence : bool;
  buf : list Z;
  user : S;
}.
Arguments MkMachine {S}.
Arguments state {S}.
Arguments field_buffer {S}.
Arguments start_field_with_delimiter_encountered {S}.
Arguments escape_sequence {S}.
Arguments buf {S}.
Arguments user {S}.

Section machine.
Context {S : Type}.
Implicit Types m : machine S.

Definition set_state (x : tokenizer_state) m :=
  MkMachine x (field_buffer m) (start_field_with_delimiter_encountered m) (escape_sequence m)
    (buf m) (user m).
Definition set_flag (x : bool) m :=
  MkMachine (state m) (field_buffer m) x (escape_sequence m) (buf m) (user m).
Definition set_escape (x : bool) m :=
  MkMachine (state m) (field_buffer m) (start_field_with_delimiter_encountered m) x (buf m) (user m).
Definition set_buf (x : list Z) m :=
  MkMachine (state m) (field_buffer m) (start_field_with_delimiter_encountered m)
    (escape_sequence m) x (user m).
Definition set_user (x : S) m :=
  MkMachine (state m) (field_buffer m) (start_field_with_delimiter_encountered m)
    (escape_sequence m) (buf m) x.
Definition BEGIN_FIELD m :=
  MkMachine (state m) [] (start_field_with_delimiter_encountered m) (escape_sequence m) (buf m)
    (user m).
End machine.

(** How an iteration of the loop ends: [Break]s go through the end of the body, [Continue] does
    not, [End_line] leaves the loop, [Bad] is a refused token. *)
Inductive flow := Break | Continue | End_line | Bad.

Section tokenize_line_impl.
Context (t : csv_line_tokenizer) {S : Type}.
(** [add_token] and [lookahead] return [None] where the code has undefined behaviour;
    [lookahead] returns whether it took the field and how much text it consumed. *)
Context (add_token : list Z → S → option (bool * S)).
Context (lookahead : list Z → S → option (bool * nat * S)).
Context (canceltoken : S → S).
Implicit Types m : machine S.

Definition PUSH_CHAR (c : Z) m : machine S :=
  MkMachine (state m) (field_buffer m ++ [c]) (start_field_with_delimiter_encountered m)
    (c =? escape_char t) (buf m) (user m).

Definition END_FIELD m : option (bool * machine S) :=
  '(good, u) ← add_token (field_buffer m) (user m);
  Some (good : bool, if good then BEGIN_FIELD (set_user u m) else set_user u m).

Definition REGULAR_CHARACTER (c : Z) m : flow * machine S :=
  (Break, set_state IN_FIELD (PUSH_CHAR c (set_flag false m))).

(** A bracket: [here] is the text from the bracket on. *)
Definition bracket (c : Z) (here : list Z) m : option (flow * machine S) :=
  let m := set_flag false m in
  '(took, n, u) ← lookahead here (user m);
  let m := set_user u m in
  if (took : bool) then
    let rest := (fix skip (s : list Z) : list Z :=
      match s with c :: r => if isspace c then skip r else s | [] => [] end) (drop n here) in
    if list_eqb rest [] then Some (Continue, set_buf [] m)
    else if DELIMITER_TEST t rest then
      Some (Continue, set_buf (drop (length (delimiter t)) rest) (set_flag true m))
    else if delimiter_is_space_but_not_tab t then Some (Continue, set_buf rest m)
    else Some (REGULAR_CHARACTER c (set_user (canceltoken (user m)) m))
  else Some (REGULAR_CHARACTER c m).

(** The three cases of the switch; [c] is the character just read, and [buf m] what follows. *)
Definition in_start_field (c : Z) (is_delimiter : bool) m : option (flow * machine S) :=
  if c =? quote_char t then
    let m := PUSH_CHAR c (BEGIN_FIELD (set_flag false m)) in
    Some (Break, set_state (if preserve_quoting t then IN_FIELD else IN_QUOTED_FIELD) m)
  else if is_space_but_not_tab c && skip_initial_space t then Some (Break, m)
  else if is_delimiter then
    '(good, m) ← END_FIELD (BEGIN_FIELD (set_flag true m));
    Some (if (good : bool) then Break else Bad, m)
  else if has_comment_char t && (c =? comment_char t) then
    Some (End_line, set_flag false m)
  else if (c =? 91) || (c =? 123) then bracket c (c :: buf m) m
  else Some (REGULAR_CHARACTER c m).

Definition in_field (c : Z) (is_delimiter : bool) m : option (flow * machine S) :=
  if is_delimiter then
    '(good, m) ← END_FIELD m;
    Some (if (good : bool) then (Break, set_state START_FIELD (set_flag true m)) else (Bad, m))
  else if has_comment_char t && (c =? comment_char t) then
    '(good, m) ← END_FIELD m;
    Some (if (good : bool) then (End_line, set_state START_FIELD m) else (Bad, m))
  else Some (Break, PUSH_CHAR c m).

Definition in_quoted_field (c : Z) m : flow * machine S :=
  if (c =? quote_char t) && negb (escape_sequence m) then
    if double_quote t && (1 <? length (buf m))%nat && next_is (quote_char t) (buf m) then
      (Break, set_buf (drop 1 (buf m)) (PUSH_CHAR c (PUSH_CHAR c m)))
    else (Break, set_state IN_FIELD (PUSH_CHAR c m))
  else (Break, PUSH_CHAR c m).

(** One iteration, on a non-empty text. *)
Definition step m : option (flow * machine S) :=
  let is_delimiter := DELIMITER_TEST t (buf m) in
  let reset_escape_sequence := escape_sequence m in
  let here := if is_delimiter then drop (length (delimiter t) - 1) (buf m) else buf m in
  match here with
  | [] => None
  | c :: rest =>
      let m := set_buf rest m in
      '(f, m) ← match state m with
                | START_FIELD => in_start_field c is_delimiter m
                | IN_FIELD => in_field c is_delimiter m
                | IN_QUOTED_FIELD => Some (in_quoted_field c m)
                end;
      Some (f, match f with
               | Continue => m
               | _ => if reset_escape_sequence then set_escape false m else m
               end)
  end.

(** After the loop. *)
Definition cleanup m : option (bool * S) :=
  match state m with
  | START_FIELD =>
      if start_field_with_delimiter_encountered m then add_token [] (user m) else Some (true, user m)
  | _ => add_token (field_buffer m) (user m)
  end.

Fixpoint loop (fuel : nat) m : option (bool * S) :=
  match buf m with
  | [] => cleanup m
  | _ :: _ =>
      match fuel with
      | O => None
      | Datatypes.S fuel =>
          '(f, m) ← step m;
          match f with
          | Break | Continue => loop fuel m
          | End_line => cleanup m
          | Bad => Some (false, user m)
          end
      end
  end.

(** [turns] bounds the lookaheads that take a field and leave the text where it is. *)
Definition tokenize_line_impl (turns : nat) (str : list Z) (u : S) : option (bool * S) :=
  if delimiter_is_new_line t then
    '(_, u) ← add_token str u; Some (true, u)
  else loop (length str + turns) (MkMachine START_FIELD [] false false str u).
End tokenize_line_impl.

(** ** Parsing a field as a type *)

(** A parser of values: the value, whether it succeeded, and the number of characters
    consumed. *)
Definition value_parser : Type := list Z → flexible_type * bool * nat.

Record flexible_type_parser := MkParser {
  int_parse : value_parser;
  double_parse : value_parser;
  vector_parse : value_parser;
  dict_parse : value_parser;
  recursive_parse : value_parser;
  general_flexible_type_parse : value_parser;
  non_string_flexible_type_parse : value_parser;
}.

(** Dropping the white space at the end, and at the beginning. *)
Fixpoint rtrim (s : list Z) : list Z :=
  match s with
  | [] => []
  | c :: s => match rtrim s with [] => if isspace c then [] else [c] | r => c :: r end
  end.

Fixpoint ltrim (s : list Z) : list Z :=
  match s with c :: r => if isspace c then ltrim r else s | [] => [] end.

Definition ends_with (q : Z) (s : list Z) : bool := bool_decide (last s = Some q).

(** [strncmp] of two strings of the same length is 0. *)
Fixpoint strncmp_eq (a b : list Z) : bool :=
  match a, b with
  | x :: a, y :: b => (x =? y) && ((x =? NUL) || strncmp_eq a b)
  | _, _ => true
  end.

Section parse_as.
Context (t : csv_line_tokenizer) (parser : flexible_type_parser).

Definition is_na_value (s : list Z) : bool :=
  existsb (λ na, (length na =? length s)%nat && strncmp_eq s na) (na_values t).

(** The end of [parse_as]: fields and strings that stand for a missing value. *)
Definition na_handling (out : flexible_type) (parse_success : bool) (text : list Z)
    : flexible_type * bool :=
  let is_string := bool_decide (get_type out = STRING) in
  let '(out, parse_success) :=
    if (negb parse_success && negb is_string) || (parse_success && is_string) then
      if is_na_value (rtrim text) then (FUndefined, true) else (out, parse_success)
    else (out, parse_success) in
  match out with
  | FString s => if parse_success && is_na_value s then (FUndefined, true) else (out, parse_success)
  | _ => (out, parse_success)
  end.

(** The STRING case. *)
Definition parse_string (text : list Z) : option (list Z) :=
  let s := rtrim text in
  if (2 <=? length s)%nat && next_is (quote_char t) s && ends_with (quote_char t) s
  then unescape_string (escape_char t) (quote_char t) (double_quote t) (removelast (drop 1 s))
  else Some s.

(** The UNDEFINED case: a string is parsed again as something else. *)
Definition parse_undefined (text : list Z) (reparse : bool) : flexible_type * bool * nat :=
  let '(out, parse_success, n) := general_flexible_type_parse parser text in
  let out :=
    match out with
    | FString s =>
        if reparse && parse_success then
          let trimmed := rtrim s in
          let '(out2, parse_success2, n2) := non_string_flexible_type_parse parser trimmed in
          if parse_success2 && (n2 =? length trimmed)%nat then out2 else out
        else out
    | _ => out
    end in
  (out, parse_success, if bool_decide (get_type out = STRING) then 0%nat else n).

(** [parse_as] without the quoted case: success, value, characters consumed. *)
Definition parse_unquoted (text : list Z) (out : flexible_type) (recursive : bool)
    : option (bool * flexible_type * nat) :=
  let finish '(out, parse_success, n) :=
    let '(out, parse_success) :=
      match na_values t with
      | [] => (out, parse_success)
      | _ => na_handling out parse_success (drop n text)
      end in
    Some (parse_success, out, n) in
  match get_type out with
  | INTEGER => finish (int_parse parser text)
  | FLOAT => finish (double_parse parser text)
  | VECTOR => finish (vector_parse parser text)
  | STRING => s ← parse_string text; finish (FString s, true, 0%nat)
  | DICT => finish (dict_parse parser text)
  | LIST => finish (recursive_parse parser text)
  | UNDEFINED => finish (parse_undefined text recursive)
  | DATETIME | IMAGE => Some (false, out, 0%nat)
  end.

(** A value of another type in quotes. A text that is one quote is read past its end. *)
Definition parse_as (text : list Z) (out : flexible_type) (recursive : bool)
    : option (bool * flexible_type * nat) :=
  if recursive && negb (bool_decide (get_type out = STRING))
     && negb (bool_decide (get_type out = UNDEFINED))
     && next_is (quote_char t) text && ends_with (quote_char t) text
  then
    if (length text =? 1)%nat then None
    else
      s ← unescape_string (escape_char t) (quote_char t) (double_quote t) (removelast (drop 1 text));
      '(success, out, _) ← parse_unquoted s out false;
      Some (success, out, length text)
  else parse_unquoted text out recursive.
End parse_as.

(** ** The three [tokenize_line] functions *)

Section tokenize_line.
Context (t : csv_line_tokenizer) (parser : flexible_type_parser).

(** The callback of the first one receives each token. *)
Section callback.
Context {S : Type} (fn : list Z → S → bool * S).

Definition tokenize_line_callback (str : list Z) (u : S) : option (bool * S) :=
  tokenize_line_impl t (λ tok u, Some (fn tok u))
    (λ text u,
      let '(_, _, n) := general_flexible_type_parse parser text in
      if (n =? 0)%nat then Some (false, 0%nat, u)
      else Some (true, n, (fn (take n text) u).2))
    (λ u, u) 0 str u.
End callback.

(** Fields as strings: the quotes are dropped. *)
Definition string_token (tok : list Z) : option (list Z) :=
  match tok with
  | [] => Some []
  | _ =>
      let s := rtrim tok in
      s ← (if next_is (quote_char t) tok then match s with [] => None | _ :: s => Some s end
           else Some s);
      Some (if ends_with (quote_char t) s then removelast s else s)
  end.

Definition tokenize_line_strings (str : list Z) : option (bool * list (list Z)) :=
  tokenize_line_impl t
    (λ tok out, s ← string_token tok; Some (true, out ++ [s]))
    (λ text out,
      let '(_, _, n) := general_flexible_type_parse parser text in
      if (n =? 0)%nat then Some (false, 0%nat, out) else Some (true, n, out ++ [take n text]))
    (λ out, removelast out) 0 str [].

(** Fields as typed values. The state is the count of fields and the output columns. *)
Section typed.
Context (permit_undefined : bool) (output_order : option (list (option nat))).

Definition num_outputs (output : list flexible_type) : nat :=
  match output_order with None => length output | Some o => length o end.

(** The column of field [ctr]: [Some None] for an ignored one. *)
Definition output_idx (ctr : nat) : option (option nat) :=
  match output_order with None => Some (Some ctr) | Some o => o !! ctr end.

Definition typed_add_token (n_out : nat) (tok : list Z) (u : nat * list flexible_type)
    : option (bool * (nat * list flexible_type)) :=
  let '(ctr, output) := u in
  if (n_out <=? ctr)%nat then
    Some (delimiter_is_space_but_not_tab t && forallb isspace tok, u)
  else
    idx ← output_idx ctr;
    match idx with
    | None => Some (true, (S ctr, output))
    | Some i =>
        col ← output !! i;
        match tok with
        | [] =>
            let undefined :=
              permit_undefined &&
              (negb (bool_decide (get_type col = STRING)) || empty_string_in_na_values t) in
            let col := if undefined then FUndefined else reset (get_type col) in
            Some (true, (S ctr, <[i := col]> output))
        | _ =>
            '(success, col, _) ← parse_as t parser (ltrim tok) col true;
            Some (success : bool, (if success then S ctr else ctr, <[i := col]> output))
        end
    end.

Definition typed_lookahead (n_out : nat) (text : list Z) (u : nat * list flexible_type)
    : option (bool * nat * (nat * list flexible_type)) :=
  let '(ctr, output) := u in
  if (n_out <=? ctr)%nat then Some (false, 0%nat, u)
  else
    idx ← output_idx ctr;
    match idx with
    | None =>
        let '(_, _, n) := general_flexible_type_parse parser text in
        Some (if (n =? 0)%nat then (false, 0%nat, u) else (true, n, (S ctr, output)))
    | Some i =>
        col ← output !! i;
        match col with
        | FString _ =>
            let '(_, _, n) := general_flexible_type_parse parser text in
            Some (if (n =? 0)%nat then (false, 0%nat, u)
                  else (true, n, (S ctr, <[i := FString (take n text)]> output)))
        | _ =>
            '(success, col, n) ← parse_as t parser text col false;
            Some (success : bool, n, (if success then S ctr else ctr, <[i := col]> output))
        end
    end.

(** The number of fields read, 0 for a failure, and the columns. *)
Definition tokenize_line (str : list Z) (output : list flexible_type)
    : option (nat * list flexible_type) :=
  '(success, (ctr, output')) ←
    tokenize_line_impl t (typed_add_token (num_outputs output))
      (typed_lookahead (num_outputs output)) (λ '(ctr, output), (pred ctr, output))
      (num_outputs output) str (0%nat, output);
  Some (if (success : bool) then (ctr, output') else (0%nat, output')).
End typed.
End tokenize_line.

End CsvTokenizer.
