(* ===== verification/CsvWriter.v ===== *)
(** Writing rows of CSV: src/oss_src/sframe/csv_writer.cpp and .hpp. *)
From S2P Require Import Prelude FlexType FlexOps StringEscape.
Import FlexType StringEscape.
Local Open Scope Z_scope.

Module CsvWriter.

Inductive csv_quote_level := QUOTE_MINIMAL | QUOTE_ALL | QUOTE_NONNUMERIC | QUOTE_NONE.

#[global] Instance csv_quote_level_eq_dec : EqDecision csv_quote_level.
Proof. solve_decision. Defined.

Record csv_writer := MkWriter {
  delimiter : list Z;
  escape_char : Z;
  use_escape_char : bool;
  double_quote : bool;
  quote_char : Z;
  line_terminator : list Z;
  quote_level : csv_quote_level;
  na_value : list Z;
}.

(** Elements separated by the delimiter: none after the last one. *)
Definition separated (sep : list Z) : list (list Z) → list Z :=
  fix go l := match l with [] => [] | [s] => s | s :: l => s ++ sep ++ go l end.

Section csv_writer.
Context (w : csv_writer).
(** [std::string(val)] (FlexOps.get_string_visitor). *)
Context (to_string : flexible_type → list Z).

Definition write_verbatim (row : list (list Z)) : list Z :=
  separated (delimiter w) row ++ line_terminator w.

(** [escape_string] with the options of the writer. *)
Definition escaped (use_escape use_quote dq : bool) (s : list Z) : list Z :=
  escape_string (escape_char w) use_escape (quote_char w) use_quote dq s.

Definition quoted (s : list Z) : list Z := [quote_char w] ++ s ++ [quote_char w].

(** Nested values: only strings are quoted, and quotes are not doubled. *)
Fixpoint csv_print_internal (val : flexible_type) : list Z :=
  match val with
  | FInt _ | FFloat _ | FDateTime _ | FVec _ => to_string val
  | FString s => escaped (use_escape_char w) true false s
  | FList l => [91] ++ separated [COMMA] (map csv_print_internal l) ++ [93]
  | FDict d =>
      [123] ++ separated [COMMA]
        (map (λ kv, csv_print_internal kv.1 ++ [58] ++ csv_print_internal kv.2) d) ++ [125]
  | FUndefined => []
  | FImage _ => to_string val
  end.

(** A character of a string that calls for escapes. *)
Definition special_char (c : Z) : bool :=
  (c =? TAB) || (c =? CR) || (c =? NL) || (c =? BS) || (c =? escape_char w)
  || (match line_terminator w with l :: _ => c =? l | [] => false end)
  || (match delimiter w with d :: _ => c =? d | [] => false end).

Definition csv_print_string (s : list Z) (allow_empty_output : bool) : list Z :=
  if decide (quote_level w = QUOTE_ALL) then escaped (use_escape_char w) true (double_quote w) s
  else
    let str_needs_delimiter := existsb special_char s in
    let str_has_quote_char := existsb (λ c, c =? quote_char w) s in
    if negb allow_empty_output && (length s =? 0)%nat then [quote_char w; quote_char w]
    else if negb str_needs_delimiter && negb str_has_quote_char then s
    else if negb str_needs_delimiter && str_has_quote_char && double_quote w then
      escaped false false (double_quote w) s
    else if decide (quote_level w = QUOTE_NONE) then
      escaped (use_escape_char w) false (double_quote w) s
    else escaped (use_escape_char w) true (double_quote w) s.

Definition csv_print (val : flexible_type) (allow_empty_output : bool) : list Z :=
  match val with
  | FInt _ | FFloat _ =>
      if decide (quote_level w = QUOTE_ALL) then quoted (to_string val) else to_string val
  | FDateTime _ | FVec _ | FImage _ =>
      if decide (quote_level w = QUOTE_NONE) then to_string val else quoted (to_string val)
  | FString s => csv_print_string s allow_empty_output
  | FList _ | FDict _ =>
      if decide (quote_level w = QUOTE_NONE) then csv_print_internal val
      else escaped (use_escape_char w) true (double_quote w) (csv_print_internal val)
  | FUndefined =>
      if decide (quote_level w = QUOTE_ALL) then quoted (na_value w) else na_value w
  end.

Definition write (row : list flexible_type) : list Z :=
  separated (delimiter w) (map (λ v, csv_print v (1 <? length row)%nat) row) ++ line_terminator w.
End csv_writer.

End CsvWriter.
