(* ===== verification/CsvRoundTrip.v ===== *)
(** What the CSV tokenizer does: it ends on every line, and the rows of strings that the writer
    produces are read back. *)
From S2P Require Import Prelude FlexType StringEscape CsvTokenizer CsvWriter.
Import FlexType StringEscape CsvTokenizer.
Local Open Scope Z_scope.

Module CsvRoundTrip.

(** ** Every line is tokenized in at most as many iterations as it has characters *)

Section progress.
Context (t : csv_line_tokenizer) {S : Type}.
Context (add_token : list Z → S → option (bool * S)).
Context (lookahead : list Z → S → option (bool * nat * S)).
Context (canceltoken : S → S).
#[local] Abbreviation step := (step t add_token lookahead canceltoken).
#[local] Abbreviation loop := (loop t add_token lookahead canceltoken).

(** The result [r] is reached within the length of the remaining text. *)
Definition runs (m : machine S) (r : bool * S) : Prop :=
  ∃ fuel, (fuel ≤ length (buf m))%nat ∧ loop fuel m = Some r.

Lemma loop_mono fuel fuel' m r : (fuel ≤ fuel')%nat → loop fuel m = Some r → loop fuel' m = Some r.
Proof.
  revert fuel' m. induction fuel as [|fuel IH]; intros [|fuel'] m Hle; try lia;
    cbn [CsvTokenizer.loop]; destruct (buf m); try done.
  destruct (step m) as [[f m']|]; [|done]. cbn [mbind option_bind].
  destruct f; try done; apply IH; lia.
Qed.

Lemma runs_step m m' f r : f = Break ∨ f = Continue → step m = Some (f, m') →
  (length (buf m') < length (buf m))%nat → runs m' r → runs m r.
Proof.
  intros Hf Hs Hlt (fuel & Hle & Hl). exists (Datatypes.S fuel). split; [lia|].
  cbn [CsvTokenizer.loop]. destruct (buf m); [cbn in Hlt; lia|]. rewrite Hs. cbn [mbind option_bind].
  destruct Hf as [-> | ->]; done.
Qed.

Lemma runs_end m r : buf m = [] → cleanup add_token m = Some r → runs m r.
Proof. intros Hb Hc. exists 0%nat. split; [lia|]. cbn [CsvTokenizer.loop]. by rewrite Hb. Qed.

Lemma runs_tokenize turns str u r : delimiter_is_new_line t = false →
  runs (MkMachine START_FIELD [] false false str u) r →
  tokenize_line_impl t add_token lookahead canceltoken turns str u = Some r.
Proof.
  intros Hd (fuel & Hle & Hl). unfold tokenize_line_impl. rewrite Hd.
  eapply loop_mono; [|done]. cbn [buf] in Hle. lia.
Qed.

(** Callbacks that never fail on tokens of characters of [P], with a lookahead that consumes
    what it accepts, or else uses up one of its [rank] turns. *)
Context (P : Z → Prop) (Inv : S → Prop) (rank : S → nat).
Hypothesis add_total : ∀ tok u, Forall P tok → Inv u →
  ∃ good u', add_token tok u = Some (good, u') ∧ Inv u' ∧ (rank u' ≤ rank u)%nat.
Hypothesis lookahead_total : ∀ text u, Inv u →
  ∃ took n u', lookahead text u = Some (took, n, u') ∧ Inv u' ∧ (rank u' ≤ rank u)%nat ∧
    (took = true → (1 ≤ n ∨ rank u' < rank u)%nat ∧
      Inv (canceltoken u') ∧ (rank (canceltoken u') ≤ rank u)%nat).

Record fine (m : machine S) : Prop := {
  fine_buf : Forall P (buf m);
  fine_field : Forall P (field_buffer m);
  fine_user : Inv (user m);
}.
Definition measure (m : machine S) : nat := length (buf m) + rank (user m).

Lemma end_field_total m : fine m → ∃ good m', END_FIELD add_token m = Some (good, m') ∧
  fine m' ∧ buf m' = buf m ∧ (measure m' ≤ measure m)%nat.
Proof.
  intros [Hb Hf Hu]. unfold END_FIELD.
  destruct (add_total (field_buffer m) (user m) Hf Hu) as (good & u & -> & Hi & Hr).
  cbn [mbind option_bind]. eexists _, _. split; [done|]. unfold measure.
  destruct good; (split_and!; [by split|done|cbn; lia]).
Qed.

Lemma skip_length s :
  (length ((fix skip (s : list Z) : list Z :=
      match s with c :: r => if isspace c then skip r else s | [] => [] end) s) ≤ length s)%nat.
Proof. induction s as [|c s IH]; [done|]. cbn. destruct (isspace c); cbn; lia. Qed.

Lemma skip_Forall s : Forall P s →
  Forall P ((fix skip (s : list Z) : list Z :=
      match s with c :: r => if isspace c then skip r else s | [] => [] end) s).
Proof. induction 1 as [|c s Hc Hs IH]; [done|]. destruct (isspace c); [done|by constructor]. Qed.

Lemma fine_push c m : P c → fine m → fine (PUSH_CHAR t c m).
Proof. intros Hc [Hb Hf Hu]. split; [done| |done]. cbn. apply Forall_app. by repeat constructor. Qed.

Lemma bracket_total c m : P c → fine m → ∃ f m',
  bracket t lookahead canceltoken c (c :: buf m) m = Some (f, m') ∧ fine m' ∧
  (measure m' < Datatypes.S (measure m))%nat.
Proof.
  intros Hc Hm. pose proof Hm as [Hb Hf Hu]. unfold bracket, measure.
  destruct (lookahead_total (c :: buf m) (user (set_flag false m)) Hu)
    as (took & n & u & -> & Hi & Hr & Htook).
  cbn [mbind option_bind]. cbn [user set_flag] in Hr, Htook.
  assert (∀ v, Inv v → (rank v ≤ rank (user m))%nat → ∃ f m',
    Some (REGULAR_CHARACTER t c (set_user v (set_flag false m))) = Some (f, m') ∧ fine m' ∧
    (length (buf m') + rank (user m') < Datatypes.S (length (buf m) + rank (user m)))%nat) as Hreg.
  { intros v Hv Hrv. eexists _, _. split; [done|]. split; [|cbn; lia].
    destruct (fine_push c (set_user v (set_flag false m)) Hc) as [? ? ?]; by split. }
  destruct took; [|by apply Hreg]. destruct (Htook eq_refl) as (Hn & Hci & Hcr).
  pose proof (skip_length (drop n (c :: buf m))) as Hsk.
  assert (Forall P (drop n (c :: buf m))) as Hd%skip_Forall by (by apply Forall_drop; constructor).
  rewrite length_drop in Hsk. cbn [length] in Hsk. revert Hsk Hd. generalize (drop n (c :: buf m)).
  intros s. generalize ((fix skip (s : list Z) : list Z :=
      match s with c :: r => if isspace c then skip r else s | [] => [] end) s).
  intros rest Hsk Hd. destruct (list_eqb rest []).
  { eexists _, _. split; [done|]. split; [by split|cbn; lia]. }
  destruct (DELIMITER_TEST t rest).
  { eexists _, _. split; [done|]. split; [split; [by apply Forall_drop|done|done]|].
    cbn [buf user set_buf set_flag set_user]. rewrite length_drop. lia. }
  destruct (delimiter_is_space_but_not_tab t); [|by apply Hreg].
  eexists _, _. split; [done|]. split; [by split|cbn; lia].
Qed.

Lemma test_is_delimiter_length c delim : test_is_delimiter c delim = true →
  (length delim ≤ length c)%nat.
Proof.
  revert c. induction delim as [|d delim IH]; intros [|x c]; cbn; try lia.
  rewrite andb_true_iff. intros [_ H%IH]. lia.
Qed.

Lemma delimiter_test_length b : DELIMITER_TEST t b = true →
  (0 < length (delimiter t) ≤ length b)%nat.
Proof.
  unfold DELIMITER_TEST, delimiter_is_not_empty, delimiter_is_singlechar, list_eqb.
  rewrite !andb_true_iff, orb_true_iff, Nat.eqb_eq. intros [[Hne Hn] Hd].
  destruct (delimiter t) as [|d l]; [done|]. split; [cbn; lia|].
  destruct Hd as [Hd| ?%test_is_delimiter_length]; [|done].
  destruct b; [done|]. cbn in *. lia.
Qed.

Lemma in_start_field_total c is_delim m : P c → fine m → ∃ f m',
  in_start_field t add_token lookahead canceltoken c is_delim m = Some (f, m') ∧ fine m' ∧
  (measure m' < Datatypes.S (measure m))%nat.
Proof.
  intros Hc Hm. pose proof Hm as [Hb Hf Hu]. unfold in_start_field.
  destruct (c =? quote_char t).
  { eexists _, _. split; [done|]. split; [|cbn; unfold measure; cbn; lia].
    destruct (fine_push c (BEGIN_FIELD (set_flag false m)) Hc) as [? ? ?]; by split. }
  destruct (_ && _); [by eexists _, _; split_and!; [|done|lia]|]. destruct is_delim.
  { destruct (end_field_total (BEGIN_FIELD (set_flag true m))) as (g & m2 & -> & Hm2 & _ & Hle);
      [by split|]. cbn [mbind option_bind]. unfold measure in *. cbn [buf user BEGIN_FIELD set_flag] in Hle.
    eexists _, _. split; [done|]. split; [done|lia]. }
  destruct (has_comment_char t && _);
    [eexists _, _; split; [done|]; split; [by split|unfold measure; cbn; lia]|].
  destruct (_ || _); [by apply bracket_total|].
  eexists _, _. split; [done|]. split; [|cbn; unfold measure; cbn; lia].
  destruct (fine_push c (set_flag false m) Hc) as [? ? ?]; by split.
Qed.

Lemma in_field_total c is_delim m : P c → fine m → ∃ f m',
  in_field t add_token c is_delim m = Some (f, m') ∧ fine m' ∧
  (measure m' < Datatypes.S (measure m))%nat.
Proof.
  intros Hc Hm. unfold in_field.
  assert (∃ good m', END_FIELD add_token m = Some (good, m') ∧ fine m' ∧ buf m' = buf m ∧
    (measure m' ≤ measure m)%nat) as (g & m2 & Hend & [Hb2 Hf2 Hu2] & _ & Hle) by (by apply end_field_total).
  unfold measure in *. destruct is_delim; [|destruct (_ && _)]; rewrite ?Hend.
  - destruct g; eexists _, _; (split; [done|]); (split; [by split|cbn; lia]).
  - destruct g; eexists _, _; (split; [done|]); (split; [by split|cbn; lia]).
  - eexists _, _. split; [done|]. split; [by apply fine_push|cbn; lia].
Qed.

Lemma in_quoted_field_total c m : P c → fine m →
  fine (in_quoted_field t c m).2 ∧ (measure (in_quoted_field t c m).2 < Datatypes.S (measure m))%nat.
Proof.
  intros Hc Hm. pose proof (fine_push c m Hc Hm) as Hp. pose proof (fine_push c _ Hc Hp) as [Hb Hf Hu].
  unfold in_quoted_field, measure. destruct (_ && _); [destruct (_ && _)|]; cbn [snd].
  - split; [split; [by apply Forall_drop, (fine_buf m)|done|done]|].
    cbn [buf user set_buf PUSH_CHAR]. rewrite length_drop. lia.
  - split; [by destruct Hp|cbn; lia].
  - split; [done|cbn; lia].
Qed.

Lemma step_total m : fine m → buf m ≠ [] → ∃ f m', step m = Some (f, m') ∧ fine m' ∧
  (measure m' < measure m)%nat.
Proof.
  intros Hm Hne. unfold CsvTokenizer.step.
  set (here := if DELIMITER_TEST t (buf m) then drop (length (delimiter t) - 1) (buf m) else buf m).
  assert (0 < length here ≤ length (buf m))%nat as Hh.
  { subst here. destruct (DELIMITER_TEST t (buf m)) eqn:Hd.
    - apply delimiter_test_length in Hd. rewrite length_drop. lia.
    - destruct (buf m); [done|cbn; lia]. }
  assert (Forall P here) as Hph.
  { subst here. destruct (DELIMITER_TEST t (buf m)); [apply Forall_drop|]; apply (fine_buf m Hm). }
  destruct here as [|c rest]; [cbn in Hh; lia|]. cbn [length] in Hh.
  apply Forall_cons in Hph as [Hc Hrest].
  assert (fine (set_buf rest m)) as Hm1 by (destruct Hm; by split).
  assert (Datatypes.S (measure (set_buf rest m)) ≤ measure m)%nat as Hle by (unfold measure; cbn; lia).
  generalize (DELIMITER_TEST t (buf m)). intros is_delim.
  assert (∃ f m', match state (set_buf rest m) with
    | START_FIELD => in_start_field t add_token lookahead canceltoken c is_delim (set_buf rest m)
    | IN_FIELD => in_field t add_token c is_delim (set_buf rest m)
    | IN_QUOTED_FIELD => Some (in_quoted_field t c (set_buf rest m))
    end = Some (f, m') ∧ fine m' ∧ (measure m' < Datatypes.S (measure (set_buf rest m)))%nat)
    as (f & m' & -> & Hm' & Hlt).
  { destruct (state (set_buf rest m)).
    - by apply in_start_field_total.
    - by apply in_field_total.
    - destruct (in_quoted_field_total c (set_buf rest m) Hc Hm1) as [H1 H2].
      destruct (in_quoted_field t c (set_buf rest m)) as [f m']. by exists f, m'. }
  cbn [mbind option_bind]. eexists _, _. split; [done|]. destruct Hm' as [Hb' Hf' Hu'].
  unfold measure in *.
  destruct f, (escape_sequence m); (split; [by split|]); cbn [buf user set_escape]; lia.
Qed.

Lemma cleanup_total m : fine m → is_Some (cleanup add_token m).
Proof.
  intros [Hb Hf Hu]. unfold cleanup.
  assert (∀ tok, Forall P tok → is_Some (add_token tok (user m))) as Hadd.
  { intros tok Htok. destruct (add_total tok (user m) Htok Hu) as (g & u & -> & _). by eexists. }
  destruct (state m); [case_match; [apply Hadd; constructor|by eexists]|by apply Hadd|by apply Hadd].
Qed.

Lemma loop_total fuel m : fine m → (measure m ≤ fuel)%nat → is_Some (loop fuel m).
Proof.
  revert m. induction fuel as [|fuel IH]; intros m Hm Hle; cbn [CsvTokenizer.loop].
  - destruct (buf m) eqn:E; [by apply cleanup_total|unfold measure in Hle; rewrite E in Hle; cbn in Hle; lia].
  - destruct (buf m) as [|c b] eqn:Hb; [by apply cleanup_total|].
    destruct (step_total m Hm) as (f & m' & -> & Hm' & Hlt); [by rewrite Hb|].
    cbn [mbind option_bind].
    destruct f; [apply IH; [done|lia]|apply IH; [done|lia]|by apply cleanup_total|by eexists].
Qed.

Lemma tokenize_total turns str u : Forall P str → Inv u → (rank u ≤ turns)%nat →
  is_Some (tokenize_line_impl t add_token lookahead canceltoken turns str u).
Proof.
  intros Hp Hu Hr. unfold tokenize_line_impl. destruct (delimiter_is_new_line t).
  - destruct (add_total str u Hp Hu) as (g & u' & -> & _). by eexists.
  - apply loop_total; [by split|unfold measure; cbn [buf user]; lia].
Qed.
End progress.

(** The three tokenizers end on every line: the one with a callback always, the one for strings
    when the quote is not white space, the typed one when no text has a quote, whatever the
    parsers say and whatever the columns are. *)
Lemma tokenize_callback_total t parser {S} (fn : list Z → S → bool * S) str u :
  is_Some (tokenize_line_callback t parser fn str u).
Proof.
  unfold tokenize_line_callback.
  apply (tokenize_total t _ _ _ (λ _, True) (λ _, True) (λ _, 0%nat)); [| |by apply Forall_forall|done|done].
  - intros tok v _ _. destruct (fn tok v) as [g v'] eqn:E. exists g, v'. split_and!; [by cbn; rewrite ?E|done|lia].
  - intros text v _. destruct (general_flexible_type_parse parser text) as [[o b] n].
    destruct (Nat.eqb_spec n 0); (eexists _, _, _; split; [done|]); [done|].
    split_and!; [done|lia|]. intros _. split_and!; [left; lia|done|lia].
Qed.

Lemma string_token_total t tok : isspace (quote_char t) = false → is_Some (string_token t tok).
Proof.
  intros Hq. unfold string_token. destruct tok as [|c tok]; [by eexists|].
  destruct (next_is (quote_char t) (c :: tok)) eqn:E; [|by eexists].
  cbn in E. apply Z.eqb_eq in E as ->. cbn [rtrim]. rewrite Hq. by destruct (rtrim tok); eexists.
Qed.

Lemma tokenize_strings_total t parser str : isspace (quote_char t) = false →
  is_Some (tokenize_line_strings t parser str).
Proof.
  intros Hq. unfold tokenize_line_strings.
  apply (tokenize_total t _ _ _ (λ _, True) (λ _, True) (λ _, 0%nat)); [| |by apply Forall_forall|done|done].
  - intros tok out _ _. destruct (string_token_total t tok Hq) as [s ->]. by eexists _, _.
  - intros text v _. destruct (general_flexible_type_parse parser text) as [[o b] n].
    destruct (Nat.eqb_spec n 0); (eexists _, _, _; split; [done|]); [done|].
    split_and!; [done|lia|]. intros _. split_and!; [left; lia|done|lia].
Qed.

Lemma parse_unquoted_total t parser text out recursive :
  is_Some (parse_unquoted t parser text out recursive).
Proof.
  assert (∀ s, is_Some (parse_string t s)) as Hs.
  { intros s. unfold parse_string. case_match; [|by eexists]. rewrite unescape_string_spec. by eexists. }
  unfold parse_unquoted. destruct (get_type out); try by eexists.
  all: try (destruct (Hs text) as [s ->]; cbn [mbind option_bind]).
  all: repeat case_match; by eexists.
Qed.

Lemma parse_as_total t parser text out recursive :
  (recursive = true → Forall (λ c, c ≠ quote_char t) text) →
  is_Some (parse_as t parser text out recursive).
Proof.
  intros Hp. unfold parse_as. destruct (_ && _) eqn:E; [|apply parse_unquoted_total].
  exfalso. rewrite !andb_true_iff in E. destruct E as [[[[-> _] _] Hn] _].
  specialize (Hp eq_refl). destruct Hp as [|c text Hc _]; [done|]. cbn in Hn. by apply Z.eqb_eq in Hn.
Qed.

Section typed_progress.
Context (t : csv_line_tokenizer) (parser : flexible_type_parser) (permit_undefined : bool).
Context (output_order : option (list (option nat))) (output0 : list flexible_type).
Hypothesis order_valid : ∀ o i, output_order = Some o → Some i ∈ o → (i < length output0)%nat.
#[local] Abbreviation n_out := (num_outputs output_order output0).

Lemma output_idx_valid ctr : (ctr < n_out)%nat → ∃ idx, output_idx output_order ctr = Some idx ∧
  ∀ i, idx = Some i → (i < length output0)%nat.
Proof.
  unfold num_outputs, output_idx. destruct output_order as [o|] eqn:E; intros Hctr.
  - destruct (lookup_lt_is_Some_2 o ctr Hctr) as [idx Hidx]. exists idx. split; [done|].
    intros i ->. eapply order_valid; [done|by eapply list_elem_of_lookup_2].
  - eexists. split; [done|]. by intros i [= <-].
Qed.

Lemma tokenize_typed_total str : Forall (λ c, c ≠ quote_char t) str →
  is_Some (tokenize_line t parser permit_undefined output_order str output0).
Proof.
  intros Hstr. unfold tokenize_line.
  destruct (tokenize_total t (typed_add_token t parser permit_undefined output_order n_out)
    (typed_lookahead t parser output_order n_out) (λ '(ctr, output), (pred ctr, output))
    (λ c, c ≠ quote_char t) (λ u, length u.2 = length output0) (λ u, n_out - u.1)%nat) with
    (turns := n_out) (str := str) (u := (0%nat, output0)) as [[b [ctr out]] ->]; try done.
  - intros tok [ctr out] Htok Hlen. cbn [fst snd] in *. unfold typed_add_token.
    destruct (Nat.leb_spec n_out ctr); [by eexists _, _|].
    destruct (output_idx_valid ctr) as (idx & -> & Hi); [done|]. cbn [mbind option_bind].
    destruct idx as [i|]; [|eexists _, _; split_and!; [done|done|cbn; lia]].
    destruct (lookup_lt_is_Some_2 out i) as [col ->]; [rewrite Hlen; auto|]. cbn [mbind option_bind].
    destruct tok as [|c tok]; [eexists _, _; split_and!; [done|by cbn; rewrite length_insert|cbn; lia]|].
    destruct (parse_as_total t parser (ltrim (c :: tok)) col true) as [[[ok col'] n] ->].
    { intros _. clear -Htok. induction Htok as [|x l Hx Hl IH]; [done|]. cbn [ltrim].
      destruct (isspace x); [done|by constructor]. }
    cbn [mbind option_bind]. eexists _, _. split_and!; [done|by cbn; rewrite length_insert|destruct ok; cbn; lia].
  - intros text [ctr out] Hlen. cbn [fst snd] in *. unfold typed_lookahead.
    destruct (Nat.leb_spec n_out ctr); [by eexists _, _, _|].
    destruct (output_idx_valid ctr) as (idx & -> & Hi); [done|]. cbn [mbind option_bind].
    destruct idx as [i|].
    + destruct (lookup_lt_is_Some_2 out i) as [col ->]; [rewrite Hlen; auto|]. cbn [mbind option_bind].
      assert (∀ r : option (bool * flexible_type * nat), is_Some r → ∃ took n u',
        ('(success, col, n) ← r;
         Some (success : bool, n, (if success then S ctr else ctr, <[i := col]> out)))
        = Some (took, n, u') ∧ length u'.2 = length output0 ∧ (n_out - u'.1 ≤ n_out - ctr)%nat ∧
        (took = true → (1 ≤ n ∨ n_out - u'.1 < n_out - ctr)%nat ∧
          length ((λ '(ctr, output), (pred ctr, output)) u').2 = length output0 ∧
          (n_out - ((λ '(ctr, output), (pred ctr, output : list flexible_type)) u').1 ≤ n_out - ctr)%nat))
        as Hparse.
      { intros r [[[ok col'] n] ->]. eexists _, _, _. split; [done|]. cbn [snd fst].
        rewrite length_insert. split; [done|]. split; [destruct ok; lia|]. intros ->.
        cbn [snd fst]. rewrite ?length_insert. split_and!; [right; lia|done|cbn; lia]. }
      destruct col; try (by apply Hparse, parse_as_total).
      destruct (general_flexible_type_parse parser text) as [[o b] n]. destruct (Nat.eqb_spec n 0).
      * eexists _, _, _. split; [done|]. by split_and!.
      * eexists _, _, _. split; [done|]. cbn [fst snd]. rewrite ?length_insert.
        split_and!; [done|lia|]. intros _. split_and!; [left; lia|done|cbn; lia].
    + destruct (general_flexible_type_parse parser text) as [[o b] n]. destruct (Nat.eqb_spec n 0).
      * eexists _, _, _. split; [done|]. by split_and!.
      * eexists _, _, _. split; [done|]. cbn [fst snd].
        split_and!; [done|lia|]. intros _. split_and!; [left; lia|done|cbn; lia].
  - cbn. lia.
Qed.
End typed_progress.

(** ** Reading back fields *)

Section fields.
Context (t : csv_line_tokenizer) {S : Type}.
Context (add_token : list Z → S → option (bool * S)).
Context (lookahead : list Z → S → option (bool * nat * S)).
Context (canceltoken : S → S).
Context (d : Z).
Hypothesis delimiter_char : delimiter t = [d].
Hypothesis quotes_kept : preserve_quoting t = false.
Hypothesis escape_backslash : escape_char t = BACKSLASH.
Hypothesis quote_standard : quote_char t = SQUOTE ∨ quote_char t = DQUOTE.
Hypothesis delimiter_quote : d ≠ quote_char t.
Hypothesis delimiter_space : is_space_but_not_tab d = false.
#[local] Abbreviation step := (CsvTokenizer.step t add_token lookahead canceltoken).
#[local] Abbreviation runs := (runs t add_token lookahead canceltoken).
#[local] Abbreviation q := (quote_char t).

Lemma delimiter_test c s : DELIMITER_TEST t (c :: s) = (c =? d).
Proof.
  unfold DELIMITER_TEST, delimiter_is_not_empty, delimiter_first_character, delimiter_is_singlechar, list_eqb.
  rewrite delimiter_char. cbn. by rewrite andb_true_r.
Qed.

(** One iteration on a text that starts with [c]: a delimiter of one character is not skipped. *)
Lemma step_char m c rest : buf m = c :: rest →
  step m = '(f, m') ← match state m with
    | START_FIELD => in_start_field t add_token lookahead canceltoken c (c =? d) (set_buf rest m)
    | IN_FIELD => in_field t add_token c (c =? d) (set_buf rest m)
    | IN_QUOTED_FIELD => Some (in_quoted_field t c (set_buf rest m))
    end;
    Some (f, match f with
             | Continue => m'
             | _ => if escape_sequence m then set_escape false m' else m'
             end).
Proof.
  intros Hb. unfold CsvTokenizer.step. rewrite Hb, delimiter_test, delimiter_char. cbn [length].
  rewrite Nat.sub_diag, drop_0. by destruct (c =? d).
Qed.

Lemma push_quoted f fl (e : bool) c rest u r : c ≠ q ∨ e = true →
  runs (MkMachine IN_QUOTED_FIELD (f ++ [c]) fl (negb e && (c =? BACKSLASH)) rest u) r →
  runs (MkMachine IN_QUOTED_FIELD f fl e (c :: rest) u) r.
Proof.
  intros Hc. apply runs_step with (f := Break); [by left| |cbn; lia].
  rewrite (step_char _ c rest) by done. cbn [state]. unfold in_quoted_field.
  cbn [escape_sequence set_buf]. assert ((c =? q) && negb e = false) as ->.
  { destruct Hc as [Hc%Z.eqb_neq| ->]; [by rewrite Hc|by rewrite andb_false_r]. }
  cbn [mbind option_bind]. unfold PUSH_CHAR. rewrite escape_backslash. by destruct e.
Qed.

Lemma q_not_backslash : (q =? BACKSLASH) = false.
Proof. by destruct quote_standard as [-> | ->]. Qed.

Lemma push_doubled f fl rest u r : double_quote t = true → rest ≠ [] →
  runs (MkMachine IN_QUOTED_FIELD (f ++ [q; q]) fl false rest u) r →
  runs (MkMachine IN_QUOTED_FIELD f fl false (q :: q :: rest) u) r.
Proof.
  intros Hdq Hne. apply runs_step with (f := Break); [by left| |cbn; lia].
  rewrite (step_char _ q (q :: rest)) by done. cbn [state]. unfold in_quoted_field.
  cbn [escape_sequence set_buf buf]. rewrite Z.eqb_refl, Hdq. cbn [negb andb next_is].
  rewrite Z.eqb_refl. assert ((1 <? length (q :: rest))%nat = true) as ->.
  { destruct rest; [done|]. done. }
  cbn [andb mbind option_bind]. unfold PUSH_CHAR. cbn. rewrite escape_backslash, q_not_backslash.
  by rewrite <- app_assoc.
Qed.

Lemma close_quoted f fl rest u r : next_is q rest = false →
  runs (MkMachine IN_FIELD (f ++ [q]) fl false rest u) r →
  runs (MkMachine IN_QUOTED_FIELD f fl false (q :: rest) u) r.
Proof.
  intros Hn. apply runs_step with (f := Break); [by left| |cbn; lia].
  rewrite (step_char _ q rest) by done. cbn [state]. unfold in_quoted_field.
  cbn [escape_sequence set_buf buf]. rewrite Z.eqb_refl, Hn, andb_false_r. cbn [negb andb mbind option_bind].
  unfold PUSH_CHAR. cbn. by rewrite escape_backslash, q_not_backslash.
Qed.

(** The escaped form of a character: itself and no quote, an escape, or a doubled quote. *)
Lemma escape_one_shape c rest :
  let e := escape_one BACKSLASH q true (double_quote t) c rest in
  (e = [c] ∧ c ≠ q ∧ (c = BACKSLASH → next_is ch_u rest || next_is ch_x rest = true)) ∨
  (∃ b, e = [BACKSLASH; b] ∧ c ≠ ch_u ∧ c ≠ ch_x) ∨
  (e = [q; q] ∧ double_quote t = true ∧ c = q).
Proof.
  unfold escape_one, escape_quote. cbn zeta.
  destruct (Z.eqb_spec c SQUOTE) as [->|Hs].
  { destruct quote_standard as [Hq|Hq]; rewrite Hq; cbn;
      destruct (double_quote t); cbn; [by right; right|right; left; by eexists|by left|by left]. }
  destruct (Z.eqb_spec c DQUOTE) as [->|Hd].
  { destruct quote_standard as [Hq|Hq]; rewrite Hq; cbn;
      destruct (double_quote t); cbn; [by left|by left|by right; right|right; left; by eexists]. }
  assert (c ≠ q) by (destruct quote_standard; congruence).
  destruct (Z.eqb_spec c BACKSLASH) as [->|Hb].
  { destruct (next_is ch_u rest || next_is ch_x rest) eqn:Hn; [by left|right; left; by eexists]. }
  destruct (Z.eqb_spec c TAB) as [->|]; [right; left; by eexists|].
  destruct (Z.eqb_spec c BS) as [->|]; [right; left; by eexists|].
  destruct (Z.eqb_spec c CR) as [->|]; [right; left; by eexists|].
  destruct (Z.eqb_spec c NL) as [->|]; [right; left; by eexists|].
  destruct (Z.eqb_spec c NUL) as [->|]; [right; left; by eexists|].
  by left.
Qed.

(** An escaped string is pushed whole, up to its closing quote. *)
Lemma read_escaped val : ∀ f fl (e : bool) rest u r,
  (e = true → next_is ch_u val || next_is ch_x val = true) → next_is q rest = false →
  runs (MkMachine IN_FIELD
    (f ++ escape_loop BACKSLASH q true (double_quote t) val ++ [q]) fl false rest u) r →
  runs (MkMachine IN_QUOTED_FIELD f fl e
    (escape_loop BACKSLASH q true (double_quote t) val ++ q :: rest) u) r.
Proof.
  induction val as [|c val IH]; intros f fl e rest u r He Hn Hr.
  { destruct e; [by specialize (He eq_refl)|]. by apply close_quoted. }
  cbn [escape_loop] in Hr |- *. rewrite <- !app_assoc in Hr |- *.
  destruct (escape_one_shape c val) as [(E & Hc & Hb)|[(b & E & Hu & Hx)|(E & Hdq & ->)]];
    rewrite E in Hr |- *; cbn [app] in Hr |- *.
  - apply push_quoted; [by left|]. apply IH; [|done|by rewrite <- app_assoc].
    intros H. apply andb_true_iff in H as [_ H%Z.eqb_eq]. by apply Hb.
  - assert (e = false) as ->.
    { destruct e; [|done]. specialize (He eq_refl). cbn in He.
      by rewrite orb_true_iff, !Z.eqb_eq in He; destruct He. }
    apply push_quoted; [left; intros H; by pose proof q_not_backslash as Hq; rewrite <- H in Hq|].
    apply push_quoted; [by right|]. cbn [negb andb]. apply IH; [done|done|].
    by rewrite <- !app_assoc.
  - assert (e = false) as ->.
    { destruct e; [|done]. specialize (He eq_refl). cbn in He.
      by destruct quote_standard as [Hq|Hq]; rewrite Hq in He. }
    apply push_doubled; [done|by destruct (escape_loop _ _ _ _ _)|]. apply IH; [done|done|].
    by rewrite <- app_assoc.
Qed.

(** What follows a field. *)
Inductive field_end : list Z → Prop := at_end : field_end [] | at_delimiter s : field_end (d :: s).

Lemma field_end_no_quote rest : field_end rest → next_is q rest = false.
Proof. intros []; [done|]. cbn. by apply Z.eqb_neq. Qed.

(** The result after the token [tok], of a field that ends before [rest]. *)
Definition after_field (tok rest : list Z) (u : S) (r : bool * S) : Prop :=
  match rest with
  | [] => add_token tok u = Some r
  | _ :: rest => ∃ u', add_token tok u = Some (true, u') ∧
      runs (MkMachine START_FIELD [] true false rest u') r
  end.

Lemma end_in_field f fl rest u r : field_end rest → after_field f rest u r →
  runs (MkMachine IN_FIELD f fl false rest u) r.
Proof.
  intros [|s]; cbn [after_field].
  - intros H. by apply runs_end.
  - intros (u' & Ha & Hr). eapply runs_step with (f := Break); [by left| | |exact Hr]; [|cbn; lia].
    rewrite (step_char _ d s) by done. cbn [state]. unfold in_field, END_FIELD. rewrite Z.eqb_refl.
    cbn [field_buffer user set_buf]. rewrite Ha. done.
Qed.

(** A quoted field. *)
Lemma read_quoted val fl rest u r : field_end rest →
  let tok := escape_string BACKSLASH true q true (double_quote t) val in
  after_field tok rest u r → runs (MkMachine START_FIELD [] fl false (tok ++ rest) u) r.
Proof.
  intros He tok Hr. subst tok. unfold escape_string, quotes in *. cbn [app] in *.
  eapply runs_step with (f := Break); [by left| | |].
  - rewrite (step_char _ q (_ ++ rest)) by done. cbn [state]. unfold in_start_field.
    rewrite Z.eqb_refl, quotes_kept. cbn [mbind option_bind escape_sequence]. reflexivity.
  - cbn. lia.
  - unfold PUSH_CHAR. cbn. rewrite escape_backslash, q_not_backslash, <- app_assoc.
    apply read_escaped; [done|by apply field_end_no_quote|]. by apply end_in_field.
Qed.

(** A field without quotes: no delimiter, quote, escape or comment, and nothing that starts
    a value in brackets. *)
Definition bare_char (c : Z) : bool :=
  negb (c =? d) && negb (c =? BACKSLASH) && negb (has_comment_char t && (c =? comment_char t)).
Definition bare_start (c : Z) : bool :=
  negb (c =? q) && negb (isspace c) && negb ((c =? 91) || (c =? 123)).

Lemma read_bare_rest s : ∀ f fl rest u r, forallb bare_char s = true → field_end rest →
  after_field (f ++ s) rest u r → runs (MkMachine IN_FIELD f fl false (s ++ rest) u) r.
Proof.
  induction s as [|c s IH]; intros f fl rest u r Hs He Hr.
  { rewrite app_nil_r in Hr. by apply end_in_field. }
  cbn [forallb] in Hs. apply andb_true_iff in Hs as [Hc Hs]. unfold bare_char in Hc.
  rewrite !andb_true_iff, !negb_true_iff in Hc. destruct Hc as [[Hd Hb] Hcom].
  eapply runs_step with (f := Break); [by left| | |].
  - cbn [app]. rewrite (step_char _ c (s ++ rest)) by done. cbn [state]. unfold in_field.
    rewrite Hd, Hcom. cbn [mbind option_bind escape_sequence]. reflexivity.
  - cbn. lia.
  - unfold PUSH_CHAR. cbn. rewrite escape_backslash, Hb. apply IH; [done|done|].
    by rewrite <- app_assoc.
Qed.

Lemma read_bare c s fl rest u r : forallb bare_char (c :: s) = true → bare_start c = true →
  field_end rest → after_field (c :: s) rest u r →
  runs (MkMachine START_FIELD [] fl false (c :: s ++ rest) u) r.
Proof.
  intros Hs Hst He Hr. cbn [forallb] in Hs. apply andb_true_iff in Hs as [Hc Hs].
  unfold bare_char in Hc. unfold bare_start in Hst.
  rewrite !andb_true_iff, !negb_true_iff in Hc, Hst. destruct Hc as [[Hd Hb] Hcom], Hst as [[Hq Hsp] Hbr].
  eapply runs_step with (f := Break); [by left| | |].
  - rewrite (step_char _ c (s ++ rest)) by done. cbn [state]. unfold in_start_field.
    unfold is_space_but_not_tab. rewrite Hq, Hd, Hcom, Hbr, Hsp, andb_false_r.
    cbn [andb mbind option_bind escape_sequence]. reflexivity.
  - cbn. lia.
  - unfold PUSH_CHAR. cbn. rewrite escape_backslash, Hb. by apply read_bare_rest.
Qed.

(** An empty field before a delimiter, or after one. *)
Lemma read_empty fl rest u r : field_end rest → rest ≠ [] ∨ fl = true →
  after_field [] rest u r → runs (MkMachine START_FIELD [] fl false rest u) r.
Proof.
  intros [|s]; cbn [after_field].
  - intros [| ->]; [done|]. intros H. by apply runs_end.
  - intros _ (u' & Ha & Hr). eapply runs_step with (f := Break); [by left| | |exact Hr]; [|cbn; lia].
    rewrite (step_char _ d s) by done. cbn [state]. unfold in_start_field.
    apply Z.eqb_neq in delimiter_quote. rewrite delimiter_quote, delimiter_space. cbn [andb].
    rewrite Z.eqb_refl. unfold END_FIELD. cbn. by rewrite Ha.
Qed.
End fields.

(** ** Rows of strings *)

Lemma rtrim_snoc l c : isspace c = false → rtrim (l ++ [c]) = l ++ [c].
Proof.
  intros Hc. induction l as [|x l IH]; cbn; [by rewrite Hc|]. rewrite IH. by destruct l.
Qed.

Lemma ends_with_snoc q l : ends_with q (l ++ [q]) = true.
Proof. apply bool_decide_eq_true. apply last_snoc. Qed.

Section rows.
Context (t : csv_line_tokenizer) (parser : flexible_type_parser) (w : CsvWriter.csv_writer) (d : Z).
Context (permit_undefined : bool).

(** The writer and the tokenizer use the same characters. *)
Record agree : Prop := {
  agree_delimiter : delimiter t = [d] ∧ CsvWriter.delimiter w = [d];
  agree_new_line : delimiter_is_new_line t = false;
  agree_escape : escape_char t = BACKSLASH ∧ CsvWriter.escape_char w = BACKSLASH;
  agree_use_escape : CsvWriter.use_escape_char w = true;
  agree_quote : CsvWriter.quote_char w = quote_char t;
  agree_quote_standard : quote_char t = SQUOTE ∨ quote_char t = DQUOTE;
  agree_double : CsvWriter.double_quote w = double_quote t;
  agree_preserve : preserve_quoting t = false;
  agree_level : CsvWriter.quote_level w ≠ CsvWriter.QUOTE_NONE;
  agree_d : d ≠ quote_char t;
  agree_space : is_space_but_not_tab d = false;
}.
Hypothesis Hagree : agree.
#[local] Abbreviation q := (quote_char t).

(** The strings that are read back; [several]: the row has several fields. A field that is
    written without quotes must not read as something else. *)
Definition bare_ok (s : list Z) : bool :=
  match s with
  | [] => negb (permit_undefined && empty_string_in_na_values t)
  | c :: _ =>
      bare_start t c && list_eqb (rtrim s) s
      && forallb (bare_char t d) s
  end.

Definition field_ok (several : bool) (s : list Z) : bool :=
  plain_text s && negb (is_na_value t s)
  && negb (is_na_value t (CsvWriter.csv_print_string w s several))
  && (bool_decide (CsvWriter.quote_level w = CsvWriter.QUOTE_ALL)
      || existsb (CsvWriter.special_char w) s
      || (existsb (λ c, c =? q) s && negb (double_quote t))
      || (negb (existsb (λ c, c =? q) s) && (negb several && (length s =? 0)%nat || bare_ok s))).
Lemma written_shape several s : field_ok several s = true →
  let tok := CsvWriter.csv_print_string w s several in
  tok = escape_string BACKSLASH true q true (double_quote t) s ∨
  (tok = s ∧ s ≠ [] ∧ bare_ok s = true) ∨
  (tok = [] ∧ s = [] ∧ several = true ∧ permit_undefined && empty_string_in_na_values t = false).
Proof.
  destruct Hagree as [[_ _] _ [_ Hesc] Hue Hq Hqs Hdq _ Hlev _ _].
  unfold field_ok, CsvWriter.csv_print_string, CsvWriter.escaped.
  rewrite Hesc, Hue, Hq, Hdq, (decide_False (P := _ = CsvWriter.QUOTE_NONE)) by done.
  rewrite !andb_true_iff, !orb_true_iff. intros [_ H].
  destruct (decide (CsvWriter.quote_level w = CsvWriter.QUOTE_ALL)); [by left|].
  rewrite bool_decide_eq_false_2 in H by done.
  destruct (existsb (CsvWriter.special_char w) s) eqn:Hsp; cbn [negb andb] in H |- *.
  { left. destruct s; [done|]. by rewrite andb_false_r. }
  destruct (existsb (λ c, c =? q) s) eqn:Hqc; cbn [negb andb] in H |- *.
  { destruct H as [[[H|H]|H]|H]; try done. apply negb_true_iff in H as ->. left.
    destruct s; [done|]. by rewrite andb_false_r. }
  destruct H as [[[H|H]|H]|H]; try done.
  destruct s as [|c s]; [destruct several|]; cbn [negb andb length Nat.eqb orb] in H |- *.
  - right; right. split_and!; try done. by apply negb_true_iff in H.
  - left. done.
  - right; left. rewrite andb_false_r in H |- *. split_and!; [done|done|].
    apply orb_true_iff in H as [|]; done.
Qed.

Lemma q_not_space : isspace q = false.
Proof. by destruct (agree_quote_standard Hagree) as [-> | ->]. Qed.

Lemma parse_string_quoted s : plain_text s = true →
  parse_string t (escape_string BACKSLASH true q true (double_quote t) s) = Some s.
Proof.
  intros Hp. unfold parse_string, escape_string, quotes.
  rewrite app_assoc, rtrim_snoc by apply q_not_space.
  rewrite ends_with_snoc. cbn [app drop next_is]. rewrite Z.eqb_refl.
  assert ((2 <=? length (q :: escape_loop BACKSLASH q true (double_quote t) s ++ [q]))%nat = true) as ->.
  { apply Nat.leb_le. cbn [length]. rewrite length_app. cbn. lia. }
  cbn [andb]. rewrite drop_0, removelast_last.
  destruct (agree_escape Hagree) as [-> _]. rewrite unescape_string_spec, unescape_escape; [done|done|].
  unfold quoting_ok. by destruct (agree_quote_standard Hagree) as [-> | ->]; destruct (double_quote t).
Qed.

Lemma parse_string_bare s : s ≠ [] → bare_ok s = true → parse_string t s = Some s.
Proof.
  intros Hne Hb. destruct s as [|c s]; [done|]. cbn [bare_ok] in Hb.
  rewrite !andb_true_iff in Hb. destruct Hb as [[Hst Htr] _]. unfold parse_string.
  apply bool_decide_eq_true in Htr. rewrite Htr. unfold bare_start in Hst.
  rewrite !andb_true_iff, !negb_true_iff in Hst. destruct Hst as [[Hq _] _].
  cbn [next_is]. by rewrite Hq, andb_false_r.
Qed.

Lemma ltrim_first c s : isspace c = false → ltrim (c :: s) = c :: s.
Proof. intros Hc. cbn. by rewrite Hc. Qed.

(** Reading a written field into a STRING column. *)
Lemma read_field several s (k n : nat) out col : field_ok several s = true →
  out !! k = Some col → get_type col = STRING → (k < n)%nat →
  typed_add_token t parser permit_undefined None n (CsvWriter.csv_print_string w s several) (k, out)
  = Some (true, (S k, <[k := FString s]> out)).
Proof.
  intros Hok Hcol Hty Hk.
  assert (plain_text s = true ∧ is_na_value t s = false ∧
    is_na_value t (CsvWriter.csv_print_string w s several) = false) as (Hp & Hna & Hna').
  { unfold field_ok in Hok. rewrite !andb_true_iff, !negb_true_iff in Hok. tauto. }
  assert (rtrim (CsvWriter.csv_print_string w s several) = CsvWriter.csv_print_string w s several) as Htr.
  { destruct (written_shape several s Hok) as [-> |[(-> & Hne & Hb)|(-> & _)]]; [|..|done].
    - unfold escape_string, quotes. by rewrite app_assoc, rtrim_snoc by apply q_not_space.
    - destruct s as [|c s]; [done|]. cbn [bare_ok] in Hb. rewrite !andb_true_iff in Hb.
      destruct Hb as [[_ Hr] _]. by apply bool_decide_eq_true in Hr. }
  assert (CsvWriter.csv_print_string w s several ≠ [] →
    ltrim (CsvWriter.csv_print_string w s several) = CsvWriter.csv_print_string w s several ∧
    parse_string t (CsvWriter.csv_print_string w s several) = Some s) as Hparse.
  { intros Hne. destruct (written_shape several s Hok) as [-> |[(-> & Hne' & Hb)|(E & _)]]; [|..|done].
    - split; [apply ltrim_first, q_not_space|by apply parse_string_quoted].
    - split; [|by apply parse_string_bare]. destruct s as [|c s]; [done|]. cbn [bare_ok] in Hb.
      rewrite !andb_true_iff in Hb. destruct Hb as [[Hst _] _]. unfold bare_start in Hst.
      rewrite !andb_true_iff, !negb_true_iff in Hst. destruct Hst as [[_ Hsp] _]. by apply ltrim_first. }
  unfold typed_add_token, output_idx. destruct (Nat.leb_spec n k); [lia|]. cbn [mbind option_bind].
  rewrite Hcol. cbn [mbind option_bind].
  destruct (CsvWriter.csv_print_string w s several) as [|c tok] eqn:Htok.
  - destruct (written_shape several s Hok) as [E|[(E & Hne & _)|(_ & -> & _ & Hpu)]];
      [by rewrite Htok in E|congruence|].
    rewrite Hty. rewrite bool_decide_eq_true_2 by done. cbn [negb orb].
    by rewrite Hpu.
  - destruct (Hparse ltac:(done)) as [Hl Hps]. rewrite Hl. unfold parse_as. rewrite Hty.
    rewrite bool_decide_eq_true_2 by done. cbn [negb andb]. unfold parse_unquoted. rewrite Hty, Hps.
    cbn [mbind option_bind drop]. unfold na_handling. cbn [get_type].
    rewrite bool_decide_eq_true_2 by done. cbn [negb andb orb]. rewrite Htr, Hna', Hna.
    by destruct (na_values t).
Qed.

(** One field of the row, from the start of the field to the end of its token. *)
Lemma field_runs {S} add_token lookahead canceltoken several s rest fl (u : S) r :
  field_ok several s = true → field_end d rest →
  CsvWriter.csv_print_string w s several ≠ [] ∨ rest ≠ [] ∨ fl = true →
  after_field t add_token lookahead canceltoken (CsvWriter.csv_print_string w s several) rest u r →
  runs t add_token lookahead canceltoken
    (MkMachine START_FIELD [] fl false (CsvWriter.csv_print_string w s several ++ rest) u) r.
Proof.
  intros Hok He Hne Hr. destruct Hagree as [[Hd _] _ [Hesc _] _ _ Hqs _ Hpr _ Hdq Hsp].
  destruct (written_shape several s Hok) as [E|[(E & Hs & Hb)|(E & _)]].
  - rewrite E in Hr |- *. by apply read_quoted with (d := d).
  - rewrite E in Hr |- *. destruct s as [|c s]; [done|]. cbn [bare_ok] in Hb.
    rewrite !andb_true_iff in Hb. destruct Hb as [[Hst _] Hall].
    by apply read_bare with (d := d).
  - rewrite E in Hr, Hne |- *. destruct Hne as [?|Hne]; [done|]. by apply read_empty with (d := d).
Qed.

Lemma row_runs several (row : list (list Z)) : ∀ (before cols : list flexible_type) fl n,
  row ≠ [] → length cols = length row → Forall (λ c, get_type c = STRING) cols →
  n = (length before + length row)%nat → Forall (λ s, field_ok several s = true) row →
  (several = true → (1 < length row)%nat ∨ fl = true) →
  runs t (typed_add_token t parser permit_undefined None n) (typed_lookahead t parser None n)
    (λ '(ctr, output), (pred ctr, output))
    (MkMachine START_FIELD [] fl false
      (CsvWriter.separated [d] (map (λ s, CsvWriter.csv_print_string w s several) row))
      (length before, before ++ cols))
    (true, (n, before ++ map FString row)).
Proof.
  induction row as [|s row IH]; intros before cols fl n Hne Hlen Hty Hn Hok Hsev; [done|].
  destruct cols as [|col cols]; [done|]. apply Forall_cons in Hty as [Hcol Hty].
  apply Forall_cons in Hok as [Hs Hok]. cbn [length] in *.
  assert (typed_add_token t parser permit_undefined None n (CsvWriter.csv_print_string w s several)
    (length before, before ++ col :: cols)
    = Some (true, (S (length before), (before ++ [FString s]) ++ cols))) as Hadd.
  { rewrite (read_field several s _ n _ col) by
      (done || (rewrite lookup_app_r, Nat.sub_diag by lia; done) || lia).
    rewrite insert_app_r_alt, Nat.sub_diag by lia. cbn. by rewrite <- app_assoc. }
  assert (CsvWriter.csv_print_string w s several ≠ [] ∨ row ≠ [] ∨ fl = true) as Hprog.
  { destruct (written_shape several s Hs) as [E|[(E & Hne' & _)|(_ & _ & Hse & _)]].
    - left. by rewrite E.
    - left. by rewrite E.
    - right. destruct (Hsev Hse) as [Hl|]; [left|by right]. destruct row; [cbn in Hl; lia|done]. }
  destruct row as [|s' row].
  - cbn [map CsvWriter.separated]. rewrite <- (app_nil_r (CsvWriter.csv_print_string w s several)).
    apply field_runs; [done|constructor|by destruct Hprog as [?|[?|?]]; auto|].
    cbn [after_field]. rewrite Hadd. destruct cols; [|done]. rewrite app_nil_r, Hn.
    cbn [length]. by rewrite Nat.add_1_r.
  - change (CsvWriter.separated [d] (map (λ s, CsvWriter.csv_print_string w s several) (s :: s' :: row)))
      with (CsvWriter.csv_print_string w s several ++ d :: CsvWriter.separated [d]
        (map (λ s, CsvWriter.csv_print_string w s several) (s' :: row))).
    change (map FString (s :: s' :: row)) with ([FString s] ++ map FString (s' :: row)).
    rewrite app_assoc. apply field_runs; [done|constructor|by right; left|].
    cbn [after_field]. eexists. split; [exact Hadd|].
    replace (S (length before)) with (length (before ++ [FString s])) by (rewrite length_app; cbn; lia).
    apply IH; [done|lia|done|rewrite length_app; cbn [length] in *; lia|done|by right].
Qed.

(** A row of strings is read back by columns of strings. *)
Lemma tokenize_written to_string row cols :
  row ≠ [] → length cols = length row → Forall (λ c, get_type c = STRING) cols →
  Forall (λ s, field_ok (1 <? length row)%nat s = true) row → ∃ line,
  CsvWriter.write w to_string (map FString row) = line ++ CsvWriter.line_terminator w ∧
  CsvTokenizer.tokenize_line t parser permit_undefined None line cols
  = Some (length row, map FString row).
Proof.
  intros Hne Hlen Hty Hok. eexists. split; [reflexivity|].
  destruct (agree_delimiter Hagree) as [_ ->]. rewrite map_map, length_map. cbn [CsvWriter.csv_print].
  unfold tokenize_line. rewrite (runs_tokenize _ _ _ _ _ _ _ (true, (length row, map FString row))).
  - done.
  - by apply agree_new_line.
  - unfold num_outputs. rewrite Hlen. apply (row_runs _ row [] cols); [done|done|done|done|done|].
    intros H. left. by apply Nat.ltb_lt.
Qed.
End rows.

(** ** A delimiter inside quotes *)

(** In a quoted field the code still skips to the last character of a delimiter: of a delimiter
    of several characters only the last one is kept. *)
Lemma quoted_delimiter_lost t {S} add_token lookahead canceltoken f fl delim c rest (u : S) :
  delimiter t = delim ++ [c] → c ≠ quote_char t → c ≠ escape_char t →
  step t add_token lookahead canceltoken
    (MkMachine IN_QUOTED_FIELD f fl false (delim ++ c :: rest) u)
  = Some (Break, MkMachine IN_QUOTED_FIELD (f ++ [c]) fl false rest u).
Proof.
  intros Hd Hq He. unfold step. cbn [buf].
  assert (∀ l s, test_is_delimiter (l ++ s) l = true) as Htest.
  { induction l as [|x l IH]; intros s; [by destruct s|]. cbn. by rewrite Z.eqb_refl, IH. }
  assert (DELIMITER_TEST t (delim ++ c :: rest) = true) as ->.
  { unfold DELIMITER_TEST, delimiter_is_not_empty, delimiter_first_character, list_eqb. rewrite Hd.
    rewrite !andb_true_iff, orb_true_iff. split_and!.
    - apply negb_true_iff, bool_decide_eq_false. destruct delim; intros H; discriminate H.
    - destruct delim; cbn; apply Z.eqb_refl.
    - right. replace (delim ++ c :: rest) with ((delim ++ [c]) ++ rest) by (by rewrite <- app_assoc).
      apply Htest. }
  rewrite Hd, length_app, Nat.add_sub, drop_app_length. cbn [state].
  unfold in_quoted_field. cbn [set_buf escape_sequence]. apply Z.eqb_neq in Hq, He. rewrite Hq.
  cbn [andb mbind option_bind]. unfold PUSH_CHAR. cbn. by rewrite He.
Qed.

End CsvRoundTrip.
