(* ===== verification/QueryPlan.v ===== *)
(** Lazy query plans (sframe_query_engine/operators, planning/planner_node.hpp): the operators
    and their attributes, the graph of planner nodes, the types and the length the planner
    infers for a node, and the table a node stands for. *)
From S2P Require Import Prelude FlexType FlexOps.
Import FlexType FlexOps.
Local Open Scope Z_scope.
Local Open Scope sframe_scope.

Module QueryPlan.

(** ** Tables

    A block of rows ([sframe_rows]) is the list of its rows; a table the list of all of them. *)
Abbreviation row := (list flexible_type).
Abbreviation table := (list row).

(** A column on disk: its type and its values. *)
Record sarray := SArray { sa_type : flex_type_enum; sa_data : list flexible_type }.
Abbreviation sframe := (list sarray).

Definition num_rows (sf : sframe) : nat :=
  match sf with [] => 0%nat | sa :: _ => length (sa_data sa) end.

(** [sframe(columns)]; [None]: the exception "Columns do not have the same length!". *)
Definition open_for_read (new_columns : list sarray) : option sframe :=
  if forallb (λ sa, length (sa_data sa) =? num_rows new_columns)%nat new_columns
  then Some new_columns else None.

(** [soft_assign] of the second value to the first ([FlexOps.soft_assignment_visitor], whose
    conversions have parameters of their own). *)
Class SoftAssign := soft_assign : flexible_type → flexible_type → outcome flexible_type.

(** ** Operators *)

Inductive planner_node_type :=
  | CONSTANT_NODE | APPEND_NODE | BINARY_TRANSFORM_NODE | LOGICAL_FILTER_NODE | PROJECT_NODE
  | RANGE_NODE | SARRAY_SOURCE_NODE | SFRAME_SOURCE_NODE | TRANSFORM_NODE
  | LAMBDA_TRANSFORM_NODE | GENERALIZED_TRANSFORM_NODE | UNION_NODE
  | GENERALIZED_UNION_PROJECT_NODE | REDUCE_NODE | IDENTITY_NODE.

#[global] Instance planner_node_type_eq_dec : EqDecision planner_node_type.
Proof. solve_decision. Defined.

(** A type with its parameters ([operator_parameters] and [any_operator_parameters]). The
    functions of the transforms are the caller's; [None] is an exception they throw. An
    aggregator is the function from the rows added to the value emitted. *)
Inductive operator :=
  | op_constant (value : flexible_type) (type : flex_type_enum) (begin_index end_index : Z)
  | op_append
  | op_binary_transform (function : row → row → option flexible_type) (output_type : flex_type_enum)
  | op_logical_filter
  | op_project (indices : list nat)
  | op_range (begin_index end_index : Z)
  | op_sarray_source (sa : sarray) (begin_index end_index : Z)
  | op_sframe_source (sf : sframe) (begin_index end_index : Z)
  | op_transform (function : row → option flexible_type) (output_type : flex_type_enum)
  | op_lambda_transform (lambda_fn : row → option flexible_type) (output_type : flex_type_enum)
  | op_generalized_transform (function : row → option row) (output_types : list flex_type_enum)
  | op_union
  | op_union_project (index_map : list (nat * nat))
  | op_reduce (aggregator : table → option flexible_type) (output_type : flex_type_enum)
  | optonly_identity_operator.

Definition type_of (op : operator) : planner_node_type :=
  match op with
  | op_constant _ _ _ _ => CONSTANT_NODE
  | op_append => APPEND_NODE
  | op_binary_transform _ _ => BINARY_TRANSFORM_NODE
  | op_logical_filter => LOGICAL_FILTER_NODE
  | op_project _ => PROJECT_NODE
  | op_range _ _ => RANGE_NODE
  | op_sarray_source _ _ _ => SARRAY_SOURCE_NODE
  | op_sframe_source _ _ _ => SFRAME_SOURCE_NODE
  | op_transform _ _ => TRANSFORM_NODE
  | op_lambda_transform _ _ => LAMBDA_TRANSFORM_NODE
  | op_generalized_transform _ _ => GENERALIZED_TRANSFORM_NODE
  | op_union => UNION_NODE
  | op_union_project _ => GENERALIZED_UNION_PROJECT_NODE
  | op_reduce _ _ => REDUCE_NODE
  | optonly_identity_operator => IDENTITY_NODE
  end.

Definition NONE : Z := 0.
Definition LINEAR : Z := 1.
Definition SUB_LINEAR : Z := 2.
Definition SOURCE : Z := 4.
Definition LOGICAL_NODE_ONLY : Z := 8.
Definition SUPPORTS_SKIPPING : Z := 256.

Record query_operator_attributes := Attributes { attribute_bitfield : Z; num_inputs : Z }.

Definition planner_node_type_to_attributes (t : planner_node_type) : query_operator_attributes :=
  match t with
  | CONSTANT_NODE => Attributes SOURCE 0
  | APPEND_NODE => Attributes NONE 2
  | BINARY_TRANSFORM_NODE => Attributes LINEAR 2
  | LOGICAL_FILTER_NODE => Attributes SUB_LINEAR 2
  | PROJECT_NODE => Attributes LINEAR 1
  | RANGE_NODE => Attributes SOURCE 0
  | SARRAY_SOURCE_NODE => Attributes (SOURCE .| SUPPORTS_SKIPPING) 0
  | SFRAME_SOURCE_NODE => Attributes (SOURCE .| SUPPORTS_SKIPPING) 0
  | TRANSFORM_NODE => Attributes LINEAR 1
  | LAMBDA_TRANSFORM_NODE => Attributes LINEAR 1
  | GENERALIZED_TRANSFORM_NODE => Attributes LINEAR 1
  | UNION_NODE => Attributes LINEAR (-1)
  | GENERALIZED_UNION_PROJECT_NODE => Attributes LINEAR (-1)
  | REDUCE_NODE => Attributes SUB_LINEAR 1
  | IDENTITY_NODE => Attributes LOGICAL_NODE_ONLY 1
  end.

Definition has (a : query_operator_attributes) (flag : Z) : bool :=
  negb (attribute_bitfield a .& flag =? 0).

Definition is_source_node (t : planner_node_type) : bool :=
  has (planner_node_type_to_attributes t) SOURCE.

Definition consumes_inputs_at_same_rates (t : planner_node_type) : bool :=
  let a := planner_node_type_to_attributes t in
  (num_inputs a =? 1) || has a LINEAR || has a SUB_LINEAR.

Definition is_linear_transform (t : planner_node_type) : bool :=
  consumes_inputs_at_same_rates t && negb (is_source_node t) &&
  has (planner_node_type_to_attributes t) LINEAR.

Definition is_sublinear_transform (t : planner_node_type) : bool :=
  consumes_inputs_at_same_rates t && negb (is_source_node t) &&
  has (planner_node_type_to_attributes t) SUB_LINEAR.

(** ** Planner nodes

    A [pnode_ptr] is an address in a heap of nodes. *)
Record planner_node := PNode { operator_type : operator; inputs : list nat }.
Abbreviation heap := (gmap nat planner_node).

(** ** [infer_type], from the types of the inputs

    [None]: a failed assertion, or an access outside a vector. *)
Definition append_infer_type (types : list (list flex_type_enum)) : option (list flex_type_enum) :=
  match types with
  | [] => None
  | t :: ts => if forallb (λ u, bool_decide (u = t)) ts then Some t else None
  end.

Definition project_infer_type (indices : list nat) (types : list (list flex_type_enum))
  : option (list flex_type_enum) :=
  t ← head types; mapM (λ i, t !! i) indices.

Definition union_infer_type (types : list (list flex_type_enum)) : option (list flex_type_enum) :=
  match types with [] => None | _ => Some (concat types) end.

Definition union_project_infer_type (index_map : list (nat * nat)) (types : list (list flex_type_enum))
  : option (list flex_type_enum) :=
  match types with
  | [] => None
  | _ => mapM (λ p, t ← types !! p.1; t !! p.2) index_map
  end.

Definition infer_type_impl (op : operator) (types : list (list flex_type_enum))
  : option (list flex_type_enum) :=
  match op with
  | op_constant _ type _ _ => Some [type]
  | op_append => append_infer_type types
  | op_binary_transform _ output_type => Some [output_type]
  | op_logical_filter => match types with [t; _] => Some t | _ => None end
  | op_project indices => project_infer_type indices types
  | op_range _ _ => Some [INTEGER]
  | op_sarray_source sa _ _ => Some [sa_type sa]
  | op_sframe_source sf _ _ => Some (map sa_type sf)
  | op_transform _ output_type => Some [output_type]
  | op_lambda_transform _ output_type => Some [output_type]
  | op_generalized_transform _ output_types => Some output_types
  | op_union => union_infer_type types
  | op_union_project index_map => union_project_infer_type index_map types
  | op_reduce _ output_type => Some [output_type]
  | optonly_identity_operator => match types with [t] => Some t | _ => None end
  end.

(** ** [infer_length], from the lengths of the inputs; -1 when it is not known *)
Fixpoint append_length (ret_length : Z) (lengths : list Z) : Z :=
  match lengths with
  | [] => ret_length
  | l :: lengths => if l =? -1 then -1 else append_length (ret_length + l) lengths
  end.

Definition infer_length_impl (op : operator) (lengths : list Z) : option Z :=
  match op with
  | op_constant _ _ b e | op_range b e | op_sarray_source _ b e | op_sframe_source _ b e =>
      Some (e - b)
  | op_append => Some (append_length 0 lengths)
  | op_logical_filter | op_reduce _ _ => Some (-1)
  | op_binary_transform _ _ | op_project _ | op_transform _ _ | op_lambda_transform _ _
  | op_generalized_transform _ _ | op_union | op_union_project _ => head lengths
  | optonly_identity_operator => match lengths with [l] => Some l | _ => None end
  end.

(** ** The rows of an operator

    What [execute] makes of its input streams, as tables. The functions are total on the
    streams that the loops of [execute] accept. *)

(** The rows [begin] to [end] of a source ([read_rows]). The columns of a frame have one
    length. *)
Definition row_at (sf : sframe) (i : Z) : option row :=
  mapM (λ sa, sa_data sa !! Z.to_nat i) sf.

Definition read_rows (sf : sframe) (begin_index end_index : Z) : option table :=
  sf ← open_for_read sf;
  if (0 <=? begin_index) && (begin_index <=? end_index) && (end_index <=? Z.of_nat (num_rows sf))
  then mapM (row_at sf) (seqZ begin_index (end_index - begin_index)) else None.

(** [is_all_zero] and the test of [execute] look at the first column of the mask. *)
Definition selected (mask : row) : option bool :=
  v ← head mask; negb <$> is_zero v.

Fixpoint filter_rows (rows mask : table) : option table :=
  match rows, mask with
  | [], [] => Some []
  | r :: rows, m :: mask =>
      s ← selected m; out ← filter_rows rows mask; Some (if s : bool then r :: out else out)
  | _, _ => None
  end.

Section rows.
Context {SA : SoftAssign}.

(** The output of a transform: kept when the types agree, else assigned to a value of the
    announced type. *)
Definition convert (output_type : flex_type_enum) (outval : flexible_type) : option flexible_type :=
  if bool_decide (output_type = UNDEFINED) || bool_decide (get_type outval = output_type)
     || bool_decide (get_type outval = UNDEFINED)
  then Some outval else outcome_option (soft_assign (reset output_type) outval).

Definition convert_value_to_output_type (output_type : flex_type_enum) (val : flexible_type)
  : option flexible_type :=
  let t := get_type val in
  if bool_decide (t = output_type) || bool_decide (t = UNDEFINED)
     || bool_decide (output_type = UNDEFINED) then Some val
  else if flex_type_is_convertible t output_type
          || (bool_decide (t = VECTOR) && bool_decide (output_type = LIST))
          || (bool_decide (t = LIST) && bool_decide (output_type = VECTOR))
  then outcome_option (soft_assign (reset output_type) val) else None.

(** [type_check_inplace], on one row. *)
Fixpoint type_check_inplace (typelist : list flex_type_enum) (r : row) : option row :=
  match typelist, r with
  | [], [] => Some []
  | t :: typelist, v :: r =>
      v ← convert t v; r ← type_check_inplace typelist r; Some (v :: r)
  | _, _ => None
  end.

(** The row an operator makes of one row of each input, for the operators that consume their
    inputs at the same rate and give a row for each row. *)
Definition linear_row (op : operator) (rows : list row) : option row :=
  match op, rows with
  | op_binary_transform f _, [[a]; [b]] => v ← f [a] [b]; Some [v]
  | op_project indices, [r] =>
      match indices with [] => None | _ => mapM (λ i, r !! i) indices end
  | op_transform f output_type, [r] => v ← f r; w ← convert output_type v; Some [w]
  | op_lambda_transform f output_type, [r] =>
      v ← f r; w ← convert_value_to_output_type output_type v; Some [w]
  | op_generalized_transform f output_types, [r] =>
      out ← f r; type_check_inplace output_types out
  | op_union, _ => Some (concat rows)
  | op_union_project index_map, _ => mapM (λ p, r ← rows !! p.1; r !! p.2) index_map
  | _, _ => None
  end.

(** The loop of a linear operator over its inputs, which must have as many rows. *)
Definition lockstep (F : list row → option row) (ts : list table) : option table :=
  match ts with
  | [] => None
  | t :: _ =>
      if forallb (λ u, length u =? length t)%nat ts
      then mapM (λ k, rs ← mapM (λ u, u !! k) ts; F rs) (seq 0 (length t)) else None
  end.

(** [execution_node::init] asserts the number of inputs, where the operator has one. *)
Definition inputs_match (op : operator) (n : nat) : bool :=
  let k := num_inputs (planner_node_type_to_attributes (type_of op)) in
  (k <? 0) || (Z.of_nat n =? k).

(** The table an operator makes of the tables of its inputs. [op_range] runs on indices that
    its constructor never sets: it has no table. *)
Definition denote_impl (op : operator) (ts : list table) : option table :=
  match op, ts with
  | op_constant v _ b e, [] => if b <=? e then Some (replicate (Z.to_nat (e - b)) [v]) else None
  | op_range _ _, _ => None
  | op_sarray_source sa b e, [] => read_rows [sa] b e
  | op_sframe_source sf b e, [] => read_rows sf b e
  | op_append, [a; b] => Some (a ++ b)
  | op_logical_filter, [rows; mask] => filter_rows rows mask
  | op_reduce aggregator _, [t] => v ← aggregator t; Some [[v]]
  | optonly_identity_operator, [t] => Some t
  | _, _ =>
      if is_linear_transform (type_of op) && inputs_match op (length ts)
      then lockstep (linear_row op) ts else None
  end.

(** ** Evaluation over the graph *)

Section eval.
Context {A : Type} (impl : operator → list A → option A).

(** [visitor_infer_*]: an operator's function on the values of its inputs. The memo of a node
    only repeats the value of the recursion. *)
Fixpoint eval (fuel : nat) (h : heap) (x : nat) : option A :=
  match fuel with
  | O => None
  | S fuel =>
      n ← h !! x; vs ← mapM (eval fuel h) (inputs n); impl (operator_type n) vs
  end.

(** A path without cycle visits every node at most once. *)
Definition evaluate (h : heap) (x : nat) : option A := eval (base.size h) h x.
End eval.

Definition infer_planner_node_type : heap → nat → option (list flex_type_enum) :=
  evaluate infer_type_impl.
Definition infer_planner_node_length : heap → nat → option Z := evaluate infer_length_impl.
Definition infer_planner_node_num_output_columns (h : heap) (x : nat) : option nat :=
  length <$> infer_planner_node_type h x.

(** A typed table: what a node stands for when the planner can infer its types, of which there
    is at least one. *)
Definition ttable : Type := list flex_type_enum * table.

Definition plan_impl (op : operator) (vs : list ttable) : option ttable :=
  types ← infer_type_impl op (vs.*1);
  t ← denote_impl op (vs.*2);
  match types with [] => None | _ => Some (types, t) end.

Definition denote : heap → nat → option ttable := evaluate plan_impl.
End rows.

End QueryPlan.
