(* ===== verification/QueryPlanSpec.v ===== *)
(** What the planner infers about a node agrees with the table the node stands for. *)
From S2P Require Import Prelude FlexType FlexOps QueryPlan.
Import FlexType FlexOps QueryPlan.
Local Open Scope Z_scope.
Local Open Scope sframe_scope.

Module QueryPlanSpec.

Lemma mapM_mono {A B} (f g : A → option B) (l : list A) r :
  (∀ x y, x ∈ l → f x = Some y → g x = Some y) → mapM f l = Some r → mapM g l = Some r.
Proof.
  intros Hfg. rewrite !mapM_Some. intros H. induction H as [|x y l r Hxy H IH]; constructor.
  - apply Hfg; [left|done].
  - apply IH. intros. apply Hfg; [by right|done].
Qed.

Lemma mapM_ext_in {A B} (f g : A → option B) (l : list A) :
  (∀ x, x ∈ l → f x = g x) → mapM f l = mapM g l.
Proof.
  induction l as [|x l IH]; intros H; [done|]. cbn. rewrite H by left.
  destruct (g x) as [y|]; [|done]. cbn. rewrite IH; [done|]. intros. apply H. by right.
Qed.

Lemma mapM_total {A B} (f : A → option B) (l : list A) :
  (∀ x, x ∈ l → is_Some (f x)) → is_Some (mapM f l).
Proof. rewrite mapM_is_Some, Forall_forall. done. Qed.

(** ** Evaluation *)

Section eval.
Context {A : Type} (impl : operator → list A → option A).
Implicit Types (h : heap) (x : nat).

Lemma eval_S f h x v :
  eval impl (S f) h x = Some v ↔
  ∃ n vs, h !! x = Some n ∧ mapM (eval impl f h) (inputs n) = Some vs ∧
    impl (operator_type n) vs = Some v.
Proof.
  cbn. split.
  - intros H. apply bind_Some in H as (n & Hn & H). apply bind_Some in H as (vs & Hvs & H).
    by exists n, vs.
  - intros (n & vs & -> & Hvs & H). cbn. by rewrite Hvs.
Qed.

Lemma eval_mono f f' h x v :
  (f ≤ f')%nat → eval impl f h x = Some v → eval impl f' h x = Some v.
Proof.
  revert f' x v. induction f as [|f IH]; intros f' x v Hf; [done|].
  destruct f' as [|f']; [lia|]. rewrite !eval_S. intros (n & vs & Hn & Hvs & H).
  exists n, vs. split_and!; [done| |done]. eapply mapM_mono; [|done].
  intros y w _. apply IH. lia.
Qed.

Lemma eval_det f f' h x v v' :
  eval impl f h x = Some v → eval impl f' h x = Some v' → v = v'.
Proof.
  intros H H'. apply (eval_mono f (f `max` f')) in H; [|lia].
  apply (eval_mono f' (f `max` f')) in H'; [|lia]. congruence.
Qed.

(** The least fuel that evaluates a node. *)
Definition least f h x : Prop :=
  is_Some (eval impl f h x) ∧ ∀ g, (g < f)%nat → eval impl g h x = None.

Lemma least_exists f h x : is_Some (eval impl f h x) → ∃ g, (g ≤ f)%nat ∧ least g h x.
Proof.
  induction f as [f IH] using lt_wf_ind. intros H.
  destruct (decide (Exists (λ g, is_Some (eval impl g h x)) (seq 0 f))) as [Hs|Hn].
  - apply Exists_exists in Hs as (g & Hg & Hs). apply elem_of_seq in Hg. destruct (IH g) as (g' & ? & ?); [lia|done|].
    exists g'. split; [lia|done].
  - exists f. split; [lia|]. split; [done|]. intros g Hg.
    destruct (eval impl g h x) eqn:E; [|done]. exfalso. apply Hn, Exists_exists. exists g.
    split; [apply elem_of_seq; lia|by rewrite E].
Qed.

Lemma least_inputs f h x n :
  least (S f) h x → h !! x = Some n → Forall (λ y, is_Some (eval impl f h y)) (inputs n).
Proof.
  intros [[v Hv] _] Hn. apply eval_S in Hv as (n' & vs & Hn' & Hvs & _). simplify_eq.
  apply mapM_is_Some. by exists vs.
Qed.

(** One node of every least fuel below lies under the node. *)
Lemma least_chain f h x :
  least f h x → ∃ l, length l = f ∧ NoDup l ∧
    Forall (λ y, is_Some (h !! y) ∧ ∃ g, (g ≤ f)%nat ∧ least g h y) l.
Proof.
  revert x. induction f as [|f IH]; intros x Hl.
  { exists []. split_and!; [done|constructor|constructor]. }
  destruct (Hl) as [[v Hv] Hmin]. pose proof Hv as Hv'.
  apply eval_S in Hv' as (n & vs & Hn & Hvs & Himpl).
  pose proof (least_inputs f h x n Hl Hn) as Hin.
  destruct f as [|f].
  { exists [x]. split_and!; [done|apply NoDup_singleton|].
    constructor; [|constructor]. split; [by exists n|]. exists 1%nat. auto. }
  destruct (decide (Forall (λ y, is_Some (eval impl f h y)) (inputs n))) as [Hall|Hsome].
  { exfalso. specialize (Hmin (S f) ltac:(lia)).
    enough (eval impl (S f) h x = Some v) by congruence. apply eval_S.
    exists n, vs. split_and!; [done| |done].
    rewrite <- Hvs. apply mapM_ext_in. intros y Hy. rewrite Forall_forall in Hall.
    destruct (Hall y Hy) as [w Hw]. rewrite Hw. symmetry. by apply (eval_mono f); [lia|]. }
  apply not_Forall_Exists in Hsome; [|apply _]. apply Exists_exists in Hsome as (y & Hy & Hno).
  rewrite Forall_forall in Hin.
  assert (least (S f) h y) as Hly.
  { split; [by apply Hin|]. intros g Hg. destruct (eval impl g h y) eqn:E; [|done].
    exfalso. apply Hno. exists a. apply (eval_mono g); [lia|done]. }
  destruct (IH y Hly) as (l & Hlen & Hnd & Hl'). exists (x :: l). split_and!.
  - cbn. by rewrite Hlen.
  - constructor; [|done]. intros Hx. rewrite Forall_forall in Hl'.
    destruct (Hl' x Hx) as (_ & g & Hg & [[w Hw] _]). rewrite (Hmin g) in Hw; [done|lia].
  - constructor; [|eapply Forall_impl; [done|]].
    + split; [by exists n|]. exists (S (S f)). auto.
    + intros z (? & g & ? & ?). split; [done|]. exists g. split; [lia|done].
Qed.

(** As much fuel as there are nodes is enough. *)
Lemma eval_evaluate f h x v : eval impl f h x = Some v → evaluate impl h x = Some v.
Proof.
  intros H. destruct (least_exists f h x) as (g & _ & Hg); [by exists v|].
  destruct (least_chain g h x Hg) as (l & Hlen & Hnd & Hl).
  assert (g ≤ base.size h)%nat as Hle.
  { rewrite <- Hlen, <- size_dom, <- (size_list_to_set (C := gset nat) l Hnd).
    apply subseteq_size. intros y Hy. apply elem_of_list_to_set in Hy.
    rewrite Forall_forall in Hl. apply elem_of_dom. by destruct (Hl y Hy). }
  destruct Hg as [[w Hw] _]. unfold evaluate. rewrite (eval_mono g _ h x w Hle Hw).
  f_equal. by eapply eval_det.
Qed.

Lemma evaluate_unfold h x v :
  evaluate impl h x = Some v ↔
  ∃ n vs, h !! x = Some n ∧ mapM (evaluate impl h) (inputs n) = Some vs ∧
    impl (operator_type n) vs = Some v.
Proof.
  split.
  - intros H. unfold evaluate in H. destruct (base.size h) as [|f] eqn:E; [done|].
    apply eval_S in H as (n & vs & Hn & Hvs & H). exists n, vs. split_and!; [done| |done].
    eapply mapM_mono; [|done]. intros y w _. apply eval_evaluate.
  - intros (n & vs & Hn & Hvs & H). apply (eval_evaluate (S (base.size h))). apply eval_S.
    by exists n, vs.
Qed.
End eval.

(** Two families of functions that agree on an operator agree on a graph. *)
Lemma eval_related {A B} (implA : operator → list A → option A)
    (implB : operator → list B → option B) (R : A → B → Prop) :
  (∀ op vs ws v, Forall2 R vs ws → implA op vs = Some v →
    ∃ w, implB op ws = Some w ∧ R v w) →
  ∀ h x v, evaluate implA h x = Some v → ∃ w, evaluate implB h x = Some w ∧ R v w.
Proof.
  intros HR h x v. unfold evaluate at 1. generalize (base.size h) at 1. intros f.
  revert x v. induction f as [|f IH]; intros x v; [done|]. rewrite eval_S.
  intros (n & vs & Hn & Hvs & H). apply mapM_Some in Hvs.
  assert (∃ ws, mapM (evaluate implB h) (inputs n) = Some ws ∧ Forall2 R vs ws) as (ws & Hws & HRs).
  { clear H. induction Hvs as [|y w ys vs' Hy _ IHl]; [by exists []|].
    destruct (IH y w Hy) as (w' & Hw' & ?). destruct IHl as (ws & Hws & ?).
    exists (w' :: ws). cbn. rewrite Hw'. cbn. rewrite Hws. split; [done|by constructor]. }
  destruct (HR _ _ _ _ HRs H) as (w & Hw & ?). exists w. split; [|done].
  apply evaluate_unfold. by exists n, ws.
Qed.

(** A property that every operator of the graph preserves holds of every value. *)
Lemma evaluate_invariant {A} (impl : operator → list A → option A) (ok : operator → Prop)
    (Q : A → Prop) (h : heap) :
  (∀ op vs v, ok op → Forall Q vs → impl op vs = Some v → Q v) →
  (∀ x n, h !! x = Some n → ok (operator_type n)) →
  ∀ x v, evaluate impl h x = Some v → Q v.
Proof.
  intros Hstep Hok x v. unfold evaluate. generalize (base.size h). intros f.
  revert x v. induction f as [|f IH]; intros x v; [done|]. rewrite eval_S.
  intros (n & vs & Hn & Hvs & H). eapply Hstep; [by eapply Hok| |done].
  apply mapM_Some in Hvs. clear H. induction Hvs; constructor; eauto.
Qed.

(** ** Rows in lockstep *)

Lemma lockstep_Some F ts u :
  lockstep F ts = Some u ↔
  ts ≠ [] ∧ Forall (λ t, length t = length u) ts ∧
  ∀ k r, u !! k = Some r → ∃ rs, mapM (λ t, t !! k) ts = Some rs ∧ F rs = Some r.
Proof.
  unfold lockstep. destruct ts as [|t ts]; [by split; [done|intros [[] _]]|]. set (l := t :: ts).
  assert (length t = length u →
    forallb (λ w : table, length w =? length t)%nat l = true ↔
    Forall (λ w : table, length w = length u) l) as Hall.
  { intros ->. rewrite forallb_forall, Forall_forall. setoid_rewrite list_elem_of_In.
    setoid_rewrite Nat.eqb_eq. done. }
  split.
  - case_match eqn:E; [|done]. intros H. pose proof (length_mapM _ _ _ H) as Hlen.
    rewrite length_seq in Hlen. split_and!; [done|by apply Hall|].
    intros k r Hk. apply mapM_Some_1 in H.
    destruct (Forall2_lookup_r _ _ _ _ _ H Hk) as (k' & Hk' & Hr).
    apply lookup_seq in Hk' as [-> _]. apply bind_Some in Hr as (rs & ? & ?). by exists rs.
  - intros (_ & Hl & Hrow). assert (length t = length u) as Hlen by by inversion Hl.
    rewrite (proj2 (Hall Hlen) Hl). apply mapM_Some, Forall2_same_length_lookup_2.
    { by rewrite length_seq. }
    intros i k r Hk Hr. apply lookup_seq in Hk as [-> _].
    apply bind_Some. destruct (Hrow _ _ Hr) as (rs & ? & ?). by exists rs.
Qed.

Lemma inputs_match_true op n :
  inputs_match op n = true ↔
  let k := num_inputs (planner_node_type_to_attributes (type_of op)) in k < 0 ∨ Z.of_nat n = k.
Proof. unfold inputs_match. cbn zeta. by rewrite orb_true_iff, Z.ltb_lt, Z.eqb_eq. Qed.

Lemma denote_linear {SA : SoftAssign} op ts t :
  is_linear_transform (type_of op) = true →
  denote_impl op ts = Some t ↔
  inputs_match op (length ts) = true ∧ lockstep (linear_row op) ts = Some t.
Proof.
  intros Hlin. trans ((if is_linear_transform (type_of op) && inputs_match op (length ts)
    then lockstep (linear_row op) ts else None) = Some t).
  - by destruct op; try discriminate Hlin; destruct ts as [|? [|? []]].
  - rewrite Hlin. cbn [andb]. destruct (inputs_match op (length ts)); naive_solver.
Qed.

Lemma filter_rows_app a b m n u v :
  filter_rows a m = Some u → filter_rows b n = Some v → filter_rows (a ++ b) (m ++ n) = Some (u ++ v).
Proof.
  revert m u. induction a as [|r a IH]; intros [|x m] u; cbn; try done.
  { intros [= <-]. done. }
  destruct (selected x) as [s|]; [|done]. cbn. destruct (filter_rows a m) eqn:E; [|done]. cbn.
  intros [= <-] Hb. rewrite (IH _ _ E Hb). by destruct s.
Qed.

Lemma filter_rows_length a m u : filter_rows a m = Some u → length a = length m.
Proof.
  revert m u. induction a as [|r a IH]; intros [|x m] u; cbn; try done.
  destruct (selected x) as [s|]; [|done]. cbn. destruct (filter_rows a m) eqn:E; [|done].
  intros _. f_equal. eauto.
Qed.

Lemma filter_rows_elem a m u r : filter_rows a m = Some u → r ∈ u → r ∈ a.
Proof.
  revert m u. induction a as [|r' a IH]; intros [|x m] u; cbn; try done.
  { by intros [= <-]. }
  destruct (selected x) as [s|]; [|done]. cbn. destruct (filter_rows a m) eqn:E; [|done]. cbn.
  intros [= <-]. destruct s; [intros [->|?]%elem_of_cons; [left|]|intros ?]; right; eauto.
Qed.

(** ** Sources *)

(** The columns of a frame have one length. *)
Definition columns_agree (sf : sframe) : Prop :=
  Forall (λ sa, length (sa_data sa) = num_rows sf) sf.

Lemma open_for_read_Some sf sf' : open_for_read sf = Some sf' ↔ sf' = sf ∧ columns_agree sf.
Proof.
  unfold open_for_read, columns_agree. rewrite Forall_forall. setoid_rewrite list_elem_of_In.
  pose proof (forallb_forall (λ sa, length (sa_data sa) =? num_rows sf)%nat sf) as H.
  setoid_rewrite Nat.eqb_eq in H. case_match; split.
  - intros [= <-]. split; [done|by apply H].
  - by intros [-> _].
  - done.
  - intros [_ Hall]. by apply H in Hall.
Qed.

Lemma read_rows_Some sf b e t :
  read_rows sf b e = Some t ↔
  columns_agree sf ∧ 0 ≤ b ≤ e ∧ e ≤ Z.of_nat (num_rows sf) ∧
  mapM (row_at sf) (seqZ b (e - b)) = Some t.
Proof.
  unfold read_rows.
  set (c := (0 <=? b) && (b <=? e) && (e <=? Z.of_nat (num_rows sf))).
  assert (c = true ↔ 0 ≤ b ≤ e ∧ e ≤ Z.of_nat (num_rows sf)) as Hc.
  { unfold c. rewrite !andb_true_iff, !Z.leb_le. tauto. }
  split.
  - intros (sf' & [-> Ha]%open_for_read_Some & H)%bind_Some. fold c in H.
    destruct c; [|done]. destruct (proj1 Hc eq_refl). split_and!; (done || lia).
  - intros (Ha & Hb & He & H). apply bind_Some. exists sf.
    split; [by apply open_for_read_Some|]. fold c. by rewrite (proj2 Hc).
Qed.

Lemma read_rows_length sf b e t : read_rows sf b e = Some t → Z.of_nat (length t) = e - b.
Proof.
  intros (_ & ? & ? & H)%read_rows_Some. rewrite <- (length_mapM _ _ _ H), length_seqZ. lia.
Qed.

(** ** Types *)

Lemma infer_linear_row_cases op types tys :
  infer_type_impl op types = Some tys → is_linear_transform (type_of op) = true →
  match op with
  | op_binary_transform _ ty | op_transform _ ty | op_lambda_transform _ ty => tys = [ty]
  | op_generalized_transform _ ts => tys = ts
  | op_project l => ∃ t, head types = Some t ∧ mapM (λ i, t !! i) l = Some tys
  | op_union => types ≠ [] ∧ tys = concat types
  | op_union_project m => types ≠ [] ∧ mapM (λ p, t ← types !! p.1; t !! p.2) m = Some tys
  | _ => False
  end.
Proof.
  unfold infer_type_impl, project_infer_type, union_infer_type, union_project_infer_type.
  destruct op; cbn; intros H Hl; try discriminate Hl; simplify_option_eq; try done.
  - eauto.
  - by destruct types; simplify_eq.
  - by destruct types; simplify_eq.
Qed.

(** [mapM] of lookups in two aligned lists. *)
Lemma mapM_lookup_Forall2 {A B} (P : A → B → Prop) (l : list A) (k : list B) idx l' k' :
  Forall2 P l k → mapM (λ i, l !! i) idx = Some l' → mapM (λ i, k !! i) idx = Some k' →
  Forall2 P l' k'.
Proof.
  intros HP. revert l' k'. induction idx as [|i idx IH]; intros l' k'; cbn.
  { intros [= <-] [= <-]. constructor. }
  intros H H'. apply bind_Some in H as (x & Hx & (l1 & H1 & [= <-])%bind_Some).
  apply bind_Some in H' as (y & Hy & (k1 & H2 & [= <-])%bind_Some).
  constructor; [by eapply Forall2_lookup_lr|eauto].
Qed.

Section typed.
Context {SA : SoftAssign} (P : flex_type_enum → flexible_type → Prop).
Hypothesis convert_typed : ∀ t v w, convert t v = Some w → P t w.
Hypothesis convert_value_typed : ∀ t v w, convert_value_to_output_type t v = Some w → P t w.

(** What is not checked when the plan runs: the values of sources and constants, and the
    results of binary functions and aggregators. *)
Definition op_typed (op : operator) : Prop :=
  match op with
  | op_constant v type _ _ => P type v
  | op_sarray_source sa _ _ => Forall (P (sa_type sa)) (sa_data sa)
  | op_sframe_source sf _ _ => Forall (λ sa, Forall (P (sa_type sa)) (sa_data sa)) sf
  | op_binary_transform f ty => ∀ a b v, f a b = Some v → P ty v
  | op_reduce f ty => ∀ t v, f t = Some v → P ty v
  | _ => True
  end.

Lemma type_check_inplace_typed typelist r r' :
  type_check_inplace typelist r = Some r' → Forall2 P typelist r'.
Proof.
  revert r r'. induction typelist as [|t l IH]; intros [|v r] r'; cbn; try done.
  { intros [= <-]. constructor. }
  intros (w & Hw & (r1 & H1 & [= <-])%bind_Some)%bind_Some. constructor; [by eapply convert_typed|eauto].
Qed.

Lemma linear_row_typed op types tys rs r :
  op_typed op → infer_type_impl op types = Some tys → is_linear_transform (type_of op) = true →
  Forall2 (Forall2 P) types rs → linear_row op rs = Some r → Forall2 P tys r.
Proof.
  intros Hop Hinf Hlin Hrs. pose proof (infer_linear_row_cases _ _ _ Hinf Hlin) as Hc.
  destruct op; try discriminate Hlin; cbn in *; subst.
  - destruct rs as [|[|a []] [|[|b []] []]]; try done. intros H.
    apply bind_Some in H as (v & Hv & [= <-]). repeat constructor. eauto.
  - destruct Hc as (t & Ht & Hm). destruct rs as [|r1 []]; try done.
    destruct indices as [|i l]; [done|]. intros H. inversion Hrs; simplify_eq/=.
    by eapply (mapM_lookup_Forall2 P t r1 (i :: l)).
  - destruct rs as [|r1 []]; try done. intros H.
    apply bind_Some in H as (v & Hv & (w & Hw & [= <-])%bind_Some). repeat constructor. eauto.
  - destruct rs as [|r1 []]; try done. intros H.
    apply bind_Some in H as (v & Hv & (w & Hw & [= <-])%bind_Some). repeat constructor. eauto.
  - destruct rs as [|r1 []]; try done. intros H. apply bind_Some in H as (v & Hv & H).
    by eapply type_check_inplace_typed.
  - intros [= <-]. destruct Hc as [_ ->]. clear -Hrs. induction Hrs; cbn; [constructor|].
    by apply Forall2_app.
  - destruct Hc as [_ Hm]. intros H. clear Hinf. revert tys r Hm H.
    induction index_map as [|[i j] l IH]; cbn; intros tys r Hm H.
    { injection Hm as <-. injection H as <-. constructor. }
    apply bind_Some in Hm as (x & (tx & Hx1 & Hx2)%bind_Some & (l1 & H1 & [= <-])%bind_Some).
    apply bind_Some in H as (y & (ry & Hy1 & Hy2)%bind_Some & (k1 & H2 & [= <-])%bind_Some).
    constructor; [|by apply IH].
    eapply Forall2_lookup_lr; [|done|done]. by eapply (Forall2_lookup_lr (Forall2 P)).
Qed.

Lemma row_at_typed sf i r :
  Forall (λ sa, Forall (P (sa_type sa)) (sa_data sa)) sf → row_at sf i = Some r →
  Forall2 P (map sa_type sf) r.
Proof.
  intros Hsf. unfold row_at. revert r. induction Hsf as [|sa sf Hsa _ IH]; intros r; cbn.
  { intros [= <-]. constructor. }
  intros (v & Hv & (l & Hl & [= <-])%bind_Some)%bind_Some. constructor; [|eauto].
  by eapply Forall_lookup_1.
Qed.

Lemma read_rows_typed sf b e t :
  Forall (λ sa, Forall (P (sa_type sa)) (sa_data sa)) sf → read_rows sf b e = Some t →
  Forall (Forall2 P (map sa_type sf)) t.
Proof.
  intros Hsf (_ & _ & _ & H)%read_rows_Some. apply mapM_Some in H. clear -Hsf H.
  induction H; constructor; [by eapply row_at_typed|done].
Qed.

Lemma mapM_lookup_rows {A} (ts : list (list A)) k rs (Q : list A → A → Prop) :
  (∀ t r, t ∈ ts → t !! k = Some r → Q t r) → mapM (λ t, t !! k) ts = Some rs → Forall2 Q ts rs.
Proof.
  intros HQ H. apply mapM_Some in H. induction H; constructor.
  - apply HQ; [left|done].
  - apply IHForall2. intros. apply HQ; [by right|done].
Qed.

Lemma lockstep_typed op types ts tys u :
  op_typed op → infer_type_impl op types = Some tys → is_linear_transform (type_of op) = true →
  Forall2 (λ tys t, Forall (Forall2 P tys) t) types ts → lockstep (linear_row op) ts = Some u →
  Forall (Forall2 P tys) u.
Proof.
  intros Hop Hinf Hlin Hts (_ & _ & Hrow)%lockstep_Some.
  apply Forall_lookup_2. intros k r Hk. destruct (Hrow k r Hk) as (rs & Hrs & Hr).
  eapply linear_row_typed; [done..| |done]. apply mapM_Some in Hrs. clear -Hts Hrs.
  revert types Hts. induction Hrs as [|t r ts rs Ht _ IH]; intros [|ty types] Hts;
    inversion Hts; subst; constructor; [|by apply IH]. by eapply (Forall_lookup_1 (Forall2 P ty)).
Qed.

Definition well_typed (v : ttable) : Prop := Forall (Forall2 P v.1) v.2.

Lemma plan_impl_Some op vs v :
  plan_impl op vs = Some v ↔
  infer_type_impl op (vs.*1) = Some v.1 ∧ denote_impl op (vs.*2) = Some v.2 ∧ v.1 ≠ [].
Proof.
  unfold plan_impl. split.
  - intros (types & Ht & (t & Hd & H)%bind_Some)%bind_Some. destruct types; [done|].
    by injection H as <-.
  - destruct v as [types t]; cbn. intros (-> & -> & ?). cbn. by destruct types.
Qed.

Lemma plan_impl_typed op vs v :
  op_typed op → Forall well_typed vs → plan_impl op vs = Some v → well_typed v.
Proof.
  intros Hop Hvs (Hinf & Hden & _)%plan_impl_Some.
  destruct (is_linear_transform (type_of op)) eqn:Hlin.
  { apply denote_linear in Hden as [_ Hl]; [|done].
    eapply lockstep_typed; [done..| |done]. clear -Hvs.
    induction Hvs; cbn; constructor; done. }
  unfold well_typed. destruct v as [tys u]. destruct op; try discriminate Hlin; cbn in *.
  - destruct (vs.*2); [|done]. case_match; simplify_eq. apply Forall_replicate. by repeat constructor.
  - destruct vs as [|[ta a] [|[tb b] []]]; try done. cbn in *.
    destruct (bool_decide_reflect (tb = ta)); simplify_eq/=. inversion Hvs as [|?? Ha Hvs']; inversion Hvs'; subst.
    apply Forall_app. done.
  - destruct vs as [|[ta a] [|[tb b] []]]; try done. cbn in *. simplify_eq.
    inversion Hvs as [|?? Ha _]; subst. apply Forall_forall. intros r Hr.
    eapply Forall_forall; [exact Ha|]. by eapply filter_rows_elem.
  - done.
  - destruct (vs.*2); [|done]. simplify_eq. by apply (read_rows_typed [sa] begin_index end_index); [apply Forall_singleton|].
  - destruct (vs.*2); [|done]. simplify_eq. by eapply read_rows_typed.
  - destruct (vs.*2) as [|t []]; try done. apply bind_Some in Hden as (x & Hx & [= <-]).
    simplify_eq. repeat constructor. eauto.
  - destruct vs as [|[ta a] []]; try done. cbn in *. simplify_eq. by inversion Hvs.
Qed.

(** Every value of a node's table has the type that is inferred for its column. *)
Lemma denote_typed (h : heap) :
  (∀ x n, h !! x = Some n → op_typed (operator_type n)) →
  ∀ x v, denote h x = Some v → well_typed v.
Proof. intros Hop x v. eapply evaluate_invariant; [apply plan_impl_typed|done]. Qed.
End typed.

(** The type of a column: UNDEFINED announces nothing, and any value may be missing. *)
Definition fits (t : flex_type_enum) (v : flexible_type) : Prop :=
  t = UNDEFINED ∨ get_type v = t ∨ get_type v = UNDEFINED.

#[global] Instance fits_dec t v : Decision (fits t v).
Proof. unfold fits. apply _. Defined.

(** What the planner needs of [soft_assign]. *)
Class SoftAssignTyped {SA : SoftAssign} : Prop :=
  soft_assign_keeps_type : ∀ t u v, soft_assign t u = Ok v → get_type v = get_type t.

Section fits.
Context {SA : SoftAssign}.

Lemma convert_fits {ST : SoftAssignTyped} t v w : convert t v = Some w → fits t w.
Proof.
  unfold convert, fits. repeat case_bool_decide; cbn; try (intros [= <-]; auto; fail).
  destruct (soft_assign (reset t) v) as [x| |] eqn:E; intros [= <-].
  apply soft_assign_keeps_type in E. rewrite get_type_reset in E. auto.
Qed.

Lemma convert_value_fits {ST : SoftAssignTyped} t v w :
  convert_value_to_output_type t v = Some w → fits t w.
Proof.
  unfold convert_value_to_output_type, fits.
  case_match eqn:E1.
  { intros [= <-]. rewrite !orb_true_iff, !bool_decide_eq_true in E1. tauto. }
  case_match eqn:E2; [|done].
  destruct (soft_assign (reset t) v) as [x| |] eqn:E; intros [= <-].
  apply soft_assign_keeps_type in E. rewrite get_type_reset in E. auto.
Qed.

(** Rows are as wide as the inferred types, whatever the operators do. *)
Definition wide (v : ttable) : Prop := Forall (λ r, length r = length v.1) v.2.

Lemma wide_typed v : wide v ↔ well_typed (λ _ _, True) v.
Proof.
  destruct v as [types t]. unfold wide, well_typed. cbn.
  assert (∀ r : row, length r = length types ↔ Forall2 (λ _ _, True) types r) as H.
  { intros r. split; [|intros Hr; symmetry; by eapply Forall2_length].
    intros Hr. by apply Forall2_true. }
  rewrite !Forall_forall. by setoid_rewrite H.
Qed.

Lemma plan_impl_wide op vs v : Forall wide vs → plan_impl op vs = Some v → wide v.
Proof.
  intros Hvs H. apply wide_typed. eapply (plan_impl_typed (λ _ _, True)); [done|done| | |done].
  - by destruct op; cbn; auto using Forall_true.
  - eapply Forall_impl; [done|]. intros. by apply wide_typed.
Qed.

Lemma denote_wide (h : heap) x v : denote h x = Some v → wide v.
Proof.
  eapply (evaluate_invariant _ (λ _, True)); [|done]. intros op vs w _. apply plan_impl_wide.
Qed.

(** ** The inferred type and length *)

Lemma denote_type (h : heap) x v :
  denote h x = Some v → infer_planner_node_type h x = Some v.1.
Proof.
  intros H. destruct (eval_related plan_impl infer_type_impl (λ v t, t = v.1)) with (h := h) (x := x) (v := v)
    as (w & Hw & ->); [|done|done].
  intros op vs ws u Hvs (Hinf & _)%plan_impl_Some. exists (u.1). split; [|done].
  replace ws with (vs.*1); [done|]. clear Hinf. induction Hvs; cbn; congruence.
Qed.

Lemma denote_columns (h : heap) x v :
  denote h x = Some v → infer_planner_node_num_output_columns h x = Some (length (v.1)).
Proof. intros H. unfold infer_planner_node_num_output_columns. by rewrite (denote_type _ _ _ H). Qed.

(** -1 says that the length is not known. *)
Definition length_ok (v : ttable) (l : Z) : Prop := l = -1 ∨ l = Z.of_nat (length v.2).

Lemma plan_impl_length op vs ls v :
  Forall2 length_ok vs ls → plan_impl op vs = Some v →
  ∃ l, infer_length_impl op ls = Some l ∧ length_ok v l.
Proof.
  intros Hls (_ & Hden & _)%plan_impl_Some. destruct v as [types u]. cbn in Hden.
  destruct (is_linear_transform (type_of op)) eqn:Hlin.
  { apply denote_linear in Hden as [_ (Hne & Hlen & _)%lockstep_Some]; [|done].
    destruct Hls as [|[tv t] l vs ls Hl Hls]; [done|]. inversion Hlen as [|?? Hlt _]; subst.
    exists l. split; [by destruct op|]. unfold length_ok in *. cbn in *. by rewrite <- Hlt. }
  destruct op; try discriminate Hlin; cbn in *.
  - destruct (vs.*2); [|done]. case_match; simplify_eq.
    eexists. split; [done|]. right. cbn. rewrite length_replicate. lia.
  - destruct vs as [|[ta a] [|[tb b] []]]; try done. cbn in *. simplify_eq.
    inversion Hls as [|? la ? lsa Ha Hls']; inversion Hls' as [|? lb ? lsb Hb Hls'']; subst.
    inversion Hls''; subst. eexists. split; [done|]. unfold length_ok in *. cbn in *.
    rewrite length_app. repeat case_match; [by left|by left|]. right. lia.
  - eexists. split; [done|]. by left.
  - done.
  - destruct (vs.*2); [|done]. apply read_rows_length in Hden. eexists. split; [done|]. by right.
  - destruct (vs.*2); [|done]. apply read_rows_length in Hden. eexists. split; [done|]. by right.
  - eexists. split; [done|]. by left.
  - destruct vs as [|[ta a] []]; try done. cbn in *. simplify_eq.
    inversion Hls as [|? la ? lsa Ha Hls']; inversion Hls'; subst. by exists la.
Qed.

Lemma denote_length (h : heap) x v :
  denote h x = Some v → ∃ l, infer_planner_node_length h x = Some l ∧ length_ok v l.
Proof. apply eval_related. intros op vs ls w. apply plan_impl_length. Qed.
End fits.

End QueryPlanSpec.
