(* ===== verification/QueryGraph.v ===== *)
(** The graph that the optimizer works on (planning/optimization_engine.cpp,
    optimization_node_info.hpp): a [node_info] per planner node with edges both ways, and the
    operations that keep it: building it, replacing a node, pruning what is orphaned. *)
From S2P Require Import Prelude FlexType FlexOps QueryPlan.
Import FlexType FlexOps QueryPlan.
Local Open Scope Z_scope.
Local Open Scope sframe_scope.

Module QueryGraph.

(** A [node_info] has the address of its planner node ([node_lookups] is one-to-one). *)
Record node_info := NodeInfo {
  ni_inputs : list nat;
  ni_outputs : list nat;
  node_discarded : bool;
}.
Abbreviation lookups := (gmap nat node_info).

Definition set_inputs (l : list nat) (i : node_info) : node_info :=
  NodeInfo l (ni_outputs i) (node_discarded i).
Definition set_outputs (l : list nat) (i : node_info) : node_info :=
  NodeInfo (ni_inputs i) l (node_discarded i).

(** A loop that may stop with an exception. *)
Fixpoint fold_option {A B} (f : B → A → option B) (l : list A) (b : B) : option B :=
  match l with [] => Some b | x :: l => b ← f b x; fold_option f l b end.

(** ** [build_node_info] *)

(** [ret->inputs[i] = n_in; n_in->outputs.push_back(ret)]. *)
Definition link (ret : nat) (L : lookups) (n_in : nat) : lookups :=
  alter (λ i, set_outputs (ni_outputs i ++ [ret]) i) n_in
    (alter (λ i, set_inputs (ni_inputs i ++ [n_in]) i) ret L).

Fixpoint build_node_info (fuel : nat) (h : heap) (p : nat) (L : lookups) : option lookups :=
  match fuel with
  | O => None
  | S fuel =>
      match L !! p with
      | Some _ => Some L
      | None =>
          n ← h !! p;
          fold_option (λ L i, L ← build_node_info fuel h i L; Some (link p L i)) (inputs n)
            (<[p := NodeInfo [] [] false]> L)
      end
  end.

(** ** [eliminate_node_and_prune]

    The loop over the inputs of a discarded node; an input whose last output goes is eliminated
    in turn. *)
Fixpoint erase_first (x : nat) (l : list nat) : list nat :=
  match l with [] => [] | y :: l => if y =? x then l else y :: erase_first x l end%nat.

Fixpoint eliminate_inputs (fuel : nat) (n : nat) (L : lookups) : option lookups :=
  match fuel with
  | O => None
  | S fuel =>
      i ← L !! n;
      match last (ni_inputs i) with
      | None => Some L
      | Some n_in =>
          let L := <[n := set_inputs (removelast (ni_inputs i)) i]> L in
          j ← L !! n_in;
          match ni_outputs j with
          | [o] =>
              if (o =? n)%nat then
                L ← eliminate_inputs fuel n_in (<[n_in := NodeInfo (ni_inputs j) [] true]> L);
                eliminate_inputs fuel n L
              else eliminate_inputs fuel n L
          | os => eliminate_inputs fuel n (<[n_in := set_outputs (erase_first n os) j]> L)
          end
      end
  end.

(** The edges that are left to remove. *)
Definition edges (L : lookups) : nat := map_fold (λ _ i acc, length (ni_inputs i) + acc)%nat 0%nat L.

Definition eliminate_node_and_prune (n : nat) (L : lookups) : option lookups :=
  let L := alter (λ i, NodeInfo (ni_inputs i) (ni_outputs i) true) n L in
  eliminate_inputs (S (edges L)) n L.

(** ** [replace_node] *)

(** New planner nodes over known ones. *)
Inductive plan := Old (x : nat) | New (op : operator) (ts : list plan).

(** [make_planner_node]: unions have an input. *)
Definition inputs_allowed {A} (op : operator) (l : list A) : bool :=
  match op, l with (op_union | op_union_project _), [] => false | _, _ => true end.

Fixpoint make_planner_node (t : plan) (h : heap) : option (heap * nat) :=
  match t with
  | Old x => Some (h, x)
  | New op ts =>
      '(h, xs) ← (fix make_all (ts : list plan) (h : heap) : option (heap * list nat) :=
        match ts with
        | [] => Some (h, [])
        | t :: ts =>
            '(h, x) ← make_planner_node t h; '(h, xs) ← make_all ts h; Some (h, x :: xs)
        end) ts h;
      if inputs_allowed op xs then
        let x := fresh (dom h) in Some (<[x := PNode op xs]> h, x)
      else None
  end.

(** The first place where [n_out] reads the old node now reads the new one, in the
    [node_info] and in the planner node. *)
Definition redirect_output (old rep : nat) (s : heap * lookups) (n_out : nat) : option (heap * lookups) :=
  i ← s.2 !! n_out;
  match list_find (old =.) (ni_inputs i) with
  | None => Some s
  | Some (k, _) =>
      n ← s.1 !! n_out;
      Some (<[n_out := PNode (operator_type n) (<[k := rep]> (inputs n))]> s.1,
            <[n_out := set_inputs (<[k := rep]> (ni_inputs i)) i]> s.2)
  end.

(** The state of [optimization_engine] that the transforms see and change. *)
Record engine := Engine {
  nodes : heap;
  node_lookups : lookups;
  active_nodes : list nat;
}.

Section engine.
(** [stage_type_active_mask]. *)
Context (mask : planner_node_type → bool).

Definition mark_node_as_active (h : heap) (active : list nat) (n : nat) : list nat :=
  match h !! n with
  | Some p => if mask (type_of (operator_type p)) then active ++ [n] else active
  | None => active
  end.

Definition replace_node (old : nat) (t : plan) (e : engine) : option engine :=
  i ← node_lookups e !! old;
  '(h, new) ← make_planner_node t (nodes e);
  if node_discarded i || (old =? new)%nat then Some (Engine h (node_lookups e) (active_nodes e))
  else
    L ← build_node_info (S (base.size h)) h old (node_lookups e);
    L ← build_node_info (S (base.size h)) h new L;
    i ← L !! old; r ← L !! new;
    let L := <[new := set_outputs (ni_outputs r ++ ni_outputs i) r]> L in
    '(h, L) ← fold_option (redirect_output old new) (ni_outputs i) (h, L);
    L ← eliminate_node_and_prune old (alter (set_outputs []) old L);
    r ← L !! new;
    Some (Engine h L
      (mark_node_as_active h
        (foldl (mark_node_as_active h)
          (foldl (mark_node_as_active h) (active_nodes e) (ni_inputs r)) (ni_outputs r)) new)).
End engine.

End QueryGraph.
