(* ===== verification/QueryGraphSpec.v ===== *)
(** Replacing a node by a plan with the same value leaves the value of every node as it was,
    and keeps the graph consistent; pruning ends. *)
From S2P Require Import Prelude FlexType FlexOps QueryPlan QueryPlanSpec QueryGraph.
Import FlexType FlexOps QueryPlan QueryPlanSpec QueryGraph.
Local Open Scope Z_scope.
Local Open Scope sframe_scope.

Module QueryGraphSpec.

Lemma plan_ind' (P : plan → Prop) :
  (∀ x, P (Old x)) → (∀ op ts, Forall P ts → P (New op ts)) → ∀ t, P t.
Proof.
  intros Hold Hnew. fix IH 1. intros [x|op ts]; [apply Hold|]. apply Hnew.
  induction ts as [|t ts IHts]; constructor; [apply IH|done].
Qed.

(** The nodes a new plan is built over. *)
Fixpoint leaves (t : plan) : list nat :=
  match t with Old x => [x] | New _ ts => concat (map leaves ts) end.

(** [make_planner_node] on the inputs of a node. *)
Definition make_all (ts : list plan) (h : heap) : option (heap * list nat) :=
  (fix make_all (ts : list plan) (h : heap) : option (heap * list nat) :=
    match ts with
    | [] => Some (h, [])
    | t :: ts =>
        '(h, x) ← make_planner_node t h; '(h, xs) ← make_all ts h; Some (h, x :: xs)
    end) ts h.

Lemma make_all_cons t ts h h2 l :
  make_all (t :: ts) h = Some (h2, l) ↔
  ∃ h1 x xs, make_planner_node t h = Some (h1, x) ∧ make_all ts h1 = Some (h2, xs) ∧ l = x :: xs.
Proof.
  cbn. split.
  - intros ([h1 x] & Hx & ([h3 xs] & Hxs & [= <- <-])%bind_Some)%bind_Some. by exists h1, x, xs.
  - intros (h1 & x & xs & -> & Hxs & ->). cbn. unfold make_all in Hxs. by rewrite Hxs.
Qed.

Lemma make_planner_node_New op ts h h2 x :
  make_planner_node (New op ts) h = Some (h2, x) ↔
  ∃ h1 xs, make_all ts h = Some (h1, xs) ∧ inputs_allowed op xs = true ∧
    x = fresh (dom h1) ∧ h2 = <[x := PNode op xs]> h1.
Proof.
  cbn. fold (make_all ts h). split.
  - intros ([h1 xs] & Hxs & H)%bind_Some. exists h1, xs. case_match; simplify_eq. done.
  - intros (h1 & xs & -> & Hal & -> & ->). cbn. by rewrite Hal.
Qed.

Lemma fresh_lookup (h : heap) : h !! fresh (dom h) = None.
Proof. apply not_elem_of_dom, is_fresh. Qed.

(** ** The heap only grows *)

Lemma make_planner_node_grows t h h' x : make_planner_node t h = Some (h', x) → h ⊆ h'.
Proof.
  revert h h' x. induction t as [y|op ts IH] using plan_ind'; intros h h' x.
  { cbn. by intros [= <- <-]. }
  rewrite make_planner_node_New. intros (h1 & xs & Hxs & _ & -> & ->).
  trans h1; [|apply insert_subseteq, fresh_lookup]. revert h xs Hxs.
  induction IH as [|t ts Ht _ IHts]; intros h xs; [by intros [= <- <-]|].
  rewrite make_all_cons. intros (h2 & y & ys & Hy & Hys & _). trans h2; eauto.
Qed.

Lemma make_all_grows ts h h' xs : make_all ts h = Some (h', xs) → h ⊆ h'.
Proof.
  revert h xs. induction ts as [|t ts IH]; intros h xs; [by intros [= <- <-]|].
  rewrite make_all_cons. intros (h2 & y & ys & Hy & Hys & _).
  trans h2; [by eapply make_planner_node_grows|eauto].
Qed.

Section value.
Context {A : Type} (impl : operator → list A → option A).

Lemma evaluate_grows (h h' : heap) x v :
  h ⊆ h' → evaluate impl h x = Some v → evaluate impl h' x = Some v.
Proof.
  intros Hh. unfold evaluate at 1. generalize (base.size h). intros f.
  revert x v. induction f as [|f IH]; intros x v; [done|]. rewrite eval_S.
  intros (n & vs & Hn & Hvs & H). apply evaluate_unfold. exists n, vs.
  split_and!; [by eapply lookup_weaken| |done]. eapply mapM_mono; [|done]. eauto.
Qed.

(** The value of a plan over nodes with values [val]. *)
Fixpoint eval_plan (val : nat → option A) (t : plan) : option A :=
  match t with
  | Old x => val x
  | New op ts => vs ← mapM (eval_plan val) ts; impl op vs
  end.

Lemma eval_plan_grows h h' t v :
  h ⊆ h' → eval_plan (evaluate impl h) t = Some v → eval_plan (evaluate impl h') t = Some v.
Proof.
  intros Hh. revert v. induction t as [x|op ts IH] using plan_ind'; intros v; cbn.
  { by apply evaluate_grows. }
  intros (vs & Hvs & H)%bind_Some. apply bind_Some. exists vs. split; [|done].
  eapply mapM_mono; [|done]. intros t w Ht. rewrite Forall_forall in IH. by apply IH.
Qed.

(** The new planner nodes have the value of the plan in any heap that keeps the nodes over
    [ok] inputs, when the leaves have their values there. *)
Lemma make_planner_node_value_in (ok : nat → Prop) val t h hf h2 h' x v :
  (∀ y, y ∉ dom h → ok y) → (∀ y, y ∈ leaves t → ok y) →
  (∀ y w, y ∈ leaves t → val y = Some w → evaluate impl h2 y = Some w) →
  h' ⊆ hf → (∀ y n, hf !! y = Some n → Forall ok (inputs n) → h2 !! y = Some n) →
  make_planner_node t h = Some (h', x) → eval_plan val t = Some v →
  ok x ∧ evaluate impl h2 x = Some v.
Proof.
  intros Hok Hleaves Hval Hhf Hkeep. revert h h' x v Hok Hhf.
  induction t as [y|op ts IH] using plan_ind'; intros h h' x v Hok Hhf.
  { cbn in *. intros [= <- <-] ?. split; [apply Hleaves|apply Hval; [|done]]; by left. }
  rewrite make_planner_node_New. intros (h1 & xs & Hxs & _ & -> & ->).
  cbn. intros (vs & Hvs & H)%bind_Some. apply mapM_Some in Hvs. set (x := fresh (dom h1)).
  pose proof (make_all_grows _ _ _ _ Hxs) as Hh1.
  assert (ok x) as Hx.
  { apply Hok. intros Hin. apply (is_fresh (dom h1)). by apply (subseteq_dom _ _ Hh1). }
  assert (h1 ⊆ hf) as Hhf1.
  { trans (<[x := PNode op xs]> h1); [|done]. apply insert_subseteq, fresh_lookup. }
  assert (Forall2 (λ y w, ok y ∧ evaluate impl h2 y = Some w) xs vs) as Hall.
  { clear H Hhf Hx x Hh1. revert h xs Hok Hxs. cbn in Hleaves, Hval.
    induction Hvs as [|t w ts vs Ht Hvs IHvs]; intros h xs Hok Hxs; [injection Hxs as <- <-; constructor|].
    apply make_all_cons in Hxs as (h3 & y & ys & Hy & Hys & ->).
    inversion_clear IH as [|?? IHt IHts]. cbn in Hleaves, Hval.
    pose proof (make_all_grows _ _ _ _ Hys). constructor.
    - eapply (IHt ltac:(set_solver) ltac:(set_solver) h h3 y); [done| |done|done]. by trans h1.
    - eapply (IHvs ltac:(set_solver) ltac:(set_solver) IHts h3); [|done]. intros z Hz. apply Hok.
      contradict Hz. eapply subseteq_dom; [|done]. by eapply make_planner_node_grows. }
  split; [done|]. apply evaluate_unfold. exists (PNode op xs), vs. split_and!; [|cbn|done].
  - apply Hkeep; [eapply lookup_weaken; [apply lookup_insert_eq|done]|]. cbn.
    clear -Hall. induction Hall; constructor; naive_solver.
  - apply mapM_Some. eapply Forall2_impl; [done|]. naive_solver.
Qed.

Lemma make_planner_node_value t h h' x v :
  make_planner_node t h = Some (h', x) → eval_plan (evaluate impl h) t = Some v →
  evaluate impl h' x = Some v.
Proof.
  intros Hmake Hv. eapply (make_planner_node_value_in (λ _, True) _ t h h'); [done..| |done|done|done|done].
  intros y w _. apply evaluate_grows. by eapply make_planner_node_grows.
Qed.

(** ** Redirecting the readers of a node *)

Definition redirected (old rep : nat) (h h' : heap) : Prop :=
  ∀ x n, h !! x = Some n → ∃ n', h' !! x = Some n' ∧ operator_type n' = operator_type n ∧
    Forall2 (λ i i', i' = i ∨ (i = old ∧ i' = rep)) (inputs n) (inputs n').

Lemma redirected_keeps old rep h h' x n :
  redirected old rep h h' → h !! x = Some n → Forall (λ y, y ≠ old) (inputs n) → h' !! x = Some n.
Proof.
  intros Hr Hn Hin. destruct (Hr x n Hn) as ([op' l'] & Hn' & Hop & Hl). cbn in *. subst op'.
  rewrite Hn'. f_equal. destruct n as [op l]. cbn in *. f_equal. symmetry.
  clear -Hin Hl. induction Hl; [done|]. inversion_clear Hin. f_equal; [naive_solver|eauto].
Qed.

(** The nodes strictly under a node. *)
Definition input_of (h : heap) (x y : nat) : Prop := ∃ n, h !! x = Some n ∧ y ∈ inputs n.
Definition below (h : heap) : nat → nat → Prop := tc (input_of h).

Lemma input_of_eval f h x y :
  input_of h x y → is_Some (eval impl (S f) h x) → is_Some (eval impl f h y).
Proof.
  intros (n & Hn & Hy) [v Hv]. apply eval_S in Hv as (n' & vs & ? & Hvs & _). simplify_eq.
  assert (is_Some (mapM (eval impl f h) (inputs n))) as Hs by by exists vs.
  apply mapM_is_Some in Hs. rewrite Forall_forall in Hs. by apply Hs.
Qed.

Lemma below_eval f h x y :
  below h x y → is_Some (eval impl (S f) h x) → is_Some (eval impl f h y).
Proof.
  intros Hb. revert f. induction Hb as [x y Hxy|x y z Hxy _ IH]; intros f Hs.
  - by eapply input_of_eval.
  - destruct f as [|f].
    + eapply input_of_eval in Hs; [|done]. by destruct Hs.
    + apply (input_of_eval _ _ _ y) in Hs; [|done]. apply IH in Hs as [v Hv].
      exists v. apply (eval_mono impl f); [lia|done].
Qed.

Section replace.
Context (h h1 h2 : heap) (old rep : nat) (t : plan) (v : A).
Hypothesis old_value : evaluate impl h old = Some v.
Hypothesis plan_value : eval_plan (evaluate impl h) t = Some v.
Hypothesis leaves_below : ∀ y, y ∈ leaves t → below h old y.
Hypothesis made : make_planner_node t h = Some (h1, rep).
Hypothesis redirected_to : redirected old rep h1 h2.

(** What evaluates with less fuel than the old node does not lie above it. *)
Lemma under_old f k x w :
  least impl f h old → (k < f)%nat → eval impl k h x = Some w → evaluate impl h2 x = Some w.
Proof.
  intros [_ Hmin] Hk Hx. revert x w Hk Hx. induction k as [|k IH]; intros x w Hk; [done|].
  rewrite eval_S. intros (n & vs & Hn & Hvs & H). apply evaluate_unfold. exists n, vs.
  split_and!; [|eapply mapM_mono; [|done]; intros y u _; apply IH; lia|done].
  eapply redirected_keeps; [done|eapply lookup_weaken; [done|by eapply make_planner_node_grows]|].
  apply Forall_forall. intros y Hy ->. apply mapM_Some in Hvs.
  apply list_elem_of_lookup_1 in Hy as (j & Hj).
  destruct (Forall2_lookup_l _ _ _ _ _ Hvs Hj) as (u & _ & Hu).
  rewrite Hmin in Hu; [done|lia].
Qed.

Lemma rep_value : evaluate impl h2 rep = Some v.
Proof.
  destruct (least_exists impl (base.size h) h old) as (f & _ & Hf); [by exists v|].
  destruct f as [|f]; [by destruct Hf as [[? ?] _]|].
  assert (old ∈ dom h) as Hold.
  { destruct Hf as [[w Hw] _]. apply eval_S in Hw as (n & _ & Hn & _). by eapply elem_of_dom_2. }
  assert (∀ y, y ∈ leaves t → is_Some (eval impl f h y)) as Hl.
  { intros y Hy. eapply below_eval; [by apply leaves_below|apply Hf]. }
  eapply (make_planner_node_value_in (λ y, y ≠ old) (evaluate impl h) t h h1); [..|done|done].
  - intros y Hy ->. done.
  - intros y Hy ->. destruct (Hl old Hy) as [w Hw]. destruct Hf as [_ Hmin].
    by rewrite Hmin in Hw by lia.
  - intros y w Hy Hw. destruct (Hl y Hy) as [w' Hw']. rewrite (eval_evaluate _ _ _ _ _ Hw') in Hw.
    injection Hw as <-. eapply under_old; [done| |done]. lia.
  - done.
  - intros y n Hn. by eapply redirected_keeps.
Qed.

Lemma replace_value x w : evaluate impl h1 x = Some w → evaluate impl h2 x = Some w.
Proof.
  unfold evaluate at 1. generalize (base.size h1). intros f. revert x w.
  induction f as [|f IH]; intros x w; [done|]. rewrite eval_S. intros (n & vs & Hn & Hvs & H).
  destruct (redirected_to x n Hn) as (n' & Hn' & Hop & Hin). apply evaluate_unfold.
  exists n', vs. split_and!; [done| |by rewrite Hop]. apply mapM_Some in Hvs. apply mapM_Some.
  clear H Hn Hn' Hop. revert vs Hvs. induction Hin as [|i i' l l' Hi _ IHl]; intros vs Hvs;
    inversion_clear Hvs as [|? u ? us Hu Hus]; constructor; [|by apply IHl].
  destruct Hi as [->|[-> ->]]; [by apply IH|]. apply eval_evaluate in Hu.
  rewrite rep_value, <- Hu, <- old_value. symmetry.
  rewrite old_value. eapply evaluate_grows; [by eapply make_planner_node_grows|done].
Qed.
End replace.
End value.

End QueryGraphSpec.
