(* ===== verification/QueryGraphInv.v ===== *)
(** The consistency that [_debug_check_consistency] asserts of the optimizer's graph, as an
    invariant: edges agree in both directions, what is discarded is disconnected, and every
    node but the tip has a reader. Building, replacing and pruning keep it, and end. *)
From Stdlib Require Import List.
From S2P Require Import Prelude FlexType FlexOps QueryPlan QueryPlanSpec QueryGraph QueryGraphSpec.
Import FlexType FlexOps QueryPlan QueryPlanSpec QueryGraph QueryGraphSpec.
Local Open Scope Z_scope.
Local Open Scope sframe_scope.

Module QueryGraphInv.

(** ** Occurrences *)

Definition occ (x : nat) (l : list nat) : nat := count_occ Nat.eq_dec l x.
#[global] Arguments occ : simpl never.

Lemma occ_nil x : occ x [] = 0%nat.
Proof. done. Qed.

Lemma occ_cons x y l : occ x (y :: l) = ((if decide (x = y) then 1 else 0) + occ x l)%nat.
Proof. unfold occ. cbn. destruct (Nat.eq_dec y x), (decide (x = y)); lia. Qed.

Lemma occ_app x l k : occ x (l ++ k) = (occ x l + occ x k)%nat.
Proof. apply count_occ_app. Qed.

Lemma occ_elem x l : x ∈ l ↔ (0 < occ x l)%nat.
Proof. rewrite list_elem_of_In. apply count_occ_In. Qed.

Lemma occ_erase_first x y l :
  y ∈ l → occ x (erase_first y l) = (occ x l - if decide (x = y) then 1 else 0)%nat.
Proof.
  induction l as [|z l IH]; intros Hy; [by apply not_elem_of_nil in Hy|]. cbn.
  destruct (Nat.eqb_spec z y) as [->|Hz].
  { rewrite occ_cons. destruct (decide (x = y)); lia. }
  rewrite !occ_cons. apply elem_of_cons in Hy as [->|Hy]; [done|]. rewrite IH by done.
  apply occ_elem in Hy. repeat case_decide; subst; lia.
Qed.

Lemma occ_insert x l k y z :
  l !! k = Some y →
  (occ x (<[k := z]> l) + (if decide (x = y) then 1 else 0) =
    occ x l + if decide (x = z) then 1 else 0)%nat.
Proof.
  revert k. induction l as [|w l IH]; intros [|k] Hk; simplify_eq/=.
  - rewrite !occ_cons. lia.
  - change (<[S k:=z]> (w :: l)) with (w :: <[k:=z]> l). rewrite !occ_cons.
    specialize (IH k Hk). lia.
Qed.

(** ** The invariant *)

(** Edges are recorded at both ends, as often as they are there. *)
Definition balanced (L : lookups) : Prop :=
  ∀ x i, L !! x = Some i →
    (∀ y, y ∈ ni_inputs i → y ∈ dom L) ∧ (∀ y, y ∈ ni_outputs i → y ∈ dom L) ∧
    ∀ y j, L !! y = Some j → occ y (ni_outputs i) = occ x (ni_inputs j).

(** A discarded node has no reader, and, when its elimination is over, no input. *)
Definition buried (L : lookups) (stack : list nat) : Prop :=
  ∀ x i, L !! x = Some i → node_discarded i = true →
    ni_outputs i = [] ∧ (x ∉ stack → ni_inputs i = []).

(** The inputs of a node in the graph are those of the planner node. *)
Definition synced (h : heap) (L : lookups) (stack : list nat) : Prop :=
  ∀ x i, L !! x = Some i → node_discarded i = false → x ∉ stack →
    ∃ n, h !! x = Some n ∧ inputs n = ni_inputs i.

(** Nothing is orphaned. *)
Definition rooted (tip : nat) (L : lookups) (stack : list nat) : Prop :=
  ∀ x i, L !! x = Some i → node_discarded i = false → x ≠ tip → x ∉ stack → ni_outputs i ≠ [].

Definition tip_ok (tip : nat) (L : lookups) : Prop :=
  ∃ i, L !! tip = Some i ∧ node_discarded i = false ∧ ni_outputs i = [].

Record consistent (h : heap) (tip : nat) (L : lookups) : Prop := {
  consistent_balanced : balanced L;
  consistent_buried : buried L [];
  consistent_synced : synced h L [];
  consistent_rooted : rooted tip L [];
  consistent_tip : tip_ok tip L;
}.

Definition live (L : lookups) (x : nat) : Prop := ∃ i, L !! x = Some i ∧ node_discarded i = false.

(** The inputs of a live node are live. *)
Lemma live_inputs L stack x i y :
  balanced L → buried L stack → L !! x = Some i → y ∈ ni_inputs i → live L y.
Proof.
  intros Hb Hd Hx Hy. destruct (Hb x i Hx) as (Hin & _ & _).
  specialize (Hin y Hy). apply elem_of_dom in Hin as [j Hj]. exists j. split; [done|].
  destruct (node_discarded j) eqn:E; [|done]. destruct (Hd y j Hj E) as [Hout _].
  destruct (Hb y j Hj) as (_ & _ & Hocc). specialize (Hocc x i Hx).
  rewrite Hout in Hocc. apply occ_elem in Hy. rewrite occ_nil in Hocc. lia.
Qed.

(** ** Pruning *)

Lemma edges_insert L x i j :
  L !! x = Some i →
  (edges (<[x := j]> L) + length (ni_inputs i) = edges L + length (ni_inputs j))%nat.
Proof.
  intros Hx. unfold edges.
  rewrite <- (insert_delete_id L x i) at 2 by done. rewrite <- insert_delete_eq.
  rewrite !map_fold_insert_L; [lia|..]; try (intros; lia); apply lookup_delete_eq.
Qed.

(** What pruning leaves of a graph: live nodes stay live only with their inputs. *)
Definition pruned (L L' : lookups) : Prop :=
  dom L' = dom L ∧
  ∀ x i', L' !! x = Some i' → ∃ i, L !! x = Some i ∧
    (node_discarded i' = false → node_discarded i = false ∧ ni_inputs i' = ni_inputs i).

Lemma pruned_refl L : pruned L L.
Proof. split; [done|]. intros x i Hi. by exists i. Qed.

Lemma pruned_trans L1 L2 L3 : pruned L1 L2 → pruned L2 L3 → pruned L1 L3.
Proof.
  intros [D1 H1] [D2 H2]. split; [congruence|]. intros x k Hk.
  destruct (H2 x k Hk) as (j & Hj & Hkj). destruct (H1 x j Hj) as (i & Hi & Hji).
  exists i. split; [done|]. intros Hd. destruct (Hkj Hd) as [Hd' ->]. by apply Hji.
Qed.

Lemma balanced_unlink L n m i j l os d :
  balanced L → L !! n = Some i → ni_inputs i = l ++ [m] → L !! m = Some j → m ≠ n →
  (∀ y, occ y os = occ y (ni_outputs j) - if decide (y = n) then 1 else 0)%nat →
  balanced (<[m := NodeInfo (ni_inputs j) os d]> (<[n := set_inputs l i]> L)).
Proof.
  intros Hb Hn Hl Hm Hne Hos.
  assert (dom (<[m := NodeInfo (ni_inputs j) os d]> (<[n := set_inputs l i]> L)) = dom L) as Hdom.
  { rewrite !dom_insert_L. apply elem_of_dom_2 in Hn, Hm. set_solver. }
  assert (∀ x k, <[m := NodeInfo (ni_inputs j) os d]> (<[n := set_inputs l i]> L) !! x = Some k →
    ∃ k0, L !! x = Some k0 ∧
      ni_inputs k = (if decide (x = n) then l else ni_inputs k0) ∧
      ni_outputs k = (if decide (x = m) then os else ni_outputs k0)) as Hlook.
  { intros x k. destruct (decide (x = m)) as [->|Hxm].
    { rewrite lookup_insert_eq. intros [= <-]. exists j. rewrite decide_False by done. done. }
    rewrite lookup_insert_ne by done. destruct (decide (x = n)) as [->|Hxn].
    { rewrite lookup_insert_eq. intros [= <-]. by exists i. }
    rewrite lookup_insert_ne by done. intros Hk. by exists k. }
  assert (∀ y, y ∈ os → y ∈ ni_outputs j) as Hsub.
  { intros y. rewrite !occ_elem, Hos. lia. }
  intros x k Hk. rewrite Hdom. destruct (Hlook x k Hk) as (k0 & Hk0 & Hin & Hout).
  destruct (Hb x k0 Hk0) as (Hi & Ho & Hocc). split_and!.
  - intros y. rewrite Hin. destruct (decide (x = n)) as [->|]; [|by apply Hi]. simplify_eq. intros Hy. apply Hi.
    rewrite Hl. apply elem_of_app. by left.
  - intros y. rewrite Hout. destruct (decide (x = m)) as [->|]; [|by apply Ho]. simplify_eq. intros Hy.
    by apply Ho, Hsub.
  - intros y k' Hk'. destruct (Hlook y k' Hk') as (k1 & Hk1 & Hin' & _).
    specialize (Hocc y k1 Hk1). rewrite Hout, Hin'.
    destruct (decide (x = m)) as [->|]; destruct (decide (y = n)) as [->|]; simplify_eq.
    + rewrite Hos, Hocc, Hl, occ_app, occ_cons, occ_nil. rewrite !decide_True by done. lia.
    + rewrite Hos, Hocc. rewrite decide_False by done. lia.
    + rewrite Hocc, Hl, occ_app, occ_cons, occ_nil. rewrite decide_False by done. lia.
    + done.
Qed.

Lemma edges_unlink L n m i j l os d :
  L !! n = Some i → ni_inputs i = l ++ [m] → L !! m = Some j → m ≠ n →
  (S (edges (<[m := NodeInfo (ni_inputs j) os d]> (<[n := set_inputs l i]> L))) = edges L)%nat.
Proof.
  intros Hn Hl Hm Hne. pose proof (edges_insert L n i (set_inputs l i) Hn) as H1.
  assert (<[n := set_inputs l i]> L !! m = Some j) as Hm' by by rewrite lookup_insert_ne.
  pose proof (edges_insert _ m j (NodeInfo (ni_inputs j) os d) Hm') as H2.
  cbn in H1, H2. rewrite Hl, length_app in H1. cbn in H1. lia.
Qed.

Lemma buried_unlink L stack n m i j l os d :
  buried L (n :: stack) → L !! n = Some i → L !! m = Some j → m ≠ n →
  node_discarded j = false → (d = true → os = []) →
  buried (<[m := NodeInfo (ni_inputs j) os d]> (<[n := set_inputs l i]> L)) (m :: n :: stack).
Proof.
  intros Hd Hn Hm Hne Hj Hos x k. destruct (decide (x = m)) as [->|Hxm].
  { rewrite lookup_insert_eq. intros [= <-]. cbn. split; [auto|]. set_solver. }
  rewrite lookup_insert_ne by done. destruct (decide (x = n)) as [->|Hxn].
  { rewrite lookup_insert_eq. intros [= <-]. cbn. intros Hk.
    split; [by apply (Hd n i)|]. set_solver. }
  rewrite lookup_insert_ne by done. intros Hk Hkd. destruct (Hd x k Hk Hkd) as [? Hin].
  split; [done|]. intros Hx. apply Hin. set_solver.
Qed.

Lemma buried_live L n m j os d stack :
  buried (<[m := NodeInfo (ni_inputs j) os d]> L) (m :: n :: stack) → d = false →
  buried (<[m := NodeInfo (ni_inputs j) os d]> L) (n :: stack).
Proof.
  intros Hd -> x k Hk Hkd. destruct (Hd x k Hk Hkd) as [? Hin]. split; [done|].
  intros Hx. apply Hin. apply not_elem_of_cons. split; [|done]. intros ->.
  rewrite lookup_insert_eq in Hk. by injection Hk as <-.
Qed.

Lemma rooted_unlink L tip n m i j l os d :
  rooted tip L [] → L !! n = Some i → node_discarded i = true → (d = false → os ≠ []) →
  rooted tip (<[m := NodeInfo (ni_inputs j) os d]> (<[n := set_inputs l i]> L)) [].
Proof.
  intros Hr Hn Hi Hos x k. destruct (decide (x = m)) as [->|Hxm].
  { rewrite lookup_insert_eq. intros [= <-]. cbn. auto. }
  rewrite lookup_insert_ne by done. destruct (decide (x = n)) as [->|Hxn].
  { rewrite lookup_insert_eq. intros [= <-]. cbn. congruence. }
  rewrite lookup_insert_ne by done. by apply Hr.
Qed.

Lemma tip_unlink L tip n m i l k :
  tip_ok tip L → L !! n = Some i → node_discarded i = true → tip ≠ m →
  tip_ok tip (<[m := k]> (<[n := set_inputs l i]> L)).
Proof.
  intros (t & Ht & Htd & Hto) Hn Hi Hne. exists t. rewrite lookup_insert_ne by done.
  rewrite lookup_insert_ne; [done|]. intros ->. congruence.
Qed.

Lemma pruned_unlink L n m i j l os d :
  L !! n = Some i → L !! m = Some j → m ≠ n → node_discarded i = true → node_discarded j = false →
  pruned L (<[m := NodeInfo (ni_inputs j) os d]> (<[n := set_inputs l i]> L)).
Proof.
  intros Hn Hm Hne Hi Hj. split.
  { rewrite !dom_insert_L. apply elem_of_dom_2 in Hn, Hm. set_solver. }
  intros x k. destruct (decide (x = m)) as [->|Hxm].
  { rewrite lookup_insert_eq. intros [= <-]. by exists j. }
  rewrite lookup_insert_ne by done. destruct (decide (x = n)) as [->|Hxn].
  { rewrite lookup_insert_eq. intros [= <-]. exists i. split; [done|]. cbn. congruence. }
  rewrite lookup_insert_ne by done. intros Hk. by exists k.
Qed.

(** Eliminating the inputs of a discarded node ends and keeps the graph consistent. *)
Lemma eliminate_inputs_ok fuel tip : ∀ n stack L i,
  balanced L → buried L (n :: stack) → rooted tip L [] → tip_ok tip L →
  L !! n = Some i → node_discarded i = true → (edges L < fuel)%nat →
  ∃ L', eliminate_inputs fuel n L = Some L' ∧
    balanced L' ∧ buried L' stack ∧ rooted tip L' [] ∧ tip_ok tip L' ∧ pruned L L' ∧
    (edges L' ≤ edges L)%nat ∧ ∃ i', L' !! n = Some i' ∧ node_discarded i' = true.
Proof.
  induction fuel as [|fuel IH]; intros n stack L i Hb Hd Hr Ht Hn Hi Hf; [lia|].
  cbn. rewrite Hn. cbn. destruct (last (ni_inputs i)) as [m|] eqn:Hlast.
  2:{ exists L. apply last_None in Hlast. split_and!; try done; [|by apply pruned_refl|by exists i].
      intros x k Hk Hkd. destruct (Hd x k Hk Hkd) as [? Hin]. split; [done|]. intros Hx.
      destruct (decide (x = n)) as [->|]; [congruence|]. apply Hin. set_solver. }
  apply last_Some in Hlast as [l Hl]. rewrite Hl, removelast_last.
  destruct (live_inputs L (n :: stack) n i m Hb Hd Hn) as (j & Hm & Hj).
  { rewrite Hl. set_solver. }
  assert (m ≠ n) as Hne by by intros ->; simplify_eq; congruence.
  rewrite lookup_insert_ne, Hm by done. cbn.
  assert (occ n (ni_outputs j) = S (occ m l)) as Hocc.
  { destruct (Hb m j Hm) as (_ & _ & H). rewrite (H n i Hn), Hl, occ_app, occ_cons, occ_nil.
    rewrite decide_True by done. lia. }
  assert (n ∈ ni_outputs j) as Hin by (apply occ_elem; lia).
  assert (∀ os d, (∀ y, occ y os = occ y (ni_outputs j) - if decide (y = n) then 1 else 0)%nat →
    (d = true → os = []) → (d = false → os ≠ []) →
    let L2 := <[m := NodeInfo (ni_inputs j) os d]> (<[n := set_inputs l i]> L) in
    balanced L2 ∧ buried L2 (m :: n :: stack) ∧ rooted tip L2 [] ∧ tip_ok tip L2 ∧
    pruned L L2 ∧ S (edges L2) = edges L ∧ L2 !! n = Some (set_inputs l i)) as Hunlink.
  { intros os d Hos Hd1 Hd2. split_and!.
    - by eapply balanced_unlink.
    - by eapply buried_unlink.
    - by eapply rooted_unlink.
    - eapply tip_unlink; [done..|]. intros ->. destruct Ht as (t & Ht & _ & Hto). simplify_eq.
      rewrite Hto in Hin. by apply not_elem_of_nil in Hin.
    - by eapply pruned_unlink.
    - by eapply edges_unlink.
    - rewrite lookup_insert_ne by done. apply lookup_insert_eq. }
  destruct (decide (ni_outputs j = [n])) as [Hout|Hout].
  - rewrite Hout, Nat.eqb_refl.
    destruct (Hunlink [] true) as (Hb2 & Hd2 & Hr2 & Ht2 & Hp2 & He2 & Hn2); [|done..|].
    { intros y. rewrite Hout, occ_cons, occ_nil. lia. }
    destruct (IH m (n :: stack) _ _ Hb2 Hd2 Hr2 Ht2 (lookup_insert_eq _ _ _) eq_refl)
      as (L3 & -> & Hb3 & Hd3 & Hr3 & Ht3 & Hp3 & He3 & _); [lia|]. cbn.
    assert (∃ i3, L3 !! n = Some i3 ∧ node_discarded i3 = true) as (i3 & Hn3 & Hi3).
    { destruct Hp3 as [Hdom3 Hp3]. assert (n ∈ dom L3) as Hn3.
      { rewrite Hdom3. by eapply elem_of_dom_2. }
      apply elem_of_dom in Hn3 as [i3 Hn3]. exists i3. split; [done|].
      destruct (Hp3 n i3 Hn3) as (i2 & Hi2 & Hdis). destruct (node_discarded i3); [done|].
      destruct (Hdis eq_refl) as [Hdis' _]. rewrite Hn2 in Hi2. injection Hi2 as <-. cbn in Hdis'.
      congruence. }
    destruct (IH n stack L3 i3 Hb3 Hd3 Hr3 Ht3 Hn3 Hi3)
      as (L4 & -> & Hb4 & Hd4 & Hr4 & Ht4 & Hp4 & He4 & Hn4); [lia|].
    exists L4. split_and!; try done; [|lia]. eapply pruned_trans; [done|].
    by eapply pruned_trans.
  - assert (erase_first n (ni_outputs j) ≠ []) as Hne'.
    { destruct (ni_outputs j) as [|o os]; [by apply not_elem_of_nil in Hin|]. cbn.
      destruct (Nat.eqb_spec o n) as [->|]; [|done]. intros ->. done. }
    destruct (Hunlink (erase_first n (ni_outputs j)) false)
      as (Hb2 & Hd2 & Hr2 & Ht2 & Hp2 & He2 & Hn2); [|done..|].
    { intros y. by apply occ_erase_first. }
    apply buried_live in Hd2; [|done].
    assert (NodeInfo (ni_inputs j) (erase_first n (ni_outputs j)) false =
      set_outputs (erase_first n (ni_outputs j)) j) as Heq by (destruct j; cbn in *; by subst).
    rewrite Heq in *.
    destruct (IH n stack _ _ Hb2 Hd2 Hr2 Ht2 Hn2 Hi)
      as (L3 & He & Hb3 & Hd3 & Hr3 & Ht3 & Hp3 & He3 & Hn3); [lia|].
    exists L3. split_and!; try done; [|by eapply pruned_trans|lia].
    rewrite <- He. destruct (ni_outputs j) as [|o [|o' os]]; [done| |done].
    exfalso. apply Hout. apply list_elem_of_singleton in Hin. by subst.
Qed.

Lemma edges_discard L n i :
  L !! n = Some i → edges (<[n := NodeInfo (ni_inputs i) (ni_outputs i) true]> L) = edges L.
Proof. intros Hn. pose proof (edges_insert L n i (NodeInfo (ni_inputs i) (ni_outputs i) true) Hn). cbn in *. lia. Qed.

(** [eliminate_node_and_prune], on a node that has no reader. *)
Lemma eliminate_ok tip n L i :
  balanced L → buried L [] → rooted tip L [n] → tip_ok tip L → n ≠ tip →
  L !! n = Some i → ni_outputs i = [] →
  ∃ L', eliminate_node_and_prune n L = Some L' ∧ balanced L' ∧ buried L' [] ∧
    rooted tip L' [] ∧ tip_ok tip L' ∧ pruned L L' ∧ ¬ live L' n.
Proof.
  intros Hb Hd Hr Ht Hne Hn Hout. unfold eliminate_node_and_prune.
  set (L1 := <[n := NodeInfo (ni_inputs i) (ni_outputs i) true]> L).
  replace (alter _ n L) with L1
    by (symmetry; apply map_eq; intros x; unfold L1; destruct (decide (x = n)) as [->|];
        [by rewrite lookup_alter_eq, lookup_insert_eq, Hn|by rewrite lookup_alter_ne, lookup_insert_ne]).
  assert (∀ x k, L1 !! x = Some k → ∃ k0, L !! x = Some k0 ∧
    ni_inputs k = ni_inputs k0 ∧ ni_outputs k = ni_outputs k0 ∧
    (x ≠ n → node_discarded k = node_discarded k0) ∧ (x = n → node_discarded k = true)) as Hlook.
  { intros x k. unfold L1. destruct (decide (x = n)) as [->|Hx].
    - rewrite lookup_insert_eq. intros [= <-]. by exists i.
    - rewrite lookup_insert_ne by done. intros Hk. by exists k. }
  assert (dom L1 = dom L) as Hdom.
  { unfold L1. rewrite dom_insert_L. apply elem_of_dom_2 in Hn. set_solver. }
  destruct (eliminate_inputs_ok (S (edges L1)) tip n [] L1 (NodeInfo (ni_inputs i) (ni_outputs i) true))
    as (L' & -> & Hb' & Hd' & Hr' & Ht' & Hp' & _ & i' & Hi' & Hdi'); [..|lia|].
  - intros x k Hk. destruct (Hlook x k Hk) as (k0 & Hk0 & -> & -> & _). rewrite Hdom.
    destruct (Hb x k0 Hk0) as (Hi & Ho & Hocc). split_and!; [done..|].
    intros y j Hj. destruct (Hlook y j Hj) as (j0 & Hj0 & -> & _). eauto.
  - intros x k Hk Hkd. destruct (Hlook x k Hk) as (k0 & Hk0 & -> & -> & Hnd & _).
    destruct (decide (x = n)) as [->|Hx].
    + simplify_eq. split; [done|]. set_solver.
    + rewrite Hnd in Hkd by done. destruct (Hd x k0 Hk0 Hkd) as [? Hin]. split; [done|].
      intros _. apply Hin. set_solver.
  - intros x k Hk Hkd Hxt _. destruct (Hlook x k Hk) as (k0 & Hk0 & _ & -> & Hnd & Hnn).
    destruct (decide (x = n)) as [->|Hx]; [by rewrite Hnn in Hkd|].
    rewrite Hnd in Hkd by done. apply (Hr x k0); try done. set_solver.
  - destruct Ht as (t & Htt & Htd & Hto). exists t. unfold L1. by rewrite lookup_insert_ne.
  - apply lookup_insert_eq.
  - done.
  - exists L'. split_and!; try done.
    + eapply pruned_trans; [|done]. split; [done|]. intros x k Hk.
      destruct (Hlook x k Hk) as (k0 & Hk0 & -> & _ & Hnd & Hnn). exists k0. split; [done|].
      intros Hkd. destruct (decide (x = n)) as [->|Hx]; [by rewrite Hnn in Hkd|].
      by rewrite <- Hnd.
    + intros (k & Hk & Hkd). simplify_eq. congruence.
Qed.

(** ** Building *)

Lemma link_lookup p L i x :
  link p L i !! x =
  (λ k, NodeInfo (if decide (x = p) then ni_inputs k ++ [i] else ni_inputs k)
          (if decide (x = i) then ni_outputs k ++ [p] else ni_outputs k) (node_discarded k)) <$> L !! x.
Proof.
  unfold link. destruct (decide (x = i)) as [->|Hi].
  - rewrite lookup_alter_eq. destruct (decide (i = p)) as [->|Hp].
    + rewrite lookup_alter_eq. by destruct (L !! p) as [[]|].
    + rewrite lookup_alter_ne by done. by destruct (L !! i) as [[]|].
  - rewrite lookup_alter_ne by done. destruct (decide (x = p)) as [->|Hp].
    + rewrite lookup_alter_eq. by destruct (L !! p) as [[]|].
    + rewrite lookup_alter_ne by done. by destruct (L !! x) as [[]|].
Qed.

Lemma link_Some p L i x k :
  link p L i !! x = Some k → ∃ k0, L !! x = Some k0 ∧ node_discarded k = node_discarded k0 ∧
    ni_inputs k = (if decide (x = p) then ni_inputs k0 ++ [i] else ni_inputs k0) ∧
    ni_outputs k = (if decide (x = i) then ni_outputs k0 ++ [p] else ni_outputs k0).
Proof. rewrite link_lookup. intros (k0 & -> & ->)%fmap_Some. exists k0. done. Qed.

Lemma link_dom p L i : dom (link p L i) = dom L.
Proof. unfold link. by rewrite !dom_alter_L. Qed.

Lemma balanced_link p L i : balanced L → p ∈ dom L → i ∈ dom L → balanced (link p L i).
Proof.
  intros Hb Hp Hi x k Hk. apply link_Some in Hk as (k0 & Hk0 & _ & -> & ->). rewrite link_dom.
  destruct (Hb x k0 Hk0) as (Hin & Hout & Hocc). split_and!.
  - intros y Hy. case_decide; [|by apply Hin]. apply elem_of_app in Hy as [?|?%list_elem_of_singleton]; [by apply Hin|by subst].
  - intros y Hy. case_decide; [|by apply Hout]. apply elem_of_app in Hy as [?|?%list_elem_of_singleton]; [by apply Hout|by subst].
  - intros y j Hj. apply link_Some in Hj as (j0 & Hj0 & _ & -> & _). specialize (Hocc y j0 Hj0).
    destruct (decide (x = i)), (decide (y = p)); rewrite ?occ_app, ?occ_cons, ?occ_nil; subst;
      rewrite ?decide_True by done; rewrite ?(decide_False (P := y = p)) by done;
      rewrite ?(decide_False (P := x = i)) by done; lia.
Qed.

(** What building may change of the nodes that are there. *)
Definition grown (L L' : lookups) : Prop :=
  ∀ x i, L !! x = Some i → ∃ i', L' !! x = Some i' ∧ ni_inputs i' = ni_inputs i ∧
    node_discarded i' = node_discarded i ∧ (ni_outputs i ≠ [] → ni_outputs i' ≠ []).

Lemma grown_refl L : grown L L.
Proof. intros x i Hi. by exists i. Qed.

Lemma grown_trans L1 L2 L3 : grown L1 L2 → grown L2 L3 → grown L1 L3.
Proof.
  intros H1 H2 x i Hi. destruct (H1 x i Hi) as (j & Hj & ? & ? & ?).
  destruct (H2 x j Hj) as (k & ? & ? & ? & ?). exists k. split_and!; [done|congruence..|auto].
Qed.

Lemma grown_dom L L' : grown L L' → dom L ⊆ dom L'.
Proof.
  intros H x Hx. apply elem_of_dom in Hx as [i Hi]. destruct (H x i Hi) as (j & Hj & _).
  by eapply elem_of_dom_2.
Qed.

Section build.
Context (h : heap) (tip : nat).

(** The tip is not an input. *)
Definition tip_free (L : lookups) : Prop :=
  ∀ i, L !! tip = Some i → node_discarded i = false ∧ ni_outputs i = [].

(** The graph while the nodes of [stack] are being built, and those of [fresh] wait for a
    reader. *)
Record partial (stack fresh : list nat) (L : lookups) : Prop := {
  partial_balanced : balanced L;
  partial_buried : buried L [];
  partial_synced : synced h L stack;
  partial_rooted : rooted tip L (fresh ++ stack);
  partial_tip : tip_free L;
}.

(** What may be built: closed under inputs, and live where it is known. *)
Context (D : nat → Prop).
Definition closed (L : lookups) : Prop :=
  ∀ x, D x → match L !! x with
    | Some i => node_discarded i = false
    | None => ∃ n, h !! x = Some n ∧ ∀ y, y ∈ inputs n → D y ∧ y ≠ tip
    end.

Definition built (L L' : lookups) : Prop :=
  grown L L' ∧ ∀ x i, L' !! x = Some i → L !! x = None → D x ∧ node_discarded i = false.

Lemma built_refl L : built L L.
Proof. split; [apply grown_refl|]. intros. congruence. Qed.

Lemma built_trans L1 L2 L3 : built L1 L2 → built L2 L3 → built L1 L3.
Proof.
  intros [G1 N1] [G2 N2]. split; [by eapply grown_trans|]. intros x k Hk H1.
  destruct (L2 !! x) as [j|] eqn:Hj; [|eauto]. destruct (N1 x j Hj H1) as [? Hd].
  split; [done|]. destruct (G2 x j Hj) as (k' & Hk' & _ & ? & _). simplify_eq. congruence.
Qed.

Lemma closed_built L L' : closed L → built L L' → closed L'.
Proof.
  intros Hc [G N] x Hx. specialize (Hc x Hx). destruct (L !! x) as [i|] eqn:Hi.
  - destruct (G x i Hi) as (i' & -> & _ & -> & _). done.
  - destruct (L' !! x) as [i'|] eqn:Hi'; [|done]. by apply (N x i').
Qed.

Lemma partial_register stack L p :
  partial stack [] L → L !! p = None → partial (p :: stack) [] (<[p := NodeInfo [] [] false]> L).
Proof.
  intros [Hb Hd Hs Hr Ht] Hp.
  assert (∀ x k, <[p := NodeInfo [] [] false]> L !! x = Some k →
    (x = p ∧ k = NodeInfo [] [] false) ∨ (x ≠ p ∧ L !! x = Some k)) as Hlook.
  { intros x k. destruct (decide (x = p)) as [->|Hx].
    - rewrite lookup_insert_eq. intros [= <-]. by left.
    - rewrite lookup_insert_ne by done. by right. }
  assert (∀ x i, L !! x = Some i → p ∉ ni_inputs i ∧ p ∉ ni_outputs i) as Hno.
  { intros x i Hi. destruct (Hb x i Hi) as (Hin & Hout & _). apply not_elem_of_dom in Hp. auto. }
  split.
  - intros x k [[-> ->]|[Hx Hk]]%Hlook; rewrite dom_insert_L; cbn.
    + split_and!; [set_solver..|]. intros y j [[-> ->]|[Hy Hj]]%Hlook; [done|].
      destruct (Hno y j Hj) as [Hn _]. rewrite occ_elem in Hn. rewrite occ_nil. lia.
    + destruct (Hb x k Hk) as (Hin & Hout & Hocc). split_and!; [set_solver..|].
      intros y j [[-> ->]|[Hy Hj]]%Hlook; [|eauto]. cbn.
      destruct (Hno x k Hk) as [_ Hn]. rewrite occ_elem in Hn. rewrite occ_nil. lia.
  - intros x k [[-> ->]|[Hx Hk]]%Hlook; [done|by apply Hd].
  - intros x k [[-> ->]|[Hx Hk]]%Hlook; [set_solver|]. intros ? ?. apply Hs; set_solver.
  - intros x k [[-> ->]|[Hx Hk]]%Hlook; [set_solver|]. intros ? ? ?. apply (Hr x); set_solver.
  - intros k [[-> ->]|[Hx Hk]]%Hlook; [done|by apply Ht].
Qed.

Lemma partial_link stack p L i :
  partial (p :: stack) [i] L → live L p → live L i → i ≠ tip →
  partial (p :: stack) [] (link p L i).
Proof.
  intros [Hb Hd Hs Hr Ht] Hp Hi Htip. split.
  - destruct Hi as (k & Hk & _), Hp as (k' & Hk' & _).
    by apply balanced_link; [|eapply elem_of_dom_2..].
  - intros x k (k0 & Hk0 & -> & Hin & Hout)%link_Some Hdis.
    destruct (Hd x k0 Hk0 Hdis) as [Ho Hn]. specialize (Hn ltac:(set_solver)).
    rewrite Hout, Hin. assert (x ≠ i) as Hxi.
    { intros ->. destruct Hi as (j & Hj & Hji). simplify_eq. congruence. }
    rewrite (decide_False (P := x = i)) by done. split; [done|]. intros _.
    destruct (decide (x = p)) as [->|]; [|done]. destruct Hp as (j & Hj & Hjp). simplify_eq. congruence.
  - intros x k (k0 & Hk0 & -> & Hin & Hout)%link_Some Hdis Hx. rewrite Hin.
    rewrite decide_False by set_solver. by apply Hs.
  - intros x k (k0 & Hk0 & -> & Hin & Hout)%link_Some Hdis Hx Hst. rewrite Hout.
    destruct (decide (x = i)) as [->|]; [by destruct (ni_outputs k0)|].
    apply (Hr x k0); try done. set_solver.
  - intros k (k0 & Hk0 & -> & Hin & Hout)%link_Some. rewrite Hout.
    rewrite decide_False by done. by apply Ht.
Qed.

Lemma built_link p L0 L i :
  L0 !! p = None → built L0 L → built L0 (link p L i).
Proof.
  intros Hp [G N]. split.
  - intros x k Hk. destruct (G x k Hk) as (k' & Hk' & Hin & Hd & Ho).
    rewrite link_lookup, Hk'. cbn. eexists. split; [done|]. cbn.
    rewrite decide_False by (intros ->; congruence). split_and!; [done..|].
    intros Hne. specialize (Ho Hne). case_decide; [|done]. by destruct (ni_outputs k').
  - intros x k (k0 & Hk0 & -> & _)%link_Some Hx. by eapply N.
Qed.

Definition unknown (L : lookups) : nat := base.size (dom h ∖ dom L : gset nat).

Lemma unknown_grown L L' : grown L L' → (unknown L' ≤ unknown L)%nat.
Proof. intros H%grown_dom. unfold unknown. apply subseteq_size. set_solver. Qed.

Lemma unknown_register L p n k :
  h !! p = Some n → L !! p = None → (unknown (<[p := k]> L) < unknown L)%nat.
Proof.
  intros Hn Hp. unfold unknown. apply subset_size. rewrite dom_insert_L.
  apply elem_of_dom_2 in Hn. apply not_elem_of_dom in Hp. set_solver.
Qed.

(** The inputs that are still to be built of a node on the stack. *)
Lemma build_inputs_ok (build : nat → lookups → option lookups) (fuel : nat) p stack L0 :
  L0 !! p = None →
  (∀ i L, D i → closed L → partial (p :: stack) [] L → (unknown L < fuel)%nat →
    ∃ L', build i L = Some L' ∧ partial (p :: stack) [i] L' ∧ built L L' ∧ live L' i) →
  ∀ l done L k,
  (∀ y, y ∈ l → D y ∧ y ≠ tip) → closed L → partial (p :: stack) [] L → built L0 L →
  (unknown L < fuel)%nat → L !! p = Some k → node_discarded k = false → ni_inputs k = done →
  ∃ L' k', fold_option (λ L i, L ← build i L; Some (link p L i)) l L = Some L' ∧
    partial (p :: stack) [] L' ∧ built L0 L' ∧ L' !! p = Some k' ∧
    node_discarded k' = false ∧ ni_inputs k' = done ++ l.
Proof.
  intros Hp0 Hbuild. induction l as [|i l IH]; intros done L k Hl Hc HP HB Hf Hp Hk Hdone.
  { exists L, k. cbn. by rewrite app_nil_r. }
  cbn. destruct (Hl i) as [Hi Htip]; [by left|].
  destruct (Hbuild i L Hi Hc HP Hf) as (L1 & -> & HP1 & HB1 & Hlive). cbn.
  destruct (proj1 HB1 p k Hp) as (k1 & Hp1 & Hin1 & Hd1 & _).
  assert (live L1 p) as Hlp. { exists k1. split; [done|congruence]. }
  set (k2 := NodeInfo (ni_inputs k1 ++ [i])
    (if decide (p = i) then ni_outputs k1 ++ [p] else ni_outputs k1) (node_discarded k1)).
  assert (link p L1 i !! p = Some k2) as Hp2.
  { rewrite link_lookup, Hp1. cbn. by rewrite decide_True. }
  assert (built L0 L1) as HB01 by by eapply built_trans.
  destruct (IH (done ++ [i]) (link p L1 i) k2) as (L' & k' & Hfold & HP' & HB' & Hp' & Hk' & Hin').
  - intros y Hy. apply Hl. by right.
  - intros x Hx. pose proof (closed_built L L1 Hc HB1 x Hx) as H. rewrite link_lookup.
    destruct (L1 !! x); [done|done].
  - by apply partial_link.
  - by apply built_link.
  - assert (unknown (link p L1 i) = unknown L1) as -> by (unfold unknown; by rewrite link_dom).
    pose proof (unknown_grown L L1 (proj1 HB1)). lia.
  - done.
  - cbn. congruence.
  - cbn. congruence.
  - exists L', k'. rewrite Hfold. split_and!; try done. by rewrite Hin', <- app_assoc.
Qed.

Lemma build_node_info_ok fuel : ∀ p stack L,
  D p → closed L → partial stack [] L → (unknown L < fuel)%nat →
  ∃ L', build_node_info fuel h p L = Some L' ∧ partial stack [p] L' ∧ built L L' ∧ live L' p.
Proof.
  induction fuel as [|fuel IH]; intros p stack L Hp Hc HP Hf; [lia|]. cbn.
  pose proof (Hc p Hp) as Hcp. destruct (L !! p) as [i|] eqn:Hi.
  { exists L. split_and!; [done| |apply built_refl|by exists i].
    destruct HP as [Hb Hd Hs Hr Ht]. split; try done. intros x k ? ? ? ?. apply (Hr x k); set_solver. }
  destruct Hcp as (n & Hn & Hin). rewrite Hn. cbn.
  set (L1 := <[p := NodeInfo [] [] false]> L).
  assert (built L L1) as HB1.
  { split.
    - intros x k Hk. unfold L1. exists k. rewrite lookup_insert_ne by congruence. done.
    - intros x k. unfold L1. destruct (decide (x = p)) as [->|].
      + rewrite lookup_insert_eq. by intros [= <-].
      + rewrite lookup_insert_ne by done. congruence. }
  destruct (build_inputs_ok (build_node_info fuel h) fuel p stack L Hi)
    with (l := inputs n) (done := @nil nat) (L := L1) (k := NodeInfo [] [] false) as (L' & k' & Hfold & HP' & HB' & Hp' & Hk' & Hin').
  - intros i L2 ? ? ? ?. by apply IH.
  - done.
  - by eapply closed_built.
  - by apply partial_register.
  - done.
  - pose proof (unknown_register L p n (NodeInfo [] [] false) Hn Hi). unfold L1. lia.
  - apply lookup_insert_eq.
  - done.
  - done.
  - exists L'. split_and!; [done| |done|by exists k'].
    destruct HP' as [Hb Hd Hs Hr Ht]. split; try done.
    intros x k Hk Hdis Hx. destruct (decide (x = p)) as [->|]; [|apply Hs; set_solver].
    simplify_eq. exists n. cbn in Hin'. done.
Qed.
End build.

(** ** Redirecting *)

Lemma Forall2_insert_here {A} (P : A → A → Prop) (l : list A) k x y :
  (∀ z, P z z) → l !! k = Some x → P x y → Forall2 P l (<[k := y]> l).
Proof.
  intros Hrefl. revert k. induction l as [|z l IH]; intros [|k] Hk Hxy; simplify_eq/=.
  - constructor; [done|]. by apply Forall_Forall2_diag, Forall_forall.
  - constructor; [done|]. by apply IH.
Qed.

Section redirect.
Context (old rep : nat) (Hne : old ≠ rep).

(** After the readers in [os] read the new node. *)
Definition moved (os : list nat) (L L' : lookups) : Prop :=
  dom L' = dom L ∧ ∀ x i, L !! x = Some i → ∃ i', L' !! x = Some i' ∧
    ni_outputs i' = ni_outputs i ∧ node_discarded i' = node_discarded i ∧
    ∀ z, (occ z (ni_inputs i') + (if decide (z = old) then occ x os else 0) =
          occ z (ni_inputs i) + (if decide (z = rep) then occ x os else 0))%nat.

Definition in_step (h : heap) (L : lookups) (x : nat) : Prop :=
  ∀ i, L !! x = Some i → ∃ n, h !! x = Some n ∧ inputs n = ni_inputs i.

Lemma redirect_outputs_ok : ∀ os h L,
  (∀ x, x ∈ os → x ∈ dom L ∧ in_step h L x) →
  (∀ x i, L !! x = Some i → occ x os ≤ occ old (ni_inputs i))%nat →
  ∃ h' L', fold_option (redirect_output old rep) os (h, L) = Some (h', L') ∧
    redirected old rep h h' ∧ dom h' = dom h ∧ moved os L L' ∧
    ∀ x, in_step h L x → in_step h' L' x.
Proof.
  induction os as [|m os IH]; intros h L Hos Hocc.
  { exists h, L. split_and!; [done| |done| |done].
    - intros x n Hn. exists n. split_and!; [done..|]. apply Forall_Forall2_diag, Forall_forall. auto.
    - split; [done|]. intros x i Hi. exists i. split_and!; [done..|]. intros z. rewrite occ_nil. by repeat case_decide. }
  destruct (Hos m) as [Hm Hstep]; [by left|]. apply elem_of_dom in Hm as [i Hi].
  destruct (Hstep i Hi) as (n & Hn & Hin).
  pose proof (Hocc m i Hi) as Hoccm. rewrite occ_cons, decide_True in Hoccm by done.
  destruct (list_find (old =.) (ni_inputs i)) as [[k y]|] eqn:Hfind.
  2:{ exfalso. apply list_find_None in Hfind. assert (old ∈ ni_inputs i) as Hold by (apply occ_elem; lia).
      rewrite Forall_forall in Hfind. by apply (Hfind old Hold). }
  pose proof Hfind as Hfind'. apply list_find_Some in Hfind' as (Hk & <- & _).
  set (h1 := <[m := PNode (operator_type n) (<[k := rep]> (inputs n))]> h).
  set (L1 := <[m := set_inputs (<[k := rep]> (ni_inputs i)) i]> L).
  assert (redirect_output old rep (h, L) m = Some (h1, L1)) as Hout.
  { unfold redirect_output. cbn [fst snd]. rewrite Hi. cbn [mbind option_bind]. rewrite Hfind, Hn. done. }
  cbn [fold_option]. rewrite Hout. cbn [mbind option_bind].
  assert (∀ z, (occ z (<[k := rep]> (ni_inputs i)) + (if decide (z = old) then 1 else 0) =
    occ z (ni_inputs i) + if decide (z = rep) then 1 else 0)%nat) as Hswap.
  { intros z. by apply occ_insert. }
  assert (∀ x j, L !! x = Some j → ∃ j', L1 !! x = Some j' ∧ ni_outputs j' = ni_outputs j ∧
    node_discarded j' = node_discarded j ∧
    (x ≠ m → j' = j) ∧ (x = m → j = i ∧ j' = set_inputs (<[k := rep]> (ni_inputs i)) i)) as Hlook.
  { intros x j Hj. unfold L1. destruct (decide (x = m)) as [->|Hx].
    - rewrite lookup_insert_eq. simplify_eq. eexists. split_and!; [done..|]. done.
    - rewrite lookup_insert_ne by done. by exists j. }
  assert (∀ x, in_step h L x → in_step h1 L1 x) as Hstep1.
  { intros x Hx j. unfold L1, h1. destruct (decide (x = m)) as [->|Hxm].
    - rewrite !lookup_insert_eq. intros [= <-]. eexists. split; [done|]. cbn. by rewrite Hin.
    - rewrite !lookup_insert_ne by done. apply Hx. }
  assert (dom L1 = dom L) as Hdom1.
  { unfold L1. rewrite dom_insert_L. apply elem_of_dom_2 in Hi. set_solver. }
  destruct (IH h1 L1) as (h2 & L2 & -> & Hr & Hdh & [Hdom2 Hmv] & Hst2).
  { intros x Hx. rewrite Hdom1. destruct (Hos x) as [? ?]; [by right|]. split; [done|]. by apply Hstep1. }
  { intros x j Hj. unfold L1 in Hj. destruct (decide (x = m)) as [->|Hxm].
    - rewrite lookup_insert_eq in Hj. injection Hj as <-. cbn. specialize (Hswap old).
      rewrite decide_True in Hswap by done. rewrite (decide_False (P := old = rep)) in Hswap by done. lia.
    - rewrite lookup_insert_ne in Hj by done. specialize (Hocc x j Hj). rewrite occ_cons in Hocc. lia. }
  exists h2, L2. split_and!; [done| | |split|].
  - intros x n0 Hn0. assert (∃ n1, h1 !! x = Some n1 ∧ operator_type n1 = operator_type n0 ∧
      Forall2 (λ i i', i' = i ∨ (i = old ∧ i' = rep)) (inputs n0) (inputs n1)) as (n1 & Hn1 & Hop1 & Hin1).
    { unfold h1. destruct (decide (x = m)) as [->|Hx].
      - rewrite lookup_insert_eq. simplify_eq. eexists. split_and!; [done..|]. cbn.
        eapply Forall2_insert_here; [auto|by rewrite Hin|auto].
      - rewrite lookup_insert_ne by done. exists n0. split_and!; [done..|].
        apply Forall_Forall2_diag, Forall_forall. auto. }
    destruct (Hr x n1 Hn1) as (n2 & Hn2 & Hop2 & Hin2). exists n2. split_and!; [done|congruence|].
    eapply Forall2_trans; [|exact Hin1|exact Hin2]. cbn. intros a b c Hab Hbc. naive_solver.
  - rewrite Hdh. unfold h1. rewrite dom_insert_L. apply elem_of_dom_2 in Hn. set_solver.
  - by rewrite Hdom2.
  - intros x j Hj. destruct (Hlook x j Hj) as (j1 & Hj1 & Ho1 & Hd1 & Hx1 & Hx2).
    destruct (Hmv x j1 Hj1) as (j2 & Hj2 & Ho2 & Hd2 & Hz). exists j2.
    split_and!; [done|congruence..|]. intros z. specialize (Hz z). rewrite occ_cons.
    destruct (decide (x = m)) as [Hxm|Hxm].
    + destruct (Hx2 Hxm) as [-> ->]. specialize (Hswap z). cbn in Hz.
      repeat case_decide; lia.
    + rewrite (Hx1 Hxm) in Hz. repeat case_decide; lia.
  - intros x Hx. by apply Hst2, Hstep1.
Qed.
End redirect.

(** ** Replacing *)

(** The nodes that a plan adds read each other and the leaves. *)
Definition new_or_leaf (t : plan) (h h' : heap) (z : nat) : Prop :=
  z ∈ leaves t ∨ (z ∈ dom h' ∧ z ∉ dom h).

Lemma make_planner_node_inputs t h h' x :
  make_planner_node t h = Some (h', x) →
  new_or_leaf t h h' x ∧
  ∀ y n, h' !! y = Some n → h !! y = None → ∀ z, z ∈ inputs n → new_or_leaf t h h' z.
Proof.
  unfold new_or_leaf. revert h h' x. induction t as [a|op ts IH] using plan_ind'; intros h h' x.
  { cbn. intros [= <- <-]. split; [left; by left|]. congruence. }
  rewrite make_planner_node_New. intros (h1 & xs & Hxs & _ & -> & ->). set (x := fresh (dom h1)).
  assert ((∀ z, z ∈ xs → z ∈ concat (map leaves ts) ∨ (z ∈ dom h1 ∧ z ∉ dom h)) ∧
    ∀ y n, h1 !! y = Some n → h !! y = None → ∀ z, z ∈ inputs n →
      z ∈ concat (map leaves ts) ∨ (z ∈ dom h1 ∧ z ∉ dom h)) as [Hx Hn].
  { revert h xs Hxs. clear x op. induction IH as [|t ts Ht _ IHts]; intros h xs Hxs.
    { injection Hxs as <- <-. split; [set_solver|]. congruence. }
    apply make_all_cons in Hxs as (h2 & y & ys & Hy & Hys & ->).
    destruct (Ht _ _ _ Hy) as [Hty Htn]. destruct (IHts _ _ Hys) as [Hsy Hsn]. cbn.
    pose proof (subseteq_dom _ _ (make_planner_node_grows _ _ _ _ Hy)) as Hg1.
    pose proof (subseteq_dom _ _ (make_all_grows _ _ _ _ Hys)) as Hg2.
    split.
    - intros z [->|Hz]%elem_of_cons; [set_solver|]. specialize (Hsy z Hz). set_solver.
    - intros a n Ha Hno z Hz. destruct (h2 !! a) as [n2|] eqn:Hn2.
      + assert (n2 = n) as -> by (eapply (lookup_weaken _ h1) in Hn2; [congruence|by eapply make_all_grows]).
        specialize (Htn a n Hn2 Hno z Hz). set_solver.
      + specialize (Hsn a n Ha Hn2 z Hz). set_solver. }
  cbn. rewrite !dom_insert_L.
  assert (x ∉ dom h) as Hxh.
  { intros Hin. apply (is_fresh (dom h1)). eapply subseteq_dom; [|done]. by eapply make_all_grows. }
  split; [set_solver|]. intros y n. destruct (decide (y = x)) as [->|Hy].
  - rewrite lookup_insert_eq. intros [= <-] _ z Hz. cbn in Hz. specialize (Hx z Hz). set_solver.
  - rewrite lookup_insert_ne by done. intros Hyn Hno z Hz. specialize (Hn y n Hyn Hno z Hz). set_solver.
Qed.

(** The graph in which every reader of [old] reads [new]. *)
Definition rewired (old new : nat) (os : list nat) (L0 L3 : lookups) : Prop :=
  dom L3 = dom L0 ∧ ∀ x k0, L0 !! x = Some k0 → ∃ k3, L3 !! x = Some k3 ∧
    node_discarded k3 = node_discarded k0 ∧
    ni_outputs k3 = (if decide (x = old) then [] else
                     if decide (x = new) then ni_outputs k0 ++ os else ni_outputs k0) ∧
    ∀ z, (occ z (ni_inputs k3) + (if decide (z = old) then occ x os else 0) =
          occ z (ni_inputs k0) + (if decide (z = new) then occ x os else 0))%nat.

Section rewired.
Context (old new : nat) (L0 L3 : lookups) (i0 : node_info).
Hypothesis (Hne : old ≠ new) (Hold : L0 !! old = Some i0) (Hnew : live L0 new).
Hypothesis Hrew : rewired old new (ni_outputs i0) L0 L3.

Lemma rewired_inv x k3 : L3 !! x = Some k3 → ∃ k0, L0 !! x = Some k0 ∧
  node_discarded k3 = node_discarded k0 ∧
  ni_outputs k3 = (if decide (x = old) then [] else
                   if decide (x = new) then ni_outputs k0 ++ ni_outputs i0 else ni_outputs k0) ∧
  ∀ z, (occ z (ni_inputs k3) + (if decide (z = old) then occ x (ni_outputs i0) else 0) =
        occ z (ni_inputs k0) + (if decide (z = new) then occ x (ni_outputs i0) else 0))%nat.
Proof.
  intros H3. destruct Hrew as [Hdom H]. assert (x ∈ dom L0) as Hx.
  { rewrite <- Hdom. by eapply elem_of_dom_2. }
  apply elem_of_dom in Hx as [k0 Hk0]. exists k0. split; [done|].
  destruct (H x k0 Hk0) as (k & Hk & ?). by simplify_eq.
Qed.

Lemma rewired_balanced : balanced L0 → balanced L3.
Proof.
  intros Hb x k Hk. destruct (rewired_inv x k Hk) as (k0 & Hk0 & _ & Hout & Hin).
  destruct (Hb x k0 Hk0) as (Hi & Ho & Hocc). destruct (Hb old i0 Hold) as (_ & Hoo & Hocco).
  rewrite (proj1 Hrew). split_and!.
  - intros y Hy. apply occ_elem in Hy. specialize (Hin y).
    destruct (decide (y = new)) as [->|Hyn].
    + destruct Hnew as (r & Hr & _). by eapply elem_of_dom_2.
    + apply Hi, occ_elem. destruct (decide (y = old)); lia.
  - intros y. rewrite Hout. repeat case_decide; [set_solver| |apply Ho].
    intros [?|?]%elem_of_app; [by apply Ho|by apply Hoo].
  - intros y j Hj. destruct (rewired_inv y j Hj) as (j0 & Hj0 & _ & _ & Hinj).
    specialize (Hinj x). specialize (Hocc y j0 Hj0). specialize (Hocco y j0 Hj0).
    rewrite Hout. destruct (decide (x = old)) as [->|Hxo].
    + rewrite occ_nil. rewrite (decide_False (P := old = new)) in Hinj by done. lia.
    + destruct (decide (x = new)) as [->|Hxn]; [rewrite occ_app|]; lia.
Qed.

Lemma rewired_buried : balanced L0 → buried L0 [] → node_discarded i0 = false → buried L3 [].
Proof.
  intros Hb Hd Hdo x k Hk Hkd. destruct (rewired_inv x k Hk) as (k0 & Hk0 & Hdis & Hout & Hin).
  rewrite Hdis in Hkd. destruct (Hd x k0 Hk0 Hkd) as [Ho Hi]. specialize (Hi ltac:(set_solver)).
  split.
  - rewrite Hout. repeat case_decide; [done| |done]. subst. destruct Hnew as (r & Hr & Hrd). congruence.
  - intros _. destruct (ni_inputs k) as [|z l] eqn:E; [done|].
    destruct (Hb old i0 Hold) as (_ & _ & Hocco). specialize (Hocco x k0 Hk0).
    specialize (Hin z). rewrite occ_cons, decide_True, Hi, occ_nil in Hin by done.
    rewrite Hi, occ_nil in Hocco. rewrite Hocco in Hin. repeat case_decide; lia.
Qed.

Lemma rewired_rooted tip :
  rooted tip L0 [new] → node_discarded i0 = false → old ≠ tip → rooted tip L3 [old].
Proof.
  intros Hr Hdo Hot x k Hk Hkd Hxt Hx. destruct (rewired_inv x k Hk) as (k0 & Hk0 & Hdis & Hout & _).
  rewrite Hout. rewrite (decide_False (P := x = old)) by set_solver. destruct (decide (x = new)).
  - pose proof (Hr old i0 Hold Hdo Hot ltac:(set_solver)) as Hos. intros [_ H]%app_nil. done.
  - apply (Hr x k0); try done; [congruence|set_solver].
Qed.
End rewired.

Lemma partial_of_consistent h h1 tip L :
  h ⊆ h1 → consistent h tip L → partial h1 tip [] [] L.
Proof.
  intros Hh [Hb Hd Hs Hr (t & Ht & Htd & Hto)]. split; [done|done| |done|].
  - intros x i Hi Hid Hx. destruct (Hs x i Hi Hid Hx) as (n & Hn & ?). exists n.
    split; [by eapply lookup_weaken|done].
  - intros i Hi. by simplify_eq.
Qed.

(** ** The engine *)

Section engine.
Context {A : Type} (impl : operator → list A → option A).

(** The graph is consistent, and each of its nodes has a value. *)
Record engine_ok (tip : nat) (e : engine) : Prop := {
  engine_consistent : consistent (nodes e) tip (node_lookups e);
  engine_known : ∀ x i, node_lookups e !! x = Some i → is_Some (nodes e !! x);
  engine_values : ∀ x, live (node_lookups e) x → is_Some (evaluate impl (nodes e) x);
}.

Lemma new_values t h h' x v :
  make_planner_node t h = Some (h', x) → eval_plan impl (evaluate impl h) t = Some v →
  ∀ y, y ∈ dom h' → y ∉ dom h → is_Some (evaluate impl h' y).
Proof.
  revert h h' x v. induction t as [a|op ts IH] using plan_ind'; intros h h' x v.
  { cbn. by intros [= <- <-]. }
  intros Hmake Hval. pose proof (make_planner_node_value impl _ _ _ _ _ Hmake Hval) as Hx.
  apply make_planner_node_New in Hmake as (h1 & xs & Hxs & _ & -> & ->).
  cbn in Hval. apply bind_Some in Hval as (vs & Hvs & _).
  assert (∀ y, y ∈ dom h1 → y ∉ dom h → is_Some (evaluate impl h1 y)) as Hall.
  { clear Hx. apply mapM_Some in Hvs. revert h xs Hxs vs Hvs.
    induction IH as [|t ts Ht _ IHts]; intros h xs Hxs vs Hvs.
    { injection Hxs as <- <-. done. }
    apply make_all_cons in Hxs as (h2 & z & zs & Hz & Hzs & ->).
    inversion_clear Hvs as [|? w ? ws Hw Hws]. intros y Hy Hno.
    pose proof (make_planner_node_grows _ _ _ _ Hz) as Hg.
    destruct (decide (y ∈ dom h2)) as [Hin|Hnin].
    - destruct (Ht _ _ _ _ Hz Hw y Hin Hno) as [u Hu]. exists u.
      eapply evaluate_grows; [|done]. by eapply make_all_grows.
    - eapply IHts; [done| |done|done]. eapply Forall2_impl; [done|].
      intros t' w'. by apply eval_plan_grows. }
  intros y. rewrite dom_insert_L. intros [->%elem_of_singleton|Hy]%elem_of_union Hno; [by exists v|].
  destruct (Hall y Hy Hno) as [u Hu]. exists u. eapply evaluate_grows; [|done].
  apply insert_subseteq, fresh_lookup.
Qed.

Lemma below_irrefl h x : is_Some (evaluate impl h x) → ¬ below h x x.
Proof.
  intros Hs Hb. destruct (least_exists impl _ h x Hs) as (f & _ & Hs' & Hmin).
  destruct f as [|f]; [by destruct Hs'|].
  eapply below_eval in Hs' as [w Hw]; [|done]. by rewrite Hmin in Hw by lia.
Qed.

(** The nodes under a live node are live and have a reader. *)
Lemma below_live h tip L x y :
  consistent h tip L → live L x → below h x y → live L y ∧ y ≠ tip.
Proof.
  intros [Hb Hd Hs Hr (t & Ht & Htd & Hto)] Hx Hxy. induction Hxy as [x y Hin|x y z Hin _ IH].
  2:{ apply IH. destruct Hin as (n & Hn & Hy). destruct Hx as (i & Hi & Hid).
      destruct (Hs x i Hi Hid) as (n' & Hn' & Heq); [set_solver|]. simplify_eq.
      rewrite Heq in Hy. by apply (live_inputs L [] x i). }
  destruct Hin as (n & Hn & Hy). destruct Hx as (i & Hi & Hid).
  destruct (Hs x i Hi Hid) as (n' & Hn' & Heq); [set_solver|]. simplify_eq. rewrite Heq in Hy.
  split; [by apply (live_inputs L [] x i)|]. intros ->. destruct (Hb tip t Ht) as (_ & _ & Hocc).
  specialize (Hocc x i Hi). rewrite Hto, occ_nil in Hocc. apply occ_elem in Hy. lia.
Qed.

Section replace_node.
Context (tip old new : nat) (e : engine) (t : plan) (h1 : heap) (v : A).
Let h := nodes e.
Let L := node_lookups e.
Hypothesis Hok : engine_ok tip e.
Hypothesis Hlive : live L old.
Hypothesis Htip : old ≠ tip.
Hypothesis Hval : evaluate impl h old = Some v.
Hypothesis Hleaves : ∀ y, y ∈ leaves t → below h old y.
Hypothesis Hplan : eval_plan impl (evaluate impl h) t = Some v.
Hypothesis Hmake : make_planner_node t h = Some (h1, new).

Definition allowed_node (x : nat) : Prop := (live L x ∧ x ≠ tip) ∨ (x ∈ dom h1 ∧ x ∉ dom h).

Lemma replace_grows : h ⊆ h1.
Proof. by eapply make_planner_node_grows. Qed.

Lemma new_or_leaf_allowed z : new_or_leaf t h h1 z → allowed_node z.
Proof.
  intros [Hz|Hz]; [left|by right]. eapply below_live; [apply Hok|done|by apply Hleaves].
Qed.

Lemma known_dom x : x ∈ dom L → x ∈ dom h.
Proof. intros [i Hi]%elem_of_dom. apply elem_of_dom. by eapply engine_known. Qed.

Lemma allowed_closed : closed h1 tip allowed_node L.
Proof.
  intros x [[(i & -> & Hi) _]|[Hx Hno]]; [done|].
  destruct (L !! x) as [i|] eqn:Hi.
  { exfalso. apply Hno, known_dom. by eapply elem_of_dom_2. }
  apply elem_of_dom in Hx as [n Hn]. exists n. split; [done|]. intros y Hy.
  destruct (make_planner_node_inputs _ _ _ _ Hmake) as [_ Hin]. apply not_elem_of_dom in Hno.
  pose proof (new_or_leaf_allowed y (Hin x n Hn Hno y Hy)) as Ha. split; [done|].
  destruct Ha as [[_ ?]|[_ Hyno]]; [done|]. intros ->. apply Hyno, known_dom.
  destruct (consistent_tip _ _ _ (engine_consistent _ _ Hok)) as (j & Hj & _). by eapply elem_of_dom_2.
Qed.

Lemma new_allowed : allowed_node new.
Proof. apply new_or_leaf_allowed, (make_planner_node_inputs _ _ _ _ Hmake). Qed.

Lemma new_not_old : old ≠ new.
Proof.
  intros Heq. destruct (make_planner_node_inputs _ _ _ _ Hmake) as [[Hl|[_ Hno]] _].
  - apply Hleaves in Hl. rewrite <- Heq in Hl. eapply below_irrefl; [|done]. by exists v.
  - apply Hno. rewrite <- Heq. apply known_dom. destruct Hlive as (i & Hi & _). by eapply elem_of_dom_2.
Qed.

Lemma new_not_tip : new ≠ tip.
Proof.
  destruct new_allowed as [[_ ?]|[_ Hno]]; [done|]. intros ->. apply Hno, known_dom.
  destruct (consistent_tip _ _ _ (engine_consistent _ _ Hok)) as (j & Hj & _). by eapply elem_of_dom_2.
Qed.

(** The graph once the new nodes are in it. *)
Lemma build_new :
  ∃ L0, build_node_info (S (base.size h1)) h1 new L = Some L0 ∧
    partial h1 tip [] [new] L0 ∧ built allowed_node L L0 ∧ live L0 new.
Proof.
  apply build_node_info_ok with (tip := tip) (D := allowed_node).
  - apply new_allowed.
  - apply allowed_closed.
  - eapply partial_of_consistent; [apply replace_grows|apply Hok].
  - unfold unknown. rewrite <- size_dom. apply Nat.lt_succ_r, subseteq_size. set_solver.
Qed.

Lemma live_built L0 x : built allowed_node L L0 → live L x → live L0 x.
Proof.
  intros [G _] (i & Hi & Hd). destruct (G x i Hi) as (i' & Hi' & _ & Hd' & _).
  exists i'. split; [done|congruence].
Qed.

(** Redirecting in the built graph. *)
Lemma redirect_new L0 i0 r0 :
  partial h1 tip [] [new] L0 → L0 !! old = Some i0 → node_discarded i0 = false →
  L0 !! new = Some r0 → node_discarded r0 = false →
  ∃ h2 L2, fold_option (redirect_output old new) (ni_outputs i0)
      (h1, <[new := set_outputs (ni_outputs r0 ++ ni_outputs i0) r0]> L0) = Some (h2, L2) ∧
    redirected old new h1 h2 ∧ dom h2 = dom h1 ∧
    let L3 := alter (set_outputs []) old L2 in
    rewired old new (ni_outputs i0) L0 L3 ∧ synced h2 L3 [].
Proof.
  intros [Hb Hd Hs Hr Ht] Hi0 Hid Hr0 Hrd. pose proof new_not_old as Hne.
  set (L1 := <[new := set_outputs (ni_outputs r0 ++ ni_outputs i0) r0]> L0).
  assert (∀ x k, L0 !! x = Some k → ∃ k1, L1 !! x = Some k1 ∧ ni_inputs k1 = ni_inputs k ∧
    node_discarded k1 = node_discarded k ∧
    ni_outputs k1 = if decide (x = new) then ni_outputs k ++ ni_outputs i0 else ni_outputs k) as Hlook.
  { intros x k Hk. unfold L1. destruct (decide (x = new)) as [->|Hx].
    - rewrite lookup_insert_eq. simplify_eq. by eexists.
    - rewrite lookup_insert_ne by done. by exists k. }
  assert (dom L1 = dom L0) as Hdom1.
  { unfold L1. rewrite dom_insert_L. apply elem_of_dom_2 in Hr0. set_solver. }
  assert (∀ x k1, L1 !! x = Some k1 → ∃ k, L0 !! x = Some k ∧ ni_inputs k1 = ni_inputs k ∧
    node_discarded k1 = node_discarded k) as Hback.
  { intros x k1 Hk1. assert (x ∈ dom L0) as [k Hk]%elem_of_dom by (rewrite <- Hdom1; by eapply elem_of_dom_2).
    exists k. destruct (Hlook x k Hk) as (k' & Hk' & ? & ? & _). by simplify_eq. }
  destruct (Hb old i0 Hi0) as (_ & Houts & Hocco).
  assert (∀ x, live L0 x → in_step h1 L1 x) as Hstep.
  { intros x (k & Hk & Hkd) k1 Hk1. destruct (Hback x k1 Hk1) as (k' & Hk' & -> & _).
    simplify_eq. apply (Hs x k); [done..|set_solver]. }
  destruct (redirect_outputs_ok old new Hne (ni_outputs i0) h1 L1) as (h2 & L2 & Hfold & Hred & Hdh & [Hdom2 Hmv] & Hst).
  - intros x Hx. rewrite Hdom1. split; [by apply Houts|]. apply Hstep.
    pose proof (Houts x Hx) as [k Hk]%elem_of_dom. exists k. split; [done|].
    destruct (node_discarded k) eqn:E; [|done]. destruct (Hd x k Hk E) as [_ Hin].
    specialize (Hocco x k Hk). rewrite (Hin ltac:(set_solver)), occ_nil in Hocco.
    apply occ_elem in Hx. lia.
  - intros x k1 Hk1. destruct (Hback x k1 Hk1) as (k & Hk & -> & _). by rewrite (Hocco x k Hk).
  - exists h2, L2. cbn zeta. split_and!; [done|done|done| |].
    + split; [by rewrite dom_alter_L, Hdom2|]. intros x k Hk.
      destruct (Hlook x k Hk) as (k1 & Hk1 & Hin1 & Hd1 & Ho1).
      destruct (Hmv x k1 Hk1) as (k2 & Hk2 & Ho2 & Hd2 & Hz). rewrite Hin1 in Hz.
      destruct (decide (x = old)) as [->|Hx].
      * rewrite lookup_alter_eq, Hk2. eexists. split; [done|]. cbn. split_and!; [congruence|done|done].
      * rewrite lookup_alter_ne, Hk2 by done. exists k2. split_and!; [done|congruence..|done].
    + intros x k3 Hk3 Hkd _.
      assert (∃ k2, L2 !! x = Some k2 ∧ ni_inputs k3 = ni_inputs k2 ∧ node_discarded k3 = node_discarded k2)
        as (k2 & Hk2 & -> & Hd2).
      { destruct (decide (x = old)) as [->|Hx].
        - rewrite lookup_alter_eq in Hk3. apply fmap_Some in Hk3 as (k2 & ? & ->). by exists k2.
        - rewrite lookup_alter_ne in Hk3 by done. by exists k3. }
      apply (Hst x); [|done]. apply Hstep.
      assert (x ∈ dom L0) as [k Hk]%elem_of_dom.
      { rewrite <- Hdom1, <- Hdom2. by eapply elem_of_dom_2. }
      exists k. split; [done|]. destruct (Hlook x k Hk) as (k1 & Hk1 & _ & Hd1 & _).
      destruct (Hmv x k1 Hk1) as (k2' & Hk2' & _ & Hd2' & _). simplify_eq. congruence.
Qed.

Lemma prune_synced hh L3 L4 : synced hh L3 [] → pruned L3 L4 → synced hh L4 [].
Proof.
  intros Hs [_ Hp] x k Hk Hkd _. destruct (Hp x k Hk) as (k3 & Hk3 & Hl).
  destruct (Hl Hkd) as [Hd ->]. apply (Hs x k3); [done..|set_solver].
Qed.

Lemma build_known fuel hh p LL i : LL !! p = Some i → build_node_info (S fuel) hh p LL = Some LL.
Proof. intros Hp. cbn. by rewrite Hp. Qed.

#[local] Arguments eliminate_node_and_prune : simpl never.
#[local] Arguments build_node_info : simpl never.

Lemma mark_node_as_active_elem mask hh active n x :
  x ∈ mark_node_as_active mask hh active n → x ∈ active ∨ x = n.
Proof. unfold mark_node_as_active. repeat case_match; set_solver. Qed.

Lemma mark_nodes_elem mask hh l : ∀ active x,
  x ∈ foldl (mark_node_as_active mask hh) active l → x ∈ active ∨ x ∈ l.
Proof.
  induction l as [|n l IH]; intros active x; cbn; [by left|].
  intros [[?| ->]%mark_node_as_active_elem|?]%IH; set_solver.
Qed.

(** Replacing a node succeeds, keeps the graph consistent and changes no value. *)
Lemma replace_node_ok mask :
  ∃ e', replace_node mask old t e = Some e' ∧ engine_ok tip e' ∧ ¬ live (node_lookups e') old ∧
    (∀ x w, evaluate impl h x = Some w → evaluate impl (nodes e') x = Some w) ∧
    (∀ x p, h !! x = Some p → ∃ p', nodes e' !! x = Some p' ∧ operator_type p' = operator_type p) ∧
    dom L ⊆ dom (node_lookups e') ∧
    ∀ x, x ∈ active_nodes e' → x ∈ active_nodes e ∨ x ∈ dom (node_lookups e').
Proof.
  pose proof new_not_old as Hno. unfold replace_node. cbn zeta. fold h L. destruct Hlive as (i & Hi & Hid). rewrite Hi. cbn.
  rewrite Hmake. cbn. rewrite Hid, (proj2 (Nat.eqb_neq old new) new_not_old). cbn.
  rewrite (build_known _ h1 old L i Hi). cbn. destruct build_new as (L0 & HL0 & HP & HB & Hnew).
  rewrite HL0. cbn.
  destruct (proj1 HB old i Hi) as (i0 & Hi0 & _ & Hid0 & _). rewrite Hid in Hid0.
  destruct Hnew as (r0 & Hr0 & Hrd). rewrite Hi0. cbn. rewrite Hr0. cbn.
  destruct (redirect_new L0 i0 r0 HP Hi0 Hid0 Hr0 Hrd) as (h2 & L2 & -> & Hred & Hdh & Hrew & Hsync).
  cbn [mbind option_bind]. destruct HP as [Hb Hd Hs Hr Ht]. set (L3 := alter (set_outputs []) old L2) in *.
  assert (live L0 new) as Hnew by by exists r0.
  destruct (proj2 Hrew old i0 Hi0) as (i3 & Hi3 & Hd3 & Ho3 & _). rewrite decide_True in Ho3 by done.
  destruct (eliminate_ok tip old L3 i3) as (L4 & -> & Hb4 & Hd4 & Hr4 & Ht4 & Hp4 & Hn4).
  - by apply (rewired_balanced old new L0 L3 i0).
  - by apply (rewired_buried old new L0 L3 i0).
  - by apply (rewired_rooted old new L0 L3 i0).
  - destruct (consistent_tip _ _ _ (engine_consistent _ _ Hok)) as (j & Hj & Hjd & Hjo).
    destruct (proj1 HB tip j Hj) as (j0 & Hj0 & _ & Hjd0 & _).
    destruct (proj2 Hrew tip j0 Hj0) as (j3 & Hj3 & Hjd3 & Hjo3 & _). exists j3.
    pose proof new_not_tip.
    split_and!; [done|congruence|]. rewrite Hjo3, (decide_False (P := tip = old)) by done.
    rewrite (decide_False (P := tip = new)) by done. by apply Ht.
  - done.
  - done.
  - done.
  - cbn. assert (new ∈ dom L4) as [r4 Hr4n]%elem_of_dom.
    { rewrite (proj1 Hp4), (proj1 Hrew). by eapply elem_of_dom_2. }
    rewrite Hr4n. cbn. eexists. split; [done|]. cbn.
    assert (∀ x w, evaluate impl h1 x = Some w → evaluate impl h2 x = Some w) as Heval.
    { intros x w. by apply (replace_value impl h h1 h2 old new t v). }
    assert (dom L4 = dom L0) as Hd40 by by rewrite (proj1 Hp4), (proj1 Hrew).
    split_and!; [split; cbn|done| | | |].
    + split; [done..| |done|done]. by eapply prune_synced.
    + intros x k Hk. apply elem_of_dom. rewrite Hdh.
      assert (x ∈ dom L0) as [k0 Hk0]%elem_of_dom.
      { rewrite <- (proj1 Hrew), <- (proj1 Hp4). by eapply elem_of_dom_2. }
      destruct (L !! x) as [kx|] eqn:Hkx.
      * eapply subseteq_dom; [apply replace_grows|]. apply known_dom. by eapply elem_of_dom_2.
      * destruct (proj2 HB x k0 Hk0 Hkx) as [[[(?&?&_) _]|[? _]] _]; [congruence|done].
    + intros x (k4 & Hk4 & Hkd4). destruct (proj2 Hp4 x k4 Hk4) as (k3 & Hk3 & Hl3).
      destruct (Hl3 Hkd4) as [Hkd3 _].
      destruct (rewired_inv old new L0 L3 i0 Hrew x k3 Hk3) as (k0 & Hk0 & Hkd0 & _).
      rewrite Hkd3 in Hkd0. assert (is_Some (evaluate impl h1 x)) as [w Hw]; [|exists w; by apply Heval].
      destruct (L !! x) as [kx|] eqn:Hkx.
      * destruct (proj1 HB x kx Hkx) as (k0' & Hk0' & _ & Hkd' & _). simplify_eq.
        destruct (engine_values _ _ Hok x) as [w Hw]; [exists kx; split; [done|congruence]|].
        exists w. eapply evaluate_grows; [apply replace_grows|done].
      * destruct (proj2 HB x k0 Hk0 Hkx) as [[[(?&?&_) _]|[? ?]] _]; [congruence|].
        by eapply new_values.
    + intros x w Hw. apply Heval. eapply evaluate_grows; [apply replace_grows|done].
    + intros x p Hp. destruct (Hred x p) as (p' & Hp' & Hop & _); [|by exists p'].
      eapply lookup_weaken; [done|apply replace_grows].
    + rewrite Hd40. apply grown_dom, HB.
    + destruct (Hb4 new r4 Hr4n) as (Hin & Hout & _). intros x Hx.
      apply mark_node_as_active_elem in Hx as [Hx| ->]; [|right; by eapply elem_of_dom_2].
      apply mark_nodes_elem in Hx as [Hx|Hx]; [|right; by apply Hout].
      apply mark_nodes_elem in Hx as [Hx|Hx]; [by left|right; by apply Hin].
Qed.
End replace_node.
End engine.

End QueryGraphInv.
