(* ===== verification/QueryRewrite.v ===== *)
(** The transforms of the query optimizer (planning/optimizations): each looks at a node and
    at what is under it, and gives the plan that replaces the node. *)
From S2P Require Import Prelude FlexType FlexOps QueryPlan QueryGraph.
Import FlexType FlexOps QueryPlan QueryGraph.
Local Open Scope Z_scope.
Local Open Scope sframe_scope.

Module QueryRewrite.

(** [apply_transform]: [None] is an exception or an access outside a vector; [Some None] is
    [return false]; [Some (Some t)] is [replace_node(n, t); return true]. *)
Abbreviation rewrite := (engine → nat → option (option plan)).

Definition node (e : engine) (n : nat) : option (operator * list nat) :=
  i ← node_lookups e !! n; p ← nodes e !! n; Some (operator_type p, ni_inputs i).

Definition node_type (e : engine) (n : nat) : option planner_node_type :=
  type_of ∘ fst <$> node e n.

Definition num_columns (e : engine) (n : nat) : option nat :=
  infer_planner_node_num_output_columns (nodes e) n.

Definition node_length (e : engine) (n : nat) : option Z :=
  infer_planner_node_length (nodes e) n.

(** [p("indices")] of a projection. *)
Definition indices_of (op : operator) : option (list nat) :=
  match op with op_project l => Some l | _ => None end.

(** ** Projections (project_transforms.hpp) *)

Definition opt_project_on_source : rewrite := λ e n,
  '(op, ins) ← node e n; flex_indices ← indices_of op; x ← head ins; '(opx, _) ← node e x;
  match opx with
  | op_sframe_source old_sf b en =>
      if (length old_sf <? length flex_indices)%nat then Some None
      else
        columns ← mapM (λ idx, old_sf !! idx) flex_indices;
        sf ← open_for_read columns;
        Some (Some (New (op_sframe_source sf b en) []))
  | _ => Some None
  end.

Definition opt_eliminate_identity_project : rewrite := λ e n,
  '(op, ins) ← node e n; flex_indices ← indices_of op; x ← head ins; nc ← num_columns e x;
  if negb (length flex_indices =? nc)%nat then Some None
  else if bool_decide (flex_indices = seq 0 (length flex_indices))
  then Some (Some (Old x)) else Some None.

Definition opt_merge_projects : rewrite := λ e n,
  '(op, ins) ← node e n; iv_2 ← indices_of op; x ← head ins; '(opx, insx) ← node e x;
  match opx with
  | op_project iv_1 =>
      y ← head insx; nc ← num_columns e y;
      let first_is_contraction := (length iv_1 <? nc)%nat in
      let second_is_expansion := (length iv_1 <? length iv_2)%nat in
      if first_is_contraction && second_is_expansion then Some None
      else iv_out ← mapM (λ idx, iv_1 !! idx) iv_2; Some (Some (New (op_project iv_out) [Old y]))
  | _ => Some None
  end.

Definition opt_project_append_exchange : rewrite := λ e n,
  '(op, ins) ← node e n; iv ← indices_of op; x ← head ins; '(opx, insx) ← node e x;
  match opx, insx with
  | op_append, [a; b] =>
      nc ← num_columns e x;
      if (nc <? length iv)%nat then Some None
      else Some (Some (New op_append [New (op_project iv) [Old a]; New (op_project iv) [Old b]]))
  | op_append, _ => None
  | _, _ => Some None
  end.

Definition opt_project_logical_filter_exchange : rewrite := λ e n,
  '(op, ins) ← node e n; iv ← indices_of op; x ← head ins; '(opx, insx) ← node e x;
  match opx, insx with
  | op_logical_filter, [a; m] =>
      nc ← num_columns e x;
      if (nc <? length iv)%nat then Some None
      else Some (Some (New op_logical_filter [New (op_project iv) [Old a]; Old m]))
  | op_logical_filter, _ => None
  | _, _ => Some None
  end.

(** [opt_union_project_exchange]: the columns of the union that the projection uses. *)
Fixpoint mark_used (out_iv : list nat) (output_used : list bool) : option (list bool) :=
  match out_iv with
  | [] => Some output_used
  | idx :: out_iv =>
      _ ← output_used !! idx; mark_used out_iv (<[idx := true]> output_used)
  end.

Record exchange := Exchange {
  current_offset : nat;
  current_input : nat;
  current_input_idx : nat;
  projections_by_input : list (list nat);
  input_needs_projection : list bool;
  remapped_indices : list (option nat);
}.

(** One turn of the loop over the columns of the union; [input_columns] are the widths of the
    inputs. *)
Definition exchange_step (input_columns : list nat) (st : exchange) (i : nat) (used : bool)
  : option exchange :=
  let c := current_input st in
  l ← projections_by_input st !! c; nc ← input_columns !! c;
  let st :=
    if used : bool then
      Exchange (current_offset st) c (current_input_idx st)
        (<[c := l ++ [current_input_idx st]]> (projections_by_input st))
        (input_needs_projection st)
        (remapped_indices st ++ [Some (i - current_offset st)%nat])
    else
      Exchange (S (current_offset st)) c (current_input_idx st) (projections_by_input st)
        (<[c := true]> (input_needs_projection st)) (remapped_indices st ++ [None]) in
  let idx := S (current_input_idx st) in
  Some (if (idx =? nc)%nat
        then Exchange (current_offset st) (S c) 0 (projections_by_input st)
               (input_needs_projection st) (remapped_indices st)
        else Exchange (current_offset st) c idx (projections_by_input st)
               (input_needs_projection st) (remapped_indices st)).

Fixpoint exchange_loop (input_columns : list nat) (st : exchange) (i : nat) (output_used : list bool)
  : option exchange :=
  match output_used with
  | [] => Some st
  | u :: output_used =>
      st ← exchange_step input_columns st i u; exchange_loop input_columns st (S i) output_used
  end.

(** The inputs that are left, projected where a column goes. *)
Fixpoint exchange_inputs (ins : list nat) (projections : list (list nat)) (needs : list bool)
  : list plan :=
  match ins, projections, needs with
  | x :: ins, l :: projections, need :: needs =>
      match l with
      | [] => exchange_inputs ins projections needs
      | _ => (if need : bool then New (op_project l) [Old x] else Old x)
             :: exchange_inputs ins projections needs
      end
  | _, _, _ => []
  end.

Definition opt_union_project_exchange : rewrite := λ e n,
  '(op, ins) ← node e n; out_iv ← indices_of op; u_node ← head ins; '(opu, insu) ← node e u_node;
  match opu with
  | op_union =>
      nc ← num_columns e u_node;
      output_used ← mark_used out_iv (replicate nc false);
      if forallb id output_used then Some None
      else
        input_columns ← mapM (num_columns e) insu;
        let k := length insu in
        st ← exchange_loop input_columns (Exchange 0 0 0 (replicate k []) (replicate k false) [])
               0 output_used;
        new_projection_indices ← mapM (λ idx, mjoin (remapped_indices st !! idx)) out_iv;
        match exchange_inputs insu (projections_by_input st) (input_needs_projection st) with
        | [x] => Some (Some (New (op_project new_projection_indices) [x]))
        | xs => Some (Some (New (op_project new_projection_indices) [New op_union xs]))
        end
  | _ => Some None
  end.

(** [opt_split_contractive_expansive_projection]: the distinct indices in the order of their
    first occurrence ([idx_map] gives their places), and the places. *)
Fixpoint split_indices (iv : list nat) (indices_1 indices_2 : list nat) : list nat * list nat :=
  match iv with
  | [] => (indices_1, indices_2)
  | idx :: iv =>
      match list_find (idx =.) indices_1 with
      | Some (k, _) => split_indices iv indices_1 (indices_2 ++ [k])
      | None => split_indices iv (indices_1 ++ [idx]) (indices_2 ++ [length indices_1])
      end
  end.

Definition opt_split_contractive_expansive_projection : rewrite := λ e n,
  '(op, ins) ← node e n; iv ← indices_of op; x ← head ins; n_cols ← num_columns e x;
  let used_indices := base.size (list_to_set iv : gset nat) in
  if negb ((used_indices <? n_cols)%nat && (n_cols <=? length iv)%nat) then Some None
  else
    let '(indices_1, indices_2) := split_indices iv [] [] in
    Some (Some (New (op_project indices_2) [New (op_project indices_1) [Old x]])).

(** ** Appends (append_transforms.hpp) *)

(** [sarray::append] and [sframe::append]; the names, which are made to agree, are left out. *)
Definition sarray_append (a b : sarray) : sarray := SArray (sa_type a) (sa_data a ++ sa_data b).

Fixpoint sframe_append_columns (a b : sframe) : option sframe :=
  match a, b with
  | [], [] => Some []
  | x :: a, y :: b =>
      if bool_decide (sa_type x = sa_type y)
      then sf ← sframe_append_columns a b; Some (sarray_append x y :: sf) else None
  | _, _ => None
  end.

(** A frame that was never opened has no column. *)
Definition sframe_append (a b : sframe) : option sframe :=
  match a, b with
  | _, [] => Some a
  | [], _ => Some b
  | _, _ => sframe_append_columns a b
  end.

(** The source frame of a node that is read whole. *)
Definition whole_sframe (op : operator) : option sframe :=
  match op with
  | op_sframe_source sf b e =>
      if (b =? 0) && (e =? Z.of_nat (num_rows sf)) then Some sf else None
  | _ => None
  end.

(** [try_sframe_append]: [Some None] is [{false, _}]. *)
Fixpoint try_sframe_append (ops : list operator) (new_sf : sframe) : option (option sframe) :=
  match ops with
  | [] => Some (Some new_sf)
  | op :: ops =>
      match whole_sframe op with
      | None => Some None
      | Some sf =>
          new_sf ← (if (num_rows sf =? 0)%nat then Some new_sf else sframe_append new_sf sf);
          try_sframe_append ops new_sf
      end
  end.

Definition whole_sarray (op : operator) : option sarray :=
  match op with
  | op_sarray_source sa b e =>
      if (b =? 0) && (e =? Z.of_nat (length (sa_data sa))) then Some sa else None
  | _ => None
  end.

(** [try_sarray_append]; [None] in the accumulator: an array that was never opened. *)
Fixpoint try_sarray_append (ops : list operator) (new_sa : option sarray) : option (option sarray) :=
  match ops with
  | [] => Some new_sa
  | op :: ops =>
      match whole_sarray op with
      | None => None
      | Some sa =>
          try_sarray_append ops
            (if (length (sa_data sa) =? 0)%nat then new_sa
             else match new_sa with None => Some sa | Some a => Some (sarray_append a sa) end)
      end
  end.

Definition is_source_array (op : operator) : bool :=
  bool_decide (type_of op = SFRAME_SOURCE_NODE) || bool_decide (type_of op = SARRAY_SOURCE_NODE).

Definition opt_append_on_source : rewrite := λ e n,
  '(op, ins) ← node e n; ops ← mapM (λ x, fst <$> node e x) ins;
  a ← ops !! 0%nat; b ← ops !! 1%nat;
  if negb (is_source_array a && is_source_array b) then Some None
  else
    sframe_append_result ← try_sframe_append ops [];
    match sframe_append_result with
    | Some new_sf =>
        new_sf ← (if (num_rows new_sf =? 0)%nat then whole_sframe a else Some new_sf);
        Some (Some (New (op_sframe_source new_sf 0 (Z.of_nat (num_rows new_sf))) []))
    | None =>
        match try_sarray_append ops None with
        | Some new_sa =>
            new_sa ← match new_sa with None => whole_sarray a | _ => new_sa end;
            Some (Some (New (op_sarray_source new_sa 0 (Z.of_nat (length (sa_data new_sa)))) []))
        | None => Some None
        end
    end.

Definition opt_eliminate_empty_append : rewrite := λ e n,
  '(op, ins) ← node e n; a ← ins !! 0%nat; b ← ins !! 1%nat;
  lb ← node_length e b;
  if lb =? 0 then Some (Some (Old a))
  else la ← node_length e a; if la =? 0 then Some (Some (Old b)) else Some None.

(** ** Filters (logical_filter_transforms.hpp) *)

Definition opt_logical_filter_linear_transform_exchange : rewrite := λ e n,
  '(op, ins) ← node e n; x ← ins !! 0%nat; '(opx, _) ← node e x; i ← node_lookups e !! x;
  if negb (is_linear_transform (type_of opx)) || (1 <? length (ni_outputs i))%nat
     || bool_decide (type_of opx = PROJECT_NODE)
  then Some None
  else
    p ← nodes e !! x; logical_filter_mask ← ins !! 1%nat;
    Some (Some (New opx (map (λ y, New op_logical_filter [Old y; Old logical_filter_mask]) (inputs p)))).

Definition opt_logical_filter_expanding_project_exchange : rewrite := λ e n,
  '(op, ins) ← node e n; x ← ins !! 0%nat; '(opx, insx) ← node e x;
  match opx with
  | op_project iv =>
      y ← head insx; nc ← num_columns e y;
      if (length iv <=? nc)%nat then Some None
      else
        m ← ins !! 1%nat;
        Some (Some (New (op_project iv) [New op_logical_filter [Old y; Old m]]))
  | _ => Some None
  end.

(** ** Unions (union_transforms.hpp) *)

(** [add]: the leaves of a tree of unions. *)
Fixpoint union_leaves (fuel : nat) (e : engine) (nn : nat) : option (list nat) :=
  match fuel with
  | O => None
  | S fuel =>
      '(op, ins) ← node e nn;
      match op with
      | op_union => mjoin <$> mapM (union_leaves fuel e) ins
      | _ => Some [nn]
      end
  end.

Definition input_types (e : engine) (ins : list nat) : option (list planner_node_type) :=
  mapM (node_type e) ins.

(** [input_type_present(t, threshhold)]. *)
Definition input_type_present (t : planner_node_type) (threshhold : nat) (types : list planner_node_type) : bool :=
  (threshhold <=? length (filter (t =.) types))%nat.

Definition opt_union_merge : rewrite := λ e n,
  '(_, ins) ← node e n; types ← input_types e ins;
  if negb (input_type_present UNION_NODE 1 types) then Some None
  else
    inputs ← union_leaves (base.size (nodes e)) e n;
    Some (Some (New op_union (map Old inputs))).

Definition opt_eliminate_singleton_union : rewrite := λ e n,
  '(_, ins) ← node e n;
  match ins with [x] => Some (Some (Old x)) | _ => Some None end.

(** [merge_info]: the arrays with one range, with their places in the output, or an input. *)
Inductive merge_info :=
  | Arrays (begin_index end_index : Z) (sa_v : list (nat * sarray))
  | Input (input : nat) (output_index_start output_index_end : nat).

(** The range and the columns of a source. *)
Definition source_columns (op : operator) : option (Z * Z * list sarray) :=
  match op with
  | op_sframe_source sf b e => Some (b, e, sf)
  | op_sarray_source sa b e => Some (b, e, [sa])
  | _ => None
  end.

(** The arrays of a source join the group of their range, or make one. *)
Fixpoint merge_source (b e : Z) (sa_v : list (nat * sarray)) (map_info : list merge_info)
  : list merge_info :=
  match map_info with
  | [] => [Arrays b e sa_v]
  | Arrays b' e' sa_v' :: map_info =>
      if (b =? b') && (e =? e') then Arrays b' e' (sa_v' ++ sa_v) :: map_info
      else Arrays b' e' sa_v' :: merge_source b e sa_v map_info
  | m :: map_info => m :: merge_source b e sa_v map_info
  end.

Fixpoint merge_inputs (e : engine) (ins : list nat) (current_output_idx : nat)
    (map_info : list merge_info) : option (nat * list merge_info) :=
  match ins with
  | [] => Some (current_output_idx, map_info)
  | x :: ins =>
      '(op, _) ← node e x;
      match source_columns op with
      | Some (b, en, columns) =>
          merge_inputs e ins (current_output_idx + length columns)
            (merge_source b en (zip (seq current_output_idx (length columns)) columns) map_info)
      | None =>
          nc ← num_columns e x;
          merge_inputs e ins (current_output_idx + nc)
            (map_info ++ [Input x current_output_idx (current_output_idx + nc)])
      end
  end.

(** The places in the output of the columns that an entry gives, and the input it becomes. *)
Definition merge_places (m : merge_info) : list nat :=
  match m with
  | Arrays _ _ sa_v => sa_v.*1
  | Input _ s e => seq s (e - s)
  end.

Definition merge_plan (m : merge_info) : option plan :=
  match m with
  | Arrays b e sa_v => sf ← open_for_read (sa_v.*2); Some (New (op_sframe_source sf b e) [])
  | Input x _ _ => Some (Old x)
  end.

(** [indices[out_idx] = mapped_idx; ++mapped_idx] over a list of places. *)
Fixpoint assign_places (places : list nat) (mapped_idx : nat) (indices : list (option nat))
  : list (option nat) :=
  match places with
  | [] => indices
  | out_idx :: places =>
      assign_places places (S mapped_idx) (<[out_idx := Some mapped_idx]> indices)
  end.

Definition output_indices (places : list nat) (n : nat) : option (list nat) :=
  mapM id (assign_places places 0 (replicate n None)).

Fixpoint all_consecutive (l : list nat) : bool :=
  match l with
  | x :: (y :: _) as l => (S x =? y)%nat && all_consecutive l
  | _ => true
  end.

Definition opt_union_on_source : rewrite := λ e n,
  '(_, ins) ← node e n; ops ← mapM (λ x, fst <$> node e x) ins;
  let sources := omap source_columns ops in
  if (length sources <? 2)%nat then Some None
  else if (base.size (list_to_set (sources.*1) : gset (Z * Z)) =? length sources)%nat then Some None
  else
    '(num_outputs, map_info) ← merge_inputs e ins 0 [];
    match map_info with
    | [Arrays b en sa_v] =>
        sf ← open_for_read (sa_v.*2); Some (Some (New (op_sframe_source sf b en) []))
    | _ =>
        inputs ← mapM merge_plan map_info;
        output_projection_indices ← output_indices (mjoin (map merge_places map_info)) num_outputs;
        let new_pnode := New op_union inputs in
        Some (Some (if all_consecutive output_projection_indices then new_pnode
                    else New (op_project output_projection_indices) [new_pnode]))
    end.

(** [opt_union_project_merge]: an entry per node that is projected, or read as it is. *)
Record input_info := InputInfo { in_node : nat; in_indices : list nat; in_places : list nat }.

Fixpoint merge_input (x : nat) (indices places : list nat) (input_v : list input_info)
  : list input_info :=
  match input_v with
  | [] => [InputInfo x indices places]
  | ii :: input_v =>
      if (in_node ii =? x)%nat
      then InputInfo x (in_indices ii ++ indices) (in_places ii ++ places) :: input_v
      else ii :: merge_input x indices places input_v
  end.

Fixpoint merge_projects (e : engine) (ins : list nat) (current_output_index_start : nat)
    (input_v : list input_info) : option (list input_info) :=
  match ins with
  | [] => Some input_v
  | nn :: ins =>
      '(op, insn) ← node e nn; nc ← num_columns e nn;
      let places := seq current_output_index_start nc in
      match op with
      | op_project p_iv =>
          x ← head insn;
          merge_projects e ins (current_output_index_start + nc) (merge_input x p_iv places input_v)
      | _ =>
          merge_projects e ins (current_output_index_start + nc) (merge_input nn (seq 0 nc) places input_v)
      end
  end.

(** The quick check: two projections of one node. *)
Fixpoint mergable_projection_present (e : engine) (ins : list nat) (project_inputs : list nat) : bool :=
  match ins with
  | [] => false
  | nn :: ins =>
      match node e nn with
      | Some (op_project _, x :: _) =>
          bool_decide (x ∈ project_inputs) || mergable_projection_present e ins (x :: project_inputs)
      | _ => mergable_projection_present e ins project_inputs
      end
  end.

Definition merged_input (e : engine) (ii : input_info) : option plan :=
  nc ← num_columns e (in_node ii);
  Some (if (length (in_indices ii) =? nc)%nat && all_consecutive (in_indices ii)
        then Old (in_node ii) else New (op_project (in_indices ii)) [Old (in_node ii)]).

Definition opt_union_project_merge : rewrite := λ e n,
  '(_, ins) ← node e n; types ← input_types e ins;
  if negb (input_type_present PROJECT_NODE 2 types) then Some None
  else if negb (mergable_projection_present e ins []) then Some None
  else
    input_v ← merge_projects e ins 0 []; nc ← num_columns e n;
    new_inputs ← mapM (merged_input e) input_v;
    final_projection ← output_indices (mjoin (map in_places input_v)) nc;
    let in_node := match new_inputs with [x] => x | _ => New op_union new_inputs end in
    Some (Some (New (op_project final_projection) [in_node])).

(** ** Unions with projections (general_union_project_transforms.hpp) *)

Fixpoint offsets (offset : nat) (columns : list nat) : list nat :=
  match columns with [] => [] | nc :: columns => offset :: offsets (offset + nc) columns end.

Definition opt_expand_generalized_union_project : rewrite := λ e n,
  '(op, ins) ← node e n; columns ← mapM (num_columns e) ins;
  match op with
  | op_union_project index_map =>
      let idx_offsets := offsets 0 columns in
      project_map ← mapM (λ p, o ← idx_offsets !! p.1; Some (o + p.2)%nat) index_map;
      Some (Some (New (op_project project_map) [New op_union (map Old ins)]))
  | _ => None
  end.

Fixpoint union_index_map (i : nat) (columns : list nat) : list (nat * nat) :=
  match columns with
  | [] => []
  | nc :: columns => map (pair i) (seq 0 nc) ++ union_index_map (S i) columns
  end.

Definition opt_union_to_generalized_union_project : rewrite := λ e n,
  '(_, ins) ← node e n; columns ← mapM (num_columns e) ins;
  Some (Some (New (op_union_project (union_index_map 0 columns)) (map Old ins))).

Definition opt_project_to_generalized_union_project : rewrite := λ e n,
  '(op, ins) ← node e n; iv ← indices_of op; x ← head ins;
  Some (Some (New (op_union_project (map (pair 0%nat) iv)) [Old x])).

(** [get_input]: the place of a node in the new inputs, where it goes if it is not there. *)
Definition get_input (inputs : list nat) (nn : nat) : list nat * nat :=
  match list_find (nn =.) inputs with
  | Some (k, _) => (inputs, k)
  | None => (inputs ++ [nn], length inputs)
  end.

Fixpoint merge_index_map (e : engine) (ins : list nat) (index_map : list (nat * nat))
    (inputs : list nat) : option (list nat * list (nat * nat)) :=
  match index_map with
  | [] => Some (inputs, [])
  | (old_input_idx, old_input_col) :: index_map =>
      nn ← ins !! old_input_idx; '(opn, insn) ← node e nn;
      '(src, col) ← match opn with
        | op_union_project local_input_index_maps =>
            sub_idx_p ← local_input_index_maps !! old_input_col;
            x ← insn !! sub_idx_p.1; Some (x, sub_idx_p.2)
        | _ => Some (nn, old_input_col)
        end;
      let '(inputs, k) := get_input inputs src in
      '(inputs, rest) ← merge_index_map e ins index_map inputs;
      Some (inputs, (k, col) :: rest)
  end.

Definition opt_merge_generalized_union_projects : rewrite := λ e n,
  '(op, ins) ← node e n; types ← input_types e ins;
  match op with
  | op_union_project input_index_maps =>
      if negb (input_type_present GENERALIZED_UNION_PROJECT_NODE 1 types) then Some None
      else
        '(inputs, index_map) ← merge_index_map e ins input_index_maps [];
        Some (Some (New (op_union_project index_map) (map Old inputs)))
  | _ => None
  end.

End QueryRewrite.
