(* ===== verification/QueryView.v ===== *)
(** Plans that only rearrange columns, one row at a time. The operators that do so act alike
    on the types of a node and on each of its rows; a transform is judged once, on a [view]
    that stands for either, and [rearranges_value] lifts the result to whole tables. *)
From S2P Require Import Prelude FlexType FlexOps QueryPlan QueryPlanSpec QueryGraph.
From S2P Require Import QueryGraphSpec QueryGraphInv QueryRewrite.
Import FlexType FlexOps QueryPlan QueryPlanSpec QueryGraph QueryGraphSpec QueryGraphInv QueryRewrite.
Local Open Scope Z_scope.
Local Open Scope sframe_scope.

Module QueryView.

(** ** Operators that rearrange columns *)

Definition is_shuffle (op : operator) : bool :=
  match op with op_project _ | op_union | op_union_project _ => true | _ => false end.

Definition nonempty {A} (l : list A) : option (list A) :=
  match l with [] => None | _ => Some l end.

Lemma nonempty_Some {A} (l k : list A) : nonempty l = Some k ↔ k = l ∧ l ≠ [].
Proof. destruct l; cbn; naive_solver. Qed.

Definition shuffle {A} (op : operator) (rows : list (list A)) : option (list A) :=
  match op, rows with
  | _, [] => None
  | op_project idx, [r] => mapM (λ i, r !! i) idx ≫= nonempty
  | op_union, _ => nonempty (concat rows)
  | op_union_project m, _ => mapM (λ p, r ← rows !! p.1; r !! p.2) m ≫= nonempty
  | _, _ => None
  end.

Lemma shuffle_is_shuffle {A} op (rows : list (list A)) r :
  shuffle op rows = Some r → is_shuffle op = true.
Proof. destruct op, rows; try done. Qed.

Section plans.
Context {SA : SoftAssign}.

Lemma shuffle_linear_row op rs r :
  is_shuffle op = true → inputs_match op (length rs) = true →
  shuffle op rs = Some r ↔ rs ≠ [] ∧ linear_row op rs = Some r ∧ r ≠ [].
Proof.
  intros Hop Hin. destruct op; try discriminate Hop; destruct rs as [|x rs]; try (cbn; naive_solver; fail).
  - destruct rs as [|]; [|apply inputs_match_true in Hin; cbn in Hin; lia]. destruct indices as [|i l]; [cbn; naive_solver|].
    unfold shuffle, linear_row. rewrite bind_Some. setoid_rewrite nonempty_Some. naive_solver.
  - unfold shuffle, linear_row. rewrite nonempty_Some. naive_solver.
  - unfold shuffle, linear_row. rewrite bind_Some. setoid_rewrite nonempty_Some. naive_solver.
Qed.

Lemma shuffle_infer_type op types tys :
  is_shuffle op = true → inputs_match op (length types) = true →
  shuffle op types = Some tys ↔ types ≠ [] ∧ infer_type_impl op types = Some tys ∧ tys ≠ [].
Proof.
  intros Hop Hin. destruct op; try discriminate Hop; destruct types as [|x types]; try (cbn; naive_solver; fail).
  - destruct types as [|]; [|apply inputs_match_true in Hin; cbn in Hin; lia].
    unfold shuffle, infer_type_impl. cbn. rewrite bind_Some. setoid_rewrite nonempty_Some. naive_solver.
  - unfold shuffle, infer_type_impl. rewrite nonempty_Some. naive_solver.
  - unfold shuffle, infer_type_impl. rewrite bind_Some. setoid_rewrite nonempty_Some. naive_solver.
Qed.

Lemma shuffle_inputs_match {A} op (rows : list (list A)) r :
  shuffle op rows = Some r → inputs_match op (length rows) = true ∧ rows ≠ [].
Proof. by destruct op, rows as [|? [|]]. Qed.

Lemma is_shuffle_linear op : is_shuffle op = true → is_linear_transform (type_of op) = true.
Proof. by destruct op. Qed.

(** A shuffle of tables, from its types and its rows. *)
Lemma plan_shuffle op vs tys t :
  is_shuffle op = true → Forall wide vs →
  plan_impl op vs = Some (tys, t) ↔
  shuffle op (vs.*1) = Some tys ∧ Forall (λ v : ttable, length (v.2) = length t) vs ∧
  ∀ k r, t !! k = Some r →
    ∃ rs, mapM (λ v : ttable, v.2 !! k) vs = Some rs ∧ shuffle op rs = Some r.
Proof.
  intros Hop Hw. rewrite plan_impl_Some. cbn [fst snd].
  rewrite denote_linear by by apply is_shuffle_linear. rewrite length_fmap.
  rewrite lockstep_Some, Forall_fmap.
  assert (∀ k rs, mapM (λ u : table, u !! k) (vs.*2) = Some rs ↔ mapM (λ v : ttable, v.2 !! k) vs = Some rs) as Hrows.
  { intros k rs. by rewrite mapM_fmap_setoid || rewrite !mapM_Some, Forall2_fmap_l. }
  split.
  - intros (Hinf & (Hin & Hne & Hlen & Hrow) & Htys). split_and!; [|done|].
    + apply shuffle_infer_type; [done|by rewrite length_fmap|]. split_and!; [|done..].
      by destruct vs.
    + intros k r Hk. destruct (Hrow k r Hk) as (rs & Hrs & Hr). exists rs.
      apply Hrows in Hrs. split; [done|]. pose proof (length_mapM _ _ _ Hrs) as Hl.
      apply shuffle_linear_row; [done|by rewrite <- Hl|]. split_and!; [|done|].
      * intros ->. by destruct vs.
      * assert (length r = length tys) as Hlr.
        { pose proof (plan_impl_wide op vs (tys, t) Hw) as Hwt. unfold wide in Hwt. cbn in Hwt.
          eapply (Forall_lookup_1 (λ r : row, length r = length tys)); [|done]. apply Hwt, plan_impl_Some.
          split_and!; [done| |done]. apply denote_linear; [by apply is_shuffle_linear|].
          rewrite length_fmap. split; [done|]. apply lockstep_Some.
          by rewrite Forall_fmap. }
        intros ->. by destruct tys.
  - intros (Hty & Hlen & Hrow). destruct (shuffle_inputs_match _ _ _ Hty) as [Hin Hne].
    rewrite length_fmap in Hin. apply shuffle_infer_type in Hty as (_ & ? & ?); [|done|by rewrite length_fmap].
    split_and!; [done|done|by destruct vs|done| |done]. intros k r Hk. destruct (Hrow k r Hk) as (rs & Hrs & Hr).
    exists rs. split; [by apply Hrows|]. pose proof (length_mapM _ _ _ Hrs) as Hl.
    apply shuffle_linear_row in Hr; [tauto|done|by rewrite <- Hl].
Qed.
End plans.

(** ** Views *)

(** One step down through operators that rearrange. *)
Definition shuffle_input (e : engine) (x y : nat) : Prop :=
  ∃ op ins, node e x = Some (op, ins) ∧ is_shuffle op = true ∧ y ∈ ins.
Definition reach (e : engine) : nat → nat → Prop := tc (shuffle_input e).

(** What a node is at one place: its types, or one of its rows. [src b e sa] is the cell that
    a column gives in the range of a source. *)
Record view {A} (e : engine) (src : Z → Z → sarray → option A) (val : nat → option (list A)) : Prop := {
  view_width x r nc : val x = Some r → num_columns e x = Some nc → length r = nc;
  view_node x op ins r : node e x = Some (op, ins) → is_shuffle op = true → val x = Some r →
    ∃ rs, mapM val ins = Some rs ∧ shuffle op rs = Some r;
  view_source x op ins b en cols r : node e x = Some (op, ins) →
    source_columns op = Some (b, en, cols) → val x = Some r → mapM (src b en) cols = Some r;
  view_nonempty x r : val x = Some r → r ≠ [];
}.

(** A plan at one place. *)
Fixpoint shuffle_plan {A} (src : Z → Z → sarray → option A) (val : nat → option (list A)) (p : plan)
  : option (list A) :=
  match p with
  | Old x => val x
  | New op ts =>
      match source_columns op, ts with
      | Some (b, en, cols), [] => mapM (src b en) cols ≫= nonempty
      | Some _, _ => None
      | None, _ => rs ← mapM (shuffle_plan src val) ts; shuffle op rs
      end
  end.

Fixpoint plan_sources (p : plan) : list (Z * Z * list sarray) :=
  match p with
  | Old _ => []
  | New op ts =>
      match source_columns op with Some s => [s] | None => concat (map plan_sources ts) end
  end.

(** A source of the plan shares a column and the range with a source under the node. *)
Definition source_known (e : engine) (n : nat) (s : Z * Z * list sarray) : Prop :=
  columns_agree s.2 ∧
  (s.2 ≠ [] → ∃ x op ins cols c, reach e n x ∧ node e x = Some (op, ins) ∧
    source_columns op = Some (s.1, cols) ∧ c ∈ cols ∧ c ∈ s.2).

Record rearranges (e : engine) (n : nat) (p : plan) : Prop := {
  rearranges_leaves : ∀ y, y ∈ leaves p → reach e n y;
  rearranges_sources : ∀ s, s ∈ plan_sources p → source_known e n s;
  rearranges_view : ∀ A src (val : nat → option (list A)) r,
    view e src val → val n = Some r → shuffle_plan src val p = Some r;
}.

(** ** From views to tables *)

Definition is_live (e : engine) (x : nat) : bool :=
  match node_lookups e !! x with Some i => negb (node_discarded i) | None => false end.

Lemma is_live_spec e x : is_live e x = true ↔ live (node_lookups e) x.
Proof.
  unfold is_live, live. destruct (node_lookups e !! x) as [i|]; [|naive_solver].
  destruct (node_discarded i) eqn:E; naive_solver.
Qed.

Section value.
Context {SA : SoftAssign} (e : engine) (tip : nat).
Hypothesis Hok : engine_ok plan_impl tip e.

Definition val_types (x : nat) : option (list flex_type_enum) :=
  if is_live e x then fst <$> denote (nodes e) x else None.
Definition val_row (k : nat) (x : nat) : option row :=
  if is_live e x then v ← denote (nodes e) x; v.2 !! k else None.

(** A live node, its operator, its inputs and their values. *)
Lemma node_denote n op ins v :
  live (node_lookups e) n → node e n = Some (op, ins) → denote (nodes e) n = Some v →
  ∃ vs, mapM (denote (nodes e)) ins = Some vs ∧ plan_impl op vs = Some v ∧ Forall wide vs ∧
    (∀ x, x ∈ ins → live (node_lookups e) x ∧ below (nodes e) n x) ∧
    ∃ p, nodes e !! n = Some p ∧ operator_type p = op ∧ inputs p = ins.
Proof.
  intros (i & Hi & Hid) Hn Hv. unfold node in Hn. rewrite Hi in Hn. cbn in Hn.
  apply bind_Some in Hn as (p & Hp & [= <- <-]).
  destruct (consistent_synced _ _ _ (engine_consistent _ _ _ Hok) n i Hi Hid) as (p' & Hp' & Hin);
    [set_solver|]. simplify_eq.
  apply evaluate_unfold in Hv as (p' & vs & Hp'' & Hvs & Himpl). simplify_eq.
  exists vs. rewrite Hin in Hvs. split_and!; [done..| | |by exists p].
  - apply mapM_Some in Hvs. eapply Forall2_Forall_r; [done|]. apply Forall_forall.
    intros x _ w. apply denote_wide.
  - intros x Hx. split.
    + eapply (live_inputs _ [] n i); [apply Hok|apply Hok|done|done].
    + apply tc_once. exists p. split; [done|by rewrite Hin].
Qed.

Lemma val_columns x v nc :
  denote (nodes e) x = Some v → num_columns e x = Some nc → nc = length (v.1).
Proof. unfold num_columns. intros Hv%denote_columns. congruence. Qed.

Lemma mapM_live {A} (f : nat → option A) (g : nat → option A) ins l :
  (∀ x, x ∈ ins → live (node_lookups e) x) →
  (∀ x, f x = if is_live e x then g x else None) → mapM g ins = Some l → mapM f ins = Some l.
Proof.
  intros Hl Hf. apply mapM_mono. intros x y Hx Hg. by rewrite Hf, (proj2 (is_live_spec e x) (Hl x Hx)).
Qed.

Lemma view_types : view e (λ _ _ sa, Some (sa_type sa)) val_types.
Proof.
  unfold val_types. split.
  - intros x r nc Hr Hnc. destruct (is_live e x); [|done]. apply fmap_Some in Hr as (v & Hv & ->).
    symmetry. by eapply val_columns.
  - intros x op ins r Hx Hop Hr. destruct (is_live e x) eqn:El; [|done]. apply is_live_spec in El.
    apply fmap_Some in Hr as ([tys t] & Hv & ->). destruct (node_denote x op ins _ El Hx Hv)
      as (vs & Hvs & Himpl & Hw & Hbelow & _).
    exists (vs.*1). split; [|by apply (plan_shuffle op vs tys t Hop Hw)].
    eapply (mapM_live _ (λ y, fst <$> denote (nodes e) y)); [naive_solver|done|].
    apply mapM_Some in Hvs. apply mapM_Some. clear -Hvs. induction Hvs as [|y w ys ws Hy]; cbn; constructor; [by rewrite Hy|done].
  - intros x op ins b en cols r Hx Hop Hr. destruct (is_live e x) eqn:El; [|done]. apply is_live_spec in El.
    apply fmap_Some in Hr as ([tys t] & Hv & ->). destruct (node_denote x op ins _ El Hx Hv)
      as (vs & Hvs & (Hinf & _)%plan_impl_Some & _). cbn in *.
    assert (tys = map sa_type cols) as -> by (by destruct op; simplify_eq/=).
    clear. induction cols as [|c l IH]; [done|]. cbn. by rewrite IH.
  - intros x r Hr. destruct (is_live e x); [|done]. apply fmap_Some in Hr as (v & Hv & ->).
    apply evaluate_unfold in Hv as (p & vs & _ & _ & (_ & _ & H)%plan_impl_Some). done.
Qed.

Lemma denote_nonempty x v : denote (nodes e) x = Some v → v.1 ≠ [].
Proof. by intros (p & vs & _ & _ & (_ & _ & H)%plan_impl_Some)%evaluate_unfold. Qed.

Lemma denote_row x v k r :
  denote (nodes e) x = Some v → v.2 !! k = Some r → length r = length (v.1).
Proof. intros Hv%denote_wide Hk. by eapply (Forall_lookup_1 (λ r : row, length r = length (v.1))). Qed.

Definition row_src (k : nat) (b en : Z) (sa : sarray) : option flexible_type :=
  sa_data sa !! Z.to_nat (b + Z.of_nat k).

Lemma read_rows_row sf b en t k r :
  read_rows sf b en = Some t → t !! k = Some r → mapM (row_src k b en) sf = Some r.
Proof.
  intros (_ & ? & ? & H)%read_rows_Some Hk. apply mapM_Some in H.
  destruct (Forall2_lookup_r _ _ _ _ _ H Hk) as (i & Hi & Hr).
  apply lookup_seqZ in Hi as [-> _]. done.
Qed.

Lemma source_denote op vs b en cols v :
  source_columns op = Some (b, en, cols) → plan_impl op vs = Some v →
  v.1 = map sa_type cols ∧ read_rows cols b en = Some (v.2) ∧ cols ≠ [].
Proof.
  intros Hs (Hinf & Hden & Hne)%plan_impl_Some. destruct v as [tys t]. cbn in *.
  destruct op; simplify_eq/=; destruct (vs.*2); try done; split_and!; try done.
  by intros ->.
Qed.

Lemma view_row k : view e (row_src k) (val_row k).
Proof.
  unfold val_row. split.
  - intros x r nc Hr Hnc. destruct (is_live e x); [|done]. apply bind_Some in Hr as (v & Hv & Hr).
    rewrite (denote_row x v k r Hv Hr). symmetry. by eapply val_columns.
  - intros x op ins r Hx Hop Hr. destruct (is_live e x) eqn:El; [|done]. apply is_live_spec in El.
    apply bind_Some in Hr as ([tys t] & Hv & Hr). destruct (node_denote x op ins _ El Hx Hv)
      as (vs & Hvs & Himpl & Hw & Hbelow & _).
    apply (plan_shuffle op vs tys t Hop Hw) in Himpl as (_ & _ & Hrow).
    destruct (Hrow k r Hr) as (rs & Hrs & Hsh). exists rs. split; [|done].
    eapply (mapM_live _ (λ y, v ← denote (nodes e) y; v.2 !! k)); [naive_solver|done|].
    apply mapM_Some in Hvs. apply mapM_Some in Hrs. apply mapM_Some. clear -Hvs Hrs.
    revert rs Hrs. induction Hvs as [|y w ys ws Hy _ IH]; intros rs Hrs; inversion_clear Hrs;
      constructor; [by rewrite Hy|by apply IH].
  - intros x op ins b en cols r Hx Hop Hr. destruct (is_live e x) eqn:El; [|done]. apply is_live_spec in El.
    apply bind_Some in Hr as (v & Hv & Hr). destruct (node_denote x op ins _ El Hx Hv)
      as (vs & Hvs & Himpl & _).
    destruct (source_denote op vs b en cols v Hop Himpl) as (_ & Hread & _).
    by eapply read_rows_row.
  - intros x r Hr ->. destruct (is_live e x); [|done]. apply bind_Some in Hr as (v & Hv & Hr).
    apply (denote_row x v k [] Hv) in Hr. apply denote_nonempty in Hv. by destruct (v.1).
Qed.

(** What is under a node through rearrangements is live and as long. *)
Lemma reach_denote n x v :
  reach e n x → live (node_lookups e) n → denote (nodes e) n = Some v →
  live (node_lookups e) x ∧ below (nodes e) n x ∧
  ∃ w, denote (nodes e) x = Some w ∧ length (w.2) = length (v.2).
Proof.
  intros Hr. revert v.
  assert (∀ n x v, shuffle_input e n x → live (node_lookups e) n → denote (nodes e) n = Some v →
    live (node_lookups e) x ∧ below (nodes e) n x ∧
    ∃ w, denote (nodes e) x = Some w ∧ length (w.2) = length (v.2)) as Hone.
  { clear n x Hr. intros n x [tys t] (op & ins & Hn & Hop & Hx) Hl Hv.
    destruct (node_denote n op ins _ Hl Hn Hv) as (vs & Hvs & Himpl & Hw & Hbelow & _).
    apply (plan_shuffle op vs tys t Hop Hw) in Himpl as (_ & Hlen & _).
    destruct (Hbelow x Hx) as [Hlx Hbx]. split_and!; [done..|]. apply mapM_Some in Hvs.
    apply list_elem_of_lookup_1 in Hx as (j & Hj).
    destruct (Forall2_lookup_l _ _ _ _ _ Hvs Hj) as (w & Hw' & Hdw). exists w. split; [done|].
    by eapply (Forall_lookup_1 (λ v : ttable, length (v.2) = length t)). }
  induction Hr as [n x Hx|n m x Hm _ IH]; intros v Hl Hv; [by apply Hone|].
  destruct (Hone n m v Hm Hl Hv) as (Hlm & Hbm & w & Hw & Hlen).
  destruct (IH w Hlm Hw) as (Hlx & Hbx & u & Hu & Hlu). split_and!; [done| |].
  - by eapply tc_transitive.
  - exists u. split; [done|congruence].
Qed.

Lemma source_known_denote n s v :
  source_known e n s → live (node_lookups e) n → denote (nodes e) n = Some v →
  s.2 ≠ [] → 0 ≤ s.1.1 ≤ s.1.2 ∧ s.1.2 ≤ Z.of_nat (num_rows s.2) ∧
  Z.of_nat (length (v.2)) = s.1.2 - s.1.1.
Proof.
  intros [Ha Hk] Hl Hv Hne. destruct (Hk Hne) as (x & op & ins & cols & c & Hr & Hx & Hop & Hc & Hcs).
  destruct (reach_denote n x v Hr Hl Hv) as (Hlx & _ & w & Hw & Hlen).
  destruct (node_denote x op ins w Hlx Hx Hw) as (vs & _ & Himpl & _).
  destruct s as [[b en] cols']. destruct (source_denote op vs b en cols w Hop Himpl) as (_ & Hread & _).
  cbn in *. pose proof (read_rows_length _ _ _ _ Hread) as Hrl.
  apply read_rows_Some in Hread as (Ha' & ? & ? & _). unfold columns_agree in Ha, Ha'.
  rewrite Forall_forall in Ha, Ha'. pose proof (Ha c Hcs). pose proof (Ha' c Hc). lia.
Qed.

Lemma eval_plan_wide p v : eval_plan plan_impl (denote (nodes e)) p = Some v → wide v.
Proof.
  revert v. induction p as [x|op ts IH] using plan_ind'; intros v; [apply denote_wide|].
  cbn. intros (vs & Hvs & H)%bind_Some. eapply plan_impl_wide; [|done]. apply mapM_Some in Hvs.
  eapply Forall2_Forall_r; [done|]. eapply Forall_impl; [done|]. naive_solver.
Qed.

Section tabled.
(** A plan under a node with [N] rows. *)
Context (n : nat) (v : ttable).
Hypothesis Hl : live (node_lookups e) n.
Hypothesis Hv : denote (nodes e) n = Some v.

Abbreviation types_at := (shuffle_plan (λ _ _ sa, Some (sa_type sa)) val_types).
Abbreviation row_plan := (λ k, shuffle_plan (row_src k) (val_row k)).

(** The table of a plan has the rows that the plan has at each place. *)
Definition tabled (p : plan) (w : ttable) : Prop :=
  eval_plan plan_impl (denote (nodes e)) p = Some w ∧ length (w.2) = length (v.2) ∧
  ∀ k r, w.2 !! k = Some r → row_plan k p = Some r.

Definition grounded (p : plan) : Prop :=
  (∀ y, y ∈ leaves p → reach e n y) ∧ (∀ s, s ∈ plan_sources p → source_known e n s).

Definition has_rows (p : plan) : Prop := ∀ k, (k < length (v.2))%nat → is_Some (row_plan k p).

Lemma source_tabled op b en cols tys :
  source_columns op = Some (b, en, cols) → source_known e n (b, en, cols) →
  types_at (New op []) = Some tys → has_rows (New op []) → ∃ t, tabled (New op []) (tys, t).
Proof.
  intros Hsc Hsk Hty Hrow. unfold tabled, has_rows in *. cbn in *. rewrite Hsc in *.
  apply bind_Some in Hty as (tys' & Hty & [-> Hne]%nonempty_Some).
  assert (tys' = map sa_type cols) as ->.
  { clear -Hty. revert tys' Hty. induction cols as [|c l IHl]; intros tys'; cbn; [by intros [= <-]|].
    intros (k & Hk & [= <-])%bind_Some. f_equal. by apply IHl. }
  assert (cols ≠ []) as Hcols by by intros ->.
  destruct (source_known_denote n _ v Hsk Hl Hv Hcols) as (Hb & Hen & HN). cbn in Hb, Hen, HN.
  assert (is_Some (mapM (row_at cols) (seqZ b (en - b)))) as [t Ht].
  { apply mapM_total. intros i Hi. apply elem_of_seqZ in Hi.
    destruct (Hrow (Z.to_nat (i - b))) as [r Hr]; [lia|].
    apply bind_Some in Hr as (r' & Hr & _). exists r'. rewrite <- Hr. unfold row_at, row_src.
    apply mapM_ext_in. intros sa _. f_equal. lia. }
  destruct Hsk as [Ha _]. cbn in Ha.
  exists t. assert (read_rows cols b en = Some t) as Hread by by apply read_rows_Some. split_and!.
  - apply plan_impl_Some. by destruct cols, op; simplify_eq/=.
  - cbn. pose proof (read_rows_length _ _ _ _ Hread). lia.
  - intros k r Hk. rewrite (read_rows_row _ _ _ _ k r Hread Hk). cbn. apply nonempty_Some.
    split; [done|]. intros ->. pose proof (read_rows_row _ _ _ _ k [] Hread Hk) as Hm.
    apply length_mapM in Hm. by destruct cols.
Qed.

(** The inputs of a plan, all at once. *)
Lemma inputs_tabled ts tyss :
  Forall (λ p, ∀ tys, grounded p → types_at p = Some tys → has_rows p → ∃ t, tabled p (tys, t)) ts →
  Forall grounded ts → mapM types_at ts = Some tyss → Forall has_rows ts →
  ∃ vs, vs.*1 = tyss ∧ Forall2 tabled ts vs.
Proof.
  intros IH Hg Hty Hr. apply mapM_Some in Hty. revert IH Hg Hr.
  induction Hty as [|t ty ts tyss Hty _ IHts]; intros IH Hg Hr; [by exists []|].
  inversion_clear IH as [|?? IHt IHts']. inversion_clear Hg as [|?? Hgt Hgts].
  inversion_clear Hr as [|?? Hrt Hrts].
  destruct (IHt ty Hgt Hty Hrt) as (tab & Htab). destruct (IHts IHts' Hgts Hrts) as (vs & <- & Hvs).
  exists ((ty, tab) :: vs). split; [done|by constructor].
Qed.

(** A node with the types and the rows of a shuffle of tables. *)
Lemma shuffle_tabled op ts vs tys :
  source_columns op = None → Forall2 tabled ts vs → shuffle op (vs.*1) = Some tys →
  has_rows (New op ts) → ∃ t, tabled (New op ts) (tys, t).
Proof.
  intros Hsc Hvs Hsh Hrow. unfold has_rows in Hrow. cbn in Hrow. rewrite Hsc in Hrow.
  destruct (mapM_total (λ k, row_plan k (New op ts)) (seq 0 (length (v.2)))) as [t Ht].
  { intros k Hk%elem_of_seq. cbn. rewrite Hsc. apply Hrow. lia. }
  pose proof (length_mapM _ _ _ Ht) as Hlt. rewrite length_seq in Hlt.
  assert (∀ k r, t !! k = Some r → row_plan k (New op ts) = Some r) as Htr.
  { intros k r Hk. apply mapM_Some in Ht. destruct (Forall2_lookup_r _ _ _ _ _ Ht Hk) as (k' & Hk' & Hr).
    by apply lookup_seq in Hk' as [-> _]. }
  exists t. split_and!; [|done|done]. cbn.
  assert (mapM (eval_plan plan_impl (denote (nodes e))) ts = Some vs) as Heval.
  { apply mapM_Some. eapply Forall2_impl; [done|]. by intros ?? [? _]. }
  rewrite Heval. cbn. apply plan_shuffle; [by eapply shuffle_is_shuffle| |split_and!; [done| |]].
  - apply mapM_Some in Heval. eapply Forall2_Forall_r; [done|]. apply Forall_forall.
    intros x _ w. apply eval_plan_wide.
  - eapply Forall2_Forall_r; [done|]. apply Forall_forall. intros x _ w (_ & Hlw & _). congruence.
  - intros k r Hk. pose proof (Htr k r Hk) as Hr. cbn in Hr. rewrite Hsc in Hr.
    apply bind_Some in Hr as (rs & Hrs & Hr). exists rs. split; [|done]. apply mapM_Some in Hrs.
    apply mapM_Some. apply lookup_lt_Some in Hk. rewrite <- Hlt in Hk. clear -Hvs Hrs Hk.
    revert rs Hrs. induction Hvs as [|p w ts vs (_ & Hlw & Hw) _ IH]; intros rs Hrs; inversion_clear Hrs;
      constructor; [|by apply IH].
    destruct (lookup_lt_is_Some_2 (w.2) k) as [r' Hr']; [lia|]. rewrite Hr'. specialize (Hw k r' Hr'). cbn in *. congruence.
Qed.

Lemma grounded_inputs op ts :
  source_columns op = None → grounded (New op ts) → Forall grounded ts.
Proof.
  intros Hsc [Hle Hso]. cbn in Hle, Hso. rewrite Hsc in Hso. apply Forall_forall. intros p Hp.
  split; intros y Hy; [apply Hle|apply Hso]; apply list_elem_of_In, in_concat; eexists;
    (split; [apply in_map, list_elem_of_In; exact Hp|by apply list_elem_of_In]).
Qed.

(** A plan with a value at every place has a table. *)
Lemma plan_tabled p tys :
  grounded p → types_at p = Some tys → has_rows p → ∃ t, tabled p (tys, t).
Proof.
  revert tys. induction p as [x|op ts IH] using plan_ind'; intros tys Hg Hty Hrow.
  { destruct (reach_denote n x v) as (Hlx & _ & [tys' t] & Hw & Hlen); [apply Hg; by left|done..|].
    exists t. unfold tabled. cbn in *. unfold val_types, val_row in *.
    rewrite (proj2 (is_live_spec e x) Hlx), Hw in *. by simplify_eq/=. }
  destruct (source_columns op) as [[[b en] cols]|] eqn:Hsc.
  - destruct ts as [|]; [|cbn in Hty; by rewrite Hsc in Hty]. eapply source_tabled; [done| |done|done].
    apply Hg. cbn. rewrite Hsc. by left.
  - pose proof Hty as Hty'. cbn in Hty'. rewrite Hsc in Hty'. apply bind_Some in Hty' as (tyss & Htyss & Hsh).
    destruct (inputs_tabled ts tyss IH (grounded_inputs op ts Hsc Hg) Htyss) as (vs & <- & Hvs).
    { apply Forall_forall. intros p Hp k Hk. destruct (Hrow k Hk) as [r Hr]. cbn in Hr.
      rewrite Hsc in Hr. apply bind_Some in Hr as (rs & Hrs & _). apply mapM_Some in Hrs.
      apply list_elem_of_lookup_1 in Hp as (j & Hj).
      destruct (Forall2_lookup_l _ _ _ _ _ Hrs Hj) as (r' & _ & Hr'). by exists r'. }
    by eapply shuffle_tabled.
Qed.

(** A plan that rearranges what is under a node as the node does has its value. *)
Lemma rearranges_value p :
  rearranges e n p →
  eval_plan plan_impl (denote (nodes e)) p = Some v ∧ ∀ y, y ∈ leaves p → below (nodes e) n y.
Proof.
  intros [Hle Hso Hview]. assert (is_live e n = true) as Hlive by by apply is_live_spec.
  destruct (plan_tabled p (v.1)) as (t & Heval & Hlen & Hrow).
  - by split.
  - apply Hview with (1 := view_types). unfold val_types. by rewrite Hlive, Hv.
  - intros k Hk. destruct (lookup_lt_is_Some_2 (v.2) k Hk) as [r Hr]. exists r.
    apply Hview with (1 := view_row k). unfold val_row. by rewrite Hlive, Hv.
  - split; [|intros y Hy; by apply (reach_denote n y v); [apply Hle|..]].
    rewrite Heval. destruct v as [tys u]. do 2 f_equal. cbn in *. apply list_eq. intros k.
    destruct (t !! k) as [r|] eqn:Hk.
    + assert (is_Some (u !! k)) as [r' Hr'].
      { apply lookup_lt_is_Some_2. rewrite <- Hlen. by eapply lookup_lt_Some. }
      rewrite Hr'. specialize (Hrow k r Hk). f_equal.
      assert (shuffle_plan (row_src k) (val_row k) p = Some r') as Hr2; [|congruence].
      apply Hview with (1 := view_row k). unfold val_row. by rewrite Hlive, Hv.
    + symmetry. apply lookup_ge_None. rewrite <- Hlen. by apply lookup_ge_None.
Qed.
End tabled.
End value.

End QueryView.
