(* ===== verification/QueryRewriteSpec.v ===== *)
(** The transforms that only rearrange columns: each gives a plan that has, at every place, the
    columns of the node it replaces. *)
From Stdlib Require Import List.
From S2P Require Import Prelude FlexType FlexOps QueryPlan QueryPlanSpec QueryGraph.
From S2P Require Import QueryGraphSpec QueryGraphInv QueryRewrite QueryView.
Import FlexType FlexOps QueryPlan QueryPlanSpec QueryGraph QueryGraphSpec QueryGraphInv QueryRewrite QueryView.
Local Open Scope Z_scope.
Local Open Scope sframe_scope.

Module QueryRewriteSpec.

(** Takes apart a computation in the option monad that gave a result. *)
Ltac inv_option H :=
  lazymatch type of H with
  | (_ ≫= _) = Some _ =>
      let x := fresh "x" in let E := fresh "E" in
      apply bind_Some in H as (x & E & H);
      try (is_var x; lazymatch type of x with (_ * _)%type => destruct x end);
      cbn beta iota in H; inv_option H
  | _ => idtac
  end.

(** ** Lists *)

Lemma mapM_lookup_seq {A} (l : list A) : mapM (λ i, l !! i) (seq 0 (length l)) = Some l.
Proof.
  apply mapM_Some, Forall2_same_length_lookup_2; [by rewrite length_seq|].
  intros k i x Hi Hx. by apply lookup_seq in Hi as [-> _].
Qed.

Lemma mapM_lookup_compose {A} (r0 r1 : list A) iv_1 iv_2 iv_out r :
  mapM (λ i, iv_1 !! i) iv_2 = Some iv_out → mapM (λ i, r0 !! i) iv_1 = Some r1 →
  mapM (λ i, r1 !! i) iv_2 = Some r → mapM (λ i, r0 !! i) iv_out = Some r.
Proof.
  intros Ho H1 Hr. apply mapM_Some in Ho, H1, Hr. apply mapM_Some.
  revert r Hr. induction Ho as [|i o iv_2 iv_out Hi _ IH]; intros r Hr; inversion_clear Hr; constructor.
  - by eapply (Forall2_lookup_lr (λ i x, r0 !! i = Some x)).
  - by apply IH.
Qed.

Lemma mapM_app_Some {A B} (f : A → option B) l k r :
  mapM f (l ++ k) = Some r ↔ ∃ r1 r2, mapM f l = Some r1 ∧ mapM f k = Some r2 ∧ r = r1 ++ r2.
Proof.
  rewrite mapM_Some, Forall2_app_inv_l. setoid_rewrite mapM_Some. naive_solver.
Qed.

Lemma mapM_map {A B C} (f : B → option C) (g : A → B) l : mapM f (map g l) = mapM (λ x, f (g x)) l.
Proof. induction l as [|x l IH]; [done|]. cbn. by rewrite IH. Qed.

(** ** Views of the operators that rearrange *)

Section view.
Context {A : Type} (e : engine) (src : Z → Z → sarray → option A) (val : nat → option (list A)).
Hypothesis Hview : view e src val.

Lemma view_project n l ins r :
  node e n = Some (op_project l, ins) → val n = Some r →
  ∃ x r0, ins = [x] ∧ val x = Some r0 ∧ mapM (λ i, r0 !! i) l = Some r.
Proof.
  intros Hn Hr. destruct (view_node e src val Hview n _ _ r Hn eq_refl Hr) as (rs & Hrs & Hsh).
  cbn in Hsh. destruct rs as [|r0 [|]]; try done. apply bind_Some in Hsh as (r' & Hm & [-> _]%nonempty_Some).
  apply mapM_Some in Hrs. inversion Hrs as [|x ? ins' ? Hx Hnil]; subst. inversion Hnil; subst.
  by exists x, r0.
Qed.

Lemma view_union n ins r :
  node e n = Some (op_union, ins) → val n = Some r →
  ∃ rs, mapM val ins = Some rs ∧ r = concat rs.
Proof.
  intros Hn Hr. destruct (view_node e src val Hview n _ _ r Hn eq_refl Hr) as (rs & Hrs & Hsh).
  exists rs. cbn in Hsh. destruct rs; [done|]. by apply nonempty_Some in Hsh as [-> _].
Qed.

Lemma view_union_project n m ins r :
  node e n = Some (op_union_project m, ins) → val n = Some r →
  ∃ rs, mapM val ins = Some rs ∧ mapM (λ p, r ← rs !! p.1; r !! p.2) m = Some r.
Proof.
  intros Hn Hr. destruct (view_node e src val Hview n _ _ r Hn eq_refl Hr) as (rs & Hrs & Hsh).
  exists rs. cbn in Hsh. destruct rs; [done|]. by apply bind_Some in Hsh as (r' & Hm & [-> _]%nonempty_Some).
Qed.

Lemma plan_project l q r0 r :
  shuffle_plan src val q = Some r0 → mapM (λ i, r0 !! i) l = Some r → r ≠ [] →
  shuffle_plan src val (New (op_project l) [q]) = Some r.
Proof. intros Hq Hm Hr. cbn. rewrite Hq. cbn. rewrite Hm. cbn. by apply nonempty_Some. Qed.

Lemma plan_union qs rs :
  mapM (shuffle_plan src val) qs = Some rs → concat rs ≠ [] →
  shuffle_plan src val (New op_union qs) = Some (concat rs).
Proof. intros Hq Hr. cbn. rewrite Hq. destruct rs; [done|]. by apply nonempty_Some. Qed.

Lemma plan_union_project m qs rs r :
  mapM (shuffle_plan src val) qs = Some rs → mapM (λ p, r ← rs !! p.1; r !! p.2) m = Some r →
  r ≠ [] → shuffle_plan src val (New (op_union_project m) qs) = Some r.
Proof.
  intros Hq Hm Hr. cbn. rewrite Hq. cbn. destruct rs as [|r0 rs].
  - destruct m as [|[i j] m]; cbn in Hm; [|done]. by injection Hm as <-.
  - cbn in *. rewrite Hm. by apply nonempty_Some.
Qed.

Lemma plan_olds ins : mapM (shuffle_plan src val) (map Old ins) = mapM val ins.
Proof. by rewrite mapM_map. Qed.
End view.

Lemma reach_once e n op ins x :
  node e n = Some (op, ins) → is_shuffle op = true → x ∈ ins → reach e n x.
Proof. intros. apply tc_once. by exists op, ins. Qed.

Lemma reach_twice e n op ins x opx insx y :
  node e n = Some (op, ins) → is_shuffle op = true → x ∈ ins →
  node e x = Some (opx, insx) → is_shuffle opx = true → y ∈ insx → reach e n y.
Proof. intros. eapply tc_transitive; by eapply reach_once. Qed.

Lemma head_elem {A} (l : list A) x : head l = Some x → x ∈ l.
Proof. destruct l; cbn; intros [= <-]. by left. Qed.

Lemma indices_of_Some op l : indices_of op = Some l → op = op_project l.
Proof. destruct op; cbn; congruence. Qed.

(** ** Projections *)

Lemma eliminate_identity_project_ok e n p :
  opt_eliminate_identity_project e n = Some (Some p) → rearranges e n p.
Proof.
  unfold opt_eliminate_identity_project. intros H. inv_option H.
  apply indices_of_Some in E0 as ->. case_match; [done|]. case_match eqn:Hid; simplify_eq.
  apply negb_false_iff, Nat.eqb_eq in H0. apply bool_decide_eq_true in Hid.
  split; [cbn|cbn; set_solver|].
  - intros y ->%list_elem_of_singleton. eapply reach_once; [done..|]. by apply head_elem.
  - intros A src val r Hv Hr. destruct (view_project e src val Hv n _ _ r E Hr) as (y & r0 & -> & Hy & Hm).
    injection E1 as ->. rewrite Hid, H0, <- (view_width e src val Hv _ _ _ Hy E2), mapM_lookup_seq in Hm.
    by simplify_eq.
Qed.

Lemma merge_projects_ok e n p : opt_merge_projects e n = Some (Some p) → rearranges e n p.
Proof.
  unfold opt_merge_projects. intros H. inv_option H. apply indices_of_Some in E0 as ->.
  destruct o0; try discriminate H. inv_option H. case_match; [done|]. inv_option H. simplify_eq.
  split; [cbn|cbn; set_solver|].
  - intros y ->%list_elem_of_singleton. eapply reach_twice; [done|done|by apply head_elem|done|done|by apply head_elem].
  - intros A src val r Hv Hr. destruct (view_project e src val Hv n _ _ r E Hr) as (y & r1 & -> & Hy & Hm).
    injection E1 as ->. destruct (view_project e src val Hv _ _ _ r1 E2 Hy) as (z & r0 & -> & Hz & Hm').
    injection E0 as ->. eapply plan_project; [done| |by eapply view_nonempty].
    by eapply mapM_lookup_compose.
Qed.

(** [split_indices]: the places lead back to the indices, whatever is already there. *)
Lemma split_indices_ok iv : ∀ l1 l2 iv0 l1' l2',
  mapM (λ k, l1 !! k) l2 = Some iv0 → split_indices iv l1 l2 = (l1', l2') →
  (∃ k, l1' = l1 ++ k) ∧ mapM (λ k, l1' !! k) l2' = Some (iv0 ++ iv) ∧
  (∀ i, i ∈ l1' → i ∈ l1 ∨ i ∈ iv).
Proof.
  induction iv as [|idx iv IH]; intros l1 l2 iv0 l1' l2' Hm; cbn.
  { intros [= <- <-]. split_and!; [by exists []; rewrite app_nil_r|by rewrite app_nil_r|auto]. }
  destruct (list_find (idx =.) l1) as [[k x]|] eqn:Hf; intros Hs.
  - apply list_find_Some in Hf as (Hk & <- & _).
    destruct (IH l1 (l2 ++ [k]) (iv0 ++ [idx]) l1' l2') as (? & Hm' & Hin); [|done|].
    { apply mapM_app_Some. exists iv0, [idx]. cbn. by rewrite Hk. }
    rewrite <- app_assoc in Hm'. split_and!; [done..|]. set_solver.
  - destruct (IH (l1 ++ [idx]) (l2 ++ [length l1]) (iv0 ++ [idx]) l1' l2') as ([k ->] & Hm' & Hin); [|done|].
    { apply mapM_app_Some. exists iv0, [idx]. split_and!; [|cbn; by rewrite list_lookup_middle|done].
      eapply mapM_mono; [|done]. intros i x _ Hi. by apply lookup_app_l_Some. }
    split_and!; [|by rewrite <- (app_assoc iv0 [idx] iv) in Hm'|set_solver].
    exists ([idx] ++ k). by rewrite <- app_assoc.
Qed.

Lemma split_projection_ok e n p :
  opt_split_contractive_expansive_projection e n = Some (Some p) → rearranges e n p.
Proof.
  unfold opt_split_contractive_expansive_projection. intros H. inv_option H.
  apply indices_of_Some in E0 as ->. case_match; [done|].
  destruct (split_indices x [] []) as [l1 l2] eqn:Hs. simplify_eq.
  destruct (split_indices_ok x [] [] [] l1 l2 eq_refl Hs) as (_ & Hm & Hin).
  split; [cbn|cbn; set_solver|].
  - intros y Hy. assert (y = x0) as -> by set_solver. eapply reach_once; [done..|]. by apply head_elem.
  - intros A src val r Hv Hr. destruct (view_project e src val Hv n _ _ r E Hr) as (y & r0 & -> & Hy & Hm0).
    injection E1 as ->. pose proof (view_nonempty e src val Hv n r Hr) as Hne.
    destruct (mapM_total (λ i, r0 !! i) l1) as [r1 Hr1].
    { intros i Hi. destruct (Hin i Hi) as [?%not_elem_of_nil|Hx]; [done|].
      apply mapM_Some in Hm0. apply list_elem_of_lookup_1 in Hx as (j & Hj).
      destruct (Forall2_lookup_l _ _ _ _ _ Hm0 Hj) as (c & _ & Hc). by exists c. }
    assert (mapM (λ k, r1 !! k) l2 = Some r) as Hr2.
    { apply mapM_Some in Hr1, Hm, Hm0. apply mapM_Some, Forall2_same_length_lookup_2.
      - apply Forall2_length in Hm, Hm0. cbn in Hm. congruence.
      - intros k i c Hi Hc. destruct (Forall2_lookup_l _ _ _ _ _ Hm Hi) as (idx & Hidx & Hl1). cbn in Hidx.
        destruct (Forall2_lookup_l _ _ _ _ _ Hm0 Hidx) as (c' & Hc' & Hr0). simplify_eq.
        destruct (Forall2_lookup_l _ _ _ _ _ Hr1 Hl1) as (c'' & Hc'' & Hr0'). congruence. }
    eapply plan_project; [|done|done]. eapply plan_project; [done|done|].
    intros ->. destruct l2 as [|k l2]; cbn in Hr2; [by injection Hr2 as <-|done].
Qed.

(** ** Unions *)

Lemma eliminate_singleton_union_ok e n ins p :
  node e n = Some (op_union, ins) → opt_eliminate_singleton_union e n = Some (Some p) →
  rearranges e n p.
Proof.
  unfold opt_eliminate_singleton_union. intros Hn H. rewrite Hn in H. cbn in H.
  destruct ins as [|x [|]]; simplify_eq. split; [cbn|cbn; set_solver|].
  - intros y ->%list_elem_of_singleton. eapply reach_once; [done..|]. by left.
  - intros A src val r Hv Hr. destruct (view_union e src val Hv n _ r Hn Hr) as (rs & Hrs & ->).
    cbn in *. apply bind_Some in Hrs as (r0 & Hr0 & [= <-]). cbn. by rewrite app_nil_r.
Qed.

Lemma union_leaves_ok fuel e : ∀ n l,
  union_leaves fuel e n = Some l →
  (∀ y, y ∈ l → y = n ∨ reach e n y) ∧
  (∀ ins, node e n = Some (op_union, ins) → ∀ y, y ∈ l → reach e n y) ∧
  ∀ A src (val : nat → option (list A)), view e src val → ∀ r, val n = Some r →
    ∃ rs, mapM val l = Some rs ∧ concat rs = r.
Proof.
  induction fuel as [|fuel IH]; intros n l; [done|]. cbn [union_leaves]. intros H. inv_option H.
  assert (type_of o ≠ UNION_NODE → l = [n] →
    (∀ y, y ∈ l → y = n ∨ reach e n y) ∧
    (∀ ins, node e n = Some (op_union, ins) → ∀ y, y ∈ l → reach e n y) ∧
    ∀ A src (val : nat → option (list A)), view e src val → ∀ r, val n = Some r →
      ∃ rs, mapM val l = Some rs ∧ concat rs = r) as Hother.
  { intros Ho ->. split_and!; [set_solver|intros ins Hn; rewrite Hn in E; by simplify_eq|].
    intros A src val Hv r Hr. exists [r]. cbn. rewrite Hr. by rewrite app_nil_r. }
  destruct o; try (apply Hother; [done|congruence]). clear Hother.
  apply fmap_Some in H as (ls & Hls & ->). apply mapM_Some in Hls.
  assert (∀ y, y ∈ mjoin ls → reach e n y) as Hreach.
  { intros y Hy. apply list_elem_of_join in Hy as (l & Hy & Hl).
    apply list_elem_of_lookup_1 in Hl as (j & Hj).
    destruct (Forall2_lookup_r _ _ _ _ _ Hls Hj) as (x & Hx & Hul).
    apply list_elem_of_lookup_2 in Hx. pose proof (reach_once e n _ _ x E eq_refl Hx) as Hnx.
    destruct (proj1 (IH x l Hul) y Hy) as [->|Hxy]; [done|]. by eapply tc_transitive. }
  split_and!; [auto|auto|].
  intros A src val Hv r Hr. destruct (view_union e src val Hv n _ r E Hr) as (rs & Hrs & ->).
  apply mapM_Some in Hrs. clear E Hreach Hr. revert rs Hrs.
  induction Hls as [|x l xs ls Hx _ IHl]; intros rs Hrs; inversion_clear Hrs as [|? r0 ? rs' Hr0 Hrs'].
  { by exists []. }
  destruct (proj2 (proj2 (IH x l Hx)) A src val Hv r0 Hr0) as (rs1 & Hm1 & <-).
  destruct (IHl rs' Hrs') as (rs2 & Hm2 & Heq). exists (rs1 ++ rs2).
  split; [|cbn; by rewrite concat_app, Heq].
  apply mapM_app_Some. by exists rs1, rs2.
Qed.

Lemma leaves_olds l : concat (map leaves (map Old l)) = l.
Proof. induction l as [|x l IH]; cbn; [done|by rewrite IH]. Qed.

Lemma sources_olds l : concat (map plan_sources (map Old l)) = [].
Proof. induction l; done. Qed.

Lemma union_merge_ok e n ins p :
  node e n = Some (op_union, ins) → opt_union_merge e n = Some (Some p) → rearranges e n p.
Proof.
  unfold opt_union_merge. intros Hn H. rewrite Hn in H. cbn in H. inv_option H.
  case_match; [done|]. inv_option H. simplify_eq. apply union_leaves_ok in E0 as (_ & Hin & Hval).
  split.
  - cbn. rewrite leaves_olds. by eapply Hin.
  - cbn. rewrite sources_olds. set_solver.
  - intros A src val r Hv Hr. destruct (Hval A src val Hv r Hr) as (rs & Hrs & <-).
    apply plan_union; [by rewrite plan_olds|by eapply view_nonempty].
Qed.

(** ** Unions with projections *)

Lemma project_to_union_project_ok e n p :
  opt_project_to_generalized_union_project e n = Some (Some p) → rearranges e n p.
Proof.
  unfold opt_project_to_generalized_union_project. intros H. inv_option H.
  apply indices_of_Some in E0 as ->. simplify_eq. split; [cbn|cbn; set_solver|].
  - intros y ->%list_elem_of_singleton. eapply reach_once; [done..|]. by apply head_elem.
  - intros A src val r Hv Hr. destruct (view_project e src val Hv n _ _ r E Hr) as (y & r0 & -> & Hy & Hm).
    injection E1 as ->. apply (plan_union_project src val _ _ [r0]).
    + cbn. by rewrite Hy.
    + by rewrite mapM_map.
    + by eapply view_nonempty.
Qed.

(** The columns of a list of rows. *)
Lemma mapM_union_index_map {A} (rs : list (list A)) columns i (rows : list (list A)) :
  Forall2 (λ r nc, length r = nc) rs columns → (∀ k r, rs !! k = Some r → rows !! (i + k)%nat = Some r) →
  mapM (λ p : nat * nat, r ← rows !! p.1; r !! p.2) (union_index_map i columns) = Some (concat rs).
Proof.
  intros Hw. revert i. induction Hw as [|r nc rs columns Hr _ IH]; intros i Hrows; [done|]. cbn.
  apply mapM_app_Some. exists r, (concat rs). split_and!; [|apply IH|done].
  - rewrite mapM_map. cbn. rewrite <- (mapM_lookup_seq r), <- Hr. apply mapM_ext_in. intros j _.
    specialize (Hrows 0%nat r eq_refl). rewrite Nat.add_0_r in Hrows. by rewrite Hrows.
  - intros k r' Hk. specialize (Hrows (S k) r' Hk). by rewrite <- Nat.add_succ_comm in Hrows.
Qed.

Lemma view_columns {A} e src (val : nat → option (list A)) ins rs columns :
  view e src val → mapM val ins = Some rs → mapM (num_columns e) ins = Some columns →
  Forall2 (λ r nc, length r = nc) rs columns.
Proof.
  intros Hv Hrs Hc. apply mapM_Some in Hrs, Hc. revert columns Hc.
  induction Hrs; intros columns Hc; inversion_clear Hc; constructor; [by eapply view_width|auto].
Qed.

Lemma union_to_union_project_ok e n ins p :
  node e n = Some (op_union, ins) →
  opt_union_to_generalized_union_project e n = Some (Some p) → rearranges e n p.
Proof.
  unfold opt_union_to_generalized_union_project. intros Hn H. rewrite Hn in H. cbn in H.
  inv_option H. simplify_eq. split.
  - cbn. rewrite leaves_olds. intros y. by eapply reach_once.
  - cbn. rewrite sources_olds. set_solver.
  - intros A src val r Hv Hr. destruct (view_union e src val Hv n _ r Hn Hr) as (rs & Hrs & ->).
    eapply plan_union_project; [by rewrite plan_olds| |by eapply view_nonempty].
    apply mapM_union_index_map; [by eapply view_columns|done].
Qed.

(** The offset of an input, and the columns from there. *)
Lemma offsets_lookup {A} (rs : list (list A)) columns o i off r :
  Forall2 (λ r nc, length r = nc) rs columns → offsets o columns !! i = Some off → rs !! i = Some r →
  ∃ before after, concat rs = before ++ r ++ after ∧ (o + length before)%nat = off.
Proof.
  intros Hw. revert o i. induction Hw as [|r0 nc rs columns Hr _ IH]; intros o [|i]; cbn; try done.
  - intros [= <-] [= <-]. exists [], (concat rs). cbn. split; [done|lia].
  - intros Ho Hi. destruct (IH _ _ Ho Hi) as (before & after & -> & <-).
    exists (r0 ++ before), after. rewrite length_app. split; [by rewrite <- app_assoc|lia].
Qed.

Lemma expand_union_project_ok e n p :
  opt_expand_generalized_union_project e n = Some (Some p) → rearranges e n p.
Proof.
  unfold opt_expand_generalized_union_project. intros H. inv_option H. destruct o; try discriminate H.
  inv_option H. simplify_eq. split.
  - cbn. rewrite leaves_olds, app_nil_r. intros y. by eapply reach_once.
  - cbn. rewrite sources_olds. set_solver.
  - intros A src val r Hv Hr. destruct (view_union_project e src val Hv n _ _ r E Hr) as (rs & Hrs & Hm).
    pose proof (view_columns _ _ _ _ _ _ Hv Hrs E0) as Hw.
    pose proof (view_nonempty e src val Hv n r Hr) as Hne.
    assert (mapM (λ i, concat rs !! i) x0 = Some r) as Hm'.
    { apply mapM_Some in E1, Hm. apply mapM_Some. clear -E1 Hm Hw. revert r Hm.
      induction E1 as [|[i j] c m x0 Hc _ IH]; intros r Hm; inversion_clear Hm as [|? v ? r' Hv Hm'];
        constructor; [|by apply IH]. cbn in *.
      apply bind_Some in Hc as (off & Hoff & [= <-]). apply bind_Some in Hv as (ri & Hri & Hj).
      destruct (offsets_lookup rs _ 0 i off ri Hw Hoff Hri) as (before & after & -> & <-).
      rewrite lookup_app_r by lia. replace (0 + length before + j - length before)%nat with j by lia.
      by apply lookup_app_l_Some. }
    eapply plan_project; [|done|done]. apply plan_union; [by rewrite plan_olds|].
    intros Hnil. rewrite Hnil in Hm'. destruct x0; cbn in Hm'; [by injection Hm' as <-|done].
Qed.

Lemma project_on_source_ok e n p : opt_project_on_source e n = Some (Some p) → rearranges e n p.
Proof.
  unfold opt_project_on_source. intros H. inv_option H. apply indices_of_Some in E0 as ->.
  destruct o0; try discriminate H. case_match; [done|]. inv_option H. simplify_eq.
  apply open_for_read_Some in E3 as [-> Ha]. apply head_elem in E1 as Hx.
  split; [cbn; set_solver| |].
  - cbn. intros s ->%list_elem_of_singleton. split; [done|]. cbn. intros Hne.
    destruct x1 as [|c x1]; [done|]. exists x0, (op_sframe_source sf begin_index end_index), l0, sf, c.
    split_and!; [by eapply reach_once|done|done| |by left].
    destruct x as [|i x]; [done|]. cbn in E0. apply bind_Some in E0 as (c' & Hc & (? & _ & [= <- <-])%bind_Some).
    by eapply list_elem_of_lookup_2.
  - intros A src val r Hv Hr. destruct (view_project e src val Hv n _ _ r E Hr) as (y & r0 & -> & Hy & Hm).
    injection E1 as ->. pose proof (view_source e src val Hv _ _ _ _ _ _ _ E2 eq_refl Hy) as Hs.
    cbn. assert (mapM (src begin_index end_index) x1 = Some r) as ->.
    { apply mapM_Some in E0, Hm, Hs. apply mapM_Some. clear -E0 Hm Hs. revert r Hm.
      induction E0 as [|i c x x1 Hi _ IH]; intros r Hm; inversion_clear Hm; constructor; [|by apply IH].
      by eapply (Forall2_lookup_lr (λ sa v, src begin_index end_index sa = Some v)). }
    cbn. apply nonempty_Some. split; [done|]. by eapply view_nonempty.
Qed.

(** ** Merging unions with projections *)

Lemma get_input_ok inputs nn inputs' k :
  get_input inputs nn = (inputs', k) →
  inputs `prefix_of` inputs' ∧ inputs' !! k = Some nn ∧ ∀ y, y ∈ inputs' → y ∈ inputs ∨ y = nn.
Proof.
  unfold get_input. destruct (list_find (nn =.) inputs) as [[j x]|] eqn:Hf; intros [= <- <-].
  - apply list_find_Some in Hf as (Hj & <- & _). split_and!; [done|done|auto].
  - split_and!; [by apply prefix_app_r|by rewrite list_lookup_middle|set_solver].
Qed.

Lemma merge_index_map_ok e n op ins : node e n = Some (op, ins) → is_shuffle op = true →
  ∀ im inputs inputs' im', merge_index_map e ins im inputs = Some (inputs', im') →
  inputs `prefix_of` inputs' ∧ (∀ y, y ∈ inputs' → y ∈ inputs ∨ reach e n y) ∧
  ∀ A src (val : nat → option (list A)) rs r, view e src val → mapM val ins = Some rs →
    mapM (λ p, r ← rs !! p.1; r !! p.2) im = Some r →
    (∀ y, y ∈ inputs → is_Some (val y)) → (∀ y, y ∈ inputs' → is_Some (val y)) ∧
    mapM (λ p, x ← inputs' !! p.1; r ← val x; r !! p.2) im' = Some r.
Proof.
  intros Hn Hop. induction im as [|[i j] im IH]; intros inputs inputs' im'; cbn.
  { intros [= <- <-]. split_and!; [done|auto|]. intros A src val rs r _ _ [= <-] ?. done. }
  intros H. inv_option H. destruct (get_input inputs n0) as [inputs1 k] eqn:Hg.
  inv_option H. simplify_eq. apply get_input_ok in Hg as (Hp1 & Hk & Hin1).
  destruct (IH _ _ _ E2) as (Hp2 & Hin2 & Hval). clear IH.
  assert (reach e n n0 ∧ ∀ A src (val : nat → option (list A)) rs0 ri c, view e src val →
    mapM val ins = Some rs0 → rs0 !! i = Some ri → ri !! j = Some c →
    ∃ r0, val n0 = Some r0 ∧ r0 !! n1 = Some c) as [Hreach Hcell].
  { apply list_elem_of_lookup_2 in E as Hx.
    assert (∀ A src (val : nat → option (list A)) rs0 ri, view e src val →
      mapM val ins = Some rs0 → rs0 !! i = Some ri → val x = Some ri) as Hvx.
    { intros A src val rs0 ri _ Hrs Hri. apply mapM_Some in Hrs.
      by eapply (Forall2_lookup_lr (λ x r, val x = Some r)). }
    assert ((∀ m, o ≠ op_union_project m) → Some (x, j) = Some (n0, n1) →
      reach e n n0 ∧ ∀ A src (val : nat → option (list A)) rs0 ri c, view e src val →
      mapM val ins = Some rs0 → rs0 !! i = Some ri → ri !! j = Some c →
      ∃ r0, val n0 = Some r0 ∧ r0 !! n1 = Some c) as Hother.
    { intros _ [= <- <-]. split; [by eapply reach_once|]. intros A src val rs0 ri c Hv Hrs Hri Hc.
      exists ri. split; [by eapply Hvx|done]. }
    destruct o; try (apply Hother; done). clear Hother. inv_option E1. simplify_eq. cbn in *.
    match goal with H : l !! n2 = Some n0 |- _ => rename H into El end.
    split; [by eapply reach_twice; [..|eapply list_elem_of_lookup_2]|].
    intros A src val rs0 ri c Hv Hrs Hri Hc. pose proof (Hvx A src val rs0 ri Hv Hrs Hri) as Hvr.
    destruct (view_union_project e src val Hv _ _ _ _ E0 Hvr) as (rl & Hrl & Hml).
    apply mapM_Some in Hrl, Hml.
    destruct (Forall2_lookup_r _ _ _ _ _ Hml Hc) as (pq & Hpq & Hcell). simplify_eq. cbn in Hcell.
    apply bind_Some in Hcell as (r0 & Hr0 & Hr1). exists r0. split; [|done].
    by eapply (Forall2_lookup_lr (λ x r, val x = Some r)). }
  split_and!; [by trans inputs1| |].
  - intros y Hy. destruct (Hin2 y Hy) as [Hy1|?]; [|by right].
    destruct (Hin1 y Hy1) as [?| ->]; [by left|by right].
  - intros A src val rs r Hv Hrs Hm Hsome.
    apply bind_Some in Hm as (c & (ri & Hri & Hc)%bind_Some & (r' & Hm & [= <-])%bind_Some).
    destruct (Hcell A src val rs ri c Hv Hrs Hri Hc) as (r0 & Hr0 & Hr0c).
    destruct (Hval A src val rs r' Hv Hrs Hm) as [Hs' Hm'].
    { intros y Hy. destruct (Hin1 y Hy) as [?| ->]; [by apply Hsome|by exists r0]. }
    split; [done|]. cbn. eapply prefix_lookup_Some in Hp2; [|exact Hk]. rewrite Hp2. cbn.
    rewrite Hr0. cbn. rewrite Hr0c. cbn. by rewrite Hm'.
Qed.

Lemma merge_union_projects_ok e n p :
  opt_merge_generalized_union_projects e n = Some (Some p) → rearranges e n p.
Proof.
  unfold opt_merge_generalized_union_projects. intros H. inv_option H.
  destruct o; try discriminate H. case_match; [done|]. inv_option H. simplify_eq.
  destruct (merge_index_map_ok e n _ _ E eq_refl _ _ _ _ E1) as (_ & Hin & Hval). split.
  - cbn. rewrite leaves_olds. intros y Hy. by destruct (Hin y Hy) as [?%not_elem_of_nil|].
  - cbn. rewrite sources_olds. set_solver.
  - intros A src val r Hv Hr. destruct (view_union_project e src val Hv n _ _ r E Hr) as (rs & Hrs & Hm).
    destruct (Hval A src val rs r Hv Hrs Hm) as [Hsome Hm']; [set_solver|].
    destruct (mapM_total val l0 Hsome) as [rs' Hrs'].
    eapply plan_union_project; [by rewrite plan_olds| |by eapply view_nonempty].
    rewrite <- Hm'. apply mapM_ext_in. intros [i j] _. cbn. apply mapM_Some in Hrs'.
    destruct (l0 !! i) as [y|] eqn:Hi; cbn.
    + destruct (Forall2_lookup_l _ _ _ _ _ Hrs' Hi) as (r0 & -> & Hr0). cbn. by rewrite Hr0.
    + apply lookup_ge_None in Hi. apply Forall2_length in Hrs'.
      by rewrite (proj2 (lookup_ge_None rs' i)) by lia.
Qed.

End QueryRewriteSpec.
