(* ===== verification/QueryUnionSpec.v ===== *)
(** The transforms of unions that move columns: merging sources, merging projections, and
    moving a projection above a union. The places that the loops record lead back to the
    columns. *)
From Stdlib Require Import List.
From S2P Require Import Prelude FlexType FlexOps QueryPlan QueryPlanSpec QueryGraph.
From S2P Require Import QueryGraphSpec QueryGraphInv QueryRewrite QueryView QueryRewriteSpec.
Import FlexType FlexOps QueryPlan QueryPlanSpec QueryGraph QueryGraphSpec QueryGraphInv QueryRewrite.
Import QueryView QueryRewriteSpec.
Local Open Scope Z_scope.
Local Open Scope sframe_scope.

Module QueryUnionSpec.

(** ** Places *)

Lemma all_consecutive_seq l : all_consecutive l = true → ∃ a, l = seq a (length l).
Proof.
  induction l as [|x l IH]; [by exists 0%nat|]. destruct l as [|y l]; [by exists x|].
  cbn [all_consecutive]. rewrite andb_true_iff, Nat.eqb_eq. intros [<- H].
  destruct (IH H) as [a Ha]. injection Ha as <- Hl. exists x. cbn. by rewrite Hl at 1.
Qed.

(** Consecutive places that fill a row of their number are all of it in order. *)
Lemma all_consecutive_lookup {A} (l : list nat) (r0 r : list A) :
  all_consecutive l = true → mapM (λ i, r0 !! i) l = Some r → length l = length r0 → r = r0.
Proof.
  intros [a Ha]%all_consecutive_seq Hm Hlen. assert (l = [] ∨ a = 0%nat) as [-> | ->].
  { destruct (decide (l = [])) as [|Hne]; [by left|right].
    assert ((length l - 1 < length l)%nat) as Hlt by (destruct l; [done|cbn; lia]).
    apply mapM_Some in Hm. assert (l !! (length l - 1)%nat = Some (a + (length l - 1))%nat) as Hk.
    { pose proof (lookup_seq_lt a (length l) (length l - 1) Hlt) as Hs. by rewrite <- Ha in Hs. }
    destruct (Forall2_lookup_l _ _ _ _ _ Hm Hk) as (x & _ & Hx). apply lookup_lt_Some in Hx. lia. }
  - destruct r0; [|done]. by injection Hm as <-.
  - rewrite Ha, Hlen, mapM_lookup_seq in Hm. by simplify_eq.
Qed.

Lemma assign_places_lookup places : ∀ m indices i k,
  assign_places places m indices !! i = Some (Some k) →
  indices !! i = Some (Some k) ∨ (m ≤ k)%nat ∧ places !! (k - m)%nat = Some i.
Proof.
  induction places as [|o places IH]; intros m indices i k; cbn; [by left|].
  intros [H|[Hk H]]%IH.
  - destruct (decide (o = i)) as [->|Ho].
    + destruct (decide (i < length indices)%nat) as [Hlt|Hge].
      * rewrite list_lookup_insert_eq in H by done. simplify_eq. right. split; [lia|].
        by rewrite Nat.sub_diag.
      * rewrite list_insert_ge in H by lia. by left.
    + rewrite list_lookup_insert_ne in H by done. by left.
  - right. split; [lia|]. by replace (k - m)%nat with (S (k - S m)) by lia.
Qed.

Lemma assign_places_length places : ∀ m indices,
  length (assign_places places m indices) = length indices.
Proof. induction places as [|o places IH]; intros m indices; cbn; [done|]. by rewrite IH, length_insert. Qed.

Lemma output_indices_ok places n l :
  output_indices places n = Some l →
  length l = n ∧ ∀ i k, l !! i = Some k → places !! k = Some i.
Proof.
  unfold output_indices. intros H. pose proof (length_mapM _ _ _ H) as Hlen.
  rewrite assign_places_length, length_replicate in Hlen. split; [done|].
  intros i k Hk. apply mapM_Some in H. destruct (Forall2_lookup_r _ _ _ _ _ H Hk) as (o & Ho & Hok).
  cbn in Hok. subst o. apply assign_places_lookup in Ho as [Ho|[_ Ho]].
  - apply lookup_replicate in Ho as [Ho _]. done.
  - by rewrite Nat.sub_0_r in Ho.
Qed.

(** Columns laid out at their places, and fetched from there. *)
Lemma fetch_places {A} (R c : list A) places l :
  mapM (λ i, R !! i) places = Some c → output_indices places (length R) = Some l →
  mapM (λ i, c !! i) l = Some R.
Proof.
  intros Hc (Hlen & Hl)%output_indices_ok. apply mapM_Some, Forall2_same_length_lookup_2; [done|].
  intros i k x Hk Hx. apply Hl in Hk. apply mapM_Some in Hc.
  destruct (Forall2_lookup_l _ _ _ _ _ Hc Hk) as (y & Hy & Hi). congruence.
Qed.

Lemma places_after {A} (before r after : list A) n :
  n = length r → mapM (λ i, (before ++ r ++ after) !! i) (seq (length before) n) = Some r.
Proof.
  intros ->. apply mapM_Some, Forall2_same_length_lookup_2; [by rewrite length_seq|].
  intros k i x Hi Hx. apply lookup_seq in Hi as [-> _].
  rewrite lookup_app_r by lia. replace (length before + k - length before)%nat with k by lia.
  by apply lookup_app_l_Some.
Qed.

(** ** [opt_union_project_merge] *)

(** An entry gives the columns of the row [R] at its places. *)
Definition info_ok {A} (val : nat → option (list A)) (R : list A) (ii : input_info) : Prop :=
  ∃ r0 c, val (in_node ii) = Some r0 ∧ mapM (λ i, r0 !! i) (in_indices ii) = Some c ∧
    mapM (λ i, R !! i) (in_places ii) = Some c ∧ c ≠ [].

Lemma merge_input_ok {A} (val : nat → option (list A)) R x indices places r0 c input_v :
  Forall (info_ok val R) input_v → val x = Some r0 → mapM (λ i, r0 !! i) indices = Some c →
  mapM (λ i, R !! i) places = Some c → c ≠ [] →
  Forall (info_ok val R) (merge_input x indices places input_v).
Proof.
  intros Hv Hx Hi Hp Hne. induction Hv as [|ii input_v Hii Hv IH]; cbn.
  { repeat constructor. by exists r0, c. }
  destruct (Nat.eqb_spec (in_node ii) x) as [<-|_]; constructor; try done.
  destruct Hii as (r1 & c1 & Hr1 & Hi1 & Hp1 & Hne1). simplify_eq. eexists _, (c1 ++ c). cbn.
  split_and!; [done|apply mapM_app_Some; eauto..|]. by destruct c1.
Qed.

Lemma join_cons {A} (l : list A) (k : list (list A)) : mjoin (l :: k) = l ++ mjoin k.
Proof. done. Qed.

Lemma merge_input_places x indices places input_v :
  length (mjoin (map in_places (merge_input x indices places input_v))) =
  (length (mjoin (map in_places input_v)) + length places)%nat.
Proof.
  induction input_v as [|ii l IH]; cbn [merge_input]; [cbn; rewrite app_nil_r; lia|].
  destruct (in_node ii =? x)%nat; cbn [map in_places]; rewrite !join_cons, !length_app; lia.
Qed.

Lemma merge_input_nodes x indices places input_v ii :
  ii ∈ merge_input x indices places input_v →
  in_node ii = x ∨ ∃ ii', ii' ∈ input_v ∧ in_node ii' = in_node ii.
Proof.
  induction input_v as [|ii0 l IH]; cbn; [set_solver|].
  destruct (Nat.eqb_spec (in_node ii0) x) as [Heq|Hne]; intros [->|Hin]%elem_of_cons.
  - by left.
  - right. exists ii. split; [by right|done].
  - right. exists ii0. split; [by left|done].
  - destruct (IH Hin) as [?|(ii' & ? & ?)]; [by left|right]. exists ii'. split; [by right|done].
Qed.

Section merge.
Context (e : engine) (n : nat) (ins0 : list nat).
Hypothesis Hn : node e n = Some (op_union, ins0).

Lemma merge_projects_nodes ins : ∀ start input_v input_v',
  (∀ x, x ∈ ins → x ∈ ins0) → (∀ ii, ii ∈ input_v → reach e n (in_node ii)) →
  merge_projects e ins start input_v = Some input_v' → ∀ ii, ii ∈ input_v' → reach e n (in_node ii).
Proof.
  induction ins as [|x ins IH]; intros start input_v input_v' Hins Hv; cbn; [by intros [= <-]|].
  intros H. inv_option H. assert (reach e n x) as Hx.
  { eapply reach_once; [done..|]. apply Hins. by left. }
  assert (∀ y indices places, reach e n y →
    ∀ ii, ii ∈ merge_input y indices places input_v → reach e n (in_node ii)) as Hmerge.
  { intros y indices places Hy ii Hii. apply merge_input_nodes in Hii as [->|(ii' & Hii' & <-)]; auto. }
  assert (∀ y, y ∈ ins → y ∈ ins0) as Hins' by (intros y Hy; apply Hins; by right).
  destruct o; try (eapply IH; [done| |done]; by apply Hmerge). inv_option H.
  eapply IH; [done| |done]. apply Hmerge. eapply tc_transitive; [done|].
  eapply reach_once; [done..|]. by apply head_elem.
Qed.

Lemma merge_projects_entries_ok {A} src (val : nat → option (list A)) (Hv : view e src val) R ins :
  ∀ before rs input_v input_v',
  mapM val ins = Some rs → R = before ++ concat rs → Forall (info_ok val R) input_v →
  length (mjoin (map in_places input_v)) = length before →
  merge_projects e ins (length before) input_v = Some input_v' →
  Forall (info_ok val R) input_v' ∧ length (mjoin (map in_places input_v')) = length R.
Proof.
  induction ins as [|x ins IH]; intros before rs input_v input_v' Hrs HR Hok Hlen; cbn.
  { injection Hrs as <-. intros [= <-]. rewrite app_nil_r in HR. by subst. }
  intros H. inv_option H. cbn in Hrs. apply bind_Some in Hrs as (r & Hr & (rs' & Hrs & [= <-])%bind_Some).
  cbn in HR. pose proof (view_width e src val Hv x r _ Hr E0) as Hw.
  assert (mapM (λ i, R !! i) (seq (length before) x0) = Some r) as Hplaces.
  { subst R. by apply places_after. }
  assert (∀ y indices r0, val y = Some r0 → mapM (λ i, r0 !! i) indices = Some r →
    merge_projects e ins (length before + x0) (merge_input y indices (seq (length before) x0) input_v) = Some input_v' →
    Forall (info_ok val R) input_v' ∧ length (mjoin (map in_places input_v')) = length R) as Hnext.
  { intros y indices r0 Hy Hm Hmp. eapply (IH (before ++ r) rs'); [done| | | |].
    - by rewrite <- app_assoc.
    - eapply merge_input_ok; [done..|]. by eapply view_nonempty.
    - rewrite merge_input_places, Hlen, length_seq, length_app. lia.
    - rewrite length_app. by rewrite Hw. }
  destruct o; try (eapply (Hnext x (seq 0 x0) r Hr); [by rewrite <- Hw, mapM_lookup_seq|done]).
  inv_option H. destruct (view_project e src val Hv x _ _ r E Hr) as (y & r0 & -> & Hy & Hm).
  injection E1 as ->. by eapply Hnext.
Qed.

Lemma merged_input_plan {A} src (val : nat → option (list A)) (Hv : view e src val) R ii q :
  info_ok val R ii → merged_input e ii = Some q →
  ∃ c, shuffle_plan src val q = Some c ∧ mapM (λ i, R !! i) (in_places ii) = Some c.
Proof.
  intros (r0 & c & Hr0 & Hi & Hp & Hne) Hq. exists c. split; [|done]. unfold merged_input in Hq.
  inv_option Hq. case_match eqn:Hc; simplify_eq.
  - apply andb_true_iff in Hc as [Hlen%Nat.eqb_eq Hcons]. cbn.
    rewrite <- (view_width e src val Hv _ _ _ Hr0 E) in Hlen.
    by rewrite (all_consecutive_lookup _ _ _ Hcons Hi Hlen).
  - by eapply plan_project.
Qed.

Lemma merged_inputs_plan {A} src (val : nat → option (list A)) (Hv : view e src val) R input_v qs :
  Forall (info_ok val R) input_v → mapM (merged_input e) input_v = Some qs →
  ∃ cs, mapM (shuffle_plan src val) qs = Some cs ∧
    mapM (λ i, R !! i) (mjoin (map in_places input_v)) = Some (concat cs).
Proof.
  intros Hok Hq. apply mapM_Some in Hq. revert Hok.
  induction Hq as [|ii q input_v qs Hq _ IH]; intros Hok; [by exists []|].
  inversion_clear Hok as [|?? Hii Hok']. destruct (merged_input_plan src val Hv R ii q Hii Hq) as (c & Hc & Hp).
  destruct (IH Hok') as (cs & Hcs & Hps). exists (c :: cs). cbn. rewrite Hc. cbn. rewrite Hcs.
  split; [done|]. apply mapM_app_Some. eauto.
Qed.

(** A union of one plan is the plan. *)
Lemma plan_union_or_one {A} src (val : nat → option (list A)) qs cs :
  mapM (shuffle_plan src val) qs = Some cs → concat cs ≠ [] →
  shuffle_plan src val (match qs with [x] => x | _ => New op_union qs end) = Some (concat cs).
Proof.
  intros Hq Hne. destruct qs as [|q [|]]; try by apply plan_union.
  cbn in Hq. apply bind_Some in Hq as (c & Hc & [= <-]). cbn. by rewrite app_nil_r.
Qed.

Lemma leaves_union_or_one qs y :
  y ∈ leaves (match qs with [x] => x | _ => New op_union qs end) → y ∈ concat (map leaves qs).
Proof. destruct qs as [|q [|]]; cbn; rewrite ?app_nil_r; done. Qed.

Lemma sources_union_or_one qs s :
  s ∈ plan_sources (match qs with [x] => x | _ => New op_union qs end) → s ∈ concat (map plan_sources qs).
Proof. destruct qs as [|q [|]]; cbn; rewrite ?app_nil_r; done. Qed.

Lemma merged_input_leaves ii q : merged_input e ii = Some q → leaves q = [in_node ii] ∧ plan_sources q = [].
Proof. unfold merged_input. intros H. inv_option H. by case_match; simplify_eq. Qed.

Lemma union_project_merge_ok p : opt_union_project_merge e n = Some (Some p) → rearranges e n p.
Proof.
  unfold opt_union_project_merge. rewrite Hn. cbn [mbind option_bind]. intros H. inv_option H.
  case_match; [done|]. case_match; [done|]. inv_option H. simplify_eq.
  assert (∀ q, q ∈ x2 → ∃ ii, ii ∈ x0 ∧ leaves q = [in_node ii] ∧ plan_sources q = []) as Hq.
  { intros q Hq. apply mapM_Some in E2. apply list_elem_of_lookup_1 in Hq as (j & Hj).
    destruct (Forall2_lookup_r _ _ _ _ _ E2 Hj) as (ii & Hii & Hm). exists ii.
    split; [by eapply list_elem_of_lookup_2|by apply merged_input_leaves]. }
  split.
  - intros y Hy. cbn in Hy. rewrite app_nil_r in Hy. apply leaves_union_or_one in Hy.
    apply list_elem_of_In, in_concat in Hy as (l & Hl%list_elem_of_In & Hy%list_elem_of_In).
    apply list_elem_of_In, in_map_iff in Hl as (q & <- & Hqq%list_elem_of_In).
    destruct (Hq q Hqq) as (ii & Hii & Hle & _). rewrite Hle in Hy. apply list_elem_of_singleton in Hy as ->.
    eapply (merge_projects_nodes ins0 0 []); [done|set_solver|done|done].
  - intros s Hs. cbn in Hs. rewrite app_nil_r in Hs. apply sources_union_or_one in Hs.
    apply list_elem_of_In, in_concat in Hs as (l & Hl%list_elem_of_In & Hs%list_elem_of_In).
    apply list_elem_of_In, in_map_iff in Hl as (q & <- & Hqq%list_elem_of_In).
    destruct (Hq q Hqq) as (ii & Hii & _ & Hso). rewrite Hso in Hs. by apply not_elem_of_nil in Hs.
  - intros A src val r Hv Hr. destruct (view_union e src val Hv n _ r Hn Hr) as (rs & Hrs & ->).
    pose proof (view_nonempty e src val Hv n _ Hr) as Hne.
    destruct (merge_projects_entries_ok src val Hv (concat rs) ins0 [] rs [] x0) as [Hok Hlen]; [done..|].
    destruct (merged_inputs_plan src val Hv (concat rs) x0 x2 Hok E2) as (cs & Hcs & Hp).
    pose proof (view_width e src val Hv n _ _ Hr E1) as Hw.
    eapply plan_project; [apply plan_union_or_one; [done|]| |done].
    + intros Hnil. rewrite Hnil in Hp. apply length_mapM in Hp. rewrite Hlen in Hp. by destruct (concat rs).
    + eapply fetch_places; [done|]. by rewrite Hw.
Qed.
End merge.

(** ** [opt_union_on_source] *)

Definition merge_ok {A} (src : Z → Z → sarray → option A) (val : nat → option (list A)) (R : list A)
    (m : merge_info) : Prop :=
  ∃ c, c ≠ [] ∧ mapM (λ i, R !! i) (merge_places m) = Some c ∧
    match m with
    | Arrays b en sa_v => mapM (src b en) (sa_v.*2) = Some c
    | Input x _ _ => val x = Some c
    end.

Definition merge_known (e : engine) (n : nat) (m : merge_info) : Prop :=
  match m with
  | Arrays b en sa_v => ∀ c, c ∈ sa_v.*2 → ∃ x op ins cols, reach e n x ∧ node e x = Some (op, ins) ∧
      source_columns op = Some (b, en, cols) ∧ c ∈ cols
  | Input x _ _ => reach e n x
  end.

Lemma merge_source_cases b en sa_v map_info m :
  m ∈ merge_source b en sa_v map_info →
  m ∈ map_info ∨ m = Arrays b en sa_v ∨
  ∃ sa_v', Arrays b en sa_v' ∈ map_info ∧ m = Arrays b en (sa_v' ++ sa_v).
Proof.
  induction map_info as [|m' l IH]; cbn; [set_solver|]. intros Hm.
  assert (m = m' ∨ m ∈ merge_source b en sa_v l →
    m ∈ m' :: l ∨ m = Arrays b en sa_v ∨
    ∃ sa_v', Arrays b en sa_v' ∈ m' :: l ∧ m = Arrays b en (sa_v' ++ sa_v)) as Hskip.
  { intros [->|[?|[?|(sa & ? & ?)]]%IH]; [left; by left|left; by right|right; by left|].
    right; right. exists sa. split; [by right|done]. }
  destruct m' as [b' en' sa_v'|x s t].
  - destruct ((b =? b') && (en =? en')) eqn:Heq.
    + apply andb_true_iff in Heq as [->%Z.eqb_eq ->%Z.eqb_eq]. apply elem_of_cons in Hm as [->|Hm].
      * right; right. exists sa_v'. split; [by left|done].
      * left. by right.
    + apply Hskip. by apply elem_of_cons.
  - apply Hskip. by apply elem_of_cons.
Qed.

Lemma merge_source_places b en sa_v map_info :
  length (mjoin (map merge_places (merge_source b en sa_v map_info))) =
  (length (mjoin (map merge_places map_info)) + length sa_v)%nat.
Proof.
  induction map_info as [|m l IH]; cbn [merge_source].
  { cbn. rewrite app_nil_r, length_fmap. done. }
  assert (length (mjoin (map merge_places (m :: merge_source b en sa_v l))) =
    (length (mjoin (map merge_places (m :: l))) + length sa_v)%nat) as Hskip.
  { cbn [map]. rewrite !join_cons, !length_app. lia. }
  destruct m as [b' en' sa_v'|]; [|done]. case_match; [|done].
  cbn [map merge_places]. rewrite !join_cons, !length_app, fmap_app, length_app, !length_fmap. lia.
Qed.

Section sources.
Context (e : engine) (n : nat) (ins0 : list nat).
Hypothesis Hn : node e n = Some (op_union, ins0).

Lemma merge_source_known b en sa_v map_info x op ins cols :
  reach e n x → node e x = Some (op, ins) → source_columns op = Some (b, en, cols) →
  (∀ c, c ∈ sa_v.*2 → c ∈ cols) → (∀ m, m ∈ map_info → merge_known e n m) →
  ∀ m, m ∈ merge_source b en sa_v map_info → merge_known e n m.
Proof.
  intros Hx Hnx Hs Hc Hm m [?|[-> |(sa & Hsa & ->)]]%merge_source_cases; [auto|..].
  - intros c Hc'. exists x, op, ins, cols. auto.
  - intros c Hc'. rewrite fmap_app in Hc'. apply elem_of_app in Hc' as [Hc'|Hc'].
    + by apply (Hm _ Hsa).
    + exists x, op, ins, cols. auto.
Qed.

Lemma merge_inputs_known ins : ∀ idx map_info res,
  (∀ x, x ∈ ins → x ∈ ins0) → (∀ m, m ∈ map_info → merge_known e n m) →
  merge_inputs e ins idx map_info = Some res → ∀ m, m ∈ res.2 → merge_known e n m.
Proof.
  induction ins as [|x ins IH]; intros idx map_info res Hins Hm; cbn; [by intros [= <-]|].
  intros H. inv_option H. assert (reach e n x) as Hx.
  { eapply reach_once; [done..|]. apply Hins. by left. }
  assert (∀ y, y ∈ ins → y ∈ ins0) as Hins' by (intros y Hy; apply Hins; by right).
  destruct (source_columns o) as [[[b en] cols]|] eqn:Hs.
  - eapply IH; [done| |done]. eapply merge_source_known; [done..| |done].
    intros c Hc. apply list_elem_of_fmap in Hc as ([i c'] & -> & Hc).
    by apply elem_of_zip_r in Hc.
  - inv_option H. eapply IH; [done| |done]. intros m [?| ->%list_elem_of_singleton]%elem_of_app; auto.
Qed.

Lemma merge_source_ok {A} src (val : nat → option (list A)) R b en sa_v c map_info :
  Forall (merge_ok src val R) map_info → c ≠ [] → mapM (λ i, R !! i) (sa_v.*1) = Some c →
  mapM (src b en) (sa_v.*2) = Some c → Forall (merge_ok src val R) (merge_source b en sa_v map_info).
Proof.
  intros Hok Hne Hp Hs. apply Forall_forall.
  rewrite Forall_forall in Hok. intros m [Hm|[-> |(sa & Hsa & ->)]]%merge_source_cases; [auto|by exists c|].
  destruct (Hok _ Hsa) as (c' & Hne' & Hp' & Hs'). exists (c' ++ c). cbn in *. split_and!.
  - by destruct c'.
  - rewrite fmap_app. apply mapM_app_Some. eauto.
  - rewrite fmap_app. apply mapM_app_Some. eauto.
Qed.

Lemma merge_inputs_ok {A} src (val : nat → option (list A)) (Hv : view e src val) R ins :
  ∀ before rs map_info num map_info',
  mapM val ins = Some rs → R = before ++ concat rs → Forall (merge_ok src val R) map_info →
  length (mjoin (map merge_places map_info)) = length before →
  merge_inputs e ins (length before) map_info = Some (num, map_info') →
  Forall (merge_ok src val R) map_info' ∧ length (mjoin (map merge_places map_info')) = length R ∧
  num = length R.
Proof.
  induction ins as [|x ins IH]; intros before rs map_info num map_info' Hrs HR Hok Hlen; cbn.
  { injection Hrs as <-. intros [= <- <-]. rewrite app_nil_r in HR. by subst. }
  intros H. inv_option H. cbn in Hrs. apply bind_Some in Hrs as (r & Hr & (rs' & Hrs & [= <-])%bind_Some).
  cbn in HR. pose proof (view_nonempty e src val Hv x r Hr) as Hne.
  assert (R = (before ++ r) ++ concat rs') as HR' by by rewrite <- app_assoc.
  destruct (source_columns o) as [[[b en] cols]|] eqn:Hs.
  - pose proof (view_source e src val Hv _ _ _ _ _ _ _ E Hs Hr) as Hsrc.
    pose proof (length_mapM _ _ _ Hsrc) as Hw.
    assert (length (seq (length before) (length cols)) = length cols) as Hseq by apply length_seq.
    eapply (IH (before ++ r) rs'); [done|done| | |by rewrite length_app, <- Hw].
    + eapply merge_source_ok; [done|done|rewrite fst_zip by lia; subst R; by apply places_after|].
      by rewrite snd_zip by lia.
    + rewrite merge_source_places, Hlen, length_zip_with, length_app. lia.
  - inv_option H. pose proof (view_width e src val Hv x r _ Hr E0) as Hw.
    eapply (IH (before ++ r) rs'); [done|done| | |by rewrite length_app, Hw].
    + apply Forall_app. split; [done|]. repeat constructor. exists r. cbn.
      replace (length before + x0 - length before)%nat with x0 by lia.
      split_and!; [done| |done]. subst R. by apply places_after.
    + rewrite map_app. cbn. rewrite join_app, !length_app. cbn.
      rewrite app_nil_r, length_seq. lia.
Qed.

Lemma merge_plan_ok {A} src (val : nat → option (list A)) R m q :
  merge_ok src val R m → merge_plan m = Some q →
  ∃ c, shuffle_plan src val q = Some c ∧ mapM (λ i, R !! i) (merge_places m) = Some c.
Proof.
  intros (c & Hne & Hp & Hm) Hq. exists c. split; [|done]. destruct m as [b en sa_v|x s t]; cbn in Hq.
  - inv_option Hq. simplify_eq. apply open_for_read_Some in E as [-> _]. cbn. rewrite Hm. by apply nonempty_Some.
  - by simplify_eq.
Qed.

Lemma merge_plans_ok {A} src (val : nat → option (list A)) R map_info qs :
  Forall (merge_ok src val R) map_info → mapM merge_plan map_info = Some qs →
  ∃ cs, mapM (shuffle_plan src val) qs = Some cs ∧
    mapM (λ i, R !! i) (mjoin (map merge_places map_info)) = Some (concat cs).
Proof.
  intros Hok Hq. apply mapM_Some in Hq. revert Hok.
  induction Hq as [|m q l qs Hq _ IH]; intros Hok; [by exists []|].
  inversion_clear Hok as [|?? Hm Hok']. destruct (merge_plan_ok src val R m q Hm Hq) as (c & Hc & Hp).
  destruct (IH Hok') as (cs & Hcs & Hps). exists (c :: cs). cbn. rewrite Hc. cbn. rewrite Hcs.
  split; [done|]. apply mapM_app_Some. eauto.
Qed.

Lemma merge_plan_grounded m q :
  merge_known e n m → merge_plan m = Some q →
  (∀ y, y ∈ leaves q → reach e n y) ∧ (∀ s, s ∈ plan_sources q → source_known e n s).
Proof.
  intros Hm Hq. destruct m as [b en sa_v|x s t]; cbn in Hq.
  - inv_option Hq. simplify_eq. apply open_for_read_Some in E as [-> Ha]. cbn. split; [set_solver|].
    intros s ->%list_elem_of_singleton. split; [done|]. cbn. intros Hne.
    destruct (sa_v.*2) as [|c l] eqn:Hc; [done|].
    destruct (Hm c) as (x & op & ins & cols & ? & ? & ? & ?); [rewrite Hc; by left|].
    exists x, op, ins, cols, c. split_and!; [done..|by left].
  - simplify_eq. cbn. split; [|set_solver]. by intros y ->%list_elem_of_singleton.
Qed.

Lemma merge_plans_grounded map_info qs :
  (∀ m, m ∈ map_info → merge_known e n m) → mapM merge_plan map_info = Some qs →
  (∀ y, y ∈ concat (map leaves qs) → reach e n y) ∧
  (∀ s, s ∈ concat (map plan_sources qs) → source_known e n s).
Proof.
  intros Hm Hq. apply mapM_Some in Hq. induction Hq as [|m q l qs Hq _ IH]; [cbn; set_solver|].
  destruct (merge_plan_grounded m q) as [H1 H2]; [apply Hm; by left|done|].
  destruct IH as [H3 H4]; [intros m' ?; apply Hm; by right|]. cbn.
  split; intros y [?|?]%elem_of_app; auto.
Qed.

(** While there is one entry, its places are all of the output, in order. *)
Definition one_entry (idx : nat) (map_info : list merge_info) : Prop :=
  match map_info with [] => idx = 0%nat | [m] => merge_places m = seq 0 idx | _ => True end.

Lemma merge_inputs_one ins : ∀ idx map_info num map_info',
  one_entry idx map_info → merge_inputs e ins idx map_info = Some (num, map_info') →
  one_entry num map_info'.
Proof.
  induction ins as [|x ins IH]; intros idx map_info num map_info' H1; cbn; [by intros [= <- <-]|].
  intros H. inv_option H. destruct (source_columns o) as [[[b en] cols]|].
  - eapply IH; [|done]. assert ((zip (seq idx (length cols)) cols).*1 = seq idx (length cols)) as Hz.
    { apply fst_zip. by rewrite length_seq. }
    destruct map_info as [|m [|m' map_info]]; cbn in H1.
    + subst idx. cbn. by rewrite Hz.
    + destruct m as [b' en' sa_v|]; [|done]. cbn [merge_source]. case_match; [|done].
      cbn in *. by rewrite fmap_app, H1, Hz, <- seq_app.
    + assert (∀ l, (2 ≤ length l)%nat → one_entry (idx + length cols) l) as Htwo.
      { intros [|? [|]]; cbn; try lia; done. }
      apply Htwo. clear. assert (∀ l, (length l ≤ length (merge_source b en (zip (seq idx (length cols)) cols) l))%nat) as Hmono.
      { induction l as [|[]]; cbn; [lia|case_match; cbn; lia|lia]. }
      etrans; [|apply Hmono]. cbn. lia.
  - inv_option H. eapply IH; [|done]. destruct map_info as [|m [|m' map_info]]; cbn in *; [|done..].
    subst idx. by rewrite Nat.sub_0_r.
Qed.

Lemma union_on_source_ok p : opt_union_on_source e n = Some (Some p) → rearranges e n p.
Proof.
  unfold opt_union_on_source. rewrite Hn. cbn [mbind option_bind]. intros H. inv_option H.
  case_match; [done|]. case_match; [done|]. apply bind_Some in H as ([num map_info] & Hmi & H).
  pose proof (merge_inputs_known ins0 0 [] (num, map_info) ltac:(done) ltac:(set_solver) Hmi) as Hknown.
  cbn in Hknown.
  assert (∀ A src (val : nat → option (list A)) r, view e src val → val n = Some r →
    Forall (merge_ok src val r) map_info ∧ length (mjoin (map merge_places map_info)) = length r ∧
    num = length r) as Hok.
  { intros A src val r Hv Hr. destruct (view_union e src val Hv n _ r Hn Hr) as (rs & Hrs & ->).
    by eapply (merge_inputs_ok src val Hv (concat rs) ins0 [] rs []). }
  assert ((inputs ← mapM merge_plan map_info;
    l ← output_indices (mjoin (map merge_places map_info)) num;
    Some (Some (if all_consecutive l then New op_union inputs else New (op_project l) [New op_union inputs])))
    = Some (Some p) → rearranges e n p) as Hgeneral.
  { clear H. intros H. inv_option H. simplify_eq.
    destruct (merge_plans_grounded _ _ Hknown E0) as [Hle Hso]. split.
    - intros y Hy. apply Hle. case_match; cbn in Hy; by rewrite ?app_nil_r in Hy.
    - intros s Hs. apply Hso. case_match; cbn in Hs; by rewrite ?app_nil_r in Hs.
    - intros A src val r Hv Hr. destruct (Hok A src val r Hv Hr) as (Hall & Hlen & ->).
      pose proof (view_nonempty e src val Hv n r Hr) as Hne.
      destruct (merge_plans_ok src val r map_info x0 Hall E0) as (cs & Hcs & Hp).
      assert (concat cs ≠ []) as Hcne.
      { intros Hnil. rewrite Hnil in Hp. apply length_mapM in Hp. rewrite Hlen in Hp. by destruct r. }
      pose proof (fetch_places r (concat cs) _ _ Hp E1) as Hfetch.
      pose proof (plan_union src val x0 cs Hcs Hcne) as Hunion.
      case_match eqn:Hc; [|by eapply plan_project]. rewrite Hunion. f_equal. symmetry.
      eapply all_consecutive_lookup; [done|done|].
      rewrite (proj1 (output_indices_ok _ _ _ E1)), <- Hlen. by apply length_mapM in Hp. }
  destruct map_info as [|[b en sa_v|] [|]]; try (by apply Hgeneral). clear Hgeneral.
  inv_option H. simplify_eq.
  assert (merge_plan (Arrays b en sa_v) = Some (New (op_sframe_source x0 b en) [])) as Hmp by (cbn; by rewrite E0).
  destruct (merge_plan_grounded _ _ (Hknown _ ltac:(by left)) Hmp) as [Hle Hso]. split; [done|done|].
  intros A src val r Hv Hr. destruct (Hok A src val r Hv Hr) as (Hall & Hlen & ->).
  inversion_clear Hall as [|?? Hm _]. destruct (merge_plan_ok src val r _ _ Hm Hmp) as (c & Hc & Hp).
  rewrite Hc. f_equal. pose proof (merge_inputs_one ins0 0 [] _ _ eq_refl Hmi) as Hone. cbn in Hone, Hp.
  rewrite Hone, mapM_lookup_seq in Hp. by simplify_eq.
Qed.
End sources.

(** ** [opt_union_project_exchange] *)

(** The columns of a row that are used. *)
Fixpoint keep {A} (used : list bool) (l : list A) : list A :=
  match used, l with
  | u :: used, x :: l => if u : bool then x :: keep used l else keep used l
  | _, _ => []
  end.

(** The new places of the columns, from [m] columns already kept. *)
Fixpoint remap (m : nat) (used : list bool) : list (option nat) :=
  match used with
  | [] => []
  | u :: used => if u : bool then Some m :: remap (S m) used else None :: remap m used
  end.

Fixpoint kept (used : list bool) : nat :=
  match used with [] => 0 | u :: used => (if u : bool then 1 else 0) + kept used end%nat.

Lemma kept_le used : (kept used ≤ length used)%nat.
Proof. induction used as [|[] used IH]; cbn; lia. Qed.

Lemma keep_app {A} u1 u2 (l1 l2 : list A) :
  length u1 = length l1 → keep (u1 ++ u2) (l1 ++ l2) = keep u1 l1 ++ keep u2 l2.
Proof.
  revert l1. induction u1 as [|u u1 IH]; intros [|x l1] H; try discriminate H; [done|].
  injection H as H. cbn. rewrite IH by done. by destruct u.
Qed.

Lemma keep_all {A} used (l : list A) : forallb id used = true → length used = length l → keep used l = l.
Proof.
  revert l. induction used as [|u used IH]; intros [|x l] Hu H; try discriminate H; [done|].
  cbn in *. apply andb_true_iff in Hu as [-> Hu]. f_equal. apply IH; [done|lia].
Qed.

Lemma keep_seq_lookup {A} used (l : list A) a before :
  length used = length l → a = length before →
  mapM (λ i, (before ++ l) !! i) (keep used (seq a (length used))) = Some (keep used l).
Proof.
  revert a before l. induction used as [|u used IH]; intros a before [|x l] Hl Ha; try discriminate Hl; [done|].
  cbn [length seq keep]. injection Hl as Hl.
  specialize (IH (S a) (before ++ [x]) l Hl). rewrite length_app, <- app_assoc in IH. cbn in IH, Hl |- *.
  destruct u; cbn; rewrite IH by lia; [|done]. by rewrite list_lookup_middle.
Qed.

Lemma remap_keep {A} used : ∀ m (l before : list A) i k,
  length used = length l → m = length before → remap m used !! i = Some (Some k) →
  (before ++ keep used l) !! k = l !! i.
Proof.
  induction used as [|u used IH]; intros m [|x l] before i k Hl Hm H; try discriminate Hl; [done|].
  injection Hl as Hl. cbn in H |- *. destruct u, i as [|i]; cbn in H |- *; simplify_eq.
  - by rewrite list_lookup_middle.
  - specialize (IH (S (length before)) l (before ++ [x]) i k Hl). rewrite <- app_assoc in IH. cbn in IH.
    apply IH; [|done]. rewrite length_app. cbn. lia.
  - by eapply IH.
Qed.

Section loop.
Context (widths : list nat).

Lemma exchange_step_eq off j c projs needs rs m x l w :
  projs !! j = Some l → widths !! j = Some w →
  exchange_step widths (Exchange off j c projs needs rs) (off + m) x =
  Some (Exchange (if x then off else S off) (if S c =? w then S j else j)%nat
    (if S c =? w then 0 else S c)%nat (if x then <[j := l ++ [c]]> projs else projs)
    (if x then needs else <[j := true]> needs) (rs ++ remap m [x])).
Proof.
  intros Hl Hw. unfold exchange_step. cbn [current_input projections_by_input]. rewrite Hl.
  cbn [mbind option_bind]. rewrite Hw. cbn [mbind option_bind].
  destruct x; cbn; replace (off + m - off)%nat with m by lia; by case_match.
Qed.

(** One input of the union, from its column [c] on. *)
Lemma exchange_input_ok u : ∀ c off j projs needs rs m l b,
  widths !! j = Some (c + length u)%nat → u ≠ [] → projs !! j = Some l → needs !! j = Some b →
  ∀ rest, exchange_loop widths (Exchange off j c projs needs rs) (off + m) (u ++ rest) =
    exchange_loop widths
      (Exchange (off + (length u - kept u)) (S j) 0 (<[j := l ++ keep u (seq c (length u))]> projs)
        (<[j := b || negb (forallb id u)]> needs) (rs ++ remap m u))%nat
      (off + m + length u) rest.
Proof.
  induction u as [|x u IH]; intros c off j projs needs rs m l b Hw Hne Hl Hb rest; [done|].
  assert (j < length projs)%nat as Hlp by by eapply lookup_lt_Some.
  assert (j < length needs)%nat as Hln by by eapply lookup_lt_Some.
  cbn [exchange_loop app]. rewrite (exchange_step_eq off j c projs needs rs m x l _ Hl Hw).
  cbn [mbind option_bind length].
  assert ((if x then <[j := l ++ [c]]> projs else projs) = <[j := l ++ keep [x] [c]]> projs) as ->.
  { destruct x; [done|]. cbn. by rewrite app_nil_r, list_insert_id. }
  assert ((if x then needs else <[j := true]> needs) = <[j := b || negb x]> needs) as ->.
  { destruct x; cbn; [|by rewrite orb_true_r]. by rewrite orb_false_r, list_insert_id. }
  destruct u as [|y u].
  - cbn [length] in *. rewrite (proj2 (Nat.eqb_eq _ _)) by lia. cbn [app forallb id].
    rewrite andb_true_r. f_equal; [|lia]. f_equal. destruct x; cbn; lia.
  - cbn [length] in Hw. rewrite (proj2 (Nat.eqb_neq _ _)) by (cbn; lia).
    set (m' := if x then S m else m). set (off' := if x then off else S off).
    replace (S (off + m)) with (off' + m')%nat by (unfold off', m'; destruct x; lia).
    rewrite (IH (S c) off' j (<[j := l ++ keep [x] [c]]> projs) (<[j := b || negb x]> needs)
      (rs ++ remap m [x]) m' (l ++ keep [x] [c]) (b || negb x)); [|rewrite Hw; f_equal; cbn; lia|done
      |by apply list_lookup_insert_eq|by apply list_lookup_insert_eq].
    f_equal; [|cbn; unfold off', m'; destruct x; lia].
    rewrite !list_insert_insert_eq, <- !app_assoc.
    assert ((off' + (length (y :: u) - kept (y :: u)))%nat =
      (off + (length (x :: y :: u) - kept (x :: y :: u)))%nat) as ->.
    { pose proof (kept_le (y :: u)). unfold off'. cbn [kept length] in *. destruct x; lia. }
    f_equal.
    + f_equal. f_equal. by destruct x.
    + f_equal. rewrite <- orb_assoc, <- negb_andb. done.
    + f_equal. unfold m'. by destruct x.
Qed.
End loop.

Lemma remap_app u1 u2 : ∀ m, remap m (u1 ++ u2) = remap m u1 ++ remap (m + kept u1) u2.
Proof.
  induction u1 as [|u u1 IH]; intros m; cbn [app remap kept]; [by rewrite Nat.add_0_r|].
  destruct u; cbn [app]; rewrite IH; cbn; by rewrite ?Nat.add_succ_r.
Qed.

Lemma insert_middle {A} (l k : list A) x y n : n = length l → <[n := y]> (l ++ x :: k) = l ++ y :: k.
Proof. intros ->. rewrite insert_app_r_alt by lia. by rewrite Nat.sub_diag. Qed.

Lemma exchange_all_ok us : ∀ pre off projs needs rs m,
  length projs = length pre → length needs = length pre → Forall (.≠ []) us →
  ∃ off' j', exchange_loop (pre ++ map length us)
      (Exchange off (length pre) 0 (projs ++ replicate (length us) []) (needs ++ replicate (length us) false) rs)
      (off + m) (concat us) =
    Some (Exchange off' j' 0 (projs ++ map (λ u, keep u (seq 0 (length u))) us)
      (needs ++ map (negb ∘ forallb id) us) (rs ++ remap m (concat us))).
Proof.
  induction us as [|u us IH]; intros pre off projs needs rs m Hp Hn Hne.
  { exists off, (length pre). cbn. by rewrite !app_nil_r. }
  inversion_clear Hne as [|?? Hu Hus]. cbn [map length replicate concat].
  rewrite (exchange_input_ok _ u 0 off (length pre) _ _ rs m [] false);
    [|by rewrite list_lookup_middle|done|by rewrite list_lookup_middle|by rewrite list_lookup_middle].
  rewrite app_nil_l, orb_false_l. pose proof (kept_le u).
  replace (off + m + length u)%nat with (off + (length u - kept u) + (m + kept u))%nat by lia.
  destruct (IH (pre ++ [length u]) (off + (length u - kept u))%nat (projs ++ [keep u (seq 0 (length u))])
    (needs ++ [negb (forallb id u)]) (rs ++ remap m u) (m + kept u)%nat) as (off' & j' & Hloop);
    [by rewrite !length_app, Hp|by rewrite !length_app, Hn|done|].
  exists off', j'. rewrite length_app in Hloop. cbn [length] in Hloop. rewrite Nat.add_1_r in Hloop.
  rewrite remap_app, (insert_middle projs), (insert_middle needs) by done.
  rewrite <- !app_assoc in Hloop. cbn [app] in Hloop. cbn. by rewrite Hloop.
Qed.

Lemma split_used {A} (rs : list (list A)) : ∀ used : list bool,
  length used = length (concat rs) →
  ∃ us, used = concat us ∧ Forall2 (λ u r, length u = length r) us rs.
Proof.
  induction rs as [|r rs IH]; intros used H.
  { destruct used; [|done]. by exists []. }
  cbn in H. rewrite length_app in H. destruct (IH (drop (length r) used)) as (us & Hus & Hall).
  { rewrite length_drop. lia. }
  exists (take (length r) used :: us). cbn. rewrite <- Hus, take_drop. split; [done|].
  constructor; [|done]. rewrite length_take. lia.
Qed.

Lemma mark_used_length out_iv : ∀ used used', mark_used out_iv used = Some used' → length used' = length used.
Proof.
  induction out_iv as [|i out_iv IH]; intros used used' H; cbn in H; [by injection H as <-|].
  inv_option H. apply IH in H. by rewrite H, length_insert.
Qed.

Lemma exchange_inputs_leaves insu projs needs : ∀ q, q ∈ exchange_inputs insu projs needs →
  plan_sources q = [] ∧ ∀ y, y ∈ leaves q → y ∈ insu.
Proof.
  revert projs needs. induction insu as [|x insu IH]; intros [|l projs] [|b needs] q Hq; cbn in Hq;
    try (by apply not_elem_of_nil in Hq).
  assert (q ∈ exchange_inputs insu projs needs → plan_sources q = [] ∧ ∀ y, y ∈ leaves q → y ∈ x :: insu) as Hrest.
  { intros [? Hy]%IH. split; [done|]. intros y ?%Hy. by right. }
  destruct l as [|i l]; [by apply Hrest|]. apply elem_of_cons in Hq as [->|Hq]; [|by apply Hrest].
  destruct b; (split; [done|]); cbn; intros y ->%list_elem_of_singleton; by left.
Qed.

Lemma exchange_inputs_ok {A} src (val : nat → option (list A)) insu rs :
  mapM val insu = Some rs → ∀ us, Forall2 (λ u r, length u = length r) us rs →
  ∃ cs, mapM (shuffle_plan src val) (exchange_inputs insu (map (λ u, keep u (seq 0 (length u))) us)
      (map (negb ∘ forallb id) us)) = Some cs ∧ concat cs = keep (concat us) (concat rs).
Proof.
  rewrite mapM_Some. induction 1 as [|x r insu rs Hx _ IH]; intros us Hus; inversion_clear Hus as [|u ? us' ? Hu Hall].
  { by exists []. }
  destruct (IH us' Hall) as (cs & Hcs & Hconcat). cbn [map concat exchange_inputs].
  rewrite (keep_app _ _ _ _ Hu), <- Hconcat.
  pose proof (keep_seq_lookup u r 0 [] Hu eq_refl) as Hk. cbn [app] in Hk.
  pose proof (length_mapM _ _ _ Hk) as Hlen.
  destruct (keep u (seq 0 (length u))) as [|i l] eqn:El.
  { exists cs. split; [done|]. by destruct (keep u r). }
  exists (keep u r :: cs). split; [|done]. cbn [mapM]. rewrite Hcs.
  assert (shuffle_plan src val (if (negb ∘ forallb id) u then New (op_project (i :: l)) [Old x] else Old x)
    = Some (keep u r)) as ->; [|done].
  unfold compose. destruct (forallb id u) eqn:Ef; cbn [negb].
  - by rewrite (keep_all _ _ Ef Hu).
  - eapply plan_project; [done|done|]. intros Hnil. by rewrite Hnil in Hlen.
Qed.

Lemma mapM_remap {A} used (R r : list A) out_iv l :
  length used = length R → mapM (λ i, mjoin (remap 0 used !! i)) out_iv = Some l →
  mapM (λ i, R !! i) out_iv = Some r → mapM (λ k, keep used R !! k) l = Some r.
Proof.
  intros Hlen Hl Hr. apply mapM_Some in Hl, Hr. apply mapM_Some. revert r Hr.
  induction Hl as [|i k out_iv l Hk _ IH]; intros r Hr; inversion_clear Hr as [|? x ? r' Hx Hr'];
    constructor; [|by apply IH].
  destruct (remap 0 used !! i) as [[k'|]|] eqn:E; cbn in Hk; try discriminate Hk. injection Hk as ->.
  pose proof (remap_keep used 0 R [] i k Hlen eq_refl E) as H. cbn [app] in H. congruence.
Qed.

Lemma union_project_exchange_ok e n p :
  opt_union_project_exchange e n = Some (Some p) → rearranges e n p.
Proof.
  unfold opt_union_project_exchange. intros H. inv_option H. apply indices_of_Some in E0 as ->.
  destruct o0; try discriminate H. inv_option H. rename l0 into insu, x2 into used. case_match; [done|].
  apply bind_Some in H as (widths & Hw & H). apply bind_Some in H as (st & Hst & H).
  apply bind_Some in H as (out & Hout & H).
  set (qs := exchange_inputs _ _ _) in H.
  assert (∃ q, p = New (op_project out) [q] ∧ (qs = [q] ∨ q = New op_union qs)) as (q & -> & Hq).
  { destruct qs as [|q [|]]; injection H as <-; eexists; (split; [done|]); auto. }
  assert (∀ q', q' ∈ qs → plan_sources q' = [] ∧ ∀ y, y ∈ leaves q' → reach e n y) as Hqs.
  { intros q' [? Hy]%exchange_inputs_leaves. split; [done|]. intros y ?%Hy.
    eapply reach_twice; [exact E|done|by apply head_elem|exact E2|done|done]. }
  split.
  - intros y Hy. cbn in Hy. rewrite app_nil_r in Hy. destruct Hq as [Hq| ->].
    + eapply Hqs; [|done]. rewrite Hq. by left.
    + apply list_elem_of_In in Hy. cbn in Hy. apply in_concat in Hy as (k & Hk & Hy).
      apply in_map_iff in Hk as (q' & <- & Hq'). eapply Hqs; by apply list_elem_of_In.
  - intros s Hs. cbn in Hs. rewrite app_nil_r in Hs. exfalso. destruct Hq as [Hq| ->].
    + destruct (Hqs q) as [Hnil _]; [rewrite Hq; by left|]. rewrite Hnil in Hs. set_solver.
    + apply list_elem_of_In in Hs. cbn in Hs. apply in_concat in Hs as (k & Hk & Hs).
      apply in_map_iff in Hk as (q' & <- & Hq'). destruct (Hqs q') as [Hnil _]; [by apply list_elem_of_In|].
      by rewrite Hnil in Hs.
  - intros A src val r Hv Hr. destruct (view_project e src val Hv n _ _ r E Hr) as (u & R & -> & Hu & Hm).
    injection E1 as ->. destruct (view_union e src val Hv _ _ R E2 Hu) as (rs & Hrs & ->).
    pose proof (mark_used_length _ _ _ E3) as Hlen. rewrite length_replicate in Hlen.
    rewrite <- (view_width e src val Hv _ _ _ Hu E0) in Hlen.
    destruct (split_used rs used Hlen) as (us & -> & Hus).
    assert (widths = map length us) as ->.
    { clear -Hw Hrs Hus Hv. apply mapM_Some in Hw, Hrs. revert us Hus widths Hw.
      induction Hrs as [|x r insu rs Hx _ IH]; intros us Hus widths Hw; inversion_clear Hus as [|u ? us' ? Hl Hall];
        inversion_clear Hw as [|? w ? ws Hnc Hws]; [done|]. cbn. f_equal; [|by apply IH].
      by rewrite Hl, (view_width e src val Hv _ _ _ Hx Hnc). }
    assert (Forall (.≠ []) us) as Hne.
    { clear -Hrs Hus Hv. apply mapM_Some in Hrs. revert us Hus.
      induction Hrs as [|x r insu rs Hx _ IH]; intros us Hus; inversion_clear Hus as [|u ? us' ? Hl Hall];
        constructor; [|by apply IH].
      apply (view_nonempty e src val Hv) in Hx. intros ->. by destruct r. }
    assert (length insu = length us) as Hk.
    { apply length_mapM in Hrs. by rewrite (Forall2_length _ _ _ Hus). }
    destruct (exchange_all_ok us [] 0 [] [] [] 0 eq_refl eq_refl Hne) as (off' & j' & Hloop).
    cbn [app length Nat.add] in Hloop. rewrite Hk in Hst. rewrite Hloop in Hst. injection Hst as <-.
    cbn [remapped_indices projections_by_input input_needs_projection app] in *.
    pose proof (mapM_remap _ _ _ _ _ Hlen Hout Hm) as Hr'.
    destruct (exchange_inputs_ok src val insu rs Hrs us Hus) as (cs & Hcs & Hconcat). fold qs in Hcs.
    rewrite <- Hconcat in Hr'. pose proof (view_nonempty e src val Hv n r Hr) as Hrne.
    eapply plan_project; [|exact Hr'|done]. destruct Hq as [Hq| ->].
    + rewrite Hq in Hcs. cbn in Hcs. inv_option Hcs. injection Hcs as <-. cbn. by rewrite app_nil_r.
    + apply plan_union; [done|]. intros Hnil. rewrite Hnil in Hr'. apply length_mapM in Hr' as Hlr.
      apply mapM_Some in Hr'. destruct Hr' as [|? ? ? ? Hx]; [done|]. by rewrite lookup_nil in Hx.
Qed.

End QueryUnionSpec.
