(* ===== verification/QueryFilterSpec.v ===== *)
(** The transforms that change which rows an operator works on: a projection or a linear
    operator passes a filter or an append, and an append of sources is read as one source.
    Each gives a plan with the table of the node it replaces. *)
From Stdlib Require Import List.
From S2P Require Import Prelude FlexType FlexOps QueryPlan QueryPlanSpec QueryGraph.
From S2P Require Import QueryGraphSpec QueryGraphInv QueryRewrite QueryView QueryRewriteSpec QueryUnionSpec.
Import FlexType FlexOps QueryPlan QueryPlanSpec QueryGraph QueryGraphSpec QueryGraphInv QueryRewrite.
Import QueryView QueryRewriteSpec QueryUnionSpec.
Local Open Scope Z_scope.
Local Open Scope sframe_scope.

Module QueryFilterSpec.

(** ** Tables *)

(** A filter keeps the places that its mask selects. *)
Lemma filter_rows_keep (t m u : table) :
  filter_rows t m = Some u ↔
  length t = length m ∧ ∃ used, mapM selected m = Some used ∧ u = keep used t.
Proof.
  revert m u. induction t as [|r t IH]; intros [|x m] u; cbn [filter_rows length mapM].
  - split; [intros [= <-]|intros (_ & used & [= <-] & ->)]; [|done]. split; [done|]. by exists [].
  - split; [done|]. by intros [? _].
  - split; [done|]. by intros [? _].
  - split.
    + intros (s & Hs & (out & Ho & [= <-])%bind_Some)%bind_Some.
      apply IH in Ho as (Hl & used & Hu & ->). split; [by f_equal|]. exists (s :: used).
      by rewrite Hs, Hu.
    + intros ([= Hl] & used & (s & Hs & (used' & Hu & [= <-])%bind_Some)%bind_Some & ->).
      apply bind_Some. exists s. split; [done|]. apply bind_Some. exists (keep used' t).
      split; [|by destruct s]. apply IH. by eauto.
Qed.

Lemma keep_lookup {A} used (t : list A) j :
  length used = length t →
  keep used t !! j = i ← keep used (seq 0 (length used)) !! j; t !! i.
Proof.
  intros Hl. pose proof (keep_seq_lookup used t 0 [] Hl eq_refl) as H. cbn [app] in H.
  apply mapM_Some in H. destruct (keep used (seq 0 (length used)) !! j) as [i|] eqn:Hi; cbn.
  - destruct (Forall2_lookup_l _ _ _ _ _ H Hi) as (x & -> & ->). done.
  - apply lookup_ge_None. rewrite <- (Forall2_length _ _ _ H). by apply lookup_ge_None.
Qed.

Lemma keep_mapM {A B} (F : A → option B) used : ∀ t t',
  mapM F t = Some t' → mapM F (keep used t) = Some (keep used t').
Proof.
  induction used as [|u used IH]; intros [|x t] t' H; cbn in *; simplify_eq; try done.
  { by injection H as <-. }
  apply bind_Some in H as (y & Hy & (t'' & Ht & [= <-])%bind_Some). apply IH in Ht.
  destruct u; [|done]. cbn. by rewrite Hy, Ht.
Qed.

(** A function applied to each row passes the filter, in both directions. *)
Lemma filter_mapM F (t t' m u : table) :
  mapM F t = Some t' → filter_rows t' m = Some u ↔ ∃ w, filter_rows t m = Some w ∧ mapM F w = Some u.
Proof.
  intros H. pose proof (length_mapM _ _ _ H) as Hl. setoid_rewrite filter_rows_keep. split.
  - intros (Hlm & used & Hu & ->). exists (keep used t). split; [|by apply keep_mapM].
    split; [congruence|by eauto].
  - intros (w & (Hlm & used & Hu & ->) & Hw). split; [congruence|]. exists used.
    split; [done|]. apply (keep_mapM F used) in H. congruence.
Qed.

Lemma lockstep_one F t u : lockstep F [t] = Some u ↔ mapM (λ r, F [r]) t = Some u.
Proof.
  rewrite lockstep_Some, mapM_Some. split.
  - intros (_ & Hl & Hrow). rewrite Forall_singleton in Hl. apply Forall2_same_length_lookup_2; [by cbn in *|].
    intros k x y Hx Hy. destruct (Hrow k y Hy) as (rs & Hrs & HF). cbn in Hrs.
    rewrite Hx in Hrs. by injection Hrs as <-.
  - intros H. split_and!; [done|apply Forall_singleton; by eapply Forall2_length|].
    intros k r Hr. destruct (Forall2_lookup_r _ _ _ _ _ H Hr) as (x & Hx & HF).
    exists [x]. cbn. by rewrite Hx.
Qed.

(** A filter passes any operator that works row by row. *)
Lemma lockstep_filter F ts t m u :
  lockstep F ts = Some t → filter_rows t m = Some u →
  ∃ ws, Forall2 (λ t w, filter_rows t m = Some w) ts ws ∧ lockstep F ws = Some u.
Proof.
  intros (Hne & Hlen & Hrow)%lockstep_Some (Hlm & used & Hu & ->)%filter_rows_keep.
  pose proof (length_mapM _ _ _ Hu) as Hlu.
  assert (∀ a, a ∈ ts → length a = length used) as Hlts.
  { intros a Ha. rewrite Forall_forall in Hlen. rewrite (Hlen a Ha). congruence. }
  exists (map (keep used) ts). split.
  - apply Forall2_fmap_r. apply Forall_Forall2_diag. apply Forall_forall. intros a Ha.
    apply filter_rows_keep. split; [rewrite (Hlts a Ha); congruence|by eauto].
  - assert (∀ (a : table), length a = length used → length (keep used a) = length (keep used (seq 0 (length used)))) as Hlk.
    { intros a Ha. symmetry. eapply length_mapM, (keep_seq_lookup used a 0 []); [by rewrite Ha|done]. }
    apply lockstep_Some. split_and!; [by destruct ts| |].
    + apply Forall_fmap, Forall_forall. intros a Ha. unfold compose. rewrite !Hlk; [done|congruence|by apply Hlts].
    + intros k r Hk. rewrite keep_lookup in Hk by congruence. apply bind_Some in Hk as (i & Hi & Hr).
      destruct (Hrow i r Hr) as (rs & Hrs & HF). exists rs. split; [|done]. rewrite mapM_map, <- Hrs.
      apply mapM_ext_in. intros a Ha. rewrite keep_lookup by (symmetry; by apply Hlts). by rewrite Hi.
Qed.

(** ** The operators, on tables with types *)

Section transforms.
Context {SA : SoftAssign}.

Abbreviation project_row := (λ iv r, linear_row (op_project iv) [r]).

Lemma plan_impl_project iv vs tys t :
  plan_impl (op_project iv) vs = Some (tys, t) ↔
  ∃ v, vs = [v] ∧ mapM (λ i, v.1 !! i) iv = Some tys ∧ mapM (project_row iv) (v.2) = Some t ∧ tys ≠ [].
Proof.
  rewrite plan_impl_Some. cbn [fst snd]. rewrite denote_linear by done. setoid_rewrite <- lockstep_one. split.
  - intros (Hi & [Hm Hl] & Hne). apply inputs_match_true in Hm. cbn in Hm. rewrite length_fmap in Hm.
    destruct vs as [|v [|]]; cbn in Hm; [lia| |lia]. exists v. cbn in Hi. by split_and!.
  - intros (v & -> & Hi & Hl & Hne). by split_and!.
Qed.

Lemma plan_impl_filter vs tys t :
  plan_impl op_logical_filter vs = Some (tys, t) ↔
  ∃ v m, vs = [v; m] ∧ v.1 = tys ∧ filter_rows (v.2) (m.2) = Some t ∧ tys ≠ [].
Proof.
  rewrite plan_impl_Some. cbn. split.
  - intros (Hi & Hd & Hne). destruct vs as [|v [|m [|]]]; try done. injection Hi as Hi. by exists v, m.
  - intros (v & m & -> & <- & Hf & Hne). done.
Qed.

Lemma plan_impl_append vs tys t :
  plan_impl op_append vs = Some (tys, t) ↔
  ∃ a b, vs = [a; b] ∧ a.1 = tys ∧ b.1 = tys ∧ t = a.2 ++ b.2 ∧ tys ≠ [].
Proof.
  rewrite plan_impl_Some. cbn. split.
  - intros (Hi & Hd & Hne). destruct vs as [|[ta a] [|[tb b] [|]]]; try done. cbn in *.
    case_bool_decide as Ht; [|done]. injection Hi as <-. subst tb. injection Hd as <-. by do 2 eexists.
  - intros ([ta a] & [tb b] & -> & Ha & Hb & -> & Hne). cbn in *. subst. by rewrite bool_decide_true.
Qed.

(** A projection that gives the types of a node is defined on its rows. *)
Lemma project_row_total iv v tys :
  wide v → mapM (λ i, v.1 !! i) iv = Some tys → tys ≠ [] → ∀ t, (∀ r, r ∈ t → r ∈ v.2) →
  is_Some (mapM (project_row iv) t).
Proof.
  intros Hw Hi Hne t Ht. apply mapM_total. intros r Hr%Ht. unfold wide in Hw. rewrite Forall_forall in Hw.
  cbn. destruct iv as [|i iv]; [by injection Hi as <-|]. apply mapM_total. intros j Hj.
  apply mapM_Some in Hi. apply list_elem_of_lookup_1 in Hj as (k & Hk).
  destruct (Forall2_lookup_l _ _ _ _ _ Hi Hk) as (ty & _ & Hty). apply lookup_lt_is_Some_2.
  rewrite (Hw r Hr). by eapply lookup_lt_Some.
Qed.

(** ** What a transform promises *)

(** The plan has the table of the node, and is built over nodes under it. *)
Definition plan_ok (e : engine) (n : nat) (v : ttable) (p : plan) : Prop :=
  eval_plan plan_impl (denote (nodes e)) p = Some v ∧ ∀ y, y ∈ leaves p → below (nodes e) n y.

(** A transform registered for the nodes of a type. *)
Definition preserves (ty : planner_node_type) (T : rewrite) : Prop :=
  ∀ tip e n v p, engine_ok plan_impl tip e → live (node_lookups e) n →
  node_type e n = Some ty → denote (nodes e) n = Some v → T e n = Some (Some p) → plan_ok e n v p.

Lemma rearranges_preserves ty (T : rewrite) :
  (∀ e n p, node_type e n = Some ty → T e n = Some (Some p) → rearranges e n p) → preserves ty T.
Proof. intros HT tip e n v p Hok Hl Hty Hv Hp. eapply rearranges_value; [done..|]. by eapply HT. Qed.

Lemma below_twice e n x y : below (nodes e) n x → below (nodes e) x y → below (nodes e) n y.
Proof. apply tc_transitive. Qed.

Section node.
Context (tip : nat) (e : engine).
Hypothesis Hok : engine_ok plan_impl tip e.

Lemma project_denote n iv ins v :
  live (node_lookups e) n → node e n = Some (op_project iv, ins) → denote (nodes e) n = Some v →
  ∃ x w, ins = [x] ∧ denote (nodes e) x = Some w ∧ live (node_lookups e) x ∧ below (nodes e) n x ∧ wide w ∧
    mapM (λ i, w.1 !! i) iv = Some (v.1) ∧ mapM (project_row iv) (w.2) = Some (v.2) ∧ v.1 ≠ [].
Proof.
  intros Hl Hn Hv. destruct (node_denote e tip Hok n _ _ v Hl Hn Hv) as (vs & Hvs & Hi & Hw & Hb & _).
  destruct v as [tys t]. apply plan_impl_project in Hi as (w & -> & Hty & Ht & Hne).
  apply mapM_Some in Hvs. inversion Hvs as [|x ? ins' ? Hx Hnil]; subst. inversion Hnil; subst.
  destruct (Hb x) as [? ?]; [by left|]. rewrite Forall_singleton in Hw. exists x, w. by split_and!.
Qed.

Lemma two_inputs {A} (f : nat → option A) ins a b :
  mapM f ins = Some [a; b] → ∃ x y, ins = [x; y] ∧ f x = Some a ∧ f y = Some b.
Proof.
  intros H. apply mapM_Some in H. inversion H as [|x ? ins' ? Hx H']; subst.
  inversion H' as [|y ? ins'' ? Hy H'']; subst. inversion H''; subst. by exists x, y.
Qed.

Lemma filter_denote n ins v :
  live (node_lookups e) n → node e n = Some (op_logical_filter, ins) → denote (nodes e) n = Some v →
  ∃ x m w wm, ins = [x; m] ∧ denote (nodes e) x = Some w ∧ denote (nodes e) m = Some wm ∧
    live (node_lookups e) x ∧ below (nodes e) n x ∧ below (nodes e) n m ∧
    w.1 = v.1 ∧ filter_rows (w.2) (wm.2) = Some (v.2) ∧ v.1 ≠ [].
Proof.
  intros Hl Hn Hv. destruct (node_denote e tip Hok n _ _ v Hl Hn Hv) as (vs & Hvs & Hi & Hw & Hb & _).
  destruct v as [tys t]. apply plan_impl_filter in Hi as (w & wm & -> & Hty & Ht & Hne).
  apply two_inputs in Hvs as (x & m & -> & Hx & Hm). exists x, m, w, wm.
  destruct (Hb x); [by left|]. destruct (Hb m); [by right; left|]. by split_and!.
Qed.

Lemma append_denote n ins v :
  live (node_lookups e) n → node e n = Some (op_append, ins) → denote (nodes e) n = Some v →
  ∃ a b wa wb, ins = [a; b] ∧ denote (nodes e) a = Some wa ∧ denote (nodes e) b = Some wb ∧
    live (node_lookups e) a ∧ live (node_lookups e) b ∧ below (nodes e) n a ∧ below (nodes e) n b ∧
    wa.1 = v.1 ∧ wb.1 = v.1 ∧ v.2 = wa.2 ++ wb.2 ∧ v.1 ≠ [].
Proof.
  intros Hl Hn Hv. destruct (node_denote e tip Hok n _ _ v Hl Hn Hv) as (vs & Hvs & Hi & Hw & Hb & _).
  destruct v as [tys t]. apply plan_impl_append in Hi as (wa & wb & -> & Ha & Hb' & Ht & Hne).
  apply two_inputs in Hvs as (a & b & -> & Hx & Hm). exists a, b, wa, wb.
  destruct (Hb a); [by left|]. destruct (Hb b); [by right; left|]. by split_and!.
Qed.
End node.

Lemma eval_new op (val : nat → option ttable) ts vs v :
  mapM (eval_plan plan_impl val) ts = Some vs → plan_impl op vs = Some v →
  eval_plan plan_impl val (New op ts) = Some v.
Proof. intros Hts Hv. cbn. by rewrite Hts. Qed.

Lemma eval_one op (val : nat → option ttable) q w v :
  eval_plan plan_impl val q = Some w → plan_impl op [w] = Some v →
  eval_plan plan_impl val (New op [q]) = Some v.
Proof. intros Hq. apply eval_new. cbn [mapM]. by rewrite Hq. Qed.

Lemma eval_two op (val : nat → option ttable) q q' w w' v :
  eval_plan plan_impl val q = Some w → eval_plan plan_impl val q' = Some w' →
  plan_impl op [w; w'] = Some v → eval_plan plan_impl val (New op [q; q']) = Some v.
Proof. intros Hq Hq'. apply eval_new. cbn [mapM]. by rewrite Hq, Hq'. Qed.

(** ** Projections *)

Lemma project_append_exchange_ok : preserves PROJECT_NODE opt_project_append_exchange.
Proof.
  intros tip e n [tys t] p Hok Hl _ Hv H. unfold opt_project_append_exchange in H. inv_option H.
  apply indices_of_Some in E0 as ->. destruct o0; try discriminate H.
  destruct l0 as [|a [|b [|]]]; try discriminate H. inv_option H. case_match; simplify_eq.
  destruct (project_denote tip e Hok n _ _ _ Hl E Hv) as (y & w & -> & Hx & Hlx & Hbx & Hw & Hty & Ht & Hne).
  injection E1 as ->. cbn [fst snd] in *.
  destruct (append_denote tip e Hok x0 _ _ Hlx E2 Hx) as (a' & b' & wa & wb & Heq & Ha & Hb & _ & _ & Hba & Hbb & Hta & Htb & Hwt & _).
  injection Heq as <- <-. rewrite Hwt in Ht. apply mapM_app_Some in Ht as (pa & pb & Hpa & Hpb & ->).
  split; [|cbn; set_solver by eauto using below_twice].
  apply eval_two with (tys, pa) (tys, pb).
  - apply eval_one with wa; [done|]. apply plan_impl_project. exists wa. by rewrite Hta.
  - apply eval_one with wb; [done|]. apply plan_impl_project. exists wb. by rewrite Htb.
  - apply plan_impl_append. by do 2 eexists.
Qed.

Lemma project_logical_filter_exchange_ok : preserves PROJECT_NODE opt_project_logical_filter_exchange.
Proof.
  intros tip e n [tys t] p Hok Hl _ Hv H. unfold opt_project_logical_filter_exchange in H. inv_option H.
  apply indices_of_Some in E0 as ->. destruct o0; try discriminate H.
  destruct l0 as [|a [|m [|]]]; try discriminate H. inv_option H. case_match; simplify_eq.
  destruct (project_denote tip e Hok n _ _ _ Hl E Hv) as (y & w & -> & Hx & Hlx & Hbx & Hw & Hty & Ht & Hne).
  injection E1 as ->. cbn [fst snd] in *.
  destruct (filter_denote tip e Hok x0 _ _ Hlx E2 Hx) as (a' & m' & wa & wm & Heq & Ha & Hm & _ & Hba & Hbm & Hta & Hf & _).
  injection Heq as <- <-. rewrite <- Hta in Hty.
  destruct (project_row_total x wa tys (denote_wide _ _ _ Ha) Hty Hne (wa.2)) as [pa Hpa]; [done|].
  split; [|cbn; set_solver by eauto using below_twice].
  apply eval_two with (tys, pa) wm; [|done|].
  - apply eval_one with wa; [done|]. apply plan_impl_project. by exists wa.
  - apply plan_impl_filter. exists (tys, pa), wm. split_and!; [done|done| |done].
    apply (filter_mapM _ _ _ _ _ Hpa). by exists (w.2).
Qed.

(** ** Filters *)

Lemma logical_filter_expanding_project_exchange_ok :
  preserves LOGICAL_FILTER_NODE opt_logical_filter_expanding_project_exchange.
Proof.
  intros tip e n [tys t] p Hok Hl Hop Hv H. unfold opt_logical_filter_expanding_project_exchange in H. inv_option H.
  unfold node_type in Hop. rewrite E in Hop. destruct o; try discriminate Hop. clear Hop.
  destruct o0; try discriminate H. inv_option H. case_match; [done|]. inv_option H. simplify_eq.
  destruct (filter_denote tip e Hok n _ _ Hl E Hv) as (a & m & wa & wm & -> & Ha & Hm & Hla & Hba & Hbm & Hta & Hf & Hne).
  injection E0 as ->. injection E4 as ->. cbn [fst snd] in *.
  destruct (project_denote tip e Hok x _ _ _ Hla E1 Ha) as (y & w & -> & Hy & _ & Hby & _ & Hty & Ht & _).
  injection E2 as ->. rewrite Hta in Hty. apply (filter_mapM _ _ _ _ _ Ht) in Hf as (u & Hu & Hpu).
  split; [|cbn; set_solver by eauto using below_twice].
  apply eval_one with (w.1, u).
  - apply eval_two with w wm; [done|done|]. apply plan_impl_filter. exists w, wm. split_and!; [done..|].
    intros Hnil. rewrite Hnil in Hty. destruct indices as [|i l]; [by injection Hty as <-|].
    cbn in Hty. by rewrite lookup_nil in Hty.
  - apply plan_impl_project. by exists (w.1, u).
Qed.

Lemma logical_filter_linear_transform_exchange_ok :
  preserves LOGICAL_FILTER_NODE opt_logical_filter_linear_transform_exchange.
Proof.
  intros tip e n [tys t] p Hok Hl Hop Hv H. unfold opt_logical_filter_linear_transform_exchange in H. inv_option H.
  unfold node_type in Hop. rewrite E in Hop. destruct o; try discriminate Hop. clear Hop.
  destruct (is_linear_transform (type_of o0)) eqn:Hlin; [cbn [negb orb] in H|done]. case_match; [done|].
  inv_option H. simplify_eq.
  destruct (filter_denote tip e Hok n _ _ Hl E Hv) as (a & m & wa & wm & -> & Ha & Hm & Hla & Hba & Hbm & Hta & Hf & Hne).
  injection E0 as ->. injection E4 as ->. cbn [fst snd] in *.
  destruct (node_denote e tip Hok x _ _ _ Hla E1 Ha) as (vs & Hvs & Hi & _ & Hb & q & Hq & Hop & Hin).
  simplify_eq. destruct wa as [tya ta]. apply plan_impl_Some in Hi as (Hi & Hd & _). cbn [fst snd] in *.
  apply denote_linear in Hd as [Hmatch Hd]; [|done].
  destruct (lockstep_filter _ _ _ _ _ Hd Hf) as (ws & Hws & Hu).
  assert (∃ us, us.*1 = vs.*1 ∧ us.*2 = ws ∧ mapM (eval_plan plan_impl (denote (nodes e)))
    (map (λ y, New op_logical_filter [Old y; Old x2]) (inputs x1)) = Some us) as (us & Hus1 & <- & Hus).
  { clear -Hvs Hws Hm. rewrite mapM_map. apply mapM_Some in Hvs. revert ws Hws.
    induction Hvs as [|y v ys vs Hy _ IH]; intros ws Hws.
    { inversion_clear Hws. by exists []. }
    cbn in Hws. inversion_clear Hws as [|? w ? ws' Hw Hws']. destruct (IH _ Hws') as (us & H1 & <- & Hus).
    exists ((v.1, w) :: us). split_and!; [cbn; by rewrite H1|done|]. cbn [mapM].
    rewrite (eval_two op_logical_filter _ (Old y) (Old x2) v wm (v.1, w) Hy Hm); [by rewrite Hus|].
    apply plan_impl_filter. exists v, wm. split_and!; [done..|].
    apply evaluate_unfold in Hy as (? & ? & _ & _ & (_ & _ & H)%plan_impl_Some). done. }
  split.
  - eapply eval_new; [done|]. apply plan_impl_Some. cbn [fst snd]. rewrite Hus1. split_and!; [done|..|done].
    apply denote_linear; [done|]. split; [|done]. rewrite length_fmap in *.
    by rewrite <- (length_fmap fst us), Hus1, length_fmap.
  - intros y Hy. apply list_elem_of_In in Hy. cbn in Hy. rewrite map_map in Hy.
    apply in_concat in Hy as (l & Hl' & Hy). apply in_map_iff in Hl' as (z & <- & Hz).
    apply list_elem_of_In in Hz. destruct (Hb z Hz) as [_ Hbz]. destruct Hy as [<-|[<-|[]]]; [|done].
    by apply below_twice with x.
Qed.

(** ** Appends *)

Lemma eliminate_empty_append_ok : preserves APPEND_NODE opt_eliminate_empty_append.
Proof.
  intros tip e n [tys t] p Hok Hl Hop Hv H. unfold opt_eliminate_empty_append in H. inv_option H.
  unfold node_type in Hop. rewrite E in Hop. destruct o; try discriminate Hop. clear Hop.
  destruct (append_denote tip e Hok n _ _ Hl E Hv) as (a & b & wa & wb & -> & Ha & Hb & _ & _ & Hba & Hbb & Hta & Htb & Hwt & _).
  injection E0 as ->. injection E1 as ->. cbn [fst snd] in *.
  assert (∀ x w, denote (nodes e) x = Some w → node_length e x = Some 0 → w.2 = []) as Hempty.
  { intros y w (l & Hy & Hok')%denote_length Hlen. unfold node_length in Hlen. rewrite Hy in Hlen.
    injection Hlen as ->. unfold length_ok in Hok'. destruct (w.2); [done|]. cbn in Hok'. lia. }
  case_match eqn:Hlb; [|inv_option H; case_match eqn:Hla; [|done]]; simplify_eq; apply Z.eqb_eq in Hlb || clear Hlb;
    (split; [|by intros y ->%list_elem_of_singleton]); cbn [eval_plan].
  - rewrite Ha, (Hempty _ _ Hb) by congruence. rewrite app_nil_r. by destruct wa; simplify_eq/=.
  - apply Z.eqb_eq in Hla. rewrite Hb, (Hempty _ _ Ha) by congruence. by destruct wb; simplify_eq/=.
Qed.

(** A frame that is read whole. *)
Definition whole (sf : sframe) (t : table) : Prop :=
  sf ≠ [] ∧ read_rows sf 0 (Z.of_nat (num_rows sf)) = Some t.

Lemma whole_length sf t : whole sf t → length t = num_rows sf.
Proof. intros [_ H%read_rows_length]. lia. Qed.

Lemma whole_empty sf t : whole sf t → num_rows sf = 0%nat → t = [].
Proof. intros H%whole_length Hz. rewrite Hz in H. by destruct t. Qed.

Lemma append_columns a b c na nb :
  sframe_append_columns a b = Some c →
  Forall (λ sa, length (sa_data sa) = na) a → Forall (λ sa, length (sa_data sa) = nb) b →
  map sa_type c = map sa_type a ∧ Forall (λ sa, length (sa_data sa) = na + nb)%nat c ∧
  (∀ i, 0 ≤ i < Z.of_nat na → row_at c i = row_at a i) ∧
  (∀ i, 0 ≤ i → row_at c (Z.of_nat na + i) = row_at b i).
Proof.
  revert b c. induction a as [|x a IH]; intros [|y b] c H Ha Hb; try discriminate H.
  { injection H as <-. done. }
  cbn in H. case_bool_decide as Hty; [|done]. inv_option H. injection H as <-.
  inversion_clear Ha as [|?? Hx Ha']. inversion_clear Hb as [|?? Hy Hb'].
  destruct (IH b x0 E Ha' Hb') as (Ht & Hl & H1 & H2). split_and!.
  - cbn. by rewrite Ht.
  - constructor; [|done]. cbn. rewrite length_app. by rewrite Hx, Hy.
  - intros i Hi. unfold row_at in *. cbn. rewrite H1 by done. rewrite lookup_app_l by lia. done.
  - intros i Hi. unfold row_at in *. cbn. rewrite H2 by done. rewrite lookup_app_r by lia.
    replace (Z.to_nat (Z.of_nat na + i) - length (sa_data x))%nat with (Z.to_nat i) by lia. done.
Qed.

Lemma append_columns_total a b :
  map sa_type a = map sa_type b → is_Some (sframe_append_columns a b).
Proof.
  revert b. induction a as [|x a IH]; intros [|y b] H; try discriminate H; [by eexists|].
  injection H as Hx H. cbn. rewrite bool_decide_true by done. destruct (IH b H) as [c ->]. by eexists.
Qed.

Lemma whole_append a b ta tb :
  whole a ta → whole b tb → map sa_type a = map sa_type b →
  ∃ c, sframe_append a b = Some c ∧ map sa_type c = map sa_type a ∧ whole c (ta ++ tb).
Proof.
  intros [Hna Ha] [Hnb Hb] Hty. destruct (append_columns_total a b Hty) as [c Hc].
  apply read_rows_Some in Ha as (Hla & _ & _ & Ha). apply read_rows_Some in Hb as (Hlb & _ & _ & Hb).
  destruct (append_columns a b c _ _ Hc Hla Hlb) as (Hct & Hcl & H1 & H2).
  assert (c ≠ []) as Hnc by (intros ->; by destruct a).
  assert (num_rows c = (num_rows a + num_rows b)%nat) as Hn by by inversion Hcl.
  exists c. split_and!; [by destruct a, b|done|]. split; [done|]. apply read_rows_Some.
  split_and!; [unfold columns_agree; by rewrite Hn|lia|lia|lia|].
  rewrite Z.sub_0_r, Hn, Nat2Z.inj_add, seqZ_app by lia. rewrite Z.sub_0_r in Ha, Hb. apply mapM_app_Some.
  exists ta, tb. split_and!; [|clear Ha|done].
  - rewrite <- Ha. apply mapM_ext_in. intros i Hi%elem_of_seqZ. apply H1. lia.
  - rewrite Z.add_0_l. rewrite <- (Z.add_0_r (Z.of_nat (num_rows a))), <- fmap_add_seqZ.
    change (mapM (row_at c) (map (Z.add (Z.of_nat (num_rows a))) (seqZ 0 (Z.of_nat (num_rows b)))) = Some tb).
    rewrite mapM_map, <- Hb. apply mapM_ext_in. intros i Hi%elem_of_seqZ. apply H2. lia.
Qed.

(** The source that is read whole, for a node of the value [v]. *)
Lemma whole_source op b en cols vs v :
  source_columns op = Some (b, en, cols) → plan_impl op vs = Some v → b = 0 → en = Z.of_nat (num_rows cols) →
  whole cols (v.2) ∧ v.1 = map sa_type cols.
Proof. intros Hs Hv -> ->. destruct (source_denote op vs _ _ cols v Hs Hv) as (? & ? & ?). by repeat split. Qed.

Lemma whole_sframe_value op sf vs v :
  whole_sframe op = Some sf → plan_impl op vs = Some v → whole sf (v.2) ∧ v.1 = map sa_type sf.
Proof.
  destruct op; try done. intros H Hv. cbn in H. case_match eqn:E; [|done]. injection H as <-.
  apply andb_true_iff in E as [?%Z.eqb_eq ?%Z.eqb_eq]. by eapply whole_source with (2 := Hv).
Qed.

Lemma whole_sarray_value op sa vs v :
  whole_sarray op = Some sa → plan_impl op vs = Some v → whole [sa] (v.2) ∧ v.1 = [sa_type sa].
Proof.
  destruct op; try done. intros H Hv. cbn in H. case_match eqn:E; [|done]. injection H as <-.
  apply andb_true_iff in E as [?%Z.eqb_eq ?%Z.eqb_eq]. by eapply whole_source with (2 := Hv).
Qed.

Lemma whole_plan_sframe sf t :
  whole sf t → plan_impl (op_sframe_source sf 0 (Z.of_nat (num_rows sf))) [] = Some (map sa_type sf, t).
Proof. intros [Hne H]. apply plan_impl_Some. split_and!; [done|done|]. by destruct sf. Qed.

Lemma whole_plan_sarray sa t :
  whole [sa] t → plan_impl (op_sarray_source sa 0 (Z.of_nat (length (sa_data sa)))) [] = Some ([sa_type sa], t).
Proof. intros [Hne H]. by apply plan_impl_Some. Qed.

Lemma try_sframe_append_value opa opb vsa vsb va vb sf :
  try_sframe_append [opa; opb] [] = Some (Some sf) →
  plan_impl opa vsa = Some va → plan_impl opb vsb = Some vb → va.1 = vb.1 →
  ∃ sf', (if (num_rows sf =? 0)%nat then whole_sframe opa else Some sf) = Some sf' ∧
    whole sf' (va.2 ++ vb.2) ∧ map sa_type sf' = va.1.
Proof.
  intros H Ha Hb Hty. cbn [try_sframe_append] in H. destruct (whole_sframe opa) as [sa|] eqn:Ea; [|done].
  destruct (whole_sframe_value _ _ _ _ Ea Ha) as [Hwa Hta].
  assert (∃ new, (if (num_rows sa =? 0)%nat then Some [] else sframe_append [] sa) = Some new ∧
    new = if (num_rows sa =? 0)%nat then [] else sa) as (new & Hnew & ->).
  { destruct (num_rows sa =? 0)%nat; [by eexists|]. exists sa. split; [|done]. by destruct sa. }
  rewrite Hnew in H. cbn [mbind option_bind] in H. destruct (whole_sframe opb) as [sb|] eqn:Eb; [|done].
  destruct (whole_sframe_value _ _ _ _ Eb Hb) as [Hwb Htb].
  destruct (num_rows sa =? 0)%nat eqn:Hna; destruct (num_rows sb =? 0)%nat eqn:Hnb; cbn [mbind option_bind] in H.
  - simplify_eq. apply Nat.eqb_eq in Hna, Hnb. exists sa.
    rewrite (whole_empty _ _ Hwb Hnb), app_nil_r. done.
  - assert (sframe_append [] sb = Some sb) as Hs by (destruct sb; [by destruct Hwb|done]).
    rewrite Hs in H. cbn in H. simplify_eq. rewrite Hnb. apply Nat.eqb_eq in Hna. exists sf.
    rewrite (whole_empty _ _ Hwa Hna). split_and!; [done|done|congruence].
  - simplify_eq. rewrite Hna. apply Nat.eqb_eq in Hnb. exists sf.
    by rewrite (whole_empty _ _ Hwb Hnb), app_nil_r.
  - destruct (whole_append sa sb _ _ Hwa Hwb) as (c & Hc & Htc & Hwc); [congruence|].
    rewrite Hc in H. cbn in H. simplify_eq. exists sf. split_and!; [|done|congruence].
    case_match eqn:Hz; [|done]. apply Nat.eqb_eq in Hz. apply Nat.eqb_neq in Hna.
    pose proof (whole_length _ _ Hwc). pose proof (whole_length _ _ Hwa). rewrite length_app in *. lia.
Qed.

Lemma try_sarray_append_value opa opb vsa vsb va vb new :
  try_sarray_append [opa; opb] None = Some new →
  plan_impl opa vsa = Some va → plan_impl opb vsb = Some vb → va.1 = vb.1 →
  ∃ sa, match new with None => whole_sarray opa | _ => new end = Some sa ∧
    whole [sa] (va.2 ++ vb.2) ∧ [sa_type sa] = va.1.
Proof.
  intros H Ha Hb Hty. cbn in H. destruct (whole_sarray opa) as [sa|] eqn:Ea; [|done].
  destruct (whole_sarray_value _ _ _ _ Ea Ha) as [Hwa Hta]. destruct (whole_sarray opb) as [sb|] eqn:Eb; [|done].
  destruct (whole_sarray_value _ _ _ _ Eb Hb) as [Hwb Htb].
  destruct (length (sa_data sa) =? 0)%nat eqn:Hna; destruct (length (sa_data sb) =? 0)%nat eqn:Hnb; simplify_eq.
  - apply Nat.eqb_eq in Hna, Hnb. exists sa. rewrite (whole_empty _ _ Hwb Hnb), app_nil_r. done.
  - apply Nat.eqb_eq in Hna. exists sb. rewrite (whole_empty _ _ Hwa Hna). split_and!; [done|done|congruence].
  - apply Nat.eqb_eq in Hnb. exists sa. by rewrite (whole_empty _ _ Hwb Hnb), app_nil_r.
  - destruct (whole_append [sa] [sb] _ _ Hwa Hwb) as (c & Hc & Htc & Hwc); [cbn; congruence|].
    cbn in Hc. case_bool_decide; [|done]. simplify_eq/=. exists (sarray_append sa sb).
    split_and!; [done|done|]. by rewrite Hta.
Qed.

Lemma append_on_source_ok : preserves APPEND_NODE opt_append_on_source.
Proof.
  intros tip e n [tys t] p Hok Hl Hop Hv H. unfold opt_append_on_source in H. inv_option H.
  unfold node_type in Hop. rewrite E in Hop. destruct o; try discriminate Hop. clear Hop.
  destruct (append_denote tip e Hok n _ _ Hl E Hv) as (a & b & wa & wb & -> & Ha & Hb & Hla & Hlb & _ & _ & Hta & Htb & Hwt & _).
  cbn [fst snd] in *. apply mapM_Some in E0. inversion E0 as [|? opa ? ops' Hopa E0']; subst.
  inversion E0' as [|? opb ? ops'' Hopb E0'']; subst. inversion E0''; subst. injection E1 as <-. injection E2 as <-.
  apply fmap_Some in Hopa as ([opa' insa] & Hna & ->). apply fmap_Some in Hopb as ([opb' insb] & Hnb & ->).
  destruct (node_denote e tip Hok a _ _ _ Hla Hna Ha) as (vsa & _ & Hia & _).
  destruct (node_denote e tip Hok b _ _ _ Hlb Hnb Hb) as (vsb & _ & Hib & _).
  cbn [fst] in H. case_match; [done|]. apply bind_Some in H as ([new_sf|] & Htry & H).
  - destruct (try_sframe_append_value _ _ _ _ _ _ _ Htry Hia Hib) as (sf & Hsf & Hw & Hty); [congruence|].
    rewrite Hsf in H. cbn in H. injection H as <-. split; [|by intros y []%elem_of_nil].
    apply eval_new with []; [done|]. rewrite (whole_plan_sframe _ _ Hw). by rewrite Hty.
  - destruct (try_sarray_append [opa'; opb'] None) as [new|] eqn:Htrya; [|done].
    destruct (try_sarray_append_value _ _ _ _ _ _ _ Htrya Hia Hib) as (sa & Hsa & Hw & Hty); [congruence|].
    rewrite Hsa in H. cbn in H. injection H as <-. split; [|by intros y []%elem_of_nil].
    apply eval_new with []; [done|]. rewrite (whole_plan_sarray _ _ Hw). by rewrite Hty.
Qed.
End transforms.

End QueryFilterSpec.
