(* ===== verification/QueryEngine.v ===== *)
(** The optimizer (planning/optimization_engine.cpp): the registry of transforms, the queue of
    active nodes, the stages. *)
From S2P Require Import Prelude FlexType FlexOps QueryPlan QueryGraph QueryRewrite.
Import FlexType FlexOps QueryPlan QueryGraph QueryRewrite.
Local Open Scope Z_scope.
Local Open Scope sframe_scope.

Module QueryEngine.

(** ** The registry (optimization_transforms.cpp) *)

(** [register_optimization(stages, opt)], for a transform with [transform_applies(t)]. *)
Record registration := Register {
  stages : list nat;
  transform_applies : planner_node_type;
  apply_transform : rewrite;
}.

(** The registrations in order; the transforms that merge equal filters and equal sources, and
    the one that tags sources, are not among them. *)
Definition populate_transforms : list registration := [
  Register [0] GENERALIZED_UNION_PROJECT_NODE opt_expand_generalized_union_project;
  Register [1; 2; 3; 4] PROJECT_NODE opt_eliminate_identity_project;
  Register [1; 2; 3] PROJECT_NODE opt_split_contractive_expansive_projection;
  Register [1; 2; 3] UNION_NODE opt_union_merge;
  Register [1; 2; 3] UNION_NODE opt_union_on_source;
  Register [1; 2; 3] PROJECT_NODE opt_project_on_source;
  Register [1; 2; 3] APPEND_NODE opt_append_on_source;
  Register [1; 2; 3] PROJECT_NODE opt_merge_projects;
  Register [1; 2; 3] UNION_NODE opt_union_project_merge;
  Register [1; 2; 3] APPEND_NODE opt_eliminate_empty_append;
  Register [1; 2; 3] PROJECT_NODE opt_union_project_exchange;
  Register [1; 2; 3] PROJECT_NODE opt_project_append_exchange;
  Register [1; 2; 3] UNION_NODE opt_eliminate_singleton_union;
  Register [2] PROJECT_NODE opt_project_logical_filter_exchange;
  Register [2] LOGICAL_FILTER_NODE opt_logical_filter_linear_transform_exchange;
  Register [2; 3] LOGICAL_FILTER_NODE opt_logical_filter_expanding_project_exchange;
  Register [5] UNION_NODE opt_union_to_generalized_union_project;
  Register [5] PROJECT_NODE opt_project_to_generalized_union_project;
  Register [5] GENERALIZED_UNION_PROJECT_NODE opt_merge_generalized_union_projects]%nat.

Definition get_stages_to_run (only_first_pass_optimizations : bool) : list nat :=
  if only_first_pass_optimizations then [0; 1; 4; 5; 6]%nat else [0; 1; 2; 3; 4; 5; 6]%nat.

Section registry.
Context (reg : list registration).

Definition get_transforms (stage : nat) (t : planner_node_type) : list rewrite :=
  apply_transform <$>
    filter (λ r, bool_decide (stage ∈ stages r ∧ transform_applies r = t) = true) reg.

Definition stage_type_active_mask (stage : nat) (t : planner_node_type) : bool :=
  match get_transforms stage t with [] => false | _ => true end.

(** ** The queue *)

(** The nodes under the tip in the order of a breadth first descent: [active_nodes] is read
    at [p_idx] while it grows. *)
Definition discover (s : list nat * list nat) (nn : nat) : list nat * list nat :=
  if bool_decide (nn ∈ s.2) then s else (s.1 ++ [nn], nn :: s.2).

Fixpoint descend (fuel : nat) (L : lookups) (p_idx : nat) (s : list nat * list nat) : option (list nat) :=
  match fuel with
  | O => None
  | S fuel =>
      match s.1 !! p_idx with
      | None => Some s.1
      | Some n => i ← L !! n; descend fuel L (S p_idx) (foldl discover s (ni_inputs i))
      end
  end.

Definition type_in (h : heap) (n : nat) : option planner_node_type :=
  type_of ∘ operator_type <$> h !! n.

Definition build_active_node_queue (stage tip : nat) (e : engine) : option engine :=
  active ← descend (S (S (base.size (node_lookups e)))) (node_lookups e) 0 ([tip], []);
  Some (Engine (nodes e) (node_lookups e)
    (reverse (filter (λ n, match type_in (nodes e) n with
                           | Some t => stage_type_active_mask stage t | None => false end = true) active))).

(** ** The loops *)

(** The transforms of a node, until one applies. *)
Fixpoint try_transforms (stage : nat) (trs : list rewrite) (n : nat) (e : engine) : option (bool * engine) :=
  match trs with
  | [] => Some (false, e)
  | tr :: trs =>
      r ← tr e n;
      match r with
      | None => try_transforms stage trs n e
      | Some p => e ← replace_node (stage_type_active_mask stage) n p e; Some (true, e)
      end
  end.

(** The body of the loop over [active_nodes]. *)
Definition process_node (stage : nat) (n : nat) (e : engine) : option (bool * engine) :=
  let e := Engine (nodes e) (node_lookups e) (removelast (active_nodes e)) in
  i ← node_lookups e !! n;
  if node_discarded i then Some (false, e)
  else t ← type_in (nodes e) n; try_transforms stage (get_transforms stage t) n e.

Fixpoint process_queue (fuel : nat) (stage : nat) (e : engine) (optimization_occured : bool)
  : option (bool * engine) :=
  match fuel with
  | O => None
  | S fuel =>
      match last (active_nodes e) with
      | None => Some (optimization_occured, e)
      | Some n =>
          '(applied, e) ← process_node stage n e;
          process_queue fuel stage e (optimization_occured || applied)
      end
  end.

Fixpoint run_stage (fuel : nat) (tip stage : nat) (e : engine) : option engine :=
  match fuel with
  | O => None
  | S fuel =>
      e ← build_active_node_queue stage tip e;
      '(optimization_occured, e) ← process_queue fuel stage e false;
      if optimization_occured : bool then run_stage fuel tip stage e else Some e
  end.

(** [_run], from the planner nodes of the plan: an identity above the tip is never replaced. *)
Definition make_engine (h : heap) (ptip : nat) : option (engine * nat) :=
  '(h, proxy_tip) ← make_planner_node (New optonly_identity_operator [Old ptip]) h;
  L ← build_node_info (S (base.size h)) h proxy_tip ∅;
  Some (Engine h L [], proxy_tip).

Definition optimized_tip (e : engine) (proxy_tip : nat) : option nat :=
  p ← nodes e !! proxy_tip; head (inputs p).

Definition optimize_planner_graph (fuel : nat) (only_first_pass_optimizations : bool) (h : heap) (ptip : nat)
  : option (heap * nat) :=
  '(e, proxy_tip) ← make_engine h ptip;
  e ← fold_option (λ e stage, run_stage fuel proxy_tip stage e)
        (get_stages_to_run only_first_pass_optimizations) e;
  tip ← optimized_tip e proxy_tip;
  Some (nodes e, tip).

(** A turn of either loop. *)
Inductive engine_step (tip : nat) : engine → engine → Prop :=
  | step_queue stage e e' :
      build_active_node_queue stage tip e = Some e' → engine_step tip e e'
  | step_node stage n e applied e' :
      last (active_nodes e) = Some n → process_node stage n e = Some (applied, e') →
      engine_step tip e e'.

End registry.
End QueryEngine.
