(* ===== verification/QueryEngineSpec.v ===== *)
(** The optimizer keeps the table of the plan it is given: whatever the registry, when each of
    its transforms does; and the transforms of the source do. *)
From Stdlib Require Import List.
From S2P Require Import Prelude FlexType FlexOps QueryPlan QueryPlanSpec QueryGraph.
From S2P Require Import QueryGraphSpec QueryGraphInv QueryRewrite QueryView QueryRewriteSpec QueryUnionSpec.
From S2P Require Import QueryFilterSpec QueryEngine.
Import FlexType FlexOps QueryPlan QueryPlanSpec QueryGraph QueryGraphSpec QueryGraphInv QueryRewrite.
Import QueryView QueryRewriteSpec QueryUnionSpec QueryFilterSpec QueryEngine.
Local Open Scope Z_scope.
Local Open Scope sframe_scope.

Module QueryEngineSpec.

(** ** The queue *)

Lemma discover_ok l : ∀ tip s seen,
  s = (tip :: reverse seen, seen) → NoDup seen →
  ∃ seen', foldl discover s l = (tip :: reverse seen', seen') ∧ NoDup seen' ∧
    (length seen ≤ length seen')%nat ∧ ∀ x, x ∈ seen' → x ∈ seen ∨ x ∈ l.
Proof.
  induction l as [|n l IH]; intros tip s seen -> Hnd; cbn [foldl]; [exists seen; split_and!; [done..|by left]|].
  unfold discover at 2. cbn [fst snd]. case_bool_decide as Hn.
  - destruct (IH tip _ seen eq_refl Hnd) as (seen' & H & Hnd' & Hl & Hx). exists seen'. split_and!; [done..|]. set_solver.
  - destruct (IH tip (tip :: reverse seen ++ [n], n :: seen) (n :: seen)) as (seen' & H & Hnd' & Hl & Hx);
      [by rewrite reverse_cons|by constructor|]. exists seen'. cbn in Hl. split_and!; [done|done|lia|]. set_solver.
Qed.

(** The descent ends, at nodes of the graph. *)
Lemma descend_ok L tip : balanced L → tip ∈ dom L → ∀ fuel p_idx seen,
  NoDup seen → (∀ x, x ∈ seen → x ∈ dom L) → (p_idx ≤ S (length seen))%nat →
  (S (S (base.size L)) ≤ fuel + p_idx)%nat →
  ∃ active, descend fuel L p_idx (tip :: reverse seen, seen) = Some active ∧ ∀ x, x ∈ active → x ∈ dom L.
Proof.
  intros Hb Htip. induction fuel as [|fuel IH]; intros p_idx seen Hnd Hin Hp Hf.
  { exfalso. assert (length seen ≤ base.size L)%nat; [|cbn in *; lia].
    rewrite <- size_dom, <- (size_list_to_set (C := gset nat) seen Hnd). apply subseteq_size.
    intros x Hx%elem_of_list_to_set. by apply Hin. }
  cbn [descend fst]. destruct ((tip :: reverse seen) !! p_idx) as [n|] eqn:Hn.
  - assert (n ∈ dom L) as [i Hi]%elem_of_dom.
    { apply list_elem_of_lookup_2 in Hn. apply elem_of_cons in Hn as [->|Hn]; [done|].
      apply Hin. by apply elem_of_reverse. }
    rewrite Hi. cbn [mbind option_bind].
    destruct (discover_ok (ni_inputs i) tip _ seen eq_refl Hnd) as (seen' & -> & Hnd' & Hl & Hx).
    destruct (Hb n i Hi) as (Hins & _). apply IH; [done| | |lia].
    + intros x [?|?]%Hx; auto.
    + apply lookup_lt_Some in Hn. cbn in Hn. rewrite length_reverse in Hn.
      lia.
  - eexists. split; [done|]. intros x [->|Hx]%elem_of_cons; [done|]. apply Hin. by apply elem_of_reverse.
Qed.

(** ** The engine *)

Section engine.
Context {SA : SoftAssign}.

(** A plan with a value can be built. *)
Lemma plan_impl_allowed {A} op vs v (l : list A) :
  plan_impl op vs = Some v → length l = length vs → inputs_allowed op l = true.
Proof. by destruct op, vs, l. Qed.

Lemma plan_total val p v : eval_plan plan_impl val p = Some v → ∀ h, is_Some (make_planner_node p h).
Proof.
  revert v. induction p as [x|op ts IH] using plan_ind'; intros v Hv h; [by eexists|].
  cbn [eval_plan] in Hv. apply bind_Some in Hv as (vs & Hvs & Hv).
  assert (∀ h, ∃ h' xs, make_all ts h = Some (h', xs) ∧ length xs = length ts) as Hall.
  { clear Hv h. apply mapM_Some in Hvs. induction Hvs as [|t w ts vs Ht _ IHts]; intros h; [by exists h, []|].
    inversion_clear IH as [|?? IHt IHs]. destruct (IHt w Ht h) as [[h1 x] Hx].
    destruct (IHts IHs h1) as (h2 & xs & Hxs & Hl). exists h2, (x :: xs). split; [|by cbn; rewrite Hl].
    apply make_all_cons. by exists h1, x, xs. }
  destruct (Hall h) as (h1 & xs & Hxs & Hl). eexists (_, _). apply make_planner_node_New.
  exists h1, xs. split_and!; [done| |done|done]. eapply plan_impl_allowed; [done|].
  rewrite Hl. by apply length_mapM in Hvs.
Qed.

(** The state of a run: the graph is consistent, its tip is the identity with the table. *)
Record running (tip : nat) (v : ttable) (e : engine) : Prop := {
  running_ok : engine_ok plan_impl tip e;
  running_tip : type_in (nodes e) tip = Some IDENTITY_NODE;
  running_value : denote (nodes e) tip = Some v;
  running_active : ∀ x, x ∈ active_nodes e → x ∈ dom (node_lookups e);
}.

Context (reg : list registration).
Hypothesis Hreg : Forall (λ r, preserves (transform_applies r) (apply_transform r)) reg.
Hypothesis Hidentity : Forall (λ r, transform_applies r ≠ IDENTITY_NODE) reg.

Lemma get_transforms_ok stage ty T :
  T ∈ get_transforms reg stage ty → preserves ty T ∧ ty ≠ IDENTITY_NODE.
Proof.
  unfold get_transforms. intros (r & -> & [Hr Hin]%list_elem_of_filter)%list_elem_of_fmap.
  apply bool_decide_eq_true in Hr as [_ <-]. rewrite Forall_forall in Hreg, Hidentity. by auto.
Qed.

Lemma type_in_node e n i ty :
  node_lookups e !! n = Some i → type_in (nodes e) n = Some ty → node_type e n = Some ty.
Proof.
  unfold type_in, node_type, node. intros -> H. apply fmap_Some in H as (p & Hp & ->). cbn.
  by rewrite Hp.
Qed.

(** Trying transforms on a live node ends in a state of the run, or a transform throws. *)
Lemma try_transforms_ok tip v stage ty n e trs :
  running tip v e → live (node_lookups e) n → type_in (nodes e) n = Some ty →
  (∀ T, T ∈ trs → T ∈ get_transforms reg stage ty) →
  match try_transforms reg stage trs n e with
  | Some (_, e') => running tip v e'
  | None => ∃ T, T ∈ trs ∧ T e n = None
  end.
Proof.
  intros [Hok Htip Hv Hact] Hl Hty. induction trs as [|T trs IH]; intros Hin; [done|].
  cbn [try_transforms]. destruct (T e n) as [[p|]|] eqn:HT; [| |by exists T; split; [left|]].
  - cbn [mbind option_bind]. destruct (get_transforms_ok stage ty T) as [Hpres Hid]; [apply Hin; by left|].
    destruct (engine_values _ _ _ Hok n Hl) as [w Hw]. destruct Hl as (i & Hi & Hid').
    destruct (Hpres tip e n w p) as [Hp Hle]; [done|by exists i|by eapply type_in_node|done|done|].
    destruct (plan_total _ p w Hp (nodes e)) as [[h1 new] Hmake].
    destruct (replace_node_ok plan_impl tip n new e p h1 w Hok) with (mask := stage_type_active_mask reg stage)
      as (e' & -> & Hok' & _ & Hval & Hop & Hdom & Hact'); [by exists i| |done..|].
    { intros ->. congruence. }
    cbn [mbind option_bind]. split; [done| | |].
    + unfold type_in in *. apply fmap_Some in Htip as (q & Hq & Hqt).
      destruct (Hop tip q Hq) as (q' & -> & Hq'). rewrite Hqt. cbn. unfold compose. by rewrite Hq'.
    + by apply Hval.
    + intros x [Hx|Hx]%Hact'; [|done]. apply Hdom. by apply Hact.
  - cbn [mbind option_bind]. assert (∀ U, U ∈ trs → U ∈ get_transforms reg stage ty) as Hin'.
    { intros U HU. apply Hin. by right. }
    specialize (IH Hin'). case_match; [done|]. destruct IH as (U & HU & Hnone). exists U. split; [by right|done].
Qed.

Lemma running_pop tip v e :
  running tip v e → running tip v (Engine (nodes e) (node_lookups e) (removelast (active_nodes e))).
Proof.
  intros [[Hc Hk Hval] Htip Hv Hact]. split; [by split|done|done|]. cbn. intros x Hx. apply Hact.
  revert Hx. clear. induction (active_nodes e) as [|y l IH]; [done|]. destruct l as [|z l]; [by intros []%elem_of_nil|].
  cbn [removelast]. intros [->|Hx]%elem_of_cons; [left|]. right. by apply IH.
Qed.

(** The state without the last node of the queue. *)
Definition popped (e : engine) : engine :=
  Engine (nodes e) (node_lookups e) (removelast (active_nodes e)).

(** A node of the queue is processed, unless a transform of its type throws. *)
Lemma process_node_ok tip v stage n e :
  running tip v e → last (active_nodes e) = Some n →
  match process_node reg stage n e with
  | Some (_, e') => running tip v e'
  | None => ∃ ty T, type_in (nodes e) n = Some ty ∧ T ∈ get_transforms reg stage ty ∧ T (popped e) n = None
  end.
Proof.
  intros Hr Hn. pose proof (running_pop _ _ _ Hr) as Hp. unfold process_node. cbn zeta.
  change (Engine _ _ _) with (popped e) in *. assert (n ∈ dom (node_lookups e)) as [i Hi]%elem_of_dom.
  { eapply running_active; [done|]. apply last_Some in Hn as [l ->]. set_solver. }
  cbn [node_lookups popped]. rewrite Hi. cbn [mbind option_bind]. destruct (node_discarded i) eqn:Hd; [done|].
  destruct (engine_known _ _ _ (running_ok _ _ _ Hr) n i Hi) as [p Hnp].
  assert (type_in (nodes e) n = Some (type_of (operator_type p))) as Hty by (unfold type_in; by rewrite Hnp).
  cbn [nodes popped]. rewrite Hty. cbn [mbind option_bind].
  pose proof (try_transforms_ok tip v stage _ n (popped e) (get_transforms reg stage (type_of (operator_type p)))
    Hp ltac:(by exists i) Hty ltac:(done)) as Ht.
  change (Engine _ _ _) with (popped e). destruct (try_transforms _ _ _ _ _) as [[]|]; [done|].
  destruct Ht as (T & HT & Hnone). by eexists _, T.
Qed.

Lemma build_active_node_queue_ok tip v stage e :
  running tip v e → ∃ e', build_active_node_queue reg stage tip e = Some e' ∧ running tip v e'.
Proof using SA.
  clear Hreg Hidentity.
  intros [Hok Htip Hv Hact]. unfold build_active_node_queue.
  destruct (engine_consistent _ _ _ Hok) as [Hb _ _ _ (i & Hi & _)].
  destruct (descend_ok _ tip Hb (elem_of_dom_2 _ _ _ Hi) (S (S (base.size (node_lookups e)))) 0 [])
    as (active & Hd & Hin); [constructor|set_solver|cbn; lia|lia|].
  change (tip :: reverse []) with [tip] in Hd. rewrite Hd. eexists. split; [done|].
  destruct Hok as [Hc Hk Hval]. split; [by split|done|done|]. cbn. intros x Hx. apply Hin.
  rewrite elem_of_reverse in Hx. by apply list_elem_of_filter in Hx as [_ ?].
Qed.

Lemma engine_step_running tip v e e' : engine_step reg tip e e' → running tip v e → running tip v e'.
Proof.
  intros [stage e0 e1 Hq|stage n e0 applied e1 Hn Hp] Hr.
  - destruct (build_active_node_queue_ok tip v stage e0 Hr) as (e2 & ? & ?). by simplify_eq.
  - pose proof (process_node_ok tip v stage n e0 Hr Hn) as H. by rewrite Hp in H.
Qed.

Lemma engine_steps_running tip v e e' :
  rtc (engine_step reg tip) e e' → running tip v e → running tip v e'.
Proof. induction 1; [done|]. eauto using engine_step_running. Qed.

(** ** A whole run *)

Lemma identity_impl v : v.1 ≠ [] → plan_impl optonly_identity_operator [v] = Some v.
Proof. intros Hne. apply plan_impl_Some. by destruct v. Qed.

Lemma make_engine_ok h ptip v :
  denote h ptip = Some v → ∃ e tip, make_engine h ptip = Some (e, tip) ∧ running tip v e.
Proof using SA.
  clear Hreg Hidentity reg.
  intros Hv. assert (v.1 ≠ []) as Hne.
  { by apply evaluate_unfold in Hv as (? & ? & _ & _ & (_ & _ & H)%plan_impl_Some). }
  set (t := New optonly_identity_operator [Old ptip]).
  assert (eval_plan plan_impl (denote h) t = Some v) as Ht.
  { eapply (eval_one _ _ (Old ptip) v); [done|]. by apply identity_impl. }
  destruct (plan_total _ t v Ht h) as [[h1 tip] Hmake].
  pose proof (make_planner_node_value plan_impl _ _ _ _ _ Hmake Ht) as Htip.
  unfold make_engine. fold t. rewrite Hmake. cbn [mbind option_bind].
  assert (h1 !! tip = Some (PNode optonly_identity_operator [ptip])) as Hnode.
  { apply make_planner_node_New in Hmake as (h2 & xs & Hxs & _ & -> & ->).
    rewrite lookup_insert_eq. cbn in Hxs. by simplify_eq. }
  set (D := λ x, x = tip ∨ below h1 tip x).
  assert (∀ x, D x → is_Some (evaluate plan_impl h1 x)) as HD.
  { intros x [->|Hb]; [by exists v|]. unfold evaluate in *. destruct (base.size h1) as [|f]; [done|].
    destruct (below_eval plan_impl f h1 tip x Hb) as [w Hw]; [by exists v|].
    exists w. by apply (eval_mono plan_impl f); [lia|]. }
  destruct (build_node_info_ok h1 tip D (S (base.size h1)) tip [] ∅) as (L & -> & [Hb Hd Hs Hr Ht'] & [_ HB] & (i & Hi & Hid)).
  - by left.
  - intros x Hx. rewrite lookup_empty. destruct (HD x Hx) as [w Hw].
    apply evaluate_unfold in Hw as (n & ? & Hn & _). exists n. split; [done|]. intros y Hy.
    assert (below h1 tip y) as Hby.
    { assert (input_of h1 x y) as Hxy by by exists n. destruct Hx as [->|Hx]; [by apply tc_once|].
      eapply tc_transitive; [done|by apply tc_once]. }
    split; [by right|]. intros ->. eapply below_irrefl; [|done]. by exists v.
  - split; [intros x i|intros x i|intros x i|intros x i|intros i]; rewrite lookup_empty; done.
  - unfold unknown. rewrite <- size_dom. apply Nat.lt_succ_r, subseteq_size. set_solver.
  - eexists _, tip. split; [done|]. split; [split|..]; cbn.
    + split; [done|done|done| |].
      * intros x j Hj Hjd Hx _. apply (Hr x j); [done..|]. set_solver.
      * exists i. split_and!; [done|done|]. by apply Ht'.
    + intros x j Hj. destruct (HB x j Hj) as [Hx _]; [apply lookup_empty|].
      destruct (HD x Hx) as [w (n & ? & Hn & _)%evaluate_unfold]. by exists n.
    + intros x (j & Hj & _). destruct (HB x j Hj) as [Hx _]; [apply lookup_empty|]. by apply HD.
    + unfold type_in. by rewrite Hnode.
    + done.
    + set_solver.
Qed.

(** The plan under the identity has the table. *)
Lemma optimized_tip_ok tip v e :
  running tip v e → ∃ r, optimized_tip e tip = Some r ∧ denote (nodes e) r = Some v.
Proof.
  intros [_ Htip Hv _]. apply evaluate_unfold in Hv as (p & vs & Hp & Hvs & Hi).
  unfold type_in in Htip. rewrite Hp in Htip. cbn in Htip. unfold compose in Htip.
  destruct (operator_type p); try discriminate Htip. apply plan_impl_Some in Hi as (Hi & Hd & _).
  destruct vs as [|w [|]]; try done. apply mapM_Some in Hvs. inversion Hvs as [|r ? rs ? Hr Hnil Heq]; subst.
  exists r. unfold optimized_tip. rewrite Hp. cbn. rewrite <- Heq. split; [done|].
  destruct v, w; cbn in *; simplify_eq. done.
Qed.

(** The loops take steps. *)
Lemma process_queue_steps tip stage fuel : ∀ e b b' e',
  process_queue reg fuel stage e b = Some (b', e') → rtc (engine_step reg tip) e e'.
Proof.
  induction fuel as [|fuel IH]; intros e b b' e'; [done|]. cbn [process_queue].
  destruct (last (active_nodes e)) as [n|] eqn:Hn; [|by intros [= _ <-]].
  intros ([applied e1] & Hp & H)%bind_Some. eapply rtc_l; [by eapply step_node|by eapply IH].
Qed.

Lemma run_stage_steps tip stage fuel : ∀ e e',
  run_stage reg fuel tip stage e = Some e' → rtc (engine_step reg tip) e e'.
Proof.
  induction fuel as [|fuel IH]; intros e e'; [done|]. cbn [run_stage].
  intros (e1 & Hq & ([b e2] & Hp & H)%bind_Some)%bind_Some.
  eapply rtc_l; [by eapply step_queue|]. etrans; [by eapply process_queue_steps|].
  destruct b; [by eapply IH|by injection H as <-].
Qed.

Lemma optimize_steps fuel first h ptip h' tip :
  optimize_planner_graph reg fuel first h ptip = Some (h', tip) →
  ∃ e proxy e', make_engine h ptip = Some (e, proxy) ∧ rtc (engine_step reg proxy) e e' ∧
    nodes e' = h' ∧ optimized_tip e' proxy = Some tip.
Proof.
  unfold optimize_planner_graph. intros ([e proxy] & Hm & (e' & Hf & (r & Hr & [= <- <-])%bind_Some)%bind_Some)%bind_Some.
  exists e, proxy, e'. split_and!; [done| |done|done]. clear Hm Hr. revert e Hf.
  induction (get_stages_to_run first) as [|stage l IH]; intros e; cbn [fold_option]; [by intros [= <-]|].
  intros (e1 & H1 & H)%bind_Some. etrans; [by eapply run_stage_steps|by apply IH].
Qed.

End engine.

(** ** The transforms of the source *)

Section transforms.
Context {SA : SoftAssign}.

Lemma union_node e n : node_type e n = Some UNION_NODE → ∃ ins, node e n = Some (op_union, ins).
Proof.
  unfold node_type. intros ([op ins] & Hn & Hop)%fmap_Some. exists ins. by destruct op.
Qed.

Lemma union_preserves (T : rewrite) :
  (∀ e n ins, node e n = Some (op_union, ins) → ∀ p, T e n = Some (Some p) → rearranges e n p) →
  preserves UNION_NODE T.
Proof.
  intros HT. apply rearranges_preserves. intros e n p (ins & Hn)%union_node. by eapply HT.
Qed.

Lemma populate_transforms_preserve :
  Forall (λ r, preserves (transform_applies r) (apply_transform r)) populate_transforms.
Proof.
  unfold populate_transforms. repeat apply Forall_cons_2; [..|apply Forall_nil_2]; cbn [transform_applies apply_transform].
  - apply rearranges_preserves. intros e n p _. apply expand_union_project_ok.
  - apply rearranges_preserves. intros e n p _. apply eliminate_identity_project_ok.
  - apply rearranges_preserves. intros e n p _. apply split_projection_ok.
  - apply union_preserves. intros e n ins Hn p. by eapply union_merge_ok.
  - apply union_preserves. intros e n ins Hn p. by eapply union_on_source_ok.
  - apply rearranges_preserves. intros e n p _. apply project_on_source_ok.
  - apply append_on_source_ok.
  - apply rearranges_preserves. intros e n p _. apply merge_projects_ok.
  - apply union_preserves. intros e n ins Hn p. by eapply union_project_merge_ok.
  - apply eliminate_empty_append_ok.
  - apply rearranges_preserves. intros e n p _. apply union_project_exchange_ok.
  - apply project_append_exchange_ok.
  - apply union_preserves. intros e n ins Hn p. by eapply eliminate_singleton_union_ok.
  - apply project_logical_filter_exchange_ok.
  - apply logical_filter_linear_transform_exchange_ok.
  - apply logical_filter_expanding_project_exchange_ok.
  - apply union_preserves. intros e n ins Hn p. by eapply union_to_union_project_ok.
  - apply rearranges_preserves. intros e n p _. apply project_to_union_project_ok.
  - apply rearranges_preserves. intros e n p _. apply merge_union_projects_ok.
Qed.

Lemma populate_transforms_types : Forall (λ r, transform_applies r ≠ IDENTITY_NODE) populate_transforms.
Proof. unfold populate_transforms. repeat constructor; done. Qed.
End transforms.

End QueryEngineSpec.
