(* ===== verification/QuerySegment.v ===== *)
(** Running a plan in parallel segments (planning/planner.cpp, operators/operator_properties.cpp
    and operator_transformations.cpp): which plans are parallel slicable, the segmented copy of
    a plan, and what the planner can prove about the lengths of two plans. *)
From S2P Require Import Prelude FlexType FlexOps QueryPlan.
Import FlexType FlexOps QueryPlan.
Local Open Scope Z_scope.
Local Open Scope sframe_scope.

Module QuerySegment.

(** ** [is_parallel_slicable] *)

(** [visited] and [counter]. *)
Abbreviation slicing := (gmap nat nat * nat)%type.

(** The loop over the other inputs, which must have the code of the first. *)
Fixpoint same_codes (propagate : nat → slicing → option (slicing * option nat)) (code : nat)
    (ins : list nat) (st : slicing) : option (slicing * bool) :=
  match ins with
  | [] => Some (st, true)
  | x :: ins =>
      '(st, i_c) ← propagate x st;
      if bool_decide (i_c = Some code) then same_codes propagate code ins st else Some (st, false)
  end.

(** A code; [None] for [size_t(-1)]. *)
Fixpoint propagate_parallel_slicing (fuel : nat) (h : heap) (n : nat) (st : slicing)
  : option (slicing * option nat) :=
  match fuel with
  | O => None
  | S fuel =>
      match st.1 !! n with
      | Some code => Some (st, Some code)
      | None =>
          p ← h !! n;
          let t := type_of (operator_type p) in
          if is_source_node t then Some (st, Some 1%nat)
          else if is_linear_transform t || is_sublinear_transform t then
            match inputs p with
            | [] => None
            | x :: ins =>
                '(st, c) ← propagate_parallel_slicing fuel h x st;
                match c with
                | None => Some (st, None)
                | Some input_consumption =>
                    '(st, same) ← same_codes (propagate_parallel_slicing fuel h) input_consumption ins st;
                    if negb same then Some (st, None)
                    else if is_sublinear_transform t then
                      let counter := S st.2 in Some ((<[n := counter]> st.1, counter), Some counter)
                    else Some (st, Some input_consumption)
                end
            end
          else Some (st, None)
      end
  end.

Definition is_parallel_slicable (h : heap) (n : nat) : option bool :=
  '(_, c) ← propagate_parallel_slicing (base.size h) h n (∅, 1%nat);
  Some (match c with Some _ => true | None => false end).

(** ** [make_segmented_graph] *)

(** The range of a segment, in [size_t]. *)
Definition new_range (segment_idx num_segments old_begin_index old_end_index : Z) : Z * Z :=
  let old_length := u64 (old_end_index - old_begin_index) in
  (u64 (old_begin_index + u64 (segment_idx * old_length) / num_segments),
   u64 (old_begin_index + u64 (u64 (segment_idx + 1) * old_length) / num_segments)).

Definition segment_source (segment_idx num_segments : Z) (op : operator) : operator :=
  let range := new_range segment_idx num_segments in
  match op with
  | op_constant v t b e => op_constant v t (range b e).1 (range b e).2
  | op_range b e => op_range (range b e).1 (range b e).2
  | op_sarray_source sa b e => op_sarray_source sa (range b e).1 (range b e).2
  | op_sframe_source sf b e => op_sframe_source sf (range b e).1 (range b e).2
  | op => op
  end.

(** A loop that threads a state and may stop. *)
Fixpoint map_state {S A B} (f : A → S → option (S * B)) (l : list A) (s : S) : option (S * list B) :=
  match l with
  | [] => Some (s, [])
  | x :: l => '(s, y) ← f x s; '(s, ys) ← map_state f l s; Some (s, y :: ys)
  end.

(** The copy of a node, in the heap, and the copies so far ([memo]). *)
Fixpoint make_segmented_graph (fuel : nat) (segment_idx num_segments : Z) (n : nat)
    (st : heap * gmap nat nat) : option ((heap * gmap nat nat) * nat) :=
  match fuel with
  | O => None
  | S fuel =>
      match st.2 !! n with
      | Some r => Some (st, r)
      | None =>
          if num_segments =? 0 then Some ((st.1, <[n := n]> st.2), n)
          else
            p ← st.1 !! n;
            '(st, ret) ←
              (if is_source_node (type_of (operator_type p))
               then Some (st, PNode (segment_source segment_idx num_segments (operator_type p)) (inputs p))
               else
                 '(st, ins) ← map_state (make_segmented_graph fuel segment_idx num_segments) (inputs p) st;
                 Some (st, PNode (operator_type p) ins));
            let r := fresh (dom st.1) in
            Some ((<[r := ret]> st.1, <[n := r]> st.2), r)
      end
  end.

(** ** [execute_node_impl] *)

Section execute.
Context {SA : SoftAssign}.

(** The segments in order, each built on the planner nodes as they are then. *)
Fixpoint make_segments (segment_idx num_segments : nat) (n : nat) (h : heap) : option (heap * list nat) :=
  match segment_idx with
  | O => Some (h, [])
  | S segment_idx =>
      '(h, rs) ← make_segments segment_idx num_segments n h;
      '((h, _), r) ← make_segmented_graph (base.size h) (Z.of_nat segment_idx) (Z.of_nat num_segments) n (h, ∅);
      Some (h, rs ++ [r])
  end.

(** [run] gives the table of a plan, and [run_concat] those of the segments one after the
    other. *)
Definition execute_node_impl (h : heap) (input_n : nat) (num_segments : nat) : option table :=
  slicable ← is_parallel_slicable h input_n;
  if slicable && negb (num_segments =? 0)%nat then
    '(h, segments) ← make_segments num_segments num_segments input_n h;
    vs ← mapM (denote h) segments; Some (concat (vs.*2))
  else v ← denote h input_n; Some (v.2).
End execute.

(** ** [prove_equal_length] *)

(** [length_info]: a length, or the node that stands for one. *)
Inductive length_info := Length (source_length : Z) | Unknown (source_node : nat).

#[global] Instance length_info_eq_dec : EqDecision length_info.
Proof. solve_decision. Defined.

Fixpoint propagate_length (fuel : nat) (h : heap) (n : nat) : option length_info :=
  match fuel with
  | O => None
  | S fuel =>
      inferred_length ← infer_planner_node_length h n;
      if 0 <=? inferred_length then Some (Length inferred_length)
      else
        p ← h !! n;
        if is_linear_transform (type_of (operator_type p))
        then x ← head (inputs p); propagate_length fuel h x else Some (Unknown n)
  end.

(** Whether it is proved, and whether they are equal. *)
Definition prove_equal_length (h : heap) (a b : nat) : option (bool * bool) :=
  la ← propagate_length (base.size h) h a; lb ← propagate_length (base.size h) h b;
  Some match la, lb with
       | Length x, Length y => (true, x =? y)
       | Unknown x, Unknown y => ((x =? y)%nat, (x =? y)%nat)
       | _, _ => (false, false)
       end.

End QuerySegment.
