(* ===== verification/QuerySegmentSpec.v ===== *)
(** Segments: a plan that is parallel slicable has, over its segments, the rows of the plan in
    order; and what is proved of two lengths is true. *)
From Stdlib Require Import List.
From S2P Require Import Prelude FlexType FlexOps QueryPlan QueryPlanSpec QueryGraph.
From S2P Require Import QueryGraphSpec QueryGraphInv QueryRewriteSpec QueryFilterSpec QueryUnionSpec QuerySegment.
Import FlexType FlexOps QueryPlan QueryPlanSpec QueryGraph QueryGraphSpec QueryGraphInv QueryRewriteSpec.
Import QueryUnionSpec QueryFilterSpec QuerySegment.
Local Open Scope Z_scope.
Local Open Scope sframe_scope.

Module QuerySegmentSpec.

(** ** Ranges *)

#[local] Arguments new_range : simpl never.

Definition cut (k b len s : Z) : Z := b + s * len / k.

Lemma cut_0 k b len : cut k b len 0 = b.
Proof. unfold cut. rewrite Z.mul_0_l, Zdiv_0_l. lia. Qed.

Lemma cut_last k b len : 0 < k → cut k b len k = b + len.
Proof. intros Hk. unfold cut. rewrite Z.mul_comm, Z.div_mul by lia. done. Qed.

Lemma cut_mono k b len s t : 0 < k → 0 ≤ len → s ≤ t → cut k b len s ≤ cut k b len t.
Proof. intros. unfold cut. apply Zplus_le_compat_l, Z.div_le_mono; nia. Qed.

(** The segments of a range partition it. *)
Lemma new_range_cut s k b e :
  0 ≤ s < k → 0 ≤ b ≤ e → is_u64 e → k * (e - b) < 2 ^ 64 → k < 2 ^ 64 →
  new_range s k b e = (cut k b (e - b) s, cut k b (e - b) (s + 1)) ∧
  b ≤ cut k b (e - b) s ≤ cut k b (e - b) (s + 1) ∧ cut k b (e - b) (s + 1) ≤ e.
Proof.
  intros Hs Hb He Hk Hk64. unfold is_u64, is_u in He.
  assert (b ≤ cut k b (e - b) s ≤ cut k b (e - b) (s + 1) ∧ cut k b (e - b) (s + 1) ≤ e) as Hcut.
  { pose proof (cut_mono k b (e - b) 0 s ltac:(lia) ltac:(lia) ltac:(lia)).
    pose proof (cut_mono k b (e - b) s (s + 1) ltac:(lia) ltac:(lia) ltac:(lia)).
    pose proof (cut_mono k b (e - b) (s + 1) k ltac:(lia) ltac:(lia) ltac:(lia)).
    rewrite cut_0 in *. rewrite cut_last in * by lia. lia. }
  split; [|done]. unfold new_range, uw. cbn zeta. rewrite (Z.mod_small (e - b)) by lia.
  rewrite (Z.mod_small (s + 1)) by lia. rewrite (Z.mod_small (s * (e - b))) by nia.
  rewrite (Z.mod_small ((s + 1) * (e - b))) by nia. unfold cut in *. f_equal; apply Z.mod_small; lia.
Qed.

(** ** Tables in segments *)

(** The pieces [g 0], ..., [g (k - 1)] of a table. *)
Definition pieces {A} (k : nat) (g : nat → list A) : list A := concat (map g (seq 0 k)).

Lemma pieces_S {A} k (g : nat → list A) : pieces (S k) g = pieces k g ++ g k.
Proof. unfold pieces. rewrite seq_S, map_app, concat_app. cbn. by rewrite app_nil_r. Qed.

Lemma pieces_ext {A} k (g g' : nat → list A) :
  (∀ s, (s < k)%nat → g s = g' s) → pieces k g = pieces k g'.
Proof.
  intros H. induction k as [|k IH]; [done|]. rewrite !pieces_S, H by lia. f_equal.
  apply IH. intros s Hs. apply H. lia.
Qed.

(** A function of tables that works row by row works piece by piece. *)
Lemma split_pieces (P : list table → table → Prop) :
  (∀ (l : list (table * table)) u, P (map (λ p, p.1 ++ p.2) l) u →
    (∀ p q, p ∈ l → q ∈ l → length p.1 = length q.1) →
    ∃ ua ub, P (map fst l) ua ∧ P (map snd l) ub ∧ u = ua ++ ub) →
  (∀ n u, P (replicate n []) u → u = []) →
  ∀ k (gs : list (nat → table)) u,
  (∀ s f g, (s < k)%nat → f ∈ gs → g ∈ gs → length (f s) = length (g s)) →
  P (map (pieces k) gs) u →
  ∃ g, (∀ s, (s < k)%nat → P (map (λ f, f s) gs) (g s)) ∧ pieces k g = u.
Proof.
  intros Happ Hnil. induction k as [|k IH]; intros gs u Hlen HP.
  { exists (λ _, []). split; [lia|]. symmetry. apply (Hnil (length gs)).
    replace (replicate (length gs) []) with (map (pieces 0) gs); [done|]. clear. induction gs; [done|]. cbn. by f_equal. }
  destruct (Happ (map (λ f, (pieces k f, f k)) gs) u) as (ua & ub & Ha & Hb & ->).
  - rewrite map_map. cbn. erewrite map_ext; [exact HP|]. intros f. by rewrite pieces_S.
  - intros p q (f & <- & Hf%list_elem_of_In)%list_elem_of_In%in_map_iff (g & <- & Hg%list_elem_of_In)%list_elem_of_In%in_map_iff.
    cbn. assert (∀ j, (j ≤ k)%nat → length (pieces j f) = length (pieces j g)) as H; [|by apply H].
    induction j as [|j IHj]; intros Hj; [done|]. rewrite !pieces_S, !length_app, IHj by lia.
    f_equal. apply Hlen; [lia|done|done].
  - rewrite map_map in Ha, Hb. cbn in Ha, Hb.
    destruct (IH gs ua) as (g & Hg & <-); [intros; apply Hlen; [lia|done|done]|done|].
    exists (λ s, if decide (s = k) then ub else g s). split.
    + intros s Hs. case_decide as Hk; [by subst|]. apply Hg. lia.
    + rewrite pieces_S, decide_True by done. f_equal. apply pieces_ext. intros s Hs. by rewrite decide_False by lia.
Qed.

Lemma mapM_lookup_app {A} (l : list (list A * list A)) (n i : nat) :
  (∀ p, p ∈ l → length p.1 = n) →
  mapM (λ u : list A, u !! i) (map (λ p, p.1 ++ p.2) l) =
  if decide (i < n)%nat then mapM (λ u : list A, u !! i) (map fst l)
  else mapM (λ u : list A, u !! (i - n)%nat) (map snd l).
Proof.
  intros Hn. rewrite !mapM_map. case_decide; apply mapM_ext_in; intros p Hp; specialize (Hn p Hp).
  - apply lookup_app_l. lia.
  - rewrite lookup_app_r by lia. by rewrite Hn.
Qed.

Lemma lockstep_app F (l : list (table * table)) u :
  lockstep F (map (λ p, p.1 ++ p.2) l) = Some u →
  (∀ p q, p ∈ l → q ∈ l → length p.1 = length q.1) →
  ∃ ua ub, lockstep F (map fst l) = Some ua ∧ lockstep F (map snd l) = Some ub ∧ u = ua ++ ub.
Proof.
  intros (Hne & Hlen & Hrow)%lockstep_Some Heq. destruct l as [|p0 l0] eqn:El; [done|]. rewrite <- El in *.
  set (n := length p0.1). assert (∀ p, p ∈ l → length p.1 = n) as Hn.
  { intros p Hp. apply Heq; [done|]. rewrite El. by left. }
  assert (∀ p, p ∈ l → (n + length p.2 = length u)%nat) as Hlu.
  { intros p Hp. rewrite Forall_forall in Hlen. rewrite <- (Hlen (p.1 ++ p.2)), length_app, (Hn p Hp); [done|].
    apply list_elem_of_In, in_map_iff. exists p. by rewrite <- list_elem_of_In. }
  assert ((n ≤ length u)%nat) as Hnu. { specialize (Hlu p0 ltac:(rewrite El; by left)). lia. }
  exists (take n u), (drop n u). split_and!; [..|by rewrite take_drop]; apply lockstep_Some.
  - split_and!; [by rewrite El| |].
    + apply Forall_fmap, Forall_forall. intros p Hp. unfold compose. rewrite length_take, (Hn p Hp). lia.
    + intros i r Hi. pose proof (lookup_lt_Some _ _ _ Hi) as Hlt. rewrite length_take in Hlt.
      rewrite lookup_take_lt in Hi by lia. destruct (Hrow i r Hi) as (rs & Hrs & HF).
      rewrite (mapM_lookup_app l n i Hn), decide_True in Hrs by lia. by exists rs.
  - split_and!; [by rewrite El| |].
    + apply Forall_fmap, Forall_forall. intros p Hp. unfold compose. rewrite length_drop. specialize (Hlu p Hp). lia.
    + intros i r Hi. rewrite lookup_drop in Hi. destruct (Hrow (n + i)%nat r Hi) as (rs & Hrs & HF).
      rewrite (mapM_lookup_app l n _ Hn), decide_False in Hrs by lia.
      replace (n + i - n)%nat with i in Hrs by lia. by exists rs.
Qed.

Lemma lockstep_pieces F k gs u :
  (∀ s f g, (s < k)%nat → f ∈ gs → g ∈ gs → length (f s) = length (g s)) →
  lockstep F (map (pieces k) gs) = Some u →
  ∃ g, (∀ s, (s < k)%nat → lockstep F (map (λ f, f s) gs) = Some (g s)) ∧ pieces k g = u.
Proof.
  apply (split_pieces (λ ts u, lockstep F ts = Some u)).
  - intros l v. apply lockstep_app.
  - intros n v (Hne & Hlen & _)%lockstep_Some. destruct n; [done|]. inversion Hlen as [|?? H _]. by destruct v.
Qed.

Lemma filter_rows_split a b m n u :
  filter_rows (a ++ b) (m ++ n) = Some u → length a = length m →
  ∃ ua ub, filter_rows a m = Some ua ∧ filter_rows b n = Some ub ∧ u = ua ++ ub.
Proof.
  rewrite filter_rows_keep, !length_app.
  intros (Hl & used & (u1 & u2 & H1 & H2 & ->)%mapM_app_Some & ->) Hlen.
  pose proof (length_mapM _ _ _ H1). exists (keep u1 a), (keep u2 b). split_and!.
  - apply filter_rows_keep. split; [done|by exists u1].
  - apply filter_rows_keep. split; [lia|by exists u2].
  - apply keep_app. congruence.
Qed.

Lemma filter_pieces k f m u :
  (∀ s, (s < k)%nat → length (f s) = length (m s)) →
  filter_rows (pieces k f) (pieces k m) = Some u →
  ∃ g, (∀ s, (s < k)%nat → filter_rows (f s) (m s) = Some (g s)) ∧ pieces k g = u.
Proof.
  intros Hlen H. destruct (split_pieces (λ ts u, match ts with [t; m] => filter_rows t m = Some u | _ => u = [] end)) with
    (k := k) (gs := [f; m]) (u := u) as (g & Hg & <-).
  - intros [|p [|q [|]]] v; cbn; intros Hv Hp; try (subst; by exists [], []).
    apply filter_rows_split; [done|]. apply Hp; set_solver.
  - intros [|[|[|]]] v; cbn; try done. by intros [= <-].
  - intros s f' g' Hs Hf Hg. assert (∀ g, g ∈ [f; m] → length (g s) = length (f s)) as Ha.
    { intros g [->|[->|[]%elem_of_nil]%elem_of_cons]%elem_of_cons; [done|]. by rewrite Hlen. }
    by rewrite (Ha f'), (Ha g').
  - done.
  - by exists g.
Qed.

(** ** Sources *)

(** The rows of a table in a segment. *)
Definition slice_start (k N s : nat) : nat := (s * N / k)%nat.
Definition slice {A} (k : nat) (t : list A) (s : nat) : list A :=
  take (slice_start k (length t) (S s) - slice_start k (length t) s) (drop (slice_start k (length t) s) t).

Lemma slice_start_mono k N s s' : (s ≤ s')%nat → (slice_start k N s ≤ slice_start k N s')%nat.
Proof. intros H. unfold slice_start. apply Nat.Div0.div_le_mono. nia. Qed.

Lemma slice_start_last k N : k ≠ 0%nat → slice_start k N k = N.
Proof. intros Hk. unfold slice_start. rewrite Nat.mul_comm. by apply Nat.div_mul. Qed.

Lemma slice_pieces {A} k (t : list A) : k ≠ 0%nat → pieces k (slice k t) = t.
Proof.
  intros Hk. assert (∀ j, (j ≤ k)%nat → pieces j (slice k t) = take (slice_start k (length t) j) t) as H.
  { induction j as [|j IH]; intros Hj; [by unfold slice_start; rewrite Nat.mul_0_l, Nat.Div0.div_0_l|]. rewrite pieces_S, IH by lia. unfold slice.
    rewrite take_take_drop. f_equal. pose proof (slice_start_mono k (length t) j (S j)). lia. }
  rewrite H by done. by rewrite slice_start_last, firstn_all.
Qed.

Lemma slice_length {A} k (t : list A) s : (s < k)%nat →
  length (slice k t s) = (slice_start k (length t) (S s) - slice_start k (length t) s)%nat.
Proof.
  intros Hs. unfold slice. rewrite length_take, length_drop.
  pose proof (slice_start_mono k (length t) (S s) k ltac:(lia)) as H. rewrite slice_start_last in H by lia. lia.
Qed.

(** What the arithmetic of [size_t] allows. *)
Definition source_fits (k : nat) (op : operator) : Prop :=
  match op with
  | op_constant _ _ b e | op_range b e | op_sarray_source _ b e | op_sframe_source _ b e =>
      0 ≤ b ∧ is_u64 e ∧ Z.of_nat k * (e - b) < 2 ^ 64
  | _ => True
  end.

Lemma new_range_slice {A} k s b e (t : list A) :
  (s < k)%nat → 0 ≤ b ≤ e → is_u64 e → Z.of_nat k * (e - b) < 2 ^ 64 → Z.of_nat k < 2 ^ 64 →
  Z.of_nat (length t) = e - b →
  new_range (Z.of_nat s) (Z.of_nat k) b e =
    (b + Z.of_nat (slice_start k (length t) s), b + Z.of_nat (slice_start k (length t) (S s))) ∧
  (slice_start k (length t) (S s) ≤ length t)%nat.
Proof.
  intros Hs Hb He Hk Hk64 Hl. destruct (new_range_cut (Z.of_nat s) (Z.of_nat k) b e) as (-> & _ & _); [lia|done..|].
  unfold cut, slice_start. rewrite !Nat2Z.inj_div, !Nat2Z.inj_mul, <- Hl, Nat2Z.inj_succ. split; [done|].
  rewrite <- (slice_start_last k (length t)) at 2 by lia. apply slice_start_mono. lia.
Qed.

Lemma mapM_seqZ_slice {A} (f : Z → option A) b n t i m :
  mapM f (seqZ b n) = Some t → (i + m ≤ length t)%nat →
  mapM f (seqZ (b + Z.of_nat i) (Z.of_nat m)) = Some (take m (drop i t)).
Proof.
  intros H Hle. pose proof (length_mapM _ _ _ H) as Hlen. rewrite length_seqZ in Hlen.
  apply mapM_Some in H. apply mapM_Some, Forall2_same_length_lookup_2.
  { rewrite length_seqZ, length_take, length_drop. lia. }
  intros j x y Hx Hy. apply lookup_seqZ in Hx as [-> Hj]. rewrite lookup_take_lt, lookup_drop in Hy by lia.
  destruct (Forall2_lookup_r _ _ _ _ _ H Hy) as (z & Hz & Hf). apply lookup_seqZ in Hz as [-> _].
  rewrite <- Hf. f_equal. lia.
Qed.

Lemma read_rows_slice sf b e t k s :
  read_rows sf b e = Some t → (s < k)%nat → is_u64 e → Z.of_nat k * (e - b) < 2 ^ 64 → Z.of_nat k < 2 ^ 64 →
  let r := new_range (Z.of_nat s) (Z.of_nat k) b e in read_rows sf r.1 r.2 = Some (slice k t s).
Proof.
  intros Hr Hs He Hk Hk64. pose proof (read_rows_length _ _ _ _ Hr) as Hlen.
  apply read_rows_Some in Hr as (Ha & Hb & Hen & Hm).
  destruct (new_range_slice k s b e t Hs Hb He Hk Hk64 ltac:(lia)) as [-> Hle]. cbn [fst snd].
  pose proof (slice_start_mono k (length t) s (S s) ltac:(lia)).
  apply read_rows_Some. split_and!; [done|lia|lia|lia|]. unfold slice.
  erewrite <- mapM_seqZ_slice; [|exact Hm|lia]. do 2 f_equal. lia.
Qed.

Section graph.
Context {SA : SoftAssign}.

Lemma segment_source_infer s k op vs : infer_type_impl (segment_source s k op) vs = infer_type_impl op vs.
Proof. by destruct op. Qed.

Lemma source_slice op vs v k s :
  is_source_node (type_of op) = true → plan_impl op vs = Some v → source_fits k op → (s < k)%nat →
  Z.of_nat k < 2 ^ 64 →
  plan_impl (segment_source (Z.of_nat s) (Z.of_nat k) op) vs = Some (v.1, slice k (v.2) s).
Proof.
  intros Hsrc (Hi & Hd & Hne)%plan_impl_Some Hfit Hs Hk64. apply plan_impl_Some. cbn [fst snd].
  rewrite segment_source_infer. split_and!; [done| |done].
  destruct op; try discriminate Hsrc; [|done|..]; destruct Hfit as (Hb & He & Hk);
    cbn in Hd |- *; (destruct (vs.*2); [|done]); [|by apply read_rows_slice..].
  destruct (begin_index <=? end_index) eqn:Hle; [|done]. apply Z.leb_le in Hle. injection Hd as Hd.
  assert (length v.2 = Z.to_nat (end_index - begin_index)) as Hlen by by rewrite <- Hd, length_replicate.
  destruct (new_range_slice k s begin_index end_index v.2) as [-> Hls]; [done|lia|done|done|done|lia|].
  cbn [fst snd]. pose proof (slice_start_mono k (length v.2) s (S s) ltac:(lia)).
  rewrite (proj2 (Z.leb_le _ _)) by lia. f_equal. unfold slice.
  set (i := slice_start _ _ s) in *. set (j := slice_start _ _ (S s)) in *. clearbody i j.
  rewrite <- Hd, drop_replicate, take_replicate. f_equal. lia.
Qed.

(** ** Codes *)

Definition is_type (h : heap) (x : nat) (P : planner_node_type → bool) (ins : list nat) : Prop :=
  ∃ p, h !! x = Some p ∧ P (type_of (operator_type p)) = true ∧ inputs p = ins.

(** What the code of a node stands for: 1 is the rate of the sources, any other that of the
    sublinear node it was made for. *)
Inductive rate (vis : gmap nat nat) (h : heap) : nat → nat → Prop :=
  | rate_source x ins : is_type h x is_source_node ins → rate vis h x 1
  | rate_linear x ins c :
      is_type h x is_linear_transform ins → ins ≠ [] → (∀ y, y ∈ ins → rate vis h y c) → rate vis h x c
  | rate_sublinear x ins c c' :
      is_type h x is_sublinear_transform ins → vis !! x = Some c →
      (∀ y, y ∈ ins → rate vis h y c') → rate vis h x c.

Lemma rate_mono vis vis' h x c : vis ⊆ vis' → rate vis h x c → rate vis' h x c.
Proof.
  intros Hv. induction 1 as [x ins Hx|x ins c Hx Hne _ IH|x ins c c' Hx Hc _ IH].
  - by eapply rate_source.
  - by eapply rate_linear.
  - eapply rate_sublinear; [done|by eapply lookup_weaken|done].
Qed.

(** The codes of the sublinear nodes seen so far are their own. *)
Record coded (h : heap) (st : slicing) : Prop := {
  coded_rate y c : st.1 !! y = Some c → rate st.1 h y c;
  coded_bound y c : st.1 !! y = Some c → (1 < c ≤ st.2)%nat;
  coded_inj y y' c : st.1 !! y = Some c → st.1 !! y' = Some c → y = y';
  coded_one : (1 ≤ st.2)%nat;
}.

(** Only nodes in [P] were given codes. *)
Definition explored (h : heap) (P : nat → Prop) (st st' : slicing) : Prop :=
  st.1 ⊆ st'.1 ∧ coded h st' ∧ ∀ y, y ∈ dom st'.1 → y ∈ dom st.1 ∨ P y.

Definition at_or_below (h : heap) (n y : nat) : Prop := y = n ∨ below h n y.

Lemma at_or_below_input h n x y : input_of h n x → at_or_below h x y → below h n y.
Proof. intros Hx [->|Hb]; [by apply tc_once|]. eapply tc_l; done. Qed.

Lemma explored_impl h (P Q : nat → Prop) st st' :
  (∀ y, P y → Q y) → explored h P st st' → explored h Q st st'.
Proof. intros HPQ (? & ? & Hd). split_and!; [done..|]. intros y [?|?]%Hd; auto. Qed.

Lemma explored_trans h P st1 st2 st3 : explored h P st1 st2 → explored h P st2 st3 → explored h P st1 st3.
Proof.
  intros (H1 & _ & D1) (H2 & C & D2). split_and!; [by etrans|done|].
  intros y [Hy|?]%D2; [by apply D1|by right].
Qed.

Lemma explored_refl h P st : coded h st → explored h P st st.
Proof. intros. split_and!; [done|done|]. by left. Qed.

(** A node with its inputs, whose values are known. *)
Lemma inputs_nonempty op vs v :
  plan_impl op vs = Some v → is_linear_transform (type_of op) || is_sublinear_transform (type_of op) = true →
  vs ≠ [].
Proof.
  intros (_ & Hd & _)%plan_impl_Some Hop ->. destruct (is_linear_transform (type_of op)) eqn:Hl.
  - by apply denote_linear in Hd as [_ (? & _)%lockstep_Some].
  - by destruct op.
Qed.

Lemma same_codes_ok h P propagate code : ∀ ins st,
  coded h st →
  (∀ x st, x ∈ ins → coded h st →
    ∃ st' c, propagate x st = Some (st', c) ∧ explored h P st st' ∧ ∀ c', c = Some c' → rate st'.1 h x c') →
  ∃ st' same, same_codes propagate code ins st = Some (st', same) ∧ explored h P st st' ∧
    (same = true → ∀ x, x ∈ ins → rate st'.1 h x code).
Proof.
  induction ins as [|x ins IH]; intros st Hst Hp.
  { exists st, true. split_and!; [done|by apply explored_refl|]. by intros _ x []%elem_of_nil. }
  destruct (Hp x st) as (st1 & c & Hx & He1 & Hc); [by left|done|]. cbn [same_codes]. rewrite Hx.
  cbn [mbind option_bind]. case_bool_decide as Hcode; [|by exists st1, false].
  destruct (IH st1) as (st2 & same & Hs & He2 & Hsame); [apply He1|intros; apply Hp; [by right|done]|].
  exists st2, same. split_and!; [done|by eapply explored_trans|]. intros Ht y [->|Hy]%elem_of_cons; [|by apply Hsame].
  eapply rate_mono; [apply He2|]. by apply Hc.
Qed.

(** A new code for a sublinear node. *)
Lemma coded_new h n ins c st :
  coded h st → st.1 !! n = None → is_type h n is_sublinear_transform ins →
  (∀ y, y ∈ ins → rate st.1 h y c) → coded h (<[n := S st.2]> st.1, S st.2).
Proof.
  intros [Hr Hb Hi Ho] Hn Hty Hin. pose proof (insert_subseteq st.1 n (S st.2) Hn) as Hsub.
  assert (rate (<[n := S st.2]> st.1) h n (S st.2)) as Hnew.
  { eapply rate_sublinear; [done|apply lookup_insert_eq|]. intros y Hy. by eapply rate_mono, Hin. }
  split; cbn [fst snd]; [| | |lia].
  - intros y d [[<- <-]|[? Hy]]%lookup_insert_Some; [done|]. eapply rate_mono; [done|by apply Hr].
  - intros y d [[<- <-]|[? Hy%Hb]]%lookup_insert_Some; lia.
  - intros y y' d [[<- <-]|[? Hy]]%lookup_insert_Some [[<- Hd]|[? Hy']]%lookup_insert_Some.
    + done.
    + apply Hb in Hy'. lia.
    + subst. apply Hb in Hy. lia.
    + by eapply Hi.
Qed.

Lemma propagate_ok h fuel : ∀ n st,
  coded h st → is_Some (eval plan_impl fuel h n) →
  ∃ st' c, propagate_parallel_slicing fuel h n st = Some (st', c) ∧ explored h (at_or_below h n) st st' ∧
    ∀ c', c = Some c' → rate st'.1 h n c'.
Proof.
  induction fuel as [|fuel IH]; intros n st Hst [v Hv]; [done|]. pose proof Hv as Hv'.
  apply eval_S in Hv' as (p & vs & Hp & Hvs & Himpl). cbn [propagate_parallel_slicing].
  destruct (st.1 !! n) as [code|] eqn:Hcode.
  { exists st, (Some code). split_and!; [done|by apply explored_refl|]. intros c' [= <-]. by apply (coded_rate _ _ Hst). }
  rewrite Hp. cbn [mbind option_bind]. destruct (is_source_node (type_of (operator_type p))) eqn:Hsrc.
  { exists st, (Some 1%nat). split_and!; [done|by apply explored_refl|]. intros c' [= <-]. eapply rate_source. by exists p. }
  destruct (is_linear_transform _ || is_sublinear_transform _) eqn:Hlin.
  2:{ exists st, None. split_and!; [done|by apply explored_refl|done]. }
  pose proof (inputs_nonempty _ _ _ Himpl Hlin) as Hne. pose proof (length_mapM _ _ _ Hvs) as Hlen.
  assert (∀ x st, x ∈ inputs p → coded h st →
    ∃ st' c, propagate_parallel_slicing fuel h x st = Some (st', c) ∧ explored h (below h n) st st' ∧
      ∀ c', c = Some c' → rate st'.1 h x c') as Hin.
  { intros x st0 Hx Hst0. destruct (IH x st0 Hst0) as (st' & c & ? & ? & ?).
    - assert (is_Some (mapM (eval plan_impl fuel h) (inputs p))) as Hs by by exists vs.
      apply mapM_is_Some in Hs. rewrite Forall_forall in Hs. by apply Hs.
    - exists st', c. split_and!; [done| |done]. eapply explored_impl; [|done].
      intros y. apply at_or_below_input. by exists p. }
  destruct (inputs p) as [|x ins] eqn:Hins; [by destruct vs|].
  destruct (Hin x st) as (st1 & c & -> & He1 & Hc); [by left|done|]. cbn [mbind option_bind].
  assert (∀ st', explored h (below h n) st st' → explored h (at_or_below h n) st st') as Hup.
  { intros st'. apply explored_impl. by right. }
  destruct c as [c|]; [|exists st1, None; split_and!; [done|by apply Hup|done]].
  destruct (same_codes_ok h (below h n) (propagate_parallel_slicing fuel h) c ins st1) as (st2 & same & -> & He2 & Hsame).
  { apply He1. }
  { intros y st0 Hy. apply Hin. by right. }
  cbn [mbind option_bind]. assert (explored h (below h n) st st2) as He by by eapply explored_trans.
  destruct same; cbn [negb]; [|exists st2, None; split_and!; [done|by apply Hup|done]].
  assert (∀ y, y ∈ x :: ins → rate st2.1 h y c) as Hrate.
  { intros y [->|Hy]%elem_of_cons; [|by apply Hsame]. eapply rate_mono; [apply He2|by apply Hc]. }
  destruct (is_sublinear_transform _) eqn:Hsub.
  - cbn zeta. destruct He as (Hvis & Hcoded & Hdom).
    assert (st2.1 !! n = None) as Hnew.
    { apply not_elem_of_dom. intros [[d Hd]%elem_of_dom|Hb]%Hdom; [congruence|].
      eapply below_irrefl; [|exact Hb]. exists v. by eapply eval_evaluate. }
    assert (is_type h n is_sublinear_transform (x :: ins)) as Hty by by exists p.
    pose proof (coded_new h n _ _ st2 Hcoded Hnew Hty Hrate) as Hcoded'.
    eexists (_, _), _. split; [done|]. split; [split_and!|]; cbn [fst snd].
    + etrans; [done|by apply insert_subseteq].
    + done.
    + intros y. rewrite dom_insert_L. intros [->%elem_of_singleton|[?|?]%Hdom]%elem_of_union; [right; by left|by left|right; by right].
    + intros c' [= <-]. apply (coded_rate _ _ Hcoded'). apply lookup_insert_eq.
  - rewrite orb_false_r in Hlin. exists st2, (Some c). split_and!; [done|by apply Hup|]. intros c' [= <-].
    by eapply rate_linear; [exists p|..].
Qed.

Lemma is_parallel_slicable_ok h n v :
  denote h n = Some v →
  is_parallel_slicable h n = Some false ∨
  is_parallel_slicable h n = Some true ∧ ∃ st c, coded h st ∧ rate st.1 h n c.
Proof.
  intros Hv. destruct (propagate_ok h (base.size h) n (∅, 1%nat)) as (st & c & Hp & (_ & Hc & _) & Hr).
  - split; cbn; [| | |lia]; intros *; by rewrite lookup_empty.
  - by exists v.
  - unfold is_parallel_slicable. rewrite Hp. destruct c as [c|]; [right|by left]. split; [done|]. exists st, c. auto.
Qed.

(** ** Values in segments *)

Lemma segment_source_other s k op : is_source_node (type_of op) = false → segment_source s k op = op.
Proof. by destruct op. Qed.

(** The operators of a plan that may be run in segments: reductions are left to the caller,
    who combines their results. *)
Definition sliced_op (k : nat) (op : operator) : Prop :=
  source_fits k op ∧ type_of op ≠ REDUCE_NODE.

Section segments.
Context (h : heap) (k : nat) (st : slicing).
Hypothesis Hk : k ≠ 0%nat.
Hypothesis Hk64 : Z.of_nat k < 2 ^ 64.
Hypothesis Hcoded : coded h st.

Definition segment_impl (s : nat) (op : operator) (vs : list ttable) : option ttable :=
  plan_impl (segment_source (Z.of_nat s) (Z.of_nat k) op) vs.
Abbreviation seg := (λ s, evaluate (segment_impl s) h).

(** How long the pieces are of a node with [N] rows and a code. *)
Definition rated (c N : nat) (g : nat → table) : Prop :=
  if decide (c = 1%nat) then
    ∀ s, (s < k)%nat → length (g s) = (slice_start k N (S s) - slice_start k N s)%nat
  else ∃ y, st.1 !! y = Some c ∧ ∀ s, (s < k)%nat → ∃ w, seg s y = Some w ∧ length w.2 = length (g s).

Lemma rated_length c N g g' s :
  rated c N g → rated c N g' → (s < k)%nat → length (g s) = length (g' s).
Proof.
  unfold rated. case_decide.
  - intros Hg Hg' Hs. by rewrite (Hg s Hs), (Hg' s Hs).
  - intros (y & Hy & Hg) (y' & Hy' & Hg') Hs. pose proof (coded_inj _ _ Hcoded _ _ _ Hy Hy') as <-.
    destruct (Hg s Hs) as (w & Hw & <-). destruct (Hg' s Hs) as (w' & Hw' & <-). congruence.
Qed.

Lemma rated_same c N g g' :
  rated c N g → (∀ s, (s < k)%nat → length (g' s) = length (g s)) → rated c N g'.
Proof.
  unfold rated. case_decide.
  - intros Hg Hl s Hs. rewrite Hl by done. by apply Hg.
  - intros (y & Hy & Hg) Hl. exists y. split; [done|]. intros s Hs.
    destruct (Hg s Hs) as (w & Hw & Hlw). exists w. split; [done|]. by rewrite Hlw, Hl.
Qed.

(** The node [x] with table [v] in pieces. *)
Definition segmented (x c : nat) (v : ttable) : Prop :=
  ∃ g, (∀ s, (s < k)%nat → seg s x = Some (v.1, g s)) ∧ pieces k g = v.2 ∧ rated c (length v.2) g.

Lemma segmented_inputs ins c N vs :
  Forall2 (λ x v, denote h x = Some v) ins vs →
  (∀ x v, x ∈ ins → denote h x = Some v → segmented x c v) →
  Forall (λ v : ttable, length v.2 = N) vs →
  ∃ gs, map (pieces k) gs = vs.*2 ∧ Forall (rated c N) gs ∧
    ∀ s, (s < k)%nat → ∃ ws, mapM (seg s) ins = Some ws ∧ ws.*1 = vs.*1 ∧ ws.*2 = map (λ g, g s) gs.
Proof.
  induction 1 as [|x v ins vs Hx _ IH]; intros Hin HN.
  { exists []. split_and!; [done|done|]. intros s _. by exists []. }
  inversion_clear HN as [|?? Hv HN']. destruct (Hin x v) as (g & Hg & Hp & Hr); [by left|done|].
  destruct IH as (gs & Hps & Hrs & Hgs); [intros; apply Hin; [by right|done]|done|].
  exists (g :: gs). split_and!.
  - cbn. by rewrite Hp, Hps.
  - constructor; [by rewrite <- Hv|done].
  - intros s Hs. destruct (Hgs s Hs) as (ws & Hws & H1 & H2). exists ((v.1, g s) :: ws).
    cbn [mapM]. rewrite (Hg s Hs), Hws. split_and!; [done|cbn; by rewrite H1|cbn; by rewrite H2].
Qed.

Lemma seg_node s x p ws v :
  h !! x = Some p → mapM (seg s) (inputs p) = Some ws →
  is_source_node (type_of (operator_type p)) = false → plan_impl (operator_type p) ws = Some v → seg s x = Some v.
Proof.
  intros Hp Hws Hsrc Hv. apply evaluate_unfold. exists p, ws. split_and!; [done|done|].
  unfold segment_impl. by rewrite segment_source_other.
Qed.

Lemma segmented_linear x p vs v c :
  h !! x = Some p → is_linear_transform (type_of (operator_type p)) = true →
  Forall2 (λ x v, denote h x = Some v) (inputs p) vs → plan_impl (operator_type p) vs = Some v →
  (∀ y w, y ∈ inputs p → denote h y = Some w → segmented y c w) → segmented x c v.
Proof.
  intros Hp Hlin Hvs (Hi & Hd & Hne)%plan_impl_Some Hin.
  apply denote_linear in Hd as [Hm Hd]; [|done]. pose proof Hd as (Hne' & Hlen & _)%lockstep_Some.
  rewrite Forall_fmap in Hlen. destruct (segmented_inputs _ c _ vs Hvs Hin Hlen) as (gs & Hps & Hrs & Hgs).
  rewrite <- Hps in Hd. rewrite Forall_forall in Hrs.
  destruct (lockstep_pieces (linear_row (operator_type p)) k gs v.2) with (2 := Hd) as (g & Hg & Hpg).
  { intros s f f' Hs Hf Hf'. by eapply rated_length; [apply Hrs|apply Hrs|]. }
  exists g. split_and!; [|done|].
  - intros s Hs. destruct (Hgs s Hs) as (ws & Hws & H1 & H2).
    eapply seg_node; [done|done|by destruct (operator_type p)|]. apply plan_impl_Some. cbn [fst snd].
    rewrite H1, H2. split_and!; [done| |done]. apply denote_linear; [done|]. split; [|by apply Hg].
    rewrite length_fmap in Hm. by rewrite <- Hps, length_map in Hm || by rewrite length_map, <- (length_map (pieces k)), Hps, length_fmap.
  - destruct gs as [|g0 gs]; [by rewrite <- Hps in Hne'|]. eapply rated_same; [apply (Hrs g0); by left|].
    intros s Hs. specialize (Hg s Hs). apply lockstep_Some in Hg as (_ & Hl & _). inversion Hl as [|?? Hl0 _]. done.
Qed.

Lemma segmented_filter x p vs v c c' :
  h !! x = Some p → operator_type p = op_logical_filter → st.1 !! x = Some c →
  Forall2 (λ x v, denote h x = Some v) (inputs p) vs → plan_impl (operator_type p) vs = Some v →
  (∀ y w, y ∈ inputs p → denote h y = Some w → segmented y c' w) → segmented x c v.
Proof.
  intros Hp Hop Hc Hvs Himpl Hin. rewrite Hop in Himpl. destruct v as [tys t].
  apply plan_impl_filter in Himpl as (a & m & -> & <- & Hf & Hne).
  pose proof (filter_rows_length _ _ _ Hf) as Hlm.
  destruct (segmented_inputs _ c' (length a.2) [a; m] Hvs Hin) as (gs & Hps & Hrs & Hgs); [by repeat constructor|].
  destruct gs as [|ga [|gm [|]]]; try discriminate Hps. injection Hps as Hpa Hpm.
  inversion_clear Hrs as [|?? Hra Hrs']. inversion_clear Hrs' as [|?? Hrm _]. rewrite <- Hpa, <- Hpm in Hf.
  destruct (filter_pieces k ga gm t) with (2 := Hf) as (g & Hg & Hpg).
  { intros s Hs. by eapply rated_length. }
  assert (∀ s, (s < k)%nat → seg s x = Some (a.1, g s)) as Hseg.
  { intros s Hs. destruct (Hgs s Hs) as (ws & Hws & H1 & H2). destruct ws as [|wa [|wm [|]]]; try discriminate H1.
    injection H1 as H1a H1m. injection H2 as H2a H2m. eapply seg_node; [done|done|by rewrite Hop|].
    rewrite Hop. apply plan_impl_filter. exists wa, wm. split_and!; [done|done| |done].
    rewrite H2a, H2m. by apply Hg. }
  exists g. split_and!; [done|done|]. unfold rated. rewrite decide_False.
  - exists x. split; [done|]. intros s Hs. by exists (a.1, g s); split; [apply Hseg|].
  - intros ->. apply (coded_bound _ _ Hcoded) in Hc. lia.
Qed.

Lemma source_no_inputs op vs v :
  is_source_node (type_of op) = true → plan_impl op vs = Some v → vs = [].
Proof. intros Hs (_ & Hd & _)%plan_impl_Some. destruct op; try discriminate Hs; by destruct vs. Qed.

(** Every node with a code is the concatenation of its segments. *)
Lemma rate_segmented x c : rate st.1 h x c → ∀ v, denote h x = Some v →
  (∀ y p, at_or_below h x y → h !! y = Some p → sliced_op k (operator_type p)) → segmented x c v.
Proof.
  assert (∀ x y p ins, h !! x = Some p → inputs p = ins → y ∈ ins →
    (∀ y p, at_or_below h x y → h !! y = Some p → sliced_op k (operator_type p)) →
    (∀ z p, at_or_below h y z → h !! z = Some p → sliced_op k (operator_type p))) as Hdown.
  { intros x' y p ins Hp Hins Hy Hall z q Hz. apply Hall. right. eapply at_or_below_input; [|done].
    exists p. by rewrite Hins. }
  induction 1 as [x ins (p & Hp & Hty & Hins)|x ins c (p & Hp & Hty & Hins) Hne _ IH|x ins c c' (p & Hp & Hty & Hins) Hc _ IH];
    intros v Hv Hall; pose proof Hv as (p' & vs & Hp' & Hvs & Himpl)%evaluate_unfold; rewrite Hp in Hp'; injection Hp' as <-;
    destruct (Hall x p (or_introl eq_refl) Hp) as [Hfit Hred].
  - assert (vs = []) as -> by by eapply source_no_inputs. pose proof (length_mapM _ _ _ Hvs) as Hnil.
    exists (slice k v.2). split_and!; [|by apply slice_pieces|].
    + intros s Hs. apply evaluate_unfold. exists p, []. split_and!; [done|by destruct (inputs p)|].
      unfold segment_impl. by apply source_slice.
    + unfold rated. rewrite decide_True by done. intros s Hs. by apply slice_length.
  - apply mapM_Some in Hvs. eapply segmented_linear; [done|done|done|done|]. rewrite Hins.
    intros y w Hy Hw. eapply IH; [done|done|]. by eapply Hdown.
  - apply mapM_Some in Hvs. eapply segmented_filter; [done| |done|done|done|].
    + destruct (operator_type p); done.
    + rewrite Hins. intros y w Hy Hw. eapply IH; [done|done|]. by eapply Hdown.
Qed.
End segments.

(** ** The segmented copy *)

(** The copies so far have the values of the segment. *)
Record copied (k s : nat) (h0 : heap) (m : heap * gmap nat nat) : Prop := {
  copied_heap : h0 ⊆ m.1;
  copied_value x r w : m.2 !! x = Some r → evaluate (segment_impl k s) h0 x = Some w → denote m.1 r = Some w;
}.

Lemma map_state_copied k s h0 (f : nat → heap * gmap nat nat → option ((heap * gmap nat nat) * nat)) ins :
  (∀ x m, x ∈ ins → copied k s h0 m → ∃ m' r, f x m = Some (m', r) ∧ copied k s h0 m' ∧ m.1 ⊆ m'.1 ∧
    ∀ w, evaluate (segment_impl k s) h0 x = Some w → denote m'.1 r = Some w) →
  ∀ m, copied k s h0 m → ∃ m' rs, map_state f ins m = Some (m', rs) ∧ copied k s h0 m' ∧ m.1 ⊆ m'.1 ∧
    ∀ ws, mapM (evaluate (segment_impl k s) h0) ins = Some ws → mapM (denote m'.1) rs = Some ws.
Proof.
  induction ins as [|x ins IH]; intros Hf m Hm.
  { exists m, []. split_and!; [done|done|done|]. by intros ws [= <-]. }
  destruct (Hf x m) as (m1 & r & Hx & Hm1 & Hs1 & Hv1); [by left|done|].
  destruct (IH) with (m := m1) as (m2 & rs & Hrs & Hm2 & Hs2 & Hv2); [intros; apply Hf; [by right|done]|done|].
  exists m2, (r :: rs). cbn [map_state]. rewrite Hx. cbn [mbind option_bind]. rewrite Hrs. split_and!; [done|done|by etrans|].
  cbn [mapM]. intros ws (w & Hw & (ws' & Hws & [= <-])%bind_Some)%bind_Some.
  assert (denote m2.1 r = Some w) as -> by (eapply evaluate_grows; [done|by apply Hv1]). by rewrite (Hv2 _ Hws).
Qed.

Lemma make_segmented_graph_ok k s h0 fuel : k ≠ 0%nat → ∀ x m,
  copied k s h0 m → is_Some (eval plan_impl fuel h0 x) →
  ∃ m' r, make_segmented_graph fuel (Z.of_nat s) (Z.of_nat k) x m = Some (m', r) ∧ copied k s h0 m' ∧ m.1 ⊆ m'.1 ∧
    ∀ w, evaluate (segment_impl k s) h0 x = Some w → denote m'.1 r = Some w.
Proof.
  intros Hk. induction fuel as [|fuel IH]; intros x m Hm [v Hv]; [done|].
  apply eval_S in Hv as (p & vs & Hp & Hvs & Himpl). cbn [make_segmented_graph].
  destruct (m.2 !! x) as [r|] eqn:Hr.
  { exists m, r. split_and!; [done|done|done|]. intros w. by apply (copied_value _ _ _ _ Hm). }
  rewrite (proj2 (Z.eqb_neq _ _)) by lia.
  rewrite (lookup_weaken _ _ _ _ Hp (copied_heap _ _ _ _ Hm)). cbn [mbind option_bind].
  assert (∃ m1 ret, (if is_source_node (type_of (operator_type p))
      then Some (m, PNode (segment_source (Z.of_nat s) (Z.of_nat k) (operator_type p)) (inputs p))
      else '(m, ins) ← map_state (make_segmented_graph fuel (Z.of_nat s) (Z.of_nat k)) (inputs p) m;
        Some (m, PNode (operator_type p) ins)) = Some (m1, ret) ∧ copied k s h0 m1 ∧ m.1 ⊆ m1.1 ∧
    ∀ w, evaluate (segment_impl k s) h0 x = Some w → ∃ ws,
      mapM (denote m1.1) (inputs ret) = Some ws ∧ plan_impl (operator_type ret) ws = Some w)
    as (m1 & ret & -> & Hm1 & Hs1 & Hret).
  { destruct (is_source_node (type_of (operator_type p))) eqn:Hsrc.
    - eexists m, _. split_and!; [done|done|done|]. assert (vs = []) as -> by by eapply source_no_inputs.
      pose proof (length_mapM _ _ _ Hvs). intros w (p' & ws & Hp' & Hws & Hw)%evaluate_unfold.
      assert (p' = p) as -> by congruence. destruct (inputs p) eqn:Hins; [|done]. injection Hws as <-.
      by exists [].
    - destruct (map_state_copied k s h0 (make_segmented_graph fuel (Z.of_nat s) (Z.of_nat k)) (inputs p)) with (m := m)
        as (m1 & ins & -> & Hm1 & Hs1 & Hv1); [|done|].
      { intros y m' Hy Hm'. apply IH; [done|].
        assert (is_Some (mapM (eval plan_impl fuel h0) (inputs p))) as Hs by by exists vs.
        apply mapM_is_Some in Hs. rewrite Forall_forall in Hs. by apply Hs. }
      eexists m1, _. split_and!; [done|done|done|]. intros w (p' & ws & Hp' & Hws & Hw)%evaluate_unfold.
      assert (p' = p) as -> by congruence. exists ws. cbn. split; [by apply Hv1|]. unfold segment_impl in Hw. by rewrite segment_source_other in Hw. }
  cbn [mbind option_bind]. cbn zeta. set (r := fresh (dom m1.1)).
  assert (m1.1 ⊆ <[r := ret]> m1.1) as Hsub by apply insert_subseteq, fresh_lookup.
  assert (∀ w, evaluate (segment_impl k s) h0 x = Some w → denote (<[r := ret]> m1.1) r = Some w) as Hval.
  { intros w (ws & Hws & Hw)%Hret. apply evaluate_unfold. exists ret, ws. split_and!; [apply lookup_insert_eq| |done].
    eapply mapM_mono; [|done]. intros y u _. by apply evaluate_grows. }
  eexists (_, _), r. split; [done|]. split_and!; [|cbn; by etrans|done]. split; cbn [fst snd].
  - etrans; [apply (copied_heap _ _ _ _ Hm1)|done].
  - intros y z w [[<- <-]|[_ Hy]]%lookup_insert_Some Hw; [by apply Hval|].
    eapply evaluate_grows; [done|]. by apply (copied_value _ _ _ _ Hm1 y).
Qed.

(** ** [execute_node_impl] *)

Lemma copied_start k s h : copied k s h (h, ∅).
Proof. split; [done|]. intros x r w. cbn. by rewrite lookup_empty. Qed.

Lemma segment_value_grows k s (h h' : heap) x w :
  h ⊆ h' → evaluate (segment_impl k s) h x = Some w → evaluate (segment_impl k s) h' x = Some w.
Proof. apply evaluate_grows. Qed.

Lemma make_segments_ok k h n v : k ≠ 0%nat → denote h n = Some v →
  ∀ j, ∃ h' rs, make_segments j k n h = Some (h', rs) ∧ h ⊆ h' ∧
    ∀ ws, mapM (λ s, evaluate (segment_impl k s) h n) (seq 0 j) = Some ws → mapM (denote h') rs = Some ws.
Proof.
  intros Hk Hv. induction j as [|j IH].
  { exists h, []. split_and!; [done|done|]. by intros ws [= <-]. }
  destruct IH as (h1 & rs & Hrs & Hs1 & Hv1). pose proof (evaluate_grows _ _ _ _ _ Hs1 Hv) as Hv'.
  destruct (make_segmented_graph_ok k j h1 (base.size h1) Hk n (h1, ∅) (copied_start _ _ _)) as ([h2 m2] & r & Hr & _ & Hs2 & Hv2);
    [by exists v|].
  exists h2, (rs ++ [r]). cbn [make_segments]. rewrite Hrs. cbn [mbind option_bind]. rewrite Hr. cbn [mbind option_bind fst] in *.
  split_and!; [done|by etrans|]. intros ws. rewrite seq_S. intros (w1 & w2 & H1 & H2 & ->)%mapM_app_Some.
  apply mapM_app_Some. exists w1, w2. split_and!; [|clear H1|done].
  - eapply mapM_mono; [|by apply Hv1]. intros y u _. by apply evaluate_grows.
  - cbn [mapM] in *. apply bind_Some in H2 as (w & Hw & (? & [= <-] & [= <-])%bind_Some).
    by rewrite (Hv2 w (segment_value_grows _ _ _ _ _ _ Hs1 Hw)).
Qed.

(** Running a plan in segments gives its table. *)
Lemma execute_node_impl_ok h n v k :
  denote h n = Some v → Z.of_nat k < 2 ^ 64 →
  (∀ y p, at_or_below h n y → h !! y = Some p → sliced_op k (operator_type p)) →
  execute_node_impl h n k = Some (v.2).
Proof.
  intros Hv Hk64 Hops. unfold execute_node_impl.
  destruct (is_parallel_slicable_ok h n v Hv) as [-> |(-> & st & c & Hc & Hr)]; cbn [mbind option_bind andb].
  { by rewrite Hv. }
  destruct (k =? 0)%nat eqn:Hk; [by rewrite Hv|]. apply Nat.eqb_neq in Hk. cbn [negb].
  destruct (rate_segmented h k st Hk Hk64 Hc n c Hr v Hv Hops) as (g & Hg & Hp & _).
  destruct (make_segments_ok k h n v Hk Hv k) as (h' & rs & -> & _ & Hrs). cbn [mbind option_bind].
  apply bind_Some. exists (map (λ s, (v.1, g s)) (seq 0 k)). split.
  - apply Hrs, mapM_Some, Forall2_fmap_r, Forall_Forall2_diag, Forall_forall. intros s Hs%elem_of_seq. apply Hg. lia.
  - cbn. f_equal. rewrite <- Hp. unfold pieces. f_equal. clear. induction (seq 0 k); [done|]. cbn. by f_equal.
Qed.

(** ** [prove_equal_length] *)

(** What a length or a node that stands for one says of a table. *)
Definition tells (h : heap) (li : length_info) (t : table) : Prop :=
  match li with
  | Length l => l = Z.of_nat (length t)
  | Unknown y => ∃ w, denote h y = Some w ∧ length w.2 = length t
  end.

Lemma propagate_length_ok h fuel : ∀ n v,
  eval plan_impl fuel h n = Some v → ∃ li, propagate_length fuel h n = Some li ∧ tells h li v.2.
Proof.
  induction fuel as [|fuel IH]; intros n v Hv; [done|]. pose proof (eval_evaluate _ _ _ _ _ Hv) as Hd.
  apply eval_S in Hv as (p & vs & Hp & Hvs & Himpl). cbn [propagate_length].
  destruct (denote_length h n v Hd) as (l & -> & Hl). cbn [mbind option_bind]. unfold length_ok in Hl.
  destruct (0 <=? l) eqn:Hle; [exists (Length l); split; [done|cbn; lia]|].
  rewrite Hp. cbn [mbind option_bind]. destruct (is_linear_transform (type_of (operator_type p))) eqn:Hlin.
  2:{ exists (Unknown n). split; [done|]. by exists v. }
  apply plan_impl_Some in Himpl as (_ & Hden & _). apply denote_linear in Hden as [_ (Hne & Hlen & _)%lockstep_Some]; [|done].
  apply mapM_Some in Hvs. destruct Hvs as [|x w ins vs Hx _]; [done|]. cbn [head mbind option_bind].
  destruct (IH x w Hx) as (li & -> & Hli). exists li. split; [done|]. inversion Hlen as [|?? Hlw _].
  destruct li; cbn in *; [lia|]. destruct Hli as (u & ? & ?). exists u. split; [done|congruence].
Qed.

Lemma prove_equal_length_ok h a b va vb :
  denote h a = Some va → denote h b = Some vb →
  ∃ proved equal, prove_equal_length h a b = Some (proved, equal) ∧
    (proved = true → equal = bool_decide (length va.2 = length vb.2)).
Proof.
  intros Ha Hb. destruct (propagate_length_ok h _ a va Ha) as (la & Hla & Hta).
  destruct (propagate_length_ok h _ b vb Hb) as (lb & Hlb & Htb).
  unfold prove_equal_length. rewrite Hla, Hlb. cbn [mbind option_bind].
  destruct la as [x|x], lb as [y|y]; do 2 eexists; (split; [done|]); try done; cbn in Hta, Htb.
  - intros _. subst. case_bool_decide; [apply Z.eqb_eq|apply Z.eqb_neq]; lia.
  - intros ->%Nat.eqb_eq. rewrite Nat.eqb_refl. destruct Hta as (w & Hw & <-), Htb as (w' & Hw' & <-).
    rewrite Hw in Hw'. simplify_eq. by rewrite bool_decide_true.
Qed.
End graph.

End QuerySegmentSpec.
