(* ===== verification/QueryExecute.v ===== *)
(** How the operators run (operators/*.hpp, execution/subplan_executor.cpp): each reads blocks
    of rows from its inputs and emits blocks. *)
From S2P Require Import Prelude FlexType FlexOps QueryPlan.
Import FlexType FlexOps QueryPlan.
Local Open Scope Z_scope.
Local Open Scope sframe_scope.

Module QueryExecute.

(** A block is never empty; [get_next] gives the blocks of a stream in order, then [nullptr]
    for ever. *)
Abbreviation block := (list row).
Abbreviation stream := (list block).

Section execute.
Context {SA : SoftAssign} (block_size : nat).

(** ** Sources *)

(** The loop of the sources, from [start] on. *)
Fixpoint source_loop (fuel : nat) (sf : sframe) (start end_index : Z) : option stream :=
  match fuel with
  | O => None
  | S fuel =>
      if start =? end_index then Some []
      else
        let stop := (start + Z.of_nat block_size) `min` end_index in
        rows ← read_rows sf start stop; out ← source_loop fuel sf stop end_index; Some (rows :: out)
  end.

Definition sframe_source_execute (sf : sframe) (begin_index end_index : Z) : option stream :=
  source_loop (S (Z.to_nat (end_index - begin_index))) sf begin_index end_index.

Definition sarray_source_execute (sa : sarray) (begin_index end_index : Z) : option stream :=
  source_loop (S (Z.to_nat (end_index - begin_index))) [sa] begin_index end_index.

(** [m_len] is a [size_t]. *)
Fixpoint constant_loop (fuel : nat) (value : flexible_type) (i m_len : Z) : option stream :=
  match fuel with
  | O => None
  | S fuel =>
      if i <? m_len then
        let len := (m_len - i) `min` Z.of_nat block_size in
        out ← constant_loop fuel value (i + len) m_len;
        Some (replicate (Z.to_nat len) [value] :: out)
      else Some []
  end.

Definition constant_execute (value : flexible_type) (begin_index end_index : Z) : option stream :=
  let m_len := u64 (end_index - begin_index) in constant_loop (S (Z.to_nat m_len)) value 0 m_len.

(** ** Operators with a block for each block *)

(** A function of each row of each block. *)
Definition each_row (F : row → option row) (rows : stream) : option stream := mapM (mapM F) rows.

Definition project_execute (m_indices : list nat) (rows : stream) : option stream :=
  match m_indices with
  | [] => None
  | _ => each_row (λ r, mapM (λ i, r !! i) m_indices) rows
  end.

Definition transform_execute (m_transform_fn : row → option flexible_type) (m_output_type : flex_type_enum)
    (rows : stream) : option stream :=
  each_row (λ r, outval ← m_transform_fn r; f ← convert m_output_type outval; Some [f]) rows.

Definition lambda_transform_execute (m_lambda : row → option flexible_type) (m_output_type : flex_type_enum)
    (rows : stream) : option stream :=
  each_row (λ r, out ← m_lambda r; v ← convert_value_to_output_type m_output_type out; Some [v]) rows.

Definition generalized_transform_execute (m_transform_fn : row → option row)
    (m_output_types : list flex_type_enum) (rows : stream) : option stream :=
  each_row (λ r, out ← m_transform_fn r; type_check_inplace m_output_types out) rows.

(** The rows of two blocks, which must be as many. *)
Fixpoint zip_rows (F : row → row → option row) (lhs rhs : block) : option block :=
  match lhs, rhs with
  | [], [] => Some []
  | a :: lhs, b :: rhs => r ← F a b; out ← zip_rows F lhs rhs; Some (r :: out)
  | _, _ => None
  end.

Fixpoint binary_transform_execute (m_transform_fn : row → row → option flexible_type)
    (lhs rhs : stream) : option stream :=
  match lhs, rhs with
  | [], [] => Some []
  | rows_left :: lhs, rows_right :: rhs =>
      output_buffer ← zip_rows (λ a b,
        match a, b with [_], [_] => v ← m_transform_fn a b; Some [v] | _, _ => None end) rows_left rows_right;
      out ← binary_transform_execute m_transform_fn lhs rhs; Some (output_buffer :: out)
  | _, _ => None
  end.

(** One turn of the loop of the unions: a block of each input, or the end of all of them. The
    columns of an output block must have one length to have rows. *)
Definition next_blocks (input_v : list stream) : option (option (list block * list stream)) :=
  if forallb (λ s, match s with [] => true | _ => false end) input_v then Some None
  else bs ← mapM head input_v; Some (Some (bs, map (drop 1) input_v)).

Fixpoint union_loop (fuel : nat) (F : list row → option row) (input_v : list stream) : option stream :=
  match fuel with
  | O => None
  | S fuel =>
      next ← next_blocks input_v;
      match next with
      | None => Some []
      | Some (bs, input_v) => b ← lockstep F bs; out ← union_loop fuel F input_v; Some (b :: out)
      end
  end.

Definition union_execute (input_v : list stream) : option stream :=
  s ← head input_v; union_loop (S (length s)) (λ rs, Some (concat rs)) input_v.

Definition generalized_union_project_execute (index_map : list (nat * nat)) (input_v : list stream)
  : option stream :=
  s ← head input_v;
  union_loop (S (length s)) (λ rs, mapM (λ p, r ← rs !! p.1; r !! p.2) index_map) input_v.

(** ** Operators that fill their blocks *)

(** A row goes to the output buffer, which is emitted when it is full. *)
Definition put_row (st : stream * block) (r : row) : stream * block :=
  let b := st.2 ++ [r] in
  if (length b =? block_size)%nat then (st.1 ++ [b], []) else (st.1, b).

Definition emit_rest (st : stream * block) : stream :=
  match st.2 with [] => st.1 | b => st.1 ++ [b] end.

Definition append_execute (lhs rhs : stream) : stream :=
  emit_rest (foldl (foldl put_row) (foldl (foldl put_row) ([], []) lhs) rhs).

(** [is_all_zero], on the first column of the mask. *)
Fixpoint is_all_zero (mask : block) : option bool :=
  match mask with
  | [] => Some true
  | m :: mask => s ← selected m; if s : bool then Some false else is_all_zero mask
  end.

(** The rows of a block that the mask selects. *)
Fixpoint filter_block (lhs rhs : block) (st : stream * block) : option (stream * block) :=
  match lhs, rhs with
  | [], [] => Some st
  | r :: lhs, m :: rhs =>
      s ← selected m; filter_block lhs rhs (if s : bool then put_row st r else st)
  | _, _ => None
  end.

(** The blocks after the first: a block of the mask that is all zero skips one of the data. *)
Fixpoint filter_rest (lhs rhs : stream) (st : stream * block) : option stream :=
  match rhs with
  | [] => match lhs with [] => Some (emit_rest st) | _ => None end
  | rows_right :: rhs =>
      zero ← is_all_zero rows_right;
      if zero : bool then filter_rest (drop 1 lhs) rhs st
      else
        match lhs with
        | [] => None
        | rows_left :: lhs => st ← filter_block rows_left rows_right st; filter_rest lhs rhs st
        end
  end.

Definition logical_filter_execute (lhs rhs : stream) : option stream :=
  match lhs, rhs with
  | [], [] => Some []
  | rows_left :: lhs, rows_right :: rhs =>
      st ← filter_block rows_left rows_right ([], []); filter_rest lhs rhs st
  | _, _ => None
  end.

(** The aggregator has every row before it emits. *)
Definition reduce_execute (aggregator : table → option flexible_type) (rows : stream) : option stream :=
  v ← aggregator (concat rows); Some [[[v]]].

(** ** Plans *)

(** [execute] of an operator with its input streams ([get_executor] asserts how many). A range
    runs on indices that were never set; an identity is not run. *)
Definition execute (op : operator) (ins : list stream) : option stream :=
  match op, ins with
  | op_constant v _ b e, [] => constant_execute v b e
  | op_sarray_source sa b e, [] => sarray_source_execute sa b e
  | op_sframe_source sf b e, [] => sframe_source_execute sf b e
  | op_append, [lhs; rhs] => Some (append_execute lhs rhs)
  | op_binary_transform f _, [lhs; rhs] => binary_transform_execute f lhs rhs
  | op_logical_filter, [lhs; rhs] => logical_filter_execute lhs rhs
  | op_project l, [rows] => project_execute l rows
  | op_transform f t, [rows] => transform_execute f t rows
  | op_lambda_transform f t, [rows] => lambda_transform_execute f t rows
  | op_generalized_transform f ts, [rows] => generalized_transform_execute f ts rows
  | op_union, _ => union_execute ins
  | op_union_project m, _ => generalized_union_project_execute m ins
  | op_reduce aggregator _, [rows] => reduce_execute aggregator rows
  | _, _ => None
  end.

(** [generate_to_callback_function]: the blocks that a plan gives. *)
Definition generate (h : heap) (n : nat) : option stream := evaluate execute h n.
End execute.

End QueryExecute.
