(* ===== verification/QueryExecuteSpec.v ===== *)
(** The blocks that a plan gives when it runs are those of its table, for every block size. *)
From Stdlib Require Import List.
From S2P Require Import Prelude FlexType FlexOps QueryPlan QueryPlanSpec QueryGraphSpec QueryRewriteSpec.
From S2P Require Import QueryUnionSpec QueryFilterSpec QuerySegmentSpec QueryExecute.
Import FlexType FlexOps QueryPlan QueryPlanSpec QueryGraphSpec QueryRewriteSpec.
Import QueryUnionSpec QueryFilterSpec QuerySegmentSpec QueryExecute.
Local Open Scope Z_scope.
Local Open Scope sframe_scope.

Module QueryExecuteSpec.

Section blocks.
Context (B : nat) (HB : (0 < B)%nat).

(** ** The blocks of a table *)

Fixpoint cut_blocks {A} (fuel : nat) (t : list A) : list (list A) :=
  match fuel, t with
  | S fuel, _ :: _ => take B t :: cut_blocks fuel (drop B t)
  | _, _ => []
  end.
Definition blocks {A} (t : list A) : list (list A) := cut_blocks (length t) t.

Lemma cut_blocks_fuel {A} fuel : ∀ t : list A, (length t ≤ fuel)%nat → cut_blocks fuel t = blocks t.
Proof.
  unfold blocks. induction fuel as [fuel IH] using lt_wf_ind. intros [|x t] H; [by destruct fuel|].
  cbn [length] in H. destruct fuel as [|fuel]; [lia|]. cbn [length cut_blocks]. f_equal.
  assert (length (drop B (x :: t)) ≤ length t)%nat as Hd by (rewrite length_drop; cbn; lia).
  rewrite (IH fuel), (IH (length t)); [done|lia|done|lia|lia].
Qed.

Lemma blocks_nonempty {A} (t : list A) : t ≠ [] → blocks t = take B t :: blocks (drop B t).
Proof.
  destruct t as [|x t]; [done|]. intros _. unfold blocks at 1. cbn [length cut_blocks]. f_equal.
  apply cut_blocks_fuel. rewrite length_drop. cbn. lia.
Qed.

(** Block by block. *)
Lemma blocks_ind {A} (P : list A → Prop) :
  P [] → (∀ t, t ≠ [] → P (drop B t) → P t) → ∀ t, P t.
Proof.
  intros Hnil Hcons t. induction t as [t IH] using (induction_ltof1 _ (@length A)); unfold ltof in IH.
  destruct t as [|x t]; [done|]. apply Hcons; [done|]. apply IH. rewrite length_drop. cbn. lia.
Qed.

Lemma concat_blocks {A} (t : list A) : concat (blocks t) = t.
Proof.
  induction t as [|t Hne IH] using blocks_ind; [done|]. rewrite blocks_nonempty by done. cbn.
  by rewrite IH, take_drop.
Qed.

Lemma blocks_whole {A} (t : list A) : t ≠ [] → (length t ≤ B)%nat → blocks t = [t].
Proof.
  intros Hne Hl. rewrite blocks_nonempty by done. rewrite firstn_all2 by done. rewrite skipn_all2 by done. done.
Qed.

Lemma blocks_full {A} (b t : list A) : length b = B → blocks (b ++ t) = b :: blocks t.
Proof.
  intros Hb. rewrite blocks_nonempty; [|destruct b; [cbn in Hb; lia|done]].
  by rewrite take_app_length', drop_app_length' by done.
Qed.

Lemma blocks_null {A} (t : list A) : match blocks t with [] => true | _ => false end = true ↔ t = [].
Proof.
  destruct (decide (t = [])) as [->|Hne]; [done|]. rewrite blocks_nonempty by done. done.
Qed.

Lemma blocks_drop1 {A} (t : list A) : drop 1 (blocks t) = blocks (drop B t).
Proof.
  destruct (decide (t = [])) as [->|Hne]; [by rewrite drop_nil|]. by rewrite blocks_nonempty.
Qed.

(** ** Row by row *)

Lemma mapM_take_drop {A C} (F : A → option C) n t u :
  mapM F t = Some u → mapM F (take n t) = Some (take n u) ∧ mapM F (drop n t) = Some (drop n u).
Proof. rewrite !mapM_Some. intros H. split; [by apply Forall2_take|by apply Forall2_drop]. Qed.

Lemma each_row_blocks F (t u : table) : mapM F t = Some u → each_row F (blocks t) = Some (blocks u).
Proof.
  revert u. induction t as [|t Hne IH] using blocks_ind; intros u H; [by injection H as <-|].
  assert (u ≠ []) as Hu by (intros ->; apply length_mapM in H; by destruct t).
  destruct (mapM_take_drop F B t u H) as [Ht Hd]. rewrite (blocks_nonempty t Hne), (blocks_nonempty u Hu).
  unfold each_row in *. cbn [mapM]. by rewrite Ht, (IH _ Hd).
Qed.

Lemma lockstep_take_drop F n ts u :
  lockstep F ts = Some u →
  lockstep F (map (take n) ts) = Some (take n u) ∧ lockstep F (map (drop n) ts) = Some (drop n u).
Proof.
  rewrite !lockstep_Some. intros (Hne & Hlen & Hrow). split; (split_and!; [by destruct ts| |]).
  - apply Forall_fmap. eapply Forall_impl; [done|]. cbn. intros t Ht. by rewrite !length_take, Ht.
  - intros k r Hk. assert (k < n)%nat as Hkn.
    { apply lookup_lt_Some in Hk. rewrite length_take in Hk. lia. }
    rewrite lookup_take_lt in Hk by done. destruct (Hrow k r Hk) as (rs & Hrs & HF). exists rs. split; [|done].
    rewrite mapM_map, <- Hrs. apply mapM_ext_in. intros t _. by apply lookup_take_lt.
  - apply Forall_fmap. eapply Forall_impl; [done|]. cbn. intros t Ht. by rewrite !length_drop, Ht.
  - intros k r Hk. rewrite lookup_drop in Hk. destruct (Hrow _ r Hk) as (rs & Hrs & HF). exists rs. split; [|done].
    rewrite mapM_map, <- Hrs. apply mapM_ext_in. intros t _. apply lookup_drop.
Qed.

(** The blocks of the inputs of a table that is made row by row. *)
Lemma next_blocks_step ts F u :
  lockstep F ts = Some u → u ≠ [] →
  next_blocks (map blocks ts) = Some (Some (map (take B) ts, map blocks (map (drop B) ts))).
Proof.
  intros (Hne & Hlen & _)%lockstep_Some Hu. rewrite Forall_forall in Hlen.
  assert (∀ t, t ∈ ts → t ≠ []) as Hts.
  { intros t Ht ->. specialize (Hlen [] Ht). by destruct u. }
  assert (forallb (λ s : stream, match s with [] => true | _ => false end) (map blocks ts) = false) as Hall.
  { destruct ts as [|t ts]; [done|]. cbn [map forallb]. by rewrite (blocks_nonempty t) by (apply Hts; by left). }
  unfold next_blocks. rewrite Hall.
  assert (mapM head (map blocks ts) = Some (map (take B) ts)) as ->.
  { rewrite mapM_map. apply mapM_Some, Forall2_fmap_r, Forall_Forall2_diag, Forall_forall.
    intros t Ht. by rewrite (blocks_nonempty t (Hts t Ht)). }
  cbn [mbind option_bind]. do 3 f_equal. rewrite !map_map. apply map_ext. intros t. apply blocks_drop1.
Qed.

Lemma union_loop_blocks F : ∀ u ts fuel,
  lockstep F ts = Some u → (length (blocks u) < fuel)%nat → union_loop fuel F (map blocks ts) = Some (blocks u).
Proof.
  intros u. induction u as [|u Hne IH] using blocks_ind; intros ts fuel Hu Hf; (destruct fuel as [|fuel]; [lia|]); cbn [union_loop].
  - apply lockstep_Some in Hu as (_ & Hlen & _). unfold next_blocks. rewrite (proj2 (forallb_forall _ _)); [done|].
    intros b (t & <- & Ht%list_elem_of_In)%in_map_iff. apply blocks_null. rewrite Forall_forall in Hlen.
    specialize (Hlen t Ht). by destruct t.
  - rewrite (next_blocks_step ts F u Hu Hne). cbn [mbind option_bind].
    destruct (lockstep_take_drop F B ts u Hu) as [-> Hd]. cbn [mbind option_bind].
    rewrite (blocks_nonempty u Hne) in Hf |- *. cbn [length] in Hf. rewrite (IH _ fuel Hd); [done|lia].
Qed.

Lemma blocks_length {A C} (t : list A) (u : list C) : length t = length u → length (blocks t) = length (blocks u).
Proof.
  revert u. induction t as [|t Hne IH] using blocks_ind; intros u H; [by destruct u|].
  assert (u ≠ []) as Hu by (intros ->; by destruct t). rewrite (blocks_nonempty t Hne), (blocks_nonempty u Hu). cbn. f_equal.
  apply IH. by rewrite !length_drop, H.
Qed.

Lemma union_blocks F ts u :
  lockstep F ts = Some u → (s ← head (map blocks ts); union_loop (S (length s)) F (map blocks ts)) = Some (blocks u).
Proof.
  intros Hu. pose proof Hu as (Hne & Hlen & _)%lockstep_Some. destruct ts as [|t ts]; [done|]. cbn [map head mbind option_bind].
  change (blocks t :: map blocks ts) with (map blocks (t :: ts)). apply union_loop_blocks; [done|].
  inversion Hlen as [|?? Ht _]. rewrite (blocks_length t u Ht). lia.
Qed.

Lemma zip_rows_lockstep F (F' : list row → option row) a b u :
  (∀ x y, F x y = F' [x; y]) → lockstep F' [a; b] = Some u → zip_rows F a b = Some u.
Proof.
  intros HF. revert b u. induction a as [|x a IH]; intros b u H;
    pose proof H as (_ & Hl & Hrow)%lockstep_Some; inversion_clear Hl as [|?? Ha Hl']; inversion_clear Hl' as [|?? Hb _].
  - destruct u; [|done]. by destruct b.
  - destruct u as [|r u]; [done|]. destruct b as [|y b]; [done|]. cbn [zip_rows].
    destruct (Hrow 0%nat r eq_refl) as (rs & [= <-] & Hr). rewrite HF, Hr. cbn [mbind option_bind].
    destruct (lockstep_take_drop F' 1 _ _ H) as [_ Hd]. cbn in Hd. by rewrite (IH b u Hd).
Qed.

Lemma binary_blocks {SA : SoftAssign} f a : ∀ b u ty,
  lockstep (linear_row (op_binary_transform f ty)) [a; b] = Some u →
  binary_transform_execute f (blocks a) (blocks b) = Some (blocks u).
Proof.
  induction a as [|a Hne IH] using blocks_ind; intros b u ty H;
    pose proof H as (_ & Hl & _)%lockstep_Some; inversion_clear Hl as [|?? Ha Hl']; inversion_clear Hl' as [|?? Hb _].
  - destruct u; [|done]. by destruct b.
  - assert (u ≠ []) as Hu by (intros ->; by destruct a). assert (b ≠ []) as Hbn by (intros ->; by destruct u).
    rewrite (blocks_nonempty a Hne), (blocks_nonempty b Hbn), (blocks_nonempty u Hu). cbn [binary_transform_execute].
    destruct (lockstep_take_drop _ B _ _ H) as [Ht Hd]. cbn [map] in Ht, Hd.
    rewrite (zip_rows_lockstep _ _ _ _ _) with (2 := Ht); [|by intros [|? []] [|? []]].
    cbn [mbind option_bind]. by rewrite (IH _ _ _ Hd).
Qed.

(** ** Buffers *)

Lemma foldl_concat {A C} (f : A → C → A) l : ∀ st, foldl (foldl f) st l = foldl f st (concat l).
Proof. induction l as [|x l IH]; intros st; [done|]. cbn. by rewrite IH, foldl_app. Qed.

Lemma put_rows t : ∀ out b, (length b < B)%nat →
  emit_rest (foldl (put_row B) (out, b) t) = out ++ blocks (b ++ t).
Proof.
  induction t as [|r t IH]; intros out b Hb; cbn [foldl].
  - rewrite app_nil_r. unfold emit_rest. cbn [fst snd]. destruct b as [|x b]; [by rewrite app_nil_r|].
    by rewrite blocks_whole by (cbn in *; lia || done).
  - unfold put_row at 2. cbn [fst snd]. rewrite length_app. cbn [length].
    change (b ++ r :: t) with (b ++ [r] ++ t). rewrite app_assoc. case_match eqn:Hf.
    + apply Nat.eqb_eq in Hf. rewrite IH by done. rewrite (blocks_full (b ++ [r]) t) by (rewrite length_app; cbn; lia).
      by rewrite <- app_assoc.
    + apply Nat.eqb_neq in Hf. apply IH. rewrite length_app. cbn. lia.
Qed.

Lemma append_blocks a b : append_execute B (blocks a) (blocks b) = blocks (a ++ b).
Proof.
  unfold append_execute. rewrite !foldl_concat, !concat_blocks, <- foldl_app. by apply (put_rows (a ++ b) [] []).
Qed.

Lemma filter_block_ok a : ∀ m u st, filter_rows a m = Some u → filter_block B a m st = Some (foldl (put_row B) st u).
Proof.
  induction a as [|r a IH]; intros [|x m] u st H; try discriminate H; cbn in H |- *; [by injection H as <-|].
  apply bind_Some in H as (s & -> & (out & Ho & [= <-])%bind_Some). cbn.
  rewrite (IH _ _ _ Ho). by destruct s.
Qed.

Lemma is_all_zero_ok a : ∀ m u, filter_rows a m = Some u → is_all_zero m = Some (bool_decide (u = [])).
Proof.
  induction a as [|r a IH]; intros [|x m] u H; try discriminate H; cbn in H |- *; [by injection H as <-|].
  apply bind_Some in H as (s & -> & (out & Ho & [= <-])%bind_Some). cbn.
  destruct s; [done|]. by apply IH.
Qed.

Lemma filter_rows_take_drop n a m u :
  filter_rows a m = Some u →
  ∃ u1 u2, filter_rows (take n a) (take n m) = Some u1 ∧ filter_rows (drop n a) (drop n m) = Some u2 ∧ u = u1 ++ u2.
Proof.
  intros H. pose proof (filter_rows_length _ _ _ H) as Hl. apply filter_rows_split; [by rewrite !take_drop|].
  by rewrite !length_take, Hl.
Qed.

Lemma filter_rest_ok m : ∀ a u st,
  filter_rows a m = Some u → filter_rest B (blocks a) (blocks m) st = Some (emit_rest (foldl (put_row B) st u)).
Proof.
  induction m as [|m Hne IH] using blocks_ind; intros a u st H; pose proof (filter_rows_length _ _ _ H) as Hl.
  - destruct a; [|done]. by injection H as <-.
  - assert (a ≠ []) as Ha by (intros ->; by destruct m).
    destruct (filter_rows_take_drop B a m u H) as (u1 & u2 & H1 & H2 & ->).
    rewrite (blocks_nonempty m Hne). cbn [filter_rest]. rewrite (is_all_zero_ok _ _ _ H1). cbn [mbind option_bind].
    rewrite foldl_app. case_bool_decide as Hz.
    + rewrite blocks_drop1, (IH _ _ _ H2). by rewrite Hz.
    + rewrite (blocks_nonempty a Ha), (filter_block_ok _ _ _ _ H1). cbn [mbind option_bind]. by apply IH.
Qed.

Lemma filter_blocks a m u :
  filter_rows a m = Some u → logical_filter_execute B (blocks a) (blocks m) = Some (blocks u).
Proof.
  intros H. pose proof (filter_rows_length _ _ _ H) as Hl. destruct (decide (m = [])) as [->|Hne].
  { destruct a; [|done]. by injection H as <-. }
  assert (a ≠ []) as Ha by (intros ->; by destruct m).
  destruct (filter_rows_take_drop B a m u H) as (u1 & u2 & H1 & H2 & ->).
  rewrite (blocks_nonempty a Ha), (blocks_nonempty m Hne). unfold logical_filter_execute. rewrite (filter_block_ok _ _ _ _ H1).
  cbn [mbind option_bind]. rewrite (filter_rest_ok _ _ _ _ H2), <- foldl_app. by rewrite (put_rows (u1 ++ u2) [] []).
Qed.

(** ** Sources *)

Lemma source_loop_blocks sf e fuel : ∀ t b,
  read_rows sf b e = Some t → (Z.to_nat (e - b) < fuel)%nat → source_loop B fuel sf b e = Some (blocks t).
Proof.
  induction fuel as [|fuel IH]; intros t b Ht Hf; [lia|]. cbn [source_loop].
  pose proof (read_rows_length _ _ _ _ Ht) as Hlen. apply read_rows_Some in Ht as (Ha & Hb & He & Hm).
  destruct (Z.eqb_spec b e) as [->|Hne]; [by destruct t; [|cbn in Hlen; lia]|].
  set (stop := (b + Z.of_nat B) `min` e). set (n := Z.to_nat (stop - b)).
  assert (n = B `min` length t)%nat as Hn by lia.
  assert (read_rows sf b stop = Some (take B t)) as ->.
  { apply read_rows_Some. split_and!; [done|lia|lia|lia|].
    pose proof (mapM_seqZ_slice _ b (e - b) t 0 n Hm ltac:(lia)) as Hs. cbn [drop] in Hs.
    rewrite Z.add_0_r in Hs. replace (stop - b) with (Z.of_nat n) by lia. rewrite Hs. f_equal.
    rewrite Hn. destruct (decide (B ≤ length t)%nat); [by rewrite Nat.min_l by lia|].
    rewrite Nat.min_r by lia. rewrite firstn_all, firstn_all2; [done|lia]. }
  assert (read_rows sf stop e = Some (drop B t)) as Hrest.
  { apply read_rows_Some. split_and!; [done|lia|lia|lia|].
    pose proof (mapM_seqZ_slice _ b (e - b) t n (length t - n) Hm ltac:(lia)) as Hs.
    replace (b + Z.of_nat n) with stop in Hs by lia. replace (Z.of_nat (length t - n)) with (e - stop) in Hs by lia.
    rewrite Hs. f_equal. rewrite firstn_all2 by (rewrite length_drop; lia).
    rewrite Hn. destruct (decide (B ≤ length t)%nat); [by rewrite Nat.min_l by lia|].
    rewrite Nat.min_r by lia. rewrite skipn_all, skipn_all2; [done|lia]. }
  cbn [mbind option_bind]. rewrite (IH _ _ Hrest) by lia. cbn [mbind option_bind].
  rewrite <- blocks_nonempty; [done|]. destruct t; [cbn in Hlen; lia|done].
Qed.

Lemma constant_loop_blocks v fuel : ∀ i n,
  0 ≤ i ≤ n → (Z.to_nat (n - i) < fuel)%nat →
  constant_loop B fuel v i n = Some (blocks (replicate (Z.to_nat (n - i)) [v])).
Proof.
  induction fuel as [|fuel IH]; intros i n Hi Hf; [lia|]. cbn [constant_loop].
  destruct (Z.ltb_spec i n) as [Hlt|Hge]; [|by replace (Z.to_nat (n - i)) with 0%nat by lia].
  cbn zeta. set (len := (n - i) `min` Z.of_nat B). rewrite (IH (i + len) n) by lia. cbn [mbind option_bind].
  rewrite (blocks_nonempty (replicate (Z.to_nat (n - i)) [v])); [|by destruct (Z.to_nat (n - i)) eqn:E; [lia|]].
  rewrite take_replicate, drop_replicate. assert (Z.to_nat len = B `min` Z.to_nat (n - i))%nat as <- by lia.
  by assert (Z.to_nat (n - (i + len)) = (Z.to_nat (n - i) - B))%nat as -> by lia.
Qed.

(** ** Operators and plans *)

Section plans.
Context {SA : SoftAssign}.

(** What runs: an identity never does, and a constant has a length that a [size_t] holds. *)
Definition runs (op : operator) : Prop :=
  match op with
  | op_constant _ _ b e => e - b < 2 ^ 64
  | optonly_identity_operator => False
  | _ => True
  end.

(** [execute] gives the blocks of the table of an operator. *)
Lemma execute_blocks op ts t :
  runs op → op ≠ op_project [] → denote_impl op ts = Some t → execute B op (map blocks ts) = Some (blocks t).
Proof.
  intros Hr Hp Hd. destruct (is_linear_transform (type_of op)) eqn:Hlin.
  - apply denote_linear in Hd as [Hm Hd]; [|done]. apply inputs_match_true in Hm.
    destruct op; try discriminate Hlin; cbn in Hm; [..|by apply (union_blocks _ ts t)|by apply (union_blocks _ ts t)];
      destruct ts as [|a [|b [|]]]; cbn in Hm; try lia; cbn [map execute]; [by eapply binary_blocks|..];
      apply lockstep_one in Hd; [|by apply each_row_blocks..].
    unfold project_execute. destruct indices; [done|]. by apply each_row_blocks.
  - destruct op; try discriminate Hlin; try done; cbn in Hd.
    + destruct ts; [|done]. destruct (begin_index <=? end_index) eqn:Hle; [|done]. apply Z.leb_le in Hle.
      injection Hd as <-. cbn in Hr. cbn [map execute]. unfold constant_execute, uw. cbn zeta. rewrite Z.mod_small by lia.
      rewrite (constant_loop_blocks value _ 0 (end_index - begin_index)) by lia. by rewrite Z.sub_0_r.
    + destruct ts as [|a [|b [|]]]; try done. injection Hd as <-. cbn. f_equal. apply append_blocks.
    + destruct ts as [|a [|b [|]]]; try done. by apply filter_blocks.
    + destruct ts; [|done]. by apply source_loop_blocks; [|lia].
    + destruct ts; [|done]. by apply source_loop_blocks; [|lia].
    + destruct ts as [|a [|]]; try done. apply bind_Some in Hd as (v & Hv & [= <-]).
      cbn [map execute]. unfold reduce_execute. rewrite concat_blocks, Hv. cbn [mbind option_bind].
      rewrite blocks_whole; [done|done|cbn; lia].
Qed.

Lemma generate_blocks h n v :
  denote h n = Some v → (∀ y p, at_or_below h n y → h !! y = Some p → runs (operator_type p)) →
  generate B h n = Some (blocks v.2).
Proof.
  intros Hv. unfold generate. unfold denote, evaluate at 1 in Hv. revert Hv. generalize (base.size h). intros fuel.
  revert n v. induction fuel as [|fuel IH]; intros n v; [done|]. rewrite eval_S.
  intros (p & vs & Hp & Hvs & Hi) Hruns. apply evaluate_unfold. exists p, (map blocks (vs.*2)).
  apply plan_impl_Some in Hi as (Hty & Hd & Hne).
  assert (operator_type p ≠ op_project []) as Hproj.
  { intros Hop. rewrite Hop in Hty. cbn in Hty. apply bind_Some in Hty as (? & _ & [= Hnil]). congruence. }
  split_and!; [done| |apply execute_blocks; [|done|done]].
  - apply mapM_Some in Hvs. apply mapM_Some.
    assert (∀ x, x ∈ inputs p → input_of h n x) as Hin by (intros x Hx; by exists p). clear Hd Hty Hne Hproj.
    induction Hvs as [|x w ins vs Hx _ IHl]; [constructor|]; cbn; constructor.
    + apply IH; [done|]. intros y q Hy. apply Hruns. right. eapply at_or_below_input; [|done]. apply Hin. by left.
    + apply IHl. intros y Hy. apply Hin. by right.
  - apply (Hruns n p); [by left|done].
Qed.
End plans.
End blocks.

End QueryExecuteSpec.
