(* ===== verification/QueryCorrectness.v ===== *)
(** The properties of the query engine, one theorem per claim, with the concrete plans on which
    the hypotheses of a claim hold. *)
From S2P Require Import Prelude FlexType FlexOps FlexOpsSpec QueryPlan QueryPlanSpec QueryGraph.
From S2P Require Import QueryGraphSpec QueryGraphInv QueryRewrite QueryView QueryFilterSpec QueryEngine.
From S2P Require Import QueryEngineSpec QuerySegment QuerySegmentSpec QueryExecute QueryExecuteSpec.
Local Open Scope Z_scope.

Module Plans.
Import FlexType FlexOps QueryPlan QueryPlanSpec QueryGraph QueryGraphSpec QueryGraphInv QueryRewrite.
Import QueryView QueryFilterSpec QueryEngine QueryEngineSpec QuerySegment QuerySegmentSpec.
Import QueryExecute QueryExecuteSpec.

Section plans.
Context (oob oob32 overflow : Z → Z) (double_to_string : Z → list Z) (iso : Z → Z → list Z).

(** The assignment of the program. *)
#[local] Instance assignment : SoftAssign :=
  soft_assignment_visitor oob oob32 overflow double_to_string iso.

#[local] Instance assignment_typed : SoftAssignTyped.
Proof. intros t u v. apply FlexOpsSpec.soft_assign_type. Qed.




(** C13: replacing a node by a plan with its value, built over nodes under it, succeeds: edges
    agree in both directions and only the tip lacks a reader, as before; the old node is
    discarded, with what only it needed; and every node keeps its value. *)
Theorem replacing_keeps_the_graph mask tip old e p v :
  engine_ok plan_impl tip e → live (node_lookups e) old → old ≠ tip →
  denote (nodes e) old = Some v → (∀ y, y ∈ leaves p → below (nodes e) old y) →
  eval_plan plan_impl (denote (nodes e)) p = Some v →
  ∃ e', replace_node mask old p e = Some e' ∧ engine_ok plan_impl tip e' ∧
    ¬ live (node_lookups e') old ∧ ∀ x w, denote (nodes e) x = Some w → denote (nodes e') x = Some w.
Proof.
  intros Hok Hl Ht Hv Hle Hp. destruct (plan_total _ p v Hp (nodes e)) as [[h1 new] Hmake].
  destruct (replace_node_ok plan_impl tip old new e p h1 v Hok Hl Ht Hv Hle Hp Hmake mask) as (e' & ? & ? & ? & ? & _).
  by exists e'.
Qed.

(** C30: the types that the planner infers for a node are those of its table: the planner
    infers them, and each value is missing or of the type of its column, when the values of
    sources and constants and the results of binary functions and aggregators are. *)
Theorem inferred_types_hold h :
  (∀ x n, h !! x = Some n → op_typed fits (operator_type n)) →
  ∀ x v, denote h x = Some v →
  infer_planner_node_type h x = Some v.1 ∧ Forall (Forall2 fits v.1) v.2.
Proof.
  intros Hop x v Hv. split; [by apply denote_type|].
  eapply (denote_typed fits convert_fits convert_value_fits); done.
Qed.


(** C5: a plan that runs in any number of parallel segments gives its table: when the planner
    takes it for parallel slicable, the tables of the segmented copies are its rows, in order;
    when it does not, the plan runs whole. The plan has no reduction, whose callers combine
    the segments themselves, and the ranges of its sources fit the arithmetic. *)
Theorem segments_concatenate h n v num_segments :
  denote h n = Some v → Z.of_nat num_segments < 2 ^ 64 →
  (∀ y p, at_or_below h n y → h !! y = Some p → sliced_op num_segments (operator_type p)) →
  execute_node_impl h n num_segments = Some v.2.
Proof. apply execute_node_impl_ok. Qed.

(** What the planner proves of the lengths of two plans is true: when it says that it has
    proved whether they are equal, they are equal exactly if it says so. *)
Theorem proved_lengths_are_true h a b va vb :
  denote h a = Some va → denote h b = Some vb →
  ∃ proved equal, prove_equal_length h a b = Some (proved, equal) ∧
    (proved = true → equal = bool_decide (length va.2 = length vb.2)).
Proof. apply prove_equal_length_ok. Qed.

(** C6: running the operators of a plan, each reading blocks from its inputs and emitting
    blocks, ends without an error and gives the table of the plan in full blocks (the last may
    be shorter), for every block size. *)
Theorem running_gives_the_table block_size h n v :
  (0 < block_size)%nat → denote h n = Some v →
  (∀ y p, at_or_below h n y → h !! y = Some p → runs (operator_type p)) →
  generate block_size h n = Some (blocks block_size v.2) ∧
  concat (blocks block_size v.2) = v.2.
Proof. intros HB Hv Hr. split; [by apply generate_blocks|by apply concat_blocks]. Qed.
End plans.

(** ** A plan: the columns [b] and [a] of a frame beside the frame, filtered by [b], and three
    of the four columns of the result *)

#[local] Instance an_assignment : SoftAssign := assignment (λ _, 0) (λ _, 0) (λ _, 0) (λ _, []) (λ _ _, []).

Definition column_a : sarray := SArray INTEGER [FInt 1; FInt 2; FInt 3; FInt 4].
Definition column_b : sarray := SArray INTEGER [FInt 0; FInt 5; FInt 0; FInt 7].
Definition plan_nodes : list (nat * planner_node) := [
  (0, PNode (op_sframe_source [column_a; column_b] 0 4) []);
  (1, PNode (op_project [1; 0]) [0]);
  (2, PNode op_union [1; 0]);
  (3, PNode (op_project [1]) [0]);
  (4, PNode op_logical_filter [2; 3]);
  (5, PNode (op_project [1; 3; 0]) [4])]%nat.
Definition a_plan : gmap nat planner_node := list_to_map plan_nodes.
Definition a_table : ttable :=
  ([INTEGER; INTEGER; INTEGER], [[FInt 2; FInt 5; FInt 5]; [FInt 4; FInt 7; FInt 7]]).

Lemma a_plan_nodes (P : planner_node → Prop) x p :
  Forall (λ n, P n.2) plan_nodes → a_plan !! x = Some p → P p.
Proof.
  intros HP Hp. apply elem_of_list_to_map_2 in Hp. rewrite Forall_forall in HP. by apply (HP (x, p)).
Qed.

Lemma a_plan_table : denote a_plan 5 = Some a_table.
Proof. by vm_compute. Qed.


(** The optimizer as it starts. *)
Definition started : engine := match make_engine a_plan 5 with Some (e, _) => e | None => Engine ∅ ∅ [] end.

Lemma started_eq : make_engine a_plan 5 = Some (started, 6%nat).
Proof.
  assert (snd <$> make_engine a_plan 5 = Some 6%nat) as H by by vm_compute. unfold started.
  destruct (make_engine a_plan 5) as [[e tip]|]; [|discriminate H]. cbn in *. congruence.
Qed.

Lemma started_ok : engine_ok plan_impl 6 started.
Proof.
  destruct (make_engine_ok a_plan 5 a_table a_plan_table) as (e & tip & He & Hr).
  rewrite started_eq in He. injection He as <- <-. apply Hr.
Qed.


(** The projection moves below the filter. *)
Definition exchanged : plan :=
  New op_logical_filter [New (op_project [1; 3; 0]%nat) [Old 2]; Old 3].

Lemma started_live n : is_live started n = true → live (node_lookups started) n.
Proof. apply is_live_spec. Qed.

Lemma started_table : denote (nodes started) 5 = Some a_table.
Proof. by vm_compute. Qed.


Lemma replacing_keeps_the_graph_witness :
  ∃ e', replace_node (λ _, true) 5 exchanged started = Some e' ∧ engine_ok plan_impl 6 e' ∧
    ¬ live (node_lookups e') 5 ∧ ∀ x w, denote (nodes started) x = Some w → denote (nodes e') x = Some w.
Proof.
  assert (live (node_lookups started) 5) as Hl by (apply started_live; by vm_compute).
  destruct (project_logical_filter_exchange_ok 6%nat started 5%nat a_table exchanged started_ok Hl) as [Hp Hle];
    [by vm_compute|exact started_table|by vm_compute|].
  exact (replacing_keeps_the_graph (λ _, 0) (λ _, 0) (λ _, 0) (λ _, []) (λ _ _, []) (λ _, true) 6 5 started exchanged a_table
    started_ok Hl ltac:(discriminate) started_table Hle Hp).
Defined.

(** A transform that returns integers, announced as strings. *)
Definition typed_nodes : list (nat * planner_node) := [
  (0, PNode (op_sframe_source [column_a; column_b] 0 4) []);
  (1, PNode (op_transform (λ r, head r) STRING) [0])]%nat.

Lemma inferred_types_hold_witness :
  ∃ v, denote (list_to_map typed_nodes : gmap nat planner_node) 1 = Some v ∧ v.1 = [STRING] ∧ length v.2 = 4%nat ∧
    Forall (Forall2 fits v.1) v.2.
Proof.
  destruct (denote (list_to_map typed_nodes) 1) as [v|] eqn:E; [|by vm_compute in E].
  exists v. destruct (inferred_types_hold (λ _, 0) (λ _, 0) (λ _, 0) (λ _, []) (λ _ _, [])
    (list_to_map typed_nodes)) with (x := 1%nat) (v := v) as [_ H].
  - intros x n Hn. apply elem_of_list_to_map_2 in Hn.
    assert (Forall (λ n, op_typed fits (operator_type n.2)) typed_nodes) as Hall.
    { repeat (apply Forall_cons; split); try apply Forall_nil; try exact I.
      all: cbn; repeat (apply Forall_cons; split); try apply Forall_nil; cbn.
      all: repeat (apply Forall_cons; split); try apply Forall_nil; right; left; reflexivity. }
    rewrite Forall_forall in Hall. exact (Hall (x, n) Hn).
  - exact E.
  - split_and!; [reflexivity| | |exact H].
    + vm_compute in E. by injection E as <-.
    + vm_compute in E. by injection E as <-.
Defined.


Lemma segments_concatenate_witness :
  is_parallel_slicable a_plan 5 = Some true ∧ execute_node_impl a_plan 5 3 = Some (a_table.2).
Proof.
  split; [by vm_compute|].
  apply (segments_concatenate (λ _, 0) (λ _, 0) (λ _, 0) (λ _, []) (λ _ _, []) a_plan 5 a_table 3 a_plan_table).
  - reflexivity.
  - intros y p _. apply (a_plan_nodes (λ p, sliced_op 3 (operator_type p))).
    repeat constructor; try discriminate; vm_compute; discriminate || reflexivity.
Defined.

Lemma proved_lengths_are_true_witness :
  prove_equal_length a_plan 5 4 = Some (true, true) ∧ bool_decide (length a_table.2 = 2%nat) = true.
Proof.
  assert (prove_equal_length a_plan 5 4 = Some (true, true)) as E by by vm_compute. split; [exact E|].
  destruct (denote a_plan 4) as [vb|] eqn:E4; [|by vm_compute in E4].
  destruct (proved_lengths_are_true (λ _, 0) (λ _, 0) (λ _, 0) (λ _, []) (λ _ _, []) a_plan 5 4 a_table vb a_plan_table E4)
    as (proved & equal & Hp & H).
  rewrite E in Hp. injection Hp as <- <-. specialize (H eq_refl). rewrite H. f_equal.
  vm_compute in E4. by injection E4 as <-.
Defined.

Lemma running_gives_the_table_witness :
  generate 3 a_plan 5 = Some (blocks 3 a_table.2) ∧ concat (blocks 3 a_table.2) = a_table.2.
Proof.
  apply (running_gives_the_table (λ _, 0) (λ _, 0) (λ _, 0) (λ _, []) (λ _ _, []) 3 a_plan 5 a_table); [lia|exact a_plan_table|].
  intros y p _. apply (a_plan_nodes (λ p, runs (operator_type p))). repeat constructor.
Defined.
End Plans.
