(* ===== verification/SFrame.v ===== *)
(** SFrames (sframe/sframe.cpp): columns with names, the frames that are made from other frames,
    and the writing of rows into a new frame; dataframes (sframe/dataframe.cpp). *)
From stdpp Require Import sorting.
From S2P Require Import Prelude FlexType FlexOps QueryPlan.
Import FlexType FlexOps.
Import QueryPlan(SoftAssign, soft_assign).
Local Open Scope Z_scope.
Local Open Scope sframe_scope.

Module SFrame.

Abbreviation row := (list flexible_type).
Abbreviation name := (list Z).

(** An SArray: its type, and its values in segments. *)
Record sarray := SArray {
  sa_type : flex_type_enum;
  sa_segments : list (list flexible_type);
}.

Definition sa_data (sa : sarray) : list flexible_type := concat (sa_segments sa).
Definition sa_size (sa : sarray) : nat := length (sa_data sa).

(** An SFrame that is opened for reading, or, when not [inited], for nothing. *)
Record sframe := Frame {
  inited : bool;
  columns : list sarray;
  column_names : list name;
  nrows : nat;
}.

Definition no_frame : sframe := Frame false [] [] 0.

(** What the code does not define: an access outside a vector, or fuel that runs out. *)
Definition or_trap {A} (o : option A) : outcome A := match o with Some a => Ok a | None => Trap end.

Definition num_columns (sf : sframe) : nat := length (columns sf).
Definition num_rows (sf : sframe) : nat := if inited sf then nrows sf else 0%nat.
Definition num_segments (sf : sframe) : nat :=
  match columns sf with [] => 0%nat | c :: _ => length (sa_segments c) end.
Definition column_types (sf : sframe) : list flex_type_enum := map sa_type (columns sf).
Definition column_type (i : nat) (sf : sframe) : outcome flex_type_enum :=
  sa_type <$> or_throw (columns sf !! i).

Definition contains_column (column_name : name) (names : list name) : bool :=
  bool_decide (column_name ∈ names).

Fixpoint find_name (column_name : name) (names : list name) : option nat :=
  match names with
  | [] => None
  | n :: names => if bool_decide (n = column_name) then Some 0%nat else S <$> find_name column_name names
  end.
Definition column_index (column_name : name) (sf : sframe) : outcome nat :=
  or_throw (find_name column_name (column_names sf)).

(** ** Names *)

(** The first of [base1], [base2], ... that is not taken, from a number on. *)
Fixpoint next_free_name (fuel : nat) (number : Z) (base : name) (names : list name) : option name :=
  match fuel with
  | O => None
  | S fuel =>
      let non_conflict_name := base ++ int_to_string number in
      if contains_column non_conflict_name names then next_free_name fuel (number + 1) base names
      else Some non_conflict_name
  end.

Definition ch_X : Z := 88.
Definition ch_dot : Z := 46.
Definition default_name (number_of_columns : nat) : name :=
  ch_X :: int_to_string (Z.of_nat (number_of_columns + 1)).

Definition generate_valid_column_name (column_name : name) (names : list name) : outcome name :=
  let n := match column_name with [] => default_name (length names) | _ => column_name end in
  if contains_column n names then or_trap (next_free_name (S (length names)) 1 (n ++ [ch_dot]) names)
  else Ok n.

(** The names of [n] columns, of which the first ones are given. *)
Fixpoint fill_column_names (n : nat) (given names : list name) : outcome (list name) :=
  match n with
  | O => Ok names
  | S n =>
      name ← generate_valid_column_name (default [] (head given)) names;
      fill_column_names n (tail given) (names ++ [name])
  end.

(** ** Frames from columns *)

(** [sframe(columns, names, fail_on_column_names)]. *)
Definition create_arrays_for_reading (new_columns : list sarray) (names : list name) (fail_on_column_names : bool)
  : outcome sframe :=
  match new_columns with
  | [] => Ok (Frame true [] [] 0)
  | c :: _ =>
      if forallb (λ i, sa_size i =? sa_size c)%nat new_columns then
        if fail_on_column_names && negb (bool_decide (NoDup names)) then Throw
        else
          names ← fill_column_names (length new_columns) names [];
          Ok (Frame true new_columns names (sa_size c))
      else Throw
  end.

Definition select_column (column_id : nat) (sf : sframe) : outcome sarray := or_throw (columns sf !! column_id).
Definition select_column_name (column_name : name) (sf : sframe) : outcome sarray :=
  i ← column_index column_name sf; select_column i sf.

Definition select_columns (names : list name) (sf : sframe) : outcome sframe :=
  new_columns ← outcome_map (λ n, i ← column_index n sf; or_trap (columns sf !! i)) names;
  create_arrays_for_reading new_columns names true.

Definition add_column (sarr : sarray) (column_name : name) (sf : sframe) : outcome sframe :=
  if (num_columns sf =? 0)%nat then create_arrays_for_reading [sarr] [column_name] true
  else if negb (num_rows sf =? sa_size sarr)%nat then Throw
  else if contains_column column_name (column_names sf) then Throw
  else
    tmp ← generate_valid_column_name column_name (column_names sf);
    create_arrays_for_reading (columns sf ++ [sarr]) (column_names sf ++ [tmp]) true.

Definition set_column_name (i : nat) (column_name : name) (sf : sframe) : outcome sframe :=
  if (i <? num_columns sf)%nat
  then Ok (Frame (inited sf) (columns sf) (<[i := column_name]> (column_names sf)) (nrows sf))
  else Throw.

Definition remove_column (i : nat) (sf : sframe) : outcome sframe :=
  if (i <? num_columns sf)%nat
  then create_arrays_for_reading (delete i (columns sf)) (delete i (column_names sf)) true
  else Throw.

(** [std::swap] of two elements. *)
Definition swap_elements {A} (i j : nat) (l : list A) : outcome (list A) :=
  x ← or_trap (l !! i); y ← or_trap (l !! j); Ok (<[j := x]> (<[i := y]> l)).

Definition swap_columns (column_1 column_2 : nat) (sf : sframe) : outcome sframe :=
  if (column_1 <? num_columns sf)%nat && (column_2 <? num_columns sf)%nat then
    new_columns ← swap_elements column_1 column_2 (columns sf);
    new_column_names ← swap_elements column_1 column_2 (column_names sf);
    create_arrays_for_reading new_columns new_column_names true
  else Throw.

(** The name a new column has until it takes the place of the old one. *)
Definition underscores : name := [95; 95].
Fixpoint temporary_name (fuel : nat) (n : name) (names : list name) : option name :=
  match fuel with
  | O => None
  | S fuel => if contains_column n names then temporary_name fuel (n ++ underscores) names else Some n
  end.

Definition replace_column (sarr : sarray) (column_name : name) (sf : sframe) : outcome sframe :=
  if contains_column column_name (column_names sf) then
    tmp_column_name ← or_trap (temporary_name (S (length (column_names sf)))
      (underscores ++ column_name ++ underscores) (column_names sf));
    newsf ← add_column sarr tmp_column_name sf;
    oldidx ← column_index column_name newsf;
    newidx ← column_index tmp_column_name newsf;
    newsf ← swap_columns oldidx newidx newsf;
    newsf ← remove_column newidx newsf;
    set_column_name oldidx column_name newsf
  else Throw.

Definition append_sarray (a b : sarray) : sarray := SArray (sa_type a) (sa_segments a ++ sa_segments b).

Fixpoint zip_append (l1 l2 : list sarray) : outcome (list sarray) :=
  match l1, l2 with
  | [], _ => Ok []
  | _, [] => Trap
  | a :: l1, b :: l2 => l ← zip_append l1 l2; Ok (append_sarray a b :: l)
  end.

Definition append (sf other : sframe) : outcome sframe :=
  if negb (inited other) then Ok sf
  else if negb (inited sf) then Ok other
  else if bool_decide (column_names sf = column_names other) && bool_decide (column_types sf = column_types other) then
    cs ← zip_append (columns sf) (columns other);
    Ok (Frame true cs (column_names sf) (nrows sf + nrows other))
  else Throw.

(** ** Reading rows *)

Definition row_at (sf : sframe) (i : nat) : option row := mapM (λ c, sa_data c !! i) (columns sf).
Definition read_all (sf : sframe) : outcome (list row) := or_trap (mapM (row_at sf) (seq 0 (num_rows sf))).

(** Consecutive pieces of the given lengths. *)
Fixpoint cut {A} (lengths : list nat) (l : list A) : list (list A) :=
  match lengths with [] => [] | n :: lengths => take n l :: cut lengths (drop n l) end.

(** The rows of each segment of a reader: [get_reader(segment_lengths)], [get_reader(num_segments)]
    and [get_reader()], the latter two without any segment for a frame without columns. *)
Definition get_reader (segment_lengths : list nat) (sf : sframe) : outcome (list (list row)) :=
  if inited sf && (sum_list segment_lengths =? num_rows sf)%nat then cut segment_lengths <$> read_all sf else Throw.

Definition get_reader_n (num_segments : nat) (sf : sframe) : outcome (list (list row)) :=
  if inited sf then
    match columns sf with
    | [] => Ok []
    | _ =>
        if (0 <? num_segments)%nat then
          cut (map (λ i, (S i * num_rows sf) / num_segments - (i * num_rows sf) / num_segments)%nat (seq 0 num_segments))
            <$> read_all sf
        else Throw
    end
  else Throw.

Definition get_reader_stored (sf : sframe) : outcome (list (list row)) :=
  if inited sf then
    match columns sf with
    | [] => Ok []
    | c :: _ => cut (map length (sa_segments c)) <$> read_all sf
    end
  else Throw.

Definition segment_lengths (sf : sframe) : list nat :=
  match columns sf with [] => [] | c :: _ => map length (sa_segments c) end.

(** ** Writing rows *)

(** A frame opened for writing: the values of each column and segment. *)
Record frame_writer := Writer {
  w_names : list name;
  w_types : list flex_type_enum;
  w_segments : nat;
  w_buffers : list (list (list flexible_type));
}.

Fixpoint names_for_writing (fail_on_column_names all_names_unique : bool) (given names : list name)
  : outcome (list name) :=
  match given with
  | [] => Ok names
  | g :: given =>
      n ← (if bool_decide (g = []) || negb all_names_unique then generate_valid_column_name g names else Ok g);
      if fail_on_column_names && negb (bool_decide (g = [])) && negb (bool_decide (n = g)) then Throw
      else names_for_writing fail_on_column_names all_names_unique given (names ++ [n])
  end.

(** [open_for_write(names, types, "", nsegments, fail_on_column_names)]. *)
Definition open_for_write (names : list name) (types : list flex_type_enum) (nsegments : nat)
    (fail_on_column_names : bool) : outcome frame_writer :=
  if (length names =? length types)%nat then
    ns ← names_for_writing fail_on_column_names (bool_decide (NoDup names)) names [];
    let nsegments := match names with [] => 0%nat | _ => nsegments end in
    Ok (Writer ns types nsegments (replicate (length names) (replicate nsegments [])))
  else Throw.

(** [write_segment]: each value goes to its column. *)
Fixpoint write_segment (segmentid : nat) (t : row) (buffers : list (list (list flexible_type)))
  : outcome (list (list (list flexible_type))) :=
  match t, buffers with
  | [], _ => Ok buffers
  | _ :: _, [] => Trap
  | v :: t, b :: buffers =>
      s ← or_trap (b !! segmentid);
      buffers ← write_segment segmentid t buffers;
      Ok (<[segmentid := s ++ [v]]> b :: buffers)
  end.

Section writing.
Context {SA : SoftAssign}.

(** A value that is not of the type of its column is converted, when the types allow it. *)
Definition mismatch (t : flex_type_enum) (v : flexible_type) : bool :=
  bool_decide (get_type v ≠ UNDEFINED) && bool_decide (t ≠ UNDEFINED) && bool_decide (get_type v ≠ t).

Definition check_value (t : flex_type_enum) (v : flexible_type) : outcome flexible_type :=
  if mismatch t v then
    if flex_type_is_convertible (get_type v) t then soft_assign (reset t) v else Throw
  else Ok v.

Fixpoint check_row (ctypes : list flex_type_enum) (val : row) : outcome row :=
  match val, ctypes with
  | [], _ => Ok []
  | _ :: _, [] => Trap
  | v :: val, t :: ctypes => v ← check_value t v; val ← check_row ctypes val; Ok (v :: val)
  end.

(** The output iterators of a segment: of a row, of a row that is moved, and of a block of
    rows. *)
Definition write_values (segmentid : nat) (val : row) (w : frame_writer) : outcome frame_writer :=
  buffers ← write_segment segmentid val (w_buffers w);
  Ok (Writer (w_names w) (w_types w) (w_segments w) buffers).

Definition write_row (segmentid : nat) (val : row) (w : frame_writer) : outcome frame_writer :=
  val ← check_row (w_types w) val; write_values segmentid val w.

Definition write_row_move (segmentid : nat) (val : row) (w : frame_writer) : outcome frame_writer :=
  if (length val =? length (w_types w))%nat then write_row segmentid val w else Throw.

(** [sframe_rows::type_check] of one row of a block: the conversion is not asked for first. *)
Definition type_check_value (t : flex_type_enum) (v : flexible_type) : outcome flexible_type :=
  if mismatch t v then soft_assign (reset t) v else Ok v.

Fixpoint type_check (typelist : list flex_type_enum) (val : row) : outcome row :=
  match val, typelist with
  | v :: val, t :: typelist => v ← type_check_value t v; val ← type_check typelist val; Ok (v :: val)
  | _, _ => Ok []
  end.

Definition write_block_row (segmentid : nat) (val : row) (w : frame_writer) : outcome frame_writer :=
  if (length val =? length (w_types w))%nat
  then val ← type_check (w_types w) val; write_values segmentid val w
  else Throw.

(** Rows that are written one after the other, each to its segment, by whatever thread. *)
Section each.
Context (write : nat → row → frame_writer → outcome frame_writer).
Fixpoint each (ws : list (nat * row)) (w : frame_writer) : outcome frame_writer :=
  match ws with
  | [] => Ok w
  | (segmentid, r) :: ws => w ← write segmentid r w; each ws w
  end.
End each.

Definition write_each : list (nat * row) → frame_writer → outcome frame_writer := each write_row.
Definition write_each_move : list (nat * row) → frame_writer → outcome frame_writer := each write_row_move.
End writing.

Definition close (w : frame_writer) : sframe :=
  let cs := zip_with SArray (w_types w) (w_buffers w) in
  Frame true cs (w_names w) (match cs with [] => 0%nat | c :: _ => sa_size c end).

(** ** Dataframes *)

Record dataframe := Dataframe {
  df_names : list name;
  df_types : gmap name flex_type_enum;
  df_values : gmap name (list flexible_type);
}.

Definition set_column (key : name) (val : list flexible_type) (type : flex_type_enum) (d : dataframe) : dataframe :=
  Dataframe (match df_values d !! key with None => df_names d ++ [key] | Some _ => df_names d end)
    (<[key := type]> (df_types d)) (<[key := val]> (df_values d)).

(** The first column in the order of a [std::map] of strings. *)
Definition name_le (a b : name * list flexible_type) : Prop := string_lt b.1 a.1 = false.
#[global] Instance name_le_dec : RelDecision name_le.
Proof. intros a b. unfold name_le. apply _. Defined.

Definition df_nrows (d : dataframe) : nat :=
  match merge_sort name_le (map_to_list (df_values d)) with [] => 0%nat | kv :: _ => length kv.2 end.
Definition df_ncols (d : dataframe) : nat := base.size (df_values d).
Definition df_contains (key : name) (d : dataframe) : bool := bool_decide (is_Some (df_types d !! key)).

(** The first [ncols()] names are searched. *)
Definition remove_df_column (key : name) (d : dataframe) : outcome dataframe :=
  match find_name key (take (df_ncols d) (df_names d)) with
  | None => Ok d
  | Some colid =>
      if bool_decide (is_Some (df_types d !! key)) && bool_decide (is_Some (df_values d !! key))
      then Ok (Dataframe (delete colid (df_names d)) (delete key (df_types d)) (delete key (df_values d)))
      else Trap
  end.

(** [sframe(dataframe)], in one segment. *)
Definition of_dataframe {SA : SoftAssign} (d : dataframe) : outcome sframe :=
  types ← outcome_map (λ n, or_throw (df_types d !! n)) (df_names d);
  values ← outcome_map (λ n, or_throw (df_values d !! n)) (df_names d);
  w ← open_for_write (df_names d) types 1 true;
  rows ← or_trap (mapM (λ i, mapM (λ c : list flexible_type, c !! i) values) (seq 0 (df_nrows d)));
  w ← write_each (map (pair 0%nat) rows) w; Ok (close w).

Definition to_dataframe (sf : sframe) : outcome dataframe :=
  foldl (λ d i,
      d ← d; n ← or_throw (column_names sf !! i); c ← or_throw (columns sf !! i);
      Ok (set_column n (sa_data c) (sa_type c) d))
    (Ok (Dataframe [] ∅ ∅)) (seq 0 (num_columns sf)).

End SFrame.
