(* ===== verification/GroupAggregate.v ===== *)
(** The aggregators of group-by and of rolling windows (sframe/group_aggregate_value.hpp and
    groupby_aggregate_operators.hpp): how each adds an element, combines two partial results
    and emits its value. *)
From Stdlib Require Import SpecFloat.
From S2P Require Import Prelude Float64 FloatArith FlexType FlexOps.
Import Float64 FloatArith FlexType FlexOps.
Local Open Scope Z_scope.
Local Open Scope sframe_scope.

Module GroupAggregate.

(** ** The classes

    A [group_aggregate_value] is its class with its data members; a [double] is its bit
    pattern, a [size_t] a [Z]. The sketch of the quantiles is left out. An unordered set or map
    is the list of its entries in the order of their insertion; a [std::map] the list of its
    entries in their order. *)
Inductive group_aggregate_value :=
  | vector_sum (value : flexible_type) (failure init : bool)
  | sum (value : flexible_type)
  | min (value : flexible_type) (init : bool)
  | max (value : flexible_type) (init : bool)
  | argmin (vec_value : list flexible_type) (init : bool)
  | argmax (vec_value : list flexible_type) (init : bool)
  | count (value : Z)
  | non_null_count (value : Z)
  | vector_average (value : flexible_type) (init failure : bool) (n : Z)
  | average (value n : Z)
  | variance (n mean M2 : Z)
  | stdv (n mean M2 : Z)
  | zip_dict (m_value : list (flexible_type * flexible_type)) (m_missing_value : bool)
  | zip_list (m_value : list flexible_type) (m_missing_value m_is_float : bool)
  | select_one (m_value : flexible_type) (m_has_value : bool)
  | count_distinct (m_values : list flexible_type)
  | distinct (m_values : list flexible_type)
  | frequency_count (m_values : list (flexible_type * Z)).

Definition new_instance (v : group_aggregate_value) : group_aggregate_value :=
  match v with
  | vector_sum _ _ _ => vector_sum (FVec []) false false
  | sum value => sum (reset (get_type value))
  | min value _ => min (reset (get_type value)) false
  | max value _ => max (reset (get_type value)) false
  | argmin _ _ => argmin [] false
  | argmax _ _ => argmax [] false
  | count _ => count 0
  | non_null_count _ => non_null_count 0
  | vector_average _ _ _ _ => vector_average (FVec []) false false 0
  | average _ _ => average 0 0
  | variance _ _ _ => variance 0 0 0
  | stdv _ _ _ => stdv 0 0 0
  | zip_dict _ _ => zip_dict [] false
  | zip_list _ _ m_is_float => zip_list [] false m_is_float
  | select_one _ _ => select_one default_value false
  | count_distinct _ => count_distinct []
  | distinct _ => distinct []
  | frequency_count _ => frequency_count []
  end.

(** ** Types *)

Definition is_one_of (t : flex_type_enum) (l : list flex_type_enum) : bool := bool_decide (t ∈ l).

Definition support_type (v : group_aggregate_value) (t : flex_type_enum) : bool :=
  match v with
  | vector_sum _ _ _ | vector_average _ _ _ _ => is_one_of t [VECTOR]
  | sum _ | average _ _ | variance _ _ _ | stdv _ _ _ => is_one_of t [INTEGER; FLOAT]
  | min _ _ | max _ _ | argmin _ _ | argmax _ _ => is_one_of t [INTEGER; FLOAT; DATETIME]
  | frequency_count _ => is_one_of t [INTEGER; STRING]
  | _ => true
  end.

(** The aggregator that knows its input type, and the type of its output. *)
Definition set_input_type (v : group_aggregate_value) (t : flex_type_enum)
  : outcome (group_aggregate_value * flex_type_enum) :=
  match v with
  | sum _ => Ok (sum (reset t), t)
  | min _ init => Ok (min (reset t) init, t)
  | max _ init => Ok (max (reset t) init, t)
  | vector_sum _ _ _ | vector_average _ _ _ _ | select_one _ _ => Ok (v, t)
  | non_null_count _ | count_distinct _ => Ok (v, INTEGER)
  | average _ _ | variance _ _ _ | stdv _ _ _ => Ok (v, FLOAT)
  | distinct _ => Ok (v, LIST)
  | frequency_count _ => Ok (v, DICT)
  | argmin _ _ | argmax _ _ | count _ | zip_dict _ _ | zip_list _ _ _ => Throw
  end.

(** An access outside [types] is undefined: here it throws. *)
Definition set_input_types (v : group_aggregate_value) (types : list flex_type_enum)
  : outcome (group_aggregate_value * flex_type_enum) :=
  match v with
  | argmin _ _ | argmax _ _ => t ← or_throw (types !! 1%nat); Ok (v, t)
  | count _ | non_null_count _ => Ok (v, INTEGER)
  | zip_dict _ _ => Ok (v, DICT)
  | zip_list m_value m_missing_value _ =>
      t ← or_throw (types !! 0%nat);
      if bool_decide (t = FLOAT) then Ok (zip_list m_value m_missing_value true, VECTOR)
      else Ok (zip_list m_value m_missing_value false, LIST)
  | _ => t ← or_throw (types !! 0%nat); set_input_type v t
  end.

Section aggregate.
(** Conversions out of range, the parsing of doubles, and [std::hash<flexible_type>]. *)
Context (oob : Z → Z) (atof : list Z → Z) (hash : flexible_type → Z).

Definition is_null (flex : flexible_type) : bool := is_undefined flex.

(** [flex == FLEX_UNDEFINED]. *)
Definition equals_undefined (flex : flexible_type) : bool :=
  approx_equality_operator hash flex FUndefined.

(** ** Hash tables and maps *)

Definition same_entry (x y : flexible_type) : bool :=
  (hash x =? hash y) && approx_equality_operator hash x y.

(** [std::unordered_set::insert]. *)
Fixpoint set_insert (x : flexible_type) (l : list flexible_type) : list flexible_type :=
  match l with
  | [] => [x]
  | y :: l => if same_entry y x then y :: l else y :: set_insert x l
  end.

(** [m_values[flex] += n]. *)
Fixpoint count_more (x : flexible_type) (n : Z) (l : list (flexible_type * Z)) : list (flexible_type * Z) :=
  match l with
  | [] => [(x, u64 n)]
  | (y, m) :: l => if same_entry y x then (y, u64 (m + n)) :: l else (y, m) :: count_more x n l
  end.

(** [std::unordered_map::insert]: an entry whose key is there is left as it is. *)
Fixpoint unordered_insert (kvp : flexible_type * Z) (l : list (flexible_type * Z)) : list (flexible_type * Z) :=
  match l with
  | [] => [kvp]
  | y :: l => if same_entry y.1 kvp.1 then y :: l else y :: unordered_insert kvp l
  end.

(** [std::map::insert]. *)
Fixpoint map_insert (kv : flexible_type * flexible_type) (l : list (flexible_type * flexible_type))
  : outcome (list (flexible_type * flexible_type)) :=
  match l with
  | [] => Ok [kv]
  | y :: l =>
      before ← lt_operator kv.1 y.1;
      if before : bool then Ok (kv :: y :: l)
      else
        after ← lt_operator y.1 kv.1;
        if after : bool then l ← map_insert kv l; Ok (y :: l) else Ok (y :: l)
  end.

Fixpoint map_insert_all (kvs l : list (flexible_type * flexible_type))
  : outcome (list (flexible_type * flexible_type)) :=
  match kvs with [] => Ok l | kv :: kvs => l ← map_insert kv l; map_insert_all kvs l end.

(** The weighted mean of [average] and [variance]. *)
Definition weighted_mean (value n value' n' : Z) : Z :=
  fdiv (fadd (fmul value (i2f n)) (fmul value' (i2f n'))) (i2f (u64 (n + n'))).

(** ** The classes, one after the other

    Each method takes the members of the object, and for [combine] those of the other; the
    result is the object after the call. *)

Abbreviation result := (outcome group_aggregate_value).

Definition vector_sum_add_element_simple (flex value : flexible_type) (failure init : bool) : result :=
  if failure || is_null flex then Ok (vector_sum value failure init)
  else if negb init then Ok (vector_sum flex failure true)
  else if negb (size flex =? size value)%nat then Ok (vector_sum value true init)
  else value ← plus_equal_operator oob value flex; Ok (vector_sum value failure init).

Definition vector_sum_combine (value' : flexible_type) (failure' init' : bool)
    (value : flexible_type) (failure init : bool) : result :=
  if failure' || failure then Ok (vector_sum value failure init)
  else if negb init then Ok (vector_sum value' failure' init')
  else if negb init' then Ok (vector_sum value failure init)
  else if negb (size value =? size value')%nat then Ok (vector_sum value true init)
  else value ← plus_equal_operator oob value value'; Ok (vector_sum value failure init).

Definition sum_add_element_simple (flex value : flexible_type) : result :=
  if is_null flex then Ok (sum value) else value ← plus_equal_operator oob value flex; Ok (sum value).

Definition sum_combine (value' value : flexible_type) : result :=
  value ← plus_equal_operator oob value value'; Ok (sum value).

Definition min_add_element_simple (flex value : flexible_type) (init : bool) : result :=
  if is_null flex then Ok (min value init)
  else if negb init then Ok (min flex true)
  else g ← gt_operator value flex; Ok (if g : bool then min flex init else min value init).

Definition min_combine (value' : flexible_type) (init' : bool) (value : flexible_type) (init : bool) : result :=
  if negb init' then Ok (min value init)
  else if negb init then Ok (min value' true)
  else g ← gt_operator value value'; Ok (if g : bool then min value' init else min value init).

Definition max_add_element_simple (flex value : flexible_type) (init : bool) : result :=
  if is_null flex then Ok (max value init)
  else if negb init then Ok (max flex true)
  else l ← lt_operator value flex; Ok (if l : bool then max flex init else max value init).

Definition max_combine (value' : flexible_type) (init' : bool) (value : flexible_type) (init : bool) : result :=
  if negb init' then Ok (max value init)
  else if negb init then Ok (max value' true)
  else l ← lt_operator value value'; Ok (if l : bool then max value' init else max value init).

Definition argmin_add_element (values vec_value : list flexible_type) (init : bool) : result :=
  x ← or_throw (head values);
  if is_null x then Ok (argmin vec_value init)
  else if negb init then Ok (argmin values true)
  else
    y ← or_throw (head vec_value); g ← gt_operator y x;
    Ok (if g : bool then argmin values init else argmin vec_value init).

Definition argmin_combine (vec_value' : list flexible_type) (init' : bool)
    (vec_value : list flexible_type) (init : bool) : result :=
  if negb init' then Ok (argmin vec_value init)
  else if negb init then Ok (argmin vec_value' true)
  else
    x ← or_throw (head vec_value); y ← or_throw (head vec_value'); g ← gt_operator x y;
    Ok (if g : bool then argmin vec_value' init else argmin vec_value init).

Definition argmax_add_element (values vec_value : list flexible_type) (init : bool) : result :=
  x ← or_throw (head values);
  if is_null x then Ok (argmax vec_value init)
  else if negb init then Ok (argmax values true)
  else
    y ← or_throw (head vec_value); l ← lt_operator y x;
    Ok (if l : bool then argmax values init else argmax vec_value init).

Definition argmax_combine (vec_value' : list flexible_type) (init' : bool)
    (vec_value : list flexible_type) (init : bool) : result :=
  if negb init' then Ok (argmax vec_value init)
  else if negb init then Ok (argmax vec_value' true)
  else
    x ← or_throw (head vec_value); y ← or_throw (head vec_value'); l ← lt_operator x y;
    Ok (if l : bool then argmax vec_value' init else argmax vec_value init).

(** [emit] of both. *)
Definition argmin_emit (vec_value : list flexible_type) : outcome flexible_type :=
  match vec_value with [] => Ok FUndefined | _ => or_throw (vec_value !! 1%nat) end.

Definition count_add_element_simple (value : Z) : result := Ok (count (u64 (value + 1))).

Definition count_combine (value' value : Z) : result := Ok (count (u64 (value + value'))).

Definition non_null_count_add_element_simple (flex : flexible_type) (value : Z) : result :=
  Ok (non_null_count (if is_null flex then value else u64 (value + 1))).

Definition non_null_count_combine (value' value : Z) : result := Ok (non_null_count (u64 (value + value'))).

Definition vector_average_add_element_simple (flex value : flexible_type) (init failure : bool) (n : Z) : result :=
  if failure || is_null flex then Ok (vector_average value init failure n)
  else if negb init then Ok (vector_average flex true failure (u64 (n + 1)))
  else if negb (size flex =? size value)%nat then Ok (vector_average value init true n)
  else
    let n := u64 (n + 1) in
    d ← minus_equal_operator oob flex value; q ← divide_equal_operator oob d (FFloat (i2f n));
    value ← plus_equal_operator oob value q; Ok (vector_average value init failure n).

Definition vector_average_combine (value' : flexible_type) (init' failure' : bool) (n' : Z)
    (value : flexible_type) (init failure : bool) (n : Z) : result :=
  if failure' || failure then Ok (vector_average value init failure n)
  else if negb init then Ok (vector_average value' init' failure' n')
  else if negb init' then Ok (vector_average value init failure n)
  else if negb (size value =? size value')%nat then Ok (vector_average value init true n)
  else
    a ← multiply_equal_operator oob value (FInt (s64 n));
    b ← multiply_equal_operator oob value' (FInt (s64 n'));
    c ← plus_equal_operator oob a b;
    value ← divide_equal_operator oob c (FInt (s64 (n + n')));
    Ok (vector_average value init failure (u64 (n + n'))).

Definition average_add_element_simple (flex : flexible_type) (value n : Z) : result :=
  if equals_undefined flex then Ok (average value n)
  else
    x ← get_float_visitor atof flex;
    let n := u64 (n + 1) in Ok (average (fadd value (fdiv (fsub x value) (i2f n))) n).

Definition average_combine (value' n' value n : Z) : result :=
  if 0 <? u64 (n + n') then Ok (average (weighted_mean value n value' n') (u64 (n + n')))
  else Ok (average value n).

(** [variance]; [stdv] inherits all but [emit]. *)
Definition variance_add_element_simple (flex : flexible_type) (n mean M2 : Z) : outcome (Z * Z * Z) :=
  if equals_undefined flex then Ok (n, mean, M2)
  else
    x ← get_float_visitor atof flex;
    let n := u64 (n + 1) in
    let delta := fsub x mean in
    let mean := fadd mean (fdiv delta (i2f n)) in
    Ok (n, mean, fadd M2 (fmul delta (fsub x mean))).

Definition variance_combine (n' mean' M2' n mean M2 : Z) : Z * Z * Z :=
  if n' =? 0 then (n, mean, M2)
  else if n =? 0 then (n', mean', M2')
  else
    let delta := fsub mean' mean in
    (u64 (n + n'), weighted_mean mean n mean' n',
     fadd M2 (fadd M2' (fdiv (fmul (fmul (fmul delta delta) (i2f n')) (i2f n)) (i2f (u64 (n + n')))))).

Definition variance_emit (n M2 : Z) : Z := if n <=? 1 then 0 else fdiv M2 (i2f n).

(** [std::sqrt]. *)
Definition fsqrt (b : Z) : Z := bits_of_sf (SFsqrt prec emax (sf_of_bits b)).

Definition stdv_emit (n M2 : Z) : Z := fsqrt (variance_emit n M2).

Definition zip_dict_add_element (values : list flexible_type)
    (m_value : list (flexible_type * flexible_type)) (m_missing_value : bool) : result :=
  x ← or_throw (values !! 0%nat);
  if is_null x then Ok (zip_dict m_value true)
  else
    y ← or_throw (values !! 1%nat); m_value ← map_insert (x, y) m_value; Ok (zip_dict m_value m_missing_value).

Definition zip_dict_combine (m_value' : list (flexible_type * flexible_type)) (m_missing_value' : bool)
    (m_value : list (flexible_type * flexible_type)) (m_missing_value : bool) : result :=
  if m_missing_value || m_missing_value' then Ok (zip_dict m_value true)
  else m_value ← map_insert_all m_value' m_value; Ok (zip_dict m_value false).

Definition zip_list_add_element_simple (flex : flexible_type)
    (m_value : list flexible_type) (m_missing_value m_is_float : bool) : result :=
  Ok (if equals_undefined flex then zip_list m_value true m_is_float
      else zip_list (m_value ++ [flex]) m_missing_value m_is_float).

Definition zip_list_combine (m_value' : list flexible_type) (m_missing_value' : bool)
    (m_value : list flexible_type) (m_missing_value m_is_float : bool) : result :=
  Ok (zip_list (m_value ++ m_value') (m_missing_value || m_missing_value') m_is_float).

Definition zip_list_emit (m_value : list flexible_type) (m_is_float : bool) : outcome flexible_type :=
  if m_is_float then FVec <$> outcome_map (get_float_visitor atof) m_value else Ok (FList m_value).

Definition select_one_add_element_simple (flex m_value : flexible_type) (m_has_value : bool) : result :=
  Ok (if m_has_value then select_one m_value m_has_value else select_one flex true).

(** [count_distinct]; [distinct] inherits all but [emit]. *)
Definition count_distinct_combine (m_values' m_values : list flexible_type) : list flexible_type :=
  foldl (λ l x, set_insert x l) m_values m_values'.

Definition frequency_count_combine (m_values' m_values : list (flexible_type * Z)) : result :=
  Ok (frequency_count (foldl (λ l x, unordered_insert x l) m_values m_values')).

Definition frequency_count_emit (m_values : list (flexible_type * Z)) : flexible_type :=
  FDict (map (λ x, (x.1, FInt (s64 x.2))) m_values).

(** ** The virtual methods

    [Throw]: a class without the method, or a [dynamic_cast] to another class. *)
Definition add_element_simple (flex : flexible_type) (v : group_aggregate_value) : result :=
  match v with
  | vector_sum value failure init => vector_sum_add_element_simple flex value failure init
  | sum value => sum_add_element_simple flex value
  | min value init => min_add_element_simple flex value init
  | max value init => max_add_element_simple flex value init
  | argmin _ _ | argmax _ _ | zip_dict _ _ => Throw
  | count value => count_add_element_simple value
  | non_null_count value => non_null_count_add_element_simple flex value
  | vector_average value init failure n => vector_average_add_element_simple flex value init failure n
  | average value n => average_add_element_simple flex value n
  | variance n mean M2 => '(n, mean, M2) ← variance_add_element_simple flex n mean M2; Ok (variance n mean M2)
  | stdv n mean M2 => '(n, mean, M2) ← variance_add_element_simple flex n mean M2; Ok (stdv n mean M2)
  | zip_list m_value m_missing_value m_is_float => zip_list_add_element_simple flex m_value m_missing_value m_is_float
  | select_one m_value m_has_value => select_one_add_element_simple flex m_value m_has_value
  | count_distinct m_values => Ok (count_distinct (set_insert flex m_values))
  | distinct m_values => Ok (distinct (set_insert flex m_values))
  | frequency_count m_values => Ok (frequency_count (count_more flex 1 m_values))
  end.

Definition add_element (values : list flexible_type) (v : group_aggregate_value) : result :=
  match v with
  | argmin vec_value init => argmin_add_element values vec_value init
  | argmax vec_value init => argmax_add_element values vec_value init
  | zip_dict m_value m_missing_value => zip_dict_add_element values m_value m_missing_value
  | _ => x ← or_throw (head values); add_element_simple x v
  end.

Definition combine (other v : group_aggregate_value) : result :=
  match v, other with
  | vector_sum value failure init, vector_sum value' failure' init' =>
      vector_sum_combine value' failure' init' value failure init
  | sum value, sum value' => sum_combine value' value
  | min value init, min value' init' => min_combine value' init' value init
  | max value init, max value' init' => max_combine value' init' value init
  | argmin vec_value init, argmin vec_value' init' => argmin_combine vec_value' init' vec_value init
  | argmax vec_value init, argmax vec_value' init' => argmax_combine vec_value' init' vec_value init
  | count value, count value' => count_combine value' value
  | non_null_count value, non_null_count value' => non_null_count_combine value' value
  | vector_average value init failure n, vector_average value' init' failure' n' =>
      vector_average_combine value' init' failure' n' value init failure n
  | average value n, average value' n' => average_combine value' n' value n
  | variance n mean M2, (variance n' mean' M2' | stdv n' mean' M2') =>
      let '(n, mean, M2) := variance_combine n' mean' M2' n mean M2 in Ok (variance n mean M2)
  | stdv n mean M2, (variance n' mean' M2' | stdv n' mean' M2') =>
      let '(n, mean, M2) := variance_combine n' mean' M2' n mean M2 in Ok (stdv n mean M2)
  | zip_dict m_value m_missing_value, zip_dict m_value' m_missing_value' =>
      zip_dict_combine m_value' m_missing_value' m_value m_missing_value
  | zip_list m_value m_missing_value m_is_float, zip_list m_value' m_missing_value' _ =>
      zip_list_combine m_value' m_missing_value' m_value m_missing_value m_is_float
  | select_one _ _, _ => Ok v
  | count_distinct m_values, (count_distinct m_values' | distinct m_values') =>
      Ok (count_distinct (count_distinct_combine m_values' m_values))
  | distinct m_values, (count_distinct m_values' | distinct m_values') =>
      Ok (distinct (count_distinct_combine m_values' m_values))
  | frequency_count m_values, frequency_count m_values' => frequency_count_combine m_values' m_values
  | _, _ => Throw
  end.

Definition emit (v : group_aggregate_value) : outcome flexible_type :=
  match v with
  | vector_sum value failure _ | vector_average value _ failure _ => Ok (if failure then FUndefined else value)
  | sum value => Ok value
  | min value init | max value init => Ok (if init then value else FUndefined)
  | argmin vec_value _ | argmax vec_value _ => argmin_emit vec_value
  | count value | non_null_count value => Ok (FInt (s64 value))
  | average value n => Ok (if n =? 0 then FUndefined else FFloat value)
  | variance n _ M2 => Ok (FFloat (variance_emit n M2))
  | stdv n _ M2 => Ok (FFloat (stdv_emit n M2))
  | zip_dict m_value _ => Ok (FDict m_value)
  | zip_list m_value _ m_is_float => zip_list_emit m_value m_is_float
  | select_one m_value m_has_value => Ok (if m_has_value then m_value else FUndefined)
  | count_distinct m_values => Ok (FInt (s64 (Z.of_nat (length m_values))))
  | distinct m_values => Ok (FList m_values)
  | frequency_count m_values => Ok (frequency_count_emit m_values)
  end.

(** All the elements of a list, and [full_window_aggregate] (sframe/rolling_aggregate.hpp). *)
Fixpoint add_all (rows : list (list flexible_type)) (v : group_aggregate_value) : outcome group_aggregate_value :=
  match rows with [] => Ok v | r :: rows => v ← add_element r v; add_all rows v end.

Fixpoint add_all_simple (l : list flexible_type) (v : group_aggregate_value) : outcome group_aggregate_value :=
  match l with [] => Ok v | x :: l => v ← add_element_simple x v; add_all_simple l v end.

Definition full_window_aggregate (agg_op : group_aggregate_value) (l : list flexible_type) : outcome flexible_type :=
  v ← add_all_simple l (new_instance agg_op); emit v.
End aggregate.

End GroupAggregate.
