(* ===== verification/GroupBy.v ===== *)
(** Group-by (sframe/groupby_aggregate_impl.cpp): the partial aggregates of the groups in
    memory, the sorted chunks they are flushed to, and the merge of the chunks. *)
From stdpp Require Import sorting.
From S2P Require Import Prelude FlexType FlexOps GroupAggregate.
Import FlexType FlexOps GroupAggregate.
Local Open Scope Z_scope.
Local Open Scope sframe_scope.

Module GroupBy.

Abbreviation row := (list flexible_type).
Abbreviation group_key := (list flexible_type).

Record group_descriptor := Descriptor {
  column_numbers : list nat;
  aggregator : group_aggregate_value;
}.

(** [groupby_element]; the hash is that of the key. *)
Record groupby_element := Element {
  key : group_key;
  values : list group_aggregate_value;
}.

(** A segment: the elements in memory by the hash of their key, and the chunks written to the
    intermediate buffer, where an element is read back as it was written. *)
Record segment_information := Segment {
  elements : gmap Z (list groupby_element);
  chunks : list (list groupby_element);
}.

(** The order of the buckets. *)
Definition bucket_le (a b : Z * list groupby_element) : Prop := a.1 ≤ b.1.

#[global] Instance bucket_le_dec : RelDecision bucket_le := λ a b, Z_le_dec a.1 b.1.

Section group_by.
Context (oob : Z → Z) (atof : list Z → Z) (hash : flexible_type → Z) (hash64_combine : Z → Z → Z).
Context (group_descriptors : list group_descriptor).

(** ** Keys *)

Definition hash_key (k : group_key) : Z := foldl (λ ret x, hash64_combine ret (hash x)) 0 k.

Fixpoint flexible_type_vector_equality (a b : group_key) : bool :=
  match a, b with
  | [], [] => true
  | x :: a, y :: b =>
      bool_decide (get_type x = get_type y) && (is_undefined x || approx_equality_operator hash x y) &&
      flexible_type_vector_equality a b
  | _, _ => false
  end.

(** The loop over the two keys, the first not shorter than the second. *)
Fixpoint vector_lt_loop (a b : group_key) : outcome bool :=
  match a, b with
  | [], _ => Ok false
  | _, [] => Throw
  | x :: a, y :: b =>
      if enum_code (get_type x) <? enum_code (get_type y) then Ok true
      else if enum_code (get_type y) <? enum_code (get_type x) then Ok false
      else if is_undefined x && is_undefined y then vector_lt_loop a b
      else
        lt ← lt_operator x y;
        if lt : bool then Ok true
        else gt ← gt_operator x y; if gt : bool then Ok false else vector_lt_loop a b
  end.

Definition flexible_type_vector_lt (a b : group_key) : outcome bool :=
  if (length a <? length b)%nat then Ok true else vector_lt_loop a b.

(** [operator<] and [operator==] of elements. *)
Definition element_lt (e f : groupby_element) : outcome bool :=
  if negb (hash_key (key e) =? hash_key (key f)) then Ok (hash_key (key e) <? hash_key (key f))
  else flexible_type_vector_lt (key e) (key f).

Definition element_eq (e f : groupby_element) : bool :=
  (hash_key (key e) =? hash_key (key f)) && flexible_type_vector_equality (key e) (key f).

(** ** Elements *)

Definition new_element (k : group_key) : groupby_element :=
  Element k (map (λ d, new_instance (aggregator d)) group_descriptors).

(** What an aggregator reads of a row. *)
Definition column_value (val : row) (grouped_column_number : nat) : flexible_type :=
  default FUndefined (val !! grouped_column_number).

Definition inputs (d : group_descriptor) (val : row) : list flexible_type :=
  match column_numbers d with
  | [] => [FInt 0]
  | cs => map (column_value val) cs
  end.

(** An operator of one column, or of none, takes a value, one of several columns a vector. *)
Definition add_inputs (vals : list flexible_type) (v : group_aggregate_value) : outcome group_aggregate_value :=
  match vals with [val] => add_element_simple oob atof hash val v | _ => add_element oob atof hash vals v end.

Fixpoint add_values (val : row) (ds : list group_descriptor) (vs : list group_aggregate_value)
  : outcome (list group_aggregate_value) :=
  match ds, vs with
  | d :: ds, v :: vs =>
      v ← add_inputs (inputs d val) v; vs ← add_values val ds vs; Ok (v :: vs)
  | _, _ => Ok vs
  end.

Definition add_row (val : row) (e : groupby_element) : outcome groupby_element :=
  vs ← add_values val group_descriptors (values e); Ok (Element (key e) vs).

(** [operator+=]. *)
Fixpoint combine_values (others vs : list group_aggregate_value) : outcome (list group_aggregate_value) :=
  match vs, others with
  | v :: vs, o :: others =>
      v ← combine oob hash o v; vs ← combine_values others vs; Ok (v :: vs)
  | [], _ => Ok []
  | _, [] => Throw
  end.

Definition combine_element (other e : groupby_element) : outcome groupby_element :=
  vs ← combine_values (values other) (values e); Ok (Element (key e) vs).

(** ** Adding rows *)

(** The element with the key of the row, or a new one at the end. *)
Fixpoint add_to_elements (val : row) (k : group_key) (es : list groupby_element)
  : outcome (list groupby_element) :=
  match es with
  | [] => e ← add_row val (new_element k); Ok [e]
  | e :: es =>
      if flexible_type_vector_equality (key e) k then e ← add_row val e; Ok (e :: es)
      else es ← add_to_elements val k es; Ok (e :: es)
  end.

(** [std::sort], by insertion. *)
Fixpoint insert_sorted (e : groupby_element) (l : list groupby_element) : outcome (list groupby_element) :=
  match l with
  | [] => Ok [e]
  | f :: l =>
      lt ← element_lt e f;
      if lt : bool then Ok (e :: f :: l) else l ← insert_sorted e l; Ok (f :: l)
  end.

Fixpoint sort_elements (l : list groupby_element) : outcome (list groupby_element) :=
  match l with [] => Ok [] | e :: l => l ← sort_elements l; insert_sorted e l end.

(** The elements of a segment go to a new chunk, in order of the hash and then of the key. *)
Definition flush_segment (s : segment_information) : outcome segment_information :=
  if (base.size (elements s) =? 0)%nat then Ok s
  else
    let local_ordered_by_hash := merge_sort bucket_le (map_to_list (elements s)) in
    local_sorted ← outcome_map (λ a, sort_elements a.2) local_ordered_by_hash;
    Ok (Segment ∅ (chunks s ++ [concat local_sorted])).

Definition add_to_segment (max_buffer_size : nat) (val : row) (k : group_key) (s : segment_information)
  : outcome segment_information :=
  let hash := hash_key k in
  es ← add_to_elements val k (default [] (elements s !! hash));
  let s := Segment (<[hash := es]> (elements s)) (chunks s) in
  if (max_buffer_size <=? base.size (elements s))%nat then flush_segment s else Ok s.

(** [group_aggregate_container::add]: a row whose first [num_keys] values are its key. *)
Definition target_segment (num_segments : nat) (k : group_key) : nat :=
  Z.to_nat (hash_key k mod Z.of_nat num_segments).

Definition add (max_buffer_size num_keys : nat) (val : row) (segments : list segment_information)
  : outcome (list segment_information) :=
  let k := take num_keys val in
  let t := target_segment (length segments) k in
  s ← or_throw (segments !! t); s ← add_to_segment max_buffer_size val k s; Ok (<[t := s]> segments).

Fixpoint add_rows (max_buffer_size num_keys : nat) (rows : list row) (segments : list segment_information)
  : outcome (list segment_information) :=
  match rows with
  | [] => Ok segments
  | r :: rows =>
      segments ← add max_buffer_size num_keys r segments; add_rows max_buffer_size num_keys rows segments
  end.

(** ** Merging the chunks

    The heap holds an element of each chunk that is not exhausted, with the number of the
    chunk; its front is the least pair. *)
Abbreviation pq_value_type := (groupby_element * nat)%type.

(** [operator<] of pairs. *)
Definition pair_lt (a b : pq_value_type) : outcome bool :=
  lt ← element_lt a.1 b.1;
  if lt : bool then Ok true
  else gt ← element_lt b.1 a.1; Ok (negb gt && (a.2 <? b.2)%nat).

(** [pop_heap] and [pop_back]: the front, and the others. *)
Fixpoint pop_least (least : pq_value_type) (pq : list pq_value_type)
  : outcome (pq_value_type * list pq_value_type) :=
  match pq with
  | [] => Ok (least, [])
  | a :: pq =>
      lt ← pair_lt a least;
      let '(least, other) := if lt : bool then (a, least) else (least, a) in
      r ← pop_least least pq; Ok (r.1, other :: r.2)
  end.

Definition pop_heap (pq : list pq_value_type) : outcome (option (pq_value_type * list pq_value_type)) :=
  match pq with [] => Ok None | a :: pq => Some <$> pop_least a pq end.

(** The next element of a chunk goes to the heap. *)
Definition refill (id : nat) (st : list pq_value_type * list (list groupby_element))
  : list pq_value_type * list (list groupby_element) :=
  match st.2 !! id with
  | Some (e :: rest) => (st.1 ++ [(e, id)], <[id := rest]> st.2)
  | _ => st
  end.

(** The elements that equal [cur] at the front are combined with it. *)
Fixpoint merge_equal (fuel : nat) (cur : groupby_element) (st : list pq_value_type * list (list groupby_element))
  : option (groupby_element * (list pq_value_type * list (list groupby_element))) :=
  match fuel with
  | O => None
  | S fuel =>
      front ← outcome_option (pop_heap st.1);
      match front with
      | Some ((addcur, id), pq) =>
          if element_eq addcur cur then
            cur ← outcome_option (combine_element addcur cur); merge_equal fuel cur (refill id (pq, st.2))
          else Some (cur, st)
      | None => Some (cur, st)
      end
  end.

Definition emission (cur : groupby_element) : outcome row :=
  vs ← outcome_map (emit atof) (values cur); Ok (key cur ++ vs).

Fixpoint merge_chunks (fuel : nat) (st : list pq_value_type * list (list groupby_element)) : option (list row) :=
  match fuel with
  | O => None
  | S fuel =>
      front ← outcome_option (pop_heap st.1);
      match front with
      | Some ((cur, id), pq) =>
          '(cur, st) ← merge_equal fuel cur (refill id (pq, st.2));
          r ← outcome_option (emission cur); out ← merge_chunks fuel st; Some (r :: out)
      | None => Some []
      end
  end.

(** [group_and_write_segment]. *)
Definition group_and_write_segment (chunks : list (list groupby_element)) : option (list row) :=
  let st := foldl (λ st id, refill id st) ([], chunks) (seq 0 (length chunks)) in
  merge_chunks (S (length (concat chunks))) st.

(** [group_and_write], and the whole of a group-by: the rows are added, whatever thread adds
    them, in the order given. *)
Definition group_and_write (segments : list segment_information) : option (list row) :=
  segments ← outcome_option (outcome_map flush_segment segments);
  outs ← mapM (λ s, group_and_write_segment (chunks s)) segments; Some (concat outs).

Definition groupby_aggregate (max_buffer_size num_segments num_keys : nat) (rows : list row) : option (list row) :=
  segments ← outcome_option
    (add_rows max_buffer_size num_keys rows (replicate num_segments (Segment ∅ [])));
  group_and_write segments.
End group_by.

End GroupBy.
