(* ===== verification/GroupBySpec.v ===== *)
(** What group-by computes: the merge of sorted chunks gives each key once with all its
    elements combined in the order of the chunks; a segment holds the groups of its rows,
    however they were cut into chunks. *)
From Stdlib Require Import Sorting.Sorted.
From stdpp Require Import sorting.
From S2P Require Import Prelude FlexType FlexOps GroupAggregate GroupBy.
Import FlexType FlexOps GroupAggregate GroupBy.
Local Open Scope Z_scope.
Local Open Scope sframe_scope.

Module GroupBySpec.

(** ** Lists *)

Lemma Forall_filter_keep {A} (P Q : A → Prop) `{∀ x, Decision (Q x)} l : Forall P l → Forall P (filter Q l).
Proof. rewrite !Forall_forall. intros HP x [_ ?]%list_elem_of_filter. auto. Qed.

Lemma filter_empty {A} (P : A → Prop) `{∀ x, Decision (P x)} (l : list A) : (∀ x, x ∈ l → ¬ P x) → filter P l = [].
Proof.
  induction l as [|x l IH]; intros HP; [done|]. rewrite filter_cons, decide_False by (apply HP; left).
  apply IH. intros y ?. apply HP. by right.
Qed.

Lemma filter_all {A} (P : A → Prop) `{∀ x, Decision (P x)} (l : list A) : (∀ x, x ∈ l → P x) → filter P l = l.
Proof.
  induction l as [|x l IH]; intros HP; [done|]. rewrite filter_cons, decide_True by (apply HP; left).
  f_equal. apply IH. intros y ?. apply HP. by right.
Qed.

Lemma elem_of_concat {A} (x : A) ls : x ∈ concat ls ↔ ∃ i l, ls !! i = Some l ∧ x ∈ l.
Proof.
  induction ls as [|l ls IH]; cbn.
  - split; [by intros ?%elem_of_nil|by intros (? & ? & ? & _)].
  - rewrite elem_of_app, IH. split.
    + intros [?|(i & s & ? & ?)]; [by exists 0%nat, l|by exists (S i), s].
    + intros ([|i] & s & Hi & ?); [left; cbn in Hi; congruence|right; by exists i, s].
Qed.

(** ** Outcomes *)

Lemma outcome_option_Some {A} (o : outcome A) a : outcome_option o = Some a ↔ o = Ok a.
Proof. destruct o; cbn; split; congruence. Qed.

Lemma bind_Ok {A B} (o : outcome A) (f : A → outcome B) b :
  o ≫= f = Ok b ↔ ∃ a, o = Ok a ∧ f a = Ok b.
Proof.
  destruct o as [a| |]; cbn; split; try done.
  - by exists a.
  - by intros (? & [= <-] & ?).
  - by intros (? & ? & _).
  - by intros (? & ? & _).
Qed.

(** A loop with outcomes. *)
Fixpoint fold_outcome {A B} (f : A → B → outcome B) (l : list A) (b : B) : outcome B :=
  match l with [] => Ok b | x :: l => b ← f x b; fold_outcome f l b end.

Lemma fold_outcome_app {A B} (f : A → B → outcome B) l1 : ∀ l2 b,
  fold_outcome f (l1 ++ l2) b = (b ← fold_outcome f l1 b; fold_outcome f l2 b).
Proof. induction l1 as [|x l1 IH]; intros l2 b; [done|]. cbn. destruct (f x b); [apply IH|done..]. Qed.

Lemma outcome_map_total {A B} (f : A → outcome B) (P : A → B → Prop) l :
  Forall (λ x, ∃ y, f x = Ok y ∧ P x y) l → ∃ ys, outcome_map f l = Ok ys ∧ Forall2 P l ys.
Proof.
  induction 1 as [|x l (y & Hy & HP) _ (ys & Hys & HPs)]; cbn; [by exists []|].
  exists (y :: ys). rewrite Hy. cbn. rewrite Hys. by split; [|constructor].
Qed.

Section keys.
Context (hash : flexible_type → Z) (hash64_combine : Z → Z → Z).

(** ** Keys that can be ordered

    On the keys of a group-by the comparisons do not throw, equality is equality, and [<] is a
    strict total order. *)
Class KeyOrder (K : group_key → Prop) : Prop := {
  ko_eq a b : K a → K b → flexible_type_vector_equality hash a b = true ↔ a = b;
  ko_defined a b : K a → K b → ∃ lt, flexible_type_vector_lt a b = Ok lt;
  ko_irrefl a : K a → flexible_type_vector_lt a a = Ok false;
  ko_trans a b c : K a → K b → K c →
    flexible_type_vector_lt a b = Ok true → flexible_type_vector_lt b c = Ok true →
    flexible_type_vector_lt a c = Ok true;
  ko_total a b : K a → K b →
    flexible_type_vector_lt a b = Ok false → flexible_type_vector_lt b a = Ok false → a = b;
}.

Context (K : group_key → Prop) {HK : KeyOrder K}.

(** The order of the elements, by the hash of the key and then by the key. *)
Definition before (e f : groupby_element) : Prop := element_lt hash hash64_combine e f = Ok true.

Abbreviation H := (hash_key hash hash64_combine).

Lemma element_eq_spec e f : K (key e) → K (key f) →
  element_eq hash hash64_combine e f = true ↔ key e = key f.
Proof.
  intros He Hf. unfold element_eq. rewrite andb_true_iff, (ko_eq (K := K)), Z.eqb_eq by done.
  split; [tauto|]. by intros ->.
Qed.

Lemma element_lt_defined e f : K (key e) → K (key f) → ∃ lt, element_lt hash hash64_combine e f = Ok lt.
Proof.
  intros He Hf. unfold element_lt. destruct (negb _); [by eexists|]. by apply (ko_defined (K := K)).
Qed.

Lemma element_lt_same e f : K (key e) → key e = key f → element_lt hash hash64_combine e f = Ok false.
Proof.
  intros He Heq. unfold element_lt. rewrite <- Heq, Z.eqb_refl. cbn. by apply (ko_irrefl (K := K)).
Qed.

Lemma before_trans e f g : K (key e) → K (key f) → K (key g) → before e f → before f g → before e g.
Proof.
  unfold before, element_lt. intros He Hf Hg.
  destruct (Z.eqb_spec (H (key e)) (H (key f))); destruct (Z.eqb_spec (H (key f)) (H (key g)));
    destruct (Z.eqb_spec (H (key e)) (H (key g))); cbn; intros H1 H2.
  all: repeat match goal with h : Ok (_ <? _) = Ok true |- _ => injection h as ?%Z.ltb_lt end.
  all: try lia; try (f_equal; apply Z.ltb_lt; lia).
  by apply (ko_trans (K := K) _ (key f)).
Qed.

Lemma before_total e f : K (key e) → K (key f) → key e ≠ key f → before e f ∨ before f e.
Proof.
  unfold before, element_lt. intros He Hf Hne. rewrite (Z.eqb_sym (H (key f))).
  destruct (Z.eqb_spec (H (key e)) (H (key f))); cbn.
  - destruct (ko_defined (K := K) (key e) (key f)) as [[] Hef]; [done..|by left|].
    destruct (ko_defined (K := K) (key f) (key e)) as [[] Hfe]; [done..|by right|].
    destruct Hne. by apply (ko_total (K := K)).
  - destruct (Z.ltb_spec (H (key e)) (H (key f))); [by left|right].
    f_equal. apply Z.ltb_lt. lia.
Qed.

Lemma not_before_key e f : K (key e) → K (key f) → ¬ before e f → ¬ before f e → key e = key f.
Proof.
  intros He Hf H1 H2. destruct (element_eq hash hash64_combine e f) eqn:Heq; [by apply element_eq_spec|].
  destruct (before_total e f He Hf); [|done..].
  intros ?. rewrite <- not_true_iff_false in Heq. destruct Heq. by apply element_eq_spec.
Qed.

Lemma before_irrefl e f : K (key e) → key e = key f → ¬ before e f.
Proof. unfold before. intros He Heq. by rewrite element_lt_same. Qed.

Lemma before_asym e f : K (key e) → K (key f) → before e f → ¬ before f e.
Proof. intros He Hf H1 H2. apply (before_irrefl e e); [done..|]. by apply (before_trans e f). Qed.

Lemma element_lt_spec e f : K (key e) → K (key f) → ∃ lt,
  element_lt hash hash64_combine e f = Ok lt ∧ if lt : bool then before e f else ¬ before e f.
Proof.
  intros He Hf. destruct (element_lt_defined e f He Hf) as [[] Hlt]; eexists; (split; [done|]); [done|].
  unfold before. congruence.
Qed.

(** ** The front of the heap *)

Definition pair_before (a b : groupby_element * nat) : Prop :=
  before a.1 b.1 ∨ key a.1 = key b.1 ∧ (a.2 < b.2)%nat.

Lemma pair_lt_spec a b : K (key a.1) → K (key b.1) → ∃ lt,
  pair_lt hash hash64_combine a b = Ok lt ∧ if lt : bool then pair_before a b else ¬ pair_before a b.
Proof.
  intros Ha Hb. unfold pair_lt, pair_before.
  destruct (element_lt_spec a.1 b.1 Ha Hb) as ([] & -> & Hab); cbn [mbind outcome_bind]; [by exists true; auto|].
  destruct (element_lt_spec b.1 a.1 Hb Ha) as (gt & -> & Hba). cbn [mbind outcome_bind]. eexists. split; [done|].
  destruct gt; cbn [negb andb].
  - intros [?|[Heq _]]; [done|]. by apply (before_irrefl b.1 a.1).
  - destruct (Nat.ltb_spec a.2 b.2); [|intros [?|[_ ?]]; [done|lia]]. right. split; [|done].
    by apply not_before_key.
Qed.

Lemma pair_before_trans a b c : K (key a.1) → K (key b.1) → K (key c.1) →
  pair_before a b → pair_before b c → pair_before a c.
Proof.
  unfold pair_before. intros Ha Hb Hc [H1|[H1 ?]] [H2|[H2 ?]].
  - left. by apply (before_trans a.1 b.1).
  - left. unfold before, element_lt in *. by rewrite <- H2.
  - left. unfold before, element_lt in *. by rewrite H1.
  - right. split; [congruence|lia].
Qed.

(** The one that is not after another is not after what that one is not after. *)
Lemma pair_least_trans a b c : K (key a.1) → K (key b.1) → K (key c.1) →
  ¬ pair_before b a → ¬ pair_before c b → ¬ pair_before c a.
Proof.
  intros Ha Hb Hc Hba Hcb Hca. destruct (pair_lt_spec a b Ha Hb) as ([] & _ & Hab).
  { by apply Hcb, (pair_before_trans c a b). }
  unfold pair_before in *. assert (key a.1 = key b.1) as He by (apply not_before_key; tauto).
  destruct Hca as [Hca|[Hk Hi]].
  - apply Hcb. left. unfold before, element_lt in *. by rewrite <- He.
  - apply Hcb. right. split; [congruence|]. destruct (decide (a.2 = b.2)); [lia|].
    destruct (decide (a.2 < b.2)%nat); [tauto|]. destruct Hba. right. split; [congruence|lia].
Qed.

Abbreviation all_K pq := (Forall (λ a : groupby_element * nat, K (key a.1)) pq).

Lemma pop_least_ok pq : ∀ least, all_K (least :: pq) → ∃ m rest,
  pop_least hash hash64_combine least pq = Ok (m, rest) ∧ m :: rest ≡ₚ least :: pq ∧
  Forall (λ a, ¬ pair_before a m) (least :: pq).
Proof.
  induction pq as [|a pq IH]; intros least [Hl Hpq]%Forall_cons.
  { exists least, []. split_and!; [done..|]. constructor; [|constructor]. unfold pair_before.
    intros [?|[_ ?]]; [by apply (before_irrefl least.1 least.1)|lia]. }
  apply Forall_cons in Hpq as [Ha Hpq]. cbn [pop_least].
  destruct (pair_lt_spec a least Ha Hl) as (lt & -> & Hlt). cbn [mbind outcome_bind].
  assert (∃ c o, (if lt then (a, least) else (least, a)) = (c, o) ∧ K (key c.1) ∧ K (key o.1) ∧
    [c; o] ≡ₚ [least; a] ∧ ¬ pair_before o c) as (c & o & -> & Hc & Ho & Hperm & Hoc).
  { destruct lt; [exists a, least|exists least, a]; split_and!; try done; [by constructor|].
    intros Hla. unfold pair_before in *. destruct Hlt as [Hlt|[? ?]], Hla as [Hla|[? ?]]; try lia.
    - by apply (before_asym a.1 least.1).
    - by apply (before_irrefl a.1 least.1).
    - by apply (before_irrefl least.1 a.1). }
  destruct (IH c) as (m & rest & -> & Hm & Hmin); [by constructor|]. cbn.
  exists m, (o :: rest). split; [done|]. apply Forall_cons in Hmin as [Hcm Hmin].
  assert (K (key m.1)) as HKm.
  { assert (m ∈ c :: pq) as Hin by (rewrite <- Hm; left).
    apply elem_of_cons in Hin as [->|Hin]; [done|]. rewrite Forall_forall in Hpq. by apply Hpq. }
  split.
  - rewrite (Permutation_swap o m), Hm, (Permutation_swap c o).
    change (c :: o :: pq) with ([c; o] ++ pq). by rewrite Hperm.
  - assert (Forall (λ x, ¬ pair_before x m) [c; o]) as Hco.
    { repeat constructor; [done|]. by apply (pair_least_trans m c o). }
    rewrite Hperm in Hco. inversion_clear Hco as [|?? H1 H2]. inversion_clear H2. by repeat constructor.
Qed.

Lemma pop_heap_ok pq : all_K pq →
  (pq = [] ∧ pop_heap hash hash64_combine pq = Ok None) ∨
  ∃ m rest, pop_heap hash hash64_combine pq = Ok (Some (m, rest)) ∧ m :: rest ≡ₚ pq ∧
    Forall (λ a, ¬ pair_before a m) pq.
Proof.
  destruct pq as [|a pq]; intros Hpq; [by left|right].
  destruct (pop_least_ok pq a Hpq) as (m & rest & Hp & ? & ?). exists m, rest. cbn [pop_heap]. by rewrite Hp.
Qed.

(** ** Streams and the heap

    The elements of each chunk that are left, with the one in the heap. *)
Abbreviation state := (list (groupby_element * nat) * list (list groupby_element))%type.

Record heads (streams : list (list groupby_element)) (st : state) : Prop := {
  heads_tails : st.2 = tail <$> streams;
  heads_ids : NoDup (st.1.*2);
  heads_elem e id : (e, id) ∈ st.1 ↔ ∃ t, streams !! id = Some (e :: t);
}.

(** What is left without the front. *)
Lemma heads_pop streams st e id rest :
  heads streams st → (e, id) :: rest ≡ₚ st.1 →
  ∃ t, streams !! id = Some (e :: t) ∧ heads (<[id := t]> streams) (refill id (rest, st.2)).
Proof.
  intros [Ht Hn Hin] Hp. assert ((e, id) ∈ st.1) as [t Hid]%Hin by (rewrite <- Hp; left).
  exists t. split; [done|]. rewrite <- Hp in Hn. cbn in Hn. apply NoDup_cons in Hn as [Hfresh Hn].
  assert (∀ f j, (f, j) ∈ rest ↔ j ≠ id ∧ ∃ u, streams !! j = Some (f :: u)) as Hrest.
  { intros f j. rewrite <- Hin, <- Hp, elem_of_cons. split.
    - intros Hf. split; [|by right]. intros ->. destruct Hfresh. apply list_elem_of_fmap. by exists (f, id).
    - intros (Hj & [[= _ ->]|?]); done. }
  pose proof (lookup_lt_Some _ _ _ Hid) as Hlt.
  assert (st.2 !! id = Some t) as Hst by by rewrite Ht, list_lookup_fmap, Hid.
  unfold refill. cbn [fst snd]. rewrite Hst. destruct t as [|f t]; (split; cbn [fst snd]).
  - rewrite Ht, list_fmap_insert. cbn. by rewrite list_insert_id by by rewrite <- Ht.
  - done.
  - intros g j. rewrite Hrest. destruct (decide (j = id)) as [->|Hne].
    + rewrite list_lookup_insert_eq by done. naive_solver.
    + rewrite list_lookup_insert_ne by done. naive_solver.
  - by rewrite Ht, list_fmap_insert.
  - rewrite fmap_app. cbn. apply NoDup_app. split_and!; [done| |by apply NoDup_singleton].
    intros j Hj ->%list_elem_of_singleton. done.
  - intros g j. rewrite elem_of_app, Hrest, list_elem_of_singleton. destruct (decide (j = id)) as [->|Hne].
    + rewrite list_lookup_insert_eq by done. naive_solver.
    + rewrite list_lookup_insert_ne by done. naive_solver.
Qed.

(** The heap at the start of the merge. *)
Lemma heads_start cs : heads cs (foldl (λ st id, refill id st) ([], cs) (seq 0 (length cs))).
Proof.
  assert (∀ n, (n ≤ length cs)%nat → let st := foldl (λ st id, refill id st) ([], cs) (seq 0 n) in
    st.2 = (tail <$> take n cs) ++ drop n cs ∧ NoDup (st.1.*2) ∧
    ∀ e id, (e, id) ∈ st.1 ↔ (id < n)%nat ∧ ∃ t, cs !! id = Some (e :: t)) as Hn.
  { induction n as [|n IH]; intros Hn; cbn zeta.
    { split_and!; [by rewrite drop_0|constructor|]. intros e id. split; [by intros []%elem_of_nil|lia]. }
    rewrite seq_S, foldl_app. cbn [foldl]. destruct IH as (Ht & Hnd & Hin); [lia|].
    set (st := foldl _ _ _) in *. destruct (lookup_lt_is_Some_2 cs n) as [s Hs]; [lia|].
    rewrite (drop_S _ s) in Ht by done.
    assert (st.2 !! n = Some s) as Hst.
    { rewrite Ht, lookup_app_r; rewrite length_fmap, length_take; [|lia].
      by replace (n - n `min` length cs)%nat with 0%nat by lia. }
    assert (length (tail <$> take n cs) = n) as Hl.
    { rewrite length_fmap, length_take. lia. }
    unfold refill. cbn [plus]. rewrite Hst, (take_S_r _ _ s), fmap_app by done. destruct s as [|e t]; cbn [fst snd].
    - split_and!; [by rewrite Ht, <- app_assoc|done|]. intros e id. rewrite Hin.
      split; intros (? & t & Hid); (split; [|by exists t]); [lia|].
      destruct (decide (id = n)) as [->|]; [congruence|lia].
    - split_and!.
      + rewrite Ht, insert_app_r_alt by lia. by rewrite Hl, Nat.sub_diag, <- app_assoc.
      + rewrite fmap_app. cbn. apply NoDup_app. split_and!; [done| |by apply NoDup_singleton].
        intros j (x & -> & Hx)%list_elem_of_fmap Hj%list_elem_of_singleton. destruct x as [f i].
        apply Hin in Hx as [? _]. cbn in Hj. lia.
      + intros f id. rewrite elem_of_app, Hin, list_elem_of_singleton. split.
        * intros [(? & u & ?)|[= -> ->]]; (split; [lia|]); eauto.
        * intros (? & u & Hid). destruct (decide (id = n)) as [->|]; [right; congruence|left].
          split; [lia|eauto]. }
  destruct (Hn (length cs) ltac:(lia)) as (Ht & Hnd & Hin). rewrite firstn_all, drop_all, app_nil_r in Ht.
  split; [done|done|]. intros e id. rewrite Hin. split; [by intros [_ ?]|]. intros [t Hid].
  split; [by eapply lookup_lt_Some|by exists t].
Qed.

(** ** The least key

    [collect k]: the elements with key [k], in the order of the chunks; [without k]: the others. *)
Definition collect (k : group_key) (streams : list (list groupby_element)) : list groupby_element :=
  filter (λ e, key e = k) (concat streams).

Definition without (k : group_key) (streams : list (list groupby_element)) : list (list groupby_element) :=
  filter (λ e, key e ≠ k) <$> streams.

Definition sorted (s : list groupby_element) : Prop := Forall (λ e, K (key e)) s ∧ StronglySorted before s.

Lemma sorted_tail e s : sorted (e :: s) → sorted s.
Proof. intros [HF HS]. inversion HF; inversion HS; by split. Qed.

Lemma sorted_filter P `{∀ x, Decision (P x)} s : sorted s → sorted (filter P s).
Proof.
  intros [HF HS]. split; [by apply Forall_filter_keep|]. clear HF. induction HS as [|x s HS IH Hx]; [constructor|].
  rewrite filter_cons. case_decide; [|done]. constructor; [done|by apply Forall_filter_keep].
Qed.

Lemma sorted_insert streams id e t :
  Forall sorted streams → streams !! id = Some (e :: t) → Forall sorted (<[id := t]> streams).
Proof.
  intros Hs Hid. apply Forall_insert; [done|]. rewrite Forall_lookup in Hs. by eapply sorted_tail, Hs.
Qed.

Lemma insert_concat {A} (streams : list (list A)) id e t :
  streams !! id = Some (e :: t) → ∃ l1 l2, streams = l1 ++ (e :: t) :: l2 ∧ length l1 = id ∧
    <[id := t]> streams = l1 ++ t :: l2.
Proof.
  intros Hid. destruct (list_elem_of_split_length _ _ _ Hid) as (l1 & l2 & -> & ->). exists l1, l2.
  split_and!; [done..|]. by rewrite insert_app_r_alt, Nat.sub_diag by lia.
Qed.

Lemma without_insert streams id e t :
  streams !! id = Some (e :: t) → without (key e) (<[id := t]> streams) = without (key e) streams.
Proof.
  intros (l1 & l2 & -> & _ & ->)%insert_concat. unfold without. rewrite !fmap_app, !fmap_cons. do 2 f_equal.
  rewrite filter_cons. by case_decide.
Qed.

Lemma collect_without k k' streams :
  collect k (without k' streams) = if decide (k = k') then [] else collect k streams.
Proof.
  unfold collect, without. induction streams as [|s streams IH]; cbn; [by case_decide|].
  rewrite !filter_app. fold (without k' streams) in *. unfold without in *. rewrite IH.
  rewrite list_filter_filter. case_decide as Hk; subst.
  - rewrite app_nil_r. apply filter_empty. naive_solver.
  - f_equal. apply list_filter_iff. naive_solver.
Qed.

Lemma without_length k streams : (length (concat (without k streams)) ≤ length (concat streams))%nat.
Proof.
  unfold without. induction streams as [|s streams IH]; cbn; [lia|]. rewrite !length_app.
  pose proof (length_filter (λ e, key e ≠ k) s). lia.
Qed.

Lemma without_elem x k streams : x ∈ concat (without k streams) ↔ x ∈ concat streams ∧ key x ≠ k.
Proof.
  unfold without. induction streams as [|s streams IH]; cbn; [set_solver|].
  rewrite !elem_of_app, list_elem_of_filter. unfold without in IH. rewrite IH. tauto.
Qed.

(** The front of the heap is the least element, and the first of its key. *)
Record front (streams : list (list groupby_element)) (e : groupby_element) (id : nat) : Prop := {
  front_least x : x ∈ concat streams → ¬ before x e;
  front_first t : streams !! id = Some (e :: t) →
    collect (key e) streams = e :: collect (key e) (<[id := t]> streams);
}.

Lemma before_key e f g : key e = key f → before g e ↔ before g f.
Proof. unfold before, element_lt. by intros ->. Qed.

Lemma front_ok streams st e id : heads streams st → Forall sorted streams →
  (e, id) ∈ st.1 → Forall (λ a, ¬ pair_before a (e, id)) st.1 → front streams e id.
Proof.
  intros [_ _ Hin] Hs [t Hid]%Hin Hmin. rewrite Forall_forall in Hmin.
  assert (K (key e)) as HKe.
  { rewrite Forall_lookup in Hs. destruct (Hs _ _ Hid) as [HF _]. by inversion HF. }
  assert (∀ j s x, streams !! j = Some s → x ∈ s → K (key x) ∧ ∃ f, (f, j) ∈ st.1 ∧ K (key f) ∧ (x = f ∨ before f x)) as Hx.
  { intros j s x Hj Hxs. rewrite Forall_lookup in Hs. destruct (Hs _ _ Hj) as [HF HS].
    destruct s as [|f s]; [by apply elem_of_nil in Hxs|]. split; [rewrite Forall_forall in HF; by apply HF|].
    exists f. inversion HF; inversion HS as [|?? _ Hfs]; subst. split_and!; [by apply Hin; exists s|done|].
    apply elem_of_cons in Hxs as [->|Hxs]; [by left|right]. rewrite Forall_forall in Hfs. by apply Hfs. }
  split.
  - intros x (j & s & Hj & Hxs)%elem_of_concat Hb. destruct (Hx j s x Hj Hxs) as (HKx & f & Hf & HKf & Hfx).
    apply (Hmin _ Hf). left. cbn. destruct Hfx as [->|Hfx]; [done|]. by apply (before_trans f x e).
  - intros u Hu. rewrite Hid in Hu. injection Hu as <-.
    destruct (insert_concat _ _ _ _ Hid) as (l1 & l2 & Heq & Hl & ->). rewrite Heq. unfold collect.
    rewrite !concat_app, !filter_app. cbn [concat app]. rewrite filter_cons, decide_True by done.
    assert (filter (λ x, key x = key e) (concat l1) = []) as ->; [|done].
    apply filter_empty. intros x (j & s & Hj & Hxs)%elem_of_concat Hk. pose proof (lookup_lt_Some _ _ _ Hj).
    assert (streams !! j = Some s) as Hj' by by rewrite Heq, lookup_app_l.
    destruct (Hx j s x Hj' Hxs) as (HKx & f & Hf & HKf & Hfx). apply (Hmin _ Hf). unfold pair_before. cbn.
    destruct Hfx as [->|Hfx]; [right; split; [done|lia]|left]. by apply (before_key x e).
Qed.
Lemma heads_all_K streams st : heads streams st → Forall sorted streams → all_K st.1.
Proof.
  intros [_ _ Hin] Hs. apply Forall_forall. intros [e id] [t Hid]%Hin.
  rewrite Forall_lookup in Hs. destruct (Hs _ _ Hid) as [HF _]. by inversion HF.
Qed.

(** A step of the merge: the heap is exhausted with the chunks, or it gives a front. *)
Lemma heads_front streams st : heads streams st → Forall sorted streams →
  (pop_heap hash hash64_combine st.1 = Ok None ∧ concat streams = []) ∨
  ∃ e id rest t, pop_heap hash hash64_combine st.1 = Ok (Some ((e, id), rest)) ∧ K (key e) ∧
    front streams e id ∧ streams !! id = Some (e :: t) ∧
    heads (<[id := t]> streams) (refill id (rest, st.2)) ∧ Forall sorted (<[id := t]> streams).
Proof.
  intros Hh Hs. pose proof (heads_all_K _ _ Hh Hs) as HK1.
  destruct (pop_heap_ok _ HK1) as [[Hnil Hpop]|([e id] & rest & Hpop & Hperm & Hmin)].
  - left. split; [done|]. destruct (concat streams) as [|x l] eqn:Hx; [done|exfalso].
    assert (x ∈ concat streams) as (j & s & Hj & Hxs)%elem_of_concat by (rewrite Hx; left).
    destruct s as [|e s]; [by apply elem_of_nil in Hxs|].
    assert ((e, j) ∈ st.1) as He by (apply (heads_elem _ _ Hh); by exists s).
    rewrite Hnil in He. by apply elem_of_nil in He.
  - right. destruct (heads_pop _ _ _ _ _ Hh Hperm) as (t & Hid & Hh'). exists e, id, rest, t.
    assert ((e, id) ∈ st.1) as Hin by (rewrite <- Hperm; left).
    split_and!; [done| |by eapply front_ok|done|done|by eapply sorted_insert].
    rewrite Forall_forall in HK1. by apply (HK1 (e, id)).
Qed.

(** ** The groups of a merge *)

Lemma outcome_option_bind {A B} (o : outcome A) (f : A → outcome B) :
  outcome_option (o ≫= f) = outcome_option o ≫= λ a, outcome_option (f a).
Proof. by destruct o. Qed.

Lemma collect_none k streams : (∀ x, x ∈ concat streams → key x ≠ k) → collect k streams = [].
Proof. intros Hx. by apply filter_empty. Qed.

Lemma without_none k streams : (∀ x, x ∈ concat streams → key x ≠ k) → without k streams = streams.
Proof.
  unfold without. induction streams as [|s streams IH]; intros Hx; [done|]. cbn. f_equal.
  - apply filter_all. intros x ?. apply Hx. cbn. rewrite elem_of_app. by left.
  - apply IH. intros x ?. apply Hx. cbn. rewrite elem_of_app. by right.
Qed.

Lemma without_sorted k streams : Forall sorted streams → Forall sorted (without k streams).
Proof. intros Hs. apply Forall_fmap. eapply Forall_impl; [done|]. intros s. apply sorted_filter. Qed.
Section merge.
Context (oob : Z → Z) (atof : list Z → Z).

Abbreviation combine_all := (fold_outcome (combine_element oob hash)).

Lemma combine_element_key other e e' : combine_element oob hash other e = Ok e' → key e' = key e.
Proof. unfold combine_element. by intros (vs & _ & [= <-])%bind_Ok. Qed.

Lemma combine_all_key l : ∀ e e', combine_all l e = Ok e' → key e' = key e.
Proof.
  induction l as [|x l IH]; intros e e'; cbn; [by intros [= <-]|].
  intros (f & Hf & He')%bind_Ok. rewrite (IH _ _ He'). by apply (combine_element_key x).
Qed.

(** The inner loop takes from the chunks the elements with the current key, and only these. *)
Lemma merge_equal_ok fuel : ∀ cur streams st,
  K (key cur) → heads streams st → Forall sorted streams → (length (concat streams) < fuel)%nat →
  (∀ x, x ∈ concat streams → ¬ before x cur) → ∃ st',
    merge_equal oob hash hash64_combine fuel cur st =
      (r ← outcome_option (combine_all (collect (key cur) streams) cur); Some (r, st')) ∧
    heads (without (key cur) streams) st'.
Proof.
  induction fuel as [|fuel IH]; intros cur streams st HK1 Hh Hs Hf Hleast; [lia|]. cbn [merge_equal].
  destruct (heads_front _ _ Hh Hs) as [[-> Hnil]|(e & id & rest & t & -> & HKe & [Hmin Hfirst] & Hid & Hh' & Hs')];
    cbn [outcome_option mbind option_bind].
  { exists st. rewrite without_none, collect_none by (rewrite Hnil; by intros ? ?%elem_of_nil). by split. }
  assert (e ∈ concat streams) as Hin by (apply elem_of_concat; exists id, (e :: t); split; [done|left]).
  destruct (element_eq hash hash64_combine e cur) eqn:Heq.
  - apply element_eq_spec in Heq; [|done..]. rewrite <- Heq, (Hfirst t Hid). cbn [fold_outcome].
    rewrite outcome_option_bind. rewrite <- (without_insert streams id e t Hid).
    destruct (combine_element oob hash e cur) as [cur'| |] eqn:Hc; cbn [outcome_option mbind option_bind].
    + apply combine_element_key in Hc as Hk. rewrite Heq, <- Hk.
      apply IH; [congruence|done..| |].
      * destruct (insert_concat _ _ _ _ Hid) as (l1 & l2 & -> & _ & Hi). rewrite Hi.
        rewrite concat_app, length_app in Hf. rewrite concat_app, length_app. cbn in *.
        rewrite length_app in *. cbn in *. lia.
      * intros x (j & s & Hj & Hxs)%elem_of_concat Hb. apply (Hleast x); [|by apply (before_key cur' cur)].
        apply elem_of_concat. destruct (decide (j = id)) as [->|Hne].
        -- rewrite list_lookup_insert_eq in Hj by (by eapply lookup_lt_Some). injection Hj as <-.
           exists id, (e :: t). split; [done|by right].
        -- rewrite list_lookup_insert_ne in Hj by done. by exists j, s.
    + by eexists; split; [|apply heads_start].
    + by eexists; split; [|apply heads_start].
  - assert (∀ x, x ∈ concat streams → key x ≠ key cur) as Hnone.
    { intros x Hx Hk. rewrite <- not_true_iff_false in Heq. apply Heq, element_eq_spec; [done..|].
      apply not_before_key; [done..|by apply Hleast|]. intros Hb. apply (Hmin x Hx).
      unfold before, element_lt in *. by rewrite Hk. }
    exists st. rewrite without_none, collect_none by done. by split.
Qed.
(** A group: its first element with the others combined, and emitted. *)
Definition merged (k : group_key) (streams : list (list groupby_element)) : option row :=
  match collect k streams with
  | [] => None
  | e :: l => r ← outcome_option (combine_all l e); outcome_option (emission atof r)
  end.

Lemma insert_length (streams : list (list groupby_element)) id e t : streams !! id = Some (e :: t) →
  length (concat streams) = S (length (concat (<[id := t]> streams))).
Proof.
  intros (l1 & l2 & -> & _ & ->)%insert_concat. rewrite !concat_app, !length_app. cbn. rewrite !length_app. lia.
Qed.

Lemma insert_elem (streams : list (list groupby_element)) id e t x : streams !! id = Some (e :: t) →
  x ∈ concat (<[id := t]> streams) → x ∈ concat streams.
Proof. intros (l1 & l2 & -> & _ & ->)%insert_concat. rewrite !concat_app. cbn. rewrite !elem_of_app, elem_of_cons, elem_of_app. tauto. Qed.

(** The merge gives each key of the chunks once. *)
Lemma merge_chunks_ok fuel : ∀ streams st,
  heads streams st → Forall sorted streams → (length (concat streams) < fuel)%nat →
  ∃ ks, merge_chunks oob atof hash hash64_combine fuel st = mapM (λ k, merged k streams) ks ∧
    NoDup ks ∧ ∀ k, k ∈ ks ↔ ∃ x, x ∈ concat streams ∧ key x = k.
Proof.
  induction fuel as [|fuel IH]; intros streams st Hh Hs Hf; [lia|]. cbn [merge_chunks].
  destruct (heads_front _ _ Hh Hs) as [[-> Hnil]|(e & id & rest & t & -> & HKe & [Hmin Hfirst] & Hid & Hh' & Hs')];
    cbn [outcome_option mbind option_bind].
  { exists []. split_and!; [done|constructor|]. rewrite Hnil. intros k. rewrite elem_of_nil. setoid_rewrite elem_of_nil. naive_solver. }
  pose proof (insert_length _ _ _ _ Hid) as Hlen.
  destruct (merge_equal_ok (fuel) e (<[id := t]> streams) (refill id (rest, st.2))) as (st' & -> & Hh2);
    [done..|lia|by intros x Hx%(insert_elem _ _ e); [apply Hmin|]|].
  rewrite (without_insert _ _ _ _ Hid) in Hh2.
  destruct (IH _ _ Hh2) as (ks & Hout & Hn & Hks); [by apply without_sorted| |].
  { rewrite <- (without_insert _ _ _ _ Hid). pose proof (without_length (key e) (<[id := t]> streams)). lia. }
  assert (∀ k, k ∈ ks ↔ k ≠ key e ∧ ∃ x, x ∈ concat streams ∧ key x = k) as Hks'.
  { intros k. rewrite Hks. setoid_rewrite without_elem. naive_solver. }
  exists (key e :: ks). split_and!.
  - cbn [mapM]. assert (merged (key e) streams = r ← outcome_option
      (combine_all (collect (key e) (<[id := t]> streams)) e); outcome_option (emission atof r)) as ->.
    { unfold merged. by rewrite (Hfirst _ Hid). }
    destruct (outcome_option (combine_all _ e)); cbn [mbind option_bind]; [|done].
    destruct (outcome_option (emission _ _)); cbn [mbind option_bind]; [|done]. rewrite Hout.
    rewrite (Forall_mapM_ext _ (λ k, merged k streams)); [done|].
    apply Forall_forall. intros k [Hk _]%Hks'. unfold merged. by rewrite collect_without, decide_False.
  - constructor; [rewrite Hks'; naive_solver|done].
  - intros k. rewrite elem_of_cons, Hks'. destruct (decide (k = key e)) as [->|]; [|naive_solver].
    split; [|by left]. intros _. exists e. split; [|done]. apply elem_of_concat.
    exists id, (e :: t). split; [done|left].
Qed.
End merge.
End keys.

End GroupBySpec.
