(* ===== verification/GroupBySegment.v ===== *)
(** A segment of a group-by holds the groups of its rows: the elements in memory those of the
    rows since the last flush, each chunk those of a batch of rows, in order. *)
From Stdlib Require Import Sorting.Sorted.
From stdpp Require Import sorting.
From S2P Require Import Prelude FlexType FlexOps GroupAggregate GroupBy GroupBySpec.
Import FlexType FlexOps GroupAggregate GroupBy GroupBySpec.
Local Open Scope Z_scope.
Local Open Scope sframe_scope.

Module GroupBySegment.

Lemma Forall2_impl_in {A B} (P Q : A → B → Prop) l k :
  Forall2 P l k → (∀ x y, x ∈ l → P x y → Q x y) → Forall2 Q l k.
Proof.
  induction 1 as [|x y l k Hxy _ IH]; intros HQ; constructor; [apply HQ; [left|done]|].
  apply IH. intros ????. apply HQ; [by right|done].
Qed.

Section segment.
Context (oob : Z → Z) (atof : list Z → Z) (hash : flexible_type → Z) (hash64_combine : Z → Z → Z).
Context (ds : list group_descriptor) (num_keys : nat).

(** The rows of a key, and the partial result of a group: its rows added to a new element. *)
Definition with_key (k : group_key) (rs : list row) : list row := filter (λ r, take num_keys r = k) rs.

Definition partial (k : group_key) (rs : list row) : outcome groupby_element :=
  fold_outcome (add_row oob atof hash ds) rs (new_element ds k).

(** The result of a group, by the definition: its rows added in order and the totals emitted. *)
Definition group_result (k : group_key) (rs : list row) : outcome row :=
  e ← partial k rs; emission atof e.

(** What the aggregators promise of valid rows: partial results exist, the combination of two
    of them is the partial result of all their rows, and they can be emitted. *)
Class GroupLaws (K : group_key → Prop) (valid : row → Prop) : Prop := {
  gl_key r : valid r → K (take num_keys r);
  gl_total k rs : Forall valid rs → ∃ e, partial k rs = Ok e;
  gl_combine k l1 l2 e1 e2 : Forall valid l1 → Forall valid l2 → l1 ≠ [] → l2 ≠ [] →
    partial k l1 = Ok e1 → partial k l2 = Ok e2 →
    combine_element oob hash e2 e1 = partial k (l1 ++ l2);
  gl_emit k rs e : Forall valid rs → rs ≠ [] → partial k rs = Ok e → ∃ r, emission atof e = Ok r;
}.

Context (K : group_key → Prop) (valid : row → Prop) {HK : KeyOrder hash K} {HL : GroupLaws K valid}.

Abbreviation before := (before hash hash64_combine).
Abbreviation sorted := (sorted hash hash64_combine K).
Abbreviation H := (hash_key hash hash64_combine).

(** ** The groups of a list of rows *)

Definition group_of (B : list row) (e : groupby_element) : Prop :=
  with_key (key e) B ≠ [] ∧ partial (key e) (with_key (key e) B) = Ok e.

Lemma with_key_app k rs rs' : with_key k (rs ++ rs') = with_key k rs ++ with_key k rs'.
Proof. apply filter_app. Qed.

Lemma with_key_valid k rs : Forall valid rs → Forall valid (with_key k rs).
Proof. apply Forall_filter_keep. Qed.

Lemma with_key_in k rs : with_key k rs ≠ [] ↔ k ∈ (take num_keys <$> rs).
Proof.
  unfold with_key. induction rs as [|r rs IH].
  - split; [done|]. by intros ?%elem_of_nil.
  - rewrite filter_cons, fmap_cons, elem_of_cons, <- IH. case_decide; [|naive_solver]. split; [by left|done].
Qed.

Lemma group_key_K B e : Forall valid B → group_of B e → K (key e).
Proof.
  intros HB [Hk _]. apply with_key_in, list_elem_of_fmap in Hk as (r & -> & Hr).
  rewrite Forall_forall in HB. by apply gl_key, HB.
Qed.

Lemma add_row_key val e e' : add_row oob atof hash ds val e = Ok e' → key e' = key e.
Proof. unfold add_row. by intros (vs & _ & [= <-])%bind_Ok. Qed.

Lemma partial_key k rs e : partial k rs = Ok e → key e = k.
Proof.
  unfold partial. generalize (eq_refl : key (new_element ds k) = k). generalize (new_element ds k).
  induction rs as [|r rs IH]; intros f Hf; cbn; [by intros [= <-]|].
  intros (g & Hg & He)%bind_Ok. apply (IH g); [|done]. by rewrite (add_row_key _ _ _ Hg).
Qed.

Lemma partial_snoc k rs r e : partial k rs = Ok e → partial k (rs ++ [r]) = add_row oob atof hash ds r e.
Proof.
  unfold partial. rewrite fold_outcome_app. intros ->. cbn. by destruct (add_row _ _ _ _ _ _).
Qed.

(** A row changes the group of its key only. *)
Lemma group_of_snoc B r e : group_of (B ++ [r]) e ↔
  if decide (key e = take num_keys r) then partial (key e) (with_key (key e) B ++ [r]) = Ok e else group_of B e.
Proof.
  unfold group_of. rewrite with_key_app. unfold with_key at 2 4. rewrite filter_cons, filter_nil.
  destruct (decide (key e = take num_keys r)) as [Hk|Hk].
  - rewrite decide_True by done. split; [tauto|]. split; [|done]. by destruct (with_key _ _).
  - rewrite decide_False by done. by rewrite app_nil_r.
Qed.

(** ** Buckets *)

Record bucket (h : Z) (B : list row) (es : list groupby_element) : Prop := {
  bucket_keys : NoDup (key <$> es);
  bucket_elem e : e ∈ es ↔ H (key e) = h ∧ group_of B e;
}.

Lemma add_to_elements_ok val k cur e' : ∀ es,
  K k → Forall (λ e, K (key e)) es → NoDup (key <$> es) →
  (cur ∈ es ∧ key cur = k ∨ cur = new_element ds k ∧ k ∉ (key <$> es)) →
  add_row oob atof hash ds val cur = Ok e' → ∃ es',
    add_to_elements oob atof hash ds val k es = Ok es' ∧
    (key <$> es' = key <$> es ∨ k ∉ (key <$> es) ∧ key <$> es' = (key <$> es) ++ [k]) ∧
    ∀ e, e ∈ es' ↔ if decide (key e = k) then e = e' else e ∈ es.
Proof.
  intros es HKk HF Hn Hcur He'. pose proof (add_row_key _ _ _ He') as Hk'.
  assert (key cur = k) as Hck by (by destruct Hcur as [[_ ?]|[-> _]]). rewrite Hck in Hk'.
  induction es as [|f es IH]; cbn [add_to_elements].
  - destruct Hcur as [[?%elem_of_nil _]|[-> _]]; [done|]. rewrite He'. exists [e']. split; [done|]. split.
    + right. split; [by intros ?%elem_of_nil|]. cbn. by rewrite Hk'.
    + intros e. rewrite list_elem_of_singleton. case_decide; [done|]. rewrite elem_of_nil. naive_solver.
  - apply Forall_cons in HF as [HKf HF]. cbn in Hn. apply NoDup_cons in Hn as [Hf Hn].
    destruct (flexible_type_vector_equality hash (key f) k) eqn:Heq.
    + apply (ko_eq hash) in Heq; [|done..]. assert (cur = f) as ->.
      { destruct Hcur as [[[->|Hin]%elem_of_cons _]|[_ []]]; [done| |cbn; rewrite Heq; left].
        destruct Hf. rewrite Heq, <- Hck. by apply list_elem_of_fmap_2. }
      rewrite He'. exists (e' :: es). split; [done|]. split; [left; cbn; congruence|].
      intros e. case_decide as Hek; rewrite !elem_of_cons;
        [|split; (intros [->|?]; [congruence|by right])]. split; [|by left].
      intros [->|Hin]; [done|]. destruct Hf. rewrite Heq, <- Hek. by apply list_elem_of_fmap_2.
    + assert (key f ≠ k) as Hfk.
      { intros Hfk. apply (ko_eq hash) in Hfk; [congruence|done..]. }
      destruct IH as (es' & -> & Hkeys & Hes); [done..| |].
      { destruct Hcur as [[[->|?]%elem_of_cons ?]|[-> Hk]]; [done|by left|right]. split; [done|].
        intros ?. apply Hk. cbn. by right. }
      exists (f :: es'). split; [done|]. split.
      * destruct Hkeys as [Hkeys|[? Hkeys]]; [left; cbn; congruence|right]. cbn. rewrite Hkeys.
        split; [|done]. rewrite elem_of_cons. naive_solver.
      * intros e. rewrite elem_of_cons, Hes. case_decide; [|by rewrite elem_of_cons]. split; [|by right].
        intros [->|?]; congruence.
Qed.
Lemma bucket_K h B es : Forall valid B → bucket h B es → Forall (λ e, K (key e)) es.
Proof. intros HB [_ Hes]. apply Forall_forall. intros e [_ ?]%Hes. by eapply group_key_K. Qed.

Lemma bucket_other h B es r : H (take num_keys r) ≠ h → bucket h B es → bucket h (B ++ [r]) es.
Proof.
  intros Hh [Hn Hes]. split; [done|]. intros e. rewrite Hes, group_of_snoc. case_decide as Hk; [|done].
  split; intros [He _]; congruence.
Qed.

(** The element that a row is added to is the partial result of the rows before it. *)
Lemma bucket_current B es k cur : bucket (H k) B es → partial k (with_key k B) = Ok cur →
  cur ∈ es ∧ key cur = k ∨ cur = new_element ds k ∧ k ∉ (key <$> es).
Proof.
  intros [_ Hes] Hcur. pose proof (partial_key _ _ _ Hcur) as Hk.
  destruct (decide (with_key k B = [])) as [Hnil|Hne].
  - right. rewrite Hnil in Hcur. injection Hcur as <-. split; [done|].
    intros (e & -> & He)%list_elem_of_fmap. apply Hes in He as [_ [Hne _]]. by apply Hne.
  - left. split; [|done]. apply Hes. rewrite <- Hk. split; [done|]. split; by rewrite Hk.
Qed.

Lemma bucket_add B es r : Forall valid (B ++ [r]) → bucket (H (take num_keys r)) B es → ∃ es',
  add_to_elements oob atof hash ds r (take num_keys r) es = Ok es' ∧ bucket (H (take num_keys r)) (B ++ [r]) es'.
Proof.
  intros HV Hb. set (k := take num_keys r) in *. apply Forall_app in HV as HB. destruct HB as [HB Hr].
  destruct (gl_total k (with_key k B)) as [cur Hcur]; [by apply with_key_valid|].
  destruct (gl_total k (with_key k B ++ [r])) as [e' He'].
  { apply Forall_app. split; [by apply with_key_valid|done]. }
  pose proof He' as Hadd. rewrite (partial_snoc _ _ _ _ Hcur) in Hadd.
  destruct (add_to_elements_ok r k cur e' es) as (es' & Hok & Hkeys & Hes); try done.
  { inversion Hr. by apply gl_key. }
  { by apply (bucket_K (H k) B). }
  { apply Hb. }
  { by apply (bucket_current B). }
  exists es'. split; [done|]. split.
  - destruct Hkeys as [->|[Hk ->]]; [apply Hb|]. apply NoDup_app. split_and!; [apply Hb| |apply NoDup_singleton].
    by intros x Hx ->%list_elem_of_singleton.
  - intros e. rewrite Hes, group_of_snoc. fold k. case_decide as Hk; [|apply Hb].
    rewrite Hk, He'. split; [by intros ->|by intros [_ [= ->]]].
Qed.

(** ** The elements in memory *)

Definition in_memory (m : gmap Z (list groupby_element)) (B : list row) : Prop :=
  ∀ h, bucket h B (default [] (m !! h)).

Lemma in_memory_empty : in_memory ∅ [].
Proof. intros h. rewrite lookup_empty. split; [constructor|]. intros e. split; [by intros ?%elem_of_nil|by intros [_ [[] _]]]. Qed.

Lemma in_memory_add m B r : Forall valid (B ++ [r]) → in_memory m B → ∃ es',
  add_to_elements oob atof hash ds r (take num_keys r) (default [] (m !! H (take num_keys r))) = Ok es' ∧
  in_memory (<[H (take num_keys r) := es']> m) (B ++ [r]).
Proof.
  intros HV Hm. destruct (bucket_add B _ r HV (Hm _)) as (es' & Hok & Hb). exists es'. split; [done|].
  intros h. destruct (decide (h = H (take num_keys r))) as [->|Hne].
  - by rewrite lookup_insert_eq.
  - rewrite lookup_insert_ne by done. by apply bucket_other.
Qed.
(** ** Sorting a segment *)

Lemma insert_sorted_ok e l : K (key e) → key e ∉ (key <$> l) → sorted l → ∃ l',
  insert_sorted hash hash64_combine e l = Ok l' ∧ l' ≡ₚ e :: l ∧ sorted l'.
Proof.
  intros He. induction l as [|f l IH]; intros Hn [HF HS]; cbn [insert_sorted].
  { exists [e]. split_and!; [done..|]. split; repeat constructor. done. }
  inversion HF as [|?? Hf HF']; inversion HS as [|?? HS' Hfl]; subst. rewrite fmap_cons, elem_of_cons in Hn.
  destruct (element_lt_spec hash hash64_combine K e f He Hf) as ([] & -> & Hlt); cbn [mbind outcome_bind].
  - exists (e :: f :: l). split_and!; [done..|]. split; [by constructor|]. constructor; [done|].
    constructor; [done|]. rewrite Forall_forall in *. intros g Hg. eapply (before_trans _ _ K e f g); auto.
  - destruct IH as (l' & -> & Hp & [HF2 HS2]); [tauto|by split|]. exists (f :: l'). split; [done|]. split.
    { rewrite Hp. apply Permutation_swap. }
    split; [by constructor|]. constructor; [done|]. rewrite Hp. constructor; [|done].
    destruct (before_total hash hash64_combine K e f He Hf); naive_solver.
Qed.

Lemma sort_elements_ok l : Forall (λ e, K (key e)) l → NoDup (key <$> l) → ∃ l',
  sort_elements hash hash64_combine l = Ok l' ∧ l' ≡ₚ l ∧ sorted l'.
Proof.
  induction l as [|e l IH]; intros HF Hn; cbn [sort_elements].
  { exists []. split_and!; [done..|]. split; constructor. }
  inversion HF; subst. rewrite fmap_cons in Hn. apply NoDup_cons in Hn as [He Hn].
  destruct IH as (l1 & -> & Hp1 & Hs1); [done..|]. cbn [mbind outcome_bind].
  destruct (insert_sorted_ok e l1) as (l2 & -> & Hp2 & Hs2); [done| |done|].
  { by rewrite Hp1. }
  exists l2. split_and!; [done| |done]. by rewrite Hp2, Hp1.
Qed.

(** Buckets in order of their hash make a sorted chunk. *)
Lemma concat_sorted (bs : list (Z * list groupby_element)) ls :
  Forall2 (λ b l, sorted l ∧ Forall (λ e, H (key e) = b.1) l) bs ls →
  StronglySorted (λ a b, a.1 < b.1) bs → sorted (concat ls).
Proof.
  intros HF HS. revert ls HF. induction HS as [|b bs HS IH Hb]; intros ls HF; inversion HF as [|? l ? ls' [Hl Hh] HF']; subst.
  { split; constructor. }
  destruct (IH _ HF') as [HF2 HS2], Hl as [HF1 HS1]. cbn. split; [by apply Forall_app|].
  apply StronglySorted_app_2; [|done..]. intros e f He (j & l2 & Hj & Hf)%elem_of_concat.
  destruct (Forall2_lookup_r _ _ _ _ _ HF' Hj) as (b2 & Hb2 & _ & Hh2). rewrite Forall_forall in Hh, Hh2.
  rewrite Forall_lookup in Hb. specialize (Hb _ _ Hb2). specialize (Hh _ He). specialize (Hh2 _ Hf).
  unfold GroupBySpec.before, element_lt. rewrite Hh, Hh2.
  destruct (Z.eqb_spec b.1 b2.1); [lia|]. cbn. f_equal. apply Z.ltb_lt. lia.
Qed.
(** ** Flushing *)

Definition chunk_of (B : list row) (c : list groupby_element) : Prop := sorted c ∧ ∀ e, e ∈ c ↔ group_of B e.

Lemma ordered_by_hash (m : gmap Z (list groupby_element)) :
  StronglySorted (λ a b, a.1 < b.1) (merge_sort bucket_le (map_to_list m)).
Proof.
  pose proof (merge_sort_Permutation bucket_le (map_to_list m)) as Hp.
  assert (NoDup ((merge_sort bucket_le (map_to_list m)).*1)) as Hn by (rewrite Hp; apply NoDup_fst_map_to_list).
  assert (StronglySorted bucket_le (merge_sort bucket_le (map_to_list m))) as HS.
  { apply StronglySorted_merge_sort; unfold bucket_le; [intros ????; lia|intros ??; lia]. }
  clear Hp. induction HS as [|a l HS IH Ha]; [constructor|]. rewrite fmap_cons in Hn.
  apply NoDup_cons in Hn as [Hfresh Hn]. constructor; [by apply IH|]. rewrite Forall_forall in *.
  intros b Hb. specialize (Ha b Hb). unfold bucket_le in Ha. assert (a.1 ≠ b.1); [|lia].
  intros Heq. apply Hfresh. rewrite Heq. by apply list_elem_of_fmap_2.
Qed.

Lemma in_memory_elem m B e : in_memory m B →
  group_of B e ↔ ∃ h es, m !! h = Some es ∧ e ∈ es.
Proof.
  intros Hm. split.
  - intros He. destruct (Hm (H (key e))) as [_ Hes]. destruct (Hes e) as [_ Hin].
    specialize (Hin (conj eq_refl He)). destruct (m !! H (key e)) as [es|] eqn:Hl; cbn in Hin.
    + by exists (H (key e)), es.
    + by apply elem_of_nil in Hin.
  - intros (h & es & Hl & He). destruct (Hm h) as [_ Hes]. rewrite Hl in Hes. by apply Hes in He as [_ ?].
Qed.

Lemma sort_buckets_ok m B : Forall valid B → in_memory m B → ∃ ls,
  outcome_map (λ a, sort_elements hash hash64_combine a.2) (merge_sort bucket_le (map_to_list m)) = Ok ls ∧
  chunk_of B (concat ls).
Proof.
  intros HV Hm. set (bs := merge_sort _ _).
  assert (∀ b, b ∈ bs ↔ m !! b.1 = Some b.2) as Hbs.
  { intros [h es]. unfold bs. by rewrite merge_sort_Permutation, elem_of_map_to_list. }
  destruct (outcome_map_total (λ a, sort_elements hash hash64_combine a.2)
    (λ b l, l ≡ₚ b.2 ∧ sorted l ∧ Forall (λ e, H (key e) = b.1) l) bs) as (ls & -> & HF).
  { apply Forall_forall. intros b Hb%Hbs. pose proof (Hm b.1) as Hbk. rewrite Hb in Hbk. cbn in Hbk.
    destruct (sort_elements_ok b.2) as (l & -> & Hp & Hs); [by apply (bucket_K b.1 B)|apply Hbk|].
    exists l. split_and!; [done..|]. rewrite Hp. apply Forall_forall. intros e He. by apply Hbk in He as [? _]. }
  exists ls. split; [done|]. split.
  - apply (concat_sorted bs); [|apply ordered_by_hash]. eapply Forall2_impl; [done|]. naive_solver.
  - intros e. rewrite elem_of_concat, (in_memory_elem m) by done. split.
    + intros (i & l & Hl & He). destruct (Forall2_lookup_r _ _ _ _ _ HF Hl) as (b & Hb & Hp & _).
      exists b.1, b.2. split; [|by rewrite <- Hp]. apply Hbs. by apply list_elem_of_lookup_2 in Hb.
    + intros (h & es & Hl & He). assert ((h, es) ∈ bs) as [i Hi]%list_elem_of_lookup_1 by by apply Hbs.
      destruct (Forall2_lookup_l _ _ _ _ _ HF Hi) as (l & Hl' & Hp & _). exists i, l. split; [done|by rewrite Hp].
Qed.

(** ** The invariant of a segment *)

Definition segment_of (s : segment_information) (rs : list row) : Prop := ∃ batches cur,
  rs = concat batches ++ cur ∧ Forall2 chunk_of batches (chunks s) ∧ in_memory (elements s) cur.

Lemma segment_start : segment_of (Segment ∅ []) [].
Proof. exists [], []. split_and!; [done|constructor|apply in_memory_empty]. Qed.

Lemma flush_segment_ok s rs : Forall valid rs → segment_of s rs → ∃ s',
  flush_segment hash hash64_combine s = Ok s' ∧ segment_of s' rs ∧ elements s' = ∅.
Proof.
  intros HV (batches & cur & -> & HF & Hm). apply Forall_app in HV as [HVb HVc]. unfold flush_segment.
  destruct (Nat.eqb_spec (base.size (elements s)) 0) as [Hz|Hz].
  - apply map_size_empty_inv in Hz. exists s. split_and!; [done| |done]. by exists batches, cur.
  - destruct (sort_buckets_ok _ _ HVc Hm) as (ls & -> & Hc). eexists. split; [done|]. split; [|done].
    exists (batches ++ [cur]), []. cbn. rewrite concat_app, app_nil_r. cbn. rewrite app_nil_r.
    split_and!; [done| |apply in_memory_empty]. apply Forall2_app; [done|]. constructor; [done|constructor].
Qed.

Lemma add_to_segment_ok max_buffer_size r s rs : Forall valid (rs ++ [r]) → segment_of s rs → ∃ s',
  add_to_segment oob atof hash hash64_combine ds max_buffer_size r (take num_keys r) s = Ok s' ∧
  segment_of s' (rs ++ [r]).
Proof.
  intros HV (batches & cur & -> & HF & Hm). pose proof HV as HV2. rewrite <- app_assoc in HV.
  apply Forall_app in HV as [HVb HVc]. destruct (in_memory_add _ _ _ HVc Hm) as (es & Hok & Hm').
  unfold add_to_segment. rewrite Hok. cbn [mbind outcome_bind elements].
  assert (segment_of (Segment (<[H (take num_keys r):=es]> (elements s)) (chunks s)) ((concat batches ++ cur) ++ [r])) as Hs.
  { exists batches, (cur ++ [r]). by rewrite <- app_assoc. }
  case_match; [|by eexists]. destruct (flush_segment_ok _ _ HV2 Hs) as (s' & ? & ? & _). by exists s'.
Qed.
(** ** Merging the chunks of a segment *)

Lemma sorted_NoDup c : sorted c → NoDup c.
Proof.
  intros [HF HS]. induction HS as [|e c HS IH He]; [constructor|]. inversion HF; subst.
  constructor; [|by apply IH]. intros Hin. rewrite Forall_forall in He.
  by apply (before_irrefl hash hash64_combine K e e), He.
Qed.

Lemma NoDup_only {A} (l : list A) x : NoDup l → (∀ y, y ∈ l ↔ y = x) → l = [x].
Proof.
  intros Hn Hl. apply Permutation_singleton_r, NoDup_Permutation; [done|apply NoDup_singleton|].
  intros y. by rewrite Hl, list_elem_of_singleton.
Qed.

Lemma chunk_group B c k : Forall valid B → chunk_of B c →
  with_key k B = [] ∧ filter (λ e, key e = k) c = [] ∨
  ∃ e, with_key k B ≠ [] ∧ partial k (with_key k B) = Ok e ∧ filter (λ e, key e = k) c = [e].
Proof.
  intros HV [Hs Hc]. destruct (decide (with_key k B = [])) as [Hnil|Hne]; [left|right].
  - split; [done|]. apply filter_empty. intros x [Hx _]%Hc Hk. by rewrite Hk in Hx.
  - destruct (gl_total k (with_key k B)) as [e He]; [by apply with_key_valid|]. exists e. split_and!; [done..|].
    apply NoDup_only; [by apply NoDup_filter, sorted_NoDup|]. intros x. rewrite list_elem_of_filter, Hc. split.
    + intros [Hk [_ Hx]]. rewrite Hk in Hx. congruence.
    + intros ->. pose proof (partial_key _ _ _ He) as Hk. split; [done|]. unfold group_of. by rewrite Hk.
Qed.

(** The elements with a key in the chunks are the partial results of the batches with the key. *)
Lemma collect_chunks k batches cs : Forall valid (concat batches) → Forall2 chunk_of batches cs → ∃ parts,
  Forall2 (λ B e, B ≠ [] ∧ Forall valid B ∧ partial k B = Ok e) parts (collect k cs) ∧
  concat parts = with_key k (concat batches).
Proof.
  intros HV HF. induction HF as [|B c batches cs Hc HF IH]; [by exists []|].
  cbn [concat] in HV. apply Forall_app in HV as [HB HV]. destruct (IH HV) as (parts & HFp & Hparts).
  unfold collect. cbn [concat]. rewrite filter_app, with_key_app, <- Hparts.
  destruct (chunk_group B c k HB Hc) as [[-> ->]|(e & Hne & He & ->)]; [by exists parts|].
  exists (with_key k B :: parts). split; [|done]. constructor; [|done].
  split_and!; [done| |done]. by apply with_key_valid.
Qed.

(** Their combination is the partial result of all the batches. *)
Lemma combine_parts k parts : ∀ es B e,
  B ≠ [] → Forall valid B → partial k B = Ok e →
  Forall2 (λ B e, B ≠ [] ∧ Forall valid B ∧ partial k B = Ok e) parts es →
  fold_outcome (combine_element oob hash) es e = partial k (B ++ concat parts).
Proof.
  induction parts as [|B2 parts IH]; intros es B e Hne HV He HF; inversion HF as [|? e2 ? es' (Hne2 & HV2 & He2) HF']; subst.
  { cbn. by rewrite app_nil_r. }
  cbn [fold_outcome concat]. rewrite (gl_combine k B B2 e e2), app_assoc by done.
  destruct (gl_total k (B ++ B2)) as [e3 He3]; [by apply Forall_app|]. rewrite He3. cbn [mbind outcome_bind].
  apply IH; [by destruct B|by apply Forall_app|done..].
Qed.

Lemma merged_chunks k batches cs : Forall valid (concat batches) → Forall2 chunk_of batches cs →
  k ∈ (take num_keys <$> concat batches) →
  merged hash oob atof k cs = outcome_option (group_result k (with_key k (concat batches))).
Proof.
  intros HV HF Hk. destruct (collect_chunks k batches cs HV HF) as (parts & HFp & Hparts).
  unfold merged, group_result. rewrite <- Hparts. apply with_key_in in Hk. rewrite <- Hparts in Hk.
  inversion HFp as [|B e parts' es (Hne & HB & He) HFp' Heq1 Heq2]; subst; [done|].
  rewrite outcome_option_bind. cbn [concat]. by rewrite (combine_parts k parts' es B e).
Qed.

Lemma in_memory_nothing B : Forall valid B → in_memory ∅ B → B = [].
Proof.
  intros HV Hm. destruct B as [|r B]; [done|exfalso].
  assert (with_key (take num_keys r) (r :: B) ≠ []) as Hne by (apply with_key_in; left).
  destruct (gl_total (take num_keys r) (with_key (take num_keys r) (r :: B))) as [e He]; [by apply with_key_valid|].
  pose proof (partial_key _ _ _ He) as Hk. rewrite <- Hk in Hne, He.
  destruct (proj1 (in_memory_elem ∅ (r :: B) e Hm)) as (h & es & Hl & _); [by split|].
  by rewrite lookup_empty in Hl.
Qed.

Lemma chunk_keys k batches cs : Forall valid (concat batches) → Forall2 chunk_of batches cs →
  (∃ x, x ∈ concat cs ∧ key x = k) ↔ k ∈ (take num_keys <$> concat batches).
Proof.
  intros HV HF. rewrite <- with_key_in. induction HF as [|B c batches cs Hc HF IH]; cbn [concat] in *.
  { split; [by intros (x & ?%elem_of_nil & _)|done]. }
  apply Forall_app in HV as [HB HV]. specialize (IH HV). rewrite with_key_app.
  assert ((∃ x, x ∈ c ∧ key x = k) ↔ with_key k B ≠ []) as Hfirst.
  { split; [by intros (x & [Hx _]%Hc & <-)|]. intros Hne.
    destruct (chunk_group B c k HB Hc) as [[? _]|(e & _ & _ & Hce)]; [done|]. exists e.
    assert (e ∈ filter (λ e, key e = k) c) as [? ?]%list_elem_of_filter by (rewrite Hce; left). done. }
  setoid_rewrite elem_of_app. destruct (with_key k B) as [|r l].
  - cbn [app]. rewrite <- IH. naive_solver.
  - split; [done|]. intros _. destruct Hfirst as [_ (x & ? & ?)]; [done|]. exists x. auto.
Qed.

Lemma group_result_total k rs : Forall valid rs → k ∈ (take num_keys <$> rs) →
  ∃ r, group_result k (with_key k rs) = Ok r.
Proof.
  intros HV Hk%with_key_in. destruct (gl_total k (with_key k rs)) as [e He]; [by apply with_key_valid|].
  destruct (gl_emit k (with_key k rs) e) as [r Hr]; [by apply with_key_valid|done..|].
  exists r. unfold group_result. by rewrite He.
Qed.

(** A flushed segment gives each of its groups once. *)
Lemma write_segment_ok s rs : Forall valid rs → segment_of s rs → elements s = ∅ → ∃ ks out,
  group_and_write_segment oob atof hash hash64_combine (chunks s) = Some out ∧
  Forall2 (λ k r, group_result k (with_key k rs) = Ok r) ks out ∧
  NoDup ks ∧ ∀ k, k ∈ ks ↔ k ∈ (take num_keys <$> rs).
Proof.
  intros HV (batches & cur & -> & HF & Hm) Hnil. rewrite Hnil in Hm. apply Forall_app in HV as [HVb HVc].
  rewrite (in_memory_nothing cur), app_nil_r by done. unfold group_and_write_segment. cbn zeta.
  assert (Forall sorted (chunks s)) as Hs.
  { apply Forall_lookup. intros i c Hi. by destruct (Forall2_lookup_r _ _ _ _ _ HF Hi) as (B & _ & ? & _). }
  destruct (merge_chunks_ok hash hash64_combine K oob atof (S (length (concat (chunks s)))) (chunks s) _
    (heads_start (chunks s)) Hs) as (ks & -> & Hn & Hks); [lia|].
  assert (∀ k, k ∈ ks ↔ k ∈ (take num_keys <$> concat batches)) as Hin.
  { intros k. rewrite Hks. by apply chunk_keys. }
  rewrite (Forall_mapM_ext _ (λ k, outcome_option (group_result k (with_key k (concat batches))))).
  2:{ apply Forall_forall. intros k Hk%Hin. by apply merged_chunks. }
  destruct (mapM_is_Some_2 (λ k, outcome_option (group_result k (with_key k (concat batches)))) ks) as [out Hout].
  { apply Forall_forall. intros k Hk%Hin. cbn. destruct (group_result_total k (concat batches)) as [r ->]; [done..|].
    by exists r. }
  exists ks, out. split_and!; [done| |done..]. eapply Forall2_impl; [by apply mapM_Some_1|].
  intros k r. apply outcome_option_Some.
Qed.

(** ** All the segments *)

Abbreviation target n r := (target_segment hash hash64_combine n (take num_keys r)).

(** The rows that go to a segment. *)
Definition rows_of (n t : nat) (rs : list row) : list row := filter (λ r, target n r = t) rs.

Definition segments_of (segments : list segment_information) (rs : list row) : Prop :=
  ∀ t s, segments !! t = Some s → segment_of s (rows_of (length segments) t rs).

Lemma target_lt n r : (0 < n)%nat → (target n r < n)%nat.
Proof. intros Hn. unfold target_segment. pose proof (Z.mod_pos_bound (H (take num_keys r)) (Z.of_nat n)). lia. Qed.

Lemma rows_of_valid n t rs : Forall valid rs → Forall valid (rows_of n t rs).
Proof. apply Forall_filter_keep. Qed.

Lemma rows_of_snoc n t rs r : rows_of n t (rs ++ [r]) = rows_of n t rs ++ if decide (target n r = t) then [r] else [].
Proof. unfold rows_of. rewrite filter_app, filter_cons, filter_nil. by case_decide. Qed.

(** All the rows of a key go to one segment. *)
Lemma rows_of_with_key n t k rs : target_segment hash hash64_combine n k = t →
  with_key k (rows_of n t rs) = with_key k rs.
Proof.
  intros <-. unfold with_key, rows_of. apply list_filter_filter_l. by intros r ->.
Qed.

Lemma segments_start n : segments_of (replicate n (Segment ∅ [])) [].
Proof. intros t s [-> _]%lookup_replicate. apply segment_start. Qed.

Lemma add_ok max_buffer_size r segments rs : (0 < length segments)%nat → Forall valid (rs ++ [r]) →
  segments_of segments rs → ∃ segments',
    add oob atof hash hash64_combine ds max_buffer_size num_keys r segments = Ok segments' ∧
    length segments' = length segments ∧ segments_of segments' (rs ++ [r]).
Proof.
  intros Hn HV Hs. unfold add. cbn zeta. set (n := length segments) in *. set (t := target n r).
  destruct (lookup_lt_is_Some_2 segments t) as [s Ht]; [by apply target_lt|]. rewrite Ht. cbn [or_throw mbind outcome_bind].
  pose proof (rows_of_snoc n t rs r) as Hsnoc. rewrite decide_True in Hsnoc by done.
  destruct (add_to_segment_ok max_buffer_size r s (rows_of n t rs)) as (s' & -> & Hs').
  { rewrite <- Hsnoc. by apply rows_of_valid. }
  { by apply Hs. }
  eexists. split; [done|]. rewrite length_insert. split; [done|]. intros u v. rewrite length_insert. fold n.
  destruct (decide (u = t)) as [->|Hne].
  - rewrite list_lookup_insert_eq by (by apply target_lt). intros [= <-]. by rewrite Hsnoc.
  - rewrite list_lookup_insert_ne by done. intros Hu. rewrite rows_of_snoc, decide_False, app_nil_r by done.
    by apply Hs.
Qed.

Lemma add_rows_ok max_buffer_size rows : ∀ segments rs, (0 < length segments)%nat → Forall valid (rs ++ rows) →
  segments_of segments rs → ∃ segments',
    add_rows oob atof hash hash64_combine ds max_buffer_size num_keys rows segments = Ok segments' ∧
    length segments' = length segments ∧ segments_of segments' (rs ++ rows).
Proof.
  induction rows as [|r rows IH]; intros segments rs Hn HV Hs; cbn [add_rows].
  { exists segments. by rewrite app_nil_r. }
  rewrite (app_assoc rs [r] rows : rs ++ r :: rows = _) in HV |- *. apply Forall_app in HV as HV'.
  destruct (add_ok max_buffer_size r segments rs) as (segments' & -> & Hl & Hs'); [done|apply HV'|done|].
  cbn [mbind outcome_bind]. destruct (IH segments' (rs ++ [r])) as (segs2 & ? & ? & ?); [lia|done..|].
  exists segs2. split_and!; [done|lia|done].
Qed.

(** The segments give their groups one after the other. *)
Lemma write_segments_ok n rs : Forall valid rs → ∀ segments t,
  (∀ i s, segments !! i = Some s → segment_of s (rows_of n (t + i) rs) ∧ elements s = ∅) → ∃ outs ks,
    mapM (λ s, group_and_write_segment oob atof hash hash64_combine (chunks s)) segments = Some outs ∧
    Forall2 (λ k r, group_result k (with_key k rs) = Ok r) ks (concat outs) ∧ NoDup ks ∧
    ∀ k, k ∈ ks ↔ k ∈ (take num_keys <$> rs) ∧
      (t ≤ target_segment hash hash64_combine n k < t + length segments)%nat.
Proof.
  intros HV. induction segments as [|s segments IH]; intros t Hs.
  { exists [], []. split_and!; [done..|constructor|]. intros k. cbn. rewrite elem_of_nil. lia. }
  destruct (Hs 0%nat s eq_refl) as [Hseg Hnil]. rewrite Nat.add_0_r in Hseg.
  destruct (write_segment_ok s (rows_of n t rs)) as (ks1 & out1 & Hout1 & HF1 & Hn1 & Hin1); [by apply rows_of_valid|done..|].
  destruct (IH (S t)) as (outs & ks2 & Houts & HF2 & Hn2 & Hin2).
  { intros i v Hi. replace (S t + i)%nat with (t + S i)%nat by lia. by apply (Hs (S i)). }
  assert (∀ k, k ∈ ks1 ↔ k ∈ (take num_keys <$> rs) ∧ target_segment hash hash64_combine n k = t) as Hin1'.
  { intros k. rewrite Hin1, !list_elem_of_fmap. unfold rows_of. setoid_rewrite list_elem_of_filter. naive_solver. }
  exists (out1 :: outs), (ks1 ++ ks2). split_and!.
  - cbn [mapM]. rewrite Hout1. cbn [mbind option_bind]. by rewrite Houts.
  - cbn [concat]. apply Forall2_app; [|done]. eapply Forall2_impl_in; [done|]. intros k r [_ Hk]%Hin1'.
    by rewrite rows_of_with_key.
  - apply NoDup_app. split_and!; [done| |done]. intros k [_ ?]%Hin1' [_ ?]%Hin2. lia.
  - intros k. rewrite elem_of_app, Hin1', Hin2. cbn [length]. split; [intros [[? ?]|[? ?]]; (split; [done|lia])|].
    intros [Hk ?]. destruct (decide (target_segment hash hash64_combine n k = t)); [by left|right]. split; [done|lia].
Qed.

Lemma flush_segments_ok segments rs : Forall valid rs → segments_of segments rs → ∃ segments',
  outcome_map (flush_segment hash hash64_combine) segments = Ok segments' ∧
  length segments' = length segments ∧
  ∀ i s, segments' !! i = Some s → segment_of s (rows_of (length segments) i rs) ∧ elements s = ∅.
Proof.
  intros HV Hs. set (n := length segments) in *.
  assert (∀ l t, (∀ i s, l !! i = Some s → segment_of s (rows_of n (t + i) rs)) → ∃ l',
    outcome_map (flush_segment hash hash64_combine) l = Ok l' ∧ length l' = length l ∧
    ∀ i s, l' !! i = Some s → segment_of s (rows_of n (t + i) rs) ∧ elements s = ∅) as Hl.
  { induction l as [|s l IH]; intros t Hl; cbn [outcome_map]; [by exists []|].
    destruct (flush_segment_ok s (rows_of n (t + 0) rs)) as (s' & -> & ? & ?); [by apply rows_of_valid|by apply (Hl 0%nat)|].
    destruct (IH (S t)) as (l' & Hok & ? & Hl').
    { intros i v Hi. replace (S t + i)%nat with (t + S i)%nat by lia. by apply (Hl (S i)). }
    cbn [mbind outcome_bind]. rewrite Hok. cbn. exists (s' :: l'). split_and!; [done|cbn; lia|].
    intros [|i] v Hi; [by injection Hi as <-|]. replace (t + S i)%nat with (S t + i)%nat by lia. by apply Hl'. }
  destruct (Hl segments 0%nat) as (l' & ? & ? & ?); [apply Hs|]. by exists l'.
Qed.

(** A group-by gives each key of its rows once, with the result of all the rows of the key. *)
Lemma groupby_ok max_buffer_size num_segments rows : (0 < num_segments)%nat → Forall valid rows → ∃ ks out,
  groupby_aggregate oob atof hash hash64_combine ds max_buffer_size num_segments num_keys rows = Some out ∧
  Forall2 (λ k r, group_result k (with_key k rows) = Ok r) ks out ∧
  NoDup ks ∧ ∀ k, k ∈ ks ↔ k ∈ (take num_keys <$> rows).
Proof.
  intros Hn HV. unfold groupby_aggregate, group_and_write.
  destruct (add_rows_ok max_buffer_size rows (replicate num_segments (Segment ∅ [])) []) as (segs & -> & Hl & Hs);
    [by rewrite length_replicate|done|apply segments_start|]. rewrite length_replicate in Hl.
  cbn [app outcome_option mbind option_bind] in *.
  destruct (flush_segments_ok segs rows HV Hs) as (segs' & -> & Hl' & Hs'). cbn [outcome_option mbind option_bind].
  destruct (write_segments_ok num_segments rows HV segs' 0%nat) as (outs & ks & -> & HF & Hnd & Hks).
  { by rewrite <- Hl. }
  exists ks, (concat outs). split_and!; [done..|]. intros k. rewrite Hks. split; [by intros [? _]|].
  intros Hk. split; [done|]. apply list_elem_of_fmap in Hk as (r & -> & _).
  pose proof (target_lt num_segments r Hn). lia.
Qed.

(** Whatever the buffer and the number of segments, the rows are the same up to their order. *)
Lemma groupby_independent max_buffer_size num_segments max_buffer_size' num_segments' rows :
  (0 < num_segments)%nat → (0 < num_segments')%nat → Forall valid rows → ∃ out out',
  groupby_aggregate oob atof hash hash64_combine ds max_buffer_size num_segments num_keys rows = Some out ∧
  groupby_aggregate oob atof hash hash64_combine ds max_buffer_size' num_segments' num_keys rows = Some out' ∧
  out ≡ₚ out'.
Proof.
  intros Hn Hn' HV. destruct (groupby_ok max_buffer_size num_segments rows Hn HV) as (ks & out & -> & HF & Hnd & Hks).
  destruct (groupby_ok max_buffer_size' num_segments' rows Hn' HV) as (ks' & out' & -> & HF' & Hnd' & Hks').
  exists out, out'. split_and!; [done..|]. assert (ks ≡ₚ ks') as Hp.
  { apply NoDup_Permutation; [done..|]. intros k. by rewrite Hks, Hks'. }
  set (f := λ k, default [] (outcome_option (group_result k (with_key k rows)))).
  assert (∀ l o, Forall2 (λ k r, group_result k (with_key k rows) = Ok r) l o → o = f <$> l) as Hf.
  { induction 1 as [|k r l o Hk _ ->]; [done|]. cbn. f_equal. unfold f. by rewrite Hk. }
  by rewrite (Hf _ _ HF), (Hf _ _ HF'), Hp.
Qed.
End segment.

End GroupBySegment.
