(* ===== verification/GroupKeySpec.v ===== *)
(** Keys of a group-by that can be ordered: of one length, of integers, strings, ordinary
    doubles and undefined values. On them the comparisons of the program are a strict total
    order whose equality is equality. *)
From S2P Require Import Prelude Float64 FlexType FlexOps FlexOpsSpec GroupAggregate GroupBy GroupBySpec.
Import Float64 FlexType FlexOps FlexOpsSpec GroupAggregate GroupBy GroupBySpec.
Local Open Scope Z_scope.
Local Open Scope sframe_scope.

Module GroupKeySpec.

(** A double that is equal to no other: not a NaN, and not the negative zero, which is equal to
    zero and has another hash. *)
Definition plain (v : flexible_type) : Prop :=
  match v with
  | FInt _ | FString _ | FUndefined => True
  | FFloat b => is_u64 b ∧ isnan b = false ∧ b ≠ neg_zero
  | _ => False
  end.

#[global] Instance plain_dec v : Decision (plain v).
Proof. destruct v; cbn; apply _. Defined.

Definition plain_key (num_keys : nat) (k : group_key) : Prop := length k = num_keys ∧ Forall plain k.

#[global] Instance plain_key_dec n k : Decision (plain_key n k).
Proof. unfold plain_key. apply _. Defined.

(** ** Values *)

Lemma plain_float_eq a b : plain (FFloat a) → plain (FFloat b) → feq a b = true ↔ a = b.
Proof.
  cbn. intros (Ha & Hna & Hza) (Hb & Hnb & Hzb). rewrite (feq_spec a b) by done. split; [|naive_solver].
  intros (_ & _ & [?|[Hma Hmb]]); [done|].
  destruct (zero_magnitude a Ha Hma), (zero_magnitude b Hb Hmb); congruence.
Qed.

Lemma plain_eq hash x y : plain x → plain y →
  bool_decide (get_type x = get_type y) && (is_undefined x || approx_equality_operator hash x y) = true ↔ x = y.
Proof.
  intros Hx Hy. destruct (decide (get_type x = get_type y)) as [Ht|Ht].
  2:{ rewrite bool_decide_eq_false_2 by done. split; [done|]. by intros ->. }
  rewrite bool_decide_eq_true_2 by done. cbn [andb].
  destruct x as [i|a|s|v|l|d|d| |m], y as [j|b|t|w|k|e|e| |n]; try done;
    unfold is_undefined; cbn [get_type approx_equality_operator]; (rewrite bool_decide_eq_false_2 by done || done); cbn [orb].
  - rewrite Z.eqb_eq. naive_solver.
  - pose proof (plain_float_eq a b Hx Hy) as Hf. destruct Hx as (_ & -> & _), Hy as (_ & -> & _).
    cbn [andb orb]. rewrite Hf. naive_solver.
  - unfold string_eq. rewrite bool_decide_eq_true. naive_solver.
Qed.

(** The order of values: by type, and then [<]. *)
Definition value_lt (x y : flexible_type) : bool :=
  (enum_code (get_type x) <? enum_code (get_type y)) ||
  match x, y with
  | FInt x, FInt y => x <? y
  | FFloat x, FFloat y => flt x y
  | FString x, FString y => string_lt x y
  | _, _ => false
  end.

Lemma key_loop_step x y a b : plain x → plain y → vector_lt_loop (x :: a) (y :: b) =
  if value_lt x y then Ok true else if value_lt y x then Ok false else vector_lt_loop a b.
Proof.
  intros Hx Hy. destruct x as [i|f|s|v|l|d|d| |m], y as [j|g|t|w|k|e|e| |n]; try done;
    cbn [vector_lt_loop get_type enum_code]; cbn.
Qed.

Lemma value_lt_irrefl x : value_lt x x = false.
Proof.
  unfold value_lt. rewrite Z.ltb_irrefl. destruct x; cbn; try done; [apply Z.ltb_irrefl|apply flt_irrefl|apply string_lt_irrefl].
Qed.

Lemma value_lt_trans x y z : plain x → plain y → plain z →
  value_lt x y = true → value_lt y z = true → value_lt x z = true.
Proof.
  intros Hx Hy Hz. destruct x, y, z; try done; unfold value_lt; cbn; try done.
  - rewrite !Z.ltb_lt. lia.
  - apply flt_trans.
  - apply string_lt_trans.
Qed.

Lemma value_lt_total x y : plain x → plain y → value_lt x y = false → value_lt y x = false → x = y.
Proof.
  intros Hx Hy. destruct x as [i|a|s|v|l|d|d| |m], y as [j|b|t|w|k|e|e| |n]; try done; unfold value_lt; cbn; try done.
  - rewrite !Z.ltb_ge. intros ? ?. f_equal. lia.
  - intros H1 H2. f_equal. apply plain_float_eq; [done..|]. destruct Hx as (_ & Hna & _), Hy as (_ & Hnb & _).
    destruct (flt_trichotomy a b Hna Hnb) as [(?&?&?)|[(?&?&?)|(?&?&Hg)]]; try congruence.
    unfold fgt in Hg. congruence.
  - intros H1 H2. destruct (string_lt_trichotomy s t) as [?|[->|?]]; congruence.
Qed.

Lemma value_lt_asym x y : plain x → plain y → value_lt x y = true → value_lt y x = false.
Proof.
  intros Hx Hy Hxy. destruct (value_lt y x) eqn:Hyx; [|done].
  pose proof (value_lt_trans x y x Hx Hy Hx Hxy Hyx) as H. by rewrite value_lt_irrefl in H.
Qed.

(** ** Keys *)

Lemma key_loop_defined a : ∀ b, length a = length b → Forall plain a → Forall plain b → ∃ lt, vector_lt_loop a b = Ok lt.
Proof.
  induction a as [|x a IH]; intros [|y b] Hl Ha Hb; try done; [by eexists|].
  inversion Ha; inversion Hb; subst. rewrite key_loop_step by done.
  destruct (value_lt x y); [by eexists|]. destruct (value_lt y x); [by eexists|]. apply IH; [|done..]. by injection Hl.
Qed.

Lemma key_loop_irrefl a : Forall plain a → vector_lt_loop a a = Ok false.
Proof.
  induction 1 as [|x a Hx Ha IH]; [done|]. by rewrite key_loop_step, value_lt_irrefl.
Qed.

Lemma key_loop_trans a : ∀ b c, Forall plain a → Forall plain b → Forall plain c →
  vector_lt_loop a b = Ok true → vector_lt_loop b c = Ok true → vector_lt_loop a c = Ok true.
Proof.
  induction a as [|x a IH]; intros [|y b] [|z c] Ha Hb Hc; try done.
  inversion_clear Ha as [|?? Hx Ha']; inversion_clear Hb as [|?? Hy Hb']; inversion_clear Hc as [|?? Hz Hc'].
  rewrite !key_loop_step by done.
  destruct (value_lt x y) eqn:Hxy; [|destruct (value_lt y x) eqn:Hyx; [done|]].
  - destruct (value_lt y z) eqn:Hyz; [by rewrite (value_lt_trans x y z)|].
    destruct (value_lt z y) eqn:Hzy; [done|]. rewrite <- (value_lt_total y z), Hxy by done. done.
  - rewrite (value_lt_total x y) by done. destruct (value_lt y z); [done|].
    destruct (value_lt z y); [done|]. by apply IH.
Qed.

Lemma key_loop_total a : ∀ b, length a = length b → Forall plain a → Forall plain b →
  vector_lt_loop a b = Ok false → vector_lt_loop b a = Ok false → a = b.
Proof.
  induction a as [|x a IH]; intros [|y b] Hl Ha Hb; try done.
  inversion_clear Ha as [|?? Hx Ha']; inversion_clear Hb as [|?? Hy Hb']. rewrite !key_loop_step by done.
  destruct (value_lt x y) eqn:Hxy; [done|]. destruct (value_lt y x) eqn:Hyx; [done|]. intros H1 H2.
  rewrite (value_lt_total x y) by done. f_equal. apply IH; [|done..]. by injection Hl.
Qed.

Lemma key_eq hash a : ∀ b, Forall plain a → Forall plain b →
  flexible_type_vector_equality hash a b = true ↔ a = b.
Proof.
  induction a as [|x a IH]; intros [|y b] Ha Hb; try done. cbn [flexible_type_vector_equality].
  inversion_clear Ha as [|?? Hx Ha']; inversion_clear Hb as [|?? Hy Hb'].
  rewrite andb_true_iff, plain_eq, IH by done. naive_solver.
Qed.

Lemma key_lt_loop n a b : plain_key n a → plain_key n b → flexible_type_vector_lt a b = vector_lt_loop a b.
Proof. intros [Ha _] [Hb _]. unfold flexible_type_vector_lt. by rewrite Ha, Hb, Nat.ltb_irrefl. Qed.

#[export] Instance plain_key_order hash n : KeyOrder hash (plain_key n).
Proof.
  split.
  - intros a b [_ Ha] [_ Hb]. by apply key_eq.
  - intros a b Ha Hb. rewrite (key_lt_loop n) by done. destruct Ha as [Hla Ha], Hb as [Hlb Hb].
    apply key_loop_defined; [congruence|done..].
  - intros a Ha. rewrite (key_lt_loop n) by done. destruct Ha. by apply key_loop_irrefl.
  - intros a b c Ha Hb Hc. rewrite !(key_lt_loop n) by done. destruct Ha, Hb, Hc. by apply key_loop_trans.
  - intros a b Ha Hb. rewrite !(key_lt_loop n) by done. destruct Ha as [Hla Ha], Hb as [Hlb Hb].
    apply key_loop_total; [congruence|done..].
Qed.

End GroupKeySpec.
