(* ===== verification/GroupAggregateSpec.v ===== *)
(** The aggregators whose partial results can be combined: adding elements is a homomorphism
    from lists of inputs to a monoid of summaries, and [combine] is its operation.

    Groups of combinable aggregators keep the promises that the merge relies on. *)
From S2P Require Import Prelude Float64 FlexType FlexOps FlexOpsSpec GroupAggregate GroupBy GroupBySpec GroupBySegment.
From S2P Require Import GroupKeySpec.
Import Float64 FlexType FlexOps FlexOpsSpec GroupAggregate GroupBy GroupBySpec GroupKeySpec.
Local Open Scope Z_scope.
Local Open Scope sframe_scope.

Module GroupAggregateSpec.

(** The methods of the classes. *)
Ltac methods :=
  cbn [add_inputs add_element add_element_simple combine emit];
  unfold sum_add_element_simple, sum_combine, min_add_element_simple,
    min_combine, max_add_element_simple, max_combine,
    argmin_add_element, argmin_combine, argmax_add_element,
    argmax_combine, argmin_emit, count_add_element_simple,
    count_combine, non_null_count_add_element_simple, non_null_count_combine,
    zip_list_add_element_simple, zip_list_combine, zip_list_emit,
    select_one_add_element_simple, count_distinct_combine, frequency_count_combine,
    frequency_count_emit; cbn.

Section spec.
Context (oob : Z → Z) (atof : list Z → Z) (hash : flexible_type → Z).

Abbreviation add := (add_inputs oob atof hash).
Abbreviation merge := (combine oob hash).

(** The partial result of a list of inputs. *)
Definition aggregate (v : group_aggregate_value) (l : list (list flexible_type)) : outcome group_aggregate_value :=
  fold_outcome add l (new_instance v).

(** ** Summaries *)

Class Combinable (v : group_aggregate_value) (valid : list flexible_type → Prop) := {
  summary : Type;
  sm_unit : summary;
  sm_op : summary → summary → summary;
  sm_single : list flexible_type → summary;
  sm_state : summary → group_aggregate_value;
  sm_good : summary → Prop;
  sm_new : new_instance v = sm_state sm_unit;
  sm_unit_l m : sm_good m → sm_op sm_unit m = m;
  sm_assoc a b c : sm_good a → sm_good b → sm_good c → sm_op a (sm_op b c) = sm_op (sm_op a b) c;
  sm_single_good x : valid x → sm_good (sm_single x);
  sm_op_good a b : sm_good a → sm_good b → sm_good (sm_op a b);
  sm_add x m : valid x → m = sm_unit ∨ sm_good m → add x (sm_state m) = Ok (sm_state (sm_op m (sm_single x)));
  sm_combine a b : sm_good a → sm_good b → merge (sm_state b) (sm_state a) = Ok (sm_state (sm_op a b));
  sm_emit m : sm_good m → ∃ x, emit atof (sm_state m) = Ok x;
}.

Section laws.
Context {v : group_aggregate_value} {valid : list flexible_type → Prop} {HC : Combinable v valid}.

(** The summary of a list that is not empty. *)
Definition summarise (x : list flexible_type) (l : list (list flexible_type)) : summary :=
  foldl (λ m x, sm_op m (sm_single x)) (sm_single x) l.

Lemma summarise_good l : ∀ x, valid x → Forall valid l → sm_good (summarise x l).
Proof.
  unfold summarise. intros x Hx%sm_single_good HF. revert Hx. generalize (sm_single x).
  induction HF as [|y l Hy _ IH]; intros m Hm; cbn; [done|]. by apply IH, sm_op_good, sm_single_good.
Qed.

Lemma fold_add l : ∀ m, sm_good m → Forall valid l →
  fold_outcome add l (sm_state m) = Ok (sm_state (foldl (λ m x, sm_op m (sm_single x)) m l)).
Proof.
  induction l as [|x l IH]; intros m Hm HF; [done|]. inversion HF; subst. cbn [fold_outcome foldl].
  rewrite sm_add by auto. cbn [mbind outcome_bind]. apply IH; [|done]. by apply sm_op_good, sm_single_good.
Qed.

Lemma aggregate_summary x l : valid x → Forall valid l →
  aggregate v (x :: l) = Ok (sm_state (summarise x l)).
Proof.
  intros Hx HF. unfold aggregate, summarise. cbn [fold_outcome]. rewrite sm_new, sm_add by auto.
  cbn [mbind outcome_bind]. rewrite sm_unit_l by (by apply sm_single_good). apply fold_add; [|done].
  by apply sm_single_good.
Qed.

Lemma aggregate_total l : Forall valid l → ∃ w, aggregate v l = Ok w.
Proof. destruct 1; [by eexists|]. eexists. by apply aggregate_summary. Qed.

Lemma foldl_op l : ∀ a b, sm_good a → sm_good b → Forall valid l →
  foldl (λ m x, sm_op m (sm_single x)) (sm_op a b) l = sm_op a (foldl (λ m x, sm_op m (sm_single x)) b l).
Proof.
  induction l as [|x l IH]; intros a b Ha Hb HF; [done|]. inversion HF; subst. cbn [foldl].
  pose proof (sm_single_good x ltac:(done)). rewrite <- sm_assoc by done. apply IH; [done| |done].
  by apply sm_op_good.
Qed.

Lemma aggregate_combine l1 l2 w1 w2 : Forall valid l1 → Forall valid l2 → l1 ≠ [] → l2 ≠ [] →
  aggregate v l1 = Ok w1 → aggregate v l2 = Ok w2 → merge w2 w1 = aggregate v (l1 ++ l2).
Proof.
  intros H1 H2 Hn1 Hn2. destruct H1 as [|x l1 Hx H1], H2 as [|y l2 Hy H2]; try done.
  rewrite !aggregate_summary by done. intros [= <-] [= <-]. cbn [app].
  rewrite aggregate_summary by (done || by apply Forall_app; auto using Forall_cons).
  rewrite sm_combine by (by apply summarise_good). do 2 f_equal. unfold summarise at 3. rewrite foldl_app.
  cbn [foldl]. symmetry. apply foldl_op; [by apply summarise_good|by apply sm_single_good|done].
Qed.

Lemma aggregate_emit l w : Forall valid l → l ≠ [] → aggregate v l = Ok w → ∃ x, emit atof w = Ok x.
Proof.
  intros HF Hn. destruct HF as [|x l Hx HF]; [done|]. rewrite aggregate_summary by done.
  intros [= <-]. by apply sm_emit, summarise_good.
Qed.
End laws.

(** ** Valid inputs

    The first value of an input is that of the column, of type [t]. *)
Definition ordered (t : flex_type_enum) (y : flexible_type) : Prop :=
  get_type y = t ∧ match y with FInt _ | FDateTime _ => True | FFloat b => isnan b = false | _ => False end.

Definition null_or (P : flexible_type → Prop) (y : flexible_type) : Prop := y = FUndefined ∨ P y.

(** A column has values of its type and undefined ones. *)
Definition plain_of (t : flex_type_enum) (y : flexible_type) : Prop := plain y ∧ (y = FUndefined ∨ get_type y = t).

(** What a value must be for the partial results of [v] to combine. *)
Definition valid_value (t : flex_type_enum) (v : group_aggregate_value) : flexible_type → Prop :=
  match v with
  | sum _ => null_or (λ y, get_type y = INTEGER)
  | min _ _ | max _ _ | argmin _ _ | argmax _ _ => null_or (ordered t)
  | zip_list _ _ m_is_float => null_or (λ y, if m_is_float then get_type y = FLOAT else True)
  | count_distinct _ | distinct _ => plain_of t
  | _ => λ _, True
  end.

Definition valid_input (t : flex_type_enum) (v : group_aggregate_value) (x : list flexible_type) : Prop :=
  match x with
  | [] => False
  | y :: l => valid_value t v y ∧ match v with argmin _ _ | argmax _ _ => l ≠ [] | _ => True end
  end.

#[global] Instance valid_value_dec t v y : Decision (valid_value t v y).
Proof.
  assert (Decision (ordered t y)) by (unfold ordered; destruct y; apply _).
  assert (Decision (plain_of t y)) by (unfold plain_of; apply _).
  destruct v as [| | | | | | | | | | | | |? ? []| | | |]; cbn; unfold null_or; apply _.
Defined.

#[global] Instance valid_input_dec t v x : Decision (valid_input t v x).
Proof. destruct x; [apply _|]. cbn. destruct v; apply _. Defined.

(** The aggregators whose results do not depend on how the rows are split; [sum] is of
    integers. *)
Definition combinable (v : group_aggregate_value) : Prop :=
  match v with
  | sum value => get_type value = INTEGER
  | min _ _ | max _ _ | argmin _ _ | argmax _ _ | count _ | non_null_count _ | zip_list _ _ _
  | select_one _ _ | count_distinct _ | distinct _ => True
  | _ => False
  end.

Lemma is_null_spec y : is_null y = true ↔ y = FUndefined.
Proof. unfold is_null, is_undefined. rewrite bool_decide_eq_true. by destruct y. Qed.

Lemma equals_undefined_spec y : equals_undefined hash y = is_null y.
Proof. by destruct y. Qed.

(** Most aggregators read the first value only. *)
Definition reads_first (v : group_aggregate_value) : Prop :=
  match v with argmin _ _ | argmax _ _ | zip_dict _ _ => False | _ => True end.

Lemma add_first y l v : reads_first v → add (y :: l) v = add_element_simple oob atof hash y v.
Proof. destruct l, v; done. Qed.

(** ** Counts and sums *)

Definition count_combinable t n : Combinable (count n) (valid_input t (count n)).
Proof.
  refine {| sm_unit := 0; sm_op := Z.add; sm_single := λ _, 1; sm_state m := count (u64 m); sm_good _ := True |};
    try done.
  - lia.
  - intros [|y l] m Hx _; [done|]. rewrite add_first by done. methods. by rewrite uw_add_l.
  - intros a b _ _. methods. by rewrite uw_add_l, uw_add_r.
  - intros m _. by eexists.
Defined.

Definition non_null_count_combinable t n : Combinable (non_null_count n) (valid_input t (non_null_count n)).
Proof.
  refine {| sm_unit := 0; sm_op := Z.add; sm_state m := non_null_count (u64 m); sm_good _ := True;
    sm_single x := match x with y :: _ => if is_null y then 0 else 1 | [] => 0 end |}; try done.
  - lia.
  - intros [|y l] m Hx _; [done|]. rewrite add_first by done. methods. destruct (is_null y); [by rewrite Z.add_0_r|].
    by rewrite uw_add_l.
  - intros a b _ _. methods. by rewrite uw_add_l, uw_add_r.
  - intros m _. by eexists.
Defined.

Lemma s64_add_l a b : s64 (s64 a + b) = s64 (a + b).
Proof. by rewrite <- sw_uw, <- uw_add_l, uw_sw, uw_add_l, sw_uw. Qed.

Definition sum_combinable t value : get_type value = INTEGER →
  Combinable (sum value) (valid_input t (sum value)).
Proof.
  intros Ht. refine {| sm_unit := 0; sm_op := Z.add; sm_state m := sum (FInt (s64 m)); sm_good _ := True;
    sm_single x := match x with FInt i :: _ => i | _ => 0 end |}; try done.
  - cbn. by rewrite Ht.
  - lia.
  - intros [|y l] m Hx _; [done|]. rewrite add_first by done. destruct Hx as [[->|Hy] _]; [by rewrite Z.add_0_r|].
    destruct y; try done. methods. by rewrite s64_add_l.
  - intros a b _ _. methods. by rewrite s64_add_l, Z.add_comm, s64_add_l, Z.add_comm.
  - intros m _. by eexists.
Defined.

(** ** Lists *)

Definition zip_list_combinable t mv mm fl : Combinable (zip_list mv mm fl) (valid_input t (zip_list mv mm fl)).
Proof.
  refine {| sm_unit := ([], false); sm_op a b := (a.1 ++ b.1, a.2 || b.2); sm_state m := zip_list m.1 m.2 fl;
    sm_good m := Forall (λ y, if fl then get_type y = FLOAT else True) m.1;
    sm_single x := match x with y :: _ => if is_null y then ([], true) else ([y], false) | [] => ([], false) end |};
    try done.
  - by intros [].
  - intros a b c _ _ _. cbn. by rewrite app_assoc, orb_assoc.
  - intros [|y l] Hx; [done|]. destruct Hx as [[->|Hy] _]; [constructor|]. destruct (is_null y); [constructor|].
    by repeat constructor.
  - intros a b Ha Hb. by apply Forall_app.
  - intros [|y l] m Hx _; [done|]. rewrite add_first by done.
    methods. rewrite equals_undefined_spec.
    destruct (is_null y); cbn; [by rewrite app_nil_r, orb_true_r|by rewrite orb_false_r].
  - intros m Hm. methods. destruct fl; [|by eexists].
    destruct (outcome_map_total (get_float_visitor atof) (λ _ _, True) m.1) as (ys & -> & _); [|by eexists].
    eapply Forall_impl; [done|]. intros y Hy. destruct y; try done. by eexists.
Defined.

Definition select_one_combinable t y h : Combinable (select_one y h) (valid_input t (select_one y h)).
Proof.
  refine {| sm_unit := None; sm_op a b := match a with None => b | _ => a end; sm_single x := head x;
    sm_state m := match m with None => select_one default_value false | Some y => select_one y true end;
    sm_good := is_Some |}; try done.
  - intros [] [] []; by repeat intros [? ?].
  - intros [|x l] Hx; [done|by eexists].
  - intros [] b [? ?] ?; [by eexists|done].
  - intros [|x l] m Hx _; [done|]. rewrite add_first by (by destruct m). by destruct m.
  - intros [] [] [? ?] [? ?]; done.
  - intros [] [? ?]; [|done]. by eexists.
Defined.

(** ** Sets *)

Lemma same_entry_plain t x y : plain_of t x → plain_of t y → same_entry hash x y = true ↔ x = y.
Proof.
  intros [Hx Htx] [Hy Hty]. unfold same_entry. rewrite andb_true_iff, Z.eqb_eq.
  pose proof (plain_eq hash x y Hx Hy) as Heq. rewrite andb_true_iff, bool_decide_eq_true, orb_true_iff in Heq.
  split; [intros [_ He]|intros ->].
  - apply Heq. split; [|by right].
    destruct Htx as [->|Htx], Hty as [->|Hty]; [done|by destruct y|by destruct x|congruence].
  - split; [done|]. destruct (proj2 Heq eq_refl) as [_ [Hu|He]]; [|done].
    unfold is_undefined in Hu. rewrite bool_decide_eq_true in Hu. by destruct y.
Qed.

Lemma set_insert_plain t x l : plain_of t x → Forall (plain_of t) l →
  set_insert hash x l = l ++ filter (λ y, y ∉ l) [x].
Proof.
  intros Hx. induction 1 as [|y l Hy _ IH]; cbn [set_insert]; [done|].
  destruct (same_entry hash y x) eqn:Heq.
  - apply (same_entry_plain t) in Heq as ->; [|done..]. rewrite filter_cons, filter_nil, decide_False; [by rewrite app_nil_r|].
    intros Hn. apply Hn. left.
  - rewrite IH. cbn [app]. f_equal. f_equal. rewrite !filter_cons, !filter_nil.
    assert (x ≠ y) as Hne by (intros ->; rewrite (proj2 (same_entry_plain t y y Hy Hy)) in Heq; done).
    destruct (decide (x ∉ l)) as [Hin|Hin].
    + rewrite decide_True; [done|]. by intros [?|?]%elem_of_cons.
    + rewrite decide_False; [done|]. intros Hn. apply Hin. intros ?. apply Hn. by right.
Qed.

(** The union of two sets, the elements of the first before the others of the second. *)
Definition set_union (a b : list flexible_type) : list flexible_type := a ++ filter (λ y, y ∉ a) b.

Lemma set_union_assoc a b c : set_union a (set_union b c) = set_union (set_union a b) c.
Proof.
  unfold set_union. rewrite filter_app, <- app_assoc. do 2 f_equal. rewrite list_filter_filter.
  apply list_filter_iff. intros x. rewrite elem_of_app, list_elem_of_filter. destruct (decide (x ∈ a)); tauto.
Qed.

Lemma set_union_NoDup a b : NoDup a → NoDup b → NoDup (set_union a b).
Proof.
  intros Ha Hb. apply NoDup_app. split_and!; [done| |by apply NoDup_filter].
  by intros x Hx [Hn _]%list_elem_of_filter.
Qed.

Lemma set_insert_all t b : ∀ a, NoDup b → Forall (plain_of t) a → Forall (plain_of t) b →
  foldl (λ l x, set_insert hash x l) a b = set_union a b.
Proof.
  induction b as [|x b IH]; intros a Hn Ha Hb; cbn [foldl].
  { unfold set_union. by rewrite filter_nil, app_nil_r. }
  inversion_clear Hb as [|?? Hx Hb']. apply NoDup_cons in Hn as [Hx' Hn].
  rewrite (set_insert_plain t) by done. fold (set_union a [x]). rewrite IH; [|done| |done].
  - rewrite <- set_union_assoc. f_equal. unfold set_union at 1. cbn [app]. f_equal. apply filter_all.
    intros y Hy ->%list_elem_of_singleton. done.
  - apply Forall_app. split; [done|]. apply Forall_filter_keep. constructor; [done|constructor].
Qed.

Definition set_good (t : flex_type_enum) (m : list flexible_type) : Prop := NoDup m ∧ Forall (plain_of t) m.

Lemma set_good_union t a b : set_good t a → set_good t b → set_good t (set_union a b).
Proof.
  intros [Hna Ha] [Hnb Hb]. split; [by apply set_union_NoDup|]. apply Forall_app. split; [done|].
  by apply Forall_filter_keep.
Qed.

Definition set_single (x : list flexible_type) : list flexible_type := take 1 x.

Lemma set_single_good t x : match x with [] => False | y :: _ => plain_of t y ∧ True end → set_good t (set_single x).
Proof. destruct x as [|y l]; [done|]. intros [Hy _]. split; [apply NoDup_singleton|].
  constructor; [done|constructor].
Qed.

Lemma set_union_nil m : set_union [] m = m.
Proof. apply filter_all. intros y _. apply not_elem_of_nil. Qed.

Definition count_distinct_combinable t m : Combinable (count_distinct m) (valid_input t (count_distinct m)).
Proof.
  refine {| sm_unit := []; sm_op := set_union; sm_single := set_single; sm_state := count_distinct; sm_good := set_good t |};
    try done.
  - intros a _. apply set_union_nil.
  - intros a b c _ _ _. apply set_union_assoc.
  - apply set_single_good.
  - apply set_good_union.
  - intros [|y l] a Hx Ha; [done|]. rewrite add_first by done.
    destruct Hx as [Hy _]. cbn. rewrite (set_insert_plain t); [done|done|]. by destruct Ha as [->|[_ ?]]; [constructor|].
  - intros a b [_ Ha] [Hn Hb]. methods. by rewrite (set_insert_all t).
  - intros a _. by eexists.
Defined.

Definition distinct_combinable t m : Combinable (distinct m) (valid_input t (distinct m)).
Proof.
  refine {| sm_unit := []; sm_op := set_union; sm_single := set_single; sm_state := distinct; sm_good := set_good t |};
    try done.
  - intros a _. apply set_union_nil.
  - intros a b c _ _ _. apply set_union_assoc.
  - apply set_single_good.
  - apply set_good_union.
  - intros [|y l] a Hx Ha; [done|]. rewrite add_first by done.
    destruct Hx as [Hy _]. cbn. rewrite (set_insert_plain t); [done|done|]. by destruct Ha as [->|[_ ?]]; [constructor|].
  - intros a b [_ Ha] [Hn Hb]. methods. by rewrite (set_insert_all t).
  - intros a _. by eexists.
Defined.

(** ** Extrema *)

Definition ord_lt (x y : flexible_type) : bool :=
  match x, y with
  | FInt x, FInt y => x <? y
  | FFloat x, FFloat y => flt x y
  | FDateTime x, FDateTime y => dt_lt x y
  | _, _ => false
  end.

Lemma ordered_lt t x y : ordered t x → ordered t y →
  lt_operator x y = Ok (ord_lt x y) ∧ gt_operator x y = Ok (ord_lt y x).
Proof.
  intros [Hx Hox] [Hy Hoy]. destruct x as [i|f|s|v|l|d|d| |m], y as [j|g|u|w|k|e|e| |n]; try done;
    cbn [get_type] in *; try congruence; cbn [lt_operator gt_operator ord_lt]; by rewrite ?dt_gt_lt.
Qed.

Lemma ord_lt_trans t x y z : ordered t x → ordered t y → ordered t z →
  ord_lt x y = true → ord_lt y z = true → ord_lt x z = true.
Proof.
  intros [Hx Hox] [Hy Hoy] [Hz Hoz]. destruct x, y, z; cbn [get_type] in *; try done; try congruence; cbn [ord_lt].
  - rewrite !Z.ltb_lt. lia.
  - apply flt_trans.
  - apply dt_lt_trans.
Qed.

Lemma ord_lt_weak t x y z : ordered t x → ordered t y → ordered t z →
  ord_lt x y = false → ord_lt y z = false → ord_lt x z = false.
Proof.
  intros [Hx Hox] [Hy Hoy] [Hz Hoz]. destruct x, y, z; cbn [get_type] in *; try done; try congruence; cbn [ord_lt].
  - rewrite !Z.ltb_ge. lia.
  - unfold flt. rewrite Hox, Hoy, Hoz. cbn. rewrite !Z.ltb_ge. lia.
  - unfold dt_lt. rewrite !orb_false_iff, !andb_false_iff, !Z.ltb_ge, !Z.eqb_neq. lia.
Qed.

Section best.
Context {A : Type} (P : A → Prop) (better : A → A → bool).
Context (Htrans : ∀ x y z, P x → P y → P z → better x y = true → better y z = true → better x z = true).
Context (Hweak : ∀ x y z, P x → P y → P z → better x y = false → better y z = false → better x z = false).

(** The first of the best. *)
Definition best (a b : option A) : option A :=
  match a, b with
  | None, _ => b
  | _, None => a
  | Some m, Some x => Some (if better x m then x else m)
  end.

Definition best_good (a : option A) : Prop := match a with None => True | Some x => P x end.

Lemma best_closed a b : best_good a → best_good b → best_good (best a b).
Proof. destruct a, b; cbn; try done. by destruct (better _ _). Qed.

Lemma best_assoc a b c : best_good a → best_good b → best_good c → best a (best b c) = best (best a b) c.
Proof using Htrans Hweak.
  destruct a as [x|], b as [y|], c as [z|]; cbn; try done. intros Hx Hy Hz. f_equal.
  destruct (better y x) eqn:Hyx, (better z y) eqn:Hzy; cbn.
  - by rewrite (Htrans z y x).
  - by rewrite Hyx.
  - done.
  - by rewrite Hyx, (Hweak z y x).
Qed.
End best.

Definition extremum (value : flexible_type) (x : list flexible_type) : option flexible_type :=
  match x with y :: _ => if is_null y then None else Some y | [] => None end.

Lemma extremum_good t value x :
  match x with [] => False | y :: _ => null_or (ordered t) y ∧ True end → best_good (ordered t) (extremum value x).
Proof.
  destruct x as [|y l]; [done|]. intros [[->|Hy] _]; [done|]. cbn. by destruct (is_null y).
Qed.

Lemma ordered_not_null t y : ordered t y → is_null y = false.
Proof. intros [_ Hy]. by destruct y. Qed.

Definition min_combinable t value init : Combinable (min value init) (valid_input t (min value init)).
Proof.
  refine {| sm_unit := None; sm_op := best ord_lt; sm_single := extremum value; sm_good := best_good (ordered t);
    sm_state m := match m with None => min (reset (get_type value)) false | Some y => min y true end |}; try done.
  - intros a b c. apply best_assoc; intros ???; [apply ord_lt_trans|apply ord_lt_weak].
  - apply extremum_good.
  - apply best_closed.
  - intros [|y l] m Hx Hm; [done|]. rewrite add_first by (by destruct m).
    destruct Hx as [[->|Hy] _]; [by destruct m|]. cbn [extremum].
    pose proof (ordered_not_null t y Hy) as Hn. destruct m as [x|]; methods; rewrite Hn; [|done]. destruct Hm as [?|Hm]; [done|].
    destruct (ordered_lt t x y Hm Hy) as [_ ->]. cbn. by destruct (ord_lt y x).
  - intros [x|] [y|] Ha Hb; try done. methods. destruct (ordered_lt t x y Ha Hb) as [_ ->]. cbn. by destruct (ord_lt y x).
  - intros [x|] _; by eexists.
Defined.

Definition max_combinable t value init : Combinable (max value init) (valid_input t (max value init)).
Proof.
  refine {| sm_unit := None; sm_op := best (λ x m, ord_lt m x); sm_single := extremum value; sm_good := best_good (ordered t);
    sm_state m := match m with None => max (reset (get_type value)) false | Some y => max y true end |}; try done.
  - intros a b c. apply best_assoc; intros x y z Hx Hy Hz H1 H2; [by apply (ord_lt_trans t z y x)|by apply (ord_lt_weak t z y x)].
  - apply extremum_good.
  - apply best_closed.
  - intros [|y l] m Hx Hm; [done|]. rewrite add_first by (by destruct m).
    destruct Hx as [[->|Hy] _]; [by destruct m|]. cbn [extremum].
    pose proof (ordered_not_null t y Hy) as Hn. destruct m as [x|]; methods; rewrite Hn; [|done]. destruct Hm as [?|Hm]; [done|].
    destruct (ordered_lt t x y Hm Hy) as [-> _]. cbn. by destruct (ord_lt x y).
  - intros [x|] [y|] Ha Hb; try done. methods. destruct (ordered_lt t x y Ha Hb) as [-> _]. cbn. by destruct (ord_lt x y).
  - intros [x|] _; by eexists.
Defined.

(** For [argmin] and [argmax] the best is a row with the value of the other column. *)
Definition head_value (x : list flexible_type) : flexible_type := default FUndefined (head x).

Definition arg_good (t : flex_type_enum) (x : list flexible_type) : Prop :=
  match x with y :: _ :: _ => ordered t y | _ => False end.

Definition arg_single (x : list flexible_type) : option (list flexible_type) :=
  if is_null (head_value x) then None else Some x.

Lemma arg_good_head t x : arg_good t x → head x = Some (head_value x) ∧ ordered t (head_value x).
Proof. by destruct x as [|y [|z l]]. Qed.

Lemma arg_single_good t x :
  match x with [] => False | y :: l => null_or (ordered t) y ∧ l ≠ [] end → best_good (arg_good t) (arg_single x).
Proof.
  destruct x as [|y l]; [done|]. unfold arg_single. cbn. intros [[->|Hy] Hl]; [done|].
  rewrite (ordered_not_null t) by done. cbn. by destruct l.
Qed.

Lemma arg_emit t x : arg_good t x → ∃ y, match x with [] => Ok FUndefined | _ => or_throw (x !! 1%nat) end = Ok y.
Proof. destruct x as [|y [|z l]]; try done. intros _. by exists z. Qed.

Definition argmin_combinable t mv init : Combinable (argmin mv init) (valid_input t (argmin mv init)).
Proof.
  refine {| sm_unit := None; sm_op := best (λ x m, ord_lt (head_value x) (head_value m)); sm_single := arg_single;
    sm_good := best_good (arg_good t);
    sm_state m := match m with None => argmin [] false | Some y => argmin y true end |}; try done.
  - intros a b c. apply best_assoc; intros x y z [_ ?]%arg_good_head [_ ?]%arg_good_head [_ ?]%arg_good_head;
      [by apply (ord_lt_trans t)|by apply (ord_lt_weak t)].
  - apply arg_single_good.
  - apply best_closed.
  - intros [|y [|z l]] m Hx Hm; [done|by destruct Hx|]. destruct Hx as [[->|Hy] _]; [by destruct m|]. unfold arg_single.
    pose proof (ordered_not_null t y Hy) as Hn. destruct m as [x|]; methods; rewrite Hn; [|done]. destruct Hm as [?|Hm]; [done|].
    destruct (arg_good_head t x Hm) as [-> Hox]. cbn.
    destruct (ordered_lt t (head_value x) y Hox Hy) as [_ ->]. cbn. by destruct (ord_lt y _).
  - intros [x|] [y|] Ha Hb; try done. methods. destruct (arg_good_head t x Ha) as [-> Hox], (arg_good_head t y Hb) as [-> Hoy].
    cbn. destruct (ordered_lt t _ _ Hox Hoy) as [_ ->]. cbn. by destruct (ord_lt (head_value y) _).
  - intros [x|] Hx; [by apply (arg_emit t)|by eexists].
Defined.

Definition argmax_combinable t mv init : Combinable (argmax mv init) (valid_input t (argmax mv init)).
Proof.
  refine {| sm_unit := None; sm_op := best (λ x m, ord_lt (head_value m) (head_value x)); sm_single := arg_single;
    sm_good := best_good (arg_good t);
    sm_state m := match m with None => argmax [] false | Some y => argmax y true end |}; try done.
  - intros a b c. apply best_assoc; intros x y z [_ ?]%arg_good_head [_ ?]%arg_good_head [_ ?]%arg_good_head ??;
      [by apply (ord_lt_trans t _ (head_value y))|by apply (ord_lt_weak t _ (head_value y))].
  - apply arg_single_good.
  - apply best_closed.
  - intros [|y [|z l]] m Hx Hm; [done|by destruct Hx|]. destruct Hx as [[->|Hy] _]; [by destruct m|]. unfold arg_single.
    pose proof (ordered_not_null t y Hy) as Hn. destruct m as [x|]; methods; rewrite Hn; [|done]. destruct Hm as [?|Hm]; [done|].
    destruct (arg_good_head t x Hm) as [-> Hox]. cbn.
    destruct (ordered_lt t (head_value x) y Hox Hy) as [-> _]. cbn. by destruct (ord_lt _ y).
  - intros [x|] [y|] Ha Hb; try done. methods. destruct (arg_good_head t x Ha) as [-> Hox], (arg_good_head t y Hb) as [-> Hoy].
    cbn. destruct (ordered_lt t _ _ Hox Hoy) as [-> _]. cbn. by destruct (ord_lt _ (head_value y)).
  - intros [x|] Hx; [by apply (arg_emit t)|by eexists].
Defined.

Definition combinable_aggregator t v : combinable v → Combinable v (valid_input t v).
Proof.
  destruct v; try done; intros Hv.
  - by apply sum_combinable.
  - apply min_combinable.
  - apply max_combinable.
  - apply argmin_combinable.
  - apply argmax_combinable.
  - apply count_combinable.
  - apply non_null_count_combinable.
  - apply zip_list_combinable.
  - apply select_one_combinable.
  - apply count_distinct_combinable.
  - apply distinct_combinable.
Defined.

(** ** The frequencies, which do not combine *)

Fixpoint frequency_of (x : flexible_type) (m : list (flexible_type * Z)) : option Z :=
  match m with [] => None | (y, n) :: m => if same_entry hash y x then Some n else frequency_of x m end.

Definition occurrences (x : flexible_type) (l : list flexible_type) : Z := Z.of_nat (length (filter (λ y, y = x) l)).

Lemma same_entry_dec t x y : plain_of t x → plain_of t y → same_entry hash x y = bool_decide (x = y).
Proof. intros Hx Hy. apply eq_bool_prop_intro. rewrite bool_decide_spec, <- (same_entry_plain t) by done. apply Is_true_true. Qed.

Abbreviation plain_keys t m := (Forall (λ y : flexible_type * Z, plain_of t y.1) m).

Lemma frequency_add t x y n m : plain_of t x → plain_of t y → plain_keys t m →
  frequency_of x (count_more hash y n m) =
    if decide (x = y) then Some (u64 (default 0 (frequency_of x m) + n)) else frequency_of x m.
Proof.
  intros Hx Hy. induction 1 as [|[z k] m Hz _ IH]; cbn [count_more frequency_of].
  - rewrite (same_entry_dec t) by done. case_decide as Hd; [subst; by rewrite bool_decide_eq_true_2|].
    by rewrite bool_decide_eq_false_2.
  - cbn in Hz. rewrite (same_entry_dec t z y) by done. destruct (decide (z = y)) as [->|Hne].
    + rewrite bool_decide_eq_true_2 by done. cbn [frequency_of]. rewrite (same_entry_dec t) by done.
      destruct (decide (x = y)) as [->|Hxy]; [by rewrite bool_decide_eq_true_2|].
      by rewrite bool_decide_eq_false_2 by congruence.
    + rewrite bool_decide_eq_false_2 by done. cbn [frequency_of]. rewrite (same_entry_dec t z x), IH by done.
      case_bool_decide as Hzx; [|done]. subst. by rewrite decide_False.
Qed.

Lemma count_more_keys t y n m : plain_of t y → plain_keys t m → plain_keys t (count_more hash y n m).
Proof.
  intros Hy. induction 1 as [|[z k] m Hz Hm IH]; cbn [count_more]; [by constructor; [|constructor]|].
  destruct (same_entry _ _ _); by constructor.
Qed.

Lemma frequency_insert t x kv m : plain_of t x → plain_of t kv.1 → plain_keys t m →
  frequency_of x (unordered_insert hash kv m) =
    match frequency_of x m with Some n => Some n | None => if decide (x = kv.1) then Some kv.2 else None end.
Proof.
  intros Hx Hy. destruct kv as [y n]; cbn in Hy. induction 1 as [|[z k] m Hz _ IH]; cbn [unordered_insert frequency_of fst snd].
  - rewrite (same_entry_dec t) by done. case_decide as Hd; [subst; by rewrite bool_decide_eq_true_2|].
    by rewrite bool_decide_eq_false_2.
  - cbn in Hz. rewrite (same_entry_dec t z y) by done. destruct (decide (z = y)) as [->|Hne].
    + rewrite bool_decide_eq_true_2 by done. cbn [frequency_of]. rewrite (same_entry_dec t) by done.
      case_bool_decide; [done|]. destruct (frequency_of x m); [done|]. by rewrite decide_False by congruence.
    + rewrite bool_decide_eq_false_2 by done. cbn [frequency_of]. rewrite (same_entry_dec t z x), IH by done.
      by case_bool_decide.
Qed.

Lemma unordered_insert_keys t kv m : plain_of t kv.1 → plain_keys t m → plain_keys t (unordered_insert hash kv m).
Proof.
  intros Hy. induction 1 as [|[z k] m Hz Hm IH]; cbn [unordered_insert]; [by constructor; [|constructor]|].
  destruct (same_entry _ _ _); by constructor.
Qed.

(** The frequencies of a list that is aggregated at once. *)
Lemma frequencies_ok t v l : Forall (plain_of t) l → ∃ m,
  aggregate (frequency_count v) (map (λ y, [y]) l) = Ok (frequency_count m) ∧ plain_keys t m ∧
  ∀ x, plain_of t x → frequency_of x m = if decide (x ∈ l) then Some (u64 (occurrences x l)) else None.
Proof.
  intros HF. unfold aggregate. cbn [new_instance]. induction l as [|y l IH] using rev_ind.
  { exists []. split_and!; [done|constructor|]. intros x _. rewrite decide_False; [done|]. by intros ?%elem_of_nil. }
  apply Forall_app in HF as [HF Hy]. inversion_clear Hy as [|?? Hy' _]. destruct (IH HF) as (m & Hm & Hk & Hfr).
  rewrite map_app, fold_outcome_app, Hm. cbn. exists (count_more hash y 1 m).
  split_and!; [done|by apply count_more_keys|]. intros x Hx. rewrite (frequency_add t), Hfr by done.
  unfold occurrences. rewrite filter_app, length_app, filter_cons, filter_nil.
  destruct (decide (x = y)) as [->|Hne].
  - rewrite (decide_True (P := y ∈ l ++ [y])) by (rewrite elem_of_app, list_elem_of_singleton; by right).
    rewrite (decide_True (P := y = y)) by done. cbn [length]. f_equal. case_decide as Hin; cbn [default from_option id].
    + rewrite uw_add_l. f_equal. lia.
    + rewrite filter_empty; [done|]. by intros z Hz ->.
  - rewrite (decide_False (P := y = x)) by congruence. cbn [length]. rewrite Nat.add_0_r.
    destruct (decide (x ∈ l)) as [Hin|Hin].
    + by rewrite decide_True by (rewrite elem_of_app; by left).
    + rewrite decide_False; [done|]. by intros [?|?%list_elem_of_singleton]%elem_of_app.
Qed.

Lemma frequencies_combine t x m2 : ∀ m1, plain_of t x → plain_keys t m1 → plain_keys t m2 →
  frequency_of x (foldl (λ l kv, unordered_insert hash kv l) m1 m2) =
    match frequency_of x m1 with Some n => Some n | None => frequency_of x m2 end.
Proof.
  induction m2 as [|[y n] m2 IH]; intros m1 Hx H1 H2; cbn [foldl]; [by destruct (frequency_of x m1)|].
  inversion_clear H2 as [|?? Hy H2']. rewrite IH; [|done|by apply unordered_insert_keys|done].
  rewrite (frequency_insert t) by done. cbn [frequency_of fst snd] in *. rewrite (same_entry_dec t y x) by done.
  destruct (frequency_of x m1); [done|]. destruct (decide (x = y)) as [->|Hne].
  - by rewrite bool_decide_eq_true_2.
  - by rewrite bool_decide_eq_false_2 by congruence.
Qed.
End spec.
End GroupAggregateSpec.

Import FlexType FlexOps GroupAggregate GroupBy GroupBySpec GroupBySegment GroupKeySpec GroupAggregateSpec.

Module GroupLawsSpec.

(** A row whose key is plain and whose values suit the aggregators; [types] gives the type of
    the first column of each. *)
Definition valid_row (num_keys : nat) (types : list flex_type_enum) (ds : list group_descriptor) (r : row) : Prop :=
  plain_key num_keys (take num_keys r) ∧ Forall2 (λ t d, valid_input t (aggregator d) (inputs d r)) types ds.

#[global] Instance valid_row_dec n types ds r : Decision (valid_row n types ds r).
Proof. unfold valid_row. apply _. Defined.

Section group_laws.
Context (oob : Z → Z) (atof : list Z → Z) (hash : flexible_type → Z).
Context (num_keys : nat) (types : list flex_type_enum) (ds : list group_descriptor).
Context (Hds : Forall (λ d, combinable (aggregator d)) ds).

Abbreviation valid := (valid_row num_keys types ds).
Abbreviation total d rs := (aggregate oob atof hash (aggregator d) (inputs d <$> rs)).

(** The partial result of a group has the partial result of each aggregator. *)
Definition totals (l : list group_descriptor) (rs : list row) (ws : list group_aggregate_value) : Prop :=
  Forall2 (λ d w, total d rs = Ok w) l ws.

Lemma add_values_ok r l : ∀ vs ws, Forall3 (λ d v w, add_inputs oob atof hash (inputs d r) v = Ok w) l vs ws →
  add_values oob atof hash r l vs = Ok ws.
Proof. induction 1 as [|d v w l vs ws Hd _ IH]; [done|]. cbn. rewrite Hd. cbn. by rewrite IH. Qed.

Lemma fold_add_row k rs : ∀ vs ws,
  Forall3 (λ d v w, fold_outcome (add_inputs oob atof hash) (inputs d <$> rs) v = Ok w) ds vs ws →
  fold_outcome (add_row oob atof hash ds) rs (Element k vs) = Ok (Element k ws).
Proof.
  clear Hds. induction rs as [|r rs IH]; intros vs ws HF; cbn [fold_outcome].
  { do 2 f_equal. by induction HF as [|d v w l vs ws [= ->] _ ->]. }
  assert (∃ us, Forall3 (λ d v u, add_inputs oob atof hash (inputs d r) v = Ok u) ds vs us ∧
    Forall3 (λ d u w, fold_outcome (add_inputs oob atof hash) (inputs d <$> rs) u = Ok w) ds us ws)
    as (us & Hus & Hws).
  { clear IH. induction HF as [|d v w l vs ws Hd _ (us & ? & ?)]; [exists []; split; constructor|].
    cbn in Hd. apply bind_Ok in Hd as (u & ? & ?). exists (u :: us). by split; constructor. }
  assert (add_row oob atof hash ds r (Element k vs) = Ok (Element k us)) as ->; [|by apply IH].
  unfold add_row. cbn [GroupBy.values GroupBy.key]. by rewrite (add_values_ok _ _ _ _ Hus).
Qed.

Lemma partial_totals k rs ws : totals ds rs ws → partial oob atof hash ds k rs = Ok (Element k ws).
Proof.
  clear Hds. intros HF. apply fold_add_row. induction HF; [constructor|]. by constructor.
Qed.

(** An aggregator sees valid inputs. *)
Lemma valid_column rs : Forall valid rs →
  Forall (λ d, combinable (aggregator d) ∧ ∃ t, Forall (valid_input t (aggregator d)) (inputs d <$> rs)) ds.
Proof.
  intros HV. apply Forall_lookup. intros i d Hd. rewrite Forall_lookup in Hds. split; [by apply (Hds i)|].
  rewrite Forall_forall in HV. destruct (types !! i) as [t|] eqn:Ht; [exists t|exists INTEGER]; apply Forall_fmap, Forall_forall;
    intros r Hr; destruct (HV r Hr) as [_ HF]; destruct (Forall2_lookup_r _ _ _ _ _ HF Hd) as (u & Hu & ?); by simplify_eq/=.
Qed.

Lemma totals_total rs : Forall valid rs → ∃ ws, totals ds rs ws.
Proof.
  intros HV%valid_column. clear Hds. induction HV as [|d l (Hc & t & HV) _ (ws & Hws)]; [exists []; constructor|].
  destruct (aggregate_total oob atof hash (HC := combinable_aggregator oob atof hash t (aggregator d) Hc) _ HV) as [w Hw].
  exists (w :: ws). by constructor.
Qed.

Lemma combine_totals rs1 rs2 : Forall valid rs1 → Forall valid rs2 → rs1 ≠ [] → rs2 ≠ [] → ∀ ws1 ws2,
  totals ds rs1 ws1 → totals ds rs2 ws2 → ∃ ws, combine_values oob hash ws2 ws1 = Ok ws ∧ totals ds (rs1 ++ rs2) ws.
Proof.
  intros HV1 HV2 Hn1 Hn2. assert (Forall valid (rs1 ++ rs2)) as HV%valid_column by by apply Forall_app.
  clear Hds HV1 HV2. induction HV as [|d l (Hc & t & HV) _ IH]; intros ws1 ws2 H1 H2.
  { inversion H1; inversion H2; subst. exists []. split; [done|constructor]. }
  inversion_clear H1 as [|? w1 ? ws1' Hw1 H1']; inversion_clear H2 as [|? w2 ? ws2' Hw2 H2'].
  rewrite fmap_app in HV. apply Forall_app in HV as [HV1 HV2].
  pose proof (aggregate_combine oob atof hash (HC := combinable_aggregator oob atof hash t (aggregator d) Hc)
    _ _ w1 w2 HV1 HV2) as Hcomb. rewrite <- fmap_app in Hcomb.
  destruct (aggregate_total oob atof hash (HC := combinable_aggregator oob atof hash t (aggregator d) Hc)
    (inputs d <$> rs1 ++ rs2)) as [w Hw]; [rewrite fmap_app; by apply Forall_app|].
  destruct (IH ws1' ws2') as (ws & Hws & ?); [done..|]. exists (w :: ws). split; [|by constructor].
  cbn [combine_values]. rewrite Hcomb, Hw; [|by destruct rs1|by destruct rs2|done|done]. cbn [mbind outcome_bind].
  by rewrite Hws.
Qed.

Lemma emit_totals rs : Forall valid rs → rs ≠ [] → ∀ ws, totals ds rs ws → ∃ xs, outcome_map (emit atof) ws = Ok xs.
Proof.
  intros HV%valid_column Hn. clear Hds. induction HV as [|d l (Hc & t & HV) _ IH]; intros ws Hws; inversion_clear Hws as [|? w ? ws' Hw Hws'].
  { by exists []. }
  destruct (aggregate_emit oob atof hash (HC := combinable_aggregator oob atof hash t (aggregator d) Hc) _ w HV) as [x Hx];
    [by destruct rs|done|].
  destruct (IH ws' Hws') as [xs Hxs]. exists (x :: xs). cbn. rewrite Hx. cbn. by rewrite Hxs.
Qed.

#[export] Instance group_laws : GroupLaws oob atof hash ds num_keys (plain_key num_keys) valid.
Proof using Hds.
  split.
  - by intros r [Hk _].
  - intros k rs HV. destruct (totals_total rs HV) as [ws Hws]. eexists. by apply partial_totals.
  - intros k l1 l2 e1 e2 HV1 HV2 Hn1 Hn2. destruct (totals_total l1 HV1) as [ws1 Hws1], (totals_total l2 HV2) as [ws2 Hws2].
    rewrite (partial_totals k _ _ Hws1), (partial_totals k _ _ Hws2). intros [= <-] [= <-].
    destruct (combine_totals l1 l2 HV1 HV2 Hn1 Hn2 ws1 ws2 Hws1 Hws2) as (ws & Hws & Ht).
    rewrite (partial_totals _ _ _ Ht). unfold combine_element. cbn [GroupBy.values GroupBy.key]. by rewrite Hws.
  - intros k rs e HV Hn. destruct (totals_total rs HV) as [ws Hws]. rewrite (partial_totals _ _ _ Hws). intros [= <-].
    destruct (emit_totals rs HV Hn ws Hws) as [xs Hxs]. unfold emission. cbn [GroupBy.values GroupBy.key].
    rewrite Hxs. by eexists.
Qed.

(** The result of a group: its key and the results of the aggregators on its rows. *)
Lemma group_result_values k rs r : Forall valid rs → group_result oob atof hash ds k rs = Ok r → ∃ xs, r = k ++ xs ∧
  Forall2 (λ d x, (w ← total d rs; emit atof w) = Ok x) ds xs.
Proof using Hds.
  intros HV. destruct (totals_total rs HV) as [ws Hws]. unfold group_result, emission. rewrite (partial_totals _ _ _ Hws).
  cbn [mbind outcome_bind GroupBy.values GroupBy.key]. intros (xs & Hxs & [= <-])%bind_Ok. exists xs. split; [done|].
  clear Hds HV. revert xs Hxs. induction Hws as [|d w l ws Hw _ IH]; intros xs Hxs; cbn in Hxs.
  - injection Hxs as <-. constructor.
  - apply bind_Ok in Hxs as (x & Hx & (ys & Hys & [= <-])%bind_Ok). constructor; [by rewrite Hw|by apply IH].
Qed.
End group_laws.

End GroupLawsSpec.
