(* ===== verification/SFrameSpec.v ===== *)
(** What the operations on frames do: names that are free are found, frames stay valid, and rows
    are read back as they were written, converted to the types of their columns. *)
From stdpp Require Import sorting.
From S2P Require Import Prelude FlexType FlexOps FlexOpsSpec QueryPlan QueryPlanSpec GroupBySpec SFrame.
Import FlexType FlexOps FlexOpsSpec SFrame.
Import QueryPlan(SoftAssign, soft_assign).
Import QueryPlanSpec(fits, SoftAssignTyped, soft_assign_keeps_type).
Import GroupBySpec(bind_Ok, elem_of_concat, filter_all).
Local Open Scope Z_scope.
Local Open Scope sframe_scope.

Module SFrameSpec.

(** ** The searches for a name *)

(** Of more distinct names than are taken, one is free. *)
Lemma not_all_taken (f : nat → name) names fuel :
  (∀ i j, f i = f j → i = j) → (∀ k, (k < fuel)%nat → f k ∈ names) → (fuel ≤ length names)%nat.
Proof.
  intros Hinj Hin. pose proof (NoDup_incl_length (l := map f (seq 0 fuel)) (l' := names)) as H.
  rewrite length_map, length_seq in H. apply H.
  - apply NoDup_ListNoDup, NoDup_fmap_2; [|apply NoDup_seq]. intros i j. apply Hinj.
  - intros x (k & <- & Hk)%in_map_iff. apply list_elem_of_In, Hin. apply in_seq in Hk. lia.
Qed.

Lemma int_to_string_inj n m : 0 ≤ n → 0 ≤ m → int_to_string n = int_to_string m → n = m.
Proof.
  intros Hn Hm Heq. by rewrite <- (parse_int_to_string n Hn), <- (parse_int_to_string m Hm), Heq.
Qed.

Lemma contains_column_spec n names : contains_column n names = true ↔ n ∈ names.
Proof. apply bool_decide_eq_true. Qed.

Lemma contains_column_false n names : contains_column n names = false ↔ n ∉ names.
Proof. apply bool_decide_eq_false. Qed.

(** The search gives a name that is not taken, or every name it tried is. *)
Lemma next_free_name_spec fuel base names : ∀ number,
  match next_free_name fuel number base names with
  | Some n => n ∉ names ∧ ∃ k, n = base ++ int_to_string k
  | None => ∀ k, (k < fuel)%nat → base ++ int_to_string (number + Z.of_nat k) ∈ names
  end.
Proof.
  induction fuel as [|fuel IH]; intros number; cbn [next_free_name]; [intros; lia|].
  destruct (contains_column (base ++ int_to_string number) names) eqn:Hc.
  2:{ apply contains_column_false in Hc. eauto. }
  apply contains_column_spec in Hc. specialize (IH (number + 1)).
  destruct (next_free_name fuel (number + 1) base names); [done|]. intros [|k] Hk; [by rewrite Z.add_0_r|].
  replace (number + Z.of_nat (S k)) with (number + 1 + Z.of_nat k) by lia. apply IH. lia.
Qed.

Lemma next_free_name_found base names : ∃ n k,
  next_free_name (S (length names)) 1 base names = Some n ∧ n ∉ names ∧ n = base ++ int_to_string k.
Proof.
  pose proof (next_free_name_spec (S (length names)) base names 1) as H.
  destruct (next_free_name _ _ _ _) as [n|]; [destruct H as (? & k & ?); by exists n, k|].
  apply (not_all_taken (λ k, base ++ int_to_string (1 + Z.of_nat k))) in H; [lia|].
  intros i j Heq%app_inv_head%int_to_string_inj; lia.
Qed.

Lemma temporary_name_spec fuel : ∀ n names,
  match temporary_name fuel n names with
  | Some m => m ∉ names ∧ ∃ s, m = n ++ s
  | None => ∀ k, (k < fuel)%nat → n ++ concat (replicate k underscores) ∈ names
  end.
Proof.
  induction fuel as [|fuel IH]; intros n names; cbn [temporary_name]; [intros; lia|].
  destruct (contains_column n names) eqn:Hc.
  2:{ apply contains_column_false in Hc. split; [done|]. exists []. by rewrite app_nil_r. }
  apply contains_column_spec in Hc. specialize (IH (n ++ underscores) names).
  destruct (temporary_name fuel (n ++ underscores) names).
  - destruct IH as (? & s & ->). split; [done|]. exists (underscores ++ s). by rewrite <- app_assoc.
  - intros [|k] Hk; [by rewrite app_nil_r|]. cbn. specialize (IH k ltac:(lia)). by rewrite <- app_assoc in IH.
Qed.

Lemma temporary_name_found n names : ∃ m,
  temporary_name (S (length names)) n names = Some m ∧ m ∉ names ∧ ∃ s, m = n ++ s.
Proof.
  pose proof (temporary_name_spec (S (length names)) n names) as H.
  destruct (temporary_name _ _ _) as [m|]; [destruct H as (? & s & ?); eauto|].
  apply (not_all_taken (λ k, n ++ concat (replicate k underscores))) in H; [lia|].
  assert (∀ k, length (concat (replicate k underscores)) = 2 * k)%nat as Hl.
  { induction k as [|k IHk]; [done|]. cbn. rewrite IHk. lia. }
  intros i j Heq%(f_equal length). rewrite !length_app, !Hl in Heq. lia.
Qed.

(** ** The generated name *)

Lemma generate_name_spec column_name names : ∃ n,
  generate_valid_column_name column_name names = Ok n ∧ n ∉ names ∧ n ≠ [] ∧
  (column_name ≠ [] → column_name ∉ names → n = column_name).
Proof.
  unfold generate_valid_column_name.
  set (c := match column_name with [] => _ | _ => _ end).
  assert (c ≠ []) as Hc by (unfold c; by destruct column_name).
  destruct (contains_column c names) eqn:Hin.
  - destruct (next_free_name_found (c ++ [ch_dot]) names) as (n & k & -> & Hn & Heq). exists n. split_and!; [done..| |].
    + rewrite Heq. by destruct c.
    + intros Hne Hni. apply contains_column_spec in Hin. unfold c in Hin. by destruct column_name.
  - apply contains_column_false in Hin. exists c. split_and!; [done..|]. intros ? _. unfold c. by destruct column_name.
Qed.

(** A name that is free is kept. *)
Lemma generate_free_name n names : n ≠ [] → n ∉ names → generate_valid_column_name n names = Ok n.
Proof.
  intros Hn Hni. destruct (generate_name_spec n names) as (m & Hm & _ & _ & Hk). by rewrite Hm, Hk.
Qed.

Definition names_ok (names : list name) : Prop := NoDup names ∧ [] ∉ names.

#[global] Instance names_ok_dec names : Decision (names_ok names).
Proof. unfold names_ok. apply _. Defined.

Lemma names_ok_nil : names_ok [].
Proof. by split; [apply NoDup_nil|apply not_elem_of_nil]. Qed.

Lemma names_ok_snoc names n : names_ok names → n ∉ names → n ≠ [] → names_ok (names ++ [n]).
Proof.
  intros [Hnd Hne] Hn Hn'. split.
  - apply NoDup_app. split_and!; [done| |apply NoDup_singleton]. intros x Hx ->%list_elem_of_singleton. done.
  - rewrite elem_of_app, list_elem_of_singleton. intros [?|<-]; done.
Qed.

Lemma fill_names_total n : ∀ given names, names_ok names → ∃ ns,
  fill_column_names n given names = Ok ns ∧ names_ok ns ∧ length ns = (length names + n)%nat.
Proof.
  induction n as [|n IH]; intros given names Hok; cbn [fill_column_names]; [exists names; split_and!; [done..|lia]|].
  destruct (generate_name_spec (default [] (head given)) names) as (m & Hm & Hf & Hne & _). rewrite Hm. cbn [mbind outcome_bind].
  destruct (IH (tail given) (names ++ [m])) as (ns & Hns & Hok' & Hl); [by apply names_ok_snoc|].
  exists ns. split_and!; [done..|]. rewrite Hl, length_app. cbn. lia.
Qed.

(** Distinct names that are not empty are kept. *)
Lemma fill_names_kept given : ∀ names, names_ok (names ++ given) →
  fill_column_names (length given) given names = Ok (names ++ given).
Proof.
  induction given as [|g given IH]; intros names Hok; cbn; [by rewrite app_nil_r|].
  destruct Hok as [Hnd Hne]. rewrite generate_free_name.
  - cbn. rewrite IH; rewrite <- app_assoc; done.
  - intros ->. apply Hne. set_solver.
  - apply NoDup_app in Hnd as (_ & Hd & _). intros Hin. apply (Hd _ Hin). left.
Qed.

(** ** Valid frames *)

(** The values of a column are of its type, or undefined. *)
Definition typed_column (c : sarray) : Prop := Forall (fits (sa_type c)) (sa_data c).

Record frame_ok (sf : sframe) : Prop := FrameOk {
  fok_inited : inited sf = true;
  fok_names : names_ok (column_names sf);
  fok_length : length (column_names sf) = num_columns sf;
  fok_sizes : Forall (λ c, sa_size c = nrows sf) (columns sf);
  fok_empty : columns sf = [] → nrows sf = 0%nat;
  fok_typed : Forall typed_column (columns sf);
}.

Definition frame_okb (sf : sframe) : bool :=
  inited sf && bool_decide (names_ok (column_names sf)) && (length (column_names sf) =? num_columns sf)%nat &&
  forallb (λ c, sa_size c =? nrows sf)%nat (columns sf) &&
  (negb (num_columns sf =? 0)%nat || (nrows sf =? 0)%nat) &&
  forallb (λ c, forallb (λ v, bool_decide (fits (sa_type c) v)) (sa_data c)) (columns sf).

Lemma frame_okb_ok sf : frame_okb sf = true → frame_ok sf.
Proof.
  unfold frame_okb. rewrite !andb_true_iff. intros (((((Hi & Hn) & Hl) & Hs) & He) & Ht). split.
  - done.
  - by apply bool_decide_eq_true in Hn.
  - by apply Nat.eqb_eq in Hl.
  - apply Forall_forall. intros c Hc. rewrite forallb_forall in Hs. apply Nat.eqb_eq, Hs. by apply list_elem_of_In.
  - intros Hcs. unfold num_columns in He. rewrite Hcs in He. by apply Nat.eqb_eq in He.
  - apply Forall_forall. intros c Hc. unfold typed_column. apply Forall_forall. intros v Hv.
    rewrite forallb_forall in Ht. specialize (Ht c (proj1 (list_elem_of_In _ _) Hc)).
    rewrite forallb_forall in Ht. specialize (Ht v (proj1 (list_elem_of_In _ _) Hv)).
    by apply bool_decide_eq_true in Ht.
Qed.

Lemma frame_rows sf : frame_ok sf → num_rows sf = nrows sf.
Proof. intros Hok. unfold num_rows. by rewrite fok_inited. Qed.

(** ** Frames from columns *)

Lemma forallb_sizes cs n : forallb (λ i, sa_size i =? n)%nat cs = true ↔ Forall (λ c, sa_size c = n) cs.
Proof.
  rewrite Forall_forall, forallb_forall. setoid_rewrite <- list_elem_of_In. by setoid_rewrite Nat.eqb_eq.
Qed.

(** A frame that is made of typed columns is valid. *)
Lemma make_frame_ok cs names fail sf :
  create_arrays_for_reading cs names fail = Ok sf → Forall typed_column cs → frame_ok sf ∧ columns sf = cs.
Proof.
  unfold create_arrays_for_reading. intros H Ht. destruct cs as [|c cs].
  { injection H as <-. split; [|done]. by split; [|apply names_ok_nil|..]. }
  destruct (forallb _ _) eqn:Hs; [|done]. destruct (fail && _); [done|].
  apply bind_Ok in H as (ns & Hns & [= <-]). apply forallb_sizes in Hs.
  destruct (fill_names_total (length (c :: cs)) names []) as (ns' & Hns' & Hok & Hl).
  { apply names_ok_nil. }
  rewrite Hns' in Hns. injection Hns as ->. split; [|done]. by split.
Qed.

(** Names that are valid are kept. *)
Lemma make_frame_names cs names fail n : names_ok names → length names = length cs →
  Forall (λ c, sa_size c = n) cs → (cs = [] → n = 0%nat) →
  create_arrays_for_reading cs names fail = Ok (Frame true cs names n).
Proof.
  intros Hok Hl Hs He. unfold create_arrays_for_reading. destruct cs as [|c cs].
  { rewrite He by done. by destruct names. }
  assert (n = sa_size c) as -> by (by apply Forall_cons in Hs as [? _]).
  apply forallb_sizes in Hs as ->. rewrite bool_decide_eq_true_2 by apply Hok. cbn [negb].
  rewrite andb_false_r, <- Hl, (fill_names_kept names []) by done. done.
Qed.

(** Columns of one length, with names that are completed. *)
Lemma created_ok cs names ns n : cs ≠ [] → Forall (λ c, sa_size c = n) cs → fill_column_names (length cs) names [] = Ok ns →
  create_arrays_for_reading cs names false = Ok (Frame true cs ns n).
Proof.
  intros Hne Hs Hns. destruct cs as [|c cs]; [done|]. unfold create_arrays_for_reading.
  assert (sa_size c = n) as Hc by (by apply Forall_cons in Hs as [? _]).
  rewrite Hc, (proj2 (forallb_sizes _ _) Hs). cbn [andb]. by rewrite Hns.
Qed.

Lemma frame_same sf : frame_ok sf → Frame true (columns sf) (column_names sf) (nrows sf) = sf.
Proof. intros Hok. pose proof (fok_inited sf Hok). destruct sf as [i cs ns n]. cbn in *. by subst. Qed.

(** ** Columns by name *)

Lemma find_name_lookup n names i : find_name n names = Some i → names !! i = Some n.
Proof.
  revert i. induction names as [|m names IH]; intros i; cbn; [done|].
  case_bool_decide; [by intros [= <-]; subst|]. destruct (find_name n names); [|done].
  intros [= <-]. by apply IH.
Qed.

Lemma find_name_first names i n : NoDup names → names !! i = Some n → find_name n names = Some i.
Proof.
  revert i. induction names as [|m names IH]; intros i Hnd; [done|].
  apply NoDup_cons in Hnd as [Hm Hnd]. destruct i as [|i]; cbn.
  - intros [= ->]. by rewrite bool_decide_eq_true_2.
  - intros Hi. rewrite bool_decide_eq_false_2.
    + by rewrite (IH i).
    + intros ->. apply Hm. by eapply list_elem_of_lookup_2.
Qed.

Lemma find_name_is_Some n names : n ∈ names → ∃ i, find_name n names = Some i.
Proof.
  induction names as [|m names IH]; [by intros ?%elem_of_nil|]. intros Hn. cbn. case_bool_decide; [by eexists|].
  apply elem_of_cons in Hn as [->|Hn]; [done|]. destruct (IH Hn) as [i ->]. by eexists.
Qed.

Lemma column_index_ok sf i n : frame_ok sf → column_names sf !! i = Some n → column_index n sf = Ok i.
Proof. intros Hok Hi. unfold column_index. by rewrite (find_name_first _ i) by (done || apply (fok_names sf Hok)). Qed.

Lemma column_index_lookup sf n i : column_index n sf = Ok i → column_names sf !! i = Some n.
Proof.
  unfold column_index. destruct (find_name n (column_names sf)) eqn:Hf; [|done]. intros [= <-]. by apply find_name_lookup.
Qed.

Lemma named_column sf i n : frame_ok sf → column_names sf !! i = Some n → ∃ c, columns sf !! i = Some c.
Proof.
  intros Hok Hi. apply lookup_lt_is_Some. rewrite <- (fok_length sf Hok : _ = length (columns sf)). by eapply lookup_lt_Some.
Qed.

(** ** The operations keep frames valid *)

Lemma select_columns_ok sf names sf' : frame_ok sf → select_columns names sf = Ok sf' → frame_ok sf'.
Proof.
  intros Hok H. apply bind_Ok in H as (cs & Hcs & H). apply make_frame_ok in H as [? _]; [done|].
  clear H. revert cs Hcs. induction names as [|n names IH]; intros cs Hcs; cbn in Hcs; [injection Hcs as <-; constructor|].
  apply bind_Ok in Hcs as (c & Hc & Hcs). apply bind_Ok in Hcs as (cs' & Hcs' & [= <-]).
  apply bind_Ok in Hc as (i & _ & Hc). destruct (columns sf !! i) as [c'|] eqn:Hi; [|done]. injection Hc as ->.
  constructor; [|by apply IH]. pose proof (fok_typed sf Hok) as Ht. by eapply Forall_lookup_1.
Qed.

Lemma add_column_ok sf c n sf' : frame_ok sf → typed_column c → add_column c n sf = Ok sf' → frame_ok sf'.
Proof.
  intros Hok Hc. unfold add_column. destruct (_ =? 0)%nat.
  { intros H. apply make_frame_ok in H as [? _]; [done|by constructor]. }
  destruct (negb _); [done|]. destruct (contains_column _ _); [done|]. intros H. apply bind_Ok in H as (tmp & _ & H).
  apply make_frame_ok in H as [? _]; [done|]. apply Forall_app. split; [apply (fok_typed sf Hok)|by constructor].
Qed.

Lemma remove_column_ok sf i sf' : frame_ok sf → remove_column i sf = Ok sf' → frame_ok sf'.
Proof.
  intros Hok. unfold remove_column. destruct (_ <? _)%nat; [|done]. intros H.
  apply make_frame_ok in H as [? _]; [done|]. apply Forall_delete, (fok_typed sf Hok).
Qed.

Lemma swap_columns_ok sf i j sf' : frame_ok sf → swap_columns i j sf = Ok sf' → frame_ok sf'.
Proof.
  intros Hok. unfold swap_columns. destruct (_ && _); [|done]. intros H. apply bind_Ok in H as (cs & Hcs & H).
  apply bind_Ok in H as (ns & _ & H). apply make_frame_ok in H as [? _]; [done|]. pose proof (fok_typed sf Hok) as Ht.
  unfold swap_elements in Hcs. destruct (columns sf !! i) as [x|] eqn:Hi; [|done]. cbn in Hcs.
  destruct (columns sf !! j) as [y|] eqn:Hj; [|done]. injection Hcs as <-.
  apply Forall_insert; [apply Forall_insert; [done|]|]; by eapply Forall_lookup_1.
Qed.

(** A new name at a position is valid when no other position has it. *)
Lemma names_ok_insert names i n : names_ok names → n ≠ [] → (∀ j, names !! j = Some n → j = i) → names_ok (<[i:=n]> names).
Proof.
  intros [Hnd Hne] Hn Hj. split.
  - rewrite NoDup_alt in Hnd |- *. intros j k x.
    rewrite !list_lookup_insert_Some. intros [(<- & -> & _)|[? Hx]] [(<- & Hy & _)|[? Hy]]; [done| | |by eapply Hnd].
    + by destruct (Hj k Hy).
    + subst x. by destruct (Hj j Hx).
  - intros (j & Hx)%list_elem_of_lookup_1. apply list_lookup_insert_Some in Hx as [(_ & Hx & _)|[_ Hx]]; [done|].
    apply Hne. by eapply list_elem_of_lookup_2.
Qed.

Lemma set_column_name_ok sf i n sf' : frame_ok sf → n ≠ [] → (∀ j, column_names sf !! j = Some n → j = i) →
  set_column_name i n sf = Ok sf' → frame_ok sf'.
Proof.
  intros Hok Hne Hn. unfold set_column_name. destruct (i <? num_columns sf)%nat; [|done]. intros [= <-].
  destruct Hok as [Hi Hnd Hl Hs H0 Ht]. split; cbn; [done| |by rewrite length_insert|done|done|done].
  by apply names_ok_insert.
Qed.

Lemma zip_append_ok l1 l2 : length l1 = length l2 → zip_append l1 l2 = Ok (zip_with append_sarray l1 l2).
Proof.
  revert l2. induction l1 as [|a l1 IH]; intros [|b l2] Hl; try done. cbn. by rewrite IH by (by injection Hl).
Qed.

Lemma append_data a b : sa_data (append_sarray a b) = sa_data a ++ sa_data b.
Proof. apply concat_app. Qed.

(** Appending concatenates the columns. *)
Lemma append_frame_columns sf1 sf2 : frame_ok sf1 → frame_ok sf2 →
  column_names sf1 = column_names sf2 → column_types sf1 = column_types sf2 →
  append sf1 sf2 = Ok (Frame true (zip_with append_sarray (columns sf1) (columns sf2)) (column_names sf1)
    (nrows sf1 + nrows sf2)).
Proof.
  intros H1 H2 Hn Ht. unfold append. rewrite (fok_inited _ H1), (fok_inited _ H2). cbn [negb].
  rewrite !bool_decide_eq_true_2 by done. cbn [andb]. rewrite zip_append_ok; [done|].
  apply (f_equal length) in Ht. unfold column_types in Ht. by rewrite !length_map in Ht.
Qed.

Lemma append_ok sf1 sf2 sf' : frame_ok sf1 → frame_ok sf2 → append sf1 sf2 = Ok sf' → frame_ok sf'.
Proof.
  intros H1 H2. destruct (decide (column_names sf1 = column_names sf2 ∧ column_types sf1 = column_types sf2)) as [[Hn Ht]|Hne].
  2:{ unfold append. rewrite (fok_inited _ H1), (fok_inited _ H2). cbn [negb]. destruct (bool_decide _ && _) eqn:Hb; [|done].
    apply andb_true_iff in Hb. rewrite !bool_decide_eq_true in Hb. done. }
  rewrite append_frame_columns by done. intros [= <-].
  assert (length (columns sf1) = length (columns sf2)) as Hl.
  { apply (f_equal length) in Ht. unfold column_types in Ht. by rewrite !length_map in Ht. }
  assert (∀ c, c ∈ zip_with append_sarray (columns sf1) (columns sf2) → ∃ a b,
    c = append_sarray a b ∧ a ∈ columns sf1 ∧ b ∈ columns sf2 ∧ sa_type a = sa_type b) as Hz.
  { intros c (i & Hc)%list_elem_of_lookup_1. apply lookup_zip_with_Some in Hc as (a & b & -> & Ha & Hb).
    exists a, b. split_and!; [done|by eapply list_elem_of_lookup_2..|].
    apply (f_equal (.!! i)) in Ht. unfold column_types in Ht. rewrite !list_lookup_fmap, Ha, Hb in Ht. by injection Ht. }
  pose proof (fok_sizes _ H1) as Hs1. pose proof (fok_sizes _ H2) as Hs2.
  pose proof (fok_typed _ H1) as Ht1. pose proof (fok_typed _ H2) as Ht2. rewrite Forall_forall in Hs1, Hs2, Ht1, Ht2.
  split; unfold num_columns; cbn.
  - done.
  - apply (fok_names _ H1).
  - rewrite length_zip_with, <- Hl, Nat.min_id. apply (fok_length _ H1).
  - apply Forall_forall. intros c (a & b & -> & Ha & Hb & _)%Hz. unfold sa_size. rewrite append_data, length_app.
    by rewrite <- (Hs1 a Ha), <- (Hs2 b Hb).
  - intros Hz'. destruct (columns sf1) eqn:E1, (columns sf2) eqn:E2; try done.
    by rewrite (fok_empty _ H1), (fok_empty _ H2).
  - apply Forall_forall. intros c (a & b & -> & Ha & Hb & Hab)%Hz. unfold typed_column. rewrite append_data.
    apply Forall_app. split; [exact (Ht1 a Ha)|]. cbn. rewrite Hab. exact (Ht2 b Hb).
Qed.
(** ** Adding and replacing a column *)

Lemma add_column_eq sf c n : frame_ok sf → columns sf ≠ [] → sa_size c = nrows sf → n ≠ [] → n ∉ column_names sf →
  add_column c n sf = Ok (Frame true (columns sf ++ [c]) (column_names sf ++ [n]) (nrows sf)).
Proof.
  intros Hok Hne Hs Hn Hni. unfold add_column, num_columns. rewrite frame_rows, Hs, Nat.eqb_refl by done.
  destruct (length (columns sf) =? 0)%nat eqn:H0; [by apply Nat.eqb_eq, length_zero_iff_nil in H0|]. cbn [negb].
  rewrite (proj2 (contains_column_false n _)), generate_free_name by done. cbn [mbind outcome_bind].
  pose proof (fok_length sf Hok) as Hl. unfold num_columns in Hl. apply make_frame_names.
  - apply names_ok_snoc; [apply (fok_names sf Hok)|done..].
  - rewrite !length_app, Hl. done.
  - apply Forall_app. split; [apply (fok_sizes sf Hok)|by constructor].
  - by intros [_ ?]%app_eq_nil.
Qed.

Lemma swap_last {A} (l : list A) i x y : l !! i = Some x → swap_elements i (length l) (l ++ [y]) = Ok (<[i:=y]> l ++ [x]).
Proof.
  intros Hi. pose proof (lookup_lt_Some _ _ _ Hi). unfold swap_elements.
  rewrite (lookup_app_l l [y] i), Hi by done. cbn. rewrite (list_lookup_middle l [] y (length l)) by done. cbn.
  rewrite insert_app_l by done. replace (length l) with (length (<[i:=y]> l) + 0)%nat by (rewrite length_insert; lia).
  by rewrite insert_app_r.
Qed.

Lemma delete_last {A} (l : list A) n x : n = length l → delete n (l ++ [x]) = l.
Proof.
  intros ->. rewrite delete_take_drop, take_app_length, drop_ge by (rewrite length_app; cbn; lia). apply app_nil_r.
Qed.

(** A frame with a last column that has another name. *)
Section replace.
Context (sf : sframe) (c x : sarray) (i : nat) (n tmp : name).
Context (Hok : frame_ok sf) (Hn : column_names sf !! i = Some n) (Hx : columns sf !! i = Some x).
Context (Hc : sa_size c = nrows sf) (Htmp : tmp ≠ []) (Hfree : tmp ∉ column_names sf).

Lemma names_length : length (column_names sf) = length (columns sf).
Proof using Hok. apply (fok_length sf Hok). Qed.

Lemma replaced_sizes : Forall (λ d, sa_size d = nrows sf) (<[i:=c]> (columns sf)).
Proof using Hok Hc. apply Forall_insert; [apply (fok_sizes sf Hok)|done]. Qed.

Lemma replaced_names : names_ok (<[i:=tmp]> (column_names sf)).
Proof using Hok Htmp Hfree.
  apply names_ok_insert; [apply (fok_names sf Hok)|done|]. intros j Hj. destruct Hfree. by eapply list_elem_of_lookup_2.
Qed.

Lemma replace_added : add_column c tmp sf = Ok (Frame true (columns sf ++ [c]) (column_names sf ++ [tmp]) (nrows sf)).
Proof using All. apply add_column_eq; try done. by intros Hnil; rewrite Hnil in Hx. Qed.

Lemma replace_swapped : swap_columns i (length (columns sf))
    (Frame true (columns sf ++ [c]) (column_names sf ++ [tmp]) (nrows sf)) =
  Ok (Frame true (<[i:=c]> (columns sf) ++ [x]) (<[i:=tmp]> (column_names sf) ++ [n]) (nrows sf)).
Proof using All.
  pose proof (lookup_lt_Some _ _ _ Hx) as Hlt. unfold swap_columns, num_columns. cbn [columns column_names]. rewrite length_app.
  rewrite !(proj2 (Nat.ltb_lt _ _)) by (cbn; lia). cbn [andb]. rewrite (swap_last _ _ x) by done. cbn [mbind outcome_bind].
  rewrite <- names_length, (swap_last _ _ n) by done. cbn [mbind outcome_bind]. apply make_frame_names.
  - apply names_ok_snoc; [apply replaced_names| |by intros ->; apply (fok_names sf Hok); eapply list_elem_of_lookup_2].
    intros (j & Hj)%list_elem_of_lookup_1. apply list_lookup_insert_Some in Hj as [(_ & -> & _)|[Hne Hj]].
    + apply Hfree. by eapply list_elem_of_lookup_2.
    + apply Hne. pose proof (proj1 (fok_names sf Hok)) as Hnd. rewrite NoDup_alt in Hnd. by apply (Hnd i j n).
  - by rewrite !length_app, !length_insert, names_length.
  - apply Forall_app. split; [apply replaced_sizes|]. constructor; [|done]. exact (proj1 (Forall_lookup _ _) (fok_sizes sf Hok) i x Hx).
  - by intros [_ ?]%app_eq_nil.
Qed.

Lemma replace_removed : remove_column (length (columns sf))
    (Frame true (<[i:=c]> (columns sf) ++ [x]) (<[i:=tmp]> (column_names sf) ++ [n]) (nrows sf)) =
  Ok (Frame true (<[i:=c]> (columns sf)) (<[i:=tmp]> (column_names sf)) (nrows sf)).
Proof using All.
  pose proof (lookup_lt_Some _ _ _ Hx). unfold remove_column, num_columns. cbn [columns column_names]. rewrite length_app, length_insert.
  rewrite (proj2 (Nat.ltb_lt _ _)) by (cbn; lia). rewrite delete_last by (by rewrite length_insert). rewrite delete_last by (by rewrite length_insert, names_length).
  apply make_frame_names; [apply replaced_names|by rewrite !length_insert, names_length|apply replaced_sizes|].
  intros Hnil%(f_equal length). rewrite length_insert in Hnil. cbn in Hnil. lia.
Qed.
End replace.

(** The column takes the place and the name of the old one. *)
Lemma replace_column_eq sf c n i : frame_ok sf → column_names sf !! i = Some n → sa_size c = nrows sf →
  replace_column c n sf = Ok (Frame true (<[i:=c]> (columns sf)) (column_names sf) (nrows sf)).
Proof.
  intros Hok Hn Hc. destruct (named_column sf i n Hok Hn) as [x Hx]. pose proof (lookup_lt_Some _ _ _ Hx).
  unfold replace_column. rewrite (proj2 (contains_column_spec n _)) by (by eapply list_elem_of_lookup_2).
  destruct (temporary_name_found (underscores ++ n ++ underscores) (column_names sf)) as (tmp & -> & Hfree & s & Heq).
  assert (tmp ≠ []) as Htmp by (by rewrite Heq). pose proof (fok_length sf Hok) as Hl. unfold num_columns in Hl.
  cbn [or_trap mbind outcome_bind]. rewrite (replace_added sf c x i n tmp) by done. cbn [mbind outcome_bind].
  assert (NoDup (column_names sf ++ [tmp])) as Hnd by (apply names_ok_snoc; [apply (fok_names sf Hok)|done..]).
  unfold column_index. cbn [column_names].
  rewrite (find_name_first _ i n), (find_name_first _ (length (columns sf)) tmp) by
    (done || (by rewrite lookup_app_l by lia) || (by apply list_lookup_middle; rewrite Hl)). cbn [or_throw mbind outcome_bind].
  rewrite (replace_swapped sf c x i n tmp) by done. cbn [mbind outcome_bind].
  rewrite (replace_removed sf c x i n tmp) by done. cbn [mbind outcome_bind].
  unfold set_column_name, num_columns. cbn [columns column_names inited nrows]. rewrite length_insert, (proj2 (Nat.ltb_lt _ _)) by done.
  by rewrite list_insert_insert_eq, (list_insert_id (column_names sf) i n).
Qed.
(** ** Writing and reading rows *)

Definition cell (r : row) (j : nat) : flexible_type := default FUndefined (r !! j).

(** The buffers that hold the rows of the segments. *)
Definition column_of (segs : list (list row)) (j : nat) : list (list flexible_type) := map (map (λ r, cell r j)) segs.
Definition columns_of (n : nat) (segs : list (list row)) : list (list (list flexible_type)) :=
  map (column_of segs) (seq 0 n).

Definition row_of (types : list flex_type_enum) (r : row) : Prop := Forall2 fits types r.

#[global] Instance row_of_dec types r : Decision (row_of types r).
Proof. unfold row_of. apply _. Defined.

Record holds (types : list flex_type_enum) (segs : list (list row)) (w : frame_writer) : Prop := Holds {
  holds_types : w_types w = types;
  holds_segments : w_segments w = length segs;
  holds_buffers : w_buffers w = columns_of (length types) segs;
  holds_rows : Forall (Forall (row_of types)) segs;
  holds_empty : types = [] → segs = [];
}.

Lemma row_cells (r : row) : map (cell r) (seq 0 (length r)) = r.
Proof.
  apply list_eq. intros i. rewrite list_lookup_fmap. destruct (decide (i < length r)%nat) as [Hi|Hi].
  - rewrite lookup_seq_lt by done. cbn. unfold cell. destruct (lookup_lt_is_Some_2 r i Hi) as [x ->]. done.
  - rewrite lookup_seq_ge, lookup_ge_None_2 by lia. done.
Qed.

Lemma write_cells s r segs js : (s < length segs)%nat →
  write_segment s (map (cell r) js) (map (column_of segs) js) =
  Ok (map (column_of (alter (λ l, l ++ [r]) s segs)) js).
Proof.
  intros Hs. induction js as [|j js IH]; [done|]. cbn [map write_segment].
  destruct (lookup_lt_is_Some_2 segs s Hs) as [seg Hseg].
  assert (column_of segs j !! s = Some (map (λ r, cell r j) seg)) as Hc by (unfold column_of; by rewrite list_lookup_fmap, Hseg).
  rewrite Hc. cbn [or_trap mbind outcome_bind]. rewrite IH. cbn [mbind outcome_bind]. do 2 f_equal.
  unfold column_of. apply list_eq. intros k. rewrite list_lookup_fmap. destruct (decide (k = s)) as [->|Hk].
  - rewrite list_lookup_insert_eq by (by rewrite length_map). rewrite list_lookup_alter_eq, Hseg. cbn. by rewrite map_app.
  - by rewrite list_lookup_insert_ne, list_lookup_fmap, list_lookup_alter_ne by done.
Qed.

Lemma open_for_write_holds names types n fail w : open_for_write names types n fail = Ok w →
  holds types (match types with [] => [] | _ => replicate n [] end) w.
Proof.
  unfold open_for_write. destruct (Nat.eqb_spec (length names) (length types)) as [Hl|]; [|done].
  intros H. apply bind_Ok in H as (ns & Hns & [= <-]). destruct types as [|t types].
  { destruct names; [|done]. by split. }
  destruct names as [|g names]; [done|]. rewrite Hl. split; cbn [w_types w_segments w_buffers].
  - done.
  - by rewrite length_replicate.
  - unfold columns_of. rewrite <- (length_seq (length (t :: types)) 0) at 1. generalize (seq 0 (length (t :: types))).
    intros js. induction js as [|j js IH]; [done|]. cbn. rewrite IH. f_equal. symmetry. apply (fmap_replicate (map (λ r, cell r j)) n []). 
  - apply Forall_forall. intros seg Hseg%elem_of_replicate. by destruct Hseg as [-> _].
  - done.
Qed.

Lemma write_values_holds types segs w s r : holds types segs w → (s < length segs)%nat → row_of types r → ∃ w',
  write_values s r w = Ok w' ∧ w_names w' = w_names w ∧ holds types (alter (λ l, l ++ [r]) s segs) w'.
Proof.
  intros Hw Hs Hr. unfold write_values. rewrite (holds_buffers _ _ _ Hw).
  pose proof (Forall2_length _ _ _ Hr) as Hl. pose proof (write_cells s r segs (seq 0 (length r)) Hs) as Hwr.
  rewrite row_cells in Hwr. unfold columns_of. rewrite Hl, Hwr. cbn [mbind outcome_bind]. eexists. split_and!; [done..|].
  split; cbn [w_types w_segments w_buffers].
  - apply (holds_types _ _ _ Hw).
  - rewrite length_alter. apply (holds_segments _ _ _ Hw).
  - by rewrite Hl.
  - apply Forall_alter; [apply (holds_rows _ _ _ Hw)|]. intros l Hl' HF. apply Forall_app. by split; [|constructor].
  - intros Ht. rewrite (holds_empty _ _ _ Hw Ht) in Hs. cbn in Hs. lia.
Qed.
(** *** Closing *)

Lemma close_columns types segs w : holds types segs w →
  columns (close w) = zip_with (λ t j, SArray t (column_of segs j)) types (seq 0 (length types)).
Proof.
  intros Hw. unfold close. cbn [columns]. rewrite (holds_types _ _ _ Hw), (holds_buffers _ _ _ Hw).
  unfold columns_of. apply (zip_with_fmap_r SArray (column_of segs)).
Qed.

Lemma close_column types segs w j : holds types segs w →
  columns (close w) !! j = (λ t, SArray t (column_of segs j)) <$> types !! j.
Proof.
  intros Hw. rewrite (close_columns types segs) by done. rewrite lookup_zip_with. destruct (types !! j) as [t|] eqn:Ht; [|done].
  cbn. by rewrite lookup_seq_lt by (by eapply lookup_lt_Some).
Qed.

Lemma close_num_columns types segs w : holds types segs w → num_columns (close w) = length types.
Proof.
  intros Hw. unfold num_columns. rewrite (close_columns types segs), length_zip_with, length_seq by done. lia.
Qed.

Lemma close_types types segs w : holds types segs w → column_types (close w) = types.
Proof.
  intros Hw. apply list_eq. intros j. unfold column_types. rewrite list_lookup_fmap, (close_column types segs) by done.
  by destruct (types !! j).
Qed.

Lemma column_of_data segs j : concat (column_of segs j) = map (λ r, cell r j) (concat segs).
Proof. symmetry. apply concat_map. Qed.

Lemma close_nrows types segs w : holds types segs w → nrows (close w) = length (concat segs).
Proof.
  intros Hw. destruct types as [|t types].
  { rewrite (holds_empty _ _ _ Hw) by done. unfold close. cbn. by rewrite (holds_types _ _ _ Hw). }
  pose proof (close_column (t :: types) segs w 0 Hw) as H0. unfold close in H0 |- *. cbn [columns nrows] in *.
  destruct (zip_with SArray (w_types w) (w_buffers w)) as [|c cs]; [done|]. injection H0 as ->.
  unfold sa_size, sa_data. cbn [sa_segments]. by rewrite column_of_data, length_map.
Qed.

Lemma close_column_data types segs w j c : holds types segs w → columns (close w) !! j = Some c →
  ∃ t, types !! j = Some t ∧ sa_type c = t ∧ sa_segments c = column_of segs j ∧ sa_data c = map (λ r, cell r j) (concat segs).
Proof.
  intros Hw. rewrite (close_column types segs) by done. destruct (types !! j) as [t|]; [|done]. intros [= <-].
  exists t. split_and!; [done..|]. apply column_of_data.
Qed.

(** The frame that is closed has the given columns when they are those of the rows. *)
Lemma close_frame types segs w cs : holds types segs w → length cs = length types →
  (∀ j c, cs !! j = Some c → types !! j = Some (sa_type c) ∧ sa_segments c = column_of segs j) →
  close w = Frame true cs (w_names w) (length (concat segs)).
Proof.
  intros Hw Hl Hcs. assert (columns (close w) = cs) as Hc.
  { apply list_eq. intros j. rewrite (close_column types segs) by done. destruct (cs !! j) as [c|] eqn:Hj.
    - destruct (Hcs j c Hj) as [-> Hs]. cbn. rewrite <- Hs. by destruct c.
    - apply lookup_ge_None in Hj. rewrite lookup_ge_None_2 by lia. done. }
  rewrite <- (close_nrows types segs w Hw), <- Hc. done.
Qed.

(** The frame that is closed is valid. *)
Lemma close_ok types segs w : holds types segs w → names_ok (w_names w) → length (w_names w) = length types →
  frame_ok (close w).
Proof.
  intros Hw Hn Hl. pose proof (close_nrows types segs w Hw) as Hr. split.
  - done.
  - done.
  - by rewrite (close_num_columns types segs).
  - apply Forall_lookup. intros j c Hc. destruct (close_column_data types segs w j c Hw Hc) as (t & _ & _ & _ & Hd).
    unfold sa_size. by rewrite Hd, length_map, Hr.
  - intros Hnil%(f_equal length). fold (num_columns (close w)) in Hnil. rewrite (close_num_columns types segs) in Hnil by done.
    rewrite Hr, (holds_empty _ _ _ Hw); [done|]. by apply length_zero_iff_nil.
  - apply Forall_lookup. intros j c Hc. destruct (close_column_data types segs w j c Hw Hc) as (t & Ht & Hct & _ & Hd).
    unfold typed_column. rewrite Hct, Hd. apply Forall_fmap, Forall_forall. intros r Hr'.
    apply elem_of_concat in Hr' as (k & seg & Hseg & Hin). pose proof (holds_rows _ _ _ Hw) as HF.
    pose proof (proj1 (Forall_lookup _ _) HF k seg Hseg) as HF'. rewrite Forall_forall in HF'. specialize (HF' r Hin).
    destruct (Forall2_lookup_l _ _ _ _ _ HF' Ht) as (v & Hv & Hval). cbn. unfold cell. by rewrite Hv.
Qed.

(** The rows of a closed frame are those of its segments. *)
Lemma mapM_seq_rows (f : nat → option row) rows : (∀ i r, rows !! i = Some r → f i = Some r) →
  mapM f (seq 0 (length rows)) = Some rows.
Proof.
  intros Hf. apply mapM_Some_2. apply Forall2_same_length_lookup_2; [by rewrite length_seq|].
  intros i k r Hk Hr. apply lookup_seq in Hk as [-> _]. by apply Hf.
Qed.

Lemma close_rows types segs w : holds types segs w → read_all (close w) = Ok (concat segs).
Proof.
  intros Hw. unfold read_all. replace (num_rows (close w)) with (length (concat segs)) by (symmetry; exact (close_nrows _ _ _ Hw)).
  rewrite (mapM_seq_rows _ (concat segs)); [done|]. intros i r Hr. unfold row_at.
  pose proof Hr as Hin%list_elem_of_lookup_2. apply elem_of_concat in Hin as (k & seg & Hseg & Hin).
  pose proof (proj1 (Forall_lookup _ _) (holds_rows _ _ _ Hw) k seg Hseg) as HF. rewrite Forall_forall in HF. specialize (HF r Hin).
  apply mapM_Some_2, Forall2_same_length_lookup_2.
  - pose proof (close_num_columns types segs w Hw) as Hn. unfold num_columns in Hn. rewrite Hn. exact (Forall2_length _ _ _ HF).
  - intros j c v Hc Hv. destruct (close_column_data types segs w j c Hw Hc) as (t & _ & _ & _ & Hd). rewrite Hd, list_lookup_fmap, Hr.
    cbn. unfold cell. by rewrite Hv.
Qed.
(** *** Converting *)

Lemma mismatch_fits t v : mismatch t v = false ↔ fits t v.
Proof.
  unfold mismatch, fits. rewrite !andb_false_iff, !bool_decide_eq_false.
  destruct (decide (t = UNDEFINED)), (decide (get_type v = t)), (decide (get_type v = UNDEFINED)); intuition.
Qed.

Section conversion.
Context {SA : SoftAssign}.

(** A row of the types of the columns is written as it is. *)
Lemma check_row_same types r : row_of types r → check_row types r = Ok r.
Proof.
  induction 1 as [|t v types r Hv _ IH]; [done|]. cbn [check_row]. unfold check_value.
  rewrite (proj2 (mismatch_fits t v)) by done. cbn [mbind outcome_bind]. by rewrite IH.
Qed.

Lemma check_row_typed {ST : SoftAssignTyped} types : ∀ r r', length r = length types → check_row types r = Ok r' → row_of types r'.
Proof.
  induction types as [|t types IH]; intros [|v r] r' Hl; try done; [by intros [= <-]; constructor|]. cbn [check_row].
  intros H. apply bind_Ok in H as (v' & Hv & H). apply bind_Ok in H as (r1 & Hr & [= <-]).
  constructor; [|apply (IH r); [by injection Hl|done]]. unfold check_value in Hv. destruct (mismatch t v) eqn:Hm.
  - destruct (flex_type_is_convertible _ _); [|done]. apply soft_assign_keeps_type in Hv. rewrite get_type_reset in Hv. right. by left.
  - injection Hv as <-. by apply mismatch_fits.
Qed.

(** *** Writing many rows *)

Definition put (segs : list (list row)) (sr : nat * row) : list (list row) := alter (λ l, l ++ [sr.2]) sr.1 segs.

(** [sr'] is what is written of [sr]. *)
Definition written (types : list flex_type_enum) (n : nat) (sr sr' : nat * row) : Prop :=
  sr.1 = sr'.1 ∧ (sr.1 < n)%nat ∧ check_row types sr.2 = Ok sr'.2 ∧ row_of types sr'.2.

Lemma length_puts ws segs : length (foldl put segs ws) = length segs.
Proof. revert segs. induction ws as [|sr ws IH]; intros segs; [done|]. cbn. rewrite IH. apply length_alter. Qed.

Lemma write_each_cons s r ws w : write_each ((s, r) :: ws) w = (w ← write_row s r w; write_each ws w).
Proof. done. Qed.

Lemma write_each_holds types ws ws' : ∀ segs w, holds types segs w → Forall2 (written types (length segs)) ws ws' →
  ∃ w', write_each ws w = Ok w' ∧ w_names w' = w_names w ∧ holds types (foldl put segs ws') w'.
Proof.
  intros segs w Hw HF. revert segs w Hw HF. induction ws as [|[s r] ws IH] in ws' |- *; intros segs w Hw HF.
  { inversion HF; subst. by exists w. }
  inversion HF as [|? [s' r'] ? ws'' (Hs & Hlt & Hr & Hrt) HF']; subst. cbn in Hs, Hlt, Hr, Hrt. subst s'.
  destruct (write_values_holds types segs w s r' Hw Hlt Hrt) as (w1 & Hw1 & Hn1 & Hh1).
  rewrite write_each_cons. unfold write_row. rewrite (holds_types _ _ _ Hw), Hr. cbn [mbind outcome_bind]. rewrite Hw1. cbn [mbind outcome_bind].
  destruct (IH ws'' (put segs (s, r')) w1) as (w2 & Hw2 & Hn2 & Hh2); [done|by unfold put; rewrite length_alter|].
  exists w2. split_and!; [done|congruence|done].
Qed.

Lemma written_same types n ws : Forall (λ sr, (sr.1 < n)%nat ∧ row_of types sr.2) ws → Forall2 (written types n) ws ws.
Proof. induction 1 as [|sr ws [? ?] _ IH]; constructor; [|done]. split_and!; [done..|by apply check_row_same|done]. Qed.

(** The rows of a segment, in the order they were written. *)
Definition rows_for (ws : list (nat * row)) (i : nat) : list row := map snd (filter (λ sr, sr.1 = i) ws).

Lemma puts_lookup ws : ∀ segs i, foldl put segs ws !! i = (λ l, l ++ rows_for ws i) <$> segs !! i.
Proof.
  induction ws as [|[s r] ws IH]; intros segs i; cbn [foldl].
  { unfold rows_for. cbn. destruct (segs !! i); [|done]. cbn. by rewrite app_nil_r. }
  rewrite IH. unfold put, rows_for. cbn [fst snd]. rewrite filter_cons. cbn [fst]. destruct (decide (s = i)) as [->|Hne].
  - rewrite list_lookup_alter_eq. destruct (segs !! i); [|done]. cbn. by rewrite <- app_assoc.
  - by rewrite list_lookup_alter_ne.
Qed.

Lemma puts_fresh ws n : foldl put (replicate n []) ws = map (rows_for ws) (seq 0 n).
Proof.
  apply list_eq. intros i. rewrite puts_lookup, list_lookup_fmap. destruct (decide (i < n)%nat).
  - by rewrite lookup_replicate_2, lookup_seq_lt by done.
  - rewrite lookup_seq_ge by lia. rewrite lookup_ge_None_2; [done|]. rewrite length_replicate. lia.
Qed.

(** All rows that were written, whatever their segments. *)
Lemma puts_permutation ws : ∀ segs, Forall (λ sr, (sr.1 < length segs)%nat) ws →
  concat (foldl put segs ws) ≡ₚ concat segs ++ map snd ws.
Proof.
  induction ws as [|[s r] ws IH]; intros segs HF; cbn [foldl map]; [by rewrite app_nil_r|].
  apply Forall_cons in HF as [Hs HF]. cbn in Hs. rewrite IH by (unfold put; by rewrite length_alter).
  assert (concat (put segs (s, r)) ≡ₚ concat segs ++ [r]) as ->.
  { destruct (lookup_lt_is_Some_2 segs s Hs) as [l Hl]. apply list_elem_of_split_length in Hl as (l1 & l2 & -> & ->).
    unfold put. cbn. rewrite <- (Nat.add_0_r (length l1)), alter_app_r. cbn. rewrite !concat_app. cbn.
    rewrite <- !app_assoc. do 2 f_equiv. apply Permutation_app_comm. }
  by rewrite <- app_assoc.
Qed.
(** Rows of the types of the columns, all written to one segment. *)
Lemma written_in_one_segment types rows w : holds types (match types with [] => [] | _ => [[]] end) w →
  (types = [] → rows = []) → Forall (row_of types) rows → ∃ w',
  write_each (map (pair 0%nat) rows) w = Ok w' ∧ w_names w' = w_names w ∧
  holds types (match types with [] => [] | _ => [rows] end) w'.
Proof.
  intros Hw He Hr. destruct types as [|t types]; [rewrite He by done; by exists w|].
  destruct (write_each_holds (t :: types) (map (pair 0%nat) rows) (map (pair 0%nat) rows) [[]] w) as (w' & H1 & H2 & H3); [done| |].
  { apply written_same, Forall_fmap. eapply Forall_impl; [done|]. intros r Hr'. split; [cbn; lia|done]. }
  exists w'. split_and!; [done..|]. change [[]] with (replicate 1 (@nil row)) in H3. rewrite puts_fresh in H3. cbn [seq map] in H3.
  unfold rows_for in H3. rewrite filter_all in H3 by (by intros ? (? & -> & _)%list_elem_of_fmap).
  by rewrite map_map, map_id in H3.
Qed.
End conversion.

(** *** Names of a frame that is written *)

(** Without empty names, the names are completed as those of a frame made of columns. *)
Lemma names_for_writing_filled given : ∀ names, [] ∉ given →
  names_for_writing false false given names = fill_column_names (length given) given names.
Proof.
  induction given as [|g given IH]; intros names Hne; [done|]. cbn [names_for_writing fill_column_names length head tail default].
  rewrite orb_true_r. cbn. destruct (generate_valid_column_name g names); [|done..]. cbn. apply IH. set_solver.
Qed.

Lemma names_for_writing_unique fail given : ∀ names, [] ∉ given →
  names_for_writing fail true given names = Ok (names ++ given).
Proof.
  induction given as [|g given IH]; intros names Hne; cbn [names_for_writing]; [by rewrite app_nil_r|].
  rewrite bool_decide_eq_false_2 by set_solver. cbn. rewrite bool_decide_eq_true_2 by done. rewrite andb_false_r.
  rewrite IH by set_solver. by rewrite <- app_assoc.
Qed.

Lemma open_names_ok names types n fail : names_ok names → length names = length types → ∃ w,
  open_for_write names types n fail = Ok w ∧ w_names w = names.
Proof.
  intros [Hnd Hne] Hl. unfold open_for_write. rewrite Hl, Nat.eqb_refl, bool_decide_eq_true_2 by done.
  rewrite names_for_writing_unique by done. cbn. eexists. split; reflexivity.
Qed.

(** Names that are not to be unique are made unique, as by the constructor. *)
Lemma open_names_filled names types n : [] ∉ names → length names = length types → ∃ w ns,
  open_for_write names types n false = Ok w ∧ w_names w = ns ∧ names_ok ns ∧ length ns = length names ∧
  fill_column_names (length names) names [] = Ok ns.
Proof.
  intros Hne Hl. pose proof names_ok_nil as Hnil.
  destruct (fill_names_total (length names) names [] Hnil) as (ns & Hns & Hok & Hlen).
  assert (names_for_writing false (bool_decide (NoDup names)) names [] = Ok ns) as Hw.
  { case_bool_decide as Hnd; [|rewrite names_for_writing_filled; [exact Hns|exact Hne]].
    rewrite names_for_writing_unique by done. rewrite (fill_names_kept names []) in Hns by done. done. }
  unfold open_for_write. rewrite Hl, Nat.eqb_refl, Hw. cbn. eexists _, ns. by rewrite <- Hl.
Qed.

(** ** The rows of a valid frame *)

Lemma frame_rows_ok sf : frame_ok sf → ∃ rows, read_all sf = Ok rows ∧ length rows = nrows sf ∧
  Forall (row_of (column_types sf)) rows ∧
  ∀ j c, columns sf !! j = Some c → sa_data c = map (λ r, cell r j) rows.
Proof.
  intros Hok. pose proof (fok_sizes sf Hok) as Hs. pose proof (fok_typed sf Hok) as Ht.
  rewrite Forall_forall in Hs, Ht.
  set (rows := map (λ i, map (λ c, default FUndefined (sa_data c !! i)) (columns sf)) (seq 0 (nrows sf))).
  assert (∀ i c, (i < nrows sf)%nat → c ∈ columns sf → ∃ v, sa_data c !! i = Some v ∧ fits (sa_type c) v) as Hv.
  { intros i c Hi Hc. destruct (lookup_lt_is_Some_2 (sa_data c) i) as [v Hv]; [rewrite <- (Hs c Hc) in Hi; exact Hi|].
    exists v. split; [done|]. exact (proj1 (Forall_lookup _ _) (Ht c Hc) i v Hv). }
  exists rows. split_and!.
  - unfold read_all. rewrite frame_rows by done. replace (nrows sf) with (length rows) by (unfold rows; by rewrite length_map, length_seq).
    rewrite (mapM_seq_rows _ rows); [done|]. intros i r Hr. unfold rows in Hr. rewrite list_lookup_fmap in Hr.
    apply fmap_Some in Hr as (k & Hk & ->). apply lookup_seq in Hk as [-> Hi]. cbn. unfold row_at.
    apply mapM_Some_2, Forall2_fmap_r, Forall_Forall2_diag, Forall_forall. intros c Hc.
    destruct (Hv i c Hi Hc) as (v & Hv' & _). unfold compose. by rewrite Hv'.
  - unfold rows. by rewrite length_map, length_seq.
  - unfold rows. apply Forall_fmap, Forall_forall. intros i Hi%elem_of_seq. cbn. unfold row_of, column_types.
    apply Forall2_fmap, Forall_Forall2_diag, Forall_forall. intros c Hc. destruct (Hv i c ltac:(lia) Hc) as (v & Hv' & ?). by rewrite Hv'.
  - intros j c Hc. pose proof Hc as Hin%list_elem_of_lookup_2. apply list_eq. intros i. unfold rows.
    rewrite !list_lookup_fmap. destruct (decide (i < nrows sf)%nat) as [Hi|Hi].
    + rewrite lookup_seq_lt by done. cbn. unfold cell. rewrite list_lookup_fmap, Hc. cbn.
      destruct (Hv i c Hi Hin) as (v & Hv' & _). by rewrite Hv'.
    + rewrite lookup_seq_ge, lookup_ge_None_2 by (fold (sa_size c); rewrite ?(Hs c Hin); lia). done.
Qed.
End SFrameSpec.
