(* ===== verification/DataframeSpec.v ===== *)
(** Dataframes and frames hold the same tables: the conversions are inverse.

    The frames that a program can make with the operations of SFrame, as an inductive
    predicate: each of them is valid, and its rows can be read. *)
From stdpp Require Import sorting.
From S2P Require Import Prelude FlexType FlexOps QueryPlan QueryPlanSpec SFrame GroupBySpec SFrameSpec.
Import FlexType FlexOps SFrame SFrameSpec.
Import QueryPlan(SoftAssign).
Import QueryPlanSpec(fits).
Import GroupBySpec(outcome_map_total).
Local Open Scope Z_scope.
Local Open Scope sframe_scope.

Module DataframeSpec.

(** A dataframe whose columns are typed and of one length, and have names that are not empty. *)
Record dataframe_ok (d : dataframe) : Prop := DataframeOk {
  dok_names : names_ok (df_names d);
  dok_in : ∀ n, n ∈ df_names d → ∃ t vs,
    df_types d !! n = Some t ∧ df_values d !! n = Some vs ∧ length vs = df_nrows d ∧ Forall (fits t) vs;
  dok_out : ∀ n, n ∉ df_names d → df_types d !! n = None ∧ df_values d !! n = None;
}.

(** Its columns, each in one segment, and the frame of them. *)
Definition column_named (d : dataframe) (n : name) : sarray :=
  SArray (default UNDEFINED (df_types d !! n)) [default [] (df_values d !! n)].
Definition frame_of (d : dataframe) : sframe :=
  Frame true (map (column_named d) (df_names d)) (df_names d) (df_nrows d).

(** The dataframe of named columns. *)
Definition dataframe_of (cs : list (name * sarray)) : dataframe :=
  foldl (λ d nc, set_column nc.1 (sa_data nc.2) (sa_type nc.2) d) (Dataframe [] ∅ ∅) cs.

Lemma dataframe_of_lookup cs : NoDup (map fst cs) →
  df_names (dataframe_of cs) = map fst cs ∧
  (∀ n c, (n, c) ∈ cs → df_types (dataframe_of cs) !! n = Some (sa_type c) ∧ df_values (dataframe_of cs) !! n = Some (sa_data c)) ∧
  (∀ n, n ∉ map fst cs → df_types (dataframe_of cs) !! n = None ∧ df_values (dataframe_of cs) !! n = None).
Proof.
  induction cs as [|[n c] cs IH] using rev_ind; intros Hnd.
  { split_and!; [done|by intros ?? ?%elem_of_nil|done]. }
  rewrite map_app in Hnd |- *. apply NoDup_app in Hnd as (Hnd & Hd & _).
  assert (n ∉ map fst cs) as Hn by (intros Hin; apply (Hd n Hin); left).
  destruct (IH Hnd) as (H1 & H2 & H3). unfold dataframe_of. rewrite foldl_app. fold (dataframe_of cs). cbn.
  destruct (H3 n Hn) as [_ Hv]. rewrite Hv. split_and!.
  - cbn. by rewrite H1.
  - cbn. intros m d [Hin|[= -> ->]%list_elem_of_singleton]%elem_of_app; [|by rewrite !lookup_insert_eq].
    assert (m ≠ n) by (intros ->; apply Hn; apply (list_elem_of_fmap_2 fst _ (n, d) Hin)).
    rewrite !lookup_insert_ne by done. by apply H2.
  - cbn. intros m [Hm Hmn]%not_elem_of_app. rewrite list_elem_of_singleton in Hmn.
    rewrite !lookup_insert_ne by done. by apply H3.
Qed.

Section frames.
Context {SA : SoftAssign}.

Lemma to_dataframe_columns sf : length (column_names sf) = num_columns sf →
  to_dataframe sf = Ok (dataframe_of (zip (column_names sf) (columns sf))).
Proof.
  intros Hl. unfold to_dataframe, num_columns in *.
  assert (∀ k, (k ≤ length (columns sf))%nat →
    foldl (λ (d : outcome dataframe) i, d ← d; n ← or_throw (column_names sf !! i); c ← or_throw (columns sf !! i);
      Ok (set_column n (sa_data c) (sa_type c) d)) (Ok (Dataframe [] ∅ ∅)) (seq 0 k) =
    Ok (dataframe_of (take k (zip (column_names sf) (columns sf))))) as H.
  { induction k as [|k IH]; intros Hk; [done|]. rewrite seq_S, foldl_app, IH by lia. cbn.
    destruct (lookup_lt_is_Some_2 (columns sf) k) as [c Hc]; [lia|].
    destruct (lookup_lt_is_Some_2 (column_names sf) k) as [n Hn]; [lia|].
    rewrite Hn, Hc. cbn. rewrite (take_S_r _ k (n, c)) by (by rewrite lookup_zip_with, Hn, Hc).
    unfold dataframe_of. by rewrite foldl_app. }
  rewrite H by done. rewrite take_ge; [done|]. rewrite length_zip_with. lia.
Qed.

Lemma outcome_map_ok {A B} (f : A → outcome B) (g : A → B) l : (∀ x, x ∈ l → f x = Ok (g x)) → outcome_map f l = Ok (map g l).
Proof.
  induction l as [|x l IH]; intros Hf; [done|]. cbn. rewrite (Hf x) by left. cbn.
  rewrite IH; [done|]. intros y Hy. apply Hf. by right.
Qed.

(** The number of rows is the length of any column. *)
Lemma df_nrows_ok d n : (∀ k vs, df_values d !! k = Some vs → length vs = n) → (df_values d = ∅ → n = 0%nat) → df_nrows d = n.
Proof.
  intros Hn He. unfold df_nrows. destruct (merge_sort name_le _) as [|kv l] eqn:Hm.
  - symmetry. apply He. apply map_to_list_empty_iff. apply Permutation_nil_r. by rewrite <- (merge_sort_Permutation name_le), Hm.
  - destruct kv as [k vs]. apply (Hn k). apply elem_of_map_to_list. rewrite <- (merge_sort_Permutation name_le), Hm. left.
Qed.

Lemma nrows_no_columns d : dataframe_ok d → df_names d = [] → df_nrows d = 0%nat.
Proof.
  intros Hok Hn. apply df_nrows_ok; [|done]. intros k vs Hk. destruct (dok_out d Hok k) as [_ ?]; [rewrite Hn; apply not_elem_of_nil|congruence].
Qed.

Lemma frame_of_ok d : dataframe_ok d → frame_ok (frame_of d).
Proof.
  intros Hok. split; unfold frame_of, num_columns; cbn [inited columns column_names nrows].
  - done.
  - apply (dok_names d Hok).
  - by rewrite length_map.
  - apply Forall_fmap, Forall_forall. intros n Hn. destruct (dok_in d Hok n Hn) as (t & vs & _ & Hv & Hl & _).
    cbn. unfold column_named, sa_size, sa_data. rewrite Hv. cbn. by rewrite app_nil_r.
  - intros Hnil%(f_equal length). rewrite length_map in Hnil. by apply nrows_no_columns; [|apply length_zero_iff_nil].
  - apply Forall_fmap, Forall_forall. intros n Hn. destruct (dok_in d Hok n Hn) as (t & vs & Ht & Hv & _ & HF).
    cbn. unfold typed_column, column_named, sa_data. rewrite Ht, Hv. cbn. by rewrite app_nil_r.
Qed.

(** The frame of a dataframe has its columns. *)
Lemma of_dataframe_ok d : dataframe_ok d → of_dataframe d = Ok (frame_of d).
Proof.
  intros Hok. pose proof (frame_of_ok d Hok) as Hf. destruct (frame_rows_ok _ Hf) as (rows & Hrows & Hlen & Htyped & Hdata).
  set (types := map (λ n, default UNDEFINED (df_types d !! n)) (df_names d)).
  set (values := map (λ n, default [] (df_values d !! n)) (df_names d)).
  assert (column_types (frame_of d) = types) as Ht by (unfold column_types, frame_of, types; cbn; by rewrite map_map).
  rewrite Ht in Htyped. unfold of_dataframe.
  rewrite (outcome_map_ok _ (λ n, default UNDEFINED (df_types d !! n))).
  2:{ intros n Hn. destruct (dok_in d Hok n Hn) as (t & vs & -> & _). done. }
  rewrite (outcome_map_ok _ (λ n, default [] (df_values d !! n))).
  2:{ intros n Hn. destruct (dok_in d Hok n Hn) as (t & vs & _ & -> & _). done. }
  fold types values. cbn [mbind outcome_bind].
  destruct (open_names_ok (df_names d) types 1 true (dok_names d Hok)) as (w & Hw & Hwn); [unfold types; by rewrite length_map|].
  rewrite Hw. cbn [mbind outcome_bind]. pose proof (open_for_write_holds _ _ _ _ _ Hw) as Hh.
  assert (mapM (λ i, mapM (λ c : list flexible_type, c !! i) values) (seq 0 (df_nrows d)) = Some rows) as ->.
  { unfold read_all in Hrows. rewrite (frame_rows (frame_of d)) in Hrows by done. cbn [nrows frame_of] in Hrows.
    destruct (mapM (row_at (frame_of d)) (seq 0 (df_nrows d))) as [rs|] eqn:E; [|done]. injection Hrows as ->. rewrite <- E.
    apply Forall_mapM_ext, Forall_forall. intros i _. unfold row_at, values, frame_of. cbn [columns].
    generalize (df_names d). intros ns. induction ns as [|n ns IH]; [done|]. cbn. rewrite IH. by rewrite app_nil_r. }
  cbn [or_trap mbind outcome_bind].
  change (nrows (frame_of d)) with (df_nrows d) in Hlen.
  assert (types = [] → rows = []) as Hempty.
  { intros Hnil%(f_equal length). apply length_zero_iff_nil. rewrite Hlen. apply (nrows_no_columns d Hok).
    apply length_zero_iff_nil. unfold types in Hnil. by rewrite length_map in Hnil. }
  destruct (written_in_one_segment types rows w Hh Hempty Htyped) as (w' & -> & Hn' & Hh').
  cbn [mbind outcome_bind]. f_equal. rewrite (close_frame _ _ w' (columns (frame_of d)) Hh').
  - rewrite Hn', Hwn. unfold frame_of. cbn [columns]. f_equal. rewrite <- Hlen.
    destruct types; [by rewrite Hempty|]. cbn. by rewrite app_nil_r.
  - unfold frame_of, types. cbn. by rewrite !length_map.
  - intros j c Hc. specialize (Hdata j c Hc). unfold frame_of in Hc. cbn [columns] in Hc. rewrite list_lookup_fmap in Hc.
    apply fmap_Some in Hc as (n & Hn & ->). split; [unfold types; by rewrite list_lookup_fmap, Hn|].
    assert (types ≠ []) as Hne by (intros Hnil; unfold types in Hnil; by destruct (df_names d)).
    destruct types; [done|]. unfold column_of. cbn. rewrite <- Hdata. unfold sa_data, column_named. cbn. by rewrite app_nil_r.
Qed.
End frames.

(** ** The dataframe of a frame *)

Lemma zip_names (names : list name) (cs : list sarray) : length names = length cs → map fst (zip names cs) = names.
Proof. intros Hl. apply (fst_zip names cs). lia. Qed.

Lemma dataframe_eq a b : df_names a = df_names b → df_types a = df_types b → df_values a = df_values b → a = b.
Proof. destruct a, b. cbn. by intros -> -> ->. Qed.

(** The dataframe of the frame of a dataframe is that dataframe. *)
Lemma to_frame_of d : dataframe_ok d → to_dataframe (frame_of d) = Ok d.
Proof.
  intros Hok. pose proof (frame_of_ok d Hok) as Hf. rewrite to_dataframe_columns by apply (fok_length _ Hf). f_equal.
  cbn [column_names columns frame_of]. set (cs := zip _ _).
  assert (map fst cs = df_names d) as Hn by (apply zip_names; by rewrite length_map).
  destruct (dataframe_of_lookup cs) as (H1 & H2 & H3); [rewrite Hn; apply (dok_names d Hok)|]. rewrite Hn in H1, H3.
  assert (∀ n, n ∈ df_names d → (n, column_named d n) ∈ cs) as Hin.
  { intros n (j & Hj)%list_elem_of_lookup_1. apply (list_elem_of_lookup_2 _ j). unfold cs.
    by rewrite lookup_zip_with, list_lookup_fmap, Hj. }
  apply dataframe_eq; [done| |]; apply map_eq; intros n;
    (destruct (decide (n ∈ df_names d)) as [Hnin|Hnin];
      [destruct (H2 n _ (Hin n Hnin)) as [Ha Hb], (dok_in d Hok n Hnin) as (t & vs & Ht & Hv & _)
      |destruct (H3 n Hnin), (dok_out d Hok n Hnin); congruence]).
  - rewrite Ha. unfold column_named. by rewrite Ht.
  - rewrite Hb. unfold sa_data, column_named. rewrite Hv. cbn. by rewrite app_nil_r.
Qed.

(** A frame with each of its columns in one segment. *)
Definition merge_segments (sf : sframe) : sframe :=
  Frame true (map (λ c, SArray (sa_type c) [sa_data c]) (columns sf)) (column_names sf) (nrows sf).

Lemma to_dataframe_ok sf : frame_ok sf → ∃ d, to_dataframe sf = Ok d ∧ dataframe_ok d ∧ frame_of d = merge_segments sf.
Proof.
  intros Hok. pose proof (fok_length sf Hok) as Hl. rewrite to_dataframe_columns by done. unfold num_columns in Hl.
  set (cs := zip _ _). assert (map fst cs = column_names sf) as Hn by by apply zip_names.
  destruct (dataframe_of_lookup cs) as (H1 & H2 & H3); [rewrite Hn; apply (fok_names sf Hok)|]. rewrite Hn in H1, H3.
  set (d := dataframe_of cs) in *.
  assert (∀ n, n ∈ column_names sf → ∃ c, (n, c) ∈ cs ∧ c ∈ columns sf) as Hin.
  { intros n (j & Hj)%list_elem_of_lookup_1. destruct (named_column sf j n Hok Hj) as [c Hc].
    exists c. split; [|by eapply list_elem_of_lookup_2]. apply (list_elem_of_lookup_2 _ j). unfold cs. by rewrite lookup_zip_with, Hj, Hc. }
  pose proof (fok_sizes sf Hok) as Hs. pose proof (fok_typed sf Hok) as Ht. rewrite Forall_forall in Hs, Ht.
  assert (df_nrows d = nrows sf) as Hr.
  { apply df_nrows_ok.
    - intros n vs Hv. destruct (decide (n ∈ column_names sf)) as [Hnin|Hnin]; [|destruct (H3 n Hnin); congruence].
      destruct (Hin n Hnin) as (c & Hc & Hcin), (H2 n c Hc) as [_ Hv']. rewrite Hv in Hv'. injection Hv' as ->. by apply Hs.
    - intros He. apply (fok_empty sf Hok). destruct (columns sf) as [|c cols] eqn:Hcs; [done|].
      destruct (column_names sf) as [|n ns] eqn:Hns; [done|]. destruct (Hin n ltac:(left)) as (c' & Hc & _), (H2 n c' Hc) as [_ Hv].
      by rewrite He in Hv. }
  exists d. split_and!; [done| |].
  - split; [rewrite H1; apply (fok_names sf Hok)| |].
    + intros n Hnin. rewrite H1 in Hnin. destruct (Hin n Hnin) as (c & Hc & Hcin), (H2 n c Hc) as [Ha Hb].
      exists (sa_type c), (sa_data c). split_and!; [done..|rewrite Hr; by apply Hs|by apply Ht].
    + intros n Hnin. rewrite H1 in Hnin. by apply H3.
  - unfold frame_of, merge_segments. rewrite H1, Hr. f_equal. apply list_eq. intros j. rewrite !list_lookup_fmap.
    destruct (column_names sf !! j) as [n|] eqn:Hj.
    + destruct (named_column sf j n Hok Hj) as [c Hc]. rewrite Hc. cbn. f_equal.
      destruct (H2 n c) as [Htc Hvc]; [|unfold column_named; by rewrite Htc, Hvc].
      apply (list_elem_of_lookup_2 _ j). unfold cs. by rewrite lookup_zip_with, Hj, Hc.
    + apply lookup_ge_None in Hj. rewrite lookup_ge_None_2 by lia. done.
Qed.
End DataframeSpec.

Import FlexType FlexOps SFrame SFrameSpec DataframeSpec.
Import QueryPlan(SoftAssign, soft_assign).
Import QueryPlanSpec(SoftAssignTyped).
Import GroupBySpec(bind_Ok).

Module SFrameReach.
Section made.
Context {SA : SoftAssign} {ST : SoftAssignTyped}.

(** A frame of columns; rows written into a new frame; columns selected, added, removed, swapped
    and replaced; a column that gets a name that no other has; frames appended; a dataframe. *)
Inductive made : sframe → Prop :=
  | made_columns cs names fail sf :
      Forall typed_column cs → create_arrays_for_reading cs names fail = Ok sf → made sf
  | made_rows names types n fail ws w w' :
      [] ∉ names → open_for_write names types n fail = Ok w →
      Forall (λ sr, length sr.2 = length types) ws → write_each ws w = Ok w' → made (close w')
  | made_selection sf names sf' : made sf → select_columns names sf = Ok sf' → made sf'
  | made_addition sf c n sf' : made sf → typed_column c → add_column c n sf = Ok sf' → made sf'
  | made_removal sf i sf' : made sf → remove_column i sf = Ok sf' → made sf'
  | made_swap sf i j sf' : made sf → swap_columns i j sf = Ok sf' → made sf'
  | made_replacement sf c n sf' : made sf → typed_column c → replace_column c n sf = Ok sf' → made sf'
  | made_name sf i n sf' :
      made sf → n ≠ [] → (∀ j, column_names sf !! j = Some n → j = i) → set_column_name i n sf = Ok sf' → made sf'
  | made_append sf1 sf2 sf' : made sf1 → made sf2 → append sf1 sf2 = Ok sf' → made sf'
  | made_dataframe d sf : dataframe_ok d → of_dataframe d = Ok sf → made sf.

Lemma names_for_writing_ok fail given : ∀ names ns, [] ∉ given → names_ok names →
  names_for_writing fail false given names = Ok ns → names_ok ns ∧ length ns = (length names + length given)%nat.
Proof.
  induction given as [|g given IH]; intros names ns Hne Hok; cbn [names_for_writing length].
  { intros [= <-]. split; [done|lia]. }
  rewrite orb_true_r. destruct (generate_name_spec g names) as (n & -> & Hf & Hn & _). cbn [mbind outcome_bind].
  destruct (fail && _ && _); [done|]. intros H. apply IH in H as [? Hl]; [|set_solver|by apply names_ok_snoc].
  split; [done|]. rewrite Hl, length_app. cbn. lia.
Qed.

Lemma opened_names names types n fail w : [] ∉ names → open_for_write names types n fail = Ok w →
  names_ok (w_names w) ∧ length (w_names w) = length types.
Proof.
  intros Hne. unfold open_for_write. destruct (Nat.eqb_spec (length names) (length types)) as [<-|]; [|done].
  intros H. apply bind_Ok in H as (ns & Hns & [= <-]). cbn [w_names]. case_bool_decide as Hnd.
  - rewrite names_for_writing_unique in Hns by done. injection Hns as <-. done.
  - apply names_for_writing_ok in Hns; [exact Hns|done|apply names_ok_nil].
Qed.

(** Rows that were written left the buffers with rows. *)
Lemma write_row_kept types segs w s r w' : holds types segs w → length r = length types →
  write_row s r w = Ok w' → w_names w' = w_names w ∧ ∃ segs', holds types segs' w'.
Proof.
  intros Hw Hl. unfold write_row. rewrite (holds_types _ _ _ Hw). intros H.
  apply bind_Ok in H as (r' & Hr & H). apply check_row_typed in Hr; [|done].
  destruct (decide (s < length segs)%nat) as [Hs|Hs].
  - destruct (write_values_holds types segs w s r' Hw Hs Hr) as (w1 & H1 & ? & ?). rewrite H1 in H. injection H as <-. eauto.
  - unfold write_values in H. rewrite (holds_buffers _ _ _ Hw) in H. destruct types as [|t types].
    + inversion Hr; subst. cbn in H. injection H as <-. split; [done|]. exists segs. destruct Hw as [? ? ? ? ?]. by split.
    + inversion Hr; subst. unfold columns_of in H. cbn in H.
      rewrite (lookup_ge_None_2 (column_of segs 0)) in H; [done|]. unfold column_of. rewrite length_map. lia.
Qed.

Lemma write_each_kept types ws : ∀ segs w w', holds types segs w → Forall (λ sr, length sr.2 = length types) ws →
  write_each ws w = Ok w' → w_names w' = w_names w ∧ ∃ segs', holds types segs' w'.
Proof.
  induction ws as [|[s r] ws IH]; intros segs w w' Hw HF; [intros [= <-]; eauto|].
  apply Forall_cons in HF as [Hl HF]. rewrite write_each_cons. intros H. apply bind_Ok in H as (w1 & H1 & H).
  apply (write_row_kept types segs) in H1 as (Hn & segs' & Hw1); [|done..].
  destruct (IH segs' w1 w' Hw1 HF H) as [Hn' ?]. split; [congruence|done].
Qed.

Lemma replace_column_ok sf c n sf' : frame_ok sf → typed_column c → replace_column c n sf = Ok sf' → frame_ok sf'.
Proof.
  intros Hok Hc H. assert (n ∈ column_names sf) as Hn.
  { unfold replace_column in H. destruct (contains_column n (column_names sf)) eqn:Hn; [|done]. by apply contains_column_spec. }
  apply list_elem_of_lookup_1 in Hn as [i Hi]. destruct (decide (sa_size c = nrows sf)) as [Hs|Hs].
  - rewrite (replace_column_eq sf c n i) in H by done. injection H as <-. destruct Hok as [? ? ? ? He ?].
    split; unfold num_columns in *; cbn; [done|done|by rewrite length_insert|by apply Forall_insert| |by apply Forall_insert].
    intros Hnil. apply He. apply length_zero_iff_nil. by rewrite <- (length_insert (columns sf) i c), Hnil.
  - exfalso. unfold replace_column in H. destruct (contains_column _ _); [|done]. apply bind_Ok in H as (tmp & _ & H).
    apply bind_Ok in H as (newsf & Hadd & _). destruct (named_column sf i n Hok Hi) as [x Hx].
    unfold add_column in Hadd. rewrite frame_rows in Hadd by done. unfold num_columns in Hadd.
    rewrite (proj2 (Nat.eqb_neq _ _)) in Hadd by (apply lookup_lt_Some in Hx; lia).
    rewrite (proj2 (Nat.eqb_neq (nrows sf) _)) in Hadd by done. done.
Qed.

(** The invariant: every frame that can be made is valid. *)
Lemma made_ok sf : made sf → frame_ok sf.
Proof.
  induction 1 as [cs names fail sf Ht H|names types n fail ws w w' Hne Hw Hl H|sf names sf' _ IH H|sf c n sf' _ IH Hc H
    |sf i sf' _ IH H|sf i j sf' _ IH H|sf c n sf' _ IH Hc H|sf i n sf' _ IH Hn Hu H|sf1 sf2 sf' _ IH1 _ IH2 H|d sf Hd H].
  - by apply make_frame_ok in H as [? _].
  - destruct (opened_names _ _ _ _ _ Hne Hw) as [Hok Hlen].
    destruct (write_each_kept types ws _ w w' (open_for_write_holds _ _ _ _ _ Hw) Hl H) as (Hn & segs & Hs).
    apply (close_ok types segs); [done|by rewrite Hn..].
  - by eapply select_columns_ok.
  - by eapply add_column_ok.
  - by eapply remove_column_ok.
  - by eapply swap_columns_ok.
  - by eapply replace_column_ok.
  - by eapply set_column_name_ok.
  - by eapply append_ok; [exact IH1|exact IH2|].
  - rewrite of_dataframe_ok in H by done. injection H as <-. by apply frame_of_ok.
Qed.
End made.
End SFrameReach.
