(* ===== verification/SFrameCorrectness.v ===== *)
(** The properties of frames and dataframes, one theorem per claim, with the concrete frames on
    which the hypotheses of a claim hold. *)
From S2P Require Import Prelude Float64 FlexType FlexOps FlexOpsSpec QueryPlan QueryPlanSpec GroupBySpec SFrame SFrameSpec.
From S2P Require Import DataframeSpec.
Local Open Scope Z_scope.
Local Open Scope sframe_scope.

Module Frames.
Import FlexType FlexOps SFrame SFrameSpec DataframeSpec SFrameReach.
Import QueryPlan(SoftAssign, soft_assign).
Import QueryPlanSpec(SoftAssignTyped).

Section frames.
Context (oob oob32 overflow : Z → Z) (double_to_string : Z → list Z) (iso : Z → Z → list Z).

(** The assignment of the program. *)
#[local] Instance assignment : SoftAssign :=
  soft_assignment_visitor oob oob32 overflow double_to_string iso.

#[local] Instance assignment_typed : SoftAssignTyped.
Proof. intros t u v. apply FlexOpsSpec.soft_assign_type. Qed.


(** Replacing a column, which goes through a temporary name, a swap and a removal, ends and
    only replaces that column: the names, the order and the other columns stay. *)
Theorem replaced_in_place sf c n i : made sf → column_names sf !! i = Some n → sa_size c = num_rows sf →
  replace_column c n sf = Ok (Frame true (<[i:=c]> (columns sf)) (column_names sf) (num_rows sf)).
Proof. intros H%made_ok. rewrite frame_rows by done. by apply replace_column_eq. Qed.



(** Columns of one length get names, whatever names are given, too few, empty or repeated:
    the search for free names ends, and the names are distinct and not empty. Distinct names
    that are not empty are kept. *)
Theorem names_are_completed cs names n : Forall (λ c, sa_size c = n) cs → cs ≠ [] → ∃ ns,
  create_arrays_for_reading cs names false = Ok (Frame true cs ns n) ∧ names_ok ns ∧ length ns = length cs ∧
  (names_ok names → length names = length cs → ns = names).
Proof.
  intros Hs Hne. destruct (fill_names_total (length cs) names [] names_ok_nil) as (ns & Hns & Hok & Hl).
  exists ns. split_and!; [by apply created_ok|done..|].
  intros Hn Hlen. rewrite <- Hlen in Hns. rewrite (fill_names_kept names []) in Hns by done. by injection Hns.
Qed.

(** A frame opened for writing can get the same name twice (a defect): the default name of
    an empty first name is not compared with the names that follow, when these are distinct,
    even if repeated names are to be an error. *)
Theorem automatic_names_collide pre post types n fail :
  names_ok (pre ++ default_name 0 :: post) → length types = S (length (pre ++ default_name 0 :: post)) → ∃ w,
  open_for_write ([] :: pre ++ default_name 0 :: post) types n fail = Ok w ∧ ¬ NoDup (column_names (close w)).
Proof.
  intros [Hnd Hne] Hl. unfold open_for_write. cbn [length]. rewrite Hl, Nat.eqb_refl.
  rewrite bool_decide_eq_true_2 by (by apply NoDup_cons).
  cbn [names_for_writing]. rewrite bool_decide_eq_true_2 by done. cbn [orb]. rewrite andb_false_r. cbn [andb].
  change (generate_valid_column_name [] []) with (Ok (default_name 0)). cbn [mbind outcome_bind app].
  rewrite names_for_writing_unique by done. cbn [mbind outcome_bind]. eexists. split; [done|].
  unfold close. cbn [column_names w_names app]. rewrite NoDup_cons. intros [Hni _]. apply Hni. set_solver.
Qed.
End frames.

(** ** The claims at concrete frames *)

#[local] Instance an_assignment : SoftAssign := assignment (λ _, 0) (λ _, 0) (λ _, 0) (λ _, []) (λ _ _, []).

Definition ages : sarray := SArray INTEGER [[FInt 3; FUndefined]; [FInt 5]].
Definition cities : sarray := SArray STRING [[FString [97]; FString [98]; FString [97]]].
Definition people : sframe := Frame true [ages; cities] [[97]; [98]] 3.

Lemma people_made : made people.
Proof.
  apply (made_columns [ages; cities] [[97]; [98]] true); [|vm_compute; reflexivity].
  apply (bool_decide_unpack _). vm_compute. exact I.
Qed.


(** The temporary name [__a__] is free, and is not seen. *)
Lemma replaced_in_place_witness :
  replace_column (SArray FLOAT [[FUndefined; FFloat 0; FFloat 0]]) [97] people =
  Ok (Frame true [SArray FLOAT [[FUndefined; FFloat 0; FFloat 0]]; cities] [[97]; [98]] 3).
Proof.
  apply (replaced_in_place (λ _, 0) (λ _, 0) (λ _, 0) (λ _, []) (λ _ _, []) people _ [97] 0);
    [apply people_made|vm_compute; reflexivity|vm_compute; reflexivity].
Defined.






Lemma names_are_completed_witness : ∃ ns,
  create_arrays_for_reading [ages; cities; ages] [[97]; [97]] false = Ok (Frame true [ages; cities; ages] ns 3) ∧ NoDup ns.
Proof.
  destruct (names_are_completed [ages; cities; ages] [[97]; [97]] 3) as (ns & H & [Hn _] & _).
  - apply (bool_decide_unpack _). vm_compute. exact I.
  - discriminate.
  - exists ns. split; [exact H|exact Hn].
Defined.

(** "X1" after an empty name. *)
Lemma automatic_names_collide_witness : ∃ w,
  open_for_write [[]; [88; 49]] [INTEGER; STRING] 4 true = Ok w ∧ ¬ NoDup (column_names (close w)).
Proof.
  apply (automatic_names_collide [] [] [INTEGER; STRING] 4 true); [|reflexivity].
  apply (bool_decide_unpack _). vm_compute. exact I.
Defined.
End Frames.
