(* ===== verification/Join.v ===== *)
(** Joins of frames (sframe/join_impl.cpp, sframe/join.cpp): the hash table of the smaller frame,
    the partitions that fit into memory, and the order of the columns of the result. *)
From S2P Require Import Prelude FlexType FlexOps QueryPlan GroupBy SFrame.
Import FlexType FlexOps SFrame.
Import QueryPlan(SoftAssign, soft_assign).
Import GroupBy(hash_key).
Local Open Scope Z_scope.
Local Open Scope sframe_scope.

Module Join.

Inductive join_type_t := INNER_JOIN | LEFT_JOIN | RIGHT_JOIN | FULL_JOIN.

(** The rows with one join key, and whether a row of the other frame has it. *)
Record hash_join_row := HashJoinRow {
  rows : list row;
  matched : bool;
}.

Abbreviation hash_table := (gmap Z (list hash_join_row)).

Section join.
Context {SA : SoftAssign} (hash : flexible_type → Z) (hash64_combine : Z → Z → Z).

(** ** The hash table *)

Definition join_values (positions : list nat) (r : row) : outcome (list flexible_type) :=
  or_trap (mapM (λ i, r !! i) positions).

Definition compute_hash_from_row (r : row) (positions : list nat) : outcome Z :=
  hash_key hash hash64_combine <$> join_values positions r.

Fixpoint positions_equal (hp positions : list nat) (r other : row) : outcome bool :=
  match hp, positions with
  | p :: hp, q :: positions =>
      a ← or_trap (r !! p); b ← or_trap (other !! q);
      if approx_equality_operator hash a b then positions_equal hp positions r other else Ok false
  | _, _ => Ok true
  end.

(** [hp] are the positions of the table, for its rows. *)
Definition join_values_equal (hp : list nat) (r other : row) (hash_positions : list nat) : outcome bool :=
  match hash_positions with
  | [] => Ok (match r, other with [], [] => true | _, _ => false end)
  | _ => if (length hp =? length hash_positions)%nat then positions_equal hp hash_positions r other else Throw
  end.

(** The entry with the key of the row, or a new one; and whether it is new. *)
Fixpoint add_to_bucket (hp : list nat) (r : row) (bucket : list hash_join_row) : outcome (list hash_join_row * bool) :=
  match bucket with
  | [] => Ok ([HashJoinRow [r] false], true)
  | e :: bucket =>
      match rows e with
      | [] => Throw
      | r0 :: _ =>
          eq ← join_values_equal hp r0 r hp;
          if eq : bool then Ok (HashJoinRow (rows e ++ [r]) (matched e) :: bucket, false)
          else res ← add_to_bucket hp r bucket; Ok (e :: res.1, res.2)
      end
  end.

Definition add_row (hp : list nat) (r : row) (ht : hash_table) : outcome (hash_table * bool) :=
  the_hash_key ← compute_hash_from_row r hp;
  match ht !! the_hash_key with
  | None => Ok (<[the_hash_key := [HashJoinRow [r] false]]> ht, true)
  | Some [] => Throw
  | Some bucket => res ← add_to_bucket hp r bucket; Ok (<[the_hash_key := res.1]> ht, res.2)
  end.

Definition empty_vt : hash_join_row := HashJoinRow [] false.

Fixpoint match_in_bucket (hp : list nat) (r : row) (hash_positions : list nat) (mark_match : bool)
    (bucket : list hash_join_row) : outcome (hash_join_row * list hash_join_row) :=
  match bucket with
  | [] => Ok (empty_vt, [])
  | e :: bucket =>
      r0 ← or_trap (head (rows e));
      eq ← join_values_equal hp r0 r hash_positions;
      if eq : bool then
        let e := HashJoinRow (rows e) (mark_match || matched e) in Ok (e, e :: bucket)
      else res ← match_in_bucket hp r hash_positions mark_match bucket; Ok (res.1, e :: res.2)
  end.

Definition get_matching_rows (hp : list nat) (r : row) (hash_positions : list nat) (mark_match : bool) (ht : hash_table)
  : outcome (hash_join_row * hash_table) :=
  the_hash_key ← compute_hash_from_row r hash_positions;
  match ht !! the_hash_key with
  | None => Ok (empty_vt, ht)
  | Some bucket =>
      res ← match_in_bucket hp r hash_positions mark_match bucket; Ok (res.1, <[the_hash_key := res.2]> ht)
  end.

Definition num_stored_rows (ht : hash_table) : nat :=
  sum_list (map (λ kb, sum_list (map (λ e, length (rows e)) kb.2)) (map_to_list ht)).

(** ** Merging rows *)

Definition store (i : nat) (v : flexible_type) (r : row) : outcome row :=
  if (i <? length r)%nat then Ok (<[i := v]> r) else Trap.

(** [std::copy] of a row to the start of another. *)
Definition copy_row (r target : row) : outcome row :=
  if (length r <=? length target)%nat then Ok (r ++ drop (length r) target) else Trap.

(** The left rows go to the first rows to emit, each as often as it is repeated. *)
Fixpoint merge_left (left_repeats : nat) (left_rows rows_to_emit : list row) : outcome (list row) :=
  match left_rows, rows_to_emit with
  | [], _ => Ok rows_to_emit
  | l :: left_rows, t :: rows_to_emit =>
      t ← (if (left_repeats =? 0)%nat then Ok t else copy_row l t);
      out ← merge_left left_repeats left_rows rows_to_emit; Ok (t :: out)
  | _ :: _, [] => Trap
  end.

(** The values of a right row from column [j] on go to position [pos] on; those of the join key
    to their positions in the left columns, when [copy_keys] says so. *)
Fixpoint place_right (right_to_left : gmap nat nat) (copy_keys : bool) (j pos : nat) (r target : row) : outcome row :=
  match r with
  | [] => Ok target
  | v :: r =>
      match right_to_left !! j with
      | None => target ← store pos v target; place_right right_to_left copy_keys (S j) (S pos) r target
      | Some p =>
          target ← (if copy_keys then store p v target else Ok target);
          place_right right_to_left copy_keys (S j) pos r target
      end
  end.

Fixpoint merge_right (right_to_left : gmap nat nat) (copy_keys : bool) (num_values : nat) (right_rows rows_to_emit : list row)
  : outcome (list row) :=
  match right_rows, rows_to_emit with
  | r :: right_rows, t :: rows_to_emit =>
      if (length t <? num_values)%nat then Trap
      else
        t ← place_right right_to_left copy_keys 0 (length t - num_values) r t;
        out ← merge_right right_to_left copy_keys num_values right_rows rows_to_emit; Ok (t :: out)
  | [], [] => Ok []
  | _ :: _, [] => Trap
  | [], _ :: _ => Throw
  end.

Definition merge_rows_for_output (num_columns num_positions : nat) (right_to_left : gmap nat nat)
    (left_rows right_rows : list row) : outcome (list row) :=
  match left_rows, right_rows with
  | [], [] => Ok []
  | _, _ =>
      let cross := (length left_rows * length right_rows)%nat in
      let num_emitted_rows := if (cross =? 0)%nat then Nat.max (length left_rows) (length right_rows) else cross in
      let rows_to_emit := replicate num_emitted_rows (replicate num_columns FUndefined) in
      rows_to_emit ←
        match left_rows with
        | [] => Ok rows_to_emit
        | _ =>
            out ← merge_left (num_emitted_rows / length left_rows) left_rows rows_to_emit;
            if (length left_rows =? num_emitted_rows)%nat then Ok out else Throw
        end;
      match right_rows with
      | [] => Ok rows_to_emit
      | r :: _ =>
          if (length r <? num_positions)%nat then Throw
          else
            let right_repeats := (num_emitted_rows / length right_rows)%nat in
            merge_right right_to_left (match left_rows with [] => true | _ => false end) (length r - num_positions)
              (concat (replicate right_repeats right_rows)) rows_to_emit
      end
  end.

(** ** The executor *)

Record hash_join_executor := Executor {
  left_frame : sframe;
  right_frame : sframe;
  left_join_positions : list nat;
  right_join_positions : list nat;
  max_buffer_size : nat;
  left_join : bool;
  right_join : bool;
  right_to_left_join_positions : gmap nat nat;
  reverse_output_column_order : bool;
}.

Definition get_num_cells (sf : sframe) : nat := (num_rows sf * num_columns sf)%nat.

Fixpoint insert_positions (right_positions left_positions : list nat) (m : gmap nat nat) : outcome (gmap nat nat) :=
  match right_positions, left_positions with
  | r :: right_positions, l :: left_positions =>
      match m !! r with
      | None => insert_positions right_positions left_positions (<[r := l]> m)
      | Some _ => Throw
      end
  | _, _ => Ok m
  end.

(** The constructor: the left frame becomes the one with fewer cells. *)
Definition make_executor (sf_left sf_right : sframe) (left_positions right_positions : list nat)
    (join_type : join_type_t) (max_buffer_size : nat) : outcome hash_join_executor :=
  let left_join := match join_type with LEFT_JOIN | FULL_JOIN => true | _ => false end in
  let right_join := match join_type with RIGHT_JOIN | FULL_JOIN => true | _ => false end in
  let reverse := (get_num_cells sf_right <? get_num_cells sf_left)%nat in
  let '(lf, rf) := if reverse then (sf_right, sf_left) else (sf_left, sf_right) in
  let '(left_positions, right_positions) :=
    if reverse then (right_positions, left_positions) else (left_positions, right_positions) in
  let '(left_join, right_join) :=
    if reverse && negb (eqb left_join right_join) then (negb left_join, negb right_join) else (left_join, right_join) in
  if (length left_positions =? length right_positions)%nat then
    m ← insert_positions right_positions left_positions ∅;
    Ok (Executor lf rf left_positions right_positions max_buffer_size left_join right_join m reverse)
  else Throw.

Definition is_join_position (e : hash_join_executor) (i : nat) : bool :=
  bool_decide (is_Some (right_to_left_join_positions e !! i)).

(** The columns of the right frame that are not of the join key. *)
Definition other_columns (e : hash_join_executor) : list nat :=
  List.filter (λ i, negb (is_join_position e i)) (seq 0 (num_columns (right_frame e))).

(** ** Partitions *)

Definition choose_number_of_grace_partitions (max_buffer_size : nat) (sf : sframe) : outcome nat :=
  if (max_buffer_size =? 0)%nat then Trap else Ok (get_num_cells sf / max_buffer_size + 1)%nat.

(** The order in which threads write the rows of a frame, and the nesting of its values. *)
Context (schedule : list row → list row) (fuel : nat).

Definition pack_row (r : row) : outcome (list Z) := or_trap (wconcat save r).
Definition unpack_row (val : list Z) (num_cols : nat) : outcome row :=
  or_trap (fst <$> read_many num_cols (load fuel) val).

Definition which_partition (num_partitions : nat) (positions : list nat) (r : row) : outcome nat :=
  h ← compute_hash_from_row r positions; Ok (Z.to_nat (h mod Z.of_nat num_partitions)).

Definition data_name : name := [100; 97; 116; 97].

(** A row goes to the partition of its key, packed in a string. *)
Definition grace_partition_frame (sf : sframe) (join_col_nums : list nat) (num_partitions : nat) : outcome sframe :=
  if (num_partitions =? 1)%nat then Ok sf
  else if (num_partitions <? 1)%nat then Throw
  else
    w ← open_for_write [data_name] [STRING] num_partitions true;
    rs ← (if inited sf then read_all sf else Throw);
    ws ← outcome_map (λ r, i ← which_partition num_partitions join_col_nums r; s ← pack_row r; Ok (i, [FString s]))
      (schedule rs);
    w ← write_each_move ws w; Ok (close w).

(** The frames, and whether they are partitioned. *)
Definition grace_partition_frames (e : hash_join_executor) : outcome (sframe * sframe * bool) :=
  left_partitions ← choose_number_of_grace_partitions (max_buffer_size e) (left_frame e);
  right_partitions ← choose_number_of_grace_partitions (max_buffer_size e) (right_frame e);
  let num_partitions := Nat.min left_partitions right_partitions in
  l ← grace_partition_frame (left_frame e) (left_join_positions e) num_partitions;
  r ← grace_partition_frame (right_frame e) (right_join_positions e) num_partitions;
  Ok (l, r, negb (num_partitions =? 1)%nat).

(** ** The result *)

Context (cpu_count : nat).

Definition result_columns (e : hash_join_executor) : outcome (list name * list flex_type_enum) :=
  names ← outcome_map (λ i, or_throw (column_names (right_frame e) !! i)) (other_columns e);
  types ← outcome_map (λ i, column_type i (right_frame e)) (other_columns e);
  Ok (column_names (left_frame e) ++ names, column_types (left_frame e) ++ types).

(** The result, opened for writing, and the names of right columns that it changed. *)
Definition init_result_frame (e : hash_join_executor) : outcome (frame_writer * gmap nat name) :=
  cols ← result_columns e;
  let nsegments := Nat.max (num_segments (left_frame e)) (Nat.max (num_segments (right_frame e))
    (cpu_count * Nat.max 1 (Nat.log2 cpu_count))) in
  w ← open_for_write cols.1 cols.2 nsegments false;
  changed ←
    (if reverse_output_column_order e then
       outcome_map (λ ic,
         n ← or_throw (w_names w !! ic.1); old ← or_throw (column_names (right_frame e) !! ic.2);
         Ok (if (length n =? length old)%nat then [] else [(ic.1, old)]))
         (zip (seq (num_columns (left_frame e)) (length (other_columns e))) (other_columns e))
     else Ok []);
  Ok (w, list_to_map (concat changed)).

(** ** The join *)

Definition MIN_SEGMENT_LENGTH : nat := 1024.

Fixpoint split_segment (n elements_per elements_left : nat) : list nat * nat :=
  match n with
  | O => ([], elements_left)
  | S n =>
      let '(size, elements_left) :=
        if (elements_per <=? elements_left)%nat then (elements_per, elements_left - elements_per)%nat
        else if (MIN_SEGMENT_LENGTH <? elements_left)%nat then (elements_left, 0%nat) else (0%nat, elements_left) in
      let '(sizes, elements_left) := split_segment n elements_per elements_left in (size :: sizes, elements_left)
  end.

(** The pieces of a segment of the right frame, one for each segment of the result: leftovers go
    to the first. *)
Definition logical_segment_sizes (n elements : nat) : outcome (list nat) :=
  if (n =? 0)%nat then Trap
  else
    match split_segment n (elements / n) elements with
    | (first :: sizes, elements_left) => Ok ((first + elements_left)%nat :: sizes)
    | ([], _) => Trap
    end.

Section execute.
Context (e : hash_join_executor) (partitioned : bool).

Definition read_row (num_cols : nat) (r : row) : outcome row :=
  if partitioned then
    match r !! 0%nat with Some (FString s) => unpack_row s num_cols | _ => Throw end
  else Ok r.

Fixpoint load_table (rs : list row) (ht : hash_table) : outcome hash_table :=
  match rs with
  | [] => Ok ht
  | r :: rs =>
      r ← read_row (num_columns (left_frame e)) r;
      res ← add_row (left_join_positions e) r ht; load_table rs res.1
  end.

Definition merge (left_rows right_rows : list row) (w : frame_writer) : outcome (list row) :=
  merge_rows_for_output (length (w_types w)) (length (right_join_positions e)) (right_to_left_join_positions e)
    left_rows right_rows.

(** The rows of the right frame are looked up in the table, which marks what matches. *)
Fixpoint probe_rows (seg_num : nat) (rs : list row) (st : hash_table * frame_writer) : outcome (hash_table * frame_writer) :=
  match rs with
  | [] => Ok st
  | r :: rs =>
      r ← read_row (num_columns (right_frame e)) r;
      res ← get_matching_rows (left_join_positions e) r (right_join_positions e) true st.1;
      let query_result := res.1 in
      w ← (if (0 <? length (rows query_result))%nat || right_join e then
             out ← merge (rows query_result) [r] st.2; write_each (map (pair seg_num) out) st.2
           else Ok st.2);
      probe_rows seg_num rs (res.2, w)
  end.

Fixpoint probe_segments (seg_num : nat) (segs : list (list row)) (st : hash_table * frame_writer)
  : outcome (hash_table * frame_writer) :=
  match segs with
  | [] => Ok st
  | rs :: segs => st ← probe_rows seg_num rs st; probe_segments (S seg_num) segs st
  end.

(** The entries of the table that no row of the right frame matched, all to the first segment. *)
Fixpoint emit_unmatched (entries : list hash_join_row) (w : frame_writer) : outcome frame_writer :=
  match entries with
  | [] => Ok w
  | h :: entries =>
      w ← (if matched h then Ok w else out ← merge (rows h) [] w; write_each (map (pair 0%nat) out) w);
      emit_unmatched entries w
  end.

(** One partition: its left rows, and the pieces of its right rows. *)
Definition join_partition (left_rows : list row) (right_segs : list (list row)) (w : frame_writer) : outcome frame_writer :=
  ht ← load_table left_rows ∅;
  st ← probe_segments 0 right_segs (ht, w);
  if left_join e then emit_unmatched (concat (map snd (map_to_list st.1))) st.2 else Ok st.2.

Fixpoint join_partitions (n : nat) (lefts rights : list (list row)) (w : frame_writer) : outcome frame_writer :=
  match lefts with
  | [] => Ok w
  | l :: lefts => w ← join_partition l (take n rights) w; join_partitions n lefts (drop n rights) w
  end.
End execute.

(** ** The order of the columns *)

(** The first place on from [cur_column_idx] that has no column. *)
Fixpoint next_column (fuel : nat) (cur_column_idx : nat) (cs : list (option sarray)) : outcome nat :=
  match fuel with
  | O => Trap
  | S fuel =>
      match cs !! cur_column_idx with
      | Some (Some _) => next_column fuel (S cur_column_idx) cs
      | Some None => Ok cur_column_idx
      | None => Trap
      end
  end.

Definition put_column (i : nat) (c : sarray) (n : name) (st : list (option sarray) * list name)
  : outcome (list (option sarray) * list name) :=
  if (i <? length st.1)%nat && (i <? length st.2)%nat then Ok (<[i := Some c]> st.1, <[i := n]> st.2) else Trap.

(** The columns with their names go to the next free places. *)
Fixpoint fill_columns (cs : list (nat * name)) (result : sframe) (cur_column_idx : nat) (st : list (option sarray) * list name)
  : outcome (nat * (list (option sarray) * list name)) :=
  match cs with
  | [] => Ok (cur_column_idx, st)
  | (i, n) :: cs =>
      idx ← next_column (S (length st.1)) cur_column_idx st.1;
      c ← select_column i result; st ← put_column idx c n st; fill_columns cs result (S idx) st
  end.

Fixpoint put_join_columns (m : list (nat * nat)) (right result : sframe) (st : list (option sarray) * list name)
  : outcome (list (option sarray) * list name) :=
  match m with
  | [] => Ok st
  | (r, l) :: m =>
      c ← select_column l result; n ← or_throw (column_names right !! r);
      st ← put_column r c n st; put_join_columns m right result st
  end.

Definition swap_columns_back (e : hash_join_executor) (changed_dup_names : gmap nat name) (result : sframe) : outcome sframe :=
  let m := map_to_list (right_to_left_join_positions e) in
  let nl := num_columns (left_frame e) in
  let n := num_columns result in
  let left_pos_set := map snd m in
  let name_of i := default [] (column_names result !! i) in
  let orig i := (i, default (name_of i) (changed_dup_names !! i)) in
  let rest := List.filter (λ i, negb (bool_decide (i ∈ left_pos_set))) (seq 0 nl) in
  st ← put_join_columns m (right_frame e) result (replicate n None, replicate n []);
  res ← fill_columns (map orig (seq nl (n - nl))) result 0 st;
  res ← fill_columns (map (λ i, (i, name_of i)) rest) result res.1 res.2;
  cs ← or_trap (mapM id res.2.1);
  create_arrays_for_reading cs res.2.2 false.

Definition grace_hash_join (e : hash_join_executor) : outcome sframe :=
  '(grace_left, grace_right, partitioned) ← grace_partition_frames e;
  '(w, changed) ← init_result_frame e;
  if (num_rows grace_left =? num_rows (left_frame e))%nat && (num_rows grace_right =? num_rows (right_frame e))%nat then
    lengths ←
      (if partitioned then
         if (num_segments grace_left =? num_segments grace_right)%nat then Ok (segment_lengths grace_right) else Throw
       else Ok [num_rows grace_right]);
    sizes ← outcome_map (logical_segment_sizes (w_segments w)) lengths;
    lefts ← (if partitioned then get_reader_stored grace_left else get_reader_n 1 grace_left);
    rights ← get_reader (concat sizes) grace_right;
    if (length lefts =? length lengths)%nat then
      w ← join_partitions e partitioned (w_segments w) lefts rights w;
      let result := close w in
      if reverse_output_column_order e then swap_columns_back e changed result else Ok result
    else Throw
  else Throw.

(** ** [join] *)

Definition to_lower (s : name) : name := map (λ c, if (65 <=? c) && (c <=? 90) then c + 32 else c) s.

Definition parse_join_type (join_type : name) : outcome join_type_t :=
  let s := to_lower join_type in
  if bool_decide (s = [111; 117; 116; 101; 114]) then Ok FULL_JOIN
  else if bool_decide (s = [108; 101; 102; 116]) then Ok LEFT_JOIN
  else if bool_decide (s = [114; 105; 103; 104; 116]) then Ok RIGHT_JOIN
  else if bool_decide (s = [105; 110; 110; 101; 114]) then Ok INNER_JOIN
  else Throw.

(** The positions of the pairs of columns, whose types must be the same if both frames have rows. *)
Definition join_positions (sf_left sf_right : sframe) (col_pair : name * name) : outcome (nat * nat) :=
  l ← column_index col_pair.1 sf_left; r ← column_index col_pair.2 sf_right;
  tl ← column_type l sf_left; tr ← column_type r sf_right;
  if bool_decide (tl ≠ tr) && (0 <? num_rows sf_left)%nat && (0 <? num_rows sf_right)%nat then Throw else Ok (l, r).

Definition join (sf_left sf_right : sframe) (join_type : name) (join_columns : list (name * name)) (max_buffer_size : nat)
  : outcome sframe :=
  positions ← outcome_map (join_positions sf_left sf_right) join_columns;
  in_join_type ← parse_join_type join_type;
  e ← make_executor sf_left sf_right (map fst positions) (map snd positions) in_join_type max_buffer_size;
  grace_hash_join e.
End join.
End Join.
