(* ===== verification/JoinTableSpec.v ===== *)
(** The hash table of a join: it holds the rows by key, finds all rows of a key, and remembers
    the keys that were found. *)
From S2P Require Import Prelude FlexType FlexOps QueryPlan GroupBy GroupBySpec GroupKeySpec SFrame SFrameSpec Join.
Import FlexType FlexOps SFrame SFrameSpec Join.
Import QueryPlan(SoftAssign, soft_assign).
Import GroupBy(hash_key).
Import GroupKeySpec(plain, plain_eq).
Import GroupBySpec(filter_empty, filter_all, bind_Ok).
Local Open Scope Z_scope.
Local Open Scope sframe_scope.

Module JoinTableSpec.

(** ** Keys *)

(** A value of a key column of a type: ordinary, or undefined. *)
Definition joinable (t : flex_type_enum) (v : flexible_type) : Prop := plain v ∧ (get_type v = t ∨ v = FUndefined).

#[global] Instance joinable_dec t v : Decision (joinable t v).
Proof.
  unfold joinable. apply and_dec; [apply _|]. apply or_dec; [apply _|].
  destruct v; first [by left|by right].
Defined.

Lemma joinable_eq hash t a b : joinable t a → joinable t b → approx_equality_operator hash a b = true ↔ a = b.
Proof.
  intros [Ha Hta] [Hb Htb]. pose proof (plain_eq hash a b Ha Hb) as H.
  destruct (decide (get_type a = get_type b)) as [Heq|Hne].
  - rewrite bool_decide_eq_true_2 in H by done. cbn [andb] in H. rewrite <- H.
    destruct a; cbn; try done. destruct b; done.
  - split; [|by intros ->]. destruct Hta as [Hta| ->], Htb as [Htb| ->]; try done; [congruence|by destruct a|by destruct b].
Qed.

(** The key of a row: its values at the positions. *)
Definition join_key (positions : list nat) (r : row) : list flexible_type := map (cell r) positions.

Definition in_range (positions : list nat) (r : row) : Prop := Forall (λ p, (p < length r)%nat) positions.

Lemma join_values_ok positions r : in_range positions r → join_values positions r = Ok (join_key positions r).
Proof.
  intros H. unfold join_values, join_key. replace (mapM (λ i, r !! i) positions) with (Some (map (cell r) positions)); [done|].
  symmetry. apply mapM_Some_2, Forall2_fmap_r. induction H as [|p ps Hp _ IH]; constructor; [|done].
  destruct (lookup_lt_is_Some_2 r p Hp) as [v Hv]. cbn. unfold cell. by rewrite Hv.
Qed.

Lemma cell_lookup r p v : r !! p = Some v → cell r p = v.
Proof. intros H. unfold cell. by rewrite H. Qed.

Lemma lookup_cell r p : (p < length r)%nat → r !! p = Some (cell r p).
Proof. intros H. unfold cell. by destruct (lookup_lt_is_Some_2 r p H) as [v ->]. Qed.

(** Groups by distinct keys that cover all keys are all elements. *)
Lemma groups_permutation {A K} `{EqDecision K} (f : A → K) (P : K → Prop) `{∀ k, Decision (P k)} KS ls :
  NoDup KS → (∀ l, l ∈ ls → f l ∈ KS) →
  concat (map (λ k, filter (λ l, f l = k) ls) (filter P KS)) ≡ₚ filter (λ l, P (f l)) ls.
Proof.
  intros Hnd. induction ls as [|l ls IH]; intros Hin.
  { induction (filter P KS) as [|k ks IHk]; [done|]. cbn. by rewrite IHk. }
  assert (f l ∈ KS) as Hl by (apply Hin; left).
  specialize (IH (λ l' Hl', Hin l' (list_elem_of_further l' l ls Hl'))). clear Hin.
  apply list_elem_of_split in Hl as (K1 & K2 & ->). rewrite !filter_app, !map_app, !concat_app. rewrite (filter_cons P (f l) K2).
  assert (∀ ks, f l ∉ ks → map (λ k, filter (λ x, f x = k) (l :: ls)) (filter P ks) = map (λ k, filter (λ x, f x = k) ls) (filter P ks)) as Hne.
  { intros ks Hni. apply map_ext_in. intros k [_ Hk]%list_elem_of_In%list_elem_of_filter. rewrite filter_cons, decide_False; [done|].
    intros Heq. apply Hni. by rewrite Heq. }
  apply NoDup_app in Hnd as (_ & Hd & [Hni2 _]%NoDup_cons).
  assert (f l ∉ K1) as Hni1 by (intros Hin; apply (Hd _ Hin); left).
  rewrite !filter_app, !map_app, !concat_app, (filter_cons P (f l) K2) in IH. rewrite (filter_cons _ l ls).
  rewrite (Hne K1) by done. destruct (decide (P (f l))); [|by rewrite (Hne K2)]. cbn [map concat].
  rewrite filter_cons, decide_True, (Hne K2) by done. rewrite <- IH. cbn [map concat app]. by rewrite <- Permutation_middle.
Qed.

Lemma groups_all {A K} `{EqDecision K} (f : A → K) KS ls :
  NoDup KS → (∀ l, l ∈ ls → f l ∈ KS) → concat (map (λ k, filter (λ l, f l = k) ls) KS) ≡ₚ ls.
Proof.
  intros Hnd Hin. pose proof (groups_permutation f (λ _, True) KS ls Hnd Hin) as H.
  by rewrite !filter_all in H by done.
Qed.

Section table.
Context (hash : flexible_type → Z) (hash64_combine : Z → Z → Z).

Abbreviation H := (hash_key hash hash64_combine).

Lemma hash_row_ok positions r : in_range positions r →
  compute_hash_from_row hash hash64_combine r positions = Ok (H (join_key positions r)).
Proof. intros Hr. unfold compute_hash_from_row. by rewrite join_values_ok. Qed.

Lemma positions_equal_ok types ps qs r o : in_range ps r → in_range qs o →
  Forall2 joinable types (join_key ps r) → Forall2 joinable types (join_key qs o) →
  positions_equal hash ps qs r o = Ok (bool_decide (join_key ps r = join_key qs o)).
Proof.
  revert types qs. induction ps as [|p ps IH]; intros types [|q qs] Hr Ho Hk1 Hk2; cbn in Hk1, Hk2;
    inversion Hk1 as [|t ? types' ? Ha Hk1']; subst; inversion Hk2 as [|? ? ? ? Hb Hk2']; subst; [done|].
  apply Forall_cons in Hr as [Hp Hr]. apply Forall_cons in Ho as [Hq Ho]. cbn.
  rewrite (lookup_cell r p), (lookup_cell o q) by done. cbn. pose proof (joinable_eq hash t _ _ Ha Hb) as Heq.
  destruct (approx_equality_operator hash (cell r p) (cell o q)).
  - rewrite (IH types' qs) by done. f_equal. apply bool_decide_ext. unfold join_key. cbn [map]. rewrite (proj1 Heq eq_refl).
    split; [by intros ->|by intros [= ->]].
  - rewrite bool_decide_eq_false_2; [done|]. intros [= Hc _]. apply Heq in Hc. done.
Qed.

(** ** The table *)

Context (types : list flex_type_enum) (hp : list nat).
Context (nonempty : hp ≠ []).

Abbreviation key := (join_key hp).

(** A row of the table. *)
Definition keyed (positions : list nat) (r : row) : Prop :=
  in_range positions r ∧ Forall2 joinable types (join_key positions r).

Definition entry (ls : list row) (M : list flexible_type → bool) (k : list flexible_type) : hash_join_row :=
  HashJoinRow (filter (λ l, key l = k) ls) (M k).

(** The table of the rows [ls], where [M] says which keys are marked. *)
Definition table_of (ht : hash_table) (ls : list row) (M : list flexible_type → bool) : Prop :=
  ∃ ks : Z → list (list flexible_type),
    (∀ h, NoDup (ks h)) ∧ (∀ h k, k ∈ ks h ↔ k ∈ map key ls ∧ H k = h) ∧
    ∀ h, ht !! h = match ks h with [] => None | _ => Some (map (entry ls M) (ks h)) end.

Lemma table_empty : table_of ∅ [] (λ _, false).
Proof.
  exists (λ _, []). split_and!; [intros; apply NoDup_nil_2| |intros; apply lookup_empty].
  intros h k. split; [by intros ?%elem_of_nil|by intros [?%elem_of_nil _]].
Qed.

(** Rows with the key of [k]. *)
Lemma entry_head ls M k : k ∈ map key ls → ∃ l rest, rows (entry ls M k) = l :: rest ∧ key l = k ∧ l ∈ ls.
Proof.
  intros (l & -> & Hl)%list_elem_of_fmap. cbn. destruct (filter (λ l', key l' = key l) ls) as [|x rest] eqn:Hf.
  - by destruct (filter_nil_not_elem_of _ _ l Hf eq_refl).
  - assert (x ∈ filter (λ l', key l' = key l) ls) as [Hx Hin]%list_elem_of_filter by (rewrite Hf; left).
    by exists x, rest.
Qed.

Lemma equal_in_table l r positions : length positions = length hp → keyed hp l → keyed positions r →
  join_values_equal hash hp l r positions = Ok (bool_decide (key l = join_key positions r)).
Proof using nonempty.
  intros Hl [Hl1 Hl2] [Hr1 Hr2]. unfold join_values_equal. destruct positions as [|q positions]; [by destruct hp|].
  rewrite Hl, Nat.eqb_refl. by apply (positions_equal_ok types).
Qed.

Lemma filter_snoc_key ls l k : filter (λ x, key x = k) (ls ++ [l]) =
  filter (λ x, key x = k) ls ++ (if decide (key l = k) then [l] else []).
Proof. rewrite filter_app, filter_cons. by case_decide. Qed.

(** *** Adding a row *)

Lemma entry_snoc_ne ls l M k : key l ≠ k → entry (ls ++ [l]) M k = entry ls M k.
Proof. intros Hne. unfold entry. by rewrite filter_snoc_key, decide_False, app_nil_r. Qed.

Lemma entry_snoc_eq ls l M : entry (ls ++ [l]) M (key l) = HashJoinRow (rows (entry ls M (key l)) ++ [l]) (M (key l)).
Proof. unfold entry. by rewrite filter_snoc_key, decide_True. Qed.

Lemma entry_new ls l M : key l ∉ map key ls → entry (ls ++ [l]) M (key l) = HashJoinRow [l] (M (key l)).
Proof.
  intros Hni. unfold entry. rewrite filter_snoc_key, decide_True, filter_empty; [done| |done].
  intros x Hx Heq. apply Hni. rewrite <- Heq. by apply list_elem_of_fmap_2.
Qed.

Lemma add_to_bucket_ok ls l ks : Forall (keyed hp) ls → keyed hp l → Forall (λ k, k ∈ map key ls) ks → NoDup ks →
  (key l ∈ ks ∨ key l ∉ map key ls) →
  add_to_bucket hash hp l (map (entry ls (λ _, false)) ks) =
  Ok (map (entry (ls ++ [l]) (λ _, false)) (if decide (key l ∈ ks) then ks else ks ++ [key l]), bool_decide (key l ∉ ks)).
Proof using nonempty.
  intros Hls Hl. induction ks as [|k ks IH]; intros Hks Hnd Hnew.
  { rewrite decide_False, bool_decide_eq_true_2 by apply not_elem_of_nil. cbn [map add_to_bucket app].
    destruct Hnew as [?%elem_of_nil|Hni]; [done|]. by rewrite entry_new. }
  apply Forall_cons in Hks as [Hk Hks]. apply NoDup_cons in Hnd as [Hni Hnd].
  destruct (entry_head ls (λ _, false) k Hk) as (l0 & rest & Hrows & Hkey & Hin).
  pose proof Hls as Hls'. rewrite Forall_forall in Hls'.
  cbn [map add_to_bucket]. rewrite Hrows, equal_in_table by auto. cbn [mbind outcome_bind]. rewrite Hkey.
  destruct (decide (k = key l)) as [->|Hkl].
  - rewrite bool_decide_eq_true_2 by done. rewrite decide_True by left. rewrite bool_decide_eq_false_2 by (intros Hn; apply Hn; left).
    cbn [map]. rewrite entry_snoc_eq, Hrows. do 3 f_equal. apply map_ext_in. intros k' Hk'%list_elem_of_In.
    symmetry. apply entry_snoc_ne. intros Heq. apply Hni. by rewrite Heq.
  - rewrite bool_decide_eq_false_2 by done. assert (key l ∈ ks ∨ key l ∉ map key ls) as Hnew'.
    { destruct Hnew as [[?|?]%elem_of_cons|?]; [congruence|by left|by right]. }
    rewrite IH by done. cbn [mbind outcome_bind fst snd].
    assert (key l ∈ k :: ks ↔ key l ∈ ks) as Hiff by (rewrite elem_of_cons; naive_solver).
    do 2 f_equal; [|apply bool_decide_ext; tauto].
    rewrite <- (entry_snoc_ne ls l (λ _, false) k) by congruence.
    destruct (decide (key l ∈ ks)), (decide (key l ∈ k :: ks)); tauto || done.
Qed.

Lemma map_key_snoc ls l k : k ∈ map key (ls ++ [l]) ↔ k ∈ map key ls ∨ k = key l.
Proof. rewrite map_app, elem_of_app. cbn. by rewrite list_elem_of_singleton. Qed.

Lemma add_row_ok ht ls l : table_of ht ls (λ _, false) → Forall (keyed hp) ls → keyed hp l → ∃ ht',
  add_row hash hash64_combine hp l ht = Ok (ht', bool_decide (key l ∉ map key ls)) ∧ table_of ht' (ls ++ [l]) (λ _, false).
Proof using nonempty.
  intros (ks & Hnd & Hin & Hht) Hls Hl. unfold add_row. rewrite hash_row_ok by apply Hl. cbn [mbind outcome_bind].
  set (h := H (key l)). set (ks' := if decide (key l ∈ ks h) then ks h else ks h ++ [key l]).
  assert (key l ∈ ks h ↔ key l ∈ map key ls) as Hmem by (rewrite Hin; naive_solver).
  set (f := λ h', if decide (h' = h) then ks' else ks h').
  assert (∀ b, b = map (entry (ls ++ [l]) (λ _, false)) ks' → table_of (<[h := b]> ht) (ls ++ [l]) (λ _, false)) as Hnew.
  { intros b ->. exists f. split_and!.
    - intros h'. unfold f, ks'. destruct (decide (h' = h)); [|done]. destruct (decide (key l ∈ ks h)); [done|].
      apply NoDup_app. split_and!; [done| |apply NoDup_singleton]. by intros x Hx ->%list_elem_of_singleton.
    - intros h' k. rewrite map_key_snoc. unfold f, ks'. destruct (decide (h' = h)) as [->|Hne].
      + destruct (decide (key l ∈ ks h)); rewrite ?elem_of_app, ?list_elem_of_singleton, Hin; naive_solver.
      + rewrite Hin. naive_solver.
    - intros h'. unfold f. destruct (decide (h' = h)) as [->|Hne].
      + rewrite lookup_insert_eq. assert (ks' ≠ []) as Hne.
        { unfold ks'. destruct (decide (key l ∈ ks h)) as [Hi|]; [|by intros [_ ?]%app_eq_nil].
          intros Hnil. rewrite Hnil in Hi. by apply elem_of_nil in Hi. }
        by destruct ks'.
      + rewrite lookup_insert_ne, Hht by done. destruct (ks h') as [|k kr] eqn:Hk; [done|]. rewrite <- Hk. f_equal.
        apply map_ext_in. intros k' Hk'%list_elem_of_In. symmetry. apply entry_snoc_ne. intros Heq.
        apply Hin in Hk' as [_ Hh]. apply Hne. rewrite <- Hh, <- Heq. done. }
  assert (Forall (λ k, k ∈ map key ls) (ks h)) as Hall by (apply Forall_forall; intros k Hk; by apply Hin in Hk as [? _]).
  pose proof (add_to_bucket_ok ls l (ks h) Hls Hl Hall (Hnd h)) as Hadd. fold ks' in Hadd.
  rewrite Hht. destruct (ks h) as [|k kr] eqn:Hk.
  - eexists. split; [|apply Hnew; unfold ks'].
    + rewrite bool_decide_eq_true_2; [done|]. intros Hc%Hmem. by apply elem_of_nil in Hc.
    + rewrite decide_False by apply not_elem_of_nil. cbn. by rewrite entry_new by (intros Hc%Hmem; by apply elem_of_nil in Hc).
  - rewrite Hadd by (destruct (decide (key l ∈ k :: kr)); [by left|right; by rewrite <- Hmem]). cbn [map mbind outcome_bind fst snd].
    eexists. split; [|by apply Hnew]. do 2 f_equal. apply bool_decide_ext. by rewrite Hmem.
Qed.
(** *** Finding the rows of a key *)

Definition mark (M : list flexible_type → bool) (k k' : list flexible_type) : bool := M k' || bool_decide (k' = k).

Lemma mark_ne M k k' : k' ≠ k → mark M k k' = M k'.
Proof. intros Hne. unfold mark. by rewrite bool_decide_eq_false_2, orb_false_r. Qed.

Lemma mark_eq M k : mark M k k = true.
Proof. unfold mark. by rewrite bool_decide_eq_true_2, orb_true_r. Qed.

Lemma entry_mark_ne ls M k k' : k' ≠ k → entry ls (mark M k) k' = entry ls M k'.
Proof. intros Hne. unfold entry. by rewrite mark_ne. Qed.

Lemma match_in_bucket_ok ls M r positions ks : length positions = length hp → Forall (keyed hp) ls → keyed positions r →
  Forall (λ k, k ∈ map key ls) ks → NoDup ks → let k := join_key positions r in
  match_in_bucket hash hp r positions true (map (entry ls M) ks) =
  Ok (if decide (k ∈ ks) then entry ls (mark M k) k else empty_vt, map (entry ls (mark M k)) ks).
Proof using nonempty.
  intros Hlen Hls Hr Hks Hnd k. induction ks as [|k0 ks IH].
  { by rewrite decide_False by apply not_elem_of_nil. }
  apply Forall_cons in Hks as [Hk Hks]. apply NoDup_cons in Hnd as [Hni Hnd].
  destruct (entry_head ls M k0 Hk) as (l0 & rest & Hrows & Hkey & Hin).
  pose proof Hls as Hls'. rewrite Forall_forall in Hls'.
  cbn [map match_in_bucket]. rewrite Hrows. cbn [head or_trap mbind outcome_bind]. rewrite equal_in_table by auto.
  cbn [mbind outcome_bind]. rewrite Hkey. fold k. destruct (decide (k0 = k)) as [->|Hne].
  - rewrite bool_decide_eq_true_2, decide_True by (done || left). rewrite <- Hrows.
    assert (HashJoinRow (rows (entry ls M k)) (true || matched (entry ls M k)) = entry ls (mark M k) k) as ->.
    { unfold entry. by rewrite mark_eq. }
    cbn [map]. do 3 f_equal. apply map_ext_in. intros k' Hk'%list_elem_of_In. symmetry. apply entry_mark_ne.
    intros Heq. apply Hni. by rewrite <- Heq.
  - rewrite bool_decide_eq_false_2 by done. rewrite IH by done. cbn [mbind outcome_bind fst snd]. f_equal.
    rewrite (entry_mark_ne ls M k k0) by done.
    assert (k ∈ k0 :: ks ↔ k ∈ ks) as Hiff by (rewrite elem_of_cons; naive_solver).
    destruct (decide (k ∈ ks)), (decide (k ∈ k0 :: ks)); tauto || done.
Qed.

Lemma get_matching_ok ht ls M r positions : table_of ht ls M → length positions = length hp → Forall (keyed hp) ls →
  keyed positions r → let k := join_key positions r in ∃ found ht',
  get_matching_rows hash hash64_combine hp r positions true ht = Ok (found, ht') ∧
  rows found = filter (λ l, key l = k) ls ∧ table_of ht' ls (mark M k).
Proof using nonempty.
  intros (ks & Hnd & Hin & Hht) Hlen Hls Hr k. unfold get_matching_rows. rewrite hash_row_ok by apply Hr.
  cbn [mbind outcome_bind]. fold k. rewrite Hht.
  assert (Forall (λ k', k' ∈ map key ls) (ks (H k))) as Hall by (apply Forall_forall; intros k' Hk; by apply Hin in Hk as [? _]).
  pose proof (match_in_bucket_ok ls M r positions (ks (H k)) Hlen Hls Hr Hall (Hnd (H k))) as Hm. fold k in Hm. cbn zeta in Hm.
  assert (k ∉ ks (H k) → [] = filter (λ l, key l = k) ls) as Hempty.
  { intros Hni. symmetry. apply filter_empty. intros l Hl Heq. apply Hni. apply Hin. split; [|done].
    rewrite <- Heq. by apply list_elem_of_fmap_2. }
  destruct (ks (H k)) as [|k0 kr] eqn:Hk.
  - exists empty_vt, ht. split_and!; [done|apply Hempty, not_elem_of_nil|]. exists ks. split_and!; [done..|].
    intros h. rewrite Hht. destruct (ks h) as [|k' kr'] eqn:Hk'; [done|]. rewrite <- Hk'. f_equal. apply map_ext_in.
    intros x Hx%list_elem_of_In. symmetry. apply entry_mark_ne. intros ->. apply Hin in Hx as [_ <-]. by rewrite Hk in Hk'.
  - rewrite Hm. cbn [mbind outcome_bind fst snd]. eexists _, _. split_and!; [done| |].
    + destruct (decide (k ∈ k0 :: kr)); [done|]. cbn [rows empty_vt]. by apply Hempty.
    + exists ks. split_and!; [done..|]. intros h. destruct (decide (h = H k)) as [->|Hne].
      * by rewrite lookup_insert_eq, Hk.
      * rewrite lookup_insert_ne, Hht by done. destruct (ks h) as [|k' kr'] eqn:Hk'; [done|]. rewrite <- Hk'. f_equal.
        apply map_ext_in. intros x Hx%list_elem_of_In. symmetry. apply entry_mark_ne. intros ->. by apply Hin in Hx as [_ <-].
Qed.

(** *** The rows of the keys that are not marked *)

Lemma concat_map_bind {A B} (f : A → list B) (l : list A) : concat (map f l) = l ≫= f.
Proof. induction l as [|a l IH]; [done|]. cbn. by rewrite IH. Qed.

(** The entries are those of the keys, once each. *)
Lemma table_entries ht ls M : table_of ht ls M → ∃ KS,
  concat (map snd (map_to_list ht)) = map (entry ls M) KS ∧ NoDup KS ∧ ∀ k, k ∈ KS ↔ k ∈ map key ls.
Proof.
  intros (ks & Hnd & Hin & Hht). exists (map_to_list ht ≫= λ kb, ks kb.1).
  assert (∀ h b, (h, b) ∈ map_to_list ht → b = map (entry ls M) (ks h)) as Hb.
  { intros h b Hm%elem_of_map_to_list. rewrite Hht in Hm. destruct (ks h); [done|]. by injection Hm as <-. }
  split_and!.
  - rewrite <- concat_map_bind, concat_map, map_map. f_equal. apply map_ext_in. intros [h b] Hm%list_elem_of_In. by apply Hb.
  - apply NoDup_bind.
    + intros [h1 b1] [h2 b2] k H1 H2 Hk1 Hk2. cbn in Hk1, Hk2. apply Hin in Hk1 as [_ Hh1]. apply Hin in Hk2 as [_ Hh2].
      assert (h1 = h2) as -> by congruence. by rewrite (Hb _ _ H1), (Hb _ _ H2).
    + intros [h b] _. apply Hnd.
    + apply NoDup_map_to_list.
  - intros k. rewrite list_elem_of_bind. split.
    + intros ([h b] & Hk & _). by apply Hin in Hk as [? _].
    + intros Hk. assert (k ∈ ks (H k)) as Hk' by by apply Hin. destruct (ht !! H k) as [b|] eqn:Hm.
      * exists (H k, b). split; [done|]. by apply elem_of_map_to_list.
      * rewrite Hht in Hm. destruct (ks (H k)); [by apply elem_of_nil in Hk'|done].
Qed.

(** *** Many rows *)

Fixpoint add_all (rs : list row) (ht : hash_table) : outcome hash_table :=
  match rs with
  | [] => Ok ht
  | r :: rs => res ← add_row hash hash64_combine hp r ht; add_all rs res.1
  end.

Fixpoint match_all (positions : list nat) (rs : list row) (ht : hash_table) : outcome hash_table :=
  match rs with
  | [] => Ok ht
  | r :: rs => res ← get_matching_rows hash hash64_combine hp r positions true ht; match_all positions rs res.2
  end.

Lemma add_all_ok rs : Forall (keyed hp) rs → ∀ ls ht, Forall (keyed hp) ls → table_of ht ls (λ _, false) → ∃ ht',
  add_all rs ht = Ok ht' ∧ table_of ht' (ls ++ rs) (λ _, false).
Proof using nonempty.
  induction 1 as [|r rs Hr _ IH]; intros ls ht Hls Hht; [exists ht; by rewrite app_nil_r|].
  cbn [add_all]. destruct (add_row_ok ht ls r Hht Hls Hr) as (ht1 & -> & H1). cbn [mbind outcome_bind fst].
  destruct (IH (ls ++ [r]) ht1) as (ht2 & H2 & H3); [by apply Forall_app; split; [|constructor]|done|].
  exists ht2. split; [done|]. by rewrite <- app_assoc in H3.
Qed.

Lemma match_all_ok positions ls rs : length positions = length hp → Forall (keyed hp) ls → Forall (keyed positions) rs →
  ∀ ht M, table_of ht ls M → ∃ ht' M', match_all positions rs ht = Ok ht' ∧ table_of ht' ls M'.
Proof using nonempty.
  intros Hlen Hls. induction 1 as [|r rs Hr _ IH]; intros ht M Hht; [by exists ht, M|].
  cbn [match_all]. destruct (get_matching_ok ht ls M r positions Hht Hlen Hls Hr) as (found & ht1 & -> & _ & H1).
  cbn [mbind outcome_bind snd]. by eapply IH.
Qed.
End table.
End JoinTableSpec.
