(* ===== verification/JoinMergeSpec.v ===== *)
(** What a join makes of a row: the rows that are merged with the rows of their key, padded with
    undefined values, or kept with their key. *)
From S2P Require Import Prelude FlexType FlexOps QueryPlan GroupBySpec SFrame SFrameSpec Join JoinTableSpec.
Import FlexType FlexOps SFrame SFrameSpec Join JoinTableSpec.
Import GroupBySpec(bind_Ok, filter_all).
Local Open Scope Z_scope.
Local Open Scope sframe_scope.

Module JoinMergeSpec.

(** The values of a row at positions. *)
Abbreviation cells r js := (map (cell r) js).

(** The columns of [n] that are not positions of the key. *)
Definition others (positions : list nat) (n : nat) : list nat := filter (λ i, i ∉ positions) (seq 0 n).

(** The position in the other frame of the key column [i]. *)
Fixpoint key_source (from to : list nat) (i : nat) : option nat :=
  match from, to with
  | q :: from, p :: to => if decide (p = i) then Some q else key_source from to i
  | _, _ => None
  end.

(** A row of [n] columns that has nothing but the key of [r]. *)
Definition pad (from to : list nat) (n : nat) (r : row) : row :=
  map (λ i, match key_source from to i with Some q => cell r q | None => FUndefined end) (seq 0 n).

Definition nulls (n : nat) : row := replicate n FUndefined.

(** ** Positions *)

Lemma key_source_Some from : ∀ to i q, key_source from to i = Some q → (q, i) ∈ zip from to.
Proof.
  induction from as [|q0 from IH]; intros [|p to] i q; try done. cbn. destruct (decide (p = i)) as [->|].
  - intros [= ->]. left.
  - intros H. right. by apply IH.
Qed.

Lemma key_source_zip from : ∀ to i q, NoDup to → (q, i) ∈ zip from to → key_source from to i = Some q.
Proof.
  induction from as [|q0 from IH]; intros [|p to] i q Hnd; try by intros ?%elem_of_nil. cbn.
  apply NoDup_cons in Hnd as [Hni Hnd]. intros [[= -> ->]|Hin]%elem_of_cons; [by rewrite decide_True|].
  rewrite decide_False; [by apply IH|]. intros ->. apply Hni. by apply elem_of_zip_r in Hin.
Qed.

Lemma key_source_None from : ∀ to i, length from = length to → key_source from to i = None ↔ i ∉ to.
Proof.
  induction from as [|q0 from IH]; intros [|p to] i Hl; try done; [split; [intros _; apply not_elem_of_nil|done]|].
  cbn. destruct (decide (p = i)) as [->|Hne].
  - split; [done|]. intros Hni. destruct Hni. left.
  - rewrite IH by (by injection Hl). rewrite not_elem_of_cons. naive_solver.
Qed.

(** The map from the positions in the right frame to those in the left. *)
Definition maps_to (m : gmap nat nat) (from to : list nat) : Prop := ∀ q p, m !! q = Some p ↔ (q, p) ∈ zip from to.

Lemma insert_positions_ok from : ∀ to m, NoDup from → length from = length to → (∀ q, q ∈ from → m !! q = None) →
  ∃ m', insert_positions from to m = Ok m' ∧ ∀ q p, m' !! q = Some p ↔ (q, p) ∈ zip from to ∨ m !! q = Some p.
Proof.
  induction from as [|q0 from IH]; intros [|p0 to] m Hnd Hl Hm; try done.
  { exists m. split; [done|]. intros q p. cbn. split; [by right|]. by intros [?%elem_of_nil|]. }
  apply NoDup_cons in Hnd as [Hni Hnd]. cbn [insert_positions]. rewrite (Hm q0) by left.
  destruct (IH to (<[q0:=p0]> m)) as (m' & Hm' & Hlook); [done|by injection Hl| |].
  { intros q Hq. rewrite lookup_insert_ne by (by intros ->). apply Hm. by right. }
  exists m'. split; [done|]. intros q p. rewrite Hlook. cbn. rewrite elem_of_cons. destruct (decide (q = q0)) as [->|Hne].
  - rewrite lookup_insert_eq, (Hm q0) by left. split.
    + intros [Hin|[= ->]]; [|by left; left]. by apply elem_of_zip_l in Hin.
    + intros [[[= ->]|Hin]|?]; [by right|by left|done].
  - rewrite lookup_insert_ne by done. naive_solver.
Qed.

Lemma make_positions from to : NoDup from → length from = length to → ∃ m,
  insert_positions from to ∅ = Ok m ∧ maps_to m from to.
Proof.
  intros Hnd Hl. destruct (insert_positions_ok from to ∅ Hnd Hl) as (m & Hm & Hlook); [done|].
  exists m. split; [done|]. intros q p. rewrite Hlook, lookup_empty. naive_solver.
Qed.

Lemma maps_to_None m from to q : maps_to m from to → length from = length to → m !! q = None ↔ q ∉ from.
Proof.
  intros Hm Hl. split.
  - intros Hn (i & Hi)%list_elem_of_lookup_1. destruct (lookup_lt_is_Some_2 to i) as [p Hp]; [rewrite <- Hl; by eapply lookup_lt_Some|].
    assert (m !! q = Some p) as H by (apply Hm, (list_elem_of_lookup_2 _ i); by rewrite lookup_zip_with, Hi, Hp). congruence.
  - intros Hni. destruct (m !! q) as [p|] eqn:Hq; [|done]. apply Hm in Hq. by apply elem_of_zip_l in Hq.
Qed.

Lemma length_nulls n : length (nulls n) = n.
Proof. apply length_replicate. Qed.

Lemma nulls_add a b : nulls (a + b) = nulls a ++ nulls b.
Proof. apply replicate_add. Qed.

Lemma row_of_cells (r : row) n : length r = n → cells r (seq 0 n) = r.
Proof. intros <-. apply row_cells. Qed.

Lemma concat_replicate_one {A} n (x : A) : concat (replicate n [x]) = replicate n x.
Proof. induction n as [|n IH]; [done|]. cbn. by rewrite IH. Qed.

Section positions.
Context (m : gmap nat nat) (lp rp : list nat) (nl nr : nat).
Context (Hm : maps_to m rp lp) (Hlen : length rp = length lp) (Hlp : NoDup lp) (Hrp : NoDup rp).
Context (Hl : Forall (λ p, (p < nl)%nat) lp) (Hr : Forall (λ q, (q < nr)%nat) rp).

(** ** Placing the values of a right row *)

Definition put_key (r : row) (a : row) (q : nat) : row := match m !! q with Some p => <[p := cell r q]> a | None => a end.
Definition put_keys (copy_keys : bool) (r : row) (js : list nat) (a : row) : row :=
  if copy_keys then foldl (put_key r) a js else a.

Lemma length_put_keys ck r js a : length (put_keys ck r js a) = length a.
Proof.
  destruct ck; [|done]. cbn. revert a. induction js as [|j js IH]; intros a; [done|]. cbn. rewrite IH.
  unfold put_key. case_match; [by rewrite length_insert|done].
Qed.

Lemma place_right_ok ck r n : ∀ j a b1 b2, length a = nl → length b2 = length (filter (λ q, m !! q = None) (seq j n)) →
  place_right m ck j (length a + length b1) (cells r (seq j n)) (a ++ b1 ++ b2) =
  Ok (put_keys ck r (seq j n) a ++ b1 ++ cells r (filter (λ q, m !! q = None) (seq j n))).
Proof using All.
  induction n as [|n IH]; intros j a b1 b2 Ha Hb.
  { cbn in Hb |- *. apply length_zero_iff_nil in Hb as ->. by destruct ck. }
  cbn [seq map place_right] in *. rewrite filter_cons in Hb |- *. destruct (m !! j) as [p|] eqn:Hj.
  - rewrite decide_False in Hb |- * by done.
    assert (p < length a)%nat as Hp.
    { rewrite Ha. apply Hm in Hj. apply elem_of_zip_r in Hj. rewrite Forall_forall in Hl. by apply Hl. }
    assert ((if ck then store p (cell r j) (a ++ b1 ++ b2) else Ok (a ++ b1 ++ b2)) =
      Ok (put_keys ck r [j] a ++ b1 ++ b2)) as ->.
    { destruct ck; [|done]. unfold store. rewrite (proj2 (Nat.ltb_lt _ _)) by (rewrite length_app; lia).
      rewrite insert_app_l by done. cbn. unfold put_key. by rewrite Hj. }
    cbn [mbind outcome_bind]. pose proof (length_put_keys ck r [j] a) as Hpl. rewrite <- Hpl, IH by (by rewrite ?Hpl).
    by destruct ck.
  - rewrite decide_True in Hb |- * by done. destruct b2 as [|x b2]; [done|]. injection Hb as Hb.
    unfold store. rewrite (proj2 (Nat.ltb_lt _ _)) by (rewrite !length_app; cbn; lia). cbn [mbind outcome_bind].
    assert (<[(length a + length b1)%nat := cell r j]> (a ++ b1 ++ x :: b2) = a ++ (b1 ++ [cell r j]) ++ b2) as ->.
    { rewrite insert_app_r, <- (Nat.add_0_r (length b1)), insert_app_r. cbn. by rewrite <- app_assoc. }
    replace (S (length a + length b1))%nat with (length a + length (b1 ++ [cell r j]))%nat by (rewrite length_app; cbn; lia).
    rewrite IH by done. cbn [map]. rewrite <- app_assoc.
    replace (put_keys ck r (j :: seq (S j) n) a) with (put_keys ck r (seq (S j) n) a); [done|].
    destruct ck; [|done]. unfold put_keys. cbn [foldl]. f_equal. unfold put_key. by rewrite Hj.
Qed.

(** The keys of a row that is placed alone. *)
Lemma put_keys_lookup r js : ∀ a i, NoDup js → (∀ q p, m !! q = Some p → (p < length a)%nat) →
  foldl (put_key r) a js !! i =
    match key_source rp lp i with Some q => if decide (q ∈ js) then Some (cell r q) else a !! i | None => a !! i end.
Proof using All.
  induction js as [|j js IH]; intros a i Hnd Ha; cbn [foldl].
  { by destruct (key_source rp lp i). }
  apply NoDup_cons in Hnd as [Hni Hnd]. rewrite IH; [|done|].
  2:{ intros q p Hq. unfold put_key. specialize (Ha q p Hq). case_match; by rewrite ?length_insert. }
  destruct (key_source rp lp i) as [q|] eqn:Hq.
  - assert (m !! q = Some i) as Hqi by (apply Hm; by apply key_source_Some). destruct (decide (q ∈ j :: js)) as [Hin|Hout].
    + apply elem_of_cons in Hin as [->|Hin]; [|by rewrite decide_True].
      rewrite decide_False by done. unfold put_key. rewrite Hqi. by rewrite list_lookup_insert_eq by (by eapply Ha).
    + apply not_elem_of_cons in Hout as [Hne Hout]. rewrite decide_False by done.
      unfold put_key. destruct (m !! j) as [p|] eqn:Hj; [|done]. rewrite list_lookup_insert_ne; [done|].
      intros ->. apply Hm, (key_source_zip _ _ _ _ Hlp) in Hj. congruence.
  - unfold put_key. destruct (m !! j) as [p|] eqn:Hj; [|done]. rewrite list_lookup_insert_ne; [done|].
    intros ->. apply Hm, (key_source_zip _ _ _ _ Hlp) in Hj. congruence.
Qed.

Lemma put_keys_pad r : put_keys true r (seq 0 nr) (nulls nl) = pad rp lp nl r.
Proof using All.
  apply list_eq. intros i. cbn. rewrite put_keys_lookup; [|apply NoDup_seq|].
  2:{ intros q p Hq. apply Hm in Hq. apply elem_of_zip_r in Hq. rewrite Forall_forall in Hl. rewrite length_nulls. by apply Hl. }
  unfold pad. rewrite list_lookup_fmap. destruct (decide (i < nl)%nat) as [Hi|Hi].
  - rewrite lookup_seq_lt by done. cbn. destruct (key_source rp lp i) as [q|] eqn:Hq.
    + apply key_source_Some, elem_of_zip_l in Hq. rewrite Forall_forall in Hr. rewrite decide_True; [done|].
      apply elem_of_seq. specialize (Hr q Hq). lia.
    + unfold nulls. by rewrite lookup_replicate_2.
  - rewrite lookup_seq_ge by lia. cbn. destruct (key_source rp lp i) as [q|] eqn:Hq.
    + apply key_source_Some, elem_of_zip_r in Hq. rewrite Forall_forall in Hl. specialize (Hl i Hq). lia.
    + apply lookup_ge_None_2. rewrite length_nulls. lia.
Qed.

Lemma others_filter : filter (λ q, m !! q = None) (seq 0 nr) = others rp nr.
Proof using All. apply list_filter_iff. intros q. by apply (maps_to_None m rp lp). Qed.

Lemma length_others : (length (others rp nr) + length rp = nr)%nat.
Proof using All.
  pose proof (Permutation_length (filter_app_complement (λ i, i ∉ rp) (seq 0 nr))) as Hc.
  rewrite length_app, length_seq in Hc. rewrite <- Hc at 2. unfold others.
  f_equal. apply Permutation_length, NoDup_Permutation; [done|apply NoDup_filter, NoDup_seq|].
  intros q. rewrite list_elem_of_filter, elem_of_seq. rewrite Forall_forall in Hr. split.
  - intros Hq. specialize (Hr q Hq). split; [|lia]. by intros Hn.
  - intros [Hn _]. by apply dec_stable.
Qed.
(** ** Merging *)

Abbreviation no := (length (others rp nr)).

Lemma place_whole_row ck r a b : length r = nr → length a = nl → length b = no →
  place_right m ck 0 (length (a ++ b) - no) r (a ++ b) = Ok (put_keys ck r (seq 0 nr) a ++ cells r (others rp nr)).
Proof using All.
  intros Hlr Ha Hb. replace (length (a ++ b) - no)%nat with (length a + length (@nil flexible_type))%nat by (rewrite length_app; cbn; lia).
  pose proof (place_right_ok ck r nr 0 a [] b Ha) as Hp. rewrite row_of_cells, others_filter in Hp by done. by apply Hp.
Qed.

Lemma merge_left_ok k ls : (k ≠ 0)%nat → Forall (λ l, length l = nl) ls →
  merge_left k ls (replicate (length ls) (nulls (nl + no))) = Ok (map (λ l, l ++ nulls no) ls).
Proof using All.
  intros Hk. induction 1 as [|l ls Hll _ IH]; [done|]. cbn [length replicate merge_left map].
  rewrite (proj2 (Nat.eqb_neq k 0)) by done. unfold copy_row. rewrite length_nulls, Hll.
  rewrite (proj2 (Nat.leb_le _ _)) by lia. cbn [mbind outcome_bind]. rewrite IH. cbn [mbind outcome_bind].
  by rewrite nulls_add, drop_app_length' by (by rewrite length_nulls).
Qed.

Lemma merge_right_ok ck r rs : length r = nr → Forall (λ ab, length ab.1 = nl ∧ length ab.2 = no) rs →
  merge_right m ck no (replicate (length rs) r) (map (λ ab, ab.1 ++ ab.2) rs) =
  Ok (map (λ ab, put_keys ck r (seq 0 nr) ab.1 ++ cells r (others rp nr)) rs).
Proof using All.
  intros Hlr. induction 1 as [|[a b] rs [Ha Hb] _ IH]; [done|]. cbn [length replicate map merge_right fst snd] in *.
  rewrite (proj2 (Nat.ltb_ge _ _)) by (rewrite length_app; lia). rewrite place_whole_row by done.
  cbn [mbind outcome_bind]. rewrite IH. done.
Qed.

Lemma merge_match ls r : ls ≠ [] → Forall (λ l, length l = nl) ls → length r = nr →
  merge_rows_for_output (nl + no) (length rp) m ls [r] = Ok (map (λ l, l ++ cells r (others rp nr)) ls).
Proof using All.
  intros Hne HF Hlr. unfold merge_rows_for_output. destruct ls as [|l ls]; [done|]. set (L := l :: ls) in *.
  assert (length L ≠ 0%nat) as H0 by (unfold L; cbn; lia). cbn [length]. rewrite Nat.mul_1_r.
  rewrite (proj2 (Nat.eqb_neq _ 0)) by done. rewrite Nat.div_same by done.
  change (match L with [] => _ | _ :: _ => ?x end) with x.
  rewrite merge_left_ok by done. cbn [mbind outcome_bind]. rewrite Nat.eqb_refl. cbn [mbind outcome_bind].
  pose proof length_others as Hno. rewrite (proj2 (Nat.ltb_ge _ _)) by lia. rewrite Nat.div_1_r, concat_replicate_one.
  replace (length r - length rp)%nat with no by lia. cbn [L].
  pose proof (merge_right_ok false r (map (λ l, (l, nulls no)) L) Hlr) as Hmr. rewrite length_map, !map_map in Hmr. cbn [fst snd] in Hmr.
  apply Hmr. apply Forall_fmap. eapply Forall_impl; [exact HF|]. intros x Hx. cbn. split; [done|]. apply length_nulls.
Qed.

Lemma merge_left_only ls : Forall (λ l, length l = nl) ls →
  merge_rows_for_output (nl + no) (length rp) m ls [] = Ok (map (λ l, l ++ nulls no) ls).
Proof using All.
  intros HF. unfold merge_rows_for_output. destruct ls as [|l ls]; [done|]. set (L := l :: ls) in *.
  assert (length L ≠ 0%nat) as H0 by (unfold L; cbn; lia). cbn [length]. rewrite Nat.mul_0_r, Nat.max_0_r. cbn [Nat.eqb].
  rewrite Nat.div_same by done. change (match L with [] => _ | _ :: _ => ?x end) with x.
  rewrite merge_left_ok by done. cbn [mbind outcome_bind]. by rewrite Nat.eqb_refl.
Qed.

Lemma merge_right_only r : length r = nr →
  merge_rows_for_output (nl + no) (length rp) m [] [r] = Ok [pad rp lp nl r ++ cells r (others rp nr)].
Proof using All.
  intros Hlr. unfold merge_rows_for_output. cbn [length Nat.mul Nat.eqb Nat.max replicate mbind outcome_bind].
  pose proof length_others as Hno. rewrite (proj2 (Nat.ltb_ge _ _)) by lia. rewrite Nat.div_1_r. cbn [replicate concat app].
  replace (length r - length rp)%nat with no by lia. fold (nulls (nl + no)). rewrite nulls_add.
  pose proof (merge_right_ok true r [(nulls nl, nulls no)] Hlr) as Hmr. cbn [length replicate map fst snd] in Hmr.
  rewrite Hmr; [by rewrite put_keys_pad|].
  constructor; [|done]. cbn. by rewrite !length_nulls.
Qed.
End positions.
End JoinMergeSpec.
