(* ===== verification/JoinLoopSpec.v ===== *)
(** The loops of a join over the rows of one partition: they write the relational join of the
    rows, in some order. *)
From S2P Require Import Prelude FlexType FlexOps QueryPlan QueryPlanSpec GroupBySpec GroupKeySpec SFrame SFrameSpec.
From S2P Require Import Join JoinTableSpec JoinMergeSpec.
Import FlexType FlexOps SFrame SFrameSpec Join JoinTableSpec JoinMergeSpec.
Import QueryPlan(SoftAssign, soft_assign).
Import QueryPlanSpec(fits).
Import GroupBySpec(bind_Ok, filter_all, filter_empty).
Local Open Scope Z_scope.
Local Open Scope sframe_scope.

Module JoinLoopSpec.

(** ** The relational join

    The pairs of rows with equal keys, and the rows of a frame without a partner, if they are to
    be kept. *)
Definition matches (lp rp : list nat) (nr : nat) (L R : list row) : list row :=
  concat (map (λ r, map (λ l, l ++ cells r (others rp nr)) (filter (λ l, join_key lp l = join_key rp r) L)) R).

Definition right_alone (lp rp : list nat) (nl nr : nat) (L R : list row) : list row :=
  map (λ r, pad rp lp nl r ++ cells r (others rp nr)) (filter (λ r, join_key rp r ∉ map (join_key lp) L) R).

Definition left_alone (lp rp : list nat) (nr : nat) (L R : list row) : list row :=
  map (λ l, l ++ nulls (length (others rp nr))) (filter (λ l, join_key lp l ∉ map (join_key rp) R) L).

Definition relational_join (keep_left keep_right : bool) (lp rp : list nat) (nl nr : nat) (L R : list row) : list row :=
  matches lp rp nr L R ++ (if keep_right then right_alone lp rp nl nr L R else []) ++
  (if keep_left then left_alone lp rp nr L R else []).

(** ** What has been written *)

(** The writer, of [n] segments, holds the rows in some order. *)
Definition wrote (types : list flex_type_enum) (n : nat) (w : frame_writer) (out : list row) : Prop :=
  ∃ segs, holds types segs w ∧ length segs = n ∧ concat segs ≡ₚ out.

#[export] Instance wrote_proper types n w : Proper ((≡ₚ) ==> iff) (wrote types n w).
Proof. intros a b Hab. unfold wrote. by setoid_rewrite Hab. Qed.

Lemma wrote_each {SA : SoftAssign} types n w seg out rs : wrote types n w out → (seg < n)%nat → Forall (row_of types) rs → ∃ w',
  write_each (map (pair seg) rs) w = Ok w' ∧ w_names w' = w_names w ∧ w_types w' = w_types w ∧ wrote types n w' (out ++ rs).
Proof.
  intros (segs & Hw & Hn & Hp) Hseg Hrs.
  destruct (write_each_holds types (map (pair seg) rs) (map (pair seg) rs) segs w Hw) as (w' & H1 & H2 & H3).
  { apply written_same, Forall_fmap. eapply Forall_impl; [done|]. intros r Hr. split; [cbn; lia|done]. }
  exists w'. split_and!; [done|done| |].
  - by rewrite (holds_types _ _ _ H3), (holds_types _ _ _ Hw).
  - eexists. split_and!; [done|by rewrite length_puts|]. rewrite puts_permutation, Hp, map_map, map_id; [done|].
    apply Forall_fmap, Forall_true. intros r. cbn. lia.
Qed.

Section loops.
Context {SA : SoftAssign} (hash : flexible_type → Z) (hash64_combine : Z → Z → Z) (fuel : nat).
Context (e : hash_join_executor) (partitioned : bool).
Context (lt rt kts : list flex_type_enum) (lp rp : list nat).

(** The positions of the key, in range, and the types of the key columns of the left frame. *)
Record positions_ok : Prop := PositionsOk {
  pos_left : left_join_positions e = lp;
  pos_right : right_join_positions e = rp;
  pos_map : maps_to (right_to_left_join_positions e) rp lp;
  pos_length : length rp = length lp;
  pos_left_distinct : NoDup lp;
  pos_right_distinct : NoDup rp;
  pos_left_range : Forall (λ p, (p < length lt)%nat) lp;
  pos_right_range : Forall (λ q, (q < length rt)%nat) rp;
  pos_some : lp ≠ [];
  pos_types : Forall2 (λ t p, lt !! p = Some t) kts lp;
  pos_left_columns : num_columns (left_frame e) = length lt;
  pos_right_columns : num_columns (right_frame e) = length rt;
}.

Context (Hpos : positions_ok).

(** Rows of the two frames. *)
Definition left_row (l : row) : Prop := row_of lt l ∧ keyed kts lp l.
Definition right_row (r : row) : Prop := row_of rt r ∧ keyed kts rp r.

Abbreviation nl := (length lt).
Abbreviation nr := (length rt).
Abbreviation os := (others rp nr).

Definition result_types : list flex_type_enum := lt ++ map (λ j, default UNDEFINED (rt !! j)) os.

Lemma length_result_types : length result_types = (nl + length os)%nat.
Proof using Type. unfold result_types. by rewrite length_app, length_map. Qed.

Lemma row_length types r : row_of types r → length r = length types.
Proof using Type. intros H. symmetry. by eapply Forall2_length. Qed.

(** *** The rows that are written have the types of the columns *)

Lemma others_typed r : row_of rt r → Forall2 fits (map (λ j, default UNDEFINED (rt !! j)) os) (cells r os).
Proof using Type.
  intros Hr. apply Forall2_fmap, Forall_Forall2_diag, Forall_forall. intros j [_ Hj]%list_elem_of_filter.
  apply elem_of_seq in Hj. destruct (lookup_lt_is_Some_2 rt j) as [t Ht]; [lia|].
  destruct (Forall2_lookup_l _ _ _ _ _ Hr Ht) as (v & Hv & Hf). rewrite Ht. cbn. by rewrite (cell_lookup r j v).
Qed.

Lemma nulls_typed types n : length types = n → Forall2 fits types (nulls n).
Proof using Type. intros <-. induction types as [|t types IH]; constructor; [by right; right|done]. Qed.

Lemma pad_typed r : right_row r → Forall2 fits lt (pad rp lp nl r).
Proof using Hpos.
  intros [_ [_ Hk]]. apply Forall2_same_length_lookup_2; [unfold pad; by rewrite length_map, length_seq|].
  intros i t v Ht Hv. unfold pad in Hv. rewrite list_lookup_fmap, lookup_seq_lt in Hv by (by eapply lookup_lt_Some).
  injection Hv as <-. cbn. destruct (key_source rp lp i) as [q|] eqn:Hq; [|by right; right].
  apply key_source_Some, list_elem_of_lookup_1 in Hq as [k Hz]. apply lookup_zip_Some in Hz as [Hrk Hlk].
  destruct (Forall2_lookup_r _ _ _ _ _ (pos_types Hpos) Hlk) as (t' & Ht' & Hti). rewrite Ht in Hti. injection Hti as ->.
  destruct (Forall2_lookup_l _ _ _ _ _ Hk Ht') as (v & Hv & Hj). unfold join_key in Hv. rewrite list_lookup_fmap, Hrk in Hv.
  injection Hv as <-. destruct Hj as [_ [Hj|Hj]]; [by right; left|]. rewrite Hj. by right; right.
Qed.

Lemma match_typed l r : left_row l → right_row r → row_of result_types (l ++ cells r os).
Proof using Type. intros [Hl _] [Hr _]. apply Forall2_app; [done|by apply others_typed]. Qed.

Lemma left_alone_typed l : left_row l → row_of result_types (l ++ nulls (length os)).
Proof using Type. intros [Hl _]. apply Forall2_app; [done|]. apply nulls_typed. by rewrite length_map. Qed.

Lemma right_alone_typed r : right_row r → row_of result_types (pad rp lp nl r ++ cells r os).
Proof using Hpos. intros Hr. apply Forall2_app; [by apply pad_typed|]. apply others_typed, Hr. Qed.

(** *** Loading the table *)

Definition reads (num_cols : nat) (p r : row) : Prop := read_row fuel partitioned num_cols p = Ok r.

Lemma load_table_ok ps rs : Forall2 (reads nl) ps rs → Forall left_row rs → ∀ ls ht, Forall left_row ls →
  table_of hash hash64_combine lp ht ls (λ _, false) → ∃ ht',
  load_table hash hash64_combine fuel e partitioned ps ht = Ok ht' ∧ table_of hash hash64_combine lp ht' (ls ++ rs) (λ _, false).
Proof using Hpos.
  induction 1 as [|p r ps rs Hp _ IH]; intros Hrs ls ht Hls Hht; [exists ht; by rewrite app_nil_r|].
  apply Forall_cons in Hrs as [Hr Hrs]. cbn [load_table]. rewrite (pos_left_columns Hpos). unfold reads in Hp. rewrite Hp.
  cbn [mbind outcome_bind]. rewrite (pos_left Hpos).
  destruct (add_row_ok hash hash64_combine kts lp (pos_some Hpos) ht ls r Hht) as (ht1 & -> & H1).
  { eapply Forall_impl; [exact Hls|]. by intros ? [_ ?]. }
  { apply Hr. }
  cbn [mbind outcome_bind fst]. destruct (IH Hrs (ls ++ [r]) ht1) as (ht2 & H2 & H3); [|done|].
  { apply Forall_app. by split; [|constructor]. }
  exists ht2. split; [done|]. by rewrite <- app_assoc in H3.
Qed.

(** *** Probing *)

(** What a right row gives. *)
Definition probe_out (L : list row) (r : row) : list row :=
  match filter (λ l, join_key lp l = join_key rp r) L with
  | [] => if right_join e then [pad rp lp nl r ++ cells r os] else []
  | ls => map (λ l, l ++ cells r os) ls
  end.

Lemma probe_out_typed L r : Forall left_row L → right_row r → Forall (row_of result_types) (probe_out L r).
Proof using Hpos.
  intros HL Hr. unfold probe_out. destruct (filter _ L) as [|l ls] eqn:Hf.
  - destruct (right_join e); [|constructor]. constructor; [by apply right_alone_typed|constructor].
  - rewrite <- Hf. apply Forall_fmap, Forall_forall. intros x [_ Hx]%list_elem_of_filter. rewrite Forall_forall in HL. by apply match_typed; [apply HL|].
Qed.

Lemma merge_probe L r w : Forall left_row L → right_row r → w_types w = result_types →
  let found := filter (λ l, join_key lp l = join_key rp r) L in
  ((0 <? length found)%nat || right_join e = false ∧ probe_out L r = []) ∨
  ((0 <? length found)%nat || right_join e = true ∧ merge e found [r] w = Ok (probe_out L r)).
Proof using Hpos.
  intros HL [Hr Hk] Hw found. apply row_length in Hr. unfold merge, probe_out. fold found.
  rewrite Hw, length_result_types, (pos_right Hpos). destruct found as [|l ls] eqn:Hf; cbn [length Nat.ltb Nat.leb orb].
  - destruct (right_join e); [right|by left]. split; [done|].
    apply (merge_right_only _ lp rp nl nr); by try apply Hpos.
  - right. split; [done|]. apply (merge_match _ lp rp nl nr); try by try apply Hpos.
    rewrite <- Hf. apply Forall_forall. intros x [_ Hx]%list_elem_of_filter. rewrite Forall_forall in HL.
    by apply row_length, HL.
Qed.

(** The keys marked after the rows have been looked up. *)
Definition marks (M : list flexible_type → bool) (R : list row) : list flexible_type → bool :=
  foldl (λ M r, mark M (join_key rp r)) M R.

Lemma marks_spec R : ∀ M k, marks M R k = M k || bool_decide (k ∈ map (join_key rp) R).
Proof using Type.
  induction R as [|r R IH]; intros M k; cbn [marks foldl].
  { rewrite bool_decide_eq_false_2 by apply not_elem_of_nil. by rewrite orb_false_r. }
  fold (marks (mark M (join_key rp r)) R). rewrite IH. unfold mark. rewrite <- orb_assoc. f_equal.
  cbn [map]. rewrite <- bool_decide_or. apply bool_decide_ext. by rewrite elem_of_cons.
Qed.

Lemma probe_rows_ok n seg L ps rs : Forall2 (reads nr) ps rs → Forall left_row L → Forall right_row rs → (seg < n)%nat →
  ∀ ht M w out, table_of hash hash64_combine lp ht L M → wrote result_types n w out → ∃ ht' w',
  probe_rows hash hash64_combine fuel e partitioned seg ps (ht, w) = Ok (ht', w') ∧ w_names w' = w_names w ∧
  table_of hash hash64_combine lp ht' L (marks M rs) ∧ wrote result_types n w' (out ++ concat (map (probe_out L) rs)).
Proof using Hpos.
  intros HF HL Hrs Hseg. induction HF as [|p r ps rs Hp _ IH]; intros ht M w out Hht Hw.
  { exists ht, w. cbn. by rewrite app_nil_r. }
  apply Forall_cons in Hrs as [Hr Hrs]. cbn [probe_rows fst snd]. rewrite (pos_right_columns Hpos). unfold reads in Hp. rewrite Hp.
  cbn [mbind outcome_bind]. rewrite (pos_left Hpos), (pos_right Hpos).
  destruct (get_matching_ok hash hash64_combine kts lp (pos_some Hpos) ht L M r rp Hht) as (found & ht1 & -> & Hfound & H1).
  { apply (pos_length Hpos). }
  { eapply Forall_impl; [exact HL|]. by intros ? [_ ?]. }
  { apply Hr. }
  cbn [mbind outcome_bind fst snd]. rewrite Hfound.
  assert (w_types w = result_types) as Hwt by (destruct Hw as (? & Hw & _); apply Hw).
  assert (∃ w1, (if (0 <? length (filter (λ l, join_key lp l = join_key rp r) L))%nat || right_join e
      then o ← merge e (filter (λ l, join_key lp l = join_key rp r) L) [r] w; write_each (map (pair seg) o) w else Ok w) = Ok w1 ∧
    w_names w1 = w_names w ∧ wrote result_types n w1 (out ++ probe_out L r)) as (w1 & -> & Hn1 & Hw1).
  { destruct (merge_probe L r w HL Hr Hwt) as [[-> ->]|[-> Hmerge]]; [exists w; by rewrite app_nil_r|].
    rewrite Hmerge. cbn [mbind outcome_bind].
    destruct (wrote_each result_types n w seg out (probe_out L r) Hw Hseg (probe_out_typed L r HL Hr)) as (w1 & ? & ? & _ & ?).
    by exists w1. }
  cbn [mbind outcome_bind]. destruct (IH Hrs ht1 _ w1 _ H1 Hw1) as (ht2 & w2 & -> & Hn2 & Ht2 & Hw2).
  exists ht2, w2. split_and!; [done|congruence|done|]. cbn [map concat]. by rewrite app_assoc.
Qed.
Lemma probe_segments_ok n L pss rss : Forall2 (Forall2 (reads nr)) pss rss → Forall left_row L → Forall (Forall right_row) rss →
  ∀ seg ht M w out, (seg + length rss ≤ n)%nat →
  table_of hash hash64_combine lp ht L M → wrote result_types n w out → ∃ ht' w',
  probe_segments hash hash64_combine fuel e partitioned seg pss (ht, w) = Ok (ht', w') ∧ w_names w' = w_names w ∧
  table_of hash hash64_combine lp ht' L (marks M (concat rss)) ∧
  wrote result_types n w' (out ++ concat (map (probe_out L) (concat rss))).
Proof using Hpos.
  intros HF HL Hrs. induction HF as [|ps rs pss rss Hp _ IH]; intros seg ht M w out Hseg Hht Hw.
  { exists ht, w. cbn. by rewrite app_nil_r. }
  apply Forall_cons in Hrs as [Hr Hrs]. cbn [probe_segments]. cbn [length] in Hseg.
  destruct (probe_rows_ok n seg L ps rs Hp HL Hr ltac:(lia) ht M w out Hht Hw) as (ht1 & w1 & -> & Hn1 & H1 & Hw1).
  cbn [mbind outcome_bind]. destruct (IH Hrs (S seg) ht1 _ w1 _ ltac:(lia) H1 Hw1) as (ht2 & w2 & -> & Hn2 & H2 & Hw2).
  exists ht2, w2. split_and!; [done|congruence| |].
  - cbn [concat]. unfold marks in *. by rewrite foldl_app.
  - cbn [concat]. by rewrite map_app, concat_app, app_assoc.
Qed.

(** *** The left rows without a partner *)

Definition unmatched_out (en : hash_join_row) : list row :=
  if matched en then [] else map (λ l, l ++ nulls (length os)) (rows en).

Lemma emit_unmatched_ok n entries : (0 < n)%nat → Forall (λ en, Forall left_row (rows en)) entries →
  ∀ w out, wrote result_types n w out → ∃ w',
  emit_unmatched e entries w = Ok w' ∧ w_names w' = w_names w ∧
  wrote result_types n w' (out ++ concat (map unmatched_out entries)).
Proof using Hpos.
  intros Hn. induction 1 as [|en entries Hen _ IH]; intros w out Hw; [exists w; cbn; by rewrite app_nil_r|].
  cbn [emit_unmatched map concat]. unfold unmatched_out at 1. destruct (matched en); [by apply IH|].
  assert (w_types w = result_types) as Hwt by (destruct Hw as (? & Hw & _); apply Hw).
  unfold merge. rewrite Hwt, length_result_types, (pos_right Hpos).
  rewrite (merge_left_only _ lp rp nl nr); try by try apply Hpos.
  2:{ eapply Forall_impl; [exact Hen|]. intros l [Hl _]. by apply row_length. }
  cbn [mbind outcome_bind].
  destruct (wrote_each result_types n w 0 out (map (λ l, l ++ nulls (length os)) (rows en)) Hw Hn) as (w1 & -> & Hn1 & _ & Hw1).
  { apply Forall_fmap. eapply Forall_impl; [exact Hen|]. intros l Hl. by apply left_alone_typed. }
  cbn [mbind outcome_bind]. destruct (IH w1 _ Hw1) as (w2 & -> & Hn2 & Hw2). exists w2. split_and!; [done|congruence|].
  by rewrite <- app_assoc in Hw2.
Qed.

(** ** One partition *)

Lemma probe_out_join L R : concat (map (probe_out L) R) ≡ₚ
  matches lp rp nr L R ++ (if right_join e then right_alone lp rp nl nr L R else []).
Proof using Type.
  induction R as [|r R IH].
  { unfold matches, right_alone. cbn. by destruct (right_join e). }
  cbn [map concat]. rewrite IH. unfold matches, right_alone, probe_out. cbn [map concat].
  destruct (filter (λ l, join_key lp l = join_key rp r) L) as [|l ls] eqn:Hf.
  - assert (join_key rp r ∉ map (join_key lp) L) as Hni.
    { intros (l & Heq & Hl)%list_elem_of_fmap. by apply (filter_nil_not_elem_of _ _ l Hf). }
    destruct (right_join e); [|done]. rewrite filter_cons, decide_True by done. cbn [map app].
    apply Permutation_middle.
  - assert (join_key rp r ∈ map (join_key lp) L) as Hin.
    { assert (l ∈ filter (λ l, join_key lp l = join_key rp r) L) as [Heq Hl]%list_elem_of_filter by (rewrite Hf; left).
      rewrite <- Heq. by apply list_elem_of_fmap_2. }
    rewrite filter_cons, (decide_False (P := join_key rp r ∉ _)) by (by intros Hn; apply Hn). by rewrite <- app_assoc.
Qed.

Lemma unmatched_join ht L R M : table_of hash hash64_combine lp ht L M → (∀ k, M k = bool_decide (k ∈ map (join_key rp) R)) →
  concat (map unmatched_out (concat (map snd (map_to_list ht)))) ≡ₚ left_alone lp rp nr L R.
Proof using Type.
  intros Hht HM. destruct (table_entries hash hash64_combine lp ht L M Hht) as (KS & -> & Hnd & HKS).
  rewrite map_map. unfold left_alone.
  assert (∀ ks, concat (map (λ k, unmatched_out (entry lp L M k)) ks) =
    map (λ l, l ++ nulls (length os)) (concat (map (λ k, filter (λ l, join_key lp l = k) L)
      (filter (λ k, k ∉ map (join_key rp) R) ks)))) as ->.
  { induction ks as [|k ks IH]; [done|]. cbn [map concat]. rewrite IH, filter_cons. unfold unmatched_out. cbn [entry matched rows].
    rewrite HM. case_bool_decide as Hk.
    - by rewrite decide_False by (intros Hn; by apply Hn).
    - rewrite decide_True by done. cbn [map concat]. by rewrite map_app. }
  apply Permutation_map. rewrite groups_permutation; [done|done|]. intros l Hl. apply HKS. by apply list_elem_of_fmap_2.
Qed.

Lemma join_partition_ok n L lps rss rps w out : Forall2 (reads nl) lps L → Forall2 (Forall2 (reads nr)) rps rss →
  Forall left_row L → Forall (Forall right_row) rss → (length rss ≤ n)%nat → (0 < n)%nat → wrote result_types n w out → ∃ w',
  join_partition hash hash64_combine fuel e partitioned lps rps w = Ok w' ∧ w_names w' = w_names w ∧
  wrote result_types n w' (out ++ relational_join (left_join e) (right_join e) lp rp nl nr L (concat rss)).
Proof using Hpos.
  intros HLp HRp HL HR Hn Hn0 Hw. unfold join_partition.
  destruct (load_table_ok lps L HLp HL [] ∅) as (ht & -> & Hht); [constructor|apply table_empty|]. cbn [app] in Hht.
  cbn [mbind outcome_bind].
  destruct (probe_segments_ok n L rps rss HRp HL HR 0 ht _ w out Hn Hht Hw) as (ht1 & w1 & -> & Hn1 & Hht1 & Hw1).
  cbn [mbind outcome_bind fst snd]. unfold relational_join. rewrite probe_out_join in Hw1.
  destruct (left_join e); [|exists w1; split_and!; [done..|]; by rewrite app_nil_r].
  destruct (emit_unmatched_ok n (concat (map snd (map_to_list ht1))) Hn0) with (w := w1) (out := out ++ matches lp rp nr L (concat rss) ++
    (if right_join e then right_alone lp rp nl nr L (concat rss) else [])) as (w2 & H2 & Hn2 & Hw2); [|done|].
  - destruct (table_entries hash hash64_combine lp ht1 L _ Hht1) as (KS & -> & _). apply Forall_fmap, Forall_forall.
    intros k _. cbn. apply Forall_forall. intros x [_ Hx]%list_elem_of_filter. rewrite Forall_forall in HL. by apply HL.
  - exists w2. split_and!; [done|congruence|]. rewrite (unmatched_join ht1 L (concat rss) _ Hht1) in Hw2 by (intros k; apply marks_spec).
    by rewrite <- !app_assoc in Hw2.
Qed.
End loops.
End JoinLoopSpec.
