(* ===== verification/JoinAlgebraSpec.v ===== *)
(** Laws of the relational join: it does not see the order of the rows, it can be computed by
    partitions of the keys, and the roles of the frames can be exchanged. *)
From S2P Require Import Prelude FlexType FlexOps GroupBySpec SFrame SFrameSpec Join JoinTableSpec JoinMergeSpec JoinLoopSpec.
Import FlexType FlexOps SFrame SFrameSpec Join JoinTableSpec JoinMergeSpec JoinLoopSpec.
Import GroupBySpec(filter_all, filter_empty, elem_of_concat).
Local Open Scope Z_scope.
Local Open Scope sframe_scope.

Module JoinAlgebraSpec.

(** ** Lists up to their order *)

Lemma concat_map_permutation {A B} (f : A → list B) l1 l2 : l1 ≡ₚ l2 → concat (map f l1) ≡ₚ concat (map f l2).
Proof.
  induction 1 as [|x l1 l2 _ IH|x y l|l1 l2 l3 _ IH1 _ IH2]; cbn; [done|by rewrite IH| |by rewrite IH1].
  rewrite !app_assoc. f_equiv. apply Permutation_app_comm.
Qed.

Lemma concat_map_ext {A B} (f g : A → list B) l : (∀ x, x ∈ l → f x ≡ₚ g x) → concat (map f l) ≡ₚ concat (map g l).
Proof.
  induction l as [|x l IH]; intros H; [done|]. cbn. rewrite (H x) by left. rewrite IH; [done|]. intros y ?. apply H. by right.
Qed.

Lemma concat_map_app {A B} (f g : A → list B) l : concat (map (λ x, f x ++ g x) l) ≡ₚ concat (map f l) ++ concat (map g l).
Proof.
  induction l as [|x l IH]; [done|]. cbn. rewrite IH, <- !app_assoc. f_equiv. rewrite !app_assoc. f_equiv. apply Permutation_app_comm.
Qed.

Lemma concat_map_concat {A B} (f : A → list B) ls : concat (map (λ l, concat (map f l)) ls) = concat (map f (concat ls)).
Proof. induction ls as [|l ls IH]; [done|]. cbn. by rewrite IH, map_app, concat_app. Qed.

Lemma concat_map_filter {A B} (f : A → B) (P : A → Prop) `{∀ x, Decision (P x)} ls :
  concat (map (λ l, map f (filter P l)) ls) = map f (filter P (concat ls)).
Proof. induction ls as [|l ls IH]; [done|]. cbn. by rewrite IH, filter_app, map_app. Qed.

Lemma filter_ext_in {A} (P Q : A → Prop) `{∀ x, Decision (P x)} `{∀ x, Decision (Q x)} (l : list A) :
  (∀ x, x ∈ l → P x ↔ Q x) → filter P l = filter Q l.
Proof.
  induction l as [|x l IH]; intros HPQ; [done|]. rewrite !filter_cons. rewrite IH by (intros y ?; apply HPQ; by right).
  assert (P x ↔ Q x) as HI by (apply HPQ; left). destruct (decide (P x)), (decide (Q x)); tauto || done.
Qed.

Lemma map_perm_iff {A B} (f : A → B) l1 l2 y : l1 ≡ₚ l2 → y ∉ map f l1 ↔ y ∉ map f l2.
Proof. intros Hp. by rewrite Hp. Qed.

(** ** The order of the rows *)

Section algebra.
Context (lp rp : list nat) (nl nr : nat).

Lemma matches_permutation L L' R R' : L ≡ₚ L' → R ≡ₚ R' → matches lp rp nr L R ≡ₚ matches lp rp nr L' R'.
Proof.
  intros HL HR. unfold matches. rewrite (concat_map_permutation _ _ _ HR). apply concat_map_ext. intros r _.
  apply Permutation_map. by rewrite HL.
Qed.

Lemma right_alone_permutation L L' R R' : L ≡ₚ L' → R ≡ₚ R' → right_alone lp rp nl nr L R ≡ₚ right_alone lp rp nl nr L' R'.
Proof.
  intros HL HR. unfold right_alone. apply Permutation_map. rewrite HR. erewrite filter_ext_in; [done|].
  intros r _. by apply map_perm_iff.
Qed.

Lemma left_alone_permutation L L' R R' : L ≡ₚ L' → R ≡ₚ R' → left_alone lp rp nr L R ≡ₚ left_alone lp rp nr L' R'.
Proof.
  intros HL HR. unfold left_alone. apply Permutation_map. rewrite HL. erewrite filter_ext_in; [done|].
  intros r _. by apply map_perm_iff.
Qed.

Lemma relational_join_permutation lj rj L L' R R' : L ≡ₚ L' → R ≡ₚ R' →
  relational_join lj rj lp rp nl nr L R ≡ₚ relational_join lj rj lp rp nl nr L' R'.
Proof.
  intros HL HR. unfold relational_join. f_equiv; [by apply matches_permutation|].
  f_equiv; [destruct rj; [by apply right_alone_permutation|done]|destruct lj; [by apply left_alone_permutation|done]].
Qed.

(** ** Partitions *)

Section partitions.
Context (part : list flexible_type → nat) (n : nat) (L R : list row).
Context (HL : ∀ l, l ∈ L → (part (join_key lp l) < n)%nat) (HR : ∀ r, r ∈ R → (part (join_key rp r) < n)%nat).

Definition left_part (i : nat) : list row := filter (λ l, part (join_key lp l) = i) L.
Definition right_part (i : nat) : list row := filter (λ r, part (join_key rp r) = i) R.

Lemma left_parts : concat (map left_part (seq 0 n)) ≡ₚ L.
Proof using HL.
  apply (groups_all (λ l, part (join_key lp l))); [apply NoDup_seq|]. intros l Hl. apply elem_of_seq. specialize (HL l Hl). lia.
Qed.

Lemma right_parts : concat (map right_part (seq 0 n)) ≡ₚ R.
Proof using HR.
  apply (groups_all (λ r, part (join_key rp r))); [apply NoDup_seq|]. intros r Hr. apply elem_of_seq. specialize (HR r Hr). lia.
Qed.

(** A row has its partners in its part. *)
Lemma right_partner i r : r ∈ right_part i → join_key rp r ∉ map (join_key lp) (left_part i) ↔ join_key rp r ∉ map (join_key lp) L.
Proof using Type.
  intros [Hr _]%list_elem_of_filter. unfold left_part. split; intros Hn Hin; apply Hn.
  - apply list_elem_of_fmap in Hin as (l & Heq & Hl). rewrite Heq. apply list_elem_of_fmap_2, list_elem_of_filter.
    by rewrite <- Heq.
  - apply list_elem_of_fmap in Hin as (l & Heq & [_ Hl]%list_elem_of_filter). rewrite Heq. by apply list_elem_of_fmap_2.
Qed.

Lemma left_partner i l : l ∈ left_part i → join_key lp l ∉ map (join_key rp) (right_part i) ↔ join_key lp l ∉ map (join_key rp) R.
Proof using Type.
  intros [Hl _]%list_elem_of_filter. unfold right_part. split; intros Hn Hin; apply Hn.
  - apply list_elem_of_fmap in Hin as (r & Heq & Hr). rewrite Heq. apply list_elem_of_fmap_2, list_elem_of_filter.
    by rewrite <- Heq.
  - apply list_elem_of_fmap in Hin as (r & Heq & [_ Hr]%list_elem_of_filter). rewrite Heq. by apply list_elem_of_fmap_2.
Qed.

Lemma matches_part i : matches lp rp nr (left_part i) (right_part i) = matches lp rp nr L (right_part i).
Proof using Type.
  unfold matches. f_equal. apply map_ext_in. intros r Hr%list_elem_of_In. f_equal. unfold left_part.
  rewrite list_filter_filter. apply filter_ext_in. intros l _. apply list_elem_of_filter in Hr as [Hr _].
  split; [tauto|]. intros Heq. by rewrite Heq.
Qed.

Lemma matches_parts : concat (map (λ i, matches lp rp nr (left_part i) (right_part i)) (seq 0 n)) ≡ₚ matches lp rp nr L R.
Proof using HR.
  rewrite (map_ext _ _ matches_part).
  assert (concat (map (λ i, matches lp rp nr L (right_part i)) (seq 0 n)) = matches lp rp nr L (concat (map right_part (seq 0 n)))) as ->.
  { unfold matches. by rewrite <- concat_map_concat, map_map. }
  apply matches_permutation; [done|apply right_parts].
Qed.

Lemma right_alone_parts : concat (map (λ i, right_alone lp rp nl nr (left_part i) (right_part i)) (seq 0 n)) ≡ₚ right_alone lp rp nl nr L R.
Proof using HR.
  assert (∀ i, right_alone lp rp nl nr (left_part i) (right_part i) = right_alone lp rp nl nr L (right_part i)) as Hi.
  { intros i. unfold right_alone. f_equal. apply filter_ext_in. intros r. apply right_partner. }
  rewrite (map_ext _ _ Hi).
  assert (concat (map (λ i, right_alone lp rp nl nr L (right_part i)) (seq 0 n)) = right_alone lp rp nl nr L (concat (map right_part (seq 0 n)))) as ->.
  { unfold right_alone. by rewrite <- concat_map_filter, map_map. }
  apply right_alone_permutation; [done|apply right_parts].
Qed.

Lemma left_alone_parts : concat (map (λ i, left_alone lp rp nr (left_part i) (right_part i)) (seq 0 n)) ≡ₚ left_alone lp rp nr L R.
Proof using HL.
  assert (∀ i, left_alone lp rp nr (left_part i) (right_part i) = left_alone lp rp nr (left_part i) R) as Hi.
  { intros i. unfold left_alone. f_equal. apply filter_ext_in. intros r. apply left_partner. }
  rewrite (map_ext _ _ Hi).
  assert (concat (map (λ i, left_alone lp rp nr (left_part i) R) (seq 0 n)) = left_alone lp rp nr (concat (map left_part (seq 0 n))) R) as ->.
  { unfold left_alone. by rewrite <- concat_map_filter, map_map. }
  apply left_alone_permutation; [apply left_parts|done].
Qed.

Lemma concat_nil {A B} (l : list A) : concat (map (λ _, @nil B) l) = [].
Proof using Type. by induction l. Qed.

(** The join of the parts is the join. *)
Lemma relational_join_parts lj rj :
  concat (map (λ i, relational_join lj rj lp rp nl nr (left_part i) (right_part i)) (seq 0 n)) ≡ₚ
  relational_join lj rj lp rp nl nr L R.
Proof using HL HR.
  unfold relational_join. rewrite !concat_map_app, matches_parts. f_equiv. f_equiv.
  - destruct rj; [apply right_alone_parts|by rewrite concat_nil].
  - destruct lj; [apply left_alone_parts|by rewrite concat_nil].
Qed.
End partitions.
End algebra.

(** ** Exchanging the frames *)

(** The columns of a join of [b] and [a], put in the order of a join of [a] and [b]: the key
    columns from the left, the others by their place among the columns of the right. *)
Fixpoint fill {A} (places : list (option A)) (cs : list A) : list (option A) :=
  match places, cs with
  | Some x :: places, _ => Some x :: fill places cs
  | None :: places, c :: cs => Some c :: fill places cs
  | None :: places, [] => None :: fill places []
  | [], _ => []
  end.

Lemma fill_filter {A B} (g : B → option A) (h : B → A) js rest cs :
  fill (map g js ++ rest) (map h (filter (λ p, g p = None) js) ++ cs) = map (λ p, Some (default (h p) (g p))) js ++ fill rest cs.
Proof.
  induction js as [|j js IH]; [done|]. cbn [map app]. rewrite filter_cons. destruct (g j) as [x|] eqn:Hj.
  - rewrite decide_False by done. cbn. by rewrite IH.
  - rewrite decide_True by done. cbn. by rewrite IH.
Qed.

Lemma fill_nones {A} (cs : list A) : fill (replicate (length cs) None) cs = map Some cs.
Proof. induction cs as [|c cs IH]; [done|]. cbn. by rewrite IH. Qed.

Lemma fill_map {A B} (f : A → B) places : ∀ cs, fill (map (fmap f) places) (map f cs) = map (fmap f) (fill places cs).
Proof.
  induction places as [|[x|] places IH]; intros cs; [done|cbn; by rewrite IH|].
  destruct cs as [|c cs]; cbn; [by rewrite <- (IH [])|by rewrite IH].
Qed.

Lemma map_replicate_l {A B} (f : A → B) x n : map f (replicate n x) = replicate n (f x).
Proof. induction n as [|n IH]; [done|]. cbn. by rewrite IH. Qed.

Lemma map_all_some {A B} (f : A → B) d places : ∀ l, map (fmap f) places = map Some l → map (λ o, f (default d o)) places = l.
Proof.
  induction places as [|[x|] places IH]; intros [|y l]; try done. cbn. intros [= -> H]. f_equal. by apply IH.
Qed.

Section exchange.
Context (lp rp : list nat) (nl nr : nat).
Context (Hlen : length rp = length lp) (Hlp : NoDup lp) (Hrp : NoDup rp).
Context (Hl : Forall (λ p, (p < nl)%nat) lp) (Hr : Forall (λ q, (q < nr)%nat) rp).

Abbreviation os := (others rp nr).
Abbreviation ol := (others lp nl).

(** The places of the columns of the result: those of the right frame, then those of the left
    that are not of the key. *)
Definition places : list (option nat) := map (key_source lp rp) (seq 0 nr) ++ replicate (length ol) None.
Definition order : list nat :=
  map (default 0%nat) (fill places (seq nl (length os) ++ ol)).
Definition reorder (x : row) : row := cells x order.

Lemma source_none q : key_source lp rp q = None ↔ q ∉ rp.
Proof using Hlen. by apply key_source_None. Qed.

Lemma filter_source n : filter (λ p, key_source lp rp p = None) (seq 0 n) = others rp n.
Proof using Hlen. apply filter_ext_in. intros q _. apply source_none. Qed.

(** Anything that is given for the columns, in the exchanged order: [b] is that of the other
    columns of the right frame. *)
Lemma filled {B} (val b : nat → B) : (∀ k p, os !! k = Some p → val (nl + k)%nat = b p) →
  map (fmap val) (fill places (seq nl (length os) ++ ol)) =
  map Some (map (λ p, match key_source lp rp p with Some i => val i | None => b p end) (seq 0 nr) ++ map val ol).
Proof using Hlen.
  intros Hb. rewrite <- fill_map. unfold places. rewrite !map_app, map_map, map_replicate_l.
  assert (map val (seq nl (length os)) = map b (filter (λ p, (val <$> key_source lp rp p) = None) (seq 0 nr))) as ->.
  { assert (filter (λ p, (val <$> key_source lp rp p) = None) (seq 0 nr) = os) as ->.
    { rewrite <- filter_source. apply filter_ext_in. intros p _. by destruct (key_source lp rp p). }
    apply list_eq. intros k. rewrite !list_lookup_fmap. destruct (os !! k) as [p|] eqn:Hk.
    - rewrite lookup_seq_lt by (by eapply lookup_lt_Some). cbn. f_equal. by apply Hb.
    - apply lookup_ge_None in Hk. by rewrite lookup_seq_ge. }
  change (val <$> @None nat) with (@None B). rewrite fill_filter, <- (length_map val ol), fill_nones, !map_map. f_equal.
  apply map_ext. intros p. by destruct (key_source lp rp p).
Qed.

Lemma fill_places : fill places (seq nl (length os) ++ ol) = map Some order.
Proof using Hlen.
  pose proof (filled (λ _, tt) (λ _, tt) (λ _ _ _, eq_refl)) as H. unfold order. revert H.
  generalize (fill places (seq nl (length os) ++ ol)).
  generalize (map (λ p, match key_source lp rp p with Some _ => tt | None => tt end) (seq 0 nr) ++ map (λ _, tt) ol).
  intros l f. revert l. induction f as [|[x|] f IH]; intros [|y l]; try done. cbn. intros [= _ H]. f_equal. by apply (IH l).
Qed.

Lemma map_order {B} (val b : nat → B) : (∀ k p, os !! k = Some p → val (nl + k)%nat = b p) →
  map val order = map (λ p, match key_source lp rp p with Some i => val i | None => b p end) (seq 0 nr) ++ map val ol.
Proof using Hlen. intros Hb. unfold order. rewrite map_map. by apply map_all_some, filled. Qed.

(** A row in two parts: the left columns, and the others of the right. *)
Lemma reorder_parts (a c : row) (b : nat → flexible_type) : length a = nl → c = map b os →
  reorder (a ++ c) = map (λ p, match key_source lp rp p with Some i => cell a i | None => b p end) (seq 0 nr) ++ cells a ol.
Proof using All.
  intros Ha Hc. assert (∀ i, (i < nl)%nat → cell (a ++ c) i = cell a i) as Hca.
  { intros i Hi. unfold cell. by rewrite lookup_app_l by lia. }
  unfold reorder. rewrite (map_order _ b).
  - f_equal; apply map_ext_in.
    + intros p _. destruct (key_source lp rp p) as [i|] eqn:Hp; [|done]. apply Hca.
      apply key_source_Some, elem_of_zip_l in Hp. rewrite Forall_forall in Hl. by apply Hl.
    + intros i [_ Hi]%list_elem_of_In%list_elem_of_filter. apply elem_of_seq in Hi. apply Hca. lia.
  - intros k p Hk. unfold cell. rewrite lookup_app_r by lia. rewrite Ha, Hc, list_lookup_fmap.
    replace (nl + k - nl)%nat with k by lia. by rewrite Hk.
Qed.

(** The rows of the join, in the exchanged order. *)
Lemma reorder_match l r : length l = nl → length r = nr → join_key lp l = join_key rp r →
  reorder (l ++ cells r os) = r ++ cells l ol.
Proof using All.
  intros Hll Hlr Hk. rewrite (reorder_parts l _ (cell r)) by done. f_equal. transitivity (cells r (seq 0 nr)); [|by apply row_of_cells].
  apply map_ext_in. intros p _. destruct (key_source lp rp p) as [i|] eqn:Hp; [|done].
  apply key_source_Some, list_elem_of_lookup_1 in Hp as [k Hz]. apply lookup_zip_Some in Hz as [Hi Hq].
  apply (f_equal (.!! k)) in Hk. unfold join_key in Hk. rewrite !list_lookup_fmap, Hi, Hq in Hk. by injection Hk.
Qed.

Lemma reorder_left l : length l = nl → reorder (l ++ nulls (length os)) = pad lp rp nr l ++ cells l ol.
Proof using All.
  intros Hll. rewrite (reorder_parts l _ (λ _, FUndefined)); [done|done|].
  unfold nulls. induction os as [|o os' IH]; [done|]. cbn. by rewrite <- IH.
Qed.

Lemma cell_pad r i : (i < nl)%nat → cell (pad rp lp nl r) i = match key_source rp lp i with Some q => cell r q | None => FUndefined end.
Proof using Type. intros Hi. unfold pad, cell at 1. by rewrite list_lookup_fmap, lookup_seq_lt. Qed.

Lemma reorder_right r : length r = nr → reorder (pad rp lp nl r ++ cells r os) = r ++ nulls (length ol).
Proof using All.
  intros Hlr. rewrite (reorder_parts _ _ (cell r)); [|unfold pad; by rewrite length_map, length_seq|done]. f_equal.
  - transitivity (cells r (seq 0 nr)); [|by apply row_of_cells]. apply map_ext_in. intros p _. destruct (key_source lp rp p) as [i|] eqn:Hp; [|done].
    apply key_source_Some in Hp. assert ((p, i) ∈ zip rp lp) as Hz.
    { apply list_elem_of_lookup_1 in Hp as [k Hz]. apply (list_elem_of_lookup_2 _ k).
      apply lookup_zip_Some in Hz as [? ?]. by apply lookup_zip_Some. }
    rewrite cell_pad by (apply elem_of_zip_l in Hp; rewrite Forall_forall in Hl; by apply Hl).
    by rewrite (key_source_zip rp lp i p).
  - unfold nulls. 
    apply list_eq. intros k. rewrite !list_lookup_fmap. destruct (ol !! k) as [i|] eqn:Hk.
    + rewrite lookup_replicate_2 by (by eapply lookup_lt_Some). cbn. pose proof Hk as Hin%list_elem_of_lookup_2.
      apply list_elem_of_filter in Hin as [Hni Hin]. apply elem_of_seq in Hin. rewrite cell_pad by lia.
      by rewrite (proj2 (key_source_None rp lp i Hlen)).
    + apply lookup_ge_None in Hk. rewrite lookup_ge_None_2; [done|]. by rewrite length_replicate.
Qed.

(** The matches can be found from either frame. *)
Lemma matches_exchange L R : Forall (λ l, length l = nl) L → Forall (λ r, length r = nr) R →
  map reorder (matches lp rp nr L R) ≡ₚ matches rp lp nl R L.
Proof using All.
  intros HL HR. unfold matches.
  assert (∀ r, r ∈ R → map reorder (map (λ l, l ++ cells r os) (filter (λ l, join_key lp l = join_key rp r) L)) =
    map (λ l, r ++ cells l ol) (filter (λ l, join_key lp l = join_key rp r) L)) as Hrow.
  { intros r Hrin. rewrite map_map. apply map_ext_in. intros l [Hk Hin]%list_elem_of_In%list_elem_of_filter.
    rewrite Forall_forall in HL, HR. apply reorder_match; auto. }
  rewrite concat_map, map_map. rewrite (map_ext_in _ _ R (λ r Hrin, Hrow r (proj2 (list_elem_of_In _ _) Hrin))).
  clear HL HR Hrow. revert R. induction L as [|l L IH]; intros R; cbn [map concat].
  { induction R as [|r R IHR]; [done|]. cbn. apply IHR. }
  rewrite <- IH. clear IH. induction R as [|r R IH]; [done|]. cbn [map concat]. rewrite IH, !filter_cons.
  destruct (decide (join_key lp l = join_key rp r)) as [Heq|Hne].
  - rewrite decide_True by done. cbn [map app]. f_equiv. rewrite !app_assoc. f_equiv. apply Permutation_app_comm.
  - rewrite decide_False by done. rewrite !app_assoc. f_equiv. apply Permutation_app_comm.
Qed.

(** A join of the frames is, but for the order of its columns, a join of the exchanged frames. *)
Lemma relational_join_exchange lj rj L R : Forall (λ l, length l = nl) L → Forall (λ r, length r = nr) R →
  map reorder (relational_join lj rj lp rp nl nr L R) ≡ₚ relational_join rj lj rp lp nr nl R L.
Proof using All.
  intros HL HR. unfold relational_join. rewrite !map_app, matches_exchange by done. f_equiv.
  rewrite (Permutation_app_comm (map reorder _)). f_equiv.
  - destruct lj; [|done]. unfold left_alone, right_alone. rewrite map_map. erewrite map_ext_in; [done|].
    intros l [_ Hin]%list_elem_of_In%list_elem_of_filter. cbn. rewrite Forall_forall in HL. by apply reorder_left, HL.
  - destruct rj; [|done]. unfold left_alone, right_alone. rewrite map_map. erewrite map_ext_in; [done|].
    intros r [_ Hin]%list_elem_of_In%list_elem_of_filter. cbn. rewrite Forall_forall in HR. by apply reorder_right, HR.
Qed.
End exchange.
End JoinAlgebraSpec.
