(* ===== verification/JoinGraceSpec.v ===== *)
(** The partitions of a join: a row is packed into the partition of its key and read back, and
    the pieces of a partition are the whole of it.

    The partitions of a join, one after the other: they write the relational join of the frames. *)
From S2P Require Import Prelude FlexType FlexOps QueryPlan SFrame GroupBy GroupBySpec SFrameSpec Join.
From S2P Require Import JoinTableSpec JoinMergeSpec JoinLoopSpec JoinAlgebraSpec.
Import FlexType FlexOps SFrame SFrameSpec Join JoinTableSpec JoinLoopSpec.
Import QueryPlan(SoftAssign, soft_assign).
Import GroupBy(hash_key).
Import GroupBySpec(filter_all).
Local Open Scope Z_scope.
Local Open Scope sframe_scope.

Module JoinPartitionSpec.

(** ** Pieces *)

Lemma split_segment_even n : ∀ per left, (n * per ≤ left)%nat → split_segment n per left = (replicate n per, (left - n * per)%nat).
Proof.
  induction n as [|n IH]; intros per lft Hle; cbn [split_segment replicate]; [by rewrite Nat.sub_0_r|].
  rewrite (proj2 (Nat.leb_le _ _)) by lia. rewrite IH by lia. f_equal. lia.
Qed.

Lemma sum_list_replicate n x : sum_list (replicate n x) = (n * x)%nat.
Proof. induction n as [|n IH]; [done|]. cbn. by rewrite IH. Qed.

(** The pieces of a segment, one for each segment of the result, have its length. *)
Lemma logical_segment_sizes_ok n elements : (0 < n)%nat → ∃ sizes,
  logical_segment_sizes n elements = Ok sizes ∧ length sizes = n ∧ sum_list sizes = elements.
Proof.
  intros Hn. unfold logical_segment_sizes. rewrite (proj2 (Nat.eqb_neq n 0)) by lia.
  pose proof (Nat.Div0.mul_div_le elements n) as Hle. rewrite split_segment_even by done.
  destruct n as [|n]; [lia|]. cbn [replicate]. eexists. split_and!; [done|cbn; by rewrite length_replicate|].
  cbn [sum_list]. rewrite sum_list_replicate. cbn in *. lia.
Qed.

Lemma length_cut {A} lengths : ∀ l : list A, length (cut lengths l) = length lengths.
Proof. induction lengths as [|n lengths IH]; intros l; [done|]. cbn. by rewrite IH. Qed.

Lemma concat_cut {A} lengths : ∀ l : list A, concat (cut lengths l) = take (sum_list lengths) l.
Proof.
  induction lengths as [|n lengths IH]; intros l; [done|]. cbn. rewrite IH. by rewrite take_take_drop.
Qed.

Lemma cut_app {A} l1 l2 : ∀ l : list A, cut (l1 ++ l2) l = cut l1 l ++ cut l2 (drop (sum_list l1) l).
Proof.
  induction l1 as [|n l1 IH]; intros l; [done|]. cbn. by rewrite IH, drop_drop.
Qed.

(** Pieces of lists are those lists. *)
Lemma cut_concat {A} (ls : list (list A)) : cut (map length ls) (concat ls) = ls.
Proof. induction ls as [|l ls IH]; [done|]. cbn. by rewrite take_app_length, drop_app_length, IH. Qed.

(** ** Packing *)

Section packing.
Context (fuel : nat).

Definition packable (r : row) : Prop := Forall (λ v, valid v = true ∧ (depth v ≤ fuel)%nat) r.

Lemma pack_row_ok r : packable r → ∃ s, pack_row r = Ok s ∧ unpack_row fuel s (length r) = Ok r.
Proof.
  intros Hr. assert (encodes (wconcat save r) (read_many (length r) (load fuel)) r) as (bs & Hs & Hd).
  { apply encodes_many. eapply Forall_impl; [exact Hr|]. intros v [Hv Hd]. by apply load_save. }
  exists bs. unfold pack_row, unpack_row. rewrite Hs. split; [done|]. specialize (Hd []). rewrite app_nil_r in Hd. by rewrite Hd.
Qed.
End packing.

(** ** A partitioned frame *)

Section partition.
Context {SA : SoftAssign} (hash : flexible_type → Z) (hash64_combine : Z → Z → Z).
Context (schedule : list row → list row) (fuel : nat).

(** The partition of a key. *)
Definition part (n : nat) (k : list flexible_type) : nat := Z.to_nat (hash_key hash hash64_combine k mod Z.of_nat n).

Lemma part_range n k : (0 < n)%nat → (part n k < n)%nat.
Proof. intros Hn. unfold part. pose proof (Z.mod_pos_bound (hash_key hash hash64_combine k) (Z.of_nat n)). lia. Qed.

Lemma which_partition_ok n positions r : in_range positions r →
  which_partition hash hash64_combine n positions r = Ok (part n (join_key positions r)).
Proof. intros Hr. unfold which_partition. by rewrite hash_row_ok. Qed.

(** What is written of each row. *)
Definition packed (n : nat) (positions : list nat) (r : row) (ws : nat * row) : Prop :=
  ws.1 = part n (join_key positions r) ∧ read_row fuel true (length r) ws.2 = Ok r ∧ ∃ s, ws.2 = [FString s].

Lemma packed_rows n positions rs : Forall (in_range positions) rs → Forall (packable fuel) rs → ∃ ws,
  outcome_map (λ r, i ← which_partition hash hash64_combine n positions r; s ← pack_row r; Ok (i, [FString s])) rs = Ok ws ∧
  Forall2 (packed n positions) rs ws.
Proof.
  intros Hin Hp. induction rs as [|r rs IH]; [by exists []|].
  apply Forall_cons in Hin as [Hr Hin]. apply Forall_cons in Hp as [Hpr Hp]. destruct (IH Hin Hp) as (ws & Hws & HF).
  destruct (pack_row_ok fuel r Hpr) as (s & Hs & Hu). cbn [outcome_map]. rewrite which_partition_ok by done.
  cbn [mbind outcome_bind]. rewrite Hs. cbn [mbind outcome_bind]. rewrite Hws. cbn [mbind outcome_bind].
  eexists. split; [done|]. constructor; [|done]. split_and!; [done|done|by exists s].
Qed.

Lemma write_each_move_same ws w : Forall (λ sr, length sr.2 = length (w_types w)) ws → write_each_move ws w = write_each ws w.
Proof.
  revert w. induction ws as [|[s r] ws IH]; intros w HF; [done|]. apply Forall_cons in HF as [Hr HF]. cbn in Hr.
  change (write_each_move ((s, r) :: ws) w) with (w ← write_row_move s r w; write_each_move ws w).
  rewrite write_each_cons. unfold write_row_move. rewrite Hr, Nat.eqb_refl.
  destruct (write_row s r w) as [w1| |] eqn:Hw; [|done..]. cbn [mbind outcome_bind]. apply IH.
  assert (w_types w1 = w_types w) as ->; [|done].
  unfold write_row in Hw. destruct (check_row (w_types w) r); [|done..]. cbn in Hw. unfold write_values in Hw.
  destruct (write_segment _ _ _); [|done..]. by injection Hw as <-.
Qed.

(** The rows of a partition, and what is stored of them. *)
Lemma rows_for_packed n positions rs ws i : Forall2 (packed n positions) rs ws →
  Forall2 (λ p r, read_row fuel true (length r) p = Ok r) (rows_for ws i) (filter (λ r, part n (join_key positions r) = i) rs).
Proof.
  induction 1 as [|r [j p] rs ws (Hj & Hr & _) _ IH]; [constructor|]. cbn in Hj, Hr. unfold rows_for in *.
  rewrite !filter_cons. cbn [fst]. rewrite <- Hj. destruct (decide (j = i)); [|done]. cbn [map snd]. by constructor.
Qed.

(** A partitioned frame has a segment for each partition, with its packed rows. *)
Lemma grace_partition_ok sf positions n rs : frame_ok sf → read_all sf = Ok rs → (1 < n)%nat → schedule rs ≡ₚ rs →
  Forall (in_range positions) rs → Forall (packable fuel) rs → ∃ pf segs,
  grace_partition_frame hash hash64_combine schedule sf positions n = Ok pf ∧ inited pf = true ∧
  num_rows pf = length rs ∧ num_segments pf = n ∧ segment_lengths pf = map length segs ∧
  get_reader_stored pf = Ok segs ∧ read_all pf = Ok (concat segs) ∧ length segs = n ∧
  ∀ i seg, segs !! i = Some seg →
    Forall2 (λ p r, read_row fuel true (length r) p = Ok r) seg (filter (λ r, part n (join_key positions r) = i) (schedule rs)).
Proof.
  intros Hok Hrs Hn Hp Hin Hpack. unfold grace_partition_frame. rewrite (proj2 (Nat.eqb_neq n 1)) by lia.
  rewrite (proj2 (Nat.ltb_ge n 1)) by lia.
  destruct (open_names_ok [data_name] [STRING] n true) as (w & Hw & _); [by split; [apply NoDup_singleton|rewrite list_elem_of_singleton]|done|].
  pose proof (open_for_write_holds _ _ _ _ _ Hw) as Hh. rewrite Hw. cbn [mbind outcome_bind]. rewrite (fok_inited sf Hok), Hrs.
  cbn [mbind outcome_bind].
  destruct (packed_rows n positions (schedule rs)) as (ws & -> & HF); [by rewrite Hp..|]. cbn [mbind outcome_bind].
  assert (Forall (λ sr, (sr.1 < n)%nat ∧ row_of [STRING] sr.2) ws) as Hws.
  { apply Forall_forall. intros [j p] Hjp. apply list_elem_of_lookup_1 in Hjp as [k Hk].
    destruct (Forall2_lookup_r _ _ _ _ _ HF Hk) as (r & _ & Hj & _ & s & Hs). cbn in Hj, Hs. subst p. cbn. rewrite Hj.
    split; [apply part_range; lia|]. constructor; [right; by left|constructor]. }
  rewrite write_each_move_same.
  2:{ rewrite (holds_types _ _ _ Hh). eapply Forall_impl; [exact Hws|]. intros sr [_ Hr]. symmetry. exact (Forall2_length _ _ _ Hr). }
  destruct (write_each_holds [STRING] ws ws (replicate n []) w Hh) as (w' & -> & _ & Hh').
  { apply written_same. by rewrite length_replicate. }
  rewrite puts_fresh in Hh'. set (segs := map (rows_for ws) (seq 0 n)) in *. cbn [mbind outcome_bind].
  assert (length segs = n) as Hls by (unfold segs; by rewrite length_map, length_seq).
  assert (length (concat segs) = length rs) as Hlen.
  { assert (concat segs ≡ₚ map snd ws) as ->.
    { unfold segs. rewrite <- puts_fresh, puts_permutation.
      - assert (concat (replicate n (@nil row)) = []) as ->; [|done]. clear. by induction n.
      - rewrite length_replicate. eapply Forall_impl; [exact Hws|]. by intros ? [? _]. }
    rewrite length_map, <- (Forall2_length _ _ _ HF). by apply Permutation_length. }
  destruct (columns (close w')) as [|c cs] eqn:Hc.
  { pose proof (close_num_columns _ _ _ Hh') as Hnc. unfold num_columns in Hnc. by rewrite Hc in Hnc. }
  destruct (close_column_data [STRING] segs w' 0 c Hh') as (t & _ & _ & Hsegs & _); [by rewrite Hc|].
  assert (map length (sa_segments c) = map length segs) as Hsl.
  { rewrite Hsegs. unfold column_of. rewrite map_map. apply map_ext. intros seg. apply length_map. }
  exists (close w'), segs. split_and!; [done|done| | | | |by eapply close_rows|done|].
  - change (num_rows (close w')) with (nrows (close w')). by rewrite (close_nrows _ _ _ Hh').
  - unfold num_segments. rewrite Hc, Hsegs. unfold column_of. by rewrite length_map.
  - unfold segment_lengths. by rewrite Hc.
  - unfold get_reader_stored. change (inited (close w')) with true. cbv iota. rewrite Hc, (close_rows _ _ _ Hh'), Hsl. cbn.
    by rewrite cut_concat.
  - intros i seg Hi. unfold segs in Hi. rewrite list_lookup_fmap in Hi. apply fmap_Some in Hi as (k & Hk & ->).
    apply lookup_seq in Hk as [-> _]. by apply rows_for_packed.
Qed.
End partition.
End JoinPartitionSpec.

Import FlexType FlexOps SFrame SFrameSpec Join JoinTableSpec JoinMergeSpec JoinLoopSpec JoinAlgebraSpec JoinPartitionSpec.
Import QueryPlan(SoftAssign, soft_assign).
Import GroupBySpec(bind_Ok, filter_all).

Module JoinGraceSpec.

Lemma Forall2_cut {A B} (P : A → B → Prop) sizes : ∀ l1 l2, Forall2 P l1 l2 → Forall2 (Forall2 P) (cut sizes l1) (cut sizes l2).
Proof.
  induction sizes as [|n sizes IH]; intros l1 l2 H; constructor; [by apply Forall2_take|by apply IH, Forall2_drop].
Qed.

Lemma Forall_cut {A} (P : A → Prop) sizes : ∀ l, Forall P l → Forall (Forall P) (cut sizes l).
Proof.
  induction sizes as [|n sizes IH]; intros l H; constructor; [by apply Forall_take|by apply IH, Forall_drop].
Qed.

Lemma Forall2_right {A B} (P Q : A → B → Prop) (R : B → Prop) l k :
  Forall2 P l k → Forall R k → (∀ x y, P x y → R y → Q x y) → Forall2 Q l k.
Proof. intros HP HR H. induction HP; [done|]. apply Forall_cons in HR as [? ?]. constructor; auto. Qed.

Lemma read_all_length sf rs : read_all sf = Ok rs → num_rows sf = length rs.
Proof.
  unfold read_all. destruct (mapM _ _) eqn:HM; [|done]. intros [= <-]. apply length_mapM in HM. by rewrite length_seq in HM.
Qed.

(** The sizes that the segments of the result get of some lists. *)
Definition sizes_of {A} (n : nat) (sizes : list nat) (l : list A) : Prop := length sizes = n ∧ sum_list sizes = length l.

Lemma logical_sizes {A} n (Rs : list (list A)) : (0 < n)%nat → ∃ sizess,
  outcome_map (logical_segment_sizes n) (map length Rs) = Ok sizess ∧ Forall2 (sizes_of n) sizess Rs.
Proof.
  intros Hn. induction Rs as [|R Rs (sizess & IH & HF)]; [by exists []|].
  destruct (logical_segment_sizes_ok n (length R) Hn) as (sizes & Hs & Hl & Hsum).
  cbn [map outcome_map]. rewrite Hs. cbn [mbind outcome_bind]. rewrite IH. cbn [mbind outcome_bind].
  eexists. split; [done|]. by constructor.
Qed.

Lemma sum_list_app l1 l2 : sum_list (l1 ++ l2) = (sum_list l1 + sum_list l2)%nat.
Proof. induction l1 as [|n l1 IH]; [done|]. cbn. rewrite IH. lia. Qed.

Lemma sizes_total {A} n sizess (Rs : list (list A)) : Forall2 (sizes_of n) sizess Rs → sum_list (concat sizess) = length (concat Rs).
Proof.
  induction 1 as [|sizes R sizess Rs [_ Hs] _ IH]; [done|]. cbn. by rewrite sum_list_app, IH, length_app, Hs.
Qed.

Section grace.
Context {SA : SoftAssign} (hash : flexible_type → Z) (hash64_combine : Z → Z → Z).
Context (schedule : list row → list row) (fuel : nat).
Context (e : hash_join_executor).
Context (lt rt kts : list flex_type_enum) (lp rp : list nat).
Context (Hpos : positions_ok e lt rt kts lp rp).
Context (Hsched : ∀ l, schedule l ≡ₚ l).

Abbreviation nl := (length lt).
Abbreviation nr := (length rt).
Abbreviation joined := (relational_join (left_join e) (right_join e) lp rp nl nr).

Lemma join_partitions_ok partitioned n Ls LA : Forall2 (Forall2 (reads fuel partitioned nl)) Ls LA → Forall (Forall (left_row lt kts lp)) LA →
  ∀ sizess Rs RB w out, Forall2 (sizes_of n) sizess Rs → Forall2 (Forall2 (reads fuel partitioned nr)) Rs RB →
  Forall (Forall (right_row rt kts rp)) RB → length Ls = length Rs → (0 < n)%nat → wrote (result_types lt rt rp) n w out → ∃ w',
  join_partitions hash hash64_combine fuel e partitioned n Ls (cut (concat sizess) (concat Rs)) w = Ok w' ∧ w_names w' = w_names w ∧
  wrote (result_types lt rt rp) n w' (out ++ concat (zip_with joined LA RB)).
Proof using Hpos.
  intros HLs HLA. induction HLs as [|ls la Ls LA Hl _ IH]; intros sizess Rs RB w out Hsz HRs HRB Hlen Hn Hw.
  { exists w. cbn. by rewrite app_nil_r. }
  destruct Hsz as [|sizes R sizess Rs [Hs1 Hs2] Hsz]; [done|]. inversion HRs as [|? rb ? RB' HR HRs']; subst RB; subst.
  apply Forall_cons in HLA as [Hla HLA]. apply Forall_cons in HRB as [Hrb HRB]. cbn [join_partitions concat].
  rewrite cut_app, take_app_length', drop_app_length' by (by rewrite length_cut).
  assert (cut sizes (R ++ concat Rs) = cut sizes R) as ->.
  { rewrite <- (app_nil_r sizes) at 1. clear - Hs2. revert R Hs2. induction sizes as [|k sizes IH]; intros R Hs; [done|].
    cbn in *. rewrite take_app_le, drop_app_le by lia. f_equal. apply IH. rewrite length_drop. lia. }
  destruct (join_partition_ok hash hash64_combine fuel e partitioned lt rt kts lp rp Hpos (length sizes) la ls (cut sizes rb) (cut sizes R) w out)
    as (w1 & -> & Hn1 & Hw1); [done|by apply Forall2_cut|done|by apply Forall_cut|by rewrite length_cut|done|done|].
  cbn [mbind outcome_bind]. rewrite concat_cut, take_ge in Hw1 by (rewrite Hs2, <- (Forall2_length _ _ _ HR); lia).
  rewrite Hs2, drop_app_length. destruct (IH HLA sizess Rs RB' w1 _ Hsz HRs' HRB ltac:(by injection Hlen) Hn Hw1) as (w2 & -> & Hn2 & Hw2).
  exists w2. split_and!; [done|congruence|]. cbn [zip_with concat]. by rewrite app_assoc.
Qed.

(** *** The frames *)

Context (A B : list row).
Context (Hlok : frame_ok (left_frame e)) (Hrok : frame_ok (right_frame e)).
Context (HA : read_all (left_frame e) = Ok A) (HB : read_all (right_frame e) = Ok B).
Context (Hlt : Forall (left_row lt kts lp) A) (Hrt : Forall (right_row rt kts rp) B).
Context (HpA : Forall (packable fuel) A) (HpB : Forall (packable fuel) B).
Context (Hbuffer : (0 < max_buffer_size e)%nat).

(** What the partitions are: the rows that are stored, and the rows that are read from them. *)
Record ready (gl gr : sframe) (partitioned : bool) (Ls Rs LA RB : list (list row)) : Prop := Ready {
  ready_frames : grace_partition_frames hash hash64_combine schedule e = Ok (gl, gr, partitioned);
  ready_left_rows : num_rows gl = num_rows (left_frame e);
  ready_right_rows : num_rows gr = num_rows (right_frame e);
  ready_lengths : (if partitioned then
      if (num_segments gl =? num_segments gr)%nat then Ok (segment_lengths gr) else Throw
    else Ok [num_rows gr]) = Ok (map length Rs);
  ready_lefts : (if partitioned then get_reader_stored gl else get_reader_n 1 gl) = Ok Ls;
  ready_rights : inited gr = true ∧ read_all gr = Ok (concat Rs) ∧ num_rows gr = length (concat Rs);
  ready_count : length Ls = length Rs;
  ready_left : Forall2 (Forall2 (reads fuel partitioned nl)) Ls LA;
  ready_right : Forall2 (Forall2 (reads fuel partitioned nr)) Rs RB;
  ready_left_typed : Forall (Forall (left_row lt kts lp)) LA;
  ready_right_typed : Forall (Forall (right_row rt kts rp)) RB;
  ready_join : concat (zip_with joined LA RB) ≡ₚ joined A B;
}.

Lemma frame_partitions : ∃ n, (0 < n)%nat ∧ ∀ r,
  (l ← grace_partition_frame hash hash64_combine schedule (left_frame e) lp n;
   r ← grace_partition_frame hash hash64_combine schedule (right_frame e) rp n; Ok (l, r, negb (n =? 1)%nat)) = r →
  grace_partition_frames hash hash64_combine schedule e = r.
Proof using All.
  unfold grace_partition_frames, choose_number_of_grace_partitions. rewrite (proj2 (Nat.eqb_neq (max_buffer_size e) 0)) by lia.
  cbn [mbind outcome_bind]. rewrite (pos_left _ _ _ _ _ _ Hpos), (pos_right _ _ _ _ _ _ Hpos).
  eexists. split; [|by intros r ?]. lia.
Qed.

Lemma left_columns : ∃ c cs, columns (left_frame e) = c :: cs.
Proof using All.
  pose proof (pos_left_columns _ _ _ _ _ _ Hpos) as Hn. unfold num_columns in Hn.
  destruct (columns (left_frame e)) as [|c cs]; [|by exists c, cs].
  pose proof (pos_left_range _ _ _ _ _ _ Hpos) as Hr. rewrite <- Hn in Hr. destruct (pos_some _ _ _ _ _ _ Hpos).
  destruct lp as [|p ps]; [done|]. apply Forall_cons in Hr as [Hr _]. cbn in Hr. lia.
Qed.

Lemma ready_one : (∀ r, (l ← grace_partition_frame hash hash64_combine schedule (left_frame e) lp 1;
   r ← grace_partition_frame hash hash64_combine schedule (right_frame e) rp 1; Ok (l, r, false)) = r →
  grace_partition_frames hash hash64_combine schedule e = r) → ready (left_frame e) (right_frame e) false [A] [B] [A] [B].
Proof using All.
  intros Hf. pose proof (read_all_length _ _ HA) as HnA. pose proof (read_all_length _ _ HB) as HnB.
  assert (∀ n (l : list row), Forall2 (reads fuel false n) l l) as Hreads.
  { intros n l. by apply Forall_Forall2_diag, Forall_true. }
  split.
  - by apply Hf.
  - done.
  - done.
  - by rewrite HnB.
  - unfold get_reader_n. rewrite (fok_inited _ Hlok), HA. destruct left_columns as (c & cs & ->). cbn [Nat.ltb Nat.leb].
    cbn [fmap outcome_fmap seq map cut]. rewrite HnA, !Nat.div_1_r, Nat.mul_1_l, Nat.sub_0_r. by rewrite take_ge by done.
  - cbn [concat]. rewrite app_nil_r. by split_and!; [apply (fok_inited _ Hrok)|..].
  - done.
  - by constructor.
  - by constructor.
  - by constructor.
  - by constructor.
  - cbn. by rewrite app_nil_r.
Qed.
(** One frame in [n] partitions. *)
Lemma partition_parts sf types ps n rs : frame_ok sf → read_all sf = Ok rs → (1 < n)%nat →
  Forall (λ r, row_of types r ∧ keyed kts ps r) rs → Forall (packable fuel) rs → ∃ pf segs,
  grace_partition_frame hash hash64_combine schedule sf ps n = Ok pf ∧ num_rows pf = num_rows sf ∧ num_segments pf = n ∧
  segment_lengths pf = map length segs ∧ get_reader_stored pf = Ok segs ∧
  (inited pf = true ∧ read_all pf = Ok (concat segs) ∧ num_rows pf = length (concat segs)) ∧ length segs = n ∧
  Forall2 (Forall2 (reads fuel true (length types))) segs
    (map (λ i, filter (λ r, part hash hash64_combine n (join_key ps r) = i) (schedule rs)) (seq 0 n)).
Proof using Hsched.
  intros Hok Hrs Hn Htk Hp.
  destruct (grace_partition_ok hash hash64_combine schedule fuel sf ps n rs) as (pf & segs & H1 & Hi & H2 & H3 & H4 & H5 & H6 & H7 & H8); try done.
  { eapply Forall_impl; [exact Htk|]. by intros r [_ [? _]]. }
  exists pf, segs. split_and!; try done.
  - by rewrite (read_all_length sf rs).
  - by apply read_all_length.
  - apply Forall2_same_length_lookup_2; [by rewrite length_map, length_seq|]. intros i seg l Hseg Hl.
    rewrite list_lookup_fmap in Hl. apply fmap_Some in Hl as (j & Hj & ->). apply lookup_seq in Hj as [-> _]. cbn.
    eapply Forall2_right; [by eapply H8| |].
    + apply Forall_forall. intros r [_ Hr]%list_elem_of_filter. rewrite Hsched in Hr. rewrite Forall_forall in Htk. by apply (Htk r Hr).
    + cbn. intros q r Hq [Hr _]. unfold reads. by rewrite <- (row_length types r Hr).
Qed.

Lemma zip_with_maps {C D E F} (f : D → E → F) (g : C → D) (h : C → E) l : zip_with f (map g l) (map h l) = map (λ x, f (g x) (h x)) l.
Proof using Type. induction l as [|x l IH]; [done|]. cbn. by rewrite IH. Qed.

Lemma parts_typed ps types n rs : Forall (λ r, row_of types r ∧ keyed kts ps r) rs →
  Forall (Forall (λ r, row_of types r ∧ keyed kts ps r))
    (map (λ i, filter (λ r, part hash hash64_combine n (join_key ps r) = i) (schedule rs)) (seq 0 n)).
Proof using Hsched.
  intros Hrs. apply Forall_fmap, Forall_true. intros i. cbn. apply Forall_forall. intros r [_ Hr]%list_elem_of_filter.
  rewrite Hsched in Hr. rewrite Forall_forall in Hrs. by apply Hrs.
Qed.

Lemma ready_many n : (1 < n)%nat →
  (∀ r, (l ← grace_partition_frame hash hash64_combine schedule (left_frame e) lp n;
   r ← grace_partition_frame hash hash64_combine schedule (right_frame e) rp n; Ok (l, r, true)) = r →
  grace_partition_frames hash hash64_combine schedule e = r) → ∃ gl gr Ls Rs LA RB, ready gl gr true Ls Rs LA RB.
Proof using All.
  intros Hn Hf.
  destruct (partition_parts (left_frame e) lt lp n A Hlok HA Hn Hlt HpA) as (gl & Ls & H1 & H2 & H3 & H4 & H5 & H6 & H7 & H8).
  destruct (partition_parts (right_frame e) rt rp n B Hrok HB Hn Hrt HpB) as (gr & Rs & G1 & G2 & G3 & G4 & G5 & G6 & G7 & G8).
  exists gl, gr, Ls, Rs. do 2 eexists. split; [|done|done| |done|done|congruence|exact H8|exact G8|by apply parts_typed|by apply parts_typed|].
  - apply Hf. rewrite H1. cbn [mbind outcome_bind]. by rewrite G1.
  - by rewrite H3, G3, Nat.eqb_refl, G4.
  - rewrite zip_with_maps. rewrite <- (relational_join_permutation lp rp nl nr (left_join e) (right_join e) _ _ _ _ (Hsched A) (Hsched B)).
    apply (relational_join_parts lp rp nl nr (part hash hash64_combine n) n (schedule A) (schedule B)); intros r _; apply part_range; lia.
Qed.

Lemma partitions_ready : ∃ gl gr partitioned Ls Rs LA RB, ready gl gr partitioned Ls Rs LA RB.
Proof using All.
  destruct frame_partitions as (n & Hn & Hf). destruct (decide (n = 1)%nat) as [->|Hne].
  - by exists (left_frame e), (right_frame e), false, [A], [B], [A], [B]; apply ready_one.
  - rewrite (proj2 (Nat.eqb_neq n 1)) in Hf by done.
    destruct (ready_many n ltac:(lia) Hf) as (gl & gr & Ls & Rs & LA & RB & H). by exists gl, gr, true, Ls, Rs, LA, RB.
Qed.

(** All of the join but the names and the order of the columns. *)
Lemma grace_hash_join_ok cpu_count w changed : init_result_frame cpu_count e = Ok (w, changed) → (0 < w_segments w)%nat →
  wrote (result_types lt rt rp) (w_segments w) w [] → ∃ w',
  grace_hash_join hash hash64_combine schedule fuel cpu_count e =
    (if reverse_output_column_order e then swap_columns_back e changed (close w') else Ok (close w')) ∧
  w_names w' = w_names w ∧ wrote (result_types lt rt rp) (w_segments w) w' (joined A B).
Proof using All.
  intros Hinit Hn Hw. destruct partitions_ready as (gl & gr & partitioned & Ls & Rs & LA & RB & [H1 H2 H3 H4 H5 (H6 & H7 & H8) H9 H10 H11 H12 H13 H14]).
  destruct (logical_sizes (w_segments w) Rs Hn) as (sizess & Hsz & HF).
  unfold grace_hash_join. rewrite H1. cbn [mbind outcome_bind]. rewrite Hinit. cbn [mbind outcome_bind].
  rewrite H2, H3, !Nat.eqb_refl. cbn [andb]. rewrite <- H3 in *. rewrite H4. cbn [mbind outcome_bind]. rewrite Hsz. cbn [mbind outcome_bind].
  rewrite H5. cbn [mbind outcome_bind]. unfold get_reader. rewrite H6, (sizes_total _ _ _ HF), <- H8, Nat.eqb_refl, H7.
  cbn [andb fmap outcome_fmap mbind outcome_bind]. rewrite length_map, H9, Nat.eqb_refl.
  destruct (join_partitions_ok partitioned (w_segments w) Ls LA H10 H12 sizess Rs RB w [] HF H11 H13 H9 Hn Hw) as (w' & -> & Hnames & Hw').
  exists w'. cbn [mbind outcome_bind app] in *. by rewrite H14 in Hw'.
Qed.
End grace.
End JoinGraceSpec.
