(* ===== verification/JoinColumnSpec.v ===== *)
(** The columns of the result of a join: their names, and the order in which they are put when
    the frames were exchanged.

    The names of the result of a join, the names that it remembers when it exchanges the frames,
    and a frame with its columns in another order. *)
From S2P Require Import Prelude FlexType FlexOps QueryPlan QueryPlanSpec SFrame GroupBySpec SFrameSpec Join.
From S2P Require Import JoinTableSpec JoinMergeSpec JoinLoopSpec JoinAlgebraSpec.
Import FlexType FlexOps SFrame SFrameSpec Join JoinTableSpec JoinMergeSpec JoinLoopSpec JoinAlgebraSpec.
Import GroupBySpec(bind_Ok).
Local Open Scope Z_scope.
Local Open Scope sframe_scope.

Module JoinColumnSpec.

(** ** Places for columns *)

Abbreviation column := (sarray * name)%type.

(** The two vectors of the code, of columns with their names. *)
Definition state_of (o : list (option column)) : list (option sarray) * list name :=
  (map (fmap fst) o, map (λ x, default [] (snd <$> x)) o).

Lemma state_columns o : (state_of o).1 = map (fmap fst) o.
Proof. done. Qed.

Lemma put_column_ok i c n o : (i < length o)%nat → put_column i c n (state_of o) = Ok (state_of (<[i := Some (c, n)]> o)).
Proof.
  intros Hi. unfold put_column, state_of. cbn [fst snd]. rewrite !length_map, (proj2 (Nat.ltb_lt _ _)) by done. cbn [andb].
  by rewrite !list_fmap_insert.
Qed.

Lemma next_column_ok fuel (somes : list column) : ∀ (pre post : list (option column)), (length somes < fuel)%nat →
  next_column fuel (length pre) (map (fmap fst) (pre ++ map Some somes ++ None :: post)) = Ok (length pre + length somes)%nat.
Proof.
  revert fuel. induction somes as [|c somes IH]; intros [|fuel] pre post Hf; cbn [length] in Hf; try lia;
    cbn [next_column map app]; rewrite list_lookup_fmap.
  - rewrite (list_lookup_middle pre post None) by done. cbn. by rewrite Nat.add_0_r.
  - rewrite (list_lookup_middle pre _ (Some c)) by done. cbn [fmap option_fmap option_map].
    specialize (IH fuel (pre ++ [Some c]) post ltac:(lia)). rewrite <- app_assoc in IH. cbn [app] in IH.
    rewrite length_app, Nat.add_1_r in IH. rewrite IH. f_equal. cbn [length]. lia.
Qed.

Definition nones (o : list (option column)) : nat := length (filter (λ x, x = None) o).

Lemma first_none o : (0 < nones o)%nat → ∃ somes post, o = map Some somes ++ None :: post.
Proof.
  induction o as [|[c|] o IH]; unfold nones; [cbn; lia| |by exists [], o].
  rewrite filter_cons, decide_False by done. intros (somes & post & ->)%IH. by exists (c :: somes), post.
Qed.

Lemma nones_split somes post : nones (map Some somes ++ None :: post) = S (nones post).
Proof.
  unfold nones. rewrite filter_app, filter_cons, decide_True by done.
  assert (filter (λ x, x = None) (map Some somes) = []) as ->; [|done].
  induction somes as [|c somes IH]; [done|]. cbn [map]. by rewrite filter_cons, decide_False.
Qed.

Lemma fill_split {A} (somes : list A) post c cs :
  fill (map Some somes ++ None :: post) (c :: cs) = map Some somes ++ Some c :: fill post cs.
Proof. induction somes as [|d somes IH]; [done|]. cbn. by rewrite IH. Qed.

Lemma fill_no_columns {A} (o : list (option A)) : fill o [] = o.
Proof. induction o as [|[c|] o IH]; [done|cbn; by rewrite IH..]. Qed.

(** A column of the result with its name. *)
Definition named (result : sframe) (i_n : nat * name) (cn : column) : Prop :=
  columns result !! i_n.1 = Some cn.1 ∧ cn.2 = i_n.2.

(** The columns go to the free places, from the left; what is before the index is full. *)
Lemma fill_columns_ok result cs cs' : Forall2 (named result) cs cs' → ∀ pre post, (length cs ≤ nones post)%nat → ∃ pre' post',
  fill_columns cs result (length pre) (state_of (pre ++ post)) = Ok (length pre', state_of (pre' ++ post')) ∧
  (∀ ds, pre ++ fill post (cs' ++ ds) = pre' ++ fill post' ds) ∧ nones post = (length cs + nones post')%nat.
Proof.
  induction 1 as [|[i n] [c n'] cs cs' [Hc Hn] _ IH]; intros pre post Hle; [by exists pre, post|].
  cbn in Hc, Hn, Hle. subst n'. destruct (first_none post ltac:(lia)) as (somes & post1 & ->). rewrite nones_split in Hle |- *.
  destruct (IH (pre ++ map Some somes ++ [Some (c, n)]) post1 ltac:(lia)) as (pre' & post' & Hf & Hfill & Hnones).
  exists pre', post'. split_and!; [| |cbn; lia].
  - cbn [fill_columns]. rewrite state_columns.
    rewrite next_column_ok by (rewrite !length_map, !length_app, length_map; cbn; lia).
    cbn [mbind outcome_bind]. unfold select_column. rewrite Hc. cbn [or_throw mbind outcome_bind].
    rewrite put_column_ok by (rewrite !length_app, length_map; cbn; lia). cbn [mbind outcome_bind].
    replace (<[(length pre + length somes)%nat := Some (c, n)]> (pre ++ map Some somes ++ None :: post1)) with
      ((pre ++ map Some somes ++ [Some (c, n)]) ++ post1).
    + replace (S (length pre + length somes))%nat with (length (pre ++ map Some somes ++ [Some (c, n)])) by
        (rewrite !length_app, length_map; cbn; lia). exact Hf.
    + rewrite insert_app_r, <- (length_map Some somes), <- (Nat.add_0_r (length (map Some somes))), insert_app_r.
      cbn. by rewrite <- !app_assoc.
  - intros ds. rewrite <- Hfill, <- !app_assoc. cbn [app]. by rewrite fill_split.
Qed.

(** *** The key columns *)

Lemma put_join_columns_ok right result (f : nat * nat → column) ms : ∀ o,
  (∀ rl, rl ∈ ms → (rl.1 < length o)%nat ∧ columns result !! rl.2 = Some (f rl).1 ∧ column_names right !! rl.1 = Some (f rl).2) →
  put_join_columns ms right result (state_of o) = Ok (state_of (foldl (λ o rl, <[rl.1 := Some (f rl)]> o) o ms)).
Proof.
  induction ms as [|[r l] ms IH]; intros o Hms; [done|]. destruct (Hms (r, l) ltac:(left)) as (Hr & Hc & Hn). cbn in Hr, Hc, Hn.
  cbn [put_join_columns foldl]. unfold select_column. rewrite Hc. cbn [or_throw mbind outcome_bind]. rewrite Hn. cbn [or_throw mbind outcome_bind].
  rewrite put_column_ok by done. cbn [mbind outcome_bind].
  rewrite <- surjective_pairing. apply IH. intros rl Hrl. rewrite length_insert. apply Hms. by right.
Qed.

Lemma inserts_lookup {A} (f : nat * nat → A) ms : ∀ (o : list (option A)) p, NoDup (map fst ms) →
  foldl (λ o rl, <[rl.1 := Some (f rl)]> o) o ms !! p =
    match list_find (λ rl, rl.1 = p) ms with Some (_, rl) => (λ _, Some (f rl)) <$> o !! p | None => o !! p end.
Proof.
  induction ms as [|rl ms IH]; intros o p Hnd; [done|]. cbn [map] in Hnd. apply NoDup_cons in Hnd as [Hni Hnd].
  cbn [foldl list_find]. rewrite IH by done. destruct (decide (rl.1 = p)) as [<-|Hne].
  - rewrite (proj2 (list_find_None _ _)).
    + destruct (decide (rl.1 < length o)%nat) as [Hlt|Hge].
      * rewrite list_lookup_insert_eq by done. by destruct (lookup_lt_is_Some_2 o rl.1 Hlt) as [x ->].
      * rewrite list_insert_ge, lookup_ge_None_2 by lia. done.
    + apply Forall_forall. intros x Hx Heq. apply Hni. rewrite <- Heq. by apply list_elem_of_fmap_2.
  - rewrite list_lookup_insert_ne by done. destruct (list_find _ ms) as [[k x]|]; done.
Qed.
(** *** The whole of it *)

Lemma list_filter_bool {A} (f : A → bool) (P : A → Prop) `{∀ x, Decision (P x)} l :
  (∀ x, f x = true ↔ P x) → List.filter f l = filter P l.
Proof.
  intros Hf. induction l as [|x l IH]; [done|]. cbn [List.filter]. rewrite filter_cons, IH.
  destruct (f x) eqn:Hx; [by rewrite decide_True by by apply Hf|]. rewrite decide_False; [done|]. intros ?%Hf. congruence.
Qed.

Lemma nones_app a b : nones (a ++ b) = (nones a + nones b)%nat.
Proof. unfold nones. by rewrite filter_app, length_app. Qed.

Lemma nones_map {A} (g : A → option column) js : nones (map g js) = length (filter (λ j, g j = None) js).
Proof.
  unfold nones. induction js as [|j js IH]; [done|]. cbn [map]. rewrite !filter_cons.
  destruct (decide (g j = None)); cbn [length]; by rewrite IH.
Qed.

Lemma nones_replicate n : nones (replicate n None) = n.
Proof. induction n as [|n IH]; [done|]. unfold nones in *. cbn [replicate]. rewrite filter_cons, decide_True by done. cbn. by rewrite IH. Qed.

Lemma zip_flip (a b : list nat) x y : (x, y) ∈ zip a b → (y, x) ∈ zip b a.
Proof.
  intros [k Hk]%list_elem_of_lookup_1. apply (list_elem_of_lookup_2 _ k). apply lookup_zip_Some in Hk as [? ?].
  by apply lookup_zip_Some.
Qed.

Section swap.
Context (e : hash_join_executor) (lp rp : list nat) (nl nr : nat).
Context (Hm : maps_to (right_to_left_join_positions e) rp lp) (Hlen : length rp = length lp).
Context (Hlp : NoDup lp) (Hrp : NoDup rp).
Context (Hl : Forall (λ p, (p < nl)%nat) lp) (Hr : Forall (λ q, (q < nr)%nat) rp).
Context (Hnl : num_columns (left_frame e) = nl) (Hnr : num_columns (right_frame e) = nr).

Abbreviation os := (others rp nr).
Abbreviation ol := (others lp nl).

Lemma other_columns_ok : other_columns e = os.
Proof using Hm Hlen Hnr.
  unfold other_columns. rewrite Hnr. apply list_filter_bool. intros i. unfold is_join_position.
  rewrite negb_true_iff, bool_decide_eq_false, <- eq_None_not_Some. by apply (maps_to_None _ rp lp).
Qed.

Context (result : sframe) (changed : gmap nat name) (lnames rnames : list name).
Context (Hn : num_columns result = (nl + length os)%nat).
Context (Hlnames : ∀ i, (i < nl)%nat → column_names result !! i = lnames !! i) (Hll : length lnames = nl).
Context (Hrnames : column_names (right_frame e) = rnames) (Hrl : length rnames = nr).
Context (Hchanged : ∀ k p, os !! k = Some p →
  default (default [] (column_names result !! (nl + k)%nat)) (changed !! (nl + k)%nat) = default [] (rnames !! p)).

Definition col (i : nat) : sarray := default (SArray UNDEFINED []) (columns result !! i).
Definition rname (q : nat) : name := default [] (rnames !! q).
Definition lname (i : nat) : name := default [] (lnames !! i).

(** The name that goes with a column of the result. *)
Definition orig_name (i : nat) : name := default (default [] (column_names result !! i)) (changed !! i).
Definition new_name (i : nat) : name :=
  if decide (i < nl)%nat then match key_source rp lp i with Some q => rname q | None => lname i end else orig_name i.
Definition full (i : nat) : column := (col i, new_name i).

Lemma col_lookup i : (i < nl + length os)%nat → columns result !! i = Some (col i).
Proof using Hn. intros Hi. rewrite <- Hn in Hi. unfold col. by destruct (lookup_lt_is_Some_2 (columns result) i Hi) as [c ->]. Qed.

Lemma key_name p l : key_source lp rp p = Some l → (l < nl)%nat ∧ new_name l = rname p.
Proof using Hl Hlp Hlen.
  intros Hp%key_source_Some. assert (l < nl)%nat as Hlt.
  { apply elem_of_zip_l in Hp. rewrite Forall_forall in Hl. by apply Hl. }
  split; [done|]. unfold new_name. rewrite decide_True by done.
  rewrite (key_source_zip rp lp l p Hlp); [done|by apply zip_flip].
Qed.

(** Both orders have the same columns. *)
Lemma num_result_columns : (nl + length os = nr + length ol)%nat.
Proof using All.
  pose proof (length_others (right_to_left_join_positions e) lp rp nl nr Hm Hlen Hlp Hrp Hl Hr) as H1.
  destruct (make_positions lp rp Hlp (eq_sym Hlen)) as (m' & _ & Hm').
  pose proof (length_others m' rp lp nr nl Hm' (eq_sym Hlen) Hrp Hlp Hr Hl) as H2. lia.
Qed.

Abbreviation ms := (map_to_list (right_to_left_join_positions e)).

Lemma pairs_spec q l : (q, l) ∈ ms ↔ key_source lp rp q = Some l.
Proof using All.
  rewrite elem_of_map_to_list. split.
  - intros Hq%Hm. apply key_source_zip; [done|by apply zip_flip].
  - intros Hq%key_source_Some. by apply Hm, zip_flip.
Qed.

Lemma key_places : foldl (λ o rl, <[rl.1 := Some (full rl.2)]> o) (replicate (nl + length os) None) ms =
  map (fmap full) (places lp rp nl nr).
Proof using All.
  apply list_eq. intros p.
  rewrite (inserts_lookup (λ rl : nat * nat, full rl.2)) by apply NoDup_fst_map_to_list. rewrite num_result_columns.
  assert (map (fmap full) (places lp rp nl nr) !! p =
    (λ _, full <$> key_source lp rp p) <$> replicate (nr + length ol) (@None column) !! p) as ->.
  { unfold places. rewrite list_lookup_fmap. destruct (decide (p < nr)%nat) as [Hp|Hp].
    - rewrite lookup_app_l, list_lookup_fmap, lookup_seq_lt by (by rewrite ?length_map, ?length_seq).
      by rewrite lookup_replicate_2 by lia.
    - rewrite lookup_app_r, length_map, length_seq by (rewrite length_map, length_seq; lia).
      assert (key_source lp rp p = None) as ->.
      { apply key_source_None; [done|]. intros Hin. pose proof (proj1 (Forall_forall _ _) Hr p Hin) as Hp'. cbn in Hp'. lia. }
      destruct (decide (p < nr + length ol)%nat); [by rewrite !lookup_replicate_2 by lia|].
      by rewrite !lookup_ge_None_2 by (rewrite length_replicate; lia). }
  destruct (list_find (λ rl : nat * nat, rl.1 = p) ms) as [[k [q l]]|] eqn:Hf.
  - apply list_find_Some in Hf as (Hk & Hq & _). cbn in Hq. subst q. apply list_elem_of_lookup_2, pairs_spec in Hk. by rewrite Hk.
  - destruct (key_source lp rp p) as [l|] eqn:Hp; [|by destruct (replicate _ _ !! p) as [[]|] eqn:Hx; [apply lookup_replicate in Hx as [? _]|..]].
    apply pairs_spec in Hp. apply list_find_None in Hf. rewrite Forall_forall in Hf. by destruct (Hf _ Hp).
Qed.

Lemma put_keys_ok : put_join_columns ms (right_frame e) result (state_of (replicate (nl + length os) None)) =
  Ok (state_of (map (fmap full) (places lp rp nl nr))).
Proof using All.
  rewrite <- key_places. apply (put_join_columns_ok (right_frame e) result (λ rl, full rl.2)).
  intros [q l] Hin. cbn. apply pairs_spec in Hin as Hq. destruct (key_name q l Hq) as [Hlt Hname].
  apply key_source_Some, elem_of_zip_r in Hq. pose proof (proj1 (Forall_forall _ _) Hr q Hq) as Hq'. cbn in Hq'. rewrite length_replicate.
  split_and!; [pose proof num_result_columns; lia|apply col_lookup; lia|]. rewrite Hname, Hrnames. unfold rname.
  destruct (lookup_lt_is_Some_2 rnames q) as [x ->]; [by rewrite Hrl|done].
Qed.

(** *** The other columns *)

Definition origs : list (nat * name) := map (λ i, (i, orig_name i)) (seq nl (length os)).
Definition lefts : list (nat * name) := map (λ i, (i, default [] (column_names result !! i))) ol.

Lemma origs_named : Forall2 (named result) origs (map full (seq nl (length os))).
Proof using All.
  unfold origs. apply Forall2_fmap, Forall_Forall2_diag, Forall_forall. intros i Hi%elem_of_seq. split; cbn.
  - apply col_lookup. lia.
  - unfold new_name. by rewrite decide_False by lia.
Qed.

Lemma lefts_named : Forall2 (named result) lefts (map full ol).
Proof using All.
  unfold lefts. apply Forall2_fmap, Forall_Forall2_diag, Forall_forall. intros i [Hni Hi]%list_elem_of_filter.
  apply elem_of_seq in Hi. split; cbn; [apply col_lookup; lia|].
  unfold new_name. rewrite decide_True, (proj2 (key_source_None rp lp i Hlen)) by (done || lia). unfold lname. by rewrite Hlnames by lia.
Qed.

Lemma nones_places : nones (map (fmap full) (places lp rp nl nr)) = (length os + length ol)%nat.
Proof using All.
  unfold places. rewrite map_app, nones_app, map_map, map_replicate_l, nones_map. change (full <$> None) with (@None column).
  rewrite nones_replicate. f_equal.
  rewrite <- (filter_source lp rp Hlen nr). f_equal. apply filter_ext_in. intros q _. by destruct (key_source lp rp q).
Qed.

Lemma fill_others : ∃ i st, fill_columns origs result 0 (state_of (map (fmap full) (places lp rp nl nr))) = Ok (i, st) ∧
  ∃ j, fill_columns lefts result i st = Ok (j, state_of (map Some (map full (order lp rp nl nr)))).
Proof using All.
  pose proof nones_places as Hnones.
  destruct (fill_columns_ok result origs _ origs_named [] (map (fmap full) (places lp rp nl nr))) as (pre & post & H1 & Hfill & Hk).
  { unfold origs. rewrite length_map, length_seq. lia. }
  exists (length pre), (state_of (pre ++ post)). split; [done|].
  destruct (fill_columns_ok result lefts _ lefts_named pre post) as (pre' & post' & H2 & Hfill' & _).
  { unfold origs, lefts in *. rewrite length_map, ?length_seq in *. lia. }
  exists (length pre'). rewrite H2. do 3 f_equal. specialize (Hfill' []). rewrite app_nil_r, fill_no_columns in Hfill'. rewrite <- Hfill', <- Hfill.
  cbn [app]. rewrite <- map_app, fill_map, fill_places, !map_map by done. done.
Qed.

Lemma columns_back : swap_columns_back e changed result =
  create_arrays_for_reading (map col (order lp rp nl nr)) (map rname (seq 0 nr) ++ map lname ol) false.
Proof using All.
  unfold swap_columns_back. rewrite Hn, Hnl. replace (nl + length os - nl)%nat with (length os) by lia.
  pose proof put_keys_ok as Hput. unfold state_of in Hput at 1. rewrite !map_replicate_l in Hput. cbn [snd fmap option_fmap option_map default] in Hput.
  rewrite Hput. cbn [mbind outcome_bind].
  assert (List.filter (λ i, negb (bool_decide (i ∈ map snd ms))) (seq 0 nl) = ol) as ->.
  { apply list_filter_bool. intros i. rewrite negb_true_iff, bool_decide_eq_false, list_elem_of_fmap. split; intros Hni Hin; apply Hni.
    - apply list_elem_of_lookup_1 in Hin as [k Hk]. destruct (lookup_lt_is_Some_2 rp k) as [q Hq]; [rewrite Hlen; by eapply lookup_lt_Some|].
      exists (q, i). split; [done|]. apply elem_of_map_to_list, Hm. apply (list_elem_of_lookup_2 _ k). by apply lookup_zip_Some.
    - destruct Hin as ([q l] & -> & Hq%pairs_spec). by apply key_source_Some, elem_of_zip_l in Hq. }
  destruct fill_others as (i & st & H1 & j & H2). unfold origs, orig_name in H1. rewrite H1. cbn [mbind outcome_bind fst snd].
  unfold lefts in H2. rewrite H2. cbn [mbind outcome_bind fst snd state_of].
  rewrite !map_map. cbn [fmap option_fmap option_map].
  assert (∀ l, mapM id (map (λ x, fst <$> Some (full x)) l) = Some (map col l)) as HM.
  { intros l. apply mapM_Some_2, Forall2_fmap, Forall_Forall2_diag, Forall_true. done. }
  cbn [fmap option_fmap option_map] in HM. rewrite HM. cbn [or_trap mbind outcome_bind]. f_equal.
  transitivity (map new_name (order lp rp nl nr)); [done|]. rewrite (map_order lp rp nl nr Hlen new_name rname).
  - f_equal; apply map_ext_in; intros p Hp%list_elem_of_In.
    + destruct (key_source lp rp p) as [l|] eqn:Hk; [|done]. by apply key_name.
    + apply list_elem_of_filter in Hp as [Hni Hp%elem_of_seq]. unfold new_name.
      by rewrite decide_True, (proj2 (key_source_None rp lp p Hlen)) by (done || lia).
  - intros k p Hk. unfold new_name. rewrite decide_False by lia. unfold orig_name, rname. by apply Hchanged.
Qed.
End swap.
End JoinColumnSpec.

Import FlexType FlexOps SFrame SFrameSpec Join JoinTableSpec JoinMergeSpec JoinLoopSpec JoinAlgebraSpec JoinColumnSpec.
Import QueryPlan(SoftAssign, soft_assign).
Import GroupBySpec(bind_Ok).

Module JoinNameSpec.

Definition name_at (names : list name) (i : nat) : name := default [] (names !! i).

Lemma names_at names : map (name_at names) (seq 0 (length names)) = names.
Proof.
  apply list_eq. intros i. rewrite list_lookup_fmap. destruct (decide (i < length names)%nat) as [Hi|Hi].
  - rewrite lookup_seq_lt by done. cbn. unfold name_at. by destruct (lookup_lt_is_Some_2 names i Hi) as [x ->].
  - by rewrite lookup_seq_ge, lookup_ge_None_2 by lia.
Qed.

(** ** Completed names *)

(** A name that is not empty is completed at its end. *)
Lemma generated_prefix g names n : g ≠ [] → generate_valid_column_name g names = Ok n → ∃ s, n = g ++ s.
Proof.
  intros Hg. unfold generate_valid_column_name. destruct g as [|c g]; [done|].
  destruct (contains_column _ names); [|intros [= <-]; exists []; by rewrite app_nil_r].
  destruct (next_free_name_found ((c :: g) ++ [ch_dot]) names) as (m & k & -> & _ & ->). intros [= <-].
  eexists. by rewrite <- app_assoc.
Qed.

Lemma fill_names_prefix n : ∀ given names ns, fill_column_names n given names = Ok ns → ∃ l, ns = names ++ l ∧ length l = n ∧
  ∀ k g x, given !! k = Some g → g ≠ [] → l !! k = Some x → ∃ s, x = g ++ s.
Proof.
  induction n as [|n IH]; intros given names ns; cbn [fill_column_names].
  { intros [= ->]. exists []. split_and!; [by rewrite app_nil_r|done..]. }
  intros H. apply bind_Ok in H as (m & Hm & H). apply IH in H as (l & -> & Hl & Hk). exists (m :: l).
  split_and!; [by rewrite <- app_assoc|cbn; by rewrite Hl|]. intros [|k] g x Hg Hne Hx.
  - cbn in Hx. injection Hx as ->. destruct given as [|g' given]; [done|]. injection Hg as ->. by eapply generated_prefix.
  - destruct given as [|g' given]; [done|]. by eapply Hk.
Qed.

Lemma fill_names_app g1 n g2 : ∀ names,
  fill_column_names (length g1 + n) (g1 ++ g2) names = (ns ← fill_column_names (length g1) g1 names; fill_column_names n g2 ns).
Proof.
  induction g1 as [|g g1 IH]; intros names; [done|]. cbn.
  destruct (generate_valid_column_name g names); [|done..]. cbn [mbind outcome_bind]. apply IH.
Qed.

(** Valid names are kept, and the names that follow them are completed. *)
Lemma joined_names g1 g2 ns : names_ok g1 → [] ∉ g2 → fill_column_names (length (g1 ++ g2)) (g1 ++ g2) [] = Ok ns →
  ∃ l, ns = g1 ++ l ∧ length l = length g2 ∧ ∀ k g x, g2 !! k = Some g → l !! k = Some x → length x = length g → x = g.
Proof.
  intros Hok Hne. rewrite length_app, fill_names_app, fill_names_kept by done. cbn [mbind outcome_bind app].
  intros (l & -> & Hl & Hk)%fill_names_prefix. exists l. split_and!; [done..|]. intros k g x Hg Hx Hlen.
  destruct (Hk k g x Hg) as [s ->]; [|done|].
  - intros ->. apply Hne. by eapply list_elem_of_lookup_2.
  - rewrite length_app in Hlen. assert (length s = 0%nat) as ->%length_zero_iff_nil by lia. apply app_nil_r.
Qed.

(** ** The names that are changed *)

Section changed.
Context (wnames rnames : list name).

Definition changed_name (ic : nat * nat) : outcome (list (nat * name)) :=
  n ← or_throw (wnames !! ic.1); old ← or_throw (rnames !! ic.2);
  Ok (if (length n =? length old)%nat then [] else [(ic.1, old)]).

Lemma changed_names_ok os : ∀ s, (s + length os ≤ length wnames)%nat → Forall (λ p, (p < length rnames)%nat) os → ∃ ch,
  outcome_map changed_name (zip (seq s (length os)) os) = Ok ch ∧
  (∀ i, (i < s)%nat → (list_to_map (concat ch) : gmap nat name) !! i = None) ∧
  ∀ k p n old, os !! k = Some p → wnames !! (s + k)%nat = Some n → rnames !! p = Some old →
    (list_to_map (concat ch) : gmap nat name) !! (s + k)%nat = if (length n =? length old)%nat then None else Some old.
Proof.
  induction os as [|p os IH]; intros s Hs Hos; [by exists []|]. apply Forall_cons in Hos as [Hp Hos]. cbn [length] in Hs.
  destruct (IH (S s) ltac:(lia) Hos) as (ch & Hch & Hlow & Hlook).
  destruct (lookup_lt_is_Some_2 wnames s ltac:(lia)) as [n Hn]. destruct (lookup_lt_is_Some_2 rnames p Hp) as [old Hold].
  assert (changed_name (s, p) = Ok (if (length n =? length old)%nat then [] else [(s, old)])) as Hstep.
  { unfold changed_name. cbn [fst snd]. by rewrite Hn, Hold. }
  cbn [length seq zip zip_with outcome_map]. rewrite Hstep. cbn [mbind outcome_bind]. rewrite Hch. cbn [mbind outcome_bind]. eexists. split; [done|]. cbn [concat].
  destruct (length n =? length old)%nat eqn:Heq; cbn [app list_to_map foldr fst snd]; split.
  - intros i Hi. apply Hlow. lia.
  - intros [|k] q m o Hk Hm Ho.
    + injection Hk as ->. rewrite Nat.add_0_r in Hm |- *. rewrite Hm in Hn. rewrite Ho in Hold. injection Hn as ->. injection Hold as ->.
      rewrite Heq. apply Hlow. lia.
    + rewrite <- Nat.add_succ_comm in Hm |- *. by eapply Hlook.
  - intros i Hi. rewrite lookup_insert_ne by lia. apply Hlow. lia.
  - intros [|k] q m o Hk Hm Ho.
    + injection Hk as ->. rewrite Nat.add_0_r in Hm |- *. rewrite Hm in Hn. rewrite Ho in Hold. injection Hn as ->. injection Hold as ->.
      by rewrite Heq, lookup_insert_eq.
    + rewrite <- Nat.add_succ_comm in Hm |- *. rewrite lookup_insert_ne by lia. by eapply Hlook.
Qed.
End changed.

(** ** Columns in another order *)

Lemma reordered_rows sf rows sf' js : frame_ok sf → read_all sf = Ok rows → num_rows sf' = nrows sf →
  Forall2 (λ j c, columns sf !! j = Some c) js (columns sf') → read_all sf' = Ok (map (λ r, cells r js) rows).
Proof.
  intros Hok Hrows Hn Hcs. destruct (frame_rows_ok sf Hok) as (rows' & Hrows' & Hl & _ & Hdata).
  rewrite Hrows in Hrows'. injection Hrows' as <-. unfold read_all. rewrite Hn, <- Hl.
  rewrite <- (length_map (λ r, cells r js) rows). rewrite (mapM_seq_rows _ (map (λ r, cells r js) rows)); [done|].
  intros i x Hx. rewrite list_lookup_fmap in Hx. apply fmap_Some in Hx as (r & Hr & ->). unfold row_at.
  apply mapM_Some_2. apply Forall2_fmap_r, Forall2_flip. eapply Forall2_impl; [exact Hcs|]. intros j c Hc. cbn.
  by rewrite (Hdata j c Hc), list_lookup_fmap, Hr.
Qed.
End JoinNameSpec.
