(* ===== verification/JoinSpec.v ===== *)
(** A join of two frames, whichever of them is the smaller: its rows, columns and names. *)
From S2P Require Import Prelude FlexType FlexOps QueryPlan QueryPlanSpec GroupBySpec SFrame SFrameSpec DataframeSpec.
From S2P Require Import Join JoinTableSpec JoinMergeSpec JoinLoopSpec JoinAlgebraSpec JoinGraceSpec JoinColumnSpec.
Import FlexType FlexOps SFrame SFrameSpec Join JoinTableSpec JoinMergeSpec JoinLoopSpec JoinAlgebraSpec JoinPartitionSpec.
Import JoinColumnSpec JoinGraceSpec JoinNameSpec.
Import QueryPlan(SoftAssign, soft_assign).
Import GroupBySpec(bind_Ok).
Import DataframeSpec(outcome_map_ok).
Local Open Scope Z_scope.
Local Open Scope sframe_scope.

Module JoinSpec.

Definition key_types (sf : sframe) (ps : list nat) : list flex_type_enum := map (λ p, default UNDEFINED (column_types sf !! p)) ps.

(** Frames with key columns at distinct positions [lp] and [rp], of the same types and with
    values that can be compared, and with values that can be stored. *)
Record can_join (fuel : nat) (a b : sframe) (lp rp : list nat) (A B : list row) : Prop := CanJoin {
  cj_left_ok : frame_ok a;
  cj_right_ok : frame_ok b;
  cj_left_rows : read_all a = Ok A;
  cj_right_rows : read_all b = Ok B;
  cj_length : length rp = length lp;
  cj_some : lp ≠ [];
  cj_left_distinct : NoDup lp;
  cj_right_distinct : NoDup rp;
  cj_left_range : Forall (λ p, (p < num_columns a)%nat) lp;
  cj_right_range : Forall (λ p, (p < num_columns b)%nat) rp;
  cj_types : key_types a lp = key_types b rp;
  cj_left_keys : Forall (λ r, Forall2 joinable (key_types a lp) (join_key lp r)) A;
  cj_right_keys : Forall (λ r, Forall2 joinable (key_types b rp) (join_key rp r)) B;
  cj_left_packable : Forall (packable fuel) A;
  cj_right_packable : Forall (packable fuel) B;
}.

Lemma can_join_sym fuel a b lp rp A B : can_join fuel a b lp rp A B → can_join fuel b a rp lp B A.
Proof. intros []. split; try done. intros ->. by destruct lp. Qed.

(** The names before they are completed, and the types. *)
Definition name_list (a b : sframe) (rp : list nat) : list name :=
  column_names a ++ map (name_at (column_names b)) (others rp (num_columns b)).
Definition type_list (a b : sframe) (rp : list nat) : list flex_type_enum := result_types (column_types a) (column_types b) rp.

Lemma length_types sf : length (column_types sf) = num_columns sf.
Proof. apply length_map. Qed.

Lemma frame_row_typed sf rows : frame_ok sf → read_all sf = Ok rows → Forall (row_of (column_types sf)) rows.
Proof. intros Hok Hrows. destruct (frame_rows_ok sf Hok) as (rows' & Hrows' & _ & Ht & _). congruence. Qed.

Lemma frame_row_length sf rows : frame_ok sf → read_all sf = Ok rows → Forall (λ r, length r = num_columns sf) rows.
Proof.
  intros Hok Hrows. eapply Forall_impl; [by eapply frame_row_typed|]. intros r Hr. by rewrite (row_length _ _ Hr), length_types.
Qed.

Lemma keyed_rows sf ps rows : frame_ok sf → read_all sf = Ok rows → Forall (λ p, (p < num_columns sf)%nat) ps →
  Forall (λ r, Forall2 joinable (key_types sf ps) (join_key ps r)) rows →
  Forall (λ r, row_of (column_types sf) r ∧ keyed (key_types sf ps) ps r) rows.
Proof.
  intros Hok Hrows Hps Hk. pose proof (frame_row_typed sf rows Hok Hrows) as Ht. rewrite !Forall_forall in *. intros r Hr.
  split; [by apply Ht|]. split; [|by apply Hk]. apply Forall_forall. intros p Hp.
  by rewrite (row_length _ _ (Ht r Hr)), length_types; apply Hps.
Qed.

Lemma key_types_at sf ps : Forall (λ p, (p < num_columns sf)%nat) ps → Forall2 (λ t p, column_types sf !! p = Some t) (key_types sf ps) ps.
Proof.
  intros Hps. unfold key_types. apply Forall2_fmap_l, Forall_Forall2_diag. eapply Forall_impl; [exact Hps|]. intros p Hp. cbn.
  rewrite <- length_types in Hp. by destruct (lookup_lt_is_Some_2 _ _ Hp) as [t ->].
Qed.

Section frames.
Context {SA : SoftAssign} (hash : flexible_type → Z) (hash64_combine : Z → Z → Z).
Context (schedule : list row → list row) (fuel : nat) (cpu_count : nat).

(** The executor of a join of [a] and [b], whether they are exchanged or not. *)
Definition executes (e : hash_join_executor) (a b : sframe) (lp rp : list nat) : Prop :=
  left_frame e = a ∧ right_frame e = b ∧ left_join_positions e = lp ∧ right_join_positions e = rp ∧
  maps_to (right_to_left_join_positions e) rp lp.

Section executor.
Context (a b : sframe) (lp rp : list nat) (A B : list row) (e : hash_join_executor).
Context (Hcj : can_join fuel a b lp rp A B) (He : executes e a b lp rp).

Lemma executor_positions : positions_ok e (column_types a) (column_types b) (key_types a lp) lp rp.
Proof using Hcj He.
  destruct Hcj, He as (? & ? & ? & ? & ?). split; rewrite ?length_types; try done; try congruence. by apply key_types_at.
Qed.

Lemma right_names_ok : [] ∉ map (name_at (column_names b)) (others rp (num_columns b)).
Proof using Hcj.
  intros (i & Hi & [_ Hin%elem_of_seq]%list_elem_of_filter)%list_elem_of_fmap.
  pose proof (cj_right_ok _ _ _ _ _ _ _ Hcj) as Hok. destruct (fok_names b Hok) as [_ Hne]. apply Hne.
  unfold name_at in Hi. destruct (lookup_lt_is_Some_2 (column_names b) i) as [x Hx]; [rewrite (fok_length b Hok); lia|].
  rewrite Hx in Hi. cbn in Hi. rewrite Hi. by eapply list_elem_of_lookup_2.
Qed.

Lemma name_list_ok : [] ∉ name_list a b rp.
Proof using Hcj.
  unfold name_list. rewrite elem_of_app. intros [Hin|Hin]; [|by apply right_names_ok].
  by destruct (fok_names a (cj_left_ok _ _ _ _ _ _ _ Hcj)) as [_ Hne].
Qed.

Lemma length_name_list : length (name_list a b rp) = length (type_list a b rp).
Proof using Hcj.
  unfold name_list, type_list. rewrite length_result_types, length_app, length_map, !length_types.
  by rewrite (fok_length a (cj_left_ok _ _ _ _ _ _ _ Hcj)).
Qed.

Lemma result_columns_ok : result_columns e = Ok (name_list a b rp, type_list a b rp).
Proof using Hcj He.
  destruct He as (<- & <- & _ & _ & Hm). unfold result_columns.
  rewrite (other_columns_ok e lp rp (num_columns (right_frame e)) Hm (cj_length _ _ _ _ _ _ _ Hcj) eq_refl).
  pose proof (cj_right_ok _ _ _ _ _ _ _ Hcj) as Hok.
  rewrite (outcome_map_ok _ (name_at (column_names (right_frame e)))).
  2:{ intros i [_ Hi%elem_of_seq]%list_elem_of_filter. unfold name_at.
    destruct (lookup_lt_is_Some_2 (column_names (right_frame e)) i) as [x ->]; [rewrite (fok_length _ Hok); lia|done]. }
  cbn [mbind outcome_bind].
  rewrite (outcome_map_ok _ (λ i, default UNDEFINED (column_types (right_frame e) !! i))).
  2:{ intros i [_ Hi%elem_of_seq]%list_elem_of_filter. unfold column_type, column_types. rewrite list_lookup_fmap.
    destruct (lookup_lt_is_Some_2 (columns (right_frame e)) i) as [x ->]; [unfold num_columns in Hi; lia|done]. }
  cbn [mbind outcome_bind]. unfold name_list, type_list, result_types. by rewrite length_types.
Qed.

Lemma type_list_some : type_list a b rp ≠ [].
Proof using Hcj.
  clear e He.
  intros Hnil. apply (f_equal length) in Hnil. unfold type_list in Hnil. rewrite length_result_types, !length_types in Hnil. cbn in Hnil.
  pose proof (cj_left_range _ _ _ _ _ _ _ Hcj) as Hr. pose proof (cj_some _ _ _ _ _ _ _ Hcj) as Hs.
  destruct lp as [|p ps]; [done|]. apply Forall_cons in Hr as [Hr _]. lia.
Qed.

(** The changed names are those the right frame has. *)
Definition remembers (changed : gmap nat name) (ns : list name) : Prop :=
  ∀ k p, others rp (num_columns b) !! k = Some p →
    default (default [] (ns !! (num_columns a + k)%nat)) (changed !! (num_columns a + k)%nat) = name_at (column_names b) p.

Lemma changed_ok ns : fill_column_names (length (name_list a b rp)) (name_list a b rp) [] = Ok ns → ∃ ch,
  outcome_map (changed_name ns (column_names b))
    (zip (seq (num_columns a) (length (others rp (num_columns b)))) (others rp (num_columns b))) = Ok ch ∧
  remembers (list_to_map (concat ch)) ns.
Proof using Hcj He.
  intros Hns. pose proof (cj_left_ok _ _ _ _ _ _ _ Hcj) as Ha. pose proof (cj_right_ok _ _ _ _ _ _ _ Hcj) as Hb.
  destruct (joined_names _ _ ns (fok_names a Ha) right_names_ok Hns) as (l & -> & Hl & Hk). rewrite length_map in Hl.
  pose proof (fok_length a Ha) as Hla. pose proof (fok_length b Hb) as Hlb.
  assert (Forall (λ p, (p < length (column_names b))%nat) (others rp (num_columns b))) as Hos.
  { apply Forall_forall. intros p [_ Hp%elem_of_seq]%list_elem_of_filter. lia. }
  destruct (changed_names_ok (column_names a ++ l) (column_names b) (others rp (num_columns b)) (num_columns a))
    as (ch & Hch & _ & Hlook); [rewrite length_app; lia|done|].
  exists ch. split; [done|]. intros k p Hp. rewrite Forall_forall in Hos. pose proof (Hos p (list_elem_of_lookup_2 _ _ _ Hp)) as Hpb.
  destruct (lookup_lt_is_Some_2 _ _ Hpb) as [old Hold]. destruct (lookup_lt_is_Some_2 l k) as [n Hn].
  { rewrite Hl. by eapply lookup_lt_Some. }
  assert ((column_names a ++ l) !! (num_columns a + k)%nat = Some n) as Hw.
  { rewrite lookup_app_r by lia. rewrite Hla. by replace (num_columns a + k - num_columns a)%nat with k by lia. }
  rewrite (Hlook k p n old Hp Hw Hold), Hw. unfold name_at. rewrite Hold. cbn [default].
  destruct (length n =? length old)%nat eqn:Heq; [|done]. apply Nat.eqb_eq in Heq. cbn. apply (Hk k); [|done..].
  rewrite list_lookup_fmap, Hp. cbn. unfold name_at. by rewrite Hold.
Qed.

Lemma init_result_frame_ok : (0 < cpu_count)%nat → ∃ w changed ns, init_result_frame cpu_count e = Ok (w, changed) ∧ w_names w = ns ∧
  fill_column_names (length (name_list a b rp)) (name_list a b rp) [] = Ok ns ∧ names_ok ns ∧ length ns = length (name_list a b rp) ∧
  (0 < w_segments w)%nat ∧ wrote (type_list a b rp) (w_segments w) w [] ∧
  (reverse_output_column_order e = true → remembers changed ns).
Proof using Hcj He.
  intros Hcpu. unfold init_result_frame. rewrite result_columns_ok. cbn [mbind outcome_bind fst snd].
  set (n := Nat.max _ _). assert (0 < n)%nat as Hn by (unfold n; nia).
  destruct (open_names_filled (name_list a b rp) (type_list a b rp) n name_list_ok length_name_list) as (w & ns & Hw & Hwn & Hok & Hlen & Hns).
  pose proof (open_for_write_holds _ _ _ _ _ Hw) as Hh. pose proof type_list_some as Hsome.
  assert (wrote (type_list a b rp) n w []) as Hwrote.
  { exists (replicate n []). split_and!; [by destruct (type_list a b rp)|apply length_replicate|]. clear. by induction n. }
  assert (w_segments w = n) as Hseg.
  { destruct Hwrote as (segs & Hs & <- & _). apply (holds_segments _ _ _ Hs). }
  rewrite Hw. cbn [mbind outcome_bind]. destruct (changed_ok ns Hns) as (ch & Hch & Hrem). clearbody n.
  destruct He as (<- & <- & _ & _ & Hm).
  rewrite (other_columns_ok e lp rp (num_columns (right_frame e)) Hm (cj_length _ _ _ _ _ _ _ Hcj) eq_refl).
  unfold changed_name in Hch. rewrite Hwn. destruct (reverse_output_column_order e).
  - rewrite Hch. cbn [mbind outcome_bind]. exists w, (list_to_map (concat ch)), ns. rewrite Hseg. by split_and!.
  - cbn [mbind outcome_bind]. exists w, (list_to_map (concat [])), ns. rewrite Hseg. by split_and!.
Qed.

Abbreviation out := (relational_join (left_join e) (right_join e) lp rp (num_columns a) (num_columns b) A B).

(** The rows are written, with completed names. *)
Lemma executor_writes : (∀ l, schedule l ≡ₚ l) → (0 < cpu_count)%nat → (0 < max_buffer_size e)%nat → ∃ w changed ns n,
  grace_hash_join hash hash64_combine schedule fuel cpu_count e =
    (if reverse_output_column_order e then swap_columns_back e changed (close w) else Ok (close w)) ∧
  w_names w = ns ∧ fill_column_names (length (name_list a b rp)) (name_list a b rp) [] = Ok ns ∧ names_ok ns ∧
  length ns = length (name_list a b rp) ∧ wrote (type_list a b rp) n w out ∧
  (reverse_output_column_order e = true → remembers changed ns).
Proof using Hcj He.
  intros Hsched Hcpu Hbuf. pose proof executor_positions as Hpos.
  destruct (init_result_frame_ok Hcpu) as (w & changed & ns & Hinit & Hwn & Hns & Hok & Hlen & Hn & Hw & Hrem).
  destruct He as (<- & <- & _ & _ & _). destruct Hcj as [H1 H2 H3 H4 H5 H6 H7 H8 H9 H10 H11 H12 H13 H14 H15].
  destruct (grace_hash_join_ok hash hash64_combine schedule fuel e _ _ _ lp rp Hpos Hsched A B H1 H2 H3 H4
    (keyed_rows _ _ _ H1 H3 H9 H12)) with (cpu_count := cpu_count) (w := w) (changed := changed) as (w' & Hj & Hn' & Hw'); try done.
  { pose proof (keyed_rows _ _ _ H2 H4 H10 H13) as Hk. by rewrite <- H11 in Hk. }
  exists w', changed, ns, (w_segments w). rewrite !length_types in Hw'. split_and!; try done. by rewrite Hn'.
Qed.

(** What is read from the result. *)
Lemma executor_result types n w rows : wrote types n w rows → names_ok (w_names w) → length (w_names w) = length types →
  frame_ok (close w) ∧ column_types (close w) = types ∧ ∃ rows', read_all (close w) = Ok rows' ∧ rows' ≡ₚ rows.
Proof using Type.
  intros (segs & Hh & _ & Hp) Hok Hlen. split_and!; [by eapply close_ok|by eapply close_types|].
  exists (concat segs). split; [by eapply close_rows|done].
Qed.
End executor.

(** ** The frame of a join *)

Record joined_frame (a b : sframe) (rp : list nat) (rows : list row) (sf : sframe) : Prop := JoinedFrame {
  jf_ok : frame_ok sf;
  jf_names : fill_column_names (length (name_list a b rp)) (name_list a b rp) [] = Ok (column_names sf);
  jf_types : column_types sf = type_list a b rp;
  jf_rows : ∃ rows', read_all sf = Ok rows' ∧ rows' ≡ₚ rows;
}.

Lemma straight_ok a b lp rp A B e : can_join fuel a b lp rp A B → executes e a b lp rp → reverse_output_column_order e = false →
  (∀ l, schedule l ≡ₚ l) → (0 < cpu_count)%nat → (0 < max_buffer_size e)%nat → ∃ sf,
  grace_hash_join hash hash64_combine schedule fuel cpu_count e = Ok sf ∧
  joined_frame a b rp (relational_join (left_join e) (right_join e) lp rp (num_columns a) (num_columns b) A B) sf.
Proof using Type.
  intros Hcj He Hrev Hsched Hcpu Hbuf.
  destruct (executor_writes a b lp rp A B e Hcj He Hsched Hcpu Hbuf) as (w & changed & ns & n & Hj & Hwn & Hns & Hok & Hlen & Hw & _).
  rewrite Hrev in Hj. exists (close w). split; [done|]. subst ns.
  destruct (executor_result _ _ _ _ Hw Hok) as (H1 & H2 & H3); [by rewrite Hlen, (length_name_list a b lp rp A B Hcj)|].
  split; try done.
Qed.

(** *** The exchanged frames *)

Section exchanged.
Context (lp rp : list nat) (nl nr : nat).
Context (Hlen : length rp = length lp) (Hlp : NoDup lp) (Hrp : NoDup rp).
Context (Hl : Forall (λ p, (p < nl)%nat) lp) (Hr : Forall (λ q, (q < nr)%nat) rp).

Lemma order_bound : Forall (λ j, (j < nl + length (others rp nr))%nat) (order lp rp nl nr).
Proof using Hl Hlen.
  set (N := (nl + length (others rp nr))%nat).
  pose proof (map_order lp rp nl nr Hlen (λ j, (j <? N)%nat) (λ _, true)) as Hmap.
  rewrite Forall_forall in Hl |- *. intros j Hj.
  assert ((j <? N)%nat ∈ map (λ j, (j <? N)%nat) (order lp rp nl nr)) as Hb by (by apply (list_elem_of_fmap_2 (λ j, (j <? N)%nat))).
  rewrite Hmap in Hb by (intros k p Hk%lookup_lt_Some; apply Nat.ltb_lt; unfold N; lia). apply Nat.ltb_lt.
  apply elem_of_app in Hb as [(p & Heq & _)%list_elem_of_fmap|(i & Heq & [_ Hi%elem_of_seq]%list_elem_of_filter)%list_elem_of_fmap]; cbn beta in Heq; rewrite Heq.
  - destruct (key_source lp rp p) as [i|] eqn:Hk; [|done]. apply key_source_Some, elem_of_zip_l, Hl in Hk.
    apply Nat.ltb_lt. unfold N. lia.
  - apply Nat.ltb_lt. unfold N. lia.
Qed.

Context (result : sframe) (rows : list row) (names ns : list name).
Context (Hok : frame_ok result) (Hn : num_columns result = (nl + length (others rp nr))%nat) (Hrows : read_all result = Ok rows).

Lemma order_columns : Forall2 (λ j c, columns result !! j = Some c) (order lp rp nl nr) (map (col result) (order lp rp nl nr)).
Proof using Hl Hlen Hn.
  apply Forall2_fmap_r, Forall_Forall2_diag. eapply Forall_impl; [apply order_bound|]. intros j Hj. by apply (col_lookup rp nl nr).
Qed.

(** The columns are put in their order with their names. *)
Lemma exchanged_frame : order lp rp nl nr ≠ [] → fill_column_names (length (order lp rp nl nr)) names [] = Ok ns → ∃ sf,
  create_arrays_for_reading (map (col result) (order lp rp nl nr)) names false = Ok sf ∧ frame_ok sf ∧ column_names sf = ns ∧
  columns sf = map (col result) (order lp rp nl nr) ∧ read_all sf = Ok (map (reorder lp rp nl nr) rows).
Proof using Hl Hlen Hn Hok Hrows.
  intros Hne Hns. pose proof order_columns as Hcols.
  assert (∀ c, c ∈ map (col result) (order lp rp nl nr) → c ∈ columns result) as Hin.
  { intros c [k Hk]%list_elem_of_lookup_1. destruct (Forall2_lookup_r _ _ _ _ _ Hcols Hk) as (j & _ & Hj). by eapply list_elem_of_lookup_2. }
  assert (create_arrays_for_reading (map (col result) (order lp rp nl nr)) names false =
    Ok (Frame true (map (col result) (order lp rp nl nr)) ns (nrows result))) as Hc.
  { apply created_ok; [by destruct (order lp rp nl nr)| |by rewrite length_map]. apply Forall_forall. intros c Hc%Hin.
    pose proof (fok_sizes _ Hok) as Hs. rewrite Forall_forall in Hs. by apply Hs. }
  eexists. split; [exact Hc|]. split_and!; [|done|done|].
  - apply make_frame_ok in Hc as [? _]; [done|]. apply Forall_forall. intros c Hc'%Hin.
    pose proof (fok_typed _ Hok) as Ht. rewrite Forall_forall in Ht. by apply Ht.
  - by apply (reordered_rows result rows _ (order lp rp nl nr)).
Qed.
End exchanged.

Lemma length_order lp rp nl nr : length rp = length lp → length (order lp rp nl nr) = (nr + length (others lp nl))%nat.
Proof using Type.
  intros Hlen. pose proof (f_equal length (map_order lp rp nl nr Hlen (λ _, tt) (λ _, tt) (λ _ _ _, eq_refl))) as H.
  by rewrite length_app, !length_map, length_seq in H.
Qed.

(** The types of the columns, in their order. *)
Lemma exchanged_types a b lp rp A B result : can_join fuel a b lp rp A B → column_types result = type_list b a lp →
  map (λ i, sa_type (col result i)) (order rp lp (num_columns b) (num_columns a)) = type_list a b rp.
Proof using Type.
  intros Hcj Ht. pose proof (cj_length _ _ _ _ _ _ _ Hcj) as Hlen.
  assert (∀ i, sa_type (col result i) = default UNDEFINED (type_list b a lp !! i)) as Hcol.
  { intros i. rewrite <- Ht. unfold col, column_types. rewrite list_lookup_fmap. by destruct (columns result !! i). }
  assert (∀ i, (i < num_columns b)%nat → sa_type (col result i) = default UNDEFINED (column_types b !! i)) as Hleft.
  { intros i Hi. rewrite Hcol. unfold type_list, result_types. by rewrite lookup_app_l by (rewrite length_types; lia). }
  rewrite (map_order rp lp _ _ (eq_sym Hlen) _ (λ p, default UNDEFINED (column_types a !! p))).
  - unfold type_list, result_types. rewrite length_types. f_equal.
    + apply list_eq. intros p. rewrite list_lookup_fmap. destruct (decide (p < num_columns a)%nat) as [Hp|Hp].
      2:{ rewrite lookup_seq_ge, lookup_ge_None_2 by (rewrite ?length_types; lia). done. }
      rewrite lookup_seq_lt by done. cbn. rewrite <- length_types in Hp. destruct (lookup_lt_is_Some_2 _ _ Hp) as [t Htp]. rewrite Htp. cbn.
      destruct (key_source rp lp p) as [i|] eqn:Hk; [|done]. apply key_source_Some, list_elem_of_lookup_1 in Hk as [k Hz].
      apply lookup_zip_Some in Hz as [Hi Hpk]. pose proof (f_equal (.!! k) (cj_types _ _ _ _ _ _ _ Hcj)) as Hkt.
      unfold key_types in Hkt. rewrite !list_lookup_fmap, Hi, Hpk in Hkt. injection Hkt as Hkt. rewrite Hleft, <- Hkt, Htp; [done|].
      pose proof (cj_right_range _ _ _ _ _ _ _ Hcj) as Hr. rewrite Forall_forall in Hr. by apply Hr, (list_elem_of_lookup_2 _ k).
    + apply map_ext_in. intros i [_ Hi%elem_of_seq]%list_elem_of_In%list_elem_of_filter. apply Hleft. lia.
  - intros k p Hk. rewrite Hcol. unfold type_list, result_types. rewrite lookup_app_r by (rewrite length_types; lia).
    rewrite !length_types. replace (num_columns b + k - num_columns b)%nat with k by lia. by rewrite list_lookup_fmap, Hk.
Qed.

Lemma exchanged_back a b lp rp A B e changed result l : can_join fuel a b lp rp A B → executes e b a rp lp →
  column_types result = type_list b a lp → column_names result = column_names b ++ l → remembers b a lp changed (column_names result) →
  swap_columns_back e changed result =
    create_arrays_for_reading (map (col result) (order rp lp (num_columns b) (num_columns a))) (name_list a b rp) false.
Proof using Type.
  intros Hcj (Hlf & Hrf & _ & _ & Hm) Ht Hnames Hrem. destruct Hcj as [H1 H2 H3 H4 H5 H6 H7 H8 H9 H10 H11 H12 H13 H14 H15].
  assert (num_columns result = (num_columns b + length (others lp (num_columns a)))%nat) as Hn.
  { rewrite <- length_types, Ht. unfold type_list. by rewrite length_result_types, !length_types. }
  rewrite (columns_back e rp lp (num_columns b) (num_columns a) Hm (eq_sym H5) H8 H7 H10 H9 (f_equal num_columns Hlf) (f_equal num_columns Hrf)
    result changed (column_names b) (column_names a)); try done.
  - unfold name_list. pose proof (names_at (column_names a)) as Ha. rewrite (fok_length a H1) in Ha.
    f_equal. f_equal. exact Ha.
  - intros i Hi. rewrite Hnames, lookup_app_l; [done|]. by rewrite (fok_length b H2).
  - apply (fok_length b H2).
  - by rewrite Hrf.
  - apply (fok_length a H1).
Qed.

Lemma exchanged_ok a b lp rp A B e : can_join fuel a b lp rp A B → executes e b a rp lp → reverse_output_column_order e = true →
  (∀ l, schedule l ≡ₚ l) → (0 < cpu_count)%nat → (0 < max_buffer_size e)%nat → ∃ sf,
  grace_hash_join hash hash64_combine schedule fuel cpu_count e = Ok sf ∧
  joined_frame a b rp (relational_join (right_join e) (left_join e) lp rp (num_columns a) (num_columns b) A B) sf.
Proof using Type.
  intros Hcj He Hrev Hsched Hcpu Hbuf. pose proof (can_join_sym _ _ _ _ _ _ _ Hcj) as Hcj'.
  destruct (executor_writes b a rp lp B A e Hcj' He Hsched Hcpu Hbuf) as (w & changed & ns & n & Hj & Hwn & Hns & Hok & Hlen & Hw & Hrem).
  rewrite Hrev in Hj. specialize (Hrem Hrev). rewrite <- Hwn in *. clear ns Hwn.
  destruct (executor_result _ _ _ _ Hw Hok) as (H1 & H2 & rows & Hrows & Hp); [by rewrite Hlen, (length_name_list b a rp lp B A Hcj')|].
  destruct (joined_names _ _ _ (fok_names b (cj_right_ok _ _ _ _ _ _ _ Hcj)) (right_names_ok b a rp lp B A Hcj') Hns) as (l & Hl & _).
  rewrite (exchanged_back a b lp rp A B e changed (close w) l) in Hj by done.
  assert (length (order rp lp (num_columns b) (num_columns a)) = length (name_list a b rp)) as Hlo.
  { rewrite length_order by (symmetry; apply (cj_length _ _ _ _ _ _ _ Hcj)). unfold name_list.
    by rewrite length_app, length_map, (fok_length a (cj_left_ok _ _ _ _ _ _ _ Hcj)). }
  destruct (fill_names_total (length (name_list a b rp)) (name_list a b rp) [] names_ok_nil) as (ns & Hns' & _).
  destruct Hcj as [G1 G2 G3 G4 G5 G6 G7 G8 G9 G10 G11 G12 G13 G14 G15] eqn:Hcjeq.
  destruct (exchanged_frame rp lp (num_columns b) (num_columns a) (eq_sym G5) G10 (close w) rows (name_list a b rp) ns H1) as (sf & Hsf & Hsfok & Hsn & Hsc & Hsr).
  { rewrite <- length_types, H2. unfold type_list. by rewrite length_result_types, !length_types. }
  { done. }
  { intros Hnil. apply (f_equal length) in Hnil. rewrite Hlo, (length_name_list a b lp rp A B Hcj) in Hnil. cbn in Hnil.
    apply length_zero_iff_nil in Hnil. by apply (type_list_some a b lp rp A B Hcj). }
  { by rewrite Hlo. }
  exists sf. rewrite Hsf in Hj. split; [done|]. split.
  - done.
  - by rewrite Hsn.
  - unfold column_types. rewrite Hsc, map_map. by apply (exchanged_types a b lp rp A B).
  - exists (map (reorder rp lp (num_columns b) (num_columns a)) rows). split; [done|]. rewrite Hp.
    apply relational_join_exchange; try done; by apply frame_row_length.
Qed.

(** ** [join] *)

Definition keeps_left (t : join_type_t) : bool := match t with LEFT_JOIN | FULL_JOIN => true | _ => false end.
Definition keeps_right (t : join_type_t) : bool := match t with RIGHT_JOIN | FULL_JOIN => true | _ => false end.

(** The positions of the columns that are named. *)
Definition named_at (sf : sframe) (names : list name) (ps : list nat) : Prop := Forall2 (λ n p, column_names sf !! p = Some n) names ps.

Lemma join_positions_ok a b cols lp rp : frame_ok a → frame_ok b → key_types a lp = key_types b rp →
  named_at a (map fst cols) lp → named_at b (map snd cols) rp →
  outcome_map (join_positions a b) cols = Ok (zip lp rp).
Proof using Type.
  intros Ha Hb. revert lp rp. induction cols as [|[x y] cols IH]; intros lp rp Hk Hl Hr.
  { apply Forall2_nil_inv_l in Hl, Hr. by subst. }
  cbn [map fst snd] in Hl, Hr. apply Forall2_cons_inv_l in Hl as (p & lp' & Hp & Hl & ->). apply Forall2_cons_inv_l in Hr as (q & rp' & Hq & Hr & ->).
  injection Hk as Hpq Hk. cbn [outcome_map zip zip_with].
  assert (join_positions a b (x, y) = Ok (p, q)) as ->; [|cbn [mbind outcome_bind]; by rewrite (IH lp' rp')].
  unfold join_positions. cbn [fst snd]. rewrite (column_index_ok a p x), (column_index_ok b q y) by done. cbn [mbind outcome_bind].
  destruct (named_column a p x Ha Hp) as [c Hc]. destruct (named_column b q y Hb Hq) as [d Hd].
  unfold column_types in Hpq. rewrite !list_lookup_fmap, Hc, Hd in Hpq. cbn in Hpq.
  unfold column_type. rewrite Hc, Hd. cbn [or_throw fmap outcome_fmap mbind outcome_bind].
  by rewrite bool_decide_eq_false_2 by (intros Hne; by apply Hne).
Qed.

Lemma make_executor_ok a b lp rp t mbs : length rp = length lp → NoDup lp → NoDup rp → ∃ e,
  make_executor a b lp rp t mbs = Ok e ∧ max_buffer_size e = mbs ∧
  (executes e a b lp rp ∧ reverse_output_column_order e = false ∧ left_join e = keeps_left t ∧ right_join e = keeps_right t ∨
   executes e b a rp lp ∧ reverse_output_column_order e = true ∧ left_join e = keeps_right t ∧ right_join e = keeps_left t).
Proof using Type.
  intros Hlen Hl Hr. unfold make_executor. destruct (get_num_cells b <? get_num_cells a)%nat; cbn [andb].
  - destruct (make_positions lp rp Hl (eq_sym Hlen)) as (m & Hm & Hmaps).
    destruct t; cbn [andb negb eqb]; rewrite Hlen, Nat.eqb_refl, Hm; cbn [mbind outcome_bind]; (eexists; split; [done|]; split; [done|]; right; done).
  - destruct (make_positions rp lp Hr Hlen) as (m & Hm & Hmaps).
    rewrite Hlen, Nat.eqb_refl, Hm. cbn [mbind outcome_bind]. eexists. split; [done|]. split; [done|]. by left; destruct t.
Qed.

Lemma join_ok a b jt t cols mbs lp rp A B : can_join fuel a b lp rp A B →
  named_at a (map fst cols) lp → named_at b (map snd cols) rp → parse_join_type jt = Ok t →
  (∀ l, schedule l ≡ₚ l) → (0 < cpu_count)%nat → (0 < mbs)%nat → ∃ sf,
  join hash hash64_combine schedule fuel cpu_count a b jt cols mbs = Ok sf ∧
  joined_frame a b rp (relational_join (keeps_left t) (keeps_right t) lp rp (num_columns a) (num_columns b) A B) sf.
Proof using Type.
  intros Hcj Hl Hr Ht Hsched Hcpu Hmbs. pose proof (cj_length _ _ _ _ _ _ _ Hcj) as Hlen. unfold join.
  rewrite (join_positions_ok a b cols lp rp) by (done || apply Hcj). cbn [mbind outcome_bind]. rewrite Ht. cbn [mbind outcome_bind].
  assert (map fst (zip lp rp) = lp) as -> by (apply fst_zip; lia). assert (map snd (zip lp rp) = rp) as -> by (apply snd_zip; lia).
  destruct (make_executor_ok a b lp rp t mbs Hlen) as (e & -> & He & [(Hex & Hrev & Hlj & Hrj)|(Hex & Hrev & Hlj & Hrj)]); [apply Hcj..| |];
    cbn [mbind outcome_bind]; rewrite <- He in Hmbs; rewrite <- Hlj, <- Hrj.
  - by apply straight_ok.
  - by apply exchanged_ok.
Qed.
End frames.
End JoinSpec.
