(* ===== verification/GroupFrame.v ===== *)
(** The group-by of a frame (sframe/groupby_aggregate.cpp): its checks, the columns it reads and
    the frame it writes, around the group-by of rows. The aggregators emit values of the types
    they announce, and the frame that is written has the groups of the rows. *)
From Stdlib Require Import String Ascii.
From stdpp Require Import sorting.
From S2P Require Import Prelude FlexType FlexOps QueryPlan QueryPlanSpec SFrame SFrameSpec DataframeSpec GroupAggregate GroupBy GroupBySpec GroupBySegment.
From S2P Require Import GroupKeySpec GroupAggregateSpec JoinAlgebraSpec JoinGraceSpec JoinColumnSpec.
Import FlexType FlexOps.
Import QueryPlan(SoftAssign).
Import SFrame(row, name, or_trap, sframe, num_columns, num_segments, contains_column, column_index, column_type, select_columns, next_free_name, ch_dot,
  get_reader_n, open_for_write, write_each, close).
Import GroupAggregate(group_aggregate_value, vector_sum, sum, min, max, argmin, argmax, count, non_null_count, vector_average, average, variance, stdv,
  zip_dict, zip_list, select_one, count_distinct, distinct, frequency_count, support_type, set_input_types).
Import GroupBy(group_descriptor, Descriptor, segment_information, Segment, chunks, add_rows, flush_segment, group_and_write_segment).
Local Open Scope Z_scope.
Local Open Scope sframe_scope.

Module GroupFrame.

Definition bytes (s : string) : name := map (λ c, Z.of_N (N_of_ascii c)) (list_ascii_of_string s).

Definition agg_name (v : group_aggregate_value) : name :=
  match v with
  | vector_sum _ _ _ => bytes "Vector Sum"
  | sum _ => bytes "Sum"
  | min _ _ => bytes "Min"
  | max _ _ => bytes "Max"
  | argmin _ _ => bytes "argmin"
  | argmax _ _ => bytes "argmax"
  | count _ | non_null_count _ => bytes "Count"
  | vector_average _ _ _ _ => bytes "Vector Avg"
  | average _ _ => bytes "Avg"
  | variance _ _ _ => bytes "Var"
  | stdv _ _ _ => bytes "Stdv"
  | zip_dict _ _ => bytes "Dict"
  | zip_list _ _ _ => bytes "List"
  | select_one _ _ => bytes "Select One"
  | count_distinct _ => bytes "Count Distinct"
  | distinct _ => bytes "Distinct"
  | frequency_count _ => bytes "Frequency Count"
  end.

Definition registered_arg_functions : list name := [bytes "argmax"; bytes "argmin"].

(** A [std::set] of strings is a sorted list. *)
Definition name_le (a b : name) : Prop := a = b ∨ string_lt a b = true.
#[global] Instance name_le_dec : RelDecision name_le.
Proof. intros a b. unfold name_le. apply _. Defined.
Definition name_set (l : list name) : list name := merge_sort name_le (remove_dups l).

(** A group: the columns and the operator. *)
Abbreviation group := (list name * group_aggregate_value)%type.

(** The names of the output columns are different, and not those of keys. *)
Definition check_output_names (keys output_column_names : list name) : outcome unit :=
  let named := filter (λ s, s ≠ []) output_column_names in
  if (length (name_set (keys ++ named)) =? length keys + length named)%nat then Ok tt else Throw.

Fixpoint check_columns (source : sframe) (columns : list name) : outcome unit :=
  match columns with
  | [] => Ok tt
  | c :: columns => if contains_column c (SFrame.column_names source) then check_columns source columns else Throw
  end.

(** The columns of a group exist, and have types that the operator supports: of [argmin] and
    [argmax] only the first one matters. *)
Fixpoint check_group (source : sframe) (index : nat) (columns : list name) (op : group_aggregate_value) : outcome unit :=
  match columns with
  | [] => Ok tt
  | c :: columns =>
      if negb (contains_column c (SFrame.column_names source)) then Throw
      else if contains_column (agg_name op) registered_arg_functions && (0 <? index)%nat then check_group source (S index) columns op
      else
        column_number ← column_index c source;
        t ← column_type column_number source;
        if support_type op t then check_group source (S index) columns op else Throw
  end.

Fixpoint check_groups (source : sframe) (groups : list group) : outcome unit :=
  match groups with
  | [] => Ok tt
  | g :: groups => _ ← check_group source 0 g.1 g.2; check_groups source groups
  end.

(** The sanity checks. *)
Definition check_groupby (source : sframe) (keys output_column_names : list name) (groups : list group) : outcome unit :=
  if negb (length output_column_names =? length groups)%nat then Throw else
  _ ← check_output_names keys output_column_names;
  _ ← check_columns source keys;
  _ ← check_groups source groups;
  if (length (name_set keys) =? length keys)%nat then Ok tt else Throw.

(** The columns that are read: the keys, then those of the groups. *)
Definition all_columns (keys : list name) (groups : list group) : list name :=
  name_set keys ++ filter (λ c, c ≠ [] ∧ c ∉ keys) (name_set (concat (map fst groups))).

(** The name of an output column that has none. *)
Definition root_candidate_name (g : group) : outcome name :=
  if contains_column (agg_name g.2) registered_arg_functions then
    match g.1 with
    | [a; b] => Ok (b ++ bytes " for " ++ agg_name g.2 ++ bytes " of " ++ a)
    | _ => Throw
    end
  else
    Ok (agg_name g.2 ++ foldl (λ root c, match root with [] => bytes " of " ++ c | _ => root ++ bytes "_" ++ c end) [] g.1).

Definition candidate_name (column_names : list name) (given : name) (g : group) : outcome name :=
  match given with
  | _ :: _ => Ok given
  | [] =>
      root ← root_candidate_name g;
      if contains_column root column_names
      then or_trap (next_free_name (S (length column_names)) 1 (root ++ [ch_dot]) column_names)
      else Ok root
  end.

(** The names and types of the output columns, and the operators, which know their types now. *)
Fixpoint output_columns (source : sframe) (output_column_names : list name) (groups : list group)
    (column_names : list name) (column_types : list flex_type_enum) : outcome (list name * list flex_type_enum * list group_aggregate_value) :=
  match groups, output_column_names with
  | [], _ => Ok (column_names, column_types, [])
  | _ :: _, [] => Trap
  | g :: groups, given :: output_column_names =>
      n ← candidate_name column_names given g;
      input_types ← outcome_map (λ c, i ← column_index c source; column_type i source) g.1;
      op ← set_input_types g.2 input_types;
      r ← output_columns source output_column_names groups (column_names ++ [n]) (column_types ++ [op.2]);
      Ok (r.1, op.1 :: r.2)
  end.

(** [define_group], with the numbers of the columns. *)
Fixpoint define_groups (frame : sframe) (groups : list group) (ops : list group_aggregate_value) : outcome (list group_descriptor) :=
  match groups, ops with
  | g :: groups, op :: ops =>
      column_numbers ← outcome_map (λ c, column_index c frame) g.1;
      ds ← define_groups frame groups ops; Ok (Descriptor column_numbers op :: ds)
  | _, _ => Ok []
  end.

Section groupby.
Context {SA : SoftAssign}.
Context (oob : Z → Z) (atof : list Z → Z) (hash : flexible_type → Z) (hash64_combine : Z → Z → Z).
(** The order in which the threads add the rows. *)
Context (schedule : list row → list row).

(** [container]: the rows that each segment of the output gets. *)
Definition grouped_rows (ds : list group_descriptor) (max_buffer_size nsegments num_keys : nat) (rows : list row)
    : outcome (list (list row)) :=
  segments ← add_rows oob atof hash hash64_combine ds max_buffer_size num_keys rows (replicate nsegments (Segment ∅ []));
  segments ← outcome_map (flush_segment hash hash64_combine) segments;
  or_throw (mapM (λ s, group_and_write_segment oob atof hash hash64_combine (chunks s)) segments).

Definition groupby_aggregate (cpu_count max_buffer_size : nat) (source : sframe) (keys output_column_names : list name) (groups : list group)
    : outcome sframe :=
  _ ← check_groupby source keys output_column_names groups;
  frame_with_relevant_cols ← select_columns (all_columns keys groups) source;
  key_types ← outcome_map (λ c, i ← column_index c source; column_type i source) (name_set keys);
  cols ← output_columns source output_column_names groups (name_set keys) key_types;
  let '(column_names, column_types, ops) := cols in
  let nsegments := Nat.max (num_segments frame_with_relevant_cols) (cpu_count * Nat.max 1 (Nat.log2 cpu_count)) in
  output ← open_for_write column_names column_types nsegments true;
  ds ← define_groups frame_with_relevant_cols groups ops;
  rows ← get_reader_n cpu_count frame_with_relevant_cols;
  outs ← grouped_rows ds max_buffer_size nsegments (length keys) (schedule (concat rows));
  output ← write_each (concat (imap (λ i rs, map (λ r, (i, r)) rs) outs)) output;
  Ok (close output).
End groupby.
End GroupFrame.

Module GroupTypesSpec.
Import GroupBySpec GroupAggregateSpec GroupAggregate GroupBy.
Import QueryPlanSpec(fits).

(** The state of an aggregator that was told the types of its columns and announced [t]. *)
Definition typed_state (types : list flex_type_enum) (t : flex_type_enum) (v : group_aggregate_value) : Prop :=
  let first := default INTEGER (head types) in
  match v with
  | vector_sum value _ _ | vector_average value _ _ _ => first = VECTOR ∧ t = VECTOR ∧ get_type value = VECTOR
  | sum value => (first = INTEGER ∨ first = FLOAT) ∧ t = first ∧ get_type value = first
  | min value init | max value init => t = first ∧ (init = true → fits t value)
  | argmin vec_value _ | argmax vec_value _ => types !! 1%nat = Some t ∧ (vec_value = [] ∨ Forall2 fits types vec_value)
  | count _ | non_null_count _ | count_distinct _ => t = INTEGER
  | average _ _ | variance _ _ _ | stdv _ _ _ => t = FLOAT
  | zip_dict _ _ | frequency_count _ => t = DICT
  | zip_list _ _ m_is_float => t = if m_is_float then VECTOR else LIST
  | select_one m_value m_has_value => t = first ∧ (m_has_value = true → fits t m_value)
  | distinct _ => t = LIST
  end.

(** The types of the values that an aggregator sees: without a column it is a number. *)
Definition input_types (types : list flex_type_enum) : list flex_type_enum :=
  match types with [] => [INTEGER] | _ => types end.

Lemma fits_type t v : fits t v → t ≠ UNDEFINED → is_null v = false → get_type v = t.
Proof. intros [?|[?|Hu]] Ht Hn; [done..|]. destruct v; done. Qed.

(** An aggregator that supports the type of its first column starts in such a state. *)
Lemma announced_state v types v' t : (∀ u, head types = Some u → support_type v u = true) →
  set_input_types v types = Ok (v', t) → typed_state (input_types types) t (new_instance v').
Proof.
  intros Hs. destruct types as [|u types]; [destruct v; try done; by intros [= <- <-]|].
  specialize (Hs u eq_refl). unfold support_type, is_one_of in Hs.
  destruct v; cbn in Hs |- *; rewrite ?bool_decide_eq_true, ?elem_of_cons, ?elem_of_nil in Hs;
    try (intros [= <- <-]; cbn; rewrite ?get_type_reset; intuition congruence).
  - destruct types; [done|]. intros [= <- <-]. cbn. auto.
  - destruct types; [done|]. intros [= <- <-]. cbn. auto.
  - case_bool_decide; by intros [= <- <-].
Qed.

Section types.
Context (oob : Z → Z) (atof : list Z → Z) (hash : flexible_type → Z).

Lemma vector_arithmetic x y z : get_type x = VECTOR →
  plus_equal_operator oob x y = Ok z ∨ minus_equal_operator oob x y = Ok z ∨ divide_equal_operator oob x y = Ok z →
  get_type z = VECTOR.
Proof.
  destruct x; try done. intros _. cbn [plus_equal_operator minus_equal_operator divide_equal_operator]. unfold vec_op.
  destruct y; try (by intros [?|[?|?]]); try (by intros [[= <-]|[[= <-]|[= <-]]]).
  case_match; [by intros [[= <-]|[[= <-]|[= <-]]]|by intros [?|[?|?]]].
Qed.

Lemma number_addition t x y z : t = INTEGER ∨ t = FLOAT → get_type x = t → get_type y = t →
  plus_equal_operator oob x y = Ok z → get_type z = t.
Proof. intros [->| ->] Hx Hy; destruct x, y; try done; by intros [= <-]. Qed.

(** A value of the type of the first column. *)
Lemma typed_add_simple types t y v w : fits (default INTEGER (head types)) y → typed_state types t v →
  add_element_simple oob atof hash y v = Ok w → typed_state types t w.
Proof.
  intros Hy Hv.
  destruct v as [x f i|x|x i|x i|x i|x i|n|n|x i f n|x n|n m M|n m M|m b|m b fl|x h|m|m|m];
    cbn [add_element_simple typed_state] in Hv |- *; try (by intros [= <-]); try done.
  - destruct Hv as (Hf & Ht & Hx). rewrite Hf in Hy. unfold vector_sum_add_element_simple.
    destruct (f || is_null y) eqn:Hn; [by intros [= <-]|]. apply orb_false_iff in Hn as [_ Hn].
    apply fits_type in Hy; [|done..]. destruct i; [|by intros [= <-]]. cbn. case_match; [by intros [= <-]|].
    intros (z & Hz & [= <-])%bind_Ok. cbn. split_and!; [done..|]. eapply vector_arithmetic; [exact Hx|by left].
  - destruct Hv as (Hf & Ht & Hx). unfold sum_add_element_simple. destruct (is_null y) eqn:Hn; [by intros [= <-]; cbn|].
    apply fits_type in Hy; [|by destruct Hf as [Hf|Hf]; rewrite Hf|done].
    intros (z & Hz & [= <-])%bind_Ok. cbn. split_and!; [done..|]. by apply (number_addition _ x y z).
  - destruct Hv as [-> Hx]. unfold min_add_element_simple. destruct (is_null y); [intros [= <-]; cbn; auto|].
    destruct i; cbn; [|intros [= <-]; cbn; auto]. intros (g & _ & [= <-])%bind_Ok; destruct g; cbn; auto.
  - destruct Hv as [-> Hx]. unfold max_add_element_simple. destruct (is_null y); [intros [= <-]; cbn; auto|].
    destruct i; cbn; [|intros [= <-]; cbn; auto]. intros (g & _ & [= <-])%bind_Ok; destruct g; cbn; auto.
  - destruct Hv as (Hf & Ht & Hx). rewrite Hf in Hy. unfold vector_average_add_element_simple.
    destruct (f || is_null y) eqn:Hn; [by intros [= <-]|]. apply orb_false_iff in Hn as [_ Hn].
    apply fits_type in Hy; [|done..]. destruct i; [|by intros [= <-]]. cbn. case_match; [by intros [= <-]|].
    intros (d & Hd & (q & Hq & (z & Hz & [= <-])%bind_Ok)%bind_Ok)%bind_Ok. cbn. split_and!; [done..|].
    eapply vector_arithmetic; [exact Hx|by left].
  - unfold average_add_element_simple. case_match; [by intros [= <-]|]. by intros (z & _ & [= <-])%bind_Ok.
  - by intros ([[n' m'] M'] & _ & [= <-])%bind_Ok.
  - by intros ([[n' m'] M'] & _ & [= <-])%bind_Ok.
  - unfold zip_list_add_element_simple. intros [= <-]. destruct (equals_undefined hash y); exact Hv.
  - destruct Hv as [-> Hx]. unfold select_one_add_element_simple. intros [= <-]. destruct h; cbn; auto.
Qed.

(** Values of the types of the columns. *)
Lemma typed_add types t xs v w : Forall2 fits types xs → typed_state types t v →
  add_inputs oob atof hash xs v = Ok w → typed_state types t w.
Proof.
  intros HF Hv. assert (∀ y, head xs = Some y → fits (default INTEGER (head types)) y) as Hy.
  { intros y. destruct HF as [|u y' types' xs' Hy _]; [done|]. by intros [= <-]. }
  destruct xs as [|y [|y2 xs]].
  - cbn. destruct v; try done; intros (x & Hx & _)%bind_Ok; by destruct HF.
  - apply typed_add_simple; [by apply Hy|done].
  - specialize (Hy y eq_refl). unfold add_inputs.
    destruct v as [x f i|x|x i|x i|vec i|vec i|n|n|x i f n|x n|n m M|n m M|m b|m b fl|x h|m|m|m];
      cbn [add_element]; try (by apply typed_add_simple; [exact Hy|exact Hv]).
    all: cbn [typed_state] in Hv |- *.
    + destruct Hv as [Ht Hvec]. unfold argmin_add_element. cbn. destruct (is_null y); [by intros [= <-]; cbn|].
      destruct i; cbn; [|intros [= <-]; cbn; auto]. intros (z & _ & (g & _ & [= <-])%bind_Ok)%bind_Ok. destruct g; cbn; auto.
    + destruct Hv as [Ht Hvec]. unfold argmax_add_element. cbn. destruct (is_null y); [by intros [= <-]; cbn|].
      destruct i; cbn; [|intros [= <-]; cbn; auto]. intros (z & _ & (g & _ & [= <-])%bind_Ok)%bind_Ok. destruct g; cbn; auto.
    + unfold zip_dict_add_element. cbn. destruct (is_null y); [by intros [= <-]|]. by intros (z & _ & [= <-])%bind_Ok.
Qed.

Lemma typed_fold types t l : ∀ v w, Forall (Forall2 fits types) l → typed_state types t v →
  fold_outcome (add_inputs oob atof hash) l v = Ok w → typed_state types t w.
Proof.
  induction l as [|xs l IH]; intros v w HF Hv; [by intros [= <-]|]. apply Forall_cons in HF as [Hxs HF]. cbn [fold_outcome].
  intros (u & Hu & Hw)%bind_Ok. apply (IH u); [done| |done]. by apply (typed_add types t xs v).
Qed.

(** What is emitted is of the announced type. *)
Lemma typed_emit types t v x : typed_state types t v → emit atof v = Ok x → fits t x.
Proof.
  assert (∀ vec, types !! 1%nat = Some t → vec = [] ∨ Forall2 fits types vec → argmin_emit vec = Ok x → fits t x) as Harg.
  { intros vec Ht [->|HF]; [intros [= <-]; right; by right|].
    destruct (Forall2_lookup_l _ _ _ _ _ HF Ht) as (y & Hy & Hfit). destruct vec as [|z vec]; [done|].
    unfold argmin_emit. rewrite Hy. by intros [= <-]. }
  destruct v as [y f i|y|y i|y i|vec i|vec i|n|n|y i f n|y n|n m M|n m M|m b|m b fl|y h|m|m|m]; cbn [typed_state emit];
    try (intros [Ht Hvec]; by apply Harg).
  all: unfold fits.
  all: try (intros -> [= <-]; right; by left).
  - intros (_ & -> & Hy) [= <-]. destruct f; auto.
  - intros (_ & -> & Hy) [= <-]. auto.
  - intros [_ Hy] [= <-]. destruct i; [by apply Hy|auto].
  - intros [_ Hy] [= <-]. destruct i; [by apply Hy|auto].
  - intros (_ & -> & Hy) [= <-]. destruct f; auto.
  - intros -> [= <-]. case_match; auto.
  - intros ->. unfold zip_list_emit. destruct fl; [|intros [= <-]; auto].
    destruct (outcome_map _ _); [|done..]. intros [= <-]. auto.
  - intros [_ Hy] [= <-]. destruct h; [by apply Hy|auto].
Qed.

(** An aggregator of a column that it supports gives values of the type it announced. *)
Lemma aggregate_typed v types v' t l w x : (∀ u, head types = Some u → support_type v u = true) →
  set_input_types v types = Ok (v', t) → Forall (Forall2 fits (input_types types)) l →
  aggregate oob atof hash v' l = Ok w → emit atof w = Ok x → fits t x.
Proof.
  intros Hs Hv HF Hw. apply (typed_emit (input_types types)).
  apply (typed_fold _ _ l (new_instance v') w HF); [by apply (announced_state v)|exact Hw].
Qed.
End types.
End GroupTypesSpec.

Module GroupFrameSpec.
Import GroupFrame GroupTypesSpec GroupBySpec GroupBySegment GroupKeySpec GroupAggregateSpec GroupLawsSpec SFrameSpec.
Import DataframeSpec(outcome_map_ok).
Import JoinNameSpec(reordered_rows).
Import JoinPartitionSpec(concat_cut).
Import QueryPlanSpec(fits).
Import SFrame(find_name, columns, sa_type, sarray, read_all, column_types, Frame, nrows, num_rows, cut).
Import GroupBy(inputs, column_value, column_numbers, aggregator, key, values).
Import GroupAggregate(emit).

(** ** Columns by name *)

Definition position (sf : sframe) (c : name) : nat := default 0%nat (find_name c (SFrame.column_names sf)).
Definition type_of (sf : sframe) (c : name) : flex_type_enum := default UNDEFINED (sa_type <$> columns sf !! position sf c).
Definition cell_of (sf : sframe) (r : row) (c : name) : flexible_type := cell r (position sf c).

Lemma position_lookup sf c : c ∈ SFrame.column_names sf → SFrame.column_names sf !! position sf c = Some c.
Proof. intros (i & Hi)%find_name_is_Some. unfold position. rewrite Hi. by apply find_name_lookup. Qed.

Lemma position_index sf c : c ∈ SFrame.column_names sf → column_index c sf = Ok (position sf c).
Proof. intros (i & Hi)%find_name_is_Some. unfold column_index, position. by rewrite Hi. Qed.

Lemma position_column sf c : frame_ok sf → c ∈ SFrame.column_names sf → ∃ s, columns sf !! position sf c = Some s ∧ sa_type s = type_of sf c.
Proof.
  intros Hok Hc%position_lookup. destruct (named_column sf _ _ Hok Hc) as [s Hs]. exists s. split; [done|].
  unfold type_of. by rewrite Hs.
Qed.

Lemma position_type sf c : frame_ok sf → c ∈ SFrame.column_names sf → column_type (position sf c) sf = Ok (type_of sf c).
Proof. intros Hok Hc. destruct (position_column sf c Hok Hc) as (s & Hs & <-). unfold column_type. by rewrite Hs. Qed.

Lemma types_by_name sf cs : frame_ok sf → (∀ c, c ∈ cs → c ∈ SFrame.column_names sf) →
  outcome_map (λ c, i ← column_index c sf; column_type i sf) cs = Ok (map (type_of sf) cs).
Proof. intros Hok Hcs. apply outcome_map_ok. intros c Hc%Hcs. rewrite position_index by done. by apply position_type. Qed.

(** The values of a column are of its type. *)
Lemma cell_typed sf r c : frame_ok sf → row_of (column_types sf) r → c ∈ SFrame.column_names sf → fits (type_of sf c) (cell_of sf r c).
Proof.
  intros Hok Hr Hc. destruct (position_column sf c Hok Hc) as (s & Hs & <-).
  assert (column_types sf !! position sf c = Some (sa_type s)) as Ht by (unfold column_types; by rewrite list_lookup_fmap, Hs).
  destruct (Forall2_lookup_l _ _ _ _ _ Hr Ht) as (v & Hv & Hf). unfold cell_of, cell. by rewrite Hv.
Qed.

(** The columns that are selected, in their order. *)
Lemma selected sf cs rows : frame_ok sf → read_all sf = Ok rows → cs ≠ [] → NoDup cs →
  (∀ c, c ∈ cs → c ∈ SFrame.column_names sf) → ∃ sel,
    select_columns cs sf = Ok sel ∧ frame_ok sel ∧ SFrame.column_names sel = cs ∧ columns sel ≠ [] ∧
    read_all sel = Ok (map (λ r, map (cell_of sf r) cs) rows).
Proof.
  intros Hok Hrows Hne Hnd Hin.
  destruct (outcome_map_total (λ n, i ← column_index n sf; or_trap (columns sf !! i))
    (λ n s, columns sf !! position sf n = Some s) cs) as (ss & Hss & HF).
  { apply Forall_forall. intros c Hc%Hin. destruct (position_column sf c Hok Hc) as (s & Hs & _). exists s.
    rewrite position_index by done. cbn. by rewrite Hs. }
  pose proof (fok_sizes sf Hok) as Hsz. pose proof (Forall2_length _ _ _ HF) as Hl.
  assert (select_columns cs sf = Ok (Frame true ss cs (nrows sf))) as Hsel.
  { unfold select_columns. rewrite Hss. apply make_frame_names; [|done| |by destruct cs, ss].
    - split; [done|]. intros Hn%Hin. by apply (fok_names sf Hok).
    - apply Forall_lookup. intros i s Hi. destruct (Forall2_lookup_r _ _ _ _ _ HF Hi) as (c & _ & Hc). by eapply Forall_lookup_1 in Hsz. }
  exists (Frame true ss cs (nrows sf)). split_and!; [done|by eapply select_columns_ok|done|by destruct cs, ss|].
  rewrite (reordered_rows sf rows _ (map (position sf) cs)); [|done|done|done|by apply Forall2_fmap_l].
  f_equal. apply map_ext. intros r. by rewrite map_map.
Qed.

(** The pieces of a reader, one after the other. *)
Lemma even_pieces sf n rows : frame_ok sf → columns sf ≠ [] → (0 < n)%nat → read_all sf = Ok rows → ∃ pieces,
  get_reader_n n sf = Ok pieces ∧ concat pieces = rows.
Proof.
  intros Hok Hne Hn Hrows. unfold get_reader_n. rewrite (fok_inited sf Hok), Hrows. destruct (columns sf); [done|].
  rewrite (proj2 (Nat.ltb_lt _ _)) by done. eexists. split; [done|]. rewrite concat_cut.
  destruct (frame_rows_ok sf Hok) as (rows' & Hrows' & Hl & _). rewrite Hrows in Hrows'. injection Hrows' as <-.
  rewrite frame_rows by done. rewrite take_ge; [done|]. rewrite Hl. set (N := nrows sf).
  assert (∀ k, sum_list (map (λ i, (S i * N) / n - (i * N) / n)%nat (seq 0 k)) = (k * N) / n)%nat as Hk.
  { induction k as [|k IH]; [cbn; symmetry; apply Nat.Div0.div_0_l|]. rewrite seq_S, map_app, sum_list_with_app. cbn [map].
    rewrite IH. cbn. enough (k * N / n ≤ (N + k * N) / n)%nat by lia. apply Nat.Div0.div_le_mono. lia. }
  rewrite Hk, Nat.mul_comm, Nat.div_mul by lia. done.
Qed.
(** ** The checks *)

Lemma name_set_permutation l : name_set l ≡ₚ remove_dups l.
Proof. apply merge_sort_Permutation. Qed.

Lemma name_set_elem c l : c ∈ name_set l ↔ c ∈ l.
Proof. by rewrite name_set_permutation, elem_of_remove_dups. Qed.

Lemma name_set_NoDup l : NoDup (name_set l).
Proof. rewrite name_set_permutation. apply NoDup_remove_dups. Qed.

(** A group whose columns exist, the first of a type that the operator supports. *)
Definition group_fits (sf : sframe) (g : group) : Prop :=
  (∀ c, c ∈ g.1 → c ∈ SFrame.column_names sf) ∧ ∀ c, head g.1 = Some c → support_type g.2 (type_of sf c) = true.

Record checked (sf : sframe) (keys output_column_names : list name) (groups : list group) : Prop := Checked {
  ck_outputs : length output_column_names = length groups;
  ck_keys c : c ∈ keys → c ∈ SFrame.column_names sf;
  ck_groups : Forall (group_fits sf) groups;
  ck_distinct : length (name_set keys) = length keys;
}.

Lemma check_columns_ok sf cs : check_columns sf cs = Ok tt → ∀ c, c ∈ cs → c ∈ SFrame.column_names sf.
Proof.
  induction cs as [|c cs IH]; intros H x Hx; [by apply elem_of_nil in Hx|]. cbn in H.
  destruct (contains_column c (SFrame.column_names sf)) eqn:Hc; [|done]. apply contains_column_spec in Hc.
  apply elem_of_cons in Hx as [->|Hx]; [done|by apply IH].
Qed.

Lemma check_group_ok sf op : frame_ok sf → ∀ cs i, check_group sf i cs op = Ok tt →
  (∀ c, c ∈ cs → c ∈ SFrame.column_names sf) ∧
  (i = 0%nat → ∀ c, head cs = Some c → support_type op (type_of sf c) = true).
Proof.
  intros Hok. induction cs as [|c cs IH]; intros i H; [split; [by intros c ?%elem_of_nil|done]|]. cbn in H.
  destruct (contains_column c (SFrame.column_names sf)) eqn:Hc; [|done]. apply contains_column_spec in Hc. cbn in H.
  destruct (contains_column (agg_name op) _ && _) eqn:Hi.
  - apply IH in H as [H _]. split; [by intros x [->|?]%elem_of_cons; [|apply H]|]. intros ->. cbn in Hi.
    by rewrite andb_false_r in Hi.
  - rewrite position_index in H by done. cbn in H. rewrite position_type in H by done. cbn in H.
    destruct (support_type op (type_of sf c)) eqn:Hs; [|done]. apply IH in H as [H _].
    split; [by intros x [->|?]%elem_of_cons; [|apply H]|]. by intros _ x [= <-].
Qed.

Lemma check_groups_ok sf groups : frame_ok sf → check_groups sf groups = Ok tt → Forall (group_fits sf) groups.
Proof.
  intros Hok. induction groups as [|g groups IH]; [constructor|]. intros ([] & Hg & H)%bind_Ok. constructor; [|by apply IH].
  apply check_group_ok in Hg as [? ?]; [|done]. split; auto.
Qed.

Lemma check_groupby_ok sf keys onames groups : frame_ok sf → check_groupby sf keys onames groups = Ok tt →
  checked sf keys onames groups.
Proof.
  intros Hok. unfold check_groupby. destruct (Nat.eqb_spec (length onames) (length groups)) as [Hl|]; [|done]. cbn [negb].
  intros (? & _ & ([] & Hk & ([] & Hg & H)%bind_Ok)%bind_Ok)%bind_Ok.
  destruct (Nat.eqb_spec (length (name_set keys)) (length keys)); [|done].
  split; [done|by apply check_columns_ok|by apply check_groups_ok|done].
Qed.

(** ** The columns that are read, and those that are written *)

Lemma all_columns_elem sf keys onames groups c : checked sf keys onames groups → c ∈ all_columns keys groups → c ∈ SFrame.column_names sf.
Proof.
  intros Hck. unfold all_columns. rewrite elem_of_app, list_elem_of_filter, !name_set_elem.
  intros [Hc|[_ Hc]]; [by apply (ck_keys _ _ _ _ Hck)|]. apply elem_of_concat in Hc as (i & cs & Hi & Hc).
  rewrite list_lookup_fmap in Hi. apply fmap_Some in Hi as (g & Hg & ->).
  destruct (proj1 (Forall_lookup _ _) (ck_groups _ _ _ _ Hck) i g Hg) as [Hin _]. by apply Hin.
Qed.

Lemma all_columns_NoDup keys groups : NoDup (all_columns keys groups).
Proof.
  apply NoDup_app. split_and!; [apply name_set_NoDup| |apply NoDup_filter, name_set_NoDup].
  intros c Hc [[_ Hn] _]%list_elem_of_filter. by apply Hn, (name_set_elem c keys).
Qed.

Lemma group_column sf keys groups g c : [] ∉ SFrame.column_names sf → g ∈ groups → group_fits sf g → c ∈ g.1 → c ∈ all_columns keys groups.
Proof.
  intros Hne Hg [Hin _] Hc. unfold all_columns. rewrite elem_of_app, list_elem_of_filter, !name_set_elem.
  destruct (decide (c ∈ keys)) as [|Hk]; [by left|right]. split.
  - split; [|done]. intros ->. by apply Hne, Hin.
  - apply list_elem_of_lookup in Hg as [i Hi]. apply elem_of_concat. exists i, g.1. by rewrite list_lookup_fmap, Hi.
Qed.

(** Each group has a column, of the type that its operator announces. *)
Lemma output_columns_ok sf : frame_ok sf → ∀ groups onames names types names' types' ops, Forall (group_fits sf) groups →
  output_columns sf onames groups names types = Ok (names', types', ops) → ∃ ns outs,
    names' = names ++ ns ∧ types' = types ++ map snd outs ∧ ops = map fst outs ∧ length ns = length outs ∧
    Forall2 (λ g o, set_input_types g.2 (map (type_of sf) g.1) = Ok o) groups outs.
Proof.
  intros Hok. induction groups as [|g groups IH]; intros [|given onames] names types names' types' ops HF; cbn [output_columns];
    try (intros [= <- <- <-]; exists [], []; by rewrite !app_nil_r); try done.
  apply Forall_cons in HF as [Hg HF]. intros (n & _ & H)%bind_Ok.
  apply bind_Ok in H as (ts & Hts & H). rewrite types_by_name in Hts by (done || apply Hg). injection Hts as <-.
  apply bind_Ok in H as (o & Ho & H). apply bind_Ok in H as ([[names1 types1] ops1] & H1 & [= <- <- <-]).
  destruct (IH _ _ _ _ _ _ HF H1) as (ns & outs & -> & -> & -> & Hl & Ho'). exists (n :: ns), (o :: outs).
  split_and!; [by rewrite <- app_assoc|by rewrite <- app_assoc|done|cbn; congruence|by constructor].
Qed.

(** ** What the group-by of rows sees of a row of the frame *)

Definition key_of (sf : sframe) (keys : list name) (r : row) : list flexible_type := map (cell_of sf r) (name_set keys).
Definition group_inputs (sf : sframe) (g : group) (r : row) : list flexible_type :=
  match g.1 with [] => [FInt 0] | cs => map (cell_of sf r) cs end.
Definition first_type (sf : sframe) (g : group) : flex_type_enum :=
  match g.1 with [] => INTEGER | c :: _ => type_of sf c end.

(** The rows of a key. *)
Definition rows_with (sf : sframe) (keys : list name) (k : list flexible_type) (rows : list row) : list row :=
  filter (λ r, key_of sf keys r = k) rows.

(** A row whose key is plain and whose values suit the operators. *)
Definition groupable (sf : sframe) (keys : list name) (groups : list group) (ops : list group_aggregate_value) (r : row) : Prop :=
  Forall plain (key_of sf keys r) ∧ Forall2 (λ g op, valid_input (first_type sf g) op (group_inputs sf g r)) groups ops.

#[global] Instance groupable_dec sf keys groups ops r : Decision (groupable sf keys groups ops r).
Proof. unfold groupable. apply _. Defined.

Definition descriptor (sel : sframe) (g : group) (op : group_aggregate_value) : group_descriptor :=
  Descriptor (map (position sel) g.1) op.

Lemma define_groups_ok sel groups : ∀ ops, length ops = length groups →
  Forall (λ g : group, ∀ c, c ∈ g.1 → c ∈ SFrame.column_names sel) groups →
  define_groups sel groups ops = Ok (zip_with (descriptor sel) groups ops).
Proof.
  induction groups as [|g groups IH]; intros [|op ops] Hl HF; try done. apply Forall_cons in HF as [Hg HF]. cbn [define_groups].
  rewrite (outcome_map_ok _ (position sel)) by (intros c Hc; by apply position_index, Hg). cbn [mbind outcome_bind].
  by rewrite (IH ops) by (done || by injection Hl).
Qed.

Lemma inputs_by_name sf sel g op r : (∀ c, c ∈ g.1 → c ∈ SFrame.column_names sel) →
  inputs (descriptor sel g op) (map (cell_of sf r) (SFrame.column_names sel)) = group_inputs sf g r.
Proof.
  intros Hin. unfold inputs, group_inputs, descriptor. cbn [column_numbers]. destruct g as [[|c0 cs] op0]; [done|]. cbn [fst] in *.
  change (map (column_value (map (cell_of sf r) (SFrame.column_names sel))) (map (position sel) (c0 :: cs)) = map (cell_of sf r) (c0 :: cs)).
  rewrite map_map. apply map_ext_in. intros c Hc%list_elem_of_In%Hin%position_lookup. unfold column_value.
  by rewrite list_lookup_fmap, Hc.
Qed.

Lemma inputs_valid sf sel r groups ops : (∀ g, g ∈ groups → ∀ c, c ∈ g.1 → c ∈ SFrame.column_names sel) →
  Forall2 (λ g op, valid_input (first_type sf g) op (group_inputs sf g r)) groups ops →
  Forall2 (λ t d, valid_input t (aggregator d) (inputs d (map (cell_of sf r) (SFrame.column_names sel))))
    (map (first_type sf) groups) (zip_with (descriptor sel) groups ops).
Proof.
  intros Hin HF. induction HF as [|g op groups ops Hg _ IH]; [constructor|]. cbn. constructor.
  - rewrite inputs_by_name by (apply Hin; left). done.
  - apply IH. intros g' Hg'. apply Hin. by right.
Qed.

Lemma filter_map {A B} (f : A → B) (P : B → Prop) `{∀ x, Decision (P x)} l : filter P (map f l) = map f (filter (λ x, P (f x)) l).
Proof.
  induction l as [|x l IH]; [done|]. cbn [map]. rewrite !filter_cons. destruct (decide (P (f x))); [|done]. cbn. by rewrite IH.
Qed.

(** ** The rows of the groups *)

Section grouped.
Context (oob : Z → Z) (atof : list Z → Z) (hash : flexible_type → Z) (hash64_combine : Z → Z → Z).

Lemma grouped_rows_ok num_keys types ds max_buffer_size n rows :
  (0 < n)%nat → Forall (λ d, combinable (aggregator d)) ds → Forall (valid_row num_keys types ds) rows → ∃ outs ks,
    grouped_rows oob atof hash hash64_combine ds max_buffer_size n num_keys rows = Ok outs ∧ length outs = n ∧ NoDup ks ∧
    (∀ k, k ∈ ks ↔ k ∈ (take num_keys <$> rows)) ∧
    Forall2 (λ k r, ∃ xs, r = k ++ xs ∧ Forall2 (λ d x,
      (w ← aggregate oob atof hash (aggregator d) (inputs d <$> with_key num_keys k rows); emit atof w) = Ok x) ds xs)
      ks (concat outs).
Proof.
  intros Hn Hds HV. pose proof (group_laws oob atof hash num_keys types ds Hds) as HL. unfold grouped_rows.
  destruct (add_rows_ok oob atof hash hash64_combine ds num_keys (plain_key num_keys) (valid_row num_keys types ds) max_buffer_size rows
    (replicate n (Segment ∅ [])) []) as (segs & -> & Hl & Hs); [by rewrite length_replicate|done|apply segments_start|].
  rewrite length_replicate in Hl. cbn [app mbind outcome_bind] in *.
  destruct (flush_segments_ok oob atof hash hash64_combine ds num_keys (plain_key num_keys) (valid_row num_keys types ds) segs rows HV Hs)
    as (segs' & -> & Hl' & Hs'). cbn [mbind outcome_bind].
  destruct (write_segments_ok oob atof hash hash64_combine ds num_keys (plain_key num_keys) (valid_row num_keys types ds) n rows HV segs' 0%nat)
    as (outs & ks & Hout & HF & Hnd & Hks); [by rewrite <- Hl|].
  exists outs, ks. rewrite Hout. split_and!; [done|apply length_mapM in Hout; congruence|done| |].
  - intros k. rewrite Hks. split; [by intros [? _]|]. intros Hk. split; [done|]. apply list_elem_of_fmap in Hk as (r & -> & _).
    pose proof (target_lt hash hash64_combine num_keys n r Hn). cbn. lia.
  - eapply Forall2_impl; [done|]. intros k r Hr. eapply group_result_values; [exact Hds| |exact Hr]. by apply Forall_filter_keep.
Qed.
End grouped.

(** ** The frame of the groups *)

Lemma segmented_rows (outs : list (list row)) : ∀ (h : nat → nat) n, (∀ i, (i < length outs)%nat → (h i < n)%nat) →
  map snd (concat (imap (λ i rs, map (λ r, (h i, r)) rs) outs)) = concat outs ∧
  Forall (λ sr, (sr.1 < n)%nat) (concat (imap (λ i rs, map (λ r, (h i, r)) rs) outs)).
Proof.
  induction outs as [|rs outs IH]; intros h n Hh; [done|]. rewrite imap_cons. cbn [concat].
  destruct (IH (λ i, h (S i)) n) as [IH1 IH2]; [intros i Hi; apply Hh; cbn; lia|]. unfold compose. rewrite map_app, map_map, Forall_app. cbn [snd].
  rewrite map_id. split_and!; [by f_equal| |done]. apply Forall_fmap, Forall_true. intros r. apply (Hh 0%nat). cbn. lia.
Qed.

Section frame.
Context {SA : SoftAssign}.

Lemma segments_written names types outs : names_ok names → length names = length types → types ≠ [] →
  Forall (row_of types) (concat outs) → ∃ w w',
    open_for_write names types (length outs) true = Ok w ∧
    write_each (concat (imap (λ i rs, map (λ r, (i, r)) rs) outs)) w = Ok w' ∧
    frame_ok (close w') ∧ SFrame.column_names (close w') = names ∧ column_types (close w') = types ∧
    ∃ out, read_all (close w') = Ok out ∧ out ≡ₚ concat outs.
Proof.
  intros Hnames Hl Hne Hrows. set (ws := concat _).
  assert (map snd ws = concat outs ∧ Forall (λ sr, (sr.1 < length outs)%nat) ws) as [Hsnd Hlt] by (by apply (segmented_rows outs id)).
  destruct (open_names_ok names types (length outs) true Hnames Hl) as (w & Hw & Hwn).
  pose proof (open_for_write_holds _ _ _ _ _ Hw) as Hh.
  assert (match types with [] => [] | _ => replicate (length outs) (@nil row) end = replicate (length outs) []) as Hm by by destruct types.
  rewrite Hm in Hh. destruct (write_each_holds types ws ws _ w Hh) as (w' & Hw' & Hn' & Hh').
  { rewrite length_replicate. apply written_same. apply Forall_forall. intros [i r] Hin. rewrite Forall_forall in Hlt. rewrite Forall_forall in Hrows.
    split; [exact (Hlt _ Hin)|]. apply Hrows. rewrite <- Hsnd. apply (list_elem_of_fmap_2 snd _ (i, r) Hin). }
  exists w, w'. split_and!; [done..| | | |].
  - eapply close_ok; [done|by rewrite Hn', Hwn|by rewrite Hn', Hwn].
  - cbn. by rewrite Hn'.
  - by eapply close_types.
  - eexists. split; [by eapply close_rows|]. rewrite puts_permutation, Hsnd by by rewrite length_replicate.
    assert (∀ n, concat (replicate n (@nil row)) = []) as -> by (induction n; done). done.
Qed.
End frame.

(** ** What is emitted is of the types of the columns *)

Abbreviation announced := (list (group_aggregate_value * flex_type_enum)).

Lemma group_inputs_typed sf g r : frame_ok sf → row_of (column_types sf) r → (∀ c, c ∈ g.1 → c ∈ SFrame.column_names sf) →
  Forall2 fits (input_types (map (type_of sf) g.1)) (group_inputs sf g r).
Proof.
  intros Hok Hr Hin. unfold group_inputs. destruct g as [[|c cs] op]; [constructor; [right; by left|constructor]|].
  cbn [fst] in *. change (Forall2 fits (map (type_of sf) (c :: cs)) (map (cell_of sf r) (c :: cs))).
  apply Forall2_fmap, Forall_Forall2_diag, Forall_forall. intros x Hx. by apply cell_typed; [| |apply Hin].
Qed.

Lemma emitted_typed oob atof hash sf l : frame_ok sf → Forall (row_of (column_types sf)) l → ∀ groups (outs : announced),
  Forall2 (λ g o, set_input_types g.2 (map (type_of sf) g.1) = Ok o) groups outs → ∀ xs, Forall (group_fits sf) groups →
  Forall2 (λ go x, (w ← aggregate oob atof hash go.2 (group_inputs sf go.1 <$> l); emit atof w) = Ok x) (zip groups (map fst outs)) xs →
  Forall2 fits (map snd outs) xs.
Proof.
  intros Hok Hl groups outs HF. induction HF as [|g o groups outs Ho _ IH]; intros xs Hg HX; inversion HX as [|? x ? xs' Hx HX']; subst; [constructor|].
  apply Forall_cons in Hg as [[Hin Hs] Hg]. constructor; [|by apply IH]. cbn [fst snd] in Hx. apply bind_Ok in Hx as (w & Hw & Hx).
  destruct o as [op t]. eapply (aggregate_typed oob atof hash g.2 (map (type_of sf) g.1)); [|exact Ho| |exact Hw|exact Hx].
  - intros u Hu. destruct g as [[|c cs] op0]; [done|]. injection Hu as <-. by apply Hs.
  - apply Forall_fmap. eapply Forall_impl; [exact Hl|]. intros r Hr. by apply group_inputs_typed.
Qed.

(** ** Requests *)

(** A group-by of a frame that passes the checks, whose output columns have names, of operators
    that combine, and of rows they suit. *)
Record groupby_request (sf : sframe) (keys onames : list name) (groups : list group) (names : list name)
    (types : list flex_type_enum) (ops : list group_aggregate_value) (rows : list row) : Prop := Request {
  gr_frame : frame_ok sf;
  gr_rows : read_all sf = Ok rows;
  gr_checks : check_groupby sf keys onames groups = Ok tt;
  gr_columns : output_columns sf onames groups (name_set keys) (map (type_of sf) (name_set keys)) = Ok (names, types, ops);
  gr_names : names_ok names;
  gr_read : all_columns keys groups ≠ [];
  gr_combinable : Forall combinable ops;
  gr_values : Forall (groupable sf keys groups ops) rows;
}.

(** The rows of the result: each key of the rows once, with what the operators of the groups give
    for the values of its rows. *)
Definition groups_of (oob : Z → Z) (atof : list Z → Z) (hash : flexible_type → Z) (sf : sframe) (keys : list name)
    (groups : list group) (ops : list group_aggregate_value) (rows : list row) (out : list row) : Prop :=
  ∃ ks, NoDup ks ∧ (∀ k, k ∈ ks ↔ k ∈ (key_of sf keys <$> rows)) ∧
    Forall2 (λ k r, ∃ xs, r = k ++ xs ∧ Forall2 (λ go x,
      (w ← aggregate oob atof hash go.2 (group_inputs sf go.1 <$> rows_with sf keys k rows); emit atof w) = Ok x)
      (zip groups ops) xs) ks out.

Lemma groups_permuted oob atof hash sf keys groups ops rows out out' : out ≡ₚ out' →
  groups_of oob atof hash sf keys groups ops rows out → groups_of oob atof hash sf keys groups ops rows out'.
Proof.
  intros Hp (ks & Hnd & Hks & HF). apply Forall2_flip in HF. destruct (Permutation_Forall2 Hp HF) as (ks' & Hp' & HF').
  exists ks'. split_and!; [by rewrite <- Hp'|intros k; by rewrite <- Hp'|by apply Forall2_flip].
Qed.

Section request.
Context (oob : Z → Z) (atof : list Z → Z) (hash : flexible_type → Z) (hash64_combine : Z → Z → Z).
Context (sf : sframe) (keys onames : list name) (groups : list group) (names : list name) (types : list flex_type_enum).
Context (ops : list group_aggregate_value) (rows : list row).
Context (HR : groupby_request sf keys onames groups names types ops rows).

Abbreviation read := (all_columns keys groups).
Abbreviation project := (λ r, map (cell_of sf r) read).

Lemma request_checked : checked sf keys onames groups.
Proof using HR. apply check_groupby_ok; apply HR. Qed.

Lemma key_projected r : take (length keys) (project r) = key_of sf keys r.
Proof using HR.
  rewrite <- (ck_distinct _ _ _ _ request_checked). unfold all_columns, key_of. rewrite map_app.
  apply take_app_length'. by rewrite length_map.
Qed.

Lemma groups_read g : g ∈ groups → ∀ c, c ∈ g.1 → c ∈ read.
Proof using HR.
  intros Hg c Hc. pose proof (ck_groups _ _ _ _ request_checked) as HF. rewrite Forall_forall in HF.
  eapply (group_column sf); [apply (fok_names sf (gr_frame _ _ _ _ _ _ _ _ HR))|done|by apply HF|done].
Qed.

Lemma rows_with_projected k rs : with_key (length keys) k (map project rs) = map project (rows_with sf keys k rs).
Proof using HR.
  unfold with_key, rows_with. rewrite filter_map. f_equal. apply list_filter_iff. intros r. by rewrite key_projected.
Qed.

(** What each group announced. *)
Lemma request_columns : ∃ outs : announced, types = map (type_of sf) (name_set keys) ++ map snd outs ∧ ops = map fst outs ∧
  length names = length types ∧ Forall2 (λ g o, set_input_types g.2 (map (type_of sf) g.1) = Ok o) groups outs.
Proof using HR.
  destruct (output_columns_ok sf (gr_frame _ _ _ _ _ _ _ _ HR) groups onames _ _ _ _ _ (ck_groups _ _ _ _ request_checked) (gr_columns _ _ _ _ _ _ _ _ HR))
    as (ns & outs & Hn & Ht & Ho & Hl & HF).
  exists outs. split_and!; [done..| |done]. rewrite Hn, Ht, !length_app, !length_map. lia.
Qed.

Lemma request_types : types ≠ [].
Proof using HR.
  destruct request_columns as (outs & Ht & _ & _ & HF). pose proof (gr_read _ _ _ _ _ _ _ _ HR) as Hr. unfold all_columns in Hr.
  rewrite Ht. intros [Hk Ho]%app_eq_nil. apply map_eq_nil in Hk, Ho. subst outs. inversion HF as [Hg|]. by rewrite Hk, <- Hg in Hr.
Qed.

Section selected.
Context (sel : sframe) (Hsel : SFrame.column_names sel = read).
Abbreviation ds := (zip_with (descriptor sel) groups ops).

Lemma request_groups : define_groups sel groups ops = Ok ds.
Proof using HR Hsel.
  destruct request_columns as (outs & _ & Ho & _ & HF). apply define_groups_ok.
  { rewrite Ho, length_map. symmetry. by eapply Forall2_length. }
  apply Forall_forall. intros g Hg c Hc. rewrite Hsel. by apply (groups_read g).
Qed.

Lemma results_by_name k rs xs :
  Forall2 (λ d x, (w ← aggregate oob atof hash (aggregator d) (inputs d <$> with_key (length keys) k (map project rs)); emit atof w) = Ok x) ds xs →
  Forall2 (λ go x, (w ← aggregate oob atof hash go.2 (group_inputs sf go.1 <$> rows_with sf keys k rs); emit atof w) = Ok x) (zip groups ops) xs.
Proof using HR Hsel.
  rewrite zip_with_zip, Forall2_fmap_l, rows_with_projected. intros HF. eapply Forall2_impl_in; [exact HF|].
  intros [g op] x Hin%elem_of_zip_l Hx. cbn [fst snd] in *. rewrite <- Hx. cbn. do 2 f_equal. rewrite <- list_fmap_compose.
  apply list_fmap_ext. intros i r _. unfold compose. rewrite <- Hsel. symmetry. apply inputs_by_name. rewrite Hsel. by apply groups_read.
Qed.

Lemma request_combinable : Forall (λ d, combinable (aggregator d)) ds.
Proof using HR.
  rewrite zip_with_zip. apply Forall_fmap, Forall_forall. intros [g op] Hin%elem_of_zip_r. cbn.
  pose proof (gr_combinable _ _ _ _ _ _ _ _ HR) as HC. rewrite Forall_forall in HC. by apply HC.
Qed.

Lemma request_rows rs : rs ≡ₚ rows → Forall (valid_row (length keys) (map (first_type sf) groups) ds) (map project rs).
Proof using HR Hsel.
  intros Hp. apply Forall_fmap. assert (Forall (groupable sf keys groups ops) rs) as HV by (rewrite Hp; apply HR).
  eapply Forall_impl; [exact HV|]. intros r [Hk HF]. unfold compose. split.
  - rewrite key_projected. split; [|done]. unfold key_of. rewrite length_map. apply (ck_distinct _ _ _ _ request_checked).
  - rewrite <- Hsel. apply inputs_valid; [|done]. rewrite Hsel. apply groups_read.
Qed.

End selected.

Lemma group_row_typed k xs rs : rs ≡ₚ rows → k ∈ (key_of sf keys <$> rs) →
  Forall2 (λ go x, (w ← aggregate oob atof hash go.2 (group_inputs sf go.1 <$> rows_with sf keys k rs); emit atof w) = Ok x) (zip groups ops) xs →
  row_of types (k ++ xs).
Proof using HR.
  intros Hp Hk HX. pose proof (gr_frame _ _ _ _ _ _ _ _ HR) as Hok. destruct request_columns as (outs & Ht & Ho & _ & HF). rewrite Ho in HX.
  destruct (frame_rows_ok sf Hok) as (rows' & Hrows & _ & Hty & _). rewrite (gr_rows _ _ _ _ _ _ _ _ HR) in Hrows. injection Hrows as <-.
  assert (Forall (row_of (column_types sf)) rs) as Hrs by by rewrite Hp. unfold row_of. rewrite Ht. apply Forall2_app.
  - apply list_elem_of_fmap in Hk as (r & -> & Hr). rewrite Forall_forall in Hrs. unfold key_of.
    apply Forall2_fmap, Forall_Forall2_diag, Forall_forall. intros c Hc. apply cell_typed; [done|by apply Hrs|].
    apply (name_set_elem c keys) in Hc. by apply (ck_keys _ _ _ _ request_checked).
  - eapply emitted_typed; [done| |exact HF|apply (ck_groups _ _ _ _ request_checked)|exact HX]. by apply Forall_filter_keep.
Qed.

(** The group-by of a frame writes the frame of its groups, whatever the order of its threads, the
    size of the buffers and the number of threads. *)
Lemma groupby_frame_ok {SA : SoftAssign} schedule cpu_count max_buffer_size : (0 < cpu_count)%nat → (∀ l, schedule l ≡ₚ l) → ∃ out rs grouped,
  groupby_aggregate oob atof hash hash64_combine schedule cpu_count max_buffer_size sf keys onames groups = Ok out ∧
  frame_ok out ∧ SFrame.column_names out = names ∧ column_types out = types ∧
  read_all out = Ok grouped ∧ rs ≡ₚ rows ∧ groups_of oob atof hash sf keys groups ops rs grouped.
Proof using HR.
  intros Hcpu Hsched. pose proof request_checked as Hck. pose proof (gr_frame _ _ _ _ _ _ _ _ HR) as Hok.
  destruct (selected sf read rows Hok (gr_rows _ _ _ _ _ _ _ _ HR) (gr_read _ _ _ _ _ _ _ _ HR) (all_columns_NoDup keys groups))
    as (sel & Hs & Hsok & Hsn & Hsne & Hsr); [intros c; by apply (all_columns_elem sf keys onames)|].
  destruct (even_pieces sel cpu_count _ Hsok Hsne Hcpu Hsr) as (pieces & Hpieces & Hcat).
  destruct (Permutation_map_inv project rows (Hsched (map project rows))) as (rs & Hrs & Hp).
  set (n := Nat.max (SFrame.num_segments sel) (cpu_count * Nat.max 1 (Nat.log2 cpu_count))).
  assert (0 < n)%nat as Hn by (unfold n; nia).
  destruct (grouped_rows_ok oob atof hash hash64_combine (length keys) (map (first_type sf) groups) (zip_with (descriptor sel) groups ops)
    max_buffer_size n (map project rs) Hn (request_combinable sel)) as (outs & ks & Houts & Hl & Hnd & Hks & HF); [by apply request_rows|].
  assert (groups_of oob atof hash sf keys groups ops rs (concat outs)) as Hgroups.
  { exists ks. split_and!; [done| |].
    - intros k. rewrite Hks, <- list_fmap_compose. unfold compose. by setoid_rewrite key_projected.
    - eapply Forall2_impl; [exact HF|]. intros k r (xs & -> & HX). exists xs. split; [done|]. by apply results_by_name in HX. }
  destruct request_columns as (announces & Ht & Ho & Hlen & HA).
  assert (Forall (row_of types) (concat outs)) as Hty.
  { destruct Hgroups as (ks' & _ & Hks' & HF'). apply Forall_lookup. intros i r Hi.
    destruct (Forall2_lookup_r _ _ _ _ _ HF' Hi) as (k & Hk & xs & -> & HX). apply (group_row_typed k xs rs); [done| |exact HX].
    apply Hks'. by eapply list_elem_of_lookup_2. }
  destruct (segments_written names types outs (gr_names _ _ _ _ _ _ _ _ HR) Hlen request_types Hty)
    as (w & w' & Hw & Hw' & Hok' & Hn' & Ht' & out & Hout & Hpo).
  exists (close w'), rs, out. split_and!; [|done..|by symmetry|by eapply groups_permuted; [symmetry|]].
  unfold groupby_aggregate. rewrite (gr_checks _ _ _ _ _ _ _ _ HR). cbn [mbind outcome_bind]. rewrite Hs. cbn [mbind outcome_bind].
  rewrite types_by_name; [|done|intros c Hc; apply (name_set_elem c keys) in Hc; by apply (ck_keys _ _ _ _ Hck)]. cbn [mbind outcome_bind].
  rewrite (gr_columns _ _ _ _ _ _ _ _ HR). cbn [mbind outcome_bind]. fold n. rewrite <- Hl, Hw. cbn [mbind outcome_bind].
  rewrite (request_groups sel Hsn). cbn [mbind outcome_bind]. rewrite Hpieces. cbn [mbind outcome_bind]. rewrite Hcat, Hrs, Hl, Houts.
  cbn [mbind outcome_bind]. by rewrite Hw'.
Qed.
End request.

End GroupFrameSpec.
