(* ===== verification/GroupCorrectness.v ===== *)
(** The properties of group-by and of its aggregators, one theorem per claim, with the concrete
    rows on which the hypotheses of a claim hold. *)
From Stdlib Require Import Sorting.Sorted.
From S2P Require Import Prelude FlexType FlexOps QueryPlan SFrame SFrameSpec GroupAggregate GroupBy GroupBySpec GroupBySegment.
From S2P Require Import GroupKeySpec GroupAggregateSpec GroupFrame.
Local Open Scope Z_scope.
Local Open Scope sframe_scope.

Module Groups.
Import FlexType FlexOps GroupAggregate GroupBy GroupBySpec GroupBySegment.
Import GroupKeySpec GroupAggregateSpec GroupLawsSpec.
Import QueryPlan(SoftAssign).
Import SFrame(name, sframe, Frame, SArray, read_all) SFrameSpec(frame_ok, frame_okb_ok, names_ok).
Import GroupFrame(group) GroupFrameSpec(groupby_request, groups_of).

Section groups.
Context (oob : Z → Z) (atof : list Z → Z) (hash : flexible_type → Z) (hash64_combine : Z → Z → Z).




(** The merge of the chunks of a segment, each sorted by hash and then by key, ends and
    gives each key of the chunks once: its elements, in the order of the chunks, are combined
    into the first and emitted. *)
Theorem chunks_merge_to_groups n chunks : Forall (sorted hash hash64_combine (plain_key n)) chunks → ∃ ks,
  group_and_write_segment oob atof hash hash64_combine chunks = mapM (λ k, merged hash oob atof k chunks) ks ∧
  NoDup ks ∧ ∀ k, k ∈ ks ↔ ∃ e, e ∈ concat chunks ∧ key e = k.
Proof.
  intros Hs. apply (merge_chunks_ok hash hash64_combine (plain_key n) oob atof); [apply heads_start|done|lia].
Qed.

(** C20: aggregating is a homomorphism: for the aggregators that combine, two lists of valid
    inputs have partial results, whose combination is the partial result of both lists, which
    can be emitted. *)
Theorem partial_results_combine t v l1 l2 :
  combinable v → Forall (valid_input t v) l1 → Forall (valid_input t v) l2 → l1 ≠ [] → l2 ≠ [] → ∃ w1 w2 w x,
    aggregate oob atof hash v l1 = Ok w1 ∧ aggregate oob atof hash v l2 = Ok w2 ∧
    combine oob hash w2 w1 = Ok w ∧ aggregate oob atof hash v (l1 ++ l2) = Ok w ∧ emit atof w = Ok x.
Proof.
  intros Hv H1 H2 Hn1 Hn2. pose (HC := combinable_aggregator oob atof hash t v Hv).
  destruct (aggregate_total oob atof hash _ H1) as [w1 Hw1], (aggregate_total oob atof hash _ H2) as [w2 Hw2].
  assert (Forall (valid_input t v) (l1 ++ l2)) as H12 by by apply Forall_app.
  destruct (aggregate_total oob atof hash _ H12) as [w Hw].
  destruct (aggregate_emit oob atof hash _ _ H12 ltac:(by destruct l1) Hw) as [x Hx].
  exists w1, w2, w, x. split_and!; [done..| |done|done].
  by rewrite (aggregate_combine oob atof hash l1 l2 w1 w2).
Qed.

(** The frequencies of two partial results do not combine (a defect): a value of both
    keeps its count of the first, and the occurrences in the second are lost. *)
Theorem frequencies_are_lost t v v' l1 l2 x :
  Forall (plain_of t) (l1 ++ l2) → x ∈ l1 → x ∈ l2 → occurrences x (l1 ++ l2) < 2 ^ 64 → ∃ m1 m2 m m12,
    aggregate oob atof hash (frequency_count v) (map (λ y, [y]) l1) = Ok (frequency_count m1) ∧
    aggregate oob atof hash (frequency_count v') (map (λ y, [y]) l2) = Ok (frequency_count m2) ∧
    combine oob hash (frequency_count m2) (frequency_count m1) = Ok (frequency_count m) ∧
    aggregate oob atof hash (frequency_count v) (map (λ y, [y]) (l1 ++ l2)) = Ok (frequency_count m12) ∧
    frequency_of hash x m12 = Some (occurrences x (l1 ++ l2)) ∧
    frequency_of hash x m = Some (occurrences x l1) ∧ occurrences x l1 < occurrences x (l1 ++ l2).
Proof.
  intros HF Hx1 Hx2 Hlt. pose proof HF as HF12. apply Forall_app in HF as [HF1 HF2].
  assert (plain_of t x) as Hx by (rewrite Forall_forall in HF1; by apply HF1).
  destruct (frequencies_ok oob atof hash t v l1 HF1) as (m1 & Hm1 & Hk1 & Hf1).
  destruct (frequencies_ok oob atof hash t v' l2 HF2) as (m2 & Hm2 & Hk2 & Hf2).
  destruct (frequencies_ok oob atof hash t v (l1 ++ l2) HF12) as (m12 & Hm12 & Hk12 & Hf12).
  assert (occurrences x (l1 ++ l2) = occurrences x l1 + occurrences x l2) as Ho.
  { unfold occurrences. rewrite filter_app, length_app. lia. }
  assert (0 < occurrences x l2) as Hpos.
  { unfold occurrences. destruct (filter (λ y, y = x) l2) eqn:Hnil; [|cbn; lia].
    by destruct (filter_nil_not_elem_of (λ y, y = x) l2 x Hnil eq_refl). }
  assert (0 ≤ occurrences x l1) by (unfold occurrences; lia).
  exists m1, m2. eexists. exists m12. split_and!; [done|done|done|done| | |lia].
  - rewrite Hf12, decide_True by (done || rewrite elem_of_app; by left). f_equal. apply uw_small. unfold is_u. lia.
  - rewrite (frequencies_combine hash t), Hf1, decide_True by done. f_equal. apply uw_small. unfold is_u. lia.
Qed.
End groups.

(** ** The claims at concrete rows *)

(** A hash of words and texts. *)
Definition h (v : flexible_type) : Z :=
  match v with FInt i => (i * 7 + 3) mod 11 | FString s => foldl (λ a b, (a * 31 + b) mod 13) 0 s | _ => 5 end.
Definition hc (a b : Z) : Z := u64 (a * 31 + b).

Definition cells : list row :=
  [[FInt 1; FInt 10; FString [97]]; [FInt 2; FInt (-3); FString [98]]; [FInt 1; FUndefined; FString [99]];
   [FUndefined; FInt 7; FString [97]]; [FInt 2; FInt 20; FString [98]]; [FInt 1; FInt 4; FString [100]];
   [FInt 13; FInt 4; FString [97]]].
Definition columns : list group_descriptor :=
  [Descriptor [1%nat] (sum (FInt 0)); Descriptor [] (count 0); Descriptor [1%nat; 2%nat] (argmin [] false);
   Descriptor [2%nat] (count_distinct []); Descriptor [1%nat] (max (FInt 0) false)].

(** What the group-by gives with a buffer of one key and three segments. *)
Example cells_grouped : groupby_aggregate (λ _, 0) (λ _, 0) h hc columns 1 3 1 cells =
  Some [[FInt 2; FInt 17; FInt 2; FString [98]; FInt 1; FInt 20];
        [FInt 13; FInt 4; FInt 1; FString [97]; FInt 1; FInt 4];
        [FInt 1; FInt 14; FInt 3; FString [100]; FInt 3; FInt 10];
        [FUndefined; FInt 7; FInt 1; FString [97]; FInt 1; FInt 7]].
Proof. vm_compute. reflexivity. Qed.



(** The rows as a frame in two segments. *)
Definition cells_frame : sframe :=
  Frame true [SArray INTEGER [[FInt 1; FInt 2; FInt 1]; [FUndefined; FInt 2; FInt 1; FInt 13]];
    SArray INTEGER [[FInt 10; FInt (-3); FUndefined]; [FInt 7; FInt 20; FInt 4; FInt 4]];
    SArray STRING [[FString [97]; FString [98]; FString [99]]; [FString [97]; FString [98]; FString [100]; FString [97]]]]
    [[107]; [118]; [115]] 7.
Definition cell_groups : list group :=
  [([[118]], sum FUndefined); ([], count 0); ([[118]; [115]], argmin [] false); ([[115]], count_distinct []);
   ([[118]], max FUndefined false)].
Definition cell_names : list name := [[]; [110]; []; [100]; []].
#[local] Instance no_conversion : SoftAssign := λ _ _, Throw.

(** The group-by of that frame by two threads, the second before the first. *)
Definition sum_of_v : name := [83; 117; 109; 32; 111; 102; 32; 118].
Definition cells_out : outcome sframe :=
  GroupFrame.groupby_aggregate (λ _, 0) (λ _, 0) h hc (λ l, drop 3 l ++ take 3 l) 2 1 cells_frame [[107]] cell_names cell_groups.

Example cells_frame_grouped : (out ← cells_out; rows ← read_all out; Ok (take 4 (SFrame.column_names out), rows)) =
  Ok ([[107]; sum_of_v; [110]; [115; 32; 102; 111; 114; 32; 97; 114; 103; 109; 105; 110; 32; 111; 102; 32; 118]],
    [[FInt 2; FInt 17; FInt 2; FString [98]; FInt 1; FInt 20];
     [FInt 13; FInt 4; FInt 1; FString [97]; FInt 1; FInt 4];
     [FInt 1; FInt 14; FInt 3; FString [100]; FInt 3; FInt 10];
     [FUndefined; FInt 7; FInt 1; FString [97]; FInt 1; FInt 7]]).
Proof. vm_compute. reflexivity. Qed.

(** A name that is made up can be that of a later column: the checks pass, and the frame cannot
    be opened for writing (a defect). *)
Example made_up_name_collides :
  GroupFrame.check_groupby cells_frame [[107]] [[]; sum_of_v] [([[118]], sum FUndefined); ([], count 0)] = Ok tt ∧
  GroupFrame.groupby_aggregate (λ _, 0) (λ _, 0) h hc id 2 1 cells_frame [[107]] [[]; sum_of_v] [([[118]], sum FUndefined); ([], count 0)] = Throw.
Proof. split; vm_compute; reflexivity. Qed.




(** Two chunks with a key in common. *)
Definition two_chunks : list (list groupby_element) :=
  [[Element [FInt 2] [count 1]; Element [FInt 1] [count 2]]; [Element [FInt 4] [count 1]; Element [FInt 1] [count 5]]].

Lemma chunks_merge_to_groups_witness : ∃ ks,
  group_and_write_segment (λ _, 0) (λ _, 0) h hc two_chunks =
    mapM (λ k, merged h (λ _, 0) (λ _, 0) k two_chunks) ks ∧ NoDup ks ∧ [FInt 4] ∈ ks.
Proof.
  destruct (chunks_merge_to_groups (λ _, 0) (λ _, 0) h hc 1 two_chunks) as (ks & Hout & Hn & Hks).
  { unfold two_chunks. repeat (apply Forall_cons; split); [| |apply Forall_nil_2]; split.
    1,3: apply (bool_decide_unpack _); vm_compute; exact I.
    all: apply SSorted_cons; [apply SSorted_cons; [apply SSorted_nil|apply Forall_nil_2]|].
    all: apply Forall_singleton; vm_compute; reflexivity. }
  exists ks. split; [exact Hout|]. split; [exact Hn|]. apply Hks. exists (Element [FInt 4] [count 1]).
  split; [|reflexivity]. unfold two_chunks. cbn. right. right. left.
Defined.

Lemma partial_results_combine_witness :
  combine (λ _, 0) h (argmin [FInt 1; FString [99]] true) (argmin [FInt 2; FString [98]] true) =
    Ok (argmin [FInt 1; FString [99]] true) ∧
  ∃ w1 w2 w x,
    aggregate (λ _, 0) (λ _, 0) h (argmin [] false) [[FInt 2; FString [98]]; [FInt 4; FString [97]]] = Ok w1 ∧
    aggregate (λ _, 0) (λ _, 0) h (argmin [] false) [[FUndefined; FString [98]]; [FInt 1; FString [99]]] = Ok w2 ∧
    combine (λ _, 0) h w2 w1 = Ok w ∧
    aggregate (λ _, 0) (λ _, 0) h (argmin [] false)
      ([[FInt 2; FString [98]]; [FInt 4; FString [97]]] ++ [[FUndefined; FString [98]]; [FInt 1; FString [99]]]) = Ok w ∧
    emit (λ _, 0) w = Ok x.
Proof.
  split; [reflexivity|]. apply (partial_results_combine (λ _, 0) (λ _, 0) h INTEGER); [exact I| | |done|done];
    apply (bool_decide_unpack _); vm_compute; exact I.
Defined.

Lemma frequencies_are_lost_witness : ∃ m1 m2 m m12,
  aggregate (λ _, 0) (λ _, 0) h (frequency_count []) (map (λ y, [y]) [FInt 1; FInt 2]) = Ok (frequency_count m1) ∧
  aggregate (λ _, 0) (λ _, 0) h (frequency_count []) (map (λ y, [y]) [FInt 2; FInt 2]) = Ok (frequency_count m2) ∧
  combine (λ _, 0) h (frequency_count m2) (frequency_count m1) = Ok (frequency_count m) ∧
  aggregate (λ _, 0) (λ _, 0) h (frequency_count []) (map (λ y, [y]) ([FInt 1; FInt 2] ++ [FInt 2; FInt 2])) =
    Ok (frequency_count m12) ∧
  frequency_of h (FInt 2) m12 = Some 3 ∧ frequency_of h (FInt 2) m = Some 1.
Proof.
  destruct (frequencies_are_lost (λ _, 0) (λ _, 0) h INTEGER [] [] [FInt 1; FInt 2] [FInt 2; FInt 2] (FInt 2))
    as (m1 & m2 & m & m12 & H1 & H2 & H3 & H4 & H5 & H6 & _).
  - apply (bool_decide_unpack _). vm_compute. exact I.
  - apply (bool_decide_unpack _). vm_compute. exact I.
  - apply (bool_decide_unpack _). vm_compute. exact I.
  - vm_compute. reflexivity.
  - exists m1, m2, m, m12. split_and!; assumption.
Defined.
End Groups.
