(* ===== verification/JoinCorrectness.v ===== *)
(** The properties of joins, one theorem per claim, with the concrete frames on which the
    hypotheses of a claim hold. *)
From S2P Require Import Prelude FlexType FlexOps QueryPlan GroupBy GroupBySpec SFrame SFrameSpec.
From S2P Require Import Join JoinTableSpec JoinLoopSpec JoinGraceSpec JoinSpec.
Local Open Scope Z_scope.
Local Open Scope sframe_scope.

Module Joins.
Import FlexType FlexOps SFrame SFrameSpec Join JoinTableSpec JoinLoopSpec JoinPartitionSpec JoinSpec.
Import QueryPlan(SoftAssign, soft_assign).
Import GroupBySpec(bind_Ok).

(** ** The segments that are written *)

Lemma write_first_segment r : ∀ bs bs', write_segment 0 r bs = Ok bs' → map tail bs' = map tail bs.
Proof.
  induction r as [|v r IH]; intros bs bs'; [by intros [= ->]|]. destruct bs as [|b bs]; [done|]. cbn [write_segment].
  intros (s & Hs & H)%bind_Ok. apply bind_Ok in H as (bs1 & H1 & [= <-]). cbn [map]. rewrite (IH _ _ H1). by destruct b.
Qed.

Lemma write_to_first_segment {SA : SoftAssign} rows : ∀ w w', write_each (map (pair 0%nat) rows) w = Ok w' →
  map tail (w_buffers w') = map tail (w_buffers w).
Proof.
  induction rows as [|r rows IH]; intros w w'; [by intros [= ->]|]. cbn [map]. rewrite write_each_cons.
  intros (w1 & H1 & H)%bind_Ok. rewrite (IH _ _ H). apply bind_Ok in H1 as (r' & _ & H1).
  apply bind_Ok in H1 as (bs & Hbs & [= <-]). by apply write_first_segment in Hbs.
Qed.

Section joins.
Context {SA : SoftAssign} (hash : flexible_type → Z) (hash64_combine : Z → Z → Z).

(** C8: a join of two frames at distinct key columns gives the rows of the relational join, the
    pairs of rows with equal keys and the unmatched rows that the kind of join keeps, whatever
    the hash functions, the partitions, the order of the threads, and whichever frame is smaller;
    in a valid frame with the columns of the left frame, then the others of the right. *)
Theorem join_is_relational schedule fuel cpu_count a b join_type t join_columns max_buffer_size lp rp A B :
  can_join fuel a b lp rp A B → named_at a (map fst join_columns) lp → named_at b (map snd join_columns) rp →
  parse_join_type join_type = Ok t → (∀ l, schedule l ≡ₚ l) → (0 < cpu_count)%nat → (0 < max_buffer_size)%nat → ∃ sf,
  join hash hash64_combine schedule fuel cpu_count a b join_type join_columns max_buffer_size = Ok sf ∧
  joined_frame a b rp (relational_join (keeps_left t) (keeps_right t) lp rp (num_columns a) (num_columns b) A B) sf.
Proof. apply join_ok. Qed.

(** C27: what resources a join has is not seen in its result: with other hash functions, buffers,
    processors and orders of the threads it gives a frame with the same names and types, and
    with the same rows but for their order. *)
Theorem join_resources_are_invisible hash' combine' schedule schedule' fuel n n' a b join_type t cols m m' lp rp A B :
  can_join fuel a b lp rp A B → named_at a (map fst cols) lp → named_at b (map snd cols) rp →
  parse_join_type join_type = Ok t → (∀ l, schedule l ≡ₚ l) → (∀ l, schedule' l ≡ₚ l) →
  (0 < n ∧ 0 < n' ∧ 0 < m ∧ 0 < m')%nat → ∃ sf sf' rows rows',
  join hash hash64_combine schedule fuel n a b join_type cols m = Ok sf ∧
  join hash' combine' schedule' fuel n' a b join_type cols m' = Ok sf' ∧
  column_names sf = column_names sf' ∧ column_types sf = column_types sf' ∧
  read_all sf = Ok rows ∧ read_all sf' = Ok rows' ∧ rows ≡ₚ rows'.
Proof.
  intros Hcj Hl Hr Ht Hs Hs' (Hn & Hn' & Hm & Hm').
  destruct (join_ok hash hash64_combine schedule fuel n a b join_type t cols m lp rp A B Hcj Hl Hr Ht Hs Hn Hm)
    as (sf & Hj & [_ Hnames Htypes (rows & Hrows & Hp)]).
  destruct (join_ok hash' combine' schedule' fuel n' a b join_type t cols m' lp rp A B Hcj Hl Hr Ht Hs' Hn' Hm')
    as (sf' & Hj' & [_ Hnames' Htypes' (rows' & Hrows' & Hp')]).
  exists sf, sf', rows, rows'. split_and!; try done; [|congruence|by rewrite Hp, Hp'].
  rewrite Hnames in Hnames'. by injection Hnames'.
Qed.

(** C28: the hash table of a join has, for a key, the rows with that key, in the order they were
    added: whatever rows have one hash, and whatever keys were looked up and marked before. *)
Theorem table_has_the_rows_of_a_key types hp rs probes r positions : hp ≠ [] → length positions = length hp →
  Forall (keyed types hp) rs → Forall (keyed types positions) (probes ++ [r]) → ∃ ht found ht',
  (ht ← add_all hash hash64_combine hp rs ∅; match_all hash hash64_combine hp positions probes ht) = Ok ht ∧
  get_matching_rows hash hash64_combine hp r positions true ht = Ok (found, ht') ∧
  rows found = filter (λ l, join_key hp l = join_key positions r) rs.
Proof.
  intros Hne Hlen Hrs Hps. apply Forall_app in Hps as [Hps Hr]. apply Forall_cons in Hr as [Hr _].
  destruct (add_all_ok hash hash64_combine types hp Hne rs Hrs [] ∅) as (ht & -> & Hht); [constructor|apply table_empty|].
  cbn [mbind outcome_bind app] in Hht |- *.
  destruct (match_all_ok hash hash64_combine types hp Hne positions rs probes Hlen Hrs Hps ht _ Hht) as (ht1 & M & -> & Hht1).
  destruct (get_matching_ok hash hash64_combine types hp Hne ht1 rs M r positions Hht1 Hlen Hrs Hr) as (found & ht2 & Hg & Hf & _).
  by exists ht1, found, ht2.
Qed.

(** The rows of the left frame without a partner all go to the first segment of the result
    (a defect): the counter that is to spread them over the segments is never advanced. *)
Theorem unmatched_rows_fill_one_segment e entries w w' : emit_unmatched e entries w = Ok w' →
  map tail (w_buffers w') = map tail (w_buffers w).
Proof.
  revert w. induction entries as [|h entries IH]; intros w; [by intros [= ->]|]. cbn [emit_unmatched].
  intros (w1 & H1 & H)%bind_Ok. rewrite (IH _ H). destruct (matched h); [by injection H1 as ->|].
  apply bind_Ok in H1 as (out & _ & H1). by apply write_to_first_segment in H1.
Qed.
End joins.

(** ** The claims at concrete frames *)

#[local] Instance no_conversion : SoftAssign := λ _ _, Throw.

Definition a_hash (v : flexible_type) : Z := match v with FInt i => (i * 7 + 3) mod 11 | _ => 5 end.
Definition a_combine (a b : Z) : Z := (a * 31 + b) mod 2 ^ 64.

(** Two frames with a column "a" of integers: 1, 2, 2, undefined and 2, 3, 2, undefined, 2. *)
Definition orders : sframe :=
  Frame true [SArray INTEGER [[FInt 1; FInt 2]; [FInt 2; FUndefined]];
    SArray STRING [[FString [97]; FString [98]; FString [99]; FString [100]]]] [[97]; [98]] 4.
Definition prices : sframe :=
  Frame true [SArray STRING [[FString [120]; FString [121]; FString [122]; FString [119]; FString [118]]];
    SArray INTEGER [[FInt 2; FInt 3; FInt 2; FUndefined; FInt 2]]] [[98]; [97]] 5.

Definition order_rows : list row :=
  [[FInt 1; FString [97]]; [FInt 2; FString [98]]; [FInt 2; FString [99]]; [FUndefined; FString [100]]].
Definition price_rows : list row :=
  [[FString [120]; FInt 2]; [FString [121]; FInt 3]; [FString [122]; FInt 2]; [FString [119]; FUndefined]; [FString [118]; FInt 2]].

Lemma orders_and_prices : can_join 3 orders prices [0%nat] [1%nat] order_rows price_rows.
Proof.
  split.
  1-2: apply frame_okb_ok; vm_compute; reflexivity.
  1-3: vm_compute; reflexivity.
  1: discriminate.
  1-7: apply (bool_decide_unpack _); vm_compute; exact I.
  all: unfold packable; apply (bool_decide_unpack _); vm_compute; exact I.
Qed.

Definition outer : list Z := [79; 117; 116; 101; 114].

(** The outer join, in two partitions. *)
Lemma join_is_relational_witness : ∃ sf,
  join a_hash a_combine (@rev _) 3 2 orders prices outer [([97], [97])] 5 = Ok sf ∧
  joined_frame orders prices [1%nat] (relational_join true true [0%nat] [1%nat] 2 2 order_rows price_rows) sf.
Proof.
  apply (join_is_relational a_hash a_combine (@rev _) 3 2 orders prices outer FULL_JOIN [([97], [97])] 5 [0%nat] [1%nat] order_rows price_rows).
  - exact orders_and_prices.
  - repeat constructor.
  - repeat constructor.
  - reflexivity.
  - intros l. symmetry. apply Permutation_rev.
  - lia.
  - lia.
Defined.

Lemma join_resources_are_invisible_witness : ∃ sf sf' rows rows',
  join a_hash a_combine id 3 2 orders prices outer [([97], [97])] 100 = Ok sf ∧
  join (λ _, 0) a_combine (@rev _) 3 1 orders prices outer [([97], [97])] 3 = Ok sf' ∧
  column_names sf = column_names sf' ∧ column_types sf = column_types sf' ∧
  read_all sf = Ok rows ∧ read_all sf' = Ok rows' ∧ rows ≡ₚ rows'.
Proof.
  apply (join_resources_are_invisible a_hash a_combine (λ _, 0) a_combine id (@rev _) 3 2 1 orders prices outer FULL_JOIN
    [([97], [97])] 100 3 [0%nat] [1%nat] order_rows price_rows).
  - exact orders_and_prices.
  - repeat constructor.
  - repeat constructor.
  - reflexivity.
  - done.
  - intros l. symmetry. apply Permutation_rev.
  - lia.
Defined.

(** All keys have one hash. *)
Lemma table_has_the_rows_of_a_key_witness : ∃ ht found ht',
  (ht ← add_all (λ _, 0) (λ _ _, 0) [0%nat] order_rows ∅;
   match_all (λ _, 0) (λ _ _, 0) [0%nat] [1%nat] [[FString [120]; FInt 1]] ht) = Ok ht ∧
  get_matching_rows (λ _, 0) (λ _ _, 0) [0%nat] [FString [121]; FInt 2] [1%nat] true ht = Ok (found, ht') ∧
  rows found = filter (λ l, join_key [0%nat] l = join_key [1%nat] [FString [121]; FInt 2]) order_rows.
Proof.
  apply (table_has_the_rows_of_a_key (λ _, 0) (λ _ _, 0) [INTEGER] [0%nat] order_rows [[FString [120]; FInt 1]] [FString [121]; FInt 2] [1%nat]).
  - discriminate.
  - reflexivity.
  - apply (bool_decide_unpack _). vm_compute. exact I.
  - apply (bool_decide_unpack _). vm_compute. exact I.
Defined.

Definition an_executor : hash_join_executor := Executor orders prices [0%nat] [1%nat] 100 true true {[1%nat := 0%nat]} false.
Definition a_writer : frame_writer := Writer [[97]; [98]; [99]] [INTEGER; STRING; STRING] 2 (replicate 3 [[]; []]).
Definition unmatched : list hash_join_row :=
  [HashJoinRow [[FInt 1; FString [97]]] false; HashJoinRow [[FInt 2; FString [98]]] true; HashJoinRow [[FUndefined; FString [100]]] false].
Definition filled : frame_writer :=
  Writer [[97]; [98]; [99]] [INTEGER; STRING; STRING] 2
    [[[FInt 1; FUndefined]; []]; [[FString [97]; FString [100]]; []]; [[FUndefined; FUndefined]; []]].

Lemma unmatched_rows_fill_one_segment_witness : map tail (w_buffers filled) = map tail (w_buffers a_writer).
Proof. apply (unmatched_rows_fill_one_segment an_executor unmatched a_writer filled). vm_compute. reflexivity. Defined.
End Joins.
