(* ===== verification/SArrayWriter.v ===== *)
(** The writer of SArray files, version 2 of the format (sframe/sarray_file_format_v2.hpp,
    sarray_v2_block_writer.cpp): values are buffered by column and segment, and flushed in typed
    blocks to the file of the segment, which ends in a footer with the metadata of its blocks. *)
From Stdlib Require Import SpecFloat.
From S2P Require Import Prelude FlexType FlexOps TypeEncoding SFrame.
Import FlexType FlexOps TypeEncoding.
Import SFrame(or_trap).
Local Open Scope Z_scope.
Local Open Scope sframe_scope.

Module SArrayWriter.

Abbreviation name := (list Z).
Abbreviation bytes := (list Z).

(** What the code uses of LZ4. *)
Class Compressor := {
  LZ4_compress : bytes → bytes;
  LZ4_decompress_safe : bytes → nat → bytes;
}.

(** The settings that can be changed while the program runs. *)
Record settings := Settings {
  SFRAME_DEFAULT_BLOCK_SIZE : Z;
  SFRAME_WRITER_MAX_BUFFERED_CELLS : Z;
  SFRAME_WRITER_MAX_BUFFERED_CELLS_PER_BLOCK : Z;
  SFRAME_MAX_BLOCKS_IN_CACHE : nat;
}.
Definition default_settings : settings := Settings (64 * 1024) (32 * 1024 * 1024) (256 * 1024) 32.
Definition SARRAY_WRITER_MIN_ELEMENTS_PER_BLOCK : Z := 8.
Definition SARRAY_WRITER_INITAL_ELEMENTS_PER_BLOCK : Z := 16.

(** ** Single precision *)

Definition f32 (n : Z) : spec_float := binary_normalize 24 128 n 0 false.
Definition truncate (x : spec_float) : Z :=
  match x with
  | S754_finite s m e => let n := if 0 <=? e then Zpos m * 2 ^ e else Zpos m / 2 ^ (- e) in if s then - n else n
  | _ => 0
  end.

(** 0.9 *)
Definition COMPRESSION_DISABLE_THRESHOLD : spec_float := S754_finite false 15099494 (-24).

Definition compression_pays (clen block_size : Z) : bool :=
  SFltb (f32 clen) (SFmul 24 128 COMPRESSION_DISABLE_THRESHOLD (f32 block_size)).

(** ** The footer

    A [block_info] is written as it is in memory; [pad] are its last six bytes, which the code
    does not set. *)
Section footer.
Context (pad : bytes).

Definition save_block_info (i : block_info) : writer :=
  write_le 8 (offset i) +++ write_le 8 (length_on_disk i) +++ write_le 8 (block_size i) +++ write_le 8 (num_elem i) +++
  write_le 8 (flags i) +++ write_le 2 (content_type i) +++ Some pad.

Definition save_column (l : list block_info) : writer := write_le 8 (Z.of_nat (length l)) +++ wconcat save_block_info l.
Definition save_blocks (l : list (list block_info)) : writer :=
  write_le 8 (Z.of_nat (length l)) +++ wconcat save_column l.
End footer.

Definition load_block_info : reader block_info :=
  o ← read_le 8; l ← read_le 8; b ← read_le 8; n ← read_le 8; f ← read_le 8; c ← read_le 2; _ ← read 6;
  mret (MkBlockInfo o l b n f c).
Definition load_column : reader (list block_info) := n ← read_le 8; read_many (Z.to_nat n) load_block_info.
Definition load_blocks : reader (list (list block_info)) := n ← read_le 8; read_many (Z.to_nat n) load_column.

(** ** The state of a writer *)

(** A segment: its file, the bytes written to it, as they are counted, and its blocks by column. *)
Record segment_output := SegmentOutput {
  segment_file : name;
  contents : bytes;
  bytes_written : Z;
  blocks : list (list block_info);
}.

Record column_buffer := ColumnBuffer {
  segment_data : list (list flexible_type);
  elements_before_flush : Z;
  total_bytes_written : Z;
  total_elements_written : Z;
}.

(** [segment_sizes] is by column and segment. *)
Record array_writer := ArrayWriter {
  outputs : list segment_output;
  column_buffers : list column_buffer;
  segment_sizes : list (list Z);
}.

Definition nsegments (w : array_writer) : nat := length (outputs w).
Definition ncolumns (w : array_writer) : nat := length (column_buffers w).

(** ".0001" *)
Definition pad_zeros (n : nat) (s : name) : name := replicate (n - length s) 48 ++ s.
Definition segment_file_name (index_file : name) (segmentid : nat) : name :=
  take (length index_file - 5) index_file ++ [46] ++ pad_zeros 4 (int_to_string (Z.of_nat segmentid)).

(** [open]: without columns there are no segments. *)
Definition open (index_file : name) (segments_to_create columns_to_create : nat) : array_writer :=
  let n := if (columns_to_create =? 0)%nat then 0%nat else segments_to_create in
  ArrayWriter
    (map (λ s, SegmentOutput (segment_file_name index_file s) [] 0 (replicate columns_to_create [])) (seq 0 n))
    (replicate columns_to_create (ColumnBuffer (replicate n []) SARRAY_WRITER_INITAL_ELEMENTS_PER_BLOCK 0 0))
    (replicate columns_to_create (replicate n 0)).

Section writing.
Context {C : Compressor} (oob : Z → Z) (config : settings) (pad : bytes).

(** [v[i] = f(v[i])], outside of which the code is undefined. *)
Definition modify {A} (i : nat) (f : A → A) (l : list A) : outcome (list A) :=
  x ← or_trap (l !! i); Ok (<[i := f x]> l).

Definition round_up (n : Z) : Z := (n + 4095) / 4096 * 4096.

(** What is written of a block, with its metadata. *)
Definition compress_block (data : bytes) (info : block_info) : block_info * bytes :=
  let cbuffer := LZ4_compress data in
  let clen := Z.of_nat (length cbuffer) in
  if compression_pays clen (block_size info)
  then (MkBlockInfo (offset info) clen (block_size info) (num_elem info) (flags info .| LZ4_COMPRESSION) (content_type info), cbuffer)
  else (MkBlockInfo (offset info) (block_size info) (block_size info) (num_elem info)
          (flags info .& u64 (Z.lnot LZ4_COMPRESSION)) (content_type info), data).

Definition put_block (column_id : nat) (info : block_info) (written : bytes) (s : segment_output) : segment_output :=
  let padding := round_up (Z.of_nat (length written)) - Z.of_nat (length written) in
  SegmentOutput (segment_file s) (contents s ++ written ++ replicate (Z.to_nat padding) 0)
    (bytes_written s + (Z.of_nat (length written) + padding))
    (alter (λ l, l ++ [MkBlockInfo (bytes_written s) (length_on_disk info) (block_size info) (num_elem info) (flags info)
       (content_type info)]) column_id (blocks s)).

(** The number of bytes written, without the padding. *)
Definition write_block (segment_id column_id : nat) (data : bytes) (info : block_info) (w : array_writer)
  : outcome (array_writer * Z) :=
  let '(info, written) := compress_block data info in
  sizes ← or_trap (segment_sizes w !! column_id);
  sizes ← modify segment_id (λ n, n + num_elem info) sizes;
  outputs ← modify segment_id (put_block column_id info written) (outputs w);
  Ok (ArrayWriter outputs (column_buffers w) (<[column_id := sizes]> (segment_sizes w)), Z.of_nat (length written)).

Definition write_typed_block (segment_id column_id : nat) (data : list flexible_type) (info : block_info) (w : array_writer)
  : outcome (array_writer * Z) :=
  '(info, bs) ← or_trap (typed_encode oob 0 data info);
  write_block segment_id column_id bs info w.

(** The estimate of the number of elements that make a block of the size that is wanted. *)
Definition next_flush (nsegments ncolumns : nat) (bytes elements : Z) : Z :=
  let e := truncate (SFdiv 24 128 (f32 (SFRAME_DEFAULT_BLOCK_SIZE config))
                       (SFdiv 24 128 (f32 (bytes + 1)) (f32 (elements + 1)))) in
  let e := Z.max e SARRAY_WRITER_MIN_ELEMENTS_PER_BLOCK in
  let e := Z.min e (SFRAME_WRITER_MAX_BUFFERED_CELLS config / Z.of_nat (nsegments * ncolumns)) in
  Z.min e (SFRAME_WRITER_MAX_BUFFERED_CELLS_PER_BLOCK config).

Definition flush_block (columnid segmentid : nat) (w : array_writer) : outcome array_writer :=
  colbuf ← or_trap (column_buffers w !! columnid);
  data ← or_trap (segment_data colbuf !! segmentid);
  match data with
  | [] => Ok w
  | _ =>
      '(w, ret) ← write_typed_block segmentid columnid data default_block_info w;
      let total_bytes := total_bytes_written colbuf + ret in
      let total_elements := total_elements_written colbuf + Z.of_nat (length data) in
      Ok (ArrayWriter (outputs w)
        (<[columnid := ColumnBuffer (<[segmentid := []]> (segment_data colbuf))
             (next_flush (nsegments w) (ncolumns w) total_bytes total_elements) total_bytes total_elements]> (column_buffers w))
        (segment_sizes w))
  end.

(** Values are added to the buffer of a column and segment, which is flushed when it is full. *)
Definition push_values (columnid segmentid : nat) (vs : list flexible_type) (w : array_writer) : outcome array_writer :=
  colbuf ← or_trap (column_buffers w !! columnid);
  data ← modify segmentid (λ d, d ++ vs) (segment_data colbuf);
  let w := ArrayWriter (outputs w)
    (<[columnid := ColumnBuffer data (elements_before_flush colbuf) (total_bytes_written colbuf) (total_elements_written colbuf)]>
       (column_buffers w)) (segment_sizes w) in
  filled ← or_trap (data !! segmentid);
  if elements_before_flush colbuf <=? Z.of_nat (length filled) then flush_block columnid segmentid w else Ok w.

Definition write_value (columnid segmentid : nat) (v : flexible_type) (w : array_writer) : outcome array_writer :=
  push_values columnid segmentid [v] w.

(** A row, from column [i] on. *)
Fixpoint write_row (i segmentid : nat) (v : list flexible_type) (w : array_writer) : outcome array_writer :=
  match v with
  | [] => Ok w
  | x :: v => w ← write_value i segmentid x w; write_row (S i) segmentid v w
  end.

(** A block of rows, by columns. *)
Fixpoint write_columns (i segmentid : nat) (cols : list (list flexible_type)) (w : array_writer) : outcome array_writer :=
  match cols with
  | [] => Ok w
  | c :: cols => w ← push_values i segmentid c w; write_columns (S i) segmentid cols w
  end.
Definition write_rows (segmentid : nat) (cols : list (list flexible_type)) (w : array_writer) : outcome array_writer :=
  if (length cols =? ncolumns w)%nat then write_columns 0 segmentid cols w else Trap.

Fixpoint flush_columns (js : list nat) (segmentid : nat) (w : array_writer) : outcome array_writer :=
  match js with
  | [] => Ok w
  | j :: js => w ← flush_block j segmentid w; flush_columns js segmentid w
  end.
Definition flush_segment (segmentid : nat) (w : array_writer) : outcome array_writer :=
  flush_columns (seq 0 (ncolumns w)) segmentid w.

(** The footer, and its size. *)
Definition emit_footer (s : segment_output) : outcome segment_output :=
  footer ← or_trap (save_blocks pad (blocks s));
  Ok (SegmentOutput (segment_file s) (contents s ++ footer ++ le_bytes 8 (Z.of_nat (length footer))) (bytes_written s) (blocks s)).

Definition close_segment (segmentid : nat) (w : array_writer) : outcome array_writer :=
  s ← or_trap (outputs w !! segmentid); s ← emit_footer s;
  Ok (ArrayWriter (<[segmentid := s]> (outputs w)) (column_buffers w) (segment_sizes w)).

Fixpoint close_segments (ids : list nat) (w : array_writer) : outcome array_writer :=
  match ids with
  | [] => Ok w
  | i :: ids => w ← flush_segment i w; w ← close_segment i w; close_segments ids w
  end.
Definition close (w : array_writer) : outcome array_writer := close_segments (seq 0 (nsegments w)) w.

(** ** What is left *)

(** The part of the index that readers of a column use. *)
Record index_file_information := Index {
  segment_files : list name;
  sizes : list Z;
}.

Definition column_file (file : name) (column : nat) : name := file ++ [58] ++ int_to_string (Z.of_nat column).

(** [columns[col]] of the index of the group. *)
Definition column_info (col : nat) (w : array_writer) : index_file_information :=
  Index (map (λ s, column_file (segment_file s) col) (outputs w)) (default [] (segment_sizes w !! col)).

(** The files, which replace those of the same names. *)
Definition files (w : array_writer) (fs : gmap name bytes) : gmap name bytes :=
  foldl (λ fs s, <[segment_file s := contents s]> fs) fs (outputs w).
End writing.
End SArrayWriter.
