(* ===== verification/BlockManager.v ===== *)
(** The block manager (sframe/sarray_v2_block_manager.cpp): the segments that are open, how often
    each was opened, and the reading of their blocks. *)
From S2P Require Import Prelude FlexType FlexOps TypeEncoding SFrame SArrayWriter.
Import FlexType FlexOps TypeEncoding SArrayWriter.
Import SFrame(or_trap).
Local Open Scope Z_scope.
Local Open Scope sframe_scope.

Module BlockManager.

(** ** Names of columns *)

(** [boost::algorithm::trim] *)
Definition trim (s : name) : name := rev (skip_spaces (rev (skip_spaces s))).

(** What comes before and after the last colon. *)
Fixpoint split_last (s : name) : option (name * name) :=
  match s with
  | [] => None
  | c :: s =>
      match split_last s with
      | Some (a, b) => Some (c :: a, b)
      | None => if c =? 58 then Some ([], s) else None
      end
  end.

Definition is_digit (c : Z) : bool := (48 <=? c) && (c <=? 57).

(** [std::strtol] on a whole text: [None] when it does not read the text to its end, or when the
    number does not fit. An empty text is read to its end. *)
Definition strtol (s : name) : option Z :=
  match s with
  | [] => Some 0
  | _ =>
      let s := skip_spaces s in
      let '(negative, digits) :=
        match s with
        | c :: t => if c =? 45 then (true, t) else if c =? 43 then (false, t) else (false, s)
        | [] => (false, [])
        end in
      match digits with
      | [] => None
      | _ =>
          let n := parse_digits 0 digits in
          let n := if negative : bool then - n else n in
          if forallb is_digit digits && (- 2 ^ 63 <=? n) && (n <? 2 ^ 63) then Some n else None
      end
  end.

(** The name of a file, and the column or -1. *)
Definition parse_v2_segment_filename (fname : name) : name * Z :=
  let fname := trim fname in
  match split_last fname with
  | Some (file, trailing) => match strtol trailing with Some n => (file, u64 n) | None => (fname, u64 (-1)) end
  | None => (fname, u64 (-1))
  end.

(** ** The open segments *)

Record segment := Segment {
  file : name;
  seg_blocks : list (list block_info);
  reference_count : Z;
}.

Record block_manager := Manager {
  segment_id_counter : nat;
  m_segments : gmap nat segment;
  m_file_to_segments : gmap name nat;
}.

Definition new_manager : block_manager := Manager 0 ∅ ∅.

Abbreviation column_address := (nat * Z)%type.

Section manager.
Context {C : Compressor} (fs : gmap name bytes).

(** The file that is read for a segment: its name is parsed once more. *)
Definition get_segment_file_handle (segment_file : name) : outcome bytes :=
  or_throw (fs !! (parse_v2_segment_filename segment_file).1).

(** The footer, which is found from the last eight bytes of the file. *)
Definition init_segment (f : bytes) : outcome (list (list block_info)) :=
  if (length f <? 8)%nat then Trap
  else
    let footer_size := le_num (drop (length f - 8) f) in
    let start := Z.of_nat (length f) - footer_size - 8 in
    if start <? 0 then Trap
    else or_trap (fst <$> load_blocks (drop (Z.to_nat start) f)).

Definition open_column (column_file : name) (m : block_manager) : outcome (column_address * block_manager) :=
  let '(fname, column) := parse_v2_segment_filename column_file in
  let column := if column =? u64 (-1) then 0 else column in
  '(segment_id, m) ←
    match m_file_to_segments m !! fname with
    | Some segment_id => Ok (segment_id, m)
    | None =>
        f ← get_segment_file_handle fname;
        blocks ← init_segment f;
        let segment_id := segment_id_counter m in
        Ok (segment_id, Manager (S segment_id) (<[segment_id := Segment fname blocks 0]> (m_segments m))
          (<[fname := segment_id]> (m_file_to_segments m)))
    end;
  s ← or_throw (m_segments m !! segment_id);
  Ok ((segment_id, column),
    Manager (segment_id_counter m)
      (<[segment_id := Segment (file s) (seg_blocks s) (reference_count s + 1)]> (m_segments m)) (m_file_to_segments m)).

(** The last column that is closed closes the segment. *)
Definition close_column (addr : column_address) (m : block_manager) : outcome block_manager :=
  s ← or_throw (m_segments m !! addr.1);
  let n := reference_count s - 1 in
  if n =? 0 then
    Ok (Manager (segment_id_counter m) (delete addr.1 (m_segments m)) (delete (file s) (m_file_to_segments m)))
  else
    Ok (Manager (segment_id_counter m) (<[addr.1 := Segment (file s) (seg_blocks s) n]> (m_segments m)) (m_file_to_segments m)).

Definition column_blocks (addr : column_address) (m : block_manager) : outcome (list block_info) :=
  s ← or_trap (m_segments m !! addr.1); or_throw (seg_blocks s !! Z.to_nat addr.2).

Definition num_blocks_in_column (addr : column_address) (m : block_manager) : outcome nat :=
  length <$> column_blocks addr m.

Definition get_block_info (addr : column_address) (block_id : nat) (m : block_manager) : outcome block_info :=
  s ← or_trap (m_segments m !! addr.1); l ← or_trap (seg_blocks s !! Z.to_nat addr.2); or_trap (l !! block_id).

(** The bytes of a block, from what is written of it. *)
Definition uncompress (info : block_info) (ret : bytes) : bytes :=
  if has_flag info LZ4_COMPRESSION then LZ4_decompress_safe ret (Z.to_nat (block_size info)) else ret.

(** [None]: the file is too short. *)
Definition read_block (addr : column_address) (block_id : nat) (m : block_manager) : outcome (option (block_info * bytes)) :=
  info ← get_block_info addr block_id m;
  s ← or_trap (m_segments m !! addr.1);
  f ← get_segment_file_handle (file s);
  if Z.of_nat (length f) <? offset info + length_on_disk info then Ok None
  else
    Ok (Some (info, uncompress info (take (Z.to_nat (length_on_disk info)) (drop (Z.to_nat (offset info)) f)))).

(** The values of a block, and whether it could be read. *)
Definition read_typed_block (fuel : nat) (addr : column_address) (block_id : nat) (ret : list flexible_type) (m : block_manager)
  : outcome (bool * list flexible_type) :=
  b ← read_block addr block_id m;
  match b with
  | None => Ok (false, ret)
  | Some (info, bs) => or_trap (fst <$> typed_decode fuel info ret bs)
  end.
End manager.
End BlockManager.
