(* ===== verification/SArrayReader.v ===== *)
(** The reader of a column of SArray files (sframe/sarray_file_format_v2.hpp,
    sarray_v2_encoded_block.cpp): the blocks of the column over all its segments, and a cache of
    blocks that are decoded as they are read. *)
From S2P Require Import Prelude Bitset FlexType FlexOps TypeEncoding SFrame SArrayWriter BlockManager.
Import FlexType FlexOps TypeEncoding SArrayWriter BlockManager.
Import SFrame(or_trap).
Local Open Scope Z_scope.
Local Open Scope sframe_scope.

Module SArrayReader.

(** ** Ranges

    A range over an encoded block: a coroutine that decodes the block and gives the values one
    after the other. It starts when the first value is asked for. *)
Inductive encoded_block_range :=
  | NotStarted (info : block_info) (data : bytes)
  | Running (rest : list flexible_type).

Section ranges.
Context (fuel : nat).

Definition call_source (r : encoded_block_range) : outcome (list flexible_type) :=
  match r with
  | NotStarted info data => or_trap ((λ x, x.1.2) <$> typed_decode_stream_callback fuel info data)
  | Running rest => Ok rest
  end.

Definition skip (n : nat) (r : encoded_block_range) : outcome encoded_block_range :=
  if (n =? 0)%nat then Ok r else rest ← call_source r; Ok (Running (drop n rest)).

Definition decode_to (n : nat) (r : encoded_block_range) : outcome (list flexible_type * encoded_block_range) :=
  if (n =? 0)%nat then Ok ([], r) else rest ← call_source r; Ok (take n rest, Running (drop n rest)).
End ranges.

(** ** The cache *)

Record cache_entry := CacheEntry {
  buffer_start_row : nat;
  is_encoded : bool;
  has_data : bool;
  buffer : option (list flexible_type);
  encoded_buffer : option (block_info * bytes);
  encoded_buffer_reader : option encoded_block_range;
}.
Definition empty_entry : cache_entry := CacheEntry 0 false false None None None.

(** The blocks of the column, the row at which each starts, and the cache entry of each.
    [choices] are the random numbers that will be drawn. *)
Record array_reader := ArrayReader {
  m_num_rows : nat;
  m_block_list : list (column_address * nat);
  m_start_row : list nat;
  m_segment_list : list column_address;
  m_used_cache_entries : Bitset.dense_bitset;
  m_cache_size : Z;
  m_cache : list cache_entry;
  choices : list nat;
}.
Definition new_reader (choices : list nat) : array_reader := ArrayReader 0 [] [] [] Bitset.empty_bitset 0 [] choices.

Definition set_entry (i : nat) (c : cache_entry) (r : array_reader) : array_reader :=
  ArrayReader (m_num_rows r) (m_block_list r) (m_start_row r) (m_segment_list r) (m_used_cache_entries r) (m_cache_size r)
    (<[i := c]> (m_cache r)) (choices r).
Definition set_used (used : Bitset.dense_bitset) (size : Z) (r : array_reader) : array_reader :=
  ArrayReader (m_num_rows r) (m_block_list r) (m_start_row r) (m_segment_list r) used size (m_cache r) (choices r).

Section reader.
Context {C : Compressor} (config : settings) (fuel : nat) (recycled : list flexible_type) (fs : gmap name bytes).

Definition release_cache (i : nat) (r : array_reader) : outcome array_reader :=
  c ← or_trap (m_cache r !! i);
  if has_data c then
    u ← or_trap (Bitset.clear_bit i (m_used_cache_entries r));
    Ok (set_used u.2 (m_cache_size r - 1)
          (set_entry i (CacheEntry (buffer_start_row c) (is_encoded c) false None None None) r))
  else Ok r.

(** A number below [n]. *)
Definition fast_uniform (n : nat) (r : array_reader) : nat * array_reader :=
  match choices r with
  | [] => (0%nat, r)
  | c :: choices => ((c mod n)%nat,
      ArrayReader (m_num_rows r) (m_block_list r) (m_start_row r) (m_segment_list r) (m_used_cache_entries r) (m_cache_size r)
        (m_cache r) choices)
  end.

(** The entry at a random place or the next one that is used. The entry [locked] is that of the
    block that is being read. *)
Definition try_evict_something_from_cache (locked : nat) (r : array_reader) : outcome array_reader :=
  let '(b, r) := fast_uniform (length (m_cache r)) r in
  let used := m_used_cache_entries r in
  here ← or_trap (Bitset.get used b);
  b ← (if here : bool then Ok b
       else match Bitset.next_bit used b with
            | Some p => Ok p
            | None =>
                first ← or_trap (Bitset.get used 0);
                Ok (if first : bool then 0%nat else default 0%nat (Bitset.next_bit used 0))
            end);
  if (b =? locked)%nat then Ok r else release_cache b r.

Fixpoint evict (locked num_to_evict : nat) (r : array_reader) : outcome array_reader :=
  match num_to_evict with
  | O => Ok r
  | S n =>
      if Z.of_nat (SFRAME_MAX_BLOCKS_IN_CACHE config) <? m_cache_size r
      then r ← try_evict_something_from_cache locked r; evict locked n r
      else Ok r
  end.

Definition fetch_cache_from_file (m : block_manager) (i : nat) (r : array_reader) : outcome array_reader :=
  '(addr, block_id) ← or_trap (m_block_list r !! i);
  b ← read_block fs addr block_id m;
  match b with
  | None => Throw
  | Some (info, data) =>
      start ← or_trap (m_start_row r !! i);
      used ← or_trap (Bitset.get (m_used_cache_entries r) i);
      u ← or_trap (Bitset.set_bit i (m_used_cache_entries r));
      let size := if used : bool then m_cache_size r else m_cache_size r + 1 in
      let r := set_used u.2 size
        (set_entry i (CacheEntry start true true None (Some (info, data)) (Some (NotStarted info data))) r) in
      evict i (Z.to_nat (size - Z.of_nat (SFRAME_MAX_BLOCKS_IN_CACHE config))) r
  end.

Definition ensure_cache_decoded (i : nat) (r : array_reader) : outcome array_reader :=
  c ← or_trap (m_cache r !! i);
  if is_encoded c then
    '(info, data) ← or_trap (encoded_buffer c);
    x ← or_trap (typed_decode fuel info recycled data);
    start ← or_trap (m_start_row r !! i);
    Ok (set_entry i (CacheEntry start false (has_data c) (Some x.1.2) None None) r)
  else Ok r.

(** ** Reading *)

(** The first row that is not below [row]: [std::lower_bound] on an ascending vector. *)
Fixpoint lower_bound (row : nat) (l : list nat) : nat :=
  match l with
  | [] => 0
  | x :: l => if (x <? row)%nat then S (lower_bound row l) else 0%nat
  end.

Definition block_offset_containing_row (row : nat) (r : array_reader) : outcome nat :=
  let blocknum := lower_bound row (m_start_row r) in
  if (blocknum <? length (m_block_list r))%nat then
    start ← or_trap (m_start_row r !! blocknum);
    Ok (if (start =? row)%nat then blocknum else (blocknum - 1)%nat)
  else Ok (length (m_block_list r) - 1)%nat.

Definition write_at (idx : nat) (vs out : list flexible_type) : outcome (list flexible_type) :=
  if (idx + length vs <=? length out)%nat then Ok (take idx out ++ vs ++ drop (idx + length vs) out) else Trap.

(** The values of the rows [first] to [last] of a block in its decoded buffer. *)
Definition slice_of (c : cache_entry) (offset first last : nat) : outcome (list flexible_type) :=
  b ← or_trap (buffer c);
  if (first <? offset)%nat || (length b <? last - offset)%nat then Trap
  else Ok (take (last - first) (drop (first - offset) b)).

(** The rows of one block; the rows of the block end at [block_end]. *)
Definition fetch_block (m : block_manager) (i first last block_end output_idx : nat) (out : list flexible_type) (r : array_reader)
  : outcome (list flexible_type * array_reader) :=
  c ← or_trap (m_cache r !! i);
  r ← (if has_data c then Ok r else fetch_cache_from_file m i r);
  c ← or_trap (m_cache r !! i);
  c ← (if (buffer_start_row c <? first)%nat && is_encoded c then
         rd ← or_trap (encoded_buffer_reader c);
         rd ← skip fuel (first - buffer_start_row c) rd;
         Ok (CacheEntry first (is_encoded c) (has_data c) (buffer c) (encoded_buffer c) (Some rd))
       else Ok c);
  let r := set_entry i c r in
  offset ← or_trap (m_start_row r !! i);
  if (buffer_start_row c =? first)%nat then
    '(out, r) ←
      (if is_encoded c then
         rd ← or_trap (encoded_buffer_reader c);
         '(vs, rd) ← decode_to fuel (last - first) rd;
         out ← write_at output_idx vs out;
         Ok (out, set_entry i (CacheEntry last true (has_data c) (buffer c) (encoded_buffer c) (Some rd)) r)
       else
         vs ← slice_of c offset first last; out ← write_at output_idx vs out; Ok (out, r));
    r ← (if (last =? block_end)%nat then release_cache i r else Ok r);
    Ok (out, r)
  else
    r ← ensure_cache_decoded i r;
    c ← or_trap (m_cache r !! i);
    vs ← slice_of c offset first last; out ← write_at output_idx vs out; Ok (out, r).

(** The blocks from [i] on, [n] of them. *)
Fixpoint fetch_blocks (m : block_manager) (n i fetch_start fetch_end output_idx : nat) (out : list flexible_type) (r : array_reader)
  : outcome (list flexible_type * array_reader) :=
  match n with
  | O => Ok (out, r)
  | S n =>
      start ← or_trap (m_start_row r !! i); block_end ← or_trap (m_start_row r !! S i);
      let first := Nat.max fetch_start start in
      let last := Nat.min fetch_end block_end in
      '(out, r) ← fetch_block m i first last block_end output_idx out r;
      fetch_blocks m n (S i) fetch_start fetch_end (output_idx + (last - first)) out r
  end.

Definition fetch_rows_from_cache (m : block_manager) (fetch_start fetch_end : nat) (out : list flexible_type) (r : array_reader)
  : outcome (list flexible_type * array_reader) :=
  start_offset ← block_offset_containing_row fetch_start r;
  last_offset ← block_offset_containing_row (fetch_end - 1) r;
  fetch_blocks m (S last_offset - start_offset) start_offset fetch_start fetch_end 0 out r.

Definition read_rows (m : block_manager) (row_start row_end : nat) (out : list flexible_type) (r : array_reader)
  : outcome (list flexible_type * array_reader) :=
  let row_end := Nat.min row_end (m_num_rows r) in
  if (row_end <=? row_start)%nat then Ok ([], r)
  else fetch_rows_from_cache m row_start row_end (vector_resize (row_end - row_start) default_value out) r.

(** ** Opening and closing *)

Fixpoint close_columns (l : list column_address) (m : block_manager) : outcome block_manager :=
  match l with
  | [] => Ok m
  | a :: l => m ← close_column a m; close_columns l m
  end.

Definition close (r : array_reader) (m : block_manager) : outcome (array_reader * block_manager) :=
  m ← close_columns (m_segment_list r) m;
  Ok (ArrayReader (m_num_rows r) (m_block_list r) (m_start_row r) [] (m_used_cache_entries r) (m_cache_size r) [] (choices r), m).

Definition infos_of (addr : column_address) (nblocks : nat) (m : block_manager) : outcome (list block_info) :=
  outcome_map (λ j, get_block_info addr j m) (seq 0 nblocks).

(** The row at which each block starts, after [row_count] rows. *)
Fixpoint start_rows (row_count : nat) (infos : list block_info) : list nat * nat :=
  match infos with
  | [] => ([], row_count)
  | i :: infos =>
      let '(l, n) := start_rows (row_count + Z.to_nat (num_elem i)) infos in (row_count :: l, n)
  end.

Fixpoint open_segments (fnames : list name) (row_count : nat) (m : block_manager)
  : outcome (list column_address * list (column_address * nat) * list nat * nat * block_manager) :=
  match fnames with
  | [] => Ok ([], [], [], row_count, m)
  | f :: fnames =>
      '(addr, m) ← open_column fs f m;
      nblocks ← num_blocks_in_column addr m;
      infos ← infos_of addr nblocks m;
      let '(starts, row_count) := start_rows row_count infos in
      '(addrs, bs, ss, row_count, m) ← open_segments fnames row_count m;
      Ok (addr :: addrs, map (pair addr) (seq 0 nblocks) ++ bs, starts ++ ss, row_count, m)
  end.

(** The size of the cache is not reset. *)
Definition open (index : index_file_information) (r : array_reader) (m : block_manager) : outcome (array_reader * block_manager) :=
  '(r, m) ← close r m;
  '(addrs, bs, starts, row_count, m) ← open_segments (segment_files index) 0 m;
  let num_rows := Z.to_nat (foldr Z.add 0 (sizes index)) in
  if (num_rows =? row_count)%nat then
    Ok (ArrayReader num_rows bs (starts ++ [num_rows]) addrs
          (Bitset.clear (Bitset.resize (λ _, 0) (length bs) (m_used_cache_entries r))) (m_cache_size r)
          (replicate (length bs) empty_entry) (choices r), m)
  else Throw.
End reader.
End SArrayReader.
