(* ===== verification/SArrayWriterSpec.v ===== *)
(** What the writer of SArray files keeps: the blocks of a segment, in its file, hold the values
    that were written to the segment, but for those that are still buffered; and the footer that
    ends the file is read back.

    The invariant of the writer of SArray files: what every column of every segment holds, on
    disk and in memory, while values are pushed, blocks are flushed and segments are closed. *)
From S2P Require Import Prelude FlexType FlexOps TypeEncoding TypeEncodingSpec SFrame SArrayWriter BlockManager.
Import FlexType FlexOps TypeEncoding TypeEncodingSpec SArrayWriter BlockManager.
Import SFrame(or_trap).
Local Open Scope Z_scope.
Local Open Scope sframe_scope.

Module SArrayWriterSpec.

(** The documented behaviour of LZ4: what is decompressed is what was compressed. *)
Class CompressorLaws (C : Compressor) : Prop :=
  decompress_compress : ∀ d, LZ4_decompress_safe (LZ4_compress d) (length d) = d.

(** ** Metadata *)

(** What the decoders look at. *)
Definition same_metadata (i j : block_info) : Prop :=
  num_elem i = num_elem j ∧
  ∀ f, f ∈ [IS_FLEXIBLE_TYPE; MULTIPLE_TYPE_BLOCK; BLOCK_ENCODING_EXTENSION] → has_flag i f = has_flag j f.

Lemma typed_decode_metadata fuel i j ret : same_metadata i j → typed_decode fuel i ret = typed_decode fuel j ret.
Proof.
  intros [Hn Hf]. unfold typed_decode, decode_body.
  by rewrite (Hf IS_FLEXIBLE_TYPE), (Hf MULTIPLE_TYPE_BLOCK), (Hf BLOCK_ENCODING_EXTENSION), Hn by set_solver.
Qed.

Lemma typed_stream_metadata fuel i j : same_metadata i j →
  typed_decode_stream_callback fuel i = typed_decode_stream_callback fuel j.
Proof.
  intros [Hn Hf]. unfold typed_decode_stream_callback, stream_body.
  by rewrite (Hf IS_FLEXIBLE_TYPE), (Hf MULTIPLE_TYPE_BLOCK), (Hf BLOCK_ENCODING_EXTENSION), Hn by set_solver.
Qed.

Lemma holds_block_metadata fuel i j bs data : same_metadata i j → holds_block fuel i bs data → holds_block fuel j bs data.
Proof.
  intros Hm (data' & Hs & Hd & Hc). exists data'. split; [done|]. rewrite <- (typed_stream_metadata fuel i j Hm).
  split; [|done]. intros. by rewrite <- (typed_decode_metadata fuel i j _ Hm).
Qed.

(** The flags and the type of what the encoder writes. *)
Definition encoded_metadata (i : block_info) : Prop := flags i ∈ [2; 6; 10] ∧ content_type i = 0.

Lemma finish_metadata off i w i' bs : finish off i w = Some (i', bs) → encoded_metadata i → encoded_metadata i'.
Proof. unfold finish. intros (x & -> & [= <- <-])%bind_Some. done. Qed.

Lemma typed_encode_metadata oob data i bs :
  typed_encode oob 0 data default_block_info = Some (i, bs) → encoded_metadata i.
Proof.
  unfold typed_encode. intros (types & _ & H)%bind_Some.
  assert (∀ n, encoded_metadata (set_num_elem n (set_flag IS_FLEXIBLE_TYPE default_block_info))) as Hi.
  { intros n. split; [vm_compute; set_solver|done]. }
  assert (∀ n k, k ∈ [2; 4; 8] → encoded_metadata (set_flag k (set_num_elem n (set_flag IS_FLEXIBLE_TYPE default_block_info)))) as Hk.
  { intros n k Hin. split; [|done]. repeat (apply elem_of_cons in Hin as [-> | Hin]; [vm_compute; set_solver|]). set_solver. }
  assert (∀ a n w, encode_body oob 0 a (set_num_elem n (set_flag IS_FLEXIBLE_TYPE default_block_info)) w data = Some (i, bs) →
    encoded_metadata i) as Hbody.
  { intros a n w. unfold encode_body. repeat case_match; intros Hf; eapply finish_metadata; try done; apply Hk; set_solver. }
  repeat case_match; try (by eapply finish_metadata).
  - apply bind_Some in H as (v & _ & H). case_match; [by eapply finish_metadata|by eapply Hbody].
  - apply bind_Some in H as (t & _ & (d & _ & H)%bind_Some). by eapply Hbody.
  - eapply finish_metadata; [done|]. apply Hk. set_solver.
Qed.

(** ** Values that can be written *)

Definition vec_cells (v : flexible_type) : nat := match v with FVec l => length l | _ => 0 end.

(** Values whose nesting, number and number of vector elements are bounded. *)
Definition storable (fuel : nat) (vs : list flexible_type) : Prop :=
  Forall (λ v, valid v = true ∧ (depth v ≤ fuel)%nat) vs ∧
  is_u64 (Z.of_nat (length vs)) ∧ is_u64 (Z.of_nat (sum_list (map vec_cells vs))).

Lemma vec_cells_app a b : sum_list (map vec_cells (a ++ b)) = (sum_list (map vec_cells a) + sum_list (map vec_cells b))%nat.
Proof. induction a as [|x a IH]; [done|]. cbn. rewrite IH. lia. Qed.

Lemma storable_app fuel a b : storable fuel (a ++ b) → storable fuel a ∧ storable fuel b.
Proof.
  unfold storable, is_u. rewrite Forall_app, length_app, vec_cells_app. intros ([? ?] & ? & ?). split_and!; done || lia.
Qed.

Lemma cells_defined data vs : defined data = map FVec vs → (length (concat vs) ≤ sum_list (map vec_cells data))%nat.
Proof.
  revert vs. induction data as [|v data IH]; intros vs H.
  - destruct vs; [cbn; lia|done].
  - rewrite defined_cons in H. cbn. destruct (is_undefined v); [specialize (IH vs H); lia|].
    destruct vs as [|l vs]; [done|]. injection H as -> H. specialize (IH vs H). cbn. rewrite length_app. lia.
Qed.

Lemma storable_fits fuel data : storable fuel data → sizes_fit data.
Proof.
  intros (_ & Hl & Hc). split; [done|]. intros vs H. apply cells_defined in H. unfold is_u in *. lia.
Qed.

(** ** Blocks in a file *)

Section files.
Context {C : Compressor} {CL : CompressorLaws C} (fuel : nat).

(** The file [f] has the values [data] in the block [i]. *)
Record stores (f : bytes) (i : block_info) (data : list flexible_type) : Prop := {
  stores_range : 0 ≤ offset i ∧ 0 ≤ length_on_disk i ∧ offset i + length_on_disk i ≤ Z.of_nat (length f);
  stores_count : num_elem i = Z.of_nat (length data);
  stores_fields : is_u 8 (flags i) ∧ content_type i = 0 ∧ 0 ≤ block_size i;
  stores_some : data ≠ [];
  stores_bytes : holds_block fuel i
    (uncompress i (take (Z.to_nat (length_on_disk i)) (drop (Z.to_nat (offset i)) f))) data;
}.

Lemma stores_app f x i data : stores f i data → stores (f ++ x) i data.
Proof.
  intros [(Ho & Hl & Hr) Hc Hf Hs Hb]. split; try done.
  - rewrite length_app. lia.
  - rewrite drop_app_le, take_app_le by (rewrite ?length_drop; lia). done.
Qed.

Definition column_stored (f : bytes) (infos : list block_info) (vs : list flexible_type) : Prop :=
  ∃ chunks, Forall2 (stores f) infos chunks ∧ concat chunks = vs.

Lemma column_stored_app f x infos vs : column_stored f infos vs → column_stored (f ++ x) infos vs.
Proof.
  intros (chunks & H & <-). exists chunks. split; [|done]. eapply Forall2_impl; [exact H|]. intros. by apply stores_app.
Qed.

Lemma column_stored_snoc f infos vs i data :
  column_stored f infos vs → stores f i data → column_stored f (infos ++ [i]) (vs ++ data).
Proof.
  intros (chunks & H & <-) Hs. exists (chunks ++ [data]). split.
  - apply Forall2_app; [done|]. by constructor.
  - by rewrite concat_app, concat_cons, app_nil_r.
Qed.

(** ** Compression *)

Lemma compress_block_ok info bs info' written :
  encoded_metadata info → block_size info = Z.of_nat (length bs) → compress_block bs info = (info', written) →
  length_on_disk info' = Z.of_nat (length written) ∧ block_size info' = block_size info ∧
  same_metadata info info' ∧ is_u 8 (flags info') ∧ content_type info' = 0 ∧ uncompress info' written = bs.
Proof.
  intros [Hf Hc] Hb. unfold compress_block, uncompress.
  assert (∀ P : Z → Prop, P 2 → P 6 → P 10 → P (flags info)) as Hcase.
  { intros P H2 H6 H10. rewrite !elem_of_cons in Hf. destruct Hf as [-> | [-> | [-> | []%not_elem_of_nil]]]; done. }
  destruct compression_pays; intros [= <- <-]; cbn; rewrite ?Hb, ?Nat2Z.id; unfold same_metadata, has_flag; cbn [flags num_elem];
    (split_and!; [done..| | |done|]).
  - intros f Hin. repeat (apply elem_of_cons in Hin as [-> | Hin]; [by apply Hcase|]). by apply not_elem_of_nil in Hin.
  - by apply Hcase.
  - apply (Hcase (λ x, (if negb ((x .| LZ4_COMPRESSION) .& LZ4_COMPRESSION =? 0) then _ else _) = bs));
      cbn; apply decompress_compress.
  - intros f Hin. repeat (apply elem_of_cons in Hin as [-> | Hin]; [by apply Hcase|]). by apply not_elem_of_nil in Hin.
  - by apply Hcase.
  - by apply (Hcase (λ x, (if negb ((x .& u64 (Z.lnot LZ4_COMPRESSION)) .& LZ4_COMPRESSION =? 0) then _ else _) = bs)).
Qed.
End files.
End SArrayWriterSpec.

Import FlexType FlexOps TypeEncoding TypeEncodingSpec SArrayWriter BlockManager SArrayWriterSpec.
Import SFrame(or_trap).

Module SArraySegmentSpec.

Section segments.
Context {C : Compressor} {CL : CompressorLaws C}.
Context (oob : Z → Z) (oob_range : ∀ x, is_s64 (oob x)) (config : settings) (pad : bytes) (fuel : nat).

Lemma modify_ok {A} i (f : A → A) l x : l !! i = Some x → modify i f l = Ok (<[i := f x]> l).
Proof. intros H. unfold modify. by rewrite H. Qed.

(** ** One column of one segment *)

(** The values [flushed] are in the blocks of column [c] in the file of segment [s], and the
    values [pending] are in its buffer. *)
Record cell (w : array_writer) (s c : nat) (flushed pending : list flexible_type) : Prop := Cell {
  cell_file : ∃ o infos, outputs w !! s = Some o ∧ blocks o !! c = Some infos ∧ column_stored fuel (contents o) infos flushed;
  cell_buffer : ∃ b, column_buffers w !! c = Some b ∧ segment_data b !! s = Some pending;
  cell_size : ∃ l, segment_sizes w !! c = Some l ∧ l !! s = Some (Z.of_nat (length flushed));
}.

Definition set_buffer (s c : nat) (p : list flexible_type) (b : column_buffer) (e1 e2 e3 : Z) (w : array_writer) : array_writer :=
  ArrayWriter (outputs w) (<[c := ColumnBuffer (<[s := p]> (segment_data b)) e1 e2 e3]> (column_buffers w)) (segment_sizes w).

Lemma set_buffer_cell w s c b e1 e2 e3 p' s' c' fl p :
  column_buffers w !! c = Some b → cell w s' c' fl p →
  cell (set_buffer s c p' b e1 e2 e3 w) s' c' fl (if decide (s' = s ∧ c' = c) then p' else p).
Proof.
  intros Hb [Hf (b' & Hb' & Hp) Hs]. split; [done| |done]. cbn [column_buffers set_buffer].
  destruct (decide (c' = c)) as [->|Hc].
  - rewrite Hb in Hb'. injection Hb' as <-. eexists. split; [apply list_lookup_insert_eq; by eapply lookup_lt_Some|].
    cbn [segment_data]. destruct (decide (s' = s)) as [->|Hs'].
    + rewrite decide_True by done. apply list_lookup_insert_eq. by eapply lookup_lt_Some.
    + rewrite decide_False by tauto. by rewrite list_lookup_insert_ne.
  - rewrite decide_False by tauto. exists b'. by rewrite list_lookup_insert_ne.
Qed.

(** A block with the values [data], appended to the file of the segment. *)
Definition add_block (s c : nat) (info : block_info) (written : bytes) (o : segment_output) (sizes : list Z) (n : Z)
    (w : array_writer) : array_writer :=
  ArrayWriter (<[s := put_block c info written o]> (outputs w)) (column_buffers w)
    (<[c := <[s := n + num_elem info]> sizes]> (segment_sizes w)).

(** A segment that is still written to. *)
Definition writing (o : segment_output) : Prop := bytes_written o = Z.of_nat (length (contents o)).

Lemma round_up_le n : 0 ≤ n → n ≤ round_up n.
Proof. unfold round_up. dlia. Qed.

(** The block has what was written of it. *)
Lemma put_block_stored c info bs info' written o data :
  writing o → encoded_metadata info → block_size info = Z.of_nat (length bs) → num_elem info = Z.of_nat (length data) →
  data ≠ [] → holds_block fuel info bs data → compress_block bs info = (info', written) →
  writing (put_block c info' written o) ∧ ∃ info'',
    blocks (put_block c info' written o) = alter (λ l, l ++ [info'']) c (blocks o) ∧
    stores fuel (contents (put_block c info' written o)) info'' data.
Proof.
  intros Hw Hm Hb Hn Hd Hh Hc.
  destruct (compress_block_ok info bs info' written Hm Hb Hc) as (Hl & Hb' & Hsm & Hf & Hct & Hu).
  pose proof (round_up_le (Z.of_nat (length written)) ltac:(lia)) as Hr.
  split.
  { unfold writing in *. cbn. rewrite !length_app, length_replicate. lia. }
  eexists. split; [done|]. unfold writing in Hw. split; cbn [offset length_on_disk num_elem flags content_type block_size contents put_block].
  - rewrite !length_app. lia.
  - destruct Hsm as [<- _]. done.
  - split_and!; [done..|lia].
  - done.
  - rewrite Hw, Nat2Z.id, drop_app_length, Hl, Nat2Z.id, take_app_length.
    unfold uncompress in Hu |- *. unfold has_flag in *. cbn [flags block_size]. rewrite Hu.
    by apply (holds_block_metadata fuel info).
Qed.

Lemma cell_other w s c info written o sizes n s' c' fl p :
  outputs w !! s = Some o → segment_sizes w !! c = Some sizes → sizes !! s = Some n →
  ¬ (s' = s ∧ c' = c) → cell w s' c' fl p → cell (add_block s c info written o sizes n w) s' c' fl p.
Proof.
  intros Ho Hz Hn Hne [(o' & infos & Ho' & Hi & Hst) Hb (l & Hl & Hn')]. split; [|done|].
  - cbn [outputs add_block]. destruct (decide (s' = s)) as [->|Hs].
    + rewrite Ho in Ho'. injection Ho' as <-. exists (put_block c info written o), infos. split_and!.
      * apply list_lookup_insert_eq. by eapply lookup_lt_Some.
      * cbn. rewrite list_lookup_alter_ne by (intros ->; tauto). done.
      * cbn. by apply column_stored_app.
    + exists o', infos. by rewrite list_lookup_insert_ne.
  - cbn [segment_sizes add_block]. destruct (decide (c' = c)) as [->|Hc].
    + rewrite Hz in Hl. injection Hl as <-. eexists. split; [apply list_lookup_insert_eq; by eapply lookup_lt_Some|].
      rewrite list_lookup_insert_ne by (intros ->; tauto). done.
    + exists l. by rewrite list_lookup_insert_ne.
Qed.

Lemma add_block_cell w s c info' info'' written o sizes fl p data :
  cell w s c fl p → outputs w !! s = Some o → segment_sizes w !! c = Some sizes → sizes !! s = Some (Z.of_nat (length fl)) →
  blocks (put_block c info' written o) = alter (λ l, l ++ [info'']) c (blocks o) →
  stores fuel (contents (put_block c info' written o)) info'' data → num_elem info' = Z.of_nat (length data) →
  cell (add_block s c info' written o sizes (Z.of_nat (length fl)) w) s c (fl ++ data) p.
Proof.
  intros [(o' & infos & Ho' & Hi & Hst) Hb _] Ho Hz Hn Hbl Hd Hnum. rewrite Ho in Ho'. injection Ho' as <-.
  split; [|done|].
  - exists (put_block c info' written o), (infos ++ [info'']). cbn [outputs add_block]. split_and!.
    + apply list_lookup_insert_eq. by eapply lookup_lt_Some.
    + rewrite Hbl, list_lookup_alter_eq, Hi. done.
    + apply column_stored_snoc; [|done]. cbn. by apply column_stored_app.
  - cbn [segment_sizes add_block]. eexists. split; [apply list_lookup_insert_eq; by eapply lookup_lt_Some|].
    rewrite list_lookup_insert_eq by (by eapply lookup_lt_Some). rewrite Hnum, length_app. f_equal. lia.
Qed.

(** The sizes are by as many segments. *)
Definition same_sizes (w w' : array_writer) : Prop :=
  map length (segment_sizes w') = map length (segment_sizes w).

(** The segments after a change of the segment [s]: it is still written to. *)
Definition same_segments (s : nat) (w w' : array_writer) : Prop :=
  length (column_buffers w') = length (column_buffers w) ∧ same_sizes w w' ∧
  ∃ o o', outputs w !! s = Some o ∧ outputs w' = <[s := o']> (outputs w) ∧ writing o' ∧
    segment_file o' = segment_file o ∧ length (blocks o') = length (blocks o).

Lemma same_segments_refl s w o : outputs w !! s = Some o → writing o → same_segments s w w.
Proof. intros Ho Hw. split; [done|]. split; [done|]. exists o, o. by rewrite list_insert_id. Qed.

Lemma same_segments_trans s w w1 w2 : same_segments s w w1 → same_segments s w1 w2 → same_segments s w w2.
Proof.
  intros (Hl & Hz & o & o1 & Ho & E1 & _ & Hf1 & Hb1) (Hl' & Hz' & o1' & o2 & Ho1 & E2 & Hw & Hf2 & Hb2).
  rewrite E1, list_lookup_insert_eq in Ho1 by (by eapply lookup_lt_Some). injection Ho1 as <-.
  split; [congruence|]. split; [by etrans|]. exists o, o2. rewrite E2, E1, list_insert_insert_eq. split_and!; congruence.
Qed.

Lemma map_insert_same (l : list (list Z)) c x i n : l !! c = Some x → map length (<[c := <[i := n]> x]> l) = map length l.
Proof. intros H. etrans; [apply (list_fmap_insert length)|]. rewrite list_insert_id; [done|]. rewrite list_lookup_fmap, H. cbn. by rewrite length_insert. Qed.

Lemma write_typed_block_ok w s c o fl p data :
  outputs w !! s = Some o → writing o → cell w s c fl p → storable fuel data → data ≠ [] →
  ∃ w' n, write_typed_block oob s c data default_block_info w = Ok (w', n) ∧
    column_buffers w' = column_buffers w ∧ cell w' s c (fl ++ data) p ∧ same_segments s w w' ∧
    ∀ s' c' fl' p', ¬ (s' = s ∧ c' = c) → cell w s' c' fl' p' → cell w' s' c' fl' p'.
Proof.
  intros Ho Hw Hc Hst Hne. destruct (id Hst) as (Hv & _).
  destruct (typed_encode_holds oob oob_range fuel 0 default_block_info data) as (info & bs & He & Hn & Hb & Hh).
  { eapply Forall_impl; [exact Hv|]. by intros ? []. }
  { by eapply storable_fits. }
  { eapply Forall_impl; [exact Hv|]. by intros ? []. }
  { done. }
  pose proof (typed_encode_metadata _ _ _ _ He) as Hm. rewrite Z.add_0_l in Hb.
  destruct (compress_block bs info) as [info' written] eqn:Hcomp.
  destruct (put_block_stored c info bs info' written o data) as (Hw' & info'' & Hbl & Hsd); try done.
  destruct (compress_block_ok info bs info' written Hm Hb Hcomp) as (_ & _ & [Hnum _] & _).
  destruct (cell_size _ _ _ _ _ Hc) as (sizes & Hz & Hsz).
  unfold write_typed_block, write_block. rewrite He. cbn [or_trap mbind outcome_bind]. rewrite Hcomp, Hz.
  cbn [or_trap mbind outcome_bind]. rewrite (modify_ok _ _ _ _ Hsz). cbn [mbind outcome_bind].
  rewrite (modify_ok _ _ _ _ Ho). cbn [mbind outcome_bind].
  eexists (add_block s c info' written o sizes (Z.of_nat (length fl)) w), _. split; [done|].
  split_and!; [done| | |].
  - eapply add_block_cell; try done. congruence.
  - split; [done|]. split; [unfold same_sizes; cbn; by rewrite map_insert_same|].
    exists o, (put_block c info' written o). split_and!; try done. cbn. apply length_alter.
  - intros. by apply cell_other.
Qed.

Lemma flush_block_ok w s c o fl p :
  outputs w !! s = Some o → writing o → cell w s c fl p → storable fuel p →
  ∃ w', flush_block oob config c s w = Ok w' ∧ cell w' s c (fl ++ p) [] ∧ same_segments s w w' ∧
    ∀ s' c' fl' p', ¬ (s' = s ∧ c' = c) → cell w s' c' fl' p' → cell w' s' c' fl' p'.
Proof.
  intros Ho Hw Hc Hst. destruct (cell_buffer _ _ _ _ _ Hc) as (b & Hb & Hp).
  unfold flush_block. rewrite Hb. cbn [or_trap mbind outcome_bind]. rewrite Hp. cbn [or_trap mbind outcome_bind].
  destruct p as [|v p]; [exists w; rewrite app_nil_r; split_and!; eauto using same_segments_refl|].
  destruct (write_typed_block_ok w s c o fl (v :: p) (v :: p)) as (w1 & n & -> & Hcb & Hc1 & Hs1 & Hoth); try done.
  cbn [mbind outcome_bind]. eexists. split; [done|]. rewrite <- Hcb in Hb.
  change (ArrayWriter (outputs w1) _ _) with (set_buffer s c [] b
    (next_flush config (nsegments w1) (ncolumns w1) (total_bytes_written b + n) (total_elements_written b + Z.of_nat (length (v :: p))))
    (total_bytes_written b + n) (total_elements_written b + Z.of_nat (length (v :: p))) w1).
  split_and!.
  - pose proof (set_buffer_cell w1 s c b (next_flush config (nsegments w1) (ncolumns w1) (total_bytes_written b + n)
      (total_elements_written b + Z.of_nat (length (v :: p)))) (total_bytes_written b + n)
      (total_elements_written b + Z.of_nat (length (v :: p))) [] s c _ _ Hb Hc1) as H. by rewrite decide_True in H.
  - destruct Hs1 as (Hl & Hs1). split; [|exact Hs1]. cbn [column_buffers set_buffer]. by rewrite length_insert.
  - intros s' c' fl' p' Hne Hc'.
    pose proof (set_buffer_cell w1 s c b (next_flush config (nsegments w1) (ncolumns w1) (total_bytes_written b + n)
      (total_elements_written b + Z.of_nat (length (v :: p)))) (total_bytes_written b + n)
      (total_elements_written b + Z.of_nat (length (v :: p))) [] s' c' _ _ Hb (Hoth _ _ _ _ Hne Hc')) as H.
    by rewrite decide_False in H.
Qed.

(** ** The whole writer *)

Context (index_file : name) (ns nc : nat).

(** The file of a segment ends in its footer, whose size comes last. *)
Definition closed (o : segment_output) : Prop :=
  ∃ body footer, save_blocks pad (blocks o) = Some footer ∧
    contents o = body ++ footer ++ le_bytes 8 (Z.of_nat (length footer)).

(** The values [vals s c] have been written to column [c] of segment [s], and the first [k]
    segments have been closed. *)
Record writer_ok (k : nat) (w : array_writer) (vals : nat → nat → list flexible_type) : Prop := {
  ok_nsegments : length (outputs w) = ns;
  ok_ncolumns : length (column_buffers w) = nc;
  ok_sizes : map length (segment_sizes w) = replicate nc ns;
  ok_segments : ∀ s o, outputs w !! s = Some o →
    segment_file o = segment_file_name index_file s ∧ length (blocks o) = nc ∧ if decide (s < k)%nat then closed o else writing o;
  ok_cells : ∀ s c, (s < ns)%nat → (c < nc)%nat →
    ∃ fl p, cell w s c fl p ∧ vals s c = fl ++ p ∧ ((s < k)%nat → p = []);
}.

Lemma same_segments_ok k s w w' vals :
  writer_ok k w vals → same_segments s w w' → (k ≤ s)%nat →
  length (outputs w') = ns ∧ length (column_buffers w') = nc ∧ map length (segment_sizes w') = replicate nc ns ∧
  ∀ s' o, outputs w' !! s' = Some o →
    segment_file o = segment_file_name index_file s' ∧ length (blocks o) = nc ∧ if decide (s' < k)%nat then closed o else writing o.
Proof.
  intros [Hn Hc Hz Hs _] (Hl & Hz' & o & o' & Ho & -> & Hw & Hf & Hb) Hk. rewrite length_insert. split_and!; [done|congruence|by rewrite Hz'|].
  intros s' o1 H1. destruct (Hs s o Ho) as (? & ? & _). destruct (decide (s' = s)) as [->|Hne].
  - rewrite list_lookup_insert_eq in H1 by (by eapply lookup_lt_Some). injection H1 as <-.
    rewrite decide_False by lia. split_and!; congruence.
  - rewrite list_lookup_insert_ne in H1 by done. by apply Hs.
Qed.

Lemma same_segments_set_buffer s c p b e1 e2 e3 w w' :
  same_segments s w w' → same_segments s w (set_buffer s c p b e1 e2 e3 w').
Proof. intros (Hl & H). split; [|exact H]. cbn [column_buffers set_buffer]. by rewrite length_insert. Qed.

(** The values after [vs] is written to column [c] of segment [s]. *)
Definition add_values (s c : nat) (vs : list flexible_type) (vals : nat → nat → list flexible_type) : nat → nat → list flexible_type :=
  λ s' c', if decide (s' = s ∧ c' = c) then vals s' c' ++ vs else vals s' c'.

Lemma push_values_ok k w vals s c vs :
  writer_ok k w vals → (k ≤ s < ns)%nat → (c < nc)%nat → storable fuel (vals s c ++ vs) →
  ∃ w', push_values oob config c s vs w = Ok w' ∧ writer_ok k w' (add_values s c vs vals).
Proof.
  intros Hok Hs Hc Hst. destruct (ok_cells _ _ _ Hok s c) as (fl & p & Hcell & Hv & _); [lia..|].
  destruct (cell_buffer _ _ _ _ _ Hcell) as (b & Hb & Hp).
  destruct (cell_file _ _ _ _ _ Hcell) as (o & _ & Ho & _).
  destruct (ok_segments _ _ _ Hok s o Ho) as (_ & _ & Hw). rewrite decide_False in Hw by lia.
  unfold push_values. rewrite Hb. cbn [or_trap mbind outcome_bind]. rewrite (modify_ok _ _ _ _ Hp). cbn [mbind outcome_bind].
  rewrite list_lookup_insert_eq by (by eapply lookup_lt_Some). cbn [or_trap mbind outcome_bind].
  change (ArrayWriter (outputs w) _ _) with
    (set_buffer s c (p ++ vs) b (elements_before_flush b) (total_bytes_written b) (total_elements_written b) w).
  set (w1 := set_buffer _ _ _ _ _ _ _ w).
  assert (∀ s' c' fl' p', cell w s' c' fl' p' → cell w1 s' c' fl' (if decide (s' = s ∧ c' = c) then p ++ vs else p')) as H1.
  { intros. by apply set_buffer_cell. }
  assert (same_segments s w w1) as Hs1 by (by eapply same_segments_set_buffer, same_segments_refl).
  pose proof (H1 _ _ _ _ Hcell) as Hcell1. rewrite decide_True in Hcell1 by done.
  assert (∃ w' fl' p', (if elements_before_flush b <=? Z.of_nat (length (p ++ vs)) then flush_block oob config c s w1 else Ok w1) = Ok w' ∧
    same_segments s w1 w' ∧ cell w' s c fl' p' ∧ fl ++ p ++ vs = fl' ++ p' ∧
    ∀ s' c' fl' p', ¬ (s' = s ∧ c' = c) → cell w1 s' c' fl' p' → cell w' s' c' fl' p') as (w' & fl' & p' & -> & Hs2 & Hcell' & Heq & Hoth).
  { destruct (_ <=? _).
    - destruct (flush_block_ok w1 s c o fl (p ++ vs)) as (w' & -> & ? & ? & ?); try done.
      { rewrite Hv, <- app_assoc in Hst. by apply storable_app in Hst as [_ ?]. }
      exists w', (fl ++ p ++ vs), []. split_and!; try done. by rewrite app_nil_r.
    - exists w1, fl, (p ++ vs). split_and!; try done. by apply (same_segments_refl s w1 o). }
  exists w'. split; [done|].
  destruct (same_segments_ok k s w w' vals Hok (same_segments_trans _ _ _ _ Hs1 Hs2)) as (? & ? & ? & ?); [lia|].
  split; [done..|]. intros s' c' Hs' Hc'. unfold add_values. destruct (decide (s' = s ∧ c' = c)) as [[-> ->]|Hne].
  - exists fl', p'. split_and!; [done| |lia]. by rewrite Hv, <- app_assoc, Heq.
  - destruct (ok_cells _ _ _ Hok s' c' Hs' Hc') as (fl2 & p2 & Hc2 & ? & ?). exists fl2, p2. split_and!; try done.
    apply Hoth; [done|]. specialize (H1 _ _ _ _ Hc2). by rewrite decide_False in H1.
Qed.

(** ** Closing *)

(** The columns [js] of the segment have nothing left in their buffers. *)
Definition emptied (w : array_writer) (s : nat) (js : list nat) : Prop :=
  Forall (λ c, ∀ fl p, cell w s c fl p → p = []) js.

Lemma cell_pending w s c fl p fl' p' : cell w s c fl p → cell w s c fl' p' → p = p'.
Proof.
  intros [_ (b & Hb & Hp) _] [_ (b' & Hb' & Hp') _]. congruence.
Qed.

Lemma flush_columns_ok k js w vals s :
  writer_ok k w vals → (k ≤ s < ns)%nat → Forall (λ c, (c < nc)%nat) js → (∀ c, storable fuel (vals s c)) →
  ∃ w', flush_columns oob config js s w = Ok w' ∧ writer_ok k w' vals ∧ emptied w' s js ∧
    ∀ js', emptied w s js' → Forall (λ c, (c < nc)%nat) js' → emptied w' s js'.
Proof.
  intros Hok Hs Hjs Hst. revert w Hok. induction Hjs as [|c js Hc _ IH]; intros w Hok.
  { exists w. split_and!; [done|done|constructor|done]. }
  cbn [flush_columns]. destruct (ok_cells _ _ _ Hok s c) as (fl & p & Hcell & Hv & _); [lia..|].
  destruct (cell_file _ _ _ _ _ Hcell) as (o & _ & Ho & _).
  destruct (ok_segments _ _ _ Hok s o Ho) as (_ & _ & Hw). rewrite decide_False in Hw by lia.
  destruct (flush_block_ok w s c o fl p) as (w1 & -> & Hcell1 & Hs1 & Hoth); try done.
  { specialize (Hst c). rewrite Hv in Hst. by apply storable_app in Hst as [_ ?]. }
  cbn [mbind outcome_bind].
  assert (writer_ok k w1 vals) as Hok1.
  { destruct (same_segments_ok k s w w1 vals Hok Hs1) as (? & ? & ? & ?); [lia|]. split; [done..|].
    intros s' c' Hs' Hc'. destruct (decide (s' = s ∧ c' = c)) as [[-> ->]|Hne].
    - exists (fl ++ p), []. by rewrite app_nil_r.
    - destruct (ok_cells _ _ _ Hok s' c' Hs' Hc') as (fl2 & p2 & ? & ? & ?). exists fl2, p2. split_and!; auto. }
  assert (∀ js', emptied w s js' → Forall (λ c, (c < nc)%nat) js' → emptied w1 s (c :: js')) as Hkeep.
  { intros js' He Hb. apply Forall_cons. split; [intros fl' p' Hp; by apply (cell_pending _ _ _ _ _ _ _ Hp Hcell1)|].
    unfold emptied in He. rewrite Forall_forall in He, Hb |- *. intros c' Hin fl' p' Hp.
    destruct (decide (c' = c)) as [->|Hne]; [by apply (cell_pending _ _ _ _ _ _ _ Hp Hcell1)|].
    destruct (ok_cells _ _ _ Hok s c') as (fl2 & p2 & Hc2 & _); [lia|by apply Hb|].
    rewrite (He c' Hin fl2 p2 Hc2) in Hc2. eapply cell_pending; [exact Hp|]. apply Hoth; [tauto|exact Hc2]. }
  destruct (IH w1 Hok1) as (w' & -> & Hok' & He' & Hk'). exists w'. split_and!; [done|done| |].
  - apply Forall_cons. split; [|exact He'].
    assert (emptied w' s [c]) as H1; [|by apply Forall_cons in H1 as [? _]].
    apply Hk'; [|by constructor]. apply Hkeep; constructor.
  - intros js' He Hb. specialize (Hkeep js' He Hb). apply Forall_cons in Hkeep as [_ ?]. auto.
Qed.

Lemma wconcat_some {A} (f : A → writer) l : (∀ x, is_Some (f x)) → is_Some (wconcat f l).
Proof.
  intros Hf. induction l as [|x l [y IH]]; [by eexists|]. cbn [wconcat]. destruct (Hf x) as [z Hz].
  rewrite Hz, IH. by eexists.
Qed.

Lemma save_blocks_some bs : is_Some (save_blocks pad bs).
Proof.
  assert (∀ l, is_Some (save_column pad l)) as Hc.
  { intros l. unfold save_column. destruct (wconcat_some (save_block_info pad) l) as [y ->]; by eexists. }
  unfold save_blocks. destruct (wconcat_some (save_column pad) bs Hc) as [y ->]. by eexists.
Qed.

Lemma close_segment_ok w vals s :
  writer_ok s w vals → (s < ns)%nat → emptied w s (seq 0 nc) →
  ∃ w', close_segment pad s w = Ok w' ∧ writer_ok (S s) w' vals.
Proof.
  intros Hok Hs He. destruct (lookup_lt_is_Some_2 (outputs w) s) as [o Ho]; [by rewrite (ok_nsegments _ _ _ Hok)|].
  unfold close_segment, emit_footer. rewrite Ho. cbn [or_trap mbind outcome_bind].
  destruct (save_blocks_some (blocks o)) as [footer Hf]. rewrite Hf. cbn [or_trap mbind outcome_bind].
  eexists. split; [done|]. destruct Hok as [Hn Hc Hz Hsegs Hcells]. split; cbn [outputs column_buffers].
  - by rewrite length_insert.
  - done.
  - done.
  - intros s' o' Ho'. destruct (decide (s' = s)) as [->|Hne].
    + rewrite list_lookup_insert_eq in Ho' by (by eapply lookup_lt_Some). injection Ho' as <-.
      destruct (Hsegs s o Ho) as (? & ? & _). rewrite decide_True by lia. split_and!; [done..|].
      exists (contents o), footer. done.
    + rewrite list_lookup_insert_ne in Ho' by done. destruct (Hsegs s' o' Ho') as (? & ? & H). split_and!; [done..|].
      destruct (decide (s' < s)%nat); [rewrite decide_True by lia|rewrite decide_False by lia]; done.
  - intros s' c Hs' Hc'. destruct (Hcells s' c Hs' Hc') as (fl & p & Hcell & Hv & Hp). exists fl, p. split_and!; [|done|].
    + destruct Hcell as [(o' & infos & Ho' & Hi & Hst) Hb Hsz]. split; [|done|done]. cbn [outputs].
      destruct (decide (s' = s)) as [->|Hne]; [|exists o', infos; by rewrite list_lookup_insert_ne].
      rewrite Ho in Ho'. injection Ho' as <-. eexists _, infos. split; [apply list_lookup_insert_eq; by eapply lookup_lt_Some|].
      split; [done|]. by apply column_stored_app.
    + intros Hlt. destruct (decide (s' = s)) as [->|Hne]; [|apply Hp; lia].
      unfold emptied in He. rewrite Forall_forall in He. apply (He c) with (fl := fl); [|done]. apply list_elem_of_In, in_seq. lia.
Qed.

Lemma close_segments_ok n k w vals :
  writer_ok k w vals → (k + n ≤ ns)%nat → (∀ s c, storable fuel (vals s c)) →
  ∃ w', close_segments oob config pad (seq k n) w = Ok w' ∧ writer_ok (k + n) w' vals.
Proof.
  revert k w. induction n as [|n IH]; intros k w Hok Hn Hst.
  { exists w. by rewrite Nat.add_0_r. }
  cbn [seq close_segments]. unfold flush_segment, ncolumns. rewrite (ok_ncolumns _ _ _ Hok).
  destruct (flush_columns_ok k (seq 0 nc) w vals k) as (w1 & -> & Hok1 & He & _); [done|lia| |done|].
  { apply Forall_forall. intros c Hin%list_elem_of_In%in_seq. lia. }
  cbn [mbind outcome_bind]. destruct (close_segment_ok w1 vals k) as (w2 & -> & Hok2); [done|lia|done|].
  cbn [mbind outcome_bind]. destruct (IH (S k) w2) as (w' & -> & Hok'); [done|lia|done|].
  exists w'. by replace (k + S n)%nat with (S k + n)%nat by lia.
Qed.

Lemma close_writer_ok w vals : writer_ok 0 w vals → (∀ s c, storable fuel (vals s c)) →
  ∃ w', close oob config pad w = Ok w' ∧ writer_ok ns w' vals.
Proof.
  intros Hok Hst. unfold close, nsegments. rewrite (ok_nsegments _ _ _ Hok). by apply (close_segments_ok ns 0).
Qed.

Lemma storable_nil : storable fuel [].
Proof. split_and!; [done|unfold is_u; cbn; lia|unfold is_u; cbn; lia]. Qed.

Lemma open_ok : nc ≠ 0%nat → writer_ok 0 (open index_file ns nc) (λ _ _, []).
Proof.
  intros Hc. unfold open. destruct (Nat.eqb_spec nc 0) as [?|_]; [done|]. split; cbn [outputs column_buffers].
  - by rewrite length_map, length_seq.
  - by rewrite length_replicate.
  - cbn [segment_sizes]. etrans; [apply (fmap_replicate length)|]. by rewrite length_replicate.
  - intros s o Ho. rewrite list_lookup_fmap in Ho. apply fmap_Some in Ho as (s' & Hs' & ->).
    apply lookup_seq in Hs' as [-> _]. cbn. by rewrite length_replicate.
  - intros s c Hs Hcc. exists [], []. split_and!; [|done|done]. split.
    + eexists _, []. cbn [outputs]. rewrite list_lookup_fmap, lookup_seq_lt by done. split; [done|]. cbn.
      rewrite lookup_replicate_2 by done. split; [done|]. exists []. split; [constructor|done].
    + eexists. cbn [column_buffers]. rewrite lookup_replicate_2 by done. split; [done|]. cbn. by rewrite lookup_replicate_2.
    + eexists. cbn [segment_sizes]. rewrite lookup_replicate_2 by done. split; [done|]. cbn. by rewrite lookup_replicate_2.
Qed.

(** ** Writing a sequence of values *)

(** What is written: a column, a segment, and values. *)
Definition write : Type := nat * nat * list flexible_type.

Fixpoint push_all (ops : list write) (w : array_writer) : outcome array_writer :=
  match ops with
  | [] => Ok w
  | (c, s, vs) :: ops => w ← push_values oob config c s vs w; push_all ops w
  end.

Definition written (ops : list write) (s c : nat) : list flexible_type :=
  concat (map snd (filter (λ o, o.1 = (c, s)) ops)).

Lemma written_cons c s vs ops s' c' :
  written ((c, s, vs) :: ops) s' c' = (if decide (s' = s ∧ c' = c) then vs else []) ++ written ops s' c'.
Proof.
  unfold written. rewrite filter_cons. cbn [fst]. case_decide as H; case_decide as H'; try done.
  - injection H as -> ->. tauto.
  - destruct H' as [-> ->]. done.
Qed.

Lemma push_all_ok ops w vals :
  writer_ok 0 w vals → Forall (λ o : write, (o.1.1 < nc)%nat ∧ (o.1.2 < ns)%nat) ops →
  (∀ s c, storable fuel (vals s c ++ written ops s c)) →
  ∃ w' vals', push_all ops w = Ok w' ∧ writer_ok 0 w' vals' ∧ ∀ s c, vals' s c = vals s c ++ written ops s c.
Proof.
  intros Hok Hops. revert w vals Hok. induction Hops as [|[[c s] vs] ops [Hc Hs] _ IH]; intros w vals Hok Hst.
  { exists w, vals. split_and!; [done|done|]. intros. unfold written. cbn. by rewrite app_nil_r. }
  cbn [push_all].
  assert (∀ s' c', vals s' c' ++ written ((c, s, vs) :: ops) s' c' = add_values s c vs vals s' c' ++ written ops s' c') as Heq.
  { intros. rewrite written_cons. unfold add_values. case_decide; [by rewrite app_assoc|done]. }
  destruct (push_values_ok 0 w vals s c vs) as (w1 & -> & Hok1); [done|cbn in *; lia|done| |].
  { specialize (Hst s c). rewrite Heq in Hst. apply storable_app in Hst as [Hst _]. unfold add_values in Hst.
    by rewrite decide_True in Hst. }
  cbn [mbind outcome_bind]. destruct (IH w1 _ Hok1) as (w' & vals' & -> & Hok' & Hv).
  { intros. rewrite <- Heq. apply Hst. }
  exists w', vals'. split_and!; [done|done|]. intros. by rewrite Heq, Hv.
Qed.

End segments.
End SArraySegmentSpec.
