(* ===== verification/BlockManagerSpec.v ===== *)
(** What the block manager promises: the footer of a closed segment is found and read back, the
    name of a column is cut where it was put together, and a segment is open while one of its
    columns is. *)
From S2P Require Import Prelude FlexType FlexOps FlexOpsSpec TypeEncoding TypeEncodingSpec SFrame SFrameSpec.
From S2P Require Import SArrayWriter BlockManager SArrayWriterSpec.
Import FlexType FlexOps FlexOpsSpec TypeEncoding TypeEncodingSpec SFrameSpec SArrayWriter BlockManager SArrayWriterSpec SArraySegmentSpec.
Import SFrame(or_trap).
Local Open Scope Z_scope.
Local Open Scope sframe_scope.

Module BlockManagerSpec.

(** ** The footer *)

Section footer.
Context {C : Compressor} {CL : CompressorLaws C} (pad : bytes) (pad_length : length pad = 6%nat) (fuel : nat).

Definition info_fits (i : block_info) : Prop :=
  is_u64 (offset i) ∧ is_u64 (length_on_disk i) ∧ is_u64 (block_size i) ∧ is_u64 (num_elem i) ∧ is_u64 (flags i) ∧ is_u 16 (content_type i).

Lemma block_info_round_trip i : info_fits i → encodes (save_block_info pad i) load_block_info i.
Proof.
  intros (Ho & Hl & Hb & Hn & Hf & Hc). unfold save_block_info, load_block_info.
  do 6 (eapply encodes_bind; [by apply encodes_le|]).
  pose proof (encodes_read pad) as Hp. rewrite pad_length in Hp.
  apply (encodes_map (Some pad) (read 6) (λ _, MkBlockInfo (offset i) (length_on_disk i) (block_size i) (num_elem i) (flags i) (content_type i))) in Hp.
  by destruct i.
Qed.

Lemma counted_list_round_trip {A} (enc : A → writer) (dec : reader A) l :
  is_u64 (Z.of_nat (length l)) → Forall (λ a, encodes (enc a) dec a) l →
  encodes (write_le 8 (Z.of_nat (length l)) +++ wconcat enc l) (n ← read_le 8; read_many (Z.to_nat n) dec) l.
Proof.
  intros Hl Ha. eapply encodes_bind; [by apply encodes_le|]. rewrite Nat2Z.id. by apply encodes_many.
Qed.

Definition column_fits (l : list block_info) : Prop := is_u64 (Z.of_nat (length l)) ∧ Forall info_fits l.

Lemma save_blocks_round_trip bs : is_u64 (Z.of_nat (length bs)) → Forall column_fits bs →
  encodes (save_blocks pad bs) load_blocks bs.
Proof.
  intros Hl Hb. apply counted_list_round_trip; [done|]. eapply Forall_impl; [exact Hb|]. intros l [Hn Hi].
  apply counted_list_round_trip; [done|]. eapply Forall_impl; [exact Hi|]. apply block_info_round_trip.
Qed.

(** What is in a file whose sizes are those of a [size_t]. *)
Definition fits (o : segment_output) : Prop :=
  is_u64 (Z.of_nat (length (contents o))) ∧ is_u64 (Z.of_nat (length (blocks o))) ∧
  Forall (Forall (λ i, block_size i < 2 ^ 64)) (blocks o).

#[global] Instance fits_dec o : Decision (fits o).
Proof. unfold fits. apply _. Defined.

Lemma stores_fits f i data : stores fuel f i data → is_u64 (Z.of_nat (length f)) → is_u64 (Z.of_nat (length data)) →
  block_size i < 2 ^ 64 → info_fits i.
Proof using Type.
  clear pad_length. intros [(? & ? & ?) Hn (Hf & Hct & ?) _ _] Hl Hd Hb. unfold info_fits. rewrite Hn, Hct.
  pose proof (is_u_mono 8 64 (flags i)) as Hm. split_and!; try done; unfold is_u in *; try lia; apply Hm; (lia || done).
Qed.

Lemma column_stored_fits f infos vs : column_stored fuel f infos vs → is_u64 (Z.of_nat (length f)) → is_u64 (Z.of_nat (length vs)) →
  Forall (λ i, block_size i < 2 ^ 64) infos → column_fits infos.
Proof using Type.
  clear pad_length. intros (chunks & Hs & <-) Hf Hv Hb.
  assert ((length infos ≤ length (concat chunks))%nat ∧ Forall (λ d, (length d ≤ length (concat chunks))%nat) chunks) as [Hn Hd].
  { clear -Hs. induction Hs as [|i d infos chunks Hi _ [IH1 IH2]]; [done|]. cbn. rewrite length_app.
    pose proof (stores_some _ _ _ _ Hi) as Hne. destruct d as [|x d]; [done|]. cbn. split; [lia|].
    constructor; [cbn; lia|]. eapply Forall_impl; [exact IH2|]. cbn. lia. }
  split; [unfold is_u in *; lia|]. apply Forall_lookup_2. intros j i Hj.
  destruct (Forall2_lookup_l _ _ _ _ _ Hs Hj) as (d & Hdj & Hst).
  eapply stores_fits; [exact Hst|done| |by apply (Forall_lookup_1 _ _ _ _ Hb Hj)].
  pose proof (Forall_lookup_1 _ _ _ _ Hd Hdj). cbn in *. unfold is_u in *. lia.
Qed.

Lemma init_segment_closed o : closed pad o → fits o → Forall column_fits (blocks o) → init_segment (contents o) = Ok (blocks o).
Proof.
  intros (body & footer & Hf & Hc) (Hl & Hn & _) Hb. unfold init_segment. rewrite Hc in Hl |- *.
  rewrite !length_app, length_le_bytes in Hl |- *. destruct (Nat.ltb_spec (length body + (length footer + 8)) 8); [lia|].
  rewrite app_assoc. replace (length body + (length footer + 8) - 8)%nat with (length (body ++ footer)) by (rewrite length_app; lia).
  rewrite drop_app_length, le_num_le_bytes, uw_small by (unfold is_u in *; cbn in *; lia).
  destruct (Z.ltb_spec (Z.of_nat (length body + (length footer + 8)) - Z.of_nat (length footer) - 8) 0); [lia|].
  replace (Z.to_nat _) with (length body) by lia. rewrite <- app_assoc, drop_app_length.
  destruct (save_blocks_round_trip (blocks o) Hn Hb) as (bs & Hbs & Hrt). rewrite Hf in Hbs. injection Hbs as <-.
  by rewrite Hrt.
Qed.
End footer.

(** ** Names *)

Definition decimal (l : name) : Prop := l ≠ [] ∧ Forall (λ c, 48 ≤ c ≤ 57) l.

Lemma decimal_int n : 0 ≤ n → decimal (int_to_string n).
Proof. split; [apply int_to_string_some|by apply int_to_string_digits]. Qed.

Lemma not_space c : 48 ≤ c ≤ 58 → is_space c = false.
Proof. intros. unfold is_space. destruct (Z.eqb_spec c 32), (Z.leb_spec c 13); try lia. Qed.

Lemma skip_spaces_head c s : is_space c = false → skip_spaces (c :: s) = c :: s.
Proof. intros H. cbn. by rewrite H. Qed.

Lemma strtol_decimal l : decimal l → parse_digits 0 l < 2 ^ 63 → 0 ≤ parse_digits 0 l → strtol l = Some (parse_digits 0 l).
Proof.
  intros [Hne Hd] Hlt Hge. destruct l as [|c l]; [done|]. unfold strtol.
  pose proof (Forall_inv Hd) as Hc. cbn beta in Hc.
  rewrite skip_spaces_head by (apply not_space; lia). cbv zeta.
  destruct (Z.eqb_spec c 45); [lia|]. destruct (Z.eqb_spec c 43); [lia|].
  assert (forallb is_digit (c :: l) = true) as ->.
  { apply forallb_forall. intros x Hin%list_elem_of_In. unfold is_digit.
    rewrite Forall_forall in Hd. specialize (Hd x Hin). cbn beta in Hd.
    destruct (Z.leb_spec 48 x), (Z.leb_spec x 57); done || lia. }
  destruct (Z.leb_spec (- 2 ^ 63) (parse_digits 0 (c :: l))); [|lia].
  destruct (Z.ltb_spec (parse_digits 0 (c :: l)) (2 ^ 63)); [done|lia].
Qed.

Lemma split_last_decimal l : decimal l → split_last l = None.
Proof.
  intros [_ Hd]. induction Hd as [|c l Hc _ IH]; [done|]. cbn. rewrite IH. destruct (Z.eqb_spec c 58); [lia|done].
Qed.

Lemma split_last_app f l : decimal l → split_last (f ++ 58 :: l) = Some (f, l).
Proof.
  intros Hl. induction f as [|c f IH]; cbn [app split_last]; [|by rewrite IH].
  rewrite split_last_decimal by done. done.
Qed.

(** A name that [trim] leaves as it is, whatever follows it. *)
Definition trimmed (f : name) : Prop := match f with c :: _ => is_space c = false | [] => False end.

Lemma trim_decimal f l : trimmed f → decimal l → trim (f ++ l) = f ++ l.
Proof.
  intros Hf [Hne Hd]. destruct f as [|c f]; [done|]. unfold trim. cbn [app]. rewrite skip_spaces_head by done.
  destruct (exists_last Hne) as (l' & x & ->). rewrite app_comm_cons, app_assoc, rev_unit.
  apply Forall_app in Hd as [_ Hx%Forall_inv]. rewrite skip_spaces_head by (apply not_space; lia).
  by rewrite <- rev_unit, rev_involutive.
Qed.

(** The name of a column of a file is cut where it was put together. *)
Lemma parse_column_file f c : trimmed f → Z.of_nat c < 2 ^ 63 →
  parse_v2_segment_filename (column_file f c) = (f, Z.of_nat c).
Proof.
  intros Hf Hc. pose proof (decimal_int (Z.of_nat c) ltac:(lia)) as Hd. unfold parse_v2_segment_filename, column_file.
  rewrite app_assoc, trim_decimal; [|by destruct f|done]. rewrite <- app_assoc. cbn [app]. rewrite split_last_app by done.
  pose proof (parse_int_to_string (Z.of_nat c) ltac:(lia)) as Hp. rewrite strtol_decimal, Hp by (done || lia).
  rewrite uw_small; [done|]. unfold is_u. lia.
Qed.

Lemma parse_zeros n s : parse_digits 0 (replicate n 48 ++ s) = parse_digits 0 s.
Proof. induction n as [|n IH]; [done|]. exact IH. Qed.

(** Segments have different files. *)
Lemma segment_file_name_inj idx s s' : segment_file_name idx s = segment_file_name idx s' → s = s'.
Proof.
  unfold segment_file_name. intros H%app_inv_head%app_inv_head. apply (f_equal (parse_digits 0)) in H.
  unfold pad_zeros in H. rewrite !parse_zeros, !parse_int_to_string in H by lia. lia.
Qed.

Lemma segment_file_name_trimmed idx s : match idx with c :: _ => is_space c = false | [] => True end → trimmed (segment_file_name idx s).
Proof. unfold segment_file_name. destruct idx as [|c idx]; [done|]. intros H. destruct (length (c :: idx) - 5)%nat; done. Qed.

(** No number comes after the last colon of such a name. *)
Lemma skip_spaces_in c l : is_space c = false → c ∈ l → c ∈ skip_spaces l.
Proof.
  intros Hc. induction l as [|x l IH]; [done|]. intros Hin. cbn. destruct (is_space x) eqn:Hx; [|done].
  apply elem_of_cons in Hin as [-> | Hin]; [congruence|auto].
Qed.

Lemma strtol_dot l : 46 ∈ l → strtol l = None.
Proof.
  intros Hin. assert (46 ∈ skip_spaces l) as Hs by (by apply skip_spaces_in). destruct l as [|x l]; [by apply not_elem_of_nil in Hin|].
  unfold strtol. destruct (skip_spaces (x :: l)) as [|c t]; [done|]. cbv zeta.
  match goal with |- (let '(negative, digits) := ?e in _) = _ =>
    assert (∃ b ds, e = (b, ds) ∧ 46 ∈ ds) as (b & ds & -> & Hds) end.
  { destruct (Z.eqb_spec c 45) as [->|].
    - eexists true, t. split; [done|]. by apply elem_of_cons in Hs as [?|?].
    - destruct (Z.eqb_spec c 43) as [->|]; [|by eexists false, _]. eexists false, t. split; [done|]. by apply elem_of_cons in Hs as [?|?]. }
  destruct ds as [|d ds]; [done|]. assert (forallb is_digit (d :: ds) = false) as ->; [|done].
  apply not_true_iff_false. intros H. rewrite (forallb_forall is_digit (d :: ds)) in H. specialize (H 46 ltac:(by apply list_elem_of_In)). done.
Qed.

Lemma split_last_suffix f l a t : Forall (λ c, c ≠ 58) l → split_last (f ++ l) = Some (a, t) → ∃ t', t = t' ++ l.
Proof.
  intros Hl. revert a t. induction f as [|c f IH]; intros a t; cbn [app split_last].
  - assert (split_last l = None) as ->; [|done]. induction Hl as [|c l Hc _ IH]; [done|]. cbn. rewrite IH. by destruct (Z.eqb_spec c 58).
  - destruct (split_last (f ++ l)) as [[a' t']|] eqn:E; [intros [= <- <-]; by eapply IH|].
    destruct (c =? 58); [|done]. intros [= <- <-]. by exists f.
Qed.

(** The name of a segment is parsed to itself. *)
Lemma parse_segment_file idx s : match idx with c :: _ => is_space c = false | [] => True end →
  (parse_v2_segment_filename (segment_file_name idx s)).1 = segment_file_name idx s.
Proof.
  intros Hidx. unfold parse_v2_segment_filename.
  set (ds := pad_zeros 4 (int_to_string (Z.of_nat s))). assert (decimal ds) as Hd.
  { destruct (decimal_int (Z.of_nat s) ltac:(lia)) as [Hne Hd]. unfold ds, pad_zeros. split.
    - by intros [_ ?]%app_eq_nil.
    - apply Forall_app. split; [|done]. apply Forall_replicate. lia. }
  assert (segment_file_name idx s = (take (length idx - 5) idx ++ [46]) ++ ds) as E by (unfold segment_file_name; by rewrite <- app_assoc).
  assert (trim (segment_file_name idx s) = segment_file_name idx s) as ->.
  { rewrite E. apply trim_decimal; [|done]. destruct idx as [|c idx]; [done|]. by destruct (length (c :: idx) - 5)%nat. }
  destruct (split_last (segment_file_name idx s)) as [[a t]|] eqn:Hs; [|done].
  unfold segment_file_name in Hs. apply split_last_suffix in Hs as [t' ->].
  - by rewrite strtol_dot by (apply elem_of_app; right; left).
  - cbn [app]. constructor; [done|]. destruct Hd as [_ Hd]. eapply Forall_impl; [exact Hd|]. cbn. lia.
Qed.

(** ** The open segments *)

Section manager.
Context {C : Compressor} (fs : gmap name bytes).

(** The file and the blocks of an open segment. *)
Definition segment_of (m : block_manager) (id : nat) : option (name * list (list block_info)) :=
  (λ s, (file s, seg_blocks s)) <$> m_segments m !! id.

(** The number of the addresses [l] that are columns of the segment [id]. *)
Definition opened (l : list column_address) (id : nat) : nat := length (filter (λ a, a.1 = id) l).

(** The columns [l] are open: their segments are, no other segment is, and each segment counts its columns. *)
Record manager_ok (m : block_manager) (l : list column_address) : Prop := {
  mo_segment : ∀ id s, m_segments m !! id = Some s →
    (id < segment_id_counter m)%nat ∧ (0 < opened l id)%nat ∧ reference_count s = Z.of_nat (opened l id) ∧
    m_file_to_segments m !! file s = Some id ∧ ∃ f, get_segment_file_handle fs (file s) = Ok f ∧ init_segment f = Ok (seg_blocks s);
  mo_file : ∀ f id, m_file_to_segments m !! f = Some id → ∃ s, m_segments m !! id = Some s ∧ file s = f;
  mo_open : ∀ id, (0 < opened l id)%nat → is_Some (m_segments m !! id);
}.

Lemma opened_cons a l id : opened (a :: l) id = ((if decide (a.1 = id) then 1 else 0) + opened l id)%nat.
Proof. unfold opened. rewrite filter_cons. by case_decide. Qed.

Lemma opened_perm l l' id : l ≡ₚ l' → opened l id = opened l' id.
Proof. intros H. unfold opened. by rewrite H. Qed.

Lemma opened_in a l : a ∈ l → (0 < opened l a.1)%nat.
Proof.
  intros H. unfold opened. assert (a ∈ filter (λ b, b.1 = a.1) l) as Hin by (by apply list_elem_of_filter).
  destruct (filter _ l); [by apply not_elem_of_nil in Hin|cbn; lia].
Qed.

Lemma new_manager_ok : manager_ok new_manager [].
Proof. split; intros *; cbn; rewrite ?lookup_empty; done || lia. Qed.

Lemma manager_ok_perm m l l' : l ≡ₚ l' → manager_ok m l → manager_ok m l'.
Proof.
  intros Hp [Hs Hf Ho]. split; [|done|]; intros *; rewrite <- !(opened_perm _ _ _ Hp); [by apply Hs|apply Ho].
Qed.

(** The manager after its segment [id] counts one more column. *)
Lemma counted_ok m l id s c : manager_ok m l → m_segments m !! id = Some s →
  manager_ok (Manager (segment_id_counter m) (<[id := Segment (file s) (seg_blocks s) (reference_count s + 1)]> (m_segments m))
    (m_file_to_segments m)) ((id, c) :: l).
Proof.
  intros [Hs Hf Ho] Hid. destruct (Hs id s Hid) as (H1 & H2 & H3 & H4 & H5). split; cbn [m_segments segment_id_counter m_file_to_segments].
  - intros id' s' H. rewrite opened_cons. cbn [fst]. destruct (decide (id = id')) as [->|Hne].
    + rewrite lookup_insert_eq in H. injection H as <-. cbn. split_and!; [done|lia|lia|done|done].
    + rewrite lookup_insert_ne in H by done. by apply Hs.
  - intros f id' (s' & Hs' & Hfile)%Hf. destruct (decide (id = id')) as [->|Hne].
    + rewrite Hid in Hs'. injection Hs' as <-. eexists. by rewrite lookup_insert_eq.
    + exists s'. by rewrite lookup_insert_ne.
  - intros id'. rewrite opened_cons. cbn [fst]. destruct (decide (id = id')) as [->|Hne]; [by rewrite lookup_insert_eq|].
    rewrite lookup_insert_ne by done. apply Ho.
Qed.

(** [open_column] on a file with a footer. *)
Lemma open_column_ok m l cf fname col f bs :
  manager_ok m l → parse_v2_segment_filename cf = (fname, col) → col ≠ u64 (-1) →
  get_segment_file_handle fs fname = Ok f → init_segment f = Ok bs →
  ∃ id m', open_column fs cf m = Ok ((id, col), m') ∧ manager_ok m' ((id, col) :: l) ∧
    segment_of m' id = Some (fname, bs) ∧ ∀ a, a ∈ l → segment_of m' a.1 = segment_of m a.1.
Proof.
  intros Hok Hp Hcol Hf Hi. unfold open_column. rewrite Hp. destruct (Z.eqb_spec col (u64 (-1))) as [?|_]; [done|].
  destruct (m_file_to_segments m !! fname) as [id|] eqn:Hid.
  - destruct (mo_file _ _ Hok _ _ Hid) as (s & Hs & Hfile). cbn [mbind outcome_bind]. rewrite Hs. cbn [or_throw mbind outcome_bind].
    eexists id, _. split; [done|]. split_and!; [by apply counted_ok| |].
    + unfold segment_of. cbn. rewrite lookup_insert_eq. cbn. rewrite Hfile. do 2 f_equal.
      destruct (mo_segment _ _ Hok _ _ Hs) as (_ & _ & _ & _ & f' & Hf' & Hi'). rewrite Hfile, Hf in Hf'. injection Hf' as <-. congruence.
    + intros a _. unfold segment_of. cbn. destruct (decide (id = a.1)) as [->|Hne]; [by rewrite lookup_insert_eq, Hs|].
      by rewrite lookup_insert_ne.
  - rewrite Hf. cbn [mbind outcome_bind]. rewrite Hi. cbn [mbind outcome_bind m_segments].
    rewrite lookup_insert_eq. cbn [or_throw mbind outcome_bind]. set (id := segment_id_counter m).
    assert (m_segments m !! id = None) as Hnone.
    { destruct (m_segments m !! id) as [s|] eqn:Hs; [|done]. apply (mo_segment _ _ Hok) in Hs as [H _]. unfold id in H. lia. }
    assert (opened l id = 0%nat) as Hzero.
    { destruct (decide (opened l id = 0%nat)) as [|Hne]; [done|]. destruct (mo_open _ _ Hok id) as [s Hs]; [lia|congruence]. }
    eexists id, _. split; [done|]. cbn [segment_id_counter m_file_to_segments file seg_blocks reference_count].
    rewrite insert_insert_eq. split_and!.
    + split; cbn [m_segments segment_id_counter m_file_to_segments].
      * intros id' s' H. rewrite opened_cons. cbn [fst]. destruct (decide (id = id')) as [<-|Hne].
        -- rewrite lookup_insert_eq in H. injection H as <-. rewrite Hzero. cbn. rewrite lookup_insert_eq. split_and!; [lia|lia|lia|done|by exists f].
        -- rewrite lookup_insert_ne in H by done. destruct (mo_segment _ _ Hok _ _ H) as (? & ? & ? & Hff & ?). split_and!; try done || lia.
           rewrite lookup_insert_ne; [done|]. congruence.
      * intros g id'. destruct (decide (fname = g)) as [<-|Hne].
        -- rewrite lookup_insert_eq. intros [= <-]. eexists. by rewrite lookup_insert_eq.
        -- rewrite lookup_insert_ne by done. intros (s & Hs & Hfile)%(mo_file _ _ Hok). exists s. rewrite lookup_insert_ne; [done|].
           intros <-. congruence.
      * intros id'. rewrite opened_cons. cbn [fst]. destruct (decide (id = id')) as [<-|Hne]; [by rewrite lookup_insert_eq|].
        rewrite lookup_insert_ne by done. apply (mo_open _ _ Hok).
    + unfold segment_of. cbn. by rewrite lookup_insert_eq.
    + intros a Ha%opened_in. unfold segment_of. cbn. rewrite lookup_insert_ne; [done|]. intros E. rewrite <- E in Ha. lia.
Qed.

(** [close_column] on a column that is open. *)
Lemma close_column_ok m l a l' : manager_ok m l → l ≡ₚ a :: l' →
  ∃ m', close_column a m = Ok m' ∧ manager_ok m' l' ∧ ∀ b, b ∈ l' → segment_of m' b.1 = segment_of m b.1.
Proof.
  intros Hok Hperm. assert (∀ id, opened l id = ((if decide (a.1 = id) then 1 else 0) + opened l' id)%nat) as Hop.
  { intros id. by rewrite (opened_perm _ _ _ Hperm), opened_cons. }
  destruct (mo_open _ _ Hok a.1) as [s Hs]; [rewrite Hop, decide_True by done; lia|].
  destruct (mo_segment _ _ Hok _ _ Hs) as (Hlt & _ & Hcount & Hfile & Hfs). rewrite Hop, decide_True in Hcount by done.
  unfold close_column. rewrite Hs. cbn [or_throw mbind outcome_bind].
  destruct (Z.eqb_spec (reference_count s - 1) 0) as [Hz|Hz]; (eexists; split; [done|]).
  - assert (opened l' a.1 = 0%nat) as H0 by lia. split; [split; cbn [m_segments segment_id_counter m_file_to_segments]|].
    + intros id s' [Hne H]%lookup_delete_Some. destruct (mo_segment _ _ Hok _ _ H) as (? & Hpos & Hc & Hff & ?).
      rewrite Hop, decide_False in Hpos, Hc by done. split_and!; try done. rewrite lookup_delete_ne; [done|]. congruence.
    + intros g id [Hne H]%lookup_delete_Some. destruct (mo_file _ _ Hok _ _ H) as (s' & Hs' & Hfile'). exists s'.
      rewrite lookup_delete_ne; [done|]. congruence.
    + intros id Hid. rewrite lookup_delete_ne by (intros <-; lia). apply (mo_open _ _ Hok). rewrite Hop. lia.
    + intros b Hb%opened_in. unfold segment_of. cbn. rewrite lookup_delete_ne; [done|]. intros E. rewrite <- E in Hb. lia.
  - split; [split; cbn [m_segments segment_id_counter m_file_to_segments]|].
    + intros id s' H. destruct (decide (a.1 = id)) as [<-|Hne].
      * rewrite lookup_insert_eq in H. injection H as <-. cbn. split_and!; try done; lia.
      * rewrite lookup_insert_ne in H by done. destruct (mo_segment _ _ Hok _ _ H) as (? & Hpos & Hc & ?).
        rewrite Hop, decide_False in Hpos, Hc by done. split; [done|]. split; [done|]. split; [done|]. done.
    + intros g id (s' & Hs' & Hfile')%(mo_file _ _ Hok). destruct (decide (a.1 = id)) as [<-|Hne].
      * rewrite Hs in Hs'. injection Hs' as <-. eexists. by rewrite lookup_insert_eq.
      * exists s'. by rewrite lookup_insert_ne.
    + intros id Hid. destruct (decide (a.1 = id)) as [<-|Hne]; [by rewrite lookup_insert_eq|].
      rewrite lookup_insert_ne by done. apply (mo_open _ _ Hok). rewrite Hop. lia.
    + intros b _. unfold segment_of. cbn. destruct (decide (a.1 = b.1)) as [<-|Hne]; [by rewrite lookup_insert_eq, Hs|].
      by rewrite lookup_insert_ne.
Qed.

End manager.
End BlockManagerSpec.
