(* ===== verification/SArrayReaderSpec.v ===== *)
(** The invariant of the block cache of a reader of SArray files: whatever was read before and
    whatever is thrown out, an entry that has data goes on where it says it does. *)
From S2P Require Import Prelude Bitset FlexType FlexOps TypeEncoding TypeEncodingSpec SFrame SArrayWriter.
From S2P Require Import BlockManager SArrayReader.
Import FlexType FlexOps TypeEncoding TypeEncodingSpec SArrayWriter BlockManager SArrayReader.
Import SFrame(or_trap).
Local Open Scope Z_scope.
Local Open Scope sframe_scope.

Module SArrayReaderSpec.

Section reader.
Context {C : Compressor} (config : settings) (fuel : nat) (recycled : list flexible_type) (fs : gmap name bytes).

(** ** Blocks and ranges *)

(** Both decoders read the values [d] from a block; the one with a callback may go on after them. *)
Definition decodes (info : block_info) (bs : bytes) (d : list flexible_type) : Prop :=
  (∀ ret, ∃ rest, typed_decode fuel info ret bs = Some ((true, d), rest)) ∧
  ∃ extra rest, typed_decode_stream_callback fuel info bs = Some ((true, d ++ extra), rest).

(** The next value of a range is that of row [k] of the block. *)
Definition range_at (rd : encoded_block_range) (d : list flexible_type) (k : nat) : Prop :=
  ∃ extra, call_source fuel rd = Ok (drop k (d ++ extra)).

Lemma not_started_at info bs d : decodes info bs d → range_at (NotStarted info bs) d 0.
Proof. intros (_ & extra & rest & H). exists extra. cbn. by rewrite H. Qed.

Lemma skip_at rd d k n : range_at rd d k → ∃ rd', skip fuel n rd = Ok rd' ∧ range_at rd' d (k + n).
Proof.
  intros (extra & H). unfold skip. destruct (Nat.eqb_spec n 0) as [->|_].
  - exists rd. rewrite Nat.add_0_r. split; [done|by exists extra].
  - rewrite H. cbn [mbind outcome_bind]. eexists. split; [done|]. exists extra. cbn. by rewrite drop_drop.
Qed.

Lemma decode_to_at rd d k n : range_at rd d k → (k + n ≤ length d)%nat →
  ∃ rd', decode_to fuel n rd = Ok (take n (drop k d), rd') ∧ range_at rd' d (k + n).
Proof.
  intros (extra & H) Hn. unfold decode_to. destruct (Nat.eqb_spec n 0) as [->|_].
  - exists rd. rewrite Nat.add_0_r, take_0. split; [done|by exists extra].
  - assert (take n (drop k (d ++ extra)) = take n (drop k d)) as Ht.
    { by rewrite drop_app_le, take_app_le by (rewrite ?length_drop; lia). }
    rewrite H. cbn [mbind outcome_bind]. rewrite Ht. eexists. split; [done|]. exists extra. cbn. by rewrite drop_drop.
Qed.

(** ** The cache *)

(** The segments and the blocks of the column, and the values of the blocks. *)
Context (addrs : list column_address) (bl : list (column_address * nat)) (D : list (list flexible_type)).

(** The row at which a block starts. *)
Definition start (i : nat) : nat := length (concat (take i D)).

Definition entry_ok (i : nat) (c : cache_entry) : Prop :=
  has_data c = true → ∃ d, D !! i = Some d ∧
    if is_encoded c then ∃ info bs rd k, encoded_buffer c = Some (info, bs) ∧ decodes info bs d ∧
      encoded_buffer_reader c = Some rd ∧ range_at rd d k ∧ buffer_start_row c = (start i + k)%nat ∧ (k ≤ length d)%nat
    else buffer c = Some d ∧ buffer_start_row c = start i.

Record reader_ok (r : array_reader) : Prop := {
  ro_segments : m_segment_list r = addrs;
  ro_blocks : m_block_list r = bl;
  ro_length : length bl = length D;
  ro_rows : m_num_rows r = length (concat D);
  ro_starts : m_start_row r = map start (seq 0 (S (length D)));
  ro_cache : length (m_cache r) = length D;
  ro_wf : Bitset.wf (m_used_cache_entries r);
  ro_len : Bitset.len (m_used_cache_entries r) = length D;
  ro_entry : ∀ i c, m_cache r !! i = Some c → entry_ok i c ∧ Bitset.bit (m_used_cache_entries r) i = has_data c;
}.

Lemma ro_start r i : reader_ok r → (i ≤ length D)%nat → m_start_row r !! i = Some (start i).
Proof. intros H Hi. rewrite (ro_starts _ H), list_lookup_fmap, lookup_seq_lt by lia. done. Qed.

Lemma ro_lookup r i : reader_ok r → (i < length D)%nat → ∃ c, m_cache r !! i = Some c.
Proof. intros H Hi. apply lookup_lt_is_Some_2. by rewrite (ro_cache _ H). Qed.

(** One entry changes, and with it its bit. *)
Lemma update_ok r i c used size :
  reader_ok r → (i < length D)%nat → entry_ok i c → Bitset.wf used → Bitset.len used = length D →
  (∀ j, Bitset.bit used j = if (j =? i)%nat then has_data c else Bitset.bit (m_used_cache_entries r) j) →
  reader_ok (set_used used size (set_entry i c r)).
Proof.
  intros H Hi Hc Hw Hl Hb. destruct H as [? ? ? ? ? Hn _ _ He].
  split; cbn [m_segment_list m_block_list m_num_rows m_start_row m_cache m_used_cache_entries set_used set_entry]; try done.
  - by rewrite length_insert.
  - intros j c' Hj. rewrite Hb. destruct (Nat.eqb_spec j i) as [->|Hne].
    + rewrite list_lookup_insert_eq in Hj by lia. by injection Hj as <-.
    + rewrite list_lookup_insert_ne in Hj by done. by apply He.
Qed.

Lemma set_entry_ok r i c c' :
  reader_ok r → m_cache r !! i = Some c → entry_ok i c' → has_data c' = has_data c → reader_ok (set_entry i c' r).
Proof.
  intros H Hc Hc' Hd. pose proof (lookup_lt_Some _ _ _ Hc) as Hi. rewrite (ro_cache _ H) in Hi.
  change (set_entry i c' r) with (set_used (m_used_cache_entries r) (m_cache_size r) (set_entry i c' r)).
  apply update_ok; try done; [apply H..|]. intros j. destruct (Nat.eqb_spec j i) as [->|]; [|done].
  rewrite Hd. by apply (ro_entry _ H).
Qed.

(** What [release_cache] and the eviction do to the other entries: nothing. *)
Definition keeps (i : nat) (r r' : array_reader) : Prop := m_cache r' !! i = m_cache r !! i.

Lemma release_cache_ok r i : reader_ok r → (i < length D)%nat →
  ∃ r', release_cache i r = Ok r' ∧ reader_ok r' ∧ ∀ j, j ≠ i → keeps j r r'.
Proof.
  intros H Hi. destruct (ro_lookup r i H Hi) as [c Hc]. unfold release_cache. rewrite Hc. cbn [or_trap mbind outcome_bind].
  destruct (has_data c) eqn:Hd; [|by exists r].
  destruct (Bitset.update_bit_spec _ _ (m_used_cache_entries r) i Bitset.acts_clear (ro_wf _ H)) as (u & Hu & Hw & Hl & Hb).
  { by rewrite (ro_len _ H). }
  unfold Bitset.clear_bit. rewrite Hu. cbn [or_trap mbind outcome_bind snd]. eexists. split; [done|]. split.
  - apply update_ok; try done. by rewrite Hl, (ro_len _ H).
  - intros j Hj. unfold keeps. cbn. by rewrite list_lookup_insert_ne.
Qed.

Lemma try_evict_ok r locked : reader_ok r → (locked < length D)%nat →
  ∃ r', try_evict_something_from_cache locked r = Ok r' ∧ reader_ok r' ∧ keeps locked r r'.
Proof.
  intros H Hl. unfold try_evict_something_from_cache.
  destruct (fast_uniform (length (m_cache r)) r) as [b r1] eqn:Hf.
  assert (reader_ok r1 ∧ m_cache r1 = m_cache r ∧ (b < length D)%nat) as (H1 & Hc & Hb).
  { unfold fast_uniform in Hf. destruct (choices r) as [|x l]; injection Hf as <- <-; [split_and!; [done|done|lia]|].
    split_and!; [by destruct H|done|]. rewrite (ro_cache _ H). apply Nat.mod_upper_bound. lia. }
  assert (∀ k, (k < length D)%nat → Bitset.get (m_used_cache_entries r1) k = Some (Bitset.bit (m_used_cache_entries r1) k)) as Hget.
  { intros k Hk. apply Bitset.get_spec; [apply H1|by rewrite (ro_len _ H1)]. }
  rewrite (Hget b Hb), (Hget 0%nat) by lia. cbn [or_trap mbind outcome_bind].
  assert (∀ k, (k < length D)%nat → match Bitset.next_bit (m_used_cache_entries r1) k with Some p => (p < length D)%nat | None => True end) as Hn.
  { intros k Hk. pose proof (Bitset.next_bit_spec false _ k (ro_wf _ H1)) as Hs. rewrite (ro_len _ H1) in Hs.
    unfold Bitset.next_bit. destruct (Bitset.next_in _ _ _); [|done]. specialize (Hs Hk). lia. }
  assert (∃ k, (if Bitset.bit (m_used_cache_entries r1) b then Ok b
      else match Bitset.next_bit (m_used_cache_entries r1) b with
           | Some p => Ok p
           | None => Ok (if Bitset.bit (m_used_cache_entries r1) 0 then 0%nat
                         else default 0%nat (Bitset.next_bit (m_used_cache_entries r1) 0))
           end) = Ok k ∧ (k < length D)%nat) as (k & -> & Hk).
  { destruct (Bitset.bit _ b); [by exists b|]. pose proof (Hn b Hb) as Hnb.
    destruct (Bitset.next_bit _ b) as [p|]; [by exists p|]. eexists. split; [done|]. destruct (Bitset.bit _ 0%nat); [lia|].
    specialize (Hn 0%nat ltac:(lia)). destruct (Bitset.next_bit _ 0); cbn; [done|lia]. }
  cbn [mbind outcome_bind]. destruct (Nat.eqb_spec k locked) as [->|Hne].
  - exists r1. split_and!; [done|done|]. unfold keeps. by rewrite Hc.
  - destruct (release_cache_ok r1 k H1 Hk) as (r' & -> & H' & Hk'). exists r'. split_and!; [done|done|].
    unfold keeps in *. rewrite Hk', Hc by done. done.
Qed.

Lemma evict_ok n r locked : reader_ok r → (locked < length D)%nat →
  ∃ r', evict config locked n r = Ok r' ∧ reader_ok r' ∧ keeps locked r r'.
Proof.
  intros H Hl. revert r H. induction n as [|n IH]; intros r H; [by exists r|]. cbn [evict].
  destruct (_ <? _); [|by exists r]. destruct (try_evict_ok r locked H Hl) as (r1 & -> & H1 & Hk1). cbn [mbind outcome_bind].
  destruct (IH r1 H1) as (r' & -> & H' & Hk'). exists r'. split_and!; [done|done|]. unfold keeps in *. congruence.
Qed.

(** ** The rows of the column *)

Definition rows (a b : nat) : list flexible_type := take (b - a) (drop a (concat D)).

Lemma start_S i d : D !! i = Some d → start (S i) = (start i + length d)%nat.
Proof. intros H. unfold start. rewrite (take_S_r _ _ _ H), concat_app, length_app. cbn. rewrite length_app. cbn. lia. Qed.

Lemma start_mono i j : (i ≤ j)%nat → (start i ≤ start j)%nat.
Proof.
  intros H. unfold start. replace (take i D) with (take i (take j D)) by (rewrite take_take; f_equal; lia).
  rewrite <- (take_drop i (take j D)) at 2. rewrite concat_app, length_app. lia.
Qed.

Lemma start_all : start (length D) = length (concat D).
Proof. unfold start. by rewrite take_ge. Qed.

Lemma length_rows a b : (a ≤ b ≤ length (concat D))%nat → length (rows a b) = (b - a)%nat.
Proof. intros H. unfold rows. rewrite length_take, length_drop. lia. Qed.

Lemma rows_app a b c : (a ≤ b ≤ c)%nat → rows a b ++ rows b c = rows a c.
Proof.
  intros H. unfold rows. replace (drop b (concat D)) with (drop (b - a) (drop a (concat D))) by (rewrite drop_drop; f_equal; lia).
  set (l := drop a (concat D)). assert (take (c - b) (drop (b - a) l) = drop (b - a) (take (c - a) l)) as ->.
  { rewrite take_drop_commute. do 2 f_equal. lia. }
  etrans; [|apply (take_drop (b - a))]. f_equal. rewrite take_take. f_equal. lia.
Qed.

Lemma rows_block i d first last : D !! i = Some d → (start i ≤ first ≤ last)%nat → (last ≤ start (S i))%nat →
  take (last - first) (drop (first - start i) d) = rows first last.
Proof.
  intros Hd Hf Hl. rewrite (start_S _ _ Hd) in Hl. unfold rows.
  assert (concat D = concat (take i D) ++ d ++ concat (drop (S i) D)) as ->.
  { rewrite <- (take_drop_middle D i d Hd) at 1. by rewrite concat_app, concat_cons. }
  rewrite drop_app_ge by (unfold start in *; lia). rewrite drop_app_le, take_app_le by (rewrite ?length_drop; unfold start in *; lia). done.
Qed.

(** ** Reading *)

(** The manager gives the blocks. *)
Definition serves (m : block_manager) : Prop :=
  ∀ i addr bid d, bl !! i = Some (addr, bid) → D !! i = Some d →
    ∃ info bs, read_block fs addr bid m = Ok (Some (info, bs)) ∧ decodes info bs d.

Lemma fetch_cache_ok m r i : serves m → reader_ok r → (i < length D)%nat →
  ∃ r' c, fetch_cache_from_file config fs m i r = Ok r' ∧ reader_ok r' ∧ m_cache r' !! i = Some c ∧ has_data c = true.
Proof.
  intros Hm H Hi. destruct (lookup_lt_is_Some_2 D i Hi) as [d Hd].
  destruct (lookup_lt_is_Some_2 bl i) as [[addr bid] Hb]; [by rewrite (ro_length _ H)|].
  destruct (Hm _ _ _ _ Hb Hd) as (info & bs & Hr & Hdec). unfold fetch_cache_from_file.
  rewrite (ro_blocks _ H), Hb. cbn [or_trap mbind outcome_bind]. rewrite Hr. cbn [mbind outcome_bind].
  rewrite (ro_start r i H) by lia. cbn [or_trap mbind outcome_bind].
  rewrite (Bitset.get_spec _ _ (ro_wf _ H)) by (by rewrite (ro_len _ H)). cbn [or_trap mbind outcome_bind].
  destruct (Bitset.update_bit_spec _ _ (m_used_cache_entries r) i Bitset.acts_or (ro_wf _ H)) as (u & Hu & Hw & Hl & Hbit).
  { by rewrite (ro_len _ H). }
  unfold Bitset.set_bit. rewrite Hu. cbn [or_trap mbind outcome_bind snd]. cbv zeta.
  set (c := CacheEntry (start i) true true None (Some (info, bs)) (Some (NotStarted info bs))).
  match goal with |- context [evict config i ?n ?r1] => assert (reader_ok r1) as H1; [|destruct (evict_ok n r1 i H1 Hi) as (r' & -> & H' & Hk)] end.
  - apply update_ok; try done; [|by rewrite Hl, (ro_len _ H)]. intros _. exists d. split; [done|].
    exists info, bs, (NotStarted info bs), 0%nat. split_and!; try done; [by apply not_started_at|cbn; lia].
  - exists r', c. split_and!; [done|done| |done]. unfold keeps in Hk. rewrite Hk. cbn. apply list_lookup_insert_eq.
    by rewrite (ro_cache _ H).
Qed.

(** An entry with data, of which the next row to read may be any. *)
Lemma slice_ok c i d first last : D !! i = Some d → buffer c = Some d → (start i ≤ first ≤ last)%nat → (last ≤ start (S i))%nat →
  slice_of c (start i) first last = Ok (rows first last).
Proof.
  intros Hd Hb Hf Hl. pose proof (start_S _ _ Hd) as Hs. unfold slice_of. rewrite Hb. cbn [or_trap mbind outcome_bind].
  destruct (Nat.ltb_spec first (start i)); [lia|]. destruct (Nat.ltb_spec (length d) (last - start i)); [lia|]. cbn [orb].
  by rewrite <- (rows_block i d).
Qed.

Lemma ensure_decoded_ok r i c : reader_ok r → m_cache r !! i = Some c → has_data c = true →
  ∃ r' c' d, ensure_cache_decoded fuel recycled i r = Ok r' ∧ reader_ok r' ∧ m_cache r' !! i = Some c' ∧
    D !! i = Some d ∧ buffer c' = Some d.
Proof.
  intros H Hc Hd. destruct (ro_entry _ H i c Hc) as [He _]. destruct (He Hd) as (d & HD & Hent).
  unfold ensure_cache_decoded. rewrite Hc. cbn [or_trap mbind outcome_bind].
  destruct (is_encoded c); [|by exists r, c, d; destruct Hent]. destruct Hent as (info & bs & rd & k & Heb & Hdec & _).
  rewrite Heb. cbn [or_trap mbind outcome_bind]. destruct Hdec as [Hdec _]. destruct (Hdec recycled) as [rest ->].
  cbn [or_trap mbind outcome_bind]. pose proof (lookup_lt_Some _ _ _ HD) as Hi. rewrite (ro_start r i H) by lia.
  cbn [or_trap mbind outcome_bind fst snd]. eexists _, _, d. split; [done|]. split_and!; [| |done|].
  - eapply set_entry_ok; try done. intros _. by exists d.
  - cbn. apply list_lookup_insert_eq. by eapply lookup_lt_Some.
  - done.
Qed.

(** An encoded block that is read from a later row on is skipped to that row. *)
Lemma position_ok i c d first : entry_ok i c → has_data c = true → D !! i = Some d → (first ≤ start (S i))%nat →
  ∃ c', (if (buffer_start_row c <? first)%nat && is_encoded c then
           rd ← or_trap (encoded_buffer_reader c); rd ← skip fuel (first - buffer_start_row c) rd;
           Ok (CacheEntry first (is_encoded c) (has_data c) (buffer c) (encoded_buffer c) (Some rd))
         else Ok c) = Ok c' ∧ entry_ok i c' ∧ has_data c' = true.
Proof.
  intros He Hd HD Hf. destruct (Nat.ltb_spec (buffer_start_row c) first) as [Hlt|]; cbn [andb]; [|by exists c].
  destruct (is_encoded c) eqn:Henc; [|by exists c]. destruct (He Hd) as (d' & HD' & Hent). rewrite Henc in Hent.
  rewrite HD in HD'. injection HD' as <-. destruct Hent as (info & bs & rd & k & Heb & Hdec & Hrd & Hk & Hrow & Hkl).
  rewrite (start_S _ _ HD) in Hf. rewrite Hrd. cbn [or_trap mbind outcome_bind].
  destruct (skip_at rd d k (first - buffer_start_row c) Hk) as (rd' & -> & Hk'). cbn [mbind outcome_bind].
  eexists. split; [done|]. split; [|done]. intros _. exists d. split; [done|]. cbn.
  exists info, bs, rd', (k + (first - buffer_start_row c))%nat. split_and!; try done; lia.
Qed.

Lemma write_at_ok idx vs out : (idx + length vs ≤ length out)%nat →
  write_at idx vs out = Ok (take idx out ++ vs ++ drop (idx + length vs) out).
Proof. intros H. unfold write_at. destruct (Nat.leb_spec (idx + length vs) (length out)); [done|lia]. Qed.

(** The rows [first] to [last], put in their place. *)
Definition placed (idx first last : nat) (out : list flexible_type) : list flexible_type :=
  take idx out ++ rows first last ++ drop (idx + (last - first)) out.

Lemma decode_entry_ok r i c d first last :
  reader_ok r → m_cache r !! i = Some c → has_data c = true → D !! i = Some d → is_encoded c = true →
  buffer_start_row c = first → (first ≤ last ≤ start (S i))%nat →
  ∃ rd rd' r', encoded_buffer_reader c = Some rd ∧ decode_to fuel (last - first) rd = Ok (rows first last, rd') ∧
    r' = set_entry i (CacheEntry last true (has_data c) (buffer c) (encoded_buffer c) (Some rd')) r ∧ reader_ok r'.
Proof.
  intros H Hc Hd HD Henc Hrow Hl. destruct (ro_entry _ H i c Hc) as [He _]. destruct (He Hd) as (d' & HD' & Hent).
  rewrite HD in HD'. injection HD' as <-. rewrite Henc in Hent.
  destruct Hent as (info & bs & rd & k & Heb & Hdec & Hrd & Hk & Hk' & Hkl). pose proof (start_S _ _ HD) as HS.
  destruct (decode_to_at rd d k (last - first) Hk) as (rd' & Hdt & Hk2); [lia|].
  exists rd, rd'. eexists. split; [done|]. split; [|split; [done|]].
  - rewrite Hdt. do 2 f_equal. rewrite <- (rows_block i d) by (done || lia). do 2 f_equal. lia.
  - eapply set_entry_ok; try done. intros _. exists d. split; [done|]. cbn.
    exists info, bs, rd', (k + (last - first))%nat. split_and!; try done; lia.
Qed.

Lemma with_data m r i : serves m → reader_ok r → (i < length D)%nat →
  ∃ c0 r' c, m_cache r !! i = Some c0 ∧ (if has_data c0 then Ok r else fetch_cache_from_file config fs m i r) = Ok r' ∧
    reader_ok r' ∧ m_cache r' !! i = Some c ∧ has_data c = true.
Proof.
  intros Hm H Hi. destruct (ro_lookup r i H Hi) as [c Hc]. exists c. destruct (has_data c) eqn:Hd.
  - exists r, c. by split_and!.
  - destruct (fetch_cache_ok m r i Hm H Hi) as (r' & c' & -> & H' & Hc' & Hd'). exists r', c'. by split_and!.
Qed.

Lemma fetch_block_ok m r i first last idx out :
  serves m → reader_ok r → (i < length D)%nat → (start i ≤ first ≤ last)%nat → (last ≤ start (S i))%nat →
  (idx + (last - first) ≤ length out)%nat →
  ∃ r', fetch_block config fuel recycled fs m i first last (start (S i)) idx out r = Ok (placed idx first last out, r') ∧ reader_ok r'.
Proof.
  intros Hm H Hi Hf Hl Hout. destruct (lookup_lt_is_Some_2 D i Hi) as [d HD].
  assert (length (rows first last) = (last - first)%nat) as Hlen.
  { apply length_rows. pose proof (start_mono (S i) (length D) Hi). rewrite start_all in *. lia. }
  assert (write_at idx (rows first last) out = Ok (placed idx first last out)) as Hw.
  { unfold placed. rewrite <- Hlen. apply write_at_ok. lia. }
  unfold fetch_block. destruct (with_data m r i Hm H Hi) as (c0 & r1 & c & Hc0 & Hr1 & H1 & Hc & Hd).
  rewrite Hc0. cbn [or_trap mbind outcome_bind]. rewrite Hr1. cbn [mbind outcome_bind]. rewrite Hc. cbn [or_trap mbind outcome_bind].
  destruct (position_ok i c d first) as (c1 & Hp & He1 & Hd1); [by apply (ro_entry _ H1)|done|done|lia|].
  rewrite Hp. cbn [mbind outcome_bind]. pose proof (set_entry_ok r1 i c c1 H1 Hc He1 ltac:(congruence)) as H2.
  rewrite (ro_start _ i H2) by lia. cbn [or_trap mbind outcome_bind].
  assert (m_cache (set_entry i c1 r1) !! i = Some c1) as Hc2.
  { cbn. apply list_lookup_insert_eq. by rewrite (ro_cache _ H1). }
  destruct (Nat.eqb_spec (buffer_start_row c1) first) as [Heq|_].
  - match goal with |- ∃ r', mbind ?k ?e = _ ∧ _ =>
      assert (∃ r3, e = Ok (placed idx first last out, r3) ∧ reader_ok r3) as (r3 & -> & H3) end.
    { destruct (is_encoded c1) eqn:Henc.
      - destruct (decode_entry_ok _ i c1 d first last H2 Hc2 Hd1 HD Henc Heq) as (rd & rd' & r' & Hrd & Hdt & -> & H3); [lia|].
        rewrite Hrd. cbn [or_trap mbind outcome_bind]. rewrite Hdt. cbn [mbind outcome_bind]. rewrite Hw. cbn [mbind outcome_bind]. by eexists.
      - destruct (He1 Hd1) as (d' & HD' & Hb). rewrite HD in HD'. injection HD' as <-. rewrite Henc in Hb. destruct Hb as [Hb _].
        rewrite (slice_ok c1 i d) by done. cbn [mbind outcome_bind]. rewrite Hw. cbn [mbind outcome_bind]. by eexists. }
    cbn [mbind outcome_bind]. destruct (Nat.eqb_spec last (start (S i))); [|by exists r3].
    destruct (release_cache_ok r3 i H3 Hi) as (r4 & -> & H4 & _). by exists r4.
  - destruct (ensure_decoded_ok _ i c1 H2 Hc2 Hd1) as (r3 & c3 & d' & -> & H3 & Hc3 & HD' & Hb).
    cbn [mbind outcome_bind]. rewrite Hc3. cbn [or_trap mbind outcome_bind]. rewrite (slice_ok c3 i d') by done.
    cbn [mbind outcome_bind]. rewrite Hw. by exists r3.
Qed.

Lemma length_placed idx p q out : (p ≤ q ≤ length (concat D))%nat → (idx + (q - p) ≤ length out)%nat →
  length (placed idx p q out) = length out.
Proof. intros H Ho. unfold placed. rewrite !length_app, length_take, length_drop, length_rows by done. lia. Qed.

Lemma placed_placed idx p q t out : (p ≤ q ≤ t)%nat → (t ≤ length (concat D))%nat → (idx + (t - p) ≤ length out)%nat →
  placed (idx + (q - p)) q t (placed idx p q out) = placed idx p t out.
Proof.
  intros H Ht Ho. unfold placed. pose proof (length_rows p q ltac:(lia)) as Hl.
  assert (length (take idx out) = idx) as Hi by (rewrite length_take; lia).
  rewrite (app_assoc (take idx out) (rows p q)). rewrite take_app_length' by (rewrite length_app; lia).
  rewrite drop_app_ge by (rewrite length_app; lia). rewrite length_app, Hi, Hl, drop_drop.
  rewrite <- (rows_app p q t) by lia. rewrite <- !app_assoc. do 4 f_equal. lia.
Qed.

Lemma fetch_blocks_S m n i a b idx out r :
  fetch_blocks config fuel recycled fs m (S n) i a b idx out r =
  (start ← or_trap (m_start_row r !! i); block_end ← or_trap (m_start_row r !! S i);
   let first := Nat.max a start in
   let last := Nat.min b block_end in
   '(out, r) ← fetch_block config fuel recycled fs m i first last block_end idx out r;
   fetch_blocks config fuel recycled fs m n (S i) a b (idx + (last - first)) out r).
Proof. done. Qed.

Lemma fetch_blocks_ok m a b n i idx out r :
  serves m → reader_ok r → (S (i + n) ≤ length D)%nat → (a ≤ b ≤ length (concat D))%nat →
  (a ≤ start (S i))%nat → (start (i + n) ≤ b)%nat →
  (idx + (Nat.min b (start (S (i + n))) - Nat.max a (start i)) ≤ length out)%nat →
  ∃ r', fetch_blocks config fuel recycled fs m (S n) i a b idx out r =
    Ok (placed idx (Nat.max a (start i)) (Nat.min b (start (S (i + n)))) out, r') ∧ reader_ok r'.
Proof.
  intros Hm. revert i idx out r. induction n as [|n IH]; intros i idx out r H Hi Hab Ha Hb Hout;
    rewrite fetch_blocks_S, (ro_start r i H), (ro_start r (S i) H) by lia; cbn [or_trap mbind outcome_bind]; cbv zeta;
    pose proof (start_mono i (S i) ltac:(lia)) as HiS.
  - rewrite Nat.add_0_r in *.
    destruct (fetch_block_ok m r i (Nat.max a (start i)) (Nat.min b (start (S i))) idx out Hm H) as (r' & -> & H'); try lia.
    by exists r'.
  - pose proof (start_mono (S i) (i + S n) ltac:(lia)) as Hn. pose proof (start_mono i (i + S n) ltac:(lia)) as Hmono. pose proof (start_mono (S i) (S (i + S n)) ltac:(lia)) as Hn'.
    destruct (fetch_block_ok m r i (Nat.max a (start i)) (Nat.min b (start (S i))) idx out Hm H) as (r1 & -> & H1); try lia.
    cbn [mbind outcome_bind]. replace (i + S n)%nat with (S i + n)%nat in * by lia.
    assert (Nat.max a (start (S i)) = Nat.min b (start (S i))) as Hmax by lia.
    pose proof (length_placed idx (Nat.max a (start i)) (Nat.min b (start (S i))) out ltac:(lia) ltac:(lia)) as Hlp.
    pose proof (start_mono (S i) (S (S i)) ltac:(lia)) as HSS.
    destruct (IH (S i) (idx + (Nat.min b (start (S i)) - Nat.max a (start i)))%nat
      (placed idx (Nat.max a (start i)) (Nat.min b (start (S i))) out) r1 H1) as (r' & -> & H'); try lia.
    exists r'. split; [|done]. rewrite Hmax. do 2 f_equal. apply placed_placed; lia.
Qed.

Lemma lower_bound_spec row l :
  (lower_bound row l ≤ length l)%nat ∧ (∀ j x, (j < lower_bound row l)%nat → l !! j = Some x → (x < row)%nat) ∧
  ∀ x, l !! lower_bound row l = Some x → (row ≤ x)%nat.
Proof.
  induction l as [|y l (IH1 & IH2 & IH3)]; [by split_and!|]. cbn [lower_bound]. destruct (Nat.ltb_spec y row).
  - split_and!; [cbn; lia| |done]. intros [|j] x Hj Hx; [by injection Hx as <-|]. apply (IH2 j); [lia|done].
  - split_and!; [lia|lia|]. intros x Hx. by injection Hx as <-.
Qed.

Context (some : Forall (λ d, d ≠ []) D).

Lemma start_lt i : (i < length D)%nat → (start i < start (S i))%nat.
Proof.
  intros Hi. destruct (lookup_lt_is_Some_2 D i Hi) as [d Hd]. rewrite (start_S _ _ Hd).
  pose proof (Forall_lookup_1 _ _ _ _ some Hd) as Hne. cbn in Hne. destruct d; [done|cbn; lia].
Qed.

Lemma block_offset_ok r row : reader_ok r → (row < length (concat D))%nat →
  ∃ k, block_offset_containing_row row r = Ok k ∧ (k < length D)%nat ∧ (start k ≤ row < start (S k))%nat.
Proof.
  intros H Hrow. rewrite <- start_all in Hrow. unfold block_offset_containing_row. rewrite (ro_starts _ H).
  destruct (lower_bound_spec row (map start (seq 0 (S (length D))))) as (_ & Hlow & Hup).
  assert (∀ j, (j ≤ length D)%nat → map start (seq 0 (S (length D))) !! j = Some (start j)) as Hs.
  { intros j Hj. rewrite list_lookup_fmap, lookup_seq_lt by lia. done. }
  set (k := lower_bound _ _) in *. rewrite (ro_blocks _ H), (ro_length _ H).
  assert (k ≤ length D)%nat as Hk.
  { destruct (decide (k ≤ length D)%nat) as [|Hgt]; [done|]. specialize (Hlow (length D) _ ltac:(lia) (Hs _ ltac:(done))). lia. }
  specialize (Hup _ (Hs k Hk)).
  assert ((0 < k)%nat → (start (k - 1) < row)%nat) as Hprev.
  { intros ?. apply (Hlow (k - 1)%nat); [lia|]. apply Hs. lia. }
  assert (start 0 = 0%nat) as H0 by done.
  destruct (Nat.ltb_spec k (length D)) as [Hlt|Hge].
  - rewrite Hs by done. cbn [or_trap mbind outcome_bind]. destruct (Nat.eqb_spec (start k) row) as [Heq|Hne].
    + exists k. pose proof (start_lt k Hlt). split_and!; try done; lia.
    + destruct k as [|k]; [lia|]. exists k. replace (S k - 1)%nat with k in * by lia. split_and!; try done; lia.
  - assert (k = length D) as -> by lia. destruct (length D) as [|n] eqn:Hn; [cbn in *; lia|].
    exists n. replace (S n - 1)%nat with n in * by lia. split_and!; try done; lia.
Qed.

(** A reader gives the rows that it is asked for, and stays in order. *)
Lemma read_rows_ok m r a b out : serves m → reader_ok r →
  ∃ r', read_rows config fuel recycled fs m a b out r = Ok (rows a (Nat.min b (length (concat D))), r') ∧ reader_ok r'.
Proof.
  intros Hm H. unfold read_rows. rewrite (ro_rows _ H). cbv zeta. set (e := Nat.min b _).
  destruct (Nat.leb_spec e a) as [Hle|Hlt].
  { exists r. split; [|done]. unfold rows. by replace (e - a)%nat with 0%nat by lia. }
  destruct (block_offset_ok r a H) as (i & Hi & Hi1 & Hi2); [lia|].
  destruct (block_offset_ok r (e - 1) H) as (j & Hj & Hj1 & Hj2); [lia|].
  unfold fetch_rows_from_cache. rewrite Hi. cbn [mbind outcome_bind]. rewrite Hj. cbn [mbind outcome_bind].
  assert (i ≤ j)%nat as Hij.
  { destruct (decide (i ≤ j)%nat) as [|]; [done|]. pose proof (start_mono (S j) i ltac:(lia)). lia. }
  pose proof (start_all) as Hall. assert (length (vector_resize (e - a) default_value out) = (e - a)%nat) as Hout.
  { unfold vector_resize. rewrite length_app, length_take, length_replicate. lia. }
  replace (S j - i)%nat with (S (j - i)) by lia.
  destruct (fetch_blocks_ok m a e (j - i) i 0 (vector_resize (e - a) default_value out) r Hm H) as (r' & -> & H');
    replace (i + (j - i))%nat with j by lia; try lia.
  exists r'. split; [|done]. do 2 f_equal. rewrite Nat.max_l, Nat.min_l by lia. unfold placed.
  rewrite drop_ge by lia. by rewrite app_nil_r.
Qed.

End reader.
End SArrayReaderSpec.
