(* ===== verification/SArrayOpenSpec.v ===== *)
(** Opening a reader: the blocks of a column, over its segments, are where the reader says, and
    stay there while the reader is open. *)
From S2P Require Import Prelude Bitset FlexType FlexOps TypeEncoding TypeEncodingSpec SFrame SArrayWriter.
From S2P Require Import BlockManager SArrayReader SArrayWriterSpec BlockManagerSpec.
From S2P Require Import SArrayReaderSpec.
Import FlexType FlexOps TypeEncoding TypeEncodingSpec SArrayWriter BlockManager SArrayReader
  SArrayWriterSpec SArraySegmentSpec BlockManagerSpec SArrayReaderSpec.
Import SFrame(or_trap).
Local Open Scope Z_scope.
Local Open Scope sframe_scope.

Module SArrayOpenSpec.

Section opening.
Context {C : Compressor} (config : settings) (fuel : nat) (recycled : list flexible_type) (fs : gmap name bytes).

(** The file [f] gives the values [d] for the block [i]. *)
Definition gives (f : bytes) (i : block_info) (d : list flexible_type) : Prop :=
  offset i + length_on_disk i ≤ Z.of_nat (length f) ∧ num_elem i = Z.of_nat (length d) ∧
  decodes fuel i (uncompress i (take (Z.to_nat (length_on_disk i)) (drop (Z.to_nat (offset i)) f))) d.

Lemma stores_gives f i data : stores fuel f i data → ∃ d, Forall2 same_value data d ∧ gives f i d.
Proof.
  intros [(_ & _ & Hr) Hc _ _ (d & Hs & Hd & Hst)]. exists d. split; [done|]. split; [done|]. split.
  - by rewrite Hc, (Forall2_length _ _ _ Hs).
  - split.
    + intros ret. exists []. specialize (Hd ret []). by rewrite app_nil_r in Hd.
    + exists (repeated_calls data), []. specialize (Hst []). by rewrite app_nil_r in Hst.
Qed.

Lemma column_gives f infos vs : column_stored fuel f infos vs →
  ∃ ds, Forall2 (gives f) infos ds ∧ Forall2 same_value vs (concat ds) ∧ Forall (λ d, d ≠ []) ds.
Proof.
  intros (chunks & H & <-). induction H as [|i data infos chunks Hi _ (ds & IH1 & IH2 & IH3)]; [exists []; by split_and!|].
  destruct (stores_gives f i data Hi) as (d & Hs & Hg). exists (d :: ds). cbn. split_and!.
  - by constructor.
  - by apply Forall2_app.
  - constructor; [|done]. pose proof (stores_some _ _ _ _ Hi) as Hne. by destruct Hs.
Qed.

(** The manager has the values [d] at a block of an open segment. *)
Definition block_at (m : block_manager) (ab : column_address * nat) (d : list flexible_type) : Prop :=
  ∃ fname f bs infos i, segment_of m ab.1.1 = Some (fname, bs) ∧ get_segment_file_handle fs fname = Ok f ∧
    bs !! Z.to_nat ab.1.2 = Some infos ∧ infos !! ab.2 = Some i ∧ gives f i d.

Lemma read_block_at m ab d : block_at m ab d →
  ∃ info bs, read_block fs ab.1 ab.2 m = Ok (Some (info, bs)) ∧ decodes fuel info bs d.
Proof.
  intros (fname & f & bs & infos & i & Hs & Hf & Hb & Hi & Hr & _ & Hd).
  unfold segment_of in Hs. apply fmap_Some in Hs as (s & Hs & [= -> ->]).
  unfold read_block, get_block_info. rewrite Hs. cbn [or_trap mbind outcome_bind]. rewrite Hb. cbn [or_trap mbind outcome_bind].
  rewrite Hi. cbn [or_trap mbind outcome_bind]. rewrite Hf. cbn [mbind outcome_bind].
  destruct (Z.ltb_spec (Z.of_nat (length f)) (offset i + length_on_disk i)); [lia|]. by eexists _, _.
Qed.

Definition keeps_segments (l : list column_address) (m m' : block_manager) : Prop :=
  ∀ a, a ∈ l → segment_of m' a.1 = segment_of m a.1.

Lemma block_at_keeps l m m' ab d : keeps_segments l m m' → ab.1 ∈ l → block_at m ab d → block_at m' ab d.
Proof. intros Hk Hin (fname & f & bs & infos & i & Hs & H). exists fname, f, bs, infos, i. by rewrite Hk. Qed.

(** A closed segment, ready to be opened. *)
Definition ready (col : nat) (fn : name) (ds : list (list flexible_type)) : Prop :=
  trimmed fn ∧ ∃ f bs infos, get_segment_file_handle fs fn = Ok f ∧ init_segment f = Ok bs ∧ bs !! col = Some infos ∧ Forall2 (gives f) infos ds.

Lemma get_block_info_at m a fname bs infos j i : segment_of m a.1 = Some (fname, bs) → bs !! Z.to_nat a.2 = Some infos →
  infos !! j = Some i → get_block_info a j m = Ok i.
Proof.
  unfold segment_of. intros (s & Hs & [= -> ->])%fmap_Some Hb Hi. unfold get_block_info. rewrite Hs. cbn [or_trap mbind outcome_bind].
  rewrite Hb. cbn [or_trap mbind outcome_bind]. by rewrite Hi.
Qed.

Lemma infos_of_ok m a fname bs infos : segment_of m a.1 = Some (fname, bs) → bs !! Z.to_nat a.2 = Some infos →
  num_blocks_in_column a m = Ok (length infos) ∧ infos_of a (length infos) m = Ok infos.
Proof.
  intros Hs Hb. split.
  - unfold num_blocks_in_column, column_blocks. unfold segment_of in Hs. apply fmap_Some in Hs as (s & Hs & [= -> ->]).
    rewrite Hs. cbn [or_trap mbind outcome_bind]. by rewrite Hb.
  - unfold infos_of. assert (∀ k, (k ≤ length infos)%nat → outcome_map (λ j, get_block_info a j m) (seq k (length infos - k)) = Ok (drop k infos)) as H.
    { intros k Hk. remember (length infos - k)%nat as n eqn:Hn. revert k Hk Hn. induction n as [|n IH]; intros k Hk Hn.
      - by rewrite drop_ge by lia.
      - destruct (lookup_lt_is_Some_2 infos k) as [i Hi]; [lia|]. cbn [seq outcome_map].
        rewrite (get_block_info_at m a fname bs infos k i Hs Hb Hi). cbn [mbind outcome_bind].
        rewrite IH by lia. by rewrite (drop_S _ _ _ Hi). }
    specialize (H 0%nat ltac:(lia)). by rewrite Nat.sub_0_r in H.
Qed.

Lemma start_rows_ok f infos ds rc : Forall2 (gives f) infos ds →
  start_rows rc infos = (map (λ i, rc + start ds i)%nat (seq 0 (length ds)), (rc + length (concat ds))%nat).
Proof.
  intros H. revert rc. induction H as [|i d infos ds Hi _ IH]; intros rc; [cbn; f_equal; lia|].
  cbn [start_rows]. destruct Hi as (_ & Hn & _). rewrite Hn, Nat2Z.id, IH. cbn [length seq map concat]. f_equal.
  - f_equal; [unfold start; cbn; lia|]. rewrite <- seq_shift, map_map. apply map_ext. intros j.
    unfold start. cbn [take concat]. rewrite length_app. lia.
  - rewrite length_app. lia.
Qed.

Lemma start_app ds ds' i : start (ds ++ ds') (length ds + i) = (length (concat ds) + start ds' i)%nat.
Proof. unfold start. rewrite take_app_add, concat_app, length_app. done. Qed.

Lemma starts_app ds ds' rc :
  map (λ i, rc + start ds i)%nat (seq 0 (length ds)) ++ map (λ i, rc + length (concat ds) + start ds' i)%nat (seq 0 (length ds')) =
  map (λ i, rc + start (ds ++ ds') i)%nat (seq 0 (length (ds ++ ds'))).
Proof.
  rewrite length_app, seq_app, map_app. f_equal.
  - apply map_ext_in. intros i Hi%in_seq. unfold start. by rewrite take_app_le by lia.
  - assert (seq (0 + length ds) (length ds') = map (λ i, length ds + i)%nat (seq 0 (length ds'))) as ->.
    { cbn [Nat.add]. pose proof (fmap_add_seq (length ds) 0 (length ds')) as E. rewrite Nat.add_0_r in E. by rewrite <- E. }
    rewrite map_map. apply map_ext. intros i. rewrite start_app. lia.
Qed.

Lemma keeps_trans l m m' m'' : keeps_segments l m m' → keeps_segments l m' m'' → keeps_segments l m m''.
Proof. intros H H' a Ha. by rewrite H', H. Qed.

(** Every address of a block is of a segment of the reader. *)
Definition among (addrs : list column_address) (bl : list (column_address * nat)) : Prop := Forall (λ ab, ab.1 ∈ addrs) bl.

Lemma blocks_at m a fname bs infos f ds : segment_of m a.1 = Some (fname, bs) → bs !! Z.to_nat a.2 = Some infos →
  get_segment_file_handle fs fname = Ok f → Forall2 (gives f) infos ds →
  Forall2 (block_at m) (map (pair a) (seq 0 (length infos))) ds.
Proof.
  intros Hs Hb Hf Hg. apply Forall2_same_length_lookup_2.
  { rewrite length_map, length_seq. by eapply Forall2_length. }
  intros j ab d Hj Hd. rewrite list_lookup_fmap in Hj. apply fmap_Some in Hj as (k & Hk & ->). apply lookup_seq in Hk as [-> Hlt].
  destruct (Forall2_lookup_r _ _ _ _ _ Hg Hd) as (i & Hi & Hgi). exists fname, f, bs, infos, i. by split_and!.
Qed.

Lemma open_segments_ok col fns dss rc m l :
  Z.of_nat col < 2 ^ 63 → manager_ok fs m l → Forall2 (ready col) fns dss →
  ∃ addrs bl m', open_segments fs (map (λ fn, column_file fn col) fns) rc m =
      Ok (addrs, bl, map (λ i, rc + start (concat dss) i)%nat (seq 0 (length (concat dss))), (rc + length (concat (concat dss)))%nat, m') ∧
    manager_ok fs m' (addrs ++ l) ∧ keeps_segments l m m' ∧ among addrs bl ∧ Forall2 (block_at m') bl (concat dss).
Proof.
  intros Hcol Hok Hr. revert rc m l Hok. induction Hr as [|fn ds fns dss (Ht & f & bs & infos & Hf & Hi & Hb & Hg) _ IH]; intros rc m l Hok.
  { exists [], [], m. cbn. rewrite Nat.add_0_r. split_and!; try done. constructor. }
  cbn [map open_segments].
  destruct (open_column_ok fs m l (column_file fn col) fn (Z.of_nat col) f bs) as (id & m1 & -> & Hok1 & Hs1 & Hk1); try done.
  { by apply parse_column_file. }
  { vm_compute (u64 (-1)). eval_pow. lia. }
  cbn [mbind outcome_bind]. set (a := (id, Z.of_nat col) : column_address) in *.
  assert (bs !! Z.to_nat a.2 = Some infos) as Hb' by (cbn; by rewrite Nat2Z.id).
  destruct (infos_of_ok m1 a fn bs infos Hs1 Hb') as [Hnum Hinf]. rewrite Hnum. cbn [mbind outcome_bind].
  rewrite Hinf. cbn [mbind outcome_bind]. rewrite (start_rows_ok f infos ds rc Hg).
  destruct (IH (rc + length (concat ds))%nat m1 (a :: l) Hok1) as (addrs & bl & m' & -> & Hok' & Hk' & Ham & Hbl).
  cbn [mbind outcome_bind]. exists (a :: addrs), (map (pair a) (seq 0 (length infos)) ++ bl), m'. split_and!.
  - assert (rc + length (concat (concat (ds :: dss))) = rc + length (concat ds) + length (concat (concat dss)))%nat as ->.
    { cbn [concat]. rewrite concat_app, length_app. lia. }
    cbn [concat]. by rewrite starts_app.
  - eapply manager_ok_perm; [|exact Hok']. symmetry. apply Permutation_middle.
  - intros b Hin. rewrite Hk' by (by right). by apply Hk1.
  - apply Forall_app. split.
    + apply Forall_map, Forall_forall. intros j _. by left.
    + eapply Forall_impl; [exact Ham|]. intros ab. cbn. by right.
  - cbn [concat]. apply Forall2_app; [|exact Hbl]. pose proof (blocks_at m1 a fn bs infos f ds Hs1 Hb' Hf Hg) as Hat.
    apply Forall2_same_length_lookup_2; [by eapply Forall2_length|]. intros j ab d Hj Hd.
    pose proof (Forall2_lookup_lr _ _ _ _ _ _ Hat Hj Hd) as H1. eapply (block_at_keeps (a :: l)); [exact Hk'| |exact H1].
    rewrite list_lookup_fmap in Hj. apply fmap_Some in Hj as (k & _ & ->). by left.
Qed.

(** ** Opening and closing *)

Lemma close_columns_ok addrs m l : manager_ok fs m (addrs ++ l) →
  ∃ m', close_columns addrs m = Ok m' ∧ manager_ok fs m' l ∧ keeps_segments l m m'.
Proof.
  revert m. induction addrs as [|a addrs IH]; intros m Hok; [by exists m|]. cbn [close_columns].
  destruct (close_column_ok fs m _ a (addrs ++ l) Hok) as (m1 & -> & Hok1 & Hk1); [done|]. cbn [mbind outcome_bind].
  destruct (IH m1 Hok1) as (m' & -> & Hok' & Hk'). exists m'. split_and!; [done|done|].
  eapply keeps_trans; [|exact Hk']. intros b Hb. apply Hk1. apply elem_of_app. by right.
Qed.

(** The index of a column whose values, as they are decoded, are [vs]. *)
Definition column_in (index : index_file_information) (ds : list (list flexible_type)) : Prop :=
  ∃ col fns dss, Z.of_nat col < 2 ^ 63 ∧ segment_files index = map (λ fn, column_file fn col) fns ∧
    foldr Z.add 0 (sizes index) = Z.of_nat (length (concat (concat dss))) ∧ Forall2 (ready col) fns dss ∧
    Forall (λ d, d ≠ []) (concat dss) ∧ ds = concat dss.

(** A reader that is open on a column, and the manager that serves it. *)
Definition reading (m : block_manager) (ds : list (list flexible_type)) (r : array_reader) : Prop :=
  ∃ bl, reader_ok fuel (m_segment_list r) bl ds r ∧ Forall (λ d, d ≠ []) ds ∧ among (m_segment_list r) bl ∧ Forall2 (block_at m) bl ds.

Lemma reading_keeps m m' ds r : keeps_segments (m_segment_list r) m m' → reading m ds r → reading m' ds r.
Proof.
  intros Hk (bl & Hr & Hs & Ha & Hb). exists bl. split_and!; try done.
  apply Forall2_same_length_lookup_2; [by eapply Forall2_length|]. intros j ab d Hj Hd.
  eapply block_at_keeps; [exact Hk|by apply (Forall_lookup_1 _ _ _ _ Ha Hj)|]. by apply (Forall2_lookup_lr _ _ _ _ _ _ Hb Hj Hd).
Qed.

Lemma close_reader_ok m r l : manager_ok fs m (m_segment_list r ++ l) → Bitset.wf (m_used_cache_entries r) →
  ∃ r' m', SArrayReader.close r m = Ok (r', m') ∧ manager_ok fs m' l ∧ keeps_segments l m m' ∧
    m_segment_list r' = [] ∧ Bitset.wf (m_used_cache_entries r').
Proof.
  intros Hok Hw. unfold SArrayReader.close. destruct (close_columns_ok _ m l Hok) as (m' & -> & Hok' & Hk).
  cbn [mbind outcome_bind]. by eexists _, m'.
Qed.

Lemma open_reader_ok index ds m r l : column_in index ds → manager_ok fs m (m_segment_list r ++ l) → Bitset.wf (m_used_cache_entries r) →
  ∃ r' m', SArrayReader.open fs index r m = Ok (r', m') ∧ manager_ok fs m' (m_segment_list r' ++ l) ∧ keeps_segments l m m' ∧
    reading m' ds r'.
Proof.
  intros (col & fns & dss & Hcol & Hf & Hz & Hr & Hs & ->) Hok Hw. unfold SArrayReader.open.
  destruct (close_reader_ok m r l Hok Hw) as (r1 & m1 & -> & Hok1 & Hk1 & _ & Hw1). cbn [mbind outcome_bind].
  rewrite Hf. destruct (open_segments_ok col fns dss 0 m1 l Hcol Hok1 Hr) as (addrs & bl & m' & -> & Hok' & Hk' & Ham & Hbl).
  cbn [mbind outcome_bind]. rewrite Hz, Nat2Z.id. cbv zeta.
  destruct (Nat.eqb_spec (length (concat (concat dss))) (0 + length (concat (concat dss)))) as [_|]; [|done].
  eexists _, m'. split; [done|]. cbn [m_segment_list]. split_and!; [done|by eapply keeps_trans|].
  pose proof (Forall2_length _ _ _ Hbl) as Hlen.
  destruct (Bitset.resize_spec (λ _, 0) (length bl) (m_used_cache_entries r1)) as (Hrw & Hrl & _); [done|done|].
  destruct (Bitset.clear_spec _ Hrw) as (Hcw & Hcb).
  exists bl. split_and!; [|done|done|done]. split; cbn [m_segment_list m_block_list m_num_rows m_start_row m_cache m_used_cache_entries]; try done.
  - rewrite seq_S, map_app. cbn [map]. by rewrite start_all.
  - by rewrite length_replicate.
  - intros i c [-> _]%lookup_replicate. rewrite Hcb. by split.
Qed.

(** The rows [a] to [b] of a column. *)
Lemma read_reader_ok m ds r a b out : reading m ds r →
  ∃ r', read_rows config fuel recycled fs m a b out r = Ok (rows ds a (Nat.min b (length (concat ds))), r') ∧
    reading m ds r' ∧ m_segment_list r' = m_segment_list r.
Proof.
  intros (bl & Hr & Hs & Ha & Hb).
  assert (serves fuel fs bl ds m) as Hm.
  { intros i addr bid d Hi Hd. exact (read_block_at m (addr, bid) d (Forall2_lookup_lr _ _ _ _ _ _ Hb Hi Hd)). }
  destruct (read_rows_ok config fuel recycled fs (m_segment_list r) bl ds Hs m r a b out Hm Hr) as (r' & -> & Hr').
  exists r'. split; [done|]. pose proof (ro_segments _ _ _ _ _ Hr') as E. split; [|done]. exists bl. by rewrite E.
Qed.

End opening.
End SArrayOpenSpec.
