(* ===== verification/SArrayStoreSpec.v ===== *)
(** What is written to an array group, by values, rows and blocks of rows, is in the columns of
    the files that are left when it is closed.

    Several readers over one block manager: whatever they open, read and close, in whatever order,
    each reads its column, and the manager counts the columns that are open. *)
From S2P Require Import Prelude Bitset FlexType FlexOps TypeEncoding TypeEncodingSpec SFrame SArrayWriter BlockManager.
From S2P Require Import SArrayReader SArrayWriterSpec BlockManagerSpec SArrayReaderSpec SArrayOpenSpec.
Import FlexType FlexOps TypeEncoding TypeEncodingSpec SArrayWriter BlockManager SArrayReader
  SArrayWriterSpec SArraySegmentSpec BlockManagerSpec SArrayReaderSpec SArrayOpenSpec.
Import SFrame(or_trap).
Local Open Scope Z_scope.
Local Open Scope sframe_scope.

Module SArrayStoreSpec.

(** The three ways to write. *)
Inductive request :=
  | Value (columnid segmentid : nat) (v : flexible_type)
  | Row (segmentid : nat) (v : list flexible_type)
  | Rows (segmentid : nat) (cols : list (list flexible_type)).

(** What a request adds to column [c] of segment [s]. *)
Definition adds (q : request) (s c : nat) : list flexible_type :=
  match q with
  | Value c' s' v => if decide (s = s' ∧ c = c') then [v] else []
  | Row s' v => if decide (s = s') then option_list (v !! c) else []
  | Rows s' cols => if decide (s = s') then default [] (cols !! c) else []
  end.
Definition column_of (qs : list request) (s c : nat) : list flexible_type := concat (map (λ q, adds q s c) qs).

(** The requests that a writer of [ns] segments and [nc] columns takes. *)
Definition legal (ns nc : nat) (q : request) : Prop :=
  match q with
  | Value c s _ => (c < nc)%nat ∧ (s < ns)%nat
  | Row s v => (length v ≤ nc)%nat ∧ (s < ns)%nat
  | Rows s cols => length cols = nc ∧ (s < ns)%nat
  end.
#[global] Instance legal_dec ns nc q : Decision (legal ns nc q).
Proof. destruct q; apply _. Defined.

Section store.
Context {C : Compressor} {CL : CompressorLaws C}.
Context (oob : Z → Z) (oob_range : ∀ x, is_s64 (oob x)) (config : settings) (pad : bytes) (pad_length : length pad = 6%nat) (fuel : nat).

Definition perform (q : request) (w : array_writer) : outcome array_writer :=
  match q with
  | Value c s v => write_value oob config c s v w
  | Row s v => write_row oob config 0 s v w
  | Rows s cols => write_rows oob config s cols w
  end.

Fixpoint perform_all (qs : list request) (w : array_writer) : outcome array_writer :=
  match qs with
  | [] => Ok w
  | q :: qs => w ← perform q w; perform_all qs w
  end.

(** A request as writes to single columns. *)
Fixpoint by_column (i s : nat) (cols : list (list flexible_type)) : list write :=
  match cols with
  | [] => []
  | vs :: cols => (i, s, vs) :: by_column (S i) s cols
  end.
Definition writes (q : request) : list write :=
  match q with
  | Value c s v => [(c, s, [v])]
  | Row s v => by_column 0 s (map (λ x, [x]) v)
  | Rows s cols => by_column 0 s cols
  end.

Lemma write_columns_by_column i s cols w : write_columns oob config i s cols w = push_all oob config (by_column i s cols) w.
Proof.
  revert i w. induction cols as [|vs cols IH]; intros i w; [done|]. cbn [write_columns by_column push_all].
  destruct (push_values _ _ _ _ _ _); cbn [mbind outcome_bind]; [apply IH|done|done].
Qed.

Lemma write_row_by_column i s v w : write_row oob config i s v w = push_all oob config (by_column i s (map (λ x, [x]) v)) w.
Proof.
  revert i w. induction v as [|x v IH]; intros i w; [done|]. cbn [write_row map by_column push_all]. unfold write_value.
  destruct (push_values _ _ _ _ _ _); cbn [mbind outcome_bind]; [apply IH|done|done].
Qed.

Lemma perform_writes ns nc q w : legal ns nc q → ncolumns w = nc → perform q w = push_all oob config (writes q) w.
Proof.
  intros Hl Hn. destruct q as [c s v|s v|s cols]; cbn [perform writes].
  - unfold write_value. cbn [push_all]. by destruct (push_values _ _ _ _ _ _).
  - apply write_row_by_column.
  - unfold write_rows. destruct Hl as [-> _]. rewrite Hn, Nat.eqb_refl. apply write_columns_by_column.
Qed.

Lemma by_column_legal ns nc i s cols : (i + length cols ≤ nc)%nat → (s < ns)%nat →
  Forall (λ o : write, (o.1.1 < nc)%nat ∧ (o.1.2 < ns)%nat) (by_column i s cols).
Proof.
  intros Hn Hs. revert i Hn. induction cols as [|vs cols IH]; intros i Hn; [constructor|]. cbn in *.
  constructor; [cbn; lia|]. apply IH. lia.
Qed.

Lemma writes_legal ns nc q : legal ns nc q → Forall (λ o : write, (o.1.1 < nc)%nat ∧ (o.1.2 < ns)%nat) (writes q).
Proof.
  destruct q as [c s v|s v|s cols]; cbn; intros [H1 H2].
  - by repeat constructor.
  - apply by_column_legal; [by rewrite length_map|done].
  - apply by_column_legal; [lia|done].
Qed.

Lemma written_by_column i s cols s' c : written (by_column i s cols) s' c =
  if decide (s' = s ∧ (i ≤ c)%nat) then default [] (cols !! (c - i)%nat) else [].
Proof.
  revert i. induction cols as [|vs cols IH]; intros i; [by case_decide|]. cbn [by_column]. rewrite written_cons, IH.
  repeat case_decide; try lia; cbn [app]; try done.
  - replace c with i by lia. by rewrite Nat.sub_diag, app_nil_r.
  - by replace (c - i)%nat with (S (c - S i)) by lia.
Qed.

Lemma written_writes q s c : written (writes q) s c = adds q s c.
Proof.
  destruct q as [c' s' v|s' v|s' cols]; cbn [writes adds].
  - rewrite written_cons. case_decide; by rewrite app_nil_r.
  - rewrite written_by_column, Nat.sub_0_r, list_lookup_fmap. case_decide as H; case_decide; try tauto; [|destruct H; split; [done|lia]].
    by destruct (v !! c).
  - rewrite written_by_column, Nat.sub_0_r. case_decide as H; case_decide; try tauto. destruct H. split; [done|lia].
Qed.

Lemma perform_all_ok index_file ns nc qs w vals :
  writer_ok pad fuel index_file ns nc 0 w vals → Forall (legal ns nc) qs → (∀ s c, storable fuel (vals s c ++ column_of qs s c)) →
  ∃ w' vals', perform_all qs w = Ok w' ∧ writer_ok pad fuel index_file ns nc 0 w' vals' ∧ ∀ s c, vals' s c = vals s c ++ column_of qs s c.
Proof.
  intros Hok Hq. revert w vals Hok. induction Hq as [|q qs Hl _ IH]; intros w vals Hok Hst.
  { exists w, vals. split_and!; [done|done|]. intros. by rewrite app_nil_r. }
  cbn [perform_all]. rewrite (perform_writes ns nc) by (done || apply Hok).
  assert (∀ s c, vals s c ++ column_of (q :: qs) s c = (vals s c ++ adds q s c) ++ column_of qs s c) as Heq.
  { intros. unfold column_of. cbn. by rewrite app_assoc. }
  destruct (push_all_ok oob oob_range config pad fuel index_file ns nc (writes q) w vals Hok) as (w1 & vals1 & -> & Hok1 & Hv1).
  { by apply writes_legal. }
  { intros s c. rewrite written_writes. specialize (Hst s c). rewrite Heq in Hst. by apply storable_app in Hst as [? _]. }
  cbn [mbind outcome_bind]. destruct (IH w1 vals1 Hok1) as (w' & vals' & -> & Hok' & Hv').
  { intros s c. rewrite Hv1, written_writes, <- Heq. apply Hst. }
  exists w', vals'. split_and!; [done|done|]. intros. by rewrite Hv', Hv1, written_writes, Heq.
Qed.

(** ** What is left when the writer is closed *)

Lemma files_other w fs n : n ∉ map segment_file (outputs w) → files w fs !! n = fs !! n.
Proof.
  unfold files. generalize (outputs w). intros l. revert fs. induction l as [|o l IH]; intros fs Hn; [done|]. cbn in *.
  apply not_elem_of_cons in Hn as [Hne Hn]. rewrite IH by done. by rewrite lookup_insert_ne.
Qed.

Lemma files_lookup w fs s o : NoDup (map segment_file (outputs w)) → outputs w !! s = Some o →
  files w fs !! segment_file o = Some (contents o).
Proof.
  unfold files. generalize (outputs w). intros l. revert fs s. induction l as [|o' l IH]; intros fs s Hnd Hs; [done|]. cbn in *.
  apply NoDup_cons in Hnd as [Hn Hnd]. destruct s as [|s]; [|by eapply IH].
  injection Hs as ->. pose proof (files_other (ArrayWriter l [] []) (<[segment_file o := contents o]> fs) _ Hn) as H.
  unfold files in H. cbn [outputs] in H. rewrite H. by rewrite lookup_insert_eq.
Qed.

(** The values of a column, over the segments. *)
Definition column_values (vals : nat → nat → list flexible_type) (ns c : nat) : list flexible_type :=
  concat (map (λ s, vals s c) (seq 0 ns)).

Definition name_ok (index_file : name) : Prop := match index_file with c :: _ => is_space c = false | [] => True end.

Section closed.
Context (index_file : name) (ns nc : nat) (w : array_writer) (vals : nat → nat → list flexible_type).
Context (ok : writer_ok pad fuel index_file ns nc ns w vals) (values : ∀ s c, storable fuel (vals s c)).
Context (sizes_fit : Forall fits (outputs w)) (name_fits : name_ok index_file) (fs : gmap name bytes).

Lemma segment_names : map segment_file (outputs w) = map (segment_file_name index_file) (seq 0 ns).
Proof.
  apply list_eq. intros s. rewrite !list_lookup_fmap. destruct (decide (s < ns)%nat) as [Hs|Hs].
  - destruct (lookup_lt_is_Some_2 (outputs w) s) as [o Ho]; [by rewrite (ok_nsegments _ _ _ _ _ _ _ _ ok)|].
    rewrite Ho, lookup_seq_lt by done. cbn. f_equal. by apply (ok_segments _ _ _ _ _ _ _ _ ok).
  - rewrite !lookup_ge_None_2; [done|rewrite length_seq; lia|rewrite (ok_nsegments _ _ _ _ _ _ _ _ ok); lia].
Qed.

Lemma segment_names_distinct : NoDup (map segment_file (outputs w)).
Proof.
  rewrite segment_names. apply NoDup_fmap_2; [|apply NoDup_seq]. intros i j. apply segment_file_name_inj.
Qed.

(** A column of a segment has its values in the file of the segment. *)
Lemma cell_stored s c : (s < ns)%nat → (c < nc)%nat →
  ∃ o infos, outputs w !! s = Some o ∧ blocks o !! c = Some infos ∧ column_stored fuel (contents o) infos (vals s c).
Proof.
  intros Hs Hc. destruct (ok_cells _ _ _ _ _ _ _ _ ok s c Hs Hc) as (fl & p & Hcell & Hv & Hp).
  destruct (cell_file _ _ _ _ _ _ Hcell) as (o & infos & Ho & Hi & Hst). exists o, infos. split_and!; [done|done|].
  by rewrite Hv, Hp, app_nil_r.
Qed.

Lemma segment_ready s c : (s < ns)%nat → (c < nc)%nat →
  ∃ ds, ready fuel (files w fs) c (segment_file_name index_file s) ds ∧ Forall2 same_value (vals s c) (concat ds) ∧ Forall (λ d, d ≠ []) ds.
Proof.
  intros Hs Hc. destruct (cell_stored s c Hs Hc) as (o & infos & Ho & Hi & Hst).
  destruct (column_gives fuel _ _ _ Hst) as (ds & Hg & Hsame & Hne). exists ds. split_and!; [|done|done].
  destruct (ok_segments _ _ _ _ _ _ _ _ ok s o Ho) as (Hname & Hlen & Hcl). rewrite decide_True in Hcl by done.
  pose proof (Forall_lookup_1 _ _ _ _ sizes_fit Ho) as Hfit.
  split; [by apply segment_file_name_trimmed|]. exists (contents o), (blocks o), infos. split_and!; [| |done|done].
  - unfold get_segment_file_handle. rewrite parse_segment_file, <- Hname by done.
    by rewrite (files_lookup w fs s o) by (done || apply segment_names_distinct).
  - apply (init_segment_closed pad pad_length); [done|done|]. apply Forall_lookup_2. intros c' infos' Hi'.
    assert (c' < nc)%nat as Hc' by (rewrite <- Hlen; by eapply lookup_lt_Some).
    destruct (cell_stored s c' Hs Hc') as (o' & infos'' & Ho' & Hi'' & Hst'). rewrite Ho in Ho'. injection Ho' as <-.
    rewrite Hi' in Hi''. injection Hi'' as <-. eapply column_stored_fits; [exact Hst'|apply Hfit|apply values|].
    destruct Hfit as (_ & _ & Hb). by apply (Forall_lookup_1 _ _ _ _ Hb Hi').
Qed.

Lemma segments_ready c : (c < nc)%nat → ∀ n k, (k + n = ns)%nat →
  ∃ dss, Forall2 (ready fuel (files w fs) c) (map (segment_file_name index_file) (seq k n)) dss ∧
    Forall2 same_value (concat (map (λ s, vals s c) (seq k n))) (concat (concat dss)) ∧ Forall (λ d, d ≠ []) (concat dss).
Proof.
  intros Hc n. induction n as [|n IH]; intros k Hk; [exists []; by split_and!|].
  destruct (segment_ready k c) as (ds & Hr & Hs & Hne); [lia|done|]. destruct (IH (S k)) as (dss & IH1 & IH2 & IH3); [lia|].
  exists (ds :: dss). cbn [seq map concat]. split_and!.
  - by constructor.
  - rewrite concat_app. by apply Forall2_app.
  - by apply Forall_app.
Qed.

Lemma segment_sizes_sum c : (c < nc)%nat → foldr Z.add 0 (sizes (column_info c w)) = Z.of_nat (length (column_values vals ns c)).
Proof.
  intros Hc. cbn [sizes column_info]. pose proof (ok_sizes _ _ _ _ _ _ _ _ ok) as Hz.
  destruct (segment_sizes w !! c) as [l|] eqn:Hl.
  2:{ apply lookup_ge_None_1 in Hl. apply (f_equal length) in Hz. rewrite length_map, length_replicate in Hz. lia. }
  assert (length l = ns) as Hlen.
  { assert (map length (segment_sizes w) !! c = Some (length l)) as H by (by rewrite list_lookup_fmap, Hl).
    rewrite Hz in H. apply lookup_replicate in H as [-> _]. done. }
  assert (l = map (λ s, Z.of_nat (length (vals s c))) (seq 0 ns)) as ->.
  { apply list_eq. intros s. rewrite list_lookup_fmap. destruct (decide (s < ns)%nat) as [Hs|Hs].
    - destruct (ok_cells _ _ _ _ _ _ _ _ ok s c Hs Hc) as (fl & p & Hcell & Hv & Hp).
      destruct (cell_size _ _ _ _ _ _ Hcell) as (l' & Hl' & Hn). rewrite Hl in Hl'. injection Hl' as <-.
      rewrite lookup_seq_lt by done. cbn. by rewrite Hn, Hv, Hp, app_nil_r.
    - rewrite !lookup_ge_None_2; [done|rewrite length_seq; lia|lia]. }
  assert (∀ ss, foldr Z.add 0 (map (λ s, Z.of_nat (length (vals s c))) ss) = Z.of_nat (length (concat (map (λ s, vals s c) ss)))) as Hsum.
  { clear. intros ss. induction ss as [|s ss IH]; [done|]. cbn. rewrite IH, length_app. lia. }
  apply Hsum.
Qed.

Lemma closed_column c : (c < nc)%nat → Z.of_nat c < 2 ^ 63 →
  ∃ ds, column_in fuel (files w fs) (column_info c w) ds ∧ Forall2 same_value (column_values vals ns c) (concat ds).
Proof.
  intros Hc Hlt. destruct (segments_ready c Hc ns 0) as (dss & H1 & H2 & H3); [done|]. exists (concat dss). split; [|exact H2].
  exists c, (map (segment_file_name index_file) (seq 0 ns)), dss. split_and!; [done| | |done|done|done].
  - rewrite <- segment_names. cbn. by rewrite map_map.
  - rewrite segment_sizes_sum by done. f_equal. apply (Forall2_length _ _ _ H2).
Qed.
End closed.

Lemma adds_outside ns nc q s c : legal ns nc q → ¬ ((s < ns)%nat ∧ (c < nc)%nat) → adds q s c = [].
Proof.
  intros Hl Hout. destruct q as [c' s' v|s' v|s' cols]; cbn in *; case_decide as H; try done.
  - destruct H; subst. tauto.
  - subst. rewrite lookup_ge_None_2; [done|lia].
  - subst. rewrite lookup_ge_None_2; [done|lia].
Qed.

Lemma column_of_outside ns nc qs s c : Forall (legal ns nc) qs → ¬ ((s < ns)%nat ∧ (c < nc)%nat) → column_of qs s c = [].
Proof.
  intros Hq Hout. unfold column_of. induction Hq as [|q qs Hl _ IH]; [done|]. cbn. by rewrite (adds_outside ns nc), IH.
Qed.

(** Values that can be stored, in every column of every segment. *)
Definition all_storable (ns nc : nat) (qs : list request) : Prop :=
  ∀ s c, (s < ns)%nat → (c < nc)%nat → storable fuel (column_of qs s c).

Lemma written_and_closed index_file ns nc qs : nc ≠ 0%nat → Forall (legal ns nc) qs → all_storable ns nc qs →
  ∃ w vals, (w ← perform_all qs (SArrayWriter.open index_file ns nc); SArrayWriter.close oob config pad w) = Ok w ∧
    writer_ok pad fuel index_file ns nc ns w vals ∧ ∀ s c, vals s c = column_of qs s c ∧ storable fuel (vals s c).
Proof.
  intros Hnc Hq Hst. assert (∀ s c, storable fuel (column_of qs s c)) as Hst'.
  { intros s c. destruct (decide ((s < ns)%nat ∧ (c < nc)%nat)) as [[? ?]|Hout]; [by apply Hst|].
    rewrite (column_of_outside ns nc) by done. apply storable_nil. }
  destruct (perform_all_ok index_file ns nc qs _ _ (open_ok pad fuel index_file ns nc Hnc) Hq Hst') as (w1 & vals & -> & Hok & Hv).
  cbn [mbind outcome_bind]. assert (∀ s c, storable fuel (vals s c)) as Hvs by (intros s c; rewrite Hv; apply Hst').
  destruct (close_writer_ok oob oob_range config pad fuel index_file ns nc w1 vals Hok Hvs) as (w & -> & Hok').
  exists w, vals. split_and!; [done|done|]. intros. split; [apply Hv|apply Hvs].
Qed.

End store.
End SArrayStoreSpec.

Import FlexType FlexOps TypeEncoding TypeEncodingSpec SArrayWriter BlockManager SArrayReader
  BlockManagerSpec SArrayReaderSpec SArrayOpenSpec.
Import SFrame(or_trap).

Module SArrayLibrarySpec.

(** What can be done with the reader number [k]. *)
Inductive action :=
  | OpenColumn (k j : nat)
  | ReadRows (k a b : nat) (out : list flexible_type)
  | CloseReader (k : nat).

(** ** The specification: a reader is closed, or open on a column that is a list of values *)

Section specification.
Context (columns : list (list flexible_type)).

Definition slice (a b : nat) (vs : list flexible_type) : list flexible_type := take (b - a) (drop a vs).

(** The values that are read, one list for each action that reads; [None] for a reader that
    reads when it is closed, and for a number out of range. *)
Fixpoint spec_run (acts : list action) (st : list (option (list flexible_type))) : option (list (list flexible_type)) :=
  match acts with
  | [] => Some []
  | OpenColumn k j :: acts => _ ← st !! k; vs ← columns !! j; spec_run acts (<[k := Some vs]> st)
  | ReadRows k a b _ :: acts =>
      o ← st !! k; vs ← o; rest ← spec_run acts st; Some (slice a b vs :: rest)
  | CloseReader k :: acts => _ ← st !! k; spec_run acts (<[k := None]> st)
  end.
End specification.

Section library.
Context {C : Compressor} (config : settings) (fuel : nat) (recycled : list flexible_type) (fs : gmap name bytes).

(** ** The code *)

Fixpoint run (indices : list index_file_information) (acts : list action) (rs : list array_reader) (m : block_manager)
  : outcome (list (list flexible_type) * list array_reader * block_manager) :=
  match acts with
  | [] => Ok ([], rs, m)
  | OpenColumn k j :: acts =>
      r ← or_trap (rs !! k); index ← or_trap (indices !! j); '(r, m) ← SArrayReader.open fs index r m;
      run indices acts (<[k := r]> rs) m
  | ReadRows k a b out :: acts =>
      r ← or_trap (rs !! k); '(vs, r) ← read_rows config fuel recycled fs m a b out r;
      '(rest, rs, m) ← run indices acts (<[k := r]> rs) m; Ok (vs :: rest, rs, m)
  | CloseReader k :: acts =>
      r ← or_trap (rs !! k); '(r, m) ← SArrayReader.close r m; run indices acts (<[k := r]> rs) m
  end.

(** ** The simulation *)

(** The columns that are open, in all readers. *)
Definition addresses (rs : list array_reader) : list column_address := concat (map m_segment_list rs).
(** The same, in all readers but one. *)
Definition others (k : nat) (rs : list array_reader) : list column_address := addresses (take k rs ++ drop (S k) rs).

Lemma addresses_split k rs r : rs !! k = Some r → addresses rs ≡ₚ m_segment_list r ++ others k rs.
Proof.
  intros H. unfold others, addresses. rewrite <- (take_drop_middle rs k r H) at 1.
  rewrite !map_app, !concat_app. cbn. by rewrite Permutation_app_swap_app.
Qed.

Lemma others_insert k rs r : others k (<[k := r]> rs) = others k rs.
Proof. unfold others. by rewrite take_insert_ge, drop_insert_lt by lia. Qed.

Lemma addresses_insert k rs r : (k < length rs)%nat → addresses (<[k := r]> rs) ≡ₚ m_segment_list r ++ others k rs.
Proof. intros H. rewrite (addresses_split k _ r) by (by apply list_lookup_insert_eq). by rewrite others_insert. Qed.

Lemma in_others k j rs r a : rs !! j = Some r → j ≠ k → a ∈ m_segment_list r → a ∈ others k rs.
Proof.
  intros Hj Hne Ha. unfold others, addresses. apply list_elem_of_In, in_concat. exists (m_segment_list r).
  split; [|by apply list_elem_of_In]. apply list_elem_of_In, list_elem_of_fmap. exists r. split; [done|]. apply elem_of_app.
  destruct (decide (j < k)%nat); [left|right]; apply list_elem_of_lookup.
  - exists j. by rewrite lookup_take_lt.
  - exists (j - S k)%nat. rewrite lookup_drop. by replace (S k + (j - S k))%nat with j by lia.
Qed.

(** A reader is as the specification says. *)
Definition as_specified (m : block_manager) (r : array_reader) (o : option (list flexible_type)) : Prop :=
  Bitset.wf (m_used_cache_entries r) ∧
  match o with
  | Some vs => ∃ ds, reading fuel fs m ds r ∧ Forall2 same_value vs (concat ds)
  | None => m_segment_list r = []
  end.

Definition library_ok (rs : list array_reader) (m : block_manager) (st : list (option (list flexible_type))) : Prop :=
  manager_ok fs m (addresses rs) ∧ Forall2 (as_specified m) rs st.

Lemma as_specified_keeps m m' r o : keeps_segments (m_segment_list r) m m' → as_specified m r o → as_specified m' r o.
Proof.
  intros Hk [Hw H]. split; [done|]. destruct o as [vs|]; [|done]. destruct H as (ds & Hr & Hs). exists ds. split; [|done].
  by eapply reading_keeps.
Qed.

(** An action of one reader leaves the others as they are. *)
Lemma library_step k rs m st r r' m' o' :
  library_ok rs m st → rs !! k = Some r → manager_ok fs m' (m_segment_list r' ++ others k rs) →
  keeps_segments (others k rs) m m' → as_specified m' r' o' → library_ok (<[k := r']> rs) m' (<[k := o']> st).
Proof.
  intros [_ Hf] Hk Hok' Hkeep Hr'. split.
  { eapply manager_ok_perm; [|exact Hok']. symmetry. apply addresses_insert. by eapply lookup_lt_Some. }
  apply Forall2_same_length_lookup_2; [rewrite !length_insert; by eapply Forall2_length|].
  intros j rj oj Hj Ho. destruct (decide (j = k)) as [->|Hne].
  - rewrite list_lookup_insert_eq in Hj by (by eapply lookup_lt_Some). injection Hj as <-.
    rewrite list_lookup_insert_eq in Ho; [by injection Ho as <-|]. rewrite <- (Forall2_length _ _ _ Hf). by eapply lookup_lt_Some.
  - rewrite list_lookup_insert_ne in Hj by done. rewrite list_lookup_insert_ne in Ho by done. pose proof (Forall2_lookup_lr _ _ _ _ _ _ Hf Hj Ho) as H.
    eapply as_specified_keeps; [|exact H]. intros a Ha. apply Hkeep. by eapply in_others.
Qed.

Lemma same_slice a b vs ds : Forall2 same_value vs (concat ds) →
  Forall2 same_value (slice a b vs) (rows ds a (Nat.min b (length (concat ds)))).
Proof.
  intros H. unfold rows, slice. assert (take (Nat.min b (length (concat ds)) - a) (drop a (concat ds)) = take (b - a) (drop a (concat ds))) as ->.
  { destruct (decide (b ≤ length (concat ds))%nat); [by rewrite Nat.min_l|]. rewrite Nat.min_r by lia.
    rewrite !take_ge by (rewrite length_drop; lia). done. }
  by apply Forall2_take, Forall2_drop.
Qed.

Context (indices : list index_file_information) (columns : list (list flexible_type)).
Context (stored : Forall2 (λ index vs, ∃ ds, column_in fuel fs index ds ∧ Forall2 same_value vs (concat ds)) indices columns).

Lemma library_refines acts rs m st results : library_ok rs m st → spec_run columns acts st = Some results →
  ∃ results' rs' m' st', run indices acts rs m = Ok (results', rs', m') ∧ Forall2 (Forall2 same_value) results results' ∧
    library_ok rs' m' st'.
Proof.
  revert rs m st results. induction acts as [|[k j|k a b out|k] acts IH]; intros rs m st results Hl Hs; cbn [spec_run run] in *.
  { injection Hs as <-. by exists [], rs, m, st. }
  all: apply bind_Some in Hs as (o & Ho & Hs);
    destruct (Forall2_lookup_r _ _ _ _ _ (proj2 Hl) Ho) as (r & Hr & [Hw Hro]);
    pose proof (manager_ok_perm fs m _ _ (addresses_split k rs r Hr) (proj1 Hl)) as Hok; rewrite Hr; cbn [or_trap mbind outcome_bind].
  - apply bind_Some in Hs as (vs & Hvs & Hs). destruct (Forall2_lookup_r _ _ _ _ _ stored Hvs) as (index & Hi & ds & Hc & Hsame).
    rewrite Hi. cbn [or_trap mbind outcome_bind].
    destruct (open_reader_ok fuel fs index ds m r _ Hc Hok Hw) as (r' & m' & -> & Hok' & Hk & Hrd). cbn [mbind outcome_bind].
    eapply IH; [|exact Hs]. eapply library_step; try done. split; [|by exists ds].
    destruct Hrd as (bl & Hrd & _). by apply (ro_wf _ _ _ _ _ Hrd).
  - apply bind_Some in Hs as (vs & -> & (rest & Hrest & [= <-])%bind_Some). destruct Hro as (ds & Hrd & Hsame).
    destruct (read_reader_ok config fuel recycled fs m ds r a b out Hrd) as (r' & -> & Hrd' & Hseg). cbn [mbind outcome_bind].
    destruct (IH (<[k := r']> rs) m st rest) as (rest' & rs' & m' & st' & -> & Hres & Hl'); [|done|].
    + rewrite <- (list_insert_id st k (Some vs) Ho). eapply library_step; try done; [by rewrite Hseg|].
      split; [|by exists ds]. destruct Hrd' as (bl & Hrd' & _). by apply (ro_wf _ _ _ _ _ Hrd').
    + eexists _, rs', m', st'. split; [done|]. split; [|done]. constructor; [by apply same_slice|done].
  - destruct (close_reader_ok fs m r _ Hok Hw) as (r' & m' & -> & Hok' & Hk & Hseg & Hw'). cbn [mbind outcome_bind].
    eapply IH; [|exact Hs]. eapply library_step; try done. by rewrite Hseg.
Qed.

Lemma library_start rs : Forall (λ r, ∃ choices, r = new_reader choices) rs →
  library_ok rs new_manager (replicate (length rs) None).
Proof.
  intros H. split.
  - assert (addresses rs = []) as ->; [|apply new_manager_ok]. induction H as [|r rs [ch ->] _ IH]; [done|]. exact IH.
  - induction H as [|r rs [ch ->] _ IH]; [constructor|]. constructor; [|exact IH]. split; [|done]. cbn.
    split; [done|constructor|]. intros i _. done.
Qed.

End library.
End SArrayLibrarySpec.
