(* ===== verification/SArrayCorrectness.v ===== *)
(** The properties of SArray files, one theorem per claim, with the concrete files on which the
    hypotheses of a claim hold. *)
From S2P Require Import Prelude Bitset FlexType FlexOps TypeEncoding TypeEncodingSpec SFrame SArrayWriter.
From S2P Require Import BlockManager SArrayReader SArrayWriterSpec BlockManagerSpec.
From S2P Require Import SArrayReaderSpec SArrayOpenSpec SArrayStoreSpec.
Local Open Scope Z_scope.
Local Open Scope sframe_scope.

Module SArrays.
Import FlexType FlexOps TypeEncoding TypeEncodingSpec SArrayWriter BlockManager SArrayReader SArrayWriterSpec
  BlockManagerSpec SArrayOpenSpec SArrayStoreSpec SArrayLibrarySpec.

(** ** A compressor

    It leaves out the zeros that end a text. *)
Fixpoint strip (d : list Z) : list Z :=
  match d with
  | [] => []
  | x :: d => match strip d with [] => if x =? 0 then [] else [x] | l => x :: l end
  end.
Definition zeros : Compressor := {|
  LZ4_compress := strip;
  LZ4_decompress_safe c n := c ++ replicate (n - length c) 0;
|}.

Lemma strip_spec d : strip d ++ replicate (length d - length (strip d)) 0 = d ∧ (length (strip d) ≤ length d)%nat.
Proof.
  induction d as [|x d [IH Hl]]; [done|]. cbn [strip]. destruct (strip d) as [|y l] eqn:E.
  - destruct (Z.eqb_spec x 0) as [->|]; cbn in *; rewrite ?Nat.sub_0_r in *; (split; [by rewrite IH|lia]).
  - cbn in *. split; [by rewrite IH|lia].
Qed.

#[local] Instance zeros_laws : CompressorLaws zeros.
Proof. intros d. apply strip_spec. Qed.
#[local] Existing Instance zeros.

(** Two columns in two segments, written in the three ways. *)
Definition example_requests : list request :=
  [Row 0 [FInt 1; FString [97; 0; 0]]; Value 1 0 (FInt 7); Rows 1 [[FUndefined; FFloat 0]; [FString []; FInt 2]]; Row 0 [FInt 5]].
Definition example_index : name := [116; 46; 115; 105; 100; 120].
Definition example_pad : bytes := replicate 6 0.
Definition example_run : outcome array_writer :=
  w ← perform_all (λ _, 0) default_settings example_requests (SArrayWriter.open example_index 2 2);
  SArrayWriter.close (λ _, 0) default_settings example_pad w.
Definition example_writer : array_writer :=
  match example_run with Ok w => w | _ => SArrayWriter.open example_index 2 2 end.

Lemma example_legal : Forall (legal 2 2) example_requests.
Proof. apply (bool_decide_unpack _). vm_compute. exact I. Qed.

Lemma example_storable : all_storable 1 2 2 example_requests.
Proof.
  intros [|[|s]] [|[|c]] Hs Hc; try lia; unfold storable; apply (bool_decide_unpack _); vm_compute; exact I.
Qed.

Lemma example_fits : example_run = Ok example_writer ∧ Forall fits (outputs example_writer).
Proof.
  split; [by vm_compute|]. apply (bool_decide_unpack _). vm_compute. exact I.
Qed.

Section arrays.
Context {C : Compressor} {CL : CompressorLaws C}.


(** C11: several readers over one block manager open columns, read ranges of rows and close, in any
    order, with any cache sizes and whatever blocks are thrown out at random: each range that is read is
    that of the column that the reader has open, as if the columns were lists of values. *)
Theorem readers_are_columns config fuel recycled fs indices columns acts rs results :
  Forall2 (λ index vs, ∃ ds, column_in fuel fs index ds ∧ Forall2 same_value vs (concat ds)) indices columns →
  Forall (λ r, ∃ choices, r = new_reader choices) rs →
  spec_run columns acts (replicate (length rs) None) = Some results → ∃ results' rs' m,
  run config fuel recycled fs indices acts rs new_manager = Ok (results', rs', m) ∧ Forall2 (Forall2 same_value) results results'.
Proof.
  intros Hst Hrs Hs.
  destruct (library_refines config fuel recycled fs indices columns Hst acts rs new_manager _ results (library_start fuel fs rs Hrs) Hs)
    as (results' & rs' & m & st' & Hrun & Hres & _). by exists results', rs', m.
Qed.

(** C26: at the end of such a sequence each segment counts the columns that the readers have open in
    it, and no other segment is left open; with every reader closed, none is. *)
Theorem open_segments_are_counted config fuel recycled fs indices columns acts rs results :
  Forall2 (λ index vs, ∃ ds, column_in fuel fs index ds ∧ Forall2 same_value vs (concat ds)) indices columns →
  Forall (λ r, ∃ choices, r = new_reader choices) rs →
  spec_run columns acts (replicate (length rs) None) = Some results → ∃ results' rs' m,
  run config fuel recycled fs indices acts rs new_manager = Ok (results', rs', m) ∧
  (∀ id, default 0 (reference_count <$> m_segments m !! id) = Z.of_nat (opened (addresses rs') id)) ∧
  (addresses rs' = [] → m_segments m = ∅ ∧ m_file_to_segments m = ∅).
Proof.
  intros Hst Hrs Hs.
  destruct (library_refines config fuel recycled fs indices columns Hst acts rs new_manager _ results (library_start fuel fs rs Hrs) Hs)
    as (results' & rs' & m & st' & Hrun & _ & [Hok _]). exists results', rs', m. split; [done|].
  assert (∀ id, default 0 (reference_count <$> m_segments m !! id) = Z.of_nat (opened (addresses rs') id)) as Hcount.
  { intros id. destruct (m_segments m !! id) as [s|] eqn:Hid; cbn.
    - by destruct (mo_segment _ _ _ Hok id s Hid) as (_ & _ & ? & _).
    - destruct (decide (0 < opened (addresses rs') id)%nat) as [Hpos|]; [|lia].
      destruct (mo_open _ _ _ Hok id Hpos) as [s ?]. congruence. }
  split; [done|]. intros E. rewrite E in *. assert (m_segments m = ∅) as Hm.
  { apply map_empty. intros id. destruct (m_segments m !! id) as [s|] eqn:Hid; [|done].
    destruct (mo_segment _ _ _ Hok id s Hid) as (_ & Hpos & _). cbn in Hpos. lia. }
  split; [done|]. apply map_empty. intros f. destruct (m_file_to_segments m !! f) as [id|] eqn:Hf; [|done].
  destruct (mo_file _ _ _ Hok f id Hf) as (s & Hs' & _). by rewrite Hm, lookup_empty in Hs'.
Qed.
End arrays.

(** ** Concrete files and readers *)


(** The files of the example, and its columns. *)
Definition example_files : gmap name bytes := files example_writer ∅.
Definition example_indices : list index_file_information := map (λ c, column_info c example_writer) [0%nat; 1%nat].
Definition example_columns : list (list flexible_type) :=
  [[FInt 1; FInt 5; FUndefined; FFloat 0]; [FString [97; 0; 0]; FInt 7; FString []; FInt 2]].

Lemma example_stored : Forall2 (λ index vs, ∃ ds, column_in 1 example_files index ds ∧ Forall2 same_value vs (concat ds))
  example_indices example_columns.
Proof.
  destruct (written_and_closed (λ _, 0) ltac:(intros x; split; vm_compute; congruence) default_settings example_pad eq_refl 1
    example_index 2 2 example_requests ltac:(lia) example_legal example_storable) as (w & vals & Hw & Hok & Hv).
  destruct example_fits as [Hrun Hfits]. assert (w = example_writer) as -> by (unfold example_run in Hrun; congruence).
  assert (∀ c, (c < 2)%nat → ∃ ds, column_in 1 example_files (column_info c example_writer) ds ∧
    Forall2 same_value (column_values (column_of example_requests) 2 c) (concat ds)) as H.
  { intros c Hc. assert (column_values (column_of example_requests) 2 c = column_values vals 2 c) as ->.
    { unfold column_values. f_equal. apply map_ext. intros s. symmetry. apply Hv. }
    apply (closed_column example_pad eq_refl 1 example_index 2 2 example_writer vals Hok (λ s c, proj2 (Hv s c)) Hfits); [done|done|lia]. }
  constructor; [exact (H 0%nat ltac:(lia))|]. constructor; [exact (H 1%nat ltac:(lia))|constructor].
Qed.

(** Two readers with a cache of one block, over the two columns. *)
Definition example_actions : list action :=
  [OpenColumn 0 0; OpenColumn 1 1; ReadRows 0 1 3 []; ReadRows 1 0 9 []; ReadRows 0 0 2 []; OpenColumn 1 0; ReadRows 1 2 4 [];
   CloseReader 0; ReadRows 1 3 4 []; CloseReader 1].
Definition example_readers : list array_reader := [new_reader [3; 1; 2]%nat; new_reader []].
Definition example_settings : settings := Settings 1 2 3 1.
Definition example_results : list (list flexible_type) :=
  [[FInt 5; FUndefined]; [FString [97; 0; 0]; FInt 7; FString []; FInt 2]; [FInt 1; FInt 5]; [FUndefined; FFloat 0]; [FFloat 0]].

Lemma example_readers_new : Forall (λ r, ∃ choices, r = new_reader choices) example_readers.
Proof. repeat (constructor; [by eexists|]). constructor. Qed.

Lemma readers_are_columns_witness : ∃ results' rs' m,
  run example_settings 1 [] example_files example_indices example_actions example_readers new_manager = Ok (results', rs', m) ∧
  Forall2 (Forall2 same_value) example_results results'.
Proof.
  apply (readers_are_columns example_settings 1 [] example_files example_indices example_columns example_actions example_readers).
  - exact example_stored.
  - exact example_readers_new.
  - vm_compute. reflexivity.
Defined.

Lemma open_segments_are_counted_witness : ∃ results' rs' m,
  run example_settings 1 [] example_files example_indices example_actions example_readers new_manager = Ok (results', rs', m) ∧
  (∀ id, default 0 (reference_count <$> m_segments m !! id) = Z.of_nat (opened (addresses rs') id)) ∧
  (addresses rs' = [] → m_segments m = ∅ ∧ m_file_to_segments m = ∅).
Proof.
  apply (open_segments_are_counted example_settings 1 [] example_files example_indices example_columns example_actions
    example_readers example_results).
  - exact example_stored.
  - exact example_readers_new.
  - vm_compute. reflexivity.
Defined.
End SArrays.
