(* ===== verification/SortMerge.v ===== *)
(** The order of sorted rows (sframe_query_engine/algorithm/sort_comparator.hpp), and the threads
    that sort the segments of a partitioned frame and write them (sort_and_merge.cpp). *)
From S2P Require Import Prelude Float64 FlexType FlexOps QueryPlan SFrame.
Import FlexType FlexOps SFrame.
Import QueryPlan(SoftAssign, soft_assign).
Local Open Scope Z_scope.
Local Open Scope sframe_scope.

Module SortMerge.

(** ** Comparators *)

Section comparators.
Context (hash : flexible_type → Z).

(** The body of the loops of both comparators, on the values of a column. [None]: the loop goes
    on with the next column. *)
Definition compare_values (ascending : bool) (a b : flexible_type) : outcome (option bool) :=
  if approx_equality_operator hash a FUndefined then
    Ok (if approx_equality_operator hash b FUndefined then None else Some ascending)
  else if approx_equality_operator hash b FUndefined then Ok (Some (negb ascending))
  else
    lt ← lt_operator a b;
    if (lt : bool) then Ok (Some ascending) else
    gt ← gt_operator a b;
    Ok (if (gt : bool) then Some (negb ascending) else None).

(** [less_than_partial_function]: the columns [m_sort_columns]. *)
Fixpoint less_than_partial (m_sort_columns : list nat) (m_sort_orders : list bool) (v1 v2 : row) : outcome bool :=
  match m_sort_columns, m_sort_orders with
  | [], _ => Ok false
  | _ :: _, [] => Trap
  | column_idx :: m_sort_columns, ascending :: m_sort_orders =>
      a ← or_trap (v1 !! column_idx);
      b ← or_trap (v2 !! column_idx);
      o ← compare_values ascending a b;
      match o with
      | Some less => Ok less
      | None => less_than_partial m_sort_columns m_sort_orders v1 v2
      end
  end.

(** [less_than_full_function::compare]: all columns. *)
Definition less_than_full (m_sort_orders : list bool) (v1 v2 : row) : outcome bool :=
  less_than_partial (seq 0 (length m_sort_orders)) m_sort_orders v1 v2.

(** [==] of two vectors of values. *)
Fixpoint vector_eq (v1 v2 : row) : bool :=
  match v1, v2 with
  | [], [] => true
  | a :: v1, b :: v2 => approx_equality_operator hash a b && vector_eq v1 v2
  | _, _ => false
  end.
End comparators.

(** [std::sort], with a comparison that may throw. Elements that the comparison does not order
    come in any order. *)
Class StdSort := std_sort : ∀ A : Type, (A → A → outcome bool) → list A → outcome (list A).
#[global] Arguments std_sort {_ _}.

(** ** Rows of a partition: the key, and the other values as bytes *)

Definition sort_row : Type := list flexible_type * list Z.

(** [segment_start]. *)
Definition segment_start (partition_array : list (list sort_row)) (segmentid : nat) : nat :=
  sum_list (map length (take segmentid partition_array)).

(** [read_one_chunk]: the rows of the array from the first of the segment to the first of the
    next. *)
Definition read_one_chunk (partition_array : list (list sort_row)) (segment_id : nat) : list sort_row :=
  let row_start := segment_start partition_array segment_id in
  let row_end := segment_start partition_array (segment_id + 1) in
  take (row_end - row_start) (drop row_start (concat partition_array)).

(** [sort_row_to_output_row]: more keys than columns are written past the end. *)
Definition sort_row_to_output_row (fuel : nat) (r : sort_row) (num_columns : nat) : outcome row :=
  if (num_columns <? length r.1)%nat then Trap else
  v ← or_trap (read_many (num_columns - length r.1) (load fuel) r.2);
  Ok (r.1 ++ v.1).

(** [permute_row]. *)
Definition permute_row (permuted_row : row) (permute_order : list nat) : outcome row :=
  or_trap (mapM (λ i, j ← permute_order !! i; permuted_row !! j) (seq 0 (length permuted_row))).

(** ** [sort_and_merge] *)

(** What a thread does: it has no segment ([Ready]), waits for the mutex ([Locking]) or for the
    condition variable ([Waiting]) with a segment, or writes the rest of one; [counted]: the
    segment counts as used memory. *)
Inductive activity :=
  | Ready
  | Locking (segment_id : nat)
  | Waiting (segment_id : nat)
  | Writing (segment_id : nat) (counted : bool) (rest : list sort_row)
  | Finished.

Record merge_state := Merge {
  next_segment_to_sort : nat;
  mem_used : Z;
  threads : list activity;
  out_sframe : frame_writer;
}.

(** The steps of a thread: it takes a segment, gets the mutex and looks at the memory, writes a
    row, leaves the segment, with the thread that the signal wakes. The last is a spurious
    wake-up of a thread that waits. *)
Inductive merge_event :=
  | Take (thread_id : nat)
  | Lock (thread_id : nat)
  | Put (thread_id : nat)
  | Leave (thread_id : nat) (woken : option nat)
  | Wake (thread_id : nat).

Definition set_thread (t : nat) (a : activity) (st : merge_state) : merge_state :=
  Merge (next_segment_to_sort st) (mem_used st) (<[t := a]> (threads st)) (out_sframe st).
Definition set_mem_used (m : Z) (st : merge_state) : merge_state :=
  Merge (next_segment_to_sort st) m (threads st) (out_sframe st).

Definition is_waiting (a : activity) : bool := match a with Waiting _ => true | _ => false end.
Definition is_finished (a : activity) : bool := match a with Finished => true | _ => false end.

(** [mem_threshold_cv.signal()]: one of the threads that wait, if there are any, goes on to the
    mutex. *)
Definition signal (woken : option nat) (st : merge_state) : outcome merge_state :=
  match woken with
  | Some u => match threads st !! u with Some (Waiting s) => Ok (set_thread u (Locking s) st) | _ => Trap end
  | None => if existsb is_waiting (threads st) then Trap else Ok st
  end.

Section merge.
Context {SA : SoftAssign} {SS : StdSort} (hash : flexible_type → Z) (fuel : nat).
Context (SFRAME_SORT_BUFFER_SIZE : Z).
Context (partition_array : list (list sort_row)) (partition_sorted : list bool) (partition_sizes : list Z).
Context (sort_orders : list bool) (permute_order : list nat) (num_columns : nat).

Definition num_segments : nat := length partition_array.

(** The condition under which a thread waits: the memory is used, but not when the segment alone
    is too large and nothing runs, nor when it is empty. *)
Definition must_wait (mem_used size : Z) : bool :=
  (SFRAME_SORT_BUFFER_SIZE <? u64 (mem_used + size)) &&
  negb (((SFRAME_SORT_BUFFER_SIZE <? size) && (mem_used =? 0)) || (size =? 0)).

Definition sort_chunk (segment_id : nat) : outcome (list sort_row) :=
  std_sort (λ a b, less_than_full hash sort_orders a.1 b.1) (read_one_chunk partition_array segment_id).

(** A thread takes the next segment. One that is sorted is written as it is read. *)
Definition take_segment (t : nat) (st : merge_state) : outcome merge_state :=
  let segment_id := next_segment_to_sort st in
  let st := Merge (S segment_id) (mem_used st) (threads st) (out_sframe st) in
  if (segment_id <? num_segments)%nat then
    sorted ← or_trap (partition_sorted !! segment_id);
    if (sorted : bool) then
      rows ← or_trap (partition_array !! segment_id);
      Ok (set_thread t (Writing segment_id false rows) st)
    else Ok (set_thread t (Locking segment_id) st)
  else Ok (set_thread t Finished st).

(** A thread has the mutex: it waits, or counts the memory of its segment, which it then reads
    and sorts. *)
Definition lock_memory (t segment_id : nat) (st : merge_state) : outcome merge_state :=
  size ← or_trap (partition_sizes !! segment_id);
  if must_wait (mem_used st) size then Ok (set_thread t (Waiting segment_id) st)
  else
    rows ← sort_chunk segment_id;
    Ok (set_thread t (Writing segment_id true rows) (set_mem_used (u64 (mem_used st + size)) st)).

(** One turn of the loop of [write_one_chunk]. *)
Definition put_row (segment_id : nat) (r : sort_row) (w : frame_writer) : outcome frame_writer :=
  permuted_row ← sort_row_to_output_row fuel r num_columns;
  output_row ← permute_row permuted_row permute_order;
  write_row segment_id output_row w.

Definition leave_segment (t segment_id : nat) (counted : bool) (woken : option nat) (st : merge_state)
  : outcome merge_state :=
  let st := set_thread t Ready st in
  if counted then
    size ← or_trap (partition_sizes !! segment_id);
    signal woken (set_mem_used (u64 (mem_used st - size)) st)
  else Ok st.

(** [Trap] also when the thread is not where the event happens. *)
Definition merge_step (e : merge_event) (st : merge_state) : outcome merge_state :=
  match e with
  | Take t => match threads st !! t with Some Ready => take_segment t st | _ => Trap end
  | Lock t => match threads st !! t with Some (Locking s) => lock_memory t s st | _ => Trap end
  | Put t =>
      match threads st !! t with
      | Some (Writing s counted (r :: rest)) =>
          w ← put_row s r (out_sframe st);
          Ok (Merge (next_segment_to_sort st) (mem_used st) (<[t := Writing s counted rest]> (threads st)) w)
      | _ => Trap
      end
  | Leave t woken =>
      match threads st !! t with
      | Some (Writing s counted []) => leave_segment t s counted woken st
      | _ => Trap
      end
  | Wake t => match threads st !! t with Some (Waiting s) => Ok (set_thread t (Locking s) st) | _ => Trap end
  end.

Fixpoint merge_run (es : list merge_event) (st : merge_state) : outcome merge_state :=
  match es with
  | [] => Ok st
  | e :: es => st ← merge_step e st; merge_run es st
  end.

Definition merge_start (num_threads : nat) (w : frame_writer) : merge_state :=
  Merge 0 0 (replicate num_threads Ready) w.

(** The threads run until each finds no more segment. [Trap]: they have not ended. *)
Definition sort_and_merge (num_threads : nat) (es : list merge_event)
    (column_names : list (list Z)) (column_types : list flex_type_enum) : outcome sframe :=
  w ← open_for_write column_names column_types num_segments true;
  st ← merge_run es (merge_start num_threads w);
  if forallb is_finished (threads st) then Ok (close (out_sframe st)) else Trap.
End merge.
End SortMerge.
