(* ===== verification/Sort.v ===== *)
(** The sort of a query plan (sframe_query_engine/algorithm/sort.cpp): in memory, or by partitions
    around pivots, which [SortMerge.sort_and_merge] sorts and writes. *)
From S2P Require Import Prelude Float64 FloatArith FlexType FlexOps QueryPlan QueryGraph SFrame SortMerge.
Import Float64 FloatArith FlexType FlexOps SFrame SortMerge.
Import QueryPlan(SoftAssign, soft_assign, heap, denote, op_project, op_union, infer_planner_node_type, infer_planner_node_length).
Import QueryGraph(plan, Old, New, make_planner_node).
Local Open Scope Z_scope.
Local Open Scope sframe_scope.

Module Sort.

Definition CELL_SIZE_ESTIMATE : Z := 64.
Definition ROW_SIZE_ESTIMATE : Z := 32.

(** ** [scatter_partition] *)

(** The array of partitions that is written, and for each partition its first key (empty: none
    yet), its sizes and whether all its keys are the same. *)
Record scatter_state := Scatter {
  parted_array : list (list sort_row);
  first_sort_key : list (list flexible_type);
  partition_size_in_bytes : list Z;
  partition_size_in_rows : list nat;
  partition_sorted : list bool;
}.

(** The two critical sections of the callback for a row: under the mutex of the flags of its
    partition, and under that of its output. *)
Inductive scatter_event := Mark (item : row) | Stream (item : row).

Section scatter.
Context (hash : flexible_type → Z).

(** The first partition whose key is not less than the key of the row, and else the last. *)
Fixpoint find_partition (sort_orders : list bool) (partition_keys : list flexible_type) (sort_keys : list flexible_type)
  : outcome nat :=
  match partition_keys with
  | [] => Ok 0%nat
  | FList partition_key :: partition_keys =>
      le ← (if vector_eq hash sort_keys partition_key then Ok true
            else less_than_full hash sort_orders sort_keys partition_key);
      if (le : bool) then Ok 0%nat
      else i ← find_partition sort_orders partition_keys sort_keys; Ok (S i)
  | _ :: _ => Trap
  end.

Context (num_sort_columns : nat) (sort_orders : list bool) (partition_keys : list flexible_type).

Definition sort_keys (item : row) : outcome (list flexible_type) :=
  or_trap (mapM (λ i, item !! i) (seq 0 num_sort_columns)).

Definition mark_row (item : row) (st : scatter_state) : outcome scatter_state :=
  keys ← sort_keys item;
  partition_id ← find_partition sort_orders partition_keys keys;
  sorted ← or_trap (partition_sorted st !! partition_id);
  if negb sorted then Ok st else
  first ← or_trap (first_sort_key st !! partition_id);
  match first with
  | [] => Ok (Scatter (parted_array st) (<[partition_id := keys]> (first_sort_key st))
                (partition_size_in_bytes st) (partition_size_in_rows st) (partition_sorted st))
  | _ =>
      if vector_eq hash first keys then Ok st
      else Ok (Scatter (parted_array st) (first_sort_key st) (partition_size_in_bytes st)
                 (partition_size_in_rows st) (<[partition_id := false]> (partition_sorted st)))
  end.

Definition stream_row (item : row) (st : scatter_state) : outcome scatter_state :=
  keys ← sort_keys item;
  partition_id ← find_partition sort_orders partition_keys keys;
  arcout ← or_trap (wconcat save (drop num_sort_columns item));
  let size := Z.of_nat (length arcout) + Z.of_nat num_sort_columns * CELL_SIZE_ESTIMATE + ROW_SIZE_ESTIMATE in
  Ok (Scatter (alter (λ seg, seg ++ [(keys, arcout)]) partition_id (parted_array st)) (first_sort_key st)
        (alter (λ n, u64 (n + size)) partition_id (partition_size_in_bytes st))
        (alter S partition_id (partition_size_in_rows st)) (partition_sorted st)).

Definition scatter_step (e : scatter_event) (st : scatter_state) : outcome scatter_state :=
  match e with Mark item => mark_row item st | Stream item => stream_row item st end.

Fixpoint scatter_run (es : list scatter_event) (st : scatter_state) : outcome scatter_state :=
  match es with
  | [] => Ok st
  | e :: es => st ← scatter_step e st; scatter_run es st
  end.

(** The callback on the rows of a segment, in order: what happens for a row happens in this
    order. The threads of the segments do so side by side. *)
Definition partial_sort_callback (data : list row) : list scatter_event :=
  concat (map (λ item, [Mark item; Stream item]) data).

Definition scatter_partition (partition_sorted : list bool) (es : list scatter_event) : outcome scatter_state :=
  let n := S (length partition_keys) in
  scatter_run es (Scatter (replicate n []) (replicate n []) (replicate n 0) (replicate n 0%nat) partition_sorted).
End scatter.

(** The lists of events that interleave some lists. *)
Inductive interleaving {A} : list (list A) → list A → Prop :=
  | interleaving_nil ls : Forall (λ l, l = []) ls → interleaving ls []
  | interleaving_step ls i x l r :
      ls !! i = Some (x :: l) → interleaving (<[i := l]> ls) r → interleaving ls (x :: r).

(** ** Numbers of partitions *)

(** [std::ceil]. *)
Definition fceil (b : Z) : Z := fneg (ffloor (fneg b)).

Definition estimated_sframe_size (num_rows num_columns : Z) : Z :=
  u64 (num_rows * num_columns * CELL_SIZE_ESTIMATE + num_rows * ROW_SIZE_ESTIMATE).

(** What the machine and the configuration give; [oob] converts a quotient that is no integer
    of its type. *)
Record sort_config := Config {
  SFRAME_SORT_BUFFER_SIZE : Z;
  SFRAME_SORT_MAX_SEGMENTS : Z;
  cpu_count : Z;
  oob : Z → Z;
}.

Definition sort_num_partitions (c : sort_config) (num_rows num_columns : Z) : Z :=
  let quotient := fdiv (fmul (i2f 1) (i2f (estimated_sframe_size num_rows num_columns))) (i2f (SFRAME_SORT_BUFFER_SIZE c)) in
  Z.min (u64 (u64 (f2i (oob c) (fceil quotient)) * cpu_count c)) (SFRAME_SORT_MAX_SEGMENTS c).

(** [get_partition_keys]: the keys at the quantiles of a sketch of the keys. It returns false,
    whatever the keys: that they are all the same is never found, and the branch of [sort] for
    it is never taken. *)
Definition get_partition_keys (query_quantile : Z → flexible_type) (num_partitions : Z) : list flexible_type :=
  let quantile_unit := fdiv (i2f 1) (i2f num_partitions) in
  map (λ i, query_quantile (fmul (i2f (Z.of_nat (i + 1))) quantile_unit)) (seq 0 (Z.to_nat (num_partitions - 1))).

(** ** The order of columns *)

Definition value_column_indices (sort_column_indices : list nat) (num_columns : nat) : list nat :=
  filter (λ i, i ∉ sort_column_indices) (seq 0 num_columns).

(** The loop over the columns that are no keys, then the loop over the keys. *)
Fixpoint place_values (sort_column_indices : list nat) (value_column_counter : nat) (columns : list nat)
    (permute_ordering : list nat) : list nat :=
  match columns with
  | [] => permute_ordering
  | i :: columns =>
      if bool_decide (i ∈ sort_column_indices)
      then place_values sort_column_indices value_column_counter columns permute_ordering
      else place_values sort_column_indices (S value_column_counter) columns
             (<[i := (length sort_column_indices + value_column_counter)%nat]> permute_ordering)
  end.

Fixpoint place_keys (k : nat) (sort_column_indices : list nat) (permute_ordering : list nat) : list nat :=
  match sort_column_indices with
  | [] => permute_ordering
  | i :: sort_column_indices => place_keys (S k) sort_column_indices (<[i := k]> permute_ordering)
  end.

Definition make_permute_ordering (sort_column_indices : list nat) (num_columns : nat) : list nat :=
  place_keys 0 sort_column_indices
    (place_values sort_column_indices 0 (seq 0 num_columns) (replicate num_columns 0%nat)).

(** ** [sort] *)

Definition supported_type (t : flex_type_enum) : bool :=
  match t with STRING | INTEGER | FLOAT | DATETIME => true | _ => false end.

Section sort.
Context {SA : SoftAssign} {SS : StdSort} (hash : flexible_type → Z) (fuel : nat) (c : sort_config).

(** [planner().materialize]: the rows of the table of a node. *)
Definition materialize (h : heap) (n : nat) : outcome (list row) := or_trap (snd <$> denote h n).

Definition sort_sframe_in_memory (h : heap) (n : nat) (column_names : list (list Z)) (sort_columns : list nat)
    (sort_orders : list bool) : outcome sframe :=
  column_types ← or_trap (infer_planner_node_type h n);
  rows ← materialize h n;
  rows ← std_sort (less_than_partial hash sort_columns sort_orders) rows;
  w ← open_for_write column_names column_types 1 true;
  w ← write_each_move (map (pair 0%nat) rows) w;
  Ok (close w).

(** The keys and the values of the frame side by side, keys first. *)
Definition key_and_value_plan (n : nat) (sort_column_indices value_columns : list nat) : plan :=
  let key_columns := New (op_project sort_column_indices) [Old n] in
  match value_columns with
  | [] => key_columns
  | _ => New op_union [key_columns; New (op_project value_columns) [Old n]]
  end.

(** The events of the callback on the segments that the planner cuts the plan into, whose
    threads run side by side. *)
Definition scatter_order (h : heap) (n : nat) (sort_column_indices value_columns : list nat) (es : list scatter_event) : Prop :=
  ∃ h' k rows data, make_planner_node (key_and_value_plan n sort_column_indices value_columns) h = Some (h', k) ∧
    materialize h' k = Ok rows ∧ concat data = rows ∧ interleaving (map partial_sort_callback data) es.

(** What is not determined: the quantiles of the random sample, the segments that the planner
    makes of a plan, and the order of the steps of the threads. *)
Record sort_choices := Choices {
  query_quantile : Z → flexible_type;
  scatter_events : list scatter_event;
  merge_events : list merge_event;
}.

Definition sort_by_partitions (ch : sort_choices) (num_partitions : Z)
    (column_types : list flex_type_enum) (column_names : list (list Z)) (sort_column_indices : list nat)
    (sort_orders : list bool) : outcome sframe :=
  let num_columns := length column_types in
  let partition_keys := get_partition_keys (query_quantile ch) num_partitions in
  st ← scatter_partition hash (length sort_orders) sort_orders partition_keys
         (replicate (Z.to_nat num_partitions) true) (scatter_events ch);
  sort_and_merge hash fuel (SFRAME_SORT_BUFFER_SIZE c) (parted_array st) (partition_sorted st)
    (partition_size_in_bytes st) sort_orders (make_permute_ordering sort_column_indices num_columns)
    (length column_names) (Z.to_nat (cpu_count c)) (merge_events ch) column_names column_types.

(** The length, which materializing the keys gives when it is not known. *)
Definition sort_num_rows (h : heap) (n : nat) (sort_column_indices : list nat) : outcome Z :=
  num_rows ← or_trap (infer_planner_node_length h n);
  if num_rows =? -1 then
    '(h, k) ← or_trap (make_planner_node (New (op_project sort_column_indices) [Old n]) h);
    rows ← materialize h k; Ok (Z.of_nat (length rows))
  else Ok num_rows.

(** The types of the keys must have an order. *)
Fixpoint check_sort_types (column_types : list flex_type_enum) (sort_column_indices : list nat) : outcome () :=
  match sort_column_indices with
  | [] => Ok ()
  | i :: sort_column_indices =>
      t ← or_trap (column_types !! i);
      if supported_type t then check_sort_types column_types sort_column_indices else Throw
  end.

Definition sort (ch : sort_choices) (h : heap) (n : nat) (column_names : list (list Z)) (sort_column_indices : list nat)
    (sort_orders : list bool) : outcome sframe :=
  column_types ← or_trap (infer_planner_node_type h n);
  num_rows ← sort_num_rows h n sort_column_indices;
  check_sort_types column_types sort_column_indices;;
  let num_partitions := sort_num_partitions c num_rows (Z.of_nat (length column_types)) in
  if num_partitions <=? cpu_count c
  then sort_sframe_in_memory h n column_names sort_column_indices sort_orders
  else sort_by_partitions ch num_partitions column_types column_names sort_column_indices sort_orders.
End sort.
End Sort.
