(* ===== verification/SortOrderSpec.v ===== *)
(** The comparators of sorted rows are strict weak orders on rows whose keys have the types that
    can be sorted, and no NaN. *)
From stdpp Require Import sorting.
From S2P Require Import Prelude Float64 FlexType FlexOps FlexOpsSpec GroupBySpec SFrame SortMerge Sort.
Import Float64 FlexType FlexOps FlexOpsSpec SFrame SortMerge Sort.
Import GroupBySpec(bind_Ok).
Local Open Scope Z_scope.
Local Open Scope sframe_scope.

Module SortOrderSpec.

(** ** Sums *)

Fixpoint sum_of {A} (f : A → Z) (l : list A) : Z := match l with [] => 0 | a :: l => f a + sum_of f l end.

Lemma sum_of_insert {A} (f : A → Z) l t a b : l !! t = Some a → sum_of f (<[t := b]> l) = sum_of f l - f a + f b.
Proof.
  revert t. induction l as [|x l IH]; intros [|t] H; try done.
  - injection H as ->. cbn. lia.
  - change (<[S t := b]> (x :: l)) with (x :: <[t := b]> l). cbn [sum_of]. rewrite (IH t) by done. lia.
Qed.

Lemma sum_of_nonneg {A} (f : A → Z) l : (∀ a, 0 ≤ f a) → 0 ≤ sum_of f l.
Proof. intros Hf. induction l as [|x l IH]; cbn; [lia|]. specialize (Hf x). lia. Qed.

Lemma sum_of_lookup {A} (f : A → Z) l t a : (∀ a, 0 ≤ f a) → l !! t = Some a → f a ≤ sum_of f l.
Proof.
  intros Hf. revert t. induction l as [|x l IH]; intros [|t] H; try done; cbn.
  - injection H as ->. pose proof (sum_of_nonneg f l Hf). lia.
  - specialize (IH _ H). specialize (Hf x). lia.
Qed.

Lemma sum_of_positive {A} (f : A → Z) l : 0 < sum_of f l → ∃ t a, l !! t = Some a ∧ 0 < f a.
Proof.
  induction l as [|x l IH]; cbn; intros H; [lia|]. destruct (decide (0 < f x)); [by exists 0%nat, x|].
  destruct IH as (t & a & ? & ?); [lia|]. by exists (S t), a.
Qed.

#[global] Instance sum_of_perm {A} (f : A → Z) : Proper (Permutation ==> eq) (sum_of f).
Proof. intros l1 l2 H. induction H; cbn; lia. Qed.

Lemma sum_of_app {A} (f : A → Z) l1 l2 : sum_of f (l1 ++ l2) = sum_of f l1 + sum_of f l2.
Proof. induction l1 as [|x l1 IH]; cbn; lia. Qed.

Lemma sum_of_filter {A} (f : A → Z) (P : A → Prop) `{∀ x, Decision (P x)} l : (∀ a, 0 ≤ f a) → 0 ≤ sum_of f (filter P l) ≤ sum_of f l.
Proof.
  intros Hf. split; [by apply sum_of_nonneg|]. induction l as [|x l IH]; [done|]. rewrite filter_cons. specialize (Hf x).
  destruct (decide (P x)); cbn; lia.
Qed.

Lemma sum_of_map {A B} (f : B → Z) (g : A → B) l : sum_of f (map g l) = sum_of (λ x, f (g x)) l.
Proof. induction l as [|x l IH]; cbn; lia. Qed.

(** ** Strict weak orders *)

(** Neither of two elements is less than the other, or one is; and not being less is
    transitive, so that being incomparable is an equivalence. *)
Record weak_order {A} (P : A → Prop) (lt : A → A → bool) : Prop := {
  order_asym a b : P a → P b → lt a b = true → lt b a = false;
  order_negtrans a b c : P a → P b → P c → lt a b = false → lt b c = false → lt a c = false;
}.

(** What [std::sort] asks of a comparison that can throw: a strict weak order on the elements. *)
Record comparison_ok {A} (P : A → Prop) (cmp : A → A → outcome bool) : Prop := {
  cmp_defined a b : P a → P b → ∃ lt, cmp a b = Ok lt;
  cmp_asym a b : P a → P b → cmp a b = Ok true → cmp b a = Ok false;
  cmp_negtrans a b c : P a → P b → P c → cmp a b = Ok false → cmp b c = Ok false → cmp a c = Ok false;
}.

(** Sorted: no element is less than one before it. *)
Definition sorted {A} (cmp : A → A → outcome bool) : list A → Prop := StronglySorted (λ a b, cmp b a = Ok false).

(** What the standard says of [std::sort]. *)
Class StdSortLaws {SS : StdSort} : Prop :=
  std_sort_sorts : ∀ A (P : A → Prop) (cmp : A → A → outcome bool) l, comparison_ok P cmp → Forall P l →
    ∃ l', std_sort cmp l = Ok l' ∧ l' ≡ₚ l ∧ sorted cmp l'.

Lemma total_order {A} (P : A → Prop) (lt : A → A → bool) :
  (∀ a, P a → lt a a = false) → (∀ a b c, P a → P b → P c → lt a b = true → lt b c = true → lt a c = true) →
  (∀ a b, P a → P b → lt a b = true ∨ a = b ∨ lt b a = true) → weak_order P lt.
Proof.
  intros Hi Ht Htri. split.
  - intros a b Ha Hb Hab. destruct (lt b a) eqn:Hba; [|done]. pose proof (Ht a b a Ha Hb Ha Hab Hba) as H. by rewrite Hi in H.
  - intros a b c Ha Hb Hc Hab Hbc. destruct (lt a c) eqn:Hac; [|done].
    destruct (Htri a b Ha Hb) as [|[->|Hba]]; [congruence|congruence|]. rewrite (Ht b a c) in Hbc by done. done.
Qed.

(** Along a map to another order. *)
Lemma order_along {A B} (P : A → Prop) (Q : B → Prop) lt (f : B → A) :
  weak_order P lt → (∀ b, Q b → P (f b)) → weak_order Q (λ a b, lt (f a) (f b)).
Proof. intros [Ha Hn] Hf. split; eauto. Qed.

Lemma ltb_order : weak_order (λ _, True) Z.ltb.
Proof. split; intros *; rewrite ?Z.ltb_lt, ?Z.ltb_ge; lia. Qed.

Lemma string_order : weak_order (λ _, True) string_lt.
Proof.
  apply total_order; [intros; apply string_lt_irrefl|intros a b c _ _ _; apply string_lt_trans|intros; apply string_lt_trichotomy].
Qed.

Lemma float_order : weak_order (λ b, isnan b = false) flt.
Proof.
  split; unfold flt.
  - intros a b -> ->. cbn. rewrite Z.ltb_lt, Z.ltb_ge. lia.
  - intros a b c -> -> ->. cbn. rewrite !Z.ltb_ge. lia.
Qed.

Lemma time_order : weak_order (λ _, True) dt_lt.
Proof.
  split; intros *; unfold dt_lt; rewrite ?orb_true_iff, ?orb_false_iff, ?andb_true_iff, ?andb_false_iff, ?Z.ltb_lt, ?Z.ltb_ge, ?Z.eqb_eq, ?Z.eqb_neq; lia.
Qed.

(** ** Values *)

(** A value of a column of type [t] that can be sorted. *)
Definition comparable (t : flex_type_enum) (v : flexible_type) : Prop :=
  match v with
  | FUndefined => True
  | FInt _ => t = INTEGER
  | FFloat b => t = FLOAT ∧ isnan b = false
  | FString _ => t = STRING
  | FDateTime _ => t = DATETIME
  | _ => False
  end.

#[global] Instance comparable_dec t v : Decision (comparable t v).
Proof. destruct v; cbn; apply _. Defined.

(** Missing values come first. *)
Definition below (a b : flexible_type) : bool :=
  match a, b with
  | FUndefined, FUndefined => false
  | FUndefined, _ => true
  | FInt x, FInt y => x <? y
  | FFloat x, FFloat y => flt x y
  | FString x, FString y => string_lt x y
  | FDateTime x, FDateTime y => dt_lt x y
  | _, _ => false
  end.

Lemma below_order t : weak_order (comparable t) below.
Proof.
  split.
  - intros a b Ha Hb. destruct a as [x|x|x|x|x|x|x| |x], b as [y|y|y|y|y|y|y| |y]; cbn; try done.
    + by apply (order_asym _ _ ltb_order).
    + apply (order_asym _ _ float_order); [apply Ha|apply Hb].
    + by apply (order_asym _ _ string_order).
    + by apply (order_asym _ _ time_order).
  - intros a b c Ha Hb Hc.
    destruct a as [x|x|x|x|x|x|x| |x], b as [y|y|y|y|y|y|y| |y], c as [z|z|z|z|z|z|z| |z]; cbn; try done;
      cbn in Ha, Hb, Hc; try (exfalso; clear -Ha Hb Hc; naive_solver congruence).
    + by apply (order_negtrans _ _ ltb_order).
    + apply (order_negtrans _ _ float_order); [apply Ha|apply Hb|apply Hc].
    + by apply (order_negtrans _ _ string_order).
    + by apply (order_negtrans _ _ time_order).
Qed.

Section order.
Context (hash : flexible_type → Z).
Abbreviation compare_values := (compare_values hash).
Abbreviation less_than_partial := (less_than_partial hash).
Abbreviation less_than_full := (less_than_full hash).
Abbreviation vector_eq := (vector_eq hash).

Lemma compare_values_ok t asc a b : comparable t a → comparable t b →
  compare_values asc a b = Ok (if below a b then Some asc else if below b a then Some (negb asc) else None).
Proof.
  intros Ha Hb. destruct a as [x|x|x|x|x|x|x| |x], b as [y|y|y|y|y|y|y| |y]; try done;
    cbn in Ha, Hb; try (exfalso; clear -Ha Hb; naive_solver congruence); unfold SortMerge.compare_values; cbn; try done.
  - by destruct (x <? y).
  - unfold fgt. by destruct (flt x y).
  - by destruct (string_lt x y).
  - rewrite dt_gt_lt. by destruct (dt_lt x y).
Qed.

Lemma equal_not_below t a b : comparable t a → comparable t b → approx_equality_operator hash a b = true → below a b = false.
Proof.
  intros Ha Hb. destruct a as [x|x|x|x|x|x|x| |x], b as [y|y|y|y|y|y|y| |y]; try done; cbn; intros H.
  - lia.
  - destruct Ha as [_ Ha], Hb as [_ Hb]. rewrite Ha in H. cbn in H. by destruct (flt_trichotomy x y Ha Hb) as [(?&?&?)|[(?&?&?)|(?&?&?)]]; congruence.
  - apply bool_decide_eq_true in H as ->. apply string_lt_irrefl.
  - unfold dt_eq in H. unfold dt_lt. lia.
Qed.

(** What the loop does with a column: it ends where one value is less, in the order of the
    column. *)
Definition column_less (asc : bool) (a b : flexible_type) : bool := if asc then below a b else below b a.

Lemma column_order asc t : weak_order (comparable t) (column_less asc).
Proof.
  destruct asc; [apply below_order|]. pose proof (below_order t) as [Ha Hn]. split; unfold column_less; eauto.
Qed.

Lemma compare_column t asc a b : comparable t a → comparable t b →
  compare_values asc a b = Ok (if column_less asc a b then Some true else if column_less asc b a then Some false else None).
Proof.
  intros Ha Hb. rewrite (compare_values_ok t) by done. pose proof (order_asym _ _ (below_order t) a b Ha Hb) as Has.
  destruct asc; cbn; destruct (below a b); [done|done|by rewrite Has by done|done].
Qed.

(** ** Rows *)

(** The keys of a row, in the columns [cols], can be compared. *)
Definition keys_comparable (types : list flex_type_enum) (cols : list nat) (r : row) : Prop :=
  Forall (λ i, ∃ t v, types !! i = Some t ∧ r !! i = Some v ∧ comparable t v) cols.

Lemma less_than_partial_cons types i cols asc orders r s :
  keys_comparable types (i :: cols) r → keys_comparable types (i :: cols) s → ∃ t a b,
    r !! i = Some a ∧ s !! i = Some b ∧ comparable t a ∧ comparable t b ∧ types !! i = Some t ∧
    less_than_partial (i :: cols) (asc :: orders) r s =
      if column_less asc a b then Ok true else if column_less asc b a then Ok false else less_than_partial cols orders r s.
Proof.
  intros (t & a & Ht & Hr & Ha)%Forall_cons_1%proj1 (t' & b & Ht' & Hs & Hb)%Forall_cons_1%proj1.
  assert (t' = t) as -> by congruence. exists t, a, b. split_and!; [done..|]. cbn [SortMerge.less_than_partial].
  rewrite Hr, Hs. cbn [or_trap mbind outcome_bind]. rewrite (compare_column t) by done. cbn [mbind outcome_bind].
  destruct (column_less asc a b); [done|]. by destruct (column_less asc b a).
Qed.

Lemma keys_comparable_tail types i cols r : keys_comparable types (i :: cols) r → keys_comparable types cols r.
Proof. by intros [_ H]%Forall_cons_1. Qed.

Lemma partial_defined types cols : ∀ orders r s, length orders = length cols →
  keys_comparable types cols r → keys_comparable types cols s → ∃ lt, less_than_partial cols orders r s = Ok lt.
Proof.
  induction cols as [|i cols IH]; intros [|asc orders] r s Hl Hr Hs; try done; [by eexists|].
  destruct (less_than_partial_cons types i cols asc orders r s Hr Hs) as (t & a & b & _ & _ & _ & _ & _ & ->).
  destruct (column_less asc a b); [by eexists|]. destruct (column_less asc b a); [by eexists|].
  apply IH; [by injection Hl|by eapply keys_comparable_tail..].
Qed.

Lemma partial_asym types cols : ∀ orders r s, length orders = length cols →
  keys_comparable types cols r → keys_comparable types cols s →
  less_than_partial cols orders r s = Ok true → less_than_partial cols orders s r = Ok false.
Proof.
  induction cols as [|i cols IH]; intros [|asc orders] r s Hl Hr Hs; try done.
  destruct (less_than_partial_cons types i cols asc orders r s Hr Hs) as (t & a & b & Ha & Hb & Hca & Hcb & Ht & ->).
  destruct (less_than_partial_cons types i cols asc orders s r Hs Hr) as (t' & b' & a' & Hb' & Ha' & _ & _ & _ & ->).
  simplify_eq. pose proof (order_asym _ _ (column_order asc t) a b Hca Hcb) as H1.
  pose proof (order_asym _ _ (column_order asc t) b a Hcb Hca) as H2.
  destruct (column_less asc a b); [by rewrite H1 by done|]. destruct (column_less asc b a); [done|].
  intros H. apply IH; [done|by eapply keys_comparable_tail..|done].
Qed.

Lemma partial_negtrans types cols : ∀ orders r s u, length orders = length cols →
  keys_comparable types cols r → keys_comparable types cols s → keys_comparable types cols u →
  less_than_partial cols orders r s = Ok false → less_than_partial cols orders s u = Ok false →
  less_than_partial cols orders r u = Ok false.
Proof.
  induction cols as [|i cols IH]; intros [|asc orders] r s u Hl Hr Hs Hu; try done.
  destruct (less_than_partial_cons types i cols asc orders r s Hr Hs) as (t & a & b & Ha & Hb & Hca & Hcb & Ht & ->).
  destruct (less_than_partial_cons types i cols asc orders s u Hs Hu) as (t1 & b1 & c & Hb1 & Hc & _ & Hcc & Ht1 & ->).
  destruct (less_than_partial_cons types i cols asc orders r u Hr Hu) as (t2 & a2 & c2 & Ha2 & Hc2 & _ & _ & _ & ->).
  assert (b1 = b ∧ a2 = a ∧ c2 = c ∧ t1 = t) as (-> & -> & -> & ->) by (split_and!; congruence).
  pose proof (column_order asc t) as Ho.
  pose proof (order_asym _ _ Ho) as Has. pose proof (order_negtrans _ _ Ho) as Hn.
  destruct (column_less asc a b) eqn:Hab; [done|]. destruct (column_less asc b c) eqn:Hbc; [by destruct (column_less asc b a)|].
  rewrite (Hn a b c) by done.
  destruct (column_less asc c a) eqn:Hca2; [done|].
  destruct (column_less asc b a) eqn:Hba.
  { rewrite (Hn b c a) in Hba by done. done. }
  destruct (column_less asc c b) eqn:Hcb1.
  { rewrite (Hn c a b) in Hcb1 by done. done. }
  intros H1 H2. apply (IH orders r s u); [by injection Hl|by eapply keys_comparable_tail..|exact H1|exact H2].
Qed.

(** Rows with the same keys, in columns of the same names or others. *)
Lemma partial_same_keys cols : ∀ cols' orders r r' s s',
  Forall2 (λ i j, ∃ a b, r !! i = Some a ∧ r' !! j = Some a ∧ s !! i = Some b ∧ s' !! j = Some b) cols cols' →
  less_than_partial cols orders r s = less_than_partial cols' orders r' s'.
Proof.
  intros cols' orders r r' s s' H. induction H as [|i j cols cols' (a & b & Hr & Hr' & Hs & Hs') _ IH] in orders |- *; [done|].
  destruct orders as [|asc orders]; [done|]. cbn [SortMerge.less_than_partial]. rewrite Hr, Hr', Hs, Hs'.
  cbn [or_trap mbind outcome_bind]. by rewrite IH.
Qed.

Theorem comparator_ok types cols orders : length orders = length cols →
  comparison_ok (keys_comparable types cols) (less_than_partial cols orders).
Proof.
  intros Hl. split; intros *; [by apply partial_defined|by apply (partial_asym types)|by apply (partial_negtrans types)].
Qed.

(** *** Keys *)

Definition key_ok (types : list flex_type_enum) (k : row) : Prop := Forall2 comparable types k.

#[global] Instance key_ok_dec types k : Decision (key_ok types k).
Proof. unfold key_ok. apply _. Defined.

Lemma key_columns types k : key_ok types k → keys_comparable types (seq 0 (length types)) k.
Proof.
  intros H. apply Forall_forall. intros i [_ Hi]%elem_of_seq. destruct (lookup_lt_is_Some_2 types i) as [t Ht]; [lia|].
  destruct (Forall2_lookup_l _ _ _ _ _ H Ht) as (v & Hv & Hc). by exists t, v.
Qed.

Lemma key_order types orders : length orders = length types → comparison_ok (key_ok types) (less_than_full orders).
Proof.
  intros Hl. unfold SortMerge.less_than_full. rewrite Hl.
  destruct (comparator_ok types (seq 0 (length types)) orders) as [Hd Ha Hn]; [by rewrite length_seq|].
  split.
  - intros a b Ka Kb. apply Hd; by apply key_columns.
  - intros a b Ka Kb. apply Ha; by apply key_columns.
  - intros a b u Ka Kb Ku. apply Hn; by apply key_columns.
Qed.

Lemma equal_values_incomparable t a b : comparable t a → comparable t b → approx_equality_operator hash a b = true →
  below a b = false ∧ below b a = false.
Proof.
  intros Ha Hb He. split; [by eapply equal_not_below|]. eapply equal_not_below; [done..|].
  rewrite <- approx_equality_sym; [done|]. by destruct a.
Qed.

Lemma equal_columns orders : ∀ types i k1 k2 pre1 pre2, length pre1 = i → length pre2 = i →
  key_ok types k1 → key_ok types k2 → vector_eq k1 k2 = true →
  less_than_partial (seq i (length types)) orders (pre1 ++ k1) (pre2 ++ k2) = Ok false ∨ (length orders < length types)%nat.
Proof.
  induction orders as [|asc orders IH]; intros [|t types] i k1 k2 pre1 pre2 H1 H2 Hk1 Hk2 He; [by left|right; cbn; lia|by left|].
  inversion Hk1 as [|? a ? k1' Ha Hk1']; inversion Hk2 as [|? b ? k2' Hb Hk2']; subst.
  cbn [SortMerge.vector_eq] in He. apply andb_true_iff in He as [Hab He].
  cbn [length seq SortMerge.less_than_partial]. rewrite list_lookup_middle by done. rewrite <- H2, list_lookup_middle by done.
  cbn [or_trap mbind outcome_bind]. rewrite (compare_values_ok t) by done.
  destruct (equal_values_incomparable t a b Ha Hb Hab) as [-> ->]. cbn [mbind outcome_bind].
  rewrite (cons_middle a), (cons_middle b), !app_assoc.
  destruct (IH types (S (length pre2)) k1' k2' (pre1 ++ [a]) (pre2 ++ [b])) as [H|H]; try done.
  - rewrite length_app. cbn. lia.
  - rewrite length_app. cbn. lia.
  - by left.
  - right. lia.
Qed.

Lemma equal_keys types orders k1 k2 : length orders = length types → key_ok types k1 → key_ok types k2 →
  vector_eq k1 k2 = true → less_than_full orders k1 k2 = Ok false.
Proof.
  intros Hl H1 H2 He. unfold SortMerge.less_than_full. rewrite Hl.
  destruct (equal_columns orders types 0 k1 k2 [] []) as [H|H]; try done. lia.
Qed.

Lemma vector_eq_sym types k1 k2 : key_ok types k1 → key_ok types k2 → vector_eq k1 k2 = vector_eq k2 k1.
Proof.
  intros H1. revert k2. induction H1 as [|t a types k1 Ha _ IH]; intros k2 H2; inversion H2; subst; [done|].
  cbn [SortMerge.vector_eq]. rewrite (IH _ ltac:(done)), approx_equality_sym by (by destruct a). done.
Qed.
End order.
End SortOrderSpec.
