(* ===== verification/SortScatterSpec.v ===== *)
(** The partitions of a sort: each row goes to one, their keys are ordered from one partition to
    the next whatever the pivots, and a partition that is marked as sorted has keys that are not
    ordered among themselves.

    The columns of a sort: the keys come first, and each row is put back in the order of the
    frame. *)
From stdpp Require Import sorting.
From S2P Require Import Prelude Float64 FlexType FlexOps FlexOpsSpec QueryPlan QueryPlanSpec QueryGraph QueryGraphSpec.
From S2P Require Import SFrame GroupBySpec SFrameSpec SortMerge Sort SortOrderSpec.
Import FlexType FlexOps SFrame SortMerge Sort SortOrderSpec.
Local Open Scope Z_scope.
Local Open Scope sframe_scope.

Module SortScatterSpec.

(** ** Interleavings *)

Lemma concat_insert_perm {A} (ls : list (list A)) i x l : ls !! i = Some (x :: l) → concat ls ≡ₚ x :: concat (<[i := l]> ls).
Proof.
  revert i. induction ls as [|l' ls IH]; intros [|i] H; try done.
  - by injection H as ->.
  - cbn. rewrite (IH i) by done. by rewrite Permutation_middle.
Qed.

Lemma interleaving_perm {A} ls (r : list A) : interleaving ls r → r ≡ₚ concat ls.
Proof.
  induction 1 as [ls H|ls i x l r Hi _ IH].
  - induction H as [|l ls -> _ IH]; [done|]. done.
  - by rewrite IH, <- concat_insert_perm.
Qed.

(** Lists can be interleaved one after the other. *)
Lemma interleaving_in_order {A} (ls : list (list A)) : interleaving ls (concat ls).
Proof.
  assert (∀ (todo pre : list (list A)), Forall (λ l, l = []) pre → interleaving (pre ++ todo) (concat todo)) as H.
  2:{ by apply (H ls []). }
  induction todo as [|l todo IH]; intros pre Hpre; [constructor; by rewrite app_nil_r|]. cbn [concat].
  induction l as [|x l IHl].
  - rewrite (cons_middle []), app_assoc. apply IH. apply Forall_app. by split; [|constructor].
  - apply (interleaving_step _ (length pre) x l).
    + by rewrite list_lookup_middle.
    + rewrite <- (Nat.add_0_r (length pre)), insert_app_r. apply IHl.
Qed.

Definition marked (e : scatter_event) : option row := match e with Mark r => Some r | _ => None end.
Definition streamed (e : scatter_event) : option row := match e with Stream r => Some r | _ => None end.

Lemma callback_events data : omap marked (partial_sort_callback data) = data ∧ omap streamed (partial_sort_callback data) = data.
Proof. induction data as [|r data [IH1 IH2]]; [done|]. unfold partial_sort_callback in *. cbn. by rewrite IH1, IH2. Qed.

Lemma omap_concat {A B} (f : A → option B) ls : omap f (concat ls) = concat (map (omap f) ls).
Proof. induction ls as [|l ls IH]; [done|]. cbn [concat map]. by rewrite omap_app, IH. Qed.

Lemma interleaved_events data es : interleaving (map partial_sort_callback data) es →
  omap marked es ≡ₚ concat data ∧ omap streamed es ≡ₚ concat data.
Proof.
  intros H%interleaving_perm. split; rewrite H, omap_concat, map_map, (map_ext _ id) by apply callback_events; by rewrite map_id.
Qed.

Lemma map_seq_lookup {A} (f : nat → A) m i : (i < m)%nat → map f (seq 0 m) !! i = Some (f i).
Proof. intros Hi. rewrite list_lookup_fmap, lookup_seq_lt by done. done. Qed.

(** A change of one of some numbered parts. *)
Lemma alter_parts {A} (f f' : nat → A) (g : A → A) k m : (k < m)%nat → f' k = g (f k) → (∀ i, k ≠ i → f' i = f i) →
  alter g k (map f (seq 0 m)) = map f' (seq 0 m).
Proof.
  intros Hk Hg Hf. apply list_eq. intros i. destruct (decide (i < m)%nat) as [Hi|Hi].
  - destruct (decide (k = i)) as [<-|Hne].
    + rewrite list_lookup_alter_eq, !map_seq_lookup by done. cbn. by rewrite Hg.
    + rewrite list_lookup_alter_ne, !map_seq_lookup by done. by rewrite Hf.
  - rewrite !lookup_ge_None_2; [done|rewrite length_map, length_seq; lia|rewrite length_alter, length_map, length_seq; lia].
Qed.

Lemma replicate_parts {A} (f : nat → A) (x : A) m : (∀ i, f i = x) → replicate m x = map f (seq 0 m).
Proof.
  intros Hf. generalize 0%nat as k. induction m as [|m IH]; intros k; [done|]. cbn. by rewrite Hf, <- IH.
Qed.

(** ** The partition of a key *)

Section scatter.
Context (hash : flexible_type → Z) (types : list flex_type_enum) (sort_orders : list bool) (pivots : list row).
Hypothesis orders_length : length sort_orders = length types.
Hypothesis pivots_ok : Forall (key_ok types) pivots.

Abbreviation less := (less_than_full hash sort_orders).
Abbreviation n := (length types).

Definition lessb (a b : row) : bool := match less a b with Ok true => true | _ => false end.

Lemma lessb_ok a b : key_ok types a → key_ok types b → less a b = Ok (lessb a b).
Proof.
  intros Ha Hb. destruct (key_order hash types sort_orders orders_length) as [Hd _ _].
  destruct (Hd a b Ha Hb) as [lt Hlt]. unfold lessb. rewrite Hlt. by destruct lt.
Qed.

Lemma lessb_order : weak_order (key_ok types) lessb.
Proof using orders_length.
  pose proof (key_order hash types sort_orders orders_length) as [_ Ha Hn]. split.
  - intros a b Ka Kb H. specialize (Ha a b Ka Kb). rewrite (lessb_ok b a), (lessb_ok a b), H in Ha by done. naive_solver.
  - intros a b c Ka Kb Kc H1 H2. specialize (Hn a b c Ka Kb Kc).
    rewrite (lessb_ok a b), (lessb_ok b c), (lessb_ok a c), H1, H2 in Hn by done. naive_solver.
Qed.

(** The first pivot that is not less than the key. *)
Fixpoint place (ps : list row) (k : row) : nat :=
  match ps with
  | [] => 0
  | p :: ps => if vector_eq hash k p || lessb k p then 0 else S (place ps k)
  end.

Lemma place_length ps k : (place ps k ≤ length ps)%nat.
Proof using Type. clear orders_length pivots_ok. induction ps as [|p ps IH]; [done|]. cbn. destruct (_ || _); lia. Qed.

Lemma find_partition_place ps k : Forall (key_ok types) ps → key_ok types k →
  find_partition hash sort_orders (map FList ps) k = Ok (place ps k).
Proof using orders_length.
  induction 1 as [|p ps Hp _ IH]; intros Hk; [done|]. cbn [map find_partition place].
  destruct (vector_eq hash k p); [done|]. rewrite lessb_ok by done. cbn [mbind outcome_bind orb].
  destruct (lessb k p); [done|]. by rewrite IH.
Qed.

Lemma equal_keys_lessb a b : key_ok types a → key_ok types b → vector_eq hash a b = true → lessb a b = false ∧ lessb b a = false.
Proof using orders_length.
  intros Ha Hb He. split.
  - pose proof (equal_keys hash types sort_orders a b orders_length Ha Hb He) as H. by rewrite lessb_ok in H by done; injection H.
  - rewrite (vector_eq_sym hash types) in He by done.
    pose proof (equal_keys hash types sort_orders b a orders_length Hb Ha He) as H. by rewrite lessb_ok in H by done; injection H.
Qed.

(** The keys of a partition are not less than those of the partitions before it. *)
Lemma place_ordered ps a b : Forall (key_ok types) ps → key_ok types a → key_ok types b →
  (place ps a < place ps b)%nat → lessb b a = false.
Proof using orders_length.
  induction 1 as [|p ps Hp _ IH]; intros Ha Hb; cbn [place]; [lia|].
  destruct (vector_eq hash b p) eqn:Heb; cbn [orb]; [lia|]. destruct (lessb b p) eqn:Hlb; cbn [orb]; [lia|].
  destruct (vector_eq hash a p || lessb a p) eqn:Hea.
  - intros _. apply (order_negtrans _ _ lessb_order b p a); [done..|]. apply orb_true_iff in Hea as [He|Hl].
    + by apply equal_keys_lessb.
    + by apply (order_asym _ _ lessb_order).
  - intros H. apply IH; [done..|lia].
Qed.

(** ** The partitions that are written *)

(** A row: the keys, then values that can be written. *)
Definition row_ok (r : row) : Prop :=
  (n ≤ length r)%nat ∧ key_ok types (take n r) ∧ Forall (λ v, valid v = true) (drop n r).

Definition key_of (r : row) : row := take n r.
Definition bytes_of (r : row) : list Z := default [] (wconcat save (drop n r)).
Definition packed (r : row) : sort_row := (key_of r, bytes_of r).
Definition partition_of (r : row) : nat := place pivots (key_of r).

Lemma sort_keys_ok r : row_ok r → sort_keys (length sort_orders) r = Ok (key_of r).
Proof using orders_length.
  intros (Hn & _ & _). unfold sort_keys, key_of. rewrite orders_length.
  rewrite (mapM_Some_2 _ _ (take n r)); [done|]. apply Forall2_same_length_lookup_2.
  { rewrite length_seq, length_take. lia. }
  intros i j v Hj Hv. apply lookup_seq in Hj as [-> Hi]. cbn. by rewrite lookup_take_lt in Hv by done.
Qed.

Lemma row_partition r : row_ok r → find_partition hash sort_orders (map FList pivots) (key_of r) = Ok (partition_of r).
Proof using orders_length pivots_ok. intros (_ & Hk & _). by apply find_partition_place. Qed.

Definition in_partition (i : nat) (rows : list row) : list row := filter (λ r, partition_of r = i) rows.

(** What a row adds to the size of its partition. *)
Definition row_size (r : row) : Z := Z.of_nat (length (bytes_of r)) + Z.of_nat (length types) * CELL_SIZE_ESTIMATE + ROW_SIZE_ESTIMATE.

(** What the flag and the first key of a partition say of the rows that were marked. *)
Definition flag_ok (marks : list row) (i : nat) (first : row) (flag : bool) : Prop :=
  flag = true → match first with
    | [] => in_partition i marks = []
    | _ => key_ok types first ∧ Forall (λ r, lessb first (key_of r) = false ∧ lessb (key_of r) first = false) (in_partition i marks)
    end.

Record scattered (marks streams : list row) (st : scatter_state) : Prop := {
  sc_rows : parted_array st = map (λ i, map packed (in_partition i streams)) (seq 0 (S (length pivots)));
  sc_firsts : length (first_sort_key st) = S (length pivots);
  sc_flags : length (partition_sorted st) = S (length pivots);
  sc_sizes : partition_size_in_bytes st = map (λ i, u64 (sum_of row_size (in_partition i streams))) (seq 0 (S (length pivots)));
  sc_flag_ok i first flag : first_sort_key st !! i = Some first → partition_sorted st !! i = Some flag → flag_ok marks i first flag;
}.

Lemma in_partition_app i l1 l2 : in_partition i (l1 ++ l2) = in_partition i l1 ++ in_partition i l2.
Proof using Type. apply filter_app. Qed.

Lemma in_partition_one i r : in_partition i [r] = if decide (partition_of r = i) then [r] else [].
Proof using Type. unfold in_partition. by rewrite filter_cons, filter_nil. Qed.

Lemma partition_of_lt r : (partition_of r < S (length pivots))%nat.
Proof using Type. clear orders_length pivots_ok. pose proof (place_length pivots (key_of r)). unfold partition_of. lia. Qed.

Lemma flag_ok_other marks r i first flag : partition_of r ≠ i → flag_ok marks i first flag → flag_ok (marks ++ [r]) i first flag.
Proof using Type. intros Hi H Hf. specialize (H Hf). by rewrite in_partition_app, in_partition_one, decide_False, app_nil_r. Qed.

Hypothesis types_some : types ≠ [].

Lemma key_some r : row_ok r → key_of r ≠ [].
Proof using types_some. intros (_ & Hk & _) He. unfold key_ok, key_of in *. rewrite He in Hk. by inversion Hk. Qed.

Lemma mark_ok marks streams r st : row_ok r → scattered marks streams st → ∃ st',
  mark_row hash (length sort_orders) sort_orders (map FList pivots) r st = Ok st' ∧ scattered (marks ++ [r]) streams st'.
Proof using orders_length pivots_ok types_some.
  intros Hr [H1 H2 H3 H4 H5]. unfold mark_row. rewrite sort_keys_ok by done. cbn [mbind outcome_bind].
  rewrite row_partition by done. cbn [mbind outcome_bind]. pose proof (partition_of_lt r) as Hlt.
  destruct (lookup_lt_is_Some_2 (partition_sorted st) (partition_of r)) as [flag Hflag]; [lia|].
  destruct (lookup_lt_is_Some_2 (first_sort_key st) (partition_of r)) as [first Hfirst]; [lia|].
  pose proof (H5 _ _ _ Hfirst Hflag) as H0. rewrite Hflag. cbn [or_trap mbind outcome_bind].
  assert (key_ok types (key_of r)) as Hk by apply Hr.
  destruct flag; cbn [negb].
  2:{ eexists. split; [done|]. split; [done..|]. intros i f g Hf Hg. destruct (decide (partition_of r = i)) as [<-|Hi].
      - rewrite Hflag in Hg. by injection Hg as <-.
      - by apply flag_ok_other, H5. }
  rewrite Hfirst. cbn [or_trap mbind outcome_bind]. specialize (H0 eq_refl). destruct first as [|v first].
  { eexists. split; [done|]. split; cbn; [done|by rewrite length_insert|done..|].
    intros i f g Hf Hg. destruct (decide (partition_of r = i)) as [<-|Hi].
    - rewrite list_lookup_insert_eq in Hf by lia. injection Hf as <-. intros _.
      pose proof (key_some r Hr) as Hs. destruct (key_of r) as [|v k] eqn:Hkr; [done|]. rewrite <- Hkr in Hk.
      split; [by rewrite <- Hkr|]. rewrite in_partition_app, H0, in_partition_one, decide_True by done. constructor; [|done].
      rewrite Hkr. rewrite Hkr in Hk. destruct (lessb (v :: k) (v :: k)) eqn:Hv; [|done].
      by rewrite (order_asym _ _ lessb_order _ _ Hk Hk Hv) in Hv.
    - rewrite list_lookup_insert_ne in Hf by done. by apply flag_ok_other, H5. }
  destruct H0 as [Hfk Hall].
  destruct (vector_eq hash (v :: first) (key_of r)) eqn:Heq.
  - eexists. split; [done|]. split; [done..|]. intros i f g Hf Hg. destruct (decide (partition_of r = i)) as [<-|Hi].
    + rewrite Hfirst in Hf. injection Hf as <-. intros _. split; [done|].
      rewrite in_partition_app, in_partition_one, decide_True by done. apply Forall_app. split; [done|].
      constructor; [|done]. by apply equal_keys_lessb.
    + by apply flag_ok_other, H5.
  - eexists. split; [done|]. split; cbn; [done|done|by rewrite length_insert|done|].
    intros i f g Hf Hg. destruct (decide (partition_of r = i)) as [<-|Hi].
    + rewrite list_lookup_insert_eq in Hg by lia. injection Hg as <-. done.
    + rewrite list_lookup_insert_ne in Hg by done. by apply flag_ok_other, H5.
Qed.

Lemma stream_ok marks streams r st : row_ok r → is_Some (wconcat save (drop n r)) → scattered marks streams st → ∃ st',
  stream_row hash (length sort_orders) sort_orders (map FList pivots) r st = Ok st' ∧ scattered marks (streams ++ [r]) st'.
Proof using orders_length pivots_ok.
  intros Hr [bs Hbs] [H1 H2 H3 H4 H5]. unfold stream_row. rewrite sort_keys_ok by done. cbn [mbind outcome_bind].
  rewrite row_partition by done. cbn [mbind outcome_bind]. rewrite orders_length, Hbs. cbn [or_trap mbind outcome_bind].
  eexists. split; [done|]. pose proof (partition_of_lt r) as Hlt.
  assert (bytes_of r = bs) as Hb by (unfold bytes_of; by rewrite Hbs).
  split; cbn [parted_array first_sort_key partition_sorted partition_size_in_bytes]; [|done|done| |done].
  - rewrite H1. apply alter_parts; [done|..].
    + rewrite in_partition_app, in_partition_one, decide_True, map_app by done. cbn [map]. unfold packed at 2. by rewrite Hb.
    + intros i Hi. by rewrite in_partition_app, in_partition_one, decide_False, app_nil_r.
  - rewrite H4. apply alter_parts; [done|..].
    + rewrite in_partition_app, in_partition_one, decide_True, sum_of_app by done. cbn [sum_of].
      rewrite Z.add_0_r, <- Hb. unfold row_size, uw. by rewrite Zplus_mod_idemp_l.
    + intros i Hi. by rewrite in_partition_app, in_partition_one, decide_False, app_nil_r.
Qed.

(** A run of events: the partitions have the rows that were streamed, in that order. *)
Lemma scatter_run_ok es : ∀ marks streams st, scattered marks streams st →
  Forall (λ e, match e with Mark r => row_ok r | Stream r => row_ok r ∧ is_Some (wconcat save (drop n r)) end) es → ∃ st',
  scatter_run hash (length sort_orders) sort_orders (map FList pivots) es st = Ok st' ∧
  scattered (marks ++ omap marked es) (streams ++ omap streamed es) st'.
Proof using orders_length pivots_ok types_some.
  induction es as [|e es IH]; intros marks streams st Hst Hes; [exists st; by rewrite !app_nil_r|].
  apply Forall_cons in Hes as [He Hes]. cbn [scatter_run]. destruct e as [r|r]; cbn [scatter_step].
  - destruct (mark_ok marks streams r st He Hst) as (st1 & -> & Hst1). cbn [mbind outcome_bind].
    destruct (IH _ _ _ Hst1 Hes) as (st' & Hr1 & Hr2). exists st'. split; [done|]. rewrite <- app_assoc in Hr2. exact Hr2.
  - destruct He as [He Hw]. destruct (stream_ok marks streams r st He Hw Hst) as (st1 & -> & Hst1). cbn [mbind outcome_bind].
    destruct (IH _ _ _ Hst1 Hes) as (st' & Hr1 & Hr2). exists st'. split; [done|]. rewrite <- app_assoc in Hr2. exact Hr2.
Qed.

Lemma scatter_start : scattered [] [] (Scatter (replicate (S (length pivots)) []) (replicate (S (length pivots)) [])
  (replicate (S (length pivots)) 0) (replicate (S (length pivots)) 0%nat) (replicate (S (length pivots)) true)).
Proof using Type.
  clear orders_length pivots_ok types_some.
  split; cbn [parted_array first_sort_key partition_sorted partition_size_in_bytes]; rewrite ?length_replicate; try done.
  - by apply replicate_parts.
  - by apply replicate_parts.
  - intros i f g [-> _]%lookup_replicate_1 _. by intros _.
Qed.

Theorem scatter_partition_ok es rows :
  omap marked es ≡ₚ rows → omap streamed es ≡ₚ rows →
  Forall (λ r, row_ok r ∧ is_Some (wconcat save (drop n r))) rows → ∃ st streams,
  scatter_partition hash (length sort_orders) sort_orders (map FList pivots) (replicate (S (length pivots)) true) es = Ok st ∧
  streams ≡ₚ rows ∧ scattered (omap marked es) streams st.
Proof using orders_length pivots_ok types_some.
  intros Hm Hs Hr. destruct (scatter_run_ok es [] [] _ scatter_start) as (st & Hst & Hsc).
  - apply Forall_forall. intros [r|r] Hin.
    + rewrite Forall_forall in Hr. apply Hr. rewrite <- Hm. apply list_elem_of_omap. by exists (Mark r).
    + rewrite Forall_forall in Hr. apply Hr. rewrite <- Hs. apply list_elem_of_omap. by exists (Stream r).
  - exists st, (omap streamed es). split_and!; [|done|done]. unfold scatter_partition. by rewrite length_map.
Qed.
End scatter.
End SortScatterSpec.

Import FlexType FlexOps SFrame SFrameSpec SortMerge Sort.
Import QueryPlan(SoftAssign, heap, denote, is_linear_transform, type_of, inputs_match, op_project, op_union, plan_impl, lockstep, linear_row, infer_type_impl, denote_impl, project_infer_type, union_infer_type).
Import QueryPlanSpec(fits).
Import QueryGraph QueryGraphSpec.

Module SortColumnSpec.

Section ordering.
Context (sort_column_indices : list nat).
Abbreviation idx := sort_column_indices.

Lemma place_keys_other ks : ∀ k po c, c ∉ ks → place_keys k ks po !! c = po !! c.
Proof.
  induction ks as [|i ks IH]; intros k po c Hc; [done|]. apply not_elem_of_cons in Hc as [Hi Hc].
  cbn [place_keys]. rewrite IH by done. by rewrite list_lookup_insert_ne.
Qed.

Lemma length_place_keys ks : ∀ k po, length (place_keys k ks po) = length po.
Proof. induction ks as [|i ks IH]; intros k po; [done|]. cbn. by rewrite IH, length_insert. Qed.

Lemma place_keys_lookup ks : ∀ k po j c, NoDup ks → ks !! j = Some c → (c < length po)%nat →
  place_keys k ks po !! c = Some (k + j)%nat.
Proof.
  induction ks as [|i ks IH]; intros k po j c Hnd Hj Hc; [done|]. apply NoDup_cons in Hnd as [Hi Hnd]. cbn [place_keys]. destruct j as [|j].
  - injection Hj as ->. rewrite place_keys_other by done. rewrite list_lookup_insert_eq by done. f_equal. lia.
  - rewrite (IH (S k) _ j) by (done || by rewrite length_insert). f_equal. lia.
Qed.

Lemma place_values_other cols : ∀ counter po c, c ∉ cols → place_values idx counter cols po !! c = po !! c.
Proof.
  induction cols as [|i cols IH]; intros counter po c Hc; [done|]. apply not_elem_of_cons in Hc as [Hi Hc].
  cbn [place_values]. case_bool_decide; rewrite IH by done; [done|]. by rewrite list_lookup_insert_ne.
Qed.

Lemma length_place_values cols : ∀ counter po, length (place_values idx counter cols po) = length po.
Proof. induction cols as [|i cols IH]; intros counter po; [done|]. cbn. case_bool_decide; by rewrite IH, ?length_insert. Qed.

Lemma place_values_lookup cols : ∀ counter po c, NoDup cols → c ∈ cols → c ∉ idx → (c < length po)%nat → ∃ m,
  place_values idx counter cols po !! c = Some (length idx + counter + m)%nat ∧ filter (λ i, i ∉ idx) cols !! m = Some c.
Proof.
  induction cols as [|i cols IH]; intros counter po c Hnd Hc Hci Hlt; [by apply not_elem_of_nil in Hc|].
  apply NoDup_cons in Hnd as [Hi Hnd].
  cbn [place_values]. rewrite filter_cons. apply elem_of_cons in Hc. case_bool_decide as Hin.
  - rewrite decide_False by naive_solver. destruct Hc as [->|Hc]; [done|]. by apply IH.
  - rewrite decide_True by done. destruct Hc as [->|Hc].
    + exists 0%nat. rewrite place_values_other by done. rewrite list_lookup_insert_eq by done. split; [f_equal; lia|done].
    + destruct (IH (S counter) (<[i:=(length idx + counter)%nat]> po) c) as (m & Hm & Hf); [done..|by rewrite length_insert|].
      exists (S m). rewrite Hm. split; [f_equal; lia|done].
Qed.

Context (num_columns : nat).
Hypothesis distinct : NoDup idx.
Hypothesis in_range : Forall (λ i, (i < num_columns)%nat) idx.

Abbreviation values := (value_column_indices idx num_columns).

Lemma permute_ordering_length : length (make_permute_ordering idx num_columns) = num_columns.
Proof using Type. unfold make_permute_ordering. by rewrite length_place_keys, length_place_values, length_replicate. Qed.

(** The place of each column among the keys and the values. *)
Lemma permute_ordering_ok c : (c < num_columns)%nat → ∃ j,
  make_permute_ordering idx num_columns !! c = Some j ∧ (idx ++ values) !! j = Some c.
Proof using distinct.
  intros Hc. unfold make_permute_ordering. destruct (decide (c ∈ idx)) as [Hin|Hni].
  - apply list_elem_of_lookup_1 in Hin as [j Hj]. exists j. split.
    + rewrite (place_keys_lookup _ 0 _ j) by (done || by rewrite length_place_values, length_replicate). done.
    + by apply lookup_app_l_Some.
  - rewrite place_keys_other by done.
    destruct (place_values_lookup (seq 0 num_columns) 0 (replicate num_columns 0%nat) c) as (m & Hm & Hf).
    + apply NoDup_seq.
    + apply elem_of_seq. lia.
    + done.
    + by rewrite length_replicate.
    + rewrite Nat.add_0_r in Hm. exists (length idx + m)%nat. split; [done|].
      rewrite lookup_app_r by lia. by replace (length idx + m - length idx)%nat with m by lia.
Qed.

Lemma key_and_value_columns : idx ++ values ≡ₚ seq 0 num_columns.
Proof using distinct in_range.
  apply NoDup_Permutation.
  - apply NoDup_app. split_and!; [done| |apply NoDup_filter, NoDup_seq].
    intros i Hi Hv. unfold value_column_indices in Hv. by apply list_elem_of_filter in Hv as [? _].
  - apply NoDup_seq.
  - intros c. unfold value_column_indices. rewrite elem_of_app, list_elem_of_filter, elem_of_seq. rewrite Forall_forall in in_range.
    split; [intros [Hc%in_range|[_ ?]]; lia|]. intros ?. destruct (decide (c ∈ idx)); [by left|by right].
Qed.

Lemma key_and_value_length : length (idx ++ values) = num_columns.
Proof using distinct in_range. rewrite key_and_value_columns. apply length_seq. Qed.

(** The row with the keys first, put back in order. *)
Lemma permute_row_ok r p : length r = num_columns → mapM (λ i, r !! i) (idx ++ values) = Some p →
  permute_row p (make_permute_ordering idx num_columns) = Ok r.
Proof using distinct in_range.
  intros Hr Hp. pose proof (length_mapM _ _ _ Hp) as Hlen. rewrite key_and_value_length in Hlen.
  unfold permute_row. rewrite (mapM_Some_2 _ _ r); [done|]. apply Forall2_same_length_lookup_2; [rewrite length_seq; lia|].
  intros i j v Hj Hv. apply lookup_seq in Hj as [-> Hi]. cbn. destruct (permute_ordering_ok i) as (j & Hj & Hc); [lia|].
  rewrite Hj. cbn. apply mapM_Some_1 in Hp. destruct (Forall2_lookup_l _ _ _ _ _ Hp Hc) as (u & Hu & Hru). congruence.
Qed.
End ordering.

(** ** The table with the keys first *)

Section table.
Context {SA : SoftAssign} (h : heap) (n : nat) (types : list flex_type_enum) (rows : list row).
Hypothesis node_table : denote h n = Some (types, rows).
Hypothesis rows_wide : Forall (λ r, length r = length types) rows.

Definition project (cols : list nat) (r : row) : row := default [] (mapM (λ i, r !! i) cols).

Lemma project_ok cols r : Forall (λ i, (i < length r)%nat) cols → mapM (λ i, r !! i) cols = Some (project cols r).
Proof using Type.
  intros H. unfold project. destruct (mapM _ cols) eqn:E; [done|]. apply mapM_None_1, Exists_exists in E as (i & Hi & E).
  rewrite Forall_forall in H. apply lookup_ge_None_1 in E. specialize (H _ Hi). cbn in H. lia.
Qed.

Lemma project_app c1 c2 r : Forall (λ i, (i < length r)%nat) (c1 ++ c2) → project (c1 ++ c2) r = project c1 r ++ project c2 r.
Proof using Type.
  intros H. pose proof (project_ok _ _ H) as H0. apply Forall_app in H as [H1 H2].
  assert (mapM (λ i, r !! i) (c1 ++ c2) = Some (project c1 r ++ project c2 r)) as E; [|congruence].
  apply mapM_Some_2, Forall2_app; by apply mapM_Some_1, project_ok.
Qed.

Lemma project_length cols r : Forall (λ i, (i < length r)%nat) cols → length (project cols r) = length cols.
Proof using Type. intros H%project_ok. symmetry. by eapply length_mapM. Qed.

Lemma project_value cols : cols ≠ [] → Forall (λ i, (i < length types)%nat) cols → ∃ ts,
  mapM (λ i, types !! i) cols = Some ts ∧
  plan_impl (op_project cols) [(types, rows)] = Some (ts, map (project cols) rows).
Proof using rows_wide.
  intros Hne Hc. destruct (mapM (λ i, types !! i) cols) as [ts|] eqn:E.
  2:{ apply mapM_None_1, Exists_exists in E as (i & Hi & E). rewrite Forall_forall in Hc. apply lookup_ge_None_1 in E. specialize (Hc _ Hi). cbn in Hc. lia. }
  exists ts. split; [done|]. unfold plan_impl. cbn [fmap list_fmap fst snd map].
  assert (infer_type_impl (op_project cols) [types] = Some ts) as -> by done.
  cbn [mbind option_bind]. unfold denote_impl. cbn [andb].
  assert (lockstep (linear_row (op_project cols)) [rows] = Some (map (project cols) rows)) as Hl.
  { unfold lockstep. cbn [forallb]. rewrite Nat.eqb_refl. cbn [andb]. apply mapM_Some_2.
    apply Forall2_same_length_lookup_2; [by rewrite length_map, length_seq|]. intros i j r Hj Hr.
    apply lookup_seq in Hj as [-> Hi]. rewrite list_lookup_fmap in Hr. destruct (rows !! i) as [r0|] eqn:Hr0; [|done].
    injection Hr as <-. rewrite Nat.add_0_l. assert (mapM (λ u : list row, u !! i) [rows] = Some [r0]) as -> by (cbn; by rewrite Hr0).
    cbn [mbind option_bind linear_row]. destruct cols; [done|]. apply project_ok. rewrite Forall_lookup in rows_wide. by rewrite (rows_wide _ _ Hr0). }
  change (is_linear_transform _ && _) with true. cbn iota. rewrite Hl. cbn. destruct ts; [|done].
  apply mapM_Some_1, Forall2_nil_inv_r in E. done.
Qed.

Lemma beside_value c1 c2 ts1 ts2 : ts1 ++ ts2 ≠ [] →
  plan_impl op_union [(ts1, map (project c1) rows); (ts2, map (project c2) rows)] =
  Some (ts1 ++ ts2, map (λ r, project c1 r ++ project c2 r) rows).
Proof using Type.
  intros Hne. unfold plan_impl. cbn [fmap list_fmap fst snd map].
  assert (infer_type_impl op_union [ts1; ts2] = Some (ts1 ++ ts2)) as -> by (cbn; by rewrite app_nil_r).
  cbn [mbind option_bind]. unfold denote_impl.
  assert (lockstep (linear_row op_union) [map (project c1) rows; map (project c2) rows] =
    Some (map (λ r, project c1 r ++ project c2 r) rows)) as Hl.
  { unfold lockstep. cbn [forallb]. rewrite !length_map, Nat.eqb_refl. cbn [andb]. apply mapM_Some_2.
    apply Forall2_same_length_lookup_2; [by rewrite length_map, length_seq|]. intros i j r Hj Hr.
    apply lookup_seq in Hj as [-> Hi]. rewrite list_lookup_fmap in Hr. destruct (rows !! i) as [r0|] eqn:Hr0; [|done].
    injection Hr as <-. rewrite Nat.add_0_l.
    assert (mapM (λ u : list row, u !! i) [map (project c1) rows; map (project c2) rows] = Some [project c1 r0; project c2 r0]) as ->.
    { cbn. rewrite !list_lookup_fmap, Hr0. done. }
    cbn [mbind option_bind linear_row concat]. by rewrite app_nil_r. }
  change (is_linear_transform _ && _) with true. cbn iota. rewrite Hl. cbn. by destruct (ts1 ++ ts2).
Qed.

(** The plan that a sort makes has the rows with their keys first; and so has its node. *)
Lemma key_and_value_plan_value idx vals : idx ≠ [] → Forall (λ i, (i < length types)%nat) (idx ++ vals) → ∃ ts,
  mapM (λ i, types !! i) (idx ++ vals) = Some ts ∧
  eval_plan plan_impl (denote h) (key_and_value_plan n idx vals) = Some (ts, map (project (idx ++ vals)) rows).
Proof using node_table rows_wide.
  intros Hne Hr. pose proof Hr as [Hi Hv]%Forall_app. destruct (project_value idx Hne Hi) as (ts1 & Ht1 & Hp1).
  assert (∀ cols t, plan_impl (op_project cols) [(types, rows)] = Some t →
    eval_plan plan_impl (denote h) (New (op_project cols) [Old n]) = Some t) as Hnode.
  { intros cols t Ht. cbn [eval_plan]. assert (mapM (eval_plan plan_impl (denote h)) [Old n] = Some [(types, rows)]) as ->; [|done].
    cbn. by rewrite node_table. }
  destruct vals as [|v vals].
  { exists ts1. rewrite app_nil_r. split; [done|]. by apply Hnode. }
  destruct (project_value (v :: vals) ltac:(done) Hv) as (ts2 & Ht2 & Hp2).
  exists (ts1 ++ ts2). split.
  - apply mapM_Some_2, Forall2_app; by apply mapM_Some_1.
  - unfold key_and_value_plan. cbn [eval_plan].
    assert (mapM (eval_plan plan_impl (denote h)) [New (op_project idx) [Old n]; New (op_project (v :: vals)) [Old n]] =
      Some [(ts1, map (project idx) rows); (ts2, map (project (v :: vals)) rows)]) as ->.
    { change (mapM ?f [?a; ?b]) with (x ← f a; ys ← (y ← f b; Some [y]); Some (x :: ys)). rewrite (Hnode _ _ Hp1), (Hnode _ _ Hp2). done. }
    cbn [mbind option_bind]. rewrite beside_value.
    + do 2 f_equal. apply map_ext_in. intros r Hin. rewrite project_app; [done|].
      rewrite Forall_forall in rows_wide. rewrite rows_wide by (by apply list_elem_of_In). done.
    + intros [-> _]%app_eq_nil. apply mapM_Some_1, Forall2_nil_inv_r in Ht1. done.
Qed.

Lemma materialized idx vals h' k : idx ≠ [] → Forall (λ i, (i < length types)%nat) (idx ++ vals) →
  make_planner_node (key_and_value_plan n idx vals) h = Some (h', k) →
  materialize h' k = Ok (map (project (idx ++ vals)) rows).
Proof using node_table rows_wide.
  intros Hne Hr Hk. destruct (key_and_value_plan_value idx vals Hne Hr) as (ts & _ & Hv).
  unfold materialize. unfold denote. by rewrite (make_planner_node_value plan_impl _ h h' k _ Hk Hv).
Qed.
End table.
End SortColumnSpec.
