(* ===== verification/SortMergeSpec.v ===== *)
(** The threads that sort the segments of a partitioned frame: whatever their order, each segment
    is written once and in its order; the memory they use is bounded; and they end. *)
From stdpp Require Import sorting.
From S2P Require Import Prelude FlexType FlexOps QueryPlan GroupBySpec SFrame SFrameSpec SortMerge SortOrderSpec.
Import FlexType FlexOps SFrame SFrameSpec SortMerge SortOrderSpec.
Import QueryPlan(SoftAssign, soft_assign).
Import GroupBySpec(bind_Ok).
Local Open Scope Z_scope.
Local Open Scope sframe_scope.

Module SortMergeSpec.

Lemma forallb_not {A} (f : A → bool) l : forallb f l = false → ∃ t a, l !! t = Some a ∧ f a = false.
Proof.
  induction l as [|x l IH]; [done|]. cbn. destruct (f x) eqn:E; [|by exists 0%nat, x].
  intros H. destruct (IH H) as (t & a & ? & ?). by exists (S t), a.
Qed.

(** ** Which segments have been written *)

Section written.
Context (N : nat) (chunk : nat → list sort_row) (outrow : sort_row → row).

(** What the threads have still to write ([works]: a segment and its rest, for each thread), and
    what is in the segments of the frame. *)
Record progress (next : nat) (works : list (option (nat * list sort_row))) (segs : list (list row)) : Prop := {
  pr_length : length segs = N;
  pr_work t i l : works !! t = Some (Some (i, l)) → (i < next)%nat ∧ (i < N)%nat ∧
    ∃ front, segs !! i = Some (map outrow front) ∧ front ++ l = chunk i;
  pr_distinct t u i l m : works !! t = Some (Some (i, l)) → works !! u = Some (Some (i, m)) → t = u;
  pr_todo i : (next ≤ i < N)%nat → segs !! i = Some [];
  pr_done i : (i < next)%nat → (i < N)%nat → (∀ t l, works !! t ≠ Some (Some (i, l))) → segs !! i = Some (map outrow (chunk i));
}.

Lemma progress_start k : progress 0 (replicate k None) (replicate N []).
Proof.
  split.
  - apply length_replicate.
  - by intros t i l [? _]%lookup_replicate_1.
  - by intros t u i l m [? _]%lookup_replicate_1.
  - intros i Hi. apply lookup_replicate_2. lia.
  - lia.
Qed.

Lemma progress_take next works segs t : progress next works segs → works !! t = Some None → (next < N)%nat →
  progress (S next) (<[t := Some (next, chunk next)]> works) segs.
Proof.
  intros [H1 H2 H3 H4 H5] Ht Hn. pose proof (lookup_lt_Some _ _ _ Ht) as Hlt. split; [done|..].
  - intros u i l [(-> & Hu & _)|[Hu Hw]]%list_lookup_insert_Some.
    + injection Hu as <- <-. split_and!; [lia|done|]. exists []. split; [by apply H4|done].
    + destruct (H2 _ _ _ Hw) as (? & ? & ?). split_and!; [lia|done|done].
  - intros u v i l m [(-> & Hu & _)|[Hu Hwu]]%list_lookup_insert_Some [(-> & Hv & _)|[Hv Hwv]]%list_lookup_insert_Some; try done.
    + injection Hu as <- <-. destruct (H2 _ _ _ Hwv). lia.
    + injection Hv as <- <-. destruct (H2 _ _ _ Hwu). lia.
    + by eapply H3.
  - intros i Hi. apply H4. lia.
  - intros i Hi HN Hno. destruct (decide (i = next)) as [->|Hne].
    + destruct (Hno t (chunk next)). by apply list_lookup_insert_eq.
    + apply H5; [lia|done|]. intros u l Hu. destruct (decide (u = t)) as [->|Hut]; [congruence|].
      apply (Hno u l). by rewrite list_lookup_insert_ne.
Qed.

Lemma progress_skip next works segs : progress next works segs → (N ≤ next)%nat → progress (S next) works segs.
Proof.
  intros [H1 H2 H3 H4 H5] Hn. split; [done| |done|lia|].
  - intros t i l Hw. destruct (H2 _ _ _ Hw) as (? & ? & ?). split_and!; [lia|done|done].
  - intros i Hi HN. apply H5; [lia|done].
Qed.

Lemma progress_put next works segs t i r l : progress next works segs → works !! t = Some (Some (i, r :: l)) →
  progress next (<[t := Some (i, l)]> works) (put segs (i, outrow r)).
Proof.
  intros [H1 H2 H3 H4 H5] Ht. destruct (H2 _ _ _ Ht) as (Hin & HiN & front & Hs & Hf). unfold put. split.
  - by rewrite length_alter.
  - intros u j m [(-> & Hu & _)|[Hu Hw]]%list_lookup_insert_Some.
    + injection Hu as <- <-. split_and!; [done|done|]. exists (front ++ [r]). cbn [fst snd].
      rewrite list_lookup_alter_eq, Hs, map_app, <- app_assoc. done.
    + destruct (H2 _ _ _ Hw) as (? & ? & ?). split_and!; [done|done|]. cbn [fst snd].
      rewrite list_lookup_alter_ne; [done|]. intros <-. by specialize (H3 _ _ _ _ _ Hw Ht).
  - intros u v j m m' [(-> & Hu & _)|[Hu Hwu]]%list_lookup_insert_Some [(-> & Hv & _)|[Hv Hwv]]%list_lookup_insert_Some; try done.
    + injection Hu as <- <-. by specialize (H3 _ _ _ _ _ Ht Hwv).
    + injection Hv as <- <-. by specialize (H3 _ _ _ _ _ Hwu Ht).
    + by eapply H3.
  - intros j Hj. cbn. rewrite list_lookup_alter_ne by lia. by apply H4.
  - intros j Hj HN Hno. destruct (decide (j = i)) as [->|Hne].
    + destruct (Hno t l). apply list_lookup_insert_eq. by eapply lookup_lt_Some.
    + cbn. rewrite list_lookup_alter_ne by done. apply H5; [done..|]. intros u m Hu. apply (Hno u m).
      rewrite list_lookup_insert_ne; [done|]. intros <-. congruence.
Qed.

Lemma progress_leave next works segs t i : progress next works segs → works !! t = Some (Some (i, [])) →
  progress next (<[t := None]> works) segs.
Proof.
  intros [H1 H2 H3 H4 H5] Ht. pose proof (lookup_lt_Some _ _ _ Ht) as Hlt. split; [done|..].
  - intros u j m [(-> & Hu & _)|[Hu Hw]]%list_lookup_insert_Some; [done|]. by eapply H2.
  - intros u v j m m' [(-> & Hu & _)|[Hu Hwu]]%list_lookup_insert_Some [(-> & Hv & _)|[Hv Hwv]]%list_lookup_insert_Some; try done.
    by eapply H3.
  - done.
  - intros j Hj HN Hno. destruct (decide (j = i)) as [->|Hne].
    + destruct (H2 _ _ _ Ht) as (_ & _ & front & Hs & Hf). rewrite app_nil_r in Hf. by rewrite <- Hf.
    + apply H5; [done..|]. intros u m Hu. apply (Hno u m). rewrite list_lookup_insert_ne; [done|]. intros <-. congruence.
Qed.

Lemma progress_end next works segs : progress next works segs → (N ≤ next)%nat → Forall (λ w, w = None) works →
  segs = map (λ i, map outrow (chunk i)) (seq 0 N).
Proof.
  intros [H1 H2 H3 H4 H5] Hn Hw. apply list_eq. intros i. destruct (decide (i < N)%nat) as [Hi|Hi].
  - rewrite list_lookup_fmap, lookup_seq_lt by done. cbn. apply H5; [lia|done|]. intros t l Ht.
    rewrite Forall_lookup in Hw. specialize (Hw _ _ Ht). done.
  - rewrite !lookup_ge_None_2; [done|by rewrite length_map, length_seq; lia|lia].
Qed.
End written.

(** ** The threads *)

Section machine.
Context {SA : SoftAssign} {SS : StdSort} (hash : flexible_type → Z) (fuel : nat) (B : Z).
Context (parts : list (list sort_row)) (partition_sorted : list bool) (partition_sizes : list Z).
Context (sort_orders : list bool) (permute_order : list nat) (num_columns : nat).
Context (types : list flex_type_enum) (names : list (list Z)) (chunk : nat → list sort_row) (outrow : sort_row → row).

Abbreviation N := (length parts).
Abbreviation merge_step := (merge_step hash fuel B parts partition_sorted partition_sizes sort_orders permute_order num_columns).
Abbreviation merge_run := (merge_run hash fuel B parts partition_sorted partition_sizes sort_orders permute_order num_columns).

(** What is written of a segment: the rows as they are, or sorted. *)
Record chunks_ok : Prop := {
  ch_flags : length partition_sorted = N;
  ch_sizes : length partition_sizes = N;
  ch_as_read i p : parts !! i = Some p → partition_sorted !! i = Some true → chunk i = p;
  ch_sorted i : (i < N)%nat → partition_sorted !! i = Some false → sort_chunk hash parts sort_orders i = Ok (chunk i);
  ch_rows i r : (i < N)%nat → r ∈ chunk i → ∃ p, sort_row_to_output_row fuel r num_columns = Ok p ∧
    permute_row p permute_order = Ok (outrow r) ∧ row_of types (outrow r);
}.
Hypothesis chunks : chunks_ok.

Definition work (a : activity) : option (nat * list sort_row) :=
  match a with
  | Locking i | Waiting i => Some (i, chunk i)
  | Writing i _ rest => Some (i, rest)
  | Ready | Finished => None
  end.

(** *** What is written *)

Record writes_ok (st : merge_state) : Prop := {
  wr_segs : ∃ segs, progress N chunk outrow (next_segment_to_sort st) (map work (threads st)) segs ∧
    holds types segs (out_sframe st) ∧ w_names (out_sframe st) = names;
  wr_finished t : threads st !! t = Some Finished → (N ≤ next_segment_to_sort st)%nat;
  (** A segment that is not sorted in memory is marked as sorted. *)
  wr_flag t i : threads st !! t = Some (Locking i) ∨ threads st !! t = Some (Waiting i) → partition_sorted !! i = Some false;
}.

Lemma work_lookup ths t a : ths !! t = Some a → map work ths !! t = Some (work a).
Proof using Type. intros H. by rewrite list_lookup_fmap, H. Qed.

Lemma work_insert ths t a : map work (<[t := a]> ths) = <[t := work a]> (map work ths).
Proof using Type. apply list_fmap_insert. Qed.

(** A step of a thread that keeps its segment and what it has still to write. *)
Lemma writes_same_work st t a b m : writes_ok st → threads st !! t = Some a → work b = work a → b ≠ Finished →
  (∀ i, b = Locking i ∨ b = Waiting i → partition_sorted !! i = Some false) →
  writes_ok (Merge (next_segment_to_sort st) m (<[t := b]> (threads st)) (out_sframe st)).
Proof using Type.
  intros [(segs & Hp & Hh & Hn) Hf Hl] Ht Hw Hb Hflag. split; cbn.
  - exists segs. split_and!; [|done|done]. rewrite work_insert, Hw, list_insert_id; [done|by apply work_lookup].
  - intros u [(-> & Hu & _)|[Hu Hu']]%list_lookup_insert_Some; [congruence|by eapply Hf].
  - intros u i [[(-> & Hu & _)|[Hu Hu']]%list_lookup_insert_Some|[(-> & Hu & _)|[Hu Hu']]%list_lookup_insert_Some];
      eauto.
Qed.

Lemma writes_set_work st t a segs next w m : writes_ok st → a ≠ Finished →
  (next_segment_to_sort st ≤ next)%nat → (∀ i, a = Locking i ∨ a = Waiting i → partition_sorted !! i = Some false) →
  progress N chunk outrow next (<[t := work a]> (map work (threads st))) segs → holds types segs w → w_names w = names →
  writes_ok (Merge next m (<[t := a]> (threads st)) w).
Proof using Type.
  intros [_ Hf Hl] Ha Hn Hflag Hp Hh Hw. split; cbn.
  - exists segs. split_and!; [by rewrite work_insert|done|done].
  - intros u [(-> & Hu & _)|[Hu Hu']]%list_lookup_insert_Some; [congruence|]. specialize (Hf _ Hu'). lia.
  - intros u i [[(-> & Hu & _)|[Hu Hu']]%list_lookup_insert_Some|[(-> & Hu & _)|[Hu Hu']]%list_lookup_insert_Some];
      eauto.
Qed.

Lemma take_writes t st : writes_ok st → threads st !! t = Some Ready → ∃ st',
  take_segment parts partition_sorted t st = Ok st' ∧ writes_ok st'.
Proof using chunks.
  intros Hst Ht. pose proof Hst as [(segs & Hp & Hh & Hn) Hf Hl]. unfold take_segment.
  set (i := next_segment_to_sort st). pose proof (work_lookup _ _ _ Ht) as Hwt. cbn in Hwt.
  unfold num_segments. destruct (Nat.ltb_spec i N) as [Hi|Hi].
  - destruct (lookup_lt_is_Some_2 partition_sorted i) as [flag Hflag]; [rewrite (ch_flags chunks); lia|].
    destruct (lookup_lt_is_Some_2 parts i Hi) as [rows Hrows]. rewrite Hflag. cbn [or_trap mbind outcome_bind].
    pose proof (progress_take N chunk outrow _ _ _ _ Hp Hwt Hi) as Hp'. destruct flag.
    + rewrite Hrows. cbn [or_trap mbind outcome_bind]. eexists. split; [done|].
      apply (writes_set_work st t _ segs); cbn; [done|done|lia|naive_solver| |done|done].
      by rewrite <- (ch_as_read chunks i rows).
    + eexists. split; [done|]. apply (writes_set_work st t _ segs); cbn; [done|done|lia|naive_solver|done..].
  - eexists. split; [done|]. split; cbn.
    + exists segs. split_and!; [|done|done]. rewrite work_insert, list_insert_id by done. by apply progress_skip.
    + intros u _. lia.
    + intros u j [[(-> & Hu & _)|[Hu Hu']]%list_lookup_insert_Some|[(-> & Hu & _)|[Hu Hu']]%list_lookup_insert_Some];
        eauto; done.
Qed.

Lemma segment_range st t i l : writes_ok st → map work (threads st) !! t = Some (Some (i, l)) → (i < N)%nat.
Proof using Type. intros [(segs & Hp & _) _ _] H. by destruct (pr_work _ _ _ _ _ _ Hp _ _ _ H) as (_ & ? & _). Qed.

Lemma lock_writes t i st : writes_ok st → threads st !! t = Some (Locking i) → ∃ st' size,
  lock_memory hash B parts partition_sizes sort_orders t i st = Ok st' ∧ writes_ok st' ∧ partition_sizes !! i = Some size ∧
  st' = if must_wait B (mem_used st) size then set_thread t (Waiting i) st
        else set_thread t (Writing i true (chunk i)) (set_mem_used (u64 (mem_used st + size)) st).
Proof using chunks.
  intros Hst Ht. pose proof (work_lookup _ _ _ Ht) as Hw. pose proof (segment_range _ _ _ _ Hst Hw) as Hi.
  assert (partition_sorted !! i = Some false) as Hflag by (eapply (wr_flag st Hst); by left).
  unfold lock_memory. destruct (lookup_lt_is_Some_2 partition_sizes i) as [size Hsize]; [by rewrite (ch_sizes chunks)|].
  rewrite Hsize. cbn [or_trap mbind outcome_bind]. destruct (must_wait _ _ _) eqn:Hm.
  - eexists _, size. rewrite Hm. split_and!; [done| |done|done]. eapply writes_same_work; [done..|]. naive_solver.
  - rewrite (ch_sorted chunks) by done. cbn [mbind outcome_bind]. eexists _, size. rewrite Hm. split_and!; [done| |done|done].
    by apply (writes_same_work st t (Locking i) (Writing i true (chunk i))); [..|naive_solver].
Qed.

Lemma put_writes t i c r rest st : writes_ok st → threads st !! t = Some (Writing i c (r :: rest)) → ∃ w,
  put_row fuel permute_order num_columns i r (out_sframe st) = Ok w ∧
  writes_ok (Merge (next_segment_to_sort st) (mem_used st) (<[t := Writing i c rest]> (threads st)) w).
Proof using chunks.
  intros Hst Ht. pose proof (work_lookup _ _ _ Ht) as Hw. cbn in Hw. pose proof Hst as [(segs & Hp & Hh & Hn) Hf Hl].
  destruct (pr_work _ _ _ _ _ _ Hp _ _ _ Hw) as (_ & Hi & front & _ & Hc).
  destruct (ch_rows chunks i r Hi) as (p & Hp1 & Hp2 & Hr). { rewrite <- Hc. set_solver. }
  destruct (write_values_holds types segs (out_sframe st) i (outrow r) Hh) as (w & Hwr & Hnw & Hhw); [by rewrite (pr_length _ _ _ _ _ _ Hp)|done|].
  exists w. split.
  - unfold put_row. rewrite Hp1. cbn [mbind outcome_bind]. rewrite Hp2. cbn [mbind outcome_bind].
    unfold write_row. rewrite (holds_types _ _ _ Hh), check_row_same by done. done.
  - apply (writes_set_work st t _ (put segs (i, outrow r))); cbn; [done|done|lia|naive_solver| |done|congruence].
    by apply progress_put.
Qed.

Lemma leave_writes t i c m st : writes_ok st → threads st !! t = Some (Writing i c []) →
  writes_ok (set_mem_used m (set_thread t Ready st)).
Proof using Type.
  intros Hst Ht. pose proof (work_lookup _ _ _ Ht) as Hw. cbn in Hw. pose proof Hst as [(segs & Hp & Hh & Hn) Hf Hl].
  apply (writes_set_work st t _ segs); cbn; [done|done|lia|naive_solver| |done|done]. by eapply progress_leave.
Qed.

Lemma wake_writes t i st : writes_ok st → threads st !! t = Some (Waiting i) → writes_ok (set_thread t (Locking i) st).
Proof using Type.
  intros Hst Ht. eapply writes_same_work; [done..|]. intros j [[= <-]|?]; [|done]. apply (wr_flag st Hst t). by right.
Qed.

Lemma signal_ok woken st st' : signal woken st = Ok st' →
  (woken = None ∧ st' = st ∧ existsb is_waiting (threads st) = false) ∨
  (∃ u i, woken = Some u ∧ threads st !! u = Some (Waiting i) ∧ st' = set_thread u (Locking i) st).
Proof using Type.
  unfold signal. destruct woken as [u|].
  - destruct (threads st !! u) as [[]|] eqn:Hu; try done. intros [= <-]. right. by eexists u, _.
  - destruct (existsb _ _) eqn:He; [done|]. intros [= <-]. by left.
Qed.

Lemma merge_step_writes e st st' : writes_ok st → merge_step e st = Ok st' → writes_ok st'.
Proof using chunks.
  intros Hst. destruct e as [t|t|t|t woken|t]; cbn [SortMerge.merge_step];
    (destruct (threads st !! t) as [[|i|i|i c [|r rest]|]|] eqn:Ht; try done).
  - intros H. destruct (take_writes t st Hst Ht) as (st1 & H1 & H2). rewrite H1 in H. by injection H as <-.
  - intros H. destruct (lock_writes t i st Hst Ht) as (st1 & size & H1 & H2 & _). rewrite H1 in H. by injection H as <-.
  - intros H. destruct (put_writes t i c r rest st Hst Ht) as (w & Hw & ?). rewrite Hw in H. by injection H as <-.
  - unfold leave_segment. destruct c.
    + intros H. apply bind_Ok in H as (size & _ & H).
      pose proof (leave_writes t i true (u64 (mem_used (set_thread t Ready st) - size)) st Hst Ht) as H1.
      apply signal_ok in H as [(_ & -> & _)|(u & j & _ & Hu & ->)]; [done|by apply wake_writes].
    + intros [= <-]. by apply (leave_writes t i false (mem_used st) st).
  - intros [= <-]. by apply wake_writes.
Qed.

(** *** The memory *)

Definition size (i : nat) : Z := default 0 (partition_sizes !! i).
Definition memory (a : activity) : Z := match a with Writing i true _ => size i | _ => 0 end.
Definition awake (a : activity) : Prop := match a with Locking _ | Writing _ true _ => True | _ => False end.

Hypothesis buffer_range : 0 ≤ B < 2 ^ 63.
Hypothesis sizes_range : Forall (λ s, 0 ≤ s < 2 ^ 63) partition_sizes.

(** The counter is the memory of the segments that are sorted; it does not exceed the buffer,
    but for a segment that is too large, with which no other has memory; and while a thread
    waits, another will go on. *)
Record memory_ok (st : merge_state) : Prop := {
  me_used : mem_used st = sum_of memory (threads st);
  me_bound : mem_used st ≤ B ∨ ∃ t i rest, threads st !! t = Some (Writing i true rest) ∧ size i = mem_used st;
  me_awake t i : threads st !! t = Some (Waiting i) → ∃ u a, threads st !! u = Some a ∧ awake a;
}.

Lemma size_range i : 0 ≤ size i < 2 ^ 63.
Proof using sizes_range.
  unfold size. destruct (partition_sizes !! i) as [s|] eqn:E; cbn; [|lia]. rewrite Forall_lookup in sizes_range. by eapply sizes_range.
Qed.

Lemma memory_nonneg a : 0 ≤ memory a.
Proof using sizes_range. destruct a as [| | |i [] r|]; cbn; try lia. apply size_range. Qed.

Lemma mem_used_range st : memory_ok st → 0 ≤ mem_used st < 2 ^ 63.
Proof using buffer_range sizes_range.
  intros [Hu Hb _]. pose proof (sum_of_nonneg memory (threads st) memory_nonneg).
  destruct Hb as [?|(t & i & r & _ & <-)]; [lia|apply size_range].
Qed.

(** A segment that is larger than the buffer is the only one with memory. *)
Lemma memory_alone st : memory_ok st → mem_used st ≤ B ∨ ∃ t i rest,
  threads st !! t = Some (Writing i true rest) ∧ size i = mem_used st ∧
  ∀ u j rest', u ≠ t → threads st !! u = Some (Writing j true rest') → size j = 0.
Proof using sizes_range.
  intros [Hu Hb _]. destruct Hb as [?|(t & i & r & Ht & Hi)]; [by left|right]. exists t, i, r. split_and!; [done..|].
  intros u j r' Hne Hj. pose proof (size_range j).
  assert (<[u := Ready]> (threads st) !! t = Some (Writing i true r)) as H1 by (by rewrite list_lookup_insert_ne).
  pose proof (sum_of_lookup memory _ _ _ memory_nonneg H1) as H2. rewrite (sum_of_insert _ _ _ _ _ Hj), <- Hu in H2. cbn in H2. lia.
Qed.

(** A step of a thread that keeps its memory. *)
Lemma memory_same st next t a b w : memory_ok st → threads st !! t = Some a → memory b = memory a →
  (∀ i r, a = Writing i true r → ∃ r', b = Writing i true r') →
  ((awake a → awake b) ∧ is_waiting b = false) ∨ (∃ u c, u ≠ t ∧ threads st !! u = Some c ∧ awake c) →
  memory_ok (Merge next (mem_used st) (<[t := b]> (threads st)) w).
Proof using Type.
  clear buffer_range sizes_range chunks. intros [Hu Hb Hw] Ht Hm Hwr Ha. pose proof (lookup_lt_Some _ _ _ Ht) as Hlt. split; cbn.
  - rewrite (sum_of_insert _ _ _ _ _ Ht). lia.
  - destruct Hb as [?|(u & i & r & Hu' & Hs)]; [by left|right]. destruct (decide (u = t)) as [->|Hne].
    + destruct (Hwr i r) as [r' ->]; [congruence|]. exists t, i, r'. by rewrite list_lookup_insert_eq.
    + exists u, i, r. by rewrite list_lookup_insert_ne.
  - intros u i Hu'. destruct Ha as [[Ha Hnw]|(v & c & Hv & Hc & Hac)].
    2:{ exists v, c. by rewrite list_lookup_insert_ne. }
    apply list_lookup_insert_Some in Hu' as [(-> & -> & _)|[_ Hu']]; [done|].
    destruct (Hw _ _ Hu') as (v & c & Hc & Hac). destruct (decide (v = t)) as [->|Hne].
    + exists t, b. rewrite list_lookup_insert_eq by done. split; [done|]. apply Ha. congruence.
    + exists v, c. by rewrite list_lookup_insert_ne.
Qed.

Lemma lock_memory_ok st t i : memory_ok st → threads st !! t = Some (Locking i) →
  memory_ok (if must_wait B (mem_used st) (size i) then set_thread t (Waiting i) st
             else set_thread t (Writing i true (chunk i)) (set_mem_used (u64 (mem_used st + size i)) st)).
Proof using buffer_range sizes_range.
  intros Hst Ht. pose proof (size_range i) as Hs. pose proof (mem_used_range st Hst) as Hm.
  pose proof (lookup_lt_Some _ _ _ Ht) as Hlt. unfold must_wait. rewrite uw_small by (unfold is_u; lia).
  destruct (_ && _) eqn:Hc.
  - apply andb_true_iff in Hc as [Hc1 Hc2%negb_true_iff]. apply orb_false_iff in Hc2 as [Hc2 Hc3].
    eapply (memory_same st (next_segment_to_sort st) t); [done..|right].
    assert (0 < mem_used st) as Hpos by (apply andb_false_iff in Hc2; lia).
    rewrite (me_used _ Hst) in Hpos. apply sum_of_positive in Hpos as (u & a & Hu & Ha). exists u, a.
    split_and!; [|done|by destruct a as [| | |? [] ?|]]. intros ->. rewrite Ht in Hu. injection Hu as <-. cbn in Ha. lia.
  - destruct Hst as [Hu Hb Hw]. split; cbn.
    + rewrite (sum_of_insert _ _ _ _ _ Ht). cbn. lia.
    + apply andb_false_iff in Hc. rewrite negb_false_iff, orb_true_iff, andb_true_iff in Hc.
      destruct Hc as [?|[[? ?]|?]]; [left; lia|right|].
      * exists t, i, (chunk i). rewrite list_lookup_insert_eq by done. split; [done|]. lia.
      * destruct Hb as [?|(u & j & r & Hj & Hsj)]; [left; lia|right]. exists u, j, r. rewrite list_lookup_insert_ne; [split; [done|lia]|congruence].
    + intros u j _. exists t, (Writing i true (chunk i)). by rewrite list_lookup_insert_eq.
Qed.

Lemma leave_memory_ok st t i woken st' : memory_ok st → threads st !! t = Some (Writing i true []) →
  signal woken (set_mem_used (u64 (mem_used st - size i)) (set_thread t Ready st)) = Ok st' → memory_ok st'.
Proof using buffer_range sizes_range.
  intros Hst Ht Hsig. pose proof (size_range i) as Hs. pose proof (mem_used_range st Hst) as Hm.
  pose proof (lookup_lt_Some _ _ _ Ht) as Hlt. pose proof (sum_of_lookup memory _ _ _ memory_nonneg Ht) as Hle.
  cbn in Hle. rewrite <- (me_used _ Hst) in Hle. rewrite uw_small in Hsig by (unfold is_u; lia).
  set (st1 := set_mem_used (mem_used st - size i) (set_thread t Ready st)) in *.
  assert (mem_used st1 = sum_of memory (threads st1)) as H1.
  { cbn. rewrite (sum_of_insert _ _ _ _ _ Ht), (me_used _ Hst). cbn. lia. }
  assert (mem_used st1 ≤ B ∨ ∃ u j rest, threads st1 !! u = Some (Writing j true rest) ∧ size j = mem_used st1) as H2.
  { cbn. destruct (me_bound _ Hst) as [?|(u & j & r & Hu & Hj)]; [left; lia|]. destruct (decide (u = t)) as [->|Hne]; [left; simplify_eq; lia|].
    right. exists u, j, r. rewrite list_lookup_insert_ne by done. split; [done|].
    assert (threads st1 !! u = Some (Writing j true r)) as Hu1 by (cbn; by rewrite list_lookup_insert_ne).
    pose proof (sum_of_lookup memory _ _ _ memory_nonneg Hu1) as Hle1. rewrite <- H1 in Hle1. cbn in Hle1. lia. }
  apply signal_ok in Hsig as [(_ & -> & Hno)|(u & j & _ & Hu & ->)].
  - split; [done..|]. intros u j Hu. exfalso. rewrite <- not_true_iff_false in Hno. apply Hno, existsb_exists.
    exists (Waiting j). split; [|done]. by apply list_elem_of_In, (list_elem_of_lookup_2 _ u).
  - split; cbn [threads mem_used set_thread].
    + rewrite (sum_of_insert _ _ _ _ _ Hu), H1. cbn. lia.
    + destruct H2 as [?|(v & k & r & Hv & Hk)]; [by left|right]. exists v, k, r. rewrite list_lookup_insert_ne by congruence. done.
    + intros v k _. exists u, (Locking j). rewrite list_lookup_insert_eq by (by eapply lookup_lt_Some). done.
Qed.

Lemma merge_step_memory e st st' : writes_ok st → memory_ok st → merge_step e st = Ok st' → memory_ok st'.
Proof using chunks buffer_range sizes_range.
  intros Hwr Hst. destruct e as [t|t|t|t woken|t]; cbn [SortMerge.merge_step];
    (destruct (threads st !! t) as [[|i|i|i c [|r rest]|]|] eqn:Ht; try done).
  - unfold take_segment. destruct (_ <? _)%nat; [|intros [= <-]; by refine (memory_same st _ t _ _ _ Hst Ht _ _ _); [..|left]].
    intros H. apply bind_Ok in H as ([] & _ & H); [apply bind_Ok in H as (rows & _ & [= <-])|injection H as <-];
      by refine (memory_same st _ t _ _ _ Hst Ht _ _ _); [..|left].
  - intros H. destruct (lock_writes t i st Hwr Ht) as (st1 & sz & H1 & _ & Hsz & Heq). rewrite H1 in H. injection H as <-.
    assert (sz = size i) as -> by (unfold size; by rewrite Hsz). rewrite Heq. by apply lock_memory_ok.
  - intros H. apply bind_Ok in H as (w & _ & [= <-]). refine (memory_same st _ t _ _ _ Hst Ht _ _ _); [done| |by left].
    intros j r' [= <- -> _]. by eexists.
  - unfold leave_segment. destruct c.
    + intros H. apply bind_Ok in H as (sz & Hsz & H). assert (sz = size i) as ->.
      { unfold size. destruct (partition_sizes !! i); [by injection Hsz as <-|done]. }
      by eapply leave_memory_ok.
    + intros [= <-]. by refine (memory_same st _ t _ _ _ Hst Ht _ _ _); [..|left].
  - intros [= <-]. by refine (memory_same st _ t _ _ _ Hst Ht _ _ _); [..|left].
Qed.

(** *** The steps end *)

Definition weight (a : activity) : Z :=
  match a with
  | Finished => 0
  | Ready => 1
  | Writing _ _ rest => 3 + Z.of_nat (length rest)
  | Waiting i => 4 + Z.of_nat (length (chunk i))
  | Locking i => 5 + Z.of_nat (length (chunk i))
  end.

Definition todo (i : nat) : Z := 6 + Z.of_nat (length (chunk i)).

Definition measure (st : merge_state) : Z :=
  sum_of weight (threads st) + sum_of todo (seq (next_segment_to_sort st) (N - next_segment_to_sort st)).

Definition spurious (e : merge_event) : bool := match e with Wake _ => true | _ => false end.

Lemma measure_nonneg st : 0 ≤ measure st.
Proof using Type.
  clear buffer_range sizes_range chunks. unfold measure. pose proof (sum_of_nonneg weight (threads st)). pose proof (sum_of_nonneg todo (seq (next_segment_to_sort st) (N - next_segment_to_sort st))).
  assert (∀ a, 0 ≤ weight a) by (intros []; cbn; lia). assert (∀ i, 0 ≤ todo i) by (unfold todo; lia). intuition lia.
Qed.

Lemma measure_set st t a b m w : threads st !! t = Some a →
  measure (Merge (next_segment_to_sort st) m (<[t := b]> (threads st)) w) = measure st - weight a + weight b.
Proof using Type. clear buffer_range sizes_range chunks. intros Ht. unfold measure. cbn. rewrite (sum_of_insert _ _ _ _ _ Ht). lia. Qed.

Lemma measure_signal woken st st' : signal woken st = Ok st' → measure st' ≤ measure st + 1.
Proof using Type.
  clear buffer_range sizes_range chunks. intros [(_ & -> & _)|(u & i & _ & Hu & ->)]%signal_ok; [lia|].
  unfold set_thread. rewrite (measure_set _ _ _ _ _ _ Hu). cbn. lia.
Qed.

(** Every step takes something away, but for spurious wake-ups, which add one. *)
Lemma merge_step_measure e st st' : writes_ok st → merge_step e st = Ok st' →
  measure st' + 1 ≤ measure st + (if spurious e then 2 else 0).
Proof using chunks.
  clear buffer_range sizes_range.
  intros Hst. destruct e as [t|t|t|t woken|t]; cbn [SortMerge.merge_step spurious];
    (destruct (threads st !! t) as [[|i|i|i c [|r rest]|]|] eqn:Ht; try done).
  - unfold take_segment, num_segments. set (i := next_segment_to_sort st). destruct (Nat.ltb_spec i N) as [Hi|Hi].
    + assert (∀ a w, measure (Merge (S i) (mem_used st) (<[t := a]> (threads st)) w) = measure st - 1 + weight a - todo i) as Hm.
      { intros a w. unfold measure. cbn. rewrite (sum_of_insert _ _ _ _ _ Ht). fold i.
        replace (N - i)%nat with (S (N - S i)) by lia. cbn. lia. }
      intros H. apply bind_Ok in H as ([] & Hf & H).
      * apply bind_Ok in H as (rows & Hrows & [= <-]). unfold set_thread. rewrite Hm.
        assert (chunk i = rows) as Hc. { destruct (parts !! i) eqn:Hp, (partition_sorted !! i) as [f|] eqn:Hf'; try done. injection Hrows as <-. injection Hf as ->. by apply (ch_as_read chunks). }
        unfold todo. rewrite Hc. cbn. lia.
      * injection H as <-. unfold set_thread. rewrite Hm. unfold todo. cbn. lia.
    + intros [= <-]. unfold measure, set_thread. cbn. rewrite (sum_of_insert _ _ _ _ _ Ht). fold i.
      replace (N - S i)%nat with 0%nat by lia. replace (N - i)%nat with 0%nat by lia. cbn. lia.
  - intros H. destruct (lock_writes t i st Hst Ht) as (st1 & sz & H1 & _ & _ & Heq). rewrite H1 in H. injection H as <-. rewrite Heq.
    destruct (must_wait _ _ _); unfold set_thread, set_mem_used; cbn [next_segment_to_sort mem_used threads out_sframe];
      rewrite (measure_set _ _ _ _ _ _ Ht); cbn; lia.
  - intros H. apply bind_Ok in H as (w & _ & [= <-]). rewrite (measure_set _ _ _ _ _ _ Ht). cbn. lia.
  - unfold leave_segment. destruct c.
    + intros H. apply bind_Ok in H as (sz & _ & H). apply measure_signal in H. unfold set_mem_used, set_thread in H. cbn [next_segment_to_sort mem_used threads out_sframe] in H.
      rewrite (measure_set _ _ _ _ _ _ Ht) in H. cbn in H. lia.
    + intros [= <-]. unfold set_thread. rewrite (measure_set _ _ _ _ _ _ Ht). cbn. lia.
  - intros [= <-]. unfold set_thread. rewrite (measure_set _ _ _ _ _ _ Ht). cbn. lia.
Qed.

(** A thread that does not wait, and has not ended, can go on. *)
Lemma awake_steps t a st : writes_ok st → threads st !! t = Some a → is_waiting a = false → a ≠ Finished → ∃ e st',
  spurious e = false ∧ merge_step e st = Ok st'.
Proof using chunks.
  clear buffer_range sizes_range. intros Hst Ht Hw Hf. destruct a as [|i|i|i c [|r rest]|]; try done.
  - destruct (take_writes t st Hst Ht) as (st' & H & _). exists (Take t), st'. split; [done|]. cbn. by rewrite Ht.
  - destruct (lock_writes t i st Hst Ht) as (st' & sz & H & _). exists (Lock t), st'. split; [done|]. cbn. by rewrite Ht.
  - destruct c.
    2:{ eexists (Leave t None), _. split; [done|]. cbn. by rewrite Ht. }
    pose proof (segment_range _ _ _ _ Hst (work_lookup _ _ _ Ht)) as Hi.
    destruct (lookup_lt_is_Some_2 partition_sizes i) as [sz Hsz]; [by rewrite (ch_sizes chunks)|].
    destruct (existsb is_waiting (<[t := Ready]> (threads st))) eqn:He.
    + apply existsb_exists in He as ([|j|j|j|] & Hin%list_elem_of_In & Hwj); try done. apply list_elem_of_lookup_1 in Hin as [u Hu].
      eexists (Leave t (Some u)), _. split; [done|]. cbn. rewrite Ht. unfold leave_segment. rewrite Hsz. cbn. by rewrite Hu.
    + eexists (Leave t None), _. split; [done|]. cbn. rewrite Ht. unfold leave_segment. rewrite Hsz. cbn. by rewrite He.
  - destruct (put_writes t i c r rest st Hst Ht) as (w & H & _). eexists (Put t), _. split; [done|]. cbn. rewrite Ht, H. done.
Qed.

(** Threads that wait are never left alone: some thread can go on until all have ended. *)
Lemma merge_not_stuck st : writes_ok st → memory_ok st → forallb is_finished (threads st) = false → ∃ e st',
  spurious e = false ∧ merge_step e st = Ok st'.
Proof using chunks.
  clear buffer_range sizes_range. intros Hw Hm Hf. assert (∃ t a, threads st !! t = Some a ∧ a ≠ Finished) as (t & a & Ht & Ha).
  { apply forallb_not in Hf as (t & a & Ht & Ha). exists t, a. split; [done|]. by intros ->. }
  destruct (is_waiting a) eqn:Hwa.
  - destruct a as [| |i| |]; try done. destruct (me_awake _ Hm _ _ Ht) as (u & b & Hu & Hb).
    apply (awake_steps u b); [done..| |]; by destruct b as [| | |? [] ?|].
  - by apply (awake_steps t a).
Qed.

Definition merging (st : merge_state) : Prop := writes_ok st ∧ memory_ok st.

Lemma merging_step e st st' : merging st → merge_step e st = Ok st' → merging st'.
Proof using chunks buffer_range sizes_range. intros [H1 H2] H. split; [by eapply merge_step_writes|by eapply merge_step_memory]. Qed.

Definition spurious_count (es : list merge_event) : nat := length (filter (λ e, spurious e = true) es).

(** How long a run can be. *)
Lemma merge_run_ok es : ∀ st st', merging st → merge_run es st = Ok st' →
  merging st' ∧ measure st' + Z.of_nat (length es) ≤ measure st + 2 * Z.of_nat (spurious_count es).
Proof using chunks buffer_range sizes_range.
  induction es as [|e es IH]; intros st st' Hst H.
  { injection H as <-. split; [done|]. cbn. lia. }
  apply bind_Ok in H as (st1 & H1 & H). destruct (IH st1 st') as [Hst' Hm]; [by eapply merging_step|done|]. split; [done|].
  pose proof (merge_step_measure e st st1 (proj1 Hst) H1) as Hm1. unfold spurious_count in *. rewrite filter_cons.
  destruct (spurious e); cbn [decide]; [rewrite decide_True by done|rewrite decide_False by done]; cbn [length]; lia.
Qed.

Lemma merge_next st : merging st → forallb is_finished (threads st) = false → ∃ e st',
  spurious e = false ∧ merge_step e st = Ok st' ∧ merging st' ∧ measure st' + 1 ≤ measure st.
Proof using chunks buffer_range sizes_range.
  intros Hst Hf. destruct (merge_not_stuck st (proj1 Hst) (proj2 Hst) Hf) as (e & st' & He & H).
  exists e, st'. split_and!; [done..|by eapply merging_step|].
  pose proof (merge_step_measure e st st' (proj1 Hst) H) as Hm. rewrite He in Hm. lia.
Qed.

(** And from every state the threads can come to an end. *)
Lemma merge_completes st : merging st → ∃ es st', spurious_count es = 0%nat ∧ merge_run es st = Ok st' ∧
  forallb is_finished (threads st') = true.
Proof using chunks buffer_range sizes_range.
  assert (∀ n st, measure st ≤ Z.of_nat n → merging st → ∃ es st', spurious_count es = 0%nat ∧ merge_run es st = Ok st' ∧
    forallb is_finished (threads st') = true) as H.
  2:{ intros Hst. apply (H (Z.to_nat (measure st))); [lia|done]. }
  clear st. induction n as [|n IH]; intros st Hn Hst.
  { destruct (forallb is_finished (threads st)) eqn:Hf; [by exists [], st|].
    destruct (merge_next st Hst Hf) as (e & st1 & _ & _ & _ & Hm). pose proof (measure_nonneg st1). lia. }
  destruct (forallb is_finished (threads st)) eqn:Hf; [by exists [], st|].
  destruct (merge_next st Hst Hf) as (e & st1 & He & H1 & Hst1 & Hm).
  destruct (IH st1) as (es & st' & Hs & Hr & Hf'); [lia|done|].
  exists (e :: es), st'. split_and!; [|cbn; by rewrite H1|done].
  unfold spurious_count in *. rewrite filter_cons, decide_False by congruence. done.
Qed.

(** When all threads have ended, each segment has been written. *)
Lemma merge_end st : merging st → threads st ≠ [] → forallb is_finished (threads st) = true →
  holds types (map (λ i, map outrow (chunk i)) (seq 0 N)) (out_sframe st) ∧ w_names (out_sframe st) = names.
Proof using Type.
  clear buffer_range sizes_range chunks. intros [[(segs & Hp & Hh & Hn) Hf _] _] Hne Hall. split; [|done].
  assert (∀ a, a ∈ threads st → a = Finished) as HF.
  { intros a Hin%list_elem_of_In. rewrite forallb_forall in Hall. specialize (Hall a Hin). by destruct a. }
  rewrite (progress_end _ _ _ _ _ _ Hp) in Hh; [done| |].
  - destruct (threads st) as [|a ths] eqn:E; [done|]. apply (Hf 0%nat). cbn. f_equal. apply HF, elem_of_cons. by left.
  - apply Forall_forall. intros w (a & -> & Ha)%list_elem_of_fmap. by rewrite (HF a Ha).
Qed.

Lemma merging_start k w : holds types (replicate N []) w → w_names w = names → merging (merge_start k w).
Proof using buffer_range.
  clear sizes_range chunks. intros Hh Hn. split.
  - split; cbn.
    + exists (replicate N []). split_and!; [|done..]. rewrite fmap_replicate. apply progress_start.
    + by intros t [? _]%lookup_replicate_1.
    + by intros t i [[? _]%lookup_replicate_1|[? _]%lookup_replicate_1].
  - split; cbn.
    + induction k as [|k IH]; [done|]. done.
    + left. lia.
    + by intros t i [? _]%lookup_replicate_1.
Qed.

Lemma measure_start k w : measure (merge_start k w) = Z.of_nat k + sum_of todo (seq 0 N).
Proof using Type.
  clear buffer_range sizes_range chunks. unfold measure, merge_start. cbn [threads next_segment_to_sort]. rewrite Nat.sub_0_r. f_equal.
  induction k as [|k IH]; [done|]. cbn [replicate sum_of weight]. lia.
Qed.

(** *** [sort_and_merge] *)

Lemma signal_threads woken st st' : signal woken st = Ok st' → length (threads st') = length (threads st).
Proof using Type. intros [(_ & -> & _)|(u & i & _ & _ & ->)]%signal_ok; [done|]. cbn. by rewrite length_insert. Qed.

Lemma merge_step_threads e st st' : merge_step e st = Ok st' → length (threads st') = length (threads st).
Proof using Type.
  clear buffer_range sizes_range chunks. destruct e as [t|t|t|t woken|t]; cbn [SortMerge.merge_step];
    (destruct (threads st !! t) as [[|i|i|i c [|r rest]|]|] eqn:Ht; try done).
  - unfold take_segment. destruct (_ <? _)%nat; [|intros [= <-]; cbn; by rewrite length_insert].
    intros H. apply bind_Ok in H as ([] & _ & H); [apply bind_Ok in H as (rows & _ & [= <-])|injection H as <-]; cbn; by rewrite length_insert.
  - unfold lock_memory. intros H. apply bind_Ok in H as (sz & _ & H). destruct (must_wait _ _ _); [injection H as <-; cbn; by rewrite length_insert|].
    apply bind_Ok in H as (rows & _ & [= <-]). cbn. by rewrite length_insert.
  - intros H. apply bind_Ok in H as (w & _ & [= <-]). cbn. by rewrite length_insert.
  - unfold leave_segment. destruct c; [|intros [= <-]; cbn; by rewrite length_insert].
    intros H. apply bind_Ok in H as (sz & _ & H). rewrite (signal_threads _ _ _ H). cbn. by rewrite length_insert.
  - intros [= <-]. cbn. by rewrite length_insert.
Qed.

Lemma merge_run_threads es : ∀ st st', merge_run es st = Ok st' → length (threads st') = length (threads st).
Proof using Type.
  clear buffer_range sizes_range chunks. induction es as [|e es IH]; intros st st' H; [by injection H as <-|].
  apply bind_Ok in H as (st1 & H1 & H). by rewrite (IH _ _ H), (merge_step_threads _ _ _ H1).
Qed.

(** The threads can end, and when they have, the frame has the chunks in its segments. *)
Lemma sort_and_merge_ok num_threads : (0 < num_threads)%nat → names_ok names → types ≠ [] → length names = length types →
  (∀ es sf, sort_and_merge hash fuel B parts partition_sorted partition_sizes sort_orders permute_order num_columns
      num_threads es names types = Ok sf →
    ∃ w, sf = close w ∧ holds types (map (λ i, map outrow (chunk i)) (seq 0 N)) w ∧ w_names w = names) ∧
  (∃ es sf, sort_and_merge hash fuel B parts partition_sorted partition_sizes sort_orders permute_order num_columns
      num_threads es names types = Ok sf).
Proof using chunks buffer_range sizes_range.
  intros Hk Hn Hne Hl. destruct (open_names_ok names types N true Hn Hl) as (w & Hw & Hwn).
  pose proof (open_for_write_holds _ _ _ _ _ Hw) as Hh.
  replace (match types with [] => [] | _ => _ end) with (replicate N (@nil row)) in Hh by (by destruct types).
  pose proof (merging_start num_threads w Hh Hwn) as Hstart. unfold sort_and_merge, num_segments. rewrite Hw. cbn [mbind outcome_bind]. split.
  - intros es sf H. apply bind_Ok in H as (st & Hrun & H). destruct (forallb is_finished (threads st)) eqn:Hf; [|done]. injection H as <-.
    exists (out_sframe st). split; [done|]. destruct (merge_run_ok es _ _ Hstart Hrun) as [Hst _]. apply merge_end; [done| |done].
    pose proof (merge_run_threads _ _ _ Hrun) as Ht. cbn in Ht. rewrite length_replicate in Ht. intros E. rewrite E in Ht. cbn in Ht. lia.
  - destruct (merge_completes _ Hstart) as (es & st & _ & Hrun & Hf). exists es. rewrite Hrun. cbn [mbind outcome_bind]. rewrite Hf. by eexists.
Qed.
End machine.
End SortMergeSpec.
