(* ===== verification/SortSpec.v ===== *)
(** The whole sort: the rows of the result are those of the plan, in the order of their keys,
    whichever way they are sorted. *)
From stdpp Require Import sorting.
From S2P Require Import Prelude Float64 FloatArith FlexType FlexOps QueryPlan QueryPlanSpec QueryGraph GroupBySpec SFrame SFrameSpec JoinGraceSpec.
From S2P Require Import SortMerge Sort SortOrderSpec SortScatterSpec SortMergeSpec.
Import Float64 FloatArith FlexType FlexOps SFrame SFrameSpec SortMerge Sort SortOrderSpec SortScatterSpec SortColumnSpec SortMergeSpec.
Import QueryPlan(SoftAssign, heap, denote, infer_planner_node_type, op_project).
Import QueryPlanSpec(fits, denote_type, denote_length).
Import QueryGraph(Old, New, make_planner_node).
Import GroupBySpec(bind_Ok).
Import JoinPartitionSpec(write_each_move_same).
Local Open Scope Z_scope.
Local Open Scope sframe_scope.

Module SortSpec.

(** ** Sorted lists *)

Section strongly_sorted.
Context {A : Type}.
Implicit Types l : list A.

Lemma all_ordered (R : A → A → Prop) l : (∀ a b, a ∈ l → b ∈ l → R a b) → StronglySorted R l.
Proof.
  induction l as [|x l IH]; intros H; constructor.
  - apply IH. intros a b Ha Hb. apply H; apply elem_of_cons; by right.
  - apply Forall_forall. intros a Ha. apply H; apply elem_of_cons; [by left|by right].
Qed.

Lemma ordered_map {B} (f : A → B) (R : A → A → Prop) (S : B → B → Prop) l : StronglySorted R l →
  (∀ a b, a ∈ l → b ∈ l → R a b → S (f a) (f b)) → StronglySorted S (map f l).
Proof.
  induction 1 as [|x l _ IH Hx]; intros H; [constructor|]. cbn. constructor.
  - apply IH. intros a b Ha Hb. apply H; apply elem_of_cons; by right.
  - apply Forall_forall. intros b (a & -> & Ha)%list_elem_of_fmap. rewrite Forall_forall in Hx. apply H; [apply elem_of_cons; by left|apply elem_of_cons; by right|by apply Hx].
Qed.

Lemma ordered_concat (R : A → A → Prop) (f : nat → list A) n : (∀ i, (i < n)%nat → StronglySorted R (f i)) →
  (∀ i j a b, (i < j)%nat → (j < n)%nat → a ∈ f i → b ∈ f j → R a b) → StronglySorted R (concat (map f (seq 0 n))).
Proof.
  intros Hs Hc. induction n as [|n IH]; [constructor|]. rewrite seq_S, map_app, concat_app. apply StronglySorted_app. split_and!.
  2:{ apply IH; [intros; apply Hs; lia|intros i j a b ? ?; apply (Hc i j a b); lia]. }
  2:{ cbn. rewrite app_nil_r. apply Hs. lia. }
  intros a b (l & Hl & Ha)%list_elem_of_In%in_concat Hb. apply in_map_iff in Hl as (i & <- & Hi%in_seq).
  cbn in Hb. rewrite app_nil_r in Hb. eapply (Hc i n); [lia|lia|by apply list_elem_of_In|done].
Qed.

(** A list cut by a function into numbered parts. *)
Lemma parts_permutation (place : A → nat) n l : Forall (λ x, (place x < n)%nat) l →
  concat (map (λ i, filter (λ x, place x = i) l) (seq 0 n)) ≡ₚ l.
Proof.
  induction l as [|x l IH]; intros H.
  - clear H. generalize (seq 0 n). intros js. induction js as [|j js IH]; [done|]. cbn [map concat]. by rewrite IH.
  - apply Forall_cons in H as [Hx H]. trans (x :: concat (map (λ i, filter (λ y, place y = i) l) (seq 0 n))); [|by rewrite (IH H)]. clear IH H.
    assert (∀ js, NoDup js → concat (map (λ i, filter (λ y, place y = i) (x :: l)) js) ≡ₚ
      (if decide (place x ∈ js) then [x] else []) ++ concat (map (λ i, filter (λ y, place y = i) l) js)) as E.
    { induction js as [|j js IH]; [done|]. intros [Hj Hnd]%NoDup_cons. cbn [map concat]. rewrite (IH Hnd), filter_cons.
      destruct (decide (place x = j)) as [<-|Hne].
      - rewrite decide_False by done. rewrite decide_True by (apply elem_of_cons; by left). done.
      - destruct (decide (place x ∈ js)) as [Hin|Hni].
        + rewrite decide_True by (apply elem_of_cons; by right). cbn. by rewrite Permutation_middle.
        + rewrite decide_False by (intros [?|?]%elem_of_cons; done). done. }
    rewrite E by apply NoDup_seq. rewrite decide_True by (apply elem_of_seq; lia). done.
Qed.
End strongly_sorted.

(** The segment that is read back of an array. *)
Lemma read_segment parts i p : parts !! i = Some p → read_one_chunk parts i = p.
Proof.
  intros Hi. apply list_elem_of_split_length in Hi as (l1 & l2 & -> & ->).
  assert (∀ k, segment_start (l1 ++ p :: l2) k = sum_list (map length (take k (l1 ++ p :: l2)))) as E by done.
  unfold read_one_chunk. rewrite !E, take_app_length, take_app_ge by lia.
  replace (length l1 + 1 - length l1)%nat with 1%nat by lia. cbn [take]. rewrite take_0.
  assert (∀ l : list (list sort_row), sum_list (map length l) = length (concat l)) as Hs.
  { induction l as [|x l IH]; [done|]. cbn. rewrite length_app. by rewrite <- IH. }
  rewrite !Hs, !concat_app, length_app, drop_app_length. cbn. rewrite app_nil_r.
  replace (length (concat l1) + length p - length (concat l1))%nat with (length p) by lia. apply take_app_length.
Qed.

(** ** What can be sorted *)

(** A frame and keys that can be sorted: distinct columns of types that have an order, without
    NaN, and values that can be written to files. *)
Record sortable {SA : SoftAssign} (fuel : nat) (h : heap) (n : nat) (types : list flex_type_enum) (rows : list row)
    (names : list (list Z)) (idx : list nat) (orders : list bool) : Prop := {
  so_table : denote h n = Some (types, rows);
  so_typed : Forall (row_of types) rows;
  so_names : names_ok names;
  so_names_length : length names = length types;
  so_some : idx ≠ [];
  so_distinct : NoDup idx;
  so_orders : length orders = length idx;
  so_types : Forall (λ i, ∃ t, types !! i = Some t ∧ supported_type t = true) idx;
  so_no_nan : Forall (λ r, Forall (λ i, ∀ b, r !! i = Some (FFloat b) → isnan b = false) idx) rows;
  so_saved : Forall (Forall (λ v, valid v = true ∧ (depth v ≤ fuel)%nat)) rows;
}.

(** What is expected of the result. *)
Record sorted_frame {SA : SoftAssign} (hash : flexible_type → Z) (types : list flex_type_enum) (rows : list row)
    (names : list (list Z)) (idx : list nat) (orders : list bool) (sf : sframe) : Prop := {
  sf_ok : frame_ok sf;
  sf_names : column_names sf = names;
  sf_types : column_types sf = types;
  sf_rows : ∃ out, read_all sf = Ok out ∧ out ≡ₚ rows ∧ sorted (less_than_partial hash idx orders) out;
}.

Section sort.
Context {SA : SoftAssign} {SS : StdSort} {SL : StdSortLaws} (hash : flexible_type → Z) (fuel : nat) (c : sort_config).
Context (h : heap) (n : nat) (types : list flex_type_enum) (rows : list row) (names : list (list Z)).
Context (idx : list nat) (orders : list bool).
Hypothesis input : sortable fuel h n types rows names idx orders.

Abbreviation num_columns := (length types).
Abbreviation values := (value_column_indices idx num_columns).

Lemma sort_columns_range : Forall (λ i, (i < num_columns)%nat) idx.
Proof using input. eapply Forall_impl; [apply (so_types _ _ _ _ _ _ _ _ input)|]. intros i (t & Ht & _). by eapply lookup_lt_Some. Qed.

Lemma columns_range : Forall (λ i, (i < num_columns)%nat) (idx ++ values).
Proof using input.
  apply Forall_forall. intros i Hi. rewrite (key_and_value_columns idx num_columns) in Hi.
  - apply elem_of_seq in Hi. lia.
  - apply (so_distinct _ _ _ _ _ _ _ _ input).
  - apply sort_columns_range.
Qed.

Lemma rows_wide : Forall (λ r, length r = num_columns) rows.
Proof using input. eapply Forall_impl; [apply (so_typed _ _ _ _ _ _ _ _ input)|]. intros r Hr. symmetry. by eapply Forall2_length. Qed.

Lemma types_some : types ≠ [].
Proof using input.
  intros Ht. pose proof sort_columns_range as H. pose proof (so_some _ _ _ _ _ _ _ _ input) as Hi.
  rewrite Ht in H. clear input Ht. destruct idx; [done|]. apply Forall_cons in H as [H _]. cbn in H. lia.
Qed.

Lemma names_some : names ≠ [].
Proof using input. intros E. apply types_some. apply length_zero_iff_nil. rewrite <- (so_names_length _ _ _ _ _ _ _ _ input), E. done. Qed.

Lemma rows_comparable : Forall (keys_comparable types idx) rows.
Proof using input.
  apply Forall_forall. intros r Hr. apply Forall_forall. intros i Hi.
  pose proof (so_types _ _ _ _ _ _ _ _ input) as Ht. rewrite Forall_forall in Ht. destruct (Ht i Hi) as (t & Hti & Hs).
  pose proof (so_typed _ _ _ _ _ _ _ _ input) as Hr'. rewrite Forall_forall in Hr'. specialize (Hr' r Hr).
  destruct (Forall2_lookup_l _ _ _ _ _ Hr' Hti) as (v & Hv & Hf). exists t, v. split_and!; [done|done|].
  pose proof (so_no_nan _ _ _ _ _ _ _ _ input) as Hn. rewrite Forall_forall in Hn. specialize (Hn r Hr).
  rewrite Forall_forall in Hn. specialize (Hn i Hi). rewrite Hv in Hn.
  destruct Hf as [->|[<-|Hu]]; [done| |by destruct v].
  destruct v; try done. split; [done|by apply Hn].
Qed.

(** ** In memory *)

Theorem in_memory_ok : ∃ sf, sort_sframe_in_memory hash h n names idx orders = Ok sf ∧
  sorted_frame hash types rows names idx orders sf.
Proof using input SL.
  pose proof (so_table _ _ _ _ _ _ _ _ input) as Ht. unfold sort_sframe_in_memory, materialize.
  rewrite (denote_type _ _ _ Ht), Ht. cbn [or_trap fmap option_fmap option_map mbind outcome_bind snd fst].
  destruct (std_sort_sorts _ (keys_comparable types idx) (less_than_partial hash idx orders) rows) as (out & -> & Hp & Hs).
  { apply comparator_ok. apply (so_orders _ _ _ _ _ _ _ _ input). }
  { apply rows_comparable. }
  cbn [mbind outcome_bind].
  destruct (open_names_ok names types 1 true (so_names _ _ _ _ _ _ _ _ input) (so_names_length _ _ _ _ _ _ _ _ input)) as (w & Hw & Hwn).
  pose proof (open_for_write_holds _ _ _ _ _ Hw) as Hh. rewrite Hw. cbn [mbind outcome_bind].
  assert (Forall (row_of types) out) as Hout by (rewrite Hp; apply (so_typed _ _ _ _ _ _ _ _ input)).
  rewrite write_each_move_same.
  2:{ rewrite (holds_types _ _ _ Hh). apply Forall_fmap. eapply Forall_impl; [exact Hout|]. intros r Hr. symmetry. by eapply Forall2_length. }
  pose proof types_some as Hne. 
  destruct (written_in_one_segment types out w) as (w' & -> & Hn' & Hh'); [exact Hh|done|done|].
  replace (match types with [] => [] | _ => [out] end) with [out] in Hh' by (clear -Hne; by destruct types).
  cbn [mbind outcome_bind]. eexists. split; [done|]. split.
  - eapply close_ok; [done|..]; rewrite Hn', Hwn; [apply (so_names _ _ _ _ _ _ _ _ input)|].
    apply (so_names_length _ _ _ _ _ _ _ _ input).
  - unfold close. cbn [column_names]. congruence.
  - by eapply close_types.
  - exists out. rewrite (close_rows _ _ _ Hh'). cbn. by rewrite app_nil_r.
Qed.

(** ** By partitions *)

(** *** Rows with their keys first *)

Definition key_types : list flex_type_enum := map (λ i, default UNDEFINED (types !! i)) idx.
Definition keyed (r : row) : row := project (idx ++ values) r.
Abbreviation order := (make_permute_ordering idx num_columns).
Abbreviation pack := (packed key_types).

(** The row that is written of a row of a partition. *)
Definition outrow (sr : sort_row) : row :=
  match sort_row_to_output_row fuel sr num_columns with
  | Ok p => match permute_row p order with Ok r => r | _ => [] end
  | _ => []
  end.

Lemma orders_key_types : length orders = length key_types.
Proof using input. unfold key_types. rewrite length_map. apply (so_orders _ _ _ _ _ _ _ _ input). Qed.

Lemma key_types_some : key_types ≠ [].
Proof using input. intros H%(f_equal length). unfold key_types in H. rewrite length_map in H. apply length_zero_iff_nil in H. by destruct (so_some _ _ _ _ _ _ _ _ input). Qed.

Section one_row.
Context (r : row).
Hypothesis row_in : r ∈ rows.

Lemma row_width : length r = num_columns.
Proof using input row_in. pose proof rows_wide as H. rewrite Forall_forall in H. by apply H. Qed.

Lemma keyed_columns : Forall (λ i, (i < length r)%nat) (idx ++ values).
Proof using input row_in. rewrite row_width. apply columns_range. Qed.

Lemma keyed_split : keyed r = project idx r ++ project values r.
Proof using input row_in. apply project_app, keyed_columns. Qed.

Lemma key_length : length (project idx r) = length key_types.
Proof using input row_in. unfold key_types. rewrite length_map. apply project_length. pose proof keyed_columns as H. by apply Forall_app in H as [H _]. Qed.

Lemma keyed_key : take (length key_types) (keyed r) = project idx r.
Proof using input row_in. by rewrite keyed_split, <- key_length, take_app_length. Qed.

Lemma project_lookup cols j i : Forall (λ i, (i < length r)%nat) cols → cols !! j = Some i → project cols r !! j = r !! i.
Proof using Type.
  clear row_in input. intros H%project_ok Hj. apply mapM_Some_1 in H. destruct (Forall2_lookup_l _ _ _ _ _ H Hj) as (v & Hv & Hr). congruence.
Qed.

Lemma key_comparable : key_ok key_types (project idx r).
Proof using input row_in.
  pose proof rows_comparable as H. rewrite Forall_forall in H. specialize (H r row_in). unfold keys_comparable in H. rewrite Forall_lookup in H.
  pose proof keyed_columns as [Hc _]%Forall_app. unfold key_ok, key_types. apply Forall2_same_length_lookup_2.
  { rewrite length_map. symmetry. by apply project_length. }
  intros j t v Ht Hv. rewrite list_lookup_fmap in Ht. destruct (idx !! j) as [i|] eqn:Hj; [|done]. injection Ht as <-.
  rewrite (project_lookup idx j i) in Hv by done. destruct (H j i Hj) as (t & u & Ht & Hu & Hcmp). rewrite Ht. cbn. congruence.
Qed.

Lemma keyed_saved : Forall (λ v, valid v = true ∧ (depth v ≤ fuel)%nat) (project values r).
Proof using input row_in.
  pose proof (so_saved _ _ _ _ _ _ _ _ input) as H. rewrite Forall_forall in H. specialize (H r row_in).
  pose proof keyed_columns as [_ Hc]%Forall_app. apply Forall_lookup. intros j v Hv.
  assert (j < length values)%nat as Hj. { rewrite <- (project_length values r Hc). by eapply lookup_lt_Some. }
  destruct (lookup_lt_is_Some_2 values j Hj) as [i Hi]. rewrite (project_lookup values j i) in Hv by done.
  rewrite (Forall_lookup _ r) in H. by eapply H.
Qed.

Lemma keyed_encodes : encodes (wconcat save (project values r)) (read_many (length values) (load fuel)) (project values r).
Proof using input row_in.
  pose proof keyed_columns as [_ Hc]%Forall_app. rewrite <- (project_length values r Hc). apply encodes_many.
  eapply Forall_impl; [exact keyed_saved|]. intros v [Hv Hd]. by apply load_save.
Qed.

Lemma keyed_ok : row_ok key_types (keyed r) ∧ is_Some (wconcat save (drop (length key_types) (keyed r))).
Proof using input row_in.
  assert (drop (length key_types) (keyed r) = project values r) as Hd by (by rewrite keyed_split, <- key_length, drop_app_length).
  split; [split_and!|].
  - rewrite keyed_split, length_app, key_length. lia.
  - rewrite keyed_key. apply key_comparable.
  - rewrite Hd. eapply Forall_impl; [exact keyed_saved|]. by intros v [? _].
  - rewrite Hd. destruct keyed_encodes as (bs & -> & _). by eexists.
Qed.

Lemma pack_keyed : sort_row_to_output_row fuel (pack (keyed r)) num_columns = Ok (keyed r).
Proof using input row_in.
  pose proof keyed_encodes as (bs & Hbs & Hdec). specialize (Hdec []). rewrite app_nil_r in Hdec.
  assert (pack (keyed r) = (project idx r, bs)) as ->.
  { unfold packed, key_of, bytes_of. rewrite keyed_key. by rewrite keyed_split, <- key_length, drop_app_length, Hbs. }
  assert (length idx + length values = num_columns)%nat as Hl.
  { rewrite <- length_app. apply key_and_value_length; [apply (so_distinct _ _ _ _ _ _ _ _ input)|apply sort_columns_range]. }
  assert (length (project idx r) = length idx) as Hk by (rewrite key_length; unfold key_types; apply length_map).
  unfold sort_row_to_output_row. cbn [fst snd]. rewrite Hk. rewrite (proj2 (Nat.ltb_ge num_columns (length idx))) by lia.
  replace (num_columns - length idx)%nat with (length values) by lia. rewrite Hdec. cbn [or_trap mbind outcome_bind fst].
  by rewrite keyed_split.
Qed.

Lemma keyed_back : permute_row (keyed r) order = Ok r.
Proof using input row_in.
  apply permute_row_ok; [apply (so_distinct _ _ _ _ _ _ _ _ input)|apply sort_columns_range|apply row_width|].
  apply project_ok, keyed_columns.
Qed.

Lemma outrow_keyed : outrow (pack (keyed r)) = r.
Proof using input row_in. unfold outrow. by rewrite pack_keyed, keyed_back. Qed.
End one_row.

(** The comparison of rows is that of their keys. *)
Lemma compare_keyed r1 r2 : r1 ∈ rows → r2 ∈ rows →
  less_than_partial hash idx orders r1 r2 = less_than_full hash orders (project idx r1) (project idx r2).
Proof using input.
  intros H1 H2. unfold less_than_full. rewrite (so_orders _ _ _ _ _ _ _ _ input). apply partial_same_keys.
  pose proof (keyed_columns r1 H1) as [Hc1 _]%Forall_app. pose proof (keyed_columns r2 H2) as [Hc2 _]%Forall_app.
  apply Forall2_same_length_lookup_2; [by rewrite length_seq|]. intros j i k Hi Hk. apply lookup_seq in Hk as [-> Hj].
  rewrite !(project_lookup _ idx j i) by done. rewrite Forall_lookup in Hc1, Hc2.
  destruct (lookup_lt_is_Some_2 r1 i (Hc1 j i Hi)) as [a Ha]. destruct (lookup_lt_is_Some_2 r2 i (Hc2 j i Hi)) as [b Hb].
  by exists a, b.
Qed.

(** *** The partitions *)

Section partitions.
Context (pivots marks streams : list row) (st : scatter_state).
Hypothesis pivots_ok : Forall (key_ok key_types) pivots.
Hypothesis marks_rows : marks ≡ₚ map keyed rows.
Hypothesis streams_rows : streams ≡ₚ map keyed rows.
Hypothesis st_ok : scattered hash key_types orders pivots marks streams st.

Abbreviation N := (S (length pivots)).
Abbreviation part i := (in_partition hash key_types orders pivots i streams).
Abbreviation lessb := (lessb hash orders).
Abbreviation key := (key_of key_types).
Abbreviation parts := (parted_array st).
Abbreviation flags := (partition_sorted st).

Definition chunk (i : nat) : list sort_row :=
  if default true (flags !! i) then default [] (parts !! i)
  else match sort_chunk hash parts orders i with Ok l => l | _ => [] end.

Lemma part_lookup i : (i < N)%nat → parts !! i = Some (map pack (part i)).
Proof using st_ok. intros Hi. rewrite (sc_rows _ _ _ _ _ _ _ st_ok). by rewrite map_seq_lookup. Qed.

Lemma length_parts : length parts = N.
Proof using st_ok. rewrite (sc_rows _ _ _ _ _ _ _ st_ok). by rewrite length_map, length_seq. Qed.

Lemma part_row i p : p ∈ part i → ∃ r, r ∈ rows ∧ p = keyed r ∧ partition_of hash key_types orders pivots p = i.
Proof using streams_rows.
  intros [Hp Hin]%list_elem_of_filter. rewrite streams_rows in Hin. apply list_elem_of_fmap in Hin as (r & -> & Hr). by exists r.
Qed.

Lemma part_key i p : p ∈ part i → key_ok key_types (key p).
Proof using streams_rows input. intros (r & Hr & -> & _)%part_row. unfold key_of. rewrite keyed_key by done. by apply key_comparable. Qed.

(** The marks of a partition say that none of its keys is less than another. *)
Lemma marked_part i a b : flags !! i = Some true → a ∈ part i → b ∈ part i → lessb (key a) (key b) = false.
Proof using st_ok marks_rows streams_rows input.
  intros Hf Ha Hb. assert (i < N)%nat as Hi by (rewrite <- (sc_flags _ _ _ _ _ _ _ st_ok); by eapply lookup_lt_Some).
  destruct (lookup_lt_is_Some_2 (first_sort_key st) i) as [first Hfirst]; [by rewrite (sc_firsts _ _ _ _ _ _ _ st_ok)|].
  pose proof (sc_flag_ok _ _ _ _ _ _ _ st_ok i first true Hfirst Hf eq_refl) as H.
  assert (in_partition hash key_types orders pivots i marks ≡ₚ part i) as E by (unfold in_partition; by rewrite marks_rows, streams_rows).
  destruct first as [|v first].
  { rewrite H in E. apply Permutation_nil in E. rewrite E in Ha. by apply not_elem_of_nil in Ha. }
  destruct H as [Hk HF]. rewrite E, Forall_forall in HF. destruct (HF a Ha) as [_ H1], (HF b Hb) as [H2 _].
  apply (order_negtrans _ _ (lessb_order hash key_types orders orders_key_types) _ (v :: first)); [by eapply part_key|done|by eapply part_key|done|done].
Qed.

(** What is written of a partition: its rows, sorted by their keys. *)
Lemma chunk_sorted i : (i < N)%nat → chunk i ≡ₚ map pack (part i) ∧
  StronglySorted (λ a b, lessb b.1 a.1 = false) (chunk i) ∧
  (flags !! i = Some false → sort_chunk hash parts orders i = Ok (chunk i)).
Proof using st_ok marks_rows streams_rows input SL.
  intros Hi. pose proof (part_lookup i Hi) as Hp. unfold chunk.
  destruct (lookup_lt_is_Some_2 flags i) as [flag Hflag]; [by rewrite (sc_flags _ _ _ _ _ _ _ st_ok)|]. rewrite Hflag. cbn [default].
  destruct flag; cbn [id].
  - rewrite Hp. cbn [default id]. split_and!; [done| |done]. apply all_ordered.
    intros x y (a & -> & Ha)%list_elem_of_fmap (b & -> & Hb)%list_elem_of_fmap. by apply (marked_part i).
  - unfold sort_chunk. rewrite (read_segment _ _ _ Hp).
    destruct (std_sort_sorts sort_row (λ sr : sort_row, key_ok key_types sr.1) (λ a b, less_than_full hash orders a.1 b.1) (map pack (part i)))
      as (l & Hl & Hperm & Hs).
    { destruct (key_order hash key_types orders orders_key_types) as [Hd Ha Hn]. split; intros [x ?] [y ?]; [apply Hd|apply Ha|].
      intros [z ?]. apply Hn. }
    { apply Forall_forall. intros x (a & -> & Ha)%list_elem_of_fmap. by eapply part_key. }
    unfold sort_row in Hl |- *. rewrite Hl. split_and!; [done| |done]. clear -Hs. unfold sorted in Hs. induction Hs as [|x l _ IH Hx]; constructor; [done|].
    eapply Forall_impl; [exact Hx|]. intros y Hy. cbn in Hy. unfold SortScatterSpec.lessb. by rewrite Hy.
Qed.

Lemma chunk_row i sr : (i < N)%nat → sr ∈ chunk i → ∃ r, r ∈ rows ∧ sr = pack (keyed r) ∧ partition_of hash key_types orders pivots (keyed r) = i.
Proof using st_ok marks_rows streams_rows input SL.
  intros Hi Hin. destruct (chunk_sorted i Hi) as (E & _ & _). rewrite E in Hin. apply list_elem_of_fmap in Hin as (p & -> & Hp).
  apply part_row in Hp as (r & Hr & -> & Hpart). by exists r.
Qed.

Lemma chunks_of_sort : chunks_ok hash fuel parts flags (partition_size_in_bytes st) orders order num_columns types chunk outrow.
Proof using st_ok marks_rows streams_rows input SL.
  split.
  - rewrite length_parts. apply (sc_flags _ _ _ _ _ _ _ st_ok).
  - rewrite length_parts, (sc_sizes _ _ _ _ _ _ _ st_ok). by rewrite length_map, length_seq.
  - intros i p Hp Hf. unfold chunk. by rewrite Hf, Hp.
  - rewrite length_parts. intros i Hi Hf. by apply chunk_sorted.
  - rewrite length_parts. intros i sr Hi Hsr. destruct (chunk_row i sr Hi Hsr) as (r & Hr & -> & _).
    exists (keyed r). rewrite outrow_keyed by done. split_and!; [by apply pack_keyed|by apply keyed_back|].
    pose proof (so_typed _ _ _ _ _ _ _ _ input) as H. rewrite Forall_forall in H. by apply H.
Qed.

(** The rows that are written: those of the frame, sorted. *)
Definition output : list row := concat (map (λ i, map outrow (chunk i)) (seq 0 N)).

Lemma output_permutation : output ≡ₚ rows.
Proof using st_ok marks_rows streams_rows input SL.
  unfold output. assert (∀ js, Forall (λ i, (i < N)%nat) js →
    concat (map (λ i, map outrow (chunk i)) js) ≡ₚ map (λ p, outrow (pack p)) (concat (map (λ i, part i) js))) as E.
  { induction js as [|j js IH]; intros HF; [done|]. apply Forall_cons in HF as [Hj HF]. cbn [map concat]. rewrite (IH HF), map_app.
    f_equiv. trans (map outrow (map pack (part j))); [apply Permutation_map, (chunk_sorted j Hj)|by rewrite map_map]. }
  rewrite E by (apply Forall_forall; intros i Hi%elem_of_seq; lia). clear E. unfold in_partition. rewrite parts_permutation.
  2:{ apply Forall_forall. intros p _. apply partition_of_lt. }
  rewrite streams_rows, map_map. rewrite (map_ext_in _ id); [by rewrite map_id|].
  intros r Hr. by apply outrow_keyed, list_elem_of_In.
Qed.

Lemma output_sorted : sorted (less_than_partial hash idx orders) output.
Proof using st_ok marks_rows streams_rows input SL pivots_ok.
  assert (∀ r1 r2, r1 ∈ rows → r2 ∈ rows → lessb (key (keyed r2)) (key (keyed r1)) = false →
    less_than_partial hash idx orders r2 r1 = Ok false) as Hless.
  { intros r1 r2 H1 H2 H. rewrite compare_keyed by done. unfold key_of in H. rewrite !keyed_key in H by done.
    rewrite (lessb_ok hash key_types) by (apply orders_key_types || by apply key_comparable). by rewrite H. }
  apply ordered_concat.
  - intros i Hi. destruct (chunk_sorted i Hi) as (_ & Hs & _). eapply ordered_map; [exact Hs|]. intros a b Ha Hb Hab.
    destruct (chunk_row i a Hi Ha) as (r1 & Hr1 & -> & _), (chunk_row i b Hi Hb) as (r2 & Hr2 & -> & _).
    rewrite !outrow_keyed by done. by apply Hless.
  - intros i j x y Hij Hj (a & -> & Ha)%list_elem_of_fmap (b & -> & Hb)%list_elem_of_fmap.
    destruct (chunk_row i a ltac:(lia) Ha) as (r1 & Hr1 & -> & Hp1), (chunk_row j b Hj Hb) as (r2 & Hr2 & -> & Hp2).
    rewrite !outrow_keyed by done. apply Hless; [done..|].
    unfold partition_of in Hp1, Hp2.
    apply (place_ordered hash key_types orders orders_key_types pivots); [done|..|lia]; unfold key_of; rewrite keyed_key by done; by apply key_comparable.
Qed.

(** A frame that is closed when the threads have ended is sorted. *)
Lemma merged_frame w : holds types (map (λ i, map outrow (chunk i)) (seq 0 N)) w → w_names w = names →
  sorted_frame hash types rows names idx orders (close w).
Proof using st_ok marks_rows streams_rows input SL pivots_ok.
  intros Hh Hn. split.
  - eapply close_ok; [done|..]; rewrite Hn; [apply (so_names _ _ _ _ _ _ _ _ input)|apply (so_names_length _ _ _ _ _ _ _ _ input)].
  - done.
  - by eapply close_types.
  - exists output. split_and!; [by eapply close_rows|apply output_permutation|apply output_sorted].
Qed.

(** The bytes that a row counts for. *)
Definition counted_size (r : row) : Z := row_size key_types (keyed r).

Lemma sizes_small : sum_of counted_size rows < 2 ^ 63 → Forall (λ s, 0 ≤ s < 2 ^ 63) (partition_size_in_bytes st).
Proof using st_ok streams_rows.
  intros Hs. assert (∀ p, 0 ≤ row_size key_types p) as Hp by (intros p; unfold row_size, CELL_SIZE_ESTIMATE, ROW_SIZE_ESTIMATE; lia).
  rewrite (sc_sizes _ _ _ _ _ _ _ st_ok). apply Forall_forall. intros s (i & -> & _)%list_elem_of_fmap.
  assert (0 ≤ sum_of (row_size key_types) (part i) ≤ sum_of counted_size rows) as H.
  { unfold counted_size. rewrite <- (sum_of_map (row_size key_types) keyed), <- streams_rows. by apply sum_of_filter. }
  rewrite uw_small by (unfold is_u; lia). lia.
Qed.
End partitions.

(** *** From the scatter to the merge *)

(** Keys at the quantiles that the sketch gives: of the types of the key columns. *)
Definition quantiles_ok (query_quantile : Z → flexible_type) : Prop :=
  ∀ q, ∃ k, query_quantile q = FList k ∧ key_ok key_types k.

Lemma partition_keys_ok query_quantile num_partitions : quantiles_ok query_quantile → ∃ pivots,
  get_partition_keys query_quantile num_partitions = map FList pivots ∧ Forall (key_ok key_types) pivots ∧
  length pivots = Z.to_nat (num_partitions - 1).
Proof using Type.
  clear input. intros Hq. unfold get_partition_keys.
  assert (∀ (g : nat → Z) js, ∃ pivots, map (λ i, query_quantile (g i)) js = map FList pivots ∧
    Forall (key_ok key_types) pivots ∧ length pivots = length js) as H.
  { intros g js. induction js as [|j js (ps & IH & HF & Hl)]; [by exists []|]. destruct (Hq (g j)) as (k & Hk & Hok).
    exists (k :: ps). cbn. rewrite Hk, IH, Hl. by split_and!; [|constructor|]. }
  destruct (H (λ i, fmul (i2f (Z.of_nat (i + 1))) (fdiv (i2f 1) (i2f num_partitions))) (seq 0 (Z.to_nat (num_partitions - 1))))
    as (ps & H1 & H2 & H3). exists ps. rewrite length_seq in H3. done.
Qed.

(** The scatter of the events of the segments of a plan ends, and gives partitions. *)
Lemma scatter_of_sort query_quantile num_partitions es : 1 ≤ num_partitions → quantiles_ok query_quantile →
  scatter_order h n idx values es → ∃ st pivots marks streams,
  scatter_partition hash (length orders) orders (get_partition_keys query_quantile num_partitions)
    (replicate (Z.to_nat num_partitions) true) es = Ok st ∧
  Forall (key_ok key_types) pivots ∧ marks ≡ₚ map keyed rows ∧ streams ≡ₚ map keyed rows ∧
  scattered hash key_types orders pivots marks streams st.
Proof using input.
  intros Hnp Hq (h' & k & R & data & Hmake & Hmat & Hdata & Hes).
  rewrite (materialized h n types rows (so_table _ _ _ _ _ _ _ _ input) rows_wide idx values h' k) in Hmat;
    [|apply (so_some _ _ _ _ _ _ _ _ input)|apply columns_range|done].
  injection Hmat as <-. apply interleaved_events in Hes as [Hm Hs]. rewrite Hdata in Hm, Hs. fold keyed in Hm, Hs.
  destruct (partition_keys_ok query_quantile num_partitions Hq) as (pivots & -> & Hpok & Hpl).
  replace (Z.to_nat num_partitions) with (S (length pivots)) by lia.
  destruct (scatter_partition_ok hash key_types orders pivots orders_key_types Hpok key_types_some es (map keyed rows) Hm Hs)
    as (st & streams & Hst & Hstr & Hsc).
  { apply Forall_forall. intros p (r & -> & Hr)%list_elem_of_fmap. by apply keyed_ok. }
  by exists st, pivots, (omap marked es), streams.
Qed.

(** The configuration of a machine. *)
Definition config_ok : Prop := 0 ≤ SFRAME_SORT_BUFFER_SIZE c < 2 ^ 63 ∧ 1 ≤ cpu_count c.

Theorem partitions_ok query_quantile sevents num_partitions : config_ok → 1 ≤ num_partitions →
  sum_of counted_size rows < 2 ^ 63 → quantiles_ok query_quantile → scatter_order h n idx values sevents →
  (∀ mevents sf, sort_by_partitions hash fuel c (Choices query_quantile sevents mevents) num_partitions types names idx orders = Ok sf →
    sorted_frame hash types rows names idx orders sf) ∧
  (∃ mevents sf, sort_by_partitions hash fuel c (Choices query_quantile sevents mevents) num_partitions types names idx orders = Ok sf).
Proof using input SL.
  intros [HB Hcpu] Hnp Hsum Hq Hes. unfold sort_by_partitions. cbn [Sort.query_quantile Sort.scatter_events Sort.merge_events].
  destruct (scatter_of_sort query_quantile num_partitions sevents Hnp Hq Hes) as (st & pivots & marks & streams & -> & Hpok & Hm & Hs & Hsc).
  cbn [mbind outcome_bind]. pose proof (chunks_of_sort pivots marks streams st Hm Hs Hsc) as Hchunks.
  pose proof (sizes_small pivots marks streams st Hs Hsc Hsum) as Hsizes.
  rewrite <- (so_names_length _ _ _ _ _ _ _ _ input) in Hchunks at 2.
  destruct (sort_and_merge_ok _ _ _ _ _ _ _ _ _ _ names _ _ Hchunks HB Hsizes (Z.to_nat (cpu_count c)) ltac:(lia)
    (so_names _ _ _ _ _ _ _ _ input) types_some (so_names_length _ _ _ _ _ _ _ _ input)) as [Hresult Hends].
  split; [|done]. intros mevents sf H. destruct (Hresult mevents sf H) as (w & -> & Hw & Hwn).
  rewrite (length_parts pivots marks streams st Hsc) in Hw. by apply (merged_frame pivots marks streams st).
Qed.

(** ** The sort *)

Lemma sort_types_ok : check_sort_types types idx = Ok ().
Proof using input.
  pose proof (so_types _ _ _ _ _ _ _ _ input) as H. clear input. induction H as [|i js (t & Ht & Hs) _ IH]; [done|].
  cbn [check_sort_types]. rewrite Ht. cbn [or_trap mbind outcome_bind]. by rewrite Hs.
Qed.

Lemma sort_rows_ok : ∃ num_rows, sort_num_rows h n idx = Ok num_rows.
Proof using input.
  pose proof (so_table _ _ _ _ _ _ _ _ input) as Ht. unfold sort_num_rows.
  destruct (denote_length h n _ Ht) as (l & -> & _). cbn [or_trap mbind outcome_bind]. destruct (l =? -1); [|by eexists].
  destruct (make_planner_node (New (op_project idx) [Old n]) h) as [[h' k]|] eqn:Hk; [|discriminate Hk]. cbn [or_trap mbind outcome_bind].
  rewrite (materialized h n types rows Ht rows_wide idx [] h' k); [by eexists|apply (so_some _ _ _ _ _ _ _ _ input)| |done].
  rewrite app_nil_r. apply sort_columns_range.
Qed.

Theorem sort_ok query_quantile sevents : config_ok → sum_of counted_size rows < 2 ^ 63 →
  quantiles_ok query_quantile → scatter_order h n idx values sevents →
  (∀ mevents sf, sort hash fuel c (Choices query_quantile sevents mevents) h n names idx orders = Ok sf →
    sorted_frame hash types rows names idx orders sf) ∧
  (∃ mevents sf, sort hash fuel c (Choices query_quantile sevents mevents) h n names idx orders = Ok sf).
Proof using input SL.
  intros Hc Hs Hq Hes. unfold sort. rewrite (denote_type _ _ _ (so_table _ _ _ _ _ _ _ _ input)). cbn [or_trap mbind outcome_bind fst].
  destruct sort_rows_ok as (num_rows & ->). cbn [mbind outcome_bind]. rewrite sort_types_ok. cbn [mbind outcome_bind].
  set (np := sort_num_partitions c num_rows (Z.of_nat num_columns)). destruct (Z.leb_spec np (cpu_count c)) as [Hle|Hgt].
  - destruct in_memory_ok as (sf & Hsf & Hok). rewrite Hsf. split; [by intros _ ? [= <-]|by exists [], sf].
  - apply partitions_ok; [done|destruct Hc; lia|done..].
Qed.
End sort.
End SortSpec.
