(* ===== verification/SortCorrectness.v ===== *)
(** The properties of the sort, one theorem per claim, with the concrete tables on which the
    hypotheses of a claim hold. *)
From stdpp Require Import sorting.
From S2P Require Import Prelude Float64 FlexType FlexOps QueryPlan QueryPlanSpec GroupBySpec SFrame SFrameSpec.
From S2P Require Import SortMerge Sort SortOrderSpec SortScatterSpec SortMergeSpec SortSpec.
Local Open Scope Z_scope.
Local Open Scope sframe_scope.

Module Sorting.
Import Float64 FlexType FlexOps SFrame SFrameSpec SortMerge Sort SortOrderSpec SortScatterSpec SortMergeSpec SortSpec.
Import QueryPlan(SoftAssign, soft_assign, heap, denote, infer_planner_node_type, infer_planner_node_length, planner_node, PNode, op_sframe_source).
Import QueryPlanSpec(fits, denote_type, denote_length).
Import GroupBySpec(bind_Ok).

Section sorting.
Context {SA : SoftAssign} {SS : StdSort} {SL : StdSortLaws} (hash : flexible_type → Z) (fuel : nat).


(** C12: the threads that sort the partitions stay within the buffer, but for one that sorts
    alone a partition that is larger; they are never stuck: until all have ended, one can go on
    that does not wait; and they end, after a number of steps that the partitions and the
    spurious wake-ups of threads that wait bound. *)
Theorem merging_ends B parts flags sizes orders order num_columns types names chunk outrow k w es st :
  chunks_ok hash fuel parts flags sizes orders order num_columns types chunk outrow →
  0 ≤ B < 2 ^ 63 → Forall (λ s, 0 ≤ s < 2 ^ 63) sizes →
  holds types (replicate (length parts) []) w → w_names w = names →
  merge_run hash fuel B parts flags sizes orders order num_columns es (merge_start k w) = Ok st →
  (mem_used st ≤ B ∨ ∃ t i rest, threads st !! t = Some (Writing i true rest) ∧ size sizes i = mem_used st ∧
    ∀ u j rest', u ≠ t → threads st !! u = Some (Writing j true rest') → size sizes j = 0) ∧
  (forallb is_finished (threads st) = true ∨ ∃ e st', spurious e = false ∧
    merge_step hash fuel B parts flags sizes orders order num_columns e st = Ok st') ∧
  Z.of_nat (length es) ≤ Z.of_nat k + sum_of (λ i, 6 + Z.of_nat (length (chunk i))) (seq 0 (length parts)) + 2 * Z.of_nat (spurious_count es).
Proof.
  intros Hch HB Hs Hh Hn Hrun.
  destruct (merge_run_ok _ _ _ _ _ _ _ _ _ _ _ _ _ Hch HB Hs es _ _ (merging_start B parts flags sizes types names chunk outrow HB k w Hh Hn) Hrun)
    as [[Hst Hm] Hlen].
  pose proof (measure_nonneg parts chunk st). rewrite measure_start in Hlen. split_and!; [by apply memory_alone| |unfold todo in Hlen; lia].
  destruct (forallb is_finished (threads st)) eqn:Hf; [by left|right]. by eapply merge_not_stuck.
Qed.

(** The comparison of rows by some columns is a strict weak order, as [std::sort] asks, on
    rows whose keys have types that can be sorted and no NaN: it is defined, asymmetric, and
    not being less is transitive. Missing values come first in columns that ascend; NaN is
    neither less nor greater than any double. *)
Theorem comparison_is_weak_order types cols orders : length orders = length cols →
  comparison_ok (keys_comparable types cols) (less_than_partial hash cols orders) ∧
  (∀ asc v, is_undefined v = false → compare_values hash asc FUndefined v = Ok (Some asc)) ∧
  (∀ asc b b', isnan b = true → compare_values hash asc (FFloat b) (FFloat b') = Ok None).
Proof.
  intros Hl. split_and!; [by apply comparator_ok|by intros asc []|].
  intros asc b b' Hb. unfold compare_values. cbn. destruct (flt_nan b b' (or_introl Hb)) as (-> & _ & ->). done.
Qed.

(** A sort by a column of a type without an order is an exception, for every plan of
    known length. *)
Theorem unsupported_types_throw c ch h n types rows names pre i post orders t :
  denote h n = Some (types, rows) → infer_planner_node_length h n ≠ Some (-1) →
  Forall (λ j, ∃ u, types !! j = Some u ∧ supported_type u = true) pre →
  types !! i = Some t → supported_type t = false →
  sort hash fuel c ch h n names (pre ++ i :: post) orders = Throw.
Proof.
  intros Ht Hl Hpre Hi Hs. unfold sort. rewrite (denote_type _ _ _ Ht). cbn [or_trap mbind outcome_bind fst].
  unfold sort_num_rows. destruct (denote_length h n _ Ht) as (l & Hlen & _). rewrite Hlen in Hl |- *. cbn [or_trap mbind outcome_bind].
  rewrite (proj2 (Z.eqb_neq l (-1))) by congruence. cbn [mbind outcome_bind].
  assert (check_sort_types types (pre ++ i :: post) = Throw) as ->; [|done]. clear -Hpre Hi Hs.
  induction Hpre as [|j pre (u & Hu & Hsu) _ IH]; cbn [app check_sort_types].
  - rewrite Hi. cbn [or_trap mbind outcome_bind]. by rewrite Hs.
  - rewrite Hu. cbn [or_trap mbind outcome_bind]. by rewrite Hsu.
Qed.
End sorting.

(** ** The claims at a concrete table *)

#[local] Instance an_assignment : SoftAssign :=
  soft_assignment_visitor (λ _, 0) (λ _, 0) (λ _, 0) (λ _, []) (λ _ _, []).

(** A [std::sort]: by insertion. *)
Fixpoint insert_by {A} (cmp : A → A → outcome bool) (x : A) (l : list A) : outcome (list A) :=
  match l with
  | [] => Ok [x]
  | y :: l =>
      lt ← cmp x y;
      if (lt : bool) then Ok (x :: y :: l) else l ← insert_by cmp x l; Ok (y :: l)
  end.

#[local] Instance insertion_sort : StdSort := λ A cmp,
  fix sort (l : list A) : outcome (list A) := match l with [] => Ok [] | x :: l => l ← sort l; insert_by cmp x l end.

Lemma insert_by_ok {A} (P : A → Prop) cmp x l : comparison_ok P cmp → P x → Forall P l → sorted cmp l →
  ∃ l', insert_by cmp x l = Ok l' ∧ l' ≡ₚ x :: l ∧ sorted cmp l'.
Proof.
  intros [Hd Ha Hn] Hx. induction l as [|y l IH]; intros HP Hs.
  { exists [x]. split_and!; [done..|]. repeat constructor. }
  apply Forall_cons in HP as [Hy HP]. apply StronglySorted_cons in Hs as [Hyl Hs]. cbn [insert_by].
  destruct (Hd x y Hx Hy) as [lt Hlt]. rewrite Hlt. cbn [mbind outcome_bind]. destruct lt.
  - eexists. split_and!; [done..|]. apply StronglySorted_cons. split; [|by apply StronglySorted_cons].
    constructor; [by apply Ha|]. rewrite Forall_forall in Hyl, HP |- *. intros z Hz. apply (Hn z y x); auto.
  - destruct (IH HP Hs) as (l' & -> & Hp & Hs'). cbn [mbind outcome_bind]. eexists. split_and!; [done|by rewrite Hp, Permutation_swap|].
    apply StronglySorted_cons. split; [|done]. rewrite Hp. by constructor.
Qed.

#[local] Instance insertion_sort_laws : StdSortLaws.
Proof.
  intros A P cmp l Hc. induction 1 as [|x l Hx Hl (l' & Hl' & Hp & Hs)].
  { exists []. split_and!; [done..|constructor]. }
  destruct (insert_by_ok P cmp x l' Hc Hx) as (l2 & H2 & Hp2 & Hs2); [by rewrite Hp|done|].
  exists l2. split_and!; [|by rewrite Hp2, Hp|done]. unfold std_sort, insertion_sort in *. by rewrite Hl'.
Qed.


(** A machine whose buffer is too small for the table. *)
Definition small_machine : sort_config := Config 100 8 1 (λ _, 0).



(** Two threads with a segment each, which do not fit into the buffer together: the second
    waits for the first. *)
Definition two_parts : list (list sort_row) := [[([FInt 2], []); ([FInt 1], [])]; [([FInt 3], [])]].
Definition two_chunks (i : nat) : list sort_row := match i with O => [([FInt 1], []); ([FInt 2], [])] | _ => [([FInt 3], [])] end.
Definition two_writer : frame_writer := Writer [[97]] [INTEGER] 2 [[[]; []]].
Definition two_steps : list merge_event := [Take 0; Take 1; Lock 0; Put 0; Lock 1]%nat.

Lemma two_chunks_ok : chunks_ok (λ _, 0) 1 two_parts [false; false] [60; 70] [true] [0%nat] 1 [INTEGER] two_chunks fst.
Proof.
  split; [done|done|by intros [|[|i]] p|by intros [|[|i]] H; [vm_compute; reflexivity..|cbn in H; lia]|].
  intros i r Hi Hr. exists r.1.
  assert (r ∈ ([([FInt 1], []); ([FInt 2], []); ([FInt 3], [])] : list sort_row)) as Hin.
  { destruct i as [|i]; cbn in Hr; set_solver. }
  clear -Hin. repeat (apply elem_of_cons in Hin as [->|Hin]; [split_and!; [done|done|]; apply (bool_decide_unpack _); vm_compute; exact I|]).
  by apply not_elem_of_nil in Hin.
Qed.

Lemma merging_ends_witness : ∃ st,
  merge_run (λ _, 0) 1 100 two_parts [false; false] [60; 70] [true] [0%nat] 1 two_steps (merge_start 2 two_writer) = Ok st ∧
  threads st !! 1%nat = Some (Waiting 1) ∧ mem_used st = 60 ∧
  ∃ e st', spurious e = false ∧ merge_step (λ _, 0) 1 100 two_parts [false; false] [60; 70] [true] [0%nat] 1 e st = Ok st'.
Proof.
  eexists. split; [vm_compute; reflexivity|]. split; [reflexivity|]. split; [reflexivity|].
  match goal with |- context [merge_step _ _ _ _ _ _ _ _ _ _ ?s] =>
    destruct (merging_ends (λ _, 0) 1 100 two_parts [false; false] [60; 70] [true] [0%nat] 1 [INTEGER] [[97]] two_chunks fst 2 two_writer two_steps s)
      as (_ & [Hf|H] & _); [exact two_chunks_ok|lia|repeat constructor; lia| |reflexivity|vm_compute; reflexivity|discriminate Hf|exact H] end.
  split; [reflexivity|reflexivity|reflexivity| |discriminate]. apply (bool_decide_unpack _). vm_compute. exact I.
Defined.

Lemma comparison_is_weak_order_witness :
  comparison_ok (keys_comparable [INTEGER; FLOAT] [1; 0]%nat) (less_than_partial (λ _, 0) [1; 0]%nat [true; false]).
Proof. apply (proj1 (comparison_is_weak_order (λ _, 0) [INTEGER; FLOAT] [1; 0]%nat [true; false] eq_refl)). Defined.

(** A column of vectors. *)
Definition vectors_plan : heap := {[ 0%nat := PNode (op_sframe_source [QueryPlan.SArray INTEGER [FInt 1]; QueryPlan.SArray VECTOR [FVec []]] 0 1) [] ]}.

Lemma unsupported_types_throw_witness :
  sort (λ _, 0) 1 small_machine (Choices (λ _, FUndefined) [] []) vectors_plan 0 [[97]; [98]] [0; 1]%nat [true; true] = Throw.
Proof.
  apply (unsupported_types_throw (λ _, 0) 1 small_machine _ vectors_plan 0 [INTEGER; VECTOR] [[FInt 1; FVec []]] _ [0]%nat 1%nat [] _ VECTOR).
  - vm_compute. reflexivity.
  - vm_compute. discriminate.
  - repeat constructor. exists INTEGER. split; reflexivity.
  - reflexivity.
  - reflexivity.
Defined.
End Sorting.
