(* ===== verification/Rolling.v ===== *)
(** Aggregates over a moving window (sframe/rolling_aggregate.cpp and rolling_aggregate.hpp), with
    the aggregators of group-by. *)
From S2P Require Import Prelude FlexType FlexOps SFrame GroupAggregate GroupBySpec.
Import FlexType FlexOps.
Import SFrame(sarray, SArray, sa_type, sa_data, sa_size, cut).
Import GroupAggregate(group_aggregate_value, support_type, set_input_type, full_window_aggregate).
Local Open Scope Z_scope.
Local Open Scope sframe_scope.

Module Rolling.

Definition clip (val lower upper : Z) : Z := Z.min upper (Z.max lower val).

Definition calculate_window_size (start end_ : Z) : Z :=
  if (start <? 0) && (0 <=? end_) then u64 (s64 (s64 (Z.abs start + end_) + 1))
  else u64 (s64 (Z.abs (s64 (end_ - start)) + 1)).

(** The loop of [has_min_observations]. *)
Fixpoint scan_observations (need_all : bool) (min_observations observations count : Z) (l : list flexible_type) : bool :=
  match l with
  | [] => need_all && (observations =? count)
  | x :: l =>
      if negb (is_undefined x) then
        let observations := u64 (observations + 1) in
        if negb need_all && (min_observations <=? observations) then true
        else scan_observations need_all min_observations observations (u64 (count + 1)) l
      else scan_observations need_all min_observations observations (u64 (count + 1)) l
  end.

Definition has_min_observations (min_observations : Z) (l : list flexible_type) : bool :=
  scan_observations (min_observations =? 2 ^ 64 - 1) min_observations 0 0 l.

(** [push_back] of a full circular buffer. *)
Definition push_back (x : flexible_type) (window_buf : list flexible_type) : list flexible_type := drop 1 window_buf ++ [x].

(** The lengths of the segments of [get_reader(num_segments)]. *)
Definition segment_lengths (num_segments n : nat) : list nat :=
  map (λ i, (S i * n) / num_segments - (i * n) / num_segments)%nat (seq 0 num_segments).

(** [seg_starts] and [seg_ranges]. *)
Fixpoint segment_ranges (window_start window_end : Z) (size running_length : nat) (lengths : list nat) : list (nat * nat * (Z * Z)) :=
  match lengths with
  | [] => []
  | len :: lengths =>
      let beg := clip (s64 (window_start + Z.of_nat running_length)) 0 (Z.of_nat size) in
      let next_length := (running_length + len)%nat in
      let end_ := clip (s64 (window_end + s64 (Z.of_nat next_length - 1))) 0 (Z.of_nat size) in
      (running_length, len, (beg, end_)) :: segment_ranges window_start window_end size next_length lengths
  end.

(** The rows that a [sarray_reader_buffer] has from [row_start] to [row_end]. *)
Definition buffered_rows (data : list flexible_type) (row_start row_end : Z) : list flexible_type :=
  drop (Z.to_nat row_start) (take (Z.to_nat row_end) data).

(** The window buffer is filled for the rows from [i] on. *)
Fixpoint fill_window (n : nat) (i : Z) (window_buf rows : list flexible_type) : list flexible_type * list flexible_type :=
  match n with
  | O => (window_buf, rows)
  | S n =>
      match rows with
      | x :: rest => if 0 <=? i then fill_window n (i + 1) (push_back x window_buf) rest else fill_window n (i + 1) window_buf rows
      | [] => fill_window n (i + 1) window_buf rows
      end
  end.

Section rolling.
(** The parameters of the aggregators. *)
Context (oob : Z → Z) (atof : list Z → Z) (hash : flexible_type → Z).

(** The value for the rows of a window. *)
Definition window_value (agg_op : group_aggregate_value) (check_num_observations : bool) (min_observations : Z)
    (window_buf : list flexible_type) : outcome flexible_type :=
  if check_num_observations && negb (has_min_observations min_observations window_buf) then Ok FUndefined
  else full_window_aggregate oob atof hash agg_op window_buf.

(** The rows of a segment; [second] is the end of the logical window. The first type of a value
    is that of the segment. *)
Fixpoint roll (agg_op : group_aggregate_value) (check_num_observations : bool) (min_observations : Z)
    (n : nat) (second : Z) (window_buf rows : list flexible_type) (returned_type : flex_type_enum) (out : list flexible_type)
    : outcome (flex_type_enum * list flexible_type) :=
  match n with
  | O => Ok (returned_type, out)
  | S n =>
      result ← window_value agg_op check_num_observations min_observations window_buf;
      let returned_type := if bool_decide (returned_type = UNDEFINED) then get_type result else returned_type in
      let second := second + 1 in
      match rows with
      | x :: rest =>
          if 0 <=? second
          then roll agg_op check_num_observations min_observations n second (push_back x window_buf) rest returned_type (out ++ [result])
          else roll agg_op check_num_observations min_observations n second (push_back FUndefined window_buf) rows returned_type (out ++ [result])
      | [] => roll agg_op check_num_observations min_observations n second (push_back FUndefined window_buf) rows returned_type (out ++ [result])
      end
  end.

(** The body of the parallel loop. *)
Definition roll_segment (agg_op : group_aggregate_value) (check_num_observations : bool) (min_observations : Z)
    (window_start window_end : Z) (total_window_size : nat) (data : list flexible_type) (segment : nat * nat * (Z * Z))
    : outcome (flex_type_enum * list flexible_type) :=
  let '(start, len, range) := segment in
  let window_buf := replicate total_window_size FUndefined in
  let buf_reader := buffered_rows data range.1 (range.2 + 1) in
  let first := window_start + Z.of_nat start in
  let second := window_end + Z.of_nat start in
  let '(window_buf, buf_reader) := fill_window (Z.to_nat (second - first + 1)) first window_buf buf_reader in
  roll agg_op check_num_observations min_observations len second window_buf buf_reader UNDEFINED [].

(** The types that the segments returned must not differ. *)
Fixpoint common_type (array_type : flex_type_enum) (types : list flex_type_enum) : outcome flex_type_enum :=
  match types with
  | [] => Ok array_type
  | i :: types =>
      if bool_decide (i ≠ array_type) && bool_decide (array_type ≠ UNDEFINED) && bool_decide (i ≠ UNDEFINED) then Throw
      else common_type (if bool_decide (i ≠ UNDEFINED) then i else array_type) types
  end.

(** [num_segments] is the number of processors. *)
Definition rolling_apply (num_segments : nat) (input : sarray) (agg_op : group_aggregate_value)
    (window_start window_end min_observations : Z) : outcome sarray :=
  if window_end <? window_start then Throw else
  if negb (support_type agg_op (sa_type input)) then Throw else
  agg ← set_input_type agg_op (sa_type input);
  let agg_op := agg.1 in
  let total_window_size := calculate_window_size window_start window_end in
  if 2 ^ 32 - 1 <? total_window_size then Throw else
  let check_num_observations := negb (min_observations =? 0) in
  let min_observations := if total_window_size <? min_observations then total_window_size else min_observations in
  if (num_segments =? 0)%nat then Throw else
  let lengths := segment_lengths num_segments (sa_size input) in
  segments ← outcome_map (roll_segment agg_op check_num_observations min_observations window_start window_end
                (Z.to_nat total_window_size) (sa_data input))
               (segment_ranges window_start window_end (sa_size input) 0 lengths);
  array_type ← common_type UNDEFINED (map fst segments);
  Ok (SArray array_type (map snd segments)).
End rolling.

End Rolling.
