(* ===== verification/RollingSpec.v ===== *)
(** A segment of the rolling aggregate sees, for each of its rows, the window around the row. *)
From S2P Require Import Prelude FlexType FlexOps SFrame GroupAggregate GroupBySpec Rolling.
Import FlexType FlexOps Rolling.
Import SFrame(sarray, SArray, sa_type, sa_data, sa_size, cut).
Import GroupAggregate(group_aggregate_value, support_type, set_input_type, full_window_aggregate).
Import GroupBySpec(bind_Ok).
Local Open Scope Z_scope.
Local Open Scope sframe_scope.

Module RollingSpec.

(** The value of a row, which is missing before the first row and after the last. *)
Definition value_at (data : list flexible_type) (i : Z) : flexible_type :=
  if 0 <=? i then default FUndefined (data !! Z.to_nat i) else FUndefined.

Definition window (data : list flexible_type) (lo : Z) (total : nat) : list flexible_type :=
  map (λ k, value_at data (lo + Z.of_nat k)) (seq 0 total).

(** The number of values of a window that are not missing. *)
Definition observations (l : list flexible_type) : Z := Z.of_nat (length (filter (λ x, is_undefined x = false) l)).

Lemma outcome_map_length {A B} (f : A → outcome B) l : ∀ vs, outcome_map f l = Ok vs → length vs = length l.
Proof.
  induction l as [|x l IH]; intros vs; cbn [outcome_map]; [by intros [= <-]|]. intros (v & _ & H)%bind_Ok.
  apply bind_Ok in H as (vs' & H & E). injection E as <-. cbn. f_equal. by apply IH.
Qed.

Lemma outcome_map_app_Ok {A B} (f : A → outcome B) l1 l2 : ∀ vs, outcome_map f (l1 ++ l2) = Ok vs → ∃ vs1 vs2,
  outcome_map f l1 = Ok vs1 ∧ outcome_map f l2 = Ok vs2 ∧ vs = vs1 ++ vs2.
Proof.
  induction l1 as [|x l1 IH]; intros vs; cbn [outcome_map app]; [by exists [], vs|]. intros (v & Hv & H)%bind_Ok.
  apply bind_Ok in H as (vs' & H & E). injection E as <-. destruct (IH vs' H) as (vs1 & vs2 & H1 & H2 & ->).
  exists (v :: vs1), vs2. by rewrite Hv, H1.
Qed.

Lemma outcome_map_ext {A B} (f g : A → outcome B) l : (∀ x, f x = g x) → outcome_map f l = outcome_map g l.
Proof. intros E. induction l as [|x l IH]; [done|]. cbn [outcome_map]. by rewrite E, IH. Qed.

(** ** Observations *)

Lemma observations_range l : 0 ≤ observations l ≤ Z.of_nat (length l).
Proof. unfold observations. pose proof (length_filter (λ x, is_undefined x = false) l). lia. Qed.

Lemma scan_ok m l : ∀ o c, 0 ≤ o → o < m → o + Z.of_nat (length l) < 2 ^ 64 →
  scan_observations false m o c l = (m <=? o + observations l).
Proof.
  induction l as [|x l IH]; intros o c Ho Hom Hl; cbn [scan_observations andb].
  - unfold observations. cbn. symmetry. apply Z.leb_gt. lia.
  - cbn [length] in Hl. unfold observations. rewrite filter_cons. pose proof (observations_range l) as Hr. destruct (is_undefined x) eqn:Ex; cbn [negb].
    + rewrite decide_False by done. apply IH; lia.
    + rewrite decide_True by done. rewrite uw_small by (unfold is_u; lia). cbn [length]. unfold observations in Hr. destruct (Z.leb_spec m (o + 1)).
      * symmetry. apply Z.leb_le. lia.
      * rewrite IH by lia. unfold observations. f_equal. lia.
Qed.

Lemma has_min_observations_ok m l : 0 < m < 2 ^ 64 - 1 → Z.of_nat (length l) < 2 ^ 64 →
  has_min_observations m l = (m <=? observations l).
Proof. intros Hm Hl. unfold has_min_observations. rewrite (proj2 (Z.eqb_neq m _)) by lia. by apply scan_ok; lia. Qed.

(** ** The buffer *)

(** A window of any values [f] moves by one. *)
Lemma push_moves (f : Z → flexible_type) lo total : (0 < total)%nat →
  push_back (f (lo + Z.of_nat total)) (map (λ k, f (lo + Z.of_nat k)) (seq 0 total)) = map (λ k, f (lo + 1 + Z.of_nat k)) (seq 0 total).
Proof.
  intros Ht. destruct total as [|t]; [lia|]. unfold push_back.
  transitivity (map (λ k, f (lo + 1 + Z.of_nat k)) (seq 0 t ++ [t])); [|by rewrite (seq_S t 0)]. cbn [seq map drop]. rewrite map_app. cbn [map]. f_equal.
  - rewrite <- seq_shift, map_map. apply map_ext. intros k. f_equal. lia.
  - do 2 f_equal. lia.
Qed.

Lemma push_window data lo total : (0 < total)%nat → push_back (value_at data (lo + Z.of_nat total)) (window data lo total) = window data (lo + 1) total.
Proof. intros Ht. by apply (push_moves (value_at data)). Qed.

Lemma rows_at (data : list flexible_type) re i : (i < re)%nat → (re ≤ length data)%nat →
  drop i (take re data) = value_at data (Z.of_nat i) :: drop (S i) (take re data).
Proof.
  intros Hi Hre. destruct (lookup_lt_is_Some_2 data i) as [x Hx]; [lia|]. unfold value_at.
  rewrite (proj2 (Z.leb_le _ _)) by lia. rewrite Nat2Z.id, Hx. cbn. apply drop_S. by rewrite lookup_take_lt.
Qed.

Section buffer.
Context (data : list flexible_type) (first : Z) (total re : nat).
Hypothesis Htotal : (0 < total)%nat.
Hypothesis Hre : (re ≤ length data)%nat.

(** The values from the start of the logical window on. *)
Definition from_first (x : Z) : flexible_type := if x <? Z.max 0 first then FUndefined else value_at data x.

Lemma fill_ok n : ∀ i, first ≤ i → i + Z.of_nat n ≤ Z.of_nat re →
  fill_window n i (map (λ k, from_first (i - Z.of_nat total + Z.of_nat k)) (seq 0 total)) (drop (Z.to_nat i) (take re data)) =
  (map (λ k, from_first (i + Z.of_nat n - Z.of_nat total + Z.of_nat k)) (seq 0 total), drop (Z.to_nat (i + Z.of_nat n)) (take re data)).
Proof using Htotal Hre.
  induction n as [|n IH]; intros i Hi Hn.
  { cbn [fill_window]. by rewrite Z.add_0_r. }
  replace (i + Z.of_nat (S n)) with (i + 1 + Z.of_nat n) in * by lia. rewrite <- IH by lia. clear IH. cbn [fill_window]. destruct (Z.leb_spec 0 i) as [H0|H0].
  - rewrite (rows_at data re (Z.to_nat i)) by lia. rewrite Z2Nat.id by lia. replace (S (Z.to_nat i)) with (Z.to_nat (i + 1)) by lia. f_equal.
    replace (value_at data i) with (from_first (i - Z.of_nat total + Z.of_nat total)).
    + rewrite push_moves by done. apply map_ext. intros k. f_equal. lia.
    + unfold from_first. replace (i - Z.of_nat total + Z.of_nat total) with i by lia. by rewrite (proj2 (Z.ltb_ge i _)) by lia.
  - replace (Z.to_nat (i + 1)) with 0%nat by lia. replace (Z.to_nat i) with 0%nat by lia.
    assert (map (λ k, from_first (i - Z.of_nat total + Z.of_nat k)) (seq 0 total) = map (λ k, from_first (i + 1 - Z.of_nat total + Z.of_nat k)) (seq 0 total)) as ->.
    { apply map_ext_in. intros k Hk%in_seq. unfold from_first. rewrite !(proj2 (Z.ltb_lt _ (Z.max 0 first))) by lia. done. }
    by destruct (drop 0 (take re data)).
Qed.

Lemma first_window : first + Z.of_nat total ≤ Z.of_nat re →
  fill_window total first (replicate total FUndefined) (drop (Z.to_nat first) (take re data)) =
  (window data first total, drop (Z.to_nat (first + Z.of_nat total)) (take re data)).
Proof using Htotal Hre.
  intros Hr. assert (replicate total FUndefined = map (λ k, from_first (first - Z.of_nat total + Z.of_nat k)) (seq 0 total)) as ->.
  { rewrite <- (map_const_seq FUndefined total 0). apply map_ext_in. intros k Hk%in_seq. unfold from_first.
    by rewrite (proj2 (Z.ltb_lt _ _)) by lia. }
  rewrite fill_ok by lia. f_equal. apply map_ext_in. intros k Hk%in_seq. unfold from_first, value_at.
  replace (first + Z.of_nat total - Z.of_nat total + Z.of_nat k) with (first + Z.of_nat k) by lia.
  destruct (Z.ltb_spec (first + Z.of_nat k) (Z.max 0 first)); [|done]. by rewrite (proj2 (Z.leb_gt _ _)) by lia.
Qed.
End buffer.

Section rolling.
Context (oob : Z → Z) (atof : list Z → Z) (hash : flexible_type → Z).
Context (agg_op : group_aggregate_value) (check : bool) (mo : Z).
Context (data : list flexible_type) (window_start window_end : Z) (total : nat).
Hypothesis Htotal : (0 < total)%nat.
Hypothesis Hend : window_end + 1 = window_start + Z.of_nat total.

Abbreviation value_of := (window_value oob atof hash agg_op check mo).

(** The type of the first value that has one. *)
Definition first_type : flex_type_enum → list flexible_type → flex_type_enum :=
  foldl (λ t v, if bool_decide (t = UNDEFINED) then get_type v else t).

Lemma roll_ok re len : ∀ p buf rows t out vs, (re ≤ length data)%nat →
  Z.min (Z.of_nat (length data)) (Z.of_nat (p + len) + window_end) ≤ Z.of_nat re →
  (len = 0%nat ∨ buf = window data (Z.of_nat p + window_start) total ∧ rows = drop (Z.to_nat (Z.of_nat p + window_end + 1)) (take re data)) →
  outcome_map (λ p, value_of (window data (Z.of_nat p + window_start) total)) (seq p len) = Ok vs →
  roll oob atof hash agg_op check mo len (window_end + Z.of_nat p) buf rows t out = Ok (first_type t vs, out ++ vs).
Proof using Htotal Hend.
  induction len as [|len IH]; intros p buf rows t out vs Hre Hmin Hstate Hvs.
  { injection Hvs as <-. by rewrite app_nil_r. }
  destruct Hstate as [?|[-> ->]]; [done|]. cbn [seq outcome_map] in Hvs.
  apply bind_Ok in Hvs as (v & Hv & Hvs). apply bind_Ok in Hvs as (vs' & Hvs & E). injection E as <-. cbn [roll]. rewrite Hv. cbn [mbind outcome_bind].
  set (t' := if bool_decide (t = UNDEFINED) then get_type v else t).
  replace (window_end + Z.of_nat p + 1) with (window_end + Z.of_nat (S p)) by lia. change (v :: vs') with ([v] ++ vs'). rewrite app_assoc.
  assert (first_type t ([v] ++ vs') = first_type t' vs') as -> by done.
  assert (∀ buf rows, (len = 0%nat ∨ buf = push_back (value_at data (window_end + Z.of_nat (S p))) (window data (Z.of_nat p + window_start) total) ∧
      rows = drop (Z.to_nat (window_end + Z.of_nat (S p) + 1)) (take re data)) →
    roll oob atof hash agg_op check mo len (window_end + Z.of_nat (S p)) buf rows t' (out ++ [v]) = Ok (first_type t' vs', (out ++ [v]) ++ vs')) as Hnext.
  { intros buf rows Hs. apply IH; [done|lia| |done]. destruct Hs as [?|[-> ->]]; [by left|right]. split.
    - replace (window_end + Z.of_nat (S p)) with (Z.of_nat p + window_start + Z.of_nat total) by lia. rewrite push_window by done. f_equal. lia.
    - do 2 f_equal. lia. }
  set (q := window_end + Z.of_nat (S p)) in *. replace (Z.of_nat p + window_end + 1) with q by lia.
  destruct (Z.leb_spec 0 q) as [Hq|Hq].
  - destruct (decide (q < Z.of_nat re)) as [Hlt|Hge].
    + rewrite (rows_at data re (Z.to_nat q)) by lia. rewrite Z2Nat.id by lia. apply Hnext. right. split; [done|]. f_equal. lia.
    + rewrite (drop_ge _ (Z.to_nat q)) by (rewrite length_take; lia). apply Hnext. destruct len as [|len]; [by left|right]. split.
      * f_equal. unfold value_at. rewrite (proj2 (Z.leb_le 0 q)) by done. by rewrite lookup_ge_None_2 by lia.
      * by rewrite drop_ge by (rewrite length_take; lia).
  - assert (value_at data q = FUndefined) as Hu by (unfold value_at; by rewrite (proj2 (Z.leb_gt 0 q)) by done).
    assert (∀ rows, rows = drop (Z.to_nat q) (take re data) → roll oob atof hash agg_op check mo len q (push_back FUndefined (window data (Z.of_nat p + window_start) total)) rows t' (out ++ [v]) =
      Ok (first_type t' vs', (out ++ [v]) ++ vs')) as Hgo.
    { intros rows ->. apply Hnext. right. split; [by rewrite Hu|]. by replace (Z.to_nat (q + 1)) with (Z.to_nat q) by lia. }
    destruct (drop (Z.to_nat q) (take re data)) as [|x rest] eqn:E; apply Hgo; by rewrite ?E.
Qed.

(** Sizes for which no sum overflows. *)
Hypothesis Hsmall : - 2 ^ 62 ≤ window_start ∧ window_end ≤ 2 ^ 62 ∧ Z.of_nat (length data) < 2 ^ 62.

Lemma roll_segment_ok start len vs : (0 < len)%nat → (start + len ≤ length data)%nat → Z.of_nat start + window_end < Z.of_nat (length data) →
  outcome_map (λ p, value_of (window data (Z.of_nat p + window_start) total)) (seq start len) = Ok vs →
  roll_segment oob atof hash agg_op check mo window_start window_end total data
    (start, len, (clip (s64 (window_start + Z.of_nat start)) 0 (Z.of_nat (length data)),
                  clip (s64 (window_end + s64 (Z.of_nat (start + len) - 1))) 0 (Z.of_nat (length data)))) = Ok (first_type UNDEFINED vs, vs).
Proof using Htotal Hend Hsmall.
  intros Hlen Hle Hfits Hvs. unfold roll_segment. cbn [fst snd].
  rewrite !(sw_small (_ + Z.of_nat start)), !(sw_small (Z.of_nat (start + len) - 1)), !(sw_small (_ + (_ - 1))) by (unfold is_s64; lia).
  replace (window_end + Z.of_nat start - (window_start + Z.of_nat start) + 1) with (Z.of_nat total) by lia. rewrite Nat2Z.id.
  unfold buffered_rows, clip. set (re := Nat.min (length data) (Z.to_nat (Z.min (Z.of_nat (length data)) (Z.max 0 (window_end + (Z.of_nat (start + len) - 1))) + 1))).
  assert (take (Z.to_nat (Z.min (Z.of_nat (length data)) (Z.max 0 (window_end + (Z.of_nat (start + len) - 1))) + 1)) data = take re data) as ->.
  { unfold re. destruct (Nat.le_ge_cases (length data) (Z.to_nat (Z.min (Z.of_nat (length data)) (Z.max 0 (window_end + (Z.of_nat (start + len) - 1))) + 1))).
    - rewrite Nat.min_l by done. by rewrite !take_ge by lia.
    - by rewrite Nat.min_r. }
  assert (Z.min (Z.of_nat (length data)) (Z.of_nat (start + len) + window_end) ≤ Z.of_nat re) as Hmin by lia.
  replace (Z.to_nat (Z.min (Z.of_nat (length data)) (Z.max 0 (window_start + Z.of_nat start)))) with (Z.to_nat (window_start + Z.of_nat start)) by lia.
  rewrite (first_window data (window_start + Z.of_nat start) total re) by lia.
  rewrite (roll_ok re len start _ _ UNDEFINED [] vs); [done|lia|done| |done].
  right. split; [f_equal; lia|]. do 2 f_equal. lia.
Qed.

Lemma empty_segment_ok start range : roll_segment oob atof hash agg_op check mo window_start window_end total data (start, 0%nat, range) = Ok (UNDEFINED, []).
Proof using Type. clear. unfold roll_segment. by destruct (fill_window _ _ _ _). Qed.

(** All segments. *)
Lemma segments_ok lengths : ∀ start vs, (start + sum_list lengths = length data)%nat →
  Forall (λ seg, (0 < seg.1.2)%nat → Z.of_nat seg.1.1 + window_end < Z.of_nat (length data)) (segment_ranges window_start window_end (length data) start lengths) →
  outcome_map (λ p, value_of (window data (Z.of_nat p + window_start) total)) (seq start (sum_list lengths)) = Ok vs →
  outcome_map (roll_segment oob atof hash agg_op check mo window_start window_end total data)
    (segment_ranges window_start window_end (length data) start lengths) = Ok (map (λ l, (first_type UNDEFINED l, l)) (cut lengths vs)).
Proof using Htotal Hend Hsmall.
  induction lengths as [|len lengths IH]; intros start vs Hsum Hfits Hvs; [done|]. cbn [sum_list segment_ranges] in *.
  change (sum_list_with id lengths) with (sum_list lengths) in *. cbn [id] in *. apply Forall_cons in Hfits as [Hf Hfits]. cbn [fst snd] in Hf.
  rewrite seq_app in Hvs. destruct (outcome_map_app_Ok _ _ _ _ Hvs) as (vs1 & vs2 & H1 & H2 & ->).
  pose proof (outcome_map_length _ _ _ H1) as Hl1. rewrite length_seq in Hl1. cbn [outcome_map cut].
  assert (roll_segment oob atof hash agg_op check mo window_start window_end total data
    (start, len, (clip (s64 (window_start + Z.of_nat start)) 0 (Z.of_nat (length data)),
                  clip (s64 (window_end + s64 (Z.of_nat (start + len) - 1))) 0 (Z.of_nat (length data)))) = Ok (first_type UNDEFINED vs1, vs1)) as ->.
  { destruct len as [|len]; [|apply roll_segment_ok; [lia|lia|apply Hf; lia|done]]. injection H1 as <-. apply empty_segment_ok. }
  cbn [mbind outcome_bind]. rewrite (IH (start + len)%nat vs2); [|lia|done|done]. cbn [mbind outcome_bind map].
  by rewrite take_app_length', drop_app_length' by done.
Qed.
End rolling.

End RollingSpec.
