(* ===== verification/RollingCorrectness.v ===== *)
(** The property of the rolling aggregate, with a concrete array on which its hypotheses hold. *)
From S2P Require Import Prelude FlexType FlexOps SFrame GroupAggregate GroupBySpec JoinGraceSpec Rolling RollingSpec.
Local Open Scope Z_scope.
Local Open Scope sframe_scope.

Module Windows.
Import FlexType FlexOps Rolling RollingSpec.
Import SFrame(sarray, SArray, sa_type, sa_data, sa_size, sa_segments, cut).
Import JoinPartitionSpec(length_cut, concat_cut) JoinGraceSpec(Forall_cut).
Import GroupAggregate(group_aggregate_value, support_type, set_input_type, full_window_aggregate).

Section windows.
Context (oob : Z → Z) (atof : list Z → Z) (hash : flexible_type → Z).

Lemma lengths_sum k n : (0 < k)%nat → sum_list (segment_lengths k n) = n.
Proof.
  intros Hk. unfold segment_lengths.
  assert (∀ m, sum_list (map (λ i, (S i * n) / k - i * n / k)%nat (seq 0 m)) = (m * n / k)%nat) as Hs.
  { induction m as [|m IH]; [by rewrite Nat.mul_0_l, Nat.Div0.div_0_l|]. rewrite seq_S, map_app, sum_list_with_app. cbn [map].
    change (sum_list_with id) with sum_list. rewrite IH. cbn [sum_list sum_list_with id Nat.add].
    assert (m * n / k ≤ S m * n / k)%nat by (apply Nat.Div0.div_le_mono; lia). lia. }
  rewrite Hs, Nat.mul_comm. apply Nat.div_mul. lia.
Qed.

Lemma window_size_ok ws we : - 2 ^ 62 ≤ ws → we ≤ 2 ^ 62 → ws ≤ we → we - ws < 2 ^ 32 - 1 → calculate_window_size ws we = we - ws + 1.
Proof.
  intros H1 H2 H3 H4. unfold calculate_window_size. destruct (Z.ltb_spec ws 0), (Z.leb_spec 0 we); cbn [andb];
    rewrite ?(sw_small (Z.abs ws + we)), ?(sw_small (we - ws)) by (unfold is_s64; lia);
    rewrite sw_small by (unfold is_s64; lia); rewrite uw_small by (unfold is_u; lia); lia.
Qed.

(** Values whose types are a type or missing. *)
Definition typed_as (T t : flex_type_enum) : Prop := t = UNDEFINED ∨ t = T.

Lemma first_type_ok T vs : Forall (λ v, typed_as T (get_type v)) vs → ∀ t, typed_as T t →
  typed_as T (first_type t vs) ∧ (first_type t vs = UNDEFINED → t = UNDEFINED ∧ Forall (λ v, get_type v = UNDEFINED) vs).
Proof.
  unfold first_type. induction 1 as [|v vs Hv Hvs IH]; intros t Ht; [done|]. cbn [foldl]. case_bool_decide as Hu.
  - destruct (IH _ Hv) as [H1 H2]. split; [done|]. intros E. destruct (H2 E). auto.
  - destruct (IH _ Ht) as [H1 H2]. split; [done|]. intros E. by destruct (H2 E).
Qed.

Lemma common_type_ok T types : Forall (typed_as T) types → ∀ t, typed_as T t → ∃ r, common_type t types = Ok r ∧ typed_as T r ∧
  (r = UNDEFINED → t = UNDEFINED ∧ Forall (λ i, i = UNDEFINED) types).
Proof.
  induction 1 as [|i types Hi Ht IH]; intros t Hty; [by exists t|]. cbn [common_type].
  destruct (decide (i = UNDEFINED)) as [->|Hne].
  - rewrite (bool_decide_eq_false_2 (UNDEFINED ≠ UNDEFINED)), andb_false_r by tauto. destruct (IH t Hty) as (r & -> & H1 & H2). exists r. split_and!; [done..|].
    intros Er. destruct (H2 Er). auto.
  - rewrite (bool_decide_eq_true_2 (i ≠ UNDEFINED)), andb_true_r by done. destruct Hi as [?|Hi]; [done|]. subst i.
    rewrite (proj2 (andb_false_iff _ _)).
    + destruct (IH T) as (r & -> & H1 & H2); [by right|]. exists r. split_and!; [done..|]. intros Er. by destruct (H2 Er).
    + destruct Hty as [-> | ->]; [right|left]; by apply bool_decide_eq_false_2; intros [].
Qed.

(** What a row gets: a missing value if its window has not enough observations, or the aggregate
    of the window. *)
Definition rolling_value (agg_op : group_aggregate_value) (min_observations : Z) (w : list flexible_type) : outcome flexible_type :=
  if (min_observations =? 0) || (Z.min min_observations (Z.of_nat (length w)) <=? observations w)
  then full_window_aggregate oob atof hash agg_op w else Ok FUndefined.

(** C17: each row of the result of [rolling_apply] is the aggregate of the window of rows around
    it, in which rows before the first and after the last are missing, or missing itself if the
    window has too few values: whatever the number of segments, as long as the window of the
    first row of each segment ends before the end of the array. *)
Theorem rolling_is_windowed num_segments input agg_op ws we min_observations agg t T vs :
  let n := Z.of_nat (length (sa_data input)) in
  let total := Z.to_nat (we - ws + 1) in
  (0 < num_segments)%nat → - 2 ^ 62 ≤ ws → we ≤ 2 ^ 62 → ws ≤ we → we - ws < 2 ^ 32 - 1 → n < 2 ^ 62 → 0 ≤ min_observations < 2 ^ 64 →
  support_type agg_op (sa_type input) = true → set_input_type agg_op (sa_type input) = Ok (agg, t) →
  Forall (λ seg, (0 < seg.1.2)%nat → Z.of_nat seg.1.1 + we < n)
    (segment_ranges ws we (sa_size input) 0 (segment_lengths num_segments (sa_size input))) →
  outcome_map (λ p, rolling_value agg min_observations (window (sa_data input) (Z.of_nat p + ws) total)) (seq 0 (sa_size input)) = Ok vs →
  Forall (λ v, typed_as T (get_type v)) vs →
  ∃ ty segs, rolling_apply oob atof hash num_segments input agg_op ws we min_observations = Ok (SArray ty segs) ∧
    concat segs = vs ∧ length segs = num_segments ∧ Forall (λ v, typed_as ty (get_type v)) vs.
Proof.
  intros n total Hk Hws Hwe Hle Htot Hn Hmo Hsup Hset Hfits Hvs HT. unfold rolling_apply.
  rewrite (proj2 (Z.ltb_ge we ws)) by lia. rewrite Hsup, Hset. cbn [negb mbind outcome_bind fst].
  rewrite window_size_ok by done. rewrite (proj2 (Z.ltb_ge (2 ^ 32 - 1) _)) by lia. fold total.
  rewrite (proj2 (Nat.eqb_neq num_segments 0)) by lia.
  set (mo := if we - ws + 1 <? min_observations then we - ws + 1 else min_observations).
  assert (mo = Z.min min_observations (we - ws + 1)) as Hmin by (unfold mo; destruct (Z.ltb_spec (we - ws + 1) min_observations); lia).
  assert (∀ w, length w = total → rolling_value agg min_observations w = window_value oob atof hash agg (negb (min_observations =? 0)) mo w) as Hval.
  { intros w Hw. unfold rolling_value, window_value. rewrite Hw. destruct (Z.eqb_spec min_observations 0); cbn [negb orb andb]; [done|].
    rewrite has_min_observations_ok by lia. replace (Z.of_nat total) with (we - ws + 1) by lia. rewrite <- Hmin. by destruct (mo <=? observations w). }
  unfold sa_size in *. rewrite (outcome_map_ext _ (λ p, window_value oob atof hash agg (negb (min_observations =? 0)) mo (window (sa_data input) (Z.of_nat p + ws) total))) in Hvs
    by (intros p; apply Hval; unfold window; by rewrite length_map, length_seq).
  set (lengths := segment_lengths num_segments (length (sa_data input))) in *.
  assert (sum_list lengths = length (sa_data input)) as Hsum by by apply lengths_sum.
  rewrite (segments_ok oob atof hash agg _ mo (sa_data input) ws we total ltac:(lia) ltac:(lia) ltac:(lia) lengths 0 vs); [|lia|done|by rewrite Hsum].
  cbn [mbind outcome_bind]. rewrite !map_map. cbn [fst snd]. rewrite map_id. change (map (λ l, first_type UNDEFINED l)) with (map (first_type UNDEFINED)).
  pose proof (outcome_map_length _ _ _ Hvs) as Hl. rewrite length_seq in Hl.
  assert (Forall (Forall (λ v, typed_as T (get_type v))) (cut lengths vs)) as HT' by by apply Forall_cut.
  destruct (common_type_ok T (map (first_type UNDEFINED) (cut lengths vs))) with (t := UNDEFINED) as (r & -> & Hr & Hu); [|by left|].
  { apply Forall_map. eapply Forall_impl; [exact HT'|]. intros l Hl'. apply first_type_ok; [done|by left]. }
  cbn [mbind outcome_bind]. exists r, (cut lengths vs). split; [done|]. split_and!.
  - rewrite concat_cut, Hsum, <- Hl. by rewrite firstn_all.
  - rewrite length_cut. unfold lengths, segment_lengths. by rewrite length_map, length_seq.
  - destruct Hr as [-> | ->]; [|done]. destruct (Hu eq_refl) as [_ Hall]. rewrite <- (firstn_all vs), Hl, <- Hsum, <- concat_cut. apply Forall_concat.
    apply Forall_map in Hall. rewrite Forall_forall in HT', Hall |- *. intros l Hin. specialize (Hall l Hin). specialize (HT' l Hin).
    destruct (first_type_ok T l HT' UNDEFINED) as [_ H2]; [by left|]. destruct (H2 Hall) as [_ H3]. eapply Forall_impl; [exact H3|]. by left.
Qed.
End windows.

Definition four : sarray := SArray INTEGER [[FInt 1; FInt 2]; [FInt 3; FInt 4]].
Definition ten : sarray := SArray INTEGER [map FInt [1; 2; 3; 4; 5; 6; 7; 8; 9; 10]].

Lemma rolling_is_windowed_witness : ∃ ty segs,
  rolling_apply (λ _, 0) (λ _, 0) (λ _, 0) 2 four (GroupAggregate.sum (FInt 0)) (-1) 0 2 = Ok (SArray ty segs) ∧
  concat segs = [FUndefined; FInt 3; FInt 5; FInt 7].
Proof.
  destruct (rolling_is_windowed (λ _, 0) (λ _, 0) (λ _, 0) 2 four (GroupAggregate.sum (FInt 0)) (-1) 0 2
    (GroupAggregate.sum (FInt 0)) INTEGER INTEGER [FUndefined; FInt 3; FInt 5; FInt 7]) as (ty & segs & E & Hc & _).
  - lia.
  - lia.
  - lia.
  - lia.
  - lia.
  - vm_compute. reflexivity.
  - lia.
  - reflexivity.
  - reflexivity.
  - apply (bool_decide_unpack _). vm_compute. exact I.
  - vm_compute. reflexivity.
  - apply Forall_cons; split; [left; reflexivity|]. do 3 (apply Forall_cons; split; [right; reflexivity|]). apply Forall_nil; exact I.
  - exists ty, segs. split; [exact E|exact Hc].
Defined.

(** When the window of the first row of a segment ends past the end of the array, the windows of
    its next rows start too early: with two segments, row 6 gets the sum of rows 5 to 9. *)
Lemma windows_start_too_early :
  (sa_data <$> rolling_apply (λ _, 0) (λ _, 0) (λ _, 0) 1 ten (GroupAggregate.sum (FInt 0)) 0 5 0) =
    Ok (map FInt [21; 27; 33; 39; 45; 40; 34; 27; 19; 10]) ∧
  (sa_data <$> rolling_apply (λ _, 0) (λ _, 0) (λ _, 0) 2 ten (GroupAggregate.sum (FInt 0)) 0 5 0) =
    Ok (map FInt [21; 27; 33; 39; 45; 40; 40; 34; 27; 19]).
Proof. split; vm_compute; reflexivity. Qed.
End Windows.
