(* ===== verification/Hash.v ===== *)
(** The hashes of integers (util/cityhash_gl.hpp), on 64-bit words; a 128-bit integer is the pair
    of its high and its low word.

    The hashes of integers are compositions of bijections of words. *)
From S2P Require Import Prelude.
Local Open Scope Z_scope.
Local Open Scope sframe_scope.

Module Hash.

(** [x *= y] and [x ^= x >> r]. *)
Definition times (m x : Z) : Z := u64 (x * m).
Definition xorshift (r x : Z) : Z := x .^ (x ≫ r).

(** [k0]. *)
Definition k0 : Z := 0xc3a5c85c97cb3127.

Definition Rotate (val shift : Z) : Z :=
  if shift =? 0 then val else (val ≫ shift) .| u64 (val ≪ (64 - shift)).

Definition SimpleIntegerHash64 (s : Z) : Z :=
  let m := 0xc6a4a7935bd1e995 in
  let r := 47 in
  let k := s .^ k0 in
  let k := times m k in
  let k := xorshift r k in
  times m k.

(** A [local_uint128] is the pair of [first] and [second]. *)
Definition SimpleIntegerHash128_of (s1 s2 : Z) : Z * Z :=
  let m := 0xc6a4a7935bd1e995 in
  let r := 47 in
  let first := times m (xorshift r (times m s1)) in
  let second := times m (xorshift r (times m s2)) in
  let second := second .^ first in
  (first, times m second).

Definition SimpleIntegerHash128 (s : Z) : Z * Z :=
  SimpleIntegerHash128_of s (0x6e626e7774e95a48 .^ s).

Definition c1 : Z := 0x87c37b91114253d5.
Definition c2 : Z := 0x4cf5ad432745937f.

Definition Murmor3MixRoutine64 (x y seed : Z) : Z * Z :=
  let h1 := seed in
  let h2 := seed in
  let x := times c2 (Rotate (times c1 x) 31) in
  let h1 := h1 .^ x in
  let h1 := Rotate h1 27 in
  let h1 := u64 (h1 + h2) in
  let h1 := u64 (h1 * 5 + 0x52dce729) in
  let y := times c1 (Rotate (times c2 y) 33) in
  let h2 := h2 .^ y in
  let h2 := Rotate h2 31 in
  let h2 := u64 (h2 + h1) in
  let h2 := u64 (h2 * 5 + 0x38495ab5) in
  (h1, h2).

(** The rotation of the last word is assigned to the argument [y], which is not used again. *)
Definition Murmor3MixRoutine128 (x y : Z * Z) (seed : Z) : Z * Z :=
  let '(h1, h2) := Murmor3MixRoutine64 x.1 x.2 seed in
  let y1 := times c2 (Rotate (times c1 y.1) 31) in
  let h1 := h1 .^ y1 in
  let h1 := Rotate h1 27 in
  let h1 := u64 (h1 + h2) in
  let h1 := u64 (h1 * 5 + 0x52dce729) in
  let y2 := times c1 (times c2 y.2) in
  let h2 := h2 .^ y2 in
  let h2 := Rotate h2 31 in
  let h2 := u64 (h2 + h1) in
  let h2 := u64 (h2 * 5 + 0x38495ab5) in
  (h1, h2).

(** [uint128_t(r.second) << 64 + r.first]. *)
Definition uint128_of (r : Z * Z) : Z * Z := (r.2, r.1).

(** ** The overloads of [hash128] and [hash64] *)

Definition hash128_uint128 (v : Z * Z) : Z * Z := uint128_of (Murmor3MixRoutine64 v.1 v.2 0x8f84e92c0587b7e3).
Definition hash128 (v : Z) : Z * Z := uint128_of (SimpleIntegerHash128 v).
Definition hash64 (v : Z) : Z := SimpleIntegerHash64 v.
Definition hash64_of_two (v1 v2 : Z) : Z :=
  let r := Murmor3MixRoutine64 v1 v2 0x9fa35c8d77b96328 in r.1 .^ r.2.
Definition hash64_of_three (v1 v2 v3 : Z) : Z := hash64_of_two v1 (hash64_of_two v2 v3).
Definition hash64_uint128 (v : Z * Z) : Z :=
  let r := Murmor3MixRoutine64 v.1 v.2 0xf52ef6f00df6f718 in r.1 .^ r.2.

Definition hash128_combine (h1 h2 : Z * Z) : Z * Z := uint128_of (Murmor3MixRoutine128 h1 h2 0x5b73ff027f14f66a).
Definition hash128_update {T} (hash128_t : T → Z * Z) (h : Z * Z) (v : T) : Z * Z := hash128_combine h (hash128_t v).

Definition hash64_combine (h1 h2 : Z) : Z :=
  let r := Murmor3MixRoutine64 h1 h2 0x73a3916ae45d01e5 in r.1 .^ r.2.
Definition hash64_update {T} (hash64_t : T → Z) (h1 : Z) (t : T) : Z := hash64_combine h1 (hash64_t t).

(** The hash of a vector of strings, over the hash of a string. *)
Definition hash128_strings (hash128_string : list Z → Z * Z) (v : list (list Z)) : Z * Z :=
  foldl (hash128_update hash128_string) (hash128 (u64 (Z.of_nat (length v)))) v.
Definition hash64_strings (hash64_string : list Z → Z) (v : list (list Z)) : Z :=
  foldl (hash64_update hash64_string) (hash64 (u64 (Z.of_nat (length v)))) v.

Definition simple_random_mapping (index seed : Z) : Z :=
  let r := SimpleIntegerHash128_of index seed in
  let h := r.1 .^ r.2 in
  u32 (h .^ (h ≫ 32)).

Definition index_hash (idx : Z) : Z :=
  let m3_final_1 := 0xff51afd7ed558ccd in
  let m3_final_2 := 0xc4ceb9fe1a85ec53 in
  let r := 33 in
  let h := idx in
  let h := xorshift r h in
  let h := times m3_final_1 h in
  let h := xorshift r h in
  let h := times m3_final_2 h in
  xorshift r h.

Definition reverse_index_hash (idx : Z) : Z :=
  let m3_final_1_inv := 0x4f74430c22a54005 in
  let m3_final_2_inv := 0x9cb4b2f8129337db in
  let r := 33 in
  let h := idx in
  let h := xorshift r h in
  let h := times m3_final_2_inv h in
  let h := xorshift r h in
  let h := times m3_final_1_inv h in
  xorshift r h.

End Hash.

Import Hash.

Module HashSpec.

(** [f] is a bijection of the 64-bit words, and [g] its inverse. *)
Class Inverse (f g : Z → Z) : Prop := {
  inv_range x : is_u64 x → is_u64 (f x);
  inv_range' x : is_u64 x → is_u64 (g x);
  inv_left x : is_u64 x → g (f x) = x;
  inv_right x : is_u64 x → f (g x) = x;
}.

Lemma inverse_sym f g : Inverse f g → Inverse g f.
Proof. intros []. by split. Qed.

Lemma inverse_compose f g f' g' : Inverse f g → Inverse f' g' → Inverse (λ x, f' (f x)) (λ x, g (g' x)).
Proof. intros [A B C D] [A' B' C' D']. split; intros x Hx; auto; [by rewrite C' by auto; auto|by rewrite D by auto; auto]. Qed.

Lemma inverse_inj f g x y : Inverse f g → is_u64 x → is_u64 y → f x = f y → x = y.
Proof. intros [_ _ C _] Hx Hy E. by rewrite <- (C x), <- (C y), E by done. Qed.

Lemma u64_bits_ext x y : is_u64 x → is_u64 y → (∀ i, 0 ≤ i < 64 → Z.testbit x i = Z.testbit y i) → x = y.
Proof.
  intros Hx Hy E. apply Z.bits_inj'. intros i Hi. destruct (decide (i < 64)); [by apply E|].
  by rewrite (testbit_above 64 x), (testbit_above 64 y) by (done || lia).
Qed.

Lemma lxor_range x y : is_u64 x → is_u64 y → is_u64 (x .^ y).
Proof.
  intros Hx Hy. assert (0 ≤ x .^ y) by (apply Z.lxor_nonneg; unfold is_u in *; lia).
  split; [done|]. apply pow2_above_bits; [lia|done|]. intros i Hi.
  by rewrite Z.lxor_spec, (testbit_above 64 x), (testbit_above 64 y) by (done || lia).
Qed.

Lemma shiftr_range x r : 0 ≤ r → is_u64 x → is_u64 (x ≫ r).
Proof.
  intros Hr Hx. unfold is_u in *. rewrite Z.shiftr_div_pow2 by done.
  assert (0 < 2 ^ r) by lia. split; [apply Z.div_pos; lia|]. apply (Z.le_lt_trans _ x); [|lia].
  apply Z.div_le_upper_bound; [done|]. nia.
Qed.

#[export] Hint Resolve lxor_range shiftr_range : hash.

(** *** The steps *)

#[export] Instance xor_inverse c : is_u64 c → Inverse (λ x, x .^ c) (λ x, x .^ c).
Proof.
  intros Hc. split; intros x Hx; auto with hash; by rewrite Z.lxor_assoc, Z.lxor_nilpotent, Z.lxor_0_r.
Qed.

Lemma times_inverse m m' : u64 (m * m') = 1 → Inverse (times m) (times m').
Proof.
  intros H. unfold times. split; intros x Hx; try (apply uw_range; lia).
  - unfold uw in *. rewrite Zmult_mod_idemp_l, <- Z.mul_assoc, <- Zmult_mod_idemp_r, H, Z.mul_1_r. by apply Z.mod_small.
  - unfold uw in *. rewrite Zmult_mod_idemp_l, <- Z.mul_assoc, <- Zmult_mod_idemp_r, (Z.mul_comm m'), H, Z.mul_1_r. by apply Z.mod_small.
Qed.

(** Shifting by at least half of the word twice leaves nothing. *)
Lemma xorshift_inverse r : 32 ≤ r → Inverse (xorshift r) (xorshift r).
Proof.
  intros Hr. assert (∀ x, is_u64 x → is_u64 (xorshift r x)) as Hrange by (intros x Hx; unfold xorshift; auto with hash lia).
  assert (∀ x, is_u64 x → xorshift r (xorshift r x) = x); [|by split].
  intros x Hx. apply u64_bits_ext; [auto..|]. intros i Hi. unfold xorshift.
  rewrite Z.lxor_spec, Z.shiftr_spec, !Z.lxor_spec, !Z.shiftr_spec by lia.
  rewrite (testbit_above 64 x (i + r + r)) by (done || lia). by destruct (Z.testbit x i), (Z.testbit x (i + r)).
Qed.

Lemma Rotate_bit val s i : 0 < s < 64 → is_u64 val → 0 ≤ i < 64 → Z.testbit (Rotate val s) i = Z.testbit val ((i + s) mod 64).
Proof.
  intros Hs Hv Hi. unfold Rotate. rewrite (proj2 (Z.eqb_neq s 0)) by lia. rewrite Z.lor_spec, Z.shiftr_spec by lia. unfold uw.
  rewrite Z.mod_pow2_bits_low by lia. destruct (decide (i + s < 64)).
  - rewrite Z.shiftl_spec_low, orb_false_r by lia. by rewrite Z.mod_small by lia.
  - rewrite (testbit_above 64 val (i + s)) by (done || lia). rewrite Z.shiftl_spec by lia. cbn [orb]. f_equal.
    apply (Z.mod_unique _ _ 1); lia.
Qed.

Lemma Rotate_range val s : 0 < s < 64 → is_u64 val → is_u64 (Rotate val s).
Proof.
  intros Hs Hv. unfold Rotate. rewrite (proj2 (Z.eqb_neq s 0)) by lia.
  apply lor_range; [lia|apply shiftr_range; [lia|done]|apply uw_range; lia].
Qed.

Lemma rotate_inverse s : 0 < s < 64 → Inverse (λ x, Rotate x s) (λ x, Rotate x (64 - s)).
Proof.
  intros Hs. split; intros x Hx; try (apply Rotate_range; [lia|done]); apply u64_bits_ext;
    try (repeat apply Rotate_range; lia || done); try done; intros i Hi; rewrite !Rotate_bit; try lia; try done;
    try (apply Rotate_range; lia || done); try (apply Z.mod_pos_bound; lia); f_equal; rewrite Zplus_mod_idemp_l.
  - replace (i + (64 - s) + s) with (i + 1 * 64) by lia. rewrite Z.mod_add by lia. by apply Z.mod_small.
  - replace (i + s + (64 - s)) with (i + 1 * 64) by lia. rewrite Z.mod_add by lia. by apply Z.mod_small.
Qed.

Lemma plus_inverse c : Inverse (λ x, u64 (x + c)) (λ x, u64 (x - c)).
Proof.
  split; intros x Hx; try (apply uw_range; lia).
  - rewrite uw_sub_l. replace (x + c - c) with x by lia. by apply uw_small.
  - rewrite uw_add_l. replace (x - c + c) with x by lia. by apply uw_small.
Qed.

(** [x * 5 + c]. *)
Lemma five_inverse c : Inverse (λ x, u64 (x * 5 + c)) (λ x, times 0xcccccccccccccccd (u64 (x - c))).
Proof.
  pose proof (inverse_compose _ _ _ _ (times_inverse 5 0xcccccccccccccccd eq_refl) (plus_inverse c)) as [A B C D].
  assert (∀ x, u64 (x * 5 + c) = u64 (times 5 x + c)) as E by (intros x; unfold times; by rewrite uw_add_l).
  split; intros x Hx; rewrite ?E; auto.
Qed.

(** ** The hashes *)

Definition m_inv : Z := 0x5f7a0ea7e59b19bd.
Definition c1_inv : Z := 0xa98409e882ce4d7d.
Definition c2_inv : Z := 0xa81e14edd9de2c7f.

Lemma word_k0 : is_u64 k0.
Proof. apply (bool_decide_unpack _). vm_compute. exact I. Qed.

Lemma mix_inverse : Inverse (λ x, times 0xc6a4a7935bd1e995 (xorshift 47 (times 0xc6a4a7935bd1e995 x)))
  (λ x, times m_inv (xorshift 47 (times m_inv x))).
Proof.
  assert (Inverse (times 0xc6a4a7935bd1e995) (times m_inv)) as Hm by by apply times_inverse.
  apply (inverse_compose _ _ _ _ Hm (inverse_compose _ _ _ _ (xorshift_inverse 47 ltac:(lia)) Hm)).
Qed.

Lemma simple_inverse : Inverse SimpleIntegerHash64 (λ x, times m_inv (xorshift 47 (times m_inv x)) .^ k0).
Proof. exact (inverse_compose _ _ _ _ (xor_inverse k0 word_k0) mix_inverse). Qed.

Lemma index_inverse : Inverse index_hash reverse_index_hash.
Proof.
  assert (Inverse (xorshift 33) (xorshift 33)) as Hx by by apply xorshift_inverse.
  assert (Inverse (times 0xff51afd7ed558ccd) (times 0x4f74430c22a54005)) as H1 by by apply times_inverse.
  assert (Inverse (times 0xc4ceb9fe1a85ec53) (times 0x9cb4b2f8129337db)) as H2 by by apply times_inverse.
  exact (inverse_compose _ _ _ _ Hx (inverse_compose _ _ _ _ H1 (inverse_compose _ _ _ _ Hx (inverse_compose _ _ _ _ H2 Hx)))).
Qed.

(** The words of [Murmor3MixRoutine64]: the first is a bijection of [x], and the second of [y]
    when the first is known. *)
Definition half (r1 ca cb r2 seed other c : Z) (x : Z) : Z :=
  u64 (u64 (Rotate (seed .^ times cb (Rotate (times ca x) r1)) r2 + other) * 5 + c).
Definition unhalf (r1 ca cb r2 seed other c : Z) (h : Z) : Z :=
  times ca (Rotate (times cb (Rotate (u64 (times 0xcccccccccccccccd (u64 (h - c)) - other)) (64 - r2) .^ seed)) (64 - r1)).

Lemma half_inverse r1 ca cb ca' cb' r2 seed other c : 0 < r1 < 64 → 0 < r2 < 64 → u64 (ca * ca') = 1 → u64 (cb * cb') = 1 →
  is_u64 seed → Inverse (half r1 ca cb r2 seed other c) (unhalf r1 ca' cb' r2 seed other c).
Proof.
  intros Hr1 Hr2 Ha Hb Hs.
  pose proof (inverse_compose _ _ _ _ (times_inverse ca ca' Ha) (inverse_compose _ _ _ _ (rotate_inverse r1 Hr1)
    (inverse_compose _ _ _ _ (times_inverse cb cb' Hb) (inverse_compose _ _ _ _ (xor_inverse seed Hs)
    (inverse_compose _ _ _ _ (rotate_inverse r2 Hr2) (inverse_compose _ _ _ _ (plus_inverse other) (five_inverse c))))))) as [A B C D].
  assert (∀ x, half r1 ca cb r2 seed other c x = u64 (u64 (Rotate (times cb (Rotate (times ca x) r1) .^ seed) r2 + other) * 5 + c)) as E.
  { intros x. unfold half. by rewrite Z.lxor_comm. }
  split; intros x Hx; rewrite ?E; unfold unhalf; auto.
Qed.

Definition first_of seed : Z → Z := half 31 c1 c2 27 seed seed 0x52dce729.
Definition second_of seed h1 : Z → Z := half 33 c2 c1 31 seed h1 0x38495ab5.

Lemma Murmor_halves x y seed : Murmor3MixRoutine64 x y seed = (first_of seed x, second_of seed (first_of seed x) y).
Proof. done. Qed.

#[export] Instance first_inverse seed : is_u64 seed → Inverse (first_of seed) (unhalf 31 c1_inv c2_inv 27 seed seed 0x52dce729).
Proof. intros. by apply half_inverse. Qed.
#[export] Instance second_inverse seed h1 : is_u64 seed → Inverse (second_of seed h1) (unhalf 33 c2_inv c1_inv 31 seed h1 0x38495ab5).
Proof. intros. by apply half_inverse. Qed.

Definition is_words (p : Z * Z) : Prop := is_u64 p.1 ∧ is_u64 p.2.

Lemma Murmor_inj seed x y x' y' : is_u64 seed → is_words (x, y) → is_words (x', y') →
  Murmor3MixRoutine64 x y seed = Murmor3MixRoutine64 x' y' seed → (x, y) = (x', y').
Proof.
  intros Hs [Hx Hy] [Hx' Hy']. rewrite !Murmor_halves. intros [= E1 E2]. cbn in *.
  apply (inverse_inj _ _ _ _ (first_inverse seed Hs)) in E1 as ->; [|done..].
  by apply (inverse_inj _ _ _ _ (second_inverse seed _ Hs)) in E2 as ->.
Qed.

Lemma Murmor_surj seed r : is_u64 seed → is_words r → ∃ x y, is_words (x, y) ∧ Murmor3MixRoutine64 x y seed = r.
Proof.
  intros Hs [H1 H2]. destruct r as [h1 h2]. cbn in *. destruct (first_inverse seed Hs) as [_ A _ B].
  destruct (second_inverse seed h1 Hs) as [_ A' _ B']. eexists _, (unhalf 33 c2_inv c1_inv 31 seed h1 0x38495ab5 h2). split; [by split; [apply A, H1|apply A']|].
  rewrite Murmor_halves, B by done. by rewrite B'.
Qed.

Lemma Simple128_inj s1 s2 t1 t2 : is_words (s1, s2) → is_words (t1, t2) →
  SimpleIntegerHash128_of s1 s2 = SimpleIntegerHash128_of t1 t2 → (s1, s2) = (t1, t2).
Proof.
  intros [Hs1 Hs2] [Ht1 Ht2]. unfold SimpleIntegerHash128_of. intros [= E1 E2]. cbn in *.
  assert (Inverse (times 0xc6a4a7935bd1e995) (times m_inv)) as Hm by by apply times_inverse.
  pose proof (@inv_range _ _ mix_inverse) as Hr. cbv beta in Hr.
  apply (inverse_inj _ _ _ _ Hm) in E2; [|by auto with hash..]. rewrite E1 in E2.
  apply (inverse_inj _ _ _ _ (xor_inverse _ (Hr t1 Ht1))) in E2; [|by auto..].
  apply (inverse_inj _ _ _ _ mix_inverse) in E1 as ->; [|done..]. by apply (inverse_inj _ _ _ _ mix_inverse) in E2 as ->.
Qed.

(** A hash of two words in one word is that of as many pairs as there are words. *)
Lemma xor_of_two seed d : is_u64 seed → is_u64 d → ∃ v w, v ≠ w ∧ is_words v ∧ is_words w ∧
  (Murmor3MixRoutine64 v.1 v.2 seed).1 .^ (Murmor3MixRoutine64 v.1 v.2 seed).2 = d ∧
  (Murmor3MixRoutine64 w.1 w.2 seed).1 .^ (Murmor3MixRoutine64 w.1 w.2 seed).2 = d.
Proof.
  intros Hs Hd.
  assert (∀ h, is_u64 h → ∃ v, is_words v ∧ Murmor3MixRoutine64 v.1 v.2 seed = (h, h .^ d)) as Hall.
  { intros h Hh. destruct (Murmor_surj seed (h, h .^ d) Hs) as (x & y & Hw & E); [split; cbn; auto with hash|by exists (x, y)]. }
  destruct (Hall 0) as (v & Hv & Ev); [done|]. destruct (Hall 1) as (w & Hw & Ew); [done|].
  exists v, w. rewrite Ev, Ew. cbn [fst snd]. rewrite <- !Z.lxor_assoc, !Z.lxor_nilpotent, Z.lxor_0_l.
  split_and!; try done. intros ->. congruence.
Qed.

End HashSpec.
