(* ===== verification/SpaceSaving.v ===== *)
(** The sketch of frequent items (sketches/space_saving.hpp). *)
From stdpp Require Import sorting.
From S2P Require Import Prelude Float64 FloatArith FlexOps SFrame Sort.
Import Float64 FloatArith FlexOps.
Import SFrame(or_trap).
Import Sort(fceil).
Local Open Scope Z_scope.
Local Open Scope sframe_scope.

Module SpaceSaving.

Section space_saving.
Context {T : Type} `{Countable T}.
(** The key that is compared before the value, and whether it is the value itself. *)
Context (hashkey : T → Z) (key_is_exact : bool).

(** An entry of the vector; [None]: one that was never written. *)
Record entry := Entry {
  value : option T;
  count : Z;
  error : Z;
}.

Definition no_entry : entry := Entry None 0 0.

(** A pointer to an entry: null, to the entry at an index of the vector, or into a vector that is
    no more. *)
Inductive pointer := Null | To (i : nat) | Dangling.

(** [global_map] is the map from values to entries that [value_container_mapper] keeps. *)
Record space_saving := SpaceSaving {
  m_size : Z;
  m_max_capacity : nat;
  m_epsilon : Z;
  n_entries : nat;
  entries : list entry;
  base_level : Z;
  base_level_candidates : list pointer;
  base_level_candidate_count : nat;
  global_map : gmap T nat;
  cached_insertion_key : option Z;
  cached_insertion_value : pointer;
}.

Definition set_entries (n : nat) (es : list entry) (s : space_saving) : space_saving :=
  SpaceSaving (m_size s) (m_max_capacity s) (m_epsilon s) n es (base_level s) (base_level_candidates s)
    (base_level_candidate_count s) (global_map s) (cached_insertion_key s) (cached_insertion_value s).
Definition set_candidates (base : Z) (cs : list pointer) (k : nat) (s : space_saving) : space_saving :=
  SpaceSaving (m_size s) (m_max_capacity s) (m_epsilon s) (n_entries s) (entries s) base cs k (global_map s)
    (cached_insertion_key s) (cached_insertion_value s).
Definition set_map (m : gmap T nat) (s : space_saving) : space_saving :=
  SpaceSaving (m_size s) (m_max_capacity s) (m_epsilon s) (n_entries s) (entries s) (base_level s) (base_level_candidates s)
    (base_level_candidate_count s) m (cached_insertion_key s) (cached_insertion_value s).
Definition set_cached (k : option Z) (p : pointer) (s : space_saving) : space_saving :=
  SpaceSaving (m_size s) (m_max_capacity s) (m_epsilon s) (n_entries s) (entries s) (base_level s) (base_level_candidates s)
    (base_level_candidate_count s) (global_map s) k p.
Definition set_size (n : Z) (s : space_saving) : space_saving :=
  SpaceSaving n (m_max_capacity s) (m_epsilon s) (n_entries s) (entries s) (base_level s) (base_level_candidates s)
    (base_level_candidate_count s) (global_map s) (cached_insertion_key s) (cached_insertion_value s).

(** [size_t(std::ceil(1.0 / epsilon) + 1)]. *)
Definition capacity_of (oob : Z → Z) (epsilon : Z) : nat :=
  Z.to_nat (f2i oob (fadd (fceil (fdiv (i2f 1) epsilon)) (i2f 1))).

(** The constructor: [initialize], which clears, and [init_data_structures]. *)
Definition new_sketch (oob : Z → Z) (epsilon : Z) : space_saving :=
  let n := capacity_of oob epsilon in
  SpaceSaving 0 n epsilon 0 (replicate n no_entry) 1 (replicate n Null) 0 ∅ None Null.

(** [clear] keeps the vectors. *)
Definition clear (s : space_saving) : space_saving :=
  SpaceSaving 0 (m_max_capacity s) (m_epsilon s) 0 (entries s) 1 (base_level_candidates s) 0 ∅ None Null.

Definition deref (s : space_saving) (p : pointer) : outcome (nat * entry) :=
  match p with To i => e ← or_trap (entries s !! i); Ok (i, e) | _ => Trap end.

(** ** Adding *)

Definition increment_element (i : nat) (count_incr error_incr : Z) (s : space_saving) : outcome space_saving :=
  e ← or_trap (entries s !! i);
  Ok (set_entries (n_entries s) (<[i := Entry (value e) (u64 (count e + count_incr)) (u64 (error e + error_incr))]> (entries s)) s).

Definition insert_element (t : T) (c err : Z) (s : space_saving) : outcome (nat * space_saving) :=
  let dest_index := n_entries s in
  if (dest_index <? length (entries s))%nat then
    let s := set_entries (S dest_index) (<[dest_index := Entry (Some t) c err]> (entries s)) s in
    let s :=
      if c =? base_level s
      then set_candidates (base_level s) (<[base_level_candidate_count s := To dest_index]> (base_level_candidates s))
             (S (base_level_candidate_count s)) s
      else s in
    Ok (dest_index, set_map (<[t := dest_index]> (global_map s)) s)
  else Trap.

(** The loop of [regenerate_base_level]: the least count so far and the entries that have it. *)
Fixpoint base_entries (i : nat) (es : list entry) (min_value : Z) (cs : list pointer) (k : nat) : Z * list pointer * nat :=
  match es with
  | [] => (min_value, cs, k)
  | e :: es =>
      if count e <? min_value then base_entries (S i) es (count e) (<[0%nat := To i]> cs) 1
      else if count e =? min_value then base_entries (S i) es min_value (<[k := To i]> cs) (S k)
      else base_entries (S i) es min_value cs k
  end.

Definition regenerate_base_level (s : space_saving) : space_saving :=
  let '(base, cs, k) := base_entries 0 (take (m_max_capacity s) (entries s)) (2 ^ 64 - 1)
                          (base_level_candidates s) (base_level_candidate_count s) in
  set_candidates base cs k s.

(** The candidates at the end whose counts are no more the base level are dropped. *)
Fixpoint drop_candidates (k : nat) (s : space_saving) : outcome nat :=
  match k with
  | O => Ok O
  | S k' =>
      p ← or_trap (base_level_candidates s !! k');
      e ← deref s p;
      if count e.2 =? base_level s then Ok k else drop_candidates k' s
  end.

(** The candidates are dropped if the last slot of the vector has another count. *)
Definition valid_candidates (s : space_saving) : outcome space_saving :=
  if (base_level_candidate_count s =? 0)%nat then Ok s else
  back ← or_trap (last (base_level_candidates s));
  e ← deref s back;
  if count e.2 =? base_level s then Ok s else
  k ← drop_candidates (base_level_candidate_count s) s;
  Ok (set_candidates (base_level s) (base_level_candidates s) k s).

Definition change_and_increment_value (t : T) (c err : Z) (s : space_saving) : outcome (nat * space_saving) :=
  s ← valid_candidates s;
  let s := if (base_level_candidate_count s =? 0)%nat then regenerate_base_level s else s in
  let idx := (base_level_candidate_count s - 1)%nat in
  p ← or_trap (base_level_candidates s !! idx);
  ie ← deref s p;
  let '(i, e) := ie in
  let s := set_map (match value e with Some u => delete u (global_map s) | None => global_map s end) s in
  let s := set_entries (n_entries s) (<[i := Entry (Some t) (u64 (count e + c)) (u64 (count e + err))]> (entries s)) s in
  let s := set_map (<[t := i]> (global_map s)) s in
  Ok (i, set_candidates (base_level s) (base_level_candidates s) idx s).

(** Whether the entry of the last insertion has the value. *)
Definition cached_hit (t : T) (s : space_saving) : outcome (option nat) :=
  match cached_insertion_value s with
  | Null => Ok None
  | p =>
      if bool_decide (cached_insertion_key s = Some (hashkey t)) then
        if key_is_exact then ie ← deref s p; Ok (Some ie.1)
        else ie ← deref s p; Ok (if bool_decide (value ie.2 = Some t) then Some ie.1 else None)
      else Ok None
  end.

Definition add_impl (t : T) (c err : Z) (s : space_saving) : outcome space_saving :=
  let s := set_size (u64 (m_size s + c)) s in
  hit ← cached_hit t s;
  match hit with
  | Some i => increment_element i c err s
  | None =>
      let s := set_cached (Some (hashkey t)) (cached_insertion_value s) s in
      match global_map s !! t with
      | Some i => s ← increment_element i c err s; Ok (set_cached (cached_insertion_key s) (To i) s)
      | None =>
          added ← (if (n_entries s =? m_max_capacity s)%nat then change_and_increment_value t c err s
                else insert_element t c err s);
          Ok (set_cached (cached_insertion_key added.2) (To added.1) added.2)
      end
  end.

Definition add (t : T) (c : Z) (s : space_saving) : outcome space_saving := add_impl t c 0 s.

Fixpoint add_all (ts : list (T * Z)) (s : space_saving) : outcome space_saving :=
  match ts with
  | [] => Ok s
  | (t, c) :: ts => s ← add t c s; add_all ts s
  end.

(** ** Queries *)

Definition threshold (oob : Z → Z) (s : space_saving) : Z :=
  Z.max 1 (f2i oob (fmul (m_epsilon s) (i2f (m_size s)))).

Definition item (e : entry) : option (T * Z) := v ← value e; Some (v, count e).

(** While there is room, all entries; then those whose count reaches the threshold, or whose
    count without the error does. *)
Definition frequent_items (oob : Z → Z) (s : space_saving) : list (T * Z) :=
  let es := take (n_entries s) (entries s) in
  if (n_entries s <? length (entries s))%nat then omap item es
  else omap item (filter (λ e, threshold oob s ≤ count e) es).

Definition guaranteed_frequent_items (oob : Z → Z) (s : space_saving) : list (T * Z) :=
  let es := take (n_entries s) (entries s) in
  if (n_entries s <? length (entries s))%nat then omap item es
  else omap item (filter (λ e, threshold oob s ≤ u64 (count e - error e)) es).

(** ** [_combine] *)

Definition level_le (a b : Z * nat) : Prop := a.1 ≤ b.1.
#[local] Instance level_le_dec a b : Decision (level_le a b).
Proof. unfold level_le. apply _. Defined.

(** [part_sizes], from the largest count down. *)
Definition levels_down (part_sizes : gmap Z nat) : list (Z * nat) :=
  reverse (merge_sort level_le (map_to_list part_sizes)).

Definition count_part (c : Z) (part_sizes : gmap Z nat) : gmap Z nat :=
  <[c := S (default 0%nat (part_sizes !! c))]> part_sizes.

(** The first loop: entries of both sketches are added up, the others are counted. *)
Fixpoint merge_counts (others : list entry) (s : space_saving) (part_sizes : gmap Z nat) : outcome (space_saving * gmap Z nat) :=
  match others with
  | [] => Ok (s, part_sizes)
  | o :: others =>
      match v ← value o; global_map s !! v with
      | Some i => s ← increment_element i (count o) (error o) s; merge_counts others s part_sizes
      | None => merge_counts others s (count_part (count o) part_sizes)
      end
  end.

(** The level at which the capacity is reached, if it is, and the room that is left. *)
Fixpoint find_base (levels : list (Z * nat)) (current_position : nat) (base : Z) : Z * nat :=
  match levels with
  | [] => (base, current_position)
  | (level, part_size) :: levels =>
      if (current_position <=? part_size)%nat then (level, current_position)
      else find_base levels (current_position - part_size) base
  end.

(** [write_entry], on the entries of both sketches. *)
Fixpoint write_entries (base : Z) (num_base_entries_left : nat) (es : list entry) : list entry :=
  match es with
  | [] => []
  | e :: es =>
      if count e <? base then write_entries base num_base_entries_left es
      else if count e =? base then
        match num_base_entries_left with
        | O => write_entries base O es
        | S k => e :: write_entries base k es
        end
      else e :: write_entries base num_base_entries_left es
  end.

Fixpoint index_entries (i : nat) (es : list entry) (m : gmap T nat) : gmap T nat :=
  match es with
  | [] => m
  | e :: es => index_entries (S i) es (match value e with Some v => <[v := i]> m | None => m end)
  end.

Definition combine (other s : space_saving) : outcome space_saving :=
  if m_size other =? 0 then Ok s else
  let others := take (n_entries other) (entries other) in
  sp ← merge_counts others s ∅;
  let '(s, part_sizes) := sp in
  let own := take (n_entries s) (entries s) in
  let part_sizes := foldl (λ m e, count_part (count e) m) part_sizes own in
  let levels := levels_down part_sizes in
  let '(base, current_position) := find_base levels (m_max_capacity s) (base_level s) in
  bp ← (if base =? 0 then
          lowest ← or_trap (last levels); Ok (lowest.1, (current_position + lowest.2)%nat)
        else Ok (base, current_position));
  let '(base, current_position) := bp in
  let fresh := filter (λ o, (v ← value o; global_map s !! v) = None) others in
  let written := write_entries base current_position (own ++ fresh) in
  if (length written <=? m_max_capacity s)%nat then
    Ok (SpaceSaving (u64 (m_size s + m_size other)) (m_max_capacity s) (m_epsilon s) (length written)
          (written ++ replicate (m_max_capacity s - length written) no_entry) base
          (map (λ p, match p with Null => Null | _ => Dangling end) (base_level_candidates s)) 0
          (index_entries 0 written ∅) (cached_insertion_key s) Null)
  else Trap.
End space_saving.
#[global] Arguments entry : clear implicits.
#[global] Arguments space_saving T {_ _}.
End SpaceSaving.
