(* ===== verification/SpaceSavingSpec.v ===== *)
(** The sketch of frequent items on a stream of single items: what an entry says of its item, and
    which items have an entry. *)
From stdpp Require Import sorting.
From S2P Require Import Prelude FlexOps GroupBySpec SFrame SortOrderSpec SpaceSaving.
Import FlexOps SpaceSaving.
Import SFrame(or_trap).
Import SortOrderSpec(sum_of, sum_of_insert, sum_of_app, sum_of_nonneg).
Import GroupBySpec(bind_Ok, filter_all).
Local Open Scope Z_scope.
Local Open Scope sframe_scope.

Module SpaceSavingSpec.

Section spec.
Context {T : Type} `{Countable T} (hashkey : T → Z) (key_is_exact : bool).
Hypothesis exact : key_is_exact = true → Inj (=) (=) hashkey.
Context (cap : nat) (epsilon : Z).
Implicit Types s : space_saving T.

(** How often an item occurs. *)
Definition occurrences (v : T) (ts : list T) : Z := sum_of (λ t, if decide (t = v) then 1 else 0) ts.

Lemma occurrences_snoc v ts t : occurrences v (ts ++ [t]) = occurrences v ts + if decide (t = v) then 1 else 0.
Proof using Type. clear exact. unfold occurrences. rewrite sum_of_app. cbn. destruct (decide (t = v)); lia. Qed.

Lemma occurrences_range v ts : 0 ≤ occurrences v ts ≤ Z.of_nat (length ts).
Proof using Type. clear exact. unfold occurrences. induction ts as [|t ts IH]; [done|]. cbn. destruct (decide (t = v)); lia. Qed.

Lemma occurrences_out v ts : v ∉ ts → occurrences v ts = 0.
Proof using Type.
  clear exact. intros Hv. unfold occurrences. induction ts as [|t ts IH]; [done|]. apply not_elem_of_cons in Hv as [? ?].
  cbn. by rewrite decide_False, IH.
Qed.

Lemma occurrences_once v ts : NoDup ts → v ∈ ts → occurrences v ts = 1.
Proof using Type.
  clear exact. induction 1 as [|t ts Ht Hnd IH]; intros Hv; [by apply not_elem_of_nil in Hv|].
  change (occurrences v (t :: ts)) with ((if decide (t = v) then 1 else 0) + occurrences v ts). destruct (decide (t = v)) as [<-|Hne].
  - by rewrite occurrences_out.
  - apply elem_of_cons in Hv as [->|Hv]; [done|]. by rewrite IH.
Qed.

(** The candidates, of which the vector has the first [k]: in the order of the entries, among the
    first [n], and with all entries [es] whose count is the base level. *)
Record candidates (n : nat) (es : list (entry T)) (base : Z) (slots : list pointer) (k : nat) (cs : list nat) : Prop := {
  ca_slots : take k slots = map To cs;
  ca_length : length cs = k;
  ca_sorted : StronglySorted lt cs;
  ca_range i : i ∈ cs → (i < n)%nat;
  ca_complete i e : (i < n)%nat → es !! i = Some e → count e = base → i ∈ cs;
}.

(** What holds after the items [ts]. *)
Record sketch_ok (ts : list T) s : Prop := {
  ss_capacity : m_max_capacity s = cap ∧ (0 < cap)%nat ∧ m_epsilon s = epsilon;
  ss_entries : length (entries s) = m_max_capacity s;
  ss_slots : length (base_level_candidates s) = m_max_capacity s;
  ss_range : (n_entries s ≤ m_max_capacity s)%nat;
  ss_size : m_size s = Z.of_nat (length ts);
  ss_sum : sum_of count (take (n_entries s) (entries s)) = Z.of_nat (length ts);
  ss_entry i : (i < n_entries s)%nat → ∃ v c e, entries s !! i = Some (Entry (Some v) c e) ∧
    0 ≤ e < c ∧ c - e ≤ occurrences v ts ≤ c ∧ base_level s ≤ c ∧ ((n_entries s < m_max_capacity s)%nat → e = 0);
  ss_map v i : global_map s !! v = Some i ↔ (i < n_entries s)%nat ∧ ∃ c e, entries s !! i = Some (Entry (Some v) c e);
  ss_untracked v : global_map s !! v = None → occurrences v ts ≤ if (n_entries s <? m_max_capacity s)%nat then 0 else base_level s;
  ss_base : 1 ≤ base_level s;
  ss_candidates : ∃ cs, candidates (n_entries s) (entries s) (base_level s) (base_level_candidates s) (base_level_candidate_count s) cs ∧
    ((n_entries s < m_max_capacity s)%nat → cs = seq 0 (n_entries s) ∧ base_level s = 1);
  ss_back : n_entries s = m_max_capacity s → last (base_level_candidates s) = Some (To (m_max_capacity s - 1));
}.

(** The entry of the last insertion holds its item. *)
Definition cached_ok s : Prop := cached_insertion_value s = Null ∨ ∃ i v c e,
  cached_insertion_value s = To i ∧ (i < n_entries s)%nat ∧ entries s !! i = Some (Entry (Some v) c e) ∧
  cached_insertion_key s = Some (hashkey v).

Lemma new_sketch_ok oob : cap = capacity_of oob epsilon → (0 < cap)%nat →
  sketch_ok [] (new_sketch oob epsilon) ∧ cached_ok (new_sketch oob epsilon).
Proof using Type.
  clear exact. intros -> Hc. split; [|by left]. split; cbn; rewrite ?length_replicate; try done; try lia.
  - intros v i. rewrite lookup_empty. split; [done|]. intros [? _]. lia.
  - intros v _. unfold occurrences. cbn. repeat case_match; lia.
  - exists []. split; [|done]. split; [done|done|constructor|by intros i ?%not_elem_of_nil|lia].
Qed.

(** ** Counts do not exceed the number of items *)

Lemma sum_lookup (es : list (entry T)) i e : Forall (λ e, 0 ≤ count e) es → es !! i = Some e → count e ≤ sum_of count es.
Proof using Type.
  clear exact. intros HF. revert i. induction HF as [|x es Hx HF IH]; intros [|i] He; try done; cbn.
  - injection He as ->. assert (0 ≤ sum_of count es); [|lia]. clear -HF. induction HF; cbn; lia.
  - specialize (IH i He). lia.
Qed.

Lemma counts_positive ts s i e : sketch_ok ts s → (i < n_entries s)%nat → entries s !! i = Some e → base_level s ≤ count e ∧ 1 ≤ count e.
Proof using Type.
  clear exact. intros Hs Hi He. destruct (ss_entry _ _ Hs i Hi) as (v & c & er & H1 & _ & _ & Hb & _). pose proof (ss_base _ _ Hs).
  rewrite He in H1. injection H1 as ->. cbn. lia.
Qed.

Lemma tracked_counts ts s : sketch_ok ts s → Forall (λ e, 1 ≤ count e ∧ base_level s ≤ count e) (take (n_entries s) (entries s)).
Proof using Type.
  clear exact. intros Hs. apply Forall_lookup. intros i e He. apply lookup_take_Some in He as [He Hi].
  destruct (counts_positive ts s i e Hs Hi He). lia.
Qed.

Lemma count_bound ts s i e : sketch_ok ts s → (i < n_entries s)%nat → entries s !! i = Some e → count e ≤ Z.of_nat (length ts).
Proof using Type.
  clear exact. intros Hs Hi He. rewrite <- (ss_sum _ _ Hs). apply (sum_lookup _ i).
  - eapply Forall_impl; [by eapply tracked_counts|]. cbn. lia.
  - by rewrite lookup_take_lt.
Qed.

(** The base level is at most the average of the counts. *)
Lemma base_level_bound ts s : sketch_ok ts s → base_level s * Z.of_nat (n_entries s) ≤ Z.of_nat (length ts).
Proof using Type.
  clear exact. intros Hs. rewrite <- (ss_sum _ _ Hs). pose proof (tracked_counts ts s Hs) as HF.
  assert (length (take (n_entries s) (entries s)) = n_entries s) as Hl.
  { rewrite length_take, (ss_entries _ _ Hs). pose proof (ss_range _ _ Hs). lia. }
  rewrite <- Hl at 1. clear Hl. induction HF as [|x es Hx HF IH]; cbn [sum_of length]; [lia|]. nia.
Qed.

(** Where a value is tracked. *)
Lemma tracked_once ts s i j v c e c' e' : sketch_ok ts s → (i < n_entries s)%nat → (j < n_entries s)%nat →
  entries s !! i = Some (Entry (Some v) c e) → entries s !! j = Some (Entry (Some v) c' e') → i = j.
Proof using Type.
  clear exact. intros Hs Hi Hj Hei Hej. assert (global_map s !! v = Some i) as H1 by (apply (ss_map _ _ Hs); eauto).
  assert (global_map s !! v = Some j) as H2 by (apply (ss_map _ _ Hs); eauto). congruence.
Qed.

(** ** Steps *)

(** The state in which an item is looked up: counted, with any last insertion. *)
Definition counted (k : option Z) (p : pointer) s : space_saving T := set_cached k p (set_size (u64 (m_size s + 1)) s).

Lemma take_insert_in {A} n i (x : A) l : (i < n)%nat → take n (<[i := x]> l) = <[i := x]> (take n l).
Proof using Type. clear exact. intros Hi. revert n i Hi. induction l as [|y l IH]; intros [|n] [|i] Hi; try done; try lia. cbn. f_equal. apply IH. lia. Qed.

Lemma increment_ok ts s k p i t c e : sketch_ok ts s → Z.of_nat (length ts) + 1 < 2 ^ 64 → (i < n_entries s)%nat →
  entries s !! i = Some (Entry (Some t) c e) → ∃ s', increment_element i 1 0 (counted k p s) = Ok s' ∧
  sketch_ok (ts ++ [t]) s' ∧ cached_insertion_key s' = k ∧ cached_insertion_value s' = p ∧
  (n_entries s' = n_entries s) ∧ entries s' !! i = Some (Entry (Some t) (c + 1) e).
Proof using Type.
  clear exact. intros Hs Hlen Hi Hei. pose proof (counts_positive ts s i _ Hs Hi Hei) as [Hb H1]. pose proof (count_bound ts s i _ Hs Hi Hei) as Hc.
  cbn in Hb, H1, Hc. destruct (ss_entry _ _ Hs i Hi) as (v & c' & e' & Hei' & He0 & Hocc & _ & Hexact). rewrite Hei in Hei'. injection Hei' as <- <- <-.
  assert (i < length (entries s))%nat as Hil by (by eapply lookup_lt_Some).
  unfold increment_element, counted. cbn [entries set_cached set_size]. rewrite Hei. cbn [or_trap mbind outcome_bind value count error].
  rewrite (uw_small 64 (c + 1)), (uw_small 64 (e + 0)), (uw_small 64 (m_size s + 1)) by (unfold is_u; rewrite ?(ss_size _ _ Hs); lia).
  rewrite Z.add_0_r. eexists. split; [done|]. cbn [set_entries set_cached set_size cached_insertion_key cached_insertion_value n_entries entries].
  split; [|split_and!; [done..|by rewrite list_lookup_insert_eq]].
  split; cbn [set_entries set_cached set_size cached_insertion_key cached_insertion_value n_entries entries m_max_capacity base_level_candidates
    m_size base_level base_level_candidate_count global_map].
  - apply (ss_capacity _ _ Hs).
  - by rewrite length_insert, (ss_entries _ _ Hs).
  - apply (ss_slots _ _ Hs).
  - apply (ss_range _ _ Hs).
  - rewrite (ss_size _ _ Hs), length_app. cbn. lia.
  - rewrite take_insert_in by done. rewrite (sum_of_insert count _ i (Entry (Some t) c e)) by (by rewrite lookup_take_lt).
    rewrite (ss_sum _ _ Hs), length_app. cbn. lia.
  - intros j Hj. destruct (decide (i = j)) as [<-|Hne].
    + exists t, (c + 1), e. rewrite list_lookup_insert_eq, occurrences_snoc, decide_True by done. split_and!; try done; lia.
    + destruct (ss_entry _ _ Hs j Hj) as (v & c2 & e2 & H2 & ?). exists v, c2, e2. rewrite list_lookup_insert_ne, occurrences_snoc by done.
      rewrite decide_False; [by rewrite Z.add_0_r|]. intros ->. apply Hne. by apply (tracked_once ts s i j v c e c2 e2).
  - intros v j. rewrite (ss_map _ _ Hs). split; intros [Hj (c2 & e2 & H2)]; (split; [done|]); destruct (decide (i = j)) as [<-|Hne].
    + exists (c + 1), e. rewrite list_lookup_insert_eq by done. congruence.
    + exists c2, e2. by rewrite list_lookup_insert_ne.
    + rewrite list_lookup_insert_eq in H2 by done. exists c, e. congruence.
    + exists c2, e2. by rewrite list_lookup_insert_ne in H2.
  - intros v Hv. rewrite occurrences_snoc. destruct (decide (t = v)) as [<-|_].
    + assert (global_map s !! t = Some i) by (apply (ss_map _ _ Hs); eauto). congruence.
    + rewrite Z.add_0_r. by apply (ss_untracked _ _ Hs).
  - apply (ss_base _ _ Hs).
  - destruct (ss_candidates _ _ Hs) as (cs & [C1 C2 C3 C4 C5] & Hfull). exists cs. split; [|done]. split; [done..|].
    intros j e2 Hj H2 Hc2. destruct (decide (i = j)) as [<-|Hne].
    + rewrite list_lookup_insert_eq in H2 by done. injection H2 as <-. cbn in Hc2. lia.
    + rewrite list_lookup_insert_ne in H2 by done. by eapply C5.
  - apply (ss_back _ _ Hs).
Qed.

(** The map after an item got the entry at [i]; [old] held another before. *)
Lemma map_update (m : gmap T nat) (es : list (entry T)) n n' i t c e :
  (∀ v j, m !! v = Some j ↔ (j < n)%nat ∧ j ≠ i ∧ ∃ c e, es !! j = Some (Entry (Some v) c e)) →
  (i < length es)%nat → (∀ j, (j < n')%nat ↔ (j < n)%nat ∨ j = i) → m !! t = None →
  ∀ v j, <[t := i]> m !! v = Some j ↔ (j < n')%nat ∧ ∃ c' e', <[i := Entry (Some t) c e]> es !! j = Some (Entry (Some v) c' e').
Proof using Type.
  clear exact. intros Hm Hi Hn Ht v j. rewrite Hn. destruct (decide (j = i)) as [->|Hj].
  - rewrite list_lookup_insert_eq by done. destruct (decide (t = v)) as [<-|Hv].
    + rewrite lookup_insert_eq. split; [|done]. intros _. split; [by right|by eexists _, _].
    + rewrite lookup_insert_ne by done. rewrite Hm. split; [by intros (_ & [] & _)|]. intros (_ & c' & e' & E). congruence.
  - rewrite list_lookup_insert_ne by done. destruct (decide (t = v)) as [<-|Hv].
    + rewrite lookup_insert_eq. split; [congruence|]. intros ([Hjn|?] & c' & e' & E); [|done].
      assert (m !! t = Some j) by (apply Hm; eauto). congruence.
    + rewrite lookup_insert_ne by done. rewrite Hm. split; [intros (? & ? & ?); eauto|]. intros ([?|?] & ?); [done|done].
Qed.

Lemma insert_ok ts s k p t : sketch_ok ts s → Z.of_nat (length ts) + 1 < 2 ^ 64 → (n_entries s < m_max_capacity s)%nat →
  global_map s !! t = None → ∃ i s', insert_element t 1 0 (counted k p s) = Ok (i, s') ∧ sketch_ok (ts ++ [t]) s' ∧
  cached_insertion_key s' = k ∧ (i < n_entries s')%nat ∧ ∃ c e, entries s' !! i = Some (Entry (Some t) c e).
Proof using Type.
  clear exact. intros Hs Hlen Hn Ht. destruct (ss_candidates _ _ Hs) as (cs & [C1 C2 C3 C4 C5] & Hfull). destruct (Hfull Hn) as [-> Hb].
  rewrite length_seq in C2. pose proof (ss_entries _ _ Hs) as He. pose proof (ss_slots _ _ Hs) as Hsl.
  pose proof (ss_untracked _ _ Hs t Ht) as Hut. rewrite (proj2 (Nat.ltb_lt _ _) Hn) in Hut. pose proof (occurrences_range t ts).
  unfold insert_element, counted. cbn [n_entries set_cached set_size entries]. rewrite (proj2 (Nat.ltb_lt _ _)) by lia.
  cbn [base_level set_entries set_cached set_size]. rewrite Hb. cbn [Z.eqb Pos.eqb].
  rewrite (uw_small 64 (m_size s + 1)) by (unfold is_u; rewrite ?(ss_size _ _ Hs); lia).
  eexists _, _. split; [done|]. split; [|cbn [set_candidates set_map set_entries set_cached set_size cached_insertion_key n_entries entries];
    split_and!; [done|lia|eexists _, _; by rewrite list_lookup_insert_eq by lia]].
  split; cbn [set_candidates set_map set_entries set_cached set_size cached_insertion_key cached_insertion_value n_entries entries m_max_capacity
    base_level_candidates m_size base_level base_level_candidate_count global_map].
  - apply (ss_capacity _ _ Hs).
  - by rewrite length_insert.
  - by rewrite length_insert.
  - lia.
  - rewrite (ss_size _ _ Hs), length_app. cbn. lia.
  - rewrite (take_S_r _ _ (Entry (Some t) 1 0)) by (apply list_lookup_insert_eq; lia).
    rewrite take_insert_ge, sum_of_app, (ss_sum _ _ Hs), length_app by lia. cbn. lia.
  - intros j Hj. destruct (decide (n_entries s = j)) as [<-|Hne].
    + exists t, 1, 0. rewrite list_lookup_insert_eq, occurrences_snoc, decide_True by (done || lia). split_and!; try done; lia.
    + destruct (ss_entry _ _ Hs j ltac:(lia)) as (v & c2 & e2 & H2 & H3 & H4 & H5 & H6). exists v, c2, e2.
      rewrite list_lookup_insert_ne, occurrences_snoc by done. rewrite decide_False.
      * rewrite Z.add_0_r. split_and!; [done|lia..|]. intros _. by apply H6.
      * intros ->. assert (global_map s !! v = Some j); [|congruence]. apply (ss_map _ _ Hs). split; [lia|eauto].
  - apply (map_update _ _ (n_entries s)); [|lia|lia|done]. intros v j. rewrite (ss_map _ _ Hs).
    split; [intros (? & ?); split_and!; [done|lia|done]|by intros (? & _ & ?)].
  - intros v Hv. destruct (decide (t = v)) as [<-|Hne]; [by rewrite lookup_insert_eq in Hv|]. rewrite lookup_insert_ne in Hv by done.
    rewrite occurrences_snoc, decide_False, Z.add_0_r by done. pose proof (ss_untracked _ _ Hs v Hv) as Hu.
    rewrite (proj2 (Nat.ltb_lt _ _) Hn) in Hu. destruct (_ <? _)%nat; lia.
  - lia.
  - exists (seq 0 (S (n_entries s))). split; [|done]. rewrite <- C2. split.
    + rewrite (take_S_r _ _ (To (n_entries s))) by (apply list_lookup_insert_eq; lia). rewrite take_insert_ge by lia.
      rewrite <- C2 in C1. by rewrite C1, seq_S, map_app.
    + by rewrite length_seq.
    + rewrite seq_S. apply StronglySorted_app. split_and!; [|done|by repeat constructor].
      intros a b Ha%elem_of_seq Hbb%list_elem_of_singleton. lia.
    + intros j Hj%elem_of_seq. lia.
    + intros j e2 Hj _ _. apply elem_of_seq. lia.
  - intros Hfull2. rewrite <- C2. rewrite last_lookup, length_insert, Hsl. replace (Nat.pred (m_max_capacity s)) with (n_entries s) by lia.
    rewrite list_lookup_insert_eq by lia. do 2 f_equal. lia.
Qed.

(** *** The base level *)

(** What the scan for the least count has found among the entries [pre]. *)
Record scanned (pre : list (entry T)) (m : Z) (slots : list pointer) (k : nat) (cs : list nat) : Prop := {
  sc_length : length slots = cap;
  sc_slots : take k slots = map To cs;
  sc_count : length cs = k;
  sc_sorted : StronglySorted lt cs;
  sc_found i : i ∈ cs → ∃ e, pre !! i = Some e ∧ count e = m;
  sc_least i e : pre !! i = Some e → m ≤ count e ∧ (count e = m → i ∈ cs);
  sc_some : pre ≠ [] → cs ≠ [];
  sc_last : slots !! (cap - 1)%nat = Some (To (cap - 1));
}.

(** The next entry is put in slot [k]. *)
Lemma scanned_push pre m slots k cs e cs' m' : scanned pre m slots k cs → (length pre < cap)%nat → (k ≤ length pre)%nat →
  (cs' = [] ∧ count e < m ∨ cs' = cs ∧ count e = m) → m' = count e →
  scanned (pre ++ [e]) m' (<[length cs' := To (length pre)]> slots) (S (length cs')) (cs' ++ [length pre]).
Proof using Type.
  clear exact. intros [H1 H2 H3 H4 H5 H6 H7 H8] Hp Hk Hcs ->.
  assert (length cs' ≤ k)%nat as Hl by (destruct Hcs as [[-> _]|[-> _]]; cbn; lia).
  assert (take (length cs') slots = map To cs') as Ht by (destruct Hcs as [[-> _]|[-> _]]; [done|by rewrite H3]).
  assert (∀ j, j ∈ cs' → (j < length pre)%nat ∧ ∃ d, pre !! j = Some d ∧ count d = count e) as Hj.
  { intros j Hj. destruct Hcs as [[-> _]|[-> <-]]; [by apply not_elem_of_nil in Hj|]. destruct (H5 j Hj) as (d & Hd & ?).
    split; [by eapply lookup_lt_Some|by exists d]. }
  split.
  - by rewrite length_insert.
  - rewrite (take_S_r _ _ (To (length pre))) by (apply list_lookup_insert_eq; lia). rewrite take_insert_ge by lia. by rewrite Ht, map_app.
  - rewrite length_app. cbn. lia.
  - apply StronglySorted_app. split_and!; [|by destruct Hcs as [[-> _]|[-> _]]; [constructor|]|by repeat constructor].
    intros a b Ha Hb%list_elem_of_singleton. subst b. by apply Hj.
  - intros j [Hjc|Hjc%list_elem_of_singleton]%elem_of_app; [|subst j].
    + destruct (Hj j Hjc) as (? & d & Hd & ?). exists d. by rewrite lookup_app_l.
    + exists e. by rewrite list_lookup_middle.
  - intros j d [Hd|[Hge Hd]]%lookup_app_Some.
    + destruct (H6 j d Hd) as [Hle Hin]. destruct Hcs as [[-> Hlt]|[-> Heq]]; [lia|]. rewrite Heq. split; [done|]. intros ?. apply elem_of_app. left. auto.
    + destruct (j - length pre)%nat eqn:Ej; [|done]. injection Hd as ->. split; [done|]. intros _. apply elem_of_app. right.
      apply list_elem_of_singleton. lia.
  - intros _ E. by apply app_eq_nil in E as [_ ?].
  - destruct (decide (length cs' = (cap - 1)%nat)) as [E|E]; [|by rewrite list_lookup_insert_ne].
    rewrite E. replace (length pre) with (cap - 1)%nat by lia. apply list_lookup_insert_eq. lia.
Qed.

Lemma base_entries_ok es : ∀ pre m slots k cs, scanned pre m slots k cs → (length pre + length es = cap)%nat → (k ≤ length pre)%nat →
  (pre = [] → Forall (λ e, count e ≤ m) es) → ∃ m' slots' k' cs',
  base_entries (length pre) es m slots k = (m', slots', k') ∧ scanned (pre ++ es) m' slots' k' cs'.
Proof using Type.
  clear exact. induction es as [|e es IH]; intros pre m slots k cs Hsc Hl Hk Hm.
  { exists m, slots, k, cs. by rewrite app_nil_r. }
  cbn [length] in Hl. rewrite (cons_middle e), app_assoc. cbn [base_entries].
  assert (∀ m' slots' k' cs', scanned (pre ++ [e]) m' slots' k' cs' → (k' ≤ S (length pre))%nat → ∃ m2 slots2 k2 cs2,
    base_entries (S (length pre)) es m' slots' k' = (m2, slots2, k2) ∧ scanned ((pre ++ [e]) ++ es) m2 slots2 k2 cs2) as Hnext.
  { intros m' slots' k' cs' Hsc' Hk'. destruct (IH (pre ++ [e]) m' slots' k' cs' Hsc') as (m2 & s2 & k2 & cs2 & E & ?).
    - rewrite length_app. cbn. lia.
    - rewrite length_app. cbn. lia.
    - intros E. by apply app_eq_nil in E as [_ ?].
    - exists m2, s2, k2, cs2. split; [|done]. rewrite <- E, length_app. cbn. by rewrite Nat.add_1_r. }
  destruct (Z.ltb_spec (count e) m) as [Hlt|Hge]; [|destruct (Z.eqb_spec (count e) m) as [Heq|Hne]].
  - apply (Hnext _ _ _ [length pre]); [|lia]. apply (scanned_push pre m slots k cs e [] (count e)); [done|lia|done|by left|done].
  - pose proof (sc_count _ _ _ _ _ Hsc) as Hc. apply (Hnext _ _ _ (cs ++ [length pre])); [|lia].
    rewrite <- Hc. apply (scanned_push pre m slots k cs e cs m); [done|lia|done|by right|done].
  - apply (Hnext _ _ _ cs); [|lia]. destruct Hsc as [H1 H2 H3 H4 H5 H6 H7 H8]. split; [done..| | | |done].
    + intros j Hj. destruct (H5 j Hj) as (d & Hd & ?). exists d. split; [by apply lookup_app_l_Some|done].
    + intros j d [Hd|[_ Hd]]%lookup_app_Some; [by apply H6|]. destruct (j - length pre)%nat; [|done]. injection Hd as <-. split; [lia|congruence].
    + intros _. destruct pre as [|d pre]; [|by apply H7]. specialize (Hm eq_refl). apply Forall_cons in Hm as [? _]. lia.
Qed.

(** Dropping candidates keeps those that have the base level. *)
Lemma drop_candidates_ok s k : ∀ cs, candidates (n_entries s) (entries s) (base_level s) (base_level_candidates s) k cs →
  (n_entries s ≤ length (entries s))%nat → (k ≤ length (base_level_candidates s))%nat → ∃ k' cs',
  drop_candidates k s = Ok k' ∧ candidates (n_entries s) (entries s) (base_level s) (base_level_candidates s) k' cs' ∧ (k' ≤ k)%nat ∧
  (k' = 0%nat ∨ ∃ i e, last cs' = Some i ∧ entries s !! i = Some e ∧ count e = base_level s).
Proof using Type.
  clear exact. induction k as [|k IH]; intros cs Hca Hn Hk; [exists 0%nat, cs; split_and!; [done..|by left]|].
  pose proof Hca as [H1 H2 H3 H4 H5]. destruct cs as [|i cs _] using rev_ind; [done|]. rewrite length_app in H2. cbn in H2.
  cbn [drop_candidates]. destruct (lookup_lt_is_Some_2 (base_level_candidates s) k) as [p Hp]; [lia|].
  rewrite (take_S_r _ _ p Hp), map_app in H1. apply app_inj_2 in H1 as [H1 [= ->]]; [|done].
  rewrite Hp. cbn [or_trap mbind outcome_bind deref].
  assert (i < n_entries s)%nat as Hi by (apply H4, elem_of_app; right; by apply list_elem_of_singleton).
  destruct (lookup_lt_is_Some_2 (entries s) i) as [e He]; [lia|]. rewrite He. cbn [or_trap mbind outcome_bind snd].
  destruct (Z.eqb_spec (count e) (base_level s)) as [Heq|Hne].
  { exists (S k), (cs ++ [i]). split_and!; [done..|]. right. exists i, e. by rewrite last_snoc. }
  destruct (IH cs) as (k' & cs' & ? & ? & ? & ?); [|done|lia|by exists k', cs'; split_and!; [..|lia|]].
  apply StronglySorted_app in H3 as (_ & H3 & _). split; [done|lia|done| |].
  - intros j Hj. apply H4, elem_of_app. by left.
  - intros j d Hj Hd Hc. specialize (H5 j d Hj Hd Hc) as [?|Hji%list_elem_of_singleton]%elem_of_app; [done|congruence].
Qed.

Lemma last_of_sorted (cs : list nat) i : StronglySorted lt cs → i ∈ cs → (∀ j, j ∈ cs → (j ≤ i)%nat) → last cs = Some i.
Proof using Type.
  clear exact. intros Hs Hi Hm. destruct cs as [|x cs _] using rev_ind; [by apply not_elem_of_nil in Hi|]. rewrite last_snoc. f_equal.
  apply StronglySorted_app in Hs as (Hs & _ & _). apply elem_of_app in Hi as [Hi|Hi%list_elem_of_singleton]; [|done].
  assert (i < x)%nat by (apply Hs; [done|by apply list_elem_of_singleton]).
  assert (x ≤ i)%nat by (apply Hm, elem_of_app; right; by apply list_elem_of_singleton). lia.
Qed.

Lemma full_counts ts s : sketch_ok ts s → n_entries s = m_max_capacity s → ∀ j d, entries s !! j = Some d →
  base_level s ≤ count d ≤ Z.of_nat (length ts).
Proof using Type.
  clear exact. intros Hs Hfull j d Hd. assert (j < n_entries s)%nat as Hj by (rewrite Hfull, <- (ss_entries _ _ Hs); by eapply lookup_lt_Some).
  pose proof (counts_positive ts s j d Hs Hj Hd). pose proof (count_bound ts s j d Hs Hj Hd). lia.
Qed.

(** The candidates that are left when those with another count are dropped. *)
Lemma valid_candidates_ok ts s k p : sketch_ok ts s → n_entries s = m_max_capacity s → ∃ k' cs',
  valid_candidates (counted k p s) = Ok (set_candidates (base_level s) (base_level_candidates s) k' (counted k p s)) ∧
  candidates (n_entries s) (entries s) (base_level s) (base_level_candidates s) k' cs' ∧
  (k' = 0%nat ∨ ∃ i e, last cs' = Some i ∧ entries s !! i = Some e ∧ count e = base_level s).
Proof using Type.
  clear exact. intros Hs Hfull. destruct (ss_candidates _ _ Hs) as (cs & Hca & _). pose proof (ss_back _ _ Hs Hfull) as Hback.
  pose proof (ss_entries _ _ Hs) as Hle. destruct (ss_capacity _ _ Hs) as (Hcap & Hpos & _).
  unfold valid_candidates. cbn [counted set_cached set_size base_level_candidate_count base_level_candidates base_level].
  destruct (Nat.eqb_spec (base_level_candidate_count s) 0) as [E|E].
  { exists 0%nat, cs. rewrite E in Hca. split_and!; [by rewrite <- E|done|by left]. }
  rewrite Hback. cbn [or_trap mbind outcome_bind deref counted set_cached set_size entries].
  destruct (lookup_lt_is_Some_2 (entries s) (m_max_capacity s - 1)) as [d Hd]; [lia|]. rewrite Hd. cbn [or_trap mbind outcome_bind snd].
  destruct (Z.eqb_spec (count d) (base_level s)) as [Heq|Hne].
  - exists (base_level_candidate_count s), cs. split_and!; [done..|]. right. exists (m_max_capacity s - 1)%nat, d. split_and!; [|done..].
    destruct Hca as [_ _ Hsort Hr Hc]. apply last_of_sorted; [done|apply (Hc _ d); [lia|done..]|]. intros j Hj%Hr. lia.
  - destruct (drop_candidates_ok (counted k p s) (base_level_candidate_count s) cs Hca) as (k' & cs' & -> & ? & ? & ?).
    + cbn. lia.
    + cbn. destruct Hca as [Hsl Hcl _ _ _]. assert (length (take (base_level_candidate_count s) (base_level_candidates s)) = base_level_candidate_count s) as Ht.
      { by rewrite Hsl, length_map, Hcl. } rewrite length_take in Ht. lia.
    + cbn [mbind outcome_bind]. by exists k', cs'.
Qed.

(** A full sketch finds an entry with the base level, which no count is below. *)
Lemma base_candidate ts s k p : sketch_ok ts s → Z.of_nat (length ts) + 1 < 2 ^ 64 → n_entries s = m_max_capacity s → ∃ s1 i e cs,
  (s ← valid_candidates (counted k p s);
   Ok (if (base_level_candidate_count s =? 0)%nat then regenerate_base_level s else s)) = Ok s1 ∧
  (∃ b sl n, s1 = set_candidates b sl n (counted k p s) ∧ length sl = m_max_capacity s ∧ last sl = Some (To (m_max_capacity s - 1)) ∧
    base_level s ≤ b ∧ (∀ j d, entries s !! j = Some d → b ≤ count d)) ∧
  candidates (n_entries s1) (entries s1) (base_level s1) (base_level_candidates s1) (base_level_candidate_count s1) (cs ++ [i]) ∧
  entries s !! i = Some e ∧ count e = base_level s1.
Proof using Type.
  clear exact. intros Hs Hlen Hfull. pose proof (ss_back _ _ Hs Hfull) as Hback. pose proof (full_counts ts s Hs Hfull) as Hall.
  pose proof (ss_entries _ _ Hs) as Hle. pose proof (ss_slots _ _ Hs) as Hls. destruct (ss_capacity _ _ Hs) as (Hcap & Hpos & _).
  destruct (valid_candidates_ok ts s k p Hs Hfull) as (k' & cs' & -> & Hca' & Hlast).
  cbn [mbind outcome_bind]. cbn [set_candidates base_level_candidate_count].
  destruct (Nat.eqb_spec k' 0) as [->|Hk'].
  - unfold regenerate_base_level. cbn [set_candidates counted set_cached set_size m_max_capacity entries base_level_candidates base_level_candidate_count].
    rewrite (take_ge (entries s)) by lia.
    destruct (base_entries_ok (entries s) [] (2 ^ 64 - 1) (base_level_candidates s) 0 []) as (b & sl & k2 & cs2 & E & Hsc).
    { split; [congruence|done|done|constructor|by intros i ?%not_elem_of_nil|done|done|].
      rewrite last_lookup, Hls in Hback. by rewrite <- Nat.sub_1_r, Hcap in Hback. }
    { cbn. congruence. }
    { done. }
    { intros _. apply Forall_lookup. intros j d Hd. destruct (Hall j d Hd). lia. }
    cbn [length app] in E, Hsc. rewrite E. destruct Hsc as [H1 H2 H3 H4 H5 H6 H7 H8].
    assert (cs2 ≠ []) as Hne. { apply H7. intros Enil. rewrite Enil in Hle. cbn in Hle. lia. }
    destruct cs2 as [|i cs2 _] using rev_ind; [done|]. destruct (H5 i) as (e & He & Hce); [apply elem_of_app; right; by apply list_elem_of_singleton|].
    eexists _, i, e, cs2. split; [done|]. split; [|split; [|done]].
    + exists b, sl, k2. split_and!; [done|congruence|by rewrite last_lookup, H1, <- Nat.sub_1_r, Hcap|rewrite <- Hce; by apply (Hall i)|intros j d Hd; by apply (H6 j d)].
    + split; cbn; [done|done|done| |].
      * intros j Hj. destruct (H5 j Hj) as (d & Hd & _). rewrite Hfull, <- Hle. by eapply lookup_lt_Some.
      * intros j d _ Hd Hcd. by apply (H6 j d).
  - destruct Hlast as [?|(i & e & Hl & He & Hce)]; [done|]. destruct cs' as [|i' cs' _] using rev_ind; [done|]. rewrite last_snoc in Hl. injection Hl as ->.
    eexists _, i, e, cs'. split; [done|]. split; [|split; [|done]].
    + exists (base_level s), (base_level_candidates s), k'. split_and!; [done..|]. intros j d Hd. by apply (Hall j).
    + done.
Qed.

Lemma change_ok ts s k p t : sketch_ok ts s → Z.of_nat (length ts) + 1 < 2 ^ 64 → n_entries s = m_max_capacity s →
  global_map s !! t = None → ∃ i s', change_and_increment_value t 1 0 (counted k p s) = Ok (i, s') ∧ sketch_ok (ts ++ [t]) s' ∧
  cached_insertion_key s' = k ∧ (i < n_entries s')%nat ∧ ∃ c e, entries s' !! i = Some (Entry (Some t) c e).
Proof using Type.
  clear exact. intros Hs Hlen Hfull Ht.
  destruct (base_candidate ts s k p Hs Hlen Hfull) as (s1 & i & e & cs & H1 & (b & sl & n & -> & Hsl & Hlast & Hb & Hleast) & Hca & He & Hce).
  apply bind_Ok in H1 as (s0 & Hs0 & [= H1]). unfold change_and_increment_value. rewrite Hs0. cbn [mbind outcome_bind]. rewrite H1. clear s0 Hs0 H1.
  destruct Hca as [C1 C2 C3 C4 C5]. cbn [set_candidates counted set_cached set_size n_entries entries base_level base_level_candidates base_level_candidate_count] in *.
  rewrite length_app in C2. cbn in C2. assert (n - 1 = length cs)%nat as Hidx by lia.
  assert (i < n_entries s)%nat as Hi by (apply C4, elem_of_app; right; by apply list_elem_of_singleton).
  pose proof (ss_entries _ _ Hs) as Hle. pose proof (ss_base _ _ Hs).
  destruct (ss_entry _ _ Hs i Hi) as (u & c & er & He' & Her & Hocc & _ & _). rewrite He in He'. injection He' as ->. cbn in Hce. subst c.
  assert (sl !! length cs = Some (To i)) as Hp.
  { assert (take n sl !! length cs = Some (To i)) as E by (rewrite C1, map_app, <- (length_map To cs); by apply list_lookup_middle).
    by apply lookup_take_Some in E as [E _]. }
  rewrite Hidx, Hp. cbn [or_trap mbind outcome_bind deref set_candidates counted set_cached set_size entries]. rewrite He. cbn [or_trap mbind outcome_bind value count error].
  pose proof (count_bound ts s i _ Hs Hi He) as Hbn. cbn in Hbn.
  rewrite (uw_small 64 (b + 1)), (uw_small 64 (b + 0)) by (unfold is_u; lia).
  rewrite Z.add_0_r. pose proof (occurrences_range t ts). pose proof (ss_untracked _ _ Hs t Ht) as Hut. rewrite (proj2 (Nat.ltb_ge _ _)) in Hut by lia.
  assert (global_map s !! u = Some i) as Hu by (apply (ss_map _ _ Hs); eauto).
  eexists _, _. split; [done|]. split; [|cbn [counted set_candidates set_map set_entries set_cached set_size cached_insertion_key n_entries entries];
    split_and!; [done|done|eexists _, _; by rewrite list_lookup_insert_eq by lia]].
  split; cbn [counted set_candidates set_map set_entries set_cached set_size cached_insertion_key cached_insertion_value n_entries entries m_max_capacity
    base_level_candidates m_size base_level base_level_candidate_count global_map].
  - apply (ss_capacity _ _ Hs).
  - by rewrite length_insert.
  - done.
  - lia.
  - rewrite uw_small by (unfold is_u; rewrite (ss_size _ _ Hs); lia). rewrite (ss_size _ _ Hs), length_app. cbn. lia.
  - rewrite take_insert_in by done. rewrite (sum_of_insert count _ i (Entry (Some u) b er)) by (by rewrite lookup_take_lt).
    rewrite (ss_sum _ _ Hs), length_app. cbn. lia.
  - intros j Hj. destruct (decide (i = j)) as [<-|Hne].
    + exists t, (b + 1), b. rewrite list_lookup_insert_eq, occurrences_snoc, decide_True by (done || lia). split_and!; try done; lia.
    + destruct (ss_entry _ _ Hs j Hj) as (v & c2 & e2 & H2 & H3 & H4 & H5 & H6). exists v, c2, e2.
      rewrite list_lookup_insert_ne, occurrences_snoc by done. pose proof (Hleast j _ H2) as Hl2. cbn in Hl2. rewrite decide_False.
      * rewrite Z.add_0_r. split_and!; try done; lia.
      * intros ->. assert (global_map s !! v = Some j); [|congruence]. apply (ss_map _ _ Hs). eauto.
  - apply (map_update _ _ (n_entries s)); [|lia|lia|].
    + intros v j. destruct (decide (u = v)) as [<-|Hv].
      * rewrite lookup_delete_eq. split; [done|]. intros (Hj & Hji & c' & e' & E). destruct Hji.
        assert (global_map s !! u = Some j) by (apply (ss_map _ _ Hs); eauto). congruence.
      * rewrite lookup_delete_ne by done. rewrite (ss_map _ _ Hs). split; [|by intros (? & _ & ?)]. intros (? & c' & e' & E).
        split_and!; [done| |by eexists _, _]. intros ->. congruence.
    + rewrite lookup_delete_None. by right.
  - intros v Hv. destruct (decide (t = v)) as [<-|Hne]; [by rewrite lookup_insert_eq in Hv|]. rewrite lookup_insert_ne in Hv by done.
    rewrite occurrences_snoc, decide_False, Z.add_0_r by done. rewrite (proj2 (Nat.ltb_ge _ _)) by lia.
    destruct (decide (u = v)) as [<-|Huv]; [lia|]. rewrite lookup_delete_ne in Hv by done.
    pose proof (ss_untracked _ _ Hs v Hv) as Hv'. rewrite (proj2 (Nat.ltb_ge _ _)) in Hv' by lia. lia.
  - lia.
  - exists cs. split; [|lia]. apply StronglySorted_app in C3 as (Hlt & C3 & _). split; [|done|done| |].
    + assert (take n sl = take (length cs) sl ++ [To i]) as E by (rewrite <- (take_S_r _ _ _ Hp); f_equal; lia).
      rewrite E, map_app in C1. by apply app_inj_2 in C1 as [? _].
    + intros j Hj. apply C4, elem_of_app. by left.
    + intros j d Hj Hd Hcd. destruct (decide (i = j)) as [<-|Hne].
      * rewrite list_lookup_insert_eq in Hd by lia. injection Hd as <-. cbn in Hcd. lia.
      * rewrite list_lookup_insert_ne in Hd by done. specialize (C5 j d Hj Hd Hcd) as [?|Hji%list_elem_of_singleton]%elem_of_app; [done|congruence].
  - done.
Qed.

(** ** Adding an item *)

Lemma sketch_add_ok ts s t : sketch_ok ts s → cached_ok s → Z.of_nat (length ts) + 1 < 2 ^ 64 → ∃ s',
  add hashkey key_is_exact t 1 s = Ok s' ∧ sketch_ok (ts ++ [t]) s' ∧ cached_ok s'.
Proof using exact.
  intros Hs Hc Hlen. unfold add, add_impl.
  set (s1 := set_size (u64 (m_size s + 1)) s). assert (∀ k p, set_cached k p s1 = counted k p s) as Hs1 by done.
  assert (s1 = counted (cached_insertion_key s) (cached_insertion_value s) s) as Hs1' by done.
  assert (∃ hit, cached_hit hashkey key_is_exact t s1 = Ok hit ∧ ∀ i, hit = Some i →
    cached_insertion_value s = To i ∧ cached_insertion_key s = Some (hashkey t) ∧ (i < n_entries s)%nat ∧ ∃ c e, entries s !! i = Some (Entry (Some t) c e)) as (hit & -> & Hhit).
  { unfold cached_hit. unfold s1. cbn [set_size cached_insertion_value cached_insertion_key].
    destruct Hc as [->|(i & v & c & e & -> & Hi & He & ->)]; [by eexists|].
    case_bool_decide as Hk; [|by eexists]. injection Hk as Hk. cbn [deref set_size entries]. rewrite He. cbn [or_trap mbind outcome_bind fst snd value].
    destruct key_is_exact eqn:Hex.
    - eexists. split; [done|]. intros ? [= <-]. apply (exact eq_refl) in Hk as ->. eauto 10.
    - eexists. split; [done|]. intros j. case_bool_decide as Hv; [|done]. intros [= <-]. injection Hv as ->. eauto 10. }
  cbn [mbind outcome_bind]. destruct hit as [i|].
  { destruct (Hhit i eq_refl) as (Hcv & Hck & Hi & c & e & He). rewrite Hs1'.
    destruct (increment_ok ts s (cached_insertion_key s) (cached_insertion_value s) i t c e Hs Hlen Hi He) as (s' & -> & Hs' & Hk & Hp & Hn & He').
    exists s'. split_and!; [done..|]. right. exists i, t, (c + 1), e. rewrite Hn. split_and!; congruence || done. }
  rewrite Hs1. clear Hhit. change (global_map (counted _ _ s)) with (global_map s).
  change (n_entries (counted _ _ s)) with (n_entries s). change (m_max_capacity (counted _ _ s)) with (m_max_capacity s).
  assert (∀ s' k p, sketch_ok (ts ++ [t]) s' → sketch_ok (ts ++ [t]) (set_cached k p s')) as Hset by (intros s' k p []; by split).
  destruct (global_map s !! t) as [i|] eqn:Hg.
  - apply (ss_map _ _ Hs) in Hg as (Hi & c & e & He).
    destruct (increment_ok ts s (Some (hashkey t)) (cached_insertion_value s1) i t c e Hs Hlen Hi He) as (s' & -> & Hs' & Hk & Hp & Hn & He').
    cbn [mbind outcome_bind]. eexists. split_and!; [done|by apply Hset|]. right. exists i, t, (c + 1), e. cbn. rewrite Hn. split_and!; congruence || done.
  - assert (∃ i s', (if (n_entries s =? m_max_capacity s)%nat then change_and_increment_value t 1 0 (counted (Some (hashkey t)) (cached_insertion_value s1) s)
        else insert_element t 1 0 (counted (Some (hashkey t)) (cached_insertion_value s1) s)) = Ok (i, s') ∧ sketch_ok (ts ++ [t]) s' ∧
        cached_insertion_key s' = Some (hashkey t) ∧ (i < n_entries s')%nat ∧ ∃ c e, entries s' !! i = Some (Entry (Some t) c e)) as (i & s' & -> & Hs' & Hk & Hi & c & e & He).
    { pose proof (ss_range _ _ Hs). destruct (Nat.eqb_spec (n_entries s) (m_max_capacity s)); [by apply change_ok|apply insert_ok; [done..|lia|done]]. }
    cbn [mbind outcome_bind fst snd]. eexists. split_and!; [done|by apply Hset|]. right. by exists i, t, c, e.
Qed.

Lemma sketch_add_all_ok ts : ∀ pre s, sketch_ok pre s → cached_ok s → Z.of_nat (length (pre ++ ts)) < 2 ^ 64 → ∃ s',
  add_all hashkey key_is_exact (map (λ t, (t, 1)) ts) s = Ok s' ∧ sketch_ok (pre ++ ts) s'.
Proof using exact.
  induction ts as [|t ts IH]; intros pre s Hs Hc Hl; [exists s; by rewrite app_nil_r|].
  rewrite length_app in Hl. cbn [length] in Hl. destruct (sketch_add_ok pre s t Hs Hc) as (s1 & H1 & Hs1 & Hc1); [lia|].
  destruct (IH (pre ++ [t]) s1 Hs1 Hc1) as (s' & H2 & Hs'); [rewrite !length_app; cbn; lia|].
  exists s'. cbn [map add_all]. rewrite H1. cbn [mbind outcome_bind]. rewrite H2. split; [done|]. by rewrite <- app_assoc in Hs'.
Qed.

(** ** Queries *)

Lemma tracked_item ts s v c : sketch_ok ts s → (∃ e, e ∈ take (n_entries s) (entries s) ∧ item e = Some (v, c)) ↔
  ∃ i e, global_map s !! v = Some i ∧ entries s !! i = Some (Entry (Some v) c e).
Proof using Type.
  clear exact. intros Hs. split.
  - intros ([u c' e] & (i & Hi)%list_elem_of_lookup_1 & Hit). apply lookup_take_Some in Hi as [Hi Hin].
    destruct u as [u|]; [|done]. injection Hit as -> ->. exists i, e. split; [|done]. apply (ss_map _ _ Hs). eauto.
  - intros (i & e & Hi & He). apply (ss_map _ _ Hs) in Hi as [Hi _]. exists (Entry (Some v) c e). split; [|done].
    apply (list_elem_of_lookup_2 _ i). by rewrite lookup_take_lt.
Qed.

Lemma tracked_occurrences ts s v i c e : sketch_ok ts s → global_map s !! v = Some i → entries s !! i = Some (Entry (Some v) c e) →
  0 ≤ e < c ∧ c - e ≤ occurrences v ts ≤ c ∧ ((n_entries s < cap)%nat → e = 0).
Proof using Type.
  clear exact. intros Hs Hi He. apply (ss_map _ _ Hs) in Hi as [Hi _]. destruct (ss_entry _ _ Hs i Hi) as (u & c' & e' & He' & H1 & H2 & _ & H3).
  rewrite He in He'. injection He' as <- <- <-. destruct (ss_capacity _ _ Hs) as (Hcap & _ & _). rewrite Hcap in H3. done.
Qed.

(** An item that is frequent enough has an entry. *)
Lemma frequent_tracked ts s v : sketch_ok ts s → Z.of_nat (length ts) < occurrences v ts * Z.of_nat cap → is_Some (global_map s !! v).
Proof using Type.
  clear exact. intros Hs Hv. destruct (global_map s !! v) as [i|] eqn:E; [by eexists|]. exfalso.
  pose proof (ss_untracked _ _ Hs v E) as Hu. pose proof (base_level_bound ts s Hs) as Hb. pose proof (ss_range _ _ Hs).
  destruct (ss_capacity _ _ Hs) as (Hcap & _ & _). pose proof (occurrences_range v ts). destruct (Nat.ltb_spec (n_entries s) (m_max_capacity s)); [nia|].
  assert (n_entries s = cap) as Hn by lia. rewrite Hn in Hb. nia.
Qed.

(** While there is room, every item is tracked with its exact count. *)
Lemma exact_while_room ts s v c : sketch_ok ts s → (n_entries s < cap)%nat →
  (∃ i e, global_map s !! v = Some i ∧ entries s !! i = Some (Entry (Some v) c e)) ↔ occurrences v ts = c ∧ 0 < c.
Proof using Type.
  clear exact. intros Hs Hn. destruct (ss_capacity _ _ Hs) as (Hcap & _ & _). split.
  - intros (i & e & Hi & He). destruct (tracked_occurrences ts s v i c e Hs Hi He) as (? & ? & He0). specialize (He0 Hn). lia.
  - intros [<- Hpos]. destruct (global_map s !! v) as [i|] eqn:E.
    + pose proof E as [Hi (c & e & He)]%(ss_map _ _ Hs). exists i, e. split; [done|].
      destruct (tracked_occurrences ts s v i c e Hs E He) as (? & ? & He0). specialize (He0 Hn). rewrite He. do 2 f_equal. lia.
    + pose proof (ss_untracked _ _ Hs v E) as Hu. rewrite Hcap, (proj2 (Nat.ltb_lt _ _) Hn) in Hu. lia.
Qed.

(** There is an entry for each of some of the items. *)
Lemma tracked_distinct ts s : sketch_ok ts s → (n_entries s ≤ length (remove_dups ts))%nat.
Proof using Type.
  clear exact. intros Hs. set (vs := map value (take (n_entries s) (entries s))).
  assert (length vs = n_entries s) as Hl.
  { unfold vs. rewrite length_map, length_take, (ss_entries _ _ Hs). pose proof (ss_range _ _ Hs). lia. }
  assert (∀ i x, vs !! i = Some x → ∃ v c e, x = Some v ∧ (i < n_entries s)%nat ∧ entries s !! i = Some (Entry (Some v) c e) ∧ v ∈ ts) as Hvs.
  { intros i x Hx. unfold vs in Hx. rewrite list_lookup_fmap in Hx. apply fmap_Some in Hx as (d & Hd & ->).
    apply lookup_take_Some in Hd as [Hd Hi]. destruct (ss_entry _ _ Hs i Hi) as (v & c & e & He & Hc & Ho & _). rewrite Hd in He. injection He as ->.
    exists v, c, e. split_and!; try done. destruct (decide (v ∈ ts)) as [|Hv]; [done|].
    pose proof (occurrences_out v ts Hv). lia. }
  rewrite <- Hl, <- (length_map Some (remove_dups ts)). apply submseteq_length, NoDup_submseteq.
  - apply NoDup_alt. intros i j x Hi Hj. destruct (Hvs i x Hi) as (v & c & e & -> & Hin & He & _).
    destruct (Hvs j _ Hj) as (v' & c' & e' & [= <-] & Hjn & He' & _). by apply (tracked_once ts s i j v c e c' e').
  - intros x [i Hx]%list_elem_of_lookup_1. destruct (Hvs i x Hx) as (v & _ & _ & -> & _ & _ & Hv).
    apply list_elem_of_fmap. exists v. split; [done|]. by apply elem_of_remove_dups.
Qed.

Lemma omap_item (es : list (entry T)) v c : (v, c) ∈ omap item es ↔ ∃ e, e ∈ es ∧ item e = Some (v, c).
Proof using Type. clear exact. rewrite list_elem_of_omap. done. Qed.

Lemma room_queries oob ts s : sketch_ok ts s → (n_entries s < cap)%nat → ∀ v c,
  ((v, c) ∈ frequent_items oob s ↔ occurrences v ts = c ∧ 0 < c) ∧ ((v, c) ∈ guaranteed_frequent_items oob s ↔ occurrences v ts = c ∧ 0 < c).
Proof using Type.
  clear exact. intros Hs Hn v c. destruct (ss_capacity _ _ Hs) as (Hcap & _ & _). unfold frequent_items, guaranteed_frequent_items.
  rewrite (ss_entries _ _ Hs), Hcap, (proj2 (Nat.ltb_lt _ _) Hn). split; rewrite omap_item, (tracked_item ts s v c Hs); by apply exact_while_room.
Qed.

Lemma full_queries oob ts s : sketch_ok ts s → Z.of_nat (length ts) < 2 ^ 64 → n_entries s = cap →
  (∀ v c, (v, c) ∈ frequent_items oob s → threshold oob s ≤ c ∧ occurrences v ts ≤ c) ∧
  (∀ v, threshold oob s ≤ occurrences v ts → Z.of_nat (length ts) < occurrences v ts * Z.of_nat cap → ∃ c, (v, c) ∈ frequent_items oob s) ∧
  (∀ v c, (v, c) ∈ guaranteed_frequent_items oob s → threshold oob s ≤ occurrences v ts ≤ c).
Proof using Type.
  clear exact. intros Hs Hlen Hn. destruct (ss_capacity _ _ Hs) as (Hcap & _ & _).
  unfold frequent_items, guaranteed_frequent_items. rewrite (ss_entries _ _ Hs), Hcap, (proj2 (Nat.ltb_ge (n_entries s) cap)) by lia. split_and!.
  - intros v c ([u c' e] & [Ht Hin]%list_elem_of_filter & Hit)%omap_item. destruct u as [u|]; [|done]. injection Hit as -> ->. cbn in Ht. split; [done|].
    destruct (proj1 (tracked_item ts s v c Hs)) as (i & e' & Hi & He); [by eexists|]. by apply (tracked_occurrences ts s v i c e').
  - intros v Hv Hf. destruct (frequent_tracked ts s v Hs Hf) as [i Hi]. pose proof Hi as [Hin (c & e & He)]%(ss_map _ _ Hs).
    destruct (tracked_occurrences ts s v i c e Hs Hi He) as (_ & Ho & _). exists c. apply omap_item. exists (Entry (Some v) c e).
    split; [|done]. apply list_elem_of_filter. split; [cbn; lia|]. apply (list_elem_of_lookup_2 _ i). by rewrite lookup_take_lt.
  - intros v c ([u c' e] & [Ht Hin]%list_elem_of_filter & Hit)%omap_item. destruct u as [u|]; [|done]. injection Hit as -> ->. cbn [count error] in Ht.
    apply list_elem_of_lookup_1 in Hin as [i Hi]. apply lookup_take_Some in Hi as [Hi Hin].
    assert (global_map s !! v = Some i) as Hm by (apply (ss_map _ _ Hs); eauto).
    destruct (tracked_occurrences ts s v i c e Hs Hm Hi) as (He & Ho & _). pose proof (count_bound ts s i _ Hs Hin Hi) as Hb. cbn in Hb.
    rewrite uw_small in Ht by (unfold is_u; lia). lia.
Qed.

Lemma queries_ok oob ts s : sketch_ok ts s → Z.of_nat (length ts) < 2 ^ 64 →
  ((length (remove_dups ts) < cap)%nat → ∀ v c, ((v, c) ∈ frequent_items oob s ↔ occurrences v ts = c ∧ 0 < c) ∧
    ((v, c) ∈ guaranteed_frequent_items oob s ↔ occurrences v ts = c ∧ 0 < c)) ∧
  (∀ v c, (v, c) ∈ frequent_items oob s → occurrences v ts ≤ c) ∧
  (∀ v, threshold oob s ≤ occurrences v ts → Z.of_nat (length ts) < occurrences v ts * Z.of_nat cap → ∃ c, (v, c) ∈ frequent_items oob s) ∧
  (∀ v c, (v, c) ∈ guaranteed_frequent_items oob s → occurrences v ts ≤ c ∧ (occurrences v ts = c ∨ threshold oob s ≤ occurrences v ts)).
Proof using Type.
  clear exact. intros Hs Hlen. pose proof (tracked_distinct ts s Hs) as Hd. pose proof (ss_range _ _ Hs) as Hr. destruct (ss_capacity _ _ Hs) as (Hcap & _ & _).
  split; [intros Hn; apply room_queries; [done|lia]|]. destruct (decide (n_entries s = cap)) as [Hn|Hn].
  - destruct (full_queries oob ts s Hs Hlen Hn) as (H1 & H2 & H3). split_and!; [intros v c Hv; by apply (H1 v c)|exact H2|].
    intros v c Hv. destruct (H3 v c Hv). by split; [|right].
  - pose proof (room_queries oob ts s Hs ltac:(lia)) as Hroom. split_and!.
    + intros v c Hv. destruct (proj1 (proj1 (Hroom v c)) Hv). lia.
    + intros v Ht _. exists (occurrences v ts). apply Hroom. split; [done|]. unfold threshold in Ht. lia.
    + intros v c Hv. destruct (proj1 (proj2 (Hroom v c)) Hv). split; [lia|by left].
Qed.
(** ** Combining *)

Definition once (e : entry T) : Prop := ∃ v, e = Entry (Some v) 1 0.

Lemma merge_counts_fresh s es : global_map s = ∅ → Forall once es → ∀ k,
  merge_counts es s (if (k =? 0)%nat then ∅ else {[1 := k]}) = Ok (s, if (k + length es =? 0)%nat then ∅ else {[1 := (k + length es)%nat]}).
Proof using Type.
  clear exact. intros Hm. induction 1 as [|e es [v ->] Hes IH]; intros k; [by rewrite Nat.add_0_r|]. cbn [merge_counts mbind option_bind value count].
  rewrite Hm, lookup_empty. cbn [length]. rewrite <- (Nat.add_succ_comm k (length es)), <- (IH (S k)). f_equal. unfold count_part.
  destruct (Nat.eqb_spec k 0) as [->|Hk]; cbn [Nat.eqb].
  - by rewrite lookup_empty.
  - by rewrite lookup_singleton_eq, insert_singleton_eq.
Qed.

Lemma write_once k es : Forall once es → write_entries 1 k es = take k es.
Proof using Type.
  clear exact. intros Hes. revert k. induction Hes as [|e es [v ->] Hes IH]; intros k; [by destruct k|].
  cbn [write_entries count Z.ltb Z.compare Pos.compare Pos.compare_cont Z.eqb Pos.eqb]. destruct k as [|k]; [apply IH|]. cbn. by rewrite IH.
Qed.

Lemma omap_once es : Forall once es → length (omap item es) = length es.
Proof using Type. clear exact. induction 1 as [|e es [v ->] Hes IH]; [done|]. cbn. by rewrite IH. Qed.

(** Different items, for all of which there is room. *)
Lemma distinct_once ts s : sketch_ok ts s → NoDup ts → (length ts < cap)%nat →
  n_entries s = length ts ∧ Forall once (take (n_entries s) (entries s)).
Proof using Type.
  clear exact. intros Hs Hnd Hlen. destruct (ss_capacity _ _ Hs) as (Hcap & _ & _).
  pose proof (λ v, occurrences_once v ts Hnd) as Hone.
  assert (length (remove_dups ts) = length ts) as Hrd.
  { apply Nat.le_antisymm; apply submseteq_length, NoDup_submseteq; [apply NoDup_remove_dups| |done|]; intros x; by rewrite elem_of_remove_dups. }
  pose proof (tracked_distinct ts s Hs) as Hle. rewrite Hrd in Hle.
  assert (n_entries s < cap)%nat as Hn by lia. split.
  - apply Nat.le_antisymm; [done|]. assert (length (take (n_entries s) (entries s)) = n_entries s) as <- by (rewrite length_take, (ss_entries _ _ Hs); lia).
    rewrite <- (length_map Some ts), <- (length_map value (take _ _)). apply submseteq_length, NoDup_submseteq.
    + apply NoDup_fmap; [|done]. by intros ? ? [= ->].
    + intros x (v & -> & Hv)%list_elem_of_fmap. destruct (proj2 (exact_while_room ts s v (occurrences v ts) Hs Hn)) as (i & e & Hi & He); [rewrite Hone by done; lia|].
      apply list_elem_of_fmap. eexists. split; [|apply (list_elem_of_lookup_2 _ i); apply lookup_take_Some; split; [exact He|by apply (ss_map _ _ Hs) in Hi as [? _]]]. done.
  - apply Forall_lookup. intros i d Hd. apply lookup_take_Some in Hd as [Hd Hi].
    destruct (ss_entry _ _ Hs i Hi) as (v & c & e & He & Hce & Ho & _ & H0). rewrite Hd in He. injection He as ->. rewrite H0 in * by lia.
    exists v. assert (c = 1); [|by subst]. destruct (decide (v ∈ ts)) as [Hv|Hv]; [rewrite (Hone v Hv) in Ho; lia|].
    assert (global_map s !! v = Some i) as Hm by (apply (ss_map _ _ Hs); eauto).
    destruct (proj1 (exact_while_room ts s v c Hs Hn)) as [Hoc Hpos]; [by exists i, 0|]. rewrite (occurrences_out v ts Hv) in Hoc. lia.
Qed.

Lemma combine_empty oob ts o : sketch_ok ts o → NoDup ts → (0 < length ts < cap)%nat → cap = capacity_of oob epsilon → ∃ s,
  combine o (new_sketch oob epsilon) = Ok s ∧ length (frequent_items oob o) = length ts ∧
  length (frequent_items oob s) = (length ts `min` (cap - length ts))%nat.
Proof using Type.
  clear exact. intros Ho Hnd Hlen Hcap. destruct (ss_capacity _ _ Ho) as (Hcapo & _ & _). destruct (distinct_once ts o Ho Hnd ltac:(lia)) as [Hn Hes].
  assert (length (take (n_entries o) (entries o)) = n_entries o) as Hl by (rewrite length_take, (ss_entries _ _ Ho); lia).
  unfold combine. rewrite (proj2 (Z.eqb_neq _ _)) by (rewrite (ss_size _ _ Ho); lia).
  rewrite (merge_counts_fresh (new_sketch oob epsilon) _ eq_refl Hes 0 : merge_counts _ _ ∅ = _). cbn [mbind outcome_bind Nat.add]. rewrite Hl, Hn.
  rewrite (proj2 (Nat.eqb_neq _ _)) by lia. cbn [new_sketch n_entries entries take foldl base_level m_max_capacity global_map app]. rewrite <- Hcap.
  unfold levels_down. rewrite take_0. cbn [foldl app]. rewrite map_to_list_singleton. change (reverse (merge_sort level_le [(1, length ts)])) with [(1, length ts)].
  cbn [find_base]. rewrite (proj2 (Nat.leb_gt _ _)) by lia. cbn [Z.eqb mbind outcome_bind].
  set (fresh := filter _ _). assert (fresh = take (length ts) (entries o)) as ->.
  { unfold fresh. apply filter_all. intros e _. destruct (value e); [apply lookup_empty|done]. }
  rewrite Hn in Hes, Hl. rewrite (write_once _ _ Hes). set (w := take (cap - length ts) _).
  assert (length w = length ts `min` (cap - length ts))%nat as Hw by (unfold w; rewrite length_take, Hl; lia).
  rewrite (proj2 (Nat.leb_le _ _)) by lia. eexists. split; [done|]. unfold frequent_items. cbn [n_entries entries]. split.
  - rewrite (ss_entries _ _ Ho), Hcapo, Hn, (proj2 (Nat.ltb_lt _ _)) by lia. by rewrite (omap_once _ Hes).
  - rewrite length_app, length_replicate, (proj2 (Nat.ltb_lt _ _)) by lia. rewrite take_app_length, omap_once; [done|]. by apply Forall_take.
Qed.
End spec.
End SpaceSavingSpec.
