(* ===== verification/Sketches.v ===== *)
(** Three sketches of a stream of items: how often an item occurs (sketches/countmin.hpp,
    sketches/countsketch.hpp) and how many different items there are (sketches/hyperloglog.hpp). *)
From stdpp Require Import sorting.
From S2P Require Import Prelude Float64 FloatArith FlexOps SFrame Hash.
Import Float64 FloatArith FlexOps Hash.
Import SFrame(or_trap).
Local Open Scope Z_scope.
Local Open Scope sframe_scope.

Module Sketches.

(** [for (size_t j = 0; j < n; ++j)]. *)
Fixpoint for_from {A} (n j : nat) (f : nat → A → outcome A) (s : A) : outcome A :=
  match n with
  | O => Ok s
  | S n => s ← f j s; for_from n (S j) f s
  end.

(** Element [i] of row [j]. *)
Definition cell (counts : list (list Z)) (j i : nat) : outcome Z :=
  row ← or_trap (counts !! j); or_trap (row !! i).
Definition set_cell (counts : list (list Z)) (j i : nat) (v : Z) : list (list Z) :=
  alter (λ row, <[i := v]> row) j counts.

(** [1 << num_bits] on [int], which the code does not define from 31 on. *)
Definition bins (num_bits : Z) : outcome nat :=
  if num_bits <? 31 then Ok (Z.to_nat (1 ≪ num_bits)) else Trap.

(** ** [countmin] *)

Record countmin := Countmin {
  num_hash : nat;
  num_bits : Z;
  num_bins : nat;
  seeds : list Z;
  counts : list (list Z);
}.

(** [draw] gives the random numbers. *)
Definition new_countmin (bits : Z) (depth : nat) (draw : nat → Z) : outcome countmin :=
  n ← bins bits;
  if (n <? 16)%nat then Throw
  else Ok (Countmin depth bits n (map draw (seq 0 depth)) (replicate depth (replicate n 0))).

Definition set_counts (cs : list (list Z)) (s : countmin) : countmin :=
  Countmin (num_hash s) (num_bits s) (num_bins s) (seeds s) cs.

Section countmin.
Context {T : Type} (std_hash : T → Z).

(** [hash64(seeds[j] ^ i) % num_bins]. *)
Definition bin_of (n : nat) (seed i : Z) : outcome nat :=
  if (n =? 0)%nat then Trap else Ok (Z.to_nat (hash64 (seed .^ i) mod Z.of_nat n)).

Definition add (t : T) (count : Z) (s : countmin) : outcome countmin :=
  let i := hash64 (std_hash t) in
  cs ← for_from (num_hash s) 0 (λ j cs,
    seed ← or_trap (seeds s !! j);
    bin ← bin_of (num_bins s) seed i;
    c ← cell cs j bin;
    Ok (set_cell cs j bin (u64 (c + count)))) (counts s);
  Ok (set_counts cs s).

Definition estimate (t : T) (s : countmin) : outcome Z :=
  let E := 2 ^ 64 - 1 in
  let i := hash64 (std_hash t) in
  for_from (num_hash s) 0 (λ j E,
    seed ← or_trap (seeds s !! j);
    bin ← bin_of (num_bins s) seed i;
    c ← cell (counts s) j bin;
    Ok (if c <? E then c else E)) E.
End countmin.

Definition combine (other s : countmin) : outcome countmin :=
  if negb (num_bins s =? num_bins other)%nat then Throw else
  if negb (num_hash s =? num_hash other)%nat then Throw else
  cs ← for_from (num_hash s) 0 (λ j cs,
    for_from (num_bins s) 0 (λ b cs,
      c ← cell cs j b;
      d ← cell (counts other) j b;
      Ok (set_cell cs j b (u64 (c + d)))) cs) (counts s);
  Ok (set_counts cs s).

Definition density (s : countmin) : outcome Z :=
  count ← for_from (num_hash s) 0 (λ j count,
    for_from (num_bins s) 0 (λ b count,
      c ← cell (counts s) j b;
      Ok (if negb (c =? 0) then u64 (count + 1) else count)) count) 0;
  Ok (fdiv (i2f count) (i2f (Z.of_nat (num_hash s * num_bins s)))).

(** ** [countsketch] *)

Record countsketch := Countsketch {
  cs_num_hash : nat;
  cs_num_bits : Z;
  cs_num_bins : nat;
  cs_seeds : list Z;
  seeds_binary : list Z;
  cs_counts : list (list Z);
}.

(** The two seeds of a row are drawn one after the other. *)
Definition new_countsketch (bits : Z) (depth : nat) (draw : nat → Z) : outcome countsketch :=
  n ← bins bits;
  if (n <? 16)%nat then Throw
  else Ok (Countsketch depth bits n (map (λ j, draw (2 * j)%nat) (seq 0 depth)) (map (λ j, draw (2 * j + 1)%nat) (seq 0 depth))
             (replicate depth (replicate n 0))).

Definition set_cs_counts (cs : list (list Z)) (s : countsketch) : countsketch :=
  Countsketch (cs_num_hash s) (cs_num_bits s) (cs_num_bins s) (cs_seeds s) (seeds_binary s) cs.

Section countsketch.
Context {T : Type} (std_hash : T → Z).

(** 1 or -1. *)
Definition trailing_sign (seed_binary i : Z) : Z := 2 * (hash64 (seed_binary .^ i) .& 1) - 1.

Definition cs_add (t : T) (count : Z) (s : countsketch) : outcome countsketch :=
  let i := hash64 (std_hash t) in
  cs ← for_from (cs_num_hash s) 0 (λ j cs,
    seed_binary ← or_trap (seeds_binary s !! j);
    let sign := trailing_sign seed_binary i in
    seed ← or_trap (cs_seeds s !! j);
    bin ← bin_of (cs_num_bins s) seed i;
    c ← cell cs j bin;
    Ok (set_cell cs j bin (s64 (c + s64 (sign * s64 count))))) (cs_counts s);
  Ok (set_cs_counts cs s).

(** [std::nth_element] leaves at the middle what is there in the sorted vector. *)
Definition cs_estimate (t : T) (s : countsketch) : outcome Z :=
  let i := hash64 (std_hash t) in
  estimates ← for_from (cs_num_hash s) 0 (λ j estimates,
    seed_binary ← or_trap (seeds_binary s !! j);
    let sign := trailing_sign seed_binary i in
    seed ← or_trap (cs_seeds s !! j);
    bin ← bin_of (cs_num_bins s) seed i;
    c ← cell (cs_counts s) j bin;
    Ok (estimates ++ [s64 (sign * c)])) [];
  or_trap (merge_sort Z.le estimates !! (length estimates / 2)%nat).
End countsketch.

Definition cs_combine (other s : countsketch) : outcome countsketch :=
  if negb (cs_num_bins s =? cs_num_bins other)%nat then Throw else
  if negb (cs_num_hash s =? cs_num_hash other)%nat then Throw else
  cs ← for_from (cs_num_hash s) 0 (λ j cs,
    for_from (cs_num_bins s) 0 (λ b cs,
      c ← cell cs j b;
      d ← cell (cs_counts other) j b;
      Ok (set_cell cs j b (s64 (c + d)))) cs) (cs_counts s);
  Ok (set_cs_counts cs s).

(** ** [hyperloglog] *)

Record hyperloglog := Hyperloglog {
  m_b : Z;
  m_m : nat;
  m_alpha : Z;
  m_buckets : list Z;
}.

(** A literal with decimals is the quotient of two integers. *)
Definition decimal (p q : Z) : Z := fdiv (i2f p) (i2f q).

Definition new_hyperloglog (b : Z) : outcome hyperloglog :=
  m ← bins b;
  if (m <? 16)%nat then Throw else
  Ok (Hyperloglog b m
    (if (m =? 16)%nat then decimal 673 1000
     else if (m =? 32)%nat then decimal 697 1000
     else if (m =? 64)%nat then decimal 709 1000
     else fdiv (decimal 7213 10000) (fadd (i2f 1) (fdiv (decimal 1079 1000) (i2f (Z.of_nat m)))))
    (replicate m 0)).

(** [__builtin_clz] takes the low 32 bits, and is not defined on 0. *)
Definition builtin_clz (h : Z) : outcome Z :=
  let x := u32 h in
  if x =? 0 then Trap else Ok (31 - Z.log2 x).

Section hyperloglog.
Context {T : Type} (std_hash : T → Z).

Definition hll_add (t : T) (s : hyperloglog) : outcome hyperloglog :=
  let h := hash64 (hash64 (std_hash t)) in
  let index := Z.to_nat (h ≫ (64 - m_b s)) in
  pos ← (if negb (h =? 0) then z ← builtin_clz h; Ok (1 + z) else Ok 8);
  old ← or_trap (m_buckets s !! index);
  Ok (Hyperloglog (m_b s) (m_m s) (m_alpha s) (<[index := Z.max old pos]> (m_buckets s))).
End hyperloglog.

Definition hll_combine (other s : hyperloglog) : outcome hyperloglog :=
  if negb (length (m_buckets s) =? length (m_buckets other))%nat then Throw else
  bs ← for_from (length (m_buckets s)) 0 (λ i bs,
    a ← or_trap (bs !! i);
    b ← or_trap (m_buckets other !! i);
    Ok (<[i := Z.max a b]> bs)) (m_buckets s);
  Ok (Hyperloglog (m_b s) (m_m s) (m_alpha s) bs).

Section hyperloglog_estimate.
(** [std::log], [std::sqrt] and [std::pow]. *)
Context (std_log std_sqrt : Z → Z) (std_pow : Z → Z → Z).

Definition hll_estimate (s : hyperloglog) : Z :=
  let m := i2f (Z.of_nat (m_m s)) in
  let E := foldl (λ E b, fadd E (std_pow (i2f 2) (fneg (i2f b)))) (i2f 0) (m_buckets s) in
  let E := fdiv (fmul (fmul (m_alpha s) m) m) E in
  if flt E (fmul (decimal 25 10) m) || feq E (fmul (decimal 25 10) m) then
    let zero_count := Z.of_nat (length (filter (λ b, b = 0) (m_buckets s))) in
    if negb (zero_count =? 0) then fmul m (std_log (fdiv m (i2f zero_count))) else E
  else E.

Definition error_bound (s : hyperloglog) : Z :=
  fdiv (fmul (hll_estimate s) (decimal 104 100)) (std_sqrt (i2f (Z.of_nat (m_m s)))).
End hyperloglog_estimate.

End Sketches.
