(* ===== verification/SketchesSpec.v ===== *)
(** The cells of the sketches after a stream, and what their estimates are worth. *)
From stdpp Require Import sorting.
From S2P Require Import Prelude FlexOps GroupBySpec SFrame SortOrderSpec Hash Sketches.
Import FlexOps Hash Sketches.
Import SFrame(or_trap).
Import GroupBySpec(filter_empty).
Import SortOrderSpec(sum_of, sum_of_app, sum_of_nonneg).
Local Open Scope Z_scope.
Local Open Scope sframe_scope.

Module SketchesSpec.

Lemma for_from_inv {A} (f : nat → A → outcome A) (P : nat → A → Prop) n : ∀ j s, P j s →
  (∀ i s, (j ≤ i < j + n)%nat → P i s → ∃ s', f i s = Ok s' ∧ P (S i) s') →
  ∃ s', for_from n j f s = Ok s' ∧ P (j + n)%nat s'.
Proof.
  induction n as [|n IH]; intros j s Hs Hf; [exists s; by rewrite Nat.add_0_r|].
  destruct (Hf j s) as (s1 & E & H1); [lia|done|]. cbn [for_from]. rewrite E. cbn [mbind outcome_bind].
  rewrite <- Nat.add_succ_comm. apply IH; [done|]. intros i s2 Hi. apply Hf. lia.
Qed.

(** ** A matrix by its cells *)

Definition matrix (n m : nat) (g : nat → nat → Z) : list (list Z) := map (λ j, map (g j) (seq 0 m)) (seq 0 n).

Lemma matrix_row n m g j : (j < n)%nat → matrix n m g !! j = Some (map (g j) (seq 0 m)).
Proof. intros Hj. unfold matrix. rewrite list_lookup_fmap, lookup_seq_lt by done. done. Qed.

Lemma cell_matrix n m g j b : (j < n)%nat → (b < m)%nat → cell (matrix n m g) j b = Ok (g j b).
Proof.
  intros Hj Hb. unfold cell. rewrite matrix_row by done. cbn [or_trap mbind outcome_bind].
  by rewrite list_lookup_fmap, lookup_seq_lt.
Qed.

Lemma matrix_ext n m g g' : (∀ j b, (j < n)%nat → (b < m)%nat → g j b = g' j b) → matrix n m g = matrix n m g'.
Proof.
  intros E. unfold matrix. apply map_ext_in. intros j Hj%in_seq. apply map_ext_in. intros b Hb%in_seq. apply E; lia.
Qed.

Lemma matrix_replicate n m : replicate n (replicate m 0) = matrix n m (λ _ _, 0).
Proof. unfold matrix. by rewrite !map_const_seq. Qed.

Definition put (g : nat → nat → Z) (j b : nat) (v : Z) : nat → nat → Z :=
  λ j' b', if decide (j' = j ∧ b' = b) then v else g j' b'.

Lemma set_cell_matrix n m g j b v : (j < n)%nat → (b < m)%nat → set_cell (matrix n m g) j b v = matrix n m (put g j b v).
Proof.
  intros Hj Hb. unfold set_cell. apply list_eq. intros i. destruct (decide (i < n)%nat) as [Hi|Hi].
  - rewrite (matrix_row n m (put g j b v)) by done. destruct (decide (i = j)) as [->|Hne].
    + rewrite list_lookup_alter_eq, matrix_row by done. cbn. f_equal. apply list_eq. intros k. unfold put.
      destruct (decide (k < m)%nat) as [Hk|Hk].
      * rewrite list_lookup_fmap, lookup_seq_lt by done. cbn. destruct (decide (k = b)) as [->|Hkb].
        -- rewrite list_lookup_insert_eq by (by rewrite length_map, length_seq). by rewrite decide_True.
        -- rewrite list_lookup_insert_ne by done. rewrite list_lookup_fmap, lookup_seq_lt by done. cbn. by rewrite decide_False by naive_solver.
      * rewrite !lookup_ge_None_2; [done|rewrite length_map, length_seq; lia|rewrite length_insert, length_map, length_seq; lia].
    + rewrite list_lookup_alter_ne, matrix_row by done. f_equal. apply map_ext. intros k. unfold put. by rewrite decide_False by naive_solver.
  - rewrite !lookup_ge_None_2; [done|unfold matrix; rewrite length_map, length_seq; lia|].
    rewrite length_alter. unfold matrix. rewrite length_map, length_seq. lia.
Qed.

(** One cell of each row is changed. *)
Lemma change_rows n m g (bin : nat → nat) (h : nat → Z → Z) f : (∀ j, (j < n)%nat → (bin j < m)%nat) →
  (∀ j g, (j < n)%nat → f j (matrix n m g) = Ok (set_cell (matrix n m g) j (bin j) (h j (g j (bin j))))) →
  for_from n 0 f (matrix n m g) = Ok (matrix n m (λ j b, if decide (b = bin j) then h j (g j b) else g j b)).
Proof.
  intros Hbin Hf.
  destruct (for_from_inv f (λ i cs, cs = matrix n m (λ j b, if decide (j < i ∧ b = bin j)%nat then h j (g j b) else g j b)) n 0 (matrix n m g))
    as (s & E & ->).
  - apply matrix_ext. intros j b _ _. by rewrite decide_False by lia.
  - intros i s [_ Hi] ->. rewrite Hf by done. eexists. split; [done|]. rewrite set_cell_matrix by auto. apply matrix_ext. intros j b Hj Hb. unfold put.
    destruct (decide (j = i ∧ b = bin i)) as [[-> ->]|Hne].
    + rewrite decide_False by lia. by rewrite decide_True by lia.
    + destruct (decide (j < i ∧ b = bin j)%nat); [by rewrite decide_True by lia|]. rewrite decide_False; [done|].
      intros [Hlt ->]. assert (j = i) by lia. naive_solver.
  - rewrite E. f_equal. apply matrix_ext. intros j b Hj Hb. destruct (decide (b = bin j)); [by rewrite decide_True by lia|by rewrite decide_False by tauto].
Qed.

(** All cells are changed, each with the cell of another matrix. *)
Lemma change_cells n m g d (h : Z → Z → Z) f :
  (∀ j b g, (j < n)%nat → (b < m)%nat → f j b (matrix n m g) = Ok (set_cell (matrix n m g) j b (h (g j b) (d j b)))) →
  for_from n 0 (λ j cs, for_from m 0 (f j) cs) (matrix n m g) = Ok (matrix n m (λ j b, h (g j b) (d j b))).
Proof.
  intros Hf.
  destruct (for_from_inv (λ j cs, for_from m 0 (f j) cs) (λ i cs, cs = matrix n m (λ j b, if decide (j < i)%nat then h (g j b) (d j b) else g j b)) n 0 (matrix n m g))
    as (s & E & ->).
  - apply matrix_ext. intros j b _ _. by rewrite decide_False by lia.
  - intros i s [_ Hi] ->.
    destruct (for_from_inv (f i) (λ k cs, cs = matrix n m (λ j b, if decide (j < i ∨ j = i ∧ b < k)%nat then h (g j b) (d j b) else g j b)) m 0
      (matrix n m (λ j b, if decide (j < i)%nat then h (g j b) (d j b) else g j b))) as (s & E & ->).
    + apply matrix_ext. intros j b _ _. destruct (decide (j < i)%nat); [by rewrite decide_True by tauto|by rewrite decide_False by lia].
    + intros k s [_ Hk] ->. rewrite Hf by done. eexists. split; [done|]. rewrite set_cell_matrix by done. apply matrix_ext. intros j b Hj Hb. unfold put.
      destruct (decide (j = i ∧ b = k)) as [[-> ->]|Hne].
      * rewrite decide_False by lia. by rewrite decide_True by lia.
      * destruct (decide (j < i ∨ j = i ∧ b < k)%nat); [by rewrite decide_True by lia|by rewrite decide_False by lia].
    + eexists. split; [exact E|]. apply matrix_ext. intros j b Hj Hb.
      destruct (decide (j < S i)%nat); [by rewrite decide_True by lia|by rewrite decide_False by lia].
  - rewrite E. f_equal. apply matrix_ext. intros j b Hj Hb. by rewrite decide_True by lia.
Qed.

(** ** Medians *)

(** What more than half of the elements are is in the middle. *)
Lemma median_majority l x : (length l < 2 * length (filter (λ y, y = x) l))%nat → merge_sort Z.le l !! (length l / 2)%nat = Some x.
Proof.
  intros Hx. pose proof (merge_sort_Permutation Z.le l) as Hp. pose proof (StronglySorted_merge_sort Z.le l) as Hs.
  rewrite <- (Permutation_length (filter_Permutation (λ y, y = x) _ _ Hp)) in Hx. apply Permutation_length in Hp. rewrite <- Hp in *.
  set (s := merge_sort Z.le l) in *. clearbody s. clear Hp l.
  pose proof (Nat.div_mod_eq (length s) 2) as Hd. pose proof (Nat.mod_upper_bound (length s) 2 ltac:(lia)). set (mid := (length s / 2)%nat) in *.
  assert (length (filter (λ y, y = x) s) ≤ length s)%nat by apply length_filter.
  destruct (lookup_lt_is_Some_2 s mid) as [y Hy]; [lia|]. rewrite Hy. f_equal. pose proof (take_drop_middle s mid y Hy) as E.
  assert (length (take mid s) = mid) as Ht by (rewrite length_take; apply lookup_lt_Some in Hy; lia). clear Hy. clearbody mid.
  generalize dependent (take mid s). intros s1 E Ht. generalize dependent (drop (S mid) s). intros s2 <-.
  rewrite length_app in Hd, Hx. rewrite filter_app, filter_cons, length_app in Hx. cbn [length] in *.
  apply StronglySorted_app in Hs as (H1 & _ & H2). inversion H2 as [|? ? H3 H4]; subst. rewrite Forall_forall in H4.
  pose proof (Nat.mod_upper_bound (length s1 + S (length s2)) 2 ltac:(lia)).
  generalize dependent ((length s1 + S (length s2)) `mod` 2)%nat. intros r Hd Hr.
  destruct (Z.lt_trichotomy y x) as [Hlt|[?|Hgt]]; [exfalso|done|exfalso]; rewrite decide_False in Hx by lia.
  - rewrite (filter_empty _ s1) in Hx by (intros z Hz ->; specialize (H1 x y Hz ltac:(by left)); lia).
    pose proof (length_filter (λ y, y = x) s2). cbn [length] in *. lia.
  - rewrite (filter_empty _ s2) in Hx by (intros z Hz ->; specialize (H4 x Hz); lia).
    pose proof (length_filter (λ y, y = x) s1). cbn [length] in *. lia.
Qed.

(** ** Streams *)

Section streams.
Context {T : Type} `{EqDecision T} (std_hash : T → Z).

(** All of a stream is added. *)
Fixpoint add_stream {I A} (add : I → A → outcome A) (l : list I) (s : A) : outcome A :=
  match l with
  | [] => Ok s
  | i :: l => s ← add i s; add_stream add l s
  end.

(** The bin of an item in the row with a seed. *)
Definition row_bin (m : nat) (seed : Z) (t : T) : nat := Z.to_nat (hash64 (seed .^ hash64 (std_hash t)) mod Z.of_nat m).

Lemma bin_of_ok m seed t : (0 < m)%nat → bin_of m seed (hash64 (std_hash t)) = Ok (row_bin m seed t).
Proof. intros Hm. unfold bin_of, row_bin. by rewrite (proj2 (Nat.eqb_neq m 0)) by lia. Qed.

Lemma row_bin_range m seed t : (0 < m)%nat → (row_bin m seed t < m)%nat.
Proof. intros Hm. unfold row_bin. pose proof (Z.mod_pos_bound (hash64 (seed .^ hash64 (std_hash t))) (Z.of_nat m)). lia. Qed.

Lemma bins_16 bits n : bins bits = Ok n → (n <? 16)%nat = false → (0 < n)%nat.
Proof. intros _ Hn%Nat.ltb_ge. lia. Qed.

(** *** [countmin] *)

(** What a stream puts in a bin of a row. *)
Definition weight (m : nat) (seed : Z) (b : nat) (st : list (T * Z)) : Z :=
  sum_of (λ tc, if decide (row_bin m seed tc.1 = b) then tc.2 else 0) st.

Definition countmin_of (bits : Z) (depth m : nat) (draw : nat → Z) (g : nat → nat → Z) : countmin :=
  Countmin depth bits m (map draw (seq 0 depth)) (matrix depth m g).

Lemma countmin_ext bits depth m draw g g' : (∀ j b, (j < depth)%nat → (b < m)%nat → g j b = g' j b) →
  countmin_of bits depth m draw g = countmin_of bits depth m draw g'.
Proof. intros E. unfold countmin_of. by rewrite (matrix_ext depth m g g' E). Qed.

Lemma drawn (draw : nat → Z) depth j : (j < depth)%nat → map draw (seq 0 depth) !! j = Some (draw j).
Proof. intros Hj. by rewrite list_lookup_fmap, lookup_seq_lt. Qed.

Lemma new_countmin_ok bits depth draw s : new_countmin bits depth draw = Ok s → ∃ m, (0 < m)%nat ∧ s = countmin_of bits depth m draw (λ _ _, 0).
Proof.
  unfold new_countmin. destruct (bins bits) as [m| |] eqn:E; [|done..]. cbn [mbind outcome_bind]. destruct (m <? 16)%nat eqn:Em; [done|].
  intros [= <-]. exists m. split; [by eapply bins_16|]. unfold countmin_of. by rewrite matrix_replicate.
Qed.

Lemma add_countmin bits depth m draw g t c : (0 < m)%nat → add std_hash t c (countmin_of bits depth m draw g) =
  Ok (countmin_of bits depth m draw (λ j b, if decide (b = row_bin m (draw j) t) then u64 (g j b + c) else g j b)).
Proof.
  intros Hm. unfold add. cbn [countmin_of num_hash num_bins seeds counts].
  rewrite (change_rows depth m g (λ j, row_bin m (draw j) t) (λ _ x, u64 (x + c))); [done|intros; by apply row_bin_range|].
  intros j g' Hj. rewrite drawn by done. cbn [or_trap mbind outcome_bind]. rewrite bin_of_ok by done. cbn [mbind outcome_bind].
  by rewrite cell_matrix by (done || by apply row_bin_range).
Qed.

Lemma add_stream_countmin bits depth m draw st : ∀ pre, (0 < m)%nat →
  add_stream (λ tc, add std_hash tc.1 tc.2) st (countmin_of bits depth m draw (λ j b, u64 (weight m (draw j) b pre))) =
  Ok (countmin_of bits depth m draw (λ j b, u64 (weight m (draw j) b (pre ++ st)))).
Proof.
  induction st as [|[t c] st IH]; intros pre Hm; [by rewrite app_nil_r|]. cbn [add_stream fst snd]. rewrite add_countmin by done.
  cbn [mbind outcome_bind]. rewrite (cons_middle (t, c)), app_assoc, <- IH by done. f_equal. apply countmin_ext. intros j b _ _.
  unfold weight. rewrite sum_of_app. cbn [sum_of fst snd]. rewrite Z.add_0_r. destruct (decide (b = _)) as [->|Hne].
  - by rewrite decide_True, uw_add_l.
  - by rewrite decide_False, Z.add_0_r by congruence.
Qed.

Lemma combine_countmin bits depth m draw g d :
  combine (countmin_of bits depth m draw d) (countmin_of bits depth m draw g) =
  Ok (countmin_of bits depth m draw (λ j b, u64 (g j b + d j b))).
Proof.
  unfold combine. cbn [countmin_of num_hash num_bins seeds counts]. rewrite !Nat.eqb_refl. cbn [negb].
  rewrite (change_cells depth m g d (λ x y, u64 (x + y))); [done|]. intros j b g' Hj Hb. by rewrite !cell_matrix.
Qed.

Lemma estimate_countmin bits depth m draw g t : (0 < m)%nat → ∃ E, estimate std_hash t (countmin_of bits depth m draw g) = Ok E ∧
  E ≤ 2 ^ 64 - 1 ∧ (∀ j, (j < depth)%nat → E ≤ g j (row_bin m (draw j) t)) ∧
  (E = 2 ^ 64 - 1 ∨ ∃ j, (j < depth)%nat ∧ E = g j (row_bin m (draw j) t)).
Proof.
  intros Hm. unfold estimate. cbn [countmin_of num_hash num_bins seeds counts].
  apply (for_from_inv _ (λ i E, E ≤ 2 ^ 64 - 1 ∧ (∀ j, (j < i)%nat → E ≤ g j (row_bin m (draw j) t)) ∧
    (E = 2 ^ 64 - 1 ∨ ∃ j, (j < depth)%nat ∧ E = g j (row_bin m (draw j) t))) depth 0).
  - split_and!; [done|lia|by left].
  - intros i E [_ Hi] (H1 & H2 & H3). rewrite drawn by done. cbn [or_trap mbind outcome_bind]. rewrite bin_of_ok by done. cbn [mbind outcome_bind].
    rewrite cell_matrix by (done || by apply row_bin_range). cbn [mbind outcome_bind]. eexists. split; [done|].
    destruct (Z.ltb_spec (g i (row_bin m (draw i) t)) E) as [Hlt|Hge].
    + split_and!; [lia| |right; eauto]. intros j Hj. destruct (decide (j = i)) as [->|]; [lia|]. specialize (H2 j ltac:(lia)). lia.
    + split_and!; [done| |done]. intros j Hj. destruct (decide (j = i)) as [->|]; [lia|]. apply H2. lia.
Qed.

(** *** [countsketch] *)

Definition signed_weight (m : nat) (seed seed_binary : Z) (b : nat) (st : list (T * Z)) : Z :=
  sum_of (λ tc, if decide (row_bin m seed tc.1 = b) then trailing_sign seed_binary (hash64 (std_hash tc.1)) * tc.2 else 0) st.

Definition countsketch_of (bits : Z) (depth m : nat) (draw : nat → Z) (g : nat → nat → Z) : countsketch :=
  Countsketch depth bits m (map (λ j, draw (2 * j)%nat) (seq 0 depth)) (map (λ j, draw (2 * j + 1)%nat) (seq 0 depth)) (matrix depth m g).

Lemma countsketch_ext bits depth m draw g g' : (∀ j b, (j < depth)%nat → (b < m)%nat → g j b = g' j b) →
  countsketch_of bits depth m draw g = countsketch_of bits depth m draw g'.
Proof. intros E. unfold countsketch_of. by rewrite (matrix_ext depth m g g' E). Qed.

Lemma new_countsketch_ok bits depth draw s : new_countsketch bits depth draw = Ok s →
  ∃ m, (0 < m)%nat ∧ s = countsketch_of bits depth m draw (λ _ _, 0).
Proof.
  unfold new_countsketch. destruct (bins bits) as [m| |] eqn:E; [|done..]. cbn [mbind outcome_bind]. destruct (m <? 16)%nat eqn:Em; [done|].
  intros [= <-]. exists m. split; [by eapply bins_16|]. unfold countsketch_of. by rewrite matrix_replicate.
Qed.

Lemma s64_add a b : s64 (s64 a + s64 b) = s64 (a + b).
Proof.
  destruct (sw_multiple 64 a) as [k ->]; [lia|]. destruct (sw_multiple 64 b) as [l ->]; [lia|].
  rewrite <- (sw_shift 64 (a + b) (k + l)) by lia. f_equal. lia.
Qed.

Lemma s64_mul k a : s64 (k * s64 a) = s64 (k * a).
Proof. destruct (sw_multiple 64 a) as [l ->]; [lia|]. rewrite <- (sw_shift 64 (k * a) (k * l)) by lia. f_equal. lia. Qed.

Lemma s64_zero : s64 0 = 0.
Proof. done. Qed.

Lemma add_countsketch bits depth m draw g t c : (0 < m)%nat → cs_add std_hash t c (countsketch_of bits depth m draw g) =
  Ok (countsketch_of bits depth m draw (λ j b, if decide (b = row_bin m (draw (2 * j)%nat) t)
    then s64 (g j b + s64 (trailing_sign (draw (2 * j + 1)%nat) (hash64 (std_hash t)) * s64 c)) else g j b)).
Proof.
  intros Hm. unfold cs_add. cbn [countsketch_of cs_num_hash cs_num_bins cs_seeds seeds_binary cs_counts].
  rewrite (change_rows depth m g (λ j, row_bin m (draw (2 * j)%nat) t)
    (λ j x, s64 (x + s64 (trailing_sign (draw (2 * j + 1)%nat) (hash64 (std_hash t)) * s64 c)))); [done|intros; by apply row_bin_range|].
  intros j g' Hj. rewrite !drawn by done. cbn [or_trap mbind outcome_bind]. rewrite bin_of_ok by done. cbn [mbind outcome_bind].
  by rewrite cell_matrix by (done || by apply row_bin_range).
Qed.

Lemma add_stream_countsketch bits depth m draw st : ∀ pre, (0 < m)%nat →
  add_stream (λ tc, cs_add std_hash tc.1 tc.2) st (countsketch_of bits depth m draw (λ j b, s64 (signed_weight m (draw (2 * j)%nat) (draw (2 * j + 1)%nat) b pre))) =
  Ok (countsketch_of bits depth m draw (λ j b, s64 (signed_weight m (draw (2 * j)%nat) (draw (2 * j + 1)%nat) b (pre ++ st)))).
Proof.
  induction st as [|[t c] st IH]; intros pre Hm; [by rewrite app_nil_r|]. cbn [add_stream fst snd]. rewrite add_countsketch by done.
  cbn [mbind outcome_bind]. rewrite (cons_middle (t, c)), app_assoc, <- IH by done. f_equal. apply countsketch_ext. intros j b _ _.
  unfold signed_weight. rewrite sum_of_app. cbn [sum_of fst snd]. rewrite Z.add_0_r. destruct (decide (b = _)) as [->|Hne].
  - by rewrite decide_True, s64_mul, s64_add.
  - by rewrite decide_False, Z.add_0_r by congruence.
Qed.

Lemma combine_countsketch bits depth m draw g d :
  cs_combine (countsketch_of bits depth m draw d) (countsketch_of bits depth m draw g) =
  Ok (countsketch_of bits depth m draw (λ j b, s64 (g j b + d j b))).
Proof.
  unfold cs_combine. cbn [countsketch_of cs_num_hash cs_num_bins cs_seeds seeds_binary cs_counts]. rewrite !Nat.eqb_refl. cbn [negb].
  rewrite (change_cells depth m g d (λ x y, s64 (x + y))); [done|]. intros j b g' Hj Hb. by rewrite !cell_matrix.
Qed.

Lemma cs_estimate_of bits depth m draw g t : (0 < m)%nat → cs_estimate std_hash t (countsketch_of bits depth m draw g) =
  let es := map (λ j, s64 (trailing_sign (draw (2 * j + 1)%nat) (hash64 (std_hash t)) * g j (row_bin m (draw (2 * j)%nat) t))) (seq 0 depth) in
  or_trap (merge_sort Z.le es !! (depth / 2)%nat).
Proof.
  intros Hm. unfold cs_estimate. cbn [countsketch_of cs_num_hash cs_num_bins cs_seeds seeds_binary cs_counts].
  set (v := λ j, s64 (trailing_sign (draw (2 * j + 1)%nat) (hash64 (std_hash t)) * g j (row_bin m (draw (2 * j)%nat) t))).
  match goal with |- context [for_from depth 0 ?f _] => destruct (for_from_inv f (λ i es, es = map v (seq 0 i)) depth 0 []) as (es & -> & ->) end; [done| |].
  - intros i es [_ Hi] ->. rewrite !drawn by done. cbn [or_trap mbind outcome_bind]. rewrite bin_of_ok by done. cbn [mbind outcome_bind].
    rewrite cell_matrix by (done || by apply row_bin_range). cbn [mbind outcome_bind]. eexists. split; [done|]. by rewrite seq_S, map_app.
  - cbn [mbind outcome_bind]. by rewrite length_map, length_seq.
Qed.

(** *** What the estimates are worth *)

(** How much of an item is in a stream. *)
Definition total (t : T) (st : list (T * Z)) : Z := sum_of (λ tc, if decide (tc.1 = t) then tc.2 else 0) st.

Lemma weight_bounds m seed t st : Forall (λ tc, 0 ≤ tc.2) st → total t st ≤ weight m seed (row_bin m seed t) st ≤ sum_of snd st ∧ 0 ≤ total t st.
Proof.
  unfold total, weight. induction 1 as [|[u c] st Hc Hst IH]; [done|]. cbn [sum_of fst snd] in *.
  destruct (decide (u = t)) as [->|]; [rewrite decide_True by done|destruct (decide (_ = _))]; lia.
Qed.

Lemma countmin_estimate_ok bits depth m draw st t : (0 < m)%nat → (0 < depth)%nat → Forall (λ tc, 0 ≤ tc.2) st → sum_of snd st < 2 ^ 64 → ∃ E,
  estimate std_hash t (countmin_of bits depth m draw (λ j b, u64 (weight m (draw j) b st))) = Ok E ∧ total t st ≤ E ∧
  ∃ j, (j < depth)%nat ∧ E = weight m (draw j) (row_bin m (draw j) t) st.
Proof.
  intros Hm Hd Hst Hsum. destruct (estimate_countmin bits depth m draw (λ j b, u64 (weight m (draw j) b st)) t Hm) as (E & HE & H1 & H2 & H3).
  assert (∀ j, u64 (weight m (draw j) (row_bin m (draw j) t) st) = weight m (draw j) (row_bin m (draw j) t) st) as Hw.
  { intros j. destruct (weight_bounds m (draw j) t st Hst). apply uw_small. unfold is_u. lia. }
  exists E. split; [done|].
  assert (∃ j, (j < depth)%nat ∧ E = weight m (draw j) (row_bin m (draw j) t) st) as (j & Hj & ->).
  { destruct H3 as [->|(j & Hj & ->)]; [|exists j; by rewrite Hw]. exists 0%nat. split; [done|]. specialize (H2 0%nat Hd). rewrite Hw in H2.
    destruct (weight_bounds m (draw 0%nat) t st Hst). lia. }
  split; [by apply weight_bounds|]. by exists j.
Qed.

Lemma trailing_sign_cases s i : trailing_sign s i = 1 ∨ trailing_sign s i = -1.
Proof. unfold trailing_sign. mask_mod. pose proof (Z.mod_pos_bound (hash64 (s .^ i)) (2 ^ 1) ltac:(lia)). lia. Qed.

(** An item that is alone in its bin. *)
Lemma signed_weight_alone m seed seed_binary t st :
  Forall (λ tc, row_bin m seed tc.1 = row_bin m seed t → tc.1 = t) st →
  s64 (trailing_sign seed_binary (hash64 (std_hash t)) * s64 (signed_weight m seed seed_binary (row_bin m seed t) st)) = s64 (total t st).
Proof.
  intros Hst. rewrite s64_mul. f_equal.
  assert (signed_weight m seed seed_binary (row_bin m seed t) st = trailing_sign seed_binary (hash64 (std_hash t)) * total t st) as ->.
  { unfold signed_weight, total. induction Hst as [|[u c] st Hu Hst IH]; cbn [sum_of fst snd] in *; [lia|]. rewrite IH.
    destruct (decide (u = t)) as [->|Hne]; [rewrite decide_True by done; lia|]. rewrite decide_False by tauto. lia. }
  destruct (trailing_sign_cases seed_binary (hash64 (std_hash t))) as [-> | ->]; lia.
Qed.

Lemma countsketch_estimate_ok bits depth m draw st t : (0 < m)%nat →
  (depth < 2 * length (filter (λ j, Forall (λ tc, row_bin m (draw (2 * j)%nat) tc.1 = row_bin m (draw (2 * j)%nat) t → tc.1 = t) st) (seq 0 depth)))%nat →
  cs_estimate std_hash t (countsketch_of bits depth m draw (λ j b, s64 (signed_weight m (draw (2 * j)%nat) (draw (2 * j + 1)%nat) b st))) = Ok (s64 (total t st)).
Proof.
  intros Hm Hmaj. rewrite cs_estimate_of by done. cbv zeta. set (v := λ j, s64 _).
  pose proof (median_majority (map v (seq 0 depth)) (s64 (total t st))) as Hmed. rewrite length_map, length_seq in Hmed. rewrite Hmed; [done|].
  eapply Nat.lt_le_trans; [exact Hmaj|]. apply Nat.mul_le_mono_l. generalize (seq 0 depth). intros l. clear Hmed Hmaj.
  induction l as [|j l IH]; [done|]. rewrite filter_cons. cbn [map]. rewrite filter_cons.
  destruct (decide (Forall _ st)) as [Hj|Hj]; cbn [length].
  - rewrite decide_True; [cbn [length]; lia|]. by apply signed_weight_alone.
  - destruct (decide _); cbn [length]; lia.
Qed.

(** *** [hyperloglog] *)

Definition hll_hash (t : T) : Z := hash64 (hash64 (std_hash t)).

(** The hash has a defined number of leading zeros. *)
Definition lucky (t : T) : Prop := hll_hash t = 0 ∨ u32 (hll_hash t) ≠ 0.
#[global] Instance lucky_dec t : Decision (lucky t).
Proof. unfold lucky. apply _. Defined.

Definition hll_index (b : Z) (t : T) : nat := Z.to_nat (hll_hash t ≫ (64 - b)).
Definition hll_pos (t : T) : Z := if hll_hash t =? 0 then 8 else 32 - Z.log2 (u32 (hll_hash t)).

(** The greatest position of the items of a bucket. *)
Definition peak (b : Z) (i : nat) (st : list T) : Z :=
  foldr (λ t m, if decide (hll_index b t = i) then Z.max (hll_pos t) m else m) 0 st.

Lemma hll_pos_range t : 1 ≤ hll_pos t.
Proof.
  unfold hll_pos. destruct (_ =? 0); [lia|]. pose proof (uw_range 32 (hll_hash t) ltac:(lia)) as [H0 H1].
  destruct (decide (u32 (hll_hash t) = 0)) as [->|Hne]; [done|]. apply Z.log2_lt_pow2 in H1; lia.
Qed.

Lemma peak_cons b i t st : peak b i (t :: st) = if decide (hll_index b t = i) then Z.max (hll_pos t) (peak b i st) else peak b i st.
Proof. done. Qed.

Lemma peak_nonneg b i st : 0 ≤ peak b i st.
Proof. induction st as [|t st IH]; [done|]. rewrite peak_cons. destruct (decide _); lia. Qed.

Lemma peak_app b i st1 st2 : peak b i (st1 ++ st2) = Z.max (peak b i st1) (peak b i st2).
Proof.
  pose proof (peak_nonneg b i st2). induction st1 as [|t st1 IH]; cbn [app].
  - change (peak b i []) with 0. lia.
  - rewrite !peak_cons, IH. destruct (decide _); lia.
Qed.

Definition hll_of (b : Z) (alpha : Z) (m : nat) (g : nat → Z) : hyperloglog := Hyperloglog b m alpha (map g (seq 0 m)).

Lemma hll_ext b alpha m g g' : (∀ i, (i < m)%nat → g i = g' i) → hll_of b alpha m g = hll_of b alpha m g'.
Proof. intros E. unfold hll_of. f_equal. apply map_ext_in. intros i Hi%in_seq. apply E. lia. Qed.

Lemma new_hyperloglog_ok b s : new_hyperloglog b = Ok s → ∃ alpha, 4 ≤ b < 31 ∧ s = hll_of b alpha (Z.to_nat (2 ^ b)) (λ _, 0).
Proof.
  unfold new_hyperloglog, bins. destruct (Z.ltb_spec b 31) as [Hb|]; [|done]. cbn [mbind outcome_bind].
  destruct (_ <? 16)%nat eqn:Em; [done|]. apply Nat.ltb_ge in Em. intros [= <-]. eexists.
  assert (4 ≤ b) as Hb4.
  { apply Z.nlt_ge. intros Hlt. destruct (decide (b < 0)).
    - assert (1 < 2 ^ (- b)) by (apply Z.pow_gt_1; lia). rewrite Z.shiftl_div_pow2, Z.div_small in Em by lia. cbn in Em. lia.
    - assert (b = 0 ∨ b = 1 ∨ b = 2 ∨ b = 3) as Hc by lia. destruct Hc as [->|[->|[->| ->]]]; apply Nat.leb_le in Em; vm_compute in Em; done. }
  split; [lia|]. unfold hll_of. rewrite Z.shiftl_mul_pow2, Z.mul_1_l by lia. by rewrite map_const_seq.
Qed.

Lemma map_seq_insert {A} (g : nat → A) m i v : (i < m)%nat →
  <[i := v]> (map g (seq 0 m)) = map (λ j, if decide (j = i) then v else g j) (seq 0 m).
Proof.
  intros Hi. apply list_eq. intros j. destruct (decide (j < m)%nat) as [Hj|Hj].
  - rewrite (list_lookup_fmap (λ j, if decide (j = i) then v else g j)), lookup_seq_lt by done. cbn. destruct (decide (j = i)) as [->|Hne].
    + by rewrite list_lookup_insert_eq by (by rewrite length_map, length_seq).
    + rewrite list_lookup_insert_ne by done. by rewrite list_lookup_fmap, lookup_seq_lt by done.
  - rewrite !lookup_ge_None_2; [done|rewrite length_map, length_seq; lia|rewrite length_insert, length_map, length_seq; lia].
Qed.

Lemma hash64_range x : is_u64 (hash64 x).
Proof. apply uw_range. lia. Qed.

Lemma hll_add_ok b alpha g t : 4 ≤ b < 31 → lucky t → hll_add std_hash t (hll_of b alpha (Z.to_nat (2 ^ b)) g) =
  Ok (hll_of b alpha (Z.to_nat (2 ^ b)) (λ i, if decide (hll_index b t = i) then Z.max (g i) (hll_pos t) else g i)).
Proof.
  intros Hb Hl. unfold hll_add. fold (hll_hash t). cbn [hll_of m_b m_m m_alpha m_buckets]. fold (hll_index b t).
  assert ((if negb (hll_hash t =? 0) then z ← builtin_clz (hll_hash t); Ok (1 + z) else Ok 8) = Ok (hll_pos t)) as ->.
  { unfold hll_pos, builtin_clz. destruct (Z.eqb_spec (hll_hash t) 0); cbn [negb]; [done|]. destruct Hl as [?|Hl]; [done|].
    rewrite (proj2 (Z.eqb_neq _ _) Hl). cbn [mbind outcome_bind]. f_equal. lia. }
  cbn [mbind outcome_bind].
  assert (hll_index b t < Z.to_nat (2 ^ b))%nat as Hi.
  { unfold hll_index. pose proof (hash64_range (hash64 (std_hash t))) as Hr. fold (hll_hash t) in Hr. destruct Hr as [Hr0 Hr].
    rewrite Z.shiftr_div_pow2 by lia. assert (hll_hash t / 2 ^ (64 - b) < 2 ^ b); [|pose proof (Z.div_pos (hll_hash t) (2 ^ (64 - b))); lia].
    apply Z.div_lt_upper_bound; [lia|]. rewrite <- Z.pow_add_r by lia. by replace (64 - b + b) with 64 by lia. }
  rewrite list_lookup_fmap, lookup_seq_lt by done. cbn [fmap option_fmap option_map or_trap mbind outcome_bind].
  rewrite map_seq_insert by done. unfold hll_of. do 2 f_equal. apply map_ext. intros j. cbn. destruct (decide (hll_index b t = j)) as [<-|Hne].
  - by rewrite decide_True.
  - by rewrite decide_False.
Qed.

Lemma add_stream_hll b alpha st : ∀ pre, 4 ≤ b < 31 → Forall lucky st →
  add_stream (hll_add std_hash) st (hll_of b alpha (Z.to_nat (2 ^ b)) (λ i, peak b i pre)) = Ok (hll_of b alpha (Z.to_nat (2 ^ b)) (λ i, peak b i (pre ++ st))).
Proof.
  induction st as [|t st IH]; intros pre Hb Hl; [by rewrite app_nil_r|]. apply Forall_cons in Hl as [Ht Hl]. cbn [add_stream].
  rewrite hll_add_ok by done. cbn [mbind outcome_bind]. rewrite (cons_middle t), app_assoc, <- IH by done. f_equal. apply hll_ext. intros i _.
  rewrite peak_app, peak_cons. change (peak b i []) with 0. pose proof (hll_pos_range t). pose proof (peak_nonneg b i pre).
  destruct (decide _); lia.
Qed.

Lemma hll_combine_ok b alpha m g d : hll_combine (hll_of b alpha m d) (hll_of b alpha m g) = Ok (hll_of b alpha m (λ i, Z.max (g i) (d i))).
Proof.
  unfold hll_combine. cbn [hll_of m_b m_m m_alpha m_buckets]. rewrite !length_map, !length_seq, Nat.eqb_refl. cbn [negb].
  match goal with |- context [for_from m 0 ?f _] =>
    destruct (for_from_inv f (λ i bs, bs = map (λ j, if decide (j < i)%nat then Z.max (g j) (d j) else g j) (seq 0 m)) m 0 (map g (seq 0 m))) as (bs & -> & ->) end.
  - apply map_ext. intros j. by rewrite decide_False by lia.
  - intros i bs [_ Hi] ->. rewrite !list_lookup_fmap, lookup_seq_lt by done. cbn [fmap option_fmap option_map or_trap mbind outcome_bind].
    eexists. split; [done|]. rewrite map_seq_insert by done. apply map_ext. intros j. cbn. destruct (decide (j = i)) as [->|Hne].
    + rewrite (decide_False (P := (i < i)%nat)) by lia. by rewrite decide_True by lia.
    + destruct (decide (j < i)%nat); [by rewrite decide_True by lia|by rewrite decide_False by lia].
  - cbn [mbind outcome_bind]. f_equal. apply hll_ext. intros i Hi. by rewrite decide_True by lia.
Qed.
End streams.
End SketchesSpec.
