(* ===== verification/SketchCorrectness.v ===== *)
(** The properties of the hashes and of the sketches, one theorem per claim, with concrete streams
    on which the hypotheses of a claim hold. *)
From stdpp Require Import sorting.
From S2P Require Import Prelude FlexOps SFrame SortOrderSpec Hash SpaceSaving SpaceSavingSpec Sketches SketchesSpec.
Local Open Scope Z_scope.
Local Open Scope sframe_scope.

Module Hashing.
Import Hash HashSpec.

(** C34: the hashes of one integer and of a 128-bit integer are unique: different words have
    different hashes; [index_hash] and [reverse_index_hash] are inverse of each other. The hash of
    two words into one is not unique, though its comment says so: it takes each value on several pairs. *)
Theorem hashes_are_unique :
  (∀ x y, is_u64 x → is_u64 y → hash64 x = hash64 y → x = y) ∧
  (∀ x y, is_u64 x → is_u64 y → hash128 x = hash128 y → x = y) ∧
  (∀ v w, is_words v → is_words w → hash128_uint128 v = hash128_uint128 w → v = w) ∧
  (∀ x, is_u64 x → reverse_index_hash (index_hash x) = x ∧ index_hash (reverse_index_hash x) = x) ∧
  (∀ d, is_u64 d → ∃ v w, v ≠ w ∧ is_words v ∧ is_words w ∧ hash64_of_two v.1 v.2 = d ∧ hash64_of_two w.1 w.2 = d).
Proof.
  assert (∀ r r', uint128_of r = uint128_of r' → r = r') as Huint by (intros [] []; unfold uint128_of; cbn; congruence). split_and!.
  - intros x y Hx Hy. by apply (inverse_inj _ _ _ _ simple_inverse).
  - intros x y Hx Hy E%Huint. assert (is_u64 0x6e626e7774e95a48) as Hc by (apply (bool_decide_unpack _); vm_compute; exact I).
    apply Simple128_inj in E; [congruence|split; cbn; auto with hash..].
  - intros [v1 v2] [w1 w2] Hv Hw E%Huint. apply Murmor_inj in E; [done| |done..]. apply (bool_decide_unpack _). vm_compute. exact I.
  - intros x Hx. split; by apply index_inverse.
  - intros d Hd. apply xor_of_two; [|done]. apply (bool_decide_unpack _). vm_compute. exact I.
Qed.

Lemma hashes_are_unique_witness : reverse_index_hash (index_hash 42) = 42 ∧ hash64 42 ≠ hash64 43.
Proof.
  destruct hashes_are_unique as (H1 & _ & _ & H2 & _). split.
  - exact (proj1 (H2 42 ltac:(unfold is_u; lia))).
  - intros E. pose proof (H1 42 43 ltac:(unfold is_u; lia) ltac:(unfold is_u; lia) E) as E'. discriminate E'.
Defined.

End Hashing.

Module Sketching.
Import FlexOps SortOrderSpec.

Section frequent.
Import SpaceSaving SpaceSavingSpec.
Context {T : Type} `{Countable T} (hashkey : T → Z) (key_is_exact : bool) (oob : Z → Z) (epsilon : Z).
Hypothesis exact : key_is_exact = true → Inj (=) (=) hashkey.

Lemma add_all_new ts : (0 < capacity_of oob epsilon)%nat → Z.of_nat (length ts) < 2 ^ 64 → ∃ s,
  add_all hashkey key_is_exact (map (λ t, (t, 1)) ts) (new_sketch oob epsilon) = Ok s ∧ sketch_ok (capacity_of oob epsilon) epsilon ts s.
Proof using exact.
  intros Hc Hl. destruct (new_sketch_ok hashkey (capacity_of oob epsilon) epsilon oob eq_refl Hc) as [Hs Hk].
  by destruct (sketch_add_all_ok hashkey key_is_exact exact _ epsilon ts [] _ Hs Hk Hl) as (s & E & Hok); exists s.
Qed.

(** C18: the sketch of frequent items takes any stream of items. If it has room for an entry more than
    there are different items, it reports exactly the items, with their counts. In any case the
    counts it reports are no less than the true ones; it reports every item that reaches the
    threshold and more than the average of an entry; and an item it reports as guaranteed has its
    true count or reaches the threshold. *)
Theorem space_saving_guarantees ts : (0 < capacity_of oob epsilon)%nat → Z.of_nat (length ts) < 2 ^ 64 → ∃ s,
  add_all hashkey key_is_exact (map (λ t, (t, 1)) ts) (new_sketch oob epsilon) = Ok s ∧
  ((length (remove_dups ts) < capacity_of oob epsilon)%nat → ∀ v c,
    ((v, c) ∈ frequent_items oob s ↔ occurrences v ts = c ∧ 0 < c) ∧
    ((v, c) ∈ guaranteed_frequent_items oob s ↔ occurrences v ts = c ∧ 0 < c)) ∧
  (∀ v c, (v, c) ∈ frequent_items oob s → occurrences v ts ≤ c) ∧
  (∀ v, threshold oob s ≤ occurrences v ts → Z.of_nat (length ts) < occurrences v ts * Z.of_nat (capacity_of oob epsilon) →
    ∃ c, (v, c) ∈ frequent_items oob s) ∧
  (∀ v c, (v, c) ∈ guaranteed_frequent_items oob s → occurrences v ts ≤ c ∧ (occurrences v ts = c ∨ threshold oob s ≤ occurrences v ts)).
Proof using exact.
  intros Hc Hl. destruct (add_all_new ts Hc Hl) as (s & E & Hok). exists s. split; [done|]. by eapply queries_ok.
Qed.

(** C35: a defect of the combination of two sketches: different items that a sketch reports,
    with their exact counts, are not all kept when it is combined into an empty one. There is room for
    them, but only as many are kept as there is room left. *)
Theorem combined_sketches_lose vs : NoDup vs → (0 < length vs < capacity_of oob epsilon)%nat → Z.of_nat (length vs) < 2 ^ 64 → ∃ o s,
  add_all hashkey key_is_exact (map (λ t, (t, 1)) vs) (new_sketch oob epsilon) = Ok o ∧
  combine o (new_sketch oob epsilon) = Ok s ∧
  length (frequent_items oob o) = length vs ∧
  length (frequent_items oob s) = (length vs `min` (capacity_of oob epsilon - length vs))%nat.
Proof using exact.
  intros Hnd Hlen Hl. destruct (add_all_new vs ltac:(lia) Hl) as (o & E & Hok). exists o.
  destruct (combine_empty _ epsilon oob vs o Hok Hnd Hlen eq_refl) as (s & ? & ? & ?). by exists s.
Qed.
End frequent.

Section frequent_witnesses.
Import SpaceSaving SpaceSavingSpec.

(** One half, which gives a capacity of 3. *)
Definition one_half : Z := 0x3fe0000000000000.
(** One fourth, which gives a capacity of 5. *)
Definition one_fourth : Z := 0x3fd0000000000000.

Lemma space_saving_guarantees_witness : ∃ s,
  add_all (λ z : Z, z) true (map (λ t, (t, 1)) [1; 2; 1; 3; 4]) (new_sketch (λ _, 0) one_half) = Ok s ∧
  ∃ c, (1, c) ∈ frequent_items (λ _, 0) s.
Proof.
  assert (true = true → Inj (=) (=) (λ z : Z, z)) as He by (intros _ x y E; exact E).
  destruct (space_saving_guarantees (λ z : Z, z) true (λ _, 0) one_half He [1; 2; 1; 3; 4]) as (s & E & _ & _ & Hf & _).
  - apply Nat.ltb_lt. vm_compute. reflexivity.
  - vm_compute. reflexivity.
  - exists s. split; [exact E|]. apply Hf; [|vm_compute; reflexivity].
    assert (outcome_option (add_all (λ z : Z, z) true (map (λ t, (t, 1)) [1; 2; 1; 3; 4]) (new_sketch (λ _, 0) one_half)) = Some s) as E' by (rewrite E; reflexivity).
    assert (threshold (λ _, 0) <$> outcome_option (add_all (λ z : Z, z) true (map (λ t, (t, 1)) [1; 2; 1; 3; 4]) (new_sketch (λ _, 0) one_half)) = Some 2) as Ht
      by (vm_compute; reflexivity).
    rewrite E' in Ht. injection Ht as ->. vm_compute. discriminate.
Defined.

Lemma combined_sketches_lose_witness : NoDup [1; 2; 3; 4] ∧ ∃ o s,
  add_all (λ z : Z, z) false (map (λ t, (t, 1)) [1; 2; 3; 4]) (new_sketch (λ _, 0) one_fourth) = Ok o ∧
  combine o (new_sketch (λ _, 0) one_fourth) = Ok s ∧
  length (frequent_items (λ _, 0) o) = 4%nat ∧ length (frequent_items (λ _, 0) s) = 1%nat.
Proof.
  assert (NoDup [1; 2; 3; 4]) as Hnd by (apply (bool_decide_unpack _); vm_compute; exact I).
  split; [exact Hnd|].
  destruct (combined_sketches_lose (λ z : Z, z) false (λ _, 0) one_fourth ltac:(intros E; discriminate E) [1; 2; 3; 4] Hnd) as (o & s & E1 & E2 & E3 & E4).
  - split; apply Nat.ltb_lt; vm_compute; reflexivity.
  - vm_compute. reflexivity.
  - exists o, s. split; [exact E1|]. split; [exact E2|]. split; [exact E3|]. rewrite E4. vm_compute. reflexivity.
Defined.
End frequent_witnesses.

Section streams.
Import Hash Sketches SketchesSpec.
Context {T : Type} `{EqDecision T} (std_hash : T → Z).

(** C24: sketches with the same random numbers can be combined: the combination of the sketches of
    two streams is the sketch of one stream after the other. This holds of the three sketches; for
    [hyperloglog], of items whose hash has no leading zeros that are not defined. *)
Theorem combining_is_one_stream bits depth draw :
  (∀ s0 st1 st2, new_countmin bits depth draw = Ok s0 → ∃ s1 s2 s,
    add_stream (λ tc, add std_hash tc.1 tc.2) st1 s0 = Ok s1 ∧ add_stream (λ tc, add std_hash tc.1 tc.2) st2 s0 = Ok s2 ∧
    combine s2 s1 = Ok s ∧ add_stream (λ tc, add std_hash tc.1 tc.2) (st1 ++ st2) s0 = Ok s) ∧
  (∀ s0 st1 st2, new_countsketch bits depth draw = Ok s0 → ∃ s1 s2 s,
    add_stream (λ tc, cs_add std_hash tc.1 tc.2) st1 s0 = Ok s1 ∧ add_stream (λ tc, cs_add std_hash tc.1 tc.2) st2 s0 = Ok s2 ∧
    cs_combine s2 s1 = Ok s ∧ add_stream (λ tc, cs_add std_hash tc.1 tc.2) (st1 ++ st2) s0 = Ok s) ∧
  (∀ s0 st1 st2, new_hyperloglog bits = Ok s0 → Forall (lucky std_hash) (st1 ++ st2) → ∃ s1 s2 s,
    add_stream (hll_add std_hash) st1 s0 = Ok s1 ∧ add_stream (hll_add std_hash) st2 s0 = Ok s2 ∧
    hll_combine s2 s1 = Ok s ∧ add_stream (hll_add std_hash) (st1 ++ st2) s0 = Ok s).
Proof.
  split_and!.
  - intros s0 st1 st2 (m & Hm & ->)%new_countmin_ok. pose proof (λ st, add_stream_countmin std_hash bits depth m draw st [] Hm) as Hadd.
    cbn [app] in Hadd. eexists _, _, _. rewrite !Hadd, combine_countmin. split_and!; try done. f_equal. apply countmin_ext. intros j b _ _.
    unfold weight. by rewrite sum_of_app, uw_add_l, uw_add_r.
  - intros s0 st1 st2 (m & Hm & ->)%new_countsketch_ok. pose proof (λ st, add_stream_countsketch std_hash bits depth m draw st [] Hm) as Hadd.
    cbn [app] in Hadd. eexists _, _, _. rewrite !Hadd, combine_countsketch. split_and!; try done. f_equal. apply countsketch_ext. intros j b _ _.
    unfold signed_weight. by rewrite sum_of_app, s64_add.
  - intros s0 st1 st2 (alpha & Hb & ->)%new_hyperloglog_ok [H1 H2]%Forall_app.
    pose proof (λ st, add_stream_hll std_hash bits alpha st [] Hb : _ → add_stream _ _ (hll_of _ _ _ (λ _, 0)) = _) as Hadd. eexists _, _, _.
    rewrite (Hadd st1), (Hadd st2), (Hadd (st1 ++ st2)), hll_combine_ok by (done || by apply Forall_app). split_and!; try done. f_equal. apply hll_ext. intros i _.
    cbn [app]. by rewrite peak_app.
Qed.

(** C25: the estimate of [countmin] is no less than the count of an item, and is that of the items that share
    its bin in some row, when the counts do not overflow; that of [countsketch] is the count of the
    item, modulo [2^64], when in more than half of the rows no other item of the stream shares its bin. *)
Theorem frequency_estimates_hold bits depth draw st :
  (∀ s0, new_countmin bits depth draw = Ok s0 → ∃ s, add_stream (λ tc, add std_hash tc.1 tc.2) st s0 = Ok s ∧ ∀ t,
    (0 < depth)%nat → Forall (λ tc, 0 ≤ tc.2) st → sum_of snd st < 2 ^ 64 → ∃ E, estimate std_hash t s = Ok E ∧ total t st ≤ E ∧
    ∃ j, (j < depth)%nat ∧ E = sum_of (λ tc, if decide (row_bin std_hash (num_bins s) (draw j) tc.1 = row_bin std_hash (num_bins s) (draw j) t) then tc.2 else 0) st) ∧
  (∀ s0, new_countsketch bits depth draw = Ok s0 → ∃ s, add_stream (λ tc, cs_add std_hash tc.1 tc.2) st s0 = Ok s ∧ ∀ t,
    (depth < 2 * length (filter (λ j, Forall (λ tc, row_bin std_hash (cs_num_bins s) (draw (2 * j)%nat) tc.1 =
      row_bin std_hash (cs_num_bins s) (draw (2 * j)%nat) t → tc.1 = t) st) (seq 0 depth)))%nat →
    cs_estimate std_hash t s = Ok (s64 (total t st))).
Proof.
  split.
  - intros s0 (m & Hm & ->)%new_countmin_ok. eexists. split; [exact (add_stream_countmin std_hash bits depth m draw st [] Hm)|].
    intros t Hd Hst Hsum. by apply countmin_estimate_ok.
  - intros s0 (m & Hm & ->)%new_countsketch_ok. eexists. split; [exact (add_stream_countsketch std_hash bits depth m draw st [] Hm)|].
    intros t Hmaj. by apply countsketch_estimate_ok.
Qed.
End streams.

Section stream_witnesses.
Import Hash Sketches SketchesSpec.

Definition some_draw (j : nat) : Z := Z.of_nat (3 * j + 1).

Lemma combining_is_one_stream_witness :
  (∃ s1 s2 s, new_countmin 4 2 some_draw ≫= add_stream (λ tc, add u64 tc.1 tc.2) [(7, 2); (9, 1)] = Ok s1 ∧
    new_countmin 4 2 some_draw ≫= add_stream (λ tc, add u64 tc.1 tc.2) [(7, 5)] = Ok s2 ∧ combine s2 s1 = Ok s ∧
    estimate u64 7 s = Ok 7) ∧
  (∃ s1 s2 s, new_hyperloglog 4 ≫= add_stream (hll_add u64) [7; 9] = Ok s1 ∧ new_hyperloglog 4 ≫= add_stream (hll_add u64) [8] = Ok s2 ∧
    hll_combine s2 s1 = Ok s).
Proof.
  destruct (combining_is_one_stream u64 4 2 some_draw) as (Hm & _ & Hh). split.
  - destruct (new_countmin 4 2 some_draw) as [s0| |] eqn:E0; [|vm_compute in E0; discriminate E0|vm_compute in E0; discriminate E0].
    destruct (Hm s0 [(7, 2); (9, 1)] [(7, 5)] eq_refl) as (s1 & s2 & s & E1 & E2 & E3 & E4).
    exists s1, s2, s. split; [exact E1|]. split; [exact E2|]. split; [exact E3|].
    assert ((new_countmin 4 2 some_draw ≫= add_stream (λ tc, add u64 tc.1 tc.2) [(7, 2); (9, 1); (7, 5)]) ≫= estimate u64 7 = Ok 7) as E by (vm_compute; reflexivity).
    rewrite E0 in E. cbn [mbind outcome_bind] in E. cbn [app] in E4. rewrite E4 in E. exact E.
  - destruct (new_hyperloglog 4) as [s0| |] eqn:E0; [|vm_compute in E0; discriminate E0|vm_compute in E0; discriminate E0].
    destruct (Hh s0 [7; 9] [8] eq_refl) as (s1 & s2 & s & E1 & E2 & E3 & _).
    + apply (bool_decide_unpack _). vm_compute. exact I.
    + exists s1, s2, s. split; [exact E1|]. split; [exact E2|exact E3].
Defined.

Lemma frequency_estimates_hold_witness :
  (∃ s, new_countmin 4 2 some_draw ≫= add_stream (λ tc, add u64 tc.1 tc.2) [(7, 2); (9, 1)] = Ok s ∧ ∃ E, estimate u64 7 s = Ok E ∧ 2 ≤ E) ∧
  (∃ s, new_countsketch 4 3 some_draw ≫= add_stream (λ tc, cs_add u64 tc.1 tc.2) [(7, 2); (8, 1)] = Ok s ∧ cs_estimate u64 7 s = Ok 2).
Proof.
  destruct (frequency_estimates_hold u64 4 2 some_draw [(7, 2); (9, 1)]) as (Hm & _).
  destruct (frequency_estimates_hold u64 4 3 some_draw [(7, 2); (8, 1)]) as (_ & Hs). split.
  - destruct (new_countmin 4 2 some_draw) as [s0| |] eqn:E0; [|vm_compute in E0; discriminate E0|vm_compute in E0; discriminate E0].
    destruct (Hm s0 eq_refl) as (s & E & Hs'). exists s. split; [exact E|].
    destruct (Hs' 7) as (e & He & Hle & _).
    + apply Nat.ltb_lt. reflexivity.
    + apply (bool_decide_unpack _). vm_compute. exact I.
    + vm_compute. reflexivity.
    + exists e. split; [exact He|exact Hle].
  - destruct (new_countsketch 4 3 some_draw) as [s0| |] eqn:E0; [|vm_compute in E0; discriminate E0|vm_compute in E0; discriminate E0].
    destruct (Hs s0 eq_refl) as (s & E & Hs'). exists s. split; [exact E|].
    assert (cs_num_bins s = 16%nat) as Hbins.
    { assert (cs_num_bins <$> outcome_option (new_countsketch 4 3 some_draw ≫= add_stream (λ tc, cs_add u64 tc.1 tc.2) [(7, 2); (8, 1)]) = Some 16%nat) as Eb
        by (vm_compute; reflexivity). rewrite E0 in Eb. cbn [mbind outcome_bind] in Eb. rewrite E in Eb. injection Eb as Eb. exact Eb. }
    rewrite (Hs' 7); [reflexivity|]. rewrite Hbins. apply Nat.ltb_lt. vm_compute. reflexivity.
Defined.
End stream_witnesses.
End Sketching.
