(* ===== verification/Correctness.v ===== *)
(** The properties of the program, one theorem per claim, with the concrete inputs on which
    the hypotheses of a claim hold. The proofs are in the files of the components. *)
From S2P Require Import Prelude Bitops IntegerPack Bitset Float64 FloatArith FlexType FlexRef.
From S2P Require Import FlexOps FlexOpsSpec TypeEncoding TypeEncodingSpec StringEscape.
From S2P Require Import CsvTokenizer CsvWriter CsvRoundTrip.
Local Open Scope Z_scope.

(** Closes the boolean and bounded side conditions of a concrete input. *)
Ltac concrete :=
  first [ by vm_compute
        | apply bool_decide_unpack; vm_compute; exact I
        | intros; vm_compute; split; congruence ].

(** * Column blocks *)

Module Blocks.
Import FlexType TypeEncoding TypeEncodingSpec.




(** On a column of a type without an encoding of its own (here date-times) the stream
    decoder calls back once per value and then repeats the UNDEFINED values that start the
    block: a block of two values gives three calls. *)
Theorem stream_repeats_leading_undefined :
  let d := FDateTime (MkDateTime 10 0 25 0) in
  ∃ info bs, typed_encode (λ _, 0) 0 [FUndefined; d] default_block_info = Some (info, bs) ∧
    num_elem info = 2 ∧
    typed_decode 1 info [] bs = Some ((true, [FUndefined; d]), []) ∧
    typed_decode_stream_callback 1 info bs = Some ((true, [FUndefined; d; FUndefined]), []).
Proof.
  exists (MkBlockInfo 18446744073709551615 0 22 2 2 0),
    [2; 6; 1; 0; 0; 0; 0; 0; 0; 0; 10; 0; 0; 0; 0; 0; 0; 25; 0; 0; 0; 0].
  split_and!; by vm_compute.
Qed.

(** C10: [frame_of_reference_decode_128] reads back what [frame_of_reference_encode_128] writes,
    for any block of at most 128 unsigned 64-bit values, whichever of its three codings the
    encoder picks, and leaves the rest of the input unread. *)
Theorem packed_integers_round_trip vs :
  Forall is_u64 vs → (length vs ≤ 128)%nat →
  ∃ bs, IntegerPack.frame_of_reference_encode_128 vs = Some bs ∧
    ∀ rest, IntegerPack.frame_of_reference_decode_128 (length vs) (bs ++ rest) = Some (vs, rest).
Proof. exact (IntegerPack.frame_of_reference_round_trip vs). Qed.

Lemma packed_integers_round_trip_witness :
  ∃ bs, IntegerPack.frame_of_reference_encode_128 [7; 7; 1000; 18446744073709551615; 3] = Some bs ∧
    ∀ rest, IntegerPack.frame_of_reference_decode_128 5 (bs ++ rest)
      = Some ([7; 7; 1000; 18446744073709551615; 3], rest).
Proof.
  apply (packed_integers_round_trip [7; 7; 1000; 18446744073709551615; 3]);
    [by repeat constructor|cbn; lia].
Defined.

(** The variable-length code of an unsigned 64-bit integer takes one to nine bytes, and
    [variable_decode] reads the integer back from the start of any input. *)
Theorem variable_integer_round_trip s :
  is_u64 s →
  ∃ bs, IntegerPack.variable_encode s = Some bs ∧ (1 ≤ length bs ≤ 9)%nat ∧
    ∀ rest, IntegerPack.variable_decode (bs ++ rest) = Some (s, rest).
Proof.
  intros Hs. destruct (IntegerPack.variable_decode_encode s Hs) as (bs & He & Hd).
  exists bs. split_and!; [done|by eapply IntegerPack.variable_encode_length..|done].
Qed.

Lemma variable_integer_round_trip_witness :
  ∃ bs, IntegerPack.variable_encode 18446744073709551615 = Some bs ∧ (1 ≤ length bs ≤ 9)%nat ∧
    ∀ rest, IntegerPack.variable_decode (bs ++ rest) = Some (18446744073709551615, rest).
Proof. by apply variable_integer_round_trip. Defined.

(** [shifted_integer_encode] maps a signed 64-bit integer to [2v] or [-2v - 1], an unsigned
    64-bit integer, and [shifted_integer_decode] is its inverse. *)
Theorem shifted_integer_bijection v :
  is_s64 v →
  IntegerPack.shifted_integer_encode v = (if v <? 0 then -2 * v - 1 else 2 * v) ∧
  is_u64 (IntegerPack.shifted_integer_encode v) ∧
  IntegerPack.shifted_integer_decode (IntegerPack.shifted_integer_encode v) = v.
Proof.
  intros Hv. rewrite (IntegerPack.shifted_integer_encode_spec v Hv) at 1 2.
  split_and!; [done| |by apply IntegerPack.shifted_integer_decode_encode].
  unfold is_s64, is_s, is_u64, is_u in *. eval_pow. destruct (Z.ltb_spec v 0); lia.
Qed.

Lemma shifted_integer_bijection_witness :
  IntegerPack.shifted_integer_encode (-9223372036854775808)
    = (if -9223372036854775808 <? 0 then -2 * -9223372036854775808 - 1
       else 2 * -9223372036854775808) ∧
  is_u64 (IntegerPack.shifted_integer_encode (-9223372036854775808)) ∧
  IntegerPack.shifted_integer_decode (IntegerPack.shifted_integer_encode (-9223372036854775808))
    = -9223372036854775808.
Proof. by apply (shifted_integer_bijection (-9223372036854775808)). Defined.

(** For each of the seven bit widths, the packing routine puts [n] values of that width in
    the fewest bytes that hold them, and the unpacking routine gives the values back. *)
Theorem pack_unpack nbits vs :
  nbits ∈ [1; 2; 4; 8; 16; 32; 64] → Forall (is_u nbits) vs → (0 < length vs)%nat →
  ∃ bs, IntegerPack.pack_values nbits vs = Some bs ∧
    IntegerPack.unpack_values nbits bs (length vs) = Some vs ∧
    Z.of_nat (length bs) = (nbits * Z.of_nat (length vs) + 7) / 8.
Proof. intros Hn. exact (IntegerPack.unpack_pack_values nbits Hn vs). Qed.

Lemma pack_unpack_witness :
  ∃ bs, IntegerPack.pack_values 2 [3; 0; 1; 2; 1] = Some bs ∧
    IntegerPack.unpack_values 2 bs 5 = Some [3; 0; 1; 2; 1] ∧ Z.of_nat (length bs) = (2 * 5 + 7) / 8.
Proof.
  apply (pack_unpack 2 [3; 0; 1; 2; 1]); [|by repeat constructor|cbn; lia].
  apply elem_of_cons. right. apply elem_of_cons. by left.
Defined.

End Blocks.

(** * Values that share their payload *)

Module Sharing.
Import FlexType FlexRef.

(** C15: [flexible_type] objects behave as independent values. Any sequence of constructions,
    copies, moves, resets, mutations and destructions that a program without sharing may run,
    the reference-counted program runs to its end (no dangling pointer is followed), and every
    object then has the value it has without sharing; [zs] are the integers that the
    moved-from objects read. *)
Theorem sharing_is_invisible leftover cs s m :
  represents s m → allowed cs m →
  ∃ s' zs m', run leftover cs s = Some s' ∧ length zs = length cs ∧
    spec_run zs cs m = Some m' ∧ ∀ x, value s' x = m' !! x.
Proof.
  intros Hr Ha. destruct (run_refines leftover cs s m Hr Ha) as (s' & zs & m' & H1 & H2 & H3 & H4).
  exists s', zs, m'. split_and!; [done..|apply H4].
Qed.

Definition commands : list command :=
  [Construct 0%nat; ResetTo STRING 0%nat; Construct 1%nat; Assign 1%nat 0%nat;
   Mutate (λ _, FString [97]) 0%nat; AssignMove 1%nat 0%nat; Destroy 0%nat].

Lemma commands_allowed : allowed commands ∅.
Proof.
  intros zs Hl. do 7 (destruct zs as [|? zs]; [done|]). destruct zs; [|done].
  eexists. vm_compute. reflexivity.
Defined.

Lemma sharing_is_invisible_witness :
  ∃ s' zs m', run (λ _, 0) commands empty_store = Some s' ∧ length zs = 7%nat ∧
    spec_run zs commands ∅ = Some m' ∧ ∀ x, value s' x = m' !! x.
Proof.
  apply (sharing_is_invisible (λ _, 0) commands empty_store ∅);
    [apply represents_empty|apply commands_allowed].
Defined.

(** A mutation through one object is seen by no other: [mutate] first gives the object a
    payload of its own when the payload is shared, so that the values of all other objects are
    what they were, and the reference counts are the numbers of handles again. *)
Theorem mutation_is_private f x s v :
  inv s → value s x = Some v → get_type (f v) = get_type v →
  ∃ s', mutate f x s = Some s' ∧ inv s' ∧ value s' x = Some (f v) ∧
    (∀ z, z ≠ x → value s' z = value s z) ∧
    ∀ h l, objects s' !! x = Some h → loc_of h = Some l → refs (objects s') l = 1%nat.
Proof.
  intros Hi Hv Hf. destruct (mutate_spec f x s v Hi Hv Hf) as (s' & H1 & H2 & H3 & H4).
  exists s'. split_and!; [done..|]. intros h l. by apply (mutate_alone f x s s').
Qed.

Definition shared_pair : store :=
  MkStore {[0%nat := Ref STRING 0%nat; 1%nat := Ref STRING 0%nat]}
    {[0%nat := (2%nat, FString [98])]}.

Lemma shared_pair_inv : inv shared_pair.
Proof.
  destruct (run_refines (λ _, 0) [Construct 0%nat; ResetTo STRING 0%nat; Mutate (λ _, FString [98]) 0%nat;
    Construct 1%nat; Assign 1%nat 0%nat] empty_store ∅ represents_empty) as (s & zs & m & Hrun & _ & _ & Hr & _).
  - intros zs Hl. do 5 (destruct zs as [|? zs]; [done|]). destruct zs; [|done].
    eexists. vm_compute. reflexivity.
  - vm_compute in Hrun. injection Hrun as <-. exact Hr.
Defined.

Lemma mutation_is_private_witness :
  ∃ s', mutate (λ _, FString [97]) 0%nat shared_pair = Some s' ∧ inv s' ∧
    value s' 0%nat = Some (FString [97]) ∧ (∀ z, z ≠ 0%nat → value s' z = value shared_pair z) ∧
    ∀ h l, objects s' !! 0%nat = Some h → loc_of h = Some l → refs (objects s') l = 1%nat.
Proof.
  apply (mutation_is_private (λ _, FString [97]) 0%nat shared_pair (FString [98]));
    [apply shared_pair_inv|by vm_compute|done].
Defined.

(** C33: nothing leaks and nothing dangles: after any commands a program without sharing may
    run, starting without objects, a payload exists exactly when some object refers to it, and
    its count is the number of these objects. *)
Theorem payloads_are_counted leftover cs :
  allowed cs ∅ →
  ∃ s', run leftover cs empty_store = Some s' ∧
    (∀ l, is_Some (cells s' !! l) ↔ ∃ x t, objects s' !! x = Some (Ref t l)) ∧
    ∀ l n p, cells s' !! l = Some (n, p) → n = refs (objects s') l ∧ (0 < n)%nat.
Proof.
  intros Ha. destruct (run_refines leftover cs empty_store ∅ represents_empty Ha)
    as (s' & zs & m' & Hrun & _ & _ & Hi & _).
  exists s'. split; [done|]. split; [intros l; by apply inv_no_leak|].
  intros l n p Hl. split; [|by eapply inv_live]. rewrite <- (inv_count s' Hi). unfold count. by rewrite Hl.
Qed.

Lemma payloads_are_counted_witness :
  ∃ s', run (λ _, 0) commands empty_store = Some s' ∧
    (∀ l, is_Some (cells s' !! l) ↔ ∃ x t, objects s' !! x = Some (Ref t l)) ∧
    ∀ l n p, cells s' !! l = Some (n, p) → n = refs (objects s') l ∧ (0 < n)%nat.
Proof. apply (payloads_are_counted (λ _, 0) commands), commands_allowed. Defined.

End Sharing.

(** * Values: serialization and times *)

Module Values.
Import FlexType.

(** C16: a value of any type, however nested, is read back by [load] from the bytes [save]
    writes, whatever follows them; the nesting bounds the fuel. *)
Theorem flexible_type_round_trip v fuel :
  valid v = true → (depth v ≤ fuel)%nat →
  ∃ bs, save v = Some bs ∧ ∀ rest, load fuel (bs ++ rest) = Some (v, rest).
Proof. exact (load_save v fuel). Qed.

Definition nested : flexible_type :=
  FDict [(FString [107], FList [FInt (-1); FUndefined; FVec [Float64.neg_zero]]);
         (FInt 3, FDateTime (MkDateTime 5 1 27 999999))].

Lemma flexible_type_round_trip_witness :
  ∃ bs, save nested = Some bs ∧ ∀ rest, load 3 (bs ++ rest) = Some (nested, rest).
Proof. apply (flexible_type_round_trip nested 3); [by vm_compute|cbn; lia]. Defined.

(** The checked constructor of a date-time accepts exactly the time zones from -48 to 48
    quarter hours (or none) and the microseconds below a million; the getters give back the
    arguments, the time stamp modulo its 56 bits, and the result can be serialized. *)
Theorem date_time_constructor ts tz us :
  (is_Some (make_date_time ts tz us) ↔
    (-48 ≤ tz ≤ 48 ∨ tz = EMPTY_TIMEZONE) ∧ 0 ≤ us < 1000000) ∧
  ∀ d, make_date_time ts tz us = Some d →
    posix_timestamp d = sw 56 ts ∧ time_zone_offset d = tz ∧ microsecond d = us ∧
    ∃ bs, save_date_time d = Some bs ∧ ∀ rest, load_date_time (bs ++ rest) = Some (d, rest).
Proof.
  split; [apply make_date_time_defined|]. intros d Hd.
  destruct (make_date_time_spec ts tz us d Hd) as (H1 & H2 & H3 & H4).
  split_and!; [done..|]. exact (date_time_round_trip d H4).
Qed.

(** A date-time of the old format (no microseconds, time zone in half hours) is read as the same instant, with the zone in quarter hours. *)
Theorem legacy_date_time low high tz rest :
  is_u 32 low → is_u 24 high → -24 ≤ tz ≤ 24 →
  ∃ d, load_date_time (le_bytes 4 low ++ le_bytes 3 high ++ le_bytes 1 (u8 tz) ++ rest) = Some (d, rest) ∧
    posix_timestamp d = posix_timestamp (MkDateTime low high tz 0) ∧
    time_zone_offset d = 2 * tz ∧ microsecond d = 0.
Proof. exact (load_legacy_date_time low high tz rest). Qed.

Lemma legacy_date_time_witness :
  ∃ d, load_date_time (le_bytes 4 1000 ++ le_bytes 3 0 ++ le_bytes 1 (u8 (-10)) ++ [1]) = Some (d, [1]) ∧
    posix_timestamp d = posix_timestamp (MkDateTime 1000 0 (-10) 0) ∧
    time_zone_offset d = 2 * -10 ∧ microsecond d = 0.
Proof. apply (legacy_date_time 1000 0 (-10) [1]); [done|done|lia]. Defined.

(** The test the block encoder makes before it writes a double as an integer loses nothing
    but the sign of a zero: a double that compares equal to its integer converted back is that
    integer's double, or is -0.0. *)
Theorem integer_code_is_exact oob b :
  (∀ x, is_s64 (oob x)) → is_u64 b → Float64.feq (Float64.i2f (Float64.f2i oob b)) b = true →
  Float64.i2f (Float64.f2i oob b) = b ∨ b = Float64.neg_zero.
Proof. exact (Float64.integer_code_safe oob b). Qed.

Lemma integer_code_is_exact_witness :
  Float64.i2f (Float64.f2i (λ _, 0) 4613937818241073152) = 4613937818241073152 ∨
  4613937818241073152 = Float64.neg_zero.
Proof. apply (integer_code_is_exact (λ _, 0)); [by intros _|done|by vm_compute]. Defined.

End Values.

(** * Values: operators and conversions *)

Module Operators.
Import FlexType FlexOps FlexOpsSpec.


(** The table announces the assignment of an image to an image, and the assignment throws. *)
Theorem image_assignment_throws oob oob32 overflow double_to_string iso i j :
  flex_type_is_convertible IMAGE IMAGE = true ∧
  soft_assignment_visitor oob oob32 overflow double_to_string iso (FImage i) (FImage j) = Throw.
Proof. apply soft_assign_image. Qed.



(** [>] is the converse of [<] on all pairs of values, exceptions included, and the two
    are never both true; in particular no value is less than itself. *)
Theorem comparison_converse t u :
  gt_operator t u = lt_operator u t ∧ lt_operator t u = gt_operator u t ∧
  exclusive (lt_operator t u) (gt_operator t u) ∧ lt_operator t t ≠ Ok true.
Proof.
  destruct (gt_is_lt t u) as [H1 H2]. split_and!; [done|done|apply lt_gt_exclusive|apply lt_irrefl].
Qed.

(** The table and the comparisons agree: a pair of types with [<] in the table is compared
    without exception, any other pair throws, but for two vectors, which are compared although
    the table does not have them, and two lists. *)
Theorem comparison_follows_table t u :
  (flex_type_has_binary_op (get_type t) (get_type u) Less = true → ∃ b, lt_operator t u = Ok b) ∧
  (flex_type_has_binary_op (get_type t) (get_type u) Less = false →
    unannounced (get_type t) (get_type u) = false → lt_operator t u = Throw) ∧
  ∀ v w, flex_type_has_binary_op VECTOR VECTOR Less = false ∧ ∃ b, lt_operator (FVec v) (FVec w) = Ok b.
Proof.
  split_and!; [apply comparison_announced|apply comparison_not_announced|].
  intros v w. split; [done|apply vectors_compare].
Qed.

(** Adding a number of seconds with a fraction to a date-time, and subtracting it, carries
    between the microseconds and the seconds: the result is the exact sum or difference in
    microseconds, its microseconds stay below a million, and the time zone is kept. [ip] and
    [us] are the whole seconds and the rounded microseconds the code splits the double into. *)
Theorem seconds_carry oob d u ip us :
  split_seconds oob u = (ip, us) → 0 ≤ us ≤ MICROSECONDS_PER_SECOND →
  0 ≤ microsecond d < MICROSECONDS_PER_SECOND →
  is_s 55 (posix_timestamp d) → is_s 55 (ip + 1) → is_s 55 ip →
  (∃ d', plus_equal_operator oob (FDateTime d) (FFloat u) = Ok (FDateTime d') ∧
    0 ≤ microsecond d' < MICROSECONDS_PER_SECOND ∧
    total_microseconds d' = total_microseconds d + (ip * MICROSECONDS_PER_SECOND + us) ∧
    time_zone_offset d' = time_zone_offset d) ∧
  ∃ d', minus_equal_operator oob (FDateTime d) (FFloat u) = Ok (FDateTime d') ∧
    0 ≤ microsecond d' < MICROSECONDS_PER_SECOND ∧
    total_microseconds d' = total_microseconds d - (ip * MICROSECONDS_PER_SECOND + us) ∧
    time_zone_offset d' = time_zone_offset d.
Proof.
  intros Hs Hus Hd Hp Hip1 Hip. split.
  - destruct (date_time_plus_spec oob d u ip us) as (d' & He & Hm & Ht & Hz); try done.
    exists d'. unfold plus_equal_operator. rewrite He, Ht. split_and!; [done|lia|lia|lia|done].
  - destruct (date_time_minus_spec oob d u ip us) as (d' & He & Hm & Ht & Hz); try done.
    exists d'. unfold minus_equal_operator. rewrite He, Ht. split_and!; [done|lia|lia|lia|done].
Qed.

(** The double 2.75, and a time with 400000 microseconds. *)
Definition seconds_2_75 : Z := 4613374868287651840.
Definition noon : flex_date_time := MkDateTime 43200 0 25 400000.

Lemma seconds_carry_witness :
  (∃ d', plus_equal_operator (λ _, 0) (FDateTime noon) (FFloat seconds_2_75) = Ok (FDateTime d') ∧
    0 ≤ microsecond d' < MICROSECONDS_PER_SECOND ∧
    total_microseconds d' = total_microseconds noon + (2 * MICROSECONDS_PER_SECOND + 750000) ∧
    time_zone_offset d' = time_zone_offset noon) ∧
  ∃ d', minus_equal_operator (λ _, 0) (FDateTime noon) (FFloat seconds_2_75) = Ok (FDateTime d') ∧
    0 ≤ microsecond d' < MICROSECONDS_PER_SECOND ∧
    total_microseconds d' = total_microseconds noon - (2 * MICROSECONDS_PER_SECOND + 750000) ∧
    time_zone_offset d' = time_zone_offset noon.
Proof.
  apply (seconds_carry (λ _, 0) noon seconds_2_75 2 750000); by vm_compute.
Defined.

(** Integer addition and subtraction wrap around at 64 bits and undo each other; adding
    whole seconds to a date-time wraps the time stamp around at its 56 bits, keeps the time zone
    and the microseconds, and is undone by the subtraction. *)
Theorem addition_undone oob a b d n :
  is_s64 a →
  (∃ s, plus_equal_operator oob (FInt a) (FInt b) = Ok s ∧
    minus_equal_operator oob s (FInt b) = Ok (FInt a)) ∧
  ∃ d', plus_equal_operator oob (FDateTime d) (FInt n) = Ok (FDateTime d') ∧
    posix_timestamp d' = sw 56 (posix_timestamp d + n) ∧
    time_zone_offset d' = time_zone_offset d ∧ microsecond d' = microsecond d ∧
    ∃ d'', minus_equal_operator oob (FDateTime d') (FInt n) = Ok (FDateTime d'') ∧
      dt_identical d'' d = true.
Proof. intros Ha. split; [by apply plus_minus_int|apply date_time_plus_int]. Qed.

Lemma addition_undone_witness :
  (∃ s, plus_equal_operator (λ _, 0) (FInt 9223372036854775807) (FInt 5) = Ok s ∧
    minus_equal_operator (λ _, 0) s (FInt 5) = Ok (FInt 9223372036854775807)) ∧
  ∃ d', plus_equal_operator (λ _, 0) (FDateTime noon) (FInt (-50000)) = Ok (FDateTime d') ∧
    posix_timestamp d' = sw 56 (posix_timestamp noon + -50000) ∧
    time_zone_offset d' = time_zone_offset noon ∧ microsecond d' = microsecond noon ∧
    ∃ d'', minus_equal_operator (λ _, 0) (FDateTime d') (FInt (-50000)) = Ok (FDateTime d'') ∧
      dt_identical d'' noon = true.
Proof. by apply (addition_undone (λ _, 0) 9223372036854775807 5 noon (-50000)). Defined.

(** An integer division that does not stop the program gives a 64-bit quotient, and the
    remainder of the same operands is what is missing to the dividend, smaller than the divisor
    and of the dividend's sign. *)
Theorem division_with_remainder oob a b q :
  is_s64 a → is_s64 b → divide_equal_operator oob (FInt a) (FInt b) = Ok (FInt q) →
  ∃ r, mod_equal_operator oob (FInt a) (FInt b) = Ok (FInt r) ∧
    a = b * q + r ∧ Z.abs r < Z.abs b ∧ 0 ≤ r * a ∧ is_s64 q.
Proof.
  intros Ha Hb Hd. unfold divide_equal_operator in Hd.
  apply fmap_Ok in Hd as (q' & Hq & E). injection E as ->.
  destruct (int_div_mod a b q' Ha Hb Hq) as (r & Hr & H). exists r.
  unfold mod_equal_operator. by rewrite Hr.
Qed.

Lemma division_with_remainder_witness :
  ∃ r, mod_equal_operator (λ _, 0) (FInt (-7)) (FInt 2) = Ok (FInt r) ∧
    -7 = 2 * -3 + r ∧ Z.abs r < Z.abs 2 ∧ 0 ≤ r * -7 ∧ is_s64 (-3).
Proof. by apply (division_with_remainder (λ _, 0) (-7) 2 (-3)). Defined.

(** [get_int] of the string of an integer is that integer, at every 64-bit value: the
    string visitor and the integer visitor are inverse on integers. *)
Theorem integer_text_round_trip oob overflow double_to_string iso n :
  is_s64 n →
  get_int_visitor oob overflow (FString (get_string_visitor double_to_string iso (FInt n))) = Ok n.
Proof. intros Hn. cbn [get_int_visitor get_string_visitor]. by rewrite atoll_int_to_string. Qed.

Lemma integer_text_round_trip_witness :
  get_int_visitor (λ _, 0) (λ _, 0)
    (FString (get_string_visitor (λ _, []) (λ _ _, []) (FInt (-9223372036854775808))))
  = Ok (-9223372036854775808).
Proof. by apply integer_text_round_trip. Defined.

(** The loop that turns an offset of any size into steps of a 32-bit time duration ends,
    its steps fit 32 bits, and they add up to the offset. *)
Theorem time_steps_add_up offset :
  ∃ l, time_t_steps (S (Z.to_nat (Z.abs offset / max_int32))) offset = Some l ∧
    foldr Z.add 0 l = offset ∧ Forall (is_s 32) l.
Proof. apply time_t_steps_spec. Qed.

(** The hash of a dict ignores its values: dicts with the same keys in the same order have
    the same hash, whatever the hash functions. *)
Theorem dict_hash_ignores_values hash64 hash64_bytes hash64_combine d d' :
  map fst d = map fst d' →
  city_hash_visitor hash64 hash64_bytes hash64_combine (FDict d)
  = city_hash_visitor hash64 hash64_bytes hash64_combine (FDict d').
Proof. apply dict_hash_keys. Qed.

Lemma dict_hash_ignores_values_witness :
  city_hash_visitor (λ x, x) (λ _, 7) Z.lxor (FDict [(FInt 1, FInt 2)])
  = city_hash_visitor (λ x, x) (λ _, 7) Z.lxor (FDict [(FInt 1, FString [65])]).
Proof. by apply dict_hash_ignores_values. Defined.

(** Erasing a key of a dict removes the first entry that equals it and keeps all others in
    their order; the look-up of a key finds the first entry that equals it, and throws when
    there is none. *)
Theorem dict_erase_and_find hash index d :
  (Forall (λ kv, approx_equality_operator hash kv.1 index = false) d ∧
    erase hash index (FDict d) = Ok (FDict d) ∧ dict_at hash index (FDict d) = Throw) ∨
  ∃ l kv r, d = l ++ kv :: r ∧ approx_equality_operator hash kv.1 index = true ∧
    Forall (λ kv, approx_equality_operator hash kv.1 index = false) l ∧
    erase hash index (FDict d) = Ok (FDict (l ++ r)) ∧ dict_at hash index (FDict d) = Ok kv.2.
Proof.
  destruct (erase_first_spec hash index d) as [[He Hno]|(l & kv & r & Hd & He & Hk & Hl)].
  - left. split_and!; [done|by cbn; rewrite He|by apply dict_at_missing].
  - right. exists l, kv, r. destruct (dict_at_erase hash index d l kv r Hd Hk Hl) as (H1 & H2 & _).
    by split_and!.
Qed.

End Operators.

(** * Escaping *)

Module Escapes.
Import StringEscape.

(** A text without NUL and without a backslash before a [u] is read back by the in-place [unescape_string] from its escaped
    form, with the backslash as escape character and any quote character that the doubling of
    quotes supports. *)
Theorem escape_round_trip quote_char double_quote val :
  plain_text val = true → quoting_ok quote_char double_quote = true →
  unescape_string BACKSLASH quote_char double_quote
    (escape_string BACKSLASH true quote_char false double_quote val) = Some val.
Proof.
  intros Hp Hq. unfold escape_string, quotes. cbn [app]. rewrite app_nil_r.
  by rewrite unescape_string_spec, unescape_escape.
Qed.

(** [a, backslash, quote, tab, quote, e-acute in UTF-8]. *)
Definition sample : list Z := [97; 92; 34; 9; 34; 195; 169].

Lemma escape_round_trip_witness :
  unescape_string BACKSLASH DQUOTE true (escape_string BACKSLASH true DQUOTE false true sample)
  = Some sample.
Proof. by apply (escape_round_trip DQUOTE true sample). Defined.

(** C36: the in-place [unescape_string], which writes over the text it is still reading, ends on
    every text, never reads what it has overwritten, and leaves what the same rules give on an
    immutable text, which is never longer. *)
Theorem unescape_in_place escape_char quote_char double_quote s :
  unescape_string escape_char quote_char double_quote s
    = Some (unescape escape_char quote_char double_quote s) ∧
  (length (unescape escape_char quote_char double_quote s) ≤ length s)%nat.
Proof. split; [apply unescape_string_spec|apply length_unescape]. Qed.

(** Escaping commas (and backslashes) and unescaping them gives the text back. *)
Theorem comma_escape_round_trip val : comma_unescape_string (comma_escape_string val) = val.
Proof. apply comma_unescape_escape. Qed.

(** The escape (a [u] and four hexadecimal digits) of a code point outside the surrogates, and the escape of a pair
    whose high surrogate is in the range the code accepts, are replaced by the UTF-8 form of
    the code point, which decodes to it. *)
Theorem unicode_escapes escape_char quote_char double_quote v hi lo rest :
  is_u 16 v → ¬ 0xD800 ≤ v ≤ 0xDFFF → 0xD800 ≤ hi ≤ 0xD8FF → 0xDC00 ≤ lo ≤ 0xDFFF →
  let read := unescape escape_char quote_char double_quote in
  let cp := 0x10000 + (hi - 0xD800) * 1024 + (lo - 0xDC00) in
  read ([escape_char; ch_u] ++ hex4 v ++ rest) = write_utf8 v ++ read rest ∧
  read ([escape_char; ch_u] ++ hex4 hi ++ [escape_char; ch_u] ++ hex4 lo ++ rest)
    = write_utf8 cp ++ read rest ∧
  ∀ tail, decode_utf8 (write_utf8 v ++ tail) = Some (v, tail) ∧
    decode_utf8 (write_utf8 cp ++ tail) = Some (cp, tail).
Proof.
  intros Hv Hs Hhi Hlo read cp. unfold is_u in Hv. eval_pow. split_and!.
  - by apply unescape_unicode.
  - by apply unescape_surrogates.
  - intros tail. split; apply decode_write_utf8; unfold cp; lia.
Qed.

Lemma unicode_escapes_witness :
  let read := unescape BACKSLASH DQUOTE true in
  read ([BACKSLASH; ch_u] ++ hex4 0x20AC ++ [33]) = write_utf8 0x20AC ++ read [33] ∧
  read ([BACKSLASH; ch_u] ++ hex4 0xD83D ++ [BACKSLASH; ch_u] ++ hex4 0xDE00 ++ [33])
    = write_utf8 0x1F600 ++ read [33] ∧
  ∀ tail, decode_utf8 (write_utf8 0x20AC ++ tail) = Some (0x20AC, tail) ∧
    decode_utf8 (write_utf8 0x1F600 ++ tail) = Some (0x1F600, tail).
Proof.
  apply (unicode_escapes BACKSLASH DQUOTE true 0x20AC 0xD83D 0xDE00 [33]); [done|lia|lia|lia].
Defined.

(** The output buffers are large enough: [escape_string] never writes more than the
    [2 + 2 * length] bytes it reserves, for any characters and options, nor
    [comma_escape_string] more than twice the length. *)
Theorem escape_fits_buffer escape_char use_escape_char quote_char use_quote double_quote val :
  (length (escape_string escape_char use_escape_char quote_char use_quote double_quote val)
    ≤ 2 + 2 * length val)%nat ∧
  (length (comma_escape_string val) ≤ 2 * length val)%nat.
Proof. split; [apply escape_string_capacity|apply comma_escape_capacity]. Qed.

End Escapes.

(** * Delimited text *)

Module Csv.
Import FlexType StringEscape CsvTokenizer CsvWriter CsvRoundTrip.

(** C4: a row of strings that the CSV writer writes is read back by the tokenizer into columns
    of type STRING, field by field, when both are given the same characters ([agree]) and no
    field reads as something else when it stands without quotes ([field_ok]). *)
Theorem csv_row_round_trip t parser w d permit_undefined to_string row cols :
  agree t w d → row ≠ [] → length cols = length row →
  Forall (λ c, get_type c = STRING) cols →
  Forall (λ s, field_ok t w d permit_undefined (1 <? length row)%nat s = true) row →
  ∃ line, write w to_string (map FString row) = line ++ CsvWriter.line_terminator w ∧
    tokenize_line t parser permit_undefined None line cols = Some (length row, map FString row).
Proof. intros Ha. by apply tokenize_written. Qed.

Definition comma_tokenizer : csv_line_tokenizer :=
  MkTokenizer false BACKSLASH true [COMMA] [NL] 35 true true DQUOTE [].
Definition comma_writer : csv_writer :=
  MkWriter [COMMA] BACKSLASH true true DQUOTE [NL] QUOTE_NONNUMERIC [].
(** A parser of other types, which columns of strings do not consult. *)
Definition no_parser : flexible_type_parser :=
  let fails : value_parser := λ _, (FUndefined, false, 0%nat) in
  MkParser fails fails fails fails fails fails fails.

(** The fields [a, tab, b], nothing, and [c,d]. *)
Definition fields : list (list Z) := [[97; 9; 98]; []; [99; 44; 100]].

Lemma csv_row_round_trip_witness :
  ∃ line, write comma_writer (λ _, []) (map FString fields) = line ++ [NL] ∧
    tokenize_line comma_tokenizer no_parser true None line (replicate 3 (FString []))
    = Some (3%nat, map FString fields).
Proof.
  apply (csv_row_round_trip comma_tokenizer no_parser comma_writer COMMA true (λ _, []) fields).
  - split; try done. by right.
  - done.
  - done.
  - by repeat constructor.
  - repeat constructor; by vm_compute.
Defined.

(** C39: the three tokenizers end on every line: the one that calls back always; the one for
    strings when the quote character is not white space; and the typed one on every line
    without quote characters, whatever the types of the columns, the order they are asked for
    and the parsers of the types, as long as the order names columns that exist. *)
Theorem tokenizing_ends t parser :
  (∀ (A : Type) (fn : list Z → A → bool * A) str u, is_Some (tokenize_line_callback t parser fn str u)) ∧
  (isspace (CsvTokenizer.quote_char t) = false → ∀ str, is_Some (tokenize_line_strings t parser str)) ∧
  ∀ permit_undefined output_order output str,
    (∀ o i, output_order = Some o → Some i ∈ o → (i < length output)%nat) →
    Forall (λ c, c ≠ CsvTokenizer.quote_char t) str →
    is_Some (tokenize_line t parser permit_undefined output_order str output).
Proof.
  split_and!.
  - intros A fn. apply tokenize_callback_total.
  - intros Hq str. by apply tokenize_strings_total.
  - intros permit_undefined output_order output str Ho Hs. by apply tokenize_typed_total.
Qed.

(** A delimiter of several characters inside a quoted field loses all its characters but
    the last: with the delimiter [::], the quoted field [a::b] reads as [a:b]. *)
Theorem quoted_delimiter_is_cut :
  let t := MkTokenizer false BACKSLASH true [58; 58] [NL] 35 true true DQUOTE [] in
  tokenize_line t no_parser true None [34; 97; 58; 58; 98; 34] [FString []]
  = Some (1%nat, [FString [97; 58; 98]]).
Proof. by vm_compute. Qed.

(** With the writer's default settings a quote in a field that needs no other quoting is
    doubled but not quoted, and the tokenizer does not undouble it: a field with one quote
    between two letters comes back with two. *)
Theorem doubled_quotes_come_back_doubled :
  write comma_writer (λ _, []) [FString [97; 34; 98]; FString [99]] = [97; 34; 34; 98; 44; 99] ++ [NL] ∧
  tokenize_line comma_tokenizer no_parser true None [97; 34; 34; 98; 44; 99] [FString []; FString []]
  = Some (2%nat, [FString [97; 34; 34; 98]; FString [99]]).
Proof. split; by vm_compute. Qed.

End Csv.

(** * Bit sets and bit operations *)

Module Bits.
Import Bitset.

(** Writing a bit returns its old value and changes that bit only, seen through [get]: all
    other positions read what they read before, and the bits past the length stay clear. *)
Theorem set_then_get d b value :
  wf d → (b < len d)%nat →
  ∃ old d', set b value d = Some (old, d') ∧ get d b = Some old ∧ wf d' ∧ len d' = len d ∧
    ∀ i, (i < len d)%nat → get d' i = if (i =? b)%nat then Some value else get d i.
Proof.
  intros Hwf Hb. assert (∃ d', set b value d = Some (bit d b, d') ∧ wf d' ∧ len d' = len d ∧
    ∀ i, bit d' i = if (i =? b)%nat then value else bit d i) as (d' & Hs & Hwf' & Hl & Hbits).
  { destruct value.
    - by apply (update_bit_spec _ _ _ _ acts_or).
    - by apply (update_bit_spec _ _ _ _ acts_clear). }
  exists (bit d b), d'. split_and!; [done|by apply get_spec|done|done|].
  intros i Hi. rewrite !get_spec by (done || lia). rewrite Hbits. by destruct (i =? b)%nat.
Qed.

(** Seventy bits, with the bits 3, 64 and 69 set. *)
Definition some_bits : dense_bitset := MkBitset [8; 33] 70.

Lemma some_bits_wf : wf some_bits.
Proof.
  split; [done|by repeat constructor|]. intros i Hi. cbn [len some_bits] in Hi. unfold bit.
  cbn [array some_bits]. destruct (decide (128 ≤ i)%nat) as [H|H].
  - assert ((2 ≤ i / 64)%nat) as Hq by (apply Nat.div_le_lower_bound; lia).
    by rewrite (proj2 (lookup_ge_None _ _)) by done.
  - assert (i / 64 = 1)%nat as -> by (symmetry; apply (Nat.div_unique i 64 1 (i - 64)); lia).
    replace (i `mod` 64)%nat with (i - 64)%nat by (apply (Nat.mod_unique i 64 1 (i - 64)); lia).
    apply (testbit_above 6 33); [lia|unfold is_u; lia].
Defined.

Lemma set_then_get_witness :
  ∃ old d', set 69 false some_bits = Some (old, d') ∧ get some_bits 69 = Some old ∧ wf d' ∧
    len d' = 70%nat ∧
    ∀ i, (i < 70)%nat → get d' i = if (i =? 69)%nat then Some false else get some_bits i.
Proof. apply (set_then_get some_bits 69 false); [apply some_bits_wf|cbn; lia]. Defined.

(** Iterating over a bit set gives the positions of its set bits, each once and in
    increasing order, and no others; [popcount] is their number; and [empty] says whether there
    are none. *)
Theorem iteration_enumerates d :
  wf d →
  elements d = List.filter (bit d) (seq 0 (len d)) ∧
  (∀ i, i ∈ elements d ↔ get d i = Some true ∧ (i < len d)%nat) ∧
  popcount d = Z.of_nat (length (elements d)) ∧
  (empty d = true ↔ elements d = []).
Proof.
  intros Hwf. rewrite elements_spec by done. split_and!; [done| |by apply popcount_spec|].
  - intros i. unfold set_positions. rewrite list_elem_of_In, List.filter_In, in_seq. split.
    + intros [Hi Hb]. rewrite get_spec, Hb by (done || lia). split; [done|lia].
    + intros [Hb Hi]. rewrite get_spec in Hb by done. injection Hb as ->. split; [lia|done].
  - by apply empty_elements.
Qed.

Lemma iteration_enumerates_witness :
  elements some_bits = List.filter (bit some_bits) (seq 0 70) ∧
  (∀ i, i ∈ elements some_bits ↔ get some_bits i = Some true ∧ (i < 70)%nat) ∧
  popcount some_bits = Z.of_nat (length (elements some_bits)) ∧
  (empty some_bits = true ↔ elements some_bits = []).
Proof. apply (iteration_enumerates some_bits), some_bits_wf. Defined.

(** [transfer_approximate_unsafe] ends when it starts at one of the words but the first, or
    when there are at least [b] bits to move. Each bit is then in one of the two sets exactly
    when it was in one of them before, none leaves the receiving set, the count it returns is
    the number of bits that left the other set, and either [b] bits were moved or none is
    left. *)
Theorem transfer_conserves fuel this other start b :
  wf this → wf other → len other = len this → (0 < len this)%nat →
  (2 * arrlen other + 1 < fuel)%nat →
  (0 < start / 64 < arrlen other)%nat ∨ b ≤ popcount other →
  ∃ start' moved this' other',
    transfer_approximate_unsafe fuel this other start b = Some (start', moved, this', other') ∧
    len this' = len this ∧ len other' = len this ∧
    (∀ i, bit this' i || bit other' i = bit this i || bit other i) ∧
    (∀ i, bit this i = true → bit this' i = true) ∧
    popcount other' = popcount other - moved ∧
    (b ≤ moved ∨ empty other' = true) ∧ (start' < 64 * arrlen other)%nat.
Proof. exact (transfer_spec fuel this other start b). Qed.

Lemma transfer_conserves_witness :
  ∃ start' moved this' other',
    transfer_approximate_unsafe 10 some_bits some_bits 64 5 = Some (start', moved, this', other') ∧
    len this' = 70%nat ∧ len other' = 70%nat ∧
    (∀ i, bit this' i || bit other' i = bit some_bits i || bit some_bits i) ∧
    (∀ i, bit some_bits i = true → bit this' i = true) ∧
    popcount other' = popcount some_bits - moved ∧
    (5 ≤ moved ∨ empty other' = true) ∧ (start' < 128)%nat.
Proof.
  apply (transfer_conserves 10 some_bits some_bits 64 5);
    [apply some_bits_wf|apply some_bits_wf|done|cbn; lia|cbn; lia|left; cbn; lia].
Defined.

(** C40: [transfer_approximate_unsafe] never ends when it starts in the first word, or past the
    last one, and the other set has fewer than [b] bits: no number of iterations is enough. *)
Theorem transfer_never_ends this other start b :
  wf this → wf other → len other = len this → (0 < len this)%nat →
  ¬ ((0 < start / 64 < arrlen other)%nat ∨ b ≤ popcount other) →
  ∀ fuel, transfer_approximate_unsafe fuel this other start b = None.
Proof. intros H1 H2 H3 H4 H5 fuel. exact (transfer_stuck fuel this other start b H1 H2 H3 H4 H5). Qed.

Lemma transfer_never_ends_witness :
  transfer_approximate_unsafe 1000 some_bits some_bits 0 4 = None.
Proof.
  apply (transfer_never_ends some_bits some_bits 0 4);
    [apply some_bits_wf|apply some_bits_wf|done|cbn; lia|].
  intros [H|H]; [cbn in H; lia|]. vm_compute in H. by apply H.
Defined.

(** A bit set is read back by [load] from the bytes [save] writes, whatever follows. *)
Theorem bitset_save_load d :
  wf d → is_u64 (Z.of_nat (len d)) →
  ∃ bs, save d = Some bs ∧ ∀ rest, load (bs ++ rest) = Some (d, rest).
Proof. intros Hwf Hl. exact (bitset_round_trip d (conj Hwf Hl)). Qed.

Lemma bitset_save_load_witness :
  ∃ bs, save some_bits = Some bs ∧ ∀ rest, load (bs ++ rest) = Some (some_bits, rest).
Proof. apply (bitset_save_load some_bits); [apply some_bits_wf|done]. Defined.

(** On words of any width, [bitwise_log2_ceil] and [bitwise_log2_floor] are the logarithms
    rounded up and down, and [n_leading_zeros] is what is missing to the width. *)
Theorem logarithms w v :
  0 < w → is_u w v → 0 < v →
  Bitops.bitwise_log2_ceil w v = Z.log2_up v ∧
  2 ^ Bitops.bitwise_log2_floor w v ≤ v < 2 ^ (Bitops.bitwise_log2_floor w v + 1) ∧
  2 ^ (w - Bitops.n_leading_zeros w v - 1) ≤ v < 2 ^ (w - Bitops.n_leading_zeros w v).
Proof.
  intros Hw Hu Hv. split_and!.
  - by apply Bitops.bitwise_log2_ceil_spec.
  - by apply Bitops.bitwise_log2_floor_spec.
  - by apply Bitops.bitwise_log2_floor_spec.
  - by apply Bitops.n_leading_zeros_tight.
  - by apply Bitops.n_leading_zeros_spec.
Qed.

Lemma logarithms_witness :
  Bitops.bitwise_log2_ceil 64 1000 = Z.log2_up 1000 ∧
  2 ^ Bitops.bitwise_log2_floor 64 1000 ≤ 1000 < 2 ^ (Bitops.bitwise_log2_floor 64 1000 + 1) ∧
  2 ^ (64 - Bitops.n_leading_zeros 64 1000 - 1) ≤ 1000 < 2 ^ (64 - Bitops.n_leading_zeros 64 1000).
Proof. by apply (logarithms 64 1000). Defined.

End Bits.
